(* ===== verification/_CoqProject ===== *)
-Q . S2P
Prelude.v
CInt.v
Util.v
Buffer.v
LzvnDecode.v
LzvnEncode.v
LzvnInstr.v
LzvnEmit.v
LzvnRoundtrip.v
LzvnSafe.v
Fse.v
FseNormalize.v
FseStream.v
LzfseHeader.v
LzfseBlock.v
LzfsePayload.v
LzfseBlockRoundtrip.v
LzfseMatch.v
LzfseSearch.v
LzfseBlockSafe.v
Lzfse.v
Object.v
StrObj.v
Containers.v
ListObj.v
HashObj.v
SetObj.v
ZSetObj.v
Json.v
JsonRoundtrip.v
Request.v
Database.v
Rdb.v
DecodeWf.v
Command.v
Exec.v
ExecWf.v
Spec.v
CommandSpec.v
TextSpec.v
Client.v
RedisCli.v
Interest.v
Timer.v
Loop.v
LoopWf.v
Served.v
Persistence.v
Replay.v
Scenario.v
Config.v
UpgradeLock.v
Lru.v
SnBits.v
SizeClass.v
MetaEntry.v
RbTree.v
RbShape.v
RbRun.v
FreeList.v
FreeListSpec.v
SeqSet.v
Slab.v
SlabSpec.v
RemoteQueue.v
RemoteQueueSpec.v
RbInsert.v
RbRemove.v
Buddy.v
BuddySpec.v
BuddyChunk.v
BuddyInplace.v
RbSet.v
BuddyMemory.v
RangeBlocks.v
SnRange.v
LargeRange.v
SmallRange.v
RangeStack.v
