(* ===== verification/Prelude.v ===== *)
(** * rds: a verification development for the ForkRedis server

    The repository is a small Redis-like server written in C++ ([src/src], headers in
    [src/includes], programs [src/redis-server.cc] and [src/redis-cli.cc]) on top of
    json11, lzfse and the allocator snmalloc ([src/third]).  This library models its data, its operations and
    its threads, and proves what holds of them, defects included.

    ** The program

    - A request is a JSON array of strings.  [ClientInfo] (server.cc) collects the bytes
      of a connection, cuts them into requests and queues the printed answers.
    - [RequestToCommandExec] (command.cc) turns a request into a command object of one
      of eight groups; [Exec] of the object finds the key in the client's database and
      calls one operation of [Str], [List], [Hash], [Set] or [ZSet] (objects/).
    - A [Db] (db.cc) maps keys to objects with an expiry; a process-wide table hands out
      the numbers of databases.  EXPIRE gives a timer to the queue of timer.cc.
    - [MainLoop] and [Handler] (loop.cc, handler.cc) run the threads: one accepts
      connections and announces clients, some read clients and append commands to a
      queue, one executes the commands, one executes the timers that are due.
    - A timer saves all databases to a file (rdb.cc), from which the next start reads
      them; or another one appends the logged requests to it (aof.cc).

    - The programs are linked against snmalloc.  Its back end is a stack of ranges that
      hand out and take back blocks of memory, each built on the one below it; two kinds
      keep free blocks in buddy allocators, whose red-black trees live in the free blocks
      themselves or in the pagemap.

    ** The files of the library

    - Prelude: faults and the error monad, lists, finite maps, tactics, hints.
    - CInt, Util: machine integers of C++ with their wrap-around, [std::stoi],
      [std::to_string], the byte images of util.cc, the loops of [Compress] and
      [Decompress], the configuration record.  The compression library is the class
      [Lzfse], with the documented behaviour of lzfse.h as [LzfseLaws].
    - Buffer: buffers of bytes, their sizes and loads.
    - LzvnDecode, LzvnEncode: the decoder and the encoder of third/lzfse/src/lzvn_*.c;
      LzvnInstr, LzvnEmit, LzvnRoundtrip: what instructions denote, what the encoder
      emits, and its invariant; LzvnSafe: the decoder on arbitrary bytes.
    - Fse, FseNormalize, FseStream (with the module FseCoder): the finite state entropy coder of lzfse_fse.c
      and lzfse_fse.h, its tables, the scaling of frequencies, its streams as stacks of
      bits, and a symbol that is written and read.
    - LzfseHeader (with LzfseTables), LzfseBlock: the packed headers, the classes of lengths and
      distances, and the compressed blocks of lzfse_encode_base.c and
      lzfse_decode_base.c; LzfsePayload (with LzfseExpand), LzfseBlockRoundtrip: what payloads
      and matches stand for, and that a block is read back; LzfseBlockSafe: the decoder
      of blocks on arbitrary bytes.
    - LzfseMatch: the search for matches and the back end of lzfse_encode_base.c;
      LzfseSearch (with LzfseCover): the invariants of the back end and of the front end.
    - Lzfse: the streams of blocks of lzfse_encode.c, lzfse_decode.c and
      lzfse_decode_base.c, as an instance of the class that satisfies its laws.
    - Object, StrObj, ListObj, HashObj, SetObj, ZSetObj: objects/*.h and *.cc, one
      module per class, the C++ names of the operations kept.  Containers
      holds the hash and tree containers of the standard library they use.
    - Json: the values, the printer and the parser of third/json11/json11.cpp;
      JsonRoundtrip: the parser undoes the printer.
    - Request: the two functions [RawCommandToRequest] (command.cc and redis-cli.cc);
      RedisCli: the loop of the client program, and the words of both on the wire ([Words]).
    - Database: database/db.h, db.cc; Rdb: disk.cc, rdb.cc and [AOFSave] of aof.cc.
    - Command: the command objects and their parsers; Exec: [Exec] of the object
      commands.  Client: [ClientInfo] of server.cc; Interest: [EnableSend] and
      [EnableRead], with the steps of the io thread and the command thread of
      handler.cc that call them.  Timer: the timers and [TimerQue].
    - Loop: [World], the state of the process; the constructor and destructors of
      [MainLoop], the other [Exec] functions, the turns of the threads ([step]).
    - DecodeWf, ExecWf, Spec, CommandSpec, TextSpec, LoopWf, Served, Persistence,
      Replay: theorems that span components.  Scenario: a concrete run on which they are
      evaluated.
    - Config: [LoadConf] of util.cc and [main] of redis-server.cc.
    - UpgradeLock and Lru: the lock of database/lru.h and the LRU list of
      database/lru.cc, which the server does not use yet.
    - SnBits: snmalloc's bit manipulation (bits.h), with the modules Address for pointer
      arithmetic (address.h) and AllocConfig for the constants of allocconfig.h.  MetaEntry:
      pagemap entries (metadata.h).  SizeClass: the tables of sizeclasstable.h.
    - FreeList: the generator of entropy.h ([Entropy]); the lists of freelist.h, which run through the freed objects, their keys
      and signatures and the builder with its queues; FreeListSpec: the builder against
      queues.  RemoteQueue: the queue of messages of remoteallocator.h, an access to
      memory at a time; RemoteQueueSpec: the threads together.
    - SeqSet: the cyclic doubly linked lists of seqset.h.  Slab: the metadata of a slab
      (FrontendSlabMetadata of metadata.h) and what corealloc.h does with one slab; SlabSpec:
      a slab as the set of its objects.
    - RbTree: the red-black tree of redblacktree.h, as computations in the store of its
      representation; RbShape: the laws of a representation, and trees and contexts in a
      store; RbRun: a weakest precondition for its operations; RbInsert, RbRemove:
      insertion and removal; RbSet: the tree against finite sets.
    - Buddy: the buddy allocator of buddy.h; BuddySpec and BuddyMemory: what it promises.
      BuddyChunk and BuddyInplace: the two representations, [BuddyChunkRep] of
      largebuddyrange.h and [BuddyInplaceRep] of smallbuddyrange.h, with their laws.
    - RangeBlocks: the loop of range_helpers.h.  SnRange: the ranges of backend_helpers,
      with their interface [Range] and its laws [RangeLaws]; LargeRange and SmallRange:
      the buddy ranges, lawful over a lawful parent; RangeStack: their composition.

    ** What the theorems show

    - Objects: each operation keeps the invariant of its object ([Str_wf], [Hash_wf],
      [Set_wf], [ZSet_wf] for the three linked containers of a sorted set) and refines
      an operation on an abstract value: a finite map, a finite set, a list of members
      and scores (files StrObj to ZSetObj, Spec).  Images decode to the object that was
      encoded; arbitrary images decode to well-formed objects or fail (DecodeWf).
    - Commands: a request the parser accepts carries the arguments [Exec] reads, the
      answer and the new object are those of the specification, and no other key
      changes (ExecWf, CommandSpec, TextSpec).
    - Wire format: the parser ends on every input, printed values are parsed back, and
      the segmentation of the byte stream does not matter (Json, JsonRoundtrip, Client);
      what the client program writes, the server receives (RedisCli).
    - From request to answer: with an empty queue of commands and no log, the requests of
      one client are answered as if they were served one after another, in whatever order
      the thread that reads and the thread that executes take their turns, but that
      ENDFORKING, which logs the client out, waits until all of them are read (Served).  Answers that wait are announced,
      but for one race and for a stale [errno] (Interest).
    - Compression: frequencies share out the states of the coder, what it writes it
      reads back, and so do headers, payloads and blocks (FseNormalize, LzfseHeader,
      LzfsePayload, LzfseBlockRoundtrip); every source of less than 2^31 - 1 bytes is
      encoded inside the buffers and restored (LzvnRoundtrip, Lzfse).  On arbitrary bytes
      the decoders end, read and write within the bounds of their buffers, tables and
      literals and fulfil the assertions; the one exception is a match of an LZVN block
      before any distance was given (LzvnSafe, LzfseBlockSafe, Lzfse).
      The growing loops of util.cc end and undo each other.
    - Process: in every state that can be reached from the start, whatever the clients
      send and however the threads interleave, pointers are valid and data well formed;
      timers run in order and as soon as they are due (Timer, LoopWf).
    - Persistence: what a snapshot saved is what the next start loads; what a log holds
      is the sequence of the logged requests (Rdb, Persistence); the requests FORK and
      REWRITE send rebuild a database whose texts are words, without the expiries (Replay).
    - Configuration: what is written to the file is loaded, and what happens without it
      (Config).  The lock of lru.h excludes, and deadlocks once it has to wait; the LRU
      list is in the order of use, but cannot be filled (UpgradeLock, Lru).
    - Allocator: an operation of the tree keeps it a red-black search tree and is the
      operation of a finite set, for every representation with the laws (RbSet); a buddy
      allocator holds the blocks it was given, neither losing nor inventing a byte, joins
      what may be joined, and fails only when it must (BuddyMemory); ranges are cut into
      aligned blocks that tile them (RangeBlocks); a stack of ranges never hands out a
      byte twice and never faults, whatever the program writes to its own blocks in
      between (RangeStack).
    - Objects: a request gets the smallest class that serves it; the start of an object and
      its index are found by a multiplication for every address of a slab; objects have the
      alignment that was asked for (SizeClass).  A builder of free objects is a set of
      queues whatever mitigations are configured, whatever the keys and random bits and
      whatever the program writes to its own objects (FreeListSpec).  The queue of messages
      delivers each object once and in the order of arrival, in every interleaving of the
      senders with the owner (RemoteQueueSpec).  Sets that share nodes are lists (SeqSet).  A
      new slab has each of its objects in its list, however they are shuffled; it hands out
      and takes back its objects, and its counter tells when it is to be woken and when it
      is empty (SlabSpec).
    - Defects are stated as theorems about what the code does: LREM removes nothing,
      SPOP returns an element it leaves in the set, a start without a snapshot is
      undefined behaviour, a snapshot rewrites or throws on texts of digits, destroying a database frees another one's number, a stale
      timer deletes a recreated key, and others in their components.

    ** Modelling decisions

    - [result] separates the reasons for which the process stops.  Nothing in the
      program catches exceptions, so a fault ends the run; assertions are those of the
      debug build; an access out of bounds is [Undefined].
    - The execution of one command, of one timer, one turn of an io thread and one
      event of the listening loop are atomic steps: the locks (latches) of the code make
      them so for a single object, and one thread executes commands.  Their interleaving
      is any sequence of steps.
    - A client's announcement may happen at any time for a client that is registered,
      which over-approximates epoll; its interest sets are modelled for one connection
      (Interest), not as part of [World].  A [ClientInfo] lives as long as the server or an io thread refers to it.
    - The iteration order of hash containers is a parameter ([HashOrder]), and so are the
      texts of doubles ([CDouble]), the random number of SPOP, clocks, and what the kernel
      receives and sends.  Witnesses use concrete instances of these.
    - Files are a finite map from names to contents.
    - lzfse: the streams of the coder are those of 64-bit machines.  A right shift by a
      negative count, which the coder computes and does not use, is a parameter
      ([Machine]).  A buffer that is written is what has been written of it and its size.
      The tables and literals of the decoder are arrays ([block_state]): they start as the
      zeros of [memset], and what a block does not overwrite stays for the next one.  The
      tables of the encoder are fresh for each block, and an entry of a symbol that does not
      occur is indeterminate.  The memory that can be read behind the source is a parameter,
      a zero for the server's strings.
    - snmalloc: [size_t] and pointers have 64 bits.  A representation is a record of
      operations on a store of its own; a reference to a child is the place of a pointer,
      so that aliasing is as in the code.  The memory a tree's nodes are in is owned by
      the tree; laws are about the nodes it owns.  Ranges run without other threads.
      The words that lists of free objects run through are a finite map from addresses; an
      address that is not in it is not the program's, and reading it is [Undefined].  In the
      queue of messages a step is one access to shared memory, and memory is sequentially
      consistent; an assertion that races is stated, not executed ([invariant_race]).

    ** Bounds and fuel

    - Loops with a measure are structural where the data allows it.  [export_loop] gets
      the length of the buffer, since each turn consumes a character; [rdb_loop] the
      length of the file plus one ([RDBLoad_turns_enough]); [parse] the fuel
      [parse_fuel], shown to be enough for every text ([parse_json_ends]); [next_free]
      one more than the size of the table ([Db_new_first_free]); the buffer of
      [Compress] is doubled at most 31 times, after which its [int] size overflows;
      the digits of a number its logarithm plus one.
    - Each instruction of an LZVN stream consumes a byte, so [decode_loop] gets the length
      of the source ([lzvn_decode_safe]); the loops of the encoder get the length of the
      source, which [lzvn_roundtrip] shows to be enough; [decode_buffer] three turns per
      byte, since each turn uses up input or closes a block ([decode_buffer_safe]).  The
      theorem is about destinations of at most 2^32 - 2^16 bytes, so that sizes do not wrap.
    - The loops of the encoder of compressed blocks get the length of the source or the
      length they split; [lzfse_roundtrip] shows that they end.  Its theorems are about
      sources below 2^31 - 1 bytes, which are encoded in one piece; the model of the
      chunks of sources above 2^32 bytes is there without a theorem.
    - A path of the red-black tree has 128 entries ([path_capacity], as in the code), and
      [wp] shows that it is never exceeded for the trees of a 64-bit address space; the
      loop of removal gets 256 turns ([remove_fuel]); [add_block] joins at most once for
      each bit of an address ([buddy_fuel]); a range is cut into at most two blocks per bit
      ([blocks_fuel]); the recursion of [LargeBuddyRange] is at most three deep
      ([large_alloc]).  [wp] holds only of computations that end.
    - The walk along a list of free objects gets the size of the memory plus one
      ([validate_loop]), since the objects of a list are distinct; the loop that fills the
      table of size classes the number of its entries plus one ([lookup_loop]).  The loops
      over the objects of a slab get their number plus one, which [new_list_complete] shows
      to be enough; [iterate] the number of nodes, more than a set has elements; [drain] the
      size of the memory plus one.

    ** What is not modelled

    The load test of redis-cli, which its [main] does not call, logging, latches, sockets
    below [recv] and [send], the command line tool of lzfse and its streams of 32 bits, the
    comments, shapes and error messages of json11.  Of snmalloc: the front end above
    a slab (how the allocators of corealloc.h choose slabs, localalloc.h, the cache of
    messages), the glue of backend.h, the platform layers, locks and lazy initialisation, and the ranges that only forward to
    them; third/install holds copies of its headers.  [LargeBuddyRange] over a parent without aligned blocks is modelled,
    but not shown to be lawful. *)

From stdpp Require Import base gmap sets list strings fin_maps.
From Stdlib Require Import Ascii.

(** ** Faults and the error monad

    The program has no [catch]: an exception that leaves a worker thread ends
    the process.  A definition of the model therefore returns either a value or
    the reason why the process stops; the state after a fault is irrelevant. *)

Inductive fault :=
| OutOfRange        (* std::out_of_range: stoi, stoull, deque::at *)
| InvalidArgument   (* std::invalid_argument: stoi on a text without digits *)
| RuntimeError      (* std::runtime_error thrown by the code itself *)
| AssertFail        (* assert(...) of the debug build *)
| BadOptional       (* std::bad_optional_access *)
| Undefined         (* undefined behaviour of C++ *)
| Diverge.          (* a loop that never leaves its condition *)

#[export] Instance fault_eq_dec : EqDecision fault.
Proof. solve_decision. Defined.

Inductive result (A : Type) :=
| Ok (a : A)
| Err (f : fault).
Arguments Ok {A} a.
Arguments Err {A} f.

#[export] Instance result_eq_dec `{EqDecision A} : EqDecision (result A).
Proof. solve_decision. Defined.

#[export] Instance result_ret : MRet result := @Ok.
#[export] Instance result_bind : MBind result :=
  λ A B f m, match m with Ok a => f a | Err e => Err e end.
#[export] Instance result_fmap : FMap result :=
  λ A B f m, match m with Ok a => Ok (f a) | Err e => Err e end.

(** [assert(b)] of <cassert> in the debug build. *)
Definition assert_ (b : bool) : result unit := if b then Ok tt else Err AssertFail.

(** [o.value()] of std::optional. *)
Definition opt_value {A} (o : option A) : result A :=
  match o with Some a => Ok a | None => Err BadOptional end.

(** [v[i]] of std::vector: unchecked, so out of range is undefined. *)
Definition vec_at {A} (l : list A) (i : nat) : result A :=
  match l !! i with Some a => Ok a | None => Err Undefined end.

(** Sequencing a fallible step over the elements of a container. *)
Fixpoint foldM {S A} (f : S → A → result S) (s : S) (l : list A) : result S :=
  match l with
  | [] => Ok s
  | x :: l => s' ← f s x; foldM f s' l
  end.

Fixpoint mapM_result {A B} (f : A → result B) (l : list A) : result (list B) :=
  match l with
  | [] => Ok []
  | x :: l => y ← f x; ys ← mapM_result f l; Ok (y :: ys)
  end.

(** Appends, in order, what [f] gives for each element: the loops of the
    program that build a byte image with [ret.append(...)]. *)
Definition concatM {A B} (f : A → result (list B)) (l : list A) : result (list B) :=
  @concat B <$> mapM_result f l.

(** ** Loops

    [while]/[do] loops whose number of turns is not the length of a list.  A turn
    continues with a new state ([inl]) or leaves the loop ([inr]).  [loop_pow k]
    makes up to [2 ^ k] turns and stops as soon as one leaves, so the bound can be
    that of a machine counter and the definition still evaluates. *)

Section Loop.
Context {St R : Type} (step : St → St + R).

Fixpoint loop_nat (n : nat) (s : St) : St + R :=
  match n with
  | O => inl s
  | S n => match step s with inl s' => loop_nat n s' | inr r => inr r end
  end.

Fixpoint loop_pow (k : nat) (s : St) : St + R :=
  match k with
  | O => step s
  | S k => match loop_pow k s with inl s' => loop_pow k s' | inr r => inr r end
  end.

Lemma loop_nat_add n m s :
  loop_nat (n + m) s = match loop_nat n s with inl s' => loop_nat m s' | inr r => inr r end.
Proof.
  revert s; induction n as [|n IH]; intros s; simpl; [done|].
  destruct (step s); auto.
Qed.

Lemma loop_pow_nat k s : loop_pow k s = loop_nat (2 ^ k) s.
Proof.
  revert s; induction k as [|k IH]; intros s.
  - simpl. by destruct (step s).
  - cbn [loop_pow Nat.pow Nat.mul]. rewrite Nat.add_0_r, loop_nat_add, IH.
    destruct (loop_nat (2 ^ k) s); auto.
Qed.

Lemma loop_nat_mono n m s r : n ≤ m → loop_nat n s = inr r → loop_nat m s = inr r.
Proof.
  intros Hnm H. replace m with (n + (m - n)) by lia. by rewrite loop_nat_add, H.
Qed.

Lemma loop_pow_enough k n s r :
  (Z.of_nat n ≤ 2 ^ Z.of_nat k)%Z → loop_nat n s = inr r → loop_pow k s = inr r.
Proof.
  intros Hn. rewrite loop_pow_nat. apply loop_nat_mono.
  apply Nat2Z.inj_le. by rewrite Nat2Z.inj_pow.
Qed.
End Loop.

(** The value a loop leaves with; one that has not left has not terminated. *)
Definition loop_result {S A} (x : S + result A) : result A :=
  match x with inl _ => Err Diverge | inr r => r end.

(** ** Automation *)

(** Rewrite rules that compute with byte images and decimal texts. *)
Create Rewrite HintDb rds.

(** Splits a successful bind in the context into its steps. *)
Ltac inv_bind :=
  repeat match goal with
  | H : Err _ = Ok _ |- _ => discriminate H
  | H : Ok _ = Err _ |- _ => discriminate H
  | H : Ok _ = Ok _ |- _ => injection H as H; try subst
  | H : mret _ = Ok _ |- _ => unfold mret, result_ret in H
  | H : (_ ≫= _) = Ok _ |- _ => unfold mbind, result_bind in H
  | H : (_ <$> _) = Ok _ |- _ => unfold fmap, result_fmap in H
  | H : match ?m with Ok _ => _ | Err _ => _ end = Ok _ |- _ =>
      let E := fresh "E" in destruct m eqn:E; [|discriminate H]
  end.

(** The same through pairs, options and tests: the paths of a successful handler. *)
Ltac inv_exec :=
  repeat (inv_bind ||
    match goal with
    | H : match ?p with pair _ _ => _ end = Ok _ |- _ => destruct p eqn:?
    | H : match ?o with Some _ => _ | None => _ end = Ok _ |- _ => destruct o eqn:?
    | H : (if ?b then _ else _) = Ok _ |- _ => destruct b eqn:?
    | H : (_, _) = (_, _) |- _ => injection H as; subst
    end); simplify_eq.

(** Case analysis on the scrutinee of a [match] or an [if] of the goal. *)
Ltac case_scrut :=
  match goal with
  | |- context [match ?x with _ => _ end] => destruct x eqn:?
  end.

(** ** Lemmas on the monad and on its loops *)

Lemma bind_Ok {A B} (m : result A) (f : A → result B) b :
  m ≫= f = Ok b ↔ ∃ a, m = Ok a ∧ f a = Ok b.
Proof. destruct m; simpl; naive_solver. Qed.

Lemma fmap_Ok {A B} (m : result A) (f : A → B) b :
  f <$> m = Ok b ↔ ∃ a, m = Ok a ∧ b = f a.
Proof. destruct m; simpl; naive_solver. Qed.

Lemma vec_at_Ok {A} (l : list A) i a : vec_at l i = Ok a ↔ l !! i = Some a.
Proof. unfold vec_at. destruct (l !! i); naive_solver. Qed.

Lemma vec_at_lt {A} (l : list A) i : (i < length l)%nat → ∃ a, vec_at l i = Ok a.
Proof.
  intros [a Ha]%lookup_lt_is_Some. exists a. by apply vec_at_Ok.
Qed.

Lemma foldM_app {S A} (f : S → A → result S) s l1 l2 :
  foldM f s (l1 ++ l2) = (s' ← foldM f s l1; foldM f s' l2).
Proof.
  revert s; induction l1 as [|x l1 IH]; intros s; simpl; [done|].
  destruct (f s x); simpl; auto.
Qed.

(** A loop of steps that all succeed is the pure left fold. *)
Lemma foldM_pure {S A} (f : S → A → result S) (g : S → A → S) s l :
  (∀ s x, x ∈ l → f s x = Ok (g s x)) → foldM f s l = Ok (fold_left g l s).
Proof.
  revert s; induction l as [|x l IH]; intros s Hf; simpl; [done|].
  rewrite Hf by set_solver. simpl. apply IH. set_solver.
Qed.

(** An invariant kept by every step is kept by the loop. *)
Lemma foldM_inv {S A} (P : S → Prop) (f : S → A → result S) s s' l :
  (∀ s x s', x ∈ l → P s → f s x = Ok s' → P s') →
  P s → foldM f s l = Ok s' → P s'.
Proof.
  revert s; induction l as [|x l IH]; intros s Hf Hs; simpl; [naive_solver|].
  intros H. inv_bind. eapply IH; [| |eassumption]; [set_solver|].
  eapply Hf; [|done..]. set_solver.
Qed.

(** A loop whose steps cannot fail under an invariant does not fail. *)
Lemma foldM_total {S A} (P : S → Prop) (f : S → A → result S) s l :
  (∀ s x, x ∈ l → P s → ∃ s', f s x = Ok s' ∧ P s') →
  P s → ∃ s', foldM f s l = Ok s' ∧ P s'.
Proof.
  revert s; induction l as [|x l IH]; intros s Hf Hs; simpl; [naive_solver|].
  destruct (Hf s x) as (s' & -> & ?); [set_solver|done|]. simpl.
  apply IH; [set_solver|done].
Qed.

Lemma mapM_result_Forall2 {A B} (f : A → result B) l k :
  mapM_result f l = Ok k ↔ Forall2 (λ x y, f x = Ok y) l k.
Proof.
  revert k; induction l as [|x l IH]; intros k; simpl.
  - split; [intros; by simplify_eq|by inversion 1].
  - split.
    + intros H. inv_bind. constructor; [done|]. by apply IH.
    + inversion 1 as [|?? ? ? Hx Hl]; subst. rewrite Hx. simpl.
      apply IH in Hl. by rewrite Hl.
Qed.

(** A failing loop failed on one of its elements. *)
Lemma mapM_result_Err {A B} (f : A → result B) l e :
  mapM_result f l = Err e → ∃ x, x ∈ l ∧ f x = Err e.
Proof.
  induction l as [|x l IH]; simpl; [done|].
  destruct (f x) eqn:Ex; simpl; [|intros; simplify_eq; set_solver].
  destruct (mapM_result f l); simpl; [done|]. intros. destruct IH as (y & ? & ?); set_solver.
Qed.

Lemma mapM_result_total {A B} (f : A → result B) l :
  (∀ x, x ∈ l → ∃ y, f x = Ok y) → ∃ k, mapM_result f l = Ok k.
Proof.
  induction l as [|x l IH]; intros Hf; simpl; [eauto|].
  destruct (Hf x) as [y ->]; [set_solver|].
  destruct IH as [k ->]; [set_solver|]. simpl. eauto.
Qed.

Lemma concatM_total {A B} (f : A → result (list B)) l :
  (∀ x, x ∈ l → ∃ y, f x = Ok y) → ∃ k, concatM f l = Ok k.
Proof.
  intros [k Hk]%mapM_result_total. unfold concatM. rewrite Hk. simpl. eauto.
Qed.

(** ** Texts and byte images

    A std::string that holds text (a key, a value, a command word) is a
    [string]; a std::string or a std::deque<char> that holds a byte image (an
    encoded object, a file, a socket buffer) is a [bytes]. *)

Abbreviation bytes := (list ascii).

Definition bytes_of (s : string) : bytes := String.list_ascii_of_string s.
Definition string_of (b : bytes) : string := String.string_of_list_ascii b.

Lemma bytes_of_string_of b : bytes_of (string_of b) = b.
Proof. apply String.list_ascii_of_string_of_list_ascii. Qed.
Lemma string_of_bytes_of s : string_of (bytes_of s) = s.
Proof. apply String.string_of_list_ascii_of_string. Qed.
#[export] Hint Rewrite bytes_of_string_of string_of_bytes_of : rds.

Lemma bytes_of_inj s1 s2 : bytes_of s1 = bytes_of s2 → s1 = s2.
Proof. intros H. by rewrite <-(string_of_bytes_of s1), H, string_of_bytes_of. Qed.

Lemma bytes_of_app s1 s2 : bytes_of (s1 +:+ s2) = bytes_of s1 ++ bytes_of s2.
Proof. induction s1 as [|c s1 IH]; simpl; [done|]. unfold bytes_of in *. by rewrite <-IH. Qed.

Lemma string_of_app b1 b2 : string_of (b1 ++ b2) = string_of b1 +:+ string_of b2.
Proof.
  apply bytes_of_inj. by rewrite bytes_of_app, !bytes_of_string_of.
Qed.

Lemma length_bytes_of s : length (bytes_of s) = String.length s.
Proof. induction s as [|c s IH]; simpl; [done|]. unfold bytes_of in *. by rewrite <-IH. Qed.
#[export] Hint Rewrite length_bytes_of : rds.

Lemma string_app_assoc s1 s2 s3 : (s1 +:+ s2) +:+ s3 = s1 +:+ (s2 +:+ s3).
Proof. apply bytes_of_inj. by rewrite !bytes_of_app, app_assoc. Qed.

Lemma string_app_nil_r s : s +:+ "" = s.
Proof. apply bytes_of_inj. by rewrite bytes_of_app, app_nil_r. Qed.

Lemma length_string_app s1 s2 : String.length (s1 +:+ s2) = String.length s1 + String.length s2.
Proof. by rewrite <-!length_bytes_of, bytes_of_app, length_app. Qed.

(** ** Reading back a counted sequence

    [for (i = 0; i < n; i++) { x.Decode(source); container.insert(x); }] *)

Fixpoint decode_loop {S A} (dec : bytes → result (A * bytes)) (ins : S → A → S)
    (n : nat) (st : S) (source : bytes) : result (S * bytes) :=
  match n with
  | O => Ok (st, source)
  | Datatypes.S n => '(x, source) ← dec source; decode_loop dec ins n (ins st x) source
  end.

(** If the decoder undoes the encoder on each element, up to the relation [R],
    the loop undoes the concatenation of the encodings. *)
Lemma decode_loop_concatM {S A B} (enc : A → result bytes) (dec : bytes → result (B * bytes))
    (ins : S → B → S) (R : A → B → Prop) l b rest st :
  (∀ x b rest, x ∈ l → enc x = Ok b → ∃ y, R x y ∧ dec (b ++ rest) = Ok (y, rest)) →
  concatM enc l = Ok b →
  ∃ l', Forall2 R l l' ∧
        decode_loop dec ins (length l) st (b ++ rest) = Ok (fold_left ins l' st, rest).
Proof.
  intros Hdec. unfold concatM. rewrite fmap_Ok. intros (bs & Hbs & ->).
  apply mapM_result_Forall2 in Hbs. revert st. induction Hbs as [|x bx l bs Hx Hbs IH]; intros st.
  - exists []. split; [constructor|done].
  - destruct (Hdec x bx (concat bs ++ rest)) as (y & Hy & Hd); [set_solver|done|].
    destruct (IH (λ x b rest Hin, Hdec x b rest (list_elem_of_further _ _ _ Hin)) (ins st y)) as (l' & Hl' & Hloop).
    exists (y :: l'). split; [by constructor|]. simpl. rewrite <-app_assoc, Hd. simpl. exact Hloop.
Qed.

(** [x] survives an encoder and its decoder: the encoder succeeds, and the decoder
    reads [y] from the front of any image that starts with the result. *)
Definition survives {A B} (enc : A → result bytes) (dec : bytes → result (B * bytes))
    (x : A) (y : B) : Prop :=
  ∃ b, enc x = Ok b ∧ ∀ rest, dec (b ++ rest) = Ok (y, rest).

(** Elements that survive one by one, up to [R], survive as a counted sequence. *)
Lemma decode_loop_survives_rel {S A B} (enc : A → result bytes) (dec : bytes → result (B * bytes))
    (ins : S → B → S) (R : A → B → Prop) l :
  (∀ x, x ∈ l → ∃ y, survives enc dec x y ∧ R x y) →
  ∃ b l', concatM enc l = Ok b ∧ Forall2 R l l' ∧
          ∀ rest st, decode_loop dec ins (length l) st (b ++ rest) = Ok (fold_left ins l' st, rest).
Proof.
  intros Hl. unfold concatM. induction l as [|x l IH].
  - exists [], []. split_and!; [done|constructor|]. intros. done.
  - destruct (Hl x) as (y & (bx & Hx & Hdx) & Hy); [set_solver|].
    destruct IH as (b & l' & Hb & Hl' & Hd); [set_solver|].
    apply fmap_Ok in Hb as (bs & Hbs & ->). exists (bx ++ concat bs), (y :: l'). split_and!.
    + simpl. rewrite Hx. simpl. by rewrite Hbs.
    + by constructor.
    + intros rest st. simpl. rewrite <-app_assoc, Hdx. simpl. apply Hd.
Qed.

Lemma decode_loop_survives {S A B} (enc : A → result bytes) (dec : bytes → result (B * bytes))
    (ins : S → B → S) (f : A → B) l :
  (∀ x, x ∈ l → survives enc dec x (f x)) →
  ∃ b, concatM enc l = Ok b ∧
       ∀ rest st, decode_loop dec ins (length l) st (b ++ rest) = Ok (fold_left ins (f <$> l) st, rest).
Proof.
  intros Hl. destruct (decode_loop_survives_rel enc dec ins (λ x y, y = f x) l) as (b & l' & Hb & Hl' & Hd).
  { eauto. }
  exists b. split; [done|]. assert (f <$> l = l') as ->; [|done]. clear -Hl'.
  induction Hl' as [|x y l l' -> _ IH]; [done|]. by rewrite fmap_cons, IH.
Qed.

Lemma concatM_Ok {A B} (f : A → result (list B)) l k :
  concatM f l = Ok k ↔ ∃ ks, Forall2 (λ x y, f x = Ok y) l ks ∧ k = concat ks.
Proof. unfold concatM. rewrite fmap_Ok. by setoid_rewrite mapM_result_Forall2. Qed.

Lemma fold_left_snoc {A} (l acc : list A) : fold_left (λ acc x, acc ++ [x]) l acc = acc ++ l.
Proof.
  revert acc; induction l as [|x l IH]; intros acc; simpl; [by rewrite app_nil_r|].
  by rewrite IH, <-app_assoc.
Qed.

Lemma filter_all {A} (P : A → Prop) `{∀ x, Decision (P x)} (l : list A) : Forall P l → filter P l = l.
Proof. induction 1 as [|x l Hx _ IH]; [done|]. by rewrite filter_cons, decide_True, IH. Qed.

(** Filtering the images of the elements. *)
Lemma fmap_filter_iff {A B} (f : A → B) (P : A → Prop) (Q : B → Prop)
    `{∀ x, Decision (P x)} `{∀ y, Decision (Q y)} (l : list A) :
  (∀ x, x ∈ l → P x ↔ Q (f x)) → f <$> filter P l = filter Q (f <$> l).
Proof.
  induction l as [|x l IH]; intros Hl; [done|]. rewrite fmap_cons, !filter_cons.
  rewrite <-IH by (intros; apply Hl; by right). specialize (Hl x (list_elem_of_here x l)).
  repeat case_decide; naive_solver.
Qed.

Lemma NoDup_fmap_filter {A B} (f : A → B) (P : A → Prop) `{∀ x, Decision (P x)} (l : list A) :
  NoDup (f <$> l) → NoDup (f <$> filter P l).
Proof.
  induction l as [|x l IH]; [done|]. rewrite fmap_cons, NoDup_cons, filter_cons. intros [Hx Hl].
  case_decide; [|auto]. rewrite fmap_cons, NoDup_cons. split; [|auto]. contradict Hx.
  apply list_elem_of_fmap in Hx as (y & -> & [_ Hy]%list_elem_of_filter). by apply list_elem_of_fmap_2.
Qed.

Lemma Forall_filter_keep {A} (P Q : A → Prop) `{∀ x, Decision (P x)} (l : list A) :
  Forall Q l → Forall Q (filter P l).
Proof. rewrite !Forall_forall. intros HQ x [_ Hx]%list_elem_of_filter. auto. Qed.

Lemma Forall2_functional {A B} (R : A → B → Prop) l k1 k2 :
  (∀ x y z, x ∈ l → R x y → R x z → y = z) → Forall2 R l k1 → Forall2 R l k2 → k1 = k2.
Proof.
  intros HR H1. revert k2. induction H1 as [|x y l k Hx Hl IH]; inversion 1; subst; [done|].
  f_equal; [eapply HR; [|done..]; set_solver|]. apply IH; [set_solver|done].
Qed.

(** ** A list without an element *)

Section Without.
Context {A : Type} `{EqDecision A}.

Definition without (x : A) (l : list A) : list A := filter (λ y, y ≠ x) l.

Lemma elem_of_without y x l : y ∈ without x l ↔ y ≠ x ∧ y ∈ l.
Proof. unfold without. by rewrite list_elem_of_filter. Qed.

Lemma without_notin x l : x ∉ l → without x l = l.
Proof.
  unfold without. induction l as [|y l IH]; [done|]. intros [Hne Hx]%not_elem_of_cons.
  rewrite filter_cons_True by done. by rewrite IH.
Qed.

Lemma without_split x l1 l2 : NoDup (l1 ++ x :: l2) → without x (l1 ++ x :: l2) = l1 ++ l2.
Proof.
  intros (Ha&Hb&[Hc Hd]%NoDup_cons)%NoDup_app. unfold without. rewrite filter_app, filter_cons_False by naive_solver.
  f_equal; apply without_notin; set_solver.
Qed.

Lemma without_Permutation x l : NoDup l → x ∈ l → l ≡ₚ x :: without x l.
Proof.
  intros Hnd (l1&l2&->)%list_elem_of_split. rewrite without_split by done. by rewrite Permutation_middle.
Qed.
End Without.

(** ** The order of texts ([std::string::operator<], byte-wise) *)

Lemma string_compare_refl s : String.compare s s = Eq.
Proof.
  induction s as [|c s IH]; simpl; [done|].
  unfold Ascii.compare. by rewrite N.compare_refl.
Qed.

Lemma string_leb_ltb a b : String.leb a b = negb (String.ltb b a).
Proof.
  unfold String.leb, String.ltb. rewrite String.compare_antisym.
  by destruct (String.compare b a).
Qed.

Lemma string_ltb_le a b : String.ltb a b = true → String.le a b.
Proof.
  unfold String.ltb, String.le, String.leb. by destruct (String.compare a b).
Qed.

Lemma string_ltb_ge a b : String.ltb a b = false → String.le b a.
Proof. intros H. unfold String.le. by rewrite string_leb_ltb, H. Qed.

Lemma string_le_leb a b : String.le a b ↔ String.leb a b = true.
Proof. unfold String.le. apply Is_true_true. Qed.
