(* ===== verification/CInt.v ===== *)
(** * Machine integers, their byte images and their decimal texts

    The C++ types the program uses on x86-64 Linux: [int] (32 bits, two's
    complement), [short] (16 bits), [std::size_t] (64 bits).  Integers are [Z];
    the conversions wrap around, signed arithmetic that leaves the type is
    [Undefined].  [std::stoi], [std::stoull] and [std::to_string] of the
    standard library are written out as far as the program uses them. *)

From stdpp Require Import base list strings numbers.
From Stdlib Require Import Ascii ZArith Lia.
From S2P Require Import Prelude.
Local Open Scope Z_scope.

Module CInt.

(** ** Ranges and conversions *)

Definition INT_MAX : Z := 2147483647.
Definition INT_MIN : Z := -2147483648.
Definition SIZE_MAX : Z := 18446744073709551615.
Definition ULLONG_MAX : Z := SIZE_MAX.

Definition is_int (z : Z) : Prop := INT_MIN ≤ z ≤ INT_MAX.
Definition is_size (z : Z) : Prop := 0 ≤ z ≤ SIZE_MAX.

Definition is_intb (z : Z) : bool := (INT_MIN <=? z) && (z <=? INT_MAX).

(** Conversion to [std::size_t]. *)
Definition to_size (z : Z) : Z := z mod 2 ^ 64.

(** Conversion to a signed type of [w] bits. *)
Definition to_signed (w : Z) (z : Z) : Z := (z + 2 ^ (w - 1)) mod 2 ^ w - 2 ^ (w - 1).
Definition to_int (z : Z) : Z := to_signed 32 z.
Definition to_short (z : Z) : Z := to_signed 16 z.

(** Signed [int] arithmetic: leaving the type is undefined behaviour. *)
Definition int_check (z : Z) : result Z := if is_intb z then Ok z else Err Undefined.
Definition int_add (a b : Z) : result Z := int_check (a + b).
Definition int_sub (a b : Z) : result Z := int_check (a - b).
Definition int_neg (a : Z) : result Z := int_check (- a).

Lemma is_intb_true z : is_intb z = true ↔ is_int z.
Proof. unfold is_intb, is_int. rewrite andb_true_iff, !Z.leb_le. done. Qed.

Lemma int_check_Ok z z' : int_check z = Ok z' ↔ z' = z ∧ is_int z.
Proof.
  unfold int_check. destruct (is_intb z) eqn:E.
  - apply is_intb_true in E. naive_solver.
  - split; [done|]. intros [_ H]. apply is_intb_true in H. congruence.
Qed.

Lemma int_check_is z : is_int z → int_check z = Ok z.
Proof. intros. by apply int_check_Ok. Qed.

Lemma to_signed_id w z : 0 < w → - 2 ^ (w - 1) ≤ z < 2 ^ (w - 1) → to_signed w z = z.
Proof.
  intros Hw Hz. unfold to_signed.
  assert (2 ^ w = 2 * 2 ^ (w - 1)) as E.
  { rewrite <-Z.pow_succ_r by lia. f_equal; lia. }
  rewrite E, Z.mod_small by lia. lia.
Qed.

Lemma to_signed_range w z : 0 < w → - 2 ^ (w - 1) ≤ to_signed w z < 2 ^ (w - 1).
Proof.
  intros Hw. unfold to_signed.
  assert (2 ^ w = 2 * 2 ^ (w - 1)) as E.
  { rewrite <-Z.pow_succ_r by lia. f_equal; lia. }
  assert (0 < 2 ^ (w - 1)) by (apply Z.pow_pos_nonneg; lia).
  pose proof (Z.mod_pos_bound (z + 2 ^ (w - 1)) (2 ^ w)). lia.
Qed.

Lemma to_int_id z : is_int z → to_int z = z.
Proof. intros [? ?]. unfold INT_MIN, INT_MAX in *. apply to_signed_id; [lia|]. simpl. lia. Qed.

Lemma to_size_id z : is_size z → to_size z = z.
Proof. intros [? ?]. unfold SIZE_MAX in *. apply Z.mod_small. lia. Qed.

(** ** Characters

    [char] is signed on this platform; a comparison with a character literal
    compares these values. *)

Definition byte_val (c : ascii) : Z := Z.of_N (N_of_ascii c).
Definition char_val (c : ascii) : Z :=
  if byte_val c <? 128 then byte_val c else byte_val c - 256.

Definition byte_of (z : Z) : ascii := ascii_of_N (Z.to_N (z mod 256)).

Lemma byte_val_range c : 0 ≤ byte_val c < 256.
Proof. unfold byte_val. pose proof (N_ascii_bounded c). lia. Qed.

Lemma byte_val_of z : byte_val (byte_of z) = z mod 256.
Proof.
  unfold byte_val, byte_of. pose proof (Z.mod_pos_bound z 256).
  rewrite N_ascii_embedding by lia. lia.
Qed.

Lemma byte_of_val c : byte_of (byte_val c) = c.
Proof.
  unfold byte_of, byte_val. pose proof (N_ascii_bounded c).
  rewrite Z.mod_small by lia. rewrite N2Z.id. apply ascii_N_embedding.
Qed.

(** ** Byte images of integers (little endian) *)

Fixpoint le_bytes (n : nat) (z : Z) : bytes :=
  match n with
  | O => []
  | S n => byte_of z :: le_bytes n (z / 256)
  end.

Fixpoint le_val (b : bytes) : Z :=
  match b with
  | [] => 0
  | c :: b => byte_val c + 256 * le_val b
  end.

Lemma length_le_bytes n z : length (le_bytes n z) = n.
Proof. revert z; induction n; intros; simpl; auto. Qed.
#[export] Hint Rewrite length_le_bytes : rds.

Lemma le_val_bytes n z : le_val (le_bytes n z) = z mod 256 ^ Z.of_nat n.
Proof.
  revert z; induction n as [|n IH]; intros z.
  - simpl. by rewrite Z.mod_1_r.
  - cbn [le_bytes le_val]. rewrite IH, byte_val_of, Nat2Z.inj_succ, Z.pow_succ_r by lia.
    rewrite Z.rem_mul_r; lia.
Qed.

Lemma le_val_range b : 0 ≤ le_val b < 256 ^ Z.of_nat (length b).
Proof.
  induction b as [|c b IH]; cbn [le_val length]; [simpl; lia|].
  rewrite Nat2Z.inj_succ, Z.pow_succ_r by lia. pose proof (byte_val_range c). lia.
Qed.

Lemma le_bytes_val b : le_bytes (length b) (le_val b) = b.
Proof.
  induction b as [|c b IH]; [done|]. cbn [le_val length le_bytes].
  pose proof (byte_val_range c). f_equal.
  - rewrite <-(byte_of_val c) at 2. unfold byte_of. f_equal. f_equal.
    replace (byte_val c + 256 * le_val b) with (byte_val c + le_val b * 256) by lia.
    by rewrite Z.mod_add.
  - replace (byte_val c + 256 * le_val b) with (byte_val c + le_val b * 256) by lia.
    rewrite Z.div_add, Z.div_small by lia. done.
Qed.

#[global] Arguments le_bytes : simpl never.
#[global] Arguments le_val : simpl never.

(** ** Decimal texts *)

Definition digit_char (d : Z) : ascii := byte_of (48 + d).

(** [c < '0' || c > '9'] is the test for a character that is not a digit. *)
Definition is_digit (c : ascii) : bool := (48 <=? char_val c) && (char_val c <=? 57).

Definition digit_val (c : ascii) : Z := char_val c - 48.

Lemma is_digit_char d : 0 ≤ d < 10 → is_digit (digit_char d) = true ∧ digit_val (digit_char d) = d.
Proof.
  intros Hd. unfold is_digit, digit_val, char_val, digit_char. rewrite byte_val_of.
  rewrite Z.mod_small by lia. destruct (Z.ltb_spec (48 + d) 128); [|lia].
  rewrite andb_true_iff, !Z.leb_le. lia.
Qed.

Lemma is_digit_val c : is_digit c = true → 0 ≤ digit_val c < 10.
Proof. unfold is_digit, digit_val. rewrite andb_true_iff, !Z.leb_le. lia. Qed.

(** The digits of [n], most significant first, in front of [acc]. *)
Fixpoint dec_go (fuel : nat) (n : Z) (acc : string) : string :=
  match fuel with
  | O => acc
  | S fuel =>
      let acc := String (digit_char (n mod 10)) acc in
      if n <? 10 then acc else dec_go fuel (n / 10) acc
  end.

(** A number has at most one digit per bit. *)
Definition dec_fuel (n : Z) : nat := S (Z.to_nat (Z.log2 n)).

(** [std::to_string] on an integer. *)
Definition to_string (z : Z) : string :=
  if z <? 0 then String "-" (dec_go (dec_fuel (- z)) (- z) "")
  else dec_go (dec_fuel z) z "".

Fixpoint all_digits (s : string) : bool :=
  match s with
  | "" => true
  | String c s => is_digit c && all_digits s
  end%string.

(** The value of the longest prefix of digits, [None] when there is none. *)
Fixpoint digits_go (acc : Z) (s : string) : Z :=
  match s with
  | String c s => if is_digit c then digits_go (10 * acc + digit_val c) s else acc
  | EmptyString => acc
  end.
Definition digits_val (s : string) : option Z :=
  match s with
  | String c _ => if is_digit c then Some (digits_go 0 s) else None
  | EmptyString => None
  end.

Definition is_space (c : ascii) : bool :=
  (byte_val c =? 32) || ((9 <=? byte_val c) && (byte_val c <=? 13)).

Fixpoint skip_space (s : string) : string :=
  match s with
  | String c s' => if is_space c then skip_space s' else s
  | EmptyString => s
  end.

(** The sign and the digits [strtol] and [strtoull] read in base 10. *)
Definition strto (s : string) : option (bool * Z) :=
  match skip_space s with
  | String c s' =>
      if byte_val c =? 45 then pair true <$> digits_val s'
      else if byte_val c =? 43 then pair false <$> digits_val s'
      else pair false <$> digits_val (String c s')
  | EmptyString => None
  end.

Definition signed_val (p : bool * Z) : Z := if p.1 then - p.2 else p.2.

(** [std::stoi]. *)
Definition stoi (s : string) : result Z :=
  match strto s with
  | None => Err InvalidArgument
  | Some p => if is_intb (signed_val p) then Ok (signed_val p) else Err OutOfRange
  end.

(** [std::stoull]; [std::stoul] is the same function on this platform. *)
Definition stoull (s : string) : result Z :=
  match strto s with
  | None => Err InvalidArgument
  | Some (neg, v) =>
      if v <=? ULLONG_MAX then Ok (if neg : bool then to_size (- v) else v) else Err OutOfRange
  end.

(** *** Reading back what was printed *)

Lemma digits_go_acc acc s :
  all_digits s = true →
  digits_go acc s = acc * 10 ^ Z.of_nat (String.length s) + digits_go 0 s.
Proof.
  revert acc; induction s as [|c s IH]; intros acc; simpl all_digits.
  - simpl. lia.
  - intros [Hc Hs]%andb_true_iff. cbn [digits_go String.length]. rewrite Hc.
    rewrite (IH (10 * acc + _)), (IH (10 * 0 + _)) by done.
    rewrite Nat2Z.inj_succ, Z.pow_succ_r by lia. lia.
Qed.

Lemma dec_go_spec fuel n acc :
  0 ≤ n < 10 ^ Z.of_nat fuel → (0 < fuel)%nat → all_digits acc = true →
  all_digits (dec_go fuel n acc) = true ∧
  digits_go 0 (dec_go fuel n acc) = n * 10 ^ Z.of_nat (String.length acc) + digits_go 0 acc.
Proof.
  revert n acc; induction fuel as [|fuel IH]; intros n acc Hn Hf Hacc; [lia|].
  cbn [dec_go]. pose proof (Z.mod_pos_bound n 10).
  destruct (is_digit_char (n mod 10)) as [Hd Hv]; [lia|].
  assert (all_digits (String (digit_char (n mod 10)) acc) = true) as Hacc'.
  { simpl. by rewrite Hd. }
  assert (digits_go 0 (String (digit_char (n mod 10)) acc)
          = n mod 10 * 10 ^ Z.of_nat (String.length acc) + digits_go 0 acc) as Hacc2.
  { cbn [digits_go]. rewrite Hd, Hv, digits_go_acc by done. lia. }
  destruct (Z.ltb_spec n 10).
  - split; [done|]. rewrite Hacc2, Z.mod_small by lia. done.
  - rewrite Nat2Z.inj_succ, Z.pow_succ_r in Hn by lia.
    destruct (IH (n / 10) (String (digit_char (n mod 10)) acc)) as [IH1 IH2]; [| |done|].
    + split; [apply Z.div_pos; lia|]. apply Z.div_lt_upper_bound; lia.
    + destruct fuel; [simpl in Hn; lia|lia].
    + split; [done|]. rewrite IH2, Hacc2. cbn [String.length].
      rewrite Nat2Z.inj_succ, Z.pow_succ_r by lia.
      pose proof (Z.div_mod n 10). nia.
Qed.

Lemma dec_fuel_enough n : 0 ≤ n → n < 10 ^ Z.of_nat (dec_fuel n).
Proof.
  intros Hn. unfold dec_fuel. rewrite Nat2Z.inj_succ, Z2Nat.id by apply Z.log2_nonneg.
  destruct (Z.eq_dec n 0) as [->|Hn0]; [apply Z.pow_pos_nonneg; [lia|]; pose proof (Z.log2_nonneg 0); lia|].
  pose proof (Z.log2_spec n). pose proof (Z.log2_nonneg n).
  eapply Z.lt_le_trans; [apply H; lia|]. apply Z.pow_le_mono_l. lia.
Qed.

Lemma dec_go_nonempty fuel n acc : (0 < fuel)%nat → ∃ c s, dec_go fuel n acc = String c s.
Proof.
  revert n acc; induction fuel as [|fuel IH]; intros n acc Hf; [lia|]. cbn [dec_go].
  destruct (n <? 10); [eauto|]. destruct fuel; [simpl; eauto|]. apply IH. lia.
Qed.

Lemma to_string_nonneg z :
  0 ≤ z → all_digits (to_string z) = true ∧ digits_go 0 (to_string z) = z ∧
          ∃ c s, to_string z = String c s.
Proof.
  intros Hz. unfold to_string. destruct (Z.ltb_spec z 0); [lia|].
  destruct (dec_go_spec (dec_fuel z) z "") as [H1 H2]; [|unfold dec_fuel; lia|done|].
  - split; [done|]. by apply dec_fuel_enough.
  - split; [done|]. split; [rewrite H2; simpl; lia|]. apply dec_go_nonempty. unfold dec_fuel. lia.
Qed.

Lemma to_string_neg z : z < 0 → to_string z = String "-" (to_string (- z)).
Proof.
  intros Hz. unfold to_string. destruct (Z.ltb_spec z 0); [|lia].
  destruct (Z.ltb_spec (- z) 0); [lia|done].
Qed.

Lemma to_string_nonempty z : to_string z ≠ "".
Proof.
  destruct (Z.lt_ge_cases z 0) as [Hz|Hz]; [by rewrite to_string_neg|].
  destruct (to_string_nonneg z Hz) as (_ & _ & c & s & ->). done.
Qed.

Lemma digit_byte c : is_digit c = true → 48 ≤ byte_val c ≤ 57.
Proof.
  unfold is_digit, char_val. pose proof (byte_val_range c).
  rewrite andb_true_iff, !Z.leb_le. destruct (byte_val c <? 128); lia.
Qed.

Lemma strto_digits s :
  all_digits s = true → s ≠ "" → strto s = Some (false, digits_go 0 s).
Proof.
  destruct s as [|c s]; [done|]. intros Hs _. pose proof Hs as [Hc _]%andb_true_iff.
  pose proof (digit_byte c Hc). unfold strto. cbn [skip_space].
  assert (is_space c = false) as ->.
  { unfold is_space. rewrite orb_false_iff, andb_false_iff, Z.eqb_neq, !Z.leb_gt. lia. }
  destruct (Z.eqb_spec (byte_val c) 45); [lia|]. destruct (Z.eqb_spec (byte_val c) 43); [lia|].
  unfold digits_val. by rewrite Hc.
Qed.

Lemma strto_minus s :
  all_digits s = true → s ≠ "" → strto (String "-" s) = Some (true, digits_go 0 s).
Proof.
  destruct s as [|c s]; [done|]. intros Hs _. pose proof Hs as [Hc _]%andb_true_iff.
  unfold strto. simpl. by rewrite Hc.
Qed.

Lemma strto_to_string z : strto (to_string z) = Some (z <? 0, Z.abs z).
Proof.
  destruct (Z.ltb_spec z 0).
  - destruct (to_string_nonneg (- z)) as (H1 & H2 & c & s & H3); [lia|].
    rewrite to_string_neg by done; rewrite strto_minus by (done || by rewrite H3). rewrite H2. f_equal. f_equal. lia.
  - destruct (to_string_nonneg z) as (H1 & H2 & c & s & H3); [lia|].
    rewrite strto_digits by (done || by rewrite H3). rewrite H2. f_equal. f_equal. lia.
Qed.

(** [std::stoi] is a left inverse of [std::to_string] on [int]. *)
Lemma stoi_to_string z : is_int z → stoi (to_string z) = Ok z.
Proof.
  intros Hz. unfold stoi. rewrite strto_to_string. unfold signed_val. cbn [fst snd].
  replace (if z <? 0 then - Z.abs z else Z.abs z) with z by (destruct (Z.ltb_spec z 0); lia).
  by rewrite (proj2 (is_intb_true z) Hz).
Qed.

Lemma stoull_to_string z : is_size z → stoull (to_string z) = Ok z.
Proof.
  intros [? ?]. unfold stoull. rewrite strto_to_string. destruct (Z.ltb_spec z 0); [lia|].
  rewrite Z.abs_eq by lia. unfold ULLONG_MAX. by destruct (Z.leb_spec z SIZE_MAX); [|lia].
Qed.

Lemma to_string_inj z1 z2 : to_string z1 = to_string z2 → z1 = z2.
Proof.
  intros H. pose proof (strto_to_string z1) as H1. rewrite H, strto_to_string in H1.
  injection H1 as H1 H2. destruct (Z.ltb_spec z1 0), (Z.ltb_spec z2 0); done || lia.
Qed.

Lemma digits_go_nonneg acc s : 0 ≤ acc → 0 ≤ digits_go acc s.
Proof.
  revert acc; induction s as [|c s IH]; intros acc H; simpl; [done|].
  destruct (is_digit c) eqn:E; [|done]. apply IH. pose proof (is_digit_val c E). lia.
Qed.

#[global] Arguments to_string : simpl never.
#[global] Arguments digits_go : simpl never.
#[global] Arguments to_int : simpl never.
#[global] Arguments to_size : simpl never.

End CInt.
Export CInt.
