(* ===== verification/Util.v ===== *)
(** * util.h / util.cc: byte images, number parsing, compression, configuration

    [BitsToString], [PeekInt], [PeekSize] and [PeekString] move integers and texts
    in and out of byte images; [RedisStrToInt] and [RedisStrToSize] read the
    numeric arguments of commands; [Compress] and [Decompress] wrap the lzfse
    library, which is an interface here ([Lzfse], with the documented behaviour of
    lzfse.h as [LzfseLaws]). *)

From stdpp Require Import base list strings numbers.
From Stdlib Require Import Ascii ZArith Lia.
From S2P Require Import Prelude CInt.
Local Open Scope Z_scope.

Module Util.

(** ** Byte images *)

Definition sizeof_int : nat := 4.
Definition sizeof_size_t : nat := 8.

(** [BitsToString<BitType>]: the bytes of the object, in memory order. *)
Definition BitsToString (sizeof : nat) (data : Z) : bytes := le_bytes sizeof data.

(** [std::deque::at], which checks its index. *)
Definition deque_at (source : bytes) (i : nat) : result ascii :=
  match source !! i with Some c => Ok c | None => Err OutOfRange end.

(** [source->front(); source->pop_front();], undefined on an empty deque. *)
Definition pop_front (source : bytes) : result (ascii * bytes) :=
  match source with c :: source => Ok (c, source) | [] => Err Undefined end.

Definition PeekInt (source : bytes) : result (Z * bytes) :=
  ret ← mapM_result (deque_at source) (seq 0 sizeof_int);
  Ok (to_int (le_val ret), drop sizeof_int source).

Definition PeekSize (source : bytes) : result (Z * bytes) :=
  ret ← mapM_result (deque_at source) (seq 0 sizeof_size_t);
  Ok (le_val ret, drop sizeof_size_t source).

(** The range [cbegin(), cbegin() + size) must lie inside the deque. *)
Definition PeekString (source : bytes) (size : Z) : result (bytes * bytes) :=
  if size <=? Z.of_nat (length source)
  then Ok (take (Z.to_nat size) source, drop (Z.to_nat size) source)
  else Err Undefined.

Lemma deque_at_take n (source : bytes) :
  (n ≤ length source)%nat → mapM_result (deque_at source) (seq 0 n) = Ok (take n source).
Proof.
  intros Hn. apply mapM_result_Forall2, Forall2_same_length_lookup_2.
  - rewrite length_seq, length_take. lia.
  - intros i x y [-> Hi]%lookup_seq [Hy _]%lookup_take_Some.
    unfold deque_at. simpl. by rewrite Hy.
Qed.

Lemma deque_at_short n (source : bytes) :
  (length source < n)%nat → mapM_result (deque_at source) (seq 0 n) = Err OutOfRange.
Proof.
  intros Hn. destruct (mapM_result _ _) as [k|e] eqn:E.
  - apply mapM_result_Forall2 in E.
    destruct (Forall2_lookup_l _ _ _ (length source) (length source) E) as (y & _ & Hy).
    { by apply lookup_seq. }
    unfold deque_at in Hy. by rewrite lookup_ge_None_2 in Hy.
  - apply mapM_result_Err in E as (i & _ & Hi). unfold deque_at in Hi.
    destruct (source !! i); congruence.
Qed.

(** Both integer readers fail with std::out_of_range, not with undefined
    behaviour, when the image is too short. *)
Lemma PeekInt_short source : (length source < 4)%nat → PeekInt source = Err OutOfRange.
Proof. intros H. unfold PeekInt. by rewrite deque_at_short. Qed.
Lemma PeekSize_short source : (length source < 8)%nat → PeekSize source = Err OutOfRange.
Proof. intros H. unfold PeekSize. by rewrite deque_at_short. Qed.

Lemma take_le_bytes n z (rest : bytes) : take n (le_bytes n z ++ rest) = le_bytes n z.
Proof. rewrite take_app_le by (rewrite length_le_bytes; lia). apply take_ge. by rewrite length_le_bytes. Qed.
Lemma drop_le_bytes n z (rest : bytes) : drop n (le_bytes n z ++ rest) = rest.
Proof. by rewrite drop_app_length' by (by rewrite length_le_bytes). Qed.

Lemma PeekInt_Bits z rest :
  is_int z → PeekInt (BitsToString sizeof_int z ++ rest) = Ok (z, rest).
Proof.
  intros Hz. unfold PeekInt, BitsToString.
  rewrite deque_at_take by (rewrite length_app, length_le_bytes; lia).
  rewrite take_le_bytes, drop_le_bytes. cbn [mbind result_bind]. rewrite le_val_bytes.
  f_equal. f_equal. change (256 ^ Z.of_nat sizeof_int) with (2 ^ 32).
  unfold to_int, to_signed. rewrite Zplus_mod_idemp_l.
  apply to_int_id in Hz. exact Hz.
Qed.

Lemma PeekSize_Bits z rest :
  is_size z → PeekSize (BitsToString sizeof_size_t z ++ rest) = Ok (z, rest).
Proof.
  intros Hz. unfold PeekSize, BitsToString.
  rewrite deque_at_take by (rewrite length_app, length_le_bytes; lia).
  rewrite take_le_bytes, drop_le_bytes. cbn [mbind result_bind]. rewrite le_val_bytes.
  f_equal. f_equal. apply to_size_id in Hz. exact Hz.
Qed.

Lemma PeekString_app (b rest : bytes) :
  PeekString (b ++ rest) (Z.of_nat (length b)) = Ok (b, rest).
Proof.
  unfold PeekString. rewrite length_app. destruct (Z.leb_spec (Z.of_nat (length b)) (Z.of_nat (length b + length rest))); [|lia].
  by rewrite Nat2Z.id, take_app_length, drop_app_length.
Qed.

Lemma PeekString_short b n : Z.of_nat (length b) < n → PeekString b n = Err Undefined.
Proof. intros Hn. unfold PeekString. destruct (Z.leb_spec n (Z.of_nat (length b))); [lia|done]. Qed.

Lemma PeekString_length b n s r : PeekString b n = Ok (s, r) → (length r ≤ length b)%nat.
Proof. unfold PeekString. destruct (_ <=? _); [|done]. intros [= _ <-]. rewrite length_drop. lia. Qed.

(** Every reader consumes a prefix of the image: what it leaves is a suffix. *)
Lemma PeekInt_suffix s z s' : PeekInt s = Ok (z, s') → is_int z ∧ s' = drop 4 s ∧ (4 ≤ length s)%nat.
Proof.
  intros H. destruct (decide (length s < 4)%nat); [by rewrite PeekInt_short in H|].
  unfold PeekInt in H. rewrite deque_at_take in H by (unfold sizeof_int; lia). simpl in H.
  simplify_eq. split; [|split; [done|lia]].
  pose proof (to_signed_range 32 (le_val (take sizeof_int s)) eq_refl) as Hr.
  change (2 ^ (32 - 1)) with 2147483648 in Hr. unfold is_int, INT_MIN, INT_MAX, to_int. lia.
Qed.

Lemma PeekSize_suffix s z s' : PeekSize s = Ok (z, s') → is_size z ∧ s' = drop 8 s ∧ (8 ≤ length s)%nat.
Proof.
  intros H. destruct (decide (length s < 8)%nat); [by rewrite PeekSize_short in H|].
  unfold PeekSize in H. rewrite deque_at_take in H by (unfold sizeof_size_t; lia). simpl in H.
  simplify_eq. split; [|split; [done|lia]].
  pose proof (le_val_range (take sizeof_size_t s)) as Hr. rewrite length_take in Hr.
  rewrite Nat.min_l in Hr by (unfold sizeof_size_t; lia). change (256 ^ Z.of_nat sizeof_size_t) with 18446744073709551616 in Hr.
  unfold is_size, SIZE_MAX. lia.
Qed.

(** ** Compression *)

(** lzfse_encode_buffer and lzfse_decode_buffer as functions of the size of the
    destination and of the source; they give the bytes written, so the empty image
    stands for the return value 0, or fail on an access outside the buffers. *)
Class Lzfse := {
  lzfse_encode_buffer : Z → bytes → result bytes;
  lzfse_decode_buffer : Z → bytes → result bytes;
}.

(** What lzfse.h documents of them, and the uncompressed block the encoder falls
    back to when the destination has twelve spare bytes. *)
Class LzfseLaws `{Lzfse} := {
  encode_total : ∀ n src, Z.of_nat (length src) < INT_MAX → ∃ c, lzfse_encode_buffer n src = Ok c;
  encode_fits : ∀ n src c, Z.of_nat (length src) < INT_MAX → lzfse_encode_buffer n src = Ok c → Z.of_nat (length c) ≤ Z.max 0 n;
  encode_stores : ∀ n src,
    Z.of_nat (length src) + 12 ≤ n → Z.of_nat (length src) < INT_MAX → lzfse_encode_buffer n src ≠ Ok [];
  decode_encode : ∀ n m src c,
    lzfse_encode_buffer n src = Ok c → c ≠ [] → 0 ≤ m → Z.of_nat (length src) < INT_MAX →
    lzfse_decode_buffer m c = Ok (take (Z.to_nat m) src);
}.

Section Compression.
Context `{Lzfse}.

(** One turn of [while (len == 0)]: [times] is the int counter. *)
Definition Compress_step (data : bytes) (times : Z) : Z + result bytes :=
  match lzfse_encode_buffer (Z.of_nat (length data) * times) data with
  | Err e => inr (Err e)
  | Ok [] => match int_add times 1 with Ok times' => inl times' | Err e => inr (Err e) end
  | Ok dst => inr (Ok dst)
  end.

Definition Compress (data : bytes) : result bytes :=
  if decide (data = []) then Ok []
  else loop_result (loop_pow (Compress_step data) 31 1).

(** One turn of [do ... while (len == destination.size())]. *)
Definition Decompress_step (data : bytes) (times : Z) : Z + result bytes :=
  let size := Z.of_nat (length data) * times in
  match lzfse_decode_buffer size data with
  | Err e => inr (Err e)
  | Ok dst =>
      match int_add times 1 with
      | Ok times' => if Z.of_nat (length dst) =? size then inl times' else inr (Ok dst)
      | Err e => inr (Err e)
      end
  end.

Definition Decompress (data : bytes) : result bytes :=
  loop_result (loop_pow (Decompress_step data) 31 5).

Lemma Compress_nil : Compress [] = Ok [].
Proof. done. Qed.

End Compression.


(** *** Decompressing a compressed text gives it back *)

Section CompressionLaws.
Context `{LzfseLaws}.

(** The encoder's loop leaves in at most thirteen turns. *)
Lemma Compress_ok (data : bytes) :
  Z.of_nat (length data) < INT_MAX →
  ∃ n c, Compress data = Ok c ∧ Z.of_nat (length c) ≤ 13 * Z.of_nat (length data) ∧
         (data ≠ [] → lzfse_encode_buffer n data = Ok c ∧ c ≠ []).
Proof.
  intros Hlen. unfold Compress. destruct (decide (data = [])) as [->|Hne].
  { exists 0, []. split_and!; [done|simpl; lia|done]. }
  assert (0 < Z.of_nat (length data)) as Hpos by (destruct data; simpl; [done|lia]).
  assert (∀ k times, 1 ≤ times → times + Z.of_nat k = 13 →
    ∃ n c, loop_nat (Compress_step data) (S k) times = inr (Ok c)
         ∧ n ≤ 13 * Z.of_nat (length data) ∧ lzfse_encode_buffer n data = Ok c ∧ c ≠ []) as Hloop.
  { induction k as [|k IH]; intros times Ht Hk; cbn [loop_nat]; unfold Compress_step at 1.
    all: destruct (encode_total (Z.of_nat (length data) * times) data Hlen) as [[|a c] Hc]; rewrite Hc;
         [|eexists _, _; split_and!; [done| |exact Hc|done]; nia].
    - exfalso. revert Hc. apply encode_stores; [nia|done].
    - unfold int_add. rewrite int_check_is by (unfold is_int, INT_MIN, INT_MAX; lia). apply IH; lia. }
  destruct (Hloop 12%nat 1) as (n & c & Hn & Hb & Hc & Hne'); [lia..|].
  exists n, c. apply encode_fits in Hc as Hf; [|done]. split_and!; [|lia|done].
  by rewrite (loop_pow_enough _ 31 13 1 (Ok c)).
Qed.

(** The decoder's loop leaves as soon as the destination is longer than the text. *)
Lemma Decompress_ok n (data c : bytes) :
  Z.of_nat (length data) < INT_MAX - 5 → lzfse_encode_buffer n data = Ok c → c ≠ [] → Decompress c = Ok data.
Proof.
  intros Hlen He Hc. unfold Decompress.
  assert (0 < Z.of_nat (length c)) as Hpos by (destruct c; simpl; [done|lia]).
  assert (∀ m, 0 ≤ m → lzfse_decode_buffer m c = Ok (take (Z.to_nat m) data)) as Hdec.
  { intros m Hm. eapply decode_encode; [done..|lia]. }
  assert (∀ k times, 5 ≤ times → Z.of_nat (length data) < times + Z.of_nat k → times + Z.of_nat k < INT_MAX →
    loop_nat (Decompress_step c) (S k) times = inr (Ok data)) as Hloop.
  { induction k as [|k IH]; intros times Ht Hk Hm; cbn [loop_nat]; unfold Decompress_step at 1.
    all: rewrite Hdec by nia; unfold int_add; rewrite int_check_is by (unfold is_int, INT_MIN in *; lia).
    all: destruct (Z.eqb_spec (Z.of_nat (length (take (Z.to_nat (Z.of_nat (length c) * times)) data)))
                              (Z.of_nat (length c) * times)) as [E|E].
    - rewrite length_take in E. exfalso. nia.
    - f_equal. f_equal. apply take_ge. rewrite length_take in E. nia.
    - apply IH; lia.
    - f_equal. f_equal. apply take_ge. rewrite length_take in E. lia. }
  rewrite (loop_pow_enough _ 31 (S (length data)) 5 (Ok data)); [done| |].
  - change (2 ^ Z.of_nat 31) with (INT_MAX + 1). lia.
  - apply Hloop; lia.
Qed.

Lemma Decompress_Compress (data : bytes) :
  Z.of_nat (length data) < INT_MAX - 5 → data ≠ [] →
  ∃ c, Compress data = Ok c ∧ c ≠ [] ∧ is_size (Z.of_nat (length c)) ∧ Decompress c = Ok data.
Proof.
  intros Hlen Hne. destruct (Compress_ok data) as (n & c & Hc & Hb & Hn); [lia|].
  destruct (Hn Hne) as [He ?]. exists c. split_and!; [done|done| |by eapply Decompress_ok].
  unfold is_size, SIZE_MAX, INT_MAX in *. lia.
Qed.

End CompressionLaws.

(** ** The interface the objects rely on

    An encoder of objects sees two fallible functions on texts; what it is promised
    is that a text of reasonable size survives them. *)

Class Compressor := {
  compress_text : bytes → result bytes;
  decompress_text : bytes → result bytes;
}.

Class CompressorLaws `{Compressor} := {
  compress_nil : compress_text [] = Ok [];
  decompress_compress : ∀ data : bytes,
    Z.of_nat (length data) < INT_MAX - 5 → data ≠ [] →
    ∃ c, compress_text data = Ok c ∧ c ≠ [] ∧ is_size (Z.of_nat (length c)) ∧
         decompress_text c = Ok data;
}.

(** util.cc implements it with lzfse. *)
#[export] Instance lzfse_compressor `{Lzfse} : Compressor :=
  {| compress_text := Compress; decompress_text := Decompress |}.

#[export] Instance lzfse_compressor_laws `{LzfseLaws} : CompressorLaws :=
  {| compress_nil := Compress_nil; decompress_compress := Decompress_Compress |}.

(** ** Numeric arguments *)

Definition RedisStrToSize (value : string) : result (option Z) :=
  match value with
  | EmptyString => Ok None
  | _ => if all_digits value then Some <$> stoull value else Ok None
  end.

Definition RedisStrToInt (value : string) : result (option Z) :=
  match value with
  | EmptyString => Ok None
  | String c abs =>
      if char_val c =? 45 then
        match abs with
        | EmptyString => Ok None
        | _ => if all_digits abs then (λ z, Some (- z)) <$> stoi abs else Ok None
        end
      else if all_digits value then Some <$> stoi value
      else Ok None
  end.


Lemma stoi_digits s : all_digits s = true → s ≠ "" →
  stoi s = if digits_go 0 s <=? INT_MAX then Ok (digits_go 0 s) else Err OutOfRange.
Proof.
  intros Hs Hne. unfold stoi. rewrite strto_digits by done. unfold signed_val, is_intb. cbn [fst snd].
  pose proof (digits_go_nonneg 0 s). unfold INT_MIN.
  destruct (Z.leb_spec (-2147483648) (digits_go 0 s)); [|lia]. done.
Qed.

(** The reader of an [int] argument: the three outcomes by the form of the text. *)
Lemma RedisStrToInt_cases s :
  (∃ z, RedisStrToInt s = Ok (Some z) ∧ - INT_MAX ≤ z ≤ INT_MAX) ∨
  RedisStrToInt s = Ok None ∨ RedisStrToInt s = Err OutOfRange.
Proof.
  destruct s as [|c s]; [naive_solver|]. unfold RedisStrToInt.
  pose proof (digits_go_nonneg 0 s). pose proof (digits_go_nonneg 0 (String c s)).
  unfold INT_MAX in *.
  destruct (char_val c =? 45).
  - destruct s as [|c' s]; [naive_solver|]. destruct (all_digits _) eqn:E; [|naive_solver].
    rewrite stoi_digits by done. destruct (Z.leb_spec (digits_go 0 (String c' s)) INT_MAX); [|naive_solver].
    left. eexists. split; [done|]. unfold INT_MAX in *. lia.
  - destruct (all_digits _) eqn:E; [|naive_solver]. rewrite stoi_digits by done.
    destruct (Z.leb_spec (digits_go 0 (String c s)) INT_MAX); [|naive_solver].
    left. eexists. split; [done|]. unfold INT_MAX in *. lia.
Qed.

Lemma RedisStrToInt_range s z : RedisStrToInt s = Ok (Some z) → - INT_MAX ≤ z ≤ INT_MAX.
Proof. intros H. destruct (RedisStrToInt_cases s) as [(? & ? & ?)|[?|?]]; congruence. Qed.

(** What [std::to_string] prints is read back, except for INT_MIN, whose
    magnitude is not an [int]. *)
Lemma RedisStrToInt_to_string z :
  - INT_MAX ≤ z ≤ INT_MAX → RedisStrToInt (to_string z) = Ok (Some z).
Proof.
  intros Hz. destruct (Z.lt_ge_cases z 0) as [Hn|Hn].
  - rewrite to_string_neg by done. destruct (to_string_nonneg (- z)) as (H1 & H2 & c & s & H3); [lia|].
    unfold RedisStrToInt. simpl (char_val "-" =? 45). rewrite H3 in *. rewrite H1, stoi_digits by done.
    rewrite H2. destruct (Z.leb_spec (- z) INT_MAX); [|lia]. simpl. f_equal. f_equal. lia.
  - destruct (to_string_nonneg z) as (H1 & H2 & c & s & H3); [lia|].
    unfold RedisStrToInt. rewrite H3 in *. pose proof H1 as [Hc _]%andb_true_iff.
    pose proof (is_digit_val c Hc). unfold digit_val in *.
    destruct (Z.eqb_spec (char_val c) 45); [lia|]. rewrite H1, stoi_digits, H2 by done.
    destruct (Z.leb_spec z INT_MAX); [done|lia].
Qed.

Lemma RedisStrToSize_digits s : all_digits s = true → s ≠ "" → RedisStrToSize s = Some <$> stoull s.
Proof. intros Hs Hne. destruct s; [done|]. unfold RedisStrToSize. by rewrite Hs. Qed.

Lemma RedisStrToSize_to_string z : is_size z → RedisStrToSize (to_string z) = Ok (Some z).
Proof.
  intros Hz. rewrite RedisStrToSize_digits; [by rewrite stoull_to_string| |apply to_string_nonempty].
  apply to_string_nonneg, Hz.
Qed.

Lemma RedisStrToSize_range s z : RedisStrToSize s = Ok (Some z) → is_size z.
Proof.
  destruct s as [|c s]; [done|]. unfold RedisStrToSize. destruct (all_digits _) eqn:E; [|done].
  unfold stoull. rewrite strto_digits by done. pose proof (digits_go_nonneg 0 (String c s)).
  destruct (Z.leb_spec (digits_go 0 (String c s)) ULLONG_MAX); simpl; [|done].
  intros; simplify_eq. unfold is_size, ULLONG_MAX in *. lia.
Qed.

(** ** Configuration *)

Record RedisConf := {
  file_name_ : string;
  ip_ : string;
  port_ : Z;
  compress_ : bool;
  enable_aof_ : bool;
  every_n_sec_ : Z;
  save_n_times_ : Z;
  mem_size_mbytes_ : Z;
  cpu_num_ : Z;
  password_ : string;
  aof_mode_ : string;
}.

Definition DefaultConf : RedisConf := {|
  file_name_ := "dump.db";
  ip_ := "127.0.0.1";
  port_ := 8080;
  compress_ := true;
  enable_aof_ := false;
  every_n_sec_ := 1;
  save_n_times_ := 1;
  mem_size_mbytes_ := 4096;
  cpu_num_ := 2;
  password_ := "yeah";
  aof_mode_ := "";
|}.

#[global] Opaque BitsToString PeekInt PeekSize PeekString Compress Decompress
  RedisStrToInt RedisStrToSize.

End Util.
Export Util.
