(* ===== verification/Buffer.v ===== *)
(** * Buffers of third/lzfse: sizes, loads and words as bytes

    A buffer is the list of its bytes; a load outside of it is [Undefined].  [load4] and
    [load8] are those of lzfse_internal.h on a little-endian machine. *)

From stdpp Require Import base list strings.
From Stdlib Require Import Ascii ZArith Lia.
From S2P Require Import Prelude CInt.
Local Open Scope Z_scope.

Module Buffer.

Definition size (b : bytes) : Z := Z.of_nat (length b).

(** The [n] bytes at an offset. *)
Definition load (src : bytes) (i : Z) (n : nat) : result bytes :=
  if (i <? 0) || (size src <? i + Z.of_nat n) then Err Undefined else Ok (take n (drop (Z.to_nat i) src)).
Definition load4 (src : bytes) (i : Z) : result Z := le_val <$> load src i 4.
Definition load1 (src : bytes) (i : Z) : result Z := le_val <$> load src i 1.
Definition load8 (src : bytes) (i : Z) : result Z := le_val <$> load src i 8.

(** ** Sizes and loads *)

Lemma size_app (a b : bytes) : size (a ++ b) = size a + size b.
Proof. unfold size. rewrite length_app. lia. Qed.

Lemma size_le_bytes n z : size (le_bytes n z) = Z.of_nat n.
Proof. unfold size. by rewrite length_le_bytes. Qed.

Lemma size_pos (l : bytes) : l ≠ [] → 0 < size l.
Proof. unfold size. destruct l; simpl; [done|lia]. Qed.

Lemma load_Ok src i n : (0 ≤ i)%Z → (i + Z.of_nat n ≤ size src)%Z → load src i n = Ok (take n (drop (Z.to_nat i) src)).
Proof.
  intros Hi Hn. unfold load. destruct (Z.ltb_spec i 0); [lia|]. destruct (Z.ltb_spec (size src) (i + Z.of_nat n)); [lia|done].
Qed.

(** ** Words *)

Lemma le_val_app a b : le_val (a ++ b) = (le_val a + 256 ^ Z.of_nat (length a) * le_val b)%Z.
Proof.
  induction a as [|c a IH]; [change (le_val []) with 0%Z; cbn [app length]; change (Z.of_nat 0) with 0%Z; lia|].
  cbn [app length]. change (le_val (c :: a ++ b)) with (byte_val c + 256 * le_val (a ++ b))%Z.
  change (le_val (c :: a)) with (byte_val c + 256 * le_val a)%Z. rewrite IH, Nat2Z.inj_succ, Z.pow_succ_r by lia. lia.
Qed.

Lemma le_val_take n a : (n ≤ length a)%nat → le_val (take n a) = (le_val a mod 256 ^ Z.of_nat n)%Z.
Proof.
  intros Hn. rewrite <-(take_drop n a) at 2. rewrite le_val_app, length_take, Nat.min_l by done.
  pose proof (le_val_range (take n a)) as Hr. rewrite length_take, Nat.min_l in Hr by done.
  rewrite (Z.mul_comm (256 ^ _)), Z.mod_add by lia. symmetry. by apply Z.mod_small.
Qed.

Lemma le_val_inj a b : length a = length b → le_val a = le_val b → a = b.
Proof. intros Hl Hv. rewrite <-(le_bytes_val a), <-(le_bytes_val b). congruence. Qed.

Lemma lor_join a b k : (0 ≤ k)%Z → (0 ≤ b < 2 ^ k)%Z → Z.lor (Z.shiftl a k) b = (a * 2 ^ k + b)%Z.
Proof.
  intros Hk Hb. rewrite <-Z.shiftl_mul_pow2 by done. pose proof (Z.add_lor_land (Z.shiftl a k) b) as H.
  assert (Z.land (Z.shiftl a k) b = 0%Z) as E; [|lia].
  apply Z.bits_inj'. intros n Hn. rewrite Z.land_spec, Z.bits_0. destruct (Z.lt_ge_cases n k).
  - by rewrite Z.shiftl_spec_low.
  - rewrite <-(Z.mod_small b (2 ^ k)), Z.mod_pow2_bits_high by lia. apply andb_false_r.
Qed.

End Buffer.
Export Buffer.
