(* ===== verification/LzvnDecode.v ===== *)
(** * third/lzfse: the decoder of lzvn_decode_base.c

    A stream is a sequence of instructions, each a literal, a match, or both, and ends
    with an end-of-stream instruction.  The source buffer is what is left of it, the
    destination buffer what has been written ([dst_begin] to [dst]) and its size; the
    wide copies of the code write up to seven bytes behind [dst], which are not part of
    the state.  A read outside the buffers is [Undefined]. *)

From stdpp Require Import base list strings.
From Stdlib Require Import Ascii ZArith Lia.
From S2P Require Import Prelude CInt Util.
Local Open Scope nat_scope.

Module LzvnDecode.

(** [extract] of lzfse_internal.h. *)
Definition extract (container : Z) (lsb width : Z) : Z := Z.land (Z.shiftr container lsb) (Z.shiftl 1 width - 1).

(** ** Instructions *)

Inductive label := sml_d | med_d | lrg_d | pre_d | sml_m | lrg_m | sml_l | lrg_l | nop | eos | udef.

(** The jump table, row by row. *)
Definition row_d (x : label) : list label := [sml_d; sml_d; sml_d; sml_d; sml_d; sml_d; x; lrg_d].
Definition row (x : label) : list label := replicate 8 x.
Definition opc_tbl : list label :=
  concat [row_d eos; row_d nop; row_d nop; row_d udef; row_d udef; row_d udef; row_d udef; row_d udef;
          row_d pre_d; row_d pre_d; row_d pre_d; row_d pre_d; row_d pre_d; row_d pre_d; row udef; row udef;
          row_d pre_d; row_d pre_d; row_d pre_d; row_d pre_d; row med_d; row med_d; row med_d; row med_d;
          row_d pre_d; row_d pre_d; row udef; row udef;
          lrg_l :: replicate 7 sml_l; row sml_l; lrg_m :: replicate 7 sml_m; row sml_m].

Definition opc_label (opc : ascii) : label := nth (Z.to_nat (byte_val opc)) opc_tbl udef.

(** ** The state *)

Record lzvn_decoder_state := mkLzvnDecoder {
  ld_src : bytes;
  ld_dst : bytes;
  ld_dst_size : nat;
  ld_L : nat;
  ld_M : nat;
  ld_D : nat;
  ld_d_prev : nat;
  ld_end_of_stream : bool;
}.

(** [UPDATE_GOOD]. *)
Definition UPDATE_GOOD (st : lzvn_decoder_state) (src dst : bytes) (D : nat) : lzvn_decoder_state :=
  mkLzvnDecoder src dst (ld_dst_size st) (ld_L st) (ld_M st) (ld_D st) D (ld_end_of_stream st).

(** The state a truncated destination leaves: the rest of the instruction is saved. *)
Definition save_partial (st : lzvn_decoder_state) (src dst : bytes) (L M D : nat) : lzvn_decoder_state :=
  mkLzvnDecoder src dst (ld_dst_size st) L M D (ld_d_prev st) (ld_end_of_stream st).

(** An instruction ends the call, or goes on to the next one. *)
Inductive outcome :=
| Return (st : lzvn_decoder_state)
| Next (st : lzvn_decoder_state) (src dst : bytes) (D : nat).

(** ** Copies *)

Definition dst_len (st : lzvn_decoder_state) (dst : bytes) : nat := ld_dst_size st - length dst.

(** The first [n] bytes of the source, with byte loads. *)
Definition copy_bytes (src dst : bytes) (n : nat) : result bytes :=
  if length src <? n then Err Undefined else Ok (dst ++ take n src).

(** The same with loads of [w] bytes at a time; the destination moves by [n]. *)
Definition copy_wide (w : nat) (src dst : bytes) (n : nat) : result bytes :=
  let read := w * ((n + (w - 1)) / w) in
  if length src <? read then Err Undefined else Ok (dst ++ take n (take read src)).

(** [dst_ptr[i - D]], where [dst_ptr + i] is the end of what has been written. *)
Definition back (dst : bytes) (D : nat) : result ascii :=
  if (D =? 0) || (length dst <? D) then Err Undefined else vec_at dst (length dst - D).

Fixpoint match_bytes (n D : nat) (dst : bytes) : result bytes :=
  match n with
  | O => Ok dst
  | S n => c ← back dst D; match_bytes n D (dst ++ [c])
  end.

(** [store8(&dst_ptr[i], load8(&dst_ptr[i - D]))] for [n] blocks. *)
Fixpoint match_blocks (n D : nat) (dst : bytes) : result bytes :=
  match n with
  | O => Ok dst
  | S n =>
      if (length dst <? D) || (D <? 8) then Err Undefined
      else match_blocks n D (dst ++ take 8 (drop (length dst - D) dst))
  end.

Definition copy_match (st : lzvn_decoder_state) (src dst : bytes) (M D : nat) : result outcome :=
  if (M + 7 <=? dst_len st dst) && (8 <=? D) then
    out ← match_blocks ((M + 7) / 8) D dst; Ok (Next st src (take (length dst + M) out) D)
  else if M <=? dst_len st dst then
    out ← match_bytes M D dst; Ok (Next st src out D)
  else
    out ← match_bytes (dst_len st dst) D dst;
    Ok (Return (save_partial st src out 0 (M - dst_len st dst) D)).

(** The literal has at most three bytes, so that one wide copy covers it. *)
Definition copy_literal_and_match (st : lzvn_decoder_state) (src dst : bytes) (opc_len L M D : nat) : result outcome :=
  let src := drop opc_len src in
  if (4 <=? dst_len st dst) && (4 <=? length src) || (L <=? dst_len st dst) then
    out ← (if (4 <=? dst_len st dst) && (4 <=? length src) then Ok (dst ++ take L (take 4 src)) else copy_bytes src dst L);
    if (length out <? D) || (D =? 0) then Ok (Return st)
    else copy_match st (drop L src) out M D
  else
    let n := dst_len st dst in
    out ← copy_bytes src dst n; Ok (Return (save_partial st (drop n src) out (L - n) M D)).

Definition copy_literal (st : lzvn_decoder_state) (src dst : bytes) (opc_len L D : nat) : result outcome :=
  if length src <=? opc_len + L then Ok (Return st)
  else
    let src := drop opc_len src in
    if (L + 7 <=? dst_len st dst) && (L + 7 <=? length src) then
      out ← copy_wide 8 src dst L; Ok (Next st (drop L src) out D)
    else if L <=? dst_len st dst then
      out ← copy_bytes src dst L; Ok (Next st (drop L src) out D)
    else
      let n := dst_len st dst in
      out ← copy_bytes src dst n; Ok (Return (save_partial st (drop n src) out (L - n) 0 D)).

(** ** One instruction *)

Definition byte_at (src : bytes) (i : nat) : Z := match src !! i with Some c => byte_val c | None => 0 end.
Definition load2 (src : bytes) : Z := le_val (take 2 src).

(** The fields of the four instructions with a literal and a match: the length of the
    instruction, of its literal, of its match, and its distance. *)
Definition fields_of (l : label) (opc : Z) (src : bytes) (D : nat) : nat * nat * nat * nat :=
  match l with
  | med_d =>
      let opc23 := load2 (drop 1 src) in
      (3, Z.to_nat (extract opc 3 2), Z.to_nat (Z.lor (Z.shiftl (extract opc 0 3) 2) (extract opc23 0 2) + 3),
       Z.to_nat (extract opc23 2 14))
  | lrg_d => (3, Z.to_nat (extract opc 6 2), Z.to_nat (extract opc 3 3 + 3), Z.to_nat (load2 (drop 1 src)))
  | pre_d => (1, Z.to_nat (extract opc 6 2), Z.to_nat (extract opc 3 3 + 3), D)
  | _ =>
      (2, Z.to_nat (extract opc 6 2), Z.to_nat (extract opc 3 3 + 3),
       Z.to_nat (Z.lor (Z.shiftl (extract opc 0 3) 8) (byte_at src 1)))
  end.

Definition opcode_step (st : lzvn_decoder_state) (src dst : bytes) (D : nat) : result outcome :=
  match src with
  | [] => Err Undefined
  | opc :: _ =>
      let good := UPDATE_GOOD st src dst D in
      let l := opc_label opc in
      match l with
      | sml_d | med_d | lrg_d | pre_d =>
          let '(opc_len, L, M, D) := fields_of l (byte_val opc) src D in
          if length src <=? opc_len + L then Ok (Return good) else copy_literal_and_match good src dst opc_len L M D
      | sml_m =>
          if length src <=? 1 then Ok (Return good)
          else copy_match good (drop 1 src) dst (Z.to_nat (extract (byte_val opc) 0 4)) D
      | lrg_m =>
          if length src <=? 2 then Ok (Return good)
          else copy_match good (drop 2 src) dst (Z.to_nat (byte_at src 1 + 16)) D
      | sml_l => copy_literal good src dst 1 (Z.to_nat (extract (byte_val opc) 0 4)) D
      | lrg_l =>
          if length src <=? 2 then Ok (Return good)
          else copy_literal good src dst 2 (Z.to_nat (byte_at src 1 + 16)) D
      | nop => if length src <=? 1 then Ok (Return good) else Ok (Next good (drop 1 src) dst D)
      | eos =>
          if length src <? 8 then Ok (Return st)
          else Ok (Return (mkLzvnDecoder (drop 8 src) dst (ld_dst_size st) (ld_L st) (ld_M st) (ld_D st) D true))
      | udef => Ok (Return st)
      end
  end.

(** Every instruction consumes at least its first byte. *)
Fixpoint decode_loop (fuel : nat) (o : outcome) : result lzvn_decoder_state :=
  match o with
  | Return st => Ok st
  | Next st src dst D =>
      match fuel with
      | O => Err Diverge
      | S fuel => o ← opcode_step st src dst D; decode_loop fuel o
      end
  end.

(** A match that was saved in the state is finished first. *)
Definition lzvn_decode (st : lzvn_decoder_state) : result lzvn_decoder_state :=
  if (length (ld_src st) =? 0) || (dst_len st (ld_dst st) =? 0) then Ok st
  else
    let '(L, M, D) := (ld_L st, ld_M st, ld_D st) in
    let fresh := mkLzvnDecoder (ld_src st) (ld_dst st) (ld_dst_size st) 0 0 0 (ld_d_prev st) (ld_end_of_stream st) in
    o ← (if (L =? 0) && (M =? 0) then Ok (Next st (ld_src st) (ld_dst st) (ld_d_prev st))
         else if M =? 0 then copy_literal fresh (ld_src st) (ld_dst st) 0 L D
         else if L =? 0 then copy_match fresh (ld_src st) (ld_dst st) M D
         else copy_literal_and_match fresh (ld_src st) (ld_dst st) 0 L M D);
    decode_loop (length (ld_src st)) o.

End LzvnDecode.
Export LzvnDecode.
