(* ===== verification/LzvnEncode.v ===== *)
(** * third/lzfse: the encoder of lzvn_encode_base.c

    The encoder walks through the source, looks up earlier positions with the same three
    bytes in a hash table, and emits literals and matches.  Offsets are signed 64-bit
    integers ([lzvn_offset]); the destination is the list of the bytes up to [dst] with its
    capacity, the bytes that wide stores write behind [dst] are not part of it.  A load
    outside the source is [Undefined]. *)

From stdpp Require Import base gmap list strings.
From Stdlib Require Import Ascii ZArith Lia.
From S2P Require Import Prelude CInt Util Buffer.
Local Open Scope Z_scope.

Module LzvnEncode.

Definition LZVN_ENCODE_HASH_BITS : Z := 14.
Definition LZVN_ENCODE_HASH_VALUES : Z := Z.shiftl 1 LZVN_ENCODE_HASH_BITS.
Definition LZVN_ENCODE_MAX_DISTANCE : Z := 65535.
Definition LZVN_ENCODE_MIN_MARGIN : Z := 8.
Definition LZVN_ENCODE_MAX_LITERAL_BACKLOG : Z := 400.
Definition LZVN_ENCODE_MIN_SRC_SIZE : Z := 8.
Definition LZVN_ENCODE_MIN_DST_SIZE : Z := 8.
Definition LZVN_ENCODE_MAX_SRC_SIZE : Z := 4294967295.

(** ** Emitting instructions *)

(** A literal is copied by bytes, or by blocks of eight that may read behind it. *)
Definition lzvn_copy8 (src : bytes) (p n : Z) : result bytes := load src p (Z.to_nat n).
Definition lzvn_copy64 (src : bytes) (p n : Z) : result bytes :=
  take (Z.to_nat n) <$> load src p (8 * Z.to_nat ((n + 7) / 8)).

(** [store2(q, low + (high << 8))]. *)
Definition two (low high : Z) : bytes := [byte_of low; byte_of high].

(** The literals of more than 15 bytes, in pieces of at most 271; [None] stands for
    [OUT_FULL]. *)
Fixpoint long_literals (fuel : nat) (copy : bytes → Z → Z → result bytes) (src : bytes) (p : Z) (q : bytes) (q1 L : Z)
    : result (option (Z * bytes * Z)) :=
  if negb (15 <? L) then Ok (Some (p, q, L))
  else
    match fuel with
    | O => Err Diverge
    | S fuel =>
        let x := if L <? 271 then L else 271 in
        if q1 <=? size q + x + 10 then Ok None
        else
          lit ← copy src p x;
          long_literals fuel copy src (p + x) (q ++ two 224 (x - 16) ++ lit) q1 (L - x)
    end.

Definition emit_literal (src : bytes) (p : Z) (q : bytes) (q1 L : Z) : result (option bytes) :=
  r ← long_literals (Z.to_nat L) lzvn_copy8 src p q q1 L;
  match r with
  | None => Ok None
  | Some (p, q, L) =>
      if 0 <? L then
        if q1 <=? size q + L + 10 then Ok None
        else lit ← lzvn_copy8 src p L; Ok (Some (q ++ [byte_of (224 + L)] ++ lit))
      else Ok (Some q)
  end.

(** What is left of a match, in pieces of at most 271. *)
Fixpoint long_matches (fuel : nat) (q : bytes) (q1 M : Z) : result (option (bytes * Z)) :=
  if negb (15 <? M) then Ok (Some (q, M))
  else
    match fuel with
    | O => Err Diverge
    | S fuel =>
        if q1 <=? size q + 2 then Ok None
        else
          let x := if M <? 271 then M else 271 in
          long_matches fuel (q ++ two 240 (x - 16)) q1 (M - x)
    end.

(** The instruction with the distance: the first [x + 3] bytes of the match, and the
    length [M] that is left. *)
Definition first_match (L x M D D_prev : Z) : bytes * Z :=
  if D =? D_prev then
    (if L =? 0 then [byte_of (240 + (x + 3))] else [byte_of (Z.shiftl L 6 + Z.shiftl x 3 + 6)], M)
  else if D <? 2048 - 2 * 256 then
    ([byte_of (Z.shiftr D 8 + Z.shiftl L 6 + Z.shiftl x 3); byte_of (Z.land D 255)], M)
  else if (Z.shiftl 1 14 <=? D) || (M =? 0) || (34 <? x + 3 + M) then
    (byte_of (Z.shiftl L 6 + Z.shiftl x 3 + 7) :: le_bytes 2 D, M)
  else
    let x := x + M in
    (byte_of (160 + Z.shiftr x 2 + Z.shiftl L 3) :: le_bytes 2 (Z.lor (Z.shiftl D 2) (Z.land x 3)), 0).

Definition emit (src : bytes) (p : Z) (q : bytes) (q1 L M D D_prev : Z) : result (option bytes) :=
  r ← long_literals (Z.to_nat L) lzvn_copy64 src p q q1 L;
  match r with
  | None => Ok None
  | Some (p, q, L) =>
      r ← (if 3 <? L then
             if q1 <=? size q + L + 10 then Ok None
             else lit ← lzvn_copy64 src p L; Ok (Some (p + L, q ++ [byte_of (224 + L)] ++ lit, 0))
           else Ok (Some (p, q, L)));
      match r with
      | None => Ok None
      | Some (p, q, L) =>
          let x := if M <=? 10 - 2 * L then M else 10 - 2 * L in
          let M := M - x in
          let x := x - 3 in
          literal ← load src p 4;
          if q1 <=? size q + 8 then Ok None
          else
            let '(op, M) := first_match L x M D D_prev in
            let q := q ++ op ++ take (Z.to_nat L) literal in
            r ← long_matches (Z.to_nat M) q q1 M;
            match r with
            | None => Ok None
            | Some (q, M) =>
                if 0 <? M then
                  if q1 <=? size q + 1 then Ok None else Ok (Some (q ++ [byte_of (240 + M)]))
                else Ok (Some q)
            end
      end
  end.

(** ** Hashing and matching *)

Definition offset_to_s32 (x : Z) : Z := to_int x.
Definition offset_from_s32 (x : Z) : Z := x.

Definition hash3i (i : Z) : Z :=
  let i := Z.land i 16777215 in
  let h := Z.shiftr ((i * (1 + Z.shiftl 1 6 + Z.shiftl 1 12)) mod 2 ^ 32) 12 in
  Z.land h (LZVN_ENCODE_HASH_VALUES - 1).

(** [__builtin_ctzl] of a positive number. *)
Fixpoint ctz (x : positive) : Z :=
  match x with
  | xO x => 1 + ctz x
  | _ => 0
  end.

Definition trailing_zero_bytes (x : Z) : Z :=
  match x with Z.pos p => Z.shiftr (ctz p) 3 | _ => 4 end.

Definition nmatch4 (src : bytes) (i j : Z) : result Z :=
  vi ← load4 src i; vj ← load4 src j; Ok (trailing_zero_bytes (Z.lxor vi vj)).

Record lzvn_match_info := mkMatch {
  m_begin : Z;
  m_end : Z;
  m_M : Z;
  m_D : Z;
  m_K : Z;
}.
Definition NO_MATCH : lzvn_match_info := mkMatch 0 0 0 0 0.

Fixpoint expand_forward (fuel : nat) (src : bytes) (src_end D n m_end : Z) : result Z :=
  if (n =? 4) && (m_end + 4 <? src_end) then
    match fuel with
    | O => Err Diverge
    | S fuel => n ← nmatch4 src m_end (m_end - D); expand_forward fuel src src_end D n (m_end + n)
    end
  else Ok m_end.

Fixpoint expand_backwards (fuel : nat) (src : bytes) (src_begin l_begin m0_begin m_begin : Z) : result Z :=
  if (src_begin <? m0_begin) && (l_begin <? m_begin) then
    a ← load1 src (m_begin - 1);
    b ← load1 src (m0_begin - 1);
    if a =? b then
      match fuel with
      | O => Err Diverge
      | S fuel => expand_backwards fuel src src_begin l_begin (m0_begin - 1) (m_begin - 1)
      end
    else Ok m_begin
  else Ok m_begin.

(** [lzvn_find_matchN]: [n] bytes are known to match. *)
Definition lzvn_find_matchN (src : bytes) (src_begin src_end l_begin m0_begin m_begin n : Z) : result (option lzvn_match_info) :=
  if n <? 3 then Ok None
  else
    let D := m_begin - m0_begin in
    if (D <=? 0) || (LZVN_ENCODE_MAX_DISTANCE <? D) then Ok None
    else
      m_end ← expand_forward (length src) src src_end D n (m_begin + n);
      m_begin ← expand_backwards (length src) src src_begin l_begin m0_begin m_begin;
      let M := m_end - m_begin in
      Ok (Some (mkMatch m_begin m_end M D (M - (if D <? 1536 then 2 else 3)))).

Definition lzvn_find_match (src : bytes) (src_begin src_end l_begin m0_begin m_begin : Z) : result (option lzvn_match_info) :=
  n ← nmatch4 src m_begin m0_begin;
  lzvn_find_matchN src src_begin src_end l_begin m0_begin m_begin n.

(** ** The state *)

Record lzvn_encode_entry_type := mkEntry {
  indices : list Z;
  values : list Z;
}.

(** The table is filled with one entry at the start; [table] holds the changes. *)
Record lzvn_encoder_state := mkLzvnEncoder {
  le_src : bytes;
  le_src_begin : Z;
  le_src_end : Z;
  le_src_current : Z;
  le_src_current_end : Z;
  le_src_literal : Z;
  le_dst : bytes;
  le_dst_end : Z;
  le_pending : lzvn_match_info;
  le_d_prev : Z;
  le_initial : lzvn_encode_entry_type;
  le_table : gmap Z lzvn_encode_entry_type;
}.

Definition table_get (st : lzvn_encoder_state) (h : Z) : lzvn_encode_entry_type := default (le_initial st) (le_table st !! h).

(** The fields an operation changes. *)
Definition set_emitted (st : lzvn_encoder_state) (dst : bytes) (src_literal d_prev : Z) : lzvn_encoder_state :=
  mkLzvnEncoder (le_src st) (le_src_begin st) (le_src_end st) (le_src_current st) (le_src_current_end st) src_literal
    dst (le_dst_end st) (le_pending st) d_prev (le_initial st) (le_table st).
Definition set_pending (st : lzvn_encoder_state) (m : lzvn_match_info) : lzvn_encoder_state :=
  mkLzvnEncoder (le_src st) (le_src_begin st) (le_src_end st) (le_src_current st) (le_src_current_end st) (le_src_literal st)
    (le_dst st) (le_dst_end st) m (le_d_prev st) (le_initial st) (le_table st).
Definition set_advanced (st : lzvn_encoder_state) (h : Z) (e : lzvn_encode_entry_type) : lzvn_encoder_state :=
  mkLzvnEncoder (le_src st) (le_src_begin st) (le_src_end st) (le_src_current st + 1) (le_src_current_end st) (le_src_literal st)
    (le_dst st) (le_dst_end st) (le_pending st) (le_d_prev st) (le_initial st) (<[h := e]> (le_table st)).

(** ** Emitting from the state: [None] when the destination is full *)

Definition lzvn_emit_match (st : lzvn_encoder_state) (m : lzvn_match_info) : result (option lzvn_encoder_state) :=
  dst ← emit (le_src st) (le_src_literal st) (le_dst st) (le_dst_end st) (m_begin m - le_src_literal st) (m_M m) (m_D m) (le_d_prev st);
  Ok (match dst with
      | Some dst => if le_dst_end st <=? size dst then None else Some (set_emitted st dst (m_end m) (m_D m))
      | None => None
      end).

Definition lzvn_emit_literal (st : lzvn_encoder_state) (n : Z) : result (option lzvn_encoder_state) :=
  dst ← emit_literal (le_src st) (le_src_literal st) (le_dst st) (le_dst_end st) n;
  Ok (match dst with
      | Some dst =>
          if le_dst_end st <=? size dst then None else Some (set_emitted st dst (le_src_literal st + n) (le_d_prev st))
      | None => None
      end).

(** [store8(state->dst, 0x06)]. *)
Definition lzvn_emit_end_of_stream (st : lzvn_encoder_state) : lzvn_encoder_state :=
  if le_dst_end st <? size (le_dst st) + 8 then st
  else set_emitted st (le_dst st ++ le_bytes 8 6) (le_src_literal st) (le_d_prev st).

(** ** The main loop *)

(** [UPDATE(best, candidate)]. *)
Definition UPDATE (best candidate : lzvn_match_info) : lzvn_match_info :=
  if (m_K best <? m_K candidate) || ((m_K candidate =? m_K best) && (m_end best + 1 <? m_end candidate))
  then candidate else best.

Definition CHECK_CANDIDATE (st : lzvn_encoder_state) (vi : Z) (incoming : lzvn_match_info) (iv : Z * Z) : result lzvn_match_info :=
  let ik := offset_from_s32 iv.1 in
  let nk := trailing_zero_bytes (Z.lxor iv.2 vi) in
  m1 ← lzvn_find_matchN (le_src st) (le_src_begin st) (le_src_end st) (le_src_literal st) ik (le_src_current st) nk;
  Ok (match m1 with Some m1 => UPDATE incoming m1 | None => incoming end).

(** The best of the four candidates of the entry and the one at the previous distance. *)
Definition best_match (st : lzvn_encoder_state) (vi : Z) (e : lzvn_encode_entry_type) : result lzvn_match_info :=
  incoming ← foldM (CHECK_CANDIDATE st vi) NO_MATCH (zip (indices e) (values e));
  if le_d_prev st =? 0 then Ok incoming
  else
    m1 ← lzvn_find_match (le_src st) (le_src_begin st) (le_src_end st) (le_src_literal st)
           (le_src_current st - le_d_prev st) (le_src_current st);
    Ok (match m1 with
        | Some m1 => UPDATE incoming (mkMatch (m_begin m1) (m_end m1) (m_M m1) (m_D m1) (m_M m1 - 1))
        | None => incoming
        end).

(** [EMIT_MATCH] and [EMIT_LITERAL]: the state after them and whether the loop goes on;
    what is pending then is [pending]. *)
Definition emitted (st : lzvn_encoder_state) (pending : lzvn_match_info) (r : option lzvn_encoder_state) : lzvn_encoder_state * bool :=
  match r with Some st => (set_pending st pending, true) | None => (st, false) end.

(** What an iteration does with the best match. *)
Definition emit_best (st : lzvn_encoder_state) (incoming : lzvn_match_info) : result (lzvn_encoder_state * bool) :=
  let pending := le_pending st in
  if m_M incoming =? 0 then
    if LZVN_ENCODE_MAX_LITERAL_BACKLOG <=? le_src_current st - le_src_literal st then
      if negb (m_M pending =? 0) then emitted st NO_MATCH <$> lzvn_emit_match st pending
      else emitted st pending <$> lzvn_emit_literal st 271
    else Ok (st, true)
  else if m_M pending =? 0 then Ok (set_pending st incoming, true)
  else if m_end pending <=? m_begin incoming then emitted st incoming <$> lzvn_emit_match st pending
  else
    let st := if m_K pending <? m_K incoming then set_pending st incoming else st in
    emitted st NO_MATCH <$> lzvn_emit_match st (le_pending st).

(** One iteration: the state after it, or the state in which the loop is left. *)
Definition encode_iteration (st : lzvn_encoder_state) : result (lzvn_encoder_state * bool) :=
  vi ← load4 (le_src st) (le_src_current st);
  let h := hash3i vi in
  let e := table_get st h in
  let updated_e := mkEntry (offset_to_s32 (le_src_current st) :: take 3 (indices e)) (vi :: take 3 (values e)) in
  if le_src_current st <? le_src_literal st then Ok (set_advanced st h updated_e, true)
  else
    incoming ← best_match st vi e;
    '(st, go_on) ← emit_best st incoming;
    Ok (if go_on : bool then (set_advanced st h updated_e, true) else (st, false)).

Fixpoint encode_loop (fuel : nat) (st : lzvn_encoder_state) : result lzvn_encoder_state :=
  if le_src_current st <? le_src_current_end st then
    match fuel with
    | O => Err Diverge
    | S fuel => '(st, go_on) ← encode_iteration st; if go_on : bool then encode_loop fuel st else Ok st
    end
  else Ok st.

Definition lzvn_encode (st : lzvn_encoder_state) : result lzvn_encoder_state := encode_loop (length (le_src st)) st.

(** ** Entry points *)

Definition lzvn_init_table (src : bytes) (src_begin : Z) : result lzvn_encode_entry_type :=
  let index := if - LZVN_ENCODE_MAX_DISTANCE <? src_begin then src_begin else - LZVN_ENCODE_MAX_DISTANCE in
  value ← load4 src index;
  Ok (mkEntry (replicate 4 (offset_to_s32 index)) (replicate 4 value)).

(** The bytes written and the number of source bytes used. *)
Definition lzvn_encode_partial (dst_size : Z) (src : bytes) : result (bytes * Z) :=
  if dst_size <? LZVN_ENCODE_MIN_DST_SIZE then Ok ([], 0)
  else
    let src_size := if LZVN_ENCODE_MAX_SRC_SIZE <? size src then LZVN_ENCODE_MAX_SRC_SIZE else size src in
    let st initial current_end :=
      mkLzvnEncoder src 0 src_size 0 current_end 0 [] (dst_size - 8) NO_MATCH 0 initial ∅ in
    st ← (if LZVN_ENCODE_MIN_SRC_SIZE <=? src_size then
            initial ← lzvn_init_table src 0;
            lzvn_encode (st initial (src_size - LZVN_ENCODE_MIN_MARGIN))
          else Ok (st (mkEntry [] []) 0));
    r ← lzvn_emit_literal st (le_src_end st - le_src_literal st);
    let st := default st r in
    let st := mkLzvnEncoder (le_src st) (le_src_begin st) (le_src_end st) (le_src_current st) (le_src_current_end st)
                (le_src_literal st) (le_dst st) dst_size (le_pending st) (le_d_prev st) (le_initial st) (le_table st) in
    let st := lzvn_emit_end_of_stream st in
    Ok (le_dst st, le_src_literal st).

(** The encoded bytes; nothing stands for the return value 0. *)
Definition lzvn_encode_buffer (dst_size : Z) (src : bytes) : result bytes :=
  '(dst, src_used) ← lzvn_encode_partial dst_size src;
  Ok (if src_used =? size src then dst else []).

End LzvnEncode.
Export LzvnEncode.
