(* ===== verification/LzvnInstr.v ===== *)
(** * What the instructions of an LZVN stream write

    The copies of the decoder, wide or by bytes, extend the output in the same way; a
    piece of a stream [denotes] the output it appends, whatever follows it and however
    much room the destination has. *)

From stdpp Require Import base list strings.
From Stdlib Require Import Ascii ZArith Lia.
From S2P Require Import Prelude CInt Util LzvnDecode.
Local Open Scope nat_scope.

Module LzvnInstr.

(** ** Copies of matches *)

Lemma match_bytes_length n D o o' : match_bytes n D o = Ok o' → length o' = length o + n.
Proof.
  revert o; induction n as [|n IH]; intros o; cbn [match_bytes]; [intros [= <-]; lia|].
  intros (c & _ & Hm)%bind_Ok. apply IH in Hm. rewrite length_app in Hm. simpl in Hm. lia.
Qed.

Lemma match_bytes_prefix n D o o' : match_bytes n D o = Ok o' → o `prefix_of` o'.
Proof.
  revert o; induction n as [|n IH]; intros o; cbn [match_bytes]; [by intros [= <-]|].
  intros (c & _ & Hm)%bind_Ok. apply IH in Hm. etrans; [|done]. by apply prefix_app_r.
Qed.

Lemma match_bytes_add n m D o : match_bytes (n + m) D o = (o1 ← match_bytes n D o; match_bytes m D o1).
Proof.
  revert o; induction n as [|n IH]; intros o; [done|]. cbn [match_bytes Nat.add].
  destruct (back o D) as [c|]; [|done]. cbn [mbind result_bind]. apply IH.
Qed.

(** A distance inside the output always can be copied from. *)
Lemma match_bytes_total n D o : 1 ≤ D ≤ length o → ∃ o', match_bytes n D o = Ok o'.
Proof.
  revert o; induction n as [|n IH]; intros o HD; cbn [match_bytes]; [by eexists|].
  unfold back. destruct (Nat.eqb_spec D 0); [lia|]. destruct (Nat.ltb_spec (length o) D); [lia|]. cbn [orb].
  destruct (lookup_lt_is_Some_2 o (length o - D)) as [c Hc]; [lia|]. rewrite (proj2 (vec_at_Ok _ _ _) Hc).
  cbn [mbind result_bind]. apply IH. rewrite length_app. simpl. lia.
Qed.

Lemma match_bytes_distance n D o o' : match_bytes (S n) D o = Ok o' → 1 ≤ D ≤ length o.
Proof.
  cbn [match_bytes]. intros (c & Hb & _)%bind_Ok. unfold back in Hb.
  destruct (Nat.eqb_spec D 0); [done|]. destruct (Nat.ltb_spec (length o) D); [done|lia].
Qed.

(** The first bytes of a longer copy. *)
Lemma match_bytes_take n m D o o' :
  n ≤ m → match_bytes m D o = Ok o' → match_bytes n D o = Ok (take (length o + n) o').
Proof.
  intros Hn Hm. replace m with (n + (m - n)) in Hm by lia. rewrite match_bytes_add in Hm.
  apply bind_Ok in Hm as (o1 & H1 & H2). rewrite H1. f_equal.
  apply match_bytes_prefix in H2 as [t ->]. apply match_bytes_length in H1. by rewrite take_app_length' by lia.
Qed.

(** One block of eight bytes is eight bytes when they do not overlap what is written. *)
Lemma match_bytes_block n D o :
  n ≤ D → D ≤ length o → 1 ≤ D → match_bytes n D o = Ok (o ++ take n (drop (length o - D) o)).
Proof.
  intros Hn HD H1. induction n as [|n IH]; [by rewrite take_0, app_nil_r|].
  replace (S n) with (n + 1) by lia. rewrite match_bytes_add, IH by lia. cbn [mbind result_bind match_bytes].
  set (d := drop (length o - D) o). assert (length d = D) as Hd by (unfold d; rewrite length_drop; lia).
  unfold back. rewrite length_app, length_take, Hd, Nat.min_l by lia.
  destruct (Nat.eqb_spec D 0); [lia|]. destruct (Nat.ltb_spec (length o + n) D); [lia|]. cbn [orb].
  destruct (lookup_lt_is_Some_2 d n) as [c Hc]; [lia|].
  assert ((o ++ take n d) !! (length o + n - D) = Some c) as Hl.
  { rewrite lookup_app_l by lia. unfold d in Hc. rewrite lookup_drop in Hc. rewrite <-Hc. f_equal. lia. }
  rewrite (proj2 (vec_at_Ok _ _ _) Hl). cbn [mbind result_bind].
  replace (n + 1) with (S n) by lia. by rewrite (take_S_r _ _ _ Hc), app_assoc.
Qed.

Lemma match_blocks_bytes n D o : 8 ≤ D → D ≤ length o → match_blocks n D o = match_bytes (8 * n) D o.
Proof.
  revert o; induction n as [|n IH]; intros o H8 HD; [done|]. cbn [match_blocks].
  destruct (Nat.ltb_spec (length o) D); [lia|]. destruct (Nat.ltb_spec D 8); [lia|]. cbn [orb].
  replace (8 * S n) with (8 + 8 * n) by lia. rewrite match_bytes_add, match_bytes_block by lia. cbn [mbind result_bind].
  apply IH; [done|]. rewrite length_app. lia.
Qed.

Lemma div_up n : n ≤ 8 * ((n + 7) / 8) ≤ n + 7.
Proof. pose proof (Nat.div_mod (n + 7) 8). pose proof (Nat.mod_upper_bound (n + 7) 8). lia. Qed.

(** The state left by a full destination: everything that fits has been written. *)
Definition filled (st st' : lzvn_decoder_state) (src o' : bytes) : Prop :=
  ld_dst st' = take (ld_dst_size st) o' ∧ ld_end_of_stream st' = ld_end_of_stream st ∧
  ld_src st' ≠ [] ∧ ld_src st' `suffix_of` src.

(** Both copies of a match, and the one that stops at the end of the destination. *)
Lemma copy_match_spec st src o M D o' :
  match_bytes M D o = Ok o' → 1 ≤ M → length o ≤ ld_dst_size st → src ≠ [] →
  if decide (length o' ≤ ld_dst_size st) then copy_match st src o M D = Ok (Next st src o' D)
  else ∃ st', copy_match st src o M D = Ok (Return st') ∧ filled st st' src o'.
Proof.
  intros Hm HM Ho Hsrc. pose proof (match_bytes_length _ _ _ _ Hm) as Hl. unfold copy_match, dst_len.
  assert (1 ≤ D ≤ length o) as HD by (destruct M; [lia|]; by eapply match_bytes_distance).
  pose proof (div_up M) as Hdiv. case_decide as Hfit.
  - destruct (Nat.leb_spec (M + 7) (ld_dst_size st - length o)) as [Hw|Hw]; [destruct (Nat.leb_spec 8 D) as [H8|]|]; cbn [andb];
      [|destruct (Nat.leb_spec M (ld_dst_size st - length o)); [by rewrite Hm|lia]..].
    rewrite match_blocks_bytes by lia. destruct (match_bytes_total (8 * ((M + 7) / 8)) D o HD) as [o2 Ho2].
    rewrite Ho2. cbn [mbind result_bind]. do 2 f_equal.
    apply (match_bytes_take M) in Ho2; [|lia]. congruence.
  - destruct (Nat.leb_spec (M + 7) (ld_dst_size st - length o)); [lia|]. cbn [andb].
    destruct (Nat.leb_spec M (ld_dst_size st - length o)); [lia|].
    rewrite (match_bytes_take _ M D o o') by (done || lia). cbn [mbind result_bind]. eexists. split; [done|].
    split_and!; [simpl; f_equal; lia|done|done|by exists []].
Qed.

(** ** Literals *)

Lemma copy_bytes_spec src rest o : copy_bytes (src ++ rest) o (length src) = Ok (o ++ src).
Proof.
  unfold copy_bytes. rewrite length_app. destruct (Nat.ltb_spec (length src + length rest) (length src)); [lia|].
  by rewrite take_app_length.
Qed.

Lemma copy_bytes_part src o n : n ≤ length src → copy_bytes src o n = Ok (o ++ take n src).
Proof. intros Hn. unfold copy_bytes. destruct (Nat.ltb_spec (length src) n); [lia|done]. Qed.

Lemma take_filled (o lit : bytes) size :
  length o ≤ size → o ++ take (size - length o) lit = take size (o ++ lit).
Proof. intros Ho. by rewrite take_app, (take_ge o) by lia. Qed.

Lemma copy_literal_spec st hdr lit rest o D :
  rest ≠ [] → length o ≤ ld_dst_size st →
  if decide (length o + length lit ≤ ld_dst_size st)
  then copy_literal st (hdr ++ lit ++ rest) o (length hdr) (length lit) D = Ok (Next st rest (o ++ lit) D)
  else ∃ st', copy_literal st (hdr ++ lit ++ rest) o (length hdr) (length lit) D = Ok (Return st') ∧
              filled st st' (hdr ++ lit ++ rest) (o ++ lit).
Proof.
  intros Hrest Ho. assert (0 < length rest) by (destruct rest; simpl; [done|lia]).
  unfold copy_literal, dst_len. rewrite !length_app.
  destruct (Nat.leb_spec (length hdr + (length lit + length rest)) (length hdr + length lit)); [lia|].
  rewrite drop_app_length, length_app, drop_app_length. pose proof (div_up (length lit)) as Hdiv. case_decide as Hfit.
  - destruct (Nat.leb_spec (length lit + 7) (ld_dst_size st - length o)) as [Hw|Hw];
      [destruct (Nat.leb_spec (length lit + 7) (length lit + length rest)) as [Hr|Hr]|]; cbn [andb];
      [|destruct (Nat.leb_spec (length lit) (ld_dst_size st - length o)); [by rewrite copy_bytes_spec|lia]..].
    unfold copy_wide. simpl (8 - 1). rewrite length_app.
    destruct (Nat.ltb_spec (length lit + length rest) (8 * ((length lit + 7) / 8))); [lia|]. cbn [mbind result_bind].
    by rewrite take_take, Nat.min_l, take_app_length by lia.
  - destruct (Nat.leb_spec (length lit + 7) (ld_dst_size st - length o)); [lia|]. cbn [andb].
    destruct (Nat.leb_spec (length lit) (ld_dst_size st - length o)); [lia|].
    rewrite copy_bytes_part by (rewrite length_app; lia). cbn [mbind result_bind]. eexists. split; [done|].
    rewrite take_app_le, drop_app_le by lia. split_and!; simpl.
    + by apply take_filled.
    + done.
    + by destruct (drop _ lit).
    + exists (hdr ++ take (ld_dst_size st - length o) lit). rewrite <-app_assoc. f_equal. by rewrite app_assoc, take_drop.
Qed.

Lemma take_prefix (o o' : bytes) n : o `prefix_of` o' → n ≤ length o → take n o' = take n o.
Proof. intros [t ->] Hn. by rewrite take_app_le. Qed.

Lemma copy_literal_and_match_spec st hdr lit rest o M D o' :
  rest ≠ [] → length o ≤ ld_dst_size st → length lit ≤ 3 → 1 ≤ M → match_bytes M D (o ++ lit) = Ok o' →
  if decide (length o' ≤ ld_dst_size st)
  then copy_literal_and_match st (hdr ++ lit ++ rest) o (length hdr) (length lit) M D = Ok (Next st rest o' D)
  else ∃ st', copy_literal_and_match st (hdr ++ lit ++ rest) o (length hdr) (length lit) M D = Ok (Return st') ∧
              filled st st' (hdr ++ lit ++ rest) o'.
Proof.
  intros Hrest Ho Hlit HM Hm. pose proof (match_bytes_length _ _ _ _ Hm) as Hl. rewrite length_app in Hl.
  assert (1 ≤ D ≤ length (o ++ lit)) as HD by (destruct M; [lia|]; by eapply match_bytes_distance).
  unfold copy_literal_and_match, dst_len. rewrite drop_app_length. cbv zeta.
  set (wide := (4 <=? ld_dst_size st - length o) && (4 <=? length (lit ++ rest))).
  destruct (Nat.leb_spec (length lit) (ld_dst_size st - length o)) as [Hl1|Hl1].
  - rewrite orb_true_r.
    assert ((if wide then Ok (o ++ take (length lit) (take 4 (lit ++ rest))) else copy_bytes (lit ++ rest) o (length lit))
            = Ok (o ++ lit)) as ->.
    { destruct wide; [|apply copy_bytes_spec]. by rewrite take_take, Nat.min_l, take_app_length by lia. }
    cbn [mbind result_bind]. destruct (Nat.ltb_spec (length (o ++ lit)) D); [lia|]. destruct (Nat.eqb_spec D 0); [lia|].
    cbn [orb]. rewrite drop_app_length.
    pose proof (copy_match_spec st rest (o ++ lit) M D o' Hm HM) as Hc. rewrite length_app in Hc.
    specialize (Hc ltac:(lia) Hrest). case_decide; [done|].
    destruct Hc as (st' & Hst & H1 & H2 & H3 & H4). exists st'. split; [done|]. split_and!; [done..|].
    destruct H4 as [pre ->]. exists (hdr ++ lit ++ pre). by rewrite !app_assoc.
  - assert (wide = false) as ->.
    { unfold wide. destruct (Nat.leb_spec 4 (ld_dst_size st - length o)); [lia|done]. }
    cbn [orb]. rewrite decide_False by lia. rewrite copy_bytes_part by (rewrite length_app; lia). cbn [mbind result_bind].
    eexists. split; [done|]. rewrite take_app_le, drop_app_le by lia. split_and!; simpl.
    + rewrite take_filled by done. symmetry. apply take_prefix; [by eapply match_bytes_prefix|]. rewrite length_app. lia.
    + done.
    + by destruct (drop _ lit).
    + exists (hdr ++ take (ld_dst_size st - length o) lit). rewrite <-app_assoc. f_equal. by rewrite app_assoc, take_drop.
Qed.

(** ** Pieces of a stream *)

(** [code] is read in the state with the output [o] and the distance [D], and leaves the
    output [o'] and the distance [D'], if the destination is large enough; otherwise the
    destination is filled. *)
Definition denotes (code : bytes) (D : nat) (o : bytes) (D' : nat) (o' : bytes) : Prop :=
  o `prefix_of` o' ∧
  ∀ st rest, rest ≠ [] → length o ≤ ld_dst_size st →
    ∃ n, n ≤ length code ∧
    if decide (length o' ≤ ld_dst_size st)
    then ∃ st', ld_dst_size st' = ld_dst_size st ∧ ld_end_of_stream st' = ld_end_of_stream st ∧
           ∀ fuel, decode_loop (n + fuel) (Next st (code ++ rest) o D) = decode_loop fuel (Next st' rest o' D')
    else ∃ st', filled st st' (code ++ rest) o' ∧
           ∀ fuel, decode_loop (n + fuel) (Next st (code ++ rest) o D) = Ok st'.

Lemma denotes_nil D o : denotes [] D o D o.
Proof.
  split; [done|]. intros st rest _ Ho. exists 0. split; [simpl; lia|]. rewrite decide_True by done. by exists st.
Qed.

Lemma denotes_app c1 c2 D o D1 o1 D2 o2 :
  denotes c1 D o D1 o1 → denotes c2 D1 o1 D2 o2 → denotes (c1 ++ c2) D o D2 o2.
Proof.
  intros [Hp1 H1] [Hp2 H2]. split; [by etrans|]. intros st rest Hrest Ho. rewrite <-app_assoc.
  assert (c2 ++ rest ≠ []) as Hr by (by destruct c2).
  destruct (H1 st (c2 ++ rest) Hr Ho) as (n1 & Hn1 & Hs1). rewrite length_app. pose proof (prefix_length _ _ Hp2).
  destruct (decide (length o1 ≤ ld_dst_size st)) as [Hd1|Hd1].
  - destruct Hs1 as (st1 & Hsz & He & Hl1). destruct (H2 st1 rest Hrest) as (n2 & Hn2 & Hs2); [lia|].
    exists (n1 + n2). split; [lia|]. rewrite Hsz in Hs2. destruct (decide (length o2 ≤ ld_dst_size st)).
    + destruct Hs2 as (st2 & Hsz2 & He2 & Hl2). exists st2. split_and!; [congruence..|].
      intros fuel. by rewrite <-Nat.add_assoc, Hl1, Hl2.
    + destruct Hs2 as (st2 & (F1 & F2 & F3 & F4) & Hl2). exists st2. split.
      * split_and!; [congruence..|done|]. etrans; [done|]. by exists c1.
      * intros fuel. by rewrite <-Nat.add_assoc, Hl1, Hl2.
  - exists n1. split; [lia|]. rewrite decide_False by lia. destruct Hs1 as (st1 & (F1 & F2 & F3 & F4) & Hl1).
    exists st1. split; [|done]. split_and!; [|done..]. rewrite F1. symmetry. apply take_prefix; [done|lia].
Qed.

(** A piece that is one instruction. *)
Lemma denotes_instr code D o D' o' :
  code ≠ [] → o `prefix_of` o' →
  (∀ st rest, rest ≠ [] → length o ≤ ld_dst_size st →
     let good := UPDATE_GOOD st (code ++ rest) o D in
     if decide (length o' ≤ ld_dst_size st) then opcode_step st (code ++ rest) o D = Ok (Next good rest o' D')
     else ∃ st', opcode_step st (code ++ rest) o D = Ok (Return st') ∧ filled good st' (code ++ rest) o') →
  denotes code D o D' o'.
Proof.
  intros Hne Hp Hs. split; [done|]. intros st rest Hr Ho. exists 1.
  split; [destruct code; simpl; [done|lia]|]. specialize (Hs st rest Hr Ho). cbv zeta in Hs. case_decide.
  - eexists. split_and!; [| |intros fuel; cbn [decode_loop Nat.add]; rewrite Hs; reflexivity]; done.
  - destruct Hs as (st' & Hst & Hf). exists st'. split; [done|]. intros fuel. cbn [decode_loop Nat.add].
    rewrite Hst. by destruct fuel.
Qed.

(** ** The instructions *)

Lemma check_below (P : nat → bool) n k : forallb P (seq 0 n) = true → k < n → P k = true.
Proof. intros Hf Hk. rewrite forallb_forall in Hf. apply Hf, in_seq. lia. Qed.

Definition label_eqb (a b : label) : bool :=
  match a, b with
  | sml_d, sml_d | med_d, med_d | lrg_d, lrg_d | pre_d, pre_d | sml_m, sml_m | lrg_m, lrg_m
  | sml_l, sml_l | lrg_l, lrg_l | nop, nop | eos, eos | udef, udef => true
  | _, _ => false
  end.

Lemma label_eqb_eq a b : label_eqb a b = true → a = b.
Proof. by destruct a, b. Qed.

(** The instructions of one byte and a length of at most 15. *)
Lemma short_opcodes k :
  1 ≤ k < 16 →
  (opc_label (byte_of (224 + Z.of_nat k)) = sml_l ∧ Z.to_nat (extract (byte_val (byte_of (224 + Z.of_nat k))) 0 4) = k) ∧
  (opc_label (byte_of (240 + Z.of_nat k)) = sml_m ∧ Z.to_nat (extract (byte_val (byte_of (240 + Z.of_nat k))) 0 4) = k).
Proof.
  intros Hk. assert ((k =? 0) ||
    (label_eqb (opc_label (byte_of (224 + Z.of_nat k))) sml_l && (Z.to_nat (extract (byte_val (byte_of (224 + Z.of_nat k))) 0 4) =? k)
     && label_eqb (opc_label (byte_of (240 + Z.of_nat k))) sml_m && (Z.to_nat (extract (byte_val (byte_of (240 + Z.of_nat k))) 0 4) =? k)) = true) as Hc.
  { apply (check_below (λ k, (k =? 0) ||
    (label_eqb (opc_label (byte_of (224 + Z.of_nat k))) sml_l && (Z.to_nat (extract (byte_val (byte_of (224 + Z.of_nat k))) 0 4) =? k)
     && label_eqb (opc_label (byte_of (240 + Z.of_nat k))) sml_m && (Z.to_nat (extract (byte_val (byte_of (240 + Z.of_nat k))) 0 4) =? k))) 16);
      [vm_compute; reflexivity|lia]. }
  destruct (Nat.eqb_spec k 0); [lia|]. cbn [orb] in Hc.
  apply andb_true_iff in Hc as [[[H1%label_eqb_eq H2%Nat.eqb_eq]%andb_true_iff H3%label_eqb_eq]%andb_true_iff H4%Nat.eqb_eq].
  done.
Qed.

Lemma byte_small k : k < 256 → byte_val (byte_of (Z.of_nat k)) = Z.of_nat k.
Proof. intros Hk. rewrite byte_val_of, Z.mod_small; lia. Qed.

Lemma denotes_short_literal lit D o :
  1 ≤ length lit < 16 → denotes (byte_of (224 + Z.of_nat (length lit)) :: lit) D o D (o ++ lit).
Proof.
  intros Hl. apply denotes_instr; [done|by apply prefix_app_r|]. intros st rest Hr Ho. cbv zeta.
  destruct (short_opcodes (length lit) Hl) as [[H1 H2] _]. unfold opcode_step. cbn [app]. cbv zeta. rewrite H1, H2.
  set (h := byte_of _). pose proof (copy_literal_spec (UPDATE_GOOD st (h :: lit ++ rest) o D) [h] lit rest o D Hr Ho) as Hc.
  rewrite length_app. exact Hc.
Qed.

Lemma denotes_long_literal lit D o :
  16 ≤ length lit < 272 →
  denotes ([byte_of 224; byte_of (Z.of_nat (length lit - 16))] ++ lit) D o D (o ++ lit).
Proof.
  intros Hl. apply denotes_instr; [done|by apply prefix_app_r|]. intros st rest Hr Ho. cbv zeta.
  unfold opcode_step. cbn [app]. cbv zeta. change (opc_label (byte_of 224)) with lrg_l. cbv iota.
  unfold byte_at. cbn [lookup list_lookup]. rewrite byte_small by lia.
  replace (Z.to_nat (Z.of_nat (length lit - 16) + 16)) with (length lit) by lia.
  cbn [length]. rewrite !length_app. destruct (Nat.leb_spec (S (S (length lit + length rest))) 2); [lia|].
  set (h := [byte_of 224; byte_of (Z.of_nat (length lit - 16))]).
  exact (copy_literal_spec (UPDATE_GOOD st (h ++ lit ++ rest) o D) h lit rest o D Hr Ho).
Qed.

Lemma rest_positive (rest : bytes) : rest ≠ [] → 0 < length rest.
Proof. destruct rest; simpl; [done|lia]. Qed.

Lemma filled_cons st st' c src o' : filled st st' src o' → filled st st' (c ++ src) o'.
Proof. intros (F1 & F2 & F3 & F4). split_and!; [done..|]. etrans; [done|]. by exists c. Qed.

Lemma denotes_short_match M D o o' :
  1 ≤ M < 16 → match_bytes M D o = Ok o' → denotes [byte_of (240 + Z.of_nat M)] D o D o'.
Proof.
  intros HM Hm. apply denotes_instr; [done|by eapply match_bytes_prefix|]. intros st rest Hr Ho. cbv zeta.
  destruct (short_opcodes M HM) as [_ [H1 H2]]. unfold opcode_step. cbn [app]. cbv zeta. rewrite H1. cbv iota. rewrite H2.
  pose proof (rest_positive rest Hr). cbn [length]. destruct (Nat.leb_spec (S (length rest)) 1); [lia|]. cbn [drop].
  set (h := byte_of _). pose proof (copy_match_spec (UPDATE_GOOD st (h :: rest) o D) rest o M D o' Hm ltac:(lia) Ho Hr) as Hc.
  cbn [ld_dst_size UPDATE_GOOD] in Hc. case_decide; [done|]. destruct Hc as (st' & Hst & Hf). exists st'. split; [done|].
  by apply (filled_cons _ _ [h]).
Qed.

Lemma denotes_long_match M D o o' :
  16 ≤ M < 272 → match_bytes M D o = Ok o' → denotes [byte_of 240; byte_of (Z.of_nat (M - 16))] D o D o'.
Proof.
  intros HM Hm. apply denotes_instr; [done|by eapply match_bytes_prefix|]. intros st rest Hr Ho. cbv zeta.
  unfold opcode_step. cbn [app]. cbv zeta. change (opc_label (byte_of 240)) with lrg_m. cbv iota.
  unfold byte_at. cbn [lookup list_lookup]. rewrite byte_small by lia.
  replace (Z.to_nat (Z.of_nat (M - 16) + 16)) with M by lia. pose proof (rest_positive rest Hr). cbn [length].
  destruct (Nat.leb_spec (S (S (length rest))) 2); [lia|]. cbn [drop].
  set (h := [byte_of 240; byte_of (Z.of_nat (M - 16))]).
  pose proof (copy_match_spec (UPDATE_GOOD st (h ++ rest) o D) rest o M D o' Hm ltac:(lia) Ho Hr) as Hc.
  cbn [ld_dst_size UPDATE_GOOD] in Hc. case_decide; [done|]. destruct Hc as (st' & Hst & Hf). exists st'. split; [done|].
  by apply (filled_cons _ _ h).
Qed.

(** The four instructions with a literal and a match. *)
Lemma denotes_distance opc more l lit D o M D' o' :
  opc_label opc = l → l ∈ [sml_d; med_d; lrg_d; pre_d] →
  (∀ rest, fields_of l (byte_val opc) ((opc :: more) ++ lit ++ rest) D = (S (length more), length lit, M, D')) →
  length lit ≤ 3 → 1 ≤ M → match_bytes M D' (o ++ lit) = Ok o' →
  denotes ((opc :: more) ++ lit) D o D' o'.
Proof.
  intros Hl Hin Hfields Hlit HM Hm. apply denotes_instr; [done| |].
  { etrans; [by apply prefix_app_r|by eapply match_bytes_prefix]. }
  intros st rest Hr Ho. cbv zeta. rewrite <-app_assoc. specialize (Hfields rest). pose proof (rest_positive rest Hr).
  pose proof (copy_literal_and_match_spec (UPDATE_GOOD st ((opc :: more) ++ lit ++ rest) o D) (opc :: more) lit rest o M D' o'
    Hr Ho Hlit HM Hm) as Hc. cbn [ld_dst_size UPDATE_GOOD] in Hc.
  assert (opcode_step st ((opc :: more) ++ lit ++ rest) o D =
    copy_literal_and_match (UPDATE_GOOD st ((opc :: more) ++ lit ++ rest) o D) ((opc :: more) ++ lit ++ rest) o
      (S (length more)) (length lit) M D') as ->; [|exact Hc].
  unfold opcode_step. cbn [app] in *. cbv zeta. rewrite Hl.
  assert ((length (opc :: more ++ lit ++ rest) <=? S (length more) + length lit) = false) as Hlen.
  { apply Nat.leb_gt. cbn [length]. rewrite !length_app. lia. }
  repeat (apply elem_of_cons in Hin as [->|Hin]); [..|by apply not_elem_of_nil in Hin]; by rewrite Hfields, Hlen.
Qed.

(** The end of the stream: eight bytes, the first of them 6. *)
Lemma decode_end st o D tail rest fuel :
  length tail = 7 →
  decode_loop (S fuel) (Next st ((byte_of 6 :: tail) ++ rest) o D)
  = Ok (mkLzvnDecoder rest o (ld_dst_size st) (ld_L st) (ld_M st) (ld_D st) D true).
Proof.
  intros Ht. cbn [decode_loop]. unfold opcode_step. cbn [app]. cbv zeta. change (opc_label (byte_of 6)) with eos. cbv iota.
  cbn [length]. rewrite length_app. destruct (Nat.ltb_spec (S (length tail + length rest)) 8); [lia|].
  cbn [mbind result_bind drop]. rewrite <-Ht, drop_app_length. by destruct fuel.
Qed.

End LzvnInstr.
Export LzvnInstr.
