(* ===== verification/LzvnEmit.v ===== *)
(** * LZVN: what the encoder emits denotes what it covers

    The bytes that [emit] and [emit_literal] append for a literal and a match denote, for
    the decoder, the part of the source they stand for; neither loads outside the source
    when eight bytes follow the beginning of the match. *)

From stdpp Require Import base gmap list strings.
From Stdlib Require Import Ascii ZArith Lia.
From S2P Require Import Prelude CInt Util Buffer LzvnDecode LzvnEncode LzvnInstr.
Local Open Scope nat_scope.

Module LzvnEmit.

(** ** Bit fields *)

Lemma extract_spec c lsb w : (0 ≤ lsb)%Z → (0 ≤ w)%Z → extract c lsb w = ((c / 2 ^ lsb) mod 2 ^ w)%Z.
Proof.
  intros Hl Hw. unfold extract. rewrite Z.shiftr_div_pow2 by done.
  change (Z.shiftl 1 w - 1)%Z with (Z.pred (Z.shiftl 1 w)). fold (Z.ones w). by rewrite Z.land_ones.
Qed.

Lemma load2_le D rest : (0 ≤ D < 65536)%Z → load2 (le_bytes 2 D ++ rest) = D.
Proof.
  intros HD. unfold load2. rewrite take_le_bytes, le_val_bytes. change (256 ^ Z.of_nat 2)%Z with 65536%Z. by apply Z.mod_small.
Qed.

(** The opcodes of the instructions with a literal of [L] and a match of [x + 3] bytes. *)

Lemma pre_d_opcode L x :
  1 ≤ L ≤ 3 → x + 2 * L ≤ 7 →
  let opc := byte_of (Z.shiftl (Z.of_nat L) 6 + Z.shiftl (Z.of_nat x) 3 + 6) in
  opc_label opc = pre_d ∧ Z.to_nat (extract (byte_val opc) 6 2) = L ∧ Z.to_nat (extract (byte_val opc) 3 3 + 3) = x + 3.
Proof.
  intros HL Hx. assert (L = 1 ∨ L = 2 ∨ L = 3) as [->|[->| ->]] by lia;
    do 8 (destruct x as [|x]; [first [lia | repeat split; vm_compute; reflexivity]|]); lia.
Qed.

Lemma lrg_d_opcode L x :
  L ≤ 3 → x + 2 * L ≤ 7 →
  let opc := byte_of (Z.shiftl (Z.of_nat L) 6 + Z.shiftl (Z.of_nat x) 3 + 7) in
  opc_label opc = lrg_d ∧ Z.to_nat (extract (byte_val opc) 6 2) = L ∧ Z.to_nat (extract (byte_val opc) 3 3 + 3) = x + 3.
Proof.
  intros HL Hx. assert (L = 0 ∨ L = 1 ∨ L = 2 ∨ L = 3) as [->|[->|[->| ->]]] by lia;
    do 8 (destruct x as [|x]; [first [lia | repeat split; vm_compute; reflexivity]|]); lia.
Qed.

Lemma sml_d_opcode L x d :
  L ≤ 3 → x + 2 * L ≤ 7 → d ≤ 5 →
  let opc := byte_of (Z.of_nat d + Z.shiftl (Z.of_nat L) 6 + Z.shiftl (Z.of_nat x) 3) in
  opc_label opc = sml_d ∧ Z.to_nat (extract (byte_val opc) 6 2) = L ∧ Z.to_nat (extract (byte_val opc) 3 3 + 3) = x + 3 ∧
  extract (byte_val opc) 0 3 = Z.of_nat d.
Proof.
  intros HL Hx Hd. assert (L = 0 ∨ L = 1 ∨ L = 2 ∨ L = 3) as [->|[->|[->| ->]]] by lia;
    do 6 (destruct d as [|d]; [do 8 (destruct x as [|x]; [first [lia | repeat split; vm_compute; reflexivity]|]); lia|]); lia.
Qed.

Lemma med_d_opcode L X :
  L ≤ 3 → X ≤ 31 →
  let opc := byte_of (160 + Z.shiftr (Z.of_nat X) 2 + Z.shiftl (Z.of_nat L) 3) in
  opc_label opc = med_d ∧ Z.to_nat (extract (byte_val opc) 3 2) = L ∧ extract (byte_val opc) 0 3 = Z.shiftr (Z.of_nat X) 2.
Proof.
  intros HL HX. assert (L = 0 ∨ L = 1 ∨ L = 2 ∨ L = 3) as [->|[->|[->| ->]]] by lia;
    do 32 (destruct X as [|X]; [first [lia | repeat split; vm_compute; reflexivity]|]); lia.
Qed.

(** The two halves of a distance below 2048, and the fields of a medium one. *)
Lemma split_distance D : (0 ≤ D)%Z → Z.lor (Z.shiftl (Z.shiftr D 8) 8) (Z.land D 255) = D.
Proof.
  intros HD. change 255%Z with (Z.ones 8). rewrite Z.land_ones, Z.shiftr_div_pow2 by lia.
  pose proof (Z.mod_pos_bound D (2 ^ 8)). rewrite lor_join by lia. pose proof (Z.div_mod D (2 ^ 8)). lia.
Qed.

Lemma medium_fields D X :
  (0 ≤ D < 16384)%Z → (0 ≤ X)%Z →
  let v := Z.lor (Z.shiftl D 2) (Z.land X 3) in
  (0 ≤ v < 65536)%Z ∧ extract v 2 14 = D ∧ Z.lor (Z.shiftl (Z.shiftr X 2) 2) (extract v 0 2) = X.
Proof.
  intros HD HX. cbv zeta. change 3%Z with (Z.ones 2). rewrite Z.land_ones by lia.
  pose proof (Z.mod_pos_bound X (2 ^ 2)). change (2 ^ 2)%Z with 4%Z in *. rewrite lor_join by lia. change (2 ^ 2)%Z with 4%Z.
  rewrite !extract_spec by lia. change (2 ^ 2)%Z with 4%Z. change (2 ^ 14)%Z with 16384%Z. change (2 ^ 0)%Z with 1%Z.
  rewrite Z.div_1_r, Z.div_add_l, (Z.div_small (X mod 4)), Z.add_0_r, (Z.mod_small D) by lia.
  rewrite Z.add_comm, Z.mod_add, Z.mod_mod by lia. split_and!; [lia..|].
  rewrite Z.shiftr_div_pow2 by lia. change (2 ^ 2)%Z with 4%Z. rewrite lor_join by lia. change (2 ^ 2)%Z with 4%Z.
  pose proof (Z.div_mod X 4). lia.
Qed.

(** The instruction that carries the distance covers [x + 3 + k] bytes of the match. *)
Lemma first_match_denotes (L x M D Dp : nat) (lit o : bytes) :
  length lit = L → L ≤ 3 → x + 2 * L ≤ 7 → (1 ≤ Z.of_nat D ≤ 65535)%Z →
  ∃ op k, first_match (Z.of_nat L) (Z.of_nat x) (Z.of_nat M) (Z.of_nat D) (Z.of_nat Dp) = (op, Z.of_nat (M - k)) ∧
    k ≤ M ∧ ∀ o1, match_bytes (x + 3 + k) D (o ++ lit) = Ok o1 → denotes (op ++ lit) Dp o D o1.
Proof.
  intros HL HL3 Hx HD. unfold first_match.
  destruct (Z.eqb_spec (Z.of_nat D) (Z.of_nat Dp)) as [E|HDp].
  - apply Nat2Z.inj in E as <-. eexists _, 0. rewrite Nat.sub_0_r. split; [reflexivity|]. split; [lia|]. intros o1.
    rewrite Nat.add_0_r. destruct (Z.eqb_spec (Z.of_nat L) 0) as [E|HL0].
    + destruct lit; simpl in HL; [|lia]. rewrite !app_nil_r. intros Hm.
      replace (240 + (Z.of_nat x + 3))%Z with (240 + Z.of_nat (x + 3))%Z by lia. by apply denotes_short_match; [lia|].
    + intros Hm. destruct (pre_d_opcode L x) as (H1 & H2 & H3); [lia..|].
      eapply (denotes_distance _ [] pre_d _ _ _ (x + 3)); [done|set_solver| |lia|lia|done].
      intros rest. unfold fields_of. by rewrite H2, H3, HL.
  - destruct (Z.ltb_spec (Z.of_nat D) (2048 - 2 * 256)) as [Hs|Hs].
    + eexists _, 0. rewrite Nat.sub_0_r. split; [reflexivity|]. split; [lia|]. intros o1. rewrite Nat.add_0_r. intros Hm.
      assert (Z.shiftr (Z.of_nat D) 8 = Z.of_nat (D / 256)) as Hd.
      { rewrite Z.shiftr_div_pow2 by lia. change (2 ^ 8)%Z with (Z.of_nat 256). by rewrite Nat2Z.inj_div. }
      assert (D / 256 ≤ 5) by (apply Nat.lt_succ_r, Nat.Div0.div_lt_upper_bound; lia).
      destruct (sml_d_opcode L x (D / 256)) as (H1 & H2 & H3 & H4); [lia..|]. rewrite Hd.
      eapply (denotes_distance _ [_] sml_d _ _ _ (x + 3)); [done|set_solver| |lia|lia|done].
      intros rest. unfold fields_of, byte_at. cbn [app lookup list_lookup]. rewrite H2, H3, H4, HL. f_equal.
      rewrite byte_val_of, <-Hd. change 255%Z with (Z.ones 8). rewrite Z.land_ones by lia. change (2 ^ 8)%Z with 256%Z.
      rewrite Z.mod_mod by lia. change 256%Z with (2 ^ 8)%Z. rewrite <-Z.land_ones by lia. change (Z.ones 8) with 255%Z.
      by rewrite split_distance, Nat2Z.id by lia.
    + destruct (_ || _) eqn:Hlong.
      * eexists _, 0. rewrite Nat.sub_0_r. split; [reflexivity|]. split; [lia|]. intros o1. rewrite Nat.add_0_r. intros Hm.
        destruct (lrg_d_opcode L x) as (H1 & H2 & H3); [lia..|].
        eapply (denotes_distance _ (le_bytes 2 (Z.of_nat D)) lrg_d _ _ _ (x + 3)); [done|set_solver| |lia|lia|done].
        intros rest. unfold fields_of. cbn [app drop]. rewrite ?drop_0. rewrite H2, H3, HL, load2_le, Nat2Z.id by lia. done.
      * apply orb_false_iff in Hlong as [[H14%Z.leb_gt HM0]%orb_false_iff H34%Z.ltb_ge].
        change (Z.shiftl 1 14) with 16384%Z in H14.
        eexists _, M. split; [rewrite Nat.sub_diag; reflexivity|]. split; [done|]. intros o1 Hm.
        replace (Z.of_nat x + Z.of_nat M)%Z with (Z.of_nat (x + M)) by lia.
        destruct (med_d_opcode L (x + M)) as (H1 & H2 & H3); [lia..|].
        destruct (medium_fields (Z.of_nat D) (Z.of_nat (x + M))) as (Hv & HvD & HvX); [lia..|].
        eapply (denotes_distance _ (le_bytes 2 _) med_d _ _ _ (x + 3 + M)); [done|set_solver| |lia|lia|done].
        intros rest. unfold fields_of. cbn [app drop]. rewrite ?drop_0. rewrite load2_le by done. rewrite H2, H3, HL, HvD, HvX, Nat2Z.id.
        rewrite length_le_bytes. repeat f_equal. lia.
Qed.

(** ** Repetitions in the source *)

Definition repeats (src : bytes) (p k D : nat) : Prop :=
  1 ≤ D ≤ p ∧ p + k ≤ length src ∧ ∀ j, j < k → src !! (p + j) = src !! (p + j - D).

Lemma repeats_copy src p k D : repeats src p k D → match_bytes k D (take p src) = Ok (take (p + k) src).
Proof.
  intros (HD & Hlen & Hr). induction k as [|k IH]; [by rewrite Nat.add_0_r|].
  replace (S k) with (k + 1) by lia. rewrite match_bytes_add, IH by (lia || intros; apply Hr; lia).
  cbn [mbind result_bind match_bytes]. unfold back. rewrite length_take, Nat.min_l by lia.
  destruct (Nat.eqb_spec D 0); [lia|]. destruct (Nat.ltb_spec (p + k) D); [lia|]. cbn [orb].
  destruct (lookup_lt_is_Some_2 src (p + k)) as [c Hc]; [lia|].
  rewrite (proj2 (vec_at_Ok _ _ c)) by (rewrite lookup_take_lt, <-Hr by lia; done). cbn [mbind result_bind].
  replace (p + (k + 1)) with (S (p + k)) by lia. by rewrite (take_S_r _ _ _ Hc).
Qed.

Lemma repeats_split src p a b D : repeats src p (a + b) D → repeats src p a D ∧ repeats src (p + a) b D.
Proof.
  intros (HD & Hlen & Hr). split; (split; [lia|split; [lia|]]).
  - intros j Hj. apply Hr. lia.
  - intros j Hj. specialize (Hr (a + j) ltac:(lia)). by rewrite !Nat.add_assoc in Hr.
Qed.

(** ** Literals *)

(** A copy that may read up to [slack] bytes behind the literal. *)
Definition copies (copy : bytes → Z → Z → result bytes) (src : bytes) (slack : nat) : Prop :=
  ∀ p x, p + x + slack ≤ length src → copy src (Z.of_nat p) (Z.of_nat x) = Ok (take x (drop p src)).

Lemma copies8 src : copies lzvn_copy8 src 0.
Proof.
  intros p x Hx. unfold lzvn_copy8. rewrite Nat2Z.id, load_Ok by (unfold size; lia). by rewrite Nat2Z.id.
Qed.

Lemma copies64 src : copies lzvn_copy64 src 7.
Proof.
  intros p x Hx. unfold lzvn_copy64. pose proof (div_up x) as Hd.
  replace (Z.to_nat ((Z.of_nat x + 7) / 8)) with ((x + 7) / 8).
  2:{ replace (Z.of_nat x + 7)%Z with (Z.of_nat (x + 7)) by lia. change 8%Z with (Z.of_nat 8). by rewrite <-Nat2Z.inj_div, Nat2Z.id. }
  rewrite load_Ok by (unfold size; lia). rewrite !Nat2Z.id. cbn [fmap result_fmap]. by rewrite take_take, Nat.min_l by lia.
Qed.

Lemma long_literals_spec copy src slack fuel p q q1 L :
  copies copy src slack → p + L + slack ≤ length src → L ≤ fuel →
  ∃ r, long_literals fuel copy src (Z.of_nat p) q q1 (Z.of_nat L) = Ok r ∧
    match r with
    | None => True
    | Some (p', q', L') =>
        ∃ k code, k ≤ L ∧ L - k ≤ 15 ∧ p' = Z.of_nat (p + k) ∧ L' = Z.of_nat (L - k) ∧ q' = q ++ code ∧
          ∀ D, denotes code D (take p src) D (take (p + k) src)
    end.
Proof.
  intros Hcopy. revert p q L. induction fuel as [|fuel IH]; intros p q L Hlen Hf; cbn [long_literals].
  { destruct (Z.ltb_spec 15 (Z.of_nat L)); [lia|]. eexists. split; [reflexivity|]. exists 0, [].
    rewrite Nat.add_0_r, Nat.sub_0_r, app_nil_r. split_and!; [lia..|done|done|done|]. intros D. apply denotes_nil. }
  destruct (Z.ltb_spec 15 (Z.of_nat L)) as [H15|H15]; cbn [negb].
  2:{ eexists. split; [reflexivity|]. exists 0, [].
      rewrite Nat.add_0_r, Nat.sub_0_r, app_nil_r. split_and!; [lia..|done|done|done|]. intros D. apply denotes_nil. }
  set (x := Nat.min L 271). replace (if (Z.of_nat L <? 271)%Z then Z.of_nat L else 271%Z) with (Z.of_nat x).
  2:{ unfold x. destruct (Z.ltb_spec (Z.of_nat L) 271); lia. }
  destruct (Z.leb_spec q1 (size q + Z.of_nat x + 10)); [by exists None|].
  rewrite Hcopy by (unfold x; lia). cbn [mbind result_bind].
  set (lit := take x (drop p src)). assert (length lit = x) as Hlit by (unfold lit; rewrite length_take, length_drop; unfold x; lia).
  replace (Z.of_nat p + Z.of_nat x)%Z with (Z.of_nat (p + x)) by lia.
  replace (Z.of_nat L - Z.of_nat x)%Z with (Z.of_nat (L - x)) by (unfold x; lia).
  destruct (IH (p + x) (q ++ two 224 (Z.of_nat x - 16) ++ lit) (L - x)) as (r & -> & Hr); [unfold x; lia..|].
  exists r. split; [done|]. destruct r as [[[p' q'] L']|]; [|done]. destruct Hr as (k & code & Hk & Hk15 & -> & -> & -> & Hd).
  exists (x + k), ((two 224 (Z.of_nat x - 16) ++ lit) ++ code). rewrite <-!app_assoc, Nat.add_assoc.
  split_and!; [unfold x in *; lia..|f_equal; lia|done|]. intros D. rewrite app_assoc.
  eapply denotes_app; [|apply Hd]. rewrite <-take_take_drop. fold lit.
  replace (Z.of_nat x - 16)%Z with (Z.of_nat (length lit - 16)) by (rewrite Hlit; unfold x; lia).
  apply denotes_long_literal. rewrite Hlit. unfold x. lia.
Qed.

Lemma emit_literal_spec src p q q1 L :
  p + L ≤ length src →
  ∃ r, emit_literal src (Z.of_nat p) q q1 (Z.of_nat L) = Ok r ∧
    ∀ q', r = Some q' → ∃ code, q' = q ++ code ∧ ∀ D, denotes code D (take p src) D (take (p + L) src).
Proof.
  intros Hlen. unfold emit_literal. rewrite Nat2Z.id.
  destruct (long_literals_spec lzvn_copy8 src 0 L p q q1 L (copies8 src)) as (r & -> & Hr); [lia..|]. cbn [mbind result_bind].
  destruct r as [[[p' q'] L']|]; [|by exists None]. destruct Hr as (k & code & Hk & Hk15 & -> & -> & -> & Hd).
  destruct (Z.ltb_spec 0 (Z.of_nat (L - k))) as [Hpos|Hz].
  - destruct (Z.leb_spec q1 (size (q ++ code) + Z.of_nat (L - k) + 10)); [by exists None|].
    rewrite copies8 by lia. cbn [mbind result_bind]. eexists. split; [done|]. intros ? [= <-].
    eexists. rewrite <-app_assoc. split; [done|]. intros D. eapply denotes_app; [apply Hd|].
    replace (p + L) with (p + k + (L - k)) by lia. rewrite <-(take_take_drop src (p + k) (L - k)).
    set (lit := take (L - k) (drop (p + k) src)).
    assert (length lit = L - k) as Hlit by (unfold lit; rewrite length_take, length_drop; lia).
    rewrite <-Hlit. apply denotes_short_literal. lia.
  - eexists. split; [done|]. intros ? [= <-]. exists code. split; [done|]. intros D.
    replace (p + L) with (p + k) by lia. apply Hd.
Qed.

(** ** Matches *)

Lemma long_matches_spec src fuel p q q1 M D :
  repeats src p M D → M ≤ fuel →
  ∃ r, long_matches fuel q q1 (Z.of_nat M) = Ok r ∧
    ∀ q' M', r = Some (q', M') →
      ∃ k code, k ≤ M ∧ M - k ≤ 15 ∧ M' = Z.of_nat (M - k) ∧ q' = q ++ code ∧
        denotes code D (take p src) D (take (p + k) src).
Proof.
  revert p q M. induction fuel as [|fuel IH]; intros p q M Hr Hf; cbn [long_matches];
    (destruct (Z.ltb_spec 15 (Z.of_nat M)) as [H15|H15]; cbn [negb];
     [|eexists; split; [reflexivity|]; intros ? ? [= <- <-]; exists 0, [];
       rewrite Nat.add_0_r, Nat.sub_0_r, app_nil_r; split_and!; [lia..|done|done|apply denotes_nil]]); [lia|].
  destruct (Z.leb_spec q1 (size q + 2)); [by exists None|].
  set (x := Nat.min M 271). assert (16 ≤ x ≤ M ∧ x < 272) as Hx by lia.
  replace (if (Z.of_nat M <? 271)%Z then Z.of_nat M else 271%Z) with (Z.of_nat x) by (destruct (Z.ltb_spec (Z.of_nat M) 271); lia).
  replace (Z.of_nat M - Z.of_nat x)%Z with (Z.of_nat (M - x)) by lia.
  replace M with (x + (M - x)) in Hr by lia. apply repeats_split in Hr as [Hr1 Hr2].
  destruct (IH (p + x) (q ++ two 240 (Z.of_nat x - 16)) (M - x)) as (r & -> & Hs); [done|lia|].
  exists r. split; [done|]. intros q' M' ->. destruct (Hs _ _ eq_refl) as (k & code & Hk & Hk15 & -> & -> & Hd).
  exists (x + k), (two 240 (Z.of_nat x - 16) ++ code). rewrite <-app_assoc, Nat.add_assoc.
  split_and!; [lia..|f_equal; lia|done|]. eapply denotes_app; [|done].
  replace (Z.of_nat x - 16)%Z with (Z.of_nat (x - 16)) by lia. apply denotes_long_match; [lia|]. by apply repeats_copy.
Qed.

(** What is left of a match behind its first instruction. *)
Lemma rest_of_match_spec src p q q1 M D :
  repeats src p M D →
  ∃ r, (r ← long_matches M q q1 (Z.of_nat M);
        match r with
        | None => Ok None
        | Some (q, M) =>
            if (0 <? M)%Z then if (q1 <=? size q + 1)%Z then Ok None else Ok (Some (q ++ [byte_of (240 + M)])) else Ok (Some q)
        end) = Ok r ∧
    ∀ q', r = Some q' → ∃ code, q' = q ++ code ∧ denotes code D (take p src) D (take (p + M) src).
Proof.
  intros Hr. destruct (long_matches_spec src M p q q1 M D Hr) as (r & -> & Hs); [lia|]. cbn [mbind result_bind].
  destruct r as [[q' M']|]; [|by exists None]. destruct (Hs _ _ eq_refl) as (k & code & Hk & Hk15 & -> & -> & Hd).
  destruct (Z.ltb_spec 0 (Z.of_nat (M - k))) as [Hpos|Hz].
  - destruct (_ <=? _)%Z; [by exists None|]. eexists. split; [done|]. intros ? [= <-].
    rewrite <-app_assoc. eexists. split; [done|]. eapply denotes_app; [done|].
    replace M with (k + (M - k)) in Hr by lia. apply repeats_split in Hr as [_ Hr2].
    apply denotes_short_match; [lia|]. rewrite (repeats_copy _ _ _ _ Hr2). do 2 f_equal. lia.
  - eexists. split; [done|]. intros ? [= <-]. exists code. split; [done|]. by replace M with k by lia.
Qed.

(** The literals an instruction with a match cannot carry. *)
Lemma literal_before_match_spec src p q q1 L :
  p + L + 7 ≤ length src → L ≤ 15 →
  ∃ r, (if (3 <? Z.of_nat L)%Z then
          if (q1 <=? size q + Z.of_nat L + 10)%Z then Ok None
          else lit ← lzvn_copy64 src (Z.of_nat p) (Z.of_nat L);
               Ok (Some (Z.of_nat p + Z.of_nat L, q ++ [byte_of (224 + Z.of_nat L)] ++ lit, 0))%Z
        else Ok (Some (Z.of_nat p, q, Z.of_nat L))) = Ok r ∧
    ∀ p' q' L', r = Some (p', q', L') →
      ∃ k code, k ≤ L ∧ L - k ≤ 3 ∧ p' = Z.of_nat (p + k) ∧ L' = Z.of_nat (L - k) ∧ q' = q ++ code ∧
        ∀ D, denotes code D (take p src) D (take (p + k) src).
Proof.
  intros Hlen H15. destruct (Z.ltb_spec 3 (Z.of_nat L)).
  - destruct (_ <=? _)%Z; [by exists None|]. rewrite copies64 by lia. cbn [mbind result_bind]. eexists. split; [done|].
    intros ? ? ? [= <- <- <-]. eexists L, _. split_and!; [lia..|done|]. intros D.
    rewrite <-take_take_drop. set (lit := take L (drop p src)).
    assert (length lit = L) as Hlit by (unfold lit; rewrite length_take, length_drop; lia).
    rewrite <-Hlit at 1. apply denotes_short_literal. lia.
  - eexists. split; [done|]. intros ? ? ? [= <- <- <-]. exists 0, []. rewrite Nat.add_0_r, Nat.sub_0_r, app_nil_r.
    split_and!; [lia..|done|done|done|]. intros D. apply denotes_nil.
Qed.

Lemma emit_spec src p q q1 L M D Dp :
  p + L + 7 ≤ length src → 3 ≤ M → (Z.of_nat D ≤ 65535)%Z → repeats src (p + L) M D →
  ∃ r, emit src (Z.of_nat p) q q1 (Z.of_nat L) (Z.of_nat M) (Z.of_nat D) (Z.of_nat Dp) = Ok r ∧
    ∀ q', r = Some q' → ∃ code, q' = q ++ code ∧ denotes code Dp (take p src) D (take (p + L + M) src).
Proof.
  intros Hlen HM HD Hrep. unfold emit. rewrite Nat2Z.id.
  destruct (long_literals_spec lzvn_copy64 src 7 L p q q1 L (copies64 src)) as (r & -> & Hr); [lia..|]. cbn [mbind result_bind].
  destruct r as [[[p1 q1'] L1]|]; [|by exists None]. destruct Hr as (k1 & c1 & Hk1 & Hk15 & -> & -> & -> & Hd1).
  destruct (literal_before_match_spec src (p + k1) (q ++ c1) q1 (L - k1)) as (r & -> & Hr); [lia..|]. cbn [mbind result_bind].
  destruct r as [[[p2 q2'] L2]|]; [|by exists None].
  destruct (Hr _ _ _ eq_refl) as (k2 & c2 & Hk2 & Hk3 & -> & -> & -> & Hd2).
  set (P := p + k1 + k2) in *. set (Lr := L - k1 - k2) in *. assert (P + Lr = p + L) as HP by (unfold P, Lr; lia).
  set (x := Nat.min M (10 - 2 * Lr)).
  replace (if (Z.of_nat M <=? 10 - 2 * Z.of_nat Lr)%Z then Z.of_nat M else (10 - 2 * Z.of_nat Lr)%Z) with (Z.of_nat x)
    by (unfold x; destruct (Z.leb_spec (Z.of_nat M) (10 - 2 * Z.of_nat Lr)); lia).
  assert (3 ≤ x ≤ M ∧ x - 3 + 2 * Lr ≤ 7) as Hx by lia.
  rewrite load_Ok by (unfold size; lia). cbn [mbind result_bind]. destruct (_ <=? _)%Z; [by exists None|].
  replace (Z.of_nat x - 3)%Z with (Z.of_nat (x - 3)) by lia. replace (Z.of_nat M - Z.of_nat x)%Z with (Z.of_nat (M - x)) by lia.
  rewrite !Nat2Z.id, take_take, Nat.min_l by lia. set (lit := take Lr (drop P src)).
  assert (length lit = Lr) as Hlit by (unfold lit; rewrite length_take, length_drop; lia).
  destruct (first_match_denotes Lr (x - 3) (M - x) D Dp lit (take P src)) as (op & k & -> & Hk & Hop); [lia..| |];
    [destruct Hrep as [? _]; lia|].
  rewrite Nat2Z.id. assert (x - 3 + 3 + k + (M - x - k) = M) as HMk by lia.
  rewrite <-HMk in Hrep. apply repeats_split in Hrep as [Hr1 Hr2]. rewrite <-HP in Hr1.
  destruct (rest_of_match_spec src _ (((q ++ c1) ++ c2) ++ op ++ lit) q1 _ D Hr2) as (r & -> & Hr'). exists r. split; [done|].
  intros q' ->. destruct (Hr' _ eq_refl) as (c3 & -> & Hd3). exists (c1 ++ c2 ++ (op ++ lit) ++ c3).
  split; [by rewrite <-!app_assoc|]. eapply denotes_app; [apply Hd1|]. eapply denotes_app; [apply Hd2|].
  eapply denotes_app; [|]; cycle 1.
  { replace (p + L + M) with (p + L + (x - 3 + 3 + k) + (M - x - k)) by lia. exact Hd3. }
  apply Hop. unfold lit. rewrite take_take_drop, (repeats_copy _ _ _ _ Hr1). do 2 f_equal. lia.
Qed.

End LzvnEmit.
Export LzvnEmit.
