(* ===== verification/LzvnRoundtrip.v ===== *)
(** * LZVN: what the encoder encodes, the decoder decodes

    The encoder keeps an invariant: the bytes it has emitted denote the part of the source
    it has covered, its table and its pending match are about real repetitions, and it
    never loads outside the source. *)

From stdpp Require Import base gmap list strings.
From Stdlib Require Import Ascii ZArith Lia.
From S2P Require Import Prelude CInt Util Buffer LzvnDecode LzvnEncode LzvnInstr LzvnEmit.
Local Open Scope nat_scope.

Module LzvnRoundtrip.

(** ** Comparing four bytes at a time *)

Lemma ctz_divides p : (0 ≤ ctz p)%Z ∧ (2 ^ ctz p | Z.pos p)%Z.
Proof.
  induction p as [p IH|p IH|]; cbn [ctz]; [split; [lia|apply Z.divide_1_l]| |split; [lia|apply Z.divide_1_l]].
  destruct IH as [IH0 [k Hk]]. split; [lia|]. exists k. rewrite Z.pow_add_r by lia. lia.
Qed.

(** Two numbers whose difference ends in [8 * n] zero bits have the same last [n] bytes. *)
Lemma low_bytes_equal n a b :
  n ≤ length a → n ≤ length b → (256 ^ Z.of_nat n | Z.lxor (le_val a) (le_val b))%Z → take n a = take n b.
Proof.
  intros Ha Hb [k Hk]. apply le_val_inj; [rewrite !length_take; lia|]. rewrite !le_val_take by done.
  change 256%Z with (2 ^ 8)%Z in *. rewrite <-Z.pow_mul_r in * by lia. apply Z.bits_inj'. intros j Hj.
  destruct (Z.lt_ge_cases j (8 * Z.of_nat n)); [|by rewrite !Z.mod_pow2_bits_high by lia].
  rewrite !Z.mod_pow2_bits_low by done. apply (f_equal (λ z, Z.testbit z j)) in Hk.
  rewrite Z.lxor_spec, Z.mul_pow2_bits_low in Hk by done. by apply xorb_eq.
Qed.

Lemma trailing_zero_bytes_spec a b :
  length a = 4 → length b = 4 →
  ∃ n, trailing_zero_bytes (Z.lxor (le_val a) (le_val b)) = Z.of_nat n ∧ n ≤ 4 ∧ take n a = take n b.
Proof.
  intros Ha Hb. pose proof (le_val_range a) as Ra. pose proof (le_val_range b) as Rb. rewrite Ha in Ra. rewrite Hb in Rb.
  assert (0 ≤ Z.lxor (le_val a) (le_val b))%Z as Hpos by (apply Z.lxor_nonneg; lia).
  destruct (Z.lxor (le_val a) (le_val b)) as [|p|p] eqn:E; [| |lia]; cbn [trailing_zero_bytes].
  { exists 4. split_and!; [done..|]. apply low_bytes_equal; [lia..|]. rewrite E. apply Z.divide_0_r. }
  destruct (ctz_divides p) as [Hc0 Hc]. set (n := Z.to_nat (ctz p / 8)).
  pose proof (Z.div_mod (ctz p) 8). pose proof (Z.mod_pos_bound (ctz p) 8). exists n. rewrite Z.shiftr_div_pow2 by lia.
  assert (∀ m, m ≤ n → (256 ^ Z.of_nat m | Z.lxor (le_val a) (le_val b))%Z) as Hdiv.
  { intros m Hm. rewrite E. etrans; [|exact Hc]. change 256%Z with (2 ^ 8)%Z. rewrite <-Z.pow_mul_r by lia.
    exists (2 ^ (ctz p - 8 * Z.of_nat m))%Z. rewrite <-Z.pow_add_r by lia. f_equal. lia. }
  destruct (Nat.le_gt_cases n 4) as [Hn|Hn]; [split_and!; [change (2 ^ 3)%Z with 8%Z; lia|lia|apply low_bytes_equal; auto with lia]|].
  pose proof (low_bytes_equal 4 a b) as He. rewrite !take_ge in He by lia. rewrite He, Z.lxor_nilpotent in E by auto with lia. done.
Qed.

Definition four (src : bytes) (i : nat) : Z := le_val (take 4 (drop i src)).

Lemma load4_four src i : i + 4 ≤ length src → load4 src (Z.of_nat i) = Ok (four src i).
Proof. intros Hi. unfold load4. rewrite load_Ok by (unfold size; lia). by rewrite Nat2Z.id. Qed.

Lemma load1_at src i c : src !! i = Some c → load1 src (Z.of_nat i) = Ok (byte_val c).
Proof.
  intros Hc. pose proof (lookup_lt_Some _ _ _ Hc). unfold load1. rewrite load_Ok by (unfold size; lia). rewrite Nat2Z.id.
  rewrite (drop_S _ _ _ Hc). cbn [fmap result_fmap take]. f_equal. change (byte_val c + 256 * 0 = byte_val c)%Z. lia.
Qed.

(** [n] bytes at [i] are those at [j]. *)
Definition agree (src : bytes) (i j n : nat) : Prop := ∀ k, k < n → src !! (i + k) = src !! (j + k).

Lemma four_agree src i j :
  i + 4 ≤ length src → j + 4 ≤ length src →
  ∃ n, trailing_zero_bytes (Z.lxor (four src i) (four src j)) = Z.of_nat n ∧ n ≤ 4 ∧ agree src i j n.
Proof.
  intros Hi Hj. destruct (trailing_zero_bytes_spec (take 4 (drop i src)) (take 4 (drop j src))) as (n & Hn & Hn4 & Ht);
    [rewrite length_take, length_drop; lia..|].
  exists n. split_and!; [done..|]. intros k Hk. rewrite !take_take, Nat.min_l in Ht by done.
  apply (f_equal (.!! k)) in Ht. by rewrite !lookup_take_lt, !lookup_drop in Ht by done.
Qed.

Lemma nmatch4_agree src i j :
  i + 4 ≤ length src → j + 4 ≤ length src →
  ∃ n, nmatch4 src (Z.of_nat i) (Z.of_nat j) = Ok (Z.of_nat n) ∧ n ≤ 4 ∧ agree src i j n.
Proof.
  intros Hi Hj. destruct (four_agree src i j Hi Hj) as (n & Hn & ?). exists n. split; [|done].
  unfold nmatch4. rewrite !load4_four by done. cbn [mbind result_bind]. by rewrite Hn.
Qed.

(** ** Expanding a repetition *)

Lemma repeats_agree src i j n : j < i → i + n ≤ length src → agree src i j n → repeats src i n (i - j).
Proof. intros Hji Hlen Ha. split; [lia|]. split; [done|]. intros k Hk. rewrite Ha by done. f_equal. lia. Qed.

Lemma repeats_extend src p M n D :
  repeats src p M D → p + M + n ≤ length src → agree src (p + M) (p + M - D) n → repeats src p (M + n) D.
Proof.
  intros (HD & Hlen & Hr) Hn Ha. split; [lia|]. split; [lia|]. intros k Hk.
  destruct (Nat.lt_ge_cases k M); [by apply Hr|]. specialize (Ha (k - M) ltac:(lia)).
  replace (p + M + (k - M)) with (p + k) in Ha by lia. rewrite Ha. f_equal. lia.
Qed.

Lemma expand_forward_spec src fuel p M D n :
  repeats src p M D → (n = 4 → length src < fuel + (p + M)) →
  ∃ M', expand_forward fuel src (size src) (Z.of_nat D) (Z.of_nat n) (Z.of_nat (p + M)) = Ok (Z.of_nat (p + M')) ∧
    M ≤ M' ∧ repeats src p M' D.
Proof.
  revert M n. induction fuel as [|fuel IH]; intros M n Hr Hf; cbn [expand_forward];
    (destruct (Z.eqb_spec (Z.of_nat n) 4); cbn [andb]; [|by exists M]);
    (destruct (Z.ltb_spec (Z.of_nat (p + M) + 4) (size src)) as [Hlt|]; [unfold size in Hlt|by exists M]); [lia|].
  pose proof Hr as ([? ?] & _).
  replace (Z.of_nat (p + M) - Z.of_nat D)%Z with (Z.of_nat (p + M - D)) by lia.
  destruct (nmatch4_agree src (p + M) (p + M - D)) as (n' & -> & Hn' & Ha); [lia..|]. cbn [mbind result_bind].
  replace (Z.of_nat (p + M) + Z.of_nat n')%Z with (Z.of_nat (p + (M + n'))) by lia.
  destruct (IH (M + n') n') as (M' & -> & HM & HrM); [apply repeats_extend; (done || lia)|lia|].
  exists M'. split_and!; [done|lia|done].
Qed.

Lemma expand_backwards_spec src fuel l p M D :
  repeats src p M D → 1 ≤ M → l ≤ p → p ≤ fuel →
  ∃ p', expand_backwards fuel src 0 (Z.of_nat l) (Z.of_nat (p - D)) (Z.of_nat p) = Ok (Z.of_nat p') ∧
    l ≤ p' ≤ p ∧ repeats src p' (M + (p - p')) D.
Proof.
  revert p M. induction fuel as [|fuel IH]; intros p M Hr HM Hl Hf; cbn [expand_backwards];
    (destruct (_ && _) eqn:E; [apply andb_true_iff in E as [E1%Z.ltb_lt E2%Z.ltb_lt]|
                               exists p; rewrite Nat.sub_diag, Nat.add_0_r; split_and!; (done || lia)]); [lia|].
  pose proof Hr as (HD & Hlen & Heq).
  destruct (lookup_lt_is_Some_2 src (p - 1)) as [a Ha]; [lia|]. destruct (lookup_lt_is_Some_2 src (p - D - 1)) as [b Hb]; [lia|].
  replace (Z.of_nat p - 1)%Z with (Z.of_nat (p - 1)) by lia. replace (Z.of_nat (p - D) - 1)%Z with (Z.of_nat (p - 1 - D)) by lia.
  replace (p - D - 1) with (p - 1 - D) in Hb by lia. rewrite (load1_at _ _ _ Ha), (load1_at _ _ _ Hb). cbn [mbind result_bind].
  destruct (Z.eqb_spec (byte_val a) (byte_val b)) as [Eab|].
  2:{ exists p. rewrite Nat.sub_diag, Nat.add_0_r. split_and!; (done || lia). }
  assert (a = b) as -> by (rewrite <-(byte_of_val a), <-(byte_of_val b); congruence).
  destruct (IH (p - 1) (M + 1)) as (p' & -> & Hp' & Hr'); [|lia..|].
  - split; [lia|]. split; [lia|]. intros [|j] Hj; [by rewrite Nat.add_0_r, Ha|].
    specialize (Heq j ltac:(lia)). by replace (p - 1 + S j) with (p + j) by lia.
  - exists p'. split_and!; [done|lia..|]. by replace (M + (p - p')) with (M + 1 + (p - 1 - p')) by lia.
Qed.

(** ** Matches *)

(** A match of the source that begins at [l] or later. *)
Definition match_ok (src : bytes) (l : nat) (m : lzvn_match_info) : Prop :=
  ∃ b M D, m_begin m = Z.of_nat b ∧ m_end m = Z.of_nat (b + M) ∧ m_M m = Z.of_nat M ∧ m_D m = Z.of_nat D ∧
    l ≤ b ∧ b + 8 ≤ length src ∧ 3 ≤ M ∧ (Z.of_nat D ≤ 65535)%Z ∧ repeats src b M D.

Lemma find_matchN_spec src l i c n :
  agree src c i n → n ≤ 4 → l ≤ c → c + 8 ≤ length src →
  ∃ r, lzvn_find_matchN src 0 (size src) (Z.of_nat l) (Z.of_nat i) (Z.of_nat c) (Z.of_nat n) = Ok r ∧
    ∀ m, r = Some m → match_ok src l m.
Proof.
  intros Ha Hn Hl Hc. unfold lzvn_find_matchN, LZVN_ENCODE_MAX_DISTANCE.
  destruct (Z.ltb_spec (Z.of_nat n) 3); [by exists None|]. destruct (_ || _) eqn:E; [by exists None|].
  apply orb_false_iff in E as [E1%Z.leb_gt E2%Z.ltb_ge]. assert (i < c) as Hi by lia.
  replace (Z.of_nat c - Z.of_nat i)%Z with (Z.of_nat (c - i)) in * by lia.
  assert (repeats src c n (c - i)) as Hr by (apply repeats_agree; (done || lia)).
  replace (Z.of_nat c + Z.of_nat n)%Z with (Z.of_nat (c + n)) by lia.
  destruct (expand_forward_spec src (length src) c n (c - i) n Hr) as (M & -> & HM & HrM); [lia|]. cbn [mbind result_bind].
  destruct (expand_backwards_spec src (length src) l c M (c - i) HrM) as (b & Hb & Hlb & HrB); [lia..|].
  replace (c - (c - i)) with i in Hb by lia. rewrite Hb. cbn [mbind result_bind]. eexists. split; [done|].
  intros m [= <-]. exists b, (M + (c - b)), (c - i). cbn [m_begin m_end m_M m_D]. split_and!; (done || lia).
Qed.

Lemma find_match_spec src l i c :
  l ≤ c → c + 8 ≤ length src → i ≤ c →
  ∃ r, lzvn_find_match src 0 (size src) (Z.of_nat l) (Z.of_nat i) (Z.of_nat c) = Ok r ∧ ∀ m, r = Some m → match_ok src l m.
Proof.
  intros Hl Hc Hi. unfold lzvn_find_match. destruct (nmatch4_agree src c i) as (n & -> & Hn & Ha); [lia..|].
  by apply find_matchN_spec.
Qed.

(** ** The invariant of the encoder *)

(** A position of the table with the four bytes at it. *)
Definition entry_ok (src : bytes) (e : lzvn_encode_entry_type) : Prop :=
  Forall (λ iv, ∃ i, iv.1 = Z.of_nat i ∧ i + 4 ≤ length src ∧ iv.2 = four src i) (zip (indices e) (values e)).

(** The encoder of [src] for a destination of [n] bytes has covered the first [lit] bytes
    and looks at position [cur]. *)
Record encoder_ok (src : bytes) (n : Z) (lit cur : nat) (st : lzvn_encoder_state) : Prop := mkEncoderOk {
  ok_src : le_src st = src;
  ok_begin : le_src_begin st = 0%Z;
  ok_end : le_src_end st = size src;
  ok_current_end : (8 ≤ size src)%Z → le_src_current_end st = (size src - 8)%Z;
  ok_current : le_src_current st = Z.of_nat cur;
  ok_literal : le_src_literal st = Z.of_nat lit;
  ok_covered : lit ≤ length src;
  ok_emitted : ∃ D, le_d_prev st = Z.of_nat D ∧ D ≤ lit ∧ denotes (le_dst st) 0 [] D (take lit src);
  ok_dst_end : le_dst_end st = (n - 8)%Z;
  ok_room : (size (le_dst st) ≤ n - 8)%Z;
  ok_table : ∀ h, entry_ok src (table_get st h);
}.

Definition pending_ok (src : bytes) (lit : nat) (m : lzvn_match_info) : Prop := m_M m = 0%Z ∨ match_ok src lit m.

Lemma set_pending_ok src n lit cur st m : encoder_ok src n lit cur st → encoder_ok src n lit cur (set_pending st m).
Proof. by intros []. Qed.

Lemma emit_match_ok src n lit cur st m :
  encoder_ok src n lit cur st → match_ok src lit m →
  ∃ r, lzvn_emit_match st m = Ok r ∧
    ∀ st', r = Some st' → ∃ lit', m_end m = Z.of_nat lit' ∧ encoder_ok src n lit' cur st'.
Proof.
  intros [Hs Hb He Hce Hc Hl Hcov (Dp & HDp & HDl & Hd) Hde Hroom Ht] (b & M & D & Hmb & Hme & HM & HD & Hlb & Hb8 & HM3 & HDm & Hr).
  unfold lzvn_emit_match. rewrite Hs, Hl, Hmb, HM, HD, HDp. replace (Z.of_nat b - Z.of_nat lit)%Z with (Z.of_nat (b - lit)) by lia.
  destruct (emit_spec src lit (le_dst st) (le_dst_end st) (b - lit) M D Dp) as (r & -> & Hq); [lia..| |].
  { by replace (lit + (b - lit)) with b by lia. }
  cbn [mbind result_bind]. eexists. split; [done|]. intros st' Hst'. destruct r as [q|]; [|done].
  destruct (Z.leb_spec (le_dst_end st) (size q)); [done|]. injection Hst' as <-.
  destruct (Hq _ eq_refl) as (code & -> & Hcode). exists (b + M). split; [done|].
  replace (lit + (b - lit) + M) with (b + M) in Hcode by lia. pose proof Hr as (? & ? & _).
  split; cbn [set_emitted le_src le_src_begin le_src_end le_src_current le_src_current_end le_src_literal le_d_prev le_dst le_dst_end];
    [done..|lia| |done|lia|done].
  exists D. split_and!; [done|lia|]. by eapply denotes_app.
Qed.

Lemma emit_literal_ok src n lit cur st L :
  encoder_ok src n lit cur st → lit + L ≤ length src →
  ∃ r, lzvn_emit_literal st (Z.of_nat L) = Ok r ∧ ∀ st', r = Some st' → encoder_ok src n (lit + L) cur st'.
Proof.
  intros [Hs Hb He Hce Hc Hl Hcov (Dp & HDp & HDl & Hd) Hde Hroom Ht] HL. unfold lzvn_emit_literal. rewrite Hs, Hl.
  destruct (emit_literal_spec src lit (le_dst st) (le_dst_end st) L HL) as (r & -> & Hq). cbn [mbind result_bind].
  eexists. split; [done|]. intros st' Hst'. destruct r as [q|]; [|done].
  destruct (Z.leb_spec (le_dst_end st) (size q)); [done|]. injection Hst' as <-. destruct (Hq _ eq_refl) as (code & -> & Hcode).
  split; cbn [set_emitted le_src le_src_begin le_src_end le_src_current le_src_current_end le_src_literal le_d_prev le_dst le_dst_end];
    [done..|lia|done| |done|lia|done].
  exists Dp. split_and!; [done|lia|]. by eapply denotes_app.
Qed.

(** The best candidate is a match of the source, or none. *)
Lemma UPDATE_ok src lit best m : pending_ok src lit best → match_ok src lit m → pending_ok src lit (UPDATE best m).
Proof. intros Hb Hm. unfold UPDATE. destruct (_ || _); [by right|done]. Qed.

Lemma best_match_ok src n lit cur st e :
  encoder_ok src n lit cur st → entry_ok src e → lit ≤ cur → cur + 8 ≤ length src →
  ∃ m, best_match st (four src cur) e = Ok m ∧ pending_ok src lit m.
Proof.
  intros [Hs Hb He Hce Hc Hl Hcov (Dp & HDp & HDl & Hd) Hde Hroom Ht] Hok Hlc Hc8. unfold best_match.
  destruct (foldM_total (pending_ok src lit) (CHECK_CANDIDATE st (four src cur)) NO_MATCH (zip (indices e) (values e)))
    as (m & -> & Hm); [|by left|].
  - intros best iv Hin Hbest. unfold entry_ok in Hok. rewrite Forall_forall in Hok. destruct (Hok iv Hin) as (i & Hi & Hi4 & Hv).
    unfold CHECK_CANDIDATE, offset_from_s32. rewrite Hi, Hv, Hs, Hb, He, Hc, Hl, Z.lxor_comm.
    destruct (four_agree src cur i) as (k & -> & Hk & Ha); [lia..|].
    destruct (find_matchN_spec src lit i cur k Ha Hk Hlc Hc8) as (r & -> & Hr). cbn [mbind result_bind].
    eexists. split; [done|]. destruct r as [m|]; [apply UPDATE_ok; auto|done].
  - cbn [mbind result_bind]. rewrite HDp. destruct (Z.eqb_spec (Z.of_nat Dp) 0); [by exists m|].
    rewrite Hs, Hb, He, Hc, Hl. replace (Z.of_nat cur - Z.of_nat Dp)%Z with (Z.of_nat (cur - Dp)) by lia.
    destruct (find_match_spec src lit (cur - Dp) cur) as (r & -> & Hr); [lia..|]. cbn [mbind result_bind].
    eexists. split; [done|]. destruct r as [m1|]; [|done]. apply UPDATE_ok; [done|]. exact (Hr _ eq_refl).
Qed.

Lemma pending_cases src lit m : pending_ok src lit m → m_M m ≠ 0%Z → match_ok src lit m.
Proof. by intros [?|?] ?. Qed.

(** The state behind an emission keeps the invariant, whatever is pending then. *)
Lemma emitted_match_ok src n lit cur st m pending :
  encoder_ok src n lit cur st → pending_ok src lit (le_pending st) → match_ok src lit m →
  (∀ lit', m_end m = Z.of_nat lit' → pending_ok src lit' pending) →
  ∃ r lit', emitted st pending <$> lzvn_emit_match st m = Ok r ∧
    encoder_ok src n lit' cur r.1 ∧ pending_ok src lit' (le_pending r.1).
Proof.
  intros Hok Hp Hm Hnext. destruct (emit_match_ok src n lit cur st m Hok Hm) as (r & -> & Hr). cbn [fmap result_fmap].
  destruct r as [st'|]; cbn [emitted]; [|by exists (st, false), lit].
  destruct (Hr _ eq_refl) as (lit' & Hend & Hok'). exists (set_pending st' pending, true), lit'.
  split_and!; [done|by apply set_pending_ok|by apply Hnext].
Qed.

Lemma match_ok_later src lit lit' m : match_ok src lit m → (Z.of_nat lit' ≤ m_begin m)%Z → match_ok src lit' m.
Proof. intros (b & M & D & Hb & ?) Hl. exists b, M, D. rewrite Hb in Hl. naive_solver lia. Qed.

Lemma emit_best_ok src n lit cur st incoming :
  encoder_ok src n lit cur st → pending_ok src lit (le_pending st) → pending_ok src lit incoming → cur + 8 ≤ length src →
  ∃ r lit', emit_best st incoming = Ok r ∧ encoder_ok src n lit' cur r.1 ∧ pending_ok src lit' (le_pending r.1).
Proof.
  intros Hok Hp Hi Hc8. unfold emit_best, LZVN_ENCODE_MAX_LITERAL_BACKLOG. destruct (Z.eqb_spec (m_M incoming) 0) as [Hi0|Hi0].
  - pose proof (ok_current _ _ _ _ _ Hok) as Hc. pose proof (ok_literal _ _ _ _ _ Hok) as Hl. rewrite Hc, Hl.
    destruct (Z.leb_spec 400 (Z.of_nat cur - Z.of_nat lit)) as [H400|]; [|by exists (st, true), lit].
    destruct (Z.eqb_spec (m_M (le_pending st)) 0) as [Hp0|Hp0]; cbn [negb].
    + destruct (emit_literal_ok src n lit cur st 271 Hok) as (r & Hr & Hst); [lia|]. change (Z.of_nat 271) with 271%Z in Hr.
      rewrite Hr. cbn [fmap result_fmap]. destruct r as [st'|]; cbn [emitted]; [|by exists (st, false), lit].
      exists (set_pending st' (le_pending st), true), (lit + 271). split_and!; [done|apply set_pending_ok; auto|by left].
    + eapply emitted_match_ok; [done..|by apply pending_cases|]. by left.
  - destruct (Z.eqb_spec (m_M (le_pending st)) 0) as [Hp0|Hp0].
    { exists (set_pending st incoming, true), lit. split_and!; [done|by apply set_pending_ok|done]. }
    apply pending_cases in Hp as Hpm; [|done]. apply pending_cases in Hi as Him; [|done].
    destruct (Z.leb_spec (m_end (le_pending st)) (m_begin incoming)) as [Hle|Hle].
    + eapply emitted_match_ok; [done..|]. intros lit' Hend. right. eapply match_ok_later; [done|lia].
    + destruct (_ <? _)%Z; (eapply emitted_match_ok; [by try apply set_pending_ok|done..|by left]).
Qed.

(** ** The loop *)

Lemma updated_entry_ok src cur e :
  cur + 4 ≤ length src → (size src < 2 ^ 31)%Z → entry_ok src e →
  entry_ok src (mkEntry (offset_to_s32 (Z.of_nat cur) :: take 3 (indices e)) (four src cur :: take 3 (values e))).
Proof.
  intros Hc Hs He. unfold entry_ok, offset_to_s32. cbn [indices values zip zip_with]. constructor.
  - exists cur. cbn [fst snd]. rewrite to_int_id; [done|]. unfold is_int, INT_MIN, INT_MAX, size in *. lia.
  - rewrite <-zip_with_take. by apply Forall_take.
Qed.

Lemma set_advanced_ok src n lit cur st h e :
  encoder_ok src n lit cur st → entry_ok src e → encoder_ok src n lit (S cur) (set_advanced st h e).
Proof.
  intros [Hs Hb He Hce Hc Hl Hcov Hd Hde Hroom Ht] Hok.
  split; cbn [set_advanced le_src le_src_begin le_src_end le_src_current le_src_current_end le_src_literal le_d_prev le_dst le_dst_end]; [done..|lia|done|done|done|done|done|].
  intros h'. unfold table_get. cbn [set_advanced le_table le_initial].
  destruct (decide (h = h')) as [->|Hne]; [by rewrite lookup_insert_eq|]. rewrite lookup_insert_ne by done. apply Ht.
Qed.

Lemma encode_iteration_ok src n lit cur st :
  encoder_ok src n lit cur st → pending_ok src lit (le_pending st) → cur + 8 ≤ length src → (size src < 2 ^ 31)%Z →
  ∃ r lit', encode_iteration st = Ok r ∧ encoder_ok src n lit' (if r.2 then S cur else cur) r.1 ∧ pending_ok src lit' (le_pending r.1).
Proof.
  intros Hok Hp Hc8 Hsz. unfold encode_iteration.
  rewrite (ok_src _ _ _ _ _ Hok), (ok_current _ _ _ _ _ Hok), load4_four by lia. cbn [mbind result_bind].
  set (h := hash3i _). set (e := table_get st h). assert (entry_ok src e) as He by apply Hok.
  pose proof (updated_entry_ok src cur e ltac:(lia) Hsz He) as Hu. rewrite (ok_literal _ _ _ _ _ Hok).
  destruct (Z.ltb_spec (Z.of_nat cur) (Z.of_nat lit)) as [Hlt|Hge].
  { eexists _, lit. split; [done|]. split; [by apply set_advanced_ok|done]. }
  destruct (best_match_ok src n lit cur st e Hok He) as (m & -> & Hm); [lia..|]. cbn [mbind result_bind].
  destruct (emit_best_ok src n lit cur st m Hok Hp Hm Hc8) as ([st' go] & lit' & -> & Hok' & Hp'). cbn [mbind result_bind fst] in *.
  eexists _, lit'. split; [done|]. destruct go; cbn [fst snd]; [|done]. split; [by apply set_advanced_ok|done].
Qed.

Lemma encode_loop_ok src n fuel lit cur st :
  encoder_ok src n lit cur st → pending_ok src lit (le_pending st) → (8 ≤ size src < 2 ^ 31)%Z → length src ≤ fuel + cur →
  ∃ st' lit' cur', encode_loop fuel st = Ok st' ∧ encoder_ok src n lit' cur' st'.
Proof.
  revert lit cur st. induction fuel as [|fuel IH]; intros lit cur st Hok Hp Hsz Hf; cbn [encode_loop];
    rewrite (ok_current _ _ _ _ _ Hok), (ok_current_end _ _ _ _ _ Hok) by lia;
    (destruct (Z.ltb_spec (Z.of_nat cur) (size src - 8)) as [Hlt|]; [unfold size in Hlt|by exists st, lit, cur]); [lia|].
  destruct (encode_iteration_ok src n lit cur st Hok Hp) as ([st' go] & lit' & Hit & Hok' & Hp'); [lia..|].
  rewrite Hit. cbn [mbind result_bind fst snd] in *. destruct go; [|by eexists _, _, _].
  eapply IH; [done..|lia].
Qed.

(** The state the encoder starts in. *)
Definition start (src : bytes) (n : Z) (initial : lzvn_encode_entry_type) (current_end : Z) : lzvn_encoder_state :=
  mkLzvnEncoder src 0 (size src) 0 current_end 0 [] (n - 8) NO_MATCH 0 initial ∅.

Lemma start_ok src n initial current_end :
  entry_ok src initial → (8 ≤ size src → current_end = size src - 8)%Z → (8 ≤ n)%Z →
  encoder_ok src n 0 0 (start src n initial current_end).
Proof.
  intros He Hce Hn. split; cbn; try done; [lia| |unfold size; simpl; lia].
  exists 0. split_and!; [done|done|]. apply denotes_nil.
Qed.

Lemma lzvn_encode_ok src n :
  (8 ≤ size src < 2 ^ 31)%Z → (8 ≤ n)%Z →
  ∃ initial st lit cur, lzvn_init_table src 0 = Ok initial ∧ lzvn_encode (start src n initial (size src - 8)) = Ok st ∧
    encoder_ok src n lit cur st.
Proof.
  intros Hs Hn. unfold lzvn_init_table. cbn [LZVN_ENCODE_MAX_DISTANCE]. change (- LZVN_ENCODE_MAX_DISTANCE <? 0)%Z with true. cbv iota.
  change (load4 src 0) with (load4 src (Z.of_nat 0)). rewrite load4_four by (unfold size in *; lia). cbn [mbind result_bind].
  set (initial := mkEntry _ _). exists initial.
  assert (entry_ok src initial) as Hi.
  { unfold entry_ok, initial. cbn [indices values replicate zip zip_with].
    repeat constructor; exists 0; cbn [fst snd]; (split; [done|]; split; [unfold size in *; lia|done]). }
  destruct (encode_loop_ok src n (length src) 0 0 (start src n initial (size src - 8))) as (st & lit & cur & Hl & Hok);
    [by apply start_ok|by left|done|lia|].
  by exists st, lit, cur.
Qed.

(** A completed stream: code for the whole source and the end marker. *)
Lemma lzvn_encode_partial_ok src n :
  (size src < 2 ^ 31)%Z → (8 ≤ n)%Z →
  ∃ lit D code, lit ≤ length src ∧ lzvn_encode_partial n src = Ok (code ++ le_bytes 8 6, Z.of_nat lit) ∧
    denotes code 0 [] D (take lit src) ∧ (size code + 8 ≤ n)%Z.
Proof.
  intros Hs Hn. unfold lzvn_encode_partial, LZVN_ENCODE_MIN_DST_SIZE, LZVN_ENCODE_MAX_SRC_SIZE, LZVN_ENCODE_MIN_SRC_SIZE, LZVN_ENCODE_MIN_MARGIN.
  destruct (Z.ltb_spec n 8); [lia|]. destruct (Z.ltb_spec 4294967295 (size src)); [lia|]. cbv zeta.
  fold (start src n). 
  assert (∃ st lit cur, (if (8 <=? size src)%Z then initial ← lzvn_init_table src 0; lzvn_encode (start src n initial (size src - 8))
                 else Ok (start src n (mkEntry [] []) 0)) = Ok st ∧ encoder_ok src n lit cur st) as (st & lit & cur & Hst & Hok).
  { destruct (Z.leb_spec 8 (size src)).
    - destruct (lzvn_encode_ok src n) as (i & st & lit & cur & -> & ? & ?); [done..|]. by exists st, lit, cur.
    - eexists _, 0, 0. split; [done|]. apply start_ok; [by constructor|lia|done]. }
  unfold start in Hst. rewrite Hst. cbn [mbind result_bind]. rewrite (ok_end _ _ _ _ _ Hok), (ok_literal _ _ _ _ _ Hok).
  pose proof (ok_covered _ _ _ _ _ Hok) as Hcov.
  replace (size src - Z.of_nat lit)%Z with (Z.of_nat (length src - lit)) by (unfold size; lia).
  destruct (emit_literal_ok src n lit cur st (length src - lit) Hok) as (r & -> & Hr); [lia|]. cbn [mbind result_bind].
  assert (∃ lit', encoder_ok src n lit' cur (default st r)) as (lit' & Hok').
  { destruct r as [st'|]; cbn [default]; eauto. }
  destruct Hok' as [Hs' Hb' He' Hce' Hc' Hl' Hcov' (D & HD & HDl & Hd) Hde Hroom Ht].
  unfold lzvn_emit_end_of_stream. cbn [le_dst_end le_dst]. destruct (Z.ltb_spec n (size (le_dst (default st r)) + 8)); [lia|].
  cbn [set_emitted le_dst le_src_literal]. rewrite Hl'. exists lit', D, (le_dst (default st r)). split_and!; [done..|lia].
Qed.

(** The decoder on a completed stream. *)
Lemma decode_stream code D src rest room :
  denotes code 0 [] D src → 0 < room →
  ∃ st, lzvn_decode (mkLzvnDecoder ((code ++ le_bytes 8 6) ++ rest) [] room 0 0 0 0 false) = Ok st ∧
    ld_dst st = take room src ∧
    (length src ≤ room → ld_end_of_stream st = true ∧ ld_src st = rest) ∧
    (room < length src → ld_end_of_stream st = false ∧ ld_src st ≠ [] ∧ ld_src st `suffix_of` (code ++ le_bytes 8 6) ++ rest).
Proof.
  intros [_ Hd] Hroom. unfold lzvn_decode. cbn [ld_src ld_dst ld_L ld_M ld_D ld_d_prev dst_len ld_dst_size length].
  assert (length (le_bytes 8 6) = 8) as H8 by apply length_le_bytes.
  destruct (Nat.eqb_spec (length ((code ++ le_bytes 8 6) ++ rest)) 0) as [E|_]; [rewrite !length_app, H8 in E; lia|].
  unfold dst_len. cbn [ld_dst_size length]. rewrite Nat.sub_0_r. destruct (Nat.eqb_spec room 0); [lia|]. cbn [orb Nat.eqb andb mbind result_bind].
  set (st0 := mkLzvnDecoder _ _ _ _ _ _ _ _). rewrite <-app_assoc.
  destruct (Hd st0 (le_bytes 8 6 ++ rest)) as (k & Hk & Hs); [done|simpl; lia|]. cbn [st0 ld_dst_size] in Hs.
  rewrite !length_app, H8. case_decide as Hfit.
  - destruct Hs as (st & Hsz & He & Hl).
    replace (length code + (8 + length rest)) with (k + S (length code - k + 7 + length rest)) by lia. rewrite Hl.
    change (le_bytes 8 6) with (byte_of 6 :: le_bytes 7 0). rewrite decode_end by apply length_le_bytes.
    eexists. split; [done|]. cbn. rewrite take_ge by done. split_and!; [done|done|lia].
  - destruct Hs as (st & (F1 & F2 & F3 & F4) & Hl).
    replace (length code + (8 + length rest)) with (k + (length code - k + 8 + length rest)) by lia. rewrite Hl.
    exists st. split; [done|]. split_and!; [done|lia|done].
Qed.

(** The encoded buffer, when it is not refused, is a stream for the whole source. *)
Lemma lzvn_encode_buffer_ok src n :
  (size src < 2 ^ 31)%Z →
  ∃ b, lzvn_encode_buffer n src = Ok b ∧ (size b ≤ Z.max 0 n)%Z ∧
    (b ≠ [] → ∃ code D, b = code ++ le_bytes 8 6 ∧ denotes code 0 [] D src).
Proof.
  intros Hs. unfold lzvn_encode_buffer. destruct (Z.lt_ge_cases n 8) as [Hn|Hn].
  - unfold lzvn_encode_partial, LZVN_ENCODE_MIN_DST_SIZE. destruct (Z.ltb_spec n 8); [|lia]. cbn [mbind result_bind].
    exists []. split; [by destruct (_ =? _)%Z|]. split; [unfold size; simpl; lia|done].
  - destruct (lzvn_encode_partial_ok src n Hs Hn) as (lit & D & code & Hl & -> & Hd & Hc). cbn [mbind result_bind].
    eexists. split; [done|]. destruct (Z.eqb_spec (Z.of_nat lit) (size src)) as [E|]; [|split; [unfold size; simpl; lia|done]].
    unfold size in *. rewrite length_app, length_le_bytes. split; [lia|]. intros _. exists code, D. split; [done|].
    by rewrite take_ge in Hd by lia.
Qed.

(** ** Properties *)

(** C22: LZVN encodes every source of less than 2^31 bytes without loading outside of it,
    within the destination; and unless it refuses, the decoder restores the source from the
    stream, whatever follows it: all of it up to the end marker when the destination is
    long enough, its beginning otherwise. *)
Theorem lzvn_roundtrip (src : bytes) (n : Z) :
  (size src < 2 ^ 31)%Z →
  ∃ b, lzvn_encode_buffer n src = Ok b ∧ (size b ≤ Z.max 0 n)%Z ∧
    (b ≠ [] → ∀ rest room, 0 < room →
       ∃ st, lzvn_decode (mkLzvnDecoder (b ++ rest) [] room 0 0 0 0 false) = Ok st ∧ ld_dst st = take room src ∧
         (length src ≤ room → ld_end_of_stream st = true ∧ ld_src st = rest) ∧
         (room < length src → ld_end_of_stream st = false)).
Proof.
  intros Hs. destruct (lzvn_encode_buffer_ok src n Hs) as (b & Hb & Hsz & Hcode). exists b. split_and!; [done..|].
  intros Hne rest room Hroom. destruct (Hcode Hne) as (code & D & -> & Hd).
  destruct (decode_stream code D src rest room Hd Hroom) as (st & Hst & Hdst & Hfit & Hfull).
  exists st. split_and!; [done..|]. by intros [? _]%Hfull.
Qed.

(** Twelve equal bytes. *)
Lemma lzvn_roundtrip_witness :
  ∃ b, lzvn_encode_buffer 40 (replicate 12 "a"%char) = Ok b ∧ (size b ≤ Z.max 0 40)%Z ∧
    (b ≠ [] → ∀ rest room, 0 < room →
       ∃ st, lzvn_decode (mkLzvnDecoder (b ++ rest) [] room 0 0 0 0 false) = Ok st ∧
         ld_dst st = take room (replicate 12 "a"%char) ∧
         (length (replicate 12 "a"%char) ≤ room → ld_end_of_stream st = true ∧ ld_src st = rest) ∧
         (room < length (replicate 12 "a"%char) → ld_end_of_stream st = false)).
Proof. apply (lzvn_roundtrip (replicate 12 "a"%char) 40). reflexivity. Defined.

(** The stream of twenty-four bytes of period three is shorter than they are. *)
Example lzvn_compresses :
  let src := bytes_of "abcabcabcabcabcabcabcabc" in
  ∃ b, lzvn_encode_buffer 60 src = Ok b ∧ length b < length src ∧ b ≠ [].
Proof. eexists. split; [vm_compute; reflexivity|]. split; [simpl; lia|done]. Qed.

End LzvnRoundtrip.
Export LzvnRoundtrip.
