(* ===== verification/LzvnSafe.v ===== *)
(** * LZVN: the decoder on arbitrary bytes

    Whatever the source holds, the decoder ends, stays inside its buffers and only appends
    to the destination.  The one exception is a match before any distance was read. *)

From stdpp Require Import base list strings.
From Stdlib Require Import Ascii ZArith Lia.
From S2P Require Import Prelude CInt Util Buffer LzvnDecode LzvnEncode LzvnInstr LzvnEmit.
Local Open Scope nat_scope.

Module LzvnSafe.

Section Safety.
Context (start : lzvn_decoder_state).

(** A state the decoder may return. *)
Record state_ok (st : lzvn_decoder_state) : Prop := mkStateOk {
  so_size : ld_dst_size st = ld_dst_size start;
  so_src : ld_src st `suffix_of` ld_src start;
  so_dst : ld_dst start `prefix_of` ld_dst st;
  so_room : length (ld_dst st) ≤ ld_dst_size start;
  so_distance : ld_d_prev st ≤ length (ld_dst st);
}.

(** The state between two instructions: the distance is inside the output, and zero only if
    the decoder was started with none. *)
Record next_ok (st : lzvn_decoder_state) (src dst : bytes) (D : nat) : Prop := mkNextOk {
  no_state : state_ok st;
  no_before : ld_dst st `prefix_of` dst;
  no_room : length dst ≤ ld_dst_size start;
  no_src : src `suffix_of` ld_src start;
  no_more : src ≠ [];
  no_distance : D ≤ length dst;
  no_zero : D = 0 → ld_d_prev start = 0;
}.

Definition outcome_ok (src : bytes) (o : outcome) : Prop :=
  match o with
  | Return st => state_ok st
  | Next st src' dst D => next_ok st src' dst D ∧ length src' < length src
  end.

Lemma UPDATE_GOOD_ok st src dst D : next_ok st src dst D → next_ok (UPDATE_GOOD st src dst D) src dst D.
Proof.
  intros [[] Hb Hr Hs Hm Hd Hz]. split; [split|..]; cbn [UPDATE_GOOD ld_dst_size ld_src ld_dst ld_d_prev]; try done.
  by etrans.
Qed.

(** What is saved of an instruction. *)
Lemma save_partial_ok st src' dst' L M D :
  state_ok st → ld_dst st `prefix_of` dst' → length dst' ≤ ld_dst_size start → src' `suffix_of` ld_src start →
  state_ok (save_partial st src' dst' L M D).
Proof.
  intros [] Hb Hr Hs. pose proof (prefix_length _ _ Hb). split; cbn [save_partial ld_dst_size ld_src ld_dst ld_d_prev]; try done; [by etrans|lia].
Qed.

Lemma drop_suffix_of (n : nat) (l : bytes) : drop n l `suffix_of` l.
Proof. exists (take n l). by rewrite take_drop. Qed.

Lemma copy_match_ok st src dst M D before :
  state_ok st → ld_dst st `prefix_of` dst → length dst ≤ ld_dst_size start → src `suffix_of` ld_src start → src ≠ [] →
  1 ≤ D ≤ length dst → length src < length before →
  ∃ o, copy_match st src dst M D = Ok o ∧ outcome_ok before o.
Proof.
  intros Hst Hb Hr Hs Hm HD Hlt. pose proof (so_size _ Hst) as Hsz. unfold copy_match, dst_len. rewrite Hsz.
  set (room := ld_dst_size start - length dst).
  assert (∀ n o, n ≤ room → match_bytes n D dst = Ok o →
            ld_dst st `prefix_of` o ∧ length o ≤ ld_dst_size start ∧ 1 ≤ D ≤ length o) as Hout.
  { intros n o Hn Ho. apply match_bytes_length in Ho as Hl. apply match_bytes_prefix in Ho. unfold room in Hn.
    split; [by etrans|lia]. }
  assert (∀ o, ld_dst st `prefix_of` o ∧ length o ≤ ld_dst_size start ∧ 1 ≤ D ≤ length o → outcome_ok before (Next st src o D)) as Hnext.
  { intros o (? & ? & ?). split; [|done]. split; (done || lia). }
  destruct (_ && _) eqn:Hw.
  - apply andb_true_iff in Hw as [Hw%Nat.leb_le H8%Nat.leb_le]. pose proof (div_up M).
    rewrite match_blocks_bytes by lia. destruct (match_bytes_total (8 * ((M + 7) / 8)) D dst HD) as [o Ho]. rewrite Ho.
    eexists. split; [done|]. apply Hnext, (Hout M); [lia|]. eapply match_bytes_take; [|done]. lia.
  - destruct (Nat.leb_spec M room).
    + destruct (match_bytes_total M D dst HD) as [o Ho]. rewrite Ho. eexists. split; [done|]. by eapply Hnext, Hout.
    + destruct (match_bytes_total room D dst HD) as [o Ho]. rewrite Ho. eexists. split; [done|].
      destruct (Hout room o) as (? & ? & ?); [done..|]. by apply save_partial_ok.
Qed.

Lemma copied_ok (st : lzvn_decoder_state) (dst lit : bytes) :
  ld_dst st `prefix_of` dst → length lit ≤ ld_dst_size start - length dst → length dst ≤ ld_dst_size start →
  ld_dst st `prefix_of` dst ++ lit ∧ length (dst ++ lit) ≤ ld_dst_size start.
Proof. intros Hb Hl Hr. rewrite length_app. split; [|lia]. etrans; [done|]. by apply prefix_app_r. Qed.

Lemma copy_literal_ok st src dst opc_len L D :
  next_ok st src dst D → 1 ≤ opc_len + L →
  ∃ o, copy_literal st src dst opc_len L D = Ok o ∧ outcome_ok src o.
Proof.
  intros [Hst Hb Hr Hs Hm HD Hz] H1. pose proof (so_size _ Hst) as Hsz. unfold copy_literal, dst_len. rewrite Hsz.
  destruct (Nat.leb_spec (length src) (opc_len + L)) as [|Hlen]; [by exists (Return st)|]. rewrite length_drop. cbv zeta.
  assert (∀ n, drop n (drop opc_len src) `suffix_of` ld_src start) as Hsuf.
  { intros n. rewrite drop_drop. etrans; [apply drop_suffix_of|done]. }
  assert (∀ n o, n ≤ ld_dst_size start - length dst → n ≤ L → o = dst ++ take n (drop opc_len src) →
            ld_dst st `prefix_of` o ∧ length o ≤ ld_dst_size start ∧ D ≤ length o) as Hout.
  { intros n o Hn HnL ->. destruct (copied_ok st dst (take n (drop opc_len src))) as [Hp Hl]; [done|rewrite length_take; lia|done|].
    split_and!; [done..|]. rewrite length_app. lia. }
  assert (∀ o, o = dst ++ take L (drop opc_len src) → L ≤ ld_dst_size start - length dst →
            outcome_ok src (Next st (drop L (drop opc_len src)) o D)) as Hnext.
  { intros o Ho HL. destruct (Hout L o HL) as (? & ? & ?); [done..|].
    assert (length (drop L (drop opc_len src)) = length src - (opc_len + L)) as Hdl by (rewrite !length_drop; lia).
    split; [|lia]. split; try done; intros E; rewrite E in Hdl; simpl in Hdl; lia. }
  destruct (_ && _) eqn:Hw; [|destruct (Nat.leb_spec L (ld_dst_size start - length dst))].
  - apply andb_true_iff in Hw as [Hw1%Nat.leb_le Hw2%Nat.leb_le]. unfold copy_wide. pose proof (div_up L). simpl (8 - 1).
    rewrite length_drop. destruct (Nat.ltb_spec (length src - opc_len) (8 * ((L + 7) / 8))); [lia|]. cbn [mbind result_bind].
    eexists. split; [done|]. apply Hnext; [|lia]. by rewrite take_take, Nat.min_l by lia.
  - rewrite copy_bytes_part by (rewrite length_drop; lia). eexists. split; [done|]. by apply Hnext.
  - rewrite copy_bytes_part by (rewrite length_drop; lia). eexists. split; [done|].
    edestruct (Hout (ld_dst_size start - length dst)) as (? & ? & ?); [lia|lia|reflexivity|]. apply save_partial_ok; [done..|apply Hsuf].
Qed.

Lemma copy_literal_and_match_ok st src dst opc_len L M D0 D :
  next_ok st src dst D0 → 1 ≤ opc_len → L ≤ 3 → opc_len + L < length src →
  ∃ o, copy_literal_and_match st src dst opc_len L M D = Ok o ∧ outcome_ok src o.
Proof.
  intros [Hst Hb Hr Hs Hm _ _] H1 HL Hlen. pose proof (so_size _ Hst) as Hsz. unfold copy_literal_and_match, dst_len. rewrite Hsz. cbv zeta.
  assert (∀ n, drop n (drop opc_len src) `suffix_of` ld_src start) as Hsuf.
  { intros n. rewrite drop_drop. etrans; [apply drop_suffix_of|done]. }
  set (room := ld_dst_size start - length dst). set (wide := (4 <=? room) && _).
  destruct (wide || (L <=? room)) eqn:Hfit.
  - assert (L ≤ room) as HLr.
    { apply orb_true_iff in Hfit as [[Hw%Nat.leb_le _]%andb_true_iff|Hw%Nat.leb_le]; lia. }
    set (lit := take L (drop opc_len src)). assert (length lit = L) as Hlit by (unfold lit; rewrite length_take, length_drop; lia).
    assert ((if wide then Ok (dst ++ take L (take 4 (drop opc_len src))) else copy_bytes (drop opc_len src) dst L) = Ok (dst ++ lit)) as ->.
    { destruct wide; [by rewrite take_take, Nat.min_l by lia|]. by rewrite copy_bytes_part by (rewrite length_drop; lia). }
    cbn [mbind result_bind]. clear Hfit. destruct (_ || _) eqn:HD; [by exists (Return st)|].
    apply orb_false_iff in HD as [HD1%Nat.ltb_ge HD0%Nat.eqb_neq].
    destruct (copied_ok st dst lit) as [? ?]; [done|rewrite Hlit; exact HLr|done|].
    assert (length (drop L (drop opc_len src)) = length src - (opc_len + L)) as Hdl by (rewrite !length_drop; lia).
    apply copy_match_ok; [done..|apply Hsuf| |lia|lia]. intros E. rewrite E in Hdl. simpl in Hdl. lia.
  - apply orb_false_iff in Hfit as [_ HLr%Nat.leb_gt]. rewrite copy_bytes_part by (rewrite length_drop; lia).
    eexists. split; [done|]. destruct (copied_ok st dst (take room (drop opc_len src))) as [? ?]; [done|rewrite length_take; lia|done|].
    apply save_partial_ok; [done..|apply Hsuf].
Qed.

Lemma extract_below c lsb w : (0 ≤ lsb)%Z → (0 ≤ w)%Z → (0 ≤ extract c lsb w < 2 ^ w)%Z.
Proof. intros Hl Hw. rewrite extract_spec by done. apply Z.mod_pos_bound. lia. Qed.

(** The literal of an instruction with a match has two bits. *)
Lemma fields_small l opc src D opc_len L M D' : fields_of l opc src D = (opc_len, L, M, D') → 1 ≤ opc_len ∧ L ≤ 3.
Proof.
  pose proof (extract_below opc 6 2 ltac:(lia) ltac:(lia)). pose proof (extract_below opc 3 2 ltac:(lia) ltac:(lia)).
  destruct l; cbn [fields_of]; intros [= <- <- _ _]; lia.
Qed.

(** A match alone copies at the previous distance, if there was one. *)
Lemma match_only_ok st src dst M D k :
  next_ok st src dst D → 1 ≤ k < length src →
  (∃ o, copy_match st (drop k src) dst M D = Ok o ∧ outcome_ok src o) ∨
  (ld_d_prev start = 0 ∧ copy_match st (drop k src) dst M D = Err Undefined).
Proof.
  intros [Hst Hb Hr Hs Hm HD Hz] Hk. assert (drop k src `suffix_of` ld_src start) by (etrans; [apply drop_suffix_of|done]).
  assert (length (drop k src) = length src - k) as Hdl by apply length_drop.
  assert (drop k src ≠ []) as Hne by (intros E; rewrite E in Hdl; simpl in Hdl; lia).
  destruct (decide (D = 0)) as [->|HD0]; [|left; apply copy_match_ok; (done || lia)].
  unfold copy_match. rewrite andb_false_r.
  destruct (M <=? dst_len st dst).
  - destruct M as [|M]; [left|right]; [|by split; [auto|]]. cbn [match_bytes mbind result_bind].
    eexists. split; [done|]. split; [|lia]. split; (done || lia).
  - destruct (dst_len st dst) as [|r]; [left|right]; [|by split; [auto|]]. cbn [match_bytes mbind result_bind].
    eexists. split; [done|]. by apply save_partial_ok.
Qed.

Lemma opcode_step_ok st src dst D :
  next_ok st src dst D →
  (∃ o, opcode_step st src dst D = Ok o ∧ outcome_ok src o) ∨
  (ld_d_prev start = 0 ∧ opcode_step st src dst D = Err Undefined).
Proof.
  intros Hok. pose proof (UPDATE_GOOD_ok _ _ _ _ Hok) as Hgood. unfold opcode_step.
  destruct src as [|opc more] eqn:Hsrc; [by destruct (no_more _ _ _ _ Hok)|]. rewrite <-Hsrc in *. cbv zeta.
  set (good := UPDATE_GOOD st src dst D) in *. pose proof (no_state _ _ _ _ Hgood) as Hg.
  destruct (opc_label opc) eqn:Hl;
    try (destruct (fields_of _ _ _ _) as [[[opc_len L] M] D'] eqn:Hf; apply fields_small in Hf as [? ?]; left;
         destruct (Nat.leb_spec (length src) (opc_len + L)); [by eexists|]; by eapply copy_literal_and_match_ok).
  - destruct (Nat.leb_spec (length src) 1); [left; by eexists|]. by apply match_only_ok.
  - destruct (Nat.leb_spec (length src) 2); [left; by eexists|]. apply match_only_ok; [done|lia].
  - left. apply copy_literal_ok; [done|lia].
  - left. destruct (Nat.leb_spec (length src) 2); [by eexists|]. apply copy_literal_ok; [done|lia].
  - left. destruct (Nat.leb_spec (length src) 1); [by eexists|]. eexists. split; [done|].
    assert (length (drop 1 src) = length src - 1) as Hdl by apply length_drop. destruct Hgood. split; [|lia].
    split; try done; [etrans; [apply drop_suffix_of|done]|]. intros E. rewrite E in Hdl. simpl in Hdl. lia.
  - left. destruct (Nat.ltb_spec (length src) 8); [eexists; split; [done|]; apply Hok|]. eexists. split; [done|].
    destruct Hok as [[] ? ? ? ? ?]. split; cbn; try done; [etrans; [apply drop_suffix_of|done]|by etrans].
  - left. eexists. split; [done|]. apply Hok.
Qed.

Lemma decode_loop_ok fuel st src dst D :
  next_ok st src dst D → length src ≤ fuel →
  (∃ st', decode_loop fuel (Next st src dst D) = Ok st' ∧ state_ok st') ∨
  (ld_d_prev start = 0 ∧ decode_loop fuel (Next st src dst D) = Err Undefined).
Proof.
  revert st src dst D. induction fuel as [|fuel IH]; intros st src dst D Hok Hf.
  { exfalso. apply (no_more _ _ _ _ Hok). destruct src; [done|simpl in Hf; lia]. }
  cbn [decode_loop]. destruct (opcode_step_ok st src dst D Hok) as [([st'|st' src' dst' D'] & -> & Ho)|[Hz ->]];
    cbn [mbind result_bind outcome_ok] in *; [| |by right].
  - left. exists st'. by destruct fuel.
  - destruct Ho as [Ho Hlt]. apply IH; [done|lia].
Qed.

End Safety.

Lemma lzvn_decode_ok (st : lzvn_decoder_state) :
  ld_L st = 0 → ld_M st = 0 → length (ld_dst st) ≤ ld_dst_size st → ld_d_prev st ≤ length (ld_dst st) →
  (∃ st', lzvn_decode st = Ok st' ∧
     ld_dst st `prefix_of` ld_dst st' ∧ length (ld_dst st') ≤ ld_dst_size st ∧ ld_src st' `suffix_of` ld_src st ∧
     ld_d_prev st' ≤ length (ld_dst st')) ∨
  (ld_d_prev st = 0 ∧ lzvn_decode st = Err Undefined).
Proof.
  intros HL HM Hr HD. assert (state_ok st st) as Hst by (split; done). unfold lzvn_decode. rewrite HL, HM. cbn [Nat.eqb andb].
  destruct (_ || _) eqn:E; [left; exists st; by split_and!|]. apply orb_false_iff in E as [E%Nat.eqb_neq _]. cbn [mbind result_bind].
  destruct (decode_loop_ok st (length (ld_src st)) st (ld_src st) (ld_dst st) (ld_d_prev st)) as [(st' & -> & [])|?]; [|done| |by right].
  - split; try done. intros E'. by rewrite E' in E.
  - left. exists st'. by split_and!.
Qed.

(** ** Properties *)

(** C35: on arbitrary bytes, started between two instructions with a distance inside what
    has been written, the LZVN decoder ends, reads and writes inside its buffers, keeps
    what was written, and its distance stays inside the output; only when it is started
    without a distance it may meet a match that has none. *)
Theorem lzvn_decode_safe (st : lzvn_decoder_state) :
  ld_L st = 0 → ld_M st = 0 → length (ld_dst st) ≤ ld_dst_size st → ld_d_prev st ≤ length (ld_dst st) →
  (∃ st', lzvn_decode st = Ok st' ∧
     ld_dst st `prefix_of` ld_dst st' ∧ length (ld_dst st') ≤ ld_dst_size st ∧ ld_src st' `suffix_of` ld_src st ∧
     ld_d_prev st' ≤ length (ld_dst st')) ∨
  (ld_d_prev st = 0 ∧ lzvn_decode st = Err Undefined).
Proof. apply lzvn_decode_ok. Qed.

(** A match of ten bytes at the distance three behind "abc". *)
Definition after_abc : lzvn_decoder_state := mkLzvnDecoder [byte_of 250; byte_of 6] (bytes_of "abc") 20 0 0 0 3 false.

Lemma lzvn_decode_safe_witness :
  (∃ st', lzvn_decode after_abc = Ok st' ∧
     ld_dst after_abc `prefix_of` ld_dst st' ∧ length (ld_dst st') ≤ ld_dst_size after_abc ∧
     ld_src st' `suffix_of` ld_src after_abc ∧ ld_d_prev st' ≤ length (ld_dst st')) ∨
  (ld_d_prev after_abc = 0 ∧ lzvn_decode after_abc = Err Undefined).
Proof. apply (lzvn_decode_safe after_abc); [done|done|simpl; lia|simpl; lia]. Defined.

(** The exception: a block that begins with a match reads what was never written. *)
Example match_without_distance : lzvn_decode (mkLzvnDecoder [byte_of 241; byte_of 6] [] 20 0 0 0 0 false) = Err Undefined.
Proof. reflexivity. Qed.

End LzvnSafe.
Export LzvnSafe.
