(* ===== verification/Fse.v ===== *)
(** * third/lzfse/src/lzfse_fse.c, lzfse_fse.h: the finite state entropy coder

    Tables are built from normalised frequencies: symbol [i] owns [freq[i]] of the states.
    Encoding a symbol writes the low bits of the state and moves to a state of the symbol;
    decoding reads them back.  The encoder builds its tables in fresh memory: an entry of a
    symbol that does not occur is never written, and reading it is [Undefined].  The tables of
    the decoder are arrays that start out as zeros and are partly overwritten for each block. *)

From stdpp Require Import base list.
From Stdlib Require Import ZArith Lia.
From S2P Require Import Prelude CInt.
Local Open Scope Z_scope.

Module Fse.

(** ** Words *)

Definition to_u16 (z : Z) : Z := z mod 2 ^ 16.

(** [__builtin_clz] of a positive [int]. *)
Definition clz (x : Z) : Z := 31 - Z.log2 x.

(** [fse_mask_lsb64] with its table of 65 masks. *)
Definition fse_mask_lsb (x nbits : Z) : result Z :=
  if (0 <=? nbits) && (nbits <=? 64) then Ok (Z.land x (Z.ones nbits)) else Err Undefined.

(** A right shift by a negative count is undefined; what the machine makes of it is a
    parameter, which the encoder stores for a symbol that owns all states and does not
    use. *)
Class Machine := negative_shift : Z → Z → Z.

(** The shift of x86, which takes the count modulo the width of the word. *)
#[export] Instance x86 : Machine | 100 := λ x n, Z.shiftr x (n mod 32).

Definition shift_right `{Machine} (x n : Z) : Z := if n <? 0 then negative_shift x n else Z.shiftr x n.

(** ** Tables *)

Record fse_encoder_entry := mkEncoderEntry {
  s0 : Z;
  enc_k : Z;
  delta0 : Z;
  delta1 : Z;
}.

Record fse_decoder_entry := mkDecoderEntry {
  dec_k : Z;
  symbol : Z;
  delta : Z;
}.

Record fse_value_decoder_entry := mkValueEntry {
  total_bits : Z;
  value_bits : Z;
  vdelta : Z;
  vbase : Z;
}.

Section Tables.
Context (nstates : Z).

(** The shift that brings a frequency between [nstates] and twice as much. *)
Definition symbol_k (f : Z) : Z := clz f - clz nstates.

(** [fse_init_encoder_table]: one entry per symbol, none for a symbol without states. *)
Fixpoint encoder_entries `{Machine} (offset : Z) (freq : list Z) : list (option fse_encoder_entry) :=
  match freq with
  | [] => []
  | f :: freq =>
      if f =? 0 then None :: encoder_entries offset freq
      else
        let k := symbol_k f in
        Some (mkEncoderEntry (to_short (Z.shiftl f k - nstates)) (to_short k)
                (to_short (offset - f + shift_right nstates k)) (to_short (offset - f + shift_right nstates (k - 1))))
          :: encoder_entries (offset + f) freq
  end.
Definition fse_init_encoder_table `{Machine} (freq : list Z) : list (option fse_encoder_entry) := encoder_entries 0 freq.

(** [fse_check_freq] as the test it stands for: the frequencies fit the states. *)
Definition sum_of_freq (freq : list Z) : Z := foldr Z.add 0 freq.
Definition fse_check_freq (freq : list Z) : bool := sum_of_freq freq <=? nstates.

(** The entries of one symbol: the first [j0] of its states read one bit more. *)
Definition symbol_entry (i f j : Z) : fse_decoder_entry :=
  let k := symbol_k f in
  let j0 := Z.shiftr (2 * nstates) k - f in
  if j <? j0 then mkDecoderEntry k i (to_short (Z.shiftl (f + j) k - nstates))
  else mkDecoderEntry (k - 1) i (to_short (Z.shiftl (j - j0) (k - 1))).

Fixpoint decoder_entries (i : Z) (freq : list Z) : list fse_decoder_entry :=
  match freq with
  | [] => []
  | f :: freq => (symbol_entry i f <$> seqZ 0 f) ++ decoder_entries (i + 1) freq
  end.

(** Writing [new] from the start of an array on; the rest keeps what is there. *)
Definition fill {A} (old new : list A) : list A := new ++ drop (length new) old.

(** [fse_init_decoder_table] on the table [t], whose entries of states that no symbol owns
    stay as they are; with frequencies that fit, the return of [-1] is not taken. *)
Definition fse_init_decoder_table (freq : list Z) (t : list fse_decoder_entry) : result (list fse_decoder_entry) :=
  _ ← assert_ (Z.of_nat (length freq) <=? 256);
  _ ← assert_ (fse_check_freq freq);
  Ok (fill t (decoder_entries 0 freq)).

(** [fse_init_value_decoder_table]: the bits of the value are read with those of the state. *)
Definition value_entry (symbol_vbits symbol_vbase : list Z) (e : fse_decoder_entry) : fse_value_decoder_entry :=
  let vbits := default 0 (symbol_vbits !! Z.to_nat (symbol e)) in
  mkValueEntry (dec_k e + vbits) vbits (delta e) (default 0 (symbol_vbase !! Z.to_nat (symbol e))).

Definition fse_init_value_decoder_table (symbol_vbits symbol_vbase freq : list Z) (t : list fse_value_decoder_entry)
    : result (list fse_value_decoder_entry) :=
  _ ← assert_ (Z.of_nat (length freq) <=? 256);
  _ ← assert_ (fse_check_freq freq);
  Ok (fill t (value_entry symbol_vbits symbol_vbase <$> decoder_entries 0 freq)).

End Tables.

Lemma length_fill {A} (old new : list A) : (length new ≤ length old)%nat → length (fill old new) = length old.
Proof. intros H. unfold fill. rewrite length_app, length_drop. lia. Qed.

Lemma fill_all {A} (old new : list A) : length new = length old → fill old new = new.
Proof. intros H. unfold fill. by rewrite H, drop_all, app_nil_r. Qed.

Lemma Forall_fill {A} (P : A → Prop) old new : Forall P old → Forall P new → Forall P (fill old new).
Proof. intros Ho Hn. apply Forall_app. split; [done|by apply Forall_drop]. Qed.

(** ** Normalising *)

(** One pass of [fse_adjust_freqs] with its shift: states are taken from symbols that have
    more than one, until none is left over. *)
Fixpoint adjust_pass (shift : Z) (overrun : Z) (freq : list Z) : Z * list Z :=
  match freq with
  | [] => (overrun, [])
  | f :: freq =>
      if overrun =? 0 then (0, f :: freq)
      else
        let n := if 1 <? f then Z.min (Z.shiftr (f - 1) shift) overrun else 0 in
        let '(overrun, freq) := adjust_pass shift (overrun - n) freq in (overrun, f - n :: freq)
  end.

(** The passes with shifts 3, 2, 1 and 0; after them the shift would be negative. *)
Fixpoint adjust_passes (shifts : list Z) (overrun : Z) (freq : list Z) : result (list Z) :=
  if overrun =? 0 then Ok freq
  else
    match shifts with
    | [] => Err Undefined
    | shift :: shifts => let '(overrun, freq) := adjust_pass shift overrun freq in adjust_passes shifts overrun freq
    end.
Definition fse_adjust_freqs (freq : list Z) (overrun : Z) : result (list Z) := adjust_passes [3; 2; 1; 0] overrun freq.

(** The rescaled occurrence count of a symbol, on 32 bits. *)
Definition rescaled (highprec_step shift t : Z) : Z :=
  let f := Z.shiftr (Z.shiftr ((t * highprec_step) mod 2 ^ 32) shift + 1) 1 in
  if (f =? 0) && negb (t =? 0) then 1 else f.

(** The first symbol with the largest frequency, and that frequency. *)
Fixpoint max_freq (i : nat) (best : Z * nat) (freq : list Z) : Z * nat :=
  match freq with
  | [] => best
  | f :: freq => max_freq (S i) (if best.1 <? f then (f, i) else best) freq
  end.

Definition fse_normalize_freq (nstates : Z) (t : list Z) : result (list Z) :=
  let s_count := sum_of_freq t mod 2 ^ 32 in
  let highprec_step := if s_count =? 0 then 0 else Z.shiftl 1 31 / s_count in
  let shift := clz nstates - 1 in
  let freq := to_u16 ∘ rescaled highprec_step shift <$> t in
  let remaining := nstates - sum_of_freq (rescaled highprec_step shift <$> t) in
  let '(max_freq, max_freq_sym) := max_freq 0 (0, 0%nat) (rescaled highprec_step shift <$> t) in
  if - remaining <? Z.shiftr max_freq 2
  then Ok (alter (λ f, to_u16 (f + remaining)) max_freq_sym freq)
  else fse_adjust_freqs freq (- remaining).

(** ** Encoding and decoding one symbol *)

(** The bits of the state that encoding with an entry writes, and the next state. *)
Definition step_bits (e : fse_encoder_entry) (s : Z) : Z := if s0 e <=? s then enc_k e else enc_k e - 1.
Definition next_state (e : fse_encoder_entry) (s : Z) : Z :=
  to_u16 (to_u16 (if s0 e <=? s then delta0 e else delta1 e) + Z.shiftr s (step_bits e s)).

(** ** Frequencies and states *)

Lemma to_short_id z : -32768 ≤ z < 32768 → to_short z = z.
Proof. intros Hz. apply to_signed_id; [lia|]. simpl. lia. Qed.

Lemma to_u16_id z : 0 ≤ z < 65536 → to_u16 z = z.
Proof. intros Hz. unfold to_u16. apply Z.mod_small. lia. Qed.

(** Adding a signed 16-bit offset to a state on 16 bits. *)
Lemma to_u16_add d z : 0 ≤ d + z < 65536 → to_u16 (to_u16 d + z) = d + z.
Proof. intros Hz. unfold to_u16. rewrite Zplus_mod_idemp_l. by apply to_u16_id. Qed.

Section Symbol.
Context `{Machine} (n f offset : Z).
Let N := 2 ^ n.
Let k := symbol_k N f.
Hypothesis Hn : 0 ≤ n ≤ 10.
Hypothesis Hf : 0 < f ≤ N.
Hypothesis Ho : 0 ≤ offset ≤ N - f.

Lemma states_bound : 0 < N ≤ 1024.
Proof. unfold N. split; [by apply Z.pow_pos_nonneg; lia|]. change 1024 with (2 ^ 10). apply Z.pow_le_mono_r; lia. Qed.

Lemma symbol_k_spec : 0 ≤ k ≤ n ∧ N ≤ f * 2 ^ k < 2 * N.
Proof.
  unfold k, symbol_k, clz, N. rewrite Z.log2_pow2 by lia. pose proof (Z.log2_spec f ltac:(lia)) as [H1 H2].
  pose proof (Z.log2_nonneg f). assert (Z.log2 f ≤ n) as Hle.
  { rewrite <-(Z.log2_pow2 n) by lia. apply Z.log2_le_mono. unfold N in Hf. lia. }
  replace (31 - Z.log2 f - (31 - n)) with (n - Z.log2 f) by lia. split; [lia|].
  set (m := Z.log2 f) in *. assert (2 ^ n = 2 ^ m * 2 ^ (n - m)) as -> by (rewrite <-Z.pow_add_r by lia; f_equal; lia).
  assert (0 < 2 ^ (n - m)) by (apply Z.pow_pos_nonneg; lia). rewrite Z.pow_succ_r in H2 by lia. nia.
Qed.
Definition encoder_entry : fse_encoder_entry :=
  mkEncoderEntry (to_short (Z.shiftl f k - N)) (to_short k)
    (to_short (offset - f + shift_right N k)) (to_short (offset - f + shift_right N (k - 1))).

(** The states are divided by the width of the bits that are written. *)
Lemma states_divide w : 0 ≤ w ≤ n → N = 2 ^ w * (N / 2 ^ w).
Proof. intros Hw. apply Z_div_exact_full_2; [lia|]. apply Z.mod_divide; [lia|]. exists (2 ^ (n - w)). unfold N. rewrite <-Z.pow_add_r by lia. f_equal. lia. Qed.

(** What encoding with the entry of the symbol does to a state. *)
Lemma encoder_step s :
  0 ≤ s < N →
  let nbits := step_bits encoder_entry s in
  0 ≤ nbits ≤ n ∧ nbits = (if f * 2 ^ k - N <=? s then k else k - 1) ∧
  next_state encoder_entry s = offset - f + (N + s) / 2 ^ nbits ∧ f ≤ (N + s) / 2 ^ nbits < 2 * f.
Proof.
  intros Hs nbits. pose proof states_bound as HN. destruct symbol_k_spec as [Hk Hfk].
  assert (0 < 2 ^ k) as Hpk by (apply Z.pow_pos_nonneg; lia).
  assert (s0 encoder_entry = f * 2 ^ k - N) as Hs0.
  { unfold encoder_entry. cbn [s0]. rewrite Z.shiftl_mul_pow2 by lia. apply to_short_id. lia. }
  assert (nbits = (if f * 2 ^ k - N <=? s then k else k - 1)) as Hnb.
  { unfold nbits, step_bits. rewrite Hs0. unfold encoder_entry. cbn [enc_k]. by rewrite to_short_id by lia. }
  assert (0 ≤ nbits) as Hnb0.
  { rewrite Hnb. destruct (Z.leb_spec (f * 2 ^ k - N) s); [lia|]. destruct (Z.eq_dec k 0) as [E|]; [|lia]. rewrite E, Z.mul_1_r in *. lia. }
  assert (nbits ≤ n) as Hnbn by (rewrite Hnb; destruct (_ <=? _); lia).
  assert (0 < 2 ^ nbits) as Hp by (apply Z.pow_pos_nonneg; lia).
  assert (f ≤ (N + s) / 2 ^ nbits < 2 * f) as Hq.
  { split; [apply Z.div_le_lower_bound; [lia|]|apply Z.div_lt_upper_bound; [lia|]]; rewrite Hnb; destruct (Z.leb_spec (f * 2 ^ k - N) s); [lia| |lia|].
    - assert (2 ^ k = 2 * 2 ^ (k - 1)) by (rewrite <-Z.pow_succ_r by lia; f_equal; lia).
      assert (0 < 2 ^ (k - 1)) by (apply Z.pow_pos_nonneg; lia). nia.
    - assert (2 ^ k = 2 * 2 ^ (k - 1)) by (rewrite <-Z.pow_succ_r by lia; f_equal; lia). nia. }
  split_and!; [done..| |lia|lia]. unfold next_state. fold nbits. rewrite Hs0.
  assert ((if f * 2 ^ k - N <=? s then delta0 encoder_entry else delta1 encoder_entry) = offset - f + N / 2 ^ nbits) as ->.
  { pose proof (states_divide nbits ltac:(lia)) as Hd. pose proof (Z.div_le_mono N (N + s) (2 ^ nbits) Hp ltac:(lia)).
    assert (0 ≤ N / 2 ^ nbits) by (apply Z.div_pos; lia). unfold encoder_entry. cbn [delta0 delta1].
    destruct (_ <=? _); (rewrite <-Hnb; unfold shift_right; destruct (Z.ltb_spec nbits 0); [lia|]; rewrite Z.shiftr_div_pow2 by lia; apply to_short_id; lia). }
  rewrite Z.shiftr_div_pow2 by lia. pose proof (states_divide nbits ltac:(lia)) as Hd.
  assert ((N + s) / 2 ^ nbits = N / 2 ^ nbits + s / 2 ^ nbits) as Hsum.
  { rewrite Hd at 1. rewrite (Z.mul_comm (2 ^ nbits)). by rewrite Z.div_add_l by lia. }
  rewrite to_u16_add; lia.
Qed.

(** Decoding at the state that was reached gives the symbol and the state back. *)
Lemma decoder_step i s :
  0 ≤ s < N →
  let nbits := step_bits encoder_entry s in let s' := next_state encoder_entry s in
  0 ≤ nbits ≤ n ∧ offset ≤ s' < offset + f ∧
  symbol_entry N i f (s' - offset) = mkDecoderEntry nbits i (s - s mod 2 ^ nbits).
Proof.
  intros Hs nbits s'. destruct (encoder_step s Hs) as (Hnb & Hnbs & Hs' & Hq). fold nbits in Hnb, Hnbs, Hs', Hq. fold s' in Hs'.
  pose proof states_bound as HN. destruct symbol_k_spec as [Hk Hfk]. fold k in Hk, Hfk.
  split; [done|]. split; [lia|]. unfold symbol_entry. fold k. set (q := (N + s) / 2 ^ nbits) in *.
  replace (s' - offset) with (q - f) by lia. replace (f + (q - f)) with q by lia. rewrite Z.shiftr_div_pow2 by lia.
  assert (0 < 2 ^ nbits) as Hp by (apply Z.pow_pos_nonneg; lia).
  assert (N + s = 2 ^ nbits * q + s mod 2 ^ nbits) as Heq.
  { unfold q. rewrite (Z.div_mod (N + s) (2 ^ nbits)) at 1 by lia. f_equal.
    rewrite (states_divide nbits ltac:(lia)) at 1. rewrite (Z.mul_comm (2 ^ nbits)), Z.add_comm. by rewrite Z.mod_add by lia. }
  pose proof (Z.mod_pos_bound s (2 ^ nbits) Hp). pose proof (Z.mod_le s (2 ^ nbits) ltac:(lia) Hp). assert (0 < 2 ^ k) as Hpk by (apply Z.pow_pos_nonneg; lia).
  destruct (Z.leb_spec (f * 2 ^ k - N) s) as [Hhi|Hlo].
  - rewrite Hnbs in *. assert (q < 2 * N / 2 ^ k) as Hj.
    { apply (Z.mul_lt_mono_pos_l (2 ^ k)); [done|]. rewrite <-(Z_div_exact_full_2 (2 * N) (2 ^ k)); [lia|lia|].
      rewrite (states_divide k) by lia. rewrite Z.mul_assoc, (Z.mul_comm 2), <-Z.mul_assoc, Z.mul_comm. by apply Z.mod_mul; lia. }
    destruct (Z.ltb_spec (q - f) (2 * N / 2 ^ k - f)); [|lia]. rewrite Z.shiftl_mul_pow2 by lia. f_equal. rewrite to_short_id; lia.
  - assert (1 ≤ k) by lia. assert (2 ^ k = 2 * 2 ^ nbits) as Hpk2 by (rewrite Hnbs, <-Z.pow_succ_r by lia; f_equal; lia).
    assert (2 * N / 2 ^ k = N / 2 ^ nbits) as -> by (rewrite Hpk2; apply Z.div_mul_cancel_l; lia).
    pose proof (states_divide nbits ltac:(lia)) as Hd. assert (N / 2 ^ nbits ≤ q) by (apply Z.div_le_mono; lia).
    destruct (Z.ltb_spec (q - f) (N / 2 ^ nbits - f)); [lia|]. rewrite <-Hnbs, Z.shiftl_mul_pow2 by lia. f_equal. rewrite to_short_id; nia.
Qed.
End Symbol.

(** ** Looking up in the tables *)

Lemma sum_of_freq_app a b : sum_of_freq (a ++ b) = sum_of_freq a + sum_of_freq b.
Proof. unfold sum_of_freq. induction a as [|x a IH]; simpl; lia. Qed.

Lemma sum_of_freq_nonneg l : Forall (λ f, 0 ≤ f) l → 0 ≤ sum_of_freq l.
Proof. unfold sum_of_freq. induction 1; simpl; lia. Qed.

(** The first state of a symbol. *)
Definition first_state (freq : list Z) (i : nat) : Z := sum_of_freq (take i freq).

Lemma first_state_bounds freq i f :
  Forall (λ f, 0 ≤ f) freq → freq !! i = Some f → 0 ≤ first_state freq i ≤ sum_of_freq freq - f.
Proof.
  intros Hf Hi. unfold first_state. rewrite <-(take_drop_middle freq i f Hi) at 3. rewrite sum_of_freq_app.
  pose proof (sum_of_freq_nonneg _ (Forall_take _ i _ Hf)). pose proof (sum_of_freq_nonneg _ (Forall_drop _ (S i) _ Hf)).
  unfold sum_of_freq in *. simpl. lia.
Qed.

Lemma encoder_lookup `{Machine} n freq i f :
  freq !! i = Some f → f ≠ 0 →
  fse_init_encoder_table (2 ^ n) freq !! i = Some (Some (encoder_entry n f (first_state freq i))).
Proof.
  intros Hi Hf. unfold fse_init_encoder_table, first_state. change (sum_of_freq (take i freq)) with (0 + sum_of_freq (take i freq)).
  generalize 0 as offset. revert freq Hi. induction i as [|i IH]; intros [|f' freq] Hi offset; try done; cbn [encoder_entries].
  - injection Hi as ->. destruct (Z.eqb_spec f 0); [done|]. cbn [lookup list_lookup take sum_of_freq foldr]. by rewrite Z.add_0_r.
  - cbn [take]. change (sum_of_freq (f' :: take i freq)) with (f' + sum_of_freq (take i freq)). destruct (Z.eqb_spec f' 0) as [->|]; cbn [lookup list_lookup].
    + rewrite Z.add_0_l. by apply IH.
    + rewrite Z.add_assoc. by apply IH.
Qed.

Lemma length_decoder_entries N i freq :
  Forall (λ f, 0 ≤ f) freq → Z.of_nat (length (decoder_entries N i freq)) = sum_of_freq freq.
Proof.
  intros Hf. revert i. induction Hf as [|f freq Hf Hfs IH]; intros i; [done|]. cbn [decoder_entries]. rewrite length_app, length_fmap, length_seqZ.
  unfold sum_of_freq in *. simpl. specialize (IH (i + 1)). lia.
Qed.

Lemma decoder_lookup N freq i f j :
  Forall (λ f, 0 ≤ f) freq → freq !! i = Some f → 0 ≤ j < f →
  decoder_entries N 0 freq !! Z.to_nat (first_state freq i + j) = Some (symbol_entry N (Z.of_nat i) f j).
Proof.
  intros Hf Hi Hj. change (Z.of_nat i) with (0 + Z.of_nat i). unfold first_state. generalize 0 as i0.
  revert freq Hf Hi. induction i as [|i IH]; intros [|f' freq] Hf Hi i0; try done; cbn [decoder_entries take].
  - injection Hi as ->. change (sum_of_freq []) with 0. rewrite Z.add_0_l, Z.add_0_r, lookup_app_l by (rewrite length_fmap, length_seqZ; lia).
    rewrite list_lookup_fmap, (lookup_seqZ_lt 0 f) by lia. cbn. do 2 f_equal. lia.
  - inversion Hf as [|?? Hf' Hfs]; subst. change (sum_of_freq (f' :: take i freq)) with (f' + sum_of_freq (take i freq)).
    pose proof (sum_of_freq_nonneg _ (Forall_take _ i _ Hfs)).
    rewrite lookup_app_r by (rewrite length_fmap, length_seqZ; lia). rewrite length_fmap, length_seqZ.
    replace (Z.to_nat (f' + sum_of_freq (take i freq) + j) - Z.to_nat f')%nat with (Z.to_nat (sum_of_freq (take i freq) + j)) by lia.
    replace (i0 + Z.of_nat (S i)) with (i0 + 1 + Z.of_nat i) by lia. by apply IH.
Qed.

(** Frequencies that use all the states. *)
Record normalised (n : Z) (freq : list Z) : Prop := {
  freq_n : 0 ≤ n ≤ 10;
  freq_nonneg : Forall (λ f, 0 ≤ f) freq;
  freq_sum : sum_of_freq freq = 2 ^ n;
}.

(** Encoding a symbol that occurs, and decoding at the state that was reached. *)
Lemma symbol_step `{Machine} n freq i f s :
  normalised n freq → freq !! i = Some f → 0 < f → 0 ≤ s < 2 ^ n →
  ∃ e, fse_init_encoder_table (2 ^ n) freq !! i = Some (Some e) ∧ 0 ≤ step_bits e s ≤ n ∧ 0 ≤ next_state e s < 2 ^ n ∧
    decoder_entries (2 ^ n) 0 freq !! Z.to_nat (next_state e s)
    = Some (mkDecoderEntry (step_bits e s) (Z.of_nat i) (s - s mod 2 ^ step_bits e s)).
Proof.
  intros [Hn Hnn Hsum] Hi Hf Hs. pose proof (first_state_bounds freq i f Hnn Hi) as Ho. rewrite Hsum in Ho.
  eexists. split; [apply encoder_lookup; [done|lia]|].
  destruct (decoder_step n f (first_state freq i) Hn ltac:(lia) Ho (Z.of_nat i) s Hs) as (Hb & Hs' & He).
  split; [done|]. split; [lia|]. rewrite <-He, <-(decoder_lookup (2 ^ n) freq i f) by (done || lia). f_equal. f_equal. lia.
Qed.

End Fse.
Export Fse.
