(* ===== verification/FseNormalize.v ===== *)
(** * Normalised frequencies

    [fse_normalize_freq] ends without a negative shift and gives frequencies that use all
    the states, at least one for every symbol that occurs. *)

From stdpp Require Import base list.
From Stdlib Require Import ZArith Lia.
From S2P Require Import Prelude CInt Fse.
Local Open Scope Z_scope.

Module FseNormalize.

(** ** Rescaled counts *)

Lemma shiftr_le a b n : 0 ≤ n → a ≤ b → Z.shiftr a n ≤ Z.shiftr b n.
Proof. intros Hn Hab. rewrite !Z.shiftr_div_pow2 by done. apply Z.div_le_mono; [|done]. by apply Z.pow_pos_nonneg; lia. Qed.

Lemma rescaled_range n total t :
  0 ≤ n ≤ 10 → 0 ≤ t ≤ total → total < 2 ^ 32 →
  let f := rescaled (if total =? 0 then 0 else Z.shiftl 1 31 / total) (clz (2 ^ n) - 1) t in
  0 ≤ f ≤ 2 ^ n ∧ (0 < t → 0 < f).
Proof.
  intros Hn Ht Htot f. set (step := if total =? 0 then 0 else _) in f.
  assert (0 ≤ t * step ≤ 2 ^ 31) as Hp.
  { unfold step. destruct (Z.eqb_spec total 0); [lia|]. change (Z.shiftl 1 31) with (2 ^ 31).
    pose proof (Z.mul_div_le (2 ^ 31) total ltac:(lia)). assert (0 ≤ 2 ^ 31 / total) by (apply Z.div_pos; lia). nia. }
  assert (clz (2 ^ n) - 1 = 30 - n) as Hsh by (unfold clz; rewrite Z.log2_pow2 by lia; lia).
  assert (0 < 2 ^ n) by (apply Z.pow_pos_nonneg; lia).
  assert (0 ≤ Z.shiftr (Z.shiftr ((t * step) mod 2 ^ 32) (clz (2 ^ n) - 1) + 1) 1 ≤ 2 ^ n) as Hr.
  { rewrite Hsh, Z.mod_small by lia. split; [apply Z.shiftr_nonneg; assert (0 ≤ Z.shiftr (t * step) (30 - n)) by (apply Z.shiftr_nonneg; lia); lia|].
    pose proof (shiftr_le (t * step) (2 ^ 31) (30 - n) ltac:(lia) ltac:(lia)) as Hle.
    rewrite (Z.shiftr_div_pow2 (2 ^ 31)), <-Z.pow_sub_r in Hle by lia. replace (31 - (30 - n)) with (Z.succ n) in Hle by lia.
    rewrite Z.pow_succ_r in Hle by lia. pose proof (shiftr_le (Z.shiftr (t * step) (30 - n) + 1) (2 * 2 ^ n + 1) 1 ltac:(lia) ltac:(lia)) as Hle2.
    rewrite (Z.shiftr_div_pow2 (2 * 2 ^ n + 1)) in Hle2 by lia. change (2 ^ 1) with 2 in Hle2. assert ((2 * 2 ^ n + 1) / 2 = 2 ^ n) as Hh by (rewrite Z.mul_comm, Z.div_add_l by lia; change (1 / 2) with 0; lia). lia. }
  unfold f, rescaled. destruct (Z.eqb_spec (Z.shiftr (Z.shiftr ((t * step) mod 2 ^ 32) (clz (2 ^ n) - 1) + 1) 1) 0) as [E|E].
  - destruct (Z.eqb_spec t 0); cbn [negb andb]; lia.
  - cbn [andb]. lia.
Qed.

(** ** The largest frequency *)

Lemma max_freq_spec fs i m p :
  0 ≤ m → (m = 0 → p = 0%nat) →
  let r := max_freq i (m, p) fs in
  (r = (m, p) ∧ Forall (λ f, f ≤ m) fs) ∨ (0 < r.1 ∧ ∃ j, r.2 = (i + j)%nat ∧ fs !! j = Some r.1).
Proof.
  revert i m p. induction fs as [|f fs IH]; intros i m p Hm Hp; cbn [max_freq]; [left; split; [done|constructor]|].
  cbn [fst]. destruct (Z.ltb_spec m f) as [Hlt|Hge].
  - right. destruct (IH (S i) f i ltac:(lia) ltac:(lia)) as [[-> _]|(H1 & j & H2 & H3)].
    + split; [cbn; lia|]. exists 0%nat. split; [cbn; lia|done].
    + split; [done|]. exists (S j). split; [lia|done].
  - destruct (IH (S i) m p Hm Hp) as [[-> Hall]|(H1 & j & H2 & H3)].
    + left. split; [done|]. by constructor.
    + right. split; [done|]. exists (S j). split; [lia|done].
Qed.

Lemma sum_alter (g : Z → Z) i fs f : fs !! i = Some f → sum_of_freq (alter g i fs) = sum_of_freq fs - f + g f.
Proof.
  revert i. induction fs as [|x fs IH]; intros [|i] Hi; try done; cbn.
  - injection Hi as ->. unfold sum_of_freq. simpl. lia.
  - change (sum_of_freq (x :: alter g i fs)) with (x + sum_of_freq (alter g i fs)). rewrite IH by done.
    unfold sum_of_freq. simpl. lia.
Qed.

(** ** Taking states away *)

(** The frequencies after a pass: none has become smaller than one. *)
Definition keeps_states (freq freq' : list Z) : Prop := Forall2 (λ f f', 0 ≤ f' ≤ f ∧ (0 < f → 0 < f')) freq freq'.

Lemma keeps_states_refl freq : Forall (λ f, 0 ≤ f) freq → keeps_states freq freq.
Proof. unfold keeps_states. induction 1; constructor; [lia|done]. Qed.

Lemma adjust_pass_spec shift overrun freq r freq' :
  0 ≤ shift → 0 ≤ overrun → Forall (λ f, 0 ≤ f) freq → adjust_pass shift overrun freq = (r, freq') →
  0 ≤ r ∧ sum_of_freq freq' = sum_of_freq freq - (overrun - r) ∧ keeps_states freq freq' ∧
  (shift = 0 → r = 0 ∨ Forall (λ f, f ≤ 1) freq').
Proof.
  intros Hs Ho Hf. revert overrun r freq' Ho. induction Hf as [|f freq Hf Hfs IH]; intros overrun r freq' Ho; cbn [adjust_pass].
  { intros [= <- <-]. split_and!; [done|lia|constructor|]. intros _. right. constructor. }
  destruct (Z.eqb_spec overrun 0) as [->|Hne].
  { intros [= <- <-]. split_and!; [done|lia|apply keeps_states_refl; by constructor|]. intros _. by left. }
  set (n := if 1 <? f then _ else 0). assert (0 ≤ n ≤ overrun ∧ n ≤ Z.max 0 (f - 1) ∧ (shift = 0 → n = overrun ∨ f - n ≤ 1)) as (Hn & Hnf & Hn0).
  { unfold n. destruct (Z.ltb_spec 1 f); [|lia]. rewrite Z.shiftr_div_pow2 by done.
    assert (0 < 2 ^ shift) by (apply Z.pow_pos_nonneg; lia). assert (0 ≤ (f - 1) / 2 ^ shift) by (apply Z.div_pos; lia).
    pose proof (Z.div_le_upper_bound (f - 1) (2 ^ shift) (f - 1) ltac:(lia) ltac:(nia)). split; [lia|]. split; [lia|].
    intros ->. change (2 ^ 0) with 1. rewrite Z.div_1_r. lia. }
  destruct (adjust_pass shift (overrun - n) freq) as [r1 freq1] eqn:E. intros [= <- <-].
  destruct (IH (overrun - n) r1 freq1 ltac:(lia) E) as (H1 & H2 & H3 & H4). split_and!; [done| | |].
  - change (sum_of_freq ((f - n) :: freq1)) with (f - n + sum_of_freq freq1). unfold sum_of_freq at 2. simpl. fold (sum_of_freq freq). lia.
  - constructor; [lia|done].
  - intros Hz. destruct (H4 Hz) as [->|Hall]; [by left|]. destruct (Hn0 Hz) as [Hno|Hno].
    + left. replace (overrun - n) with 0 in E by lia. destruct freq; cbn in E; by injection E.
    + right. constructor; [lia|done].
Qed.

Lemma keeps_states_trans a b c : keeps_states a b → keeps_states b c → keeps_states a c.
Proof.
  unfold keeps_states. intros Hab. revert c. induction Hab as [|x y a b Hxy Hab IH]; intros c Hbc; inversion Hbc; subst; constructor; [lia|by apply IH].
Qed.

Lemma keeps_states_nonneg a b : keeps_states a b → Forall (λ f, 0 ≤ f) b.
Proof. unfold keeps_states. induction 1; constructor; [lia|done]. Qed.

Lemma sum_ones freq : Forall (λ f, f ≤ 1) freq → sum_of_freq freq ≤ Z.of_nat (length freq).
Proof. unfold sum_of_freq. induction 1; simpl; lia. Qed.

(** The passes end with all the surplus taken away, if the symbols fit the states. *)
Lemma adjust_freqs_spec N freq overrun :
  Forall (λ f, 0 ≤ f) freq → 0 ≤ overrun → sum_of_freq freq = N + overrun → Z.of_nat (length freq) ≤ N →
  ∃ freq', fse_adjust_freqs freq overrun = Ok freq' ∧ keeps_states freq freq' ∧ sum_of_freq freq' = N.
Proof.
  intros Hf Ho Hsum Hlen. unfold fse_adjust_freqs.
  assert (∀ shifts, last shifts = Some 0 → Forall (λ s, 0 ≤ s) shifts →
    ∃ freq', adjust_passes shifts overrun freq = Ok freq' ∧ keeps_states freq freq' ∧ sum_of_freq freq' = N) as Hall.
  { intros shifts. revert freq overrun Hf Ho Hsum Hlen. induction shifts as [|shift shifts IH]; intros freq overrun Hf Ho Hsum Hlen Hlast Hsh; [done|].
    cbn [adjust_passes]. destruct (Z.eqb_spec overrun 0) as [->|].
    { exists freq. split_and!; [done|by apply keeps_states_refl|lia]. }
    inversion Hsh as [|?? H0 Hsh']; subst. destruct (adjust_pass shift overrun freq) as [r freq1] eqn:E.
    destruct (adjust_pass_spec shift overrun freq r freq1 H0 Ho Hf E) as (Hr & Hs1 & Hk & Hz).
    pose proof (Forall2_length _ _ _ Hk) as Hlen1. destruct (decide (shifts = [])) as [->|Hne].
    - injection Hlast as ->. assert (r = 0) as ->.
      { destruct (Hz eq_refl) as [|Hones]; [done|]. pose proof (sum_ones _ Hones). lia. }
      cbn [adjust_passes]. exists freq1. split_and!; [done|done|lia].
    - destruct (IH freq1 r) as (freq' & H1 & H2 & H3); [by eapply keeps_states_nonneg|done|lia|lia|by destruct shifts|done|].
      exists freq'. split_and!; [done|by eapply keeps_states_trans|done]. }
  apply Hall; [done|]. repeat (constructor; [lia|]). constructor.
Qed.

(** ** Normalising *)

(** Raising one frequency, or lowering it by less than itself. *)
Lemma alter_normalised n fs i m r :
  0 ≤ n ≤ 10 → Forall (λ f, 0 ≤ f) fs → fs !! i = Some m → r = 2 ^ n - sum_of_freq fs → 0 < m + r →
  normalised n (alter (λ f, to_u16 (f + r)) i fs) ∧
  ∀ j f, fs !! j = Some f → 0 < f → ∃ f', alter (λ f, to_u16 (f + r)) i fs !! j = Some f' ∧ 0 < f'.
Proof.
  intros Hn Hf Hi Hr Hm. pose proof (first_state_bounds fs i m Hf Hi) as Hb.
  assert (2 ^ n ≤ 2 ^ 10) by (apply Z.pow_le_mono_r; lia). change (2 ^ 10) with 1024 in *.
  assert (to_u16 (m + r) = m + r) as Hu by (apply to_u16_id; lia). split.
  - split; [done| |by rewrite (sum_alter _ _ _ _ Hi), Hu; lia]. apply Forall_lookup. intros j f Hj.
    destruct (decide (i = j)) as [<-|Hij].
    + rewrite list_lookup_alter_eq, Hi in Hj. change (Some (to_u16 (m + r)) = Some f) in Hj. injection Hj as <-. lia.
    + rewrite list_lookup_alter_ne in Hj by done. by eapply Forall_lookup in Hf.
  - intros j f Hj Hp. destruct (decide (i = j)) as [<-|Hij].
    + exists (m + r). rewrite list_lookup_alter_eq, Hi. simpl. by rewrite Hu.
    + exists f. by rewrite list_lookup_alter_ne.
Qed.

Lemma fse_normalize_freq_spec n t :
  0 ≤ n ≤ 10 → Forall (λ c, 0 ≤ c) t → sum_of_freq t < 2 ^ 32 → t ≠ [] → Z.of_nat (length t) ≤ 2 ^ n →
  ∃ freq, fse_normalize_freq (2 ^ n) t = Ok freq ∧ length freq = length t ∧ normalised n freq ∧
    ∀ i c, t !! i = Some c → 0 < c → ∃ f, freq !! i = Some f ∧ 0 < f.
Proof.
  intros Hn Ht Hsum Hne Hlen. unfold fse_normalize_freq. pose proof (sum_of_freq_nonneg t Ht). rewrite Z.mod_small by lia.
  set (resc := rescaled _ _). assert (∀ i c, t !! i = Some c → 0 ≤ resc c ≤ 2 ^ n ∧ (0 < c → 0 < resc c)) as Hresc.
  { intros i c Hi. pose proof (first_state_bounds t i c Ht Hi). pose proof (proj1 (Forall_lookup _ _) Ht i c Hi) as Hc. cbn in Hc. apply rescaled_range; [done|lia|done]. }
  assert (to_u16 ∘ resc <$> t = resc <$> t) as ->.
  { apply list_eq. intros i. rewrite !list_lookup_fmap. destruct (t !! i) as [c|] eqn:Hi; [|done]. simpl. f_equal.
    destruct (Hresc i c Hi) as [Hr _]. assert (2 ^ n ≤ 2 ^ 10) by (apply Z.pow_le_mono_r; lia). change (2 ^ 10) with 1024 in *. apply to_u16_id. lia. }
  set (fs := resc <$> t). assert (Forall (λ f, 0 ≤ f) fs) as Hfs.
  { apply Forall_lookup. intros i f Hi. unfold fs in Hi. rewrite list_lookup_fmap in Hi. apply fmap_Some in Hi as (c & Hc & ->). destruct (Hresc i c Hc). cbn. lia. }
  assert (∀ i c, t !! i = Some c → 0 < c → ∃ f, fs !! i = Some f ∧ 0 < f) as Hpos.
  { intros i c Hi Hc. exists (resc c). unfold fs. rewrite list_lookup_fmap, Hi. split; [done|]. by apply (Hresc i c Hi). }
  assert (length fs = length t) as Hl by apply length_fmap.
  destruct (max_freq 0 (0, 0%nat) fs) as [m p] eqn:Em.
  pose proof (max_freq_spec fs 0 0 0%nat ltac:(lia) ltac:(done)) as Hmax. rewrite Em in Hmax. cbn [fst snd] in Hmax.
  assert (0 < 2 ^ n) by (apply Z.pow_pos_nonneg; lia). pose proof (Z.shiftr_div_pow2 m 2 ltac:(lia)) as Hsh. change (2 ^ 2) with 4 in Hsh.
  destruct (Z.ltb_spec (- (2 ^ n - sum_of_freq fs)) (Z.shiftr m 2)) as [Hlt|Hge].
  - assert (fs !! p = Some m) as Hp.
    { destruct Hmax as [[[= -> ->] Hall]|(_ & j & -> & Hj)]; [|done]. destruct fs as [|f fs']; [by destruct t|].
      inversion Hall; inversion Hfs; subst. simpl. f_equal. lia. }
    destruct (alter_normalised n fs p m (2 ^ n - sum_of_freq fs)) as [Hnorm Hk]; [done..| |].
    { rewrite Hsh in Hlt. destruct Hmax as [[[= -> ->] _]|(Hm & _)]; [change (0 / 4) with 0 in Hlt; lia|]. pose proof (Z.div_lt m 4 Hm ltac:(lia)). lia. }
    eexists. split; [done|]. split; [by rewrite length_alter|]. split; [done|].
    intros i c Hi Hc. destruct (Hpos i c Hi Hc) as (f & Hf & Hf0). by eapply Hk.
  - assert (0 ≤ Z.shiftr m 2) as Hm0.
    { apply Z.shiftr_nonneg. destruct Hmax as [[[= -> _] _]|(Hm & _)]; lia. }
    destruct (adjust_freqs_spec (2 ^ n) fs (- (2 ^ n - sum_of_freq fs))) as (freq & He & Hk & Hs); [done|lia|lia|lia|].
    exists freq. split; [done|]. pose proof (Forall2_length _ _ _ Hk). split; [lia|]. split; [split; [done|by eapply keeps_states_nonneg|done]|].
    intros i c Hi Hc. destruct (Hpos i c Hi Hc) as (f & Hf & Hf0). destruct (Forall2_lookup_l _ _ _ _ _ Hk Hf) as (f' & Hf' & _ & Hp'). eauto.
Qed.

(** ** Properties *)

(** C29: occurrence counts of at most [2 ^ n] symbols, with a sum of less than [2 ^ 32], are
    scaled to frequencies that share out exactly the [2 ^ n] states, and every symbol that
    occurs gets at least one. *)
Theorem frequencies_share_states (n : Z) (t : list Z) :
  0 ≤ n ≤ 10 → Forall (λ c, 0 ≤ c) t → sum_of_freq t < 2 ^ 32 → t ≠ [] → Z.of_nat (length t) ≤ 2 ^ n →
  ∃ freq, fse_normalize_freq (2 ^ n) t = Ok freq ∧ length freq = length t ∧ Forall (λ f, 0 ≤ f) freq ∧ sum_of_freq freq = 2 ^ n ∧
    ∀ i c, t !! i = Some c → 0 < c → ∃ f, freq !! i = Some f ∧ 0 < f.
Proof.
  intros Hn Ht Hsum Hne Hlen. destruct (fse_normalize_freq_spec n t Hn Ht Hsum Hne Hlen) as (freq & He & Hl & [_ Hf Hs] & Hp). by exists freq.
Qed.

(** One symbol among three occurs almost always. *)
Lemma frequencies_share_states_witness :
  ∃ freq, fse_normalize_freq (2 ^ 6) [1; 100000; 1] = Ok freq ∧ length freq = 3%nat ∧ Forall (λ f, 0 ≤ f) freq ∧ sum_of_freq freq = 2 ^ 6 ∧
    ∀ i c, [1; 100000; 1] !! i = Some c → 0 < c → ∃ f, freq !! i = Some f ∧ 0 < f.
Proof. apply (frequencies_share_states 6 [1; 100000; 1]); [lia|by repeat constructor|done..]. Defined.

End FseNormalize.
Export FseNormalize.
