(* ===== verification/FseStream.v ===== *)
(** * Streams of the finite state entropy coder

    [FseStream]: streams as stacks of bits.  [FseCoder]: a symbol that is written and read. *)

From stdpp Require Import base list strings.
From Stdlib Require Import Ascii ZArith Lia.
From S2P Require Import Prelude CInt Buffer Fse.
Local Open Scope Z_scope.

(** * third/lzfse/src/lzfse_fse.h: bit streams and the coder on them

    The encoder pushes bits above the ones it has, and moves whole bytes out of its
    accumulator; the decoder pulls bits from the top, and reads bytes backwards from the
    end.  Together they work as a stack of bits, which the lemmas make precise.  [mem] is
    the whole source, [buf] the destination up to the pointer, [dst_size] its capacity;
    the wide stores write into the room behind [buf]. *)

Module FseStream.

(** ** Output *)

Record fse_out_stream := mkOut {
  out_accum : Z;
  out_nbits : Z;
}.

Definition fse_out_init : fse_out_stream := mkOut 0 0.

(** Storing the eight bytes of the accumulator, of which [nbits] count. *)
Definition store_accum (dst_size : Z) (accum nbits : Z) (buf : bytes) : result bytes :=
  if dst_size <? size buf + 8 then Err Undefined else Ok (buf ++ take (Z.to_nat (Z.shiftr nbits 3)) (le_bytes 8 accum)).

Definition fse_out_flush (dst_size : Z) (s : fse_out_stream) (buf : bytes) : result (fse_out_stream * bytes) :=
  let nbits := Z.land (out_nbits s) (-8) in
  buf ← store_accum dst_size (out_accum s) nbits buf;
  if 64 <=? nbits then Err Undefined
  else
    let s := mkOut (Z.shiftr (out_accum s) nbits) (out_nbits s - nbits) in
    _ ← assert_ ((0 <=? out_nbits s) && (out_nbits s <=? 7));
    _ ← assert_ ((out_nbits s =? 64) || (Z.shiftr (out_accum s) (out_nbits s) =? 0));
    Ok (s, buf).

Definition fse_out_finish (dst_size : Z) (s : fse_out_stream) (buf : bytes) : result (fse_out_stream * bytes) :=
  let nbits := Z.land (out_nbits s + 7) (-8) in
  buf ← store_accum dst_size (out_accum s) nbits buf;
  let s := mkOut 0 (out_nbits s - nbits) in
  _ ← assert_ ((-7 <=? out_nbits s) && (out_nbits s <=? 0));
  Ok (s, buf).

Definition fse_out_push (s : fse_out_stream) (n b : Z) : result fse_out_stream :=
  if (out_nbits s <? 0) || (64 <=? out_nbits s) then Err Undefined
  else
    let accum := Z.lor (out_accum s) (Z.shiftl b (out_nbits s) mod 2 ^ 64) in
    let accum_nbits := out_nbits s + n in
    _ ← assert_ ((0 <=? accum_nbits) && (accum_nbits <=? 64));
    _ ← assert_ ((accum_nbits =? 64) || (Z.shiftr accum accum_nbits =? 0));
    Ok (mkOut accum accum_nbits).

(** ** Input *)

Record fse_in_stream := mkIn {
  in_accum : Z;
  in_nbits : Z;
}.

(** [fse_in_checked_init64]; [None] for the return of -1, else the stream and [pbuf]. *)
Definition fse_in_checked_init (mem : bytes) (n pbuf buf_start : Z) : result (option (fse_in_stream * Z)) :=
  let checked (s : fse_in_stream) (pbuf : Z) :=
    if (in_nbits s <? 56) || (64 <=? in_nbits s) || negb (Z.shiftr (in_accum s) (in_nbits s) =? 0) then None
    else Some (s, pbuf) in
  if negb (n =? 0) then
    if pbuf <? buf_start + 8 then Ok None
    else accum ← load mem (pbuf - 8) 8; Ok (checked (mkIn (le_val accum) (n + 64)) (pbuf - 8))
  else
    if pbuf <? buf_start + 7 then Ok None
    else accum ← load mem (pbuf - 7) 7; Ok (checked (mkIn (le_val accum) (n + 56)) (pbuf - 7)).

Definition fse_in_checked_flush (mem : bytes) (s : fse_in_stream) (pbuf buf_start : Z) : result (option (fse_in_stream * Z)) :=
  let nbits := Z.land (63 - in_nbits s) (-8) in
  let buf := pbuf - Z.shiftr nbits 3 in
  if buf <? buf_start then Ok None
  else
    incoming ← load8 mem buf;
    low ← fse_mask_lsb incoming nbits;
    let s := mkIn (Z.lor (Z.shiftl (in_accum s) nbits mod 2 ^ 64) low) (in_nbits s + nbits) in
    _ ← assert_ ((56 <=? in_nbits s) && (in_nbits s <? 64));
    _ ← assert_ (Z.shiftr (in_accum s) (in_nbits s) =? 0);
    Ok (Some (s, buf)).

Definition fse_in_pull (s : fse_in_stream) (n : Z) : result (Z * fse_in_stream) :=
  _ ← assert_ ((0 <=? n) && (n <=? in_nbits s));
  let nbits := in_nbits s - n in
  accum ← fse_mask_lsb (in_accum s) nbits;
  Ok (Z.shiftr (in_accum s) nbits, mkIn accum nbits).

(** ** Symbols *)

(** The entry of a symbol; one that was never written is indeterminate. *)
Definition encoder_at (t : list (option fse_encoder_entry)) (symbol : Z) : result fse_encoder_entry :=
  match t !! Z.to_nat symbol with Some (Some e) => Ok e | _ => Err Undefined end.

Definition fse_encode (t : list (option fse_encoder_entry)) (state : Z) (out : fse_out_stream) (symbol : Z)
    : result (Z * fse_out_stream) :=
  e ← encoder_at t symbol;
  let hi := s0 e <=? state in
  let nbits := if hi then enc_k e else enc_k e - 1 in
  let delta := to_u16 (if hi then delta0 e else delta1 e) in
  b ← fse_mask_lsb state nbits;
  out ← fse_out_push out nbits b;
  Ok (to_u16 (delta + Z.shiftr state nbits), out).

(** The table is the whole array of the decoder, what earlier blocks left in it included:
    only a state outside of it has no entry. *)
Definition fse_decode (t : list fse_decoder_entry) (state : Z) (s : fse_in_stream) : result (Z * Z * fse_in_stream) :=
  e ← vec_at t (Z.to_nat state);
  '(b, s) ← fse_in_pull s (dec_k e);
  Ok (symbol e, to_u16 (to_u16 (delta e) + to_u16 b), s).

Definition fse_value_decode (t : list fse_value_decoder_entry) (state : Z) (s : fse_in_stream) : result (Z * Z * fse_in_stream) :=
  entry ← vec_at t (Z.to_nat state);
  '(b, s) ← fse_in_pull s (total_bits entry);
  let state_and_value_bits := b mod 2 ^ 32 in
  low ← fse_mask_lsb state_and_value_bits (value_bits entry);
  Ok (to_int (vbase entry + low), to_u16 (vdelta entry + Z.shiftr state_and_value_bits (value_bits entry)), s).

(** ** Stacks of bits *)

(** The bits as a number, the last ones on top, and how many there are. *)
Record stack := mkStack {
  bits_val : Z;
  bits_len : Z;
}.

Definition stack_ok (st : stack) : Prop := 0 ≤ bits_len st ∧ 0 ≤ bits_val st < 2 ^ bits_len st.

Definition push (st : stack) (n b : Z) : stack := mkStack (bits_val st + b * 2 ^ bits_len st) (bits_len st + n).
Definition pop (st : stack) (n : Z) : Z * stack :=
  (bits_val st / 2 ^ (bits_len st - n), mkStack (bits_val st mod 2 ^ (bits_len st - n)) (bits_len st - n)).

(** The stack on top of the bytes before it. *)
Definition above (before : bytes) (st : stack) : stack :=
  mkStack (le_val before + bits_val st * 2 ^ (8 * size before)) (8 * size before + bits_len st).

Lemma pow2_pos n : 0 ≤ n → 0 < 2 ^ n.
Proof. intros Hn. by apply Z.pow_pos_nonneg; lia. Qed.

Lemma bytes_pow (b : bytes) : 256 ^ Z.of_nat (length b) = 2 ^ (8 * size b).
Proof. unfold size. change 256 with (2 ^ 8). by rewrite <-Z.pow_mul_r by lia. Qed.

Lemma push_ok st n b : stack_ok st → 0 ≤ n → 0 ≤ b < 2 ^ n → stack_ok (push st n b).
Proof.
  intros [Hl Hv] Hn Hb. pose proof (pow2_pos _ Hl). split; cbn; [lia|]. rewrite Z.pow_add_r by lia. nia.
Qed.

Lemma pop_push st n b : stack_ok st → pop (push st n b) n = (b, st).
Proof.
  intros [Hl Hv]. pose proof (pow2_pos _ Hl). destruct st as [v l]. unfold pop, push. cbn in *. rewrite Z.add_simpl_r.
  rewrite Z.div_add, Z.mod_add, Z.div_small, Z.mod_small by lia. done.
Qed.

Lemma push_push st n1 b1 n2 b2 : 0 ≤ bits_len st → 0 ≤ n1 → push (push st n1 b1) n2 b2 = push st (n1 + n2) (b1 + b2 * 2 ^ n1).
Proof. intros Hl Hn. unfold push. cbn. f_equal; [|lia]. rewrite Z.pow_add_r by done. lia. Qed.

Lemma above_push before st n b : 0 ≤ bits_len st → push (above before st) n b = above before (push st n b).
Proof.
  intros Hl. unfold push, above. cbn. f_equal; [|lia]. assert (0 ≤ size before) by (unfold size; lia). rewrite Z.pow_add_r by lia. lia.
Qed.

Lemma above_ok before st : stack_ok st → stack_ok (above before st).
Proof.
  intros [Hl Hv]. pose proof (le_val_range before) as Hb. rewrite bytes_pow in Hb. assert (0 ≤ size before) by (unfold size; lia).
  split; cbn; [lia|]. rewrite Z.pow_add_r by lia. nia.
Qed.

Lemma div_8 x : 8 * (x / 8) ≤ x < 8 * (x / 8) + 8.
Proof. pose proof (Z.div_mod x 8 ltac:(lia)). pose proof (Z.mod_pos_bound x 8 ltac:(lia)). lia. Qed.

Lemma mask_ok x n : 0 ≤ n ≤ 64 → fse_mask_lsb x n = Ok (x mod 2 ^ n).
Proof.
  intros Hn. unfold fse_mask_lsb. destruct (Z.leb_spec 0 n), (Z.leb_spec n 64); try lia. cbn [andb]. by rewrite Z.land_ones by lia.
Qed.

(** Rounding down to a multiple of eight. *)
Lemma land_minus_8 x : Z.land x (-8) = 8 * (x / 8).
Proof. change (-8) with (Z.lnot (Z.ones 3)). rewrite <-Z.ldiff_land, Z.ldiff_ones_r, Z.shiftl_mul_pow2, Z.shiftr_div_pow2 by lia. change (2 ^ 3) with 8. lia. Qed.

(** ** The output stream is a stack *)

(** The bytes behind [base] and the accumulator hold the bits. *)
Record out_is (base : bytes) (s : fse_out_stream) (buf : bytes) (st : stack) : Prop := {
  out_bytes : ∃ w, buf = base ++ w ∧ bits_val st = le_val w + out_accum s * 2 ^ (8 * size w) ∧ bits_len st = 8 * size w + out_nbits s;
  out_range : 0 ≤ out_nbits s ≤ 64 ∧ 0 ≤ out_accum s < 2 ^ out_nbits s;
}.

Lemma out_is_ok base s buf st : out_is base s buf st → stack_ok st.
Proof.
  intros [(w & -> & Hv & Hl) [Hn Ha]]. pose proof (le_val_range w) as Hw. rewrite bytes_pow in Hw. assert (0 ≤ size w) by (unfold size; lia).
  split; [lia|]. rewrite Hv, Hl, Z.pow_add_r by lia. nia.
Qed.

Lemma out_init_is base : out_is base fse_out_init base (mkStack 0 0).
Proof. split; [|cbn; lia]. exists []. by rewrite app_nil_r. Qed.

Lemma push_is base s buf st n b :
  out_is base s buf st → out_nbits s < 64 → 0 ≤ n → out_nbits s + n ≤ 64 → 0 ≤ b < 2 ^ n →
  ∃ s', fse_out_push s n b = Ok s' ∧ out_is base s' buf (push st n b) ∧ out_nbits s' = out_nbits s + n.
Proof.
  intros [(w & Hbuf & Hv & Hl) [Hn Ha]] Hlt Hn0 Hle Hb. unfold fse_out_push.
  destruct (Z.ltb_spec (out_nbits s) 0); [lia|]. destruct (Z.leb_spec 64 (out_nbits s)); [lia|]. cbn [orb].
  pose proof (pow2_pos (out_nbits s) ltac:(lia)). pose proof (pow2_pos n Hn0).
  assert (b * 2 ^ out_nbits s < 2 ^ (out_nbits s + n)) as Hbig by (rewrite Z.pow_add_r by lia; nia).
  assert (2 ^ (out_nbits s + n) ≤ 2 ^ 64) by (apply Z.pow_le_mono_r; lia).
  rewrite Z.shiftl_mul_pow2, Z.mod_small by nia. rewrite <-Z.shiftl_mul_pow2, Z.lor_comm, lor_join by lia.
  assert (b * 2 ^ out_nbits s + out_accum s < 2 ^ (out_nbits s + n)) as Hacc by (rewrite Z.pow_add_r by lia; nia).
  destruct (Z.leb_spec 0 (out_nbits s + n)), (Z.leb_spec (out_nbits s + n) 64); try lia. cbn [andb assert_ mbind result_bind].
  rewrite (proj2 (Z.eqb_eq (Z.shiftr _ _) 0)), orb_true_r by (rewrite Z.shiftr_div_pow2 by lia; apply Z.div_small; nia).
  eexists. split; [done|]. split; [|done]. split; [|cbn; nia]. exists w. cbn. split_and!; [done| |lia].
  assert (0 ≤ size w) by (unfold size; lia). rewrite Hv, Hl, Z.pow_add_r by lia. lia.
Qed.

Lemma take_le_bytes_val n v k : (k ≤ n)%nat → le_val (take k (le_bytes n v)) = v mod 2 ^ (8 * Z.of_nat k).
Proof.
  intros Hk. rewrite le_val_take, le_val_bytes by (by rewrite length_le_bytes). change 256 with (2 ^ 8). rewrite <-!Z.pow_mul_r by lia.
  apply Z.mod_mod_divide. exists (2 ^ (8 * Z.of_nat n - 8 * Z.of_nat k)). rewrite <-Z.pow_add_r by lia. f_equal. lia.
Qed.

(** Moving whole bytes to the buffer. *)
Lemma store_is base s buf st dst_size m :
  out_is base s buf st → 0 ≤ m → (m ≤ 8)%Z → size buf + 8 ≤ dst_size →
  ∃ w, buf = base ++ w ∧ store_accum dst_size (out_accum s) (8 * m) buf = Ok (base ++ w ++ take (Z.to_nat m) (le_bytes 8 (out_accum s))) ∧
    size (take (Z.to_nat m) (le_bytes 8 (out_accum s))) = m ∧
    le_val (w ++ take (Z.to_nat m) (le_bytes 8 (out_accum s))) = le_val w + out_accum s mod 2 ^ (8 * m) * 2 ^ (8 * size w) ∧
    bits_val st = le_val w + out_accum s * 2 ^ (8 * size w) ∧ bits_len st = 8 * size w + out_nbits s.
Proof.
  intros [(w & -> & Hv & Hl) _] Hm Hm8 Hroom. exists w. split; [done|]. unfold store_accum.
  destruct (Z.ltb_spec dst_size (size (base ++ w) + 8)); [lia|]. rewrite Z.shiftr_div_pow2 by lia. change (2 ^ 3) with 8.
  rewrite (Z.mul_comm 8), Z.div_mul, (Z.mul_comm m) by lia. rewrite <-app_assoc. split_and!; [done| | |done|done].
  - unfold size. rewrite length_take, length_le_bytes. lia.
  - rewrite le_val_app, bytes_pow, take_le_bytes_val by lia. rewrite Z2Nat.id by lia. lia.
Qed.

Lemma flush_is base s buf st dst_size :
  out_is base s buf st → out_nbits s < 64 → size buf + 8 ≤ dst_size →
  ∃ s' buf', fse_out_flush dst_size s buf = Ok (s', buf') ∧ out_is base s' buf' st ∧ out_nbits s' = out_nbits s mod 8 ∧
    size buf' = size buf + out_nbits s / 8.
Proof.
  intros Hs Hlt Hroom. unfold fse_out_flush. rewrite land_minus_8. set (m := out_nbits s / 8).
  destruct (out_range _ _ _ _ Hs) as [Hn Ha]. pose proof (div_8 (out_nbits s)). fold m in H. assert (0 ≤ m ≤ 7) by lia.
  destruct (store_is base s buf st dst_size m Hs) as (w & -> & -> & Hsz & Hw & Hv & Hl); [lia..|]. cbn [mbind result_bind].
  destruct (Z.leb_spec 64 (8 * m)); [lia|]. assert (0 ≤ size w) by (unfold size; lia). pose proof (pow2_pos (8 * m) ltac:(lia)).
  assert (0 ≤ Z.shiftr (out_accum s) (8 * m) < 2 ^ (out_nbits s - 8 * m)) as Hacc.
  { rewrite Z.shiftr_div_pow2 by lia. split; [apply Z.div_pos; lia|]. apply Z.div_lt_upper_bound; [lia|].
    rewrite <-Z.pow_add_r by lia. replace (8 * m + (out_nbits s - 8 * m)) with (out_nbits s) by lia. lia. }
  cbn [out_nbits out_accum]. destruct (Z.leb_spec 0 (out_nbits s - 8 * m)), (Z.leb_spec (out_nbits s - 8 * m) 7); try lia. cbn [andb assert_ mbind result_bind].
  rewrite (proj2 (Z.eqb_eq (Z.shiftr _ (out_nbits s - 8 * m)) 0)), orb_true_r by (rewrite Z.shiftr_div_pow2 by lia; by apply Z.div_small).
  eexists _, _. split; [done|]. split_and!.
  - split.
    + eexists. split; [done|]. cbn [out_accum out_nbits]. rewrite Hw, size_app, Hsz. split; [|lia].
      rewrite Hv, Z.shiftr_div_pow2 by lia. rewrite Z.mul_add_distr_l, Z.pow_add_r by lia.
      rewrite (Z.div_mod (out_accum s) (2 ^ (8 * m))) at 1 by lia. lia.
    + cbn. split; [lia|done].
  - cbn. rewrite Z.mod_eq by lia. fold m. lia.
  - rewrite !size_app, Hsz. lia.
Qed.

Lemma finish_is base s buf st dst_size :
  out_is base s buf st → out_nbits s ≤ 57 → size buf + 8 ≤ dst_size →
  ∃ s' w, fse_out_finish dst_size s buf = Ok (s', base ++ w) ∧ le_val w = bits_val st ∧ 8 * size w + out_nbits s' = bits_len st ∧
    -7 ≤ out_nbits s' ≤ 0 ∧ size (base ++ w) ≤ size buf + 8.
Proof.
  intros Hs Hlt Hroom. unfold fse_out_finish. rewrite land_minus_8. set (m := (out_nbits s + 7) / 8).
  destruct (out_range _ _ _ _ Hs) as [Hn Ha]. pose proof (div_8 (out_nbits s + 7)). fold m in H. assert (0 ≤ m ≤ 8) by lia.
  destruct (store_is base s buf st dst_size m Hs) as (w & -> & -> & Hsz & Hw & Hv & Hl); [lia..|]. cbn [mbind result_bind out_nbits].
  destruct (Z.leb_spec (-7) (out_nbits s - 8 * m)), (Z.leb_spec (out_nbits s - 8 * m) 0); try lia. cbn [andb assert_ mbind result_bind].
  eexists _, _. split; [done|]. assert (out_accum s mod 2 ^ (8 * m) = out_accum s) as Hmod.
  { apply Z.mod_small. split; [lia|]. assert (2 ^ out_nbits s ≤ 2 ^ (8 * m)) by (apply Z.pow_le_mono_r; lia). lia. }
  rewrite Hw, Hmod. split; [by rewrite Hv|]. cbn [out_nbits]. rewrite !size_app, Hsz. lia.
Qed.

(** ** The input stream is a stack *)

(** The bytes of [mem] before [p], and above them the accumulator. *)
Record in_is (mem : bytes) (s : fse_in_stream) (p : Z) (st : stack) : Prop := {
  in_val : bits_val st = le_val (take (Z.to_nat p) mem) + in_accum s * 2 ^ (8 * p);
  in_len : bits_len st = 8 * p + in_nbits s;
  in_pos : 0 ≤ p ≤ size mem;
  in_range : 0 ≤ in_nbits s ≤ 63 ∧ 0 ≤ in_accum s < 2 ^ in_nbits s;
}.

Lemma pull_is mem s p st n :
  in_is mem s p st → 0 ≤ n ≤ in_nbits s →
  ∃ s', fse_in_pull s n = Ok ((pop st n).1, s') ∧ in_is mem s' p (pop st n).2 ∧ in_nbits s' = in_nbits s - n.
Proof.
  intros [Hv Hl Hp [Hn Ha]] Hn'. unfold fse_in_pull. destruct (Z.leb_spec 0 n), (Z.leb_spec n (in_nbits s)); try lia.
  cbn [andb assert_ mbind result_bind]. rewrite mask_ok by lia. cbn [mbind result_bind]. set (k := in_nbits s - n).
  pose proof (le_val_range (take (Z.to_nat p) mem)) as Hb. rewrite bytes_pow in Hb.
  assert (size (take (Z.to_nat p) mem) = p) as Hsz by (unfold size in *; rewrite length_take; lia). rewrite Hsz in Hb.
  pose proof (pow2_pos (8 * p) ltac:(lia)). pose proof (pow2_pos k ltac:(lia)).
  assert (bits_len st - n = 8 * p + k) as Hlen by lia. assert (2 ^ (8 * p + k) = 2 ^ k * 2 ^ (8 * p)) as Hpow by (rewrite Z.pow_add_r by lia; lia).
  pose proof (Z.div_mod (in_accum s) (2 ^ k) ltac:(lia)) as Hdiv. pose proof (Z.mod_pos_bound (in_accum s) (2 ^ k) ltac:(lia)).
  assert (bits_val st = (in_accum s / 2 ^ k) * 2 ^ (8 * p + k) + (le_val (take (Z.to_nat p) mem) + in_accum s mod 2 ^ k * 2 ^ (8 * p))) as Hst.
  { rewrite Hv, Hpow. rewrite Hdiv at 1. lia. }
  assert (0 ≤ le_val (take (Z.to_nat p) mem) + in_accum s mod 2 ^ k * 2 ^ (8 * p) < 2 ^ (8 * p + k)) as Hlow by (rewrite Hpow; nia).
  pose proof (pow2_pos (8 * p + k) ltac:(lia)). exists (mkIn (in_accum s mod 2 ^ k) k). unfold pop. cbn [fst snd]. rewrite Hlen. split; [|split; [split|done]].
  - rewrite Z.shiftr_div_pow2 by lia. do 2 f_equal. rewrite Hst, Z.div_add_l, (Z.div_small (_ + _)) by lia. lia.
  - cbn. rewrite Hst, Z.add_comm, Z.mod_add, Z.mod_small by lia. done.
  - cbn. lia.
  - done.
  - cbn. lia.
Qed.

Lemma take_split (mem : bytes) (p k : Z) :
  0 ≤ k → k ≤ p ≤ size mem →
  le_val (take (Z.to_nat p) mem) = le_val (take (Z.to_nat (p - k)) mem) + le_val (take (Z.to_nat k) (drop (Z.to_nat (p - k)) mem)) * 2 ^ (8 * (p - k)).
Proof.
  intros Hk Hp. rewrite <-(take_drop (Z.to_nat (p - k)) (take (Z.to_nat p) mem)), le_val_app, bytes_pow, take_take.
  rewrite Nat.min_l by lia. assert (size (take (Z.to_nat (p - k)) mem) = p - k) as -> by (unfold size in *; rewrite length_take; lia).
  rewrite skipn_firstn_comm. replace (Z.to_nat p - Z.to_nat (p - k))%nat with (Z.to_nat k) by lia. lia.
Qed.

(** Refilling the accumulator needs the byte behind the bits. *)
Lemma in_flush_is mem s p st buf_start :
  in_is mem s p st → 8 * buf_start + 63 ≤ bits_len st → 0 ≤ buf_start → bits_len st < 8 * size mem →
  ∃ s' p', fse_in_checked_flush mem s p buf_start = Ok (Some (s', p')) ∧ in_is mem s' p' st ∧ 56 ≤ in_nbits s' ≤ 63.
Proof.
  intros [Hv Hl Hp [Hn Ha]] Hlow Hstart Hhigh. unfold fse_in_checked_flush. rewrite land_minus_8. set (m := (63 - in_nbits s) / 8).
  pose proof (div_8 (63 - in_nbits s)). fold m in H. assert (0 ≤ m ≤ 7 ∧ 56 ≤ in_nbits s + 8 * m ≤ 63) as [Hm Hn'] by lia.
  rewrite Z.shiftr_div_pow2 by lia. change (2 ^ 3) with 8. rewrite (Z.mul_comm 8), Z.div_mul by lia.
  destruct (Z.ltb_spec (p - m) buf_start); [lia|]. unfold load8. rewrite load_Ok by lia. cbn [fmap result_fmap mbind result_bind].
  rewrite mask_ok by lia. cbn [mbind result_bind]. set (b := take 8 (drop (Z.to_nat (p - m)) mem)).
  assert (le_val b mod 2 ^ (m * 8) = le_val (take (Z.to_nat m) (drop (Z.to_nat (p - m)) mem))) as Hb.
  { unfold b. rewrite le_val_take by (rewrite length_drop; unfold size in *; lia).
    rewrite le_val_take by (rewrite length_drop; unfold size in *; lia). change 256 with (2 ^ 8). rewrite <-!Z.pow_mul_r by lia. rewrite Z2Nat.id by lia.
    replace (m * 8) with (8 * m) by lia. apply Z.mod_mod_divide. exists (2 ^ (8 * Z.of_nat 8 - 8 * m)). rewrite <-Z.pow_add_r by lia. f_equal. lia. }
  rewrite Hb. pose proof (Z.mod_pos_bound (le_val b) (2 ^ (m * 8)) ltac:(apply pow2_pos; lia)) as Hbr. rewrite Hb in Hbr.
  set (low := le_val (take (Z.to_nat m) (drop (Z.to_nat (p - m)) mem))) in *. pose proof (pow2_pos (m * 8) ltac:(lia)). pose proof (pow2_pos (in_nbits s) ltac:(lia)).
  assert (2 ^ (in_nbits s + m * 8) = 2 ^ in_nbits s * 2 ^ (m * 8)) as Hpow by (apply Z.pow_add_r; lia).
  assert (2 ^ (in_nbits s + m * 8) ≤ 2 ^ 63) by (apply Z.pow_le_mono_r; lia).
  rewrite Z.shiftl_mul_pow2, Z.mod_small by nia. rewrite <-Z.shiftl_mul_pow2, lor_join by lia.
  assert (0 ≤ in_accum s * 2 ^ (m * 8) + low < 2 ^ (in_nbits s + m * 8)) as Hacc by nia. cbn [in_nbits in_accum].
  destruct (Z.leb_spec 56 (in_nbits s + m * 8)), (Z.ltb_spec (in_nbits s + m * 8) 64); try lia. cbn [andb assert_ mbind result_bind].
  rewrite (proj2 (Z.eqb_eq (Z.shiftr _ _) 0)) by (rewrite Z.shiftr_div_pow2 by lia; by apply Z.div_small). cbn [assert_ mbind result_bind].
  eexists _, _. split; [done|]. split; [|cbn; lia]. split; cbn [in_nbits in_accum]; [|lia..].
  rewrite Hv, (take_split mem p m) by lia. fold low. replace (8 * p) with (m * 8 + 8 * (p - m)) by lia. rewrite Z.pow_add_r by lia. lia.
Qed.

Lemma in_init_is (before w after : bytes) r st buf_start :
  bits_val st = le_val w → bits_len st = 8 * size w + r → stack_ok st → -7 ≤ r ≤ 0 → 0 ≤ buf_start → buf_start + 8 ≤ size (before ++ w) →
  ∃ s p, fse_in_checked_init (before ++ w ++ after) r (size (before ++ w)) buf_start = Ok (Some (s, p)) ∧
    in_is (before ++ w ++ after) s p (above before st) ∧ 56 ≤ in_nbits s ≤ 63.
Proof.
  intros Hv Hl Hok Hr Hstart Hroom. set (mem := before ++ w ++ after). set (e := size (before ++ w)).
  assert (e ≤ size mem) as He by (unfold e, mem; rewrite !size_app; unfold size; lia).
  assert (take (Z.to_nat e) mem = before ++ w) as Htake by (unfold e, mem, size; by rewrite app_assoc, Nat2Z.id, take_app_length).
  assert (bits_val (above before st) = le_val (take (Z.to_nat e) mem)) as Hval.
  { rewrite Htake, le_val_app, bytes_pow. cbn. rewrite Hv. lia. }
  assert (bits_len (above before st) = 8 * e + r) as Hlen by (cbn; unfold e; rewrite size_app; lia).
  pose proof (above_ok before st Hok) as [_ Hrange]. rewrite Hval, Hlen in Hrange.
  assert (∀ k, k = 7 ∨ k = 8 → 56 ≤ r + 8 * k ≤ 63 → let a := le_val (take (Z.to_nat k) (drop (Z.to_nat (e - k)) mem)) in
    in_is mem (mkIn a (r + 8 * k)) (e - k) (above before st) ∧ Z.shiftr a (r + 8 * k) = 0) as Hin.
  { intros k Hk Hb a. pose proof (take_split mem e k ltac:(lia) ltac:(lia)) as Hs. fold a in Hs.
    assert (0 ≤ a) as Ha0 by (apply le_val_range). pose proof (le_val_range (take (Z.to_nat (e - k)) mem)) as Hb0.
    pose proof (pow2_pos (8 * (e - k)) ltac:(lia)). assert (a < 2 ^ (r + 8 * k)) as Ha.
    { replace (8 * e + r) with ((r + 8 * k) + 8 * (e - k)) in Hrange by lia. rewrite Z.pow_add_r in Hrange by lia. nia. }
    split; [|rewrite Z.shiftr_div_pow2 by lia; by apply Z.div_small].
    split; cbn [in_nbits in_accum]; [by rewrite Hval, Hs|lia|lia|lia]. }
  unfold fse_in_checked_init. destruct (Z.eqb_spec r 0) as [->|Hr0]; cbn [negb].
  - destruct (Z.ltb_spec e (buf_start + 7)); [lia|]. rewrite load_Ok by lia. cbn [mbind result_bind in_nbits in_accum].
    destruct (Hin 7 ltac:(lia) ltac:(lia)) as [H1 H2]. change (Z.to_nat 7) with 7%nat in *. change (0 + 8 * 7) with 56 in *.
    change (0 + 56) with 56. rewrite H2. eexists _, _. split; [done|]. split; [done|]. cbn. lia.
  - destruct (Z.ltb_spec e (buf_start + 8)); [lia|]. rewrite load_Ok by lia. cbn [mbind result_bind in_nbits in_accum].
    destruct (Hin 8 ltac:(lia) ltac:(lia)) as [H1 H2]. change (Z.to_nat 8) with 8%nat in *. change (8 * 8) with 64 in *. rewrite H2.
    destruct (Z.ltb_spec (r + 64) 56), (Z.leb_spec 64 (r + 64)); try lia. cbn [orb negb Z.eqb].
    eexists _, _. split; [done|]. split; [done|]. cbn. lia.
Qed.

End FseStream.
Export FseStream.

(** * What the coder writes for a symbol, it reads back

    [coded] relates the state and the stack before and after a symbol; encoding a symbol
    that occurs establishes it, decoding goes from the later state and stack to the
    earlier ones. *)

Module FseCoder.

(** Encoding a symbol of a table with [2 ^ n] states pushes [nbits] bits of the state. *)
Record coded (n : Z) (freq : list Z) (sym : nat) (state : Z) (st : stack) (state' : Z) (st' : stack) (nbits : Z) : Prop := {
  coded_bits : 0 ≤ nbits ≤ n;
  coded_state : 0 ≤ state < 2 ^ n;
  coded_next : 0 ≤ state' < 2 ^ n;
  coded_stack : st' = push st nbits (state mod 2 ^ nbits);
  coded_entry : decoder_entries (2 ^ n) 0 freq !! Z.to_nat state' = Some (mkDecoderEntry nbits (Z.of_nat sym) (state - state mod 2 ^ nbits));
}.

Lemma states_small n : 0 ≤ n ≤ 10 → 2 ^ n ≤ 1024.
Proof. intros Hn. change 1024 with (2 ^ 10). apply Z.pow_le_mono_r; lia. Qed.

Lemma fse_encode_is `{Machine} n freq sym f base s buf st state :
  normalised n freq → freq !! sym = Some f → 0 < f → 0 ≤ state < 2 ^ n →
  out_is base s buf st → out_nbits s < 64 → out_nbits s + n ≤ 64 →
  ∃ state' s' st' nbits, fse_encode (fse_init_encoder_table (2 ^ n) freq) state s (Z.of_nat sym) = Ok (state', s') ∧
    coded n freq sym state st state' st' nbits ∧ out_is base s' buf st' ∧ out_nbits s' = out_nbits s + nbits.
Proof.
  intros Hn Hf Hpos Hs Hout Hlt Hroom. destruct (symbol_step n freq sym f state Hn Hf Hpos Hs) as (e & He & Hb & Hs' & Hd).
  pose proof (freq_n _ _ Hn). pose proof (states_small n ltac:(lia)). set (nbits := step_bits e state) in *.
  unfold fse_encode, encoder_at. rewrite Nat2Z.id, He. cbn [mbind result_bind]. fold (step_bits e state). fold nbits.
  rewrite mask_ok by lia. cbn [mbind result_bind]. pose proof (Z.mod_pos_bound state (2 ^ nbits) ltac:(apply pow2_pos; lia)).
  destruct (push_is base s buf st nbits (state mod 2 ^ nbits) Hout) as (s' & -> & Hout' & Hnb); [lia..|].
  cbn [mbind result_bind]. exists (next_state e state), s', (push st nbits (state mod 2 ^ nbits)), nbits.
  split; [done|]. split; [|done]. by split.
Qed.

(** Pushing the bits of a symbol makes the stack longer by at most [n] bits. *)
Lemma coded_grows n freq sym state st state' st' nbits :
  coded n freq sym state st state' st' nbits → stack_ok st → stack_ok st' ∧ bits_len st ≤ bits_len st' ≤ bits_len st + n.
Proof.
  intros [Hb Hs _ -> _] Hok. split; [apply push_ok; [done|lia|apply Z.mod_pos_bound, pow2_pos; lia]|simpl; lia].
Qed.

(** A symbol that owns states of a table. *)
Definition occurs (freq : list Z) (sym : Z) : Prop := 0 ≤ sym ∧ ∃ f, freq !! Z.to_nat sym = Some f ∧ 0 < f.

Lemma encode_symbol `{Machine} n freq sym base s buf st state :
  normalised n freq → occurs freq sym → 0 ≤ state < 2 ^ n → out_is base s buf st → out_nbits s < 64 → out_nbits s + n ≤ 64 →
  ∃ state' s' st' nbits, fse_encode (fse_init_encoder_table (2 ^ n) freq) state s sym = Ok (state', s') ∧
    coded n freq (Z.to_nat sym) state st state' st' nbits ∧ out_is base s' buf st' ∧ 0 ≤ out_nbits s' ≤ out_nbits s + n.
Proof.
  intros Hn (Hsym & f & Hf & Hpos) Hs Hout Hlt Hroom.
  destruct (fse_encode_is n freq (Z.to_nat sym) f base s buf st state Hn Hf Hpos Hs Hout Hlt Hroom) as (state' & s' & st' & nbits & He & Hc & Hout' & Hnb).
  rewrite Z2Nat.id in He by done. exists state', s', st', nbits. split_and!; [done..| |].
  - pose proof (out_range _ _ _ _ Hout'). lia.
  - pose proof (coded_bits _ _ _ _ _ _ _ _ Hc). lia.
Qed.

Section Decode.
Context (n : Z) (freq : list Z) (sym : nat) (state state' nbits : Z) (st st' : stack) (mem before : bytes).
Hypothesis Hn : normalised n freq.
Hypothesis Hc : coded n freq sym state st state' st' nbits.
Hypothesis Hst : stack_ok st.

Lemma previous_state : to_u16 (to_u16 (state - state mod 2 ^ nbits) + to_u16 (state mod 2 ^ nbits)) = state.
Proof.
  destruct Hc as [Hb Hs _ _ _]. pose proof (states_small n (freq_n _ _ Hn)).
  pose proof (Z.mod_pos_bound state (2 ^ nbits) ltac:(apply pow2_pos; lia)). pose proof (Z.mod_le state (2 ^ nbits) ltac:(lia) ltac:(apply pow2_pos; lia)).
  rewrite (to_u16_id (state mod _)) by lia. rewrite to_u16_add; lia.
Qed.

Lemma fse_decode_is s p :
  in_is mem s p (above before st') → n ≤ in_nbits s →
  ∃ s', fse_decode (decoder_entries (2 ^ n) 0 freq) state' s = Ok (Z.of_nat sym, state, s') ∧
    in_is mem s' p (above before st) ∧ in_nbits s' = in_nbits s - nbits.
Proof.
  intros Hin Hbits. destruct Hc as [Hb Hs Hs' Hstk He]. unfold fse_decode, vec_at. rewrite He. cbn [mbind result_bind dec_k symbol delta].
  destruct (pull_is mem s p _ nbits Hin ltac:(lia)) as (s' & -> & Hin' & Hnb). exists s'.
  destruct Hst as [Hl _]. rewrite Hstk, <-above_push, pop_push in Hin' by (done || by apply above_ok).
  rewrite Hstk, <-above_push, pop_push by (done || by apply above_ok). cbn [fst snd] in *. split; [|done].
  cbn [mbind result_bind]. by rewrite previous_state.
Qed.

(** With extra bits below those of the state. *)
Lemma fse_value_decode_is vbits vbase v st0 s p :
  st = push st0 (default 0 (vbits !! sym)) v → stack_ok st0 →
  0 ≤ v < 2 ^ default 0 (vbits !! sym) → 0 ≤ default 0 (vbits !! sym) ≤ 20 → is_int (default 0 (vbase !! sym) + v) →
  in_is mem s p (above before st') → n + default 0 (vbits !! sym) ≤ in_nbits s →
  ∃ s', fse_value_decode (value_entry vbits vbase <$> decoder_entries (2 ^ n) 0 freq) state' s
      = Ok (default 0 (vbase !! sym) + v, state, s') ∧
    in_is mem s' p (above before st0) ∧ in_nbits s' = in_nbits s - nbits - default 0 (vbits !! sym).
Proof.
  intros Hst0 Hok0 Hv Hvb Hint Hin Hbits. destruct Hc as [Hb Hs Hs' Hstk He]. set (vb := default 0 (vbits !! sym)) in *.
  unfold fse_value_decode, vec_at. rewrite list_lookup_fmap, He. cbn [fmap option_fmap option_map mbind result_bind].
  unfold value_entry. cbn [dec_k symbol delta total_bits value_bits vdelta Fse.vbase]. rewrite Nat2Z.id. fold vb.
  destruct (pull_is mem s p _ (nbits + vb) Hin ltac:(lia)) as (s' & -> & Hin' & Hnb). exists s'.
  set (b := state mod 2 ^ nbits) in *. assert (st' = push st0 (nbits + vb) (v + b * 2 ^ vb)) as Hpush.
  { rewrite Hstk, Hst0. rewrite push_push by (apply Hok0 || lia). f_equal. lia. }
  rewrite Hpush, <-above_push, pop_push in Hin' by (by apply above_ok || apply Hok0).
  rewrite Hpush, <-above_push, pop_push by (by apply above_ok || apply Hok0). cbn [fst snd mbind result_bind] in *.
  pose proof (states_small n (freq_n _ _ Hn)). pose proof (pow2_pos nbits ltac:(lia)). pose proof (pow2_pos vb ltac:(lia)).
  assert (0 ≤ b < 2 ^ nbits) by (apply Z.mod_pos_bound; lia). assert (2 ^ nbits ≤ 2 ^ n) by (apply Z.pow_le_mono_r; lia).
  assert (2 ^ vb ≤ 2 ^ 20) by (apply Z.pow_le_mono_r; lia). change (2 ^ 20) with 1048576 in *.
  rewrite (Z.mod_small (v + b * 2 ^ vb)) by (change (2 ^ 32) with 4294967296; nia). rewrite mask_ok by lia.
  rewrite Z.mod_add, Z.mod_small by lia. cbn [mbind result_bind]. rewrite Z.shiftr_div_pow2, Z.div_add, Z.div_small by lia.
  rewrite to_int_id by done. split; [|split; [done|lia]]. do 2 f_equal. f_equal. pose proof (Z.mod_le state (2 ^ nbits) ltac:(lia) ltac:(lia)). fold b in H4.
  rewrite to_u16_id by lia. lia.
Qed.
End Decode.

End FseCoder.
Export FseCoder.
