(* ===== verification/LzfseHeader.v ===== *)
(** * lzfse: classes of values and packed headers

    [LzfseTables]: the classes of lengths and distances.  [LzfseHeader]: the headers of
    compressed blocks. *)

From stdpp Require Import base list strings.
From Stdlib Require Import ZArith Lia Ascii.
From S2P Require Import Prelude CInt Util Buffer Fse FseStream.
Local Open Scope Z_scope.

(** * third/lzfse: the values of L, M and D as symbols with extra bits

    The tables of lzfse_internal.h and the inverse tables of lzfse_encode_tables.h, with
    what the coder needs of them: a value is the base of its symbol and some extra bits. *)

Module LzfseTables.

Definition LZFSE_ENCODE_MAX_L_VALUE : Z := 315.
Definition LZFSE_ENCODE_MAX_M_VALUE : Z := 2359.
Definition LZFSE_ENCODE_MAX_D_VALUE : Z := 262139.

Definition l_extra_bits : list Z :=
  [0; 0; 0; 0; 0; 0; 0; 0; 0; 0; 0; 0; 0; 0; 0; 0;
   2; 3; 5; 8].
Definition l_base_value : list Z :=
  [0; 1; 2; 3; 4; 5; 6; 7; 8; 9; 10; 11; 12; 13; 14; 15;
   16; 20; 28; 60].
Definition m_extra_bits : list Z :=
  [0; 0; 0; 0; 0; 0; 0; 0; 0; 0; 0; 0; 0; 0; 0; 0;
   3; 5; 8; 11].
Definition m_base_value : list Z :=
  [0; 1; 2; 3; 4; 5; 6; 7; 8; 9; 10; 11; 12; 13; 14; 15;
   16; 24; 56; 312].
Definition d_extra_bits : list Z :=
  [0; 0; 0; 0; 1; 1; 1; 1; 2; 2; 2; 2; 3; 3; 3; 3;
   4; 4; 4; 4; 5; 5; 5; 5; 6; 6; 6; 6; 7; 7; 7; 7;
   8; 8; 8; 8; 9; 9; 9; 9; 10; 10; 10; 10; 11; 11; 11; 11;
   12; 12; 12; 12; 13; 13; 13; 13; 14; 14; 14; 14; 15; 15; 15; 15].
Definition d_base_value : list Z :=
  [0; 1; 2; 3; 4; 6; 8; 10; 12; 16; 20; 24; 28; 36; 44; 52;
   60; 76; 92; 108; 124; 156; 188; 220; 252; 316; 380; 444; 508; 636; 764; 892;
   1020; 1276; 1532; 1788; 2044; 2556; 3068; 3580; 4092; 5116; 6140; 7164; 8188; 10236; 12284; 14332;
   16380; 20476; 24572; 28668; 32764; 40956; 49148; 57340; 65532; 81916; 98300; 114684; 131068; 163836; 196604; 229372].

(** The inverse tables; those of L and M have one entry per value, written as runs. *)
Definition l_sym : list Z := seqZ 0 16 ++ replicate 4 16 ++ replicate 8 17 ++ replicate 32 18 ++ replicate 256 19.
Definition m_sym : list Z := seqZ 0 16 ++ replicate 8 16 ++ replicate 32 17 ++ replicate 256 18 ++ replicate 2048 19.
Definition d_sym : list Z :=
  [0; 1; 2; 3; 4; 4; 5; 5; 6; 6; 7; 7; 8; 8; 8; 8; 9; 9; 9; 9; 10; 10; 10; 10;
   11; 11; 11; 11; 12; 12; 12; 12; 12; 12; 12; 12; 13; 13; 13; 13; 13; 13; 13; 13; 14; 14; 14; 14;
   14; 14; 14; 14; 15; 15; 15; 15; 15; 15; 15; 15; 16; 16; 16; 16; 16; 17; 18; 19; 20; 20; 21; 21;
   22; 22; 23; 23; 24; 24; 24; 24; 25; 25; 25; 25; 26; 26; 26; 26; 27; 27; 27; 27; 28; 28; 28; 28;
   28; 28; 28; 28; 29; 29; 29; 29; 29; 29; 29; 29; 30; 30; 30; 30; 30; 30; 30; 30; 31; 31; 31; 31;
   31; 31; 31; 31; 32; 32; 32; 32; 32; 33; 34; 35; 36; 36; 37; 37; 38; 38; 39; 39; 40; 40; 40; 40;
   41; 41; 41; 41; 42; 42; 42; 42; 43; 43; 43; 43; 44; 44; 44; 44; 44; 44; 44; 44; 45; 45; 45; 45;
   45; 45; 45; 45; 46; 46; 46; 46; 46; 46; 46; 46; 47; 47; 47; 47; 47; 47; 47; 47; 48; 48; 48; 48;
   48; 49; 50; 51; 52; 52; 53; 53; 54; 54; 55; 55; 56; 56; 56; 56; 57; 57; 57; 57; 58; 58; 58; 58;
   59; 59; 59; 59; 60; 60; 60; 60; 60; 60; 60; 60; 61; 61; 61; 61; 61; 61; 61; 61; 62; 62; 62; 62;
   62; 62; 62; 62; 63; 63; 63; 63; 63; 63; 63; 63; 0; 0; 0; 0].

(** An index outside of the table is undefined. *)
Definition sym_at (sym : list Z) (value : Z) : result Z :=
  if value <? 0 then Err Undefined else vec_at sym (Z.to_nat value).

Definition l_base_from_value (value : Z) : result Z := sym_at l_sym value.
Definition m_base_from_value (value : Z) : result Z := sym_at m_sym value.

(** The index of a distance in one of the four ranges, zero outside of it. *)
Definition in_range_k (value low high shift first : Z) : Z :=
  if (low <=? value) && (value <? high) then Z.shiftr (value - low) shift + first else 0.

Definition d_base_from_value (value : Z) : result Z :=
  let index :=
    Z.lor (Z.lor (Z.lor (in_range_k value 0 60 0 0) (in_range_k value 60 1020 4 64))
      (in_range_k value 1020 16380 8 128)) (in_range_k value 16380 262140 12 192) in
  sym_at d_sym (Z.land index 255).

(** ** What the tables say *)

Definition base_of (table : list Z) (sym : Z) : Z := default 0 (table !! Z.to_nat sym).

(** A value is the base of its symbol and less than the extra bits can hold. *)
Definition coded_value (extra base : list Z) (symbols bits value sym : Z) : Prop :=
  0 ≤ sym < symbols ∧ 0 ≤ base_of extra sym ≤ bits ∧ 0 ≤ value - base_of base sym < 2 ^ base_of extra sym.

#[export] Instance coded_value_dec extra base symbols bits value sym : Decision (coded_value extra base symbols bits value sym).
Proof. unfold coded_value. apply _. Defined.

(** A table that is right at every index, up to its length. *)
Definition sym_check (extra base : list Z) (symbols bits : Z) (sym : list Z) : bool :=
  forallb (λ '(v, s), bool_decide (coded_value extra base symbols bits v s)) (zip (seqZ 0 (Z.of_nat (length sym))) sym).

Lemma sym_checked extra base symbols bits sym v :
  sym_check extra base symbols bits sym = true → 0 ≤ v < Z.of_nat (length sym) →
  ∃ s, sym_at sym v = Ok s ∧ coded_value extra base symbols bits v s.
Proof.
  intros Hc Hv. unfold sym_at. destruct (Z.ltb_spec v 0); [lia|]. destruct (lookup_lt_is_Some_2 sym (Z.to_nat v)) as [s Hs]; [lia|].
  exists s. rewrite (proj2 (vec_at_Ok _ _ _) Hs). split; [done|]. apply (bool_decide_eq_true_1 _).
  refine (proj1 (forallb_forall _ _) Hc (v, s) _). apply list_elem_of_In, list_elem_of_lookup. exists (Z.to_nat v).
  apply lookup_zip_with_Some. exists v, s. split_and!; [done| |done]. rewrite lookup_seqZ. lia.
Qed.

Lemma l_base_ok v : 0 ≤ v ≤ LZFSE_ENCODE_MAX_L_VALUE → ∃ s, l_base_from_value v = Ok s ∧ coded_value l_extra_bits l_base_value 20 8 v s.
Proof. intros Hv. apply sym_checked; [by vm_compute|]. unfold LZFSE_ENCODE_MAX_L_VALUE in Hv. change (Z.of_nat (length l_sym)) with 316. lia. Qed.

Lemma m_base_ok v : 0 ≤ v ≤ LZFSE_ENCODE_MAX_M_VALUE → ∃ s, m_base_from_value v = Ok s ∧ coded_value m_extra_bits m_base_value 20 11 v s.
Proof.
  intros Hv. apply sym_checked; [by vm_compute|]. unfold LZFSE_ENCODE_MAX_M_VALUE in Hv.
  assert (Z.of_nat (length m_sym) = 2360) as -> by (by vm_compute). lia.
Qed.

(** The entries of a range stand for [2 ^ shift] distances each. *)
Definition range_check (low shift first count : Z) : bool :=
  forallb (λ i, let s := base_of d_sym (first + i) in
    bool_decide (0 ≤ s < 64 ∧ 0 ≤ base_of d_extra_bits s ≤ 15 ∧ base_of d_base_value s ≤ low + i * 2 ^ shift ∧
      low + (i + 1) * 2 ^ shift ≤ base_of d_base_value s + 2 ^ base_of d_extra_bits s)) (seqZ 0 count).

Lemma range_checked low shift first count v :
  range_check low shift first count = true → 0 ≤ shift → low ≤ v < low + count * 2 ^ shift →
  coded_value d_extra_bits d_base_value 64 15 v (base_of d_sym (first + (v - low) / 2 ^ shift)).
Proof.
  intros Hc Hs Hv. pose proof (Z.pow_pos_nonneg 2 shift ltac:(lia) Hs). set (i := (v - low) / 2 ^ shift).
  assert (0 ≤ i < count) as Hi by (split; [apply Z.div_pos; lia|apply Z.div_lt_upper_bound; lia]).
  assert (i * 2 ^ shift ≤ v - low < (i + 1) * 2 ^ shift) as Hb.
  { pose proof (Z.div_mod (v - low) (2 ^ shift) ltac:(lia)). pose proof (Z.mod_pos_bound (v - low) (2 ^ shift) ltac:(lia)). unfold i. lia. }
  pose proof (proj1 (forallb_forall _ _) Hc i) as Hall. cbv zeta in Hall. assert (In i (seqZ 0 count)) as Hin by (apply list_elem_of_In, elem_of_seqZ; lia).
  apply Hall, bool_decide_eq_true_1 in Hin as (H1 & H2 & H3 & H4). unfold coded_value. split; [done|]. split; [done|]. lia.
Qed.

Lemma sym_at_base v : 0 ≤ v < 256 → sym_at d_sym v = Ok (base_of d_sym v).
Proof.
  intros Hv. unfold sym_at, base_of. destruct (Z.ltb_spec v 0); [lia|]. destruct (lookup_lt_is_Some_2 d_sym (Z.to_nat v)) as [s Hs].
  { change (length d_sym) with 256%nat. lia. } unfold vec_at. by rewrite Hs.
Qed.

Lemma d_range_ok v low shift first count :
  range_check low shift first count = true → 0 ≤ shift → 0 ≤ first → first + count ≤ 256 → low ≤ v < low + count * 2 ^ shift →
  d_base_from_value v = sym_at d_sym (Z.land (Z.shiftr (v - low) shift + first) 255) →
  ∃ s, d_base_from_value v = Ok s ∧ coded_value d_extra_bits d_base_value 64 15 v s.
Proof.
  intros Hc Hs Hf H256 Hlow Hd. pose proof (range_checked low shift first count v Hc Hs Hlow) as Hok.
  pose proof (Z.pow_pos_nonneg 2 shift ltac:(lia) Hs).
  assert (0 ≤ (v - low) / 2 ^ shift < count) by (split; [apply Z.div_pos; lia|apply Z.div_lt_upper_bound; lia]).
  rewrite Z.shiftr_div_pow2, Z.add_comm in Hd by lia. change 255 with (Z.ones 8) in Hd. rewrite Z.land_ones, Z.mod_small, sym_at_base in Hd by (simpl; lia).
  by eexists.
Qed.

Lemma d_base_ok v : 0 ≤ v ≤ LZFSE_ENCODE_MAX_D_VALUE → ∃ s, d_base_from_value v = Ok s ∧ coded_value d_extra_bits d_base_value 64 15 v s.
Proof.
  unfold LZFSE_ENCODE_MAX_D_VALUE. intros Hv.
  assert (v < 60 ∨ 60 ≤ v < 1020 ∨ 1020 ≤ v < 16380 ∨ 16380 ≤ v < 262140) as [?|[?|[?|?]]] by lia;
    [apply (d_range_ok v 0 0 0 60)|apply (d_range_ok v 60 4 64 60)|apply (d_range_ok v 1020 8 128 60)|apply (d_range_ok v 16380 12 192 60)];
    try done; try (simpl; lia); unfold d_base_from_value, in_range_k;
    destruct (Z.leb_spec 0 v), (Z.ltb_spec v 60), (Z.leb_spec 60 v), (Z.ltb_spec v 1020), (Z.leb_spec 1020 v), (Z.ltb_spec v 16380),
      (Z.leb_spec 16380 v), (Z.ltb_spec v 262140); try lia; cbn [andb]; by rewrite ?Z.lor_0_r, ?Z.lor_0_l.
Qed.

End LzfseTables.
Export LzfseTables.

(** * third/lzfse: headers of compressed blocks

    The header of a block holds sizes, the final states of the coder and the frequency
    tables.  The encoder packs it: the fields into three words, the frequencies with a
    fixed prefix code.  The decoder also takes the unpacked form. *)

Module LzfseHeader.

Definition LZFSE_ENCODE_L_SYMBOLS : nat := 20.
Definition LZFSE_ENCODE_M_SYMBOLS : nat := 20.
Definition LZFSE_ENCODE_D_SYMBOLS : nat := 64.
Definition LZFSE_ENCODE_LITERAL_SYMBOLS : nat := 256.
Definition LZFSE_ENCODE_L_STATES : Z := 64.
Definition LZFSE_ENCODE_M_STATES : Z := 64.
Definition LZFSE_ENCODE_D_STATES : Z := 256.
Definition LZFSE_ENCODE_LITERAL_STATES : Z := 1024.
Definition LZFSE_MATCHES_PER_BLOCK : Z := 10000.
Definition LZFSE_LITERALS_PER_BLOCK : Z := 4 * LZFSE_MATCHES_PER_BLOCK.

Definition LZFSE_ENDOFSTREAM_BLOCK_MAGIC : Z := 611874402.
Definition LZFSE_COMPRESSEDV1_BLOCK_MAGIC : Z := 829978210.
Definition LZFSE_COMPRESSEDV2_BLOCK_MAGIC : Z := 846755426.

(** [lzfse_compressed_block_header_v1]. *)
Record header_v1 := mkHeader {
  h_magic : Z;
  n_raw_bytes : Z;
  n_payload_bytes : Z;
  n_literals : Z;
  n_matches : Z;
  n_literal_payload_bytes : Z;
  n_lmd_payload_bytes : Z;
  literal_bits : Z;
  literal_state : list Z;
  lmd_bits : Z;
  l_state : Z;
  m_state : Z;
  d_state : Z;
  l_freq : list Z;
  m_freq : list Z;
  d_freq : list Z;
  literal_freq : list Z;
}.

(** The four tables as the one array the loops run through. *)
Definition all_freq (h : header_v1) : list Z := l_freq h ++ m_freq h ++ d_freq h ++ literal_freq h.

(** ** Packing *)

(** [setField]: [v] at bit [offset] of a word. *)
Definition setField (v offset nbits : Z) : result Z :=
  _ ← assert_ ((offset + nbits <? 64) && (0 <=? offset) && (nbits <=? 32));
  _ ← assert_ ((nbits =? 32) || (v <? 2 ^ nbits));
  Ok (Z.shiftl v offset).

(** [get_field]. *)
Definition get_field (v offset nbits : Z) : Z := Z.land (Z.shiftr v offset) (Z.ones nbits).

(** [lzfse_encode_v1_freq_value]: the bits of a value and how many they are. *)
Definition freq_value (value : Z) : Z * Z :=
  match value with
  | 0 => (0, 2)
  | 1 => (2, 2)
  | 2 => (1, 3)
  | 3 => (5, 3)
  | 4 => (3, 5)
  | 5 => (11, 5)
  | 6 => (19, 5)
  | 7 => (27, 5)
  | _ =>
      if value <? 24 then (7 + Z.shiftl (value - 8) 4, 8)
      else (Z.shiftl (value - 24) 4 + 15, 14)
  end.

(** The loop of [lzfse_encode_v1_freq_table]: each turn adds the bits of a value and stores
    the whole bytes; a byte with the last bits follows. *)
Fixpoint encode_freqs (accum accum_nbits : Z) (src : list Z) : result bytes :=
  match src with
  | [] => Ok (if 0 <? accum_nbits then [byte_of accum] else [])
  | value :: src =>
      let '(bits, nbits) := freq_value value in
      _ ← assert_ (bits <? 2 ^ nbits);
      let accum := Z.lor accum (Z.shiftl bits accum_nbits) in
      let accum_nbits := accum_nbits + nbits in
      rest ← encode_freqs (Z.shiftr accum (8 * (accum_nbits / 8))) (accum_nbits mod 8) src;
      Ok (le_bytes (Z.to_nat (accum_nbits / 8)) accum ++ rest)
  end.

Definition lzfse_encode_v1_freq_table (h : header_v1) : result bytes := encode_freqs 0 0 (all_freq h).

(** The fixed part of the packed header, before the frequencies. *)
Definition header_v2_fixed : Z := 32.
Definition sizeof_header_v2 : Z := 752.

Definition state_at (h : header_v1) (i : nat) : Z := default 0 (literal_state h !! i).

(** [lzfse_encode_v1_state] with the size of the header that is stored before. *)
Definition lzfse_encode_v1_state (h : header_v1) (header_size : Z) : result bytes :=
  a0 ← setField (n_literals h) 0 20;
  a1 ← setField (n_literal_payload_bytes h) 20 20;
  a2 ← setField (n_matches h) 40 20;
  a3 ← setField (7 + literal_bits h) 60 3;
  b0 ← setField (state_at h 0) 0 10;
  b1 ← setField (state_at h 1) 10 10;
  b2 ← setField (state_at h 2) 20 10;
  b3 ← setField (state_at h 3) 30 10;
  b4 ← setField (n_lmd_payload_bytes h) 40 20;
  b5 ← setField (7 + lmd_bits h) 60 3;
  c0 ← setField header_size 0 32;
  c1 ← setField (l_state h) 32 10;
  c2 ← setField (m_state h) 42 10;
  c3 ← setField (d_state h) 52 10;
  Ok (le_bytes 4 LZFSE_COMPRESSEDV2_BLOCK_MAGIC ++ le_bytes 4 (n_raw_bytes h) ++
      le_bytes 8 (Z.lor (Z.lor (Z.lor a0 a1) a2) a3) ++
      le_bytes 8 (Z.lor (Z.lor (Z.lor (Z.lor (Z.lor b0 b1) b2) b3) b4) b5) ++
      le_bytes 8 (Z.lor (Z.lor (Z.lor c0 c1) c2) c3)).

(** ** Unpacking *)

Definition lzfse_freq_nbits_table : list Z :=
  [2; 3; 2; 5; 2; 3; 2; 8; 2; 3; 2; 5; 2; 3; 2; 14;
   2; 3; 2; 5; 2; 3; 2; 8; 2; 3; 2; 5; 2; 3; 2; 14].
Definition lzfse_freq_value_table : list Z :=
  [0; 2; 1; 4; 0; 3; 1; -1; 0; 2; 1; 5; 0; 3; 1; -1;
   0; 2; 1; 6; 0; 3; 1; -1; 0; 2; 1; 7; 0; 3; 1; -1].

(** [lzfse_decode_v1_freq_value]: the value and the bits it takes. *)
Definition decode_freq_value (bits : Z) : Z * Z :=
  let b := Z.to_nat (Z.land bits 31) in
  let n := default 0 (lzfse_freq_nbits_table !! b) in
  if n =? 8 then (8 + Z.land (Z.shiftr bits 4) 15, n)
  else if n =? 14 then (24 + Z.land (Z.shiftr bits 4) 1023, n)
  else (default 0 (lzfse_freq_value_table !! b), n).

(** Refilling the accumulator of 32 bits by bytes. *)
Fixpoint refill (fuel : nat) (accum accum_nbits : Z) (src : bytes) : Z * Z * bytes :=
  match fuel, src with
  | S fuel, c :: rest =>
      if accum_nbits + 8 <=? 32
      then refill fuel (Z.lor accum (Z.shiftl (byte_val c) accum_nbits)) (accum_nbits + 8) rest
      else (accum, accum_nbits, src)
  | _, _ => (accum, accum_nbits, src)
  end.

(** The loop over [count] values; [None] when it fails. *)
Fixpoint decode_freqs (count : nat) (accum accum_nbits : Z) (src : bytes) : option (list Z) :=
  match count with
  | O => if (8 <=? accum_nbits) || bool_decide (src ≠ []) then None else Some []
  | S count =>
      let '(accum, accum_nbits, src) := refill 4 accum accum_nbits src in
      let '(value, nbits) := decode_freq_value accum in
      if accum_nbits <? nbits then None
      else
        values ← decode_freqs count (Z.shiftr accum nbits) (accum_nbits - nbits) src;
        Some (to_u16 value :: values)
  end.

Definition freq_count : nat := LZFSE_ENCODE_L_SYMBOLS + LZFSE_ENCODE_M_SYMBOLS + LZFSE_ENCODE_D_SYMBOLS + LZFSE_ENCODE_LITERAL_SYMBOLS.

(** The four tables cut out of the array. *)
Definition with_freqs (h : list Z → list Z → list Z → list Z → header_v1) (f : list Z) : header_v1 :=
  h (take 20 f) (take 20 (drop 20 f)) (take 64 (drop 40 f)) (take 256 (drop 104 f)).

Definition le_at (b : bytes) (i n : nat) : Z := le_val (take n (drop i b)).

(** [lzfse_decode_v2_header_size]. *)
Definition lzfse_decode_v2_header_size (b : bytes) : Z := get_field (le_at b 24 8) 0 32.

(** [lzfse_decode_v1] of a packed header of [header_size] bytes. *)
Definition lzfse_decode_v1 (b : bytes) : option header_v1 :=
  let v0 := le_at b 8 8 in
  let v1 := le_at b 16 8 in
  let v2 := le_at b 24 8 in
  let n_literal_payload_bytes := get_field v0 20 20 in
  let n_lmd_payload_bytes := get_field v1 40 20 in
  let n_freq := get_field v2 0 32 - header_v2_fixed in
  freqs ← (if n_freq =? 0 then Some (replicate freq_count 0)
           else decode_freqs freq_count 0 0 (take (Z.to_nat n_freq) (drop 32 b)));
  Some (with_freqs
    (mkHeader LZFSE_COMPRESSEDV1_BLOCK_MAGIC (le_at b 4 4) (n_literal_payload_bytes + n_lmd_payload_bytes)
       (get_field v0 0 20) (get_field v0 40 20) n_literal_payload_bytes n_lmd_payload_bytes
       (get_field v0 60 3 - 7) [get_field v1 0 10; get_field v1 10 10; get_field v1 20 10; get_field v1 30 10]
       (get_field v1 60 3 - 7) (get_field v2 32 10) (get_field v2 42 10) (get_field v2 52 10)) freqs).

(** The unpacked header as it lies in memory. *)
Definition sizeof_header_v1 : nat := 772.
Definition header_v1_of (b : bytes) : header_v1 :=
  with_freqs
    (mkHeader (le_at b 0 4) (le_at b 4 4) (le_at b 8 4) (le_at b 12 4) (le_at b 16 4) (le_at b 20 4) (le_at b 24 4)
       (to_int (le_at b 28 4)) [le_at b 32 2; le_at b 34 2; le_at b 36 2; le_at b 38 2]
       (to_int (le_at b 40 4)) (le_at b 44 2) (le_at b 46 2) (le_at b 48 2))
    ((λ i, le_at b (50 + 2 * i) 2) <$> seq 0 freq_count).

(** [lzfse_check_block_header_v1]. *)
Definition lzfse_check_block_header_v1 (h : header_v1) : bool :=
  (h_magic h =? LZFSE_COMPRESSEDV1_BLOCK_MAGIC) && (n_literals h <=? LZFSE_LITERALS_PER_BLOCK) &&
  (n_matches h <=? LZFSE_MATCHES_PER_BLOCK) && forallb (λ s, s <? LZFSE_ENCODE_LITERAL_STATES) (literal_state h) &&
  (l_state h <? LZFSE_ENCODE_L_STATES) && (m_state h <? LZFSE_ENCODE_M_STATES) && (d_state h <? LZFSE_ENCODE_D_STATES) &&
  fse_check_freq LZFSE_ENCODE_L_STATES (l_freq h) && fse_check_freq LZFSE_ENCODE_M_STATES (m_freq h) &&
  fse_check_freq LZFSE_ENCODE_D_STATES (d_freq h) && fse_check_freq LZFSE_ENCODE_LITERAL_STATES (literal_freq h).

(** ** The prefix code of the frequencies *)

(** The values the code has a word for. *)
Definition codable (v : Z) : Prop := 0 ≤ v ≤ 1047.

(** A table of values as one number, the first word lowest, and its length. *)
Fixpoint freqs_val (l : list Z) : Z :=
  match l with
  | [] => 0
  | v :: l => (freq_value v).1 + 2 ^ (freq_value v).2 * freqs_val l
  end.
Fixpoint freqs_len (l : list Z) : Z :=
  match l with
  | [] => 0
  | v :: l => (freq_value v).2 + freqs_len l
  end.

(** All the words, each with all the bits that may follow it within 14 bits. *)
Definition code_check (v : Z) : bool :=
  let '(bits, n) := freq_value v in
  (0 <=? bits) && (bits <? 2 ^ n) && (2 <=? n) && (n <=? 14) &&
  forallb (λ y, bool_decide (decode_freq_value (bits + 2 ^ n * y) = (v, n))) (seqZ 0 (2 ^ (14 - n))).

Lemma code_checked v : codable v → code_check v = true.
Proof.
  intros Hv. assert (forallb code_check (seqZ 0 1048) = true) as H by (vm_compute; reflexivity).
  apply (proj1 (forallb_forall _ _) H). apply list_elem_of_In, elem_of_seqZ. unfold codable in Hv. lia.
Qed.

Lemma freq_value_range v : codable v → 2 ≤ (freq_value v).2 ≤ 14 ∧ 0 ≤ (freq_value v).1 < 2 ^ (freq_value v).2.
Proof. intros H%code_checked. unfold code_check in H. destruct (freq_value v). rewrite !andb_true_iff in H. cbn. lia. Qed.

(** Only the low 14 bits are looked at. *)
Lemma decode_freq_value_mod x : 0 ≤ x → decode_freq_value (x mod 2 ^ 14) = decode_freq_value x.
Proof.
  intros Hx. assert (∀ k n, 0 ≤ k → 0 ≤ n → k + n ≤ 14 → Z.land (Z.shiftr (x mod 2 ^ 14) k) (Z.ones n) = Z.land (Z.shiftr x k) (Z.ones n)) as Hl.
  { intros k n Hk Hn Hkn. apply Z.bits_inj'. intros i Hi. rewrite !Z.land_spec, !Z.shiftr_spec by lia.
    destruct (Z.lt_ge_cases i n); [by rewrite Z.mod_pow2_bits_low by lia|]. by rewrite (Z.ones_spec_high n i), !andb_false_r by lia. }
  unfold decode_freq_value. pose proof (Hl 0 5 ltac:(lia) ltac:(lia) ltac:(lia)) as H5. rewrite !Z.shiftr_0_r in H5. change (Z.ones 5) with 31 in H5.
  pose proof (Hl 4 4 ltac:(lia) ltac:(lia) ltac:(lia)) as H4. pose proof (Hl 4 10 ltac:(lia) ltac:(lia) ltac:(lia)) as H10.
  change (Z.ones 4) with 15 in H4. change (Z.ones 10) with 1023 in H10. by rewrite H5, H4, H10.
Qed.

Lemma decode_freq_value_word v y : codable v → 0 ≤ y → decode_freq_value ((freq_value v).1 + 2 ^ (freq_value v).2 * y) = (v, (freq_value v).2).
Proof.
  intros Hv Hy. pose proof (code_checked v Hv) as H. pose proof (freq_value_range v Hv) as [Hn Hb]. unfold code_check in H.
  destruct (freq_value v) as [bits n]. cbn [fst snd] in *. rewrite !andb_true_iff in H. destruct H as [_ H].
  pose proof (Z.pow_pos_nonneg 2 n ltac:(lia) ltac:(lia)). pose proof (Z.pow_pos_nonneg 2 (14 - n) ltac:(lia) ltac:(lia)).
  assert (2 ^ 14 = 2 ^ n * 2 ^ (14 - n)) as Hp by (rewrite <-Z.pow_add_r by lia; f_equal; lia).
  assert ((bits + 2 ^ n * y) mod 2 ^ 14 = bits + 2 ^ n * (y mod 2 ^ (14 - n))) as Hm.
  { pose proof (Z.mod_pos_bound y (2 ^ (14 - n)) ltac:(lia)). symmetry. apply Z.mod_unique with (q := y / 2 ^ (14 - n)); [left; nia|].
    rewrite Hp. rewrite (Z.div_mod y (2 ^ (14 - n))) at 1 by lia. ring. }
  rewrite <-decode_freq_value_mod, Hm by lia. apply (bool_decide_eq_true_1 _).
  apply (proj1 (forallb_forall _ _) H). apply list_elem_of_In, elem_of_seqZ. pose proof (Z.mod_pos_bound y (2 ^ (14 - n)) ltac:(lia)). lia.
Qed.

Lemma freqs_range l : Forall codable l → 0 ≤ freqs_val l < 2 ^ freqs_len l ∧ 0 ≤ freqs_len l ≤ 14 * Z.of_nat (length l).
Proof.
  induction 1 as [|v l Hv Hl [IH1 IH2]]; cbn [freqs_val freqs_len length]; [lia|]. destruct (freq_value_range v Hv) as [Hn Hb].
  rewrite Z.pow_add_r by lia. pose proof (Z.pow_pos_nonneg 2 (freq_value v).2 ltac:(lia) ltac:(lia)). split; [nia|lia].
Qed.

(** The bytes hold the bits of the accumulator and then the words. *)
Lemma encode_freqs_is l accum nbits :
  Forall codable l → 0 ≤ nbits < 8 → 0 ≤ accum < 2 ^ nbits →
  ∃ b, encode_freqs accum nbits l = Ok b ∧ le_val b = accum + 2 ^ nbits * freqs_val l ∧
    nbits + freqs_len l ≤ 8 * size b < nbits + freqs_len l + 8.
Proof.
  intros Hl. revert accum nbits. induction Hl as [|v l Hv Hl IH]; intros accum nbits Hn Ha; cbn [encode_freqs freqs_val freqs_len].
  - destruct (Z.ltb_spec 0 nbits).
    + eexists. split; [done|]. assert (2 ^ nbits ≤ 2 ^ 8) by (apply Z.pow_le_mono_r; lia). change (2 ^ 8) with 256 in *.
      change (le_val [byte_of accum]) with (byte_val (byte_of accum) + 256 * 0). rewrite byte_val_of. rewrite Z.mod_small by lia. unfold size. simpl. lia.
    + exists []. assert (nbits = 0) as -> by lia. change (2 ^ 0) with 1 in Ha. change (le_val []) with 0. unfold size. simpl. split_and!; [done|lia..].
  - destruct (freq_value_range v Hv) as [Hw Hb]. destruct (freq_value v) as [bits n]. cbn [fst snd] in *.
    destruct (Z.ltb_spec bits (2 ^ n)); [|lia]. cbn [assert_ mbind result_bind]. rewrite Z.lor_comm, lor_join by lia.
    set (acc := bits * 2 ^ nbits + accum). set (m := (nbits + n) / 8). pose proof (div_8 (nbits + n)) as Hd. fold m in Hd.
    pose proof (Z.pow_pos_nonneg 2 nbits ltac:(lia) ltac:(lia)). pose proof (Z.pow_pos_nonneg 2 (8 * m) ltac:(lia) ltac:(lia)).
    assert (0 ≤ acc < 2 ^ (nbits + n)) as Hacc by (rewrite Z.pow_add_r by lia; unfold acc; nia).
    destruct (IH (Z.shiftr acc (8 * m)) ((nbits + n) mod 8)) as (b & -> & Hval & Hsz).
    { apply Z.mod_pos_bound. lia. }
    { rewrite Z.shiftr_div_pow2 by lia. split; [apply Z.div_pos; lia|]. apply Z.div_lt_upper_bound; [lia|].
      rewrite <-Z.pow_add_r by (lia || apply Z.mod_pos_bound; lia). rewrite Z.mod_eq by lia. fold m. replace (8 * m + (nbits + n - 8 * m)) with (nbits + n) by lia. lia. }
    cbn [mbind result_bind]. eexists. split; [done|]. rewrite Z.mod_eq in * by lia. fold m in Hsz, Hval. rewrite size_app, size_le_bytes. split; [|lia].
    rewrite le_val_app, length_le_bytes, le_val_bytes. change 256 with (2 ^ 8). rewrite <-Z.pow_mul_r by lia. rewrite Z2Nat.id by lia. rewrite Hval.
    rewrite Z.shiftr_div_pow2 by lia. rewrite Z.mul_add_distr_l, Z.mul_assoc, <-Z.pow_add_r by lia. replace (8 * m + (nbits + n - 8 * m)) with (nbits + n) by lia.
    rewrite Z.pow_add_r by lia. pose proof (Z.div_mod acc (2 ^ (8 * m)) ltac:(lia)). unfold acc in *. lia.
Qed.

(** Refilling moves bytes to the accumulator, until it is nearly full. *)
Lemma refill_is fuel accum nbits src :
  0 ≤ nbits → 0 ≤ accum < 2 ^ nbits → 25 ≤ nbits + 8 * Z.of_nat fuel →
  ∃ accum' nbits' src', refill fuel accum nbits src = (accum', nbits', src') ∧ nbits ≤ nbits' ∧ 0 ≤ accum' < 2 ^ nbits' ∧
    accum' + 2 ^ nbits' * le_val src' = accum + 2 ^ nbits * le_val src ∧ nbits' + 8 * size src' = nbits + 8 * size src ∧ (25 ≤ nbits' ∨ src' = []).
Proof.
  revert accum nbits src. induction fuel as [|fuel IH]; intros accum nbits [|c src] Hn Ha Hf; cbn [refill].
  1,2,3: eexists _, _, _; split_and!; [done|lia..| ]; (by right) || (left; lia).
  destruct (Z.leb_spec (nbits + 8) 32) as [H32|H32]; [|eexists _, _, _; split_and!; [done|lia..|left; lia]].
  pose proof (byte_val_range c) as Hc. pose proof (Z.pow_pos_nonneg 2 nbits ltac:(lia) ltac:(lia)).
  rewrite Z.lor_comm, lor_join by lia. assert (2 ^ (nbits + 8) = 256 * 2 ^ nbits) as Hp by (rewrite Z.pow_add_r by lia; lia).
  destruct (IH (byte_val c * 2 ^ nbits + accum) (nbits + 8) src) as (a' & n' & s' & -> & Hle & Ha' & Hval & Hsz & He); [lia|rewrite Hp; nia|lia|].
  eexists _, _, _. split; [done|]. split; [lia|]. split; [done|]. rewrite Hval, Hp. change (le_val (c :: src)) with (byte_val c + 256 * le_val src).
  unfold size in *. cbn [length]. rewrite Nat2Z.inj_succ. split_and!; [lia|lia|done].
Qed.

Lemma decode_freqs_is l accum nbits src r :
  Forall codable l → 0 ≤ nbits → 0 ≤ accum < 2 ^ nbits →
  accum + 2 ^ nbits * le_val src = freqs_val l → nbits + 8 * size src = freqs_len l + r → 0 ≤ r < 8 →
  decode_freqs (length l) accum nbits src = Some l.
Proof.
  intros Hl. revert accum nbits src. induction Hl as [|v l Hv Hl IH]; intros accum nbits src Hn Ha Hval Hlen Hr; cbn [decode_freqs length freqs_val freqs_len] in *.
  - unfold size in Hlen. destruct src; [|simpl in Hlen; lia]. destruct (Z.leb_spec 8 nbits); [simpl in Hlen; lia|done].
  - destruct (refill_is 4 accum nbits src Hn Ha ltac:(lia)) as (a & n & s & -> & Hle & Ha' & Hval' & Hsz & He). rewrite Hval in Hval'. rewrite Hlen in Hsz.
    destruct (freq_value_range v Hv) as [Hw Hb]. pose proof (freqs_range l Hl) as [Hrv Hrl]. pose proof (decode_freq_value_word v (freqs_val l) Hv ltac:(lia)) as Hword.
    set (bits := (freq_value v).1) in *. set (k := (freq_value v).2) in *. pose proof (le_val_range s) as Hs.
    assert (decode_freq_value a = (v, k)) as ->.
    { rewrite <-Hword, <-Hval'. destruct He as [He| ->]; [|change (le_val []) with 0; f_equal; lia].
      rewrite <-(decode_freq_value_mod a), <-(decode_freq_value_mod (a + _)) by nia. f_equal.
      replace (2 ^ n) with (2 ^ (n - 14) * 2 ^ 14) by (rewrite <-Z.pow_add_r by lia; f_equal; lia).
      rewrite <-Z.mul_assoc, (Z.mul_comm (2 ^ 14)), Z.mul_assoc. by rewrite Z.mod_add by lia. }
    assert (k ≤ n) as Hkn by (destruct He as [?| ->]; [lia|unfold size in Hsz; simpl in Hsz; lia]).
    destruct (Z.ltb_spec n k); [lia|]. pose proof (Z.pow_pos_nonneg 2 k ltac:(lia) ltac:(lia)).
    assert (2 ^ n = 2 ^ k * 2 ^ (n - k)) as Hp by (rewrite <-Z.pow_add_r by lia; f_equal; lia).
    rewrite Hp in Hval', Ha'. rewrite Z.shiftr_div_pow2 by lia. rewrite (IH (a / 2 ^ k) (n - k) s).
    + cbn [mbind option_bind mret option_ret]. rewrite to_u16_id by (unfold codable in Hv; lia). done.
    + lia.
    + split; [apply Z.div_pos; lia|]. apply Z.div_lt_upper_bound; lia.
    + assert (freqs_val l = (bits + 2 ^ k * freqs_val l) / 2 ^ k) as -> by (rewrite (Z.mul_comm (2 ^ k)), Z.div_add, Z.div_small by lia; lia).
      rewrite <-Hval', <-Z.mul_assoc, (Z.mul_comm (2 ^ k)), Z.div_add by lia. done.
    + lia.
    + done.
Qed.

(** ** The packed header is unpacked *)

(** A header whose fields fit the packed form. *)
Record header_ok (h : header_v1) : Prop := {
  ok_magic : h_magic h = LZFSE_COMPRESSEDV1_BLOCK_MAGIC;
  ok_raw : 0 ≤ n_raw_bytes h < 2 ^ 32;
  ok_payload : n_payload_bytes h = n_literal_payload_bytes h + n_lmd_payload_bytes h;
  ok_literals : 0 ≤ n_literals h < 2 ^ 20;
  ok_matches : 0 ≤ n_matches h < 2 ^ 20;
  ok_literal_payload : 0 ≤ n_literal_payload_bytes h < 2 ^ 20;
  ok_lmd_payload : 0 ≤ n_lmd_payload_bytes h < 2 ^ 20;
  ok_literal_bits : -7 ≤ literal_bits h ≤ 0;
  ok_lmd_bits : -7 ≤ lmd_bits h ≤ 0;
  ok_literal_state : ∃ s0 s1 s2 s3, literal_state h = [s0; s1; s2; s3] ∧
    0 ≤ s0 < 2 ^ 10 ∧ 0 ≤ s1 < 2 ^ 10 ∧ 0 ≤ s2 < 2 ^ 10 ∧ 0 ≤ s3 < 2 ^ 10;
  ok_states : 0 ≤ l_state h < 2 ^ 10 ∧ 0 ≤ m_state h < 2 ^ 10 ∧ 0 ≤ d_state h < 2 ^ 10;
  ok_lengths : length (l_freq h) = LZFSE_ENCODE_L_SYMBOLS ∧ length (m_freq h) = LZFSE_ENCODE_M_SYMBOLS ∧
    length (d_freq h) = LZFSE_ENCODE_D_SYMBOLS ∧ length (literal_freq h) = LZFSE_ENCODE_LITERAL_SYMBOLS;
  ok_codable : Forall codable (all_freq h);
}.

(** A field above the ones that are packed already, and reading a field. *)
Lemma setField_ok v offset nbits :
  0 ≤ offset → offset + nbits < 64 → nbits ≤ 32 → v < 2 ^ nbits → setField v offset nbits = Ok (Z.shiftl v offset).
Proof.
  intros Ho Hn H32 Hv. unfold setField. destruct (Z.ltb_spec (offset + nbits) 64), (Z.leb_spec 0 offset), (Z.leb_spec nbits 32); try lia.
  destruct (Z.ltb_spec v (2 ^ nbits)); [|lia]. by rewrite orb_true_r.
Qed.

Lemma lor_field a v offset : 0 ≤ offset → 0 ≤ a < 2 ^ offset → Z.lor a (Z.shiftl v offset) = a + v * 2 ^ offset.
Proof. intros Ho Ha. rewrite Z.lor_comm, lor_join by done. lia. Qed.

Lemma get_field_is low v high offset nbits :
  0 ≤ offset → 0 ≤ nbits → 0 ≤ low < 2 ^ offset → 0 ≤ v < 2 ^ nbits →
  get_field (low + (v + high * 2 ^ nbits) * 2 ^ offset) offset nbits = v.
Proof.
  intros Ho Hn Hl Hv. unfold get_field. rewrite Z.shiftr_div_pow2, Z.land_ones, Z.div_add, (Z.div_small low) by lia.
  rewrite Z.add_0_l, Z.mod_add by lia. by apply Z.mod_small.
Qed.

(** A word is packed field by field above [low], which fills the bits below [offset]. *)
Fixpoint packed (low offset : Z) (fields : list (Z * Z)) : Z :=
  match fields with
  | [] => low
  | (v, nbits) :: fields => packed (Z.lor low (Z.shiftl v offset)) (offset + nbits) fields
  end.

Definition field_ok (f : Z * Z) : Prop := 0 ≤ f.2 ∧ 0 ≤ f.1 < 2 ^ f.2.

Lemma packed_is fields low offset :
  Forall field_ok fields → 0 ≤ offset → 0 ≤ low < 2 ^ offset →
  ∃ high, packed low offset fields = low + high * 2 ^ offset ∧ 0 ≤ high < 2 ^ foldr Z.add 0 fields.*2 ∧ 0 ≤ foldr Z.add 0 fields.*2.
Proof.
  intros Hf. revert low offset. induction Hf as [|[v n] fields [Hn Hv] Hf IH]; intros low offset Ho Hl; cbn [packed fst snd fmap list_fmap foldr] in *.
  - exists 0. split_and!; lia.
  - rewrite lor_field by lia. pose proof (pow2_pos offset Ho).
    assert (2 ^ (offset + n) = 2 ^ offset * 2 ^ n) as Hp by (apply Z.pow_add_r; lia).
    destruct (IH (low + v * 2 ^ offset) (offset + n)) as (high & -> & Hh & Hs); [lia|rewrite Hp; nia|].
    exists (v + high * 2 ^ n). rewrite Hp, Z.pow_add_r by lia. split_and!; [lia|nia|nia|lia].
Qed.

Lemma packed_field pre v n post low offset o :
  Forall field_ok (pre ++ (v, n) :: post) → 0 ≤ offset → 0 ≤ low < 2 ^ offset → o = offset + foldr Z.add 0 pre.*2 →
  get_field (packed low offset (pre ++ (v, n) :: post)) o n = v.
Proof.
  intros Hf Ho Hl ->. revert low offset Hf Ho Hl. induction pre as [|[v' n'] pre IH]; intros low offset Hf Ho Hl; cbn [app packed fmap list_fmap foldr snd].
  - inversion Hf as [|?? [Hn Hv] Hf']; subst. cbn [fst snd] in *. rewrite lor_field, Z.add_0_r by lia. pose proof (pow2_pos offset Ho).
    assert (2 ^ (offset + n) = 2 ^ offset * 2 ^ n) as Hp by (apply Z.pow_add_r; lia).
    destruct (packed_is post (low + v * 2 ^ offset) (offset + n) Hf') as (high & -> & _); [lia|rewrite Hp; nia|].
    rewrite Hp. replace (_ + high * _) with (low + (v + high * 2 ^ n) * 2 ^ offset) by lia. by apply get_field_is.
  - inversion Hf as [|?? [Hn Hv] Hf']; subst. cbn [fst snd] in *. rewrite Z.add_assoc. pose proof (pow2_pos offset Ho).
    assert (2 ^ (offset + n') = 2 ^ offset * 2 ^ n') as Hp by (apply Z.pow_add_r; lia). rewrite lor_field by lia. apply IH; [done|lia|rewrite Hp; nia].
Qed.

Lemma packed_at fields i v n o :
  fields !! i = Some (v, n) → Forall field_ok fields → o = foldr Z.add 0 (take i fields).*2 → get_field (packed 0 0 fields) o n = v.
Proof.
  intros Hi Hf ->. rewrite <-(take_drop_middle _ _ _ Hi) in Hf |- * at 1. apply packed_field; [done|lia|simpl; lia|lia].
Qed.

(** The loads of the fixed part. *)
Lemma le_at_app a b i n : length a = i → le_at (a ++ b) i n = le_at b 0 n.
Proof. intros <-. unfold le_at. by rewrite drop_app_length. Qed.

Lemma le_at_word n z rest : 0 ≤ z < 256 ^ Z.of_nat n → le_at (le_bytes n z ++ rest) 0 n = z.
Proof. intros Hz. unfold le_at. rewrite drop_0, take_le_bytes, le_val_bytes. by apply Z.mod_small. Qed.

(** The five words of the fixed part are found at their places. *)
Lemma header_words magic raw w0 w1 w2 tail :
  0 ≤ raw < 2 ^ 32 → 0 ≤ w0 < 2 ^ 64 → 0 ≤ w1 < 2 ^ 64 → 0 ≤ w2 < 2 ^ 64 →
  let b := (le_bytes 4 magic ++ le_bytes 4 raw ++ le_bytes 8 w0 ++ le_bytes 8 w1 ++ le_bytes 8 w2) ++ tail in
  le_at b 4 4 = raw ∧ le_at b 8 8 = w0 ∧ le_at b 16 8 = w1 ∧ le_at b 24 8 = w2 ∧ drop 32 b = tail.
Proof.
  intros Hr H0 H1 H2 b. unfold b. split_and!; [| | | |by apply drop_app_length'; rewrite !length_app, !length_le_bytes].
  - rewrite <-!app_assoc, le_at_app by apply length_le_bytes. by apply le_at_word.
  - replace (_ ++ tail) with ((le_bytes 4 magic ++ le_bytes 4 raw) ++ le_bytes 8 w0 ++ le_bytes 8 w1 ++ le_bytes 8 w2 ++ tail) by (by rewrite <-!app_assoc).
    rewrite le_at_app by (by rewrite !length_app, !length_le_bytes). by apply le_at_word.
  - replace (_ ++ tail) with ((le_bytes 4 magic ++ le_bytes 4 raw ++ le_bytes 8 w0) ++ le_bytes 8 w1 ++ le_bytes 8 w2 ++ tail) by (by rewrite <-!app_assoc).
    rewrite le_at_app by (by rewrite !length_app, !length_le_bytes). by apply le_at_word.
  - replace (_ ++ tail) with ((le_bytes 4 magic ++ le_bytes 4 raw ++ le_bytes 8 w0 ++ le_bytes 8 w1) ++ le_bytes 8 w2 ++ tail) by (by rewrite <-!app_assoc).
    rewrite le_at_app by (by rewrite !length_app, !length_le_bytes). by apply le_at_word.
Qed.

(** The tables are cut out of the array they were joined to. *)
Lemma with_freqs_all (h : header_v1) k :
  header_ok h → with_freqs k (all_freq h) = k (l_freq h) (m_freq h) (d_freq h) (literal_freq h).
Proof.
  intros H. destruct (ok_lengths _ H) as (H1 & H2 & H3 & H4). unfold with_freqs, all_freq.
  set (l := l_freq h ++ _). assert (drop 40 l = d_freq h ++ literal_freq h) as H40.
  { etrans; [exact (eq_sym (drop_drop l 20 20))|]. unfold l. by rewrite (drop_app_length' _ _ 20 (eq_sym H1)), (drop_app_length' _ _ 20 (eq_sym H2)). }
  assert (drop 104 l = literal_freq h) as H104.
  { etrans; [exact (eq_sym (drop_drop l 64 40))|]. rewrite H40. by rewrite (drop_app_length' _ _ 64 (eq_sym H3)). }
  rewrite H40, H104. unfold l. rewrite (take_app_length' _ _ 20 (eq_sym H1)), (drop_app_length' _ _ 20 (eq_sym H1)).
  rewrite (take_app_length' _ _ 20 (eq_sym H2)), (take_app_length' _ _ 64 (eq_sym H3)). by rewrite (firstn_all2 (n := 256)) by (rewrite H4; done).
Qed.

Lemma length_all_freq h : header_ok h → length (all_freq h) = freq_count.
Proof. intros H. destruct (ok_lengths _ H) as (H1 & H2 & H3 & H4). unfold all_freq. by rewrite !length_app, H1, H2, H3, H4. Qed.

Lemma freq_table_ok h :
  Forall codable (all_freq h) → length (all_freq h) = freq_count →
  ∃ t, lzfse_encode_v1_freq_table h = Ok t ∧ 0 < size t ≤ 630 ∧ decode_freqs freq_count 0 0 t = Some (all_freq h).
Proof.
  intros Hc Hlen.
  destruct (encode_freqs_is (all_freq h) 0 0 Hc) as (t & Ht & Hv & Hs); [lia|cbn; lia|]. exists t. split; [done|].
  pose proof (freqs_range _ Hc) as [_ Hr]. rewrite Hlen in Hr. change (14 * Z.of_nat freq_count) with 5040 in Hr.
  assert (0 < freqs_len (all_freq h)).
  { destruct (all_freq h) as [|v l] eqn:E; [done|]. inversion Hc as [|?? Hv' Hl]; subst. destruct (freq_value_range v Hv') as [? _].
    pose proof (freqs_range l Hl) as [_ ?]. cbn [freqs_len]. lia. }
  split; [lia|]. rewrite <-Hlen. apply (decode_freqs_is _ 0 0 t (8 * size t - freqs_len (all_freq h))); [done|lia|cbn; lia|rewrite Hv|..]; lia.
Qed.

Lemma header_roundtrip h :
  header_ok h →
  ∃ t b, lzfse_encode_v1_freq_table h = Ok t ∧ size t ≤ 630 ∧
    lzfse_encode_v1_state h (header_v2_fixed + size t) = Ok b ∧ size b = header_v2_fixed ∧ le_val (take 4 b) = LZFSE_COMPRESSEDV2_BLOCK_MAGIC ∧
    ∀ rest, lzfse_decode_v2_header_size (b ++ t ++ rest) = header_v2_fixed + size t ∧ lzfse_decode_v1 (b ++ t ++ rest) = Some h.
Proof.
  intros H. destruct (freq_table_ok h (ok_codable _ H) (length_all_freq _ H)) as (t & Ht & Hs & Hd). exists t. unfold lzfse_encode_v1_state, header_v2_fixed.
  destruct (ok_literal_state _ H) as (s0 & s1 & s2 & s3 & Hst & Hs0 & Hs1 & Hs2 & Hs3). destruct (ok_states _ H) as (Hl & Hm & Hds).
  pose proof (ok_literals _ H). pose proof (ok_matches _ H). pose proof (ok_literal_payload _ H). pose proof (ok_lmd_payload _ H).
  pose proof (ok_literal_bits _ H). pose proof (ok_lmd_bits _ H). pose proof (ok_raw _ H). unfold state_at. rewrite Hst. cbn [lookup list_lookup default].
  change (2 ^ 10) with 1024 in *. change (2 ^ 20) with 1048576 in *.
  set (f0 := [(n_literals h, 20); (n_literal_payload_bytes h, 20); (n_matches h, 20); (7 + literal_bits h, 3)]).
  set (f1 := [(s0, 10); (s1, 10); (s2, 10); (s3, 10); (n_lmd_payload_bytes h, 20); (7 + lmd_bits h, 3)]).
  set (f2 := [(32 + size t, 32); (l_state h, 10); (m_state h, 10); (d_state h, 10)]).
  assert (Forall field_ok f0 ∧ Forall field_ok f1 ∧ Forall field_ok f2) as (F0 & F1 & F2) by (repeat constructor; simpl; lia).
  rewrite !setField_ok by (simpl; lia). cbn [mbind result_bind].
  exists (le_bytes 4 LZFSE_COMPRESSEDV2_BLOCK_MAGIC ++ le_bytes 4 (n_raw_bytes h) ++ le_bytes 8 (packed 0 0 f0) ++ le_bytes 8 (packed 0 0 f1) ++ le_bytes 8 (packed 0 0 f2)).
  split_and!; [done|lia|done|by rewrite !size_app, !size_le_bytes|done|]. intros rest.
  destruct (packed_is f0 0 0 F0) as (h0 & E0 & R0 & _); [lia|simpl; lia|]. destruct (packed_is f1 0 0 F1) as (h1 & E1 & R1 & _); [lia|simpl; lia|].
  destruct (packed_is f2 0 0 F2) as (h2 & E2 & R2 & _); [lia|simpl; lia|]. cbn in R0, R1, R2.
  edestruct (header_words LZFSE_COMPRESSEDV2_BLOCK_MAGIC (n_raw_bytes h) (packed 0 0 f0) (packed 0 0 f1) (packed 0 0 f2) (t ++ rest))
    as (A4 & A8 & A16 & A24 & A32); [done|rewrite ?E0, ?E1, ?E2; cbn; lia..|].
  unfold lzfse_decode_v2_header_size, lzfse_decode_v1. rewrite A4, A8, A16, A24, A32.
  rewrite (packed_at f0 0 (n_literals h) 20 0 eq_refl F0 eq_refl), (packed_at f0 1 (n_literal_payload_bytes h) 20 20 eq_refl F0 eq_refl),
    (packed_at f0 2 (n_matches h) 20 40 eq_refl F0 eq_refl), (packed_at f0 3 (7 + literal_bits h) 3 60 eq_refl F0 eq_refl),
    (packed_at f1 0 s0 10 0 eq_refl F1 eq_refl), (packed_at f1 1 s1 10 10 eq_refl F1 eq_refl), (packed_at f1 2 s2 10 20 eq_refl F1 eq_refl),
    (packed_at f1 3 s3 10 30 eq_refl F1 eq_refl), (packed_at f1 4 (n_lmd_payload_bytes h) 20 40 eq_refl F1 eq_refl),
    (packed_at f1 5 (7 + lmd_bits h) 3 60 eq_refl F1 eq_refl), (packed_at f2 0 (32 + size t) 32 0 eq_refl F2 eq_refl),
    (packed_at f2 1 (l_state h) 10 32 eq_refl F2 eq_refl), (packed_at f2 2 (m_state h) 10 42 eq_refl F2 eq_refl), (packed_at f2 3 (d_state h) 10 52 eq_refl F2 eq_refl).
  split; [done|]. unfold header_v2_fixed. replace (32 + size t - 32) with (size t) by lia. destruct (Z.eqb_spec (size t) 0); [lia|].
  unfold size at 1. rewrite Nat2Z.id, take_app_length, Hd. cbn [mbind option_bind]. rewrite (with_freqs_all _ _ H).
  pose proof (ok_magic _ H). pose proof (ok_payload _ H). destruct h. cbn in *. do 2 f_equal; lia || done.
Qed.

(** ** Properties *)

(** C28: the packed form of a header whose fields fit is at most 662 bytes long, begins with the
    number of its kind, and the decoder reads its size and all its fields back,
    whatever follows it. *)
Theorem v2_header_roundtrip (h : header_v1) :
  header_ok h →
  ∃ freqs fixed, lzfse_encode_v1_freq_table h = Ok freqs ∧ lzfse_encode_v1_state h (header_v2_fixed + size freqs) = Ok fixed ∧
    size (fixed ++ freqs) ≤ 662 ∧ le_val (take 4 fixed) = LZFSE_COMPRESSEDV2_BLOCK_MAGIC ∧
    ∀ rest, lzfse_decode_v2_header_size (fixed ++ freqs ++ rest) = size (fixed ++ freqs) ∧ lzfse_decode_v1 (fixed ++ freqs ++ rest) = Some h.
Proof.
  intros Hh. destruct (header_roundtrip h Hh) as (freqs & fixed & Hf & Hs & Hx & Hl & Hm & Hd). exists freqs, fixed.
  rewrite size_app, Hl. split_and!; [done..|unfold header_v2_fixed; lia|done|exact Hd].
Qed.

(** The header of a block of twelve literals and two matches. *)
Definition small_header : header_v1 :=
  mkHeader LZFSE_COMPRESSEDV1_BLOCK_MAGIC 60 25 12 2 8 17 (-3) [1; 2; 3; 1023] (-7) 5 6 7
    (replicate 20 3) (replicate 20 0) (1047 :: replicate 63 24) (replicate 256 4).

Lemma v2_header_roundtrip_witness :
  ∃ freqs fixed, lzfse_encode_v1_freq_table small_header = Ok freqs ∧ lzfse_encode_v1_state small_header (header_v2_fixed + size freqs) = Ok fixed ∧
    size (fixed ++ freqs) ≤ 662 ∧ le_val (take 4 fixed) = LZFSE_COMPRESSEDV2_BLOCK_MAGIC ∧
    ∀ rest, lzfse_decode_v2_header_size (fixed ++ freqs ++ rest) = size (fixed ++ freqs) ∧ lzfse_decode_v1 (fixed ++ freqs ++ rest) = Some small_header.
Proof.
  apply (v2_header_roundtrip small_header). split; try by vm_compute.
  - by exists 1, 2, 3, 1023.
  - unfold all_freq, small_header. cbn [l_freq m_freq d_freq literal_freq].
    repeat (apply Forall_app; split) || (apply Forall_cons; split) || (apply Forall_replicate); by vm_compute.
Defined.

End LzfseHeader.
Export LzfseHeader.
