(* ===== verification/LzfseBlock.v ===== *)
(** * third/lzfse: compressed blocks

    [lzfse_encode_matches] of lzfse_encode_base.c turns the matches and literals that were
    collected into a block; the block part of [lzfse_decode] and [lzfse_decode_lmd] of
    lzfse_decode_base.c read one, into tables and literals that keep what earlier blocks have
    left ([block_state]).  The three arrays of the encoder are one list; the
    destination is what has been written of it and its size. *)

From stdpp Require Import base list strings.
From Stdlib Require Import Ascii ZArith Lia.
From S2P Require Import Prelude CInt Util Buffer LzvnDecode Fse FseStream LzfseHeader.
Local Open Scope Z_scope.

Module LzfseBlock.

Inductive status := OK | SRC_EMPTY | DST_FULL | ERROR.

(** ** Encoding *)

(** A literal length, a match length and a distance. *)
Record lmd := mkLmd {
  l_value : Z;
  m_value : Z;
  d_value : Z;
}.

(** What [lzfse_encoder_state] has written and collected. *)
Record output := mkOutput {
  e_dst : bytes;
  e_lmd : list lmd;
  e_literals : bytes;
}.

(** Zero literals up to a multiple of four. *)
Definition pad_literals (literals : bytes) : bytes := literals ++ replicate (Z.to_nat (- size literals mod 4)) (byte_of 0).

(** A distance that is the one before becomes zero, and back. *)
Fixpoint encode_distances (d_prev : Z) (l : list lmd) : list lmd :=
  match l with
  | [] => []
  | x :: l =>
      if d_value x =? d_prev then mkLmd (l_value x) (m_value x) 0 :: encode_distances d_prev l
      else x :: encode_distances (d_value x) l
  end.
Fixpoint revert_distances (d_prev : Z) (l : list lmd) : list lmd :=
  match l with
  | [] => []
  | x :: l =>
      if d_value x =? 0 then mkLmd (l_value x) (m_value x) d_prev :: revert_distances d_prev l
      else x :: revert_distances (d_value x) l
  end.

(** How often each of [n] symbols occurs; a block has fewer than 2^32 of them. *)
Definition occurrences (n : nat) (syms : list Z) : list Z :=
  fold_left (λ occ s, alter Z.succ (Z.to_nat s) occ) syms (replicate n 0).

Section Tables.
Context (literal_encoder l_encoder m_encoder d_encoder : list (option fse_encoder_entry)).
(** The bytes of the destination from the start of the payload on. *)
Context (room : Z).

(** The literals from the last one on, four at a time; [None] when the output is full. *)
Fixpoint encode_literals (literals : bytes) (state0 state1 state2 state3 : Z) (out : fse_out_stream) (buf : bytes)
    : result (option (list Z * fse_out_stream * bytes)) :=
  match literals with
  | c3 :: c2 :: c1 :: c0 :: literals =>
      if room <? size buf + 16 then Ok None
      else
        '(state3, out) ← fse_encode literal_encoder state3 out (byte_val c3);
        '(state2, out) ← fse_encode literal_encoder state2 out (byte_val c2);
        '(state1, out) ← fse_encode literal_encoder state1 out (byte_val c1);
        '(state0, out) ← fse_encode literal_encoder state0 out (byte_val c0);
        '(out, buf) ← fse_out_flush room out buf;
        encode_literals literals state0 state1 state2 state3 out buf
  | _ => Ok (Some ([state0; state1; state2; state3], out, buf))
  end.

(** The extra bits of a value and its symbol. *)
Definition encode_value (encoder : list (option fse_encoder_entry)) (extra_bits base_value : list Z)
    (base_from_value : Z → result Z) (state : Z) (out : fse_out_stream) (value : Z) : result (Z * fse_out_stream) :=
  symbol ← base_from_value value;
  out ← fse_out_push out (base_of extra_bits symbol) (value - base_of base_value symbol);
  fse_encode encoder state out symbol.

(** The matches from the last one on. *)
Fixpoint encode_lmds (l : list lmd) (l_state m_state d_state : Z) (out : fse_out_stream) (buf : bytes)
    : result (option (Z * Z * Z * fse_out_stream * bytes)) :=
  match l with
  | [] => Ok (Some (l_state, m_state, d_state, out, buf))
  | x :: l =>
      if room <? size buf + 16 then Ok None
      else
        '(d_state, out) ← encode_value d_encoder d_extra_bits d_base_value d_base_from_value d_state out (d_value x);
        '(m_state, out) ← encode_value m_encoder m_extra_bits m_base_value m_base_from_value m_state out (m_value x);
        '(l_state, out) ← encode_value l_encoder l_extra_bits l_base_value l_base_from_value l_state out (l_value x);
        '(out, buf) ← fse_out_flush room out buf;
        encode_lmds l l_state m_state d_state out buf
  end.
End Tables.

(** The payloads; [None] when the output is full, else the fields of the header and the
    bytes of both streams. *)
Definition encode_literal_payload `{Machine} (room : Z) (freq : list Z) (literals : bytes) : result (option (list Z * Z * bytes)) :=
  r ← encode_literals (fse_init_encoder_table LZFSE_ENCODE_LITERAL_STATES freq) room (reverse literals) 0 0 0 0 fse_out_init [];
  match r with
  | None => Ok None
  | Some (states, out, buf) => '(out, buf) ← fse_out_finish room out buf; Ok (Some (states, out_nbits out, buf))
  end.

Definition encode_lmd_payload `{Machine} (room : Z) (l_freq m_freq d_freq : list Z) (l : list lmd)
    : result (option (Z * Z * Z * Z * bytes)) :=
  if room <? 8 then Ok None
  else
    r ← encode_lmds (fse_init_encoder_table LZFSE_ENCODE_L_STATES l_freq) (fse_init_encoder_table LZFSE_ENCODE_M_STATES m_freq)
          (fse_init_encoder_table LZFSE_ENCODE_D_STATES d_freq) room (reverse l) 0 0 0 fse_out_init (le_bytes 8 0);
    match r with
    | None => Ok None
    | Some (l_state, m_state, d_state, out, buf) =>
        '(out, buf) ← fse_out_finish room out buf; Ok (Some (l_state, m_state, d_state, out_nbits out, buf))
    end.

Definition sum_of (f : lmd → Z) (l : list lmd) : Z := foldr Z.add 0 (f <$> l) mod 2 ^ 32.

(** The headers and both payloads, with the tables of frequencies. *)
Definition encode_with_tables `{Machine} (room : Z) (l : list lmd) (literals : bytes) (l_freq m_freq d_freq literal_freq : list Z)
    : result (option bytes) :=
  let n_raw_bytes := (sum_of m_value l + sum_of l_value l) mod 2 ^ 32 in
  let header1 n_literal_payload_bytes n_lmd_payload_bytes literal_bits literal_state lmd_bits l_state m_state d_state :=
    mkHeader LZFSE_COMPRESSEDV1_BLOCK_MAGIC n_raw_bytes (n_literal_payload_bytes + n_lmd_payload_bytes) (size literals)
      (Z.of_nat (length l)) n_literal_payload_bytes n_lmd_payload_bytes literal_bits literal_state lmd_bits
      l_state m_state d_state l_freq m_freq d_freq literal_freq in
  freqs ← lzfse_encode_v1_freq_table (header1 0 0 0 [] 0 0 0 0);
  let room := room - (header_v2_fixed + size freqs) in
  r ← encode_literal_payload room literal_freq literals;
  match r with
  | None => Ok None
  | Some (literal_state, literal_bits, literal_payload) =>
      r ← encode_lmd_payload (room - size literal_payload) l_freq m_freq d_freq l;
      match r with
      | None => Ok None
      | Some (l_state, m_state, d_state, lmd_bits, lmd_payload) =>
          fixed ← lzfse_encode_v1_state
            (header1 (size literal_payload) (size lmd_payload) literal_bits literal_state lmd_bits l_state m_state d_state)
            (header_v2_fixed + size freqs);
          Ok (Some (fixed ++ freqs ++ literal_payload ++ lmd_payload))
      end
  end.

(** The block for the distances as they are stored and the padded literals. *)
Definition encode_block `{Machine} (room : Z) (l : list lmd) (literals : bytes) : result (option bytes) :=
  l_syms ← mapM_result (l_base_from_value ∘ l_value) l;
  m_syms ← mapM_result (m_base_from_value ∘ m_value) l;
  d_syms ← mapM_result (d_base_from_value ∘ d_value) l;
  if room <? sizeof_header_v2 then Ok None
  else
    l_freq ← fse_normalize_freq LZFSE_ENCODE_L_STATES (occurrences LZFSE_ENCODE_L_SYMBOLS l_syms);
    m_freq ← fse_normalize_freq LZFSE_ENCODE_M_STATES (occurrences LZFSE_ENCODE_M_SYMBOLS m_syms);
    d_freq ← fse_normalize_freq LZFSE_ENCODE_D_STATES (occurrences LZFSE_ENCODE_D_SYMBOLS d_syms);
    literal_freq ← fse_normalize_freq LZFSE_ENCODE_LITERAL_STATES (occurrences LZFSE_ENCODE_LITERAL_SYMBOLS (byte_val <$> literals));
    encode_with_tables room l literals l_freq m_freq d_freq literal_freq.

(** [lzfse_encode_matches]: the block is added and nothing is left to encode, or the
    destination is full and the state is restored. *)
Definition lzfse_encode_matches `{Machine} (dst_size : Z) (s : output) : result (status * output) :=
  if bool_decide (e_literals s = []) && bool_decide (e_lmd s = []) then Ok (OK, s)
  else
    let literals := pad_literals (e_literals s) in
    if LZFSE_LITERALS_PER_BLOCK <? size literals then Err Undefined
    else
      let l := encode_distances 0 (e_lmd s) in
      r ← encode_block (dst_size - size (e_dst s)) l literals;
      Ok (match r with
          | Some block => (OK, mkOutput (e_dst s ++ block) [] [])
          | None => (DST_FULL, mkOutput (e_dst s) (revert_distances 0 l) (e_literals s))
          end).

(** ** Decoding *)

(** What the decoder keeps from one block to the next in [lzfse_decoder_state]: the tables
    and the literals with their padding. *)
Record block_state := mkBlockState {
  bs_literal_decoder : list fse_decoder_entry;
  bs_l_decoder : list fse_value_decoder_entry;
  bs_m_decoder : list fse_value_decoder_entry;
  bs_d_decoder : list fse_value_decoder_entry;
  bs_literals : bytes;
}.

(** As [memset] leaves it. *)
Definition zero_entry : fse_decoder_entry := mkDecoderEntry 0 0 0.
Definition zero_value_entry : fse_value_decoder_entry := mkValueEntry 0 0 0 0.
Definition block_state_init : block_state :=
  mkBlockState (replicate (Z.to_nat LZFSE_ENCODE_LITERAL_STATES) zero_entry)
    (replicate (Z.to_nat LZFSE_ENCODE_L_STATES) zero_value_entry) (replicate (Z.to_nat LZFSE_ENCODE_M_STATES) zero_value_entry)
    (replicate (Z.to_nat LZFSE_ENCODE_D_STATES) zero_value_entry) (replicate (Z.to_nat (LZFSE_LITERALS_PER_BLOCK + 64)) (byte_of 0)).

(** The arrays have their sizes. *)
Record block_state_sized (bs : block_state) : Prop := {
  sized_literal_decoder : length (bs_literal_decoder bs) = Z.to_nat LZFSE_ENCODE_LITERAL_STATES;
  sized_l_decoder : length (bs_l_decoder bs) = Z.to_nat LZFSE_ENCODE_L_STATES;
  sized_m_decoder : length (bs_m_decoder bs) = Z.to_nat LZFSE_ENCODE_M_STATES;
  sized_d_decoder : length (bs_d_decoder bs) = Z.to_nat LZFSE_ENCODE_D_STATES;
  sized_literals : length (bs_literals bs) = Z.to_nat (LZFSE_LITERALS_PER_BLOCK + 64);
}.

Lemma block_state_init_sized : block_state_sized block_state_init.
Proof. split; unfold block_state_init; cbn [bs_literal_decoder bs_l_decoder bs_m_decoder bs_d_decoder bs_literals]; apply length_replicate. Qed.

(** The memory [mem], which is read backwards from [pbuf]. *)
Fixpoint decode_literals (t : list fse_decoder_entry) (mem : bytes) (count : nat) (state0 state1 state2 state3 : Z)
    (s : fse_in_stream) (pbuf : Z) : result (option bytes) :=
  match count with
  | O => Ok (Some [])
  | S count =>
      r ← fse_in_checked_flush mem s pbuf 0;
      match r with
      | None => Ok None
      | Some (s, pbuf) =>
          '(c0, state0, s) ← fse_decode t state0 s;
          '(c1, state1, s) ← fse_decode t state1 s;
          '(c2, state2, s) ← fse_decode t state2 s;
          '(c3, state3, s) ← fse_decode t state3 s;
          literals ← decode_literals t mem count state0 state1 state2 state3 s pbuf;
          Ok (match literals with
              | Some literals => Some (byte_of c0 :: byte_of c1 :: byte_of c2 :: byte_of c3 :: literals)
              | None => None
              end)
      end
  end.

(** [n] literals from the array of the decoder, zeros and literals of earlier blocks behind
    those of the block included; a wide copy may load up to eight bytes more, which do not
    count. *)
Definition literals_at (literals : bytes) (lit : Z) (n : Z) : result bytes :=
  if size literals <? lit + n then Err Undefined else Ok (take (Z.to_nat n) (drop (Z.to_nat lit) literals)).

(** The match where wide copies have room: blocks of eight bytes, unless the match
    overlaps itself at a smaller distance. *)
Definition wide_match (M D : nat) (dst : bytes) : result bytes :=
  if (8 <=? D)%nat then out ← match_blocks (Nat.max 1 ((M + 7) / 8)) D dst; Ok (take (length dst + M) out)
  else if (M <=? D)%nat then
    if (length dst <? D)%nat then Err Undefined else Ok (dst ++ take M (drop (length dst - D) dst))
  else match_bytes M D dst.

(** Executing one L, M, D: it fails, is done, or fills the destination. *)
Inductive executed := Failed | Done (lit : Z) (dst : bytes) | Full (dst : bytes).

Definition execute_match (dst_size : Z) (literals : bytes) (lit : Z) (dst : bytes) (L M D : Z) : result executed :=
  if size dst + L <? D mod 2 ^ 32 then Ok Failed
  else
    let remaining_bytes := dst_size - size dst in
    if L + M <=? remaining_bytes - 32 then
      l ← literals_at literals lit L;
      dst ← wide_match (Z.to_nat M) (Z.to_nat D) (dst ++ l);
      Ok (Done (lit + L) dst)
    else if L <=? remaining_bytes then
      l ← literals_at literals lit L;
      if M <=? remaining_bytes - L then
        dst ← match_bytes (Z.to_nat M) (Z.to_nat D) (dst ++ l); Ok (Done (lit + L) dst)
      else
        dst ← match_bytes (Z.to_nat (remaining_bytes - L)) (Z.to_nat D) (dst ++ l); Ok (Full dst)
    else
      l ← literals_at literals lit remaining_bytes; Ok (Full (dst ++ l)).

Section Lmd.
Context (mem : bytes) (src_start dst_size : Z) (literals : bytes).
Context (l_decoder m_decoder d_decoder : list fse_value_decoder_entry).

(** [lzfse_decode_lmd] from the start of a block. *)
Fixpoint lzfse_decode_lmd (symbols : nat) (l_state m_state d_state : Z) (s : fse_in_stream) (src : Z) (D : Z) (lit : Z) (dst : bytes)
    : result (status * bytes) :=
  match symbols with
  | O => Ok (OK, dst)
  | S symbols =>
      r ← fse_in_checked_flush mem s src src_start;
      match r with
      | None => Ok (ERROR, dst)
      | Some (s, src) =>
          '(L, l_state, s) ← fse_value_decode l_decoder l_state s;
          _ ← assert_ (l_state <? LZFSE_ENCODE_L_STATES);
          if LZFSE_LITERALS_PER_BLOCK + 64 <=? lit + L then Ok (ERROR, dst)
          else
            '(M, m_state, s) ← fse_value_decode m_decoder m_state s;
            _ ← assert_ (m_state <? LZFSE_ENCODE_M_STATES);
            '(new_d, d_state, s) ← fse_value_decode d_decoder d_state s;
            _ ← assert_ (d_state <? LZFSE_ENCODE_D_STATES);
            let D := if new_d =? 0 then D else new_d in
            r ← execute_match dst_size literals lit dst L M D;
            match r with
            | Failed => Ok (ERROR, dst)
            | Full dst => Ok (DST_FULL, dst)
            | Done lit dst => lzfse_decode_lmd symbols l_state m_state d_state s src D lit dst
            end
      end
  end.
End Lmd.

(** The header at the start of [src] and its size, or the status with which decoding stops. *)
Definition decode_header (magic : Z) (src : bytes) : status + header_v1 * Z :=
  if magic =? LZFSE_COMPRESSEDV2_BLOCK_MAGIC then
    if size src <? header_v2_fixed then inl SRC_EMPTY
    else
      let header_size := lzfse_decode_v2_header_size src in
      if size src <? header_size then inl SRC_EMPTY
      else match lzfse_decode_v1 src with Some h => inr (h, header_size) | None => inl ERROR end
  else if size src <? Z.of_nat sizeof_header_v1 then inl SRC_EMPTY
  else inr (header_v1_of src, Z.of_nat sizeof_header_v1).

(** The decoder stops within the block, or goes on behind it with what the block left. *)
Inductive block_outcome := Stopped (st : status) (dst : bytes) | Closed (src dst : bytes) (bs : block_state).

(** Both payloads; [src] begins with that of the matches, at position [pos] of [mem]. *)
Definition decode_payloads (mem : bytes) (dst_size : Z) (h : header_v1) (pos : Z) (src dst : bytes) (bs : block_state) : result block_outcome :=
  literal_decoder ← fse_init_decoder_table LZFSE_ENCODE_LITERAL_STATES (literal_freq h) (bs_literal_decoder bs);
  l_decoder ← fse_init_value_decoder_table LZFSE_ENCODE_L_STATES l_extra_bits l_base_value (l_freq h) (bs_l_decoder bs);
  m_decoder ← fse_init_value_decoder_table LZFSE_ENCODE_M_STATES m_extra_bits m_base_value (m_freq h) (bs_m_decoder bs);
  d_decoder ← fse_init_value_decoder_table LZFSE_ENCODE_D_STATES d_extra_bits d_base_value (d_freq h) (bs_d_decoder bs);
  r ← fse_in_checked_init mem (literal_bits h) pos 0;
  match r with
  | None => Ok (Stopped ERROR dst)
  | Some (s, buf) =>
      r ← decode_literals literal_decoder mem (Z.to_nat ((n_literals h + 3) / 4)) (state_at h 0) (state_at h 1) (state_at h 2) (state_at h 3) s buf;
      match r with
      | None => Ok (Stopped ERROR dst)
      | Some literals =>
          let literals := fill (bs_literals bs) literals in
          r ← fse_in_checked_init mem (lmd_bits h) (pos + n_lmd_payload_bytes h) pos;
          match r with
          | None => Ok (Stopped ERROR dst)
          | Some (s, buf) =>
              if (size src =? 0) || (size src <? n_lmd_payload_bytes h) then Ok (Stopped SRC_EMPTY dst)
              else
                '(st, dst) ← lzfse_decode_lmd mem 0 dst_size literals l_decoder m_decoder d_decoder
                  (Z.to_nat (n_matches h)) (l_state h) (m_state h) (d_state h) s buf (-1) 0 dst;
                Ok (match st with
                    | OK => Closed (drop (Z.to_nat (n_lmd_payload_bytes h)) src) dst
                              (mkBlockState literal_decoder l_decoder m_decoder d_decoder literals)
                    | _ => Stopped st dst
                    end)
          end
      end
  end.

(** A compressed block at the start of [src], the rest of the whole source [mem]; [behind] is
    the memory that can be read behind the source. *)
Definition decode_block (mem behind : bytes) (dst_size magic : Z) (src dst : bytes) (bs : block_state) : result block_outcome :=
  match decode_header magic src with
  | inl st => Ok (Stopped st dst)
  | inr (h, header_size) =>
      if size src <? header_size + n_literal_payload_bytes h + n_lmd_payload_bytes h then Ok (Stopped SRC_EMPTY dst)
      else if negb (lzfse_check_block_header_v1 h) then Ok (Stopped ERROR dst)
      else
        let src := drop (Z.to_nat (header_size + n_literal_payload_bytes h)) src in
        decode_payloads (mem ++ behind) dst_size h (size mem - size src) src dst bs
  end.

End LzfseBlock.
Export LzfseBlock.
