(* ===== verification/LzfsePayload.v ===== *)
(** * lzfse: what payloads and matches stand for

    [LzfsePayload]: the payload of a block against the literals and matches it encodes.
    [LzfseExpand]: the bytes that matches stand for. *)

From stdpp Require Import base list strings.
From Stdlib Require Import Ascii ZArith Lia.
From S2P Require Import Prelude CInt Util Buffer LzvnDecode LzvnInstr Fse FseNormalize FseStream LzfseHeader LzfseBlock.
Local Open Scope Z_scope.

(** * third/lzfse: the payloads of a compressed block are read back

    Two relations say what the encoder has pushed for the literals and for the matches;
    the encoder establishes them from the last element to the first, and the decoder runs
    along them in the other direction. *)

Module LzfsePayload.

(** ** Occurrences and tables *)

Section Occurrences.
Context (n : nat).

Lemma count_step occ s :
  length occ = n → Forall (λ c, 0 ≤ c) occ → 0 ≤ s < Z.of_nat n →
  let occ' := alter Z.succ (Z.to_nat s) occ in
  length occ' = n ∧ Forall (λ c, 0 ≤ c) occ' ∧ sum_of_freq occ' = sum_of_freq occ + 1 ∧
  (∀ i c, occ !! i = Some c → ∃ c', occ' !! i = Some c' ∧ c ≤ c') ∧ (∃ c, occ' !! Z.to_nat s = Some c ∧ 0 < c).
Proof.
  intros Hl Hf Hs occ'. destruct (lookup_lt_is_Some_2 occ (Z.to_nat s)) as [c Hc]; [lia|].
  pose proof (Forall_lookup_1 _ _ _ _ Hf Hc) as Hc0. cbn in Hc0. split_and!.
  - unfold occ'. by rewrite length_alter.
  - apply Forall_lookup. intros i x Hi. unfold occ' in Hi. destruct (decide (i = Z.to_nat s)) as [->|].
    + rewrite list_lookup_alter_eq, Hc in Hi. injection Hi as <-. lia.
    + rewrite list_lookup_alter_ne in Hi by done. exact (Forall_lookup_1 _ _ _ _ Hf Hi).
  - unfold occ'. rewrite (sum_alter _ _ _ _ Hc). lia.
  - intros i c' Hi. destruct (decide (i = Z.to_nat s)) as [->|]; unfold occ'.
    + rewrite Hi in Hc. injection Hc as ->. exists (Z.succ c). rewrite list_lookup_alter_eq, Hi. split; [done|lia].
    + exists c'. by rewrite list_lookup_alter_ne.
  - exists (Z.succ c). unfold occ'. rewrite list_lookup_alter_eq, Hc. split; [done|lia].
Qed.

Lemma occurrences_from syms occ :
  length occ = n → Forall (λ c, 0 ≤ c) occ → Forall (λ s, 0 ≤ s < Z.of_nat n) syms →
  let occ' := fold_left (λ occ s, alter Z.succ (Z.to_nat s) occ) syms occ in
  length occ' = n ∧ Forall (λ c, 0 ≤ c) occ' ∧ sum_of_freq occ' = sum_of_freq occ + Z.of_nat (length syms) ∧
  (∀ i c, occ !! i = Some c → ∃ c', occ' !! i = Some c' ∧ c ≤ c') ∧ (∀ s, s ∈ syms → ∃ c, occ' !! Z.to_nat s = Some c ∧ 0 < c).
Proof.
  intros Hl Hf Hs. revert occ Hl Hf. induction Hs as [|s syms Hs Hss IH]; intros occ Hl Hf; cbn [fold_left].
  - split_and!; [done|done|simpl; lia|intros i c Hc; exists c; split; [done|lia]|intros s Hin; by apply elem_of_nil in Hin].
  - destruct (count_step occ s Hl Hf Hs) as (Hl' & Hf' & Hsum & Hmono & c & Hc & Hpos).
    destruct (IH _ Hl' Hf') as (Hl2 & Hf2 & Hsum2 & Hmono2 & Hin2). split_and!; [done|done|rewrite Hsum2, Hsum; simpl; lia| |].
    + intros i x Hi. destruct (Hmono i x Hi) as (y & Hy & ?). destruct (Hmono2 i y Hy) as (z & Hz & ?). exists z. split; [done|lia].
    + intros x [->|Hx]%elem_of_cons; [|by apply Hin2]. destruct (Hmono2 _ _ Hc) as (z & Hz & ?). exists z. split; [done|lia].
Qed.
End Occurrences.

(** Normalising the occurrences gives a table in which every symbol occurs. *)
Lemma table_ok n (count : nat) syms :
  0 ≤ n ≤ 10 → (0 < count)%nat → Z.of_nat count ≤ 2 ^ n → Z.of_nat (length syms) < 2 ^ 32 → Forall (λ s, 0 ≤ s < Z.of_nat count) syms →
  ∃ freq, fse_normalize_freq (2 ^ n) (occurrences count syms) = Ok freq ∧ length freq = count ∧ normalised n freq ∧
    Forall codable freq ∧ Forall (occurs freq) syms.
Proof.
  intros Hn Hc Hle Hlen Hs. destruct (occurrences_from count syms (replicate count 0)) as (Hl & Hf & Hsum & _ & Hin); [by rewrite length_replicate|by apply Forall_replicate; lia|done|].
  assert (∀ k, sum_of_freq (replicate k 0) = 0) as Hz by (intros k; induction k as [|k IH]; [done|exact IH]). rewrite Hz in Hsum.
  destruct (fse_normalize_freq_spec n (occurrences count syms)) as (freq & Hok & Hlf & Hnorm & Huse).
  { done. } { exact Hf. } { unfold occurrences. lia. } { intros E. unfold occurrences in E. rewrite E in Hl. simpl in Hl. lia. } { unfold occurrences. lia. }
  exists freq. split_and!; [done|unfold occurrences in Hlf; lia|done| |].
  - apply Forall_lookup. intros i f Hi. pose proof (first_state_bounds freq i f (freq_nonneg _ _ Hnorm) Hi) as Hb.
    pose proof (Forall_lookup_1 _ _ _ _ (freq_nonneg _ _ Hnorm) Hi) as H0. rewrite (freq_sum _ _ Hnorm) in Hb. pose proof (states_small n Hn). unfold codable. cbn in H0. lia.
  - apply Forall_forall. intros s Hsin. destruct (Hin s Hsin) as (c & Hc' & Hpos). split; [by apply (proj1 (Forall_forall _ _) Hs)|].
    by eapply Huse.
Qed.

(** ** Literals *)

Section Literals.
Context (freq : list Z).
Hypothesis Hnorm : normalised 10 freq.

(** What four interleaved coders have pushed for some literals, from the last on. *)
Inductive literals_coded : bytes → Z * Z * Z * Z → stack → Prop :=
| no_literals : literals_coded [] (0, 0, 0, 0) (mkStack 0 0)
| four_literals c0 c1 c2 c3 literals s0 s1 s2 s3 st s0' s1' s2' s3' st1 st2 st3 st4 n0 n1 n2 n3 :
    literals_coded literals (s0, s1, s2, s3) st →
    coded 10 freq (Z.to_nat (byte_val c3)) s3 st s3' st1 n3 → coded 10 freq (Z.to_nat (byte_val c2)) s2 st1 s2' st2 n2 →
    coded 10 freq (Z.to_nat (byte_val c1)) s1 st2 s1' st3 n1 → coded 10 freq (Z.to_nat (byte_val c0)) s0 st3 s0' st4 n0 →
    literals_coded (c0 :: c1 :: c2 :: c3 :: literals) (s0', s1', s2', s3') st4.

Lemma literals_coded_ok literals q st :
  literals_coded literals q st → stack_ok st ∧ bits_len st ≤ 10 * size literals ∧
  match q with (s0, s1, s2, s3) => 0 ≤ s0 < 2 ^ 10 ∧ 0 ≤ s1 < 2 ^ 10 ∧ 0 ≤ s2 < 2 ^ 10 ∧ 0 ≤ s3 < 2 ^ 10 end.
Proof.
  induction 1 as [|c0 c1 c2 c3 literals s0 s1 s2 s3 st s0' s1' s2' s3' st1 st2 st3 st4 n0 n1 n2 n3 Hl (Hok & Hlen & _) H3 H2 H1 H0].
  - split; [by split; cbn|]. split; [done|]. simpl. lia.
  - destruct (coded_grows _ _ _ _ _ _ _ _ H3 Hok) as [Hok1 ?]. destruct (coded_grows _ _ _ _ _ _ _ _ H2 Hok1) as [Hok2 ?].
    destruct (coded_grows _ _ _ _ _ _ _ _ H1 Hok2) as [Hok3 ?]. destruct (coded_grows _ _ _ _ _ _ _ _ H0 Hok3) as [Hok4 ?].
    split; [done|]. split; [unfold size in *; cbn [length]; lia|].
    exact (conj (coded_next _ _ _ _ _ _ _ _ H0) (conj (coded_next _ _ _ _ _ _ _ _ H1) (conj (coded_next _ _ _ _ _ _ _ _ H2) (coded_next _ _ _ _ _ _ _ _ H3)))).
Qed.

Lemma encode_literals_is `{Machine} room k todo done s0 s1 s2 s3 st s buf :
  length todo = (4 * k)%nat → Forall (λ c, occurs freq (byte_val c)) todo → literals_coded done (s0, s1, s2, s3) st →
  out_is [] s buf st → out_nbits s < 8 → size buf + 8 ≤ room →
  let r := encode_literals (fse_init_encoder_table (2 ^ 10) freq) room (reverse todo) s0 s1 s2 s3 s buf in
  r = Ok None ∨ ∃ s0' s1' s2' s3' st' s' buf', r = Ok (Some ([s0'; s1'; s2'; s3'], s', buf')) ∧
    literals_coded (todo ++ done) (s0', s1', s2', s3') st' ∧ out_is [] s' buf' st' ∧ out_nbits s' < 8 ∧ size buf' + 8 ≤ room.
Proof.
  revert todo done s0 s1 s2 s3 st s buf. induction k as [|k IH]; intros todo done s0 s1 s2 s3 st s buf Hlen Hocc Hdone Hout Hbits Hroom.
  { destruct todo; [|done]. right. by exists s0, s1, s2, s3, st, s, buf. }
  assert (∃ todo' c0 c1 c2 c3, todo = todo' ++ [c0; c1; c2; c3] ∧ length todo' = (4 * k)%nat) as (todo' & c0 & c1 & c2 & c3 & -> & Hlen').
  { exists (take (4 * k) todo). pose proof (take_drop (4 * k) todo) as Ht. assert (length (drop (4 * k) todo) = 4%nat) as H4 by (rewrite length_drop; lia).
    destruct (drop (4 * k) todo) as [|c0 [|c1 [|c2 [|c3 [|]]]]]; try done. exists c0, c1, c2, c3. split; [done|rewrite length_take; lia]. }
  apply Forall_app in Hocc as [Hocc Hocc4]. inversion Hocc4 as [|?? O0 Hocc3]; subst. inversion Hocc3 as [|?? O1 Hocc2]; subst.
  inversion Hocc2 as [|?? O2 Hocc1]; subst. inversion Hocc1 as [|?? O3 _]; subst. clear Hocc4 Hocc3 Hocc2 Hocc1.
  destruct (literals_coded_ok _ _ _ Hdone) as (_ & _ & R0 & R1 & R2 & R3). rewrite reverse_app. cbn [reverse rev_append app encode_literals].
  destruct (out_range _ _ _ _ Hout) as [Hnb _]. destruct (Z.ltb_spec room (size buf + 16)); [by left|].
  destruct (encode_symbol 10 freq (byte_val c3) [] s buf st s3 Hnorm O3 R3 Hout ltac:(lia) ltac:(lia)) as (s3' & x3 & st1 & n3 & -> & K3 & Hout3 & B3). cbn [mbind result_bind].
  destruct (encode_symbol 10 freq (byte_val c2) [] x3 buf st1 s2 Hnorm O2 R2 Hout3 ltac:(lia) ltac:(lia)) as (s2' & x2 & st2 & n2 & -> & K2 & Hout2 & B2). cbn [mbind result_bind].
  destruct (encode_symbol 10 freq (byte_val c1) [] x2 buf st2 s1 Hnorm O1 R1 Hout2 ltac:(lia) ltac:(lia)) as (s1' & x1 & st3 & n1 & -> & K1 & Hout1 & B1). cbn [mbind result_bind].
  destruct (encode_symbol 10 freq (byte_val c0) [] x1 buf st3 s0 Hnorm O0 R0 Hout1 ltac:(lia) ltac:(lia)) as (s0' & x0 & st4 & n0 & -> & K0 & Hout0 & B0). cbn [mbind result_bind].
  destruct (flush_is [] x0 buf st4 room Hout0 ltac:(lia) ltac:(lia)) as (s' & buf' & -> & Hout' & Hnb' & Hsz). cbn [mbind result_bind].
  pose proof (div_8 (out_nbits x0)). pose proof (Z.mod_pos_bound (out_nbits x0) 8 ltac:(lia)). rewrite <-app_assoc.
  apply (IH todo' (c0 :: c1 :: c2 :: c3 :: done) s0' s1' s2' s3' st4 s' buf'); [done..|by econstructor|done|lia|lia].
Qed.

(** The decoder takes the literals from the stack. *)
Lemma decode_literals_is mem before literals s0 s1 s2 s3 st s p :
  literals_coded literals (s0, s1, s2, s3) st → in_is mem s p (above before st) → 8 ≤ size before →
  8 * size before + bits_len st < 8 * size mem →
  decode_literals (decoder_entries (2 ^ 10) 0 freq) mem (length literals / 4) s0 s1 s2 s3 s p = Ok (Some literals).
Proof.
  remember (s0, s1, s2, s3) as q. intros Hl. revert s0 s1 s2 s3 Heqq s p.
  induction Hl as [|c0 c1 c2 c3 literals s0 s1 s2 s3 st s0' s1' s2' s3' st1 st2 st3 st4 n0 n1 n2 n3 Hl IH H3 H2 H1 H0]; intros t0 t1 t2 t3 Hq s p Hin Hbefore Hmem; [done|].
  injection Hq as <- <- <- <-. destruct (literals_coded_ok _ _ _ Hl) as (Hok & _).
  destruct (coded_grows _ _ _ _ _ _ _ _ H3 Hok) as [Hok1 G1]. destruct (coded_grows _ _ _ _ _ _ _ _ H2 Hok1) as [Hok2 G2].
  destruct (coded_grows _ _ _ _ _ _ _ _ H1 Hok2) as [Hok3 G3]. destruct (coded_grows _ _ _ _ _ _ _ _ H0 Hok3) as [Hok4 G4].
  replace (length (c0 :: c1 :: c2 :: c3 :: literals) / 4)%nat with (S (length literals / 4)).
  2: { cbn [length]. replace (S (S (S (S (length literals))))) with (length literals + 1 * 4)%nat by lia. rewrite Nat.div_add by lia. lia. }
  cbn [decode_literals]. destruct Hok as [Hlen0 ?]. destruct (in_flush_is mem s p _ 0 Hin) as (x & p' & -> & Hin' & Hb); [simpl; lia|lia|simpl; lia|]. cbn [mbind result_bind].
  destruct (fse_decode_is 10 freq _ s0 s0' n0 st3 st4 mem before Hnorm H0 Hok3 x p' Hin' ltac:(lia)) as (x0 & -> & I0 & B0). cbn [mbind result_bind].
  pose proof (coded_bits _ _ _ _ _ _ _ _ H0). pose proof (coded_bits _ _ _ _ _ _ _ _ H1). pose proof (coded_bits _ _ _ _ _ _ _ _ H2). pose proof (coded_bits _ _ _ _ _ _ _ _ H3).
  destruct (fse_decode_is 10 freq _ s1 s1' n1 st2 st3 mem before Hnorm H1 Hok2 x0 p' I0 ltac:(lia)) as (x1 & -> & I1 & B1). cbn [mbind result_bind].
  destruct (fse_decode_is 10 freq _ s2 s2' n2 st1 st2 mem before Hnorm H2 Hok1 x1 p' I1 ltac:(lia)) as (x2 & -> & I2 & B2). cbn [mbind result_bind].
  destruct (fse_decode_is 10 freq _ s3 s3' n3 st st1 mem before Hnorm H3 (conj Hlen0 H) x2 p' I2 ltac:(lia)) as (x3 & -> & I3 & B3). cbn [mbind result_bind].
  rewrite (IH s0 s1 s2 s3 eq_refl x3 p' I3 Hbefore) by (simpl in *; lia). cbn [mbind result_bind].
  pose proof (byte_val_range c0). pose proof (byte_val_range c1). pose proof (byte_val_range c2). pose proof (byte_val_range c3).
  by rewrite !Z2Nat.id, !byte_of_val by lia.
Qed.

(** The payload of the literals is the stack, rounded up to bytes. *)
Record payload_of (st : stack) (bits : Z) (w : bytes) : Prop := {
  payload_val : bits_val st = le_val w;
  payload_len : bits_len st = 8 * size w + bits;
  payload_bits : -7 ≤ bits ≤ 0;
}.

Lemma encode_literal_payload_is `{Machine} room k literals :
  length literals = (4 * k)%nat → Forall (λ c, occurs freq (byte_val c)) literals → 8 ≤ room →
  encode_literal_payload room freq literals = Ok None ∨
  ∃ s0 s1 s2 s3 st bits w, encode_literal_payload room freq literals = Ok (Some ([s0; s1; s2; s3], bits, w)) ∧
    literals_coded literals (s0, s1, s2, s3) st ∧ payload_of st bits w ∧ size w ≤ room.
Proof.
  intros Hlen Hocc Hroom. unfold encode_literal_payload, LZFSE_ENCODE_LITERAL_STATES. change 1024 with (2 ^ 10).
  destruct (encode_literals_is room k literals [] 0 0 0 0 (mkStack 0 0) fse_out_init [] Hlen Hocc) as [->|H1];
    [constructor|apply out_init_is|simpl; lia|done|by left|].
  destruct H1 as (s0 & s1 & s2 & s3 & st & s & buf & -> & Hl & Hout & Hb & Hr). rewrite app_nil_r in Hl. cbn [mbind result_bind]. right.
  destruct (finish_is [] s buf st room Hout ltac:(lia) Hr) as (s' & w & -> & Hv & Hlen' & Hbits & Hw). cbn [mbind result_bind app] in *.
  exists s0, s1, s2, s3, st, (out_nbits s'), w. split_and!; [done|done|by split|lia].
Qed.
End Literals.

(** ** Matches *)

(** Pushing the extra bits of a value, at most [bits], and its symbol. *)
Definition value_coded (n bits : Z) (freq extra base : list Z) (v state : Z) (st : stack) (state' : Z) (st' : stack) : Prop :=
  ∃ sym nbits, 0 ≤ sym ∧ 0 ≤ base_of extra sym ≤ bits ∧ 0 ≤ v - base_of base sym < 2 ^ base_of extra sym ∧
    coded n freq (Z.to_nat sym) state (push st (base_of extra sym) (v - base_of base sym)) state' st' nbits.

Lemma value_grows n bits freq extra base v state st state' st' :
  value_coded n bits freq extra base v state st state' st' → stack_ok st →
  stack_ok st' ∧ bits_len st ≤ bits_len st' ≤ bits_len st + n + bits ∧ 0 ≤ state' < 2 ^ n.
Proof.
  intros (sym & nbits & Hs & He & Hv & Hc) Hok. destruct (coded_grows _ _ _ _ _ _ _ _ Hc) as [Hok' Hl]; [apply push_ok; [done|lia|done]|].
  split; [done|]. split; [simpl in Hl; lia|]. exact (coded_next _ _ _ _ _ _ _ _ Hc).
Qed.

Section Value.
Context (n bits symbols : Z) (freq extra base : list Z) (base_from_value : Z → result Z).
Hypothesis Hnorm : normalised n freq.
Hypothesis Hbits : 0 ≤ bits ≤ 15.

(** The symbol of a value is right and occurs. *)
Definition value_ok (v : Z) : Prop := ∃ sym, base_from_value v = Ok sym ∧ coded_value extra base symbols bits v sym ∧ occurs freq sym.

Lemma encode_value_is `{Machine} b s buf st state v :
  value_ok v → 0 ≤ state < 2 ^ n → out_is b s buf st → out_nbits s + n + bits ≤ 63 →
  ∃ state' s' st', encode_value (fse_init_encoder_table (2 ^ n) freq) extra base base_from_value state s v = Ok (state', s') ∧
    value_coded n bits freq extra base v state st state' st' ∧ out_is b s' buf st' ∧ 0 ≤ out_nbits s' ≤ out_nbits s + n + bits.
Proof.
  intros (sym & Hsym & (Hs & He & Hv) & Hocc) Hstate Hout Hroom. unfold encode_value. rewrite Hsym. cbn [mbind result_bind].
  pose proof (freq_n _ _ Hnorm). pose proof (out_range _ _ _ _ Hout).
  destruct (push_is b s buf st (base_of extra sym) (v - base_of base sym) Hout) as (s1 & -> & Hout1 & Hnb); [lia|lia|lia|done|]. cbn [mbind result_bind].
  destruct (encode_symbol n freq sym b s1 buf _ state Hnorm Hocc Hstate Hout1 ltac:(lia) ltac:(lia)) as (state' & s' & st' & nbits & -> & Hc & Hout' & Hb).
  exists state', s', st'. split_and!; [done| |done|lia|lia]. exists sym, nbits. split; [lia|done].
Qed.

Lemma decode_value_is mem before v state state' st st' s p :
  value_coded n bits freq extra base v state st state' st' → stack_ok st → is_int v →
  in_is mem s p (above before st') → n + bits ≤ in_nbits s →
  ∃ s', fse_value_decode (value_entry extra base <$> decoder_entries (2 ^ n) 0 freq) state' s = Ok (v, state, s') ∧
    in_is mem s' p (above before st) ∧ in_nbits s - n - bits ≤ in_nbits s' ≤ in_nbits s ∧ 0 ≤ state < 2 ^ n.
Proof.
  intros (sym & nbits & Hs & He & Hv & Hc) Hok Hint Hin Hnb. unfold base_of in *.
  destruct (fse_value_decode_is n freq (Z.to_nat sym) state state' nbits _ st' mem before Hnorm Hc
    extra base (v - default 0 (base !! Z.to_nat sym)) st s p eq_refl Hok Hv) as (s' & Hd & Hin' & Hb); [lia| |done|lia|].
  { by replace (_ + _) with v by lia. }
  replace (default 0 (base !! Z.to_nat sym) + (v - default 0 (base !! Z.to_nat sym))) with v in Hd by lia.
  pose proof (coded_bits _ _ _ _ _ _ _ _ Hc). pose proof (coded_state _ _ _ _ _ _ _ _ Hc).
  exists s'. split; [done|]. split; [done|]. split; [lia|done].
Qed.
End Value.

Section Matches.
Context (l_freq m_freq d_freq : list Z).
Hypothesis HL : normalised 6 l_freq.
Hypothesis HM : normalised 6 m_freq.
Hypothesis HD : normalised 8 d_freq.

Inductive lmds_coded : list lmd → Z * Z * Z → stack → Prop :=
| no_lmds : lmds_coded [] (0, 0, 0) (mkStack 0 0)
| one_lmd x l ls ms ds st ls' ms' ds' st1 st2 st3 :
    lmds_coded l (ls, ms, ds) st →
    value_coded 8 15 d_freq d_extra_bits d_base_value (d_value x) ds st ds' st1 →
    value_coded 6 11 m_freq m_extra_bits m_base_value (m_value x) ms st1 ms' st2 →
    value_coded 6 8 l_freq l_extra_bits l_base_value (l_value x) ls st2 ls' st3 →
    lmds_coded (x :: l) (ls', ms', ds') st3.

Lemma lmds_coded_ok l q st :
  lmds_coded l q st → stack_ok st ∧ bits_len st ≤ 54 * Z.of_nat (length l) ∧
  match q with (ls, ms, ds) => 0 ≤ ls < 2 ^ 6 ∧ 0 ≤ ms < 2 ^ 6 ∧ 0 ≤ ds < 2 ^ 8 end.
Proof.
  induction 1 as [|x l ls ms ds st ls' ms' ds' st1 st2 st3 Hl (Hok & Hlen & _) H1 H2 H3].
  - split; [by split; cbn|]. split; [done|]. simpl. lia.
  - destruct (value_grows _ _ _ _ _ _ _ _ _ _ H1 Hok) as (Hok1 & ? & ?). destruct (value_grows _ _ _ _ _ _ _ _ _ _ H2 Hok1) as (Hok2 & ? & ?).
    destruct (value_grows _ _ _ _ _ _ _ _ _ _ H3 Hok2) as (Hok3 & ? & ?). split; [done|]. split; [cbn [length]; lia|done].
Qed.

Definition lmd_codable (x : lmd) : Prop :=
  value_ok 8 20 l_freq l_extra_bits l_base_value l_base_from_value (l_value x) ∧
  value_ok 11 20 m_freq m_extra_bits m_base_value m_base_from_value (m_value x) ∧
  value_ok 15 64 d_freq d_extra_bits d_base_value d_base_from_value (d_value x).

Lemma encode_lmds_is `{Machine} room base todo done ls ms ds st s buf :
  Forall lmd_codable todo → lmds_coded done (ls, ms, ds) st → out_is base s buf st → out_nbits s < 8 → size buf + 8 ≤ room ∨ todo ≠ [] →
  let r := encode_lmds (fse_init_encoder_table (2 ^ 6) l_freq) (fse_init_encoder_table (2 ^ 6) m_freq) (fse_init_encoder_table (2 ^ 8) d_freq)
    room (reverse todo) ls ms ds s buf in
  r = Ok None ∨ ∃ ls' ms' ds' st' s' buf', r = Ok (Some (ls', ms', ds', s', buf')) ∧
    lmds_coded (todo ++ done) (ls', ms', ds') st' ∧ out_is base s' buf' st' ∧ out_nbits s' < 8 ∧ size buf' + 8 ≤ room.
Proof.
  revert done ls ms ds st s buf. induction todo as [|x todo IH] using rev_ind; intros done ls ms ds st s buf Hok Hdone Hout Hbits Hroom.
  { right. exists ls, ms, ds, st, s, buf. by destruct Hroom. }
  apply Forall_app in Hok as [Hok [(VL & VM & VD) _]%Forall_cons]. destruct (lmds_coded_ok _ _ _ Hdone) as (Hst & _ & RL & RM & RD).
  rewrite reverse_snoc. cbn [encode_lmds]. destruct (Z.ltb_spec room (size buf + 16)); [by left|].
  destruct (encode_value_is 8 15 64 d_freq _ _ _ HD ltac:(lia) base s buf st ds _ VD RD Hout ltac:(lia)) as (ds' & x1 & st1 & -> & C1 & O1 & B1). cbn [mbind result_bind].
  destruct (encode_value_is 6 11 20 m_freq _ _ _ HM ltac:(lia) base x1 buf st1 ms _ VM RM O1 ltac:(lia)) as (ms' & x2 & st2 & -> & C2 & O2 & B2). cbn [mbind result_bind].
  destruct (encode_value_is 6 8 20 l_freq _ _ _ HL ltac:(lia) base x2 buf st2 ls _ VL RL O2 ltac:(lia)) as (ls' & x3 & st3 & -> & C3 & O3 & B3). cbn [mbind result_bind].
  destruct (flush_is base x3 buf st3 room O3 ltac:(lia) ltac:(lia)) as (s' & buf' & -> & Hout' & Hnb' & Hsz). cbn [mbind result_bind].
  pose proof (div_8 (out_nbits x3)). pose proof (Z.mod_pos_bound (out_nbits x3) 8 ltac:(lia)). rewrite <-app_assoc.
  apply (IH (x :: done) ls' ms' ds' st3 s' buf'); [done|by econstructor|done|lia|left; lia].
Qed.

Lemma encode_lmd_payload_is `{Machine} room l :
  Forall lmd_codable l → l ≠ [] →
  encode_lmd_payload room l_freq m_freq d_freq l = Ok None ∨
  ∃ ls ms ds st bits w, encode_lmd_payload room l_freq m_freq d_freq l = Ok (Some (ls, ms, ds, bits, le_bytes 8 0 ++ w)) ∧
    lmds_coded l (ls, ms, ds) st ∧ payload_of st bits w ∧ size (le_bytes 8 0 ++ w) ≤ room.
Proof.
  intros Hok Hne. unfold encode_lmd_payload. destruct (Z.ltb_spec room 8); [by left|].
  unfold LZFSE_ENCODE_L_STATES, LZFSE_ENCODE_M_STATES, LZFSE_ENCODE_D_STATES. change 64 with (2 ^ 6). change 256 with (2 ^ 8).
  destruct (encode_lmds_is room (le_bytes 8 0) l [] 0 0 0 (mkStack 0 0) fse_out_init (le_bytes 8 0) Hok) as [->|H1];
    [constructor|apply out_init_is|simpl; lia|by right|by left|].
  destruct H1 as (ls & ms & ds & st & s & buf & -> & Hl & Hout & Hb & Hr). rewrite app_nil_r in Hl. cbn [mbind result_bind]. right.
  destruct (finish_is (le_bytes 8 0) s buf st room Hout ltac:(lia) Hr) as (s' & w & -> & Hv & Hlen' & Hbits & Hw). cbn [mbind result_bind].
  exists ls, ms, ds, st, (out_nbits s'), w. split_and!; [done|done|by split|lia].
Qed.
End Matches.

(** ** Properties *)

(** Whatever symbols own the 1024 states, literals that all own some are encoded into a
    payload, or the buffer is too short for it; and the decoder, which starts at its last
    bit with the states the encoder ended in, reads the literals back, wherever the payload
    lies between eight bytes before and one behind. *)
Theorem literal_payload_roundtrip `{Machine} (room : Z) (freq : list Z) (k : nat) (literals : bytes) :
  normalised 10 freq → length literals = (4 * k)%nat → Forall (λ c, occurs freq (byte_val c)) literals → 8 ≤ room →
  encode_literal_payload room freq literals = Ok None ∨
  ∃ s0 s1 s2 s3 bits w, encode_literal_payload room freq literals = Ok (Some ([s0; s1; s2; s3], bits, w)) ∧ size w ≤ room ∧
    ∀ before after, 8 ≤ size before → after ≠ [] →
      ∃ s p, fse_in_checked_init (before ++ w ++ after) bits (size (before ++ w)) 0 = Ok (Some (s, p)) ∧
        decode_literals (decoder_entries (2 ^ 10) 0 freq) (before ++ w ++ after) k s0 s1 s2 s3 s p = Ok (Some literals).
Proof.
  intros Hn Hk Hocc Hroom. destruct (encode_literal_payload_is freq Hn room k literals Hk Hocc Hroom) as [->|(s0 & s1 & s2 & s3 & st & bits & w & -> & Hc & HP & Hw)]; [by left|].
  right. exists s0, s1, s2, s3, bits, w. split_and!; [done..|]. intros before after Hb Ha.
  destruct HP as [Hval Hlen Hbits]. destruct (literals_coded_ok freq _ _ _ Hc) as (Hok & _).
  assert (0 ≤ size w) by (unfold size; lia). pose proof (size_pos after Ha).
  destruct (in_init_is before w after bits st 0 Hval Hlen Hok Hbits) as (s & p & -> & Hin & _); [lia|rewrite size_app; lia|].
  exists s, p. split; [done|]. pose proof (decode_literals_is freq Hn _ before literals s0 s1 s2 s3 st s p Hc Hin Hb) as Hd.
  rewrite Hk, Nat.mul_comm, Nat.div_mul in Hd by lia. apply Hd. rewrite !size_app. lia.
Qed.

(** Two letters with 512 states each. *)
Definition two_letters : list Z := <[98%nat := 512]> (<[97%nat := 512]> (replicate 256 0)).

Lemma literal_payload_roundtrip_witness :
  encode_literal_payload (H := x86) 100 two_letters (bytes_of "abba") = Ok None ∨
  ∃ s0 s1 s2 s3 bits w, encode_literal_payload (H := x86) 100 two_letters (bytes_of "abba") = Ok (Some ([s0; s1; s2; s3], bits, w)) ∧ size w ≤ 100 ∧
    ∀ before after, 8 ≤ size before → after ≠ [] →
      ∃ s p, fse_in_checked_init (before ++ w ++ after) bits (size (before ++ w)) 0 = Ok (Some (s, p)) ∧
        decode_literals (decoder_entries (2 ^ 10) 0 two_letters) (before ++ w ++ after) 1 s0 s1 s2 s3 s p = Ok (Some (bytes_of "abba")).
Proof.
  apply (literal_payload_roundtrip 100 two_letters 1 (bytes_of "abba")); [|done| |lia].
  - split; [lia| |by vm_compute]. unfold two_letters. do 2 (apply Forall_insert; [|lia]). by apply Forall_replicate.
  - repeat constructor; try by vm_compute. all: exists 512; by vm_compute.
Defined.

End LzfsePayload.
Export LzfsePayload.

(** * third/lzfse: what literal and match lengths stand for

    [expand] appends what a list of L, M, D values stands for.  The decoder of a block
    writes exactly this, or as much of it as the destination holds. *)

Module LzfseExpand.

(** One L, M, D: the literals, then the match; none when there are too few literals or
    the distance leaves the output. *)
Definition expand_one (x : lmd) (literals dst : bytes) : result bytes :=
  if (size literals <? l_value x) || (size dst + l_value x <? d_value x) || (d_value x <? 1) then Err Undefined
  else match_bytes (Z.to_nat (m_value x)) (Z.to_nat (d_value x)) (dst ++ take (Z.to_nat (l_value x)) literals).

Fixpoint expand (l : list lmd) (literals dst : bytes) : result bytes :=
  match l with
  | [] => Ok dst
  | x :: l => dst ← expand_one x literals dst; expand l (drop (Z.to_nat (l_value x)) literals) dst
  end.

(** Values the format can hold. *)
Record lmd_in_range (x : lmd) : Prop := {
  range_l : 0 ≤ l_value x ≤ LZFSE_ENCODE_MAX_L_VALUE;
  range_m : 0 ≤ m_value x ≤ LZFSE_ENCODE_MAX_M_VALUE;
  range_d : 1 ≤ d_value x ≤ LZFSE_ENCODE_MAX_D_VALUE;
}.

Lemma expand_one_inv x literals dst dst' :
  expand_one x literals dst = Ok dst' →
  l_value x ≤ size literals ∧ 1 ≤ d_value x ≤ size dst + l_value x ∧
  match_bytes (Z.to_nat (m_value x)) (Z.to_nat (d_value x)) (dst ++ take (Z.to_nat (l_value x)) literals) = Ok dst'.
Proof.
  unfold expand_one. destruct (Z.ltb_spec (size literals) (l_value x)); [done|]. destruct (Z.ltb_spec (size dst + l_value x) (d_value x)); [done|].
  destruct (Z.ltb_spec (d_value x) 1); [done|]. intros Hm. split_and!; [lia..|done].
Qed.

Lemma expand_one_size x literals dst dst' :
  expand_one x literals dst = Ok dst' → 0 ≤ l_value x → 0 ≤ m_value x → size dst' = size dst + l_value x + m_value x ∧ dst `prefix_of` dst'.
Proof.
  intros (Hl & _ & Hm)%expand_one_inv HL HM. split.
  - apply match_bytes_length in Hm. unfold size in *. rewrite length_app, length_take in Hm. lia.
  - apply match_bytes_prefix in Hm. etrans; [|done]. by apply prefix_app_r.
Qed.

Lemma expand_prefix l literals dst dst' : Forall lmd_in_range l → expand l literals dst = Ok dst' → dst `prefix_of` dst'.
Proof.
  intros Hl. revert literals dst. induction Hl as [|x l Hx Hl IH]; intros literals dst; cbn [expand]; [by intros [= <-]|].
  intros (d & Hd & He)%bind_Ok. etrans; [|by eapply IH]. apply expand_one_size in Hd as [_ ?]; [done|apply Hx..].
Qed.

(** More literals behind the ones that are used do not matter. *)
Lemma expand_one_more x literals extra dst dst' :
  0 ≤ l_value x → expand_one x literals dst = Ok dst' → expand_one x (literals ++ extra) dst = Ok dst'.
Proof.
  intros H0 Hd. pose proof (expand_one_inv _ _ _ _ Hd) as (HL & HD & Hm). unfold expand_one. rewrite size_app. assert (0 ≤ size extra) by (unfold size; lia).
  destruct (Z.ltb_spec (size literals + size extra) (l_value x)); [lia|]. destruct (Z.ltb_spec (size dst + l_value x) (d_value x)); [lia|].
  destruct (Z.ltb_spec (d_value x) 1); [lia|]. cbn [orb]. by rewrite take_app_le by (unfold size in *; lia).
Qed.

Lemma expand_more l literals extra dst dst' : Forall lmd_in_range l → expand l literals dst = Ok dst' → expand l (literals ++ extra) dst = Ok dst'.
Proof.
  intros Hl. revert literals dst. induction Hl as [|x l Hx Hl IH]; intros literals dst; cbn [expand]; [done|].
  intros (d & Hd & He)%bind_Ok. pose proof (expand_one_inv _ _ _ _ Hd) as (HL & _). pose proof (range_l _ Hx).
  rewrite drop_app_le by (unfold size in *; lia). rewrite (expand_one_more _ _ _ _ d) by (done || lia). cbn [mbind result_bind]. by apply IH.
Qed.

(** The literals a list of values uses. *)
Definition literals_used (l : list lmd) : Z := foldr Z.add 0 (l_value <$> l).

Lemma literals_used_app a b : literals_used (a ++ b) = literals_used a + literals_used b.
Proof. unfold literals_used. induction a as [|x a IH]; cbn [app fmap list_fmap foldr] in *; lia. Qed.

Lemma expand_app l1 l2 a b o : Forall lmd_in_range l1 → literals_used l1 = size a → expand (l1 ++ l2) (a ++ b) o = (o1 ← expand l1 a o; expand l2 b o1).
Proof.
  intros Hl. revert a o. induction Hl as [|x l1 Hx Hl IH]; intros a o Hu; cbn [app expand].
  - unfold literals_used in Hu. simpl in Hu. destruct a; [done|unfold size in Hu; simpl in Hu; lia].
  - unfold literals_used in *. cbn [fmap list_fmap foldr] in Hu. pose proof (range_l _ Hx). assert (0 ≤ foldr Z.add 0 (l_value <$> l1)) as H1.
    { clear -Hl. induction Hl as [|y l1 Hy Hl IH]; [simpl; lia|]. cbn [fmap list_fmap foldr]. pose proof (range_l _ Hy). lia. }
    assert (expand_one x (a ++ b) o = expand_one x a o) as ->.
    { unfold expand_one. rewrite size_app, take_app_le by (unfold size in *; lia). assert (0 ≤ size b) by (unfold size; lia).
      by destruct (Z.ltb_spec (size a + size b) (l_value x)), (Z.ltb_spec (size a) (l_value x)); try lia. }
    destruct (expand_one x a o) as [o1|]; [|done]. cbn [mbind result_bind]. rewrite drop_app_le by (unfold size in *; lia).
    apply IH. unfold size in *. rewrite length_drop. lia.
Qed.

(** ** Executing a match *)

Lemma wide_match_is M D dst : (1 ≤ D ≤ length dst)%nat → wide_match M D dst = match_bytes M D dst.
Proof.
  intros HD. unfold wide_match. destruct (Nat.leb_spec 8 D).
  - rewrite match_blocks_bytes by lia. destruct (match_bytes_total (8 * Nat.max 1 ((M + 7) / 8)) D dst HD) as [o Ho].
    rewrite Ho. cbn [mbind result_bind]. symmetry. eapply match_bytes_take; [|done]. pose proof (div_up M). lia.
  - destruct (Nat.leb_spec M D); [|done]. destruct (Nat.ltb_spec (length dst) D); [lia|]. by rewrite match_bytes_block by lia.
Qed.

Lemma literals_at_is literals lit n :
  0 ≤ lit → 0 ≤ n ≤ size (drop (Z.to_nat lit) literals) → lit ≤ size literals →
  literals_at literals lit n = Ok (take (Z.to_nat n) (drop (Z.to_nat lit) literals)).
Proof.
  intros Hlit Hn Hle. unfold literals_at, size in *. rewrite length_drop in Hn. destruct (Z.ltb_spec (Z.of_nat (length literals)) (lit + n)); [lia|done].
Qed.

(** The room decides whether a match is finished. *)
Lemma execute_match_is dst_size literals lit dst x dst' :
  expand_one x (drop (Z.to_nat lit) literals) dst = Ok dst' → lmd_in_range x → 0 ≤ lit ≤ size literals → size dst ≤ dst_size →
  execute_match dst_size literals lit dst (l_value x) (m_value x) (d_value x)
  = Ok (if decide (size dst' ≤ dst_size) then Done (lit + l_value x) dst' else Full (take (Z.to_nat dst_size) dst')).
Proof.
  intros Hx Hr Hlit Hdst. destruct Hr as [HL HM HD]. unfold LZFSE_ENCODE_MAX_L_VALUE, LZFSE_ENCODE_MAX_M_VALUE, LZFSE_ENCODE_MAX_D_VALUE in *.
  destruct (expand_one_size x _ _ _ Hx) as [Hsz _]; [lia..|]. apply expand_one_inv in Hx as (Hl & Hd & Hm).
  set (L := l_value x) in *. set (M := m_value x) in *. set (D := d_value x) in *. unfold execute_match. rewrite Z.mod_small by (simpl; lia).
  destruct (Z.ltb_spec (size dst + L) D); [lia|]. set (lits := drop (Z.to_nat lit) literals) in *.
  assert (∀ n, 0 ≤ n ≤ size lits → size (dst ++ take (Z.to_nat n) lits) = size dst + n) as Happ.
  { intros n Hn. rewrite size_app. unfold size in *. rewrite length_take. lia. }
  destruct (Z.leb_spec (L + M) (dst_size - size dst - 32)); [|destruct (Z.leb_spec L (dst_size - size dst))].
  - rewrite literals_at_is by (fold lits; lia). fold lits. cbn [mbind result_bind]. pose proof (Happ L ltac:(lia)).
    rewrite wide_match_is by (unfold size in *; lia). rewrite Hm. cbn [mbind result_bind]. rewrite decide_True by lia. done.
  - rewrite literals_at_is by (fold lits; lia). fold lits. cbn [mbind result_bind]. pose proof (Happ L ltac:(lia)).
    destruct (Z.leb_spec M (dst_size - size dst - L)).
    + rewrite Hm. cbn [mbind result_bind]. rewrite decide_True by lia. done.
    + rewrite (match_bytes_take (Z.to_nat (dst_size - size dst - L)) (Z.to_nat M) _ _ dst') by (lia || done). cbn [mbind result_bind].
      rewrite decide_False by lia. do 3 f_equal. unfold size in *. lia.
  - rewrite literals_at_is by (fold lits; lia). fold lits. cbn [mbind result_bind]. rewrite decide_False by lia. do 2 f_equal.
    apply match_bytes_prefix in Hm as [t ->]. rewrite take_app_le by (specialize (Happ L ltac:(lia)); unfold size in *; lia).
    rewrite take_app_ge by (unfold size in *; lia). rewrite take_take. do 2 f_equal. unfold size in *. lia.
Qed.

(** ** The matches of a block *)

Section Lmd.
Context (l_freq m_freq d_freq : list Z).
Hypothesis HL : normalised 6 l_freq.
Hypothesis HM : normalised 6 m_freq.
Hypothesis HD : normalised 8 d_freq.
(** [stale]: what earlier blocks left behind the literals. *)
Context (mem before : bytes) (src_start dst_size : Z) (literals stale : bytes).
Hypothesis Hstart : 0 ≤ src_start ∧ src_start + 8 ≤ size before.
Hypothesis Hliterals : size literals ≤ LZFSE_LITERALS_PER_BLOCK.

Definition l_table := value_entry l_extra_bits l_base_value <$> decoder_entries (2 ^ 6) 0 l_freq.
Definition m_table := value_entry m_extra_bits m_base_value <$> decoder_entries (2 ^ 6) 0 m_freq.
Definition d_table := value_entry d_extra_bits d_base_value <$> decoder_entries (2 ^ 8) 0 d_freq.

(** What remains of the output when it is cut off at the room there is. *)
Definition cut (dst : bytes) : status * bytes :=
  if decide (size dst ≤ dst_size) then (OK, dst) else (DST_FULL, take (Z.to_nat dst_size) dst).

Lemma cut_prefix dst dst' : dst `prefix_of` dst' → dst_size < size dst → 0 ≤ dst_size → cut dst' = (DST_FULL, take (Z.to_nat dst_size) dst).
Proof.
  intros [t ->] Hlt H0. unfold cut. rewrite size_app. assert (0 ≤ size t) by (unfold size; lia). rewrite decide_False by lia.
  rewrite take_app_le; [done|]. unfold size in *. lia.
Qed.

Lemma lzfse_decode_lmd_is l d_prev D lit dst dst' ls ms ds st s p :
  lmds_coded l_freq m_freq d_freq (encode_distances d_prev l) (ls, ms, ds) st → Forall lmd_in_range l →
  expand l (drop (Z.to_nat lit) literals) dst = Ok dst' → (d_prev = 0 ∨ D = d_prev) → 0 ≤ lit ≤ size literals → size dst ≤ dst_size →
  in_is mem s p (above before st) → 8 * size before + bits_len st < 8 * size mem →
  lzfse_decode_lmd mem src_start dst_size (literals ++ stale) l_table m_table d_table (length l) ls ms ds s p D lit dst = Ok (cut dst').
Proof.
  intros Hc Hr. revert d_prev D lit dst ls ms ds st s p Hc. induction Hr as [|x l Hx Hl IH]; intros d_prev D lit dst ls ms ds st s p Hc He HD' Hlit Hdst Hin Hmem.
  { cbn [expand] in He. injection He as <-. unfold cut. by rewrite decide_True. }
  pose proof Hx as [RL RM RD]. unfold LZFSE_ENCODE_MAX_L_VALUE, LZFSE_ENCODE_MAX_M_VALUE, LZFSE_ENCODE_MAX_D_VALUE in *.
  cbn [expand] in He. apply bind_Ok in He as (d1 & He1 & He).
  set (x' := if d_value x =? d_prev then mkLmd (l_value x) (m_value x) 0 else x).
  assert (encode_distances d_prev (x :: l) = x' :: encode_distances (d_value x) l ∧ l_value x' = l_value x ∧ m_value x' = m_value x ∧
    0 ≤ d_value x' ≤ 262139 ∧ (if d_value x' =? 0 then D else d_value x') = d_value x) as (Henc & EL & EM & ED & Hnew).
  { unfold x'. cbn [encode_distances]. destruct (Z.eqb_spec (d_value x) d_prev) as [E|E]; cbn [l_value m_value d_value].
    - rewrite E. split_and!; [done..|lia|lia|]. cbn. destruct HD'; lia.
    - split_and!; [done..|lia|lia|]. by destruct (Z.eqb_spec (d_value x) 0); [lia|]. }
  rewrite Henc in Hc. inversion Hc as [|? ? ls0 ms0 ds0 st0 ? ? ? st1 st2 ? Hc0 CD CM CL]; subst. rewrite EL in CL. rewrite EM in CM.
  destruct (lmds_coded_ok _ _ _ _ _ _ Hc0) as (Hok0 & _). destruct (value_grows _ _ _ _ _ _ _ _ _ _ CD Hok0) as (Hok1 & G1 & _).
  destruct (value_grows _ _ _ _ _ _ _ _ _ _ CM Hok1) as (Hok2 & G2 & _). destruct (value_grows _ _ _ _ _ _ _ _ _ _ CL Hok2) as (Hok3 & G3 & _).
  cbn [length lzfse_decode_lmd]. destruct Hok3 as [? _]. destruct (in_flush_is mem s p _ src_start Hin) as (y & p' & -> & Hin' & Hb); [simpl; lia|lia|simpl; lia|].
  cbn [mbind result_bind]. unfold l_table, m_table, d_table.
  destruct (decode_value_is 6 8 l_freq _ _ HL ltac:(lia) mem before _ _ _ _ _ y p' CL Hok2) as (y1 & -> & I1 & B1 & S1); [unfold is_int, INT_MIN, INT_MAX; lia|done|lia|].
  cbn [mbind result_bind]. change LZFSE_ENCODE_L_STATES with (2 ^ 6). destruct (Z.ltb_spec ls0 (2 ^ 6)); [|lia]. cbn [assert_ mbind result_bind].
  pose proof (expand_one_inv _ _ _ _ He1) as (Hll & _). unfold LZFSE_LITERALS_PER_BLOCK, LZFSE_MATCHES_PER_BLOCK in *.
  assert (lit + l_value x ≤ size literals) as Hlit' by (unfold size in *; rewrite length_drop in Hll; lia).
  destruct (Z.leb_spec (4 * 10000 + 64) (lit + l_value x)); [lia|].
  destruct (decode_value_is 6 11 m_freq _ _ HM ltac:(lia) mem before _ _ _ _ _ y1 p' CM Hok1) as (y2 & -> & I2 & B2 & S2); [unfold is_int, INT_MIN, INT_MAX; lia|done|lia|].
  cbn [mbind result_bind]. change LZFSE_ENCODE_M_STATES with (2 ^ 6). destruct (Z.ltb_spec ms0 (2 ^ 6)); [|lia]. cbn [assert_ mbind result_bind].
  destruct (decode_value_is 8 15 d_freq _ _ HD ltac:(lia) mem before _ _ _ _ _ y2 p' CD Hok0) as (y3 & -> & I3 & B3 & S3); [unfold is_int, INT_MIN, INT_MAX; lia|done|lia|].
  cbn [mbind result_bind]. change LZFSE_ENCODE_D_STATES with (2 ^ 8). destruct (Z.ltb_spec ds0 (2 ^ 8)); [|lia]. cbn [assert_ mbind result_bind].
  assert (expand_one x (drop (Z.to_nat lit) (literals ++ stale)) dst = Ok d1) as He1'.
  { rewrite drop_app_le by (unfold size in *; lia). apply expand_one_more; [lia|done]. }
  assert (0 ≤ lit ≤ size (literals ++ stale)) as Hlit'' by (rewrite size_app; unfold size in *; lia).
  rewrite Hnew, (execute_match_is _ _ _ _ _ _ He1' Hx Hlit'' Hdst). cbn [mbind result_bind]. pose proof (expand_prefix _ _ _ _ Hl He) as Hp.
  case_decide as Hfit.
  - fold l_table m_table d_table. apply (IH (d_value x) (d_value x) (lit + l_value x) d1 ls0 ms0 ds0 st0 y3 p' Hc0); [|by right|lia|done|done|lia].
    rewrite Z2Nat.inj_add, <-drop_drop by lia. rewrite drop_drop in He. by rewrite drop_drop.
  - rewrite (cut_prefix d1); [done|done|lia|]. unfold size in Hdst. lia.
Qed.
End Lmd.

End LzfseExpand.
Export LzfseExpand.
