(* ===== verification/LzfseBlockRoundtrip.v ===== *)
(** * third/lzfse: compressed blocks are decoded

    [block_of] lists the parts of a block with what each of them holds.  The encoder makes
    such a block or finds the destination full, and the decoder expands it. *)

From stdpp Require Import base list strings.
From Stdlib Require Import Ascii ZArith Lia.
From S2P Require Import Prelude CInt Util Buffer LzvnDecode LzvnInstr Fse FseNormalize FseStream LzfseHeader LzfseBlock.
From S2P Require Import LzfsePayload.
Local Open Scope Z_scope.

Module LzfseBlockRoundtrip.

Inductive block_of (l : list lmd) (literals : bytes) : bytes → Prop :=
| block_parts h fixed freqs literal_payload w s0 s1 s2 s3 st st' :
    header_ok h → lzfse_encode_v1_freq_table h = Ok freqs → lzfse_encode_v1_state h (header_v2_fixed + size freqs) = Ok fixed →
    normalised 10 (literal_freq h) → normalised 6 (l_freq h) → normalised 6 (m_freq h) → normalised 8 (d_freq h) →
    literals_coded (literal_freq h) literals (s0, s1, s2, s3) st → payload_of st (literal_bits h) literal_payload →
    lmds_coded (l_freq h) (m_freq h) (d_freq h) l (l_state h, m_state h, d_state h) st' → payload_of st' (lmd_bits h) w →
    literal_state h = [s0; s1; s2; s3] → n_literals h = size literals → n_matches h = Z.of_nat (length l) →
    n_literal_payload_bytes h = size literal_payload → n_lmd_payload_bytes h = size (le_bytes 8 0 ++ w) →
    block_of l literals (fixed ++ freqs ++ literal_payload ++ le_bytes 8 0 ++ w).

(** ** The encoder makes a block *)

(** The values of a block have symbols, in the tables made of their occurrences. *)
Definition has_symbol (f : Z → result Z) (extra base : list Z) (symbols bits v : Z) : Prop :=
  ∃ s, f v = Ok s ∧ coded_value extra base symbols bits v s.

Lemma symbols_of (f : Z → result Z) (g : lmd → Z) extra base (count : nat) bits l :
  Forall (λ x, has_symbol f extra base (Z.of_nat count) bits (g x)) l →
  ∃ syms, mapM_result (f ∘ g) l = Ok syms ∧ length syms = length l ∧ Forall (λ s, 0 ≤ s < Z.of_nat count) syms ∧
    ∀ freq, Forall (occurs freq) syms → Forall (λ x, value_ok bits (Z.of_nat count) freq extra base f (g x)) l.
Proof.
  induction 1 as [|x l (s & Hs & Hc) Hl (syms & Hm & Hlen & Hsyms & Hok)]; [by exists []|].
  exists (s :: syms). cbn [mapM_result]. change ((f ∘ g) x) with (f (g x)). rewrite Hs, Hm. split_and!; [done|simpl; lia|constructor; [apply Hc|done]|].
  intros freq [Hf Hfs]%Forall_cons. constructor; [by exists s|by apply Hok].
Qed.

Lemma in_block_value x :
  0 ≤ l_value x ≤ LZFSE_ENCODE_MAX_L_VALUE → 0 ≤ m_value x ≤ LZFSE_ENCODE_MAX_M_VALUE → 0 ≤ d_value x ≤ LZFSE_ENCODE_MAX_D_VALUE →
  has_symbol l_base_from_value l_extra_bits l_base_value 20 8 (l_value x) ∧ has_symbol m_base_from_value m_extra_bits m_base_value 20 11 (m_value x) ∧
  has_symbol d_base_from_value d_extra_bits d_base_value 64 15 (d_value x).
Proof. intros HL HM HD. split_and!; [by apply l_base_ok|by apply m_base_ok|by apply d_base_ok]. Qed.

Section Encode.
Context `{Machine} (l : list lmd) (literals : bytes) (k : nat).
Hypothesis Hne : l ≠ [].
Hypothesis Hlen : Z.of_nat (length l) ≤ LZFSE_MATCHES_PER_BLOCK.
Hypothesis Hk : length literals = (4 * k)%nat.
Hypothesis Hlits : size literals ≤ LZFSE_LITERALS_PER_BLOCK.

Lemma encode_with_tables_is room l_freq m_freq d_freq literal_freq :
  752 ≤ room → normalised 6 l_freq → normalised 6 m_freq → normalised 8 d_freq → normalised 10 literal_freq →
  Forall (lmd_codable l_freq m_freq d_freq) l → Forall (λ c, occurs literal_freq (byte_val c)) literals →
  length l_freq = 20%nat → length m_freq = 20%nat → length d_freq = 64%nat → length literal_freq = 256%nat →
  Forall codable (l_freq ++ m_freq ++ d_freq ++ literal_freq) →
  let r := encode_with_tables room l literals l_freq m_freq d_freq literal_freq in
  r = Ok None ∨ ∃ block, r = Ok (Some block) ∧ block_of l literals block ∧ size block ≤ room.
Proof.
  intros Hroom NL NM ND NC Hl Hc LL LM LD LC Hcod r. unfold r, encode_with_tables. clear r. unfold LZFSE_LITERALS_PER_BLOCK, LZFSE_MATCHES_PER_BLOCK in *.
  set (raw := (sum_of m_value l + sum_of l_value l) mod 2 ^ 32). assert (0 ≤ raw < 2 ^ 32) as Hraw by (apply Z.mod_pos_bound; lia).
  match goal with |- context [lzfse_encode_v1_freq_table ?h0] => destruct (freq_table_ok h0) as (freqs & Hfreqs & Hsize & _) end.
  { exact Hcod. } { change (length (l_freq ++ m_freq ++ d_freq ++ literal_freq) = freq_count). by rewrite !length_app, LL, LM, LD, LC. }
  rewrite Hfreqs. cbn [mbind result_bind].
  destruct (encode_literal_payload_is literal_freq NC (room - (header_v2_fixed + size freqs)) k literals Hk Hc) as [->|Hlit]; [unfold header_v2_fixed; lia|by left|].
  destruct Hlit as (s0 & s1 & s2 & s3 & st & bits & w & -> & Hcoded & Hpay & Hw). cbn [mbind result_bind].
  destruct (encode_lmd_payload_is l_freq m_freq d_freq NL NM ND (room - (header_v2_fixed + size freqs) - size w) l Hl Hne) as [->|Hlmd]; [by left|].
  destruct Hlmd as (ls & ms & ds & st' & bits' & w' & -> & Hcoded' & Hpay' & Hw'). cbn [mbind result_bind].
  destruct (literals_coded_ok _ _ _ _ Hcoded) as (_ & Hb & R0 & R1 & R2 & R3). destruct (lmds_coded_ok _ _ _ _ _ _ Hcoded') as (_ & Hb' & RL & RM & RD).
  pose proof Hpay as [_ P1 P2]. pose proof Hpay' as [_ P1' P2']. rewrite size_app, size_le_bytes in *. set (h := mkHeader _ _ _ _ _ _ _ _ _ _ _ _ _ _ _ _ _).
  assert (header_ok h) as Hok.
  { change (2 ^ 6) with 64 in *. change (2 ^ 8) with 256 in *. assert (0 ≤ size w ∧ 0 ≤ size w' ∧ 0 ≤ size literals) as (? & ? & ?) by (unfold size; lia).
    split; subst h; cbn; try (simpl; lia); [by exists s0, s1, s2, s3|done|done]. }
  destruct (header_roundtrip h Hok) as (t & fixed & Ht & _ & Hfixed & Hsz & _).
  assert (t = freqs) as -> by (change (lzfse_encode_v1_freq_table h = Ok freqs) in Hfreqs; congruence).
  rewrite Hfixed. cbn [mbind result_bind]. right. eexists. split; [done|]. split.
  - eapply (block_parts l literals h fixed freqs w w' s0 s1 s2 s3 st st'); try done. by rewrite size_app, size_le_bytes.
  - rewrite !size_app, Hsz, size_le_bytes. unfold header_v2_fixed in *. lia.
Qed.

Lemma encode_block_is room :
  Forall (λ x, 0 ≤ l_value x ≤ LZFSE_ENCODE_MAX_L_VALUE ∧ 0 ≤ m_value x ≤ LZFSE_ENCODE_MAX_M_VALUE ∧ 0 ≤ d_value x ≤ LZFSE_ENCODE_MAX_D_VALUE) l →
  encode_block room l literals = Ok None ∨ ∃ block, encode_block room l literals = Ok (Some block) ∧ block_of l literals block ∧ size block ≤ room.
Proof.
  unfold LZFSE_LITERALS_PER_BLOCK, LZFSE_MATCHES_PER_BLOCK in *. intros Hr. unfold encode_block.
  assert (Forall (λ x, has_symbol l_base_from_value l_extra_bits l_base_value 20 8 (l_value x)) l ∧
          Forall (λ x, has_symbol m_base_from_value m_extra_bits m_base_value 20 11 (m_value x)) l ∧
          Forall (λ x, has_symbol d_base_from_value d_extra_bits d_base_value 64 15 (d_value x)) l) as (SL & SM & SD).
  { split_and!; (eapply Forall_impl; [exact Hr|]); intros x (? & ? & ?); by apply in_block_value. }
  destruct (symbols_of _ l_value _ _ 20 _ _ SL) as (l_syms & -> & LL & RL & OL). destruct (symbols_of _ m_value _ _ 20 _ _ SM) as (m_syms & -> & LM & RM & OM).
  destruct (symbols_of _ d_value _ _ 64 _ _ SD) as (d_syms & -> & LD & RD & OD). cbn [mbind result_bind].
  destruct (Z.ltb_spec room sizeof_header_v2) as [|Hroom]; [by left|]. unfold sizeof_header_v2 in Hroom.
  destruct (table_ok 6 20 l_syms) as (lf & Hlf & LLf & NL & CL & UL); [lia|lia|simpl; lia|lia|done|].
  destruct (table_ok 6 20 m_syms) as (mf & Hmf & LMf & NM & CM & UM); [lia|lia|simpl; lia|lia|done|].
  destruct (table_ok 8 64 d_syms) as (df & Hdf & LDf & ND & CD & UD); [lia|lia|simpl; lia|lia|done|].
  destruct (table_ok 10 256 (byte_val <$> literals)) as (cf & Hcf & LCf & NC & CC & UC).
  { lia. } { lia. } { simpl. lia. } { rewrite length_fmap. unfold size in Hlits. lia. }
  { apply Forall_fmap, Forall_true. intros c. apply byte_val_range. }
  unfold LZFSE_ENCODE_L_STATES, LZFSE_ENCODE_M_STATES, LZFSE_ENCODE_D_STATES, LZFSE_ENCODE_LITERAL_STATES.
  change (2 ^ 6) with 64 in Hlf, Hmf. change (2 ^ 8) with 256 in Hdf. change (2 ^ 10) with 1024 in Hcf.
  change LZFSE_ENCODE_L_SYMBOLS with 20%nat. change LZFSE_ENCODE_M_SYMBOLS with 20%nat. change LZFSE_ENCODE_D_SYMBOLS with 64%nat.
  change LZFSE_ENCODE_LITERAL_SYMBOLS with 256%nat. rewrite Hlf, Hmf, Hdf, Hcf. cbn [mbind result_bind].
  apply encode_with_tables_is; try done.
  - rewrite Forall_forall. intros x Hx. pose proof (proj1 (Forall_forall _ _) (OL _ UL) x Hx). pose proof (proj1 (Forall_forall _ _) (OM _ UM) x Hx).
    pose proof (proj1 (Forall_forall _ _) (OD _ UD) x Hx). done.
  - exact (proj1 (Forall_fmap _ _ _) UC).
  - by rewrite !Forall_app.
Qed.
End Encode.

(** ** The decoder reads it *)

Lemma check_normalised n freq : normalised n freq → fse_check_freq (2 ^ n) freq = true.
Proof. intros Hn. unfold fse_check_freq. rewrite (freq_sum _ _ Hn). apply Z.leb_refl. Qed.

(** Normalised frequencies overwrite the whole table. *)
Lemma decoder_table_ok n freq :
  0 ≤ n → normalised n freq → Z.of_nat (length freq) ≤ 256 →
  (∀ t, length t = Z.to_nat (2 ^ n) → fse_init_decoder_table (2 ^ n) freq t = Ok (decoder_entries (2 ^ n) 0 freq)) ∧
  (∀ t vbits vbase, length t = Z.to_nat (2 ^ n) →
    fse_init_value_decoder_table (2 ^ n) vbits vbase freq t = Ok (value_entry vbits vbase <$> decoder_entries (2 ^ n) 0 freq)) ∧
  length (decoder_entries (2 ^ n) 0 freq) = Z.to_nat (2 ^ n).
Proof.
  intros H0 Hn Hl. assert (length (decoder_entries (2 ^ n) 0 freq) = Z.to_nat (2 ^ n)) as Hlen.
  { pose proof (length_decoder_entries (2 ^ n) 0 freq ltac:(apply Hn)) as H. rewrite (freq_sum _ _ Hn) in H. lia. }
  unfold fse_init_decoder_table, fse_init_value_decoder_table. rewrite (check_normalised _ _ Hn).
  destruct (Z.leb_spec (Z.of_nat (length freq)) 256); [|lia]. cbn [assert_ mbind result_bind]. split_and!; [| |done].
  - intros t Ht. by rewrite fill_all by congruence.
  - intros t vbits vbase Ht. by rewrite fill_all by (rewrite length_fmap; congruence).
Qed.

Lemma quarter (literals : bytes) k : length literals = (4 * k)%nat → Z.to_nat ((size literals + 3) / 4) = (length literals / 4)%nat.
Proof.
  intros Hk. unfold size. rewrite Hk. rewrite (Nat.mul_comm 4), Nat.div_mul by lia. rewrite Nat2Z.inj_mul, Z.add_comm, Z.div_add by lia. change (3 / 4) with 0. lia.
Qed.

Lemma header_checked h l literals s0 s1 s2 s3 :
  h_magic h = LZFSE_COMPRESSEDV1_BLOCK_MAGIC → n_literals h = size literals → n_matches h = Z.of_nat (length l) → size literals ≤ LZFSE_LITERALS_PER_BLOCK →
  Z.of_nat (@length lmd l) ≤ LZFSE_MATCHES_PER_BLOCK → literal_state h = [s0; s1; s2; s3] → s0 < 1024 → s1 < 1024 → s2 < 1024 → s3 < 1024 →
  l_state h < 64 → m_state h < 64 → d_state h < 256 → normalised 10 (literal_freq h) → normalised 6 (l_freq h) → normalised 6 (m_freq h) → normalised 8 (d_freq h) →
  lzfse_check_block_header_v1 h = true.
Proof.
  intros HM HN HT HL HL' Hst H0 H1 H2 H3 H4 H5 H6 N0 N1 N2 N3. unfold lzfse_check_block_header_v1, LZFSE_ENCODE_LITERAL_STATES, LZFSE_ENCODE_L_STATES, LZFSE_ENCODE_M_STATES, LZFSE_ENCODE_D_STATES.
  rewrite HM, HN, HT, Hst. change 64 with (2 ^ 6). change 256 with (2 ^ 8). change 1024 with (2 ^ 10). rewrite !check_normalised by done.
  change (2 ^ 6) with 64. change (2 ^ 8) with 256. change (2 ^ 10) with 1024. cbn [forallb]. rewrite !andb_true_iff, !Z.ltb_lt, !Z.leb_le, Z.eqb_eq. done.
Qed.

Section Decode.
Context (l : list lmd) (literals block pre rest behind : bytes) (k : nat).
Hypothesis Hblock : block_of (encode_distances 0 l) literals block.
Hypothesis Hlen : Z.of_nat (length l) ≤ LZFSE_MATCHES_PER_BLOCK.
Hypothesis Hk : length literals = (4 * k)%nat.
Hypothesis Hlits : size literals ≤ LZFSE_LITERALS_PER_BLOCK.
Hypothesis Hrange : Forall lmd_in_range l.
Hypothesis Hrest : rest ≠ [].

Lemma length_encode_distances d l' : length (encode_distances d l') = length l'.
Proof. revert d; induction l' as [|x l' IH]; intros d; cbn [encode_distances]; [done|]. destruct (_ =? _); simpl; by rewrite IH. Qed.

(** The payloads, behind whatever precedes them, in whatever state of the decoder. *)
Lemma decode_payloads_is h before wl w s0 s1 s2 s3 st st' dst dst' dst_size bs :
  block_state_sized bs →
  normalised 10 (literal_freq h) → normalised 6 (l_freq h) → normalised 6 (m_freq h) → normalised 8 (d_freq h) → header_ok h →
  literals_coded (literal_freq h) literals (s0, s1, s2, s3) st → payload_of st (literal_bits h) wl →
  lmds_coded (l_freq h) (m_freq h) (d_freq h) (encode_distances 0 l) (l_state h, m_state h, d_state h) st' → payload_of st' (lmd_bits h) w →
  literal_state h = [s0; s1; s2; s3] → n_literals h = size literals → n_matches h = Z.of_nat (length l) → n_lmd_payload_bytes h = size (le_bytes 8 0 ++ w) →
  8 ≤ size before → expand l literals dst = Ok dst' → size dst ≤ dst_size →
  ∃ bs', block_state_sized bs' ∧
  decode_payloads (before ++ wl ++ (le_bytes 8 0 ++ w) ++ rest ++ behind) dst_size h (size (before ++ wl)) ((le_bytes 8 0 ++ w) ++ rest) dst bs
  = Ok (match cut dst_size dst' with (OK, d) => Closed rest d bs' | (st, d) => Stopped st d end).
Proof.
  intros [ZC ZL ZM ZD ZB] NC NL NM ND Hok Hlc [V1 V2 V3] Hmc [V1' V2' V3'] Hst HN HT HNM Hbefore He Hdst.
  destruct (ok_lengths _ Hok) as (LL & LM & LD & LC). pose proof (size_pos rest Hrest) as Hr.
  destruct (literals_coded_ok _ _ _ _ Hlc) as (Sok & _). destruct (lmds_coded_ok _ _ _ _ _ _ Hmc) as (Sok' & _). unfold decode_payloads.
  destruct (decoder_table_ok 10 _ ltac:(lia) NC) as (TC & _ & SC); [by rewrite LC|]. destruct (decoder_table_ok 6 _ ltac:(lia) NL) as (_ & TL & SL); [by rewrite LL|].
  destruct (decoder_table_ok 6 _ ltac:(lia) NM) as (_ & TM & SM); [by rewrite LM|]. destruct (decoder_table_ok 8 _ ltac:(lia) ND) as (_ & TD & SD); [by rewrite LD|].
  change LZFSE_ENCODE_LITERAL_STATES with (2 ^ 10). change LZFSE_ENCODE_L_STATES with (2 ^ 6). change LZFSE_ENCODE_M_STATES with (2 ^ 6). change LZFSE_ENCODE_D_STATES with (2 ^ 8).
  rewrite TC, TL, TM, TD by done. cbn [mbind result_bind]. assert (0 ≤ size wl ∧ 0 ≤ size w ∧ 0 ≤ size rest ∧ 0 ≤ size behind) as (? & ? & ? & ?) by (unfold size; lia).
  destruct (in_init_is before wl ((le_bytes 8 0 ++ w) ++ rest ++ behind) (literal_bits h) st 0) as (s & p & -> & Hin & _); [done|done|done|done|lia|rewrite size_app; lia|].
  cbn [mbind result_bind]. rewrite HN, (quarter _ _ Hk). unfold state_at. rewrite Hst. cbn [lookup list_lookup default id].
  rewrite (decode_literals_is _ NC _ before literals s0 s1 s2 s3 st s p Hlc Hin) by (rewrite ?size_app, ?size_le_bytes; lia). cbn [mbind result_bind].
  set (before' := before ++ wl ++ le_bytes 8 0). assert (before ++ wl ++ (le_bytes 8 0 ++ w) ++ rest ++ behind = before' ++ w ++ rest ++ behind) as Hmem by (unfold before'; by rewrite <-!app_assoc).
  assert (size (before ++ wl) + n_lmd_payload_bytes h = size (before' ++ w)) as -> by (unfold before'; rewrite HNM, !size_app; lia).
  rewrite Hmem. assert (size before' = size (before ++ wl) + 8) as Hb' by (unfold before'; rewrite !size_app, size_le_bytes; lia).
  destruct (in_init_is before' w (rest ++ behind) (lmd_bits h) st' (size (before ++ wl))) as (s' & p' & -> & Hin' & _); [done|done|done|done|unfold size; lia|rewrite (size_app before'); lia|].
  cbn [mbind result_bind]. rewrite HNM, !size_app, size_le_bytes. destruct (Z.eqb_spec (Z.of_nat 8 + size w + size rest) 0); [lia|].
  destruct (Z.ltb_spec (Z.of_nat 8 + size w + size rest) (Z.of_nat 8 + size w)); [lia|]. cbn [orb]. rewrite HT, Nat2Z.id.
  pose proof (lzfse_decode_lmd_is _ _ _ NL NM ND (before' ++ w ++ rest ++ behind) before' 0 dst_size literals (drop (length literals) (bs_literals bs))) as Hlmd.
  unfold l_table, m_table, d_table in Hlmd. change (literals ++ drop (length literals) (bs_literals bs)) with (fill (bs_literals bs) literals) in Hlmd.
  rewrite (Hlmd ltac:(unfold size in *; lia) Hlits l 0 (-1) 0 dst dst' (l_state h) (m_state h) (d_state h) st' s' p' Hmc Hrange);
    [|done|by left|unfold size; lia|done|done|rewrite !size_app; lia].
  cbn [mbind result_bind]. eexists (mkBlockState (decoder_entries (2 ^ 10) 0 (literal_freq h)) _ _ _ (fill (bs_literals bs) literals)). split; cycle 1.
  { unfold cut. case_decide; [|done]. do 2 f_equal. apply drop_app_length'. rewrite length_app, length_le_bytes. unfold size. lia. }
  split; cbn [bs_literal_decoder bs_l_decoder bs_m_decoder bs_d_decoder bs_literals]; rewrite ?length_fmap; [done..|].
  rewrite length_fill; [done|]. rewrite ZB. unfold size in Hlits. lia.
Qed.

(** The decoder expands the matches and goes on behind the block, if the destination holds
    what they stand for. *)
Lemma decode_block_is dst dst' dst_size bs :
  block_state_sized bs → expand l literals dst = Ok dst' → size dst ≤ dst_size →
  ∃ bs', block_state_sized bs' ∧
  decode_block (pre ++ block ++ rest) behind dst_size LZFSE_COMPRESSEDV2_BLOCK_MAGIC (block ++ rest) dst bs
  = Ok (match cut dst_size dst' with (OK, d) => Closed rest d bs' | (st, d) => Stopped st d end).
Proof.
  intros Hsized He Hdst. destruct Hblock as [h fixed freqs wl w s0 s1 s2 s3 st st' Hok Hfreqs Hfixed NC NL NM ND Hlc HP Hmc HP' Hst HN HT HNL HNM].
  rewrite length_encode_distances in HT. destruct (header_roundtrip h Hok) as (t & b & Ht & _ & Hb & Hbs & _ & Hdec).
  rewrite Ht in Hfreqs. injection Hfreqs as ->. rewrite Hb in Hfixed. injection Hfixed as ->.
  destruct (literals_coded_ok _ _ _ _ Hlc) as (_ & _ & R0 & R1 & R2 & R3). destruct (lmds_coded_ok _ _ _ _ _ _ Hmc) as (_ & _ & RL & RM & RD).
  pose proof (size_pos rest Hrest) as Hr. unfold header_v2_fixed in *. set (lmdp := le_bytes 8 0 ++ w) in *.
  assert (0 ≤ size freqs ∧ 0 ≤ size wl ∧ 0 ≤ size lmdp ∧ 0 ≤ size pre) as (? & ? & ? & ?) by (unfold size; lia).
  assert ((fixed ++ freqs ++ wl ++ lmdp) ++ rest = fixed ++ freqs ++ wl ++ lmdp ++ rest) as -> by (by rewrite <-!app_assoc).
  destruct (Hdec (wl ++ lmdp ++ rest)) as [Hsize Hv1]. unfold decode_block, decode_header. rewrite Z.eqb_refl, Hsize, Hv1. unfold header_v2_fixed.
  assert (size (fixed ++ freqs ++ wl ++ lmdp ++ rest) = 32 + size freqs + size wl + size lmdp + size rest) as -> by (rewrite !size_app, Hbs; lia).
  destruct (Z.ltb_spec (32 + size freqs + size wl + size lmdp + size rest) 32); [lia|].
  destruct (Z.ltb_spec (32 + size freqs + size wl + size lmdp + size rest) (32 + size freqs)); [lia|]. cbv iota.
  rewrite HNL, HNM. destruct (Z.ltb_spec (32 + size freqs + size wl + size lmdp + size rest) (32 + size freqs + size wl + size lmdp)); [lia|].
  rewrite (header_checked h l literals s0 s1 s2 s3) by (done || apply Hok || (simpl in *; lia)). cbn [negb].
  assert (drop (Z.to_nat (32 + size freqs + size wl)) (fixed ++ freqs ++ wl ++ lmdp ++ rest) = lmdp ++ rest) as ->.
  { rewrite (app_assoc freqs), (app_assoc fixed). apply drop_app_length'. rewrite !length_app. unfold size in *. lia. }
  replace (pre ++ fixed ++ freqs ++ wl ++ lmdp ++ rest) with ((pre ++ fixed ++ freqs) ++ wl ++ lmdp ++ rest) by (by rewrite <-!app_assoc).
  replace (size ((pre ++ fixed ++ freqs) ++ wl ++ lmdp ++ rest) - size (lmdp ++ rest)) with (size ((pre ++ fixed ++ freqs) ++ wl)) by (rewrite !size_app; lia).
  replace (((pre ++ fixed ++ freqs) ++ wl ++ lmdp ++ rest) ++ behind) with ((pre ++ fixed ++ freqs) ++ wl ++ lmdp ++ rest ++ behind) by (by rewrite <-!app_assoc).
  apply (decode_payloads_is h _ wl w s0 s1 s2 s3 st st'); try done. rewrite !size_app, Hbs. lia.
Qed.
End Decode.

(** ** Encoding what was collected *)

(** A block that has been written, for the matches and their padded literals. *)
Record block_ok (l : list lmd) (literals block : bytes) : Prop := {
  block_is : block_of (encode_distances 0 l) literals block;
  block_matches : Z.of_nat (length l) ≤ LZFSE_MATCHES_PER_BLOCK;
  block_quads : ∃ k, length literals = (4 * k)%nat;
  block_literals : size literals ≤ LZFSE_LITERALS_PER_BLOCK;
  block_range : Forall lmd_in_range l;
}.

Lemma revert_encode_distances d l : Forall lmd_in_range l → revert_distances d (encode_distances d l) = l.
Proof.
  intros Hl. revert d. induction Hl as [|x l Hx Hl IH]; intros d; cbn [encode_distances revert_distances]; [done|]. pose proof (range_d _ Hx).
  destruct (Z.eqb_spec (d_value x) d) as [<-|]; cbn [revert_distances d_value l_value m_value].
  - rewrite Z.eqb_refl. f_equal; [by destruct x|apply IH].
  - destruct (Z.eqb_spec (d_value x) 0); [lia|]. f_equal. apply IH.
Qed.

Lemma encode_distances_range d l :
  Forall lmd_in_range l →
  Forall (λ x, 0 ≤ l_value x ≤ LZFSE_ENCODE_MAX_L_VALUE ∧ 0 ≤ m_value x ≤ LZFSE_ENCODE_MAX_M_VALUE ∧ 0 ≤ d_value x ≤ LZFSE_ENCODE_MAX_D_VALUE) (encode_distances d l).
Proof.
  intros Hl. revert d. induction Hl as [|x l [HL HM HD] Hl IH]; intros d; cbn [encode_distances]; [done|]. unfold LZFSE_ENCODE_MAX_D_VALUE in *.
  destruct (_ =? _); constructor; cbn [l_value m_value d_value]; (split_and!; lia) || apply IH.
Qed.

Lemma pad_literals_quads literals :
  size literals ≤ LZFSE_LITERALS_PER_BLOCK → (∃ k, length (pad_literals literals) = (4 * k)%nat) ∧ size (pad_literals literals) ≤ LZFSE_LITERALS_PER_BLOCK.
Proof.
  unfold LZFSE_LITERALS_PER_BLOCK, LZFSE_MATCHES_PER_BLOCK. intros Hs. unfold pad_literals. pose proof (Z.mod_pos_bound (- size literals) 4 ltac:(lia)).
  pose proof (Z.div_mod (- size literals) 4 ltac:(lia)). unfold size in *. rewrite length_app, length_replicate. split; [|lia].
  exists (Z.to_nat (- (- Z.of_nat (length literals) / 4))). lia.
Qed.

(** Nothing to do, a block, or the state as it was because the destination is full. *)
Lemma lzfse_encode_matches_is `{Machine} dst_size s :
  Forall lmd_in_range (e_lmd s) → Z.of_nat (length (e_lmd s)) ≤ LZFSE_MATCHES_PER_BLOCK → size (e_literals s) ≤ LZFSE_LITERALS_PER_BLOCK →
  (e_lmd s = [] → e_literals s = []) →
  (e_lmd s = [] ∧ lzfse_encode_matches dst_size s = Ok (OK, s)) ∨
  (e_lmd s ≠ [] ∧ lzfse_encode_matches dst_size s = Ok (DST_FULL, s)) ∨
  ∃ block, e_lmd s ≠ [] ∧ lzfse_encode_matches dst_size s = Ok (OK, mkOutput (e_dst s ++ block) [] []) ∧
    block_ok (e_lmd s) (pad_literals (e_literals s)) block ∧ size (e_dst s ++ block) ≤ dst_size.
Proof.
  intros Hr Hlen Hlits Hempty. unfold lzfse_encode_matches. destruct (decide (e_lmd s = [])) as [E|E].
  { left. by rewrite (Hempty E), E. }
  rewrite (bool_decide_eq_false_2 (e_lmd s = [])), andb_false_r by done. destruct (pad_literals_quads _ Hlits) as [[k Hk] Hpad].
  destruct (Z.ltb_spec LZFSE_LITERALS_PER_BLOCK (size (pad_literals (e_literals s)))); [lia|]. right.
  destruct (encode_block_is (encode_distances 0 (e_lmd s)) (pad_literals (e_literals s)) k) with (room := dst_size - size (e_dst s)) as [->|(block & -> & Hb & Hsz)].
  { intros E'. apply E. apply length_zero_iff_nil. by rewrite <-(length_encode_distances 0), E'. } { by rewrite length_encode_distances. } { done. } { done. }
  { by apply encode_distances_range. }
  - left. cbn [mbind result_bind]. rewrite revert_encode_distances by done. by destruct s.
  - right. exists block. cbn [mbind result_bind]. split_and!; [done|done| |rewrite size_app; lia]. split; [done|done|by exists k|done|done].
Qed.

(** ** Properties *)

(** C27: the matches and literals of a block are added to the destination as a block, or the
    destination is full and nothing has changed.  Decoding the block behind whatever has
    been decoded before gives what the matches and literals expand to, as far as the
    destination of the decoder goes, and goes on behind the block. *)
Theorem matches_roundtrip `{Machine} (n : Z) (written : bytes) (l : list lmd) (literals : bytes) (dst dst' : bytes) :
  Forall lmd_in_range l → l ≠ [] → Z.of_nat (length l) ≤ LZFSE_MATCHES_PER_BLOCK → size literals ≤ LZFSE_LITERALS_PER_BLOCK →
  expand l literals dst = Ok dst' →
  let s := mkOutput written l literals in
  lzfse_encode_matches n s = Ok (DST_FULL, s) ∨
  ∃ block, lzfse_encode_matches n s = Ok (OK, mkOutput (written ++ block) [] []) ∧ size (written ++ block) ≤ n ∧
    ∀ pre rest behind room bs, rest ≠ [] → size dst ≤ room → block_state_sized bs →
      ∃ bs', block_state_sized bs' ∧
      decode_block (pre ++ block ++ rest) behind room LZFSE_COMPRESSEDV2_BLOCK_MAGIC (block ++ rest) dst bs
      = Ok (if decide (size dst' ≤ room) then Closed rest dst' bs' else Stopped DST_FULL (take (Z.to_nat room) dst')).
Proof.
  intros Hr Hne Hl Hlits He s. destruct (lzfse_encode_matches_is n s Hr Hl Hlits) as [[E _]|[[_ ->]|(block & _ & -> & Hb & Hsz)]];
    [done|done|by left|]. right. exists block. split_and!; [done..|]. intros pre rest behind room bs Hrest Hroom Hbs. cbn [e_lmd e_literals s] in Hb.
  destruct Hb as [Hblock _ [k Hk] Hquads _]. destruct (decode_block_is l _ block pre rest behind k Hblock Hl Hk Hquads Hr Hrest dst dst' room bs Hbs) as (bs' & Hbs' & ->);
    [by apply expand_more|done|].
  exists bs'. split; [done|]. unfold cut. by case_decide.
Qed.

(** Three matches, one of which overlaps itself and one of which repeats a distance. *)
Definition three_matches : list lmd := [mkLmd 5 3 2; mkLmd 8 40 2; mkLmd 0 200 30].

Lemma matches_roundtrip_witness :
  ∃ dst', expand three_matches (bytes_of "hello world!!") [] = Ok dst' ∧
  let s := mkOutput [] three_matches (bytes_of "hello world!!") in
  (lzfse_encode_matches (H := x86) 1000 s = Ok (DST_FULL, s) ∨
  ∃ block, lzfse_encode_matches (H := x86) 1000 s = Ok (OK, mkOutput ([] ++ block) [] []) ∧ size ([] ++ block) ≤ 1000 ∧
    ∀ pre rest behind room bs, rest ≠ [] → size [] ≤ room → block_state_sized bs →
      ∃ bs', block_state_sized bs' ∧
      decode_block (pre ++ block ++ rest) behind room LZFSE_COMPRESSEDV2_BLOCK_MAGIC (block ++ rest) [] bs
      = Ok (if decide (size dst' ≤ room) then Closed rest dst' bs' else Stopped DST_FULL (take (Z.to_nat room) dst'))).
Proof.
  eexists. split; [vm_compute; reflexivity|].
  apply (matches_roundtrip 1000 [] three_matches (bytes_of "hello world!!") []); try by vm_compute.
  repeat constructor; by vm_compute.
Defined.

End LzfseBlockRoundtrip.
Export LzfseBlockRoundtrip.
