(* ===== verification/LzfseMatch.v ===== *)
(** * third/lzfse/src/lzfse_encode_base.c: finding matches

    The front end walks through the source and looks up earlier positions with the same
    four bytes; the back end splits a match into values that fit, collects them, and has a
    block written when its tables are full. *)

From stdpp Require Import base gmap list strings.
From Stdlib Require Import Ascii ZArith Lia.
From S2P Require Import Prelude CInt Util Buffer LzvnEncode Fse LzfseHeader LzfseBlock.
Local Open Scope Z_scope.

Module LzfseMatch.

Definition LZFSE_ENCODE_HASH_BITS : Z := 14.
Definition LZFSE_ENCODE_HASH_WIDTH : nat := 4.
Definition LZFSE_ENCODE_GOOD_MATCH : Z := 40.
Definition LZFSE_ENCODE_MAX_MATCH_LENGTH : Z := 100 * LZFSE_ENCODE_MAX_M_VALUE.

(** [hashX]. *)
Definition hashX (x : Z) : Z := Z.shiftr ((x * 2654435761) mod 2 ^ 32) (32 - LZFSE_ENCODE_HASH_BITS).

(** ** The state *)

Record lzfse_match := mkLzfseMatch {
  x_pos : Z;
  x_ref : Z;
  x_length : Z;
}.
Definition NO_MATCH : lzfse_match := mkLzfseMatch 0 0 0.

Record lzfse_history_set := mkHistory {
  h_pos : list Z;
  h_value : list Z;
}.

(** Offsets count from [ze_base], the position of [src] in the whole source [ze_mem]; the
    lines of the history table that are not in [ze_table] are as at the start. *)
Record lzfse_encoder_state := mkLzfseEncoder {
  ze_mem : bytes;
  ze_base : Z;
  ze_src_end : Z;
  ze_src_literal : Z;
  ze_src_encode_i : Z;
  ze_dst_size : Z;
  ze_pending : lzfse_match;
  ze_out : output;
  ze_initial : lzfse_history_set;
  ze_table : gmap Z lzfse_history_set;
}.

Definition history_get (s : lzfse_encoder_state) (h : Z) : lzfse_history_set := default (ze_initial s) (ze_table s !! h).

(** The fields an operation changes. *)
Definition set_output (s : lzfse_encoder_state) (src_literal : Z) (out : output) : lzfse_encoder_state :=
  mkLzfseEncoder (ze_mem s) (ze_base s) (ze_src_end s) src_literal (ze_src_encode_i s) (ze_dst_size s) (ze_pending s) out (ze_initial s) (ze_table s).
Definition set_pending (s : lzfse_encoder_state) (m : lzfse_match) : lzfse_encoder_state :=
  mkLzfseEncoder (ze_mem s) (ze_base s) (ze_src_end s) (ze_src_literal s) (ze_src_encode_i s) (ze_dst_size s) m (ze_out s) (ze_initial s) (ze_table s).
Definition set_line (s : lzfse_encoder_state) (h : Z) (line : lzfse_history_set) : lzfse_encoder_state :=
  mkLzfseEncoder (ze_mem s) (ze_base s) (ze_src_end s) (ze_src_literal s) (ze_src_encode_i s + 1) (ze_dst_size s) (ze_pending s) (ze_out s)
    (ze_initial s) (<[h := line]> (ze_table s)).
Definition set_src_end (s : lzfse_encoder_state) (src_end : Z) : lzfse_encoder_state :=
  mkLzfseEncoder (ze_mem s) (ze_base s) src_end (ze_src_literal s) (ze_src_encode_i s) (ze_dst_size s) (ze_pending s) (ze_out s) (ze_initial s) (ze_table s).

(** ** The back end *)

(** The literals, by blocks of sixteen bytes unless the source ends. *)
Definition literal_bytes (s : lzfse_encoder_state) (L : Z) : result bytes :=
  let src := ze_base s + ze_src_literal s in
  if ze_src_end s <? ze_src_literal s + L + 16 then load (ze_mem s) src (Z.to_nat L)
  else take (Z.to_nat L) <$> load (ze_mem s) src (16 * Z.to_nat (Z.max 1 ((L + 15) / 16))).

(** [lzfse_push_lmd]; [None] when the tables are full. *)
Definition lzfse_push_lmd (s : lzfse_encoder_state) (L M D : Z) : result (option lzfse_encoder_state) :=
  let o := ze_out s in
  if LZFSE_MATCHES_PER_BLOCK <? Z.of_nat (length (e_lmd o)) + 1 + 8 then Ok None
  else if LZFSE_LITERALS_PER_BLOCK <? size (e_literals o) + L + 16 then Ok None
  else
    literals ← literal_bytes s L;
    Ok (Some (set_output s (ze_src_literal s + (L + M)) (mkOutput (e_dst o) (e_lmd o ++ [mkLmd L M D]) (e_literals o ++ literals)))).

(** The two loops of [lzfse_push_match]: the state and what is left of the length. *)
Fixpoint split_literals (fuel : nat) (s : lzfse_encoder_state) (L : Z) : result (option (lzfse_encoder_state * Z)) :=
  if LZFSE_ENCODE_MAX_L_VALUE <? L then
    match fuel with
    | O => Err Diverge
    | S fuel =>
        r ← lzfse_push_lmd s LZFSE_ENCODE_MAX_L_VALUE 0 1;
        match r with Some s => split_literals fuel s (L - LZFSE_ENCODE_MAX_L_VALUE) | None => Ok None end
    end
  else Ok (Some (s, L)).

Fixpoint split_match (fuel : nat) (s : lzfse_encoder_state) (L M D : Z) : result (option (lzfse_encoder_state * Z * Z)) :=
  if LZFSE_ENCODE_MAX_M_VALUE <? M then
    match fuel with
    | O => Err Diverge
    | S fuel =>
        r ← lzfse_push_lmd s L LZFSE_ENCODE_MAX_M_VALUE D;
        match r with Some s => split_match fuel s 0 (M - LZFSE_ENCODE_MAX_M_VALUE) D | None => Ok None end
    end
  else Ok (Some (s, L, M)).

(** [lzfse_push_match]; the state is as before when the tables are full. *)
Definition lzfse_push_match (s : lzfse_encoder_state) (m : lzfse_match) : result (option lzfse_encoder_state) :=
  let L := (x_pos m - ze_src_literal s) mod 2 ^ 32 in
  let M := x_length m in
  let D := (x_pos m - x_ref m) mod 2 ^ 32 in
  r ← split_literals (Z.to_nat L) s L;
  match r with
  | None => Ok None
  | Some (s, L) =>
      r ← split_match (Z.to_nat M) s L M D;
      match r with
      | None => Ok None
      | Some (s, L, M) => if (0 <? L) || (0 <? M) then lzfse_push_lmd s L M D else Ok (Some s)
      end
  end.

(** [lzfse_encode_matches] on the state. *)
Definition emit_block `{Machine} (s : lzfse_encoder_state) : result (status * lzfse_encoder_state) :=
  '(st, o) ← lzfse_encode_matches (ze_dst_size s) (ze_out s); Ok (st, set_output s (ze_src_literal s) o).

Definition lzfse_backend_match `{Machine} (s : lzfse_encoder_state) (m : lzfse_match) : result (status * lzfse_encoder_state) :=
  r ← lzfse_push_match s m;
  match r with
  | Some s => Ok (OK, s)
  | None =>
      '(st, s) ← emit_block s;
      match st with
      | OK => r ← lzfse_push_match s m; Ok (match r with Some s => (OK, s) | None => (DST_FULL, s) end)
      | _ => Ok (DST_FULL, s)
      end
  end.

Definition lzfse_backend_literals `{Machine} (s : lzfse_encoder_state) (L : Z) : result (status * lzfse_encoder_state) :=
  let pos := ze_src_literal s + L in
  lzfse_backend_match s (mkLzfseMatch pos (pos - 1) 0).

Definition lzfse_backend_end_of_stream `{Machine} (s : lzfse_encoder_state) : result (status * lzfse_encoder_state) :=
  '(st, s) ← emit_block s;
  match st with
  | OK =>
      let o := ze_out s in
      if ze_dst_size s <? size (e_dst o) + 4 then Ok (DST_FULL, s)
      else Ok (OK, set_output s (ze_src_literal s) (mkOutput (e_dst o ++ le_bytes 4 LZFSE_ENDOFSTREAM_BLOCK_MAGIC) (e_lmd o) (e_literals o)))
  | _ => Ok (DST_FULL, s)
  end.

(** ** The front end *)

(** How far the bytes at [ref] and at [pos] agree, eight at a time. *)
Fixpoint match_length (fuel : nat) (mem : bytes) (ref pos length maxLength : Z) : result Z :=
  if length <? maxLength then
    a ← load8 mem (ref + length);
    b ← load8 mem (pos + length);
    match Z.lxor a b with
    | Z.pos d => Ok (length + Z.shiftr (ctz d) 3)
    | _ =>
        match fuel with
        | O => Err Diverge
        | S fuel => match_length fuel mem ref pos (length + 8) maxLength
        end
    end
  else Ok length.

(** One position of the history line: the longer match is kept. *)
Definition check_history (s : lzfse_encoder_state) (pos x : Z) (incoming : lzfse_match) (line : Z * Z) : result lzfse_match :=
  let ref := line.1 in
  if negb (Z.lxor line.2 x =? 0) then Ok incoming
  else if ref + LZFSE_ENCODE_MAX_D_VALUE <? pos then Ok incoming
  else
    length ← match_length (length (ze_mem s)) (ze_mem s) (ze_base s + ref) (ze_base s + pos) 4 ((ze_src_end s - pos - 8) mod 2 ^ 32);
    Ok (if x_length incoming <? length then mkLzfseMatch pos ref length else incoming).

Definition search_history (s : lzfse_encoder_state) (pos x : Z) (h : lzfse_history_set) : result lzfse_match :=
  foldM (check_history s pos x) (mkLzfseMatch pos 0 0) (zip (h_pos h) (h_value h)).

(** A match of limited length, expanded backwards by the loop that LZVN has as well. *)
Definition expand_match (s : lzfse_encoder_state) (pos : Z) (incoming : lzfse_match) : result lzfse_match :=
  let length := Z.min (x_length incoming) LZFSE_ENCODE_MAX_MATCH_LENGTH in
  p ← expand_backwards (List.length (ze_mem s)) (ze_mem s) (ze_base s) (ze_base s + ze_src_literal s) (ze_base s + x_ref incoming) (ze_base s + pos);
  let p := p - ze_base s in
  Ok (mkLzfseMatch p (x_ref incoming - (pos - p)) (length + (pos - p))).

(** The state after a call of the back end, with what is pending then, and whether the
    loop goes on. *)
Definition backend_then (pending : lzfse_match) (r : status * lzfse_encoder_state) : lzfse_encoder_state * bool :=
  match r.1 with OK => (set_pending r.2 pending, true) | _ => (r.2, false) end.

(** Without a match: literals are not left to lag too far behind. *)
Definition no_incoming `{Machine} (s : lzfse_encoder_state) (pos : Z) : result (lzfse_encoder_state * bool) :=
  if 8 * LZFSE_ENCODE_MAX_L_VALUE <? pos - ze_src_literal s then
    if 0 <? x_length (ze_pending s) then backend_then NO_MATCH <$> lzfse_backend_match s (ze_pending s)
    else backend_then (ze_pending s) <$> lzfse_backend_literals s LZFSE_ENCODE_MAX_L_VALUE
  else Ok (s, true).

(** With one: it is emitted, kept, or weighed against the pending one. *)
Definition filter_incoming `{Machine} (s : lzfse_encoder_state) (incoming : lzfse_match) : result (lzfse_encoder_state * bool) :=
  let pending := ze_pending s in
  if LZFSE_ENCODE_GOOD_MATCH <=? x_length incoming then backend_then NO_MATCH <$> lzfse_backend_match s incoming
  else if x_length pending =? 0 then Ok (set_pending s incoming, true)
  else if x_pos pending + x_length pending <=? x_pos incoming then backend_then incoming <$> lzfse_backend_match s pending
  else if x_length pending <? x_length incoming then backend_then NO_MATCH <$> lzfse_backend_match s incoming
  else backend_then NO_MATCH <$> lzfse_backend_match s pending.

(** One position; the history line is stored unless the back end has failed. *)
Definition encode_position `{Machine} (s : lzfse_encoder_state) : result (lzfse_encoder_state * bool) :=
  let pos := ze_src_encode_i s in
  x ← load4 (ze_mem s) (ze_base s + pos);
  let h := history_get s (hashX x) in
  let newH := mkHistory (to_int pos :: take (LZFSE_ENCODE_HASH_WIDTH - 1) (h_pos h)) (x :: take (LZFSE_ENCODE_HASH_WIDTH - 1) (h_value h)) in
  '(s, ok) ←
    (if pos <? ze_src_literal s then Ok (s, true)
     else
       incoming ← search_history s pos x h;
       if x_length incoming =? 0 then no_incoming s pos
       else incoming ← expand_match s pos incoming; filter_incoming s incoming);
  Ok (if ok : bool then (set_line s (hashX x) newH, true) else (s, false)).

(** [lzfse_encode_base]: the state and whether it succeeded. *)
Fixpoint encode_positions `{Machine} (fuel : nat) (src_encode_end : Z) (s : lzfse_encoder_state) : result (lzfse_encoder_state * bool) :=
  if ze_src_encode_i s <? src_encode_end then
    match fuel with
    | O => Err Diverge
    | S fuel =>
        '(s, ok) ← encode_position s;
        if ok : bool then encode_positions fuel src_encode_end s else Ok (s, false)
    end
  else Ok (s, true).
Definition lzfse_encode_base `{Machine} (s : lzfse_encoder_state) : result (lzfse_encoder_state * bool) :=
  encode_positions (length (ze_mem s)) (ze_src_end s - 8) s.

Definition lzfse_encode_finish `{Machine} (s : lzfse_encoder_state) : result (status * lzfse_encoder_state) :=
  '(st, s) ← (if 0 <? x_length (ze_pending s) then lzfse_backend_match s (ze_pending s) else Ok (OK, s));
  match st with
  | OK =>
      let s := if 0 <? x_length (ze_pending s) then set_pending s NO_MATCH else s in
      let L := ze_src_end s - ze_src_literal s in
      '(st, s) ← (if 0 <? L then lzfse_backend_literals s L else Ok (OK, s));
      match st with OK => lzfse_backend_end_of_stream s | _ => Ok (DST_FULL, s) end
  | _ => Ok (DST_FULL, s)
  end.

(** ** Entry points *)

Definition invalid_pos : Z := -4 * LZFSE_ENCODE_MAX_D_VALUE.

(** [lzfse_encode_init] on a cleared state, with the fields its caller sets. *)
Definition lzfse_encode_init (dst_size : Z) (src : bytes) (src_end : Z) : lzfse_encoder_state :=
  mkLzfseEncoder src 0 src_end 0 0 dst_size NO_MATCH (mkOutput [] [] [])
    (mkHistory (replicate LZFSE_ENCODE_HASH_WIDTH invalid_pos) (replicate LZFSE_ENCODE_HASH_WIDTH 0)) ∅.

(** [lzfse_encode_translate]. *)
Definition translate_line (delta : Z) (line : lzfse_history_set) : lzfse_history_set :=
  mkHistory ((λ p, to_int (Z.max invalid_pos (p - delta))) <$> h_pos line) (h_value line).
Definition lzfse_encode_translate (s : lzfse_encoder_state) (delta : Z) : result lzfse_encoder_state :=
  _ ← assert_ (0 <=? delta);
  let p := ze_pending s in
  Ok (if delta =? 0 then s
      else mkLzfseEncoder (ze_mem s) (ze_base s + delta) (ze_src_end s - delta) (ze_src_literal s - delta) (ze_src_encode_i s - delta)
             (ze_dst_size s) (mkLzfseMatch (x_pos p - delta) (x_ref p - delta) (x_length p)) (ze_out s)
             (translate_line delta (ze_initial s)) (translate_line delta <$> ze_table s)).

Definition encoder_block_size : Z := 262144.

(** The chunks of a huge source; [None] when one of them fails. *)
Fixpoint encode_chunks `{Machine} (fuel : nat) (s : lzfse_encoder_state) (src_size : Z) : result (option (lzfse_encoder_state * Z)) :=
  if encoder_block_size <=? src_size then
    match fuel with
    | O => Err Diverge
    | S fuel =>
        '(s, ok) ← lzfse_encode_base (set_src_end s (2 * encoder_block_size));
        if ok : bool then s ← lzfse_encode_translate s encoder_block_size; encode_chunks fuel s (src_size - encoder_block_size)
        else Ok None
    end
  else Ok (Some (s, src_size)).

(** The state in which the last chunk, or the whole source, is encoded. *)
Definition encode_prepare `{Machine} (dst_size : Z) (src : bytes) : result (option lzfse_encoder_state) :=
  if 4294967295 <=? size src then
    '(s, ok) ← lzfse_encode_base (lzfse_encode_init dst_size src encoder_block_size);
    if ok : bool then
      r ← encode_chunks (length src) s (size src - encoder_block_size);
      Ok (match r with Some (s, src_size) => Some (set_src_end s (encoder_block_size + src_size)) | None => None end)
    else Ok None
  else Ok (Some (lzfse_encode_init dst_size src (size src))).

(** What [lzfse_encode_buffer] writes with this encoder; [None] when it fails. *)
Definition compressed_blocks `{Machine} (dst_size : Z) (src : bytes) : result (option bytes) :=
  r ← encode_prepare dst_size src;
  match r with
  | None => Ok None
  | Some s =>
      '(s, ok) ← lzfse_encode_base s;
      if ok : bool then
        '(st, s) ← lzfse_encode_finish s;
        Ok (match st with OK => Some (e_dst (ze_out s)) | _ => None end)
      else Ok None
  end.

End LzfseMatch.
Export LzfseMatch.
