(* ===== verification/LzfseSearch.v ===== *)
(** * lzfse: the invariants of the encoder

    [LzfseCover]: of the back end.  [LzfseSearch]: of the search for matches. *)

From stdpp Require Import base gmap list strings.
From Stdlib Require Import Ascii ZArith Lia.
From S2P Require Import Prelude CInt Util Buffer LzvnDecode LzvnEncode LzvnInstr LzvnEmit Fse LzfseHeader LzfseBlock LzfsePayload LzfseBlockRoundtrip LzfseMatch LzvnRoundtrip.
Local Open Scope Z_scope.

(** * third/lzfse: what the back end of the encoder has covered

    The blocks that are written stand for a beginning of the source, and the collected
    values expand it to the part the encoder has covered.  Pushing a match and emitting a
    block keep this. *)

Module LzfseCover.

(** A sequence of blocks and what it stands for. *)
Inductive blocks_of : bytes → bytes → Prop :=
| no_block : blocks_of [] []
| one_block code text l literals block text' :
    blocks_of code text → block_ok l literals block → expand l literals text = Ok text' → blocks_of (code ++ block) text'.

(** The first [lit] bytes of the source are covered by what has been written and
    collected. *)
Record covers (src : bytes) (lit : nat) (o : output) : Prop := {
  covered_blocks : ∃ text, blocks_of (e_dst o) text ∧ expand (e_lmd o) (e_literals o) text = Ok (take lit src);
  covered_range : Forall lmd_in_range (e_lmd o);
  covered_used : literals_used (e_lmd o) = size (e_literals o);
  covered_matches : Z.of_nat (length (e_lmd o)) ≤ LZFSE_MATCHES_PER_BLOCK;
  covered_literals : size (e_literals o) ≤ LZFSE_LITERALS_PER_BLOCK;
}.

Record encoder_ok (src : bytes) (n : Z) (lit cur : nat) (s : lzfse_encoder_state) : Prop := mkEncoderOk {
  enc_mem : ze_mem s = src;
  enc_base : ze_base s = 0;
  enc_src_end : ze_src_end s = size src;
  enc_literal : ze_src_literal s = Z.of_nat lit;
  enc_current : ze_src_encode_i s = Z.of_nat cur;
  enc_dst_size : ze_dst_size s = n;
  enc_lit : (lit ≤ length src)%nat;
  enc_covers : covers src lit (ze_out s);
  enc_room : size (e_dst (ze_out s)) ≤ Z.max 0 n;
}.

(** What is kept besides: pending matches and the history do not change in the back end. *)
Definition same_search (s s' : lzfse_encoder_state) : Prop :=
  ze_pending s' = ze_pending s ∧ ze_initial s' = ze_initial s ∧ ze_table s' = ze_table s.

Lemma same_search_trans s1 s2 s3 : same_search s1 s2 → same_search s2 s3 → same_search s1 s3.
Proof. intros (? & ? & ?) (? & ? & ?). split_and!; congruence. Qed.

(** ** Pushing values *)

Lemma literal_bytes_is src n lit cur s L :
  encoder_ok src n lit cur s → (lit + L ≤ length src)%nat → literal_bytes s (Z.of_nat L) = Ok (take L (drop lit src)).
Proof.
  intros [Hm Hb He Hl Hc Hd Hlit Hcov Hroom] HL. unfold literal_bytes. rewrite Hm, Hb, He, Hl, Z.add_0_l, Nat2Z.id.
  destruct (Z.ltb_spec (size src) (Z.of_nat lit + Z.of_nat L + 16)) as [|H16].
  - rewrite load_Ok by (unfold size; lia). by rewrite Nat2Z.id.
  - set (k := Z.max 1 ((Z.of_nat L + 15) / 16)). pose proof (Z.div_mod (Z.of_nat L + 15) 16 ltac:(lia)). pose proof (Z.mod_pos_bound (Z.of_nat L + 15) 16 ltac:(lia)).
    assert (Z.of_nat L ≤ 16 * k ≤ Z.of_nat L + 16) as Hk by lia. rewrite load_Ok by lia. cbn [fmap result_fmap]. rewrite Nat2Z.id, take_take. do 2 f_equal. lia.
Qed.

Lemma push_lmd_ok src n lit cur s L M D :
  encoder_ok src n lit cur s → Z.of_nat L ≤ 315 → Z.of_nat M ≤ 2359 → Z.of_nat D ≤ 262139 → repeats src (lit + L) M D →
  ∃ r, lzfse_push_lmd s (Z.of_nat L) (Z.of_nat M) (Z.of_nat D) = Ok r ∧
    ∀ s', r = Some s' → encoder_ok src n (lit + L + M) cur s' ∧ same_search s s'.
Proof.
  intros Hok HL HM HD Hr. pose proof Hr as (HD1 & Hlen & _). unfold lzfse_push_lmd.
  destruct (Z.ltb_spec LZFSE_MATCHES_PER_BLOCK (Z.of_nat (length (e_lmd (ze_out s))) + 1 + 8)) as [|Hcm]; [by exists None|].
  destruct (Z.ltb_spec LZFSE_LITERALS_PER_BLOCK (size (e_literals (ze_out s)) + Z.of_nat L + 16)) as [|Hcl]; [by exists None|].
  rewrite (literal_bytes_is _ _ _ _ _ _ Hok) by lia. cbn [mbind result_bind]. eexists. split; [done|]. intros s' [= <-]. split; [|done].
  destruct Hok as [Hm Hb He Hl Hc Hd Hlit [(text & Hblocks & Hexp) Hrange Hused _ _] Hroom].
  assert (size (take L (drop lit src)) = Z.of_nat L) as Hs by (unfold size; rewrite length_take, length_drop; lia).
  split; cbn [ze_mem ze_base ze_src_end ze_src_literal ze_src_encode_i ze_dst_size ze_out set_output e_dst]; try done; [lia|].
  split; cbn [e_dst e_lmd e_literals].
  - exists text. split; [done|]. rewrite expand_app, Hexp by done. cbn [mbind result_bind expand]. unfold expand_one. cbn [l_value m_value d_value].
    rewrite Hs. assert (size (take lit src) = Z.of_nat lit) as -> by (unfold size; rewrite length_take; lia).
    destruct (Z.ltb_spec (Z.of_nat L) (Z.of_nat L)); [lia|]. destruct (Z.ltb_spec (Z.of_nat lit + Z.of_nat L) (Z.of_nat D)); [lia|].
    destruct (Z.ltb_spec (Z.of_nat D) 1); [lia|]. cbn [orb]. rewrite !Nat2Z.id, take_take, Nat.min_id, take_take_drop.
    by rewrite (repeats_copy _ _ _ _ Hr).
  - apply Forall_app. split; [done|]. constructor; [|done]. split; cbn [l_value m_value d_value]; unfold LZFSE_ENCODE_MAX_L_VALUE, LZFSE_ENCODE_MAX_M_VALUE, LZFSE_ENCODE_MAX_D_VALUE; lia.
  - rewrite literals_used_app, Hused, size_app, Hs. unfold literals_used. simpl. lia.
  - rewrite length_app. cbn [length]. lia.
  - rewrite size_app, Hs. lia.
Qed.

Lemma split_literals_ok src n fuel lit cur s L :
  encoder_ok src n lit cur s → (lit + L ≤ length src)%nat → (L ≤ fuel)%nat →
  ∃ r, split_literals fuel s (Z.of_nat L) = Ok r ∧
    ∀ s' L', r = Some (s', L') → ∃ l, L' = Z.of_nat (L - l) ∧ (l ≤ L)%nat ∧ Z.of_nat (L - l) ≤ 315 ∧ encoder_ok src n (lit + l) cur s' ∧ same_search s s'.
Proof.
  revert lit s L. induction fuel as [|fuel IH]; intros lit s L Hok Hlen Hf; cbn [split_literals]; unfold LZFSE_ENCODE_MAX_L_VALUE;
    (destruct (Z.ltb_spec 315 (Z.of_nat L)) as [H315|H315];
     [|eexists; split; [done|]; intros ? ? [= <- <-]; exists 0%nat; rewrite Nat.sub_0_r, Nat.add_0_r; split_and!; done || lia]); [lia|].
  destruct (push_lmd_ok src n lit cur s 315 0 1 Hok) as (r & Hr & Hs); [lia..| |].
  { split; [lia|]. split; [lia|]. intros j Hj. lia. }
  change (Z.of_nat 315) with 315 in Hr. change (Z.of_nat 0) with 0 in Hr. change (Z.of_nat 1) with 1 in Hr. rewrite Hr. cbn [mbind result_bind].
  destruct r as [s1|]; [|by exists None]. destruct (Hs _ eq_refl) as [Hok1 Hsame]. rewrite Nat.add_0_r in Hok1.
  destruct (IH (lit + 315)%nat s1 (L - 315)%nat Hok1) as (r & Hr' & Hs'); [lia|lia|]. replace (Z.of_nat (L - 315)) with (Z.of_nat L - 315) in Hr' by lia.
  exists r. split; [done|]. intros s' L' E. destruct (Hs' _ _ E) as (l & -> & Hl & Hl' & Hok' & Hsame'). exists (315 + l)%nat.
  rewrite Nat.add_assoc. split_and!; [lia|lia|lia|done|..]; by destruct (same_search_trans _ _ _ Hsame Hsame') as (? & ? & ?).
Qed.

Lemma split_match_ok src n fuel lit cur s L M D :
  encoder_ok src n lit cur s → Z.of_nat L ≤ 315 → Z.of_nat D ≤ 262139 → repeats src (lit + L) M D → (M ≤ fuel)%nat →
  ∃ r, split_match fuel s (Z.of_nat L) (Z.of_nat M) (Z.of_nat D) = Ok r ∧
    ∀ s' L' M', r = Some (s', L', M') → ∃ lit' l m, L' = Z.of_nat l ∧ M' = Z.of_nat m ∧ Z.of_nat l ≤ 315 ∧ Z.of_nat m ≤ 2359 ∧ repeats src (lit' + l) m D ∧
      (lit' + l + m = lit + L + M)%nat ∧ encoder_ok src n lit' cur s' ∧ same_search s s'.
Proof.
  revert lit s L M. induction fuel as [|fuel IH]; intros lit s L M Hok HL HD Hr Hf; cbn [split_match]; unfold LZFSE_ENCODE_MAX_M_VALUE;
    (destruct (Z.ltb_spec 2359 (Z.of_nat M)) as [H2359|H2359];
     [|eexists; split; [done|]; intros ? ? ? [= <- <- <-]; exists lit, L, M; split_and!; done || lia]); [lia|].
  assert (∃ k, Z.of_nat k = 2359) as [k Hk] by (exists (Z.to_nat 2359); lia).
  replace M with (k + (M - k))%nat in Hr by lia. apply repeats_split in Hr as [Hr1 Hr2].
  destruct (push_lmd_ok src n lit cur s L k D Hok) as (r & Hr & Hs); [lia..|done|]. rewrite Hk in Hr. rewrite Hr. cbn [mbind result_bind].
  destruct r as [s1|]; [|by exists None]. destruct (Hs _ eq_refl) as [Hok1 Hsame].
  destruct (IH (lit + L + k)%nat s1 0%nat (M - k)%nat Hok1) as (r & Hr' & Hs'); [lia|done|by rewrite Nat.add_0_r|lia|].
  replace (Z.of_nat (M - k)) with (Z.of_nat M - 2359) in Hr' by lia. change (Z.of_nat 0) with 0 in Hr'.
  exists r. split; [done|]. intros s' L' M' E. destruct (Hs' _ _ _ E) as (lit' & l & m & -> & -> & Hl & Hm & Hrep & Hsum & Hok' & Hsame').
  exists lit', l, m. split_and!; try done; try lia; by destruct (same_search_trans _ _ _ Hsame Hsame') as (? & ? & ?).
Qed.

(** ** Pushing and emitting a match *)

(** A match of the source that begins at [lit] or later. *)
Definition match_ok (src : bytes) (lit : nat) (m : lzfse_match) (b M : nat) : Prop :=
  ∃ D, x_pos m = Z.of_nat b ∧ x_ref m = Z.of_nat b - Z.of_nat D ∧ x_length m = Z.of_nat M ∧ (lit ≤ b)%nat ∧ Z.of_nat D ≤ 262139 ∧ repeats src b M D.

Lemma push_match_ok src n lit cur s m b M :
  encoder_ok src n lit cur s → size src < 2 ^ 31 → match_ok src lit m b M →
  ∃ r, lzfse_push_match s m = Ok r ∧ ∀ s', r = Some s' → encoder_ok src n (b + M) cur s' ∧ same_search s s'.
Proof.
  intros Hok Hsz (D & Hp & Hrf & HM & Hlb & HD & Hr). pose proof Hr as (HD1 & Hlen & _). unfold lzfse_push_match.
  rewrite (enc_literal _ _ _ _ _ Hok), Hp, Hrf, HM. assert (Z.of_nat (length src) < 2 ^ 31) as Hsz' by exact Hsz.
  rewrite !Z.mod_small by (change (2 ^ 32) with 4294967296; change (2 ^ 31) with 2147483648 in Hsz'; lia).
  replace (Z.of_nat b - Z.of_nat lit) with (Z.of_nat (b - lit)) by lia. replace (Z.of_nat b - (Z.of_nat b - Z.of_nat D)) with (Z.of_nat D) by lia. rewrite !Nat2Z.id.
  destruct (split_literals_ok src n (b - lit) lit cur s (b - lit) Hok) as (r1 & -> & H1); [lia|lia|]. cbn [mbind result_bind].
  destruct r1 as [[s1 L1]|]; [|by exists None]. destruct (H1 _ _ eq_refl) as (l & -> & Hl & Hl315 & Hok1 & Hsame1).
  destruct (split_match_ok src n M (lit + l) cur s1 (b - lit - l) M D Hok1) as (r2 & -> & H2); [lia|lia|by replace (lit + l + (b - lit - l))%nat with b by lia|lia|].
  cbn [mbind result_bind]. destruct r2 as [[[s2 L2] M2]|]; [|by exists None].
  destruct (H2 _ _ _ eq_refl) as (lit' & l2 & m2 & -> & -> & Hl2 & Hm2 & Hrep & Hsum & Hok2 & Hsame2). pose proof (same_search_trans _ _ _ Hsame1 Hsame2) as Hsame.
  destruct (_ || _) eqn:E.
  - destruct (push_lmd_ok src n lit' cur s2 l2 m2 D Hok2) as (r3 & -> & H3); [lia..|done|]. exists r3. split; [done|]. intros s' E'.
    destruct (H3 _ E') as [Hok3 Hsame3]. split; [|by eapply same_search_trans]. by replace (b + M)%nat with (lit' + l2 + m2)%nat by lia.
  - apply orb_false_iff in E as [E1%Z.ltb_ge E2%Z.ltb_ge]. eexists. split; [done|]. intros s' [= <-]. split; [|done].
    by replace (b + M)%nat with lit' by lia.
Qed.

Section Backend.
Context `{Machine}.

Lemma emit_block_ok src n lit cur s :
  encoder_ok src n lit cur s →
  ∃ st s', emit_block s = Ok (st, s') ∧ encoder_ok src n lit cur s' ∧ same_search s s' ∧ (st = OK → e_lmd (ze_out s') = []) ∧ (st = OK ∨ st = DST_FULL).
Proof.
  intros [Hm Hb He Hl Hc Hd Hlit Hcov Hroom]. unfold emit_block. pose proof Hcov as [(text & Hblocks & Hexp) Hrange Hused Hmatch Hliterals].
  assert (e_lmd (ze_out s) = [] → e_literals (ze_out s) = []) as Hempty.
  { intros E. rewrite E in Hused. unfold literals_used in Hused. simpl in Hused. destruct (e_literals (ze_out s)); [done|unfold size in Hused; simpl in Hused; lia]. }
  destruct (lzfse_encode_matches_is (ze_dst_size s) (ze_out s) Hrange Hmatch Hliterals Hempty) as [[E ->]|[[E ->]|(block & E & -> & Hblock & Hsize)]]; cbn [mbind result_bind].
  - eexists _, _. split; [done|]. split; [by split|]. by split_and!; [..|left].
  - eexists _, _. split; [done|]. split; [by split|]. by split_and!; [..|right].
  - eexists _, _. split; [done|]. split; [|by split_and!; [..|left]]. split; try done.
    + split; cbn [set_output ze_out e_dst e_lmd e_literals expand].
      * exists (take lit src). split; [|done]. eapply one_block; [done..|]. by apply expand_more.
      * done.
      * done.
      * done.
      * done.
    + cbn [set_output ze_out e_dst]. lia.
Qed.

Lemma backend_match_ok src n lit cur s m b M :
  encoder_ok src n lit cur s → size src < 2 ^ 31 → match_ok src lit m b M →
  ∃ st s', lzfse_backend_match s m = Ok (st, s') ∧ same_search s s' ∧
    (st = OK → encoder_ok src n (b + M) cur s') ∧ (st ≠ OK → encoder_ok src n lit cur s').
Proof.
  intros Hok Hsz Hm. unfold lzfse_backend_match. destruct (push_match_ok src n lit cur s m b M Hok Hsz Hm) as (r & -> & Hr). cbn [mbind result_bind].
  destruct r as [s1|]; [destruct (Hr _ eq_refl); by exists OK, s1|].
  destruct (emit_block_ok src n lit cur s Hok) as (st & s1 & -> & Hok1 & Hsame1 & _ & Hst). cbn [mbind result_bind].
  destruct Hst as [->| ->]; [|by exists DST_FULL, s1].
  destruct (push_match_ok src n lit cur s1 m b M Hok1 Hsz Hm) as (r & -> & Hr'). cbn [mbind result_bind].
  destruct r as [s2|]; [|by exists DST_FULL, s1]. destruct (Hr' _ eq_refl) as [Hok2 Hsame2]. exists OK, s2. split; [done|]. split; [|done]. by eapply same_search_trans.
Qed.

Lemma backend_literals_ok src n lit cur s L :
  encoder_ok src n lit cur s → size src < 2 ^ 31 → (lit + L ≤ length src)%nat → (0 < L)%nat →
  ∃ st s', lzfse_backend_literals s (Z.of_nat L) = Ok (st, s') ∧ same_search s s' ∧
    (st = OK → encoder_ok src n (lit + L) cur s') ∧ (st ≠ OK → encoder_ok src n lit cur s').
Proof.
  intros Hok Hsz HL Hpos. unfold lzfse_backend_literals. rewrite (enc_literal _ _ _ _ _ Hok), <-Nat2Z.inj_add.
  destruct (backend_match_ok src n lit cur s (mkLzfseMatch (Z.of_nat (lit + L)) (Z.of_nat (lit + L) - 1) 0) (lit + L) 0 Hok Hsz) as (st & s' & Hb & Hs & H1 & H2).
  - exists 1%nat. cbn. split_and!; [done|lia|done|lia|lia|]. split; [lia|]. split; [lia|]. intros j Hj. lia.
  - rewrite Nat.add_0_r in H1. by exists st, s'.
Qed.
End Backend.

End LzfseCover.
Export LzfseCover.

(** * third/lzfse: the front end of the encoder finds real matches

    The history table holds earlier positions with the four bytes at them, the candidates
    are repetitions inside the source, and the loop covers the source up to its end without
    a load outside of it. *)

Module LzfseSearch.

(** ** Comparing eight bytes at a time *)

Definition eight (src : bytes) (i : nat) : Z := le_val (take 8 (drop i src)).

Lemma load8_eight src i : (i + 8 ≤ length src)%nat → load8 src (Z.of_nat i) = Ok (eight src i).
Proof. intros Hi. unfold load8. rewrite load_Ok by (unfold size; lia). by rewrite Nat2Z.id. Qed.

Lemma agree_take src i j n k :
  (n ≤ k)%nat → take n (take k (drop i src)) = take n (take k (drop j src)) → agree src i j n.
Proof.
  intros Hnk Ht m Hm. rewrite !take_take, Nat.min_l in Ht by done. apply (f_equal (.!! m)) in Ht.
  by rewrite !lookup_take_lt, !lookup_drop in Ht by done.
Qed.

Lemma eight_agree src i j :
  (i + 8 ≤ length src)%nat → (j + 8 ≤ length src)%nat →
  match Z.lxor (eight src i) (eight src j) with
  | Z.pos d => ∃ n, Z.shiftr (ctz d) 3 = Z.of_nat n ∧ (n < 8)%nat ∧ agree src i j n
  | _ => agree src i j 8
  end.
Proof.
  intros Hi Hj. unfold eight. set (a := take 8 (drop i src)). set (b := take 8 (drop j src)).
  assert (length a = 8%nat ∧ length b = 8%nat) as [Ha Hb] by (unfold a, b; rewrite !length_take, !length_drop; lia).
  pose proof (le_val_range a) as Ra. pose proof (le_val_range b) as Rb. assert (0 ≤ Z.lxor (le_val a) (le_val b)) as Hpos by (apply Z.lxor_nonneg; lia).
  assert (∀ n, (n ≤ 8)%nat → (256 ^ Z.of_nat n | Z.lxor (le_val a) (le_val b)) → agree src i j n) as Hag.
  { intros n Hn Hd. apply (agree_take _ _ _ n 8 Hn). apply low_bytes_equal; [fold a; lia|fold b; lia|done]. }
  destruct (Z.lxor (le_val a) (le_val b)) as [|d|] eqn:E; [apply Hag; [done|apply Z.divide_0_r]| |lia].
  destruct (ctz_divides d) as [Hc0 Hc]. set (n := Z.to_nat (ctz d / 8)). pose proof (Z.div_mod (ctz d) 8 ltac:(lia)). pose proof (Z.mod_pos_bound (ctz d) 8 ltac:(lia)).
  assert (∀ m, (m ≤ n)%nat → (256 ^ Z.of_nat m | Z.lxor (le_val a) (le_val b))) as Hdiv.
  { intros m Hm. rewrite E. etrans; [|exact Hc]. change 256 with (2 ^ 8). rewrite <-Z.pow_mul_r by lia.
    exists (2 ^ (ctz d - 8 * Z.of_nat m)). rewrite <-Z.pow_add_r by lia. f_equal. lia. }
  exists n. rewrite Z.shiftr_div_pow2 by lia. change (2 ^ 3) with 8. split; [lia|]. destruct (Nat.le_gt_cases 8 n) as [Hn|Hn].
  - pose proof (low_bytes_equal 8 a b ltac:(lia) ltac:(lia) (Hdiv 8%nat Hn)) as He. rewrite !take_ge in He by lia. rewrite He, Z.lxor_nilpotent in E. done.
  - split; [done|]. apply Hag; [lia|]. rewrite <-E. by apply Hdiv.
Qed.

Lemma match_length_ok src fuel p D M maxLength :
  repeats src p M D → maxLength = size src - Z.of_nat p - 8 → (length src < fuel + p + M)%nat → Z.of_nat M < size src - Z.of_nat p →
  ∃ M', match_length fuel src (Z.of_nat (p - D)) (Z.of_nat p) (Z.of_nat M) maxLength = Ok (Z.of_nat M') ∧ (M ≤ M')%nat ∧ repeats src p M' D.
Proof.
  intros Hr -> Hf Hend. revert M Hr Hf Hend. induction fuel as [|fuel IH]; intros M Hr Hf Hend; cbn [match_length];
    (destruct (Z.ltb_spec (Z.of_nat M) (size src - Z.of_nat p - 8)) as [Hlt|]; [|by exists M]); [unfold size in *; lia|].
  pose proof Hr as (HD & Hlen & _). replace (Z.of_nat (p - D) + Z.of_nat M) with (Z.of_nat (p + M - D)) by lia. rewrite <-Nat2Z.inj_add.
  rewrite !load8_eight by (unfold size in *; lia). cbn [mbind result_bind]. pose proof (eight_agree src (p + M - D) (p + M)) as Ha.
  destruct (Z.lxor (eight src (p + M - D)) (eight src (p + M))) as [|d|].
  - specialize (Ha ltac:(unfold size in *; lia) ltac:(unfold size in *; lia)). replace (Z.of_nat M + 8) with (Z.of_nat (M + 8)) by lia.
    destruct (IH (M + 8)%nat) as (M' & HM' & Hle & Hr'); [apply repeats_extend; [done|unfold size in *; lia|]|unfold size in *; lia|unfold size in *; lia|].
    { intros k Hk. symmetry. by apply Ha. }
    exists M'. split_and!; [done|lia|done].
  - destruct Ha as (n & -> & Hn & Ha); [unfold size in *; lia..|]. exists (M + n)%nat. split; [f_equal; lia|]. split; [lia|].
    apply repeats_extend; [done|unfold size in *; lia|]. intros k Hk. symmetry. by apply Ha.
  - specialize (Ha ltac:(unfold size in *; lia) ltac:(unfold size in *; lia)). replace (Z.of_nat M + 8) with (Z.of_nat (M + 8)) by lia.
    destruct (IH (M + 8)%nat) as (M' & HM' & Hle & Hr'); [apply repeats_extend; [done|unfold size in *; lia|]|unfold size in *; lia|unfold size in *; lia|].
    { intros k Hk. symmetry. by apply Ha. }
    exists M'. split_and!; [done|lia|done].
Qed.

(** ** The history *)

(** A position before [cur] with the four bytes at it, or the invalid one. *)
Definition line_ok (src : bytes) (cur : nat) (line : lzfse_history_set) : Prop :=
  Forall (λ pv, pv.1 = invalid_pos ∨ ∃ i, pv.1 = Z.of_nat i ∧ (i < cur)%nat ∧ (i + 4 ≤ length src)%nat ∧ pv.2 = four src i) (zip (h_pos line) (h_value line)).

Definition history_ok (src : bytes) (cur : nat) (s : lzfse_encoder_state) : Prop := ∀ h, line_ok src cur (history_get s h).

Lemma line_ok_later src cur line : line_ok src cur line → line_ok src (S cur) line.
Proof. intros Hl. eapply Forall_impl; [exact Hl|]. intros pv [?|(i & ? & ? & ?)]; [by left|]. right. exists i. split_and!; done || lia. Qed.

Lemma history_same src cur s s' : history_ok src cur s → same_search s s' → history_ok src cur s'.
Proof. intros Hh (_ & Hi & Ht) h. specialize (Hh h). unfold history_get in *. by rewrite Hi, Ht. Qed.

(** The best candidate of a line: none, or a repetition of at least four bytes. *)
Definition incoming_ok (src : bytes) (cur : nat) (m : lzfse_match) : Prop :=
  x_length m = 0 ∨ ∃ D M, x_ref m = Z.of_nat (cur - D) ∧ x_length m = Z.of_nat M ∧ (4 ≤ M)%nat ∧ Z.of_nat D ≤ 262139 ∧ repeats src cur M D.

Lemma search_history_ok src n lit cur s line :
  encoder_ok src n lit cur s → line_ok src cur line → (cur + 8 < length src)%nat → size src < 2 ^ 31 →
  ∃ m, search_history s (Z.of_nat cur) (four src cur) line = Ok m ∧ incoming_ok src cur m.
Proof.
  intros Hok Hline Hcur Hsz. unfold search_history.
  destruct (foldM_total (incoming_ok src cur) (check_history s (Z.of_nat cur) (four src cur)) (mkLzfseMatch (Z.of_nat cur) 0 0) (zip (h_pos line) (h_value line)))
    as (m & -> & Hm); [|by left|by exists m].
  intros best [p v] Hin Hbest. unfold line_ok in Hline. rewrite Forall_forall in Hline. specialize (Hline _ Hin). cbn [fst snd] in Hline.
  unfold check_history. cbn [fst snd]. destruct (Z.eqb_spec (Z.lxor v (four src cur)) 0) as [Hx|]; cbn [negb]; [|by exists best].
  unfold LZFSE_ENCODE_MAX_D_VALUE. destruct (Z.ltb_spec (p + 262139) (Z.of_nat cur)); [by exists best|].
  destruct Hline as [->|(i & -> & Hi & Hi4 & ->)]; [unfold invalid_pos, LZFSE_ENCODE_MAX_D_VALUE in *; lia|].
  apply Z.lxor_eq in Hx. assert (agree src cur i 4) as Ha.
  { apply (agree_take _ _ _ 4 4); [done|]. rewrite !(take_take _ 4 4). apply le_val_inj; [rewrite !length_take, !length_drop; lia|]. symmetry. exact Hx. }
  assert (repeats src cur 4 (cur - i)) as Hr by (apply repeats_agree; done || lia).
  rewrite (enc_mem _ _ _ _ _ Hok), (enc_base _ _ _ _ _ Hok), (enc_src_end _ _ _ _ _ Hok), !Z.add_0_l.
  assert ((size src - Z.of_nat cur - 8) mod 2 ^ 32 = size src - Z.of_nat cur - 8) as ->.
  { apply Z.mod_small. change (2 ^ 32) with 4294967296. change (2 ^ 31) with 2147483648 in Hsz. unfold size in *. lia. }
  destruct (match_length_ok src (length src) cur (cur - i) 4 (size src - Z.of_nat cur - 8) Hr) as (M & Hml & HM & HrM); [done|lia|unfold size; lia|].
  replace (cur - (cur - i))%nat with i in Hml by lia. change (Z.of_nat 4) with 4 in Hml. rewrite Hml.
  cbn [mbind result_bind]. eexists. split; [done|]. destruct (_ <? _); [|done]. right. exists (cur - i)%nat, M. cbn.
  split_and!; [f_equal; lia|done|done|lia|done].
Qed.

(** ** The matches that are kept *)

Definition pending_ok (src : bytes) (lit : nat) (m : lzfse_match) : Prop := x_length m = 0 ∨ ∃ b M, (0 < M)%nat ∧ match_ok src lit m b M.

Lemma repeats_shorter src p M M' D : repeats src p M D → (M' ≤ M)%nat → repeats src p M' D.
Proof. intros (HD & Hlen & Hr) HM. split; [lia|]. split; [lia|]. intros j Hj. apply Hr. lia. Qed.

Lemma expand_match_ok src n lit cur s m :
  encoder_ok src n lit cur s → incoming_ok src cur m → x_length m ≠ 0 → (lit ≤ cur)%nat →
  ∃ m' b M, expand_match s (Z.of_nat cur) m = Ok m' ∧ (0 < M)%nat ∧ match_ok src lit m' b M.
Proof.
  intros Hok [?|(D & M & Href & HM & H4 & HD & Hr)] Hne Hlit; [done|]. pose proof Hr as (HD1 & Hlen & _). unfold expand_match.
  rewrite (enc_mem _ _ _ _ _ Hok), (enc_base _ _ _ _ _ Hok), (enc_literal _ _ _ _ _ Hok), !Z.add_0_l, Href, HM.
  unfold LZFSE_ENCODE_MAX_MATCH_LENGTH, LZFSE_ENCODE_MAX_M_VALUE. set (M0 := Z.to_nat (Z.min (Z.of_nat M) (100 * 2359))).
  assert (Z.min (Z.of_nat M) (100 * 2359) = Z.of_nat M0) as -> by (unfold M0; lia). assert (4 ≤ M0 ≤ M)%nat as HM0 by (unfold M0; lia).
  destruct (expand_backwards_spec src (length src) lit cur M0 D) as (b & -> & Hb & Hrb); [by eapply repeats_shorter; [|apply HM0]|lia|done|lia|].
  cbn [mbind result_bind]. eexists _, b, (M0 + (cur - b))%nat. split; [done|]. split; [lia|]. pose proof Hrb as (? & ? & _).
  exists D. cbn. split_and!; [lia|lia|lia|lia|done|done].
Qed.

Section Loop.
Context `{Machine} (src : bytes) (n : Z).
Hypothesis Hsz : size src < 2 ^ 31.

(** The state of the search: what is pending and the history. *)
Definition search_ok (lit cur : nat) (s : lzfse_encoder_state) : Prop :=
  encoder_ok src n lit cur s ∧ pending_ok src lit (ze_pending s) ∧ history_ok src cur s.

Lemma lzfse_pending_ok lit cur s m : encoder_ok src n lit cur s → encoder_ok src n lit cur (set_pending s m).
Proof. by intros []. Qed.

(** A call of the back end with a match, and what is pending then. *)
Lemma backend_then_ok lit cur s m b M pending :
  search_ok lit cur s → match_ok src lit m b M → pending_ok src (b + M) pending →
  ∃ r lit', backend_then pending <$> lzfse_backend_match s m = Ok r ∧ search_ok lit' cur r.1.
Proof.
  intros (Hok & Hp & Hh) Hm Hnext. destruct (backend_match_ok src n lit cur s m b M Hok Hsz Hm) as (st & s' & -> & Hsame & H1 & H2).
  cbn [fmap result_fmap]. unfold backend_then. cbn [fst snd]. pose proof (history_same _ _ _ _ Hh Hsame) as Hh'.
  assert (pending_ok src lit (ze_pending s')) as Hp' by (by rewrite (proj1 Hsame)).
  destruct st; (eexists _, _; split; [done|]); cbn [fst]; [split; [by apply lzfse_pending_ok, H1|done]|split; [by apply H2|done]..].
Qed.

Lemma later_match lit lit' m b M : match_ok src lit m b M → (lit' ≤ b)%nat → match_ok src lit' m b M.
Proof. intros (D & ? & ? & ? & ? & ?) Hl. by exists D. Qed.

Lemma no_incoming_ok lit cur s :
  search_ok lit cur s → (lit ≤ cur)%nat → (cur ≤ length src)%nat → ∃ r lit', no_incoming s (Z.of_nat cur) = Ok r ∧ search_ok lit' cur r.1.
Proof.
  intros Hs Hlit Hcur. pose proof Hs as (Hok & Hp & Hh). unfold no_incoming. rewrite (enc_literal _ _ _ _ _ Hok). unfold LZFSE_ENCODE_MAX_L_VALUE.
  destruct (Z.ltb_spec (8 * 315) (Z.of_nat cur - Z.of_nat lit)); [|by exists (s, true), lit].
  destruct (Z.ltb_spec 0 (x_length (ze_pending s))) as [Hpos|Hz].
  - destruct Hp as [?|(b & M & _ & Hm)]; [lia|]. apply (backend_then_ok lit cur s _ b M NO_MATCH Hs Hm). by left.
  - assert (x_length (ze_pending s) = 0) as Hz0 by (destruct Hp as [?|(b & M & _ & D & _ & _ & ? & _)]; lia).
    destruct (backend_literals_ok src n lit cur s 315 Hok Hsz) as (st & s' & Hb & Hsame & H1 & H2); [lia|lia|]. change (Z.of_nat 315) with 315 in Hb. rewrite Hb.
    cbn [fmap result_fmap]. unfold backend_then. cbn [fst snd]. pose proof (history_same _ _ _ _ Hh Hsame) as Hh'. pose proof (proj1 Hsame) as Hpend.
    destruct st; (eexists _, _; split; [done|]); cbn [fst]; [split; [by apply lzfse_pending_ok, H1|split; [by left|done]]|split; [by apply H2|split; [left; congruence|done]]..].
Qed.

Lemma filter_incoming_ok lit cur s m b M :
  search_ok lit cur s → match_ok src lit m b M → (0 < M)%nat → ∃ r lit', filter_incoming s m = Ok r ∧ search_ok lit' cur r.1.
Proof.
  intros Hs Hm HM. pose proof Hs as (Hok & Hp & Hh). unfold filter_incoming.
  assert (∀ k, pending_ok src k NO_MATCH) as Hno by (by left).
  destruct (_ <=? x_length m); [by eapply backend_then_ok|]. destruct (Z.eqb_spec (x_length (ze_pending s)) 0) as [Hz|Hz].
  { eexists (_, _), lit. split; [done|]. split; [by apply lzfse_pending_ok|]. split; [right; by exists b, M|done]. }
  destruct Hp as [?|(b' & M' & HM' & Hm')]; [done|]. destruct (Z.leb_spec (x_pos (ze_pending s) + x_length (ze_pending s)) (x_pos m)) as [Hle|].
  - eapply backend_then_ok; [done..|]. right. exists b, M. split; [done|]. destruct Hm as (D & Hx & Hm). destruct Hm' as (D' & Hx' & _ & Hl' & _).
    apply (later_match lit); [by exists D|]. lia.
  - destruct (_ <? _); by eapply backend_then_ok.
Qed.

Lemma new_line_ok cur line :
  line_ok src cur line → (cur + 8 < length src)%nat →
  line_ok src (S cur) (mkHistory (to_int (Z.of_nat cur) :: take 3 (h_pos line)) (four src cur :: take 3 (h_value line))).
Proof.
  intros Hl Hcur. unfold line_ok. cbn [h_pos h_value zip zip_with]. constructor.
  - right. exists cur. cbn [fst snd]. split_and!; [|lia|lia|done]. apply to_int_id. unfold is_int, INT_MIN, INT_MAX. change (2 ^ 31) with 2147483648 in Hsz. unfold size in Hsz. lia.
  - rewrite <-zip_with_take. apply Forall_take. exact (line_ok_later _ _ _ Hl).
Qed.

Lemma set_line_ok lit cur s x line : search_ok lit cur s → line_ok src (S cur) line → search_ok lit (S cur) (set_line s x line).
Proof.
  intros ([Hm Hb He Hl Hc Hd Hlit Hcov Hroom] & Hp & Hh) Hline. split; [|split; [done|]].
  - split; cbn [ze_mem ze_base ze_src_end ze_src_literal ze_src_encode_i ze_dst_size ze_out set_line]; try done. lia.
  - intros h. unfold history_get. cbn [set_line ze_initial ze_table]. destruct (decide (x = h)) as [->|Hne].
    + by rewrite lookup_insert_eq.
    + rewrite lookup_insert_ne by done. exact (line_ok_later _ _ _ (Hh h)).
Qed.

Lemma encode_position_ok lit cur s :
  search_ok lit cur s → (cur + 8 < length src)%nat →
  ∃ r lit', encode_position s = Ok r ∧ if r.2 then search_ok lit' (S cur) r.1 else search_ok lit' cur r.1.
Proof.
  intros Hs Hcur. pose proof Hs as (Hok & Hp & Hh). unfold encode_position. rewrite (enc_mem _ _ _ _ _ Hok), (enc_base _ _ _ _ _ Hok), (enc_current _ _ _ _ _ Hok), Z.add_0_l.
  rewrite load4_four by lia. cbn [mbind result_bind]. set (x := hashX (four src cur)). pose proof (new_line_ok cur _ (Hh x) Hcur) as Hnew.
  change (LZFSE_ENCODE_HASH_WIDTH - 1)%nat with 3%nat. set (line := mkHistory _ _) in *. rewrite (enc_literal _ _ _ _ _ Hok).
  destruct (Z.ltb_spec (Z.of_nat cur) (Z.of_nat lit)) as [|Hge]; cbn [mbind result_bind].
  { eexists (_, true), lit. split; [done|]. by apply set_line_ok. }
  destruct (search_history_ok src n lit cur s _ Hok (Hh x) Hcur Hsz) as (m & -> & Hm). cbn [mbind result_bind].
  assert (∃ r lit', (if x_length m =? 0 then no_incoming s (Z.of_nat cur) else incoming ← expand_match s (Z.of_nat cur) m; filter_incoming s incoming) = Ok r ∧
    search_ok lit' cur r.1) as ([s' go] & lit' & -> & Hs').
  { destruct (Z.eqb_spec (x_length m) 0) as [|Hne]; [apply (no_incoming_ok lit); done || lia|].
    destruct (expand_match_ok src n lit cur s m Hok Hm Hne) as (m' & b & M & -> & HM & Hm'); [lia|]. cbn [mbind result_bind]. by eapply filter_incoming_ok. }
  cbn [mbind result_bind fst] in *. destruct go; [eexists (_, true), lit'; split; [done|]; by apply set_line_ok|by eexists (_, false), lit'].
Qed.

Lemma encode_positions_ok fuel lit cur s :
  search_ok lit cur s → (length src ≤ fuel + cur)%nat →
  ∃ s' ok lit' cur', encode_positions fuel (size src - 8) s = Ok (s', ok) ∧ search_ok lit' cur' s'.
Proof.
  revert lit cur s. induction fuel as [|fuel IH]; intros lit cur s Hs Hf; cbn [encode_positions]; rewrite (enc_current _ _ _ _ _ (proj1 Hs));
    (destruct (Z.ltb_spec (Z.of_nat cur) (size src - 8)) as [Hlt|]; [unfold size in Hlt|by eexists s, true, lit, cur]); [lia|].
  destruct (encode_position_ok lit cur s Hs) as ([s1 go] & lit' & -> & Hs1); [lia|]. cbn [mbind result_bind fst snd] in *. destruct go.
  - apply (IH lit' (S cur)); [done|lia].
  - by eexists s1, false, lit', cur.
Qed.

Lemma lzfse_encode_base_ok : ∃ s ok lit cur, lzfse_encode_base (lzfse_encode_init n src (size src)) = Ok (s, ok) ∧ search_ok lit cur s.
Proof.
  unfold lzfse_encode_base. cbn [lzfse_encode_init ze_mem ze_src_end].
  apply (encode_positions_ok (length src) 0 0); [|lia]. split; [|split].
  - split; cbn; try done; [lia| |unfold size; simpl; lia]. split; cbn; try done. exists []. split; [constructor|done].
  - by left.
  - intros h. unfold history_get. cbn [lzfse_encode_init ze_initial ze_table]. rewrite lookup_empty. cbn [default].
    unfold line_ok. cbn [h_pos h_value LZFSE_ENCODE_HASH_WIDTH replicate zip zip_with]. by repeat constructor.
Qed.

(** ** The end of the source *)

Lemma backend_end_of_stream_ok lit cur s :
  encoder_ok src n lit cur s →
  ∃ st s', lzfse_backend_end_of_stream s = Ok (st, s') ∧
    (st = OK → ∃ code, e_dst (ze_out s') = code ++ le_bytes 4 LZFSE_ENDOFSTREAM_BLOCK_MAGIC ∧ blocks_of code (take lit src) ∧ size (e_dst (ze_out s')) ≤ Z.max 0 n).
Proof.
  intros Hok. unfold lzfse_backend_end_of_stream. destruct (emit_block_ok src n lit cur s Hok) as (st & s1 & -> & Hok1 & _ & Hempty & Hst). cbn [mbind result_bind].
  destruct Hst as [->| ->]; [|by exists DST_FULL, s1]. rewrite (enc_dst_size _ _ _ _ _ Hok1). destruct (Z.ltb_spec n (size (e_dst (ze_out s1)) + 4)); [by exists DST_FULL, s1|].
  eexists OK, _. split; [done|]. intros _. cbn [set_output ze_out e_dst]. exists (e_dst (ze_out s1)). split; [done|].
  destruct (enc_covers _ _ _ _ _ Hok1) as [(text & Hblocks & Hexp) _ _ _ _]. rewrite (Hempty eq_refl) in Hexp. cbn [expand] in Hexp. injection Hexp as ->.
  split; [done|]. rewrite size_app, size_le_bytes. lia.
Qed.

Lemma lzfse_encode_finish_ok lit cur s :
  search_ok lit cur s →
  ∃ st s', lzfse_encode_finish s = Ok (st, s') ∧
    (st = OK → ∃ code, e_dst (ze_out s') = code ++ le_bytes 4 LZFSE_ENDOFSTREAM_BLOCK_MAGIC ∧ blocks_of code src ∧ size (e_dst (ze_out s')) ≤ Z.max 0 n).
Proof.
  intros (Hok & Hp & _). unfold lzfse_encode_finish.
  assert (∃ st s1, (if 0 <? x_length (ze_pending s) then lzfse_backend_match s (ze_pending s) else Ok (OK, s)) = Ok (st, s1) ∧
    (st = OK → ∃ lit', encoder_ok src n lit' cur s1)) as (st & s1 & -> & H1).
  { destruct (Z.ltb_spec 0 (x_length (ze_pending s))); [|exists OK, s; split; [done|]; by exists lit]. destruct Hp as [?|(b & M & _ & Hm)]; [lia|].
    destruct (backend_match_ok src n lit cur s _ b M Hok Hsz Hm) as (st & s' & Hb & _ & Hs & _). exists st, s'. split; [done|]. intros E. exists (b + M)%nat. by apply Hs. }
  cbn [mbind result_bind]. destruct st; [|by eexists DST_FULL, s1..]. destruct (H1 eq_refl) as (lit1 & Hok1).
  set (s2 := if 0 <? x_length (ze_pending s1) then set_pending s1 NO_MATCH else s1). assert (encoder_ok src n lit1 cur s2) as Hok2 by (unfold s2; destruct (_ <? _); [by apply lzfse_pending_ok|done]).
  rewrite (enc_src_end _ _ _ _ _ Hok2), (enc_literal _ _ _ _ _ Hok2). pose proof (enc_lit _ _ _ _ _ Hok2) as Hl.
  replace (size src - Z.of_nat lit1) with (Z.of_nat (length src - lit1)) by (unfold size; lia).
  assert (∃ st s3, (if 0 <? Z.of_nat (length src - lit1) then lzfse_backend_literals s2 (Z.of_nat (length src - lit1)) else Ok (OK, s2)) = Ok (st, s3) ∧
    (st = OK → encoder_ok src n (length src) cur s3)) as (st & s3 & -> & H3).
  { destruct (Z.ltb_spec 0 (Z.of_nat (length src - lit1))); [|exists OK, s2; split; [done|]; by replace (length src) with lit1 by lia].
    destruct (backend_literals_ok src n lit1 cur s2 (length src - lit1) Hok2 Hsz) as (st & s' & Hb & _ & Hs & _); [lia|lia|].
    exists st, s'. split; [done|]. by replace (lit1 + (length src - lit1))%nat with (length src) in Hs by lia. }
  cbn [mbind result_bind]. destruct st; [|by eexists DST_FULL, s3..].
  destruct (backend_end_of_stream_ok (length src) cur s3 (H3 eq_refl)) as (st & s' & -> & Hend). exists st, s'. split; [done|]. by rewrite firstn_all in Hend.
Qed.

(** The encoder fails, or writes blocks that stand for the source, and the end marker. *)
Lemma compressed_blocks_ok :
  compressed_blocks n src = Ok None ∨
  ∃ code, compressed_blocks n src = Ok (Some (code ++ le_bytes 4 LZFSE_ENDOFSTREAM_BLOCK_MAGIC)) ∧ blocks_of code src ∧
    size (code ++ le_bytes 4 LZFSE_ENDOFSTREAM_BLOCK_MAGIC) ≤ Z.max 0 n.
Proof.
  unfold compressed_blocks, encode_prepare. change (2 ^ 31) with 2147483648 in Hsz. destruct (Z.leb_spec 4294967295 (size src)); [lia|]. cbn [mbind result_bind].
  destruct lzfse_encode_base_ok as (s & ok & lit & cur & -> & Hs). cbn [mbind result_bind]. destruct ok; [|by left].
  destruct (lzfse_encode_finish_ok lit cur s Hs) as (st & s' & -> & Hst). cbn [mbind result_bind].
  destruct st; [|by left..]. destruct (Hst eq_refl) as (code & -> & Hb & Hr). right. by exists code.
Qed.
End Loop.

End LzfseSearch.
Export LzfseSearch.
