(* ===== verification/LzfseBlockSafe.v ===== *)
(** * third/lzfse: the decoder of compressed blocks on arbitrary bytes

    Whatever the header and the payloads hold, decoding a block ends with a status: the
    assertions of the coder hold, no table, no literal and no byte of the destination is
    read out of bounds or before it is written, nothing is written outside the destination,
    and a block that is decoded uses up input and leaves the tables well-formed.  One byte
    behind the source has to be readable. *)

From stdpp Require Import base list strings.
From Stdlib Require Import Ascii ZArith Lia.
From S2P Require Import Prelude CInt Buffer LzvnDecode LzvnInstr Fse FseStream LzfseHeader LzfseBlock LzfsePayload.
Local Open Scope Z_scope.

Module LzfseBlockSafe.

(** ** Computations that do not fail *)

Definition gives {A} (P : A → Prop) (r : result A) : Prop := match r with Ok a => P a | Err _ => False end.

Lemma gives_bind {A B} (P : A → Prop) (Q : B → Prop) (r : result A) (f : A → result B) :
  gives P r → (∀ a, P a → gives Q (f a)) → gives Q (r ≫= f).
Proof. destruct r as [a|e]; cbn; [auto|done]. Qed.

Lemma gives_weaken {A} (P Q : A → Prop) (r : result A) : gives P r → (∀ a, P a → Q a) → gives Q r.
Proof. destruct r; cbn; auto. Qed.

Lemma gives_fmap {A B} (P : B → Prop) (f : A → B) (r : result A) : gives (P ∘ f) r → gives P (f <$> r).
Proof. by destruct r. Qed.

Lemma gives_assert (b : bool) : b = true → gives (λ _, True) (assert_ b).
Proof. by intros ->. Qed.

Lemma gives_vec_at {A} (P : A → Prop) (l : list A) i : Forall P l → (i < length l)%nat → gives P (vec_at l i).
Proof. intros Hl [a Ha]%lookup_lt_is_Some. unfold vec_at. rewrite Ha. exact (Forall_lookup_1 _ _ _ _ Hl Ha). Qed.

Lemma gives_load mem i n : 0 ≤ i → i + Z.of_nat n ≤ size mem → gives (λ _, True) (load mem i n).
Proof. intros Hi Hn. by rewrite load_Ok. Qed.

(** A step of a computation that satisfies [H]; its result is named in the next one. *)
Tactic Notation "step" uconstr(H) := eapply gives_bind; [eapply H|cbv beta].

(** ** The input stream *)

(** At least [k] bits are there, and no others. *)
Definition stream_ok (k : Z) (s : fse_in_stream) : Prop := k ≤ in_nbits s ≤ 63 ∧ 0 ≤ in_nbits s ∧ 0 ≤ in_accum s < 2 ^ in_nbits s.

Lemma fits_iff a n : 0 ≤ n → 0 ≤ a → Z.shiftr a n = 0 ↔ a < 2 ^ n.
Proof.
  intros Hn Ha. rewrite Z.shiftr_div_pow2 by done. pose proof (pow2_pos n Hn).
  split; [|intros H1; by apply Z.div_small]. intros H1. pose proof (Z.div_mod a (2 ^ n) ltac:(lia)). pose proof (Z.mod_pos_bound a (2 ^ n)). lia.
Qed.

(** ... and eight bytes can be loaded where it continues. *)
Definition opt_stream (mem : bytes) (k : Z) (r : option (fse_in_stream * Z)) : Prop :=
  ∀ s p, r = Some (s, p) → stream_ok k s ∧ p + 8 ≤ size mem.

Lemma init_safe mem n pbuf start :
  0 ≤ start → pbuf < size mem → gives (opt_stream mem 56) (fse_in_checked_init mem n pbuf start).
Proof.
  intros Hs Hp. assert (∀ b k p, p + 8 ≤ size mem → opt_stream mem 56
    (if (in_nbits (mkIn (le_val b) k) <? 56) || (64 <=? in_nbits (mkIn (le_val b) k)) || negb (Z.shiftr (in_accum (mkIn (le_val b) k)) (in_nbits (mkIn (le_val b) k)) =? 0)
     then None else Some (mkIn (le_val b) k, p))) as Hc.
  { intros b k p Hp' s q. cbn [in_nbits in_accum]. pose proof (le_val_range b).
    destruct (Z.ltb_spec k 56); [done|]. destruct (Z.leb_spec 64 k); [done|]. destruct (Z.eqb_spec (Z.shiftr (le_val b) k) 0) as [E|]; [|done].
    intros [= <- <-]. split; [|done]. unfold stream_ok. cbn. apply fits_iff in E; lia. }
  unfold fse_in_checked_init.
  destruct (negb _); [destruct (Z.ltb_spec pbuf (start + 8))|destruct (Z.ltb_spec pbuf (start + 7))]; try (by intros ? ?);
    (step gives_load; [lia..|]); intros b _; apply Hc; lia.
Qed.

Lemma flush_safe mem s p start :
  0 ≤ start → p + 8 ≤ size mem → stream_ok 0 s → gives (opt_stream mem 56) (fse_in_checked_flush mem s p start).
Proof.
  intros Hstart Hp (Hn & _ & Ha). unfold fse_in_checked_flush. rewrite land_minus_8. set (m := (63 - in_nbits s) / 8).
  pose proof (div_8 (63 - in_nbits s)) as Hm. fold m in Hm. rewrite Z.shiftr_div_pow2 by lia. change (2 ^ 3) with 8. rewrite (Z.mul_comm 8 m), Z.div_mul by lia.
  destruct (Z.ltb_spec (p - m) start); [by intros ? ?|]. rewrite (Z.mul_comm m 8).
  step (gives_fmap (λ _, True)); [apply gives_load; lia|]. intros incoming _. rewrite mask_ok by lia. cbn [mbind result_bind in_nbits in_accum].
  pose proof (Z.mod_pos_bound incoming (2 ^ (8 * m)) ltac:(apply pow2_pos; lia)). pose proof (pow2_pos (in_nbits s) ltac:(lia)).
  assert (2 ^ (in_nbits s + 8 * m) = 2 ^ in_nbits s * 2 ^ (8 * m)) as Hpow by (apply Z.pow_add_r; lia).
  assert (2 ^ (in_nbits s + 8 * m) ≤ 2 ^ 63) by (apply Z.pow_le_mono_r; lia).
  rewrite Z.shiftl_mul_pow2, Z.mod_small by nia. rewrite <-Z.shiftl_mul_pow2, lor_join by lia.
  assert (0 ≤ in_accum s * 2 ^ (8 * m) + incoming mod 2 ^ (8 * m) < 2 ^ (in_nbits s + 8 * m)) as Hacc by nia.
  destruct (Z.leb_spec 56 (in_nbits s + 8 * m)), (Z.ltb_spec (in_nbits s + 8 * m) 64); try lia. cbn [andb assert_ mbind result_bind].
  rewrite (proj2 (Z.eqb_eq _ 0)) by (apply fits_iff; lia). cbn. intros s' p' [= <- <-]. split; [unfold stream_ok; cbn; lia|lia].
Qed.

Lemma pull_safe k s n :
  stream_ok k s → 0 ≤ n ≤ k → gives (λ '(b, s'), 0 ≤ b < 2 ^ n ∧ stream_ok (k - n) s') (fse_in_pull s n).
Proof.
  intros (Hk & Hn & Ha) Hnk. unfold fse_in_pull. destruct (Z.leb_spec 0 n), (Z.leb_spec n (in_nbits s)); try lia. cbn [andb assert_ mbind result_bind].
  rewrite mask_ok by lia. cbn. pose proof (pow2_pos (in_nbits s - n) ltac:(lia)). rewrite Z.shiftr_div_pow2 by lia. split_and!.
  - by apply Z.div_pos; lia.
  - apply Z.div_lt_upper_bound; [done|]. rewrite <-Z.pow_add_r by lia. replace (in_nbits s - n + n) with (in_nbits s) by lia. lia.
  - unfold stream_ok. cbn. pose proof (Z.mod_pos_bound (in_accum s) (2 ^ (in_nbits s - n)) ltac:(done)). lia.
Qed.

(** ** The tables *)

(** From every state, any bits lead to a state. *)
Definition entry_ok (n : Z) (e : fse_decoder_entry) : Prop := 0 ≤ dec_k e ≤ n ∧ 0 ≤ delta e ∧ delta e + 2 ^ dec_k e ≤ 2 ^ n.

Lemma symbol_entry_ok n i f j : 0 ≤ n ≤ 10 → 0 < f ≤ 2 ^ n → 0 ≤ j < f → entry_ok n (symbol_entry (2 ^ n) i f j).
Proof.
  intros Hn Hf Hj. destruct (symbol_k_spec n f Hn Hf) as [Hk Hfk]. pose proof (states_bound n 0 Hn) as HN. unfold symbol_entry.
  set (k := symbol_k (2 ^ n) f) in *. assert (0 < 2 ^ k) by (apply pow2_pos; lia). rewrite Z.shiftr_div_pow2 by lia. set (q := 2 * 2 ^ n / 2 ^ k).
  assert (2 * 2 ^ n = 2 ^ k * q) as Hq.
  { apply Z_div_exact_full_2; [lia|]. apply Z.mod_divide; [lia|]. exists (2 ^ (n - k + 1)).
    rewrite <-Z.pow_add_r, <-Z.pow_succ_r by lia. f_equal. lia. }
  unfold entry_ok. destruct (Z.ltb_spec j (q - f)); cbn [dec_k delta].
  - rewrite Z.shiftl_mul_pow2, to_short_id by nia. nia.
  - assert (1 ≤ k). { destruct (Z.eq_dec k 0) as [E|]; [|lia]. rewrite E, Z.mul_1_l in *. lia. }
    assert (2 ^ k = 2 * 2 ^ (k - 1)) as Hp by (rewrite <-Z.pow_succ_r by lia; f_equal; lia). assert (0 < 2 ^ (k - 1)) by (apply pow2_pos; lia).
    rewrite Z.shiftl_mul_pow2 by lia. assert (0 ≤ (j - (q - f)) * 2 ^ (k - 1)) by nia.
    assert ((j - (q - f)) * 2 ^ (k - 1) + 2 ^ (k - 1) ≤ 2 ^ n) by nia. rewrite to_short_id by lia. lia.
Qed.

Lemma decoder_entries_ok n i freq :
  0 ≤ n ≤ 10 → Forall (λ f, 0 ≤ f) freq → sum_of_freq freq ≤ 2 ^ n → Forall (entry_ok n) (decoder_entries (2 ^ n) i freq).
Proof.
  intros Hn Hf. revert i. induction Hf as [|f freq Hf Hfs IH]; intros i Hsum; cbn [decoder_entries]; [done|].
  change (sum_of_freq (f :: freq)) with (f + sum_of_freq freq) in Hsum. pose proof (sum_of_freq_nonneg _ Hfs). apply Forall_app. split; [|apply IH; lia].
  apply Forall_fmap, Forall_forall. intros j Hj%elem_of_seqZ. cbn. apply symbol_entry_ok; lia.
Qed.

(** The same with [v] bits of the value at most. *)
Definition value_ok (n v : Z) (e : fse_value_decoder_entry) : Prop :=
  0 ≤ value_bits e ≤ v ∧ value_bits e ≤ total_bits e ≤ n + value_bits e ∧ 0 ≤ vbase e ≤ 2 ^ 30 ∧
  0 ≤ vdelta e ∧ vdelta e + 2 ^ (total_bits e - value_bits e) ≤ 2 ^ n.

Lemma default_range (l : list Z) i m : 0 ≤ m → Forall (λ x, 0 ≤ x ≤ m) l → 0 ≤ default 0 (l !! i) ≤ m.
Proof. intros Hm Hl. destruct (l !! i) eqn:E; cbn; [|lia]. exact (Forall_lookup_1 _ _ _ _ Hl E). Qed.

Lemma value_entry_ok n v vbits vbases e :
  0 ≤ v → Forall (λ x, 0 ≤ x ≤ v) vbits → Forall (λ x, 0 ≤ x ≤ 2 ^ 30) vbases → entry_ok n e → value_ok n v (value_entry vbits vbases e).
Proof.
  intros Hv Hb Hbase (Hk & Hd & Hn). pose proof (default_range vbits (Z.to_nat (symbol e)) v Hv Hb).
  pose proof (default_range vbases (Z.to_nat (symbol e)) (2 ^ 30) ltac:(lia) Hbase). unfold value_ok, value_entry. cbn [value_bits total_bits vbase vdelta].
  set (b := default 0 (vbits !! _)) in *. replace (dec_k e + b - b) with (dec_k e) by lia. lia.
Qed.

(** What [fse_init_decoder_table] and its companion assert, the header check has tested. *)
Definition freq_ok (n : Z) (freq : list Z) : Prop :=
  Z.of_nat (length freq) ≤ 256 ∧ Forall (λ f, 0 ≤ f) freq ∧ fse_check_freq (2 ^ n) freq = true.

Lemma length_entries n freq : freq_ok n freq → (length (decoder_entries (2 ^ n) 0 freq) ≤ Z.to_nat (2 ^ n))%nat.
Proof. intros (_ & Hf & Hs). pose proof (length_decoder_entries (2 ^ n) 0 freq Hf). unfold fse_check_freq in Hs. apply Z.leb_le in Hs. lia. Qed.

Definition table_ok {A} (P : A → Prop) (n : Z) (t : list A) : Prop := length t = Z.to_nat (2 ^ n) ∧ Forall P t.

Lemma decoder_table_safe n freq t :
  0 ≤ n ≤ 10 → freq_ok n freq → table_ok (entry_ok n) n t → gives (table_ok (entry_ok n) n) (fse_init_decoder_table (2 ^ n) freq t).
Proof.
  intros Hn Hfreq [Ht Hok]. pose proof (length_entries _ _ Hfreq) as Hlen. destruct Hfreq as (Hl & Hf & Hs). unfold fse_init_decoder_table. rewrite Hs.
  destruct (Z.leb_spec (Z.of_nat (length freq)) 256); [|lia]. cbn. split; [by rewrite length_fill by lia|].
  apply Forall_fill; [done|]. apply decoder_entries_ok; [done..|]. by apply Z.leb_le.
Qed.

Lemma value_table_safe n v vbits vbases freq t :
  0 ≤ n ≤ 10 → freq_ok n freq → table_ok (value_ok n v) n t → 0 ≤ v → Forall (λ x, 0 ≤ x ≤ v) vbits → Forall (λ x, 0 ≤ x ≤ 2 ^ 30) vbases →
  gives (table_ok (value_ok n v) n) (fse_init_value_decoder_table (2 ^ n) vbits vbases freq t).
Proof.
  intros Hn Hfreq [Ht Hok] Hv Hb Hbase. pose proof (length_entries _ _ Hfreq) as Hlen. destruct Hfreq as (Hl & Hf & Hs).
  unfold fse_init_value_decoder_table. rewrite Hs. destruct (Z.leb_spec (Z.of_nat (length freq)) 256); [|lia]. cbn.
  split; [by rewrite length_fill by (rewrite length_fmap; lia)|]. apply Forall_fill; [done|].
  apply Forall_fmap. eapply Forall_impl; [apply (decoder_entries_ok n)|]; [done..|by apply Z.leb_le|]. intros e He. by apply value_entry_ok.
Qed.

(** The state of the decoder between two blocks. *)
Record block_state_ok (bs : block_state) : Prop := {
  ok_literal_decoder : table_ok (entry_ok 10) 10 (bs_literal_decoder bs);
  ok_l_decoder : table_ok (value_ok 6 8) 6 (bs_l_decoder bs);
  ok_m_decoder : table_ok (value_ok 6 11) 6 (bs_m_decoder bs);
  ok_d_decoder : table_ok (value_ok 8 15) 8 (bs_d_decoder bs);
  ok_literals : size (bs_literals bs) = LZFSE_LITERALS_PER_BLOCK + 64;
}.

Lemma zero_table_ok {A} (P : A → Prop) n x : P x → table_ok P n (replicate (Z.to_nat (2 ^ n)) x).
Proof. intros Hx. split; [apply length_replicate|by apply Forall_replicate]. Qed.

Lemma zero_value_ok n v : 0 ≤ n → 0 ≤ v → value_ok n v zero_value_entry.
Proof. intros Hn Hv. pose proof (pow2_pos n Hn). unfold value_ok. cbn. lia. Qed.

Lemma block_state_init_ok : block_state_ok block_state_init.
Proof.
  split; unfold block_state_init; cbn [bs_literal_decoder bs_l_decoder bs_m_decoder bs_d_decoder bs_literals].
  - apply (zero_table_ok _ 10). pose proof (pow2_pos 10). unfold entry_ok. cbn. lia.
  - apply (zero_table_ok _ 6), zero_value_ok; lia.
  - apply (zero_table_ok _ 6), zero_value_ok; lia.
  - apply (zero_table_ok _ 8), zero_value_ok; lia.
  - unfold size. rewrite length_replicate. unfold LZFSE_LITERALS_PER_BLOCK, LZFSE_MATCHES_PER_BLOCK. lia.
Qed.

(** ** Decoding symbols *)

Lemma fse_decode_safe n k t state s :
  0 ≤ n ≤ 10 → table_ok (entry_ok n) n t → state < 2 ^ n → stream_ok k s → n ≤ k →
  gives (λ '(_, state', s'), state' < 2 ^ n ∧ stream_ok (k - n) s') (fse_decode t state s).
Proof.
  intros Hn [Hl Ht] Hstate Hs Hk. pose proof (states_bound n 0 Hn). unfold fse_decode. step gives_vec_at; [done|rewrite Hl; lia|]. intros e (Hd & H0 & Hdn).
  step (pull_safe k); [done|lia|]. intros [b s'] [Hb (H1 & H2 & H3)]. cbn. split; [|unfold stream_ok; lia].
  rewrite to_u16_add; rewrite (to_u16_id b) by lia; lia.
Qed.

Lemma fse_value_decode_safe n v k t state s :
  0 ≤ n ≤ 10 → 0 ≤ v ≤ 15 → table_ok (value_ok n v) n t → state < 2 ^ n → stream_ok k s → n + v ≤ k →
  gives (λ '(x, state', s'), 0 ≤ x < 2 ^ 31 ∧ state' < 2 ^ n ∧ stream_ok (k - (n + v)) s') (fse_value_decode t state s).
Proof.
  intros Hn Hv [Hlen Ht] Hstate Hs Hk. pose proof (states_bound n 0 Hn). unfold fse_value_decode.
  step gives_vec_at; [done|rewrite Hlen; lia|]. intros e (Hvb & Htb & Hbase & Hd0 & Hd).
  step (pull_safe k); [done|lia|]. intros [b s'] [Hb (H1 & H2 & H3)]. cbn [fst snd].
  assert (2 ^ total_bits e ≤ 2 ^ 32) by (apply Z.pow_le_mono_r; lia). rewrite (Z.mod_small b) by lia.
  rewrite mask_ok by lia. cbn. pose proof (pow2_pos (value_bits e) ltac:(lia)). pose proof (Z.mod_pos_bound b (2 ^ value_bits e) ltac:(done)).
  assert (2 ^ value_bits e ≤ 2 ^ 15) by (apply Z.pow_le_mono_r; lia). change (2 ^ 15) with 32768 in *. change (2 ^ 30) with 1073741824 in *. split_and!.
  - rewrite to_int_id by (unfold is_int, INT_MIN, INT_MAX; lia). lia.
  - rewrite to_int_id by (unfold is_int, INT_MIN, INT_MAX; lia). change (2 ^ 31) with 2147483648. lia.
  - rewrite Z.shiftr_div_pow2 by lia. assert (0 ≤ b / 2 ^ value_bits e) by (apply Z.div_pos; lia).
    assert (b / 2 ^ value_bits e < 2 ^ (total_bits e - value_bits e)).
    { apply Z.div_lt_upper_bound; [done|]. rewrite <-Z.pow_add_r by lia. replace (value_bits e + _) with (total_bits e) by lia. lia. }
    unfold to_u16. change (2 ^ 16) with 65536. rewrite Z.mod_small; lia.
  - unfold stream_ok. lia.
Qed.

Lemma decode_literals_safe t mem count state0 state1 state2 state3 s p :
  table_ok (entry_ok 10) 10 t → stream_ok 0 s → p + 8 ≤ size mem → state0 < 2 ^ 10 → state1 < 2 ^ 10 → state2 < 2 ^ 10 → state3 < 2 ^ 10 →
  gives (λ r, ∀ l, r = Some l → length l = (4 * count)%nat) (decode_literals t mem count state0 state1 state2 state3 s p).
Proof.
  intros Ht. revert state0 state1 state2 state3 s p. induction count as [|count IH]; intros state0 state1 state2 state3 s p Hs Hp R0 R1 R2 R3; cbn [decode_literals].
  { by intros l [= <-]. }
  step flush_safe; [done..|]. intros [[s0 p0]|] H0; [|done]. specialize (H0 _ _ eq_refl) as [H0 Hp0].
  step (fse_decode_safe 10); [lia|done|exact R0|done|lia|]. clear H0 R0. intros [[? ?] ?] [R0 H0]. cbn [fst snd].
  step (fse_decode_safe 10); [lia|done|exact R1|done|lia|]. clear H0 R1. intros [[? ?] ?] [R1 H0]. cbn [fst snd].
  step (fse_decode_safe 10); [lia|done|exact R2|done|lia|]. clear H0 R2. intros [[? ?] ?] [R2 H0]. cbn [fst snd].
  step (fse_decode_safe 10); [lia|done|exact R3|done|lia|]. clear H0 R3. intros [[? ?] ?] [R3 H0]. cbn [fst snd].
  step IH; [unfold stream_ok in *; lia|done..|]. intros [l|] Hl; cbn; [|done]. intros l' [= <-]. specialize (Hl _ eq_refl). simpl. lia.
Qed.

(** ** Matches *)

Lemma match_bytes_safe n D dst :
  (1 ≤ D ≤ length dst)%nat → gives (λ dst', size dst' = size dst + Z.of_nat n) (match_bytes n D dst).
Proof.
  intros HD. destruct (match_bytes_total n D dst HD) as [dst' E]. rewrite E. apply match_bytes_length in E. cbn. unfold size. lia.
Qed.

Lemma wide_match_safe M D dst :
  (1 ≤ D ≤ length dst)%nat → gives (λ dst', size dst' = size dst + Z.of_nat M) (wide_match M D dst).
Proof. intros HD. rewrite wide_match_is by done. by apply match_bytes_safe. Qed.

Lemma literals_at_safe literals lit n :
  0 ≤ lit → 0 ≤ n → lit + n ≤ size literals → gives (λ l, size l = n) (literals_at literals lit n).
Proof.
  intros H0 Hn Hs. unfold literals_at. destruct (Z.ltb_spec (size literals) (lit + n)); [lia|]. cbn. unfold size in *. rewrite length_take, length_drop. lia.
Qed.

Definition executed_ok (dst_size lit : Z) (r : executed) : Prop :=
  match r with Failed => True | Done lit' dst => lit' = lit ∧ size dst ≤ dst_size | Full dst => size dst ≤ dst_size end.

(** The distance before the first match is -1, which the unsigned comparison refuses in a
    destination of less than 2^32 bytes. *)
Lemma execute_match_safe dst_size literals lit dst L M D :
  size dst ≤ dst_size → 0 ≤ L → 0 ≤ M → 0 ≤ lit → lit + L ≤ size literals → size dst + L < 2 ^ 32 - 1 → D = -1 ∨ 1 ≤ D < 2 ^ 32 →
  gives (executed_ok dst_size (lit + L)) (execute_match dst_size literals lit dst L M D).
Proof.
  intros Hd HL HM Hlit Hlits Hsmall HD. unfold execute_match. destruct (Z.ltb_spec (size dst + L) (D mod 2 ^ 32)) as [|Hdist]; [done|].
  assert (1 ≤ D ≤ size dst + L) as HD'.
  { destruct HD as [->|HD]; [change (-1 mod 2 ^ 32) with (2 ^ 32 - 1) in Hdist; lia|]. rewrite Z.mod_small in Hdist by lia. lia. }
  assert (∀ l, size l = L → (1 ≤ Z.to_nat D ≤ length (dst ++ l))%nat) as Hback by (intros l Hl; rewrite length_app; unfold size in *; lia).
  destruct (Z.leb_spec (L + M) (dst_size - size dst - 32)) as [Hroom|].
  { step literals_at_safe; [done..|]. intros l Hl. step wide_match_safe; [auto|]. intros out Hout. cbn. rewrite size_app in Hout. lia. }
  destruct (Z.leb_spec L (dst_size - size dst)).
  - step literals_at_safe; [done..|]. intros l Hl. specialize (Hback l Hl).
    destruct (Z.leb_spec M (dst_size - size dst - L)); (step match_bytes_safe; [done|]); intros out; rewrite size_app; cbn; lia.
  - step literals_at_safe; [lia..|]. intros l Hl. cbn. rewrite size_app. lia.
Qed.

Section Lmd.
Context (mem : bytes) (src_start dst_size : Z) (literals : bytes) (l_decoder m_decoder d_decoder : list fse_value_decoder_entry).
Hypothesis Hl : table_ok (value_ok 6 8) 6 l_decoder.
Hypothesis Hm : table_ok (value_ok 6 11) 6 m_decoder.
Hypothesis Hd : table_ok (value_ok 8 15) 8 d_decoder.
Hypothesis Hstart : 0 ≤ src_start.
Hypothesis Hliterals : size literals = LZFSE_LITERALS_PER_BLOCK + 64.
Hypothesis Hsmall : dst_size ≤ 2 ^ 32 - 2 ^ 16.

(** 14, 17 and 23 bits are read between two refills. *)
Lemma lzfse_decode_lmd_safe symbols l_state m_state d_state s src D lit dst :
  stream_ok 0 s → src + 8 ≤ size mem → l_state < 2 ^ 6 → m_state < 2 ^ 6 → d_state < 2 ^ 8 → 0 ≤ lit → D = -1 ∨ 1 ≤ D < 2 ^ 32 → size dst ≤ dst_size →
  gives (λ '(_, dst'), size dst' ≤ dst_size)
    (lzfse_decode_lmd mem src_start dst_size literals l_decoder m_decoder d_decoder symbols l_state m_state d_state s src D lit dst).
Proof.
  revert l_state m_state d_state s src D lit dst.
  induction symbols as [|symbols IH]; intros l_state m_state d_state s src D lit dst Hs Hsrc RL RM RD Hlit HD Hdst; cbn [lzfse_decode_lmd]; [done|].
  step flush_safe; [done..|]. intros [[s0 p]|] H0; [|done]. specialize (H0 _ _ eq_refl) as [H0 Hp].
  step (fse_value_decode_safe 6 8 56); [lia|lia|done|done|done|lia|]. intros [[L l'] s1] ([HL _] & Hl' & H1).
  step gives_assert; [by apply Z.ltb_lt|]. intros _ _. destruct (Z.leb_spec (LZFSE_LITERALS_PER_BLOCK + 64) (lit + L)) as [|HlitL]; [done|].
  step (fse_value_decode_safe 6 11 42); [lia|lia|done|done|done|lia|]. intros [[M m'] s2] ([HM _] & Hm' & H2).
  step gives_assert; [by apply Z.ltb_lt|]. intros _ _.
  step (fse_value_decode_safe 8 15 25); [lia|lia|done|done|done|lia|]. intros [[new_d d'] s3] (Hnew & Hd' & H3).
  step gives_assert; [by apply Z.ltb_lt|]. intros _ _. cbv zeta.
  assert ((if new_d =? 0 then D else new_d) = -1 ∨ 1 ≤ (if new_d =? 0 then D else new_d) < 2 ^ 32) as HD'.
  { change (2 ^ 31) with 2147483648 in Hnew. change (2 ^ 32) with 4294967296 in *. destruct (Z.eqb_spec new_d 0); [done|lia]. }
  unfold LZFSE_LITERALS_PER_BLOCK, LZFSE_MATCHES_PER_BLOCK in *. change (2 ^ 32 - 2 ^ 16) with 4294901760 in Hsmall.
  step execute_match_safe; [done|done|done|done|lia|change (2 ^ 32 - 1) with 4294967295; lia|done|].
  intros [|lit' dst'|dst']; cbn [executed_ok]; [done| |done]. intros [-> Hdst']. apply IH; try done; [unfold stream_ok in *; lia|lia].
Qed.
End Lmd.

(** ** Headers *)

(** What the decoder relies on without a test. *)
Record header_safe (h : header_v1) : Prop := {
  safe_l : Z.of_nat (length (l_freq h)) ≤ 256 ∧ Forall (λ f, 0 ≤ f) (l_freq h);
  safe_m : Z.of_nat (length (m_freq h)) ≤ 256 ∧ Forall (λ f, 0 ≤ f) (m_freq h);
  safe_d : Z.of_nat (length (d_freq h)) ≤ 256 ∧ Forall (λ f, 0 ≤ f) (d_freq h);
  safe_literal : Z.of_nat (length (literal_freq h)) ≤ 256 ∧ Forall (λ f, 0 ≤ f) (literal_freq h);
  safe_payload : 0 ≤ n_literal_payload_bytes h ∧ 0 ≤ n_lmd_payload_bytes h;
}.

Lemma with_freqs_safe h f :
  Forall (λ x, 0 ≤ x) f → (∀ a b c d, 0 ≤ n_literal_payload_bytes (h a b c d) ∧ 0 ≤ n_lmd_payload_bytes (h a b c d) ∧
    l_freq (h a b c d) = a ∧ m_freq (h a b c d) = b ∧ d_freq (h a b c d) = c ∧ literal_freq (h a b c d) = d) → header_safe (with_freqs h f).
Proof.
  intros Hf Hh. unfold with_freqs. destruct (Hh (take 20 f) (take 20 (drop 20 f)) (take 64 (drop 40 f)) (take 256 (drop 104 f))) as (H1 & H2 & El & Em & Ed & Et).
  split; rewrite ?El, ?Em, ?Ed, ?Et, ?length_take; (split; [lia|]); try done; auto using Forall_take, Forall_drop.
Qed.

Lemma decode_freqs_safe count accum accum_nbits src f : decode_freqs count accum accum_nbits src = Some f → Forall (λ x, 0 ≤ x) f.
Proof.
  revert accum accum_nbits src f. induction count as [|count IH]; intros accum accum_nbits src f; cbn [decode_freqs].
  { destruct (_ || _); [done|]. by intros [= <-]. }
  destruct (refill _ _ _ _) as [[a n] rest], (decode_freq_value a) as [v nb]. destruct (_ <? _); [done|].
  intros (fs & Hfs & [= <-])%bind_Some. constructor; [|by eapply IH]. unfold to_u16. by apply Z.mod_pos_bound.
Qed.

(** A packed header is at least as long as its fixed part, or it is refused. *)
Lemma decode_freqs_empty count : (0 < count)%nat → decode_freqs count 0 0 [] = None.
Proof. by destruct count; [lia|]. Qed.

Lemma le_at_nonneg b i n : 0 ≤ le_at b i n.
Proof. apply le_val_range. Qed.

Lemma get_field_nonneg v i n : 0 ≤ v → 0 ≤ get_field v i n.
Proof. intros Hv. unfold get_field. apply Z.land_nonneg. left. by apply Z.shiftr_nonneg. Qed.

Lemma decode_header_safe magic src h header_size :
  decode_header magic src = inr (h, header_size) → header_safe h ∧ header_v2_fixed ≤ header_size.
Proof.
  unfold decode_header. destruct (_ =? _).
  - destruct (_ <? _); [done|]. destruct (_ <? _); [done|]. destruct (lzfse_decode_v1 src) as [h'|] eqn:E; [|done]. intros [= -> <-]. revert E. unfold lzfse_decode_v1.
    change (get_field (le_at src 24 8) 0 32) with (lzfse_decode_v2_header_size src). intros (f & Hf & [= <-])%bind_Some. split.
    + apply with_freqs_safe; [|intros; cbn; split_and!; try done; apply get_field_nonneg, le_at_nonneg].
      revert Hf. destruct (_ =? _); [intros Hf; apply Some_inj in Hf as <-; by apply Forall_replicate|apply decode_freqs_safe].
    + destruct (Z.eqb_spec (lzfse_decode_v2_header_size src - header_v2_fixed) 0); [lia|].
      destruct (Z.le_gt_cases header_v2_fixed (lzfse_decode_v2_header_size src)); [done|]. rewrite (Z2Nat.nonpos (_ - _)), take_0 in Hf by lia.
      rewrite decode_freqs_empty in Hf; [done|unfold freq_count, LZFSE_ENCODE_L_SYMBOLS; lia].
  - destruct (_ <? _); [done|]. intros [= <- <-]. split; [|unfold header_v2_fixed, sizeof_header_v1; lia]. unfold header_v1_of.
    apply with_freqs_safe; [|intros; cbn; split_and!; try done; apply le_at_nonneg].
    apply Forall_fmap, Forall_true. intros i. apply le_at_nonneg.
Qed.

(** ** Blocks *)

Definition outcome_ok (dst_size limit : Z) (r : block_outcome) : Prop :=
  match r with
  | Stopped _ dst => size dst ≤ dst_size
  | Closed src dst bs => size dst ≤ dst_size ∧ size src ≤ limit ∧ block_state_ok bs
  end.

Lemma state_at_safe h i n : 0 < n → forallb (λ s, s <? n) (literal_state h) = true → state_at h i < n.
Proof.
  intros Hn Hs. unfold state_at. destruct (literal_state h !! i) as [x|] eqn:E; [|done]. apply list_elem_of_lookup_2 in E. cbn.
  rewrite forallb_forall in Hs. apply Z.ltb_lt, Hs. by apply list_elem_of_In.
Qed.

Section Blocks.
Context (mem : bytes) (dst_size : Z).
Hypothesis Hsmall : dst_size ≤ 2 ^ 32 - 2 ^ 16.

(** The payload of the matches lies within the memory, with a byte behind it. *)
Lemma decode_payloads_safe h pos src dst bs :
  header_safe h → lzfse_check_block_header_v1 h = true → size dst ≤ dst_size → block_state_ok bs →
  0 ≤ pos → n_lmd_payload_bytes h ≤ size src → pos + size src < size mem →
  gives (outcome_ok dst_size (size src)) (decode_payloads mem dst_size h pos src dst bs).
Proof.
  intros [[Hl Hlf] [Hm Hmf] [Hd Hdf] [Ht Htf] [_ Hlmd]] Hcheck Hdst [BT BL BM BD BB] Hpos Hpay Hmem.
  unfold lzfse_check_block_header_v1 in Hcheck. rewrite !andb_true_iff in Hcheck.
  destruct Hcheck as ((((((((((_ & Nlit%Z.leb_le) & _) & R) & RL%Z.ltb_lt) & RM%Z.ltb_lt) & RD%Z.ltb_lt) & Cl) & Cm) & Cd) & Ct).
  pose proof (λ i, state_at_safe h i 1024 ltac:(lia) R) as RS. unfold decode_payloads.
  step (decoder_table_safe 10); [lia|by split_and!|done|]. intros t Hti.
  step (value_table_safe 6 8); [lia|by split_and!|done|lia|by repeat constructor|by repeat constructor|]. intros lt Hlt.
  step (value_table_safe 6 11); [lia|by split_and!|done|lia|by repeat constructor|by repeat constructor|]. intros mt Hmt.
  step (value_table_safe 8 15); [lia|by split_and!|done|lia|by repeat constructor|by repeat constructor|]. intros dt Hdt.
  assert (0 ≤ size src) by (unfold size; lia).
  step init_safe; [done|lia|]. intros [[s buf]|] Hs; [|done]. specialize (Hs _ _ eq_refl) as [Hs Hbuf].
  step decode_literals_safe; [done|unfold stream_ok in *; lia|done|apply RS..|]. intros [literals|] Hlits; [|done]. specialize (Hlits _ eq_refl).
  step init_safe; [done|lia|]. intros [[s' buf']|] Hs'; [|done]. specialize (Hs' _ _ eq_refl) as [Hs' Hbuf']. destruct (_ || _); [done|].
  assert (size (fill (bs_literals bs) literals) = LZFSE_LITERALS_PER_BLOCK + 64) as Hfill.
  { unfold size in *. rewrite length_fill; [done|]. apply Nat2Z.inj_le. rewrite BB. unfold LZFSE_LITERALS_PER_BLOCK, LZFSE_MATCHES_PER_BLOCK in *.
    pose proof (Z.div_lt_upper_bound (n_literals h + 3) 4 10001 ltac:(lia) ltac:(lia)). lia. }
  step lzfse_decode_lmd_safe; [done|done|done|done|exact Hfill|done|unfold stream_ok in *; lia|done|exact RL|exact RM|exact RD|done|by left|done|].
  intros [st dst'] Hdst'. destruct st; cbn; [|done..].
  split; [done|]. split; [unfold size; rewrite length_drop; lia|done].
Qed.
End Blocks.

Lemma decode_block_safe mem b behind dst_size magic src dst bs :
  dst_size ≤ 2 ^ 32 - 2 ^ 16 → src `suffix_of` mem → 4 ≤ size src → size dst ≤ dst_size → block_state_ok bs →
  gives (outcome_ok dst_size (size src - 1)) (decode_block mem (b :: behind) dst_size magic src dst bs).
Proof.
  intros Hsmall Hsuf%suffix_length Hsrc Hdst Hbs. unfold decode_block. destruct (decode_header magic src) as [st|[h header_size]] eqn:Hh; [done|].
  apply decode_header_safe in Hh as [Hh Hsize]. unfold header_v2_fixed in Hsize. destruct (safe_payload _ Hh) as [Hp Hp'].
  destruct (Z.ltb_spec (size src) (header_size + n_literal_payload_bytes h + n_lmd_payload_bytes h)) as [|Hfit]; [done|].
  destruct (lzfse_check_block_header_v1 h) eqn:Hc; [|done]. cbn [negb]. set (n := Z.to_nat (header_size + n_literal_payload_bytes h)).
  assert (size (drop n src) = size src - (header_size + n_literal_payload_bytes h)) as Hdrop by (unfold size in *; rewrite length_drop; lia).
  eapply gives_weaken; [apply decode_payloads_safe; try done; [unfold size in *; lia..|rewrite size_app; unfold size; cbn [length]; lia]|].
  intros [st d|r d bs']; cbn; [done|]. intros (? & Hr & ?). split; [done|]. split; [lia|done].
Qed.

(** A block that is decoded leaves what the next one finds. *)
Lemma decode_block_suffix mem behind dst_size magic src dst bs src' dst' bs' :
  decode_block mem behind dst_size magic src dst bs = Ok (Closed src' dst' bs') → src' `suffix_of` src.
Proof.
  unfold decode_block. destruct (decode_header magic src) as [st|[h header_size]]; [done|]. destruct (_ <? _); [done|]. destruct (negb _); [done|].
  unfold decode_payloads. intros (? & _ & H)%bind_Ok. do 3 (apply bind_Ok in H as (? & _ & H)).
  apply bind_Ok in H as ([[s b]|] & _ & H); [|done]. apply bind_Ok in H as ([l|] & _ & H); [|done].
  apply bind_Ok in H as ([[s' b']|] & _ & H); [|done]. destruct (_ || _); [done|]. apply bind_Ok in H as ([[] d] & _ & H); [|done..].
  injection H as <- _ _. etrans; apply suffix_drop.
Qed.

End LzfseBlockSafe.
Export LzfseBlockSafe.
