(* ===== verification/Lzfse.v ===== *)
(** * third/lzfse: the blocks of lzfse_encode.c, lzfse_decode.c and lzfse_decode_base.c

    A stream is a sequence of blocks and an end marker.  The encoder writes one LZVN
    block for a source of less than 4096 bytes and compressed blocks for a longer one, and
    falls back to an uncompressed block for a tiny source or one that does not get
    shorter.  The library satisfies the interface the server relies on. *)

From stdpp Require Import base relations list strings.
From Stdlib Require Import Ascii ZArith Lia.
From S2P Require Import Prelude CInt Util Buffer LzvnDecode LzvnEncode LzvnInstr LzvnEmit LzvnRoundtrip LzvnSafe Fse LzfseHeader LzfseBlock.
From S2P Require Import LzfsePayload LzfseBlockRoundtrip LzfseMatch LzfseSearch LzfseBlockSafe.
Local Open Scope Z_scope.

Module Blocks.

Definition LZFSE_UNCOMPRESSED_BLOCK_MAGIC : Z := 762869346.
Definition LZFSE_COMPRESSEDLZVN_BLOCK_MAGIC : Z := 1853388386.
Definition LZFSE_ENCODE_LZVN_THRESHOLD : Z := 4096.

Definition end_marker : bytes := le_bytes 4 LZFSE_ENDOFSTREAM_BLOCK_MAGIC.

(** ** Encoding *)

(** [try_uncompressed]: header, data, end-of-stream marker. *)
Definition try_uncompressed (dst_size : Z) (src : bytes) : bytes :=
  let original_size := size src in
  if (original_size + 12 <=? dst_size) && (original_size <? INT_MAX)
  then le_bytes 4 LZFSE_UNCOMPRESSED_BLOCK_MAGIC ++ le_bytes 4 original_size ++ src ++ end_marker
  else [].

(** The header of an LZVN block with its payload and the end-of-stream marker. *)
Definition lzvn_block (n_raw_bytes : Z) (payload : bytes) : bytes :=
  le_bytes 4 LZFSE_COMPRESSEDLZVN_BLOCK_MAGIC ++ le_bytes 4 n_raw_bytes ++ le_bytes 4 (size payload) ++ payload ++ end_marker.

Definition encode_buffer `{Machine} (dst_size : Z) (src : bytes) : result bytes :=
  if size src <? LZVN_ENCODE_MIN_SRC_SIZE then Ok (try_uncompressed dst_size src)
  else if size src <? LZFSE_ENCODE_LZVN_THRESHOLD then
    let extra_size := 4 + 12 in
    if dst_size <=? extra_size then Ok (try_uncompressed dst_size src)
    else
      payload ← lzvn_encode_buffer (dst_size - extra_size) src;
      let sz := size payload in
      if (sz =? 0) || (size src <=? sz) then Ok (try_uncompressed dst_size src)
      else Ok (lzvn_block (size src) payload)
  else
    r ← compressed_blocks dst_size src;
    Ok (match r with Some dst => dst | None => try_uncompressed dst_size src end).

(** ** Decoding *)

(** [block_magic] with the state of the block. *)
Inductive block :=
| NoBlock
| Uncompressed (n_raw_bytes : Z)
| CompressedLzvn (n_raw_bytes n_payload_bytes : Z) (d_prev : nat).

(** The decoder between two turns of its loop: what is left to read, what has been
    written, the block it is in, and what compressed blocks have left. *)
Record decoder := mkDecoder {
  d_src : bytes;
  d_dst : bytes;
  d_block : block;
  d_tables : block_state;
}.

Definition read4 (src : bytes) : Z := le_val (take 4 src).

Definition turn : Type := decoder + result (status * bytes).
Definition stop (st : status) (s : decoder) : turn := inr (Ok (st, d_dst s)).

(** A turn in an uncompressed block. *)
Definition uncompressed_turn (dst_size : Z) (s : decoder) (n_raw_bytes : Z) : turn :=
  if n_raw_bytes =? 0 then inl (mkDecoder (d_src s) (d_dst s) NoBlock (d_tables s))
  else if size (d_src s) =? 0 then stop SRC_EMPTY s
  else
    let copy_size := Z.min n_raw_bytes (size (d_src s)) in
    let dst_space := dst_size - size (d_dst s) in
    if dst_space <=? 0 then stop DST_FULL s
    else
      let copy_size := Z.min copy_size dst_space in
      inl (mkDecoder (drop (Z.to_nat copy_size) (d_src s))
             (d_dst s ++ take (Z.to_nat copy_size) (d_src s)) (Uncompressed (n_raw_bytes - copy_size)) (d_tables s)).

(** The LZVN decoder on the payload there is, within the bytes the block stands for. *)
Definition lzvn_state (dst_size : Z) (s : decoder) (n_raw_bytes n_payload_bytes : Z) (d_prev : nat) : lzvn_decoder_state :=
  mkLzvnDecoder (take (Z.to_nat (Z.min n_payload_bytes (size (d_src s)))) (d_src s)) (d_dst s)
    (Z.to_nat (Z.min dst_size (size (d_dst s) + n_raw_bytes))) 0 0 0 d_prev false.

(** A turn in an LZVN block, which runs that decoder. *)
Definition lzvn_turn (dst_size : Z) (s : decoder) (n_raw_bytes n_payload_bytes : Z) (d_prev : nat) : turn :=
  if (0 <? n_payload_bytes) && (size (d_src s) =? 0) then stop SRC_EMPTY s
  else
    let st := lzvn_state dst_size s n_raw_bytes n_payload_bytes d_prev in
    match lzvn_decode st with
    | Err e => inr (Err e)
    | Ok dstate =>
        let src_used := size (ld_src st) - size (ld_src dstate) in
        let dst_used := size (ld_dst dstate) - size (d_dst s) in
        if (n_payload_bytes <? src_used) || (n_raw_bytes <? dst_used) then stop ERROR s
        else
          let n_payload_bytes := n_payload_bytes - src_used in
          let n_raw_bytes := n_raw_bytes - dst_used in
          let s' b := mkDecoder (drop (Z.to_nat src_used) (d_src s)) (ld_dst dstate) b (d_tables s) in
          let within := CompressedLzvn n_raw_bytes n_payload_bytes (ld_d_prev dstate) in
          if (n_payload_bytes =? 0) && (n_raw_bytes =? 0) && ld_end_of_stream dstate then inl (s' NoBlock)
          else if (n_payload_bytes =? 0) || (n_raw_bytes =? 0) || ld_end_of_stream dstate then stop ERROR (s' within)
          else stop DST_FULL (s' within)
    end.

Section Decoder.
(** The whole source, of which [d_src] is the rest, and what can be read behind it. *)
Context (mem behind : bytes).

(** A compressed block from its header to its end. *)
Definition block_turn (dst_size magic : Z) (s : decoder) : turn :=
  match decode_block mem behind dst_size magic (d_src s) (d_dst s) (d_tables s) with
  | Err e => inr (Err e)
  | Ok (Closed src dst bs) => inl (mkDecoder src dst NoBlock bs)
  | Ok (Stopped st dst) => inr (Ok (st, dst))
  end.

(** A turn between blocks reads a header. *)
Definition header_turn (dst_size : Z) (s : decoder) : turn :=
  let src := d_src s in
  if size src <? 4 then stop SRC_EMPTY s
  else
    let magic := read4 src in
    if magic =? LZFSE_ENDOFSTREAM_BLOCK_MAGIC then stop OK s
    else if magic =? LZFSE_UNCOMPRESSED_BLOCK_MAGIC then
      if size src <? 8 then stop SRC_EMPTY s
      else inl (mkDecoder (drop 8 src) (d_dst s) (Uncompressed (read4 (drop 4 src))) (d_tables s))
    else if magic =? LZFSE_COMPRESSEDLZVN_BLOCK_MAGIC then
      if size src <? 12 then stop SRC_EMPTY s
      else inl (mkDecoder (drop 12 src) (d_dst s) (CompressedLzvn (read4 (drop 4 src)) (read4 (drop 8 src)) 0) (d_tables s))
    else if (magic =? LZFSE_COMPRESSEDV1_BLOCK_MAGIC) || (magic =? LZFSE_COMPRESSEDV2_BLOCK_MAGIC) then
      block_turn dst_size magic s
    else stop ERROR s.

(** One turn of [lzfse_decode], for a destination of [dst_size] bytes. *)
Definition decode_step (dst_size : Z) (s : decoder) : turn :=
  match d_block s with
  | NoBlock => header_turn dst_size s
  | Uncompressed n_raw_bytes => uncompressed_turn dst_size s n_raw_bytes
  | CompressedLzvn n_raw_bytes n_payload_bytes d_prev => lzvn_turn dst_size s n_raw_bytes n_payload_bytes d_prev
  end.

End Decoder.

(** [lzfse_decode_buffer], with the state of the decoder cleared: the bytes written when the
    stream ended; a full destination counts as filled, and what was not written of it is as
    in a fresh vector; none when the decoder failed. *)
Definition decoder_init (src : bytes) : decoder := mkDecoder src [] NoBlock block_state_init.

Definition decode_buffer (behind : bytes) (dst_size : Z) (src : bytes) : result bytes :=
  '(st, dst) ← loop_result (loop_nat (decode_step src behind dst_size) (3 * S (length src)) (decoder_init src));
  Ok (match st with
      | OK => dst
      | DST_FULL => dst ++ replicate (Z.to_nat dst_size - length dst) (byte_of 0)
      | _ => []
      end).

(** The server decodes the characters of a [std::string], which a zero follows. *)
Definition lzfse `{Machine} : Lzfse :=
  {| lzfse_encode_buffer := encode_buffer; lzfse_decode_buffer := decode_buffer [byte_of 0] |}.

Lemma read4_le_bytes n rest : 0 ≤ n < 2 ^ 32 → read4 (le_bytes 4 n ++ rest) = n.
Proof.
  intros Hn. unfold read4. rewrite take_le_bytes, le_val_bytes. change (256 ^ Z.of_nat 4) with (2 ^ 32).
  by rewrite Z.mod_small.
Qed.

Lemma marker_tail (l : bytes) : l ++ end_marker ≠ [].
Proof. by destruct l. Qed.

(** ** The turns of the decoder on a stream of one block *)

Section Turns.
Context (mem behind : bytes) (dst_size : Z) (src : bytes) (bs : block_state).
Hypothesis Hlen : size src < INT_MAX.

Lemma turn_uncompressed_header :
  decode_step mem behind dst_size (mkDecoder (le_bytes 4 LZFSE_UNCOMPRESSED_BLOCK_MAGIC ++ le_bytes 4 (size src) ++ src ++ end_marker) [] NoBlock bs)
  = inl (mkDecoder (src ++ end_marker) [] (Uncompressed (size src)) bs).
Proof.
  unfold decode_step, header_turn. cbn [d_block d_src d_dst]. rewrite !size_app, !size_le_bytes.
  assert (0 ≤ size src) by (unfold size; lia). assert (0 ≤ size end_marker) by (unfold size; lia).
  destruct (Z.ltb_spec (Z.of_nat 4 + (Z.of_nat 4 + (size src + size end_marker))) 4); [lia|].
  rewrite read4_le_bytes by (unfold LZFSE_UNCOMPRESSED_BLOCK_MAGIC; lia).
  change (LZFSE_UNCOMPRESSED_BLOCK_MAGIC =? LZFSE_ENDOFSTREAM_BLOCK_MAGIC) with false. rewrite Z.eqb_refl. cbv iota.
  destruct (Z.ltb_spec (Z.of_nat 4 + (Z.of_nat 4 + (size src + size end_marker))) 8); [lia|].
  rewrite drop_le_bytes, read4_le_bytes by (unfold INT_MAX in *; lia).
  change 8%nat with (4 + 4)%nat. by rewrite <-drop_drop, drop_le_bytes, drop_le_bytes.
Qed.

Lemma turn_end dst : decode_step mem behind dst_size (mkDecoder end_marker dst NoBlock bs) = inr (Ok (OK, dst)).
Proof. reflexivity. Qed.

Lemma turn_close rest dst : decode_step mem behind dst_size (mkDecoder rest dst (Uncompressed 0) bs) = inl (mkDecoder rest dst NoBlock bs).
Proof. reflexivity. Qed.

Lemma turn_copy :
  0 < dst_size → src ≠ [] →
  let n := Z.min (size src) dst_size in
  decode_step mem behind dst_size (mkDecoder (src ++ end_marker) [] (Uncompressed (size src)) bs)
  = inl (mkDecoder (drop (Z.to_nat n) src ++ end_marker) (take (Z.to_nat n) src) (Uncompressed (size src - n)) bs).
Proof.
  intros Hd Hne n. pose proof (size_pos src Hne). assert (0 ≤ size end_marker) by (unfold size; lia).
  unfold decode_step, uncompressed_turn. cbn [d_block d_src d_dst length app]. rewrite size_app.
  destruct (Z.eqb_spec (size src) 0); [lia|]. destruct (Z.eqb_spec (size src + size end_marker) 0); [lia|].
  change (size []) with 0. rewrite Z.sub_0_r. destruct (Z.leb_spec dst_size 0); [lia|].
  replace (Z.min (Z.min (size src) (size src + size end_marker)) dst_size) with n by lia.
  rewrite drop_app_le, take_app_le by (unfold size in *; lia). done.
Qed.

Lemma turn_full rest dst n :
  0 < n → dst_size ≤ size dst → rest ≠ [] →
  decode_step mem behind dst_size (mkDecoder rest dst (Uncompressed n) bs) = inr (Ok (DST_FULL, dst)).
Proof.
  intros Hn Hd Hne. unfold decode_step, uncompressed_turn. cbn [d_block d_src d_dst]. pose proof (size_pos rest Hne).
  destruct (Z.eqb_spec n 0); [lia|]. destruct (Z.eqb_spec (size rest) 0); [lia|].
  destruct (Z.leb_spec (dst_size - size dst) 0); [done|lia].
Qed.

(** *** An LZVN block *)

Section LzvnTurns.
Context (code : bytes) (D : nat).
Hypothesis Hcode : denotes code 0 [] D src.
Let payload := code ++ le_bytes 8 6.
Hypothesis Hpayload : size payload < 2 ^ 32.

Lemma payload_pos : 8 ≤ size payload.
Proof. unfold payload. rewrite size_app, size_le_bytes. unfold size. lia. Qed.

Lemma turn_lzvn_header :
  decode_step mem behind dst_size (mkDecoder (lzvn_block (size src) payload) [] NoBlock bs)
  = inl (mkDecoder (payload ++ end_marker) [] (CompressedLzvn (size src) (size payload) 0) bs).
Proof.
  unfold decode_step, header_turn, lzvn_block. cbn [d_block d_src d_dst]. rewrite !size_app, !size_le_bytes.
  assert (0 ≤ size end_marker) by (unfold size; lia). assert (0 ≤ size src) by (unfold size; lia). pose proof payload_pos.
  destruct (Z.ltb_spec (Z.of_nat 4 + (Z.of_nat 4 + (Z.of_nat 4 + (size payload + size end_marker)))) 4); [lia|].
  rewrite read4_le_bytes by (unfold LZFSE_COMPRESSEDLZVN_BLOCK_MAGIC; lia).
  change (LZFSE_COMPRESSEDLZVN_BLOCK_MAGIC =? LZFSE_ENDOFSTREAM_BLOCK_MAGIC) with false.
  change (LZFSE_COMPRESSEDLZVN_BLOCK_MAGIC =? LZFSE_UNCOMPRESSED_BLOCK_MAGIC) with false. rewrite Z.eqb_refl. cbv iota.
  destruct (Z.ltb_spec (Z.of_nat 4 + (Z.of_nat 4 + (Z.of_nat 4 + (size payload + size end_marker)))) 12); [lia|].
  change 12%nat with (4 + (4 + 4))%nat. change 8%nat with (4 + 4)%nat. rewrite <-!drop_drop, !drop_le_bytes.
  by rewrite !read4_le_bytes by (unfold INT_MAX in *; lia).
Qed.

(** The payload restores the source, or fills the destination. *)
Lemma turn_lzvn :
  src ≠ [] → 0 ≤ dst_size →
  decode_step mem behind dst_size (mkDecoder (payload ++ end_marker) [] (CompressedLzvn (size src) (size payload) 0) bs)
  = if decide (size src ≤ dst_size) then inl (mkDecoder end_marker src NoBlock bs)
    else inr (Ok (DST_FULL, take (Z.to_nat dst_size) src)).
Proof.
  intros Hne Hd. pose proof (size_pos src Hne) as Hs. pose proof payload_pos as Hp.
  unfold decode_step, lzvn_turn, lzvn_state. cbn [d_block d_src d_dst ld_src]. rewrite size_app. assert (0 ≤ size end_marker) by (unfold size; lia).
  destruct (Z.eqb_spec (size payload + size end_marker) 0); [lia|]. rewrite andb_false_r, Z.min_l by lia.
  change (size [] + size src) with (size src). cbv zeta.
  assert (take (Z.to_nat (size payload)) (payload ++ end_marker) = payload) as ->.
  { unfold size. by rewrite Nat2Z.id, take_app_length. }
  destruct (decide (dst_size = 0)) as [->|Hd0].
  { rewrite Z.min_l, decide_False by lia. unfold lzvn_decode. cbn [dst_len ld_dst ld_dst_size length]. 
    unfold dst_len. cbn [ld_dst_size length Z.to_nat Nat.sub Nat.eqb]. rewrite orb_true_r. cbn [ld_src ld_dst ld_end_of_stream ld_d_prev].
    rewrite !Z.sub_diag, !Z.sub_0_r.
    destruct (Z.ltb_spec (size payload) 0); [lia|]. destruct (Z.ltb_spec (size src) 0); [lia|].
    destruct (Z.eqb_spec (size payload) 0); [lia|]. destruct (Z.eqb_spec (size src) 0); [lia|].
    done. }
  destruct (decode_stream code D src [] (Z.to_nat (Z.min dst_size (size src))) Hcode) as (st & Hst & Hdst & Hfit & Hfull); [lia|].
  rewrite app_nil_r in Hst, Hfull. unfold payload at 1. rewrite Hst. change (size []) with 0. rewrite Hdst, Z.sub_0_r.
  case_decide as Hle.
  - rewrite Z.min_r by done. destruct Hfit as [-> ->]; [unfold size in *; lia|]. change (size []) with 0. rewrite Z.sub_0_r.
    unfold size at 3 6. rewrite take_ge by (unfold size; lia). fold (size src).
    rewrite !Z.ltb_irrefl, !Z.sub_diag. cbn [orb andb Z.eqb]. unfold size. by rewrite Nat2Z.id, drop_app_length.
  - rewrite Z.min_l in * by lia. destruct Hfull as (-> & Hrest & Hsuf); [unfold size in *; lia|]. fold payload in Hsuf.
    assert (size (take (Z.to_nat dst_size) src) = dst_size) as -> by (unfold size in *; rewrite length_take; lia).
    pose proof (size_pos _ Hrest). pose proof (suffix_length _ _ Hsuf).
    destruct (Z.ltb_spec (size payload) (size payload - size (ld_src st))); [lia|].
    destruct (Z.ltb_spec (size src) dst_size); [lia|]. cbn [orb].
    destruct (Z.eqb_spec (size payload - (size payload - size (ld_src st))) 0); [lia|].
    destruct (Z.eqb_spec (size src - dst_size) 0); [lia|]. done.
Qed.

End LzvnTurns.

End Turns.

(** ** Decoding a stream of one block *)

(** A loop that gives the text, or as much of it as there is room for. *)
Lemma decode_buffer_cut behind dst_size k b text :
  0 ≤ dst_size → (k ≤ 3 * S (length b))%nat → loop_nat (decode_step b behind dst_size) k (decoder_init b) = inr (Ok (cut dst_size text)) →
  decode_buffer behind dst_size b = Ok (take (Z.to_nat dst_size) text).
Proof.
  intros Hd Hk Hr. unfold decode_buffer. rewrite (loop_nat_mono _ k _ _ _ Hk Hr). unfold cut. case_decide; cbn [loop_result mbind result_bind].
  - by rewrite take_ge by (unfold size in *; lia).
  - rewrite (proj2 (Nat.sub_0_le _ _)), app_nil_r; [done|]. rewrite length_take. unfold size in *. lia.
Qed.

Lemma cut_full dst_size text : dst_size < size text → cut dst_size text = (DST_FULL, take (Z.to_nat dst_size) text).
Proof. intros H. unfold cut. by rewrite decide_False by lia. Qed.

Lemma cut_fits dst_size text : size text ≤ dst_size → cut dst_size text = (OK, text).
Proof. intros H. unfold cut. by rewrite decide_True by lia. Qed.

Section Streams.
Context (behind : bytes) (dst_size : Z) (src : bytes).
Hypothesis Hlen : size src < INT_MAX.

Lemma decode_uncompressed :
  0 ≤ dst_size →
  decode_buffer behind dst_size (le_bytes 4 LZFSE_UNCOMPRESSED_BLOCK_MAGIC ++ le_bytes 4 (size src) ++ src ++ end_marker)
  = Ok (take (Z.to_nat dst_size) src).
Proof.
  intros Hd. apply (decode_buffer_cut _ _ 4); [done|rewrite length_app, length_le_bytes; lia|]. cbn [loop_nat]. unfold decoder_init.
  rewrite turn_uncompressed_header by done. destruct (decide (src = [])) as [Hnil|Hne].
  { rewrite cut_fits by (rewrite Hnil; unfold size; simpl; lia). by rewrite Hnil. }
  pose proof (size_pos src Hne). destruct (decide (dst_size = 0)) as [Hz|].
  { rewrite cut_full, turn_full by (apply marker_tail || lia || (unfold size; simpl; lia)). by rewrite Hz. }
  rewrite turn_copy by (done || lia). destruct (Z.le_gt_cases (size src) dst_size).
  - rewrite cut_fits, Z.min_l, Z.sub_diag, turn_close by lia.
    assert (Z.to_nat (size src) = length src) as -> by (unfold size; lia). by rewrite drop_all, firstn_all.
  - rewrite cut_full, Z.min_r, turn_full; [done|lia| |apply marker_tail|lia..]. unfold size in *. rewrite length_take. lia.
Qed.

Lemma decode_lzvn code D :
  denotes code 0 [] D src → size (code ++ le_bytes 8 6) < 2 ^ 32 → src ≠ [] → 0 ≤ dst_size →
  decode_buffer behind dst_size (lzvn_block (size src) (code ++ le_bytes 8 6)) = Ok (take (Z.to_nat dst_size) src).
Proof.
  intros Hcode Hpay Hne Hd. apply (decode_buffer_cut _ _ 3); [done|lia|]. cbn [loop_nat]. unfold decoder_init.
  rewrite (turn_lzvn_header _ _ _ _ _ Hlen) by done. rewrite (turn_lzvn _ _ _ _ _ _ _ Hcode Hne Hd).
  case_decide; [by rewrite cut_fits|by rewrite cut_full by lia].
Qed.

End Streams.

(** ** Decoding a stream of compressed blocks *)

Section CompressedStreams.
Context (behind : bytes) (dst_size : Z).
Hypothesis Hd : 0 ≤ dst_size.

(** A block begins with its magic number and is not shorter than the fixed part of its header. *)
Lemma block_magic l literals block rest :
  block_of l literals block → header_v2_fixed ≤ size block ∧ read4 (block ++ rest) = LZFSE_COMPRESSEDV2_BLOCK_MAGIC.
Proof.
  intros [h fixed freqs wl w s0 s1 s2 s3 st st' Hok Hfreqs Hfixed _ _ _ _ _ _ _ _ _ _ _ _ _].
  destruct (header_roundtrip h Hok) as (t & b & Ht & _ & Hb & Hbs & Hmagic & _).
  rewrite Ht in Hfreqs. injection Hfreqs as ->. rewrite Hb in Hfixed. injection Hfixed as ->. split.
  - rewrite size_app, Hbs. unfold size. lia.
  - unfold read4. rewrite <-app_assoc, take_app_le by (unfold size, header_v2_fixed in Hbs; lia). done.
Qed.

Lemma turn_block pre block rest l literals text text' bs :
  block_state_sized bs → block_ok l literals block → rest ≠ [] → expand l literals text = Ok text' → size text ≤ dst_size →
  ∃ bs', block_state_sized bs' ∧
  decode_step (pre ++ block ++ rest) behind dst_size (mkDecoder (block ++ rest) text NoBlock bs)
  = match cut dst_size text' with (OK, d) => inl (mkDecoder rest d NoBlock bs') | r => inr (Ok r) end.
Proof.
  intros Hbs [Hblock Hlen [k Hk] Hlits Hrange] Hrest He Htext. destruct (block_magic _ _ _ rest Hblock) as [Hsize Hmagic].
  unfold decode_step, header_turn. cbn [d_block d_src]. rewrite Hmagic, size_app. unfold header_v2_fixed in Hsize.
  destruct (Z.ltb_spec (size block + size rest) 4); [unfold size in *; lia|].
  change (_ || _) with true. cbv match. unfold block_turn. cbn [d_src d_dst d_tables].
  destruct (decode_block_is l literals block pre rest behind k Hblock Hlen Hk Hlits Hrange Hrest text text' dst_size bs) as (bs' & Hbs' & ->); [done..|].
  exists bs'. split; [done|]. unfold cut. by case_decide.
Qed.

(** The blocks are decoded one after the other, until the destination is full. *)
Lemma decode_blocks_turns code text rest :
  blocks_of code text → rest ≠ [] →
  ∃ k bs, (k ≤ length code)%nat ∧ block_state_sized bs ∧
    loop_nat (decode_step (code ++ rest) behind dst_size) k (decoder_init (code ++ rest))
    = match cut dst_size text with (OK, d) => inl (mkDecoder rest d NoBlock bs) | r => inr (Ok r) end.
Proof.
  intros Hb. revert rest. induction Hb as [|code text l literals block text' Hb IH Hblock He]; intros rest Hrest.
  { exists 0%nat, block_state_init. split; [done|]. split; [apply block_state_init_sized|]. unfold cut. by rewrite decide_True by (unfold size; simpl; lia). }
  destruct (block_magic _ _ _ rest (block_is _ _ _ Hblock)) as [Hsize _]. unfold header_v2_fixed in Hsize.
  destruct (IH (block ++ rest)) as (k & bs & Hk & Hbs & Hl); [by destruct block|]. rewrite <-!app_assoc.
  destruct (expand_prefix _ _ _ _ (block_range _ _ _ Hblock) He) as [more ->].
  destruct (Z.le_gt_cases (size text) dst_size) as [Hfit|Hfull].
  - destruct (turn_block code block rest l literals _ _ bs Hbs Hblock Hrest He Hfit) as (bs' & Hbs' & Ht). exists (k + 1)%nat, bs'.
    split; [rewrite length_app; unfold size in *; lia|]. split; [done|]. rewrite loop_nat_add, Hl, cut_fits by done. cbn [loop_nat].
    rewrite Ht. destruct (cut dst_size (text ++ more)) as [[] ?]; reflexivity.
  - exists k, bs. split; [rewrite length_app; lia|]. split; [done|]. rewrite Hl, !cut_full by (rewrite ?size_app; unfold size in *; lia).
    by rewrite take_app_le by (unfold size in *; lia).
Qed.

Lemma decode_blocks code text :
  blocks_of code text → decode_buffer behind dst_size (code ++ end_marker) = Ok (take (Z.to_nat dst_size) text).
Proof.
  intros Hb. destruct (decode_blocks_turns code text end_marker Hb) as (k & bs & Hk & _ & Hl); [done|].
  apply (decode_buffer_cut _ dst_size (k + 1)); [done|rewrite length_app; lia|]. rewrite loop_nat_add, Hl. unfold cut. case_decide; [|done].
  cbn [loop_nat]. by rewrite turn_end.
Qed.

End CompressedStreams.

(** ** The encoder *)

Lemma size_uncompressed (src : bytes) : size (le_bytes 4 LZFSE_UNCOMPRESSED_BLOCK_MAGIC ++ le_bytes 4 (size src) ++ src ++ end_marker) = size src + 12.
Proof. unfold end_marker. rewrite !size_app, !size_le_bytes. lia. Qed.

(** What a source falls back to: a block that fits and is read back, or nothing. *)
Lemma try_uncompressed_spec n src :
  size src < INT_MAX →
  size (try_uncompressed n src) ≤ Z.max 0 n ∧ (size src + 12 ≤ n → try_uncompressed n src ≠ []) ∧
  ∀ behind m, try_uncompressed n src ≠ [] → 0 ≤ m → decode_buffer behind m (try_uncompressed n src) = Ok (take (Z.to_nat m) src).
Proof.
  intros Hs. unfold try_uncompressed. destruct (Z.ltb_spec (size src) INT_MAX); [|lia].
  destruct (Z.leb_spec (size src + 12) n) as [Hn|Hn]; cbn [andb].
  - rewrite size_uncompressed. split_and!; [lia|done|]. intros behind m _ Hm. by apply decode_uncompressed.
  - split_and!; [unfold size; simpl; lia|lia|done].
Qed.

Section Encoder.
Context `{Machine}.

Lemma encode_small n src :
  size src < LZFSE_ENCODE_LZVN_THRESHOLD →
  ∃ c, encode_buffer n src = Ok c ∧ size c ≤ Z.max 0 n ∧ (size src + 12 ≤ n → c ≠ []) ∧
    ∀ behind m, c ≠ [] → 0 ≤ m → decode_buffer behind m c = Ok (take (Z.to_nat m) src).
Proof.
  unfold encode_buffer, LZFSE_ENCODE_LZVN_THRESHOLD, LZVN_ENCODE_MIN_SRC_SIZE. intros Hs.
  assert (size src < INT_MAX) as Hmax by (unfold INT_MAX; lia). pose proof (try_uncompressed_spec n src Hmax) as Hun.
  destruct (Z.ltb_spec (size src) 8) as [H8|H8]; [by eexists|]. destruct (Z.ltb_spec (size src) 4096); [|lia].
  destruct (Z.leb_spec n (4 + 12)) as [H16|H16]; [by eexists|].
  destruct (lzvn_encode_buffer_ok src (n - (4 + 12))) as (b & -> & Hb & Hcode); [lia|]. cbn [mbind result_bind].
  destruct (_ || _) eqn:E; [by eexists|]. apply orb_false_iff in E as [E1%Z.eqb_neq E2%Z.leb_gt].
  destruct (Hcode) as (code & D & -> & Hd); [intros ->; by apply E1|]. eexists. split; [done|].
  assert (size (lzvn_block (size src) (code ++ le_bytes 8 6)) = size (code ++ le_bytes 8 6) + 16) as ->.
  { unfold lzvn_block, end_marker. rewrite !size_app, !size_le_bytes. lia. }
  split_and!; [lia|done|]. intros behind m _ Hm. eapply decode_lzvn; [done|done|lia| |done].
  intros ->. unfold size in H8. simpl in H8. lia.
Qed.

(** Every source is encoded, and what is written is decoded to it. *)
Lemma encode_buffer_spec n src :
  size src < INT_MAX →
  ∃ c, encode_buffer n src = Ok c ∧ size c ≤ Z.max 0 n ∧ (size src + 12 ≤ n → c ≠ []) ∧
    ∀ behind m, c ≠ [] → 0 ≤ m → decode_buffer behind m c = Ok (take (Z.to_nat m) src).
Proof.
  intros Hmax. destruct (Z.lt_ge_cases (size src) LZFSE_ENCODE_LZVN_THRESHOLD) as [Hs|Hs]; [by apply encode_small|].
  unfold encode_buffer, LZFSE_ENCODE_LZVN_THRESHOLD, LZVN_ENCODE_MIN_SRC_SIZE in *.
  destruct (Z.ltb_spec (size src) 8); [lia|]. destruct (Z.ltb_spec (size src) 4096); [lia|].
  destruct (compressed_blocks_ok src n) as [->|(code & -> & Hb & Hsz)]; [unfold INT_MAX in *; lia|..]; cbn [mbind result_bind]; eexists; (split; [done|]).
  - by apply try_uncompressed_spec.
  - split_and!; [done|by destruct code|]. intros behind m _ Hm. by apply decode_blocks.
Qed.

End Encoder.

(** The library keeps the promises the server relies on. *)
#[export] Instance lzfse_laws `{Machine} : LzfseLaws (H := lzfse).
Proof.
  split; cbn [lzfse_encode_buffer lzfse_decode_buffer lzfse].
  - intros n src Hs. destruct (encode_buffer_spec n src Hs) as (c & ? & _). by exists c.
  - intros n src c Hs Hc. destruct (encode_buffer_spec n src Hs) as (c' & Hc' & Hfit & _).
    rewrite Hc in Hc'. by injection Hc' as ->.
  - intros n src Hn Hs Hc. destruct (encode_buffer_spec n src Hs) as (c & Hc' & _ & Hne & _).
    rewrite Hc in Hc'. injection Hc' as <-. exact (Hne Hn eq_refl).
  - intros n m src c Hc Hne Hm Hs. destruct (encode_buffer_spec n src Hs) as (c' & Hc' & _ & _ & Hd).
    rewrite Hc in Hc'. injection Hc' as <-. by apply Hd.
Qed.

(** The library as it runs on x86. *)
Definition lzfse_x86 : Lzfse := let machine := x86 in lzfse.
#[export] Instance lzfse_x86_laws : LzfseLaws (H := lzfse_x86) := lzfse_laws.

(** ** The decoder on arbitrary bytes *)

Section Safety.
Context (mem behind : bytes) (b : ascii) (dst_size : Z).
Hypothesis Hsize : 0 ≤ dst_size ≤ 2 ^ 32 - 2 ^ 16.













End Safety.

(** ** Properties *)

(** [Compress] and [Decompress], with the destinations they grow turn by turn, end
    and undo each other on every text of up to [INT_MAX - 6] bytes, and the compressed
    text is at most thirteen times as long. *)
Theorem Compress_Decompress `{LzfseLaws} (data : bytes) :
  Z.of_nat (length data) < INT_MAX - 5 →
  ∃ c, Compress data = Ok c ∧ Z.of_nat (length c) ≤ 13 * Z.of_nat (length data) ∧
       (data = [] → c = []) ∧ (data ≠ [] → Decompress c = Ok data).
Proof.
  intros Hlen. destruct (Compress_ok data) as (n & c & Hc & Hb & Hn); [lia|]. exists c. split_and!; [done|done| |].
  - intros ->. rewrite Compress_nil in Hc. by injection Hc as <-.
  - intros Hne. destruct (Hn Hne) as [? Hc']. by eapply Decompress_ok.
Qed.

#[local] Existing Instance lzfse_x86.

Lemma Compress_Decompress_witness :
  ∃ c, Compress (bytes_of "aaaa") = Ok c ∧ Z.of_nat (length c) ≤ 52 ∧
       (bytes_of "aaaa" = [] → c = []) ∧ (bytes_of "aaaa" ≠ [] → Decompress c = Ok (bytes_of "aaaa")).
Proof. apply (Compress_Decompress (bytes_of "aaaa")). reflexivity. Defined.

(** C23: every source of less than 2^31 - 1 bytes is encoded without an access outside the
    buffers and within the destination, into compressed blocks, an LZVN block or an
    uncompressed one, always if twelve bytes are spare; the decoder restores it, all of it
    when the destination is long enough, its beginning otherwise. *)
Theorem lzfse_roundtrip `{Machine} (src : bytes) (n : Z) :
  size src < INT_MAX →
  ∃ c, encode_buffer n src = Ok c ∧ size c ≤ Z.max 0 n ∧ (size src + 12 ≤ n → c ≠ []) ∧
    ∀ behind room, c ≠ [] → 0 ≤ room → decode_buffer behind room c = Ok (take (Z.to_nat room) src).
Proof. apply encode_buffer_spec. Qed.

Lemma lzfse_roundtrip_witness :
  ∃ c, encode_buffer 6000 (replicate 5000 "a"%char) = Ok c ∧ size c ≤ Z.max 0 6000 ∧
    (size (replicate 5000 "a"%char) + 12 ≤ 6000 → c ≠ []) ∧
    ∀ behind room, c ≠ [] → 0 ≤ room → decode_buffer behind room c = Ok (take (Z.to_nat room) (replicate 5000 "a"%char)).
Proof. apply (lzfse_roundtrip (replicate 5000 "a"%char) 6000). unfold size. rewrite length_replicate. reflexivity. Defined.




(** A first match without a distance is read, in a block of its own. *)
Definition no_distance : bytes :=
  le_bytes 4 LZFSE_COMPRESSEDLZVN_BLOCK_MAGIC ++ le_bytes 4 20 ++ le_bytes 4 2 ++ [byte_of 241; byte_of 6].

Example decode_no_distance : decode_buffer [byte_of 0] 100 no_distance = Err Undefined.
Proof. vm_compute. reflexivity. Qed.

(** A source that ends with a payload of literals which uses up all of its bits is read one
    byte behind its end.  The block has no frequencies: its states have no entries but the
    zeros of the cleared tables. *)
Definition no_lmd_header : header_v1 :=
  mkHeader LZFSE_COMPRESSEDV1_BLOCK_MAGIC 4 8 4 0 8 0 0 [0; 0; 0; 0] 0 0 0 0 (replicate 20 0) (replicate 20 0) (replicate 64 0) (replicate 256 0).
Definition no_lmd : bytes :=
  match lzfse_encode_v1_state no_lmd_header header_v2_fixed with Ok b => b ++ replicate 8 (byte_of 0) | Err _ => [] end.

Example decode_no_lmd : decode_buffer [] 100 no_lmd = Err Undefined ∧ decode_buffer [byte_of 0] 100 no_lmd = Ok [].
Proof. vm_compute. split; reflexivity. Qed.

End Blocks.
Export Blocks.
