(* ===== verification/Object.v ===== *)
(** * objects/object.h: the type tags of objects and of their encodings

    The enumerations [ObjectType] and [EncodingType] and their conversions from and
    to the one-byte tags of the RDB image. *)

From stdpp Require Import base list strings.
From Stdlib Require Import Ascii ZArith Lia.
From S2P Require Import Prelude CInt Util.
Local Open Scope Z_scope.

Module ObjectTags.

Inductive ObjectType :=
| OBJ
| STR
| LIST
| HASH
| SET
| ZSET
| EXPIRE_ENTRY
| OBJECT_UNKNOWN.

#[export] Instance ObjectType_eq_dec : EqDecision ObjectType.
Proof. solve_decision. Defined.

(** [assert(0)] on [UNKNOWN]. *)
Definition ObjectTypeToChar (otyp : ObjectType) : result ascii :=
  match otyp with
  | OBJ => Ok (byte_of 0)
  | STR => Ok (byte_of 1)
  | LIST => Ok (byte_of 2)
  | HASH => Ok (byte_of 3)
  | SET => Ok (byte_of 4)
  | ZSET => Ok (byte_of 5)
  | EXPIRE_ENTRY => Ok (byte_of 6)
  | OBJECT_UNKNOWN => Err AssertFail
  end.

Definition CharToObjectType (c : ascii) : result ObjectType :=
  match char_val c with
  | 0 => Ok OBJ
  | 1 => Ok STR
  | 2 => Ok LIST
  | 3 => Ok HASH
  | 4 => Ok SET
  | 5 => Ok ZSET
  | 6 => Ok EXPIRE_ENTRY
  | _ => Err AssertFail
  end.

Inductive EncodingType :=
| INT
| STR_RAW
| STR_COMPRESS
| ENC_LIST
| ENC_ARRAY
| ENC_HASHMAP
| ENC_RBTREE
| ENC_UNKNOWN.

#[export] Instance EncodingType_eq_dec : EqDecision EncodingType.
Proof. solve_decision. Defined.

Definition EncodingTypeToChar (etyp : EncodingType) : result ascii :=
  match etyp with
  | INT => Ok (byte_of 0)
  | STR_RAW => Ok (byte_of 1)
  | STR_COMPRESS => Ok (byte_of 2)
  | ENC_LIST => Ok (byte_of 3)
  | ENC_ARRAY => Ok (byte_of 4)
  | ENC_HASHMAP => Ok (byte_of 5)
  | ENC_RBTREE => Ok (byte_of 6)
  | ENC_UNKNOWN => Err AssertFail
  end.

Definition CharToEncodingType (c : ascii) : result EncodingType :=
  match char_val c with
  | 0 => Ok INT
  | 1 => Ok STR_RAW
  | 2 => Ok STR_COMPRESS
  | 3 => Ok ENC_LIST
  | 4 => Ok ENC_ARRAY
  | 5 => Ok ENC_HASHMAP
  | 6 => Ok ENC_RBTREE
  | _ => Err AssertFail
  end.

(** The two conversions of each enumeration are inverse to each other. *)
Lemma CharToObjectType_inv otyp c :
  ObjectTypeToChar otyp = Ok c ↔ CharToObjectType c = Ok otyp.
Proof.
  split.
  - destruct otyp; simpl; intros; simplify_eq; done.
  - destruct c as [[] [] [] [] [] [] [] []]; vm_compute; intros; simplify_eq; done.
Qed.

Lemma CharToEncodingType_inv etyp c :
  EncodingTypeToChar etyp = Ok c ↔ CharToEncodingType c = Ok etyp.
Proof.
  split.
  - destruct etyp; simpl; intros; simplify_eq; done.
  - destruct c as [[] [] [] [] [] [] [] []]; vm_compute; intros; simplify_eq; done.
Qed.

(** The tags of the two enumerations are read back from the characters they are
    written as, and no other character is read as a tag. *)
Lemma tags_roundtrip otyp etyp c :
  (ObjectTypeToChar otyp = Ok c ↔ CharToObjectType c = Ok otyp) ∧
  (EncodingTypeToChar etyp = Ok c ↔ CharToEncodingType c = Ok etyp).
Proof. split; [apply CharToObjectType_inv|apply CharToEncodingType_inv]. Qed.

End ObjectTags.
Export ObjectTags.
