(* ===== verification/StrObj.v ===== *)
(** * objects/str.h, objects/str.cc: the string object

    [Str] keeps a text and the way it is stored in an RDB image: as an [int] when
    it looks like a decimal number, as a raw or compressed text otherwise. *)

From stdpp Require Import base list strings.
From Stdlib Require Import Ascii ZArith Lia.
From S2P Require Import Prelude CInt Util Lzfse Object.
Local Open Scope Z_scope.

Module StrObj.

Record Str := mkStr {
  data_ : string;
  encoding_type_ : EncodingType;
}.

#[export] Instance Str_eq_dec : EqDecision Str.
Proof. solve_decision. Defined.

(** [Str{}] and [std::make_shared<Str>()]: value-initialised members. *)
Definition Str_default : Str := mkStr "" INT.

(** The loop of the constructor and of [Set] over the characters of [data_];
    [i] is the index of the first character of [rest]. *)
Fixpoint classify (size : nat) (i : nat) (rest : string) : EncodingType :=
  match rest with
  | EmptyString => INT
  | String c rest =>
      if is_digit c then classify size (S i) rest
      else if (i =? 0)%nat && (char_val c =? 45) && (1 <? size)%nat
      then classify size (S i) rest
      else STR_RAW
  end.

(** [Str::Str(std::string)]. *)
Definition Str_new (data : string) : Str :=
  mkStr data (classify (String.length data) 0 data).

(** [Str::GetRaw], [Str::Len], [Str::Empty]. *)
Definition Str_GetRaw (s : Str) : string := data_ s.
Definition Str_Len (s : Str) : Z := Z.of_nat (String.length (data_ s)).
Definition Str_Empty (s : Str) : bool := match data_ s with EmptyString => true | _ => false end.
Definition Str_GetEncodingType (s : Str) : EncodingType := encoding_type_ s.
Definition Str_GetObjectType (s : Str) : ObjectType := STR.

(** [Str::Set]. *)
Definition Str_Set (s : Str) (data : string) : Str :=
  mkStr data (classify (String.length data) 0 data).

(** [Str::Append]: the encoding is checked again only when it was [INT]. *)
Definition Str_Append (s : Str) (data : string) : result (Str * Z) :=
  let data' := data_ s +:+ data in
  enc ← (if decide (encoding_type_ s = INT) then
           intval ← RedisStrToInt data';
           Ok (match intval with Some _ => INT | None => STR_RAW end)
         else Ok (encoding_type_ s));
  Ok (mkStr data' enc, Z.of_nat (String.length data')).

(** [Str::IncrBy]; the empty text is the failure answer. *)
Definition Str_IncrBy (s : Str) (delta : Z) : result (Str * string) :=
  if decide (encoding_type_ s = INT) then
    intval ← RedisStrToInt (data_ s);
    match intval with
    | None => Ok (mkStr (data_ s) STR_RAW, "")
    | Some raw_int =>
        raw_int ← int_add raw_int delta;
        Ok (mkStr (to_string raw_int) (encoding_type_ s), to_string raw_int)
    end
  else Ok (s, "").

(** [Str::DecrBy]. *)
Definition Str_DecrBy (s : Str) (delta : Z) : result (Str * string) :=
  delta ← int_neg delta; Str_IncrBy s delta.

(** The comparisons of str.h: equal addresses decide without reading the texts. *)
Definition Str_eqb (pa pb : Z) (a b : Str) : bool :=
  if pa <? pb then String.eqb (data_ a) (data_ b)
  else if pb <? pa then String.eqb (data_ a) (data_ b)
  else true.
Definition Str_ltb (pa pb : Z) (a b : Str) : bool :=
  if pa <? pb then String.ltb (data_ a) (data_ b)
  else if pb <? pa then String.ltb (data_ a) (data_ b)
  else false.
Definition Str_leb (pa pb : Z) (a b : Str) : bool :=
  if pa <? pb then String.leb (data_ a) (data_ b)
  else if pb <? pa then String.leb (data_ a) (data_ b)
  else true.
Definition Str_gtb (pa pb : Z) (a b : Str) : bool := negb (Str_leb pa pb a b).
Definition Str_geb (pa pb : Z) (a b : Str) : bool := negb (Str_ltb pa pb a b).

(** [Str::Fork]. *)
Definition Str_Fork (s : Str) (key : string) : string :=
  "SET " +:+ key +:+ " " +:+ data_ s.

Section Codec.
Context `{Compressor}.

(** [Str::EncodeValue]; [compress] is the flag of [DefineCompress]. *)
Definition Str_EncodeValue (compress : bool) (s : Str) : result bytes :=
  t ← EncodingTypeToChar (encoding_type_ s);
  _ ← assert_ (bool_decide (encoding_type_ s = STR_RAW) || bool_decide (encoding_type_ s = INT)
               || bool_decide (encoding_type_ s = STR_COMPRESS));
  if decide (encoding_type_ s = STR_RAW) then
    t ← (if compress then EncodingTypeToChar STR_COMPRESS else Ok t);
    '(cprs_len, res) ← (if compress then
           cprs ← compress_text (bytes_of (data_ s));
           let len := Z.of_nat (length cprs) in
           _ ← assert_ (negb (len =? 0));
           Ok (BitsToString sizeof_size_t len, cprs)
         else Ok ([], bytes_of (data_ s)));
    let len := Z.of_nat (String.length (data_ s)) in
    Ok ([t] ++ cprs_len ++ BitsToString sizeof_size_t len ++ res)
  else
    data ← stoi (data_ s);
    Ok ([t] ++ BitsToString sizeof_int data).

(** [Str::DecodeValue]. *)
Definition Str_DecodeValue (source : bytes) : result (Str * bytes) :=
  '(c, source) ← pop_front source;
  etyp ← CharToEncodingType c;
  _ ← assert_ (bool_decide (etyp = INT) || bool_decide (etyp = STR_RAW)
               || bool_decide (etyp = STR_COMPRESS));
  if decide (etyp = INT) then
    '(z, source) ← PeekInt source;
    Ok (mkStr (to_string z) INT, source)
  else if decide (etyp = STR_RAW) then
    '(size, source) ← PeekSize source;
    '(data, source) ← PeekString source size;
    Ok (mkStr (string_of data) STR_RAW, source)
  else
    '(size_compress, source) ← PeekSize source;
    '(size_origin, source) ← PeekSize source;
    _ ← assert_ (negb (size_compress =? 0));
    '(cprs, source) ← PeekString source size_compress;
    data ← decompress_text cprs;
    _ ← assert_ (size_origin =? Z.of_nat (length data));
    Ok (mkStr (string_of data) STR_RAW, source).

End Codec.

(** ** Which texts count as numbers *)

(** A decimal number with an optional minus sign; the empty text passes too. *)
Definition int_like (s : string) : bool :=
  match s with
  | String c (String _ _ as rest) => if char_val c =? 45 then all_digits rest else all_digits s
  | _ => all_digits s
  end.

Lemma classify_tail size i s :
  (0 < i)%nat → classify size i s = if all_digits s then INT else STR_RAW.
Proof.
  revert i; induction s as [|c s IH]; intros i Hi; simpl; [done|].
  destruct (is_digit c); simpl; [apply IH; lia|].
  by destruct (Nat.eqb_spec i 0); [lia|].
Qed.

Lemma classify_spec s :
  classify (String.length s) 0 s = if int_like s then INT else STR_RAW.
Proof.
  destruct s as [|c s]; [done|]. cbn [classify]. rewrite !classify_tail by lia.
  destruct (is_digit c) eqn:Hd.
  - assert ((char_val c =? 45) = false) as Hm.
    { apply is_digit_val in Hd. unfold digit_val in Hd. apply Z.eqb_neq. lia. }
    destruct s; simpl; rewrite ?Hd, ?Hm; done.
  - destruct s as [|c' s]; cbn [int_like String.length].
    + simpl. by rewrite Hd, andb_false_r.
    + destruct (char_val c =? 45); simpl; [done|]. by rewrite Hd.
Qed.

Lemma Str_new_encoding d : encoding_type_ (Str_new d) = if int_like d then INT else STR_RAW.
Proof. apply classify_spec. Qed.

(** ** The comparisons are those of the texts *)

Section Compare.
Context (pa pb : Z) (a b : Str).
(** Two references with one address are one object. *)
Hypothesis addr : pa = pb → a = b.

Lemma Str_eqb_data : Str_eqb pa pb a b = String.eqb (data_ a) (data_ b).
Proof.
  unfold Str_eqb. destruct (Z.ltb_spec pa pb); [done|]. destruct (Z.ltb_spec pb pa); [done|].
  rewrite addr by lia. symmetry. apply String.eqb_refl.
Qed.

Lemma Str_ltb_data : Str_ltb pa pb a b = String.ltb (data_ a) (data_ b).
Proof.
  unfold Str_ltb. destruct (Z.ltb_spec pa pb); [done|]. destruct (Z.ltb_spec pb pa); [done|].
  rewrite addr by lia. unfold String.ltb. by rewrite string_compare_refl.
Qed.

Lemma Str_leb_data : Str_leb pa pb a b = String.leb (data_ a) (data_ b).
Proof.
  unfold Str_leb. destruct (Z.ltb_spec pa pb); [done|]. destruct (Z.ltb_spec pb pa); [done|].
  rewrite addr by lia. unfold String.leb. by rewrite string_compare_refl.
Qed.
End Compare.

(** ** Well-formed strings *)

(** The encodings an object can have, and what [INT] means for the text. *)
Definition Str_wf (s : Str) : Prop :=
  (encoding_type_ s = INT ∧ int_like (data_ s) = true) ∨ encoding_type_ s = STR_RAW.

Lemma Str_new_wf d : Str_wf (Str_new d).
Proof. unfold Str_wf. rewrite Str_new_encoding. simpl. destruct (int_like d); naive_solver. Qed.

Lemma int_like_to_string z : int_like (to_string z) = true.
Proof.
  destruct (Z.lt_ge_cases z 0).
  - rewrite to_string_neg by done. destruct (to_string_nonneg (- z)) as (H1 & _ & c & s & H2); [lia|].
    rewrite H2 in *. done.
  - destruct (to_string_nonneg z) as (H1 & _ & c & s & H2); [lia|]. rewrite H2 in *.
    destruct s as [|c' s]; [done|]. cbn [int_like]. destruct (Z.eqb_spec (char_val c) 45) as [E|]; [|done].
    apply andb_true_iff in H1 as [Hc _]. apply is_digit_val in Hc. unfold digit_val in Hc. lia.
Qed.

Lemma RedisStrToInt_Some_int_like s z : RedisStrToInt s = Ok (Some z) → int_like s = true.
Proof.
  Transparent RedisStrToInt.
  destruct s as [|c s]; [done|]. unfold RedisStrToInt, int_like.
  destruct (char_val c =? 45) eqn:Hm.
  - destruct s as [|c' s]; [done|]. by destruct (all_digits _).
  - destruct s as [|c' s]; by destruct (all_digits _).
Qed.

Lemma Str_Append_wf s d s' n : Str_wf s → Str_Append s d = Ok (s', n) → Str_wf s'.
Proof.
  unfold Str_Append. intros Hs. destruct (decide _) as [Hi|Hi].
  - intros H. inv_bind. simplify_eq. unfold Str_wf. simpl.
    destruct a0; [left; split; [done|]; by eapply RedisStrToInt_Some_int_like|by right].
  - simpl. intros. simplify_eq. destruct Hs as [[? ?]|?]; [done|by right].
Qed.

Lemma Str_IncrBy_wf s d s' t : Str_wf s → Str_IncrBy s d = Ok (s', t) → Str_wf s'.
Proof.
  unfold Str_IncrBy. intros Hs. destruct (decide _) as [Hi|Hi]; [|naive_solver].
  destruct (RedisStrToInt (data_ s)) as [[z|]|]; simpl; [|intros; simplify_eq; by right|done].
  intros H. inv_bind. simplify_eq. left. split; [done|]. apply int_like_to_string.
Qed.

(** ** The RDB image of a string *)

(** What a string becomes after one save and load: a number is printed anew. *)
Definition Str_reload (s : Str) : result Str :=
  if decide (encoding_type_ s = INT) then
    z ← stoi (data_ s); Ok (mkStr (to_string z) INT)
  else Ok s.

Lemma stoi_Ok_is_int s z : stoi s = Ok z → is_int z.
Proof.
  unfold stoi. destruct (strto s) as [p|]; [|done].
  destruct (is_intb (signed_val p)) eqn:E; [|done]. intros. simplify_eq. by apply is_intb_true.
Qed.

Section CodecLaws.
Context `{CompressorLaws}.

Lemma Str_EncodeValue_INT compress s :
  encoding_type_ s = INT →
  Str_EncodeValue compress s
  = (λ z, byte_of 0 :: BitsToString sizeof_int z) <$> stoi (data_ s).
Proof. intros E. unfold Str_EncodeValue. rewrite E. simpl. by destruct (stoi _). Qed.

Lemma Str_EncodeValue_RAW s :
  encoding_type_ s = STR_RAW →
  Str_EncodeValue false s
  = Ok (byte_of 1 :: BitsToString sizeof_size_t (Z.of_nat (String.length (data_ s))) ++ bytes_of (data_ s)).
Proof. intros E. unfold Str_EncodeValue. by rewrite E. Qed.

Lemma Str_EncodeValue_COMPRESS s cprs :
  encoding_type_ s = STR_RAW → compress_text (bytes_of (data_ s)) = Ok cprs → cprs ≠ [] →
  Str_EncodeValue true s
  = Ok (byte_of 2 :: BitsToString sizeof_size_t (Z.of_nat (length cprs))
        ++ BitsToString sizeof_size_t (Z.of_nat (String.length (data_ s))) ++ cprs).
Proof.
  intros E Hc Hne. unfold Str_EncodeValue. rewrite E. simpl. rewrite Hc. simpl.
  destruct (Z.eqb_spec (Z.of_nat (length cprs)) 0) as [Hz|]; [|done].
  destruct cprs; simpl in Hz; [done|lia].
Qed.

(** The size of a text the image can carry: the compressor counts its attempts,
    and the length of what it wrote, in machine integers. *)
Definition Str_fits (s : Str) : Prop := Z.of_nat (String.length (data_ s)) < INT_MAX - 5.

(** The decoder on each of the three tags. *)
Lemma Str_DecodeValue_INT source :
  Str_DecodeValue (byte_of 0 :: source)
  = ('(z, source) ← PeekInt source; Ok (mkStr (to_string z) INT, source)).
Proof. reflexivity. Qed.

Lemma Str_DecodeValue_RAW source :
  Str_DecodeValue (byte_of 1 :: source)
  = ('(size, source) ← PeekSize source;
     '(data, source) ← PeekString source size;
     Ok (mkStr (string_of data) STR_RAW, source)).
Proof. reflexivity. Qed.

Lemma Str_DecodeValue_COMPRESS source :
  Str_DecodeValue (byte_of 2 :: source)
  = ('(size_compress, source) ← PeekSize source;
     '(size_origin, source) ← PeekSize source;
     _ ← assert_ (negb (size_compress =? 0));
     '(cprs, source) ← PeekString source size_compress;
     data ← decompress_text cprs;
     _ ← assert_ (size_origin =? Z.of_nat (length data));
     Ok (mkStr (string_of data) STR_RAW, source)).
Proof. reflexivity. Qed.

Lemma Str_decode_COMPRESS s c rest :
  encoding_type_ s = STR_RAW → c ≠ [] → is_size (Z.of_nat (length c)) →
  is_size (Z.of_nat (String.length (data_ s))) → decompress_text c = Ok (bytes_of (data_ s)) →
  Str_DecodeValue ((byte_of 2 :: BitsToString sizeof_size_t (Z.of_nat (length c))
     ++ BitsToString sizeof_size_t (Z.of_nat (String.length (data_ s))) ++ c) ++ rest) = Ok (s, rest).
Proof.
  intros E Hne Hc Hs Hd. rewrite <-app_comm_cons, Str_DecodeValue_COMPRESS, <-!app_assoc.
  rewrite PeekSize_Bits by done. cbn [mbind result_bind]. rewrite PeekSize_Bits by done.
  destruct (Z.eqb_spec (Z.of_nat (length c)) 0) as [Hz|]; [destruct c; simpl in Hz; [done|lia]|].
  cbn [mbind result_bind assert_ negb]. rewrite PeekString_app. cbn [mbind result_bind].
  rewrite Hd. cbn [mbind result_bind]. rewrite length_bytes_of, Z.eqb_refl, string_of_bytes_of.
  destruct s as [d e]. simpl in E. by subst e.
Qed.

Lemma Str_decode_RAW s rest :
  encoding_type_ s = STR_RAW → is_size (Z.of_nat (String.length (data_ s))) →
  Str_DecodeValue ((byte_of 1 :: BitsToString sizeof_size_t (Z.of_nat (String.length (data_ s)))
     ++ bytes_of (data_ s)) ++ rest) = Ok (s, rest).
Proof.
  intros E Hs. rewrite <-app_comm_cons, Str_DecodeValue_RAW, <-!app_assoc.
  rewrite PeekSize_Bits by done. cbn [mbind result_bind].
  rewrite <-length_bytes_of, PeekString_app. cbn [mbind result_bind].
  rewrite string_of_bytes_of. destruct s as [d e]. simpl in E. by subst e.
Qed.

Lemma Str_decode_encode compress s b rest :
  Str_wf s → Str_fits s → Str_EncodeValue compress s = Ok b →
  ∃ s', Str_reload s = Ok s' ∧ Str_DecodeValue (b ++ rest) = Ok (s', rest).
Proof.
  intros Hwf Hfit Henc. unfold Str_fits, INT_MAX in Hfit. unfold Str_reload.
  assert (is_size (Z.of_nat (String.length (data_ s)))) as Hsz by (unfold is_size, SIZE_MAX; lia).
  destruct Hwf as [[E Hint]|E]; rewrite E.
  - rewrite Str_EncodeValue_INT in Henc by done. apply fmap_Ok in Henc as (z & Hz & ->).
    rewrite Hz. eexists. split; [done|]. rewrite <-app_comm_cons, Str_DecodeValue_INT.
    by rewrite PeekInt_Bits by (by eapply stoi_Ok_is_int).
  - exists s. split; [by rewrite decide_False by done|]. destruct compress.
    + destruct (decide (data_ s = "")) as [He|He].
      { unfold Str_EncodeValue in Henc. rewrite E, He in Henc. cbn in Henc.
        rewrite compress_nil in Henc. discriminate Henc. }
      destruct (decompress_compress (bytes_of (data_ s))) as (c & Hc & Hne & Hcs & Hd).
      { rewrite length_bytes_of. unfold INT_MAX. lia. }
      { intros Hb. apply He, bytes_of_inj. done. }
      rewrite (Str_EncodeValue_COMPRESS s c) in Henc by done. injection Henc as <-.
      by apply Str_decode_COMPRESS.
    + rewrite Str_EncodeValue_RAW in Henc by done. injection Henc as <-.
      by apply Str_decode_RAW.
Qed.

(** Strings that a save and a load leave as they are: numbers in their printed form,
    and texts that are not empty. *)
Definition Str_stable (s : Str) : Prop :=
  Str_fits s ∧
  ((encoding_type_ s = INT ∧ ∃ z, is_int z ∧ data_ s = to_string z) ∨
   (encoding_type_ s = STR_RAW ∧ data_ s ≠ "")).

Lemma Str_stable_wf s : Str_stable s → Str_wf s.
Proof.
  intros [_ [[E (z & _ & Hd)]|[E _]]]; [left|by right]. split; [done|]. rewrite Hd. apply int_like_to_string.
Qed.

Lemma Str_stable_survives compress s :
  Str_stable s → survives (Str_EncodeValue compress) Str_DecodeValue s s.
Proof.
  intros Hst. pose proof (Str_stable_wf s Hst) as Hwf. destruct Hst as [Hfit Hst].
  assert (∃ b, Str_EncodeValue compress s = Ok b) as [b Hb].
  { destruct Hst as [[E (z & Hz & Hd)]|[E Hd]].
    - rewrite Str_EncodeValue_INT, Hd, stoi_to_string by done. by eexists.
    - destruct compress; [|rewrite Str_EncodeValue_RAW by done; by eexists].
      destruct (decompress_compress (bytes_of (data_ s))) as (c & Hc & Hne & _).
      { rewrite length_bytes_of. exact Hfit. }
      { intros Hb. apply Hd, bytes_of_inj. done. }
      rewrite (Str_EncodeValue_COMPRESS s c) by done. by eexists. }
  exists b. split; [done|]. intros rest.
  destruct (Str_decode_encode compress s b rest) as (s' & Hr & ->); [done..|].
  f_equal. f_equal. unfold Str_reload in Hr. destruct Hst as [[E (z & Hz & Hd)]|[E Hd]].
  - rewrite decide_True, Hd, stoi_to_string in Hr by done. injection Hr as <-.
    rewrite <-Hd, <-E. by destruct s.
  - rewrite decide_False in Hr by congruence. congruence.
Qed.

End CodecLaws.

(** ** Properties *)

(** C40: on a string that holds the decimal form of an [int], INCRBY and DECRBY by an [int]
    give the decimal form of the sum or difference, stored as an [int], and answer it.  A
    result outside [int] is a signed overflow, which is undefined behaviour and not reported,
    as is the negation of INT_MIN by DECRBY; the text of INT_MIN itself throws, because its
    digits are converted without their sign. *)
Theorem Str_counter z d :
  is_int z → is_int d →
  Str_IncrBy (Str_new (to_string z)) d =
    (if bool_decide (z = INT_MIN) then Err OutOfRange
     else if is_intb (z + d) then Ok (Str_new (to_string (z + d)), to_string (z + d)) else Err Undefined) ∧
  Str_DecrBy (Str_new (to_string z)) d =
    (if bool_decide (d = INT_MIN) then Err Undefined
     else if bool_decide (z = INT_MIN) then Err OutOfRange
     else if is_intb (z - d) then Ok (Str_new (to_string (z - d)), to_string (z - d)) else Err Undefined).
Proof.
  intros Hz Hd.
  assert (∀ k, Str_IncrBy (Str_new (to_string z)) k =
    (if bool_decide (z = INT_MIN) then Err OutOfRange
     else if is_intb (z + k) then Ok (Str_new (to_string (z + k)), to_string (z + k)) else Err Undefined)) as Hinc.
  { intros k. case_bool_decide as Hmin; [by subst z|]. unfold Str_IncrBy. rewrite Str_new_encoding, int_like_to_string, decide_True by done.
    simpl data_. rewrite RedisStrToInt_to_string by (unfold is_int, INT_MIN, INT_MAX in *; lia). cbn [mbind result_bind]. unfold int_add, int_check.
    destruct (is_intb (z + k)); [|done]. cbn [mbind result_bind]. do 2 f_equal.
    unfold Str_new. by rewrite classify_spec, int_like_to_string. }
  split; [apply Hinc|]. destruct (decide (d = INT_MIN)) as [->|Hmin]; [done|]. rewrite (bool_decide_eq_false_2 (d = INT_MIN)) by done. unfold Str_DecrBy, int_neg.
  rewrite int_check_is by (unfold is_int, INT_MIN, INT_MAX in *; lia). apply Hinc.
Qed.

Lemma Str_counter_witness :
  Str_IncrBy (Str_new "41") 1 = Ok (Str_new "42", "42") ∧ Str_DecrBy (Str_new "41") 50 = Ok (Str_new "-9", "-9") ∧
  Str_IncrBy (Str_new "2147483647") 1 = Err Undefined ∧ Str_DecrBy (Str_new "-2147483648") 1 = Err OutOfRange.
Proof.
  split_and!; [apply (Str_counter 41 1)|apply (Str_counter 41 50)|apply (Str_counter INT_MAX 1)|apply (Str_counter INT_MIN 1)];
    (apply (bool_decide_unpack _); vm_compute; exact I).
Defined.

(** A string stored raw is read back from its image, compressed or not, as it was;
    a string stored as an [int] is read back in the printed form of its value, and is
    refused exactly when [std::stoi] refuses it. *)
Lemma Str_image `{CompressorLaws} compress s :
  Str_fits s → (compress = true → data_ s ≠ "") →
  (encoding_type_ s = STR_RAW →
     ∃ b, Str_EncodeValue compress s = Ok b ∧ ∀ rest, Str_DecodeValue (b ++ rest) = Ok (s, rest)) ∧
  (encoding_type_ s = INT →
     match stoi (data_ s) with
     | Ok z => ∃ b, Str_EncodeValue compress s = Ok b ∧
                    ∀ rest, Str_DecodeValue (b ++ rest) = Ok (Str_new (to_string z), rest)
     | Err e => Str_EncodeValue compress s = Err e
     end).
Proof.
  intros Hfit Hne. split; intros E.
  - destruct (decide (data_ s = "")) as [Hd|Hd].
    + destruct compress; [by destruct (Hne eq_refl)|]. rewrite Str_EncodeValue_RAW by done. eexists. split; [done|].
      intros rest. apply Str_decode_RAW; [done|]. rewrite Hd. done.
    + apply Str_stable_survives. split; [done|]. by right.
  - rewrite Str_EncodeValue_INT by done. destruct (stoi (data_ s)) as [z|e] eqn:Hz; [|done].
    eexists. split; [done|]. intros rest. rewrite <-app_comm_cons, Str_DecodeValue_INT.
    rewrite PeekInt_Bits by (by eapply stoi_Ok_is_int). cbn [mbind result_bind].
    unfold Str_new. by rewrite classify_spec, int_like_to_string.
Qed.

#[local] Existing Instance lzfse_x86.

Lemma Str_image_witness :
  ∃ b, Str_EncodeValue true (Str_new "hello") = Ok b ∧ ∀ rest, Str_DecodeValue (b ++ rest) = Ok (Str_new "hello", rest).
Proof. apply (Str_image true (Str_new "hello")); done. Defined.

(** Every operation on a string keeps the agreement of its text and its encoding:
    what is marked as an [int] looks like a decimal number. *)
Lemma Str_operations_wf s :
  Str_wf s →
  (∀ d, Str_wf (Str_Set s d)) ∧
  (∀ d s' n, Str_Append s d = Ok (s', n) → Str_wf s' ∧ data_ s' = data_ s +:+ d ∧ n = Str_Len s') ∧
  (∀ d s' t, Str_IncrBy s d = Ok (s', t) → Str_wf s' ∧ (t = "" ∨ data_ s' = t)) ∧
  (∀ d s' t, Str_DecrBy s d = Ok (s', t) → Str_wf s').
Proof.
  intros Hs. split_and!.
  - intros d. apply Str_new_wf.
  - intros d s' n Ha. split; [by eapply Str_Append_wf|]. unfold Str_Append in Ha. by inv_exec.
  - intros d s' t Hi. split; [by eapply Str_IncrBy_wf|]. unfold Str_IncrBy in Hi. inv_exec; auto.
  - intros d s' t Hi. unfold Str_DecrBy in Hi. inv_exec. by eapply Str_IncrBy_wf.
Qed.

Lemma Str_operations_wf_witness : Str_wf (Str_Set (Str_new "7") "x").
Proof. apply (Str_operations_wf (Str_new "7")), Str_new_wf. Defined.

End StrObj.
Export StrObj.
