(* ===== verification/Containers.v ===== *)
(** * Containers of the standard library

    The hash tables ([Unordered]) and the ordered containers ([Ordered]) that the objects use. *)

From stdpp Require Import base gmap list strings fin_maps sorting sets.
From Stdlib Require Import ZArith Lia.
From S2P Require Import Prelude.

(** * std::unordered_map and std::unordered_set keyed by a text

    The program iterates its hash containers, so their iteration order is visible:
    in answers, in RDB images and in SPOP.  A container is the list of its elements
    in iteration order.  Where an insertion puts a new element (and how it may
    rearrange the others) depends on the hash function and on rehashing; it is the
    interface [HashOrder], and every theorem holds for each of its implementations.
    [tbl_map] is the finite map a container stands for; the lemmas show that each
    operation refines the operation of that name on the map.

    [key] projects the text that hashing and equality look at. *)

Class HashOrder := {
  place : ∀ {E : Type}, (E → string) → E → list E → list E;
  place_perm : ∀ E (key : E → string) e l, place key e l ≡ₚ e :: l;
}.

(** One admissible order: a new element comes first. *)
Definition front_order : HashOrder :=
  {| place E key e l := e :: l; place_perm E key e l := reflexivity _ |}.

Module Unordered.

Section Table.
Context {E : Type} (key : E → string).

(** [find(k)]. *)
Fixpoint tbl_find (k : string) (l : list E) : option E :=
  match l with
  | [] => None
  | e :: l => if decide (key e = k) then Some e else tbl_find k l
  end.

(** [insert(e)]: no effect when the key is present. *)
Definition tbl_insert `{HashOrder} (e : E) (l : list E) : list E * bool :=
  match tbl_find (key e) l with
  | Some _ => (l, false)
  | None => (place key e l, true)
  end.

(** [erase(it)] and [erase(k)] keep the order of the other elements. *)
Definition tbl_erase (k : string) (l : list E) : list E := filter (λ e, key e ≠ k) l.

(** An assignment through the iterator of the element with key [k]. *)
Definition tbl_update (k : string) (f : E → E) (l : list E) : list E :=
  (λ e, if decide (key e = k) then f e else e) <$> l.

(** Keys are distinct. *)
Definition tbl_wf (l : list E) : Prop := NoDup (key <$> l).

(** The finite map of a container. *)
Definition tbl_map (l : list E) : gmap string E := list_to_map ((λ e, (key e, e)) <$> l).

Lemma tbl_find_Some k l e : tbl_find k l = Some e → e ∈ l ∧ key e = k.
Proof.
  induction l as [|x l IH]; simpl; [done|]. case_decide; intros; simplify_eq; set_solver.
Qed.

Lemma tbl_find_None k l : tbl_find k l = None ↔ k ∉ key <$> l.
Proof.
  induction l as [|x l IH]; simpl; [set_solver|]. case_decide; set_solver.
Qed.

Lemma tbl_map_find k l : tbl_map l !! k = tbl_find k l.
Proof.
  unfold tbl_map. induction l as [|x l IH]; simpl; [apply lookup_empty|].
  case_decide; subst; [by rewrite lookup_insert_eq|by rewrite lookup_insert_ne].
Qed.

Lemma tbl_find_elem l e : tbl_wf l → e ∈ l → tbl_find (key e) l = Some e.
Proof.
  unfold tbl_wf. induction l as [|x l IH]; simpl; [set_solver|].
  rewrite NoDup_cons. intros [Hx Hl] [->|He]%elem_of_cons; [by rewrite decide_True|].
  case_decide as Hk; [|auto]. exfalso. apply Hx. rewrite Hk. by apply list_elem_of_fmap_2.
Qed.

(** Two containers with the same elements, in whatever order, are the same map. *)
Lemma tbl_find_perm k l1 l2 : tbl_wf l1 → l1 ≡ₚ l2 → tbl_find k l1 = tbl_find k l2.
Proof.
  intros Hwf Hp. rewrite <-!tbl_map_find. unfold tbl_map. f_equal.
  apply list_to_map_proper; [|by rewrite Hp].
  rewrite <-list_fmap_compose. exact Hwf.
Qed.

Lemma tbl_map_perm l1 l2 : tbl_wf l1 → l1 ≡ₚ l2 → tbl_map l1 = tbl_map l2.
Proof. intros. apply map_eq. intros k. rewrite !tbl_map_find. by apply tbl_find_perm. Qed.

Lemma tbl_wf_perm l1 l2 : l1 ≡ₚ l2 → tbl_wf l1 → tbl_wf l2.
Proof. unfold tbl_wf. by intros ->. Qed.

Lemma tbl_map_size l : tbl_wf l → size (tbl_map l) = length l.
Proof.
  intros Hwf. unfold tbl_map. rewrite <-length_map_to_list, map_to_list_to_map.
  - by rewrite length_fmap.
  - rewrite <-list_fmap_compose. exact Hwf.
Qed.

Section Insert.
Context `{HashOrder}.

Lemma tbl_insert_wf e l : tbl_wf l → tbl_wf (tbl_insert e l).1.
Proof.
  intros Hl. unfold tbl_insert. destruct (tbl_find (key e) l) eqn:Hf; [done|].
  simpl. eapply tbl_wf_perm; [symmetry; apply place_perm|].
  apply NoDup_cons. split; [by apply tbl_find_None|done].
Qed.

Lemma tbl_insert_perm e l : tbl_find (key e) l = None → (tbl_insert e l).1 ≡ₚ e :: l.
Proof. intros Hf. unfold tbl_insert. rewrite Hf. apply place_perm. Qed.

(** Insertion is the insertion of the map, and reports whether the key was new. *)
Lemma tbl_insert_map e l :
  tbl_wf l →
  tbl_map (tbl_insert e l).1 = (match tbl_find (key e) l with
                                | Some _ => tbl_map l
                                | None => <[key e := e]> (tbl_map l) end) ∧
  (tbl_insert e l).2 = bool_decide (tbl_find (key e) l = None).
Proof.
  intros Hl. unfold tbl_insert. destruct (tbl_find (key e) l) eqn:Hf; simpl.
  - done.
  - split; [|done].
    rewrite <-(tbl_map_perm (e :: l)); [done| |symmetry; apply place_perm].
    apply NoDup_cons. split; [by apply tbl_find_None|done].
Qed.

Lemma tbl_insert_find e l k :
  tbl_wf l →
  tbl_find k (tbl_insert e l).1
  = (if decide (key e = k) then Some (default e (tbl_find k l)) else tbl_find k l).
Proof.
  intros Hl. rewrite <-tbl_map_find. destruct (tbl_insert_map e l Hl) as [-> _].
  case_decide as Hk.
  - subst k. destruct (tbl_find (key e) l) eqn:Hf; simpl; [by rewrite tbl_map_find|].
    by rewrite lookup_insert_eq.
  - destruct (tbl_find (key e) l); rewrite ?lookup_insert_ne, tbl_map_find by done; done.
Qed.
End Insert.

Lemma tbl_erase_wf k l : tbl_wf l → tbl_wf (tbl_erase k l).
Proof. unfold tbl_wf, tbl_erase. apply NoDup_fmap_filter. Qed.

Lemma tbl_erase_find k k' l :
  tbl_find k' (tbl_erase k l) = if decide (k = k') then None else tbl_find k' l.
Proof.
  unfold tbl_erase. induction l as [|x l IH]; [simpl; by case_decide|].
  rewrite filter_cons. simpl. repeat case_decide; simpl; repeat case_decide; congruence.
Qed.

Lemma tbl_erase_map k l : tbl_map (tbl_erase k l) = delete k (tbl_map l).
Proof.
  apply map_eq. intros k'. rewrite tbl_map_find, tbl_erase_find, lookup_delete, tbl_map_find. done.
Qed.

Lemma tbl_erase_absent k l : tbl_find k l = None → tbl_erase k l = l.
Proof.
  unfold tbl_erase. induction l as [|x l IH]; [done|]. simpl.
  case_decide as Hk; [done|]. intros Hf. rewrite filter_cons. rewrite decide_True by done.
  f_equal. auto.
Qed.

Lemma tbl_erase_length k l e :
  tbl_wf l → tbl_find k l = Some e → S (length (tbl_erase k l)) = length l.
Proof.
  intros Hl Hf. rewrite <-(tbl_map_size l), <-tbl_map_size by auto using tbl_erase_wf.
  rewrite tbl_erase_map. assert (tbl_map l !! k = Some e) as Hk by (by rewrite tbl_map_find).
  rewrite <-(insert_delete_id (tbl_map l) k e Hk) at 2.
  by rewrite map_size_insert_None by apply lookup_delete_eq.
Qed.

Lemma tbl_update_find k f l k' :
  (∀ e, key (f e) = key e) →
  tbl_find k' (tbl_update k f l) = (if decide (k = k') then f <$> tbl_find k' l else tbl_find k' l).
Proof.
  intros Hf. unfold tbl_update. induction l as [|x l IH]; [simpl; by case_decide|].
  rewrite fmap_cons. cbn [tbl_find].
  destruct (decide (key x = k)); rewrite ?Hf; destruct (decide (key x = k')); rewrite ?IH;
    case_decide; simpl; congruence.
Qed.

Lemma tbl_update_keys k f l : (∀ e, key (f e) = key e) → key <$> tbl_update k f l = key <$> l.
Proof.
  intros Hf. unfold tbl_update. rewrite <-list_fmap_compose. apply list_fmap_ext.
  intros i x _. simpl. case_decide; auto.
Qed.

Lemma tbl_update_wf k f l : (∀ e, key (f e) = key e) → tbl_wf l → tbl_wf (tbl_update k f l).
Proof. intros Hf. unfold tbl_wf. by rewrite tbl_update_keys. Qed.

Lemma tbl_update_map k f l e :
  (∀ e, key (f e) = key e) → tbl_find k l = Some e →
  tbl_map (tbl_update k f l) = <[k := f e]> (tbl_map l).
Proof.
  intros Hf He. apply map_eq. intros k'. rewrite tbl_map_find, tbl_update_find by done.
  rewrite lookup_insert, tbl_map_find. case_decide; [|done]. subst. by rewrite He.
Qed.

End Table.

End Unordered.
Export Unordered.

(** * std::map and std::multimap as sorted lists

    The ordered containers of the sorted set: an element is inserted before the first
    one that comes after it, the bounds are the lengths of prefixes, a range is a slice. *)

Module Ordered.

Section Ordered.
Context {A : Type}.

(** Inserts [x] before the first element that satisfies [after]. *)
Fixpoint ordered_insert (after : A → bool) (x : A) (l : list A) : list A :=
  match l with
  | [] => [x]
  | y :: l => if after y then x :: y :: l else y :: ordered_insert after x l
  end.

(** The number of leading elements that satisfy [p]: with [p] "smaller than the
    key" this is [lower_bound], with "not greater" it is [upper_bound]. *)
Fixpoint prefix_len (p : A → bool) (l : list A) : nat :=
  match l with
  | [] => 0
  | y :: l => if p y then S (prefix_len p l) else 0
  end.

(** The elements from iterator [i] to iterator [j]. *)
Definition slice (i j : nat) (l : list A) : list A := take (j - i) (drop i l).

Lemma ordered_insert_perm after x l : ordered_insert after x l ≡ₚ x :: l.
Proof.
  induction l as [|y l IH]; simpl; [done|]. destruct (after y); [done|].
  rewrite IH. by constructor.
Qed.

Lemma ordered_insert_sorted (R : relation A) `{!Transitive R} after x l :
  (∀ y, after y = true → R x y) → (∀ y, after y = false → R y x) →
  StronglySorted R l → StronglySorted R (ordered_insert after x l).
Proof.
  intros H1 H2. induction 1 as [|y l Hl IH Hy]; simpl; [by repeat constructor|].
  destruct (after y) eqn:E.
  - constructor; [by constructor|]. constructor; [auto|].
    eapply Forall_impl; [exact Hy|]. intros z Hz. etrans; [apply H1|]; eauto.
  - constructor; [done|]. rewrite ordered_insert_perm. constructor; auto.
Qed.

Lemma prefix_len_le p l : prefix_len p l ≤ length l.
Proof. induction l as [|y l IH]; simpl; [lia|]. destruct (p y); lia. Qed.

(** On a sorted list a test that only turns false once cuts the list in two. *)
Lemma prefix_len_filter (R : relation A) (p : A → bool) l :
  (∀ x y, R x y → p y = true → p x = true) → StronglySorted R l →
  take (prefix_len p l) l = filter (λ x, p x = true) l ∧
  drop (prefix_len p l) l = filter (λ x, p x = false) l.
Proof.
  intros Hp. induction 1 as [|y l Hl [IH1 IH2] Hy]; simpl; [done|].
  rewrite !filter_cons. destruct (p y) eqn:E.
  - rewrite decide_True, decide_False by congruence. simpl. split; [by f_equal|done].
  - rewrite decide_False, decide_True by congruence. simpl.
    assert (Forall (λ x, p x = false) l) as Hf.
    { eapply Forall_impl; [exact Hy|]. intros x Hx. destruct (p x) eqn:Ex; [|done].
      rewrite (Hp y x) in E by done. done. }
    clear -Hf. split.
    + symmetry. induction Hf as [|x l Hx Hl IH]; [done|].
      by rewrite filter_cons, decide_False by congruence.
    + f_equal. symmetry. induction Hf as [|x l Hx Hl IH]; [done|].
      rewrite filter_cons, decide_True by done. by f_equal.
Qed.

Lemma StronglySorted_filter (R : relation A) (P : A → Prop) `{∀ x, Decision (P x)} l :
  StronglySorted R l → StronglySorted R (filter P l).
Proof.
  induction 1 as [|y l Hl IH Hy]; [constructor|]. rewrite filter_cons. case_decide; [|done].
  constructor; [done|]. by apply Forall_filter_keep.
Qed.

(** The slice between two bounds holds exactly the elements between them. *)
Lemma slice_filter (R : relation A) (p q : A → bool) l :
  (∀ x y, R x y → p y = true → p x = true) → (∀ x y, R x y → q y = true → q x = true) →
  (∀ x, p x = true → q x = true) → StronglySorted R l →
  slice (prefix_len p l) (prefix_len q l) l = filter (λ x, p x = false ∧ q x = true) l.
Proof.
  intros Hp Hq Hpq Hs. unfold slice. rewrite take_drop_commute.
  assert (prefix_len p l ≤ prefix_len q l) as Hle.
  { clear -Hpq. induction l as [|y l IH]; simpl; [lia|].
    destruct (p y) eqn:E; [rewrite (Hpq _ E); lia|lia]. }
  replace (prefix_len p l + (prefix_len q l - prefix_len p l)) with (prefix_len q l) by lia.
  destruct (prefix_len_filter R q l Hq Hs) as [Hq1 _]. rewrite Hq1.
  assert (prefix_len p l = prefix_len p (filter (λ x, q x = true) l)) as ->.
  { clear -Hpq Hq Hs. induction Hs as [|y l Hl IH Hy]; [done|]. rewrite filter_cons. simpl.
    destruct (p y) eqn:E.
    - rewrite decide_True by auto. simpl. rewrite E. by f_equal.
    - case_decide; [simpl; by rewrite E|]. symmetry.
      destruct (filter (λ x, q x = true) l) as [|z k] eqn:Ef; [done|].
      assert (z ∈ filter (λ x, q x = true) l) as Hz by (rewrite Ef; set_solver).
      apply list_elem_of_filter in Hz as [Hqz Hz]. rewrite Forall_forall in Hy.
      rewrite (Hq y z) in H by auto. done. }
  destruct (prefix_len_filter R p (filter (λ x, q x = true) l) Hp) as [_ ->].
  { by apply StronglySorted_filter. }
  rewrite list_filter_filter. apply list_filter_iff. naive_solver.
Qed.

End Ordered.

End Ordered.
Export Ordered.
