(* ===== verification/ListObj.v ===== *)
(** * objects/list.h, objects/list.cc: the list object

    A [List] is a std::list of strings.  Indices are [int]s that [legalRange]
    brings into the list: positions may be counted from the end. *)

From stdpp Require Import base list strings.
From Stdlib Require Import Ascii ZArith Lia.
From S2P Require Import Prelude CInt Util Object StrObj.
Local Open Scope Z_scope.

Module ListObj.

(** [data_list_]. *)
Abbreviation List := (list Str).

Definition List_empty : List := [].

Definition List_GetObjectType (l : List) : ObjectType := LIST.

Definition List_PushFront (l : List) (str : Str) : List * Z :=
  (str :: l, Z.of_nat (length (str :: l))).
Definition List_PushBack (l : List) (str : Str) : List * Z :=
  (l ++ [str], Z.of_nat (length (l ++ [str]))).

Definition List_PopFront (l : List) : List * Str :=
  match l with
  | [] => ([], Str_default)
  | s :: l => (l, s)
  end.
Definition List_PopBack (l : List) : List * Str :=
  match last l with
  | None => ([], Str_default)
  | Some s => (take (length l - 1) l, s)
  end.

Definition List_Len (l : List) : Z := Z.of_nat (length l).

(** The lambda of [Index], [Trim], [Set] and of [ZSet::Range].  The sum is
    computed in [size_t] and stored back into the [int] [r]. *)
Definition legalRange (size r : Z) : result Z :=
  if 0 <=? r then Ok (to_size r mod size)
  else
    _r ← int_neg r;
    let r := to_int (to_size r + (to_size _r / size + 1) * size) in
    Ok (to_size r).

(** Dereferencing the iterator [begin() + idx]. *)
Definition list_deref {A} (l : list A) (idx : Z) : result A :=
  if idx <? 0 then Err Undefined else vec_at l (Z.to_nat idx).

Definition List_Index (l : List) (idx : Z) : result Str :=
  match l with
  | [] => Ok Str_default
  | _ =>
      idx ← legalRange (Z.of_nat (length l)) idx;
      list_deref l (to_int idx)
  end.

(** [erase(beg, ed)] for the iterators at [begin] and [end + 1]; an iterator
    beyond [end()] is undefined behaviour. *)
Definition List_Trim (l : List) (begin_ end_ : Z) : result (List * bool) :=
  match l with
  | [] => Ok (l, false)
  | _ =>
      begin_ ← legalRange (Z.of_nat (length l)) begin_;
      end_ ← legalRange (Z.of_nat (length l)) end_;
      let begin_ := to_int begin_ in
      let end_ := to_int end_ in
      if end_ <? begin_ then Ok (l, false)
      else if (begin_ <? 0) || (Z.of_nat (length l) <? end_ + 1) then Err Undefined
      else Ok (take (Z.to_nat begin_) l ++ drop (Z.to_nat (end_ + 1)) l, true)
  end.

Definition List_Set (l : List) (index : Z) (value : Str) : result (List * bool) :=
  match l with
  | [] => Ok (l, false)
  | _ =>
      index ← legalRange (Z.of_nat (length l)) index;
      let index := to_int index in
      _ ← list_deref l index;
      Ok (<[Z.to_nat index := value]> l, true)
  end.

(** The loop of [Rem] from the front: [pre] are the elements before [beg], in
    reverse, [suf] those from [beg] on, so that [next] is the second of [suf]. *)
Fixpoint rem_forward (value : Str) (n : Z) (pre suf : List) : result List :=
  if n =? 0 then Ok (rev pre ++ suf)
  else
    match suf with
    | [] => Err Undefined
    | x :: suf =>
        if String.eqb (data_ x) (data_ value) then
          match suf with
          | [] => Ok (rev pre)
          | _ => rem_forward value (n - 1) pre suf
          end
        else rem_forward value n (x :: pre) suf
    end.

(** The loop from the back: [pre] are the elements before [beg], in reverse, and
    [suf] those after it; at the first element [next] stays on [beg]. *)
Fixpoint rem_backward (value : Str) (n : Z) (pre : List) (x : Str) (suf : List) : result List :=
  if n =? 0 then Ok (rev pre ++ x :: suf)
  else
    if String.eqb (data_ x) (data_ value) then
      match pre with
      | [] => Ok suf
      | y :: pre => rem_backward value (n - 1) pre y suf
      end
    else
      match pre with
      | [] => Err Diverge
      | y :: pre => rem_backward value n pre y (x :: suf)
      end.

Definition count_value (value : Str) (l : List) : nat :=
  length (filter (λ x, data_ x = data_ value) l).

(** [List::Rem]; the test [!cnt == 0] compares the negation of [cnt] with 0. *)
Definition List_Rem (l : List) (count : Z) (value : Str) : result (List * Z) :=
  match rev l with
  | [] => Ok (l, 0)
  | x :: pre =>
      abs ← (if count <? 0 then int_neg count else Ok (to_size count));
      let cnt := Z.of_nat (count_value value l) in
      if Z.b2z (cnt =? 0) =? 0 then Ok (l, 0)
      else
        let cnt := if abs <? cnt then abs else cnt in
        l' ← (if 0 <? count then rem_forward value cnt [] l
              else rem_backward value cnt pre x []);
        Ok (l', cnt)
  end.

(** [List::Fork]. *)
Definition List_Fork (l : List) (key : string) : string :=
  fold_left (λ ret s, ret +:+ (Str_GetRaw s +:+ " ")) l ("LPUSHB " +:+ key +:+ " ").

Section Codec.
Context `{Compressor}.

Definition List_EncodeValue (compress : bool) (l : List) : result bytes :=
  body ← concatM (Str_EncodeValue compress) l;
  Ok (BitsToString sizeof_size_t (Z.of_nat (length l)) ++ body).

Definition List_DecodeValue (source : bytes) : result (List * bytes) :=
  '(len, source) ← PeekSize source;
  decode_loop Str_DecodeValue (λ l s, l ++ [s]) (Z.to_nat len) [] source.

End Codec.

(** ** Positions *)

(** Where an index lands: counted modulo the size, except that a negative multiple
    of the size lands one past the last element. *)
Definition position (size r : Z) : Z :=
  if 0 <=? r then r mod size
  else if r mod size =? 0 then size else r mod size.

Lemma legalRange_spec size r :
  0 < size ≤ INT_MAX → INT_MIN < r ≤ INT_MAX →
  legalRange size r = Ok (position size r).
Proof.
  unfold legalRange, position, INT_MIN, INT_MAX. intros Hs Hr. destruct (Z.leb_spec 0 r).
  - rewrite to_size_id by (unfold is_size, SIZE_MAX; lia). done.
  - unfold int_neg. rewrite int_check_is by (unfold is_int, INT_MIN, INT_MAX; lia).
    cbn [mbind result_bind]. f_equal.
    rewrite (to_size_id (- r)) by (unfold is_size, SIZE_MAX; lia).
    assert (r = - (size * (- r / size) + (- r) mod size)) as Hdm.
    { pose proof (Z.div_mod (- r) size). lia. }
    pose proof (Z.mod_pos_bound (- r) size ltac:(lia)).
    assert (r mod size = if (- r) mod size =? 0 then 0 else size - (- r) mod size) as Hm.
    { destruct (Z.eqb_spec ((- r) mod size) 0) as [E|E].
      - apply Z.mod_opp_l_z in E; [|lia]. by rewrite Z.opp_involutive in E.
      - rewrite <-(Z.opp_involutive r) at 1. rewrite Z.mod_opp_l_nz; lia. }
    set (t := (- r) mod size) in *. set (q := - r / size) in *.
    assert (to_int (to_size r + (q + 1) * size) = size - t) as ->.
    { unfold to_int, to_signed, to_size.
      replace ((r mod 2 ^ 64 + (q + 1) * size + 2 ^ (32 - 1)) mod 2 ^ 32)
        with ((r + (q + 1) * size + 2 ^ (32 - 1)) mod 2 ^ 32).
      - replace (r + (q + 1) * size) with (size - t) by nia.
        change (2 ^ (32 - 1)) with 2147483648. change (2 ^ 32) with 4294967296.
        rewrite Z.mod_small by lia. lia.
      - rewrite <-!Z.add_assoc, Z.add_mod, (Z.add_mod (r mod 2 ^ 64)) by lia. f_equal. f_equal.
        change (2 ^ 64) with (2 ^ 32 * 2 ^ 32). rewrite Z.rem_mul_r by lia.
        rewrite Z.mul_comm, Z.mod_add by lia. by rewrite Z.mod_mod by lia. }
    rewrite to_size_id by (unfold is_size, SIZE_MAX; lia).
    rewrite Hm. destruct (Z.eqb_spec t 0); [rewrite Z.eqb_refl; lia|].
    destruct (Z.eqb_spec (size - t) 0); lia.
Qed.

Lemma position_range size r : 0 < size → 0 ≤ position size r ≤ size.
Proof.
  intros. unfold position. pose proof (Z.mod_pos_bound r size ltac:(lia)).
  repeat case_match; lia.
Qed.

(** An index is outside the list exactly when it is a negative multiple of the size. *)
Lemma position_end size r :
  0 < size → position size r = size ↔ (r < 0 ∧ r mod size = 0).
Proof.
  intros. unfold position. pose proof (Z.mod_pos_bound r size ltac:(lia)).
  destruct (Z.leb_spec 0 r); [lia|]. destruct (Z.eqb_spec (r mod size) 0); lia.
Qed.

(** The size of a list a server can hold. *)
Definition List_fits (l : List) : Prop := Z.of_nat (length l) ≤ INT_MAX.

Lemma list_deref_Some {A} (l : list A) i x :
  l !! Z.to_nat i = Some x → 0 ≤ i → list_deref l i = Ok x.
Proof. intros Hx Hi. unfold list_deref. destruct (Z.ltb_spec i 0); [lia|]. by apply vec_at_Ok. Qed.

Lemma list_deref_end {A} (l : list A) i : Z.of_nat (length l) ≤ i → list_deref l i = Err Undefined.
Proof.
  intros Hi. unfold list_deref, vec_at. destruct (Z.ltb_spec i 0); [done|].
  by rewrite lookup_ge_None_2 by lia.
Qed.

Lemma List_Index_position l idx :
  l ≠ [] → List_fits l → INT_MIN < idx ≤ INT_MAX →
  List_Index l idx = list_deref l (position (Z.of_nat (length l)) idx).
Proof.
  intros Hne Hf Hi. unfold List_Index. destruct l as [|x l]; [done|].
  rewrite legalRange_spec by (unfold List_fits in *; simpl in *; lia). cbn [mbind result_bind].
  pose proof (position_range (Z.of_nat (length (x :: l))) idx ltac:(simpl; lia)).
  rewrite to_int_id; [done|]. unfold is_int, List_fits, INT_MIN in *. lia.
Qed.

(** ** Encoding *)

(** [List::DecodeValue] after [List::EncodeValue]: every element as reloaded. *)
Lemma List_decode_encode `{CompressorLaws} compress l b rest :
  Forall Str_wf l → Forall Str_fits l → is_size (Z.of_nat (length l)) →
  List_EncodeValue compress l = Ok b →
  ∃ l', Forall2 (λ s s', Str_reload s = Ok s') l l' ∧ List_DecodeValue (b ++ rest) = Ok (l', rest).
Proof.
  intros Hwf Hfit Hsz Henc. unfold List_EncodeValue in Henc. inv_bind.
  unfold List_DecodeValue. rewrite <-app_assoc, PeekSize_Bits by done. cbn [mbind result_bind].
  rewrite Nat2Z.id.
  edestruct (decode_loop_concatM (Str_EncodeValue compress) Str_DecodeValue (λ l s, l ++ [s])
    (λ s s', Str_reload s = Ok s') l a rest []) as (l' & Hl' & ->); [|done|].
  - intros x b rest' Hx Hb. eapply Str_decode_encode; [..|done].
    + by eapply Forall_forall in Hwf.
    + by eapply Forall_forall in Hfit.
  - exists l'. split; [done|]. by rewrite fold_left_snoc.
Qed.

(** The image carries the number of elements as a [size_t]. *)
Definition image_size {A} (l : list A) : Prop := is_size (Z.of_nat (length l)).

Lemma List_stable_survives `{CompressorLaws} compress l :
  image_size l → Forall Str_stable l → survives (List_EncodeValue compress) List_DecodeValue l l.
Proof.
  intros Hsz Hl. rewrite Forall_forall in Hl.
  destruct (decode_loop_survives (Str_EncodeValue compress) Str_DecodeValue
    (λ (l : List) s, l ++ [s]) (λ s, s) l) as (b & Hb & Hd).
  { intros x Hx. apply Str_stable_survives; auto. }
  unfold survives, List_EncodeValue, List_DecodeValue. rewrite Hb. eexists. split; [done|]. intros rest.
  rewrite <-app_assoc, PeekSize_Bits by done. cbn [mbind result_bind].
  by rewrite Nat2Z.id, Hd, list_fmap_id, fold_left_snoc.
Qed.

(** ** Properties *)

(** The absolute value of the count, when it is an [int], plays no role. *)
Lemma List_Rem_keeps l count value abs :
  (if count <? 0 then int_neg count else Ok (to_size count)) = Ok abs → List_Rem l count value = Ok (l, 0).
Proof.
  intros Habs. unfold List_Rem. destruct (rev l) as [|x pre] eqn:Hl; [done|].
  assert (0 ≤ abs) as Hpos.
  { destruct (Z.ltb_spec count 0).
    - unfold int_neg in Habs. apply int_check_Ok in Habs as [-> _]. lia.
    - injection Habs as <-. unfold to_size. apply Z.mod_pos_bound. lia. }
  rewrite Habs. cbn [mbind result_bind]. destruct (Z.eqb_spec (Z.of_nat (count_value value l)) 0) as [->|]; [|done]. simpl.
  destruct (Z.ltb_spec abs 0); [lia|].
  assert (rev pre ++ [x] = l) as Hx by (rewrite <-(rev_involutive l), Hl; done).
  destruct (0 <? count); [by destruct l|]. destruct pre; cbn; by rewrite <-Hx.
Qed.

Lemma List_Rem_Ok l count value r : List_Rem l count value = Ok r → r = (l, 0).
Proof.
  intros Hr. destruct (if count <? 0 then int_neg count else Ok (to_size count)) as [abs|e] eqn:Habs.
  - rewrite (List_Rem_keeps _ _ _ abs) in Hr by done. congruence.
  - unfold List_Rem in Hr. rewrite Habs in Hr. destruct (rev l); [congruence|done].
Qed.

(** LREM removes nothing and answers 0, whatever the list, the count and the value:
    the guard of [List::Rem] compares [!cnt] with 0 and leaves when an element is
    equal to the value. *)
Theorem List_Rem_removes_nothing l count value : INT_MIN < count ≤ INT_MAX → List_Rem l count value = Ok (l, 0).
Proof.
  intros Hc. destruct (Z.ltb_spec count 0) as [Hn|Hn].
  - apply (List_Rem_keeps _ _ _ (- count)). destruct (Z.ltb_spec count 0); [|lia]. unfold int_neg.
    apply int_check_is. unfold is_int, INT_MIN, INT_MAX in *. lia.
  - apply (List_Rem_keeps _ _ _ (to_size count)). by destruct (Z.ltb_spec count 0); [lia|].
Qed.

Lemma List_Rem_removes_nothing_witness :
  List_Rem [Str_new "a"; Str_new "b"; Str_new "a"] 1 (Str_new "a") = Ok ([Str_new "a"; Str_new "b"; Str_new "a"], 0).
Proof. apply List_Rem_removes_nothing. split; [reflexivity|done]. Defined.

(** Both operations in terms of the position. *)
Lemma List_positions l idx :
  l ≠ [] → List_fits l → INT_MIN < idx ≤ INT_MAX →
  let p := position (Z.of_nat (length l)) idx in
  List_Index l idx = list_deref l p ∧
  ∀ v, List_Set l idx v = (_ ← list_deref l p; Ok (<[Z.to_nat p := v]> l, true)).
Proof.
  intros Hne Hf Hi. cbv zeta. split; [by apply List_Index_position|]. intros v. unfold List_Set.
  assert (0 < Z.of_nat (length l)) as Hn by (destruct l; simpl; [done|lia]).
  pose proof (position_range _ idx Hn). unfold List_fits in Hf.
  destruct l as [|x l]; [done|]. rewrite legalRange_spec by lia. cbn [mbind result_bind].
  by rewrite to_int_id by (unfold is_int, INT_MIN in *; lia).
Qed.

Lemma List_past_end l idx :
  l ≠ [] → List_fits l → INT_MIN < idx ≤ INT_MAX → idx < 0 ∧ idx mod Z.of_nat (length l) = 0 →
  List_Index l idx = Err Undefined ∧ ∀ v, List_Set l idx v = Err Undefined.
Proof.
  intros Hne Hf Hi Hd. destruct (List_positions l idx) as [-> Hset]; [done..|].
  apply position_end in Hd as Hp; [|destruct l; simpl; [done|lia]].
  rewrite list_deref_end by lia. split; [done|]. intros v. by rewrite Hset, list_deref_end by lia.
Qed.

Lemma List_lands l idx :
  l ≠ [] → List_fits l → INT_MIN < idx ≤ INT_MAX → ¬ (idx < 0 ∧ idx mod Z.of_nat (length l) = 0) →
  ∃ x, l !! Z.to_nat (idx mod Z.of_nat (length l)) = Some x ∧ List_Index l idx = Ok x ∧
       ∀ v, List_Set l idx v = Ok (<[Z.to_nat (idx mod Z.of_nat (length l)) := v]> l, true).
Proof.
  intros Hne Hf Hi Hd. destruct (List_positions l idx) as [-> Hset]; [done..|].
  set (n := Z.of_nat (length l)) in *. assert (0 < n) as Hn by (unfold n; destruct l; simpl; [done|lia]).
  assert (position n idx = idx mod n) as Hp.
  { unfold position. destruct (Z.leb_spec 0 idx); [done|]. destruct (Z.eqb_spec (idx mod n) 0); [|done]. by destruct Hd. }
  pose proof (Z.mod_pos_bound idx n Hn). rewrite Hp in *.
  destruct (lookup_lt_is_Some_2 l (Z.to_nat (idx mod n))) as [x Hx]; [unfold n in *; lia|].
  exists x. rewrite (list_deref_Some _ _ x) by (done || lia). split_and!; [done..|].
  intros v. rewrite Hset, (list_deref_Some _ _ x) by (done || lia). done.
Qed.

(** LINDEX and LSET on a list of [n] elements reach the element at the index modulo
    [n], counting from the end for a negative index; a negative multiple of [n] reaches
    one past the last element, which is undefined behaviour. *)
Theorem List_Index_Set_position l idx :
  l ≠ [] → List_fits l → INT_MIN < idx ≤ INT_MAX →
  let n := Z.of_nat (length l) in
  if decide (idx < 0 ∧ idx mod n = 0)
  then List_Index l idx = Err Undefined ∧ ∀ v, List_Set l idx v = Err Undefined
  else ∃ x, l !! Z.to_nat (idx mod n) = Some x ∧ List_Index l idx = Ok x ∧
            ∀ v, List_Set l idx v = Ok (<[Z.to_nat (idx mod n) := v]> l, true).
Proof. intros Hne Hf Hi n. case_decide; [by apply List_past_end|by apply List_lands]. Qed.

Lemma List_Index_Set_position_witness :
  (∃ x, [Str_new "a"; Str_new "b"] !! 1%nat = Some x ∧ List_Index [Str_new "a"; Str_new "b"] (-1) = Ok x ∧
        ∀ v, List_Set [Str_new "a"; Str_new "b"] (-1) v = Ok ([Str_new "a"; v], true)) ∧
  List_Index [Str_new "a"; Str_new "b"] (-2) = Err Undefined.
Proof.
  split.
  - apply (List_Index_Set_position [Str_new "a"; Str_new "b"] (-1)); done.
  - apply (List_Index_Set_position [Str_new "a"; Str_new "b"] (-2)); done.
Defined.

(** LTRIM takes the elements between the two positions out of the list and keeps
    the others; it refuses positions in the wrong order. *)
Lemma List_Trim_positions l b e :
  l ≠ [] → List_fits l → Z.of_nat (length l) < INT_MAX → INT_MIN < b ≤ INT_MAX → INT_MIN < e ≤ INT_MAX →
  let n := Z.of_nat (length l) in
  List_Trim l b e =
    (if position n e <? position n b then Ok (l, false)
     else if position n e =? n then Err Undefined
     else Ok (take (Z.to_nat (position n b)) l ++ drop (S (Z.to_nat (position n e))) l, true)).
Proof.
  intros Hne Hf Hlt Hb He n.
  assert (0 < n) as Hn by (unfold n; destruct l; simpl; [done|lia]).
  pose proof (position_range n b Hn). pose proof (position_range n e Hn). unfold List_fits in Hf. fold n in Hf, Hlt.
  unfold List_Trim. destruct l as [|x l]; [done|]. fold n.
  rewrite !legalRange_spec by lia. cbn [mbind result_bind].
  rewrite !to_int_id by (unfold is_int, INT_MIN, INT_MAX in *; lia).
  destruct (Z.ltb_spec (position n e) (position n b)); [done|].
  destruct (Z.ltb_spec (position n b) 0); [lia|]. simpl (false || _).
  destruct (Z.eqb_spec (position n e) n); destruct (Z.ltb_spec n (position n e + 1)); try lia; [done|].
  by replace (Z.to_nat (position n e + 1)) with (S (Z.to_nat (position n e))) by lia.
Qed.

End ListObj.
Export ListObj.
