(* ===== verification/HashObj.v ===== *)
(** * objects/hash.h, objects/hash.cc: the hash object

    A [Hash] is a std::unordered_map from strings to strings; its abstract state is
    the finite map [Hash_map] from the text of a field to its string. *)

From stdpp Require Import base gmap list strings fin_maps.
From Stdlib Require Import Ascii ZArith Lia.
From S2P Require Import Prelude CInt Util Object StrObj Containers ListObj.
Local Open Scope Z_scope.

Module HashObj.

(** [data_map_], in iteration order. *)
Abbreviation Hash := (list (Str * Str)).

(** Hashing and equality look at the text of the key ([StrHash], [operator==]). *)
Definition Hash_key (e : Str * Str) : string := data_ e.1.

Definition Hash_empty : Hash := [].
Definition Hash_GetObjectType (h : Hash) : ObjectType := HASH.

Definition Hash_Get (h : Hash) (key : Str) : Str :=
  match tbl_find Hash_key (data_ key) h with
  | None => Str_default
  | Some e => e.2
  end.

Definition Hash_Exist (h : Hash) (key : Str) : bool :=
  match tbl_find Hash_key (data_ key) h with None => false | Some _ => true end.

Definition Hash_Del (h : Hash) (key : Str) : Hash :=
  match tbl_find Hash_key (data_ key) h with
  | None => h
  | Some _ => tbl_erase Hash_key (data_ key) h
  end.

Definition Hash_Len (h : Hash) : Z := Z.of_nat (length h).

Definition Hash_GetAll (h : Hash) : list (Str * Str) := h.

Definition Hash_IncrBy (h : Hash) (key : Str) (delta : Z) : result (Hash * string) :=
  match tbl_find Hash_key (data_ key) h with
  | None => Ok (h, "")
  | Some e =>
      '(v, ret) ← Str_IncrBy e.2 delta;
      Ok (tbl_update Hash_key (data_ key) (λ e, (e.1, v)) h, ret)
  end.

Definition Hash_DecrBy (h : Hash) (key : Str) (delta : Z) : result (Hash * string) :=
  match tbl_find Hash_key (data_ key) h with
  | None => Ok (h, "")
  | Some e =>
      '(v, ret) ← Str_DecrBy e.2 delta;
      Ok (tbl_update Hash_key (data_ key) (λ e, (e.1, v)) h, ret)
  end.

Definition Hash_Set `{HashOrder} (h : Hash) (key value : Str) : Hash :=
  match tbl_find Hash_key (data_ key) h with
  | Some _ => tbl_update Hash_key (data_ key) (λ e, (e.1, value)) h
  | None => (tbl_insert Hash_key (key, value) h).1
  end.

Definition Hash_Fork (h : Hash) (key : string) : string :=
  fold_left (λ ret p, ret +:+ (Str_GetRaw p.1 +:+ " " +:+ Str_GetRaw p.2 +:+ " "))
    h ("HSET " +:+ key +:+ " ").

Section Codec.
Context `{Compressor} `{HashOrder}.

Definition entry_EncodeValue (compress : bool) (kv : Str * Str) : result bytes :=
  k ← Str_EncodeValue compress kv.1;
  v ← Str_EncodeValue compress kv.2;
  Ok (k ++ v).

Definition Hash_EncodeValue (compress : bool) (h : Hash) : result bytes :=
  body ← concatM (entry_EncodeValue compress) h;
  Ok (BitsToString sizeof_size_t (Z.of_nat (length h)) ++ body).

Definition entry_DecodeValue (source : bytes) : result ((Str * Str) * bytes) :=
  '(k, source) ← Str_DecodeValue source;
  '(v, source) ← Str_DecodeValue source;
  Ok ((k, v), source).

(** [Hash::DecodeValue] inserts into the present map, which it does not clear. *)
Definition Hash_DecodeValue (h : Hash) (source : bytes) : result (Hash * bytes) :=
  '(len, source) ← PeekSize source;
  decode_loop entry_DecodeValue (λ h e, (tbl_insert Hash_key e h).1) (Z.to_nat len) h source.

End Codec.

(** ** The map of a hash, and its operations as map operations *)

Definition Hash_map (h : Hash) : gmap string Str := snd <$> tbl_map Hash_key h.

(** Keys are distinct and the strings are well formed. *)
Definition Hash_wf (h : Hash) : Prop :=
  tbl_wf Hash_key h ∧ Forall (λ e, Str_wf e.1 ∧ Str_wf e.2) h.

Lemma Hash_map_lookup h k : Hash_map h !! k = snd <$> tbl_find Hash_key k h.
Proof. unfold Hash_map. by rewrite lookup_fmap, tbl_map_find. Qed.

Lemma Hash_Get_map h key : Hash_Get h key = default Str_default (Hash_map h !! data_ key).
Proof. unfold Hash_Get. rewrite Hash_map_lookup. by destruct (tbl_find _ _ _). Qed.

Lemma Hash_Exist_map h key : Hash_Exist h key = bool_decide (is_Some (Hash_map h !! data_ key)).
Proof.
  unfold Hash_Exist. rewrite Hash_map_lookup. by destruct (tbl_find _ _ _).
Qed.

Lemma Hash_Len_map h : Hash_wf h → Hash_Len h = Z.of_nat (size (Hash_map h)).
Proof.
  intros [Hwf _]. unfold Hash_Len, Hash_map. by rewrite map_size_fmap, tbl_map_size.
Qed.

Lemma Hash_Del_map h key : Hash_map (Hash_Del h key) = delete (data_ key) (Hash_map h).
Proof.
  unfold Hash_map, Hash_Del. rewrite <-fmap_delete, <-tbl_erase_map.
  destruct (tbl_find Hash_key (data_ key) h) eqn:Hf; [done|]. by rewrite tbl_erase_absent.
Qed.

Lemma Hash_Set_map `{HashOrder} h key value :
  Hash_wf h → Hash_map (Hash_Set h key value) = <[data_ key := value]> (Hash_map h).
Proof.
  intros [Hwf _]. unfold Hash_map, Hash_Set. destruct (tbl_find Hash_key (data_ key) h) as [e|] eqn:Hf.
  - rewrite (tbl_update_map _ _ _ _ e) by done. by rewrite fmap_insert.
  - destruct (tbl_insert_map Hash_key (key, value) h Hwf) as [-> _].
    change (Hash_key (key, value)) with (data_ key). rewrite Hf. by rewrite fmap_insert.
Qed.

Lemma Forall_tbl_update {E} (key : E → string) (P : E → Prop) k f (l : list E) :
  (∀ e, P e → P (f e)) → Forall P l → Forall P (tbl_update key k f l).
Proof.
  intros Hf Hl. unfold tbl_update. rewrite Forall_fmap. eapply Forall_impl; [done|].
  intros x Hx. simpl. case_decide; auto.
Qed.

Lemma Hash_Set_wf `{HashOrder} h key value :
  Str_wf key → Str_wf value → Hash_wf h → Hash_wf (Hash_Set h key value).
Proof.
  intros Hk Hv [Hwf Hall]. unfold Hash_Set. destruct (tbl_find _ _ _) eqn:Hf; split.
  - by apply tbl_update_wf.
  - apply Forall_tbl_update; [naive_solver|done].
  - by apply tbl_insert_wf.
  - rewrite tbl_insert_perm by done. by constructor.
Qed.

Lemma Hash_Del_wf h key : Hash_wf h → Hash_wf (Hash_Del h key).
Proof.
  intros [Hwf Hall]. unfold Hash_Del. destruct (tbl_find _ _ _); [|done]. split.
  - by apply tbl_erase_wf.
  - by apply Forall_filter_keep.
Qed.

(** The two counters change one field, to the printed sum, and answer it. *)
Lemma Hash_IncrBy_cases h key delta :
  (Hash_map h !! data_ key = None ∧ Hash_IncrBy h key delta = Ok (h, "")) ∨
  (∃ s, Hash_map h !! data_ key = Some s ∧
    match Str_IncrBy s delta with
    | Err e => Hash_IncrBy h key delta = Err e
    | Ok (s', ret) => ∃ h', Hash_IncrBy h key delta = Ok (h', ret) ∧
                            Hash_map h' = <[data_ key := s']> (Hash_map h)
    end).
Proof.
  unfold Hash_IncrBy. rewrite Hash_map_lookup.
  destruct (tbl_find Hash_key (data_ key) h) as [e|] eqn:Hf; [right|by left].
  exists e.2. split; [done|]. destruct (Str_IncrBy e.2 delta) as [[s' ret]|]; simpl; [|done].
  eexists. split; [done|]. unfold Hash_map. rewrite (tbl_update_map _ _ _ _ e) by done.
  by rewrite fmap_insert.
Qed.

Lemma Hash_IncrBy_wf h key delta h' ret :
  Hash_wf h → Hash_IncrBy h key delta = Ok (h', ret) → Hash_wf h'.
Proof.
  intros [Hwf Hall]. unfold Hash_IncrBy. destruct (tbl_find _ _ _) as [e|] eqn:Hf; [|by intros; simplify_eq].
  destruct (Str_IncrBy e.2 delta) as [[v r]|] eqn:E; simpl; [|done]. intros; simplify_eq.
  apply tbl_find_Some in Hf as [He _]. eapply Forall_forall in Hall as Hew; [|done].
  split; [by apply tbl_update_wf|]. apply Forall_tbl_update; [|done].
  intros x [Hx _]. split; [done|]. eapply Str_IncrBy_wf; [|done]. naive_solver.
Qed.

(** [Hash::DecrBy] is [Hash::IncrBy] with the opposite amount. *)
Lemma Hash_DecrBy_IncrBy h key delta :
  INT_MIN < delta ≤ INT_MAX → Hash_DecrBy h key delta = Hash_IncrBy h key (- delta).
Proof.
  intros Hd. unfold Hash_DecrBy, Hash_IncrBy, Str_DecrBy, int_neg.
  rewrite int_check_is by (unfold is_int, INT_MIN, INT_MAX in *; lia). done.
Qed.

(** ** Encoding *)

(** What one field becomes after a save and a load. *)
Definition entry_reload (e e' : Str * Str) : Prop :=
  Str_reload e.1 = Ok e'.1 ∧ Str_reload e.2 = Ok e'.2.

Lemma entry_decode_encode `{CompressorLaws} compress e b rest :
  Str_wf e.1 → Str_wf e.2 → Str_fits e.1 → Str_fits e.2 → entry_EncodeValue compress e = Ok b →
  ∃ e', entry_reload e e' ∧ entry_DecodeValue (b ++ rest) = Ok (e', rest).
Proof.
  intros H1 H2 H3 H4 He. unfold entry_EncodeValue in He. inv_bind. rewrite <-app_assoc.
  destruct (Str_decode_encode compress e.1 a (a0 ++ rest)) as (k & Hk & Hdk); [done..|].
  destruct (Str_decode_encode compress e.2 a0 rest) as (v & Hv & Hdv); [done..|].
  exists (k, v). split; [done|]. unfold entry_DecodeValue. rewrite Hdk. cbn. by rewrite Hdv.
Qed.

(** Inserting elements with distinct new keys gives the elements, in some order. *)
Lemma tbl_inserts_perm {E} (key : E → string) `{HashOrder} (l acc : list E) :
  tbl_wf key (acc ++ l) → fold_left (λ h e, (tbl_insert key e h).1) l acc ≡ₚ acc ++ l.
Proof.
  revert acc; induction l as [|e l IH]; intros acc Hwf; simpl; [by rewrite app_nil_r|].
  assert (tbl_find key (key e) acc = None) as Hf.
  { apply tbl_find_None. unfold tbl_wf in Hwf. rewrite fmap_app, NoDup_app in Hwf.
    destruct Hwf as (_ & Hd & _). intros Hin. apply (Hd _ Hin). set_solver. }
  assert ((tbl_insert key e acc).1 ≡ₚ e :: acc) as Hp by (by apply tbl_insert_perm).
  rewrite IH; [rewrite Hp; simpl; by rewrite Permutation_middle|].
  eapply tbl_wf_perm; [|exact Hwf]. rewrite Hp. simpl. by rewrite Permutation_middle.
Qed.

(** Decoding into an empty map gives the reloaded fields, in some order, provided
    no two keys reload to the same text. *)
Lemma Hash_decode_encode `{CompressorLaws} `{HashOrder} compress h b rest :
  Hash_wf h → Forall (λ e, Str_fits e.1 ∧ Str_fits e.2) h → is_size (Z.of_nat (length h)) →
  Hash_EncodeValue compress h = Ok b →
  ∃ h' h'', Forall2 entry_reload h h' ∧ Hash_DecodeValue Hash_empty (b ++ rest) = Ok (h'', rest) ∧
            (tbl_wf Hash_key h' → h'' ≡ₚ h').
Proof.
  intros [Hwf Hall] Hfit Hsz Henc. unfold Hash_EncodeValue in Henc. inv_bind.
  unfold Hash_DecodeValue. rewrite <-app_assoc, PeekSize_Bits by done. cbn [mbind result_bind].
  rewrite Nat2Z.id.
  edestruct (decode_loop_concatM (entry_EncodeValue compress) entry_DecodeValue
    (λ h e, (tbl_insert Hash_key e h).1) entry_reload h a rest Hash_empty) as (h' & Hh' & ->); [|done|].
  - intros x b rest' Hx Hb. eapply Forall_forall in Hall as [? ?]; [|done].
    eapply Forall_forall in Hfit as [? ?]; [|done]. by eapply entry_decode_encode.
  - exists h'. eexists. split_and!; [done..|]. intros Hwf'. by apply (tbl_inserts_perm Hash_key h' []).
Qed.

(** Fields and values that survive give the same map back. *)
Lemma Hash_stable_survives `{CompressorLaws} `{HashOrder} compress h :
  image_size h → tbl_wf Hash_key h → Forall (λ e, Str_stable e.1 ∧ Str_stable e.2) h →
  ∃ h', survives (Hash_EncodeValue compress) (Hash_DecodeValue Hash_empty) h h' ∧ h' ≡ₚ h.
Proof.
  intros Hsz Hwf Hh. rewrite Forall_forall in Hh.
  destruct (decode_loop_survives (entry_EncodeValue compress) entry_DecodeValue
    (λ h e, (tbl_insert Hash_key e h).1) (λ e, e) h) as (b & Hb & Hd).
  { intros [k v] [Hk Hv]%Hh. simpl in *.
    destruct (Str_stable_survives compress k Hk) as (bk & Ek & Dk).
    destruct (Str_stable_survives compress v Hv) as (bv & Ev & Dv).
    unfold survives, entry_EncodeValue, entry_DecodeValue. simpl. rewrite Ek. cbn. rewrite Ev. cbn.
    eexists. split; [done|]. intros rest. rewrite <-app_assoc, Dk. cbn. by rewrite Dv. }
  eexists. split; [|by apply (tbl_inserts_perm Hash_key h [])].
  unfold survives, Hash_EncodeValue, Hash_DecodeValue. rewrite Hb. eexists. split; [done|]. intros rest.
  rewrite <-app_assoc, PeekSize_Bits by done. cbn [mbind result_bind]. by rewrite Nat2Z.id, Hd, list_fmap_id.
Qed.

End HashObj.
Export HashObj.
