(* ===== verification/SetObj.v ===== *)
(** * objects/set.h, objects/set.cc: the set object

    A [Set] is a std::unordered_set of strings; its abstract state is the finite set
    [Set_elems] of the texts of its members. *)

From stdpp Require Import base gmap list strings fin_maps sets.
From Stdlib Require Import Ascii ZArith Lia.
From S2P Require Import Prelude CInt Util Object StrObj Containers ListObj HashObj.
Local Open Scope Z_scope.

Module SetObj.

(** [data_set_], in iteration order. *)
Abbreviation SetT := (list Str).

Definition Set_empty : SetT := [].
Definition Set_GetObjectType (s : SetT) : ObjectType := SET.

Definition Set_Add `{HashOrder} (s : SetT) (data : Str) : SetT * bool := tbl_insert data_ data s.

Definition Set_Card (s : SetT) : Z := Z.of_nat (length s).

Definition Set_IsMember (s : SetT) (m : Str) : bool :=
  match tbl_find data_ (data_ m) s with None => false | Some _ => true end.

Definition Set_Members (s : SetT) : list Str := s.

(** [rand] is the value of [std::rand()]. *)
Definition Set_RandMember (s : SetT) (rand : Z) : result Str :=
  match s with
  | [] => Ok Str_default
  | _ => vec_at s (Z.to_nat (to_size rand mod Z.of_nat (length s)))
  end.

(** [Set::Pop] erases the first element and then reads the new first one. *)
Definition Set_Pop (s : SetT) : result (SetT * Str) :=
  match s with
  | [] => Ok ([], Str_default)
  | x :: s =>
      match s with
      | [] => Err Undefined
      | y :: _ => Ok (s, y)
      end
  end.

Definition Set_Rem (s : SetT) (m : Str) : SetT * bool :=
  match tbl_find data_ (data_ m) s with
  | None => (s, false)
  | Some _ => (tbl_erase data_ (data_ m) s, true)
  end.

(** [Set::Diff] and [Set::Inter]: [pthis] and [ps] are the addresses of the sets. *)
Definition Set_Diff (pthis ps : Z) (this s : SetT) : list Str :=
  if pthis <? ps then filter (λ str, tbl_find data_ (data_ str) s = None) this
  else if ps <? pthis then filter (λ str, tbl_find data_ (data_ str) s = None) this
  else [].

Definition Set_Inter (pthis ps : Z) (this s : SetT) : list Str :=
  if pthis <? ps then filter (λ str, is_Some (tbl_find data_ (data_ str) s)) this
  else if ps <? pthis then filter (λ str, is_Some (tbl_find data_ (data_ str) s)) this
  else this.

Definition Set_Fork (s : SetT) (key : string) : string :=
  fold_left (λ ret m, ret +:+ (Str_GetRaw m +:+ " ")) s ("SADD " +:+ key +:+ " ").

Section Codec.
Context `{Compressor} `{HashOrder}.

Definition Set_EncodeValue (compress : bool) (s : SetT) : result bytes :=
  body ← concatM (Str_EncodeValue compress) s;
  Ok (BitsToString sizeof_size_t (Z.of_nat (length s)) ++ body).

(** [Set::DecodeValue] clears the set first. *)
Definition Set_DecodeValue (source : bytes) : result (SetT * bytes) :=
  '(len, source) ← PeekSize source;
  decode_loop Str_DecodeValue (λ s x, (tbl_insert data_ x s).1) (Z.to_nat len) [] source.

End Codec.

(** ** The set of texts, and the operations on it *)

Definition Set_elems (s : SetT) : gset string := list_to_set (data_ <$> s).

Definition Set_wf (s : SetT) : Prop := tbl_wf data_ s ∧ Forall Str_wf s.

Lemma Set_elems_find s k : k ∈ Set_elems s ↔ is_Some (tbl_find data_ k s).
Proof.
  unfold Set_elems. rewrite elem_of_list_to_set. destruct (tbl_find data_ k s) as [x|] eqn:Hf.
  - apply tbl_find_Some in Hf as [Hx <-]. split; [by eauto|]. intros _. by apply list_elem_of_fmap_2.
  - apply tbl_find_None in Hf. split; [done|]. by intros [? ?].
Qed.

Lemma Set_IsMember_elems s m : Set_IsMember s m = bool_decide (data_ m ∈ Set_elems s).
Proof.
  unfold Set_IsMember. destruct (tbl_find data_ (data_ m) s) eqn:Hf.
  - rewrite bool_decide_true; [done|]. apply Set_elems_find. by rewrite Hf.
  - rewrite bool_decide_false; [done|]. rewrite Set_elems_find, Hf. by intros [? ?].
Qed.

Lemma Set_Card_elems s : Set_wf s → Set_Card s = Z.of_nat (size (Set_elems s)).
Proof.
  intros [Hwf _]. unfold Set_Card, Set_elems. rewrite size_list_to_set by exact Hwf.
  by rewrite length_fmap.
Qed.

Lemma Set_elems_perm s1 s2 : s1 ≡ₚ s2 → Set_elems s1 = Set_elems s2.
Proof. unfold Set_elems. intros Hp. apply list_to_set_perm_L. by rewrite Hp. Qed.

Lemma Set_Add_elems `{HashOrder} s x :
  Set_elems (Set_Add s x).1 = {[ data_ x ]} ∪ Set_elems s ∧
  (Set_Add s x).2 = bool_decide (data_ x ∉ Set_elems s).
Proof.
  unfold Set_Add. destruct (tbl_find data_ (data_ x) s) as [y|] eqn:Hf.
  - assert (data_ x ∈ Set_elems s) by (apply Set_elems_find; by rewrite Hf).
    unfold tbl_insert. rewrite Hf. simpl. rewrite bool_decide_false by set_solver. set_solver.
  - assert (data_ x ∉ Set_elems s) by (rewrite Set_elems_find, Hf; by intros [? ?]).
    rewrite (Set_elems_perm _ (x :: s)) by (by apply tbl_insert_perm).
    unfold tbl_insert. rewrite Hf. simpl. by rewrite bool_decide_true.
Qed.

Lemma Set_Add_wf `{HashOrder} s x : Str_wf x → Set_wf s → Set_wf (Set_Add s x).1.
Proof.
  intros Hx [Hwf Hall]. split; [by apply tbl_insert_wf|]. unfold Set_Add.
  destruct (tbl_find data_ (data_ x) s) eqn:Hf.
  - unfold tbl_insert. by rewrite Hf.
  - rewrite tbl_insert_perm by done. by constructor.
Qed.

Lemma Set_Rem_elems s m :
  Set_elems (Set_Rem s m).1 = Set_elems s ∖ {[ data_ m ]} ∧
  (Set_Rem s m).2 = bool_decide (data_ m ∈ Set_elems s).
Proof.
  assert (Set_elems (tbl_erase data_ (data_ m) s) = Set_elems s ∖ {[ data_ m ]}) as He.
  { apply set_eq. intros k. rewrite elem_of_difference, !Set_elems_find, tbl_erase_find.
    rewrite elem_of_singleton. case_decide as Hk; [|naive_solver]. subst.
    split; [by intros [? ?]|naive_solver]. }
  unfold Set_Rem. destruct (tbl_find data_ (data_ m) s) eqn:Hf; simpl.
  - split; [done|]. rewrite bool_decide_true; [done|]. apply Set_elems_find. by rewrite Hf.
  - assert (data_ m ∉ Set_elems s) by (rewrite Set_elems_find, Hf; by intros [? ?]).
    rewrite bool_decide_false by done. set_solver.
Qed.

Lemma Set_Rem_wf s m : Set_wf s → Set_wf (Set_Rem s m).1.
Proof.
  intros [Hwf Hall]. unfold Set_Rem. destruct (tbl_find _ _ _); [|done]. split.
  - by apply tbl_erase_wf.
  - by apply Forall_filter_keep.
Qed.

Section Algebra.
Context (pthis ps : Z) (this s : SetT).
(** Two references with one address are one set. *)
Hypothesis addr : pthis = ps → this = s.

Lemma Set_Diff_elems : Set_elems (Set_Diff pthis ps this s) = Set_elems this ∖ Set_elems s.
Proof.
  assert (Set_elems (filter (λ str, tbl_find data_ (data_ str) s = None) this)
          = Set_elems this ∖ Set_elems s) as Hd.
  { apply set_eq. intros k. rewrite elem_of_difference, (Set_elems_find s). unfold Set_elems.
    rewrite !elem_of_list_to_set, !list_elem_of_fmap. setoid_rewrite list_elem_of_filter. split.
    - intros (x & -> & Hf & Hx). rewrite Hf. split; [eauto|]. by intros [? ?].
    - intros [(x & -> & Hx) Hn]. exists x. split_and!; [done| |done]. by apply eq_None_not_Some. }
  unfold Set_Diff. destruct (Z.ltb_spec pthis ps); [done|]. destruct (Z.ltb_spec ps pthis); [done|].
  rewrite addr by lia. unfold Set_elems. set_solver.
Qed.

Lemma Set_Inter_elems : Set_elems (Set_Inter pthis ps this s) = Set_elems this ∩ Set_elems s.
Proof.
  assert (Set_elems (filter (λ str, is_Some (tbl_find data_ (data_ str) s)) this)
          = Set_elems this ∩ Set_elems s) as Hd.
  { apply set_eq. intros k. rewrite elem_of_intersection, (Set_elems_find s). unfold Set_elems.
    rewrite !elem_of_list_to_set, !list_elem_of_fmap. setoid_rewrite list_elem_of_filter.
    naive_solver. }
  unfold Set_Inter. destruct (Z.ltb_spec pthis ps); [done|]. destruct (Z.ltb_spec ps pthis); [done|].
  rewrite addr by lia. set_solver.
Qed.
End Algebra.

(** ** Encoding *)

Lemma Set_decode_encode `{CompressorLaws} `{HashOrder} compress s b rest :
  Set_wf s → Forall Str_fits s → is_size (Z.of_nat (length s)) →
  Set_EncodeValue compress s = Ok b →
  ∃ s' s'', Forall2 (λ x x', Str_reload x = Ok x') s s' ∧
            Set_DecodeValue (b ++ rest) = Ok (s'', rest) ∧ (tbl_wf data_ s' → s'' ≡ₚ s').
Proof.
  intros [Hwf Hall] Hfit Hsz Henc. unfold Set_EncodeValue in Henc. inv_bind.
  unfold Set_DecodeValue. rewrite <-app_assoc, PeekSize_Bits by done. cbn [mbind result_bind].
  rewrite Nat2Z.id.
  edestruct (decode_loop_concatM (Str_EncodeValue compress) Str_DecodeValue
    (λ s x, (tbl_insert data_ x s).1) (λ x x', Str_reload x = Ok x') s a rest []) as (s' & Hs' & ->); [|done|].
  - intros x b rest' Hx Hb. eapply Forall_forall in Hall; [|done].
    eapply Forall_forall in Hfit; [|done]. by eapply Str_decode_encode.
  - exists s'. eexists. split_and!; [done..|]. intros Hwf'. by apply (tbl_inserts_perm data_ s' []).
Qed.

Lemma Set_stable_survives `{CompressorLaws} `{HashOrder} compress s :
  image_size s → tbl_wf data_ s → Forall Str_stable s →
  ∃ s', survives (Set_EncodeValue compress) Set_DecodeValue s s' ∧ s' ≡ₚ s.
Proof.
  intros Hsz Hwf Hs. rewrite Forall_forall in Hs.
  destruct (decode_loop_survives (Str_EncodeValue compress) Str_DecodeValue
    (λ s x, (tbl_insert data_ x s).1) (λ s, s) s) as (b & Hb & Hd).
  { intros x Hx. apply Str_stable_survives; auto. }
  eexists. split; [|by apply (tbl_inserts_perm data_ s [])].
  unfold survives, Set_EncodeValue, Set_DecodeValue. rewrite Hb. eexists. split; [done|]. intros rest.
  rewrite <-app_assoc, PeekSize_Bits by done. cbn [mbind result_bind]. by rewrite Nat2Z.id, Hd, list_fmap_id.
Qed.

(** SPOP takes one member out of a set and answers another one, which stays in the
    set; on a set of one member it reads past the end. *)
Theorem Set_Pop_answers_another s :
  Set_wf s →
  match s with
  | [] => Set_Pop s = Ok ([], Str_default)
  | [_] => Set_Pop s = Err Undefined
  | _ => ∃ s' x y, Set_Pop s = Ok (s', y) ∧ data_ x ∈ Set_elems s ∧
                   Set_elems s' = Set_elems s ∖ {[data_ x]} ∧ data_ y ∈ Set_elems s' ∧ data_ y ≠ data_ x
  end.
Proof.
  intros [Hwf _]. destruct s as [|x [|y s]]; [done..|]. exists (y :: s), x, y.
  unfold tbl_wf in Hwf. rewrite fmap_cons, NoDup_cons in Hwf. destruct Hwf as [Hx _].
  assert (Set_elems (x :: y :: s) = {[data_ x]} ∪ Set_elems (y :: s)) as He by done.
  assert (data_ y ∈ Set_elems (y :: s)) as Hy by (unfold Set_elems; rewrite fmap_cons; set_solver).
  assert (data_ x ∉ Set_elems (y :: s)) as Hnx by (unfold Set_elems; by rewrite elem_of_list_to_set).
  split_and!; [done|set_solver|set_solver|done|]. intros E. by rewrite E in Hy.
Qed.

Lemma Set_Pop_answers_another_witness :
  ∃ s' x y, Set_Pop [Str_new "a"; Str_new "b"] = Ok (s', y) ∧ data_ x ∈ Set_elems [Str_new "a"; Str_new "b"] ∧
    Set_elems s' = Set_elems [Str_new "a"; Str_new "b"] ∖ {[data_ x]} ∧ data_ y ∈ Set_elems s' ∧ data_ y ≠ data_ x.
Proof.
  apply (Set_Pop_answers_another [Str_new "a"; Str_new "b"]). split.
  - apply (bool_decide_unpack _). vm_compute. exact I.
  - constructor; [apply Str_new_wf|]. constructor; [apply Str_new_wf|constructor].
Defined.

End SetObj.
Export SetObj.
