(* ===== verification/ZSetObj.v ===== *)
(** * objects/zset.h, objects/zset.cc: the sorted set object

    A [ZSet] keeps its members three times: in insertion order ([sequence_list_]), by
    text ([member_map_]) and by score ([rank_map_]), linked by iterators.  An iterator
    of the list is the identity of its node; an iterator of the map, and the pointer to
    a key, is the key.  [ZSet_wf] says that the three structures agree; [ZSet_view] is
    the abstract state, the members with their scores in insertion order. *)

From stdpp Require Import base gmap list strings sorting sets.
From Stdlib Require Import Ascii ZArith Lia.
From S2P Require Import Prelude CInt Util Object StrObj Containers ListObj.
Local Open Scope Z_scope.

Module ZSetObj.

Record seq_node := mkNode {
  node_id : nat;
  node_member : Str;
  node_score : Z;
}.

Record ZSet := mkZSet {
  sequence_list_ : list seq_node;
  member_map_ : list (Str * nat);
  rank_map_ : list (Z * Str);
  next_node : nat;
}.

Definition ZSet_empty : ZSet := mkZSet [] [] [] 0.
Definition ZSet_GetObjectType (z : ZSet) : ObjectType := ZSET.

Definition member_key (e : Str * nat) : string := data_ e.1.

(** Dereferencing an iterator of [sequence_list_]. *)
Fixpoint seq_find (id : nat) (l : list seq_node) : option seq_node :=
  match l with
  | [] => None
  | n :: l => if decide (node_id n = id) then Some n else seq_find id l
  end.
Definition seq_deref (z : ZSet) (id : nat) : result seq_node :=
  match seq_find id (sequence_list_ z) with Some n => Ok n | None => Err Undefined end.

(** [while (it->second != pos) it++; rank_map_.erase(it);] from the iterator [l]. *)
Fixpoint rank_seek (m : string) (l : list (Z * Str)) : result (list (Z * Str)) :=
  match l with
  | [] => Err Undefined
  | e :: l => if decide (data_ e.2 = m) then Ok l else cons e <$> rank_seek m l
  end.
Definition rank_erase (from : nat) (m : string) (l : list (Z * Str)) : result (list (Z * Str)) :=
  app (take from l) <$> rank_seek m (drop from l).

Definition rank_insert (score : Z) (m : Str) (l : list (Z * Str)) : list (Z * Str) :=
  ordered_insert (λ e, score <? e.1) (score, m) l.

Definition ZSet_Add (z : ZSet) (score : Z) (member : Str) : ZSet * bool :=
  match tbl_find member_key (data_ member) (member_map_ z) with
  | Some _ => (z, false)
  | None =>
      let pos := next_node z in
      (mkZSet (sequence_list_ z ++ [mkNode pos member score])
         (ordered_insert (λ e, String.ltb (data_ member) (member_key e)) (member, pos) (member_map_ z))
         (rank_insert score member (rank_map_ z))
         (S pos), true)
  end.

Definition ZSet_Card (z : ZSet) : Z := Z.of_nat (length (sequence_list_ z)).

Definition ZSet_Rem (z : ZSet) (score : Z) (member : Str) : result (ZSet * bool) :=
  match tbl_find member_key (data_ member) (member_map_ z) with
  | None => Ok (z, false)
  | Some pos =>
      n ← seq_deref z pos.2;
      if negb (node_score n =? score) then Ok (z, false)
      else
        bound ← int_sub score 1;
        rank ← rank_erase (prefix_len (λ e, e.1 <=? bound) (rank_map_ z)) (data_ member) (rank_map_ z);
        Ok (mkZSet (filter (λ n, node_id n ≠ pos.2) (sequence_list_ z))
              (tbl_erase member_key (data_ member) (member_map_ z)) rank (next_node z), true)
  end.

(** The range of [rank_map_] between two scores. *)
Definition score_slice (score_low score_high : Z) (l : list (Z * Str)) : list (Z * Str) :=
  slice (prefix_len (λ e, e.1 <? score_low) l) (prefix_len (λ e, e.1 <=? score_high) l) l.

Definition ZSet_Count (z : ZSet) (score_low score_high : Z) : Z :=
  if score_high <? score_low then 0
  else Z.of_nat (length (score_slice score_low score_high (rank_map_ z))).

(** The range of [member_map_] between two texts. *)
Definition lex_slice (low high : Str) (l : list (Str * nat)) : list (Str * nat) :=
  slice (prefix_len (λ e, String.ltb (member_key e) (data_ low)) l)
        (prefix_len (λ e, String.leb (member_key e) (data_ high)) l) l.

Definition ZSet_LexCount (z : ZSet) (member_low member_high : Str) : Z :=
  if negb (String.leb (data_ member_low) (data_ member_high)) then 0
  else Z.of_nat (length (lex_slice member_low member_high (member_map_ z))).

Definition seq_set_score (id : nat) (score : Z) (l : list seq_node) : list seq_node :=
  (λ n, if decide (node_id n = id) then mkNode (node_id n) (node_member n) score else n) <$> l.

Definition ZSet_IncrBy (z : ZSet) (delta_score : Z) (member : Str) : result (ZSet * string) :=
  match tbl_find member_key (data_ member) (member_map_ z) with
  | None => Ok (z, "")
  | Some pos =>
      n ← seq_deref z pos.2;
      rank ← rank_erase (prefix_len (λ e, e.1 <? node_score n) (rank_map_ z)) (data_ member) (rank_map_ z);
      score ← int_add (node_score n) delta_score;
      Ok (mkZSet (seq_set_score pos.2 score (sequence_list_ z)) (member_map_ z)
            (rank_insert score pos.1 rank) (next_node z), to_string score)
  end.

Definition ZSet_DecrBy (z : ZSet) (delta_score : Z) (member : Str) : result (ZSet * string) :=
  delta ← int_neg delta_score; ZSet_IncrBy z delta member.

Definition node_pair (n : seq_node) : Str * Z := (node_member n, node_score n).

Definition ZSet_Range (z : ZSet) (beg end_ : Z) : result (list (Str * Z)) :=
  match sequence_list_ z with
  | [] => Ok []
  | _ =>
      let size := Z.of_nat (length (sequence_list_ z)) in
      lbeg ← legalRange size beg;
      lend ← legalRange size end_;
      if lend <=? lbeg then Ok []
      else if size <? lend + 1 then Err Undefined
      else Ok (node_pair <$> slice (Z.to_nat lbeg) (Z.to_nat (lend + 1)) (sequence_list_ z))
  end.

Definition ZSet_RangeByScore (z : ZSet) (score_low score_high : Z) : list (Str * Z) :=
  if score_high <? score_low then []
  else (λ e, (e.2, e.1)) <$> score_slice score_low score_high (rank_map_ z).

Definition ZSet_RangeByLex (z : ZSet) (member_low member_high : Str) : result (list (Str * Z)) :=
  if negb (String.leb (data_ member_low) (data_ member_high)) then Ok []
  else mapM_result (λ e, n ← seq_deref z e.2; Ok (e.1, node_score n))
         (lex_slice member_low member_high (member_map_ z)).

(** [rank_map_.find] gives the first of the elements with the score. *)
Definition ZSet_Rank (z : ZSet) (member : Str) : result string :=
  match tbl_find member_key (data_ member) (member_map_ z) with
  | None => Ok ""
  | Some pos =>
      n ← seq_deref z pos.2;
      Ok (to_string (Z.of_nat (prefix_len (λ e, e.1 <? node_score n) (rank_map_ z))))
  end.

Definition ZSet_Score (z : ZSet) (member : Str) : result string :=
  match tbl_find member_key (data_ member) (member_map_ z) with
  | None => Ok ""
  | Some pos => n ← seq_deref z pos.2; Ok (to_string (node_score n))
  end.

Definition ZSet_Fork (z : ZSet) (key : string) : string :=
  fold_left (λ ret n, ret +:+ (to_string (node_score n) +:+ " " +:+ Str_GetRaw (node_member n) +:+ " "))
    (sequence_list_ z) ("ZADD " +:+ key +:+ " ").

(** The copy constructor adds the members in insertion order. *)
Definition ZSet_copy (z : ZSet) : ZSet :=
  fold_left (λ acc n, (ZSet_Add acc (node_score n) (node_member n)).1) (sequence_list_ z) ZSet_empty.

Section Codec.
Context `{Compressor}.

Definition node_EncodeValue (compress : bool) (n : seq_node) : result bytes :=
  m ← Str_EncodeValue compress (node_member n);
  Ok (BitsToString sizeof_int (node_score n) ++ m).

Definition ZSet_EncodeValue (compress : bool) (z : ZSet) : result bytes :=
  body ← concatM (node_EncodeValue compress) (sequence_list_ z);
  Ok (BitsToString sizeof_size_t (Z.of_nat (length (sequence_list_ z))) ++ body).

Definition node_DecodeValue (source : bytes) : result ((Z * Str) * bytes) :=
  '(r, source) ← PeekInt source;
  '(s, source) ← Str_DecodeValue source;
  Ok ((r, s), source).

(** [ZSet::DecodeValue] clears [member_map_] only. *)
Definition ZSet_DecodeValue (z : ZSet) (source : bytes) : result (ZSet * bytes) :=
  '(len, source) ← PeekSize source;
  decode_loop node_DecodeValue (λ z e, (ZSet_Add z e.1 e.2).1) (Z.to_nat len)
    (mkZSet (sequence_list_ z) [] (rank_map_ z) (next_node z)) source.

End Codec.

(** ** Agreement of the three structures *)

Definition node_key (n : seq_node) : string := data_ (node_member n).

Record ZSet_wf (z : ZSet) : Prop := {
  wf_ids : NoDup (node_id <$> sequence_list_ z);
  wf_fresh : Forall (λ n, (node_id n < next_node z)%nat) (sequence_list_ z);
  wf_keys : NoDup (node_key <$> sequence_list_ z);
  wf_member : member_map_ z ≡ₚ (λ n, (node_member n, node_id n)) <$> sequence_list_ z;
  wf_rank : rank_map_ z ≡ₚ (λ n, (node_score n, node_member n)) <$> sequence_list_ z;
  wf_member_sorted : StronglySorted (λ a b, String.le (member_key a) (member_key b)) (member_map_ z);
  wf_rank_sorted : StronglySorted (λ a b, a.1 ≤ b.1) (rank_map_ z);
  wf_nodes : Forall (λ n, Str_wf (node_member n) ∧ is_int (node_score n)) (sequence_list_ z);
}.

(** The members and scores, in insertion order. *)
Definition ZSet_view (z : ZSet) : list (string * Z) :=
  (λ n, (node_key n, node_score n)) <$> sequence_list_ z.

Lemma ZSet_empty_wf : ZSet_wf ZSet_empty.
Proof. split; simpl; constructor. Qed.

Section Find.
Context (z : ZSet) (Hz : ZSet_wf z).

Lemma seq_find_elem n : n ∈ sequence_list_ z → seq_find (node_id n) (sequence_list_ z) = Some n.
Proof.
  pose proof (wf_ids z Hz) as Hnd. revert Hnd. induction (sequence_list_ z) as [|x l IH]; simpl; [set_solver|].
  rewrite NoDup_cons. intros [Hx Hl] [->|Hn]%elem_of_cons; [by rewrite decide_True|].
  rewrite decide_False; [auto|]. intros E. apply Hx. rewrite E. by apply list_elem_of_fmap_2.
Qed.

(** The map finds a member exactly when a node of the list holds it. *)
Lemma member_find_Some k pos :
  tbl_find member_key k (member_map_ z) = Some pos →
  ∃ n, n ∈ sequence_list_ z ∧ node_key n = k ∧ pos = (node_member n, node_id n) ∧
       seq_deref z pos.2 = Ok n.
Proof.
  intros [Hp Hk]%tbl_find_Some. rewrite (wf_member z Hz) in Hp.
  apply list_elem_of_fmap in Hp as (n & -> & Hn). exists n. split_and!; [done..|].
  unfold seq_deref. simpl. by rewrite seq_find_elem.
Qed.

Lemma member_find_None k :
  tbl_find member_key k (member_map_ z) = None ↔ k ∉ node_key <$> sequence_list_ z.
Proof.
  rewrite tbl_find_None, (wf_member z Hz), <-list_fmap_compose. done.
Qed.

Lemma member_map_wf : tbl_wf member_key (member_map_ z).
Proof.
  unfold tbl_wf. rewrite (wf_member z Hz), <-list_fmap_compose. apply (wf_keys z Hz).
Qed.

Lemma node_key_inj n1 n2 :
  n1 ∈ sequence_list_ z → n2 ∈ sequence_list_ z → node_key n1 = node_key n2 → n1 = n2.
Proof.
  intros H1 H2 Hk. apply list_elem_of_lookup in H1 as [i Hi], H2 as [j Hj].
  assert (i = j) as ->; [|congruence].
  eapply (NoDup_lookup (node_key <$> sequence_list_ z) i j (node_key n1)); [apply (wf_keys z Hz)| |].
  - by rewrite list_lookup_fmap, Hi.
  - by rewrite list_lookup_fmap, Hj, Hk.
Qed.

Lemma node_id_key n1 n2 :
  n1 ∈ sequence_list_ z → n2 ∈ sequence_list_ z → node_id n1 = node_id n2 ↔ node_key n1 = node_key n2.
Proof.
  intros H1 H2. split; [|intros Hk; by rewrite (node_key_inj n1 n2)].
  intros Hi. pose proof (seq_find_elem n1 H1) as E. rewrite Hi, seq_find_elem in E by done. congruence.
Qed.
End Find.

(** *** Erasing from the rank map *)

Lemma rank_seek_filter m l :
  NoDup (data_ ∘ snd <$> l) → m ∈ (data_ ∘ snd <$> l) →
  rank_seek m l = Ok (filter (λ e : Z * Str, data_ e.2 ≠ m) l).
Proof.
  induction l as [|e l IH]; [set_solver|]. rewrite fmap_cons, NoDup_cons. intros [He Hl] Hm.
  cbn [rank_seek]. rewrite filter_cons. case_decide as E.
  - rewrite decide_False by auto. f_equal. clear IH Hm.
    assert (m ∉ data_ ∘ snd <$> l) as Hn by (by rewrite <-E). clear He E e Hl.
    induction l as [|e l IH]; [done|]. rewrite filter_cons, decide_True by set_solver.
    f_equal. apply IH. set_solver.
  - rewrite decide_True by done. rewrite IH; [done|done|]. set_solver.
Qed.

Lemma rank_erase_filter from m (l : list (Z * Str)) :
  NoDup (data_ ∘ snd <$> l) → m ∈ (data_ ∘ snd <$> drop from l) →
  rank_erase from m l = Ok (filter (λ e : Z * Str, data_ e.2 ≠ m) l).
Proof.
  intros Hnd Hm. unfold rank_erase. rewrite <-(take_drop from l) in Hnd.
  rewrite fmap_app, NoDup_app in Hnd. destruct Hnd as (_ & Hdis & Hnd).
  rewrite rank_seek_filter by done. cbn. f_equal. rewrite <-(take_drop from l) at 3.
  rewrite filter_app. f_equal. assert (m ∉ data_ ∘ snd <$> take from l) as Hn by naive_solver.
  clear -Hn. induction (take from l) as [|e l' IH]; [done|].
  rewrite filter_cons, decide_True by set_solver. f_equal. apply IH. set_solver.
Qed.

(** Elements not smaller than a bound are found from that bound on. *)
Lemma drop_prefix_elem (p : Z * Str → bool) (l : list (Z * Str)) e :
  (∀ x y, x.1 ≤ y.1 → p y = true → p x = true) →
  StronglySorted (λ a b : Z * Str, a.1 ≤ b.1) l → e ∈ l → p e = false →
  e ∈ drop (prefix_len p l) l.
Proof.
  intros Hp Hs He Hpe. destruct (prefix_len_filter _ p l Hp Hs) as [_ ->].
  by apply list_elem_of_filter.
Qed.

Lemma filter_fmap_comm {A B} (f : A → B) (P : B → Prop) `{∀ x, Decision (P x)} (l : list A) :
  filter P (f <$> l) = f <$> filter (λ x, P (f x)) l.
Proof.
  induction l as [|x l IH]; [done|]. rewrite fmap_cons, !filter_cons. case_decide; [|done].
  by rewrite IH, fmap_cons.
Qed.

Lemma filter_ext_in {A} (P Q : A → Prop) `{∀ x, Decision (P x), ∀ x, Decision (Q x)} (l : list A) :
  (∀ x, x ∈ l → P x ↔ Q x) → filter P l = filter Q l.
Proof.
  induction l as [|x l IH]; intros HPQ; [done|]. rewrite !filter_cons.
  rewrite IH by set_solver. pose proof (HPQ x ltac:(set_solver)). repeat case_decide; tauto.
Qed.

(** *** Adding *)

#[export] Instance member_le_trans :
  Transitive (λ a b : Str * nat, String.le (member_key a) (member_key b)).
Proof. intros a b c. apply (transitivity (R := String.le)). Qed.

#[export] Instance rank_le_trans : Transitive (λ a b : Z * Str, a.1 ≤ b.1).
Proof. intros a b c. lia. Qed.

Lemma rank_insert_sorted score m l :
  StronglySorted (λ a b : Z * Str, a.1 ≤ b.1) l →
  StronglySorted (λ a b : Z * Str, a.1 ≤ b.1) (rank_insert score m l).
Proof.
  apply ordered_insert_sorted; [apply _| |]; intros y; simpl.
  - rewrite Z.ltb_lt. lia.
  - rewrite Z.ltb_ge. lia.
Qed.

Lemma rank_insert_perm score m l : rank_insert score m l ≡ₚ (score, m) :: l.
Proof. apply ordered_insert_perm. Qed.

Section Add.
Context (z : ZSet) (Hz : ZSet_wf z) (score : Z) (member : Str).

Lemma ZSet_Add_present :
  data_ member ∈ (ZSet_view z).*1 → ZSet_Add z score member = (z, false).
Proof.
  unfold ZSet_view, ZSet_Add. rewrite <-list_fmap_compose. intros Hin.
  destruct (tbl_find member_key (data_ member) (member_map_ z)) eqn:Hf; [done|].
  by apply (member_find_None z Hz) in Hf.
Qed.

Lemma ZSet_Add_absent :
  data_ member ∉ (ZSet_view z).*1 →
  ∃ z', ZSet_Add z score member = (z', true) ∧ ZSet_view z' = ZSet_view z ++ [(data_ member, score)].
Proof.
  unfold ZSet_view, ZSet_Add. rewrite <-list_fmap_compose. intros Hin.
  assert (tbl_find member_key (data_ member) (member_map_ z) = None) as ->.
  { by apply (member_find_None z Hz). }
  eexists. split; [done|]. simpl. by rewrite fmap_app.
Qed.

Lemma ZSet_Add_wf : Str_wf member → is_int score → ZSet_wf (ZSet_Add z score member).1.
Proof.
  intros Hm Hs. unfold ZSet_Add.
  destruct (tbl_find member_key (data_ member) (member_map_ z)) eqn:Hf; [done|].
  apply (member_find_None z Hz) in Hf. destruct Hz as [H1 H2 H3 H4 H5 H6 H7 H8].
  split; simpl.
  - rewrite fmap_app, NoDup_app. split_and!; [done| |by repeat constructor; set_solver].
    intros id Hid [->|[]%not_elem_of_nil]%elem_of_cons. simpl in Hid.
    apply list_elem_of_fmap in Hid as (n & Hn & Hin). eapply Forall_forall in H2; [|done]. simpl in H2. lia.
  - rewrite Forall_app, Forall_singleton. simpl. split; [|lia]. eapply Forall_impl; [exact H2|]. intros n Hn. simpl in *. lia.
  - rewrite fmap_app, NoDup_app. split_and!; [done|set_solver|by repeat constructor; set_solver].
  - rewrite ordered_insert_perm, H4, fmap_app. simpl. by rewrite <-Permutation_cons_append.
  - rewrite rank_insert_perm, H5, fmap_app. simpl. by rewrite <-Permutation_cons_append.
  - apply ordered_insert_sorted; [apply _|..]; [|..|done]; intros y Hy.
    + by apply string_ltb_le.
    + by apply string_ltb_ge.
  - by apply rank_insert_sorted.
  - rewrite Forall_app, Forall_singleton. done.
Qed.
End Add.

(** *** Removing and updating *)

Section Update.
Context (z : ZSet) (Hz : ZSet_wf z).

Lemma rank_keys_NoDup : NoDup (data_ ∘ snd <$> rank_map_ z).
Proof. rewrite (wf_rank z Hz), <-list_fmap_compose. apply (wf_keys z Hz). Qed.

Lemma rank_elem n : n ∈ sequence_list_ z → (node_score n, node_member n) ∈ rank_map_ z.
Proof.
  intros Hn. rewrite (wf_rank z Hz).
  by apply (list_elem_of_fmap_2 (λ n, (node_score n, node_member n))).
Qed.

(** The search of the rank map from a bound below the score finds the member. *)
Lemma rank_erase_member (p : Z * Str → bool) n :
  (∀ x y : Z * Str, x.1 ≤ y.1 → p y = true → p x = true) →
  n ∈ sequence_list_ z → p (node_score n, node_member n) = false →
  rank_erase (prefix_len p (rank_map_ z)) (node_key n) (rank_map_ z)
  = Ok (filter (λ e : Z * Str, data_ e.2 ≠ node_key n) (rank_map_ z)).
Proof.
  intros Hp Hn Hpn. apply rank_erase_filter; [apply rank_keys_NoDup|].
  apply (list_elem_of_fmap_2' (data_ ∘ snd) _ (node_score n, node_member n)); [|done].
  apply drop_prefix_elem; [done|apply (wf_rank_sorted z Hz)|by apply rank_elem|done].
Qed.

(** The set without the member [k]. *)
Definition zset_without (k : string) : ZSet :=
  mkZSet (filter (λ n, node_key n ≠ k) (sequence_list_ z))
    (tbl_erase member_key k (member_map_ z))
    (filter (λ e : Z * Str, data_ e.2 ≠ k) (rank_map_ z)) (next_node z).

Lemma zset_without_wf k : ZSet_wf (zset_without k).
Proof.
  destruct Hz as [H1 H2 H3 H4 H5 H6 H7 H8]. split; simpl.
  - by apply NoDup_fmap_filter.
  - by apply Forall_filter_keep.
  - by apply NoDup_fmap_filter.
  - unfold tbl_erase. rewrite H4, filter_fmap_comm. done.
  - rewrite H5, filter_fmap_comm. done.
  - by apply StronglySorted_filter.
  - by apply StronglySorted_filter.
  - by apply Forall_filter_keep.
Qed.

Lemma ZSet_Rem_eq score member :
  INT_MIN < score ≤ INT_MAX →
  ZSet_Rem z score member
  = if decide ((data_ member, score) ∈ ZSet_view z)
    then Ok (zset_without (data_ member), true) else Ok (z, false).
Proof.
  intros Hs. unfold ZSet_Rem, ZSet_view.
  destruct (tbl_find member_key (data_ member) (member_map_ z)) as [pos|] eqn:Hf.
  - apply (member_find_Some z Hz) in Hf as (n & Hn & Hk & -> & Hd). simpl in Hd |- *.
    rewrite Hd. cbn [mbind result_bind]. destruct (Z.eqb_spec (node_score n) score) as [E|E]; simpl.
    + rewrite decide_True.
      2:{ apply list_elem_of_fmap. exists n. by rewrite Hk, E. }
      unfold int_sub. rewrite int_check_is by (unfold is_int, INT_MIN, INT_MAX in *; lia).
      cbn [mbind result_bind]. rewrite <-Hk, rank_erase_member; [|..|done|].
      * cbn [mbind result_bind]. f_equal. f_equal. unfold zset_without. f_equal.
        apply filter_ext_in. intros x Hx. rewrite (node_id_key z Hz) by done. done.
      * intros x y. rewrite !Z.leb_le. lia.
      * apply Z.leb_gt. simpl. lia.
    + rewrite decide_False; [done|]. intros (n' & Hp & Hin)%list_elem_of_fmap.
      injection Hp as Hk' Hs'. apply E. rewrite Hs', (node_key_inj z Hz n n') by congruence. done.
  - rewrite decide_False; [done|]. intros (n' & Hp & Hin)%list_elem_of_fmap.
    apply (member_find_None z Hz) in Hf. apply Hf. injection Hp as -> _.
    by apply (list_elem_of_fmap_2 node_key).
Qed.

Lemma zset_without_view k : ZSet_view (zset_without k) = filter (λ p, p.1 ≠ k) (ZSet_view z).
Proof. unfold ZSet_view. simpl. by rewrite filter_fmap_comm. Qed.

(** The set with another score for the node [n]. *)
Definition zset_rescore (n : seq_node) (score : Z) : ZSet :=
  mkZSet (seq_set_score (node_id n) score (sequence_list_ z)) (member_map_ z)
    (rank_insert score (node_member n) (filter (λ e : Z * Str, data_ e.2 ≠ node_key n) (rank_map_ z)))
    (next_node z).

Lemma seq_set_score_keys id score l :
  node_key <$> seq_set_score id score l = node_key <$> l ∧
  node_id <$> seq_set_score id score l = node_id <$> l ∧
  (λ n, (node_member n, node_id n)) <$> seq_set_score id score l = (λ n, (node_member n, node_id n)) <$> l.
Proof.
  unfold seq_set_score. rewrite <-!list_fmap_compose.
  split_and!; apply list_fmap_ext; intros i x _; simpl; by case_decide.
Qed.

Lemma seq_split n :
  n ∈ sequence_list_ z → sequence_list_ z ≡ₚ n :: filter (λ x, node_key x ≠ node_key n) (sequence_list_ z).
Proof.
  intros Hn. pose proof (wf_keys z Hz) as Hnd. revert Hn Hnd.
  induction (sequence_list_ z) as [|x l IH]; [set_solver|].
  rewrite fmap_cons, NoDup_cons. intros Hn [Hx Hl]. rewrite filter_cons.
  apply elem_of_cons in Hn as [->|Hn].
  - rewrite decide_False by auto. constructor. clear IH Hl.
    assert (Forall (λ y, node_key y ≠ node_key x) l) as Hf.
    { apply Forall_forall. intros y Hy E. apply Hx. rewrite <-E. by apply list_elem_of_fmap_2. }
    induction Hf as [|y l Hy Hl IH]; [done|]. rewrite filter_cons, decide_True by done.
    constructor. apply IH. set_solver.
  - rewrite decide_True.
    + rewrite (IH Hn Hl) at 1. apply Permutation_swap.
    + intros E. apply Hx. rewrite E. by apply list_elem_of_fmap_2.
Qed.

Lemma zset_rescore_wf n score :
  n ∈ sequence_list_ z → is_int score → ZSet_wf (zset_rescore n score).
Proof.
  intros Hn Hs. pose proof (seq_split n Hn) as Hsp.
  destruct (seq_set_score_keys (node_id n) score (sequence_list_ z)) as (E1 & E2 & E3).
  pose proof (wf_ids z Hz) as H1. pose proof (wf_fresh z Hz) as H2. pose proof (wf_keys z Hz) as H3.
  split; simpl.
  - by rewrite E2.
  - unfold seq_set_score. rewrite Forall_fmap. eapply Forall_impl; [exact H2|].
    intros x Hx. simpl. by case_decide.
  - by rewrite E1.
  - rewrite E3. apply (wf_member z Hz).
  - rewrite rank_insert_perm, (wf_rank z Hz), filter_fmap_comm. simpl.
    unfold seq_set_score. rewrite <-list_fmap_compose. rewrite Hsp at 2. simpl.
    rewrite decide_True by done. constructor. erewrite list_fmap_ext; [reflexivity|].
    intros i x [Hk Hx]%list_elem_of_lookup_2%list_elem_of_filter. simpl.
    rewrite decide_False; [done|]. by rewrite (node_id_key z Hz).
  - apply (wf_member_sorted z Hz).
  - apply rank_insert_sorted, StronglySorted_filter, (wf_rank_sorted z Hz).
  - unfold seq_set_score. rewrite Forall_fmap. eapply Forall_impl; [exact (wf_nodes z Hz)|].
    intros x [Hx1 Hx2]. simpl. by case_decide.
Qed.

Lemma ZSet_IncrBy_eq delta member :
  ZSet_IncrBy z delta member
  = match tbl_find member_key (data_ member) (member_map_ z) with
    | None => Ok (z, "")
    | Some pos =>
        n ← seq_deref z pos.2;
        score ← int_add (node_score n) delta;
        Ok (zset_rescore n score, to_string score)
    end.
Proof.
  unfold ZSet_IncrBy.
  destruct (tbl_find member_key (data_ member) (member_map_ z)) as [pos|] eqn:Hf; [|done].
  apply (member_find_Some z Hz) in Hf as (n & Hn & Hk & -> & Hd). simpl in Hd |- *.
  rewrite Hd. cbn [mbind result_bind]. rewrite <-Hk, rank_erase_member; [done|..|done|].
  - intros x y. rewrite !Z.ltb_lt. lia.
  - apply Z.ltb_ge. simpl. lia.
Qed.

Lemma zset_rescore_view n score :
  n ∈ sequence_list_ z →
  ZSet_view (zset_rescore n score)
  = (λ p, if decide (p.1 = node_key n) then (p.1, score) else p) <$> ZSet_view z.
Proof.
  intros Hn. unfold ZSet_view. simpl. unfold seq_set_score. rewrite <-!list_fmap_compose.
  apply list_fmap_ext. intros i x Hx%list_elem_of_lookup_2. simpl.
  destruct (decide (node_id x = node_id n)) as [E|E]; rewrite (node_id_key z Hz) in E by done.
  - by rewrite decide_True.
  - by rewrite decide_False.
Qed.

End Update.

(** *** Queries *)

Section Query.
Context (z : ZSet) (Hz : ZSet_wf z).

Lemma rank_view_perm : (λ e : Z * Str, (data_ e.2, e.1)) <$> rank_map_ z ≡ₚ ZSet_view z.
Proof. rewrite (wf_rank z Hz), <-list_fmap_compose. done. Qed.

Lemma score_slice_filter lo hi :
  lo ≤ hi → score_slice lo hi (rank_map_ z) = filter (λ e : Z * Str, lo ≤ e.1 ≤ hi) (rank_map_ z).
Proof.
  intros Hle. unfold score_slice. rewrite (slice_filter (λ a b : Z * Str, a.1 ≤ b.1)).
  - apply list_filter_iff. intros e. rewrite Z.ltb_ge, Z.leb_le. done.
  - intros x y. rewrite !Z.ltb_lt. lia.
  - intros x y. rewrite !Z.leb_le. lia.
  - intros x. rewrite Z.ltb_lt, Z.leb_le. lia.
  - apply (wf_rank_sorted z Hz).
Qed.

(** The counted members are those whose score lies between the bounds. *)
Lemma ZSet_Count_view lo hi :
  ZSet_Count z lo hi = Z.of_nat (length (filter (λ p : string * Z, lo ≤ p.2 ≤ hi) (ZSet_view z))).
Proof.
  unfold ZSet_Count. destruct (Z.ltb_spec hi lo).
  - assert (filter (λ p : string * Z, lo ≤ p.2 ≤ hi) (ZSet_view z) = []) as ->; [|done].
    induction (ZSet_view z) as [|p l IH]; [done|]. by rewrite filter_cons, decide_False by lia.
  - rewrite score_slice_filter by done. rewrite <-rank_view_perm, filter_fmap_comm, length_fmap. done.
Qed.

(** A range by score lists exactly those members, by increasing score. *)
Lemma ZSet_RangeByScore_view lo hi :
  (λ p : Str * Z, (data_ p.1, p.2)) <$> ZSet_RangeByScore z lo hi
    ≡ₚ filter (λ p : string * Z, lo ≤ p.2 ≤ hi) (ZSet_view z) ∧
  StronglySorted Z.le (ZSet_RangeByScore z lo hi).*2.
Proof.
  unfold ZSet_RangeByScore. destruct (Z.ltb_spec hi lo).
  - split; [|constructor].
    induction (ZSet_view z) as [|p l IH]; [done|]. by rewrite filter_cons, decide_False by lia.
  - rewrite score_slice_filter by done. split.
    + rewrite <-rank_view_perm, filter_fmap_comm, <-list_fmap_compose. done.
    + rewrite <-list_fmap_compose. simpl.
      pose proof (StronglySorted_filter _ (λ e : Z * Str, lo ≤ e.1 ≤ hi) _ (wf_rank_sorted z Hz)) as Hs.
      induction Hs as [|x l Hl IH Hx]; simpl; constructor; [done|]. by rewrite Forall_fmap.
Qed.

Lemma lex_slice_filter lo hi :
  String.leb (data_ lo) (data_ hi) = true →
  lex_slice lo hi (member_map_ z)
  = filter (λ e, String.le (data_ lo) (member_key e) ∧ String.le (member_key e) (data_ hi)) (member_map_ z).
Proof.
  intros Hle%string_le_leb. unfold lex_slice.
  rewrite (slice_filter (λ a b, String.le (member_key a) (member_key b))).
  - apply list_filter_iff. intros e. rewrite !string_le_leb, (string_leb_ltb (data_ lo)), negb_true_iff.
    done.
  - intros x y Hxy Hy. destruct (String.ltb (member_key x) (data_ lo)) eqn:E; [done|].
    apply string_ltb_ge in E. assert (String.le (data_ lo) (member_key y)) as H by (by etrans).
    apply string_le_leb in H. rewrite string_leb_ltb, Hy in H. done.
  - intros x y Hxy Hy%string_le_leb. apply string_le_leb. by etrans.
  - intros x Hx%string_ltb_le. apply string_le_leb. by etrans.
  - apply (wf_member_sorted z Hz).
Qed.

(** The search by text: between two texts, in text order. *)
Lemma ZSet_LexCount_view lo hi :
  ZSet_LexCount z lo hi
  = Z.of_nat (length (filter (λ p : string * Z,
      String.le (data_ lo) p.1 ∧ String.le p.1 (data_ hi)) (ZSet_view z))).
Proof.
  unfold ZSet_LexCount. destruct (String.leb (data_ lo) (data_ hi)) eqn:E; simpl.
  - rewrite lex_slice_filter by done. rewrite (wf_member z Hz), filter_fmap_comm. unfold ZSet_view.
    by rewrite (filter_fmap_comm (λ n, (node_key n, node_score n))), !length_fmap.
  - assert (filter (λ p : string * Z, String.le (data_ lo) p.1 ∧ String.le p.1 (data_ hi)) (ZSet_view z) = [])
      as ->; [|done].
    induction (ZSet_view z) as [|p l IH]; [done|]. rewrite filter_cons, decide_False; [done|].
    intros [H1 H2]. assert (String.le (data_ lo) (data_ hi)) as H by (by etrans).
    apply string_le_leb in H. congruence.
Qed.

Lemma ZSet_RangeByLex_view lo hi :
  ∃ r, ZSet_RangeByLex z lo hi = Ok r ∧
  (λ p : Str * Z, (data_ p.1, p.2)) <$> r
    ≡ₚ filter (λ p : string * Z, String.le (data_ lo) p.1 ∧ String.le p.1 (data_ hi)) (ZSet_view z) ∧
  StronglySorted String.le (data_ <$> r.*1).
Proof.
  unfold ZSet_RangeByLex. destruct (String.leb (data_ lo) (data_ hi)) eqn:E; simpl.
  2:{ exists []. split_and!; [done| |constructor].
      induction (ZSet_view z) as [|p l IH]; [done|]. rewrite filter_cons, decide_False; [done|].
      intros [H1 H2]. assert (String.le (data_ lo) (data_ hi)) as H by (by etrans).
      apply string_le_leb in H. congruence. }
  rewrite lex_slice_filter by done.
  set (P := λ k, String.le (data_ lo) k ∧ String.le k (data_ hi)).
  pose (sc := λ e : Str * nat, from_option node_score 0 (seq_find e.2 (sequence_list_ z))).
  exists ((λ e, (e.1, sc e)) <$> filter (λ e, P (member_key e)) (member_map_ z)). split_and!.
  - apply mapM_result_Forall2, Forall2_fmap_r, Forall_Forall2_diag, Forall_forall.
    intros e [_ He]%list_elem_of_filter. rewrite (wf_member z Hz) in He.
    apply list_elem_of_fmap in He as (n & -> & Hn). unfold sc, seq_deref. simpl.
    by rewrite seq_find_elem.
  - rewrite <-list_fmap_compose, (wf_member z Hz), filter_fmap_comm, <-list_fmap_compose.
    unfold ZSet_view. rewrite (filter_fmap_comm (λ n, (node_key n, node_score n))).
    apply reflexive_eq. apply list_fmap_ext.
    intros i n [_ Hn]%list_elem_of_lookup_2%list_elem_of_filter. simpl. unfold sc. simpl.
    by rewrite seq_find_elem.
  - rewrite <-!list_fmap_compose. simpl.
    pose proof (StronglySorted_filter _ (λ e, P (member_key e)) _ (wf_member_sorted z Hz)) as Hs.
    induction Hs as [|x l Hl IH Hx]; simpl; constructor; [done|]. by rewrite Forall_fmap.
Qed.

(** The rank of a member is the number of members with a smaller score. *)
Lemma ZSet_Rank_view member score :
  (data_ member, score) ∈ ZSet_view z →
  ZSet_Rank z member
  = Ok (to_string (Z.of_nat (length (filter (λ p : string * Z, p.2 < score) (ZSet_view z))))).
Proof.
  intros (n & Hp & Hn)%list_elem_of_fmap. injection Hp as Hk ->. unfold ZSet_Rank.
  destruct (tbl_find member_key (data_ member) (member_map_ z)) as [pos|] eqn:Hf.
  2:{ apply (member_find_None z Hz) in Hf. exfalso. apply Hf. rewrite Hk. by apply list_elem_of_fmap_2. }
  apply (member_find_Some z Hz) in Hf as (n' & Hn' & Hk' & -> & Hd). rewrite Hd. cbn. f_equal. f_equal. f_equal.
  rewrite (node_key_inj z Hz n' n) by congruence.
  destruct (prefix_len_filter (λ a b : Z * Str, a.1 ≤ b.1) (λ e, e.1 <? node_score n) (rank_map_ z)) as [Ht _].
  { intros x y. rewrite !Z.ltb_lt. lia. }
  { apply (wf_rank_sorted z Hz). }
  assert (length (take (prefix_len (λ e, e.1 <? node_score n) (rank_map_ z)) (rank_map_ z))
          = prefix_len (λ e, e.1 <? node_score n) (rank_map_ z)) as Hl.
  { rewrite length_take. pose proof (prefix_len_le (λ e, e.1 <? node_score n) (rank_map_ z)). lia. }
  rewrite <-Hl, Ht, <-rank_view_perm, filter_fmap_comm, length_fmap.
  erewrite list_filter_iff; [reflexivity|]. intros e. simpl. by rewrite Z.ltb_lt.
Qed.

Lemma ZSet_Score_view member :
  ZSet_Score z member
  = Ok (from_option to_string "" (list_to_map (M := gmap string Z) (ZSet_view z) !! data_ member)).
Proof.
  unfold ZSet_Score.
  destruct (tbl_find member_key (data_ member) (member_map_ z)) as [pos|] eqn:Hf.
  - apply (member_find_Some z Hz) in Hf as (n & Hn & Hk & -> & Hd). rewrite Hd. cbn. f_equal.
    erewrite elem_of_list_to_map_1; [done| |].
    + unfold ZSet_view. rewrite <-list_fmap_compose. apply (wf_keys z Hz).
    + apply list_elem_of_fmap. exists n. by rewrite Hk.
  - apply (member_find_None z Hz) in Hf. rewrite not_elem_of_list_to_map_1; [done|].
    unfold ZSet_view. by rewrite <-list_fmap_compose.
Qed.

End Query.

(** *** Rebuilding a set from its members *)

(** Adding members with distinct new texts appends them to the view, in order; the
    copy constructor, the decoder and the replay of a fork are such loops. *)
Lemma ZSet_adds l z :
  ZSet_wf z → NoDup ((ZSet_view z).*1 ++ (data_ ∘ snd <$> l)) →
  Forall (λ e : Z * Str, Str_wf e.2 ∧ is_int e.1) l →
  let z' := fold_left (λ z (e : Z * Str), (ZSet_Add z e.1 e.2).1) l z in
  ZSet_wf z' ∧ ZSet_view z' = ZSet_view z ++ ((λ e : Z * Str, (data_ e.2, e.1)) <$> l).
Proof.
  revert z; induction l as [|e l IH]; intros z Hz Hnd Hl; simpl.
  { by rewrite app_nil_r. }
  inversion Hl as [|?? [Hm Hs] Hl']; subst.
  destruct (ZSet_Add_absent z Hz e.1 e.2) as (z1 & Hz1 & Hv1).
  { intros Hin. apply NoDup_app in Hnd as (_ & Hd & _). apply (Hd _ Hin). set_solver. }
  pose proof (ZSet_Add_wf z Hz e.1 e.2 Hm Hs) as Hw1. rewrite Hz1 in *. simpl in *.
  destruct (IH z1) as [Hw Hv]; [done| |done|].
  - rewrite Hv1, fmap_app, <-app_assoc. done.
  - split; [done|]. by rewrite Hv, Hv1, <-app_assoc.
Qed.

Definition node_entry (n : seq_node) : Z * Str := (node_score n, node_member n).

Lemma ZSet_rebuild z :
  ZSet_wf z →
  let z' := fold_left (λ z (e : Z * Str), (ZSet_Add z e.1 e.2).1) (node_entry <$> sequence_list_ z) ZSet_empty in
  ZSet_wf z' ∧ ZSet_view z' = ZSet_view z.
Proof.
  intros Hz. destruct (ZSet_adds (node_entry <$> sequence_list_ z) ZSet_empty) as [Hw Hv].
  - apply ZSet_empty_wf.
  - simpl. rewrite <-list_fmap_compose. apply (wf_keys z Hz).
  - rewrite Forall_fmap. apply (wf_nodes z Hz).
  - split; [done|]. by rewrite Hv, <-list_fmap_compose.
Qed.

Lemma ZSet_copy_view z : ZSet_wf z → ZSet_wf (ZSet_copy z) ∧ ZSet_view (ZSet_copy z) = ZSet_view z.
Proof.
  intros Hz. pose proof (ZSet_rebuild z Hz) as Hr. unfold ZSet_copy.
  assert (∀ l acc, fold_left (λ acc n, (ZSet_Add acc (node_score n) (node_member n)).1) l acc
    = fold_left (λ z (e : Z * Str), (ZSet_Add z e.1 e.2).1) (node_entry <$> l) acc) as ->; [|done].
  induction l as [|n l IH]; intros acc; simpl; [done|]. apply IH.
Qed.

Lemma ZSet_stable_survives `{CompressorLaws} compress z :
  ZSet_wf z → image_size (sequence_list_ z) → Forall (λ n, Str_stable (node_member n)) (sequence_list_ z) →
  ∃ z', survives (ZSet_EncodeValue compress) (ZSet_DecodeValue ZSet_empty) z z' ∧
        ZSet_wf z' ∧ ZSet_view z' = ZSet_view z.
Proof.
  intros Hz Hsz Hs. rewrite Forall_forall in Hs. pose proof (wf_nodes z Hz) as Hn. rewrite Forall_forall in Hn.
  destruct (decode_loop_survives (node_EncodeValue compress) node_DecodeValue
    (λ z e, (ZSet_Add z e.1 e.2).1) node_entry (sequence_list_ z)) as (b & Hb & Hd).
  { intros n Hin. destruct (Str_stable_survives compress (node_member n)) as (bm & Em & Dm); [auto|].
    unfold survives, node_EncodeValue, node_DecodeValue. rewrite Em. cbn [mbind result_bind].
    eexists. split; [done|]. intros rest. rewrite <-app_assoc, PeekInt_Bits by (by apply Hn).
    cbn [mbind result_bind]. by rewrite Dm. }
  eexists. split; [|by apply ZSet_rebuild].
  unfold survives, ZSet_EncodeValue, ZSet_DecodeValue. rewrite Hb. eexists. split; [done|]. intros rest.
  rewrite <-app_assoc, PeekSize_Bits by done. cbn [mbind result_bind]. by rewrite Nat2Z.id, Hd.
Qed.

(** *** Ranges by position *)

Lemma ZSet_Range_view z b e :
  sequence_list_ z ≠ [] → Z.of_nat (length (sequence_list_ z)) ≤ INT_MAX →
  INT_MIN < b ≤ INT_MAX → INT_MIN < e ≤ INT_MAX →
  let size := Z.of_nat (length (sequence_list_ z)) in
  let lb := position size b in
  let le := position size e in
  ZSet_Range z b e =
    if decide (le ≤ lb) then Ok []
    else if decide (le = size) then Err Undefined
    else Ok (node_pair <$> slice (Z.to_nat lb) (Z.to_nat (le + 1)) (sequence_list_ z)).
Proof.
  intros Hne Hsz Hb He size lb le. unfold ZSet_Range. destruct (sequence_list_ z) as [|n l] eqn:E; [done|].
  rewrite !legalRange_spec by (simpl in *; lia). cbn [mbind result_bind]. fold size lb le.
  pose proof (position_range size e ltac:(subst size; simpl; lia)) as Hle. fold le in Hle.
  destruct (Z.leb_spec le lb); [by rewrite decide_True|]. rewrite decide_False by lia.
  destruct (Z.ltb_spec size (le + 1)); [by rewrite decide_True by lia|by rewrite decide_False by lia].
Qed.

End ZSetObj.
Export ZSetObj.
