(* ===== verification/Json.v ===== *)
(** * third/json11: the values, the printer and the parser of the wire format

    Requests and answers travel as JSON arrays of strings.  The texts of doubles are
    left to the C library ([CDouble]); everything else of [Json::dump] and
    [Json::parse] (strategy STANDARD) is modelled.  The error message of a failed
    parse is reduced to the fact that there is one. *)

From stdpp Require Import base list strings.
From Stdlib Require Import Ascii ZArith Lia.
From S2P Require Import Prelude CInt.
Local Open Scope Z_scope.

(** A double is known by the text [strtod] read it from: how ["%.17g"] prints it and
    the [int] it is cast to belong to the C library. *)
Class CDouble := {
  g17 : bytes → bytes;
  double_int : bytes → result Z;
}.

Module Json.

#[warnings="-register-all"]
Inductive Json :=
| JNull
| JBool (b : bool)
| JInt (z : Z)
| JDouble (text : bytes)
| JString (s : string)
| JArray (items : list Json)
| JObject (items : list (string * Json)).

(** ** Accessors: a value of another type answers a default *)

Definition string_value (j : Json) : string := match j with JString s => s | _ => "" end.
Definition array_items (j : Json) : list Json := match j with JArray l => l | _ => [] end.
Definition object_items (j : Json) : list (string * Json) := match j with JObject m => m | _ => [] end.
Definition bool_value (j : Json) : bool := match j with JBool b => b | _ => false end.
Definition int_value `{CDouble} (j : Json) : result Z :=
  match j with JInt z => Ok z | JDouble t => double_int t | _ => Ok 0 end.

(** ** Printing *)

Definition dquote : ascii := byte_of 34.
Definition backslash : ascii := byte_of 92.

Definition hex_digit (d : Z) : ascii := if d <? 10 then byte_of (48 + d) else byte_of (87 + d).

(** ["\\u%04x"] of a character of at most 31. *)
Definition u_escape (z : Z) : bytes :=
  [backslash; "u"%char; "0"%char; "0"%char; hex_digit (z / 16); hex_digit (z mod 16)].

(** One character of [dump(const string &)]. *)
Definition dump_char (c : ascii) : bytes :=
  let z := byte_val c in
  if z =? 92 then [backslash; backslash]
  else if z =? 34 then [backslash; dquote]
  else if z =? 8 then [backslash; "b"%char]
  else if z =? 12 then [backslash; "f"%char]
  else if z =? 10 then [backslash; "n"%char]
  else if z =? 13 then [backslash; "r"%char]
  else if z =? 9 then [backslash; "t"%char]
  else if z <=? 31 then u_escape z
  else [c].

(** The three bytes of U+2028 and U+2029, which are escaped as a whole. *)
Definition line_separator (s : bytes) : option ascii :=
  match s with
  | a :: b :: c :: _ =>
      if (byte_val a =? 226) && (byte_val b =? 128) then
        if byte_val c =? 168 then Some "8"%char
        else if byte_val c =? 169 then Some "9"%char
        else None
      else None
  | _ => None
  end.

Fixpoint dump_chars (s : bytes) : bytes :=
  match s with
  | [] => []
  | c :: rest =>
      match line_separator s, rest with
      | Some d, _ :: _ :: rest' =>
          [backslash; "u"%char; "2"%char; "0"%char; "2"%char; d] ++ dump_chars rest'
      | _, _ => dump_char c ++ dump_chars rest
      end
  end.

Definition dump_string (s : bytes) : bytes := [dquote] ++ dump_chars s ++ [dquote].

(** The elements of an array, with [", "] between them. *)
Fixpoint separated (l : list bytes) : bytes :=
  match l with
  | [] => []
  | [x] => x
  | x :: l => x ++ bytes_of ", " ++ separated l
  end.

Fixpoint dump `{CDouble} (j : Json) : bytes :=
  match j with
  | JNull => bytes_of "null"
  | JBool b => bytes_of (if b then "true" else "false")
  | JInt z => bytes_of (to_string z)
  | JDouble t => g17 t
  | JString s => dump_string (bytes_of s)
  | JArray l => ["["%char] ++ separated (map dump l) ++ ["]"%char]
  | JObject m =>
      ["{"%char]
      ++ separated (map (λ kv, dump_string (bytes_of kv.1) ++ bytes_of ": " ++ dump kv.2) m)
      ++ ["}"%char]
  end.

(** ** Parsing *)

Definition is_ws (c : ascii) : bool :=
  let z := byte_val c in (z =? 32) || (z =? 13) || (z =? 10) || (z =? 9).

Fixpoint consume_whitespace (s : bytes) : bytes :=
  match s with
  | c :: rest => if is_ws c then consume_whitespace rest else s
  | [] => []
  end.

Definition get_next_token (s : bytes) : option (ascii * bytes) :=
  match consume_whitespace s with
  | [] => None
  | c :: s => Some (c, s)
  end.

Definition encode_utf8 (pt : Z) : bytes :=
  if pt <? 0 then []
  else if pt <? 128 then [byte_of pt]
  else if pt <? 2048 then
    [byte_of (Z.lor (Z.shiftr pt 6) 192); byte_of (Z.lor (Z.land pt 63) 128)]
  else if pt <? 65536 then
    [byte_of (Z.lor (Z.shiftr pt 12) 224); byte_of (Z.lor (Z.land (Z.shiftr pt 6) 63) 128);
     byte_of (Z.lor (Z.land pt 63) 128)]
  else
    [byte_of (Z.lor (Z.shiftr pt 18) 240); byte_of (Z.lor (Z.land (Z.shiftr pt 12) 63) 128);
     byte_of (Z.lor (Z.land (Z.shiftr pt 6) 63) 128); byte_of (Z.lor (Z.land pt 63) 128)].

Definition hex_val (c : ascii) : option Z :=
  let z := byte_val c in
  if (48 <=? z) && (z <=? 57) then Some (z - 48)
  else if (97 <=? z) && (z <=? 102) then Some (z - 87)
  else if (65 <=? z) && (z <=? 70) then Some (z - 55)
  else None.

Definition in_range (x lower upper : Z) : bool := (lower <=? x) && (x <=? upper).

(** The escapes of one character. *)
Definition simple_escape (c : ascii) : option ascii :=
  let z := byte_val c in
  if z =? 98 then Some (byte_of 8)
  else if z =? 102 then Some (byte_of 12)
  else if z =? 110 then Some (byte_of 10)
  else if z =? 114 then Some (byte_of 13)
  else if z =? 116 then Some (byte_of 9)
  else if (z =? 34) || (z =? 92) || (z =? 47) then Some c
  else None.

(** A lead surrogate held back and the trail surrogate that completes it. *)
Definition surrogate_pair (last codepoint : Z) : bool :=
  in_range last 55296 56319 && in_range codepoint 56320 57343.

(** [parse_string], after the opening quote; [last] is [last_escaped_codepoint]. *)
Fixpoint parse_string (s out : bytes) (last : Z) {struct s} : option (bytes * bytes) :=
  match s with
  | [] => None
  | c :: s =>
      if byte_val c =? 34 then Some (out ++ encode_utf8 last, s)
      else if in_range (char_val c) 0 31 then None
      else if negb (byte_val c =? 92) then parse_string s (out ++ encode_utf8 last ++ [c]) (-1)
      else
        match s with
        | [] => None
        | c :: s =>
            if byte_val c =? 117 then
              match s with
              | h1 :: h2 :: h3 :: h4 :: s =>
                  match hex_val h1, hex_val h2, hex_val h3, hex_val h4 with
                  | Some d1, Some d2, Some d3, Some d4 =>
                      let codepoint := ((d1 * 16 + d2) * 16 + d3) * 16 + d4 in
                      if surrogate_pair last codepoint then
                        parse_string s
                          (out ++ encode_utf8
                             (Z.lor (Z.shiftl (last - 55296) 10) (codepoint - 56320) + 65536)) (-1)
                      else parse_string s (out ++ encode_utf8 last) codepoint
                  | _, _, _, _ => None
                  end
              | _ => None
              end
            else
              match simple_escape c with
              | Some e => parse_string s (out ++ encode_utf8 last ++ [e]) (-1)
              | None => None
              end
        end
  end.

Fixpoint span_digits (s : bytes) : bytes * bytes :=
  match s with
  | c :: rest => if is_digit c then let '(d, r) := span_digits rest in (c :: d, r) else ([], s)
  | [] => ([], [])
  end.

Definition starts_with (p : Z → bool) (s : bytes) : bool :=
  match s with c :: _ => p (byte_val c) | [] => false end.
Definition is_e (z : Z) : bool := (z =? 101) || (z =? 69).

(** [str[i] == '.'] and the digits that must follow. *)
Definition parse_fraction (s : bytes) : option (bytes * bytes) :=
  match s with
  | c :: rest =>
      if byte_val c =? 46 then
        match span_digits rest with
        | ([], _) => None
        | (d, r) => Some (c :: d, r)
        end
      else Some ([], s)
  | [] => Some ([], [])
  end.

Definition parse_exponent (s : bytes) : option (bytes * bytes) :=
  match s with
  | c :: rest =>
      if is_e (byte_val c) then
        let '(sign, rest) :=
          match rest with
          | x :: r => if (byte_val x =? 43) || (byte_val x =? 45) then ([x], r) else ([], rest)
          | [] => ([], [])
          end in
        match span_digits rest with
        | ([], _) => None
        | (d, r) => Some (c :: sign ++ d, r)
        end
      else Some ([], s)
  | [] => Some ([], [])
  end.

(** [atoi] on a sign and digits. *)
Definition atoi (minus : bool) (digits : bytes) : Z :=
  let v := digits_go 0 (string_of digits) in if minus then - v else v.

Definition parse_number (s : bytes) : option (Json * bytes) :=
  let '(minus, s) :=
    match s with c :: r => if byte_val c =? 45 then (true, r) else (false, s) | [] => (false, []) end in
  match span_digits s with
  | ([], _) => None
  | (d, r) =>
      if starts_with (λ z, z =? 48) d && (1 <? Z.of_nat (length d)) then None
      else if negb (starts_with (λ z, (z =? 46) || is_e z) r)
              && (Z.b2z minus + Z.of_nat (length d) <=? 9)
      then Some (JInt (atoi minus d), r)
      else
        match parse_fraction r with
        | None => None
        | Some (f, r) =>
            match parse_exponent r with
            | None => None
            | Some (e, r) => Some (JDouble ((if minus then ["-"%char] else []) ++ d ++ f ++ e), r)
            end
        end
  end.

(** [expect]: the input starts at the character that selected the word. *)
Definition expect (word : bytes) (res : Json) (s : bytes) : option (Json * bytes) :=
  if decide (take (length word) s = word) then Some (res, drop (length word) s) else None.

(** [data[key] = v] on a std::map. *)
Fixpoint obj_set (key : string) (v : Json) (m : list (string * Json)) : list (string * Json) :=
  match m with
  | [] => [(key, v)]
  | (k, w) :: m =>
      if String.eqb key k then (key, v) :: m
      else if String.ltb key k then (key, v) :: (k, w) :: m
      else (k, w) :: obj_set key v m
  end.

Definition max_depth : Z := 200.

(** [parse_json] and its two loops.  Every call consumes a character or follows one
    that did; running out of [fuel] is [Err Diverge], a failed parse is [Ok None]. *)
Fixpoint parse_json (fuel : nat) (depth : Z) (s : bytes) {struct fuel} : result (option (Json * bytes)) :=
  match fuel with
  | O => Err Diverge
  | S fuel =>
      if max_depth <? depth then Ok None
      else
        match get_next_token s with
        | None => Ok None
        | Some (c, r) =>
            let z := byte_val c in
            if (z =? 45) || is_digit c then Ok (parse_number (c :: r))
            else if z =? 116 then Ok (expect (bytes_of "true") (JBool true) (c :: r))
            else if z =? 102 then Ok (expect (bytes_of "false") (JBool false) (c :: r))
            else if z =? 110 then Ok (expect (bytes_of "null") JNull (c :: r))
            else if z =? 34 then
              Ok (match parse_string r [] (-1) with
                  | Some (t, r) => Some (JString (string_of t), r)
                  | None => None
                  end)
            else if z =? 123 then
              match get_next_token r with
              | None => Ok None
              | Some (c, r) => if byte_val c =? 125 then Ok (Some (JObject [], r))
                               else parse_members fuel depth c r []
              end
            else if z =? 91 then
              match get_next_token r with
              | None => Ok None
              | Some (c, r) => if byte_val c =? 93 then Ok (Some (JArray [], r))
                               else parse_elements fuel depth (c :: r) []
              end
            else Ok None
        end
  end
with parse_members (fuel : nat) (depth : Z) (c : ascii) (s : bytes) (data : list (string * Json))
    {struct fuel} : result (option (Json * bytes)) :=
  match fuel with
  | O => Err Diverge
  | S fuel =>
      if negb (byte_val c =? 34) then Ok None
      else
        match parse_string s [] (-1) with
        | None => Ok None
        | Some (key, s) =>
            match get_next_token s with
            | None => Ok None
            | Some (c, s) =>
                if negb (byte_val c =? 58) then Ok None
                else
                  v ← parse_json fuel (depth + 1) s;
                  match v with
                  | None => Ok None
                  | Some (v, s) =>
                      let data := obj_set (string_of key) v data in
                      match get_next_token s with
                      | None => Ok None
                      | Some (c, s) =>
                          if byte_val c =? 125 then Ok (Some (JObject data, s))
                          else if negb (byte_val c =? 44) then Ok None
                          else
                            match get_next_token s with
                            | None => Ok None
                            | Some (c, s) => parse_members fuel depth c s data
                            end
                      end
                  end
            end
        end
  end
with parse_elements (fuel : nat) (depth : Z) (s : bytes) (data : list Json)
    {struct fuel} : result (option (Json * bytes)) :=
  match fuel with
  | O => Err Diverge
  | S fuel =>
      v ← parse_json fuel (depth + 1) s;
      match v with
      | None => Ok None
      | Some (v, s) =>
          let data := data ++ [v] in
          match get_next_token s with
          | None => Ok None
          | Some (c, s) =>
              if byte_val c =? 93 then Ok (Some (JArray data, s))
              else if negb (byte_val c =? 44) then Ok None
              else
                match get_next_token s with
                | None => Ok None
                | Some (c, s) => parse_elements fuel depth (c :: s) data
                end
          end
      end
  end.

Definition parse_fuel (s : bytes) : nat := S (2 * length s).

(** [Json::parse]: the value, and whether [err] stays empty; a failed parse gives
    the null value. *)
Definition parse (s : bytes) : result (Json * bool) :=
  r ← parse_json (parse_fuel s) 0 s;
  match r with
  | None => Ok (JNull, false)
  | Some (j, rest) =>
      match consume_whitespace rest with
      | [] => Ok (j, true)
      | _ => Ok (JNull, false)
      end
  end.

(** ** The parser always answers *)

(** What the parser leaves is shorter than its input. *)
Definition leaves {A} (n : nat) (o : option (A * bytes)) : Prop :=
  match o with Some (_, r) => (length r < n)%nat | None => True end.

Lemma consume_whitespace_length s : (length (consume_whitespace s) ≤ length s)%nat.
Proof. induction s as [|c s IH]; simpl; [lia|]. destruct (is_ws c); simpl; lia. Qed.

Lemma get_next_token_leaves s : leaves (length s) (get_next_token s).
Proof.
  unfold get_next_token. pose proof (consume_whitespace_length s) as H.
  destruct (consume_whitespace s) as [|c r]; simpl in *; [done|lia].
Qed.

Lemma parse_string_leaves n s out last :
  (length s ≤ n)%nat → leaves (length s) (parse_string s out last).
Proof.
  revert s out last; induction n as [|n IH]; intros [|c s] out last Hn; simpl in *; [done|lia|done|].
  assert (∀ t out last, (length t ≤ n)%nat → (length t ≤ length s)%nat →
            leaves (S (length s)) (parse_string t out last)) as Hrec.
  { intros t o' l' Ht Hs. specialize (IH t o' l' Ht). unfold leaves in *.
    destruct (parse_string t o' l') as [[]|]; [lia|done]. }
  destruct (byte_val c =? 34); [simpl; lia|]. destruct (in_range _ _ _); [done|].
  destruct (negb _); [apply Hrec; lia|].
  destruct s as [|c' s]; [done|]. simpl in *. destruct (byte_val c' =? 117).
  - do 4 (destruct s as [|? s]; [done|]). simpl in *. repeat case_match; try done; apply Hrec; simpl; lia.
  - destruct (simple_escape c'); [apply Hrec; lia|done].
Qed.

Lemma span_digits_length s d r : span_digits s = (d, r) → (length d + length r = length s)%nat.
Proof.
  revert d r; induction s as [|c s IH]; intros d r; simpl; [by intros; simplify_eq|].
  destruct (is_digit c); [|by intros; simplify_eq/=].
  destruct (span_digits s) as [d' r'] eqn:E. intros; simplify_eq/=. rewrite <-(IH _ _ eq_refl). lia.
Qed.

Lemma parse_fraction_leaves s : leaves (S (length s)) (parse_fraction s).
Proof.
  unfold parse_fraction. destruct s as [|c s]; [simpl; lia|]. destruct (byte_val c =? 46); [|simpl; lia].
  destruct (span_digits s) as [[|d ds] r] eqn:E; [done|]. apply span_digits_length in E. simpl in *. lia.
Qed.

Lemma parse_exponent_leaves s : leaves (S (length s)) (parse_exponent s).
Proof.
  unfold parse_exponent. destruct s as [|c s]; [simpl; lia|]. destruct (is_e _); [|simpl; lia].
  destruct s as [|x s]; [done|].
  destruct ((byte_val x =? 43) || (byte_val x =? 45));
    [destruct (span_digits s) as [[|d ds] r] eqn:E|destruct (span_digits (x :: s)) as [[|d ds] r] eqn:E];
    try done; apply span_digits_length in E; simpl in *; lia.
Qed.

Lemma parse_number_leaves s : leaves (length s) (parse_number s).
Proof.
  unfold parse_number.
  set (p := match s with [] => _ | _ :: _ => _ end).
  assert (length p.2 ≤ length s)%nat as Hp.
  { subst p. destruct s as [|c s]; simpl; [lia|]. destruct (byte_val c =? 45); simpl; lia. }
  destruct p as [minus t]. simpl in Hp. destruct (span_digits t) as [[|d ds] r] eqn:E; [done|].
  apply span_digits_length in E. simpl in E.
  destruct (_ && _); [done|]. destruct (_ && _); [simpl; lia|].
  pose proof (parse_fraction_leaves r) as Hf. destruct (parse_fraction r) as [[f r1]|]; [|done].
  pose proof (parse_exponent_leaves r1) as He. destruct (parse_exponent r1) as [[e r2]|]; [|done].
  simpl in *. lia.
Qed.

Lemma expect_leaves word res s : word ≠ [] → leaves (length s) (expect word res s).
Proof.
  intros Hw. unfold expect. case_decide as E; [|done]. simpl. rewrite length_drop.
  assert (length (take (length word) s) = length word) as Hl by (by rewrite E).
  rewrite length_take in Hl.
  assert (0 < length word)%nat by (destruct word; simpl; [done|lia]). lia.
Qed.

(** A parse that answers, and leaves less than [n] characters. *)
Definition answers (n : nat) (m : result (option (Json * bytes))) : Prop :=
  ∃ o, m = Ok o ∧ leaves n o.

Lemma answers_ret n (o : option (Json * bytes)) : leaves n o → answers n (Ok o).
Proof. intros H. exists o. done. Qed.

Lemma answers_mono n m x : answers n x → (n ≤ m)%nat → answers m x.
Proof.
  intros (o & -> & Ho) Hnm. exists o. split; [done|]. destruct o as [[j r]|]; simpl in *; [lia|done].
Qed.

Lemma leaves_mono {A} n m (o : option (A * bytes)) : leaves n o → (n ≤ m)%nat → leaves m o.
Proof. intros. destruct o as [[j r]|]; simpl in *; [lia|done]. Qed.

Ltac next_token H c r :=
  match goal with
  | |- context [get_next_token ?s] =>
      pose proof (get_next_token_leaves s) as H; destruct (get_next_token s) as [[c r]|];
      [simpl in H|by apply answers_ret]
  end.

Lemma parse_answers fuel :
  (∀ depth s, (2 * length s < fuel)%nat → answers (length s) (parse_json fuel depth s)) ∧
  (∀ depth c s data, (2 * length s < fuel)%nat → answers (S (length s)) (parse_members fuel depth c s data)) ∧
  (∀ depth s data, (2 * length s + 1 < fuel)%nat → answers (length s) (parse_elements fuel depth s data)).
Proof.
  induction fuel as [|fuel (IHj & IHm & IHe)]; [split_and!; lia|]. split_and!.
  - intros depth s Hs. cbn [parse_json]. destruct (_ <? _); [by apply answers_ret|]. next_token H1 c1 b1.
    assert (∀ o : option (Json * bytes), leaves (S (length b1)) o → answers (length s) (Ok o)) as Hret.
    { intros o Ho. apply answers_ret. eapply leaves_mono; [done|lia]. }
    destruct (_ || _); [apply Hret, parse_number_leaves|].
    do 3 (destruct (_ =? _); [by apply Hret, expect_leaves|]).
    destruct (_ =? _).
    { pose proof (parse_string_leaves _ b1 [] (-1) (le_n _)) as Hp. apply Hret.
      destruct (parse_string b1 [] (-1)) as [[]|]; simpl in *; [lia|done]. }
    destruct (_ =? _); [|destruct (_ =? _); [|by apply answers_ret]]; next_token H2 c2 b2;
      (destruct (_ =? _); [apply answers_ret; simpl; lia|]).
    + eapply answers_mono; [apply IHm; lia|lia].
    + eapply answers_mono; [apply IHe; simpl; lia|simpl; lia].
  - intros depth c s data Hs. cbn [parse_members]. destruct (negb _); [by apply answers_ret|].
    pose proof (parse_string_leaves _ s [] (-1) (le_n _)) as Hp.
    destruct (parse_string s [] (-1)) as [[key s1]|]; simpl in Hp; [|by apply answers_ret].
    next_token H2 c2 b2. destruct (negb _); [by apply answers_ret|].
    destruct (IHj (depth + 1) b2) as (o & -> & Ho); [lia|]. cbn [mbind result_bind].
    destruct o as [[v s3]|]; simpl in Ho; [|by apply answers_ret]. next_token H3 c3 b3.
    destruct (_ =? _); [apply answers_ret; simpl; lia|]. destruct (negb _); [by apply answers_ret|].
    next_token H4 c4 b4. eapply answers_mono; [apply IHm; lia|lia].
  - intros depth s data Hs. cbn [parse_elements].
    destruct (IHj (depth + 1) s) as (o & -> & Ho); [lia|]. cbn [mbind result_bind].
    destruct o as [[v s1]|]; simpl in Ho; [|by apply answers_ret]. next_token H3 c3 b3.
    destruct (_ =? _); [apply answers_ret; simpl; lia|]. destruct (negb _); [by apply answers_ret|].
    next_token H4 c4 b4. eapply answers_mono; [apply IHe; simpl; lia|simpl; lia].
Qed.

Lemma parse_total s : ∃ j ok, parse s = Ok (j, ok).
Proof.
  unfold parse. destruct (parse_answers (parse_fuel s)) as [Hj _].
  destruct (Hj 0 s) as (o & -> & _); [unfold parse_fuel; lia|]. cbn [mbind result_bind].
  destruct o as [[j r]|]; [|by eauto]. destruct (consume_whitespace r); eauto.
Qed.

(** ** Reading back what was printed *)

(** The characters that are printed as ["\\u00.."]. *)
Definition u_escaped (c : ascii) : bool :=
  let z := byte_val c in
  (z <=? 31) && negb ((z =? 8) || (z =? 9) || (z =? 10) || (z =? 12) || (z =? 13)).

(** A code point the parser may still hold back while it reads printed text. *)
Definition pending (last : Z) : Prop := last = -1 ∨ 0 ≤ last ≤ 31 ∨ last = 8232 ∨ last = 8233.

Lemma pending_not_lead last : pending last → ∀ codepoint, surrogate_pair last codepoint = false.
Proof. unfold pending, surrogate_pair, in_range. intros H cp. destruct (Z.leb_spec 55296 last); [lia|done]. Qed.

(** The steps of the reader: a plain character, a simple escape, a code point. *)
Lemma parse_string_plain c t out last :
  byte_val c ≠ 34 → byte_val c ≠ 92 → in_range (char_val c) 0 31 = false →
  parse_string (c :: t) out last = parse_string t (out ++ encode_utf8 last ++ [c]) (-1).
Proof. intros H1%Z.eqb_neq H2%Z.eqb_neq H3. cbn [parse_string]. by rewrite H1, H2, H3. Qed.

Lemma parse_string_simple c e t out last :
  byte_val c ≠ 117 → simple_escape c = Some e →
  parse_string (backslash :: c :: t) out last = parse_string t (out ++ encode_utf8 last ++ [e]) (-1).
Proof. intros H1%Z.eqb_neq H2. cbn [parse_string]. by rewrite H1, H2. Qed.

Lemma parse_string_u h1 h2 h3 h4 d1 d2 d3 d4 t out last :
  pending last → hex_val h1 = Some d1 → hex_val h2 = Some d2 → hex_val h3 = Some d3 → hex_val h4 = Some d4 →
  parse_string (backslash :: "u"%char :: h1 :: h2 :: h3 :: h4 :: t) out last
  = parse_string t (out ++ encode_utf8 last) (((d1 * 16 + d2) * 16 + d3) * 16 + d4).
Proof.
  intros Hl H1 H2 H3 H4. cbn [parse_string].
  change (byte_val backslash =? 34) with false. change (in_range (char_val backslash) 0 31) with false.
  change (byte_val backslash =? 92) with true. change (byte_val "u"%char =? 117) with true. cbn [negb].
  by rewrite H1, H2, H3, H4, (pending_not_lead _ Hl).
Qed.

Lemma char_val_byte c : byte_val c < 128 ∧ char_val c = byte_val c ∨ 128 ≤ byte_val c ∧ char_val c < 0.
Proof. destruct c as [[] [] [] [] [] [] [] []]; vm_compute; intuition congruence. Qed.

Lemma u_escape_hex c :
  byte_val c ≤ 31 →
  hex_val (hex_digit (byte_val c / 16)) = Some (byte_val c / 16) ∧
  hex_val (hex_digit (byte_val c mod 16)) = Some (byte_val c mod 16).
Proof. destruct c as [[] [] [] [] [] [] [] []]; vm_compute; intuition congruence. Qed.

Lemma parse_dump_char c t out last :
  pending last →
  parse_string (dump_char c ++ t) out last
  = if u_escaped c then parse_string t (out ++ encode_utf8 last) (byte_val c)
    else parse_string t (out ++ encode_utf8 last ++ [c]) (-1).
Proof.
  intros Hl. unfold dump_char, u_escaped.
  repeat match goal with
  | |- context [byte_val c =? ?k] =>
      destruct (Z.eqb_spec (byte_val c) k) as [E|];
      [assert (c = byte_of k) as -> by (by rewrite <-E, byte_of_val);
       by apply (parse_string_simple _ (byte_of k))|]
  end.
  destruct (Z.leb_spec (byte_val c) 31) as [Hc|Hc]; cbn [andb orb negb].
  - destruct (u_escape_hex c Hc) as [H1 H2]. unfold u_escape. cbn [app].
    rewrite (parse_string_u _ _ _ _ 0 0 (byte_val c / 16) (byte_val c mod 16)) by done. f_equal.
    pose proof (Z.div_mod (byte_val c) 16). lia.
  - cbn [app]. rewrite parse_string_plain; [done..|]. unfold in_range.
    destruct (char_val_byte c) as [[? ->]|[? ?]]; [destruct (Z.leb_spec (byte_val c) 31); [lia|apply andb_false_r]|].
    destruct (Z.leb_spec 0 (char_val c)); [lia|done].
Qed.

Lemma parse_dump_separator s d t out last :
  pending last → line_separator s = Some d →
  parse_string ([backslash; "u"%char; "2"%char; "0"%char; "2"%char; d] ++ t) out last
  = parse_string t (out ++ encode_utf8 last) (if byte_val d =? 56 then 8232 else 8233).
Proof.
  intros Hl Hs. unfold line_separator in Hs.
  destruct s as [|a [|b [|c s]]]; try discriminate Hs.
  destruct (_ && _); [|discriminate Hs]. destruct (_ =? _); [|destruct (_ =? _); [|discriminate Hs]];
    injection Hs as <-; cbn [app];
    [by rewrite (parse_string_u _ _ _ _ 2 0 2 8)|by rewrite (parse_string_u _ _ _ _ 2 0 2 9)].
Qed.

(** What the separator's escape stands for. *)
Lemma line_separator_utf8 s d :
  line_separator s = Some d →
  take 3 s = encode_utf8 (if byte_val d =? 56 then 8232 else 8233).
Proof.
  unfold line_separator. destruct s as [|a [|b [|c s]]]; try done.
  destruct (Z.eqb_spec (byte_val a) 226) as [Ha|]; [|done].
  destruct (Z.eqb_spec (byte_val b) 128) as [Hb|]; [|done]. cbn [andb take].
  assert (a = byte_of 226) as -> by (by rewrite <-Ha, byte_of_val).
  assert (b = byte_of 128) as -> by (by rewrite <-Hb, byte_of_val).
  destruct (Z.eqb_spec (byte_val c) 168) as [Hc|]; [|destruct (Z.eqb_spec (byte_val c) 169) as [Hc|]; [|done]].
  - assert (c = byte_of 168) as -> by (by rewrite <-Hc, byte_of_val). by intros [= <-].
  - assert (c = byte_of 169) as -> by (by rewrite <-Hc, byte_of_val). by intros [= <-].
Qed.

Lemma u_escaped_utf8 c : u_escaped c = true → pending (byte_val c) ∧ encode_utf8 (byte_val c) = [c].
Proof.
  unfold u_escaped, pending. intros [H1%Z.leb_le _]%andb_true_iff.
  pose proof (byte_val_range c). split; [lia|]. unfold encode_utf8.
  destruct (Z.ltb_spec (byte_val c) 0); [lia|]. destruct (Z.ltb_spec (byte_val c) 128); [|lia].
  by rewrite byte_of_val.
Qed.

Lemma parse_dump_chars n s t out last :
  (length s ≤ n)%nat → pending last →
  parse_string (dump_chars s ++ dquote :: t) out last = Some (out ++ encode_utf8 last ++ s, t).
Proof.
  revert s out last; induction n as [|n IH]; intros [|c s] out last Hn Hl; simpl in Hn; try lia;
    try (simpl; by rewrite app_nil_r).
  assert (parse_string ((dump_char c ++ dump_chars s) ++ dquote :: t) out last
          = Some (out ++ encode_utf8 last ++ c :: s, t)) as Hplain.
  { rewrite <-app_assoc, parse_dump_char by done. destruct (u_escaped c) eqn:Hu.
    - apply u_escaped_utf8 in Hu as [Hp He]. rewrite IH by (done || lia). by rewrite He, <-!app_assoc.
    - rewrite IH by (by left || lia). by rewrite <-!app_assoc. }
  cbn [dump_chars]. destruct (line_separator (c :: s)) as [d|] eqn:Hd; [|done].
  destruct s as [|c1 [|c2 s]]; try done.
  pose proof (line_separator_utf8 _ _ Hd) as Hu. cbn [take] in Hu.
  rewrite <-app_assoc, (parse_dump_separator _ _ _ _ _ Hl Hd). simpl in Hn.
  rewrite IH; [|lia|destruct (_ =? _); unfold pending; lia].
  rewrite <-Hu, <-!app_assoc. done.
Qed.

Lemma parse_string_dump s t :
  parse_string (dump_chars s ++ dquote :: t) [] (-1) = Some (s, t).
Proof. rewrite (parse_dump_chars (length s)); [done|lia|by left]. Qed.

(** *** Arrays of strings: requests and answers *)

Definition string_array (l : list string) : Json := JArray (JString <$> l).

Definition dump_text (s : string) : bytes := dump_string (bytes_of s).

Definition dump_array (l : list string) : bytes :=
  ["["%char] ++ separated (dump_text <$> l) ++ ["]"%char].

Lemma dump_string_array `{CDouble} l : dump (string_array l) = dump_array l.
Proof.
  unfold dump_array. cbn [dump string_array]. f_equal. f_equal. f_equal.
  induction l as [|x l IH]; [done|]. cbn. f_equal. exact IH.
Qed.

Lemma parse_json_string fuel depth s rest :
  depth ≤ max_depth →
  parse_json (S fuel) depth (dump_text s ++ rest) = Ok (Some (JString s, rest)).
Proof.
  intros Hd. cbn [parse_json]. destruct (Z.ltb_spec max_depth depth); [lia|].
  unfold dump_text, dump_string. rewrite <-!app_assoc. cbn [app].
  change (get_next_token (dquote :: ?x)) with (Some (dquote, x)). cbv beta iota zeta.
  change (byte_val dquote) with 34. change (is_digit dquote) with false. cbn.
  by rewrite parse_string_dump, string_of_bytes_of.
Qed.

Lemma separated_cons x y l : separated (x :: y :: l) = x ++ bytes_of ", " ++ separated (y :: l).
Proof. done. Qed.

Lemma parse_elements_strings fuel depth x l data rest :
  (length l + 1 < fuel)%nat → depth + 1 ≤ max_depth →
  parse_elements fuel depth (separated (dump_text <$> x :: l) ++ "]"%char :: rest) data
  = Ok (Some (JArray (data ++ (JString <$> x :: l)), rest)).
Proof.
  intros Hf Hd. revert x fuel data Hf. induction l as [|y l IH]; intros x [|[|fuel]] data Hf;
    cbn [length] in Hf; try lia; cbn [parse_elements].
  - change (separated (dump_text <$> [x])) with (dump_text x).
    rewrite parse_json_string by lia. done.
  - rewrite !fmap_cons, separated_cons, <-!app_assoc, parse_json_string by lia. cbn [mbind result_bind].
    change (get_next_token (bytes_of ", " ++ ?b)) with (Some (","%char, " "%char :: b)). cbn [byte_val].
    change (byte_val ","%char =? 93) with false. change (byte_val ","%char =? 44) with true. cbn [negb].
    assert (∃ b, separated (dump_text y :: (dump_text <$> l)) = dquote :: b) as [b Hb].
    { destruct l; by eexists. }
    specialize (IH y (S fuel) (data ++ [JString x])). rewrite fmap_cons, Hb in IH. rewrite Hb. cbn [app] in *.
    change (get_next_token (" "%char :: dquote :: ?z)) with (Some (dquote, z)). cbv beta iota.
    etrans; [apply IH; lia|]. by rewrite <-app_assoc.
Qed.

Lemma length_separated l :
  Forall (λ x : bytes, x ≠ []) l → (length l ≤ length (separated l))%nat.
Proof.
  induction 1 as [|x l Hx Hl IH]; [simpl; lia|].
  assert (0 < length x)%nat by (destruct x; simpl; [done|lia]).
  destruct l as [|y l]; [simpl; lia|]. rewrite separated_cons, !length_app. cbn [length] in *. lia.
Qed.

Lemma length_separated_strings (l : list string) : (length l ≤ length (separated (dump_text <$> l)))%nat.
Proof.
  rewrite <-(length_fmap dump_text l) at 1. apply length_separated, Forall_fmap, Forall_true.
  intros x. done.
Qed.

(** Printing an array of texts and parsing the result gives the array back, whatever
    bytes the texts hold. *)
Lemma parse_dump_array l : parse (dump_array l) = Ok (string_array l, true).
Proof.
  unfold parse, dump_array, parse_fuel. set (s := _ ++ _ ++ _).
  assert (parse_json (S (2 * length s)) 0 s = Ok (Some (string_array l, []))) as ->; [|done].
  cbn [parse_json]. subst s. cbn [app].
  change (get_next_token ("["%char :: ?b)) with (Some ("["%char, b)). cbv beta iota zeta.
  change (byte_val "["%char) with 91. change (is_digit "["%char) with false. cbn [Z.eqb orb Pos.eqb].
  destruct l as [|x l]; [done|].
  assert (∃ b, separated (dump_text <$> x :: l) = dquote :: b) as [b Hb].
  { destruct l; by eexists. }
  pose proof (length_separated_strings (x :: l)) as Hlen.
  rewrite Hb in Hlen |- *. cbn [app].
  change (get_next_token (dquote :: ?z)) with (Some (dquote, z)). cbv beta iota.
  change (byte_val dquote =? 93) with false. cbv iota.
  change (dquote :: b ++ ["]"%char]) with ((dquote :: b) ++ ["]"%char]). rewrite <-Hb in Hlen |- *.
  rewrite parse_elements_strings; [done| |unfold max_depth; lia].
  rewrite length_cons, length_app. cbn [length] in *. lia.
Qed.

(** ** Properties *)

(** C38: the parser ends on every input and at every depth with a number of turns linear
    in the length: it answers a value and a shorter rest, or refuses. *)
Theorem parse_json_ends fuel depth s :
  (2 * length s < fuel)%nat →
  ∃ o, parse_json fuel depth s = Ok o ∧ match o with Some (_, rest) => (length rest < length s)%nat | None => True end.
Proof. intros Hf. exact (proj1 (parse_answers fuel) depth s Hf). Qed.

Lemma parse_json_ends_witness :
  ∃ o, parse_json 9 0 (bytes_of "[1]") = Ok o ∧ match o with Some (_, rest) => (length rest < 3)%nat | None => True end.
Proof. apply (parse_json_ends 9 0 (bytes_of "[1]")). simpl. lia. Defined.

End Json.
Export Json.
