(* ===== verification/JsonRoundtrip.v ===== *)
(** * third/json11: every printed value is parsed back

    The printer and the parser of Json.v on whole values: null, booleans, numbers of at
    most nine characters, texts, arrays and objects, up to the nesting the parser accepts.
    A longer integer is read as a double. *)

From stdpp Require Import base list strings sorting.
From Stdlib Require Import Ascii ZArith Lia.
From S2P Require Import Prelude CInt Json.
Local Open Scope Z_scope.

Module JsonRoundtrip.

(** ** Values that can be read back *)

(** The keys of a std::map come in increasing order. *)
Definition key_lt (k1 k2 : string) : Prop := String.ltb k1 k2 = true.

#[warnings="-register-all"]
Inductive printable : Json → Prop :=
| printable_null : printable JNull
| printable_bool b : printable (JBool b)
| printable_int z : (String.length (to_string z) ≤ 9)%nat → printable (JInt z)
| printable_string s : printable (JString s)
| printable_array l : Forall printable l → printable (JArray l)
| printable_object m :
    StronglySorted key_lt m.*1 → Forall (λ kv : string * Json, printable kv.2) m → printable (JObject m).

(** How deep a value is nested. *)
Fixpoint height (j : Json) : Z :=
  match j with
  | JArray l => foldr Z.max 0 (map (λ j, 1 + height j) l)
  | JObject m => foldr Z.max 0 (map (λ kv, 1 + height kv.2) m)
  | _ => 0
  end.

(** Induction over values with the hypothesis for all items. *)
Section Induction.
Context (P : Json → Prop).
Hypothesis on_null : P JNull.
Hypothesis on_bool : ∀ b, P (JBool b).
Hypothesis on_int : ∀ z, P (JInt z).
Hypothesis on_double : ∀ t, P (JDouble t).
Hypothesis on_string : ∀ s, P (JString s).
Hypothesis on_array : ∀ l, Forall P l → P (JArray l).
Hypothesis on_object : ∀ m, Forall (λ kv : string * Json, P kv.2) m → P (JObject m).

Fixpoint Json_nested_ind (j : Json) : P j :=
  match j with
  | JNull => on_null
  | JBool b => on_bool b
  | JInt z => on_int z
  | JDouble t => on_double t
  | JString s => on_string s
  | JArray l =>
      on_array l ((fix go l : Forall P l :=
        match l with [] => Forall_nil_2 P | j :: l => Forall_cons_2 P j l (Json_nested_ind j) (go l) end) l)
  | JObject m =>
      on_object m ((fix go m : Forall (λ kv : string * Json, P kv.2) m :=
        match m with
        | [] => Forall_nil_2 _
        | kv :: m => Forall_cons_2 (λ kv : string * Json, P kv.2) kv m (Json_nested_ind kv.2) (go m)
        end) m)
  end.
End Induction.

(** ** Numbers *)

Lemma dec_go_lead fuel n acc :
  1 ≤ n < 10 ^ Z.of_nat fuel → ∃ c s, dec_go fuel n acc = String c s ∧ byte_val c ≠ 48.
Proof.
  revert n acc; induction fuel as [|fuel IH]; intros n acc Hn; [simpl in Hn; lia|]. cbn [dec_go].
  destruct (Z.ltb_spec n 10).
  - eexists _, _. split; [done|]. rewrite Z.mod_small by lia. unfold digit_char. rewrite byte_val_of, Z.mod_small by lia. lia.
  - apply IH. rewrite Nat2Z.inj_succ, Z.pow_succ_r in Hn by lia.
    split; [apply Z.div_le_lower_bound; lia|apply Z.div_lt_upper_bound; lia].
Qed.

(** Only zero starts with the digit zero. *)
Lemma to_string_lead z : 0 ≤ z → ∃ c s, to_string z = String c s ∧ (byte_val c = 48 → s = "").
Proof.
  intros Hz. destruct (Z.eq_dec z 0) as [->|Hnz]; [by exists "0"%char, ""|].
  unfold to_string. destruct (Z.ltb_spec z 0); [lia|].
  destruct (dec_go_lead (dec_fuel z) z "") as (c & s & E & Hc); [split; [lia|by apply dec_fuel_enough]|].
  exists c, s. split; [done|]. by intros ?.
Qed.

(** What may follow a number: nothing that could belong to it. *)
Definition delimited (rest : bytes) : Prop :=
  match rest with [] => True | c :: _ => is_digit c = false ∧ byte_val c ≠ 46 ∧ is_e (byte_val c) = false end.

Lemma span_digits_app s rest :
  all_digits s = true → delimited rest → span_digits (bytes_of s ++ rest) = (bytes_of s, rest).
Proof.
  intros Hs Hr. induction s as [|c s IH].
  - destruct rest as [|c rest]; [done|]. simpl. by rewrite (proj1 Hr).
  - simpl in Hs. apply andb_true_iff in Hs as [Hc Hs]. simpl. by rewrite Hc, IH.
Qed.

Lemma parse_number_digits (minus : bool) z rest :
  0 ≤ z → Z.b2z minus + Z.of_nat (String.length (to_string z)) ≤ 9 → delimited rest →
  parse_number ((if minus then ["-"%char] else []) ++ bytes_of (to_string z) ++ rest)
  = Some (JInt (if minus then - z else z), rest).
Proof.
  intros Hz Hl Hr. destruct (to_string_nonneg z Hz) as (Hd & Hv & _).
  destruct (to_string_lead z Hz) as (c & s & E & Hlead).
  assert (is_digit c = true) as Hc by (rewrite E in Hd; simpl in Hd; by apply andb_true_iff in Hd as [? _]).
  pose proof (digit_byte c Hc) as Hcb.
  assert (negb (starts_with (λ x, (x =? 46) || is_e x) rest) = true) as Hrest.
  { destruct rest as [|r rest]; [done|]. destruct Hr as (_ & H46 & He). simpl. by rewrite He, (proj2 (Z.eqb_neq _ _) H46). }
  unfold parse_number.
  match goal with |- match ?p with pair _ _ => _ end = _ => replace p with (minus, bytes_of (to_string z) ++ rest) end.
  2:{ destruct minus; [done|]. rewrite E. simpl. by rewrite (proj2 (Z.eqb_neq (byte_val c) 45)) by lia. }
  rewrite span_digits_app by done.
  assert (bytes_of (to_string z) = c :: bytes_of s) as Hb by (by rewrite E). rewrite Hb. rewrite <-Hb.
  replace (starts_with (λ x, x =? 48) (bytes_of (to_string z)) && (1 <? Z.of_nat (length (bytes_of (to_string z))))) with false.
  2:{ rewrite Hb. simpl. destruct (Z.eqb_spec (byte_val c) 48) as [Heq|]; [|done]. by rewrite (Hlead Heq). }
  rewrite Hrest, length_bytes_of, (proj2 (Z.leb_le _ _) Hl). cbn [andb].
  unfold atoi. by rewrite string_of_bytes_of, Hv.
Qed.

Lemma parse_number_dump z rest :
  (String.length (to_string z) ≤ 9)%nat → delimited rest →
  parse_number (bytes_of (to_string z) ++ rest) = Some (JInt z, rest).
Proof.
  intros Hl Hr. destruct (Z.lt_ge_cases z 0) as [Hz|Hz].
  - rewrite to_string_neg in * by done. simpl in Hl.
    change (bytes_of (String "-" (to_string (- z))) ++ rest) with (["-"%char] ++ bytes_of (to_string (- z)) ++ rest).
    rewrite (parse_number_digits true (- z)) by (done || simpl; lia). by rewrite Z.opp_involutive.
  - by apply (parse_number_digits false z); [|simpl; lia|].
Qed.

(** ** Whole values *)

Section Reading.
Context `{CDouble}.

(** No value starts with a blank or a closing bracket. *)
Lemma dump_start j : printable j → ∃ c b, dump j = c :: b ∧ is_ws c = false ∧ byte_val c ≠ 93.
Proof.
  destruct 1 as [|b|z Hz|s|l Hl|m Hm Hv]; try (by eexists _, _; split_and!).
  - destruct b; by eexists _, _.
  - cbn [dump]. destruct (Z.lt_ge_cases z 0); [rewrite to_string_neg by done; by eexists _, _|].
    destruct (to_string_nonneg z) as (Hd & _ & c & s & E); [done|]. rewrite E in *. exists c, (bytes_of s).
    simpl in Hd. apply andb_true_iff in Hd as [Hc%digit_byte _]. split_and!; [done| |lia].
    unfold is_ws. repeat rewrite (proj2 (Z.eqb_neq (byte_val c) _)) by lia. done.
Qed.

Lemma get_next_token_char c s : is_ws c = false → get_next_token (c :: s) = Some (c, s).
Proof. intros Hc. unfold get_next_token. simpl. by rewrite Hc. Qed.

Lemma get_next_token_dump j rest : printable j →
  ∃ c b, dump j ++ rest = c :: b ∧ get_next_token (c :: b) = Some (c, b) ∧ byte_val c ≠ 93.
Proof.
  intros (c & b & -> & Hc & Hn)%dump_start. exists c, (b ++ rest). split_and!; [done| |done]. by apply get_next_token_char.
Qed.

(** A blank in front of a value is skipped. *)
Lemma parse_json_space fuel depth s : parse_json fuel depth (" "%char :: s) = parse_json fuel depth s.
Proof. by destruct fuel. Qed.

(** The value is read back from its text, whatever follows. *)
Definition reads (j : Json) : Prop := ∀ fuel depth rest,
  (2 * length (dump j) < fuel)%nat → depth + height j ≤ max_depth → delimited rest →
  parse_json fuel depth (dump j ++ rest) = Ok (Some (j, rest)).

Lemma separated_length x l : (length x ≤ length (separated (x :: l)))%nat.
Proof. destruct l; simpl; [lia|]. rewrite length_app. lia. Qed.

Lemma parse_elements_dump fuel depth x l data rest :
  Forall reads (x :: l) → Forall printable (x :: l) →
  Forall (λ j, depth + 1 + height j ≤ max_depth) (x :: l) →
  (2 * length (separated (map dump (x :: l))) + 1 < fuel)%nat →
  parse_elements fuel depth (separated (map dump (x :: l)) ++ "]"%char :: rest) data
  = Ok (Some (JArray (data ++ x :: l), rest)).
Proof.
  revert x fuel data. induction l as [|y l IH]; intros x [|fuel] data Hr Hp Hh Hf; try lia; cbn [parse_elements];
    apply Forall_cons in Hr as [Hx Hr], Hp as [Hpx Hp], Hh as [Hhx Hh]; cbn [map] in *.
  - change (separated [dump x]) with (dump x) in *. rewrite Hx; [done|lia|done|done].
  - pose proof (separated_length (dump x) (dump y :: map dump l)). rewrite separated_cons in *.
    rewrite <-!app_assoc. rewrite !length_app in Hf. simpl (length (bytes_of ", ")) in Hf.
    rewrite Hx; [|lia|done|done]. cbn [mbind result_bind].
    change (get_next_token (bytes_of ", " ++ ?b)) with (Some (","%char, " "%char :: b)).
    change (byte_val ","%char =? 93) with false. change (byte_val ","%char =? 44) with true. cbn [negb].
    change (get_next_token (" "%char :: ?b)) with (get_next_token b).
    specialize (IH y fuel (data ++ [x]) Hr Hp Hh). rewrite <-app_assoc in IH.
    assert (∃ t, separated (dump y :: map dump l) ++ "]"%char :: rest = dump y ++ t) as [t Ht].
    { destruct l as [|z l]; [by eexists|]. cbn [map]. rewrite separated_cons, <-!app_assoc. by eexists. }
    cbn [map] in *. rewrite Ht in *. apply Forall_cons in Hp as [Hpy _].
    destruct (get_next_token_dump y t Hpy) as (c & b & Hb & Htok & _). rewrite Hb in *. rewrite Htok. apply IH. lia.
Qed.

(** *** Members of objects *)

Definition member_tail (kv : string * Json) : bytes :=
  dump_chars (bytes_of kv.1) ++ dquote :: bytes_of ": " ++ dump kv.2.

Fixpoint members_tail (kv : string * Json) (m : list (string * Json)) : bytes :=
  match m with
  | [] => member_tail kv
  | kv' :: m => member_tail kv ++ bytes_of ", " ++ dquote :: members_tail kv' m
  end.

Lemma separated_members kv m :
  separated (map (λ kv : string * Json, dump_string (bytes_of kv.1) ++ bytes_of ": " ++ dump kv.2) (kv :: m))
  = dquote :: members_tail kv m.
Proof.
  revert kv; induction m as [|kv' m IH]; intros kv; cbn [map members_tail].
  - unfold member_tail, dump_string. simpl. by rewrite <-app_assoc.
  - rewrite separated_cons. cbn [map] in IH. rewrite IH. unfold member_tail, dump_string. simpl. by rewrite <-!app_assoc.
Qed.

Lemma obj_set_last k v m : Forall (λ k', key_lt k' k) m.*1 → obj_set k v m = m ++ [(k, v)].
Proof.
  induction m as [|[k' v'] m IH]; intros Hm; [done|]. rewrite fmap_cons in Hm. apply Forall_cons in Hm as [Hk Hm].
  simpl in *. unfold key_lt, String.ltb in Hk. rewrite String.compare_antisym in Hk.
  destruct (String.eqb_spec k k') as [->|]; [by rewrite string_compare_refl in Hk|].
  unfold String.ltb. destruct (String.compare k k') eqn:E; simpl in *; try done. by rewrite IH.
Qed.

Lemma parse_members_dump fuel depth kv m data rest :
  Forall (λ kv : string * Json, reads kv.2) (kv :: m) → StronglySorted key_lt (data ++ kv :: m).*1 →
  Forall (λ kv : string * Json, depth + 1 + height kv.2 ≤ max_depth) (kv :: m) →
  (2 * length (members_tail kv m) < fuel)%nat →
  parse_members fuel depth dquote (members_tail kv m ++ "}"%char :: rest) data
  = Ok (Some (JObject (data ++ kv :: m), rest)).
Proof.
  revert kv fuel data. induction m as [|kv' m IH]; intros [k v] [|fuel] data Hr Hs Hh Hf; try lia; cbn [parse_members];
    change (byte_val dquote =? 34) with true; cbn [negb];
    apply Forall_cons in Hr as [Hv Hr], Hh as [Hhv Hh]; cbn [fst snd members_tail] in *;
    (assert (obj_set k v data = data ++ [(k, v)]) as Hset;
      [apply obj_set_last; rewrite fmap_app in Hs; apply StronglySorted_app in Hs as (Hs & _ & _);
       apply Forall_forall; intros k' Hk'; apply Hs; [done|]; by left|]);
    unfold member_tail in *; cbn [fst snd] in *; rewrite !length_app in Hf; simpl in Hf;
    rewrite <-!app_assoc; cbn [app]; rewrite <-?app_assoc, parse_string_dump; cbn [app];
    change (get_next_token (bytes_of ": " ++ ?b)) with (Some (":"%char, " "%char :: b)); cbn [negb];
    change (byte_val ":"%char =? 58) with true; cbn [negb]; rewrite parse_json_space, string_of_bytes_of.
  - rewrite Hv; [|lia|done|done]. cbn [mbind result_bind]. by rewrite Hset.
  - rewrite Hv; [|lia|done|done]. cbn [mbind result_bind].
    change (get_next_token (bytes_of ", " ++ ?b)) with (Some (","%char, " "%char :: b)).
    change (byte_val ","%char =? 125) with false. change (byte_val ","%char =? 44) with true. cbn [negb].
    change (get_next_token (" "%char :: dquote :: ?b)) with (Some (dquote, b)). cbv beta iota. rewrite Hset.
    etrans; [apply IH; [done| |done|]|]; rewrite <-?app_assoc; [done| |done].
    lia.
Qed.

Lemma height_items l depth :
  depth + foldr Z.max 0 (map (λ j, 1 + height j) l) ≤ max_depth → Forall (λ j, depth + 1 + height j ≤ max_depth) l.
Proof. induction l as [|x l IH]; simpl; intros Hd; constructor; [lia|apply IH; lia]. Qed.

Lemma height_members (m : list (string * Json)) depth :
  depth + foldr Z.max 0 (map (λ kv, 1 + height kv.2) m) ≤ max_depth →
  Forall (λ kv : string * Json, depth + 1 + height kv.2 ≤ max_depth) m.
Proof. induction m as [|x m IH]; simpl; intros Hd; constructor; [lia|apply IH; lia]. Qed.

Lemma height_nonneg j : 0 ≤ height j.
Proof.
  destruct j as [| | | | |l|m]; simpl; try lia; [induction l|induction m]; simpl; lia.
Qed.

Lemma expect_word w j rest : expect w j (w ++ rest) = Some (j, rest).
Proof. unfold expect. by rewrite take_app_length, drop_app_length, decide_True. Qed.

Lemma number_start z rest :
  ∃ c b, bytes_of (to_string z) ++ rest = c :: b ∧ get_next_token (c :: b) = Some (c, b) ∧
    ((byte_val c =? 45) || is_digit c) = true.
Proof.
  destruct (Z.lt_ge_cases z 0) as [Hz|Hz]; [rewrite to_string_neg by done; by eexists _, _|].
  destruct (to_string_nonneg z Hz) as (Hd & _ & c & s & E). rewrite E in *. exists c, (bytes_of s ++ rest).
  simpl in Hd. apply andb_true_iff in Hd as [Hc _]. pose proof (digit_byte c Hc). split_and!; [done| |by rewrite Hc, orb_true_r].
  apply get_next_token_char. unfold is_ws. repeat rewrite (proj2 (Z.eqb_neq (byte_val c) _)) by lia. done.
Qed.

Lemma printable_reads j : printable j → reads j.
Proof.
  induction j as [|b|z|t|s|l IH|m IH] using Json_nested_ind; intros Hj [|fuel] depth rest Hf Hd Hr; try lia;
    pose proof (height_nonneg (JArray [])); simpl in Hd; cbn [parse_json].
  - destruct (Z.ltb_spec max_depth depth); [lia|]. by rewrite <-(expect_word (bytes_of "null") JNull rest).
  - destruct (Z.ltb_spec max_depth depth); [lia|].
    destruct b; [by rewrite <-(expect_word (bytes_of "true") (JBool true) rest)|
                 by rewrite <-(expect_word (bytes_of "false") (JBool false) rest)].
  - destruct (Z.ltb_spec max_depth depth); [lia|]. inversion Hj; subst.
    destruct (number_start z rest) as (c & b & Hb & Htok & Hc). cbn [dump]. rewrite Hb, Htok. cbv beta iota zeta.
    rewrite Hc, <-Hb. by rewrite parse_number_dump.
  - inversion Hj.
  - change (dump (JString s)) with (dump_text s). by apply parse_json_string; lia.
  - destruct (Z.ltb_spec max_depth depth) as [|_].
    { pose proof (height_nonneg (JArray l)). simpl in *. lia. }
    inversion Hj as [| | | |? Hl|]; subst. cbn [dump]. cbn [dump] in Hf. rewrite <-!app_assoc. cbn [app].
    rewrite get_next_token_char by done. cbv beta iota zeta. change (byte_val "["%char) with 91.
    change (is_digit "["%char) with false. cbn [Z.eqb orb Pos.eqb]. destruct l as [|x l]; [done|].
    rewrite Forall_forall in IH. assert (Forall reads (x :: l)) as Hreads.
    { apply Forall_forall. intros j Hin. apply IH; [done|]. by eapply Forall_forall in Hl. }
    pose proof (parse_elements_dump fuel depth x l [] rest Hreads Hl (height_items _ _ Hd)) as He.
    assert (∃ t, separated (map dump (x :: l)) ++ "]"%char :: rest = dump x ++ t) as [t Ht].
    { destruct l as [|y l]; [by eexists|]. cbn [map]. rewrite separated_cons, <-!app_assoc. by eexists. }
    rewrite !length_app in Hf. simpl (length ["["%char]) in Hf. simpl (length ["]"%char]) in Hf.
    rewrite Ht in He |- *. destruct (get_next_token_dump x t) as (c & b & Hb & Htok & Hc); [by inversion Hl|].
    rewrite Hb in He |- *. rewrite Htok, (proj2 (Z.eqb_neq _ _) Hc). apply He. lia.
  - destruct (Z.ltb_spec max_depth depth) as [|_].
    { pose proof (height_nonneg (JObject m)). simpl in *. lia. }
    inversion Hj as [| | | | |? Hs Hm]; subst. cbn [dump]. cbn [dump] in Hf. rewrite <-!app_assoc. cbn [app].
    rewrite get_next_token_char by done. cbv beta iota zeta. change (byte_val "{"%char) with 123.
    change (is_digit "{"%char) with false. cbn [Z.eqb orb Pos.eqb]. destruct m as [|kv m]; [done|].
    rewrite Forall_forall in IH. assert (Forall (λ kv : string * Json, reads kv.2) (kv :: m)) as Hreads.
    { apply Forall_forall. intros j Hin. apply IH; [done|]. by eapply Forall_forall in Hm. }
    rewrite separated_members in Hf |- *. cbn [app]. rewrite get_next_token_char by done.
    change (byte_val dquote =? 125) with false. cbv iota. rewrite !length_app in Hf. simpl in Hf.
    apply (parse_members_dump fuel depth kv m [] rest Hreads Hs (height_members _ _ Hd)). lia.
Qed.

Lemma parse_dump j : printable j → height j ≤ max_depth → parse (dump j) = Ok (j, true).
Proof.
  intros Hj Hh. unfold parse. pose proof (printable_reads j Hj (parse_fuel (dump j)) 0 []) as Hp.
  rewrite app_nil_r in Hp. rewrite Hp; [done|unfold parse_fuel; lia|lia|done].
Qed.

(** C30: every printable value is read back from its printed form, in the middle of a text
    as well as alone: nulls, booleans, any texts, integers of at most nine characters, and
    arrays and objects of such values as deeply nested as the parser accepts, objects with
    their keys in order and distinct, as a map has them.  Doubles and longer integers, which
    the parser reads as doubles, are not covered.  Requests, answers and the configuration
    are such values. *)
Theorem json_roundtrip j :
  printable j → height j ≤ max_depth →
  parse (dump j) = Ok (j, true) ∧
  ∀ rest, delimited rest → parse_json (parse_fuel (dump j)) 0 (dump j ++ rest) = Ok (Some (j, rest)).
Proof.
  intros Hj Hh. split; [by apply parse_dump|]. intros rest Hr. apply printable_reads; [done|unfold parse_fuel; lia|lia|done].
Qed.

End Reading.

#[local] Instance no_floats : CDouble := {| g17 := λ b, b; double_int := λ _, Err Undefined |}.

Lemma json_roundtrip_witness :
  let j := JObject [("a", JArray [JInt (-5); JNull]); ("b", JBool true)] in parse (dump j) = Ok (j, true).
Proof.
  intros j. apply (json_roundtrip j).
  - repeat constructor. all: vm_compute; lia.
  - vm_compute. discriminate.
Defined.


End JsonRoundtrip.
Export JsonRoundtrip.
