(* ===== verification/Request.v ===== *)
(** * RawCommandToRequest of server/command.cc and of redis-cli.cc: words of a command line

    Both programs cut a line into words with the same two loops; they differ in the
    characters a word may hold.  [split_tokens] is the specification: the maximal runs
    of word characters, in order. *)

From stdpp Require Import base list strings.
From Stdlib Require Import Ascii ZArith Lia.
From S2P Require Import Prelude CInt.
Local Open Scope Z_scope.

Module Request.

(** The lambda of command.cc. *)
Definition isTokenMember (c : ascii) : bool :=
  let c := char_val c in
  ((48 <=? c) && (c <=? 57)) || ((97 <=? c) && (c <=? 122)) || ((65 <=? c) && (c <=? 90)).

(** The lambda of redis-cli.cc: also minus, dot and colon. *)
Definition cli_isTokenMember (c : ascii) : bool :=
  let z := char_val c in isTokenMember c || (z =? 45) || (z =? 46) || (z =? 58).

Section Tokens.
Context (tok : ascii → bool).

(** [while (!isTokenMember( *it)) { it++; if (it == cend) return {}; }] *)
Fixpoint skip_to_token (it : bytes) : bytes :=
  match it with
  | [] => []
  | c :: rest => if tok c then it else skip_to_token rest
  end.

(** [while (isTokenMember( *end)) { end++; if (end == raw.end()) break; }] *)
Fixpoint span_token (it : bytes) : bytes * bytes :=
  match it with
  | [] => ([], [])
  | c :: rest => if tok c then let '(w, r) := span_token rest in (c :: w, r) else ([], it)
  end.

Definition nextToken (it : bytes) : bytes * bytes := span_token (skip_to_token it).

(** The loop over the tokens; it ends at the first empty one. *)
Fixpoint tokens (fuel : nat) (it : bytes) : result (list string) :=
  match fuel with
  | O => Err Diverge
  | S fuel =>
      match nextToken it with
      | ([], _) => Ok []
      | (w, it) => cons (string_of w) <$> tokens fuel it
      end
  end.

Definition raw_to_request (raw : string) : result (list string) :=
  tokens (S (String.length raw)) (bytes_of raw).

(** ** The runs of word characters *)

Fixpoint split_tokens (cur it : bytes) : list bytes :=
  match it with
  | [] => if decide (cur = []) then [] else [cur]
  | c :: it =>
      if tok c then split_tokens (cur ++ [c]) it
      else if decide (cur = []) then split_tokens [] it
      else cur :: split_tokens [] it
  end.

Lemma split_tokens_skip it : split_tokens [] it = split_tokens [] (skip_to_token it).
Proof.
  induction it as [|c it IH]; [done|]. simpl. destruct (tok c) eqn:E; [simpl; by rewrite E|done].
Qed.

Lemma split_tokens_span cur it :
  split_tokens cur it
  = let '(w, r) := span_token it in
    if decide (cur ++ w = []) then split_tokens [] r else (cur ++ w) :: split_tokens [] r.
Proof.
  revert cur; induction it as [|c it IH]; intros cur; simpl; [by rewrite app_nil_r|].
  destruct (tok c) eqn:E.
  - rewrite IH. destruct (span_token it) as [w r]. by rewrite <-!app_assoc.
  - rewrite app_nil_r. simpl. rewrite E. by case_decide.
Qed.

Lemma skip_to_token_length it : (length (skip_to_token it) ≤ length it)%nat.
Proof. induction it as [|c it IH]; simpl; [lia|]. destruct (tok c); simpl; lia. Qed.

Lemma span_token_length it w r : span_token it = (w, r) → (length w + length r = length it)%nat.
Proof.
  revert w r; induction it as [|c it IH]; intros w r; simpl; [by intros; simplify_eq|].
  destruct (tok c); [|by intros; simplify_eq/=].
  destruct (span_token it) as [w' r'] eqn:E. intros; simplify_eq/=. rewrite <-(IH _ _ eq_refl). lia.
Qed.

Lemma span_token_nil it r : span_token (skip_to_token it) = ([], r) → skip_to_token it = [].
Proof.
  induction it as [|c it IH]; simpl; [done|]. destruct (tok c) eqn:E; [|done].
  simpl. rewrite E. by destruct (span_token it).
Qed.

Lemma tokens_split fuel it :
  (length it < fuel)%nat → tokens fuel it = Ok (string_of <$> split_tokens [] it).
Proof.
  revert it; induction fuel as [|fuel IH]; intros it Hf; [lia|]. cbn [tokens].
  rewrite split_tokens_skip, split_tokens_span. unfold nextToken.
  destruct (span_token (skip_to_token it)) as [w r] eqn:E.
  pose proof (skip_to_token_length it). pose proof (span_token_length _ _ _ E).
  destruct w as [|c w].
  - apply span_token_nil in E as E'. rewrite E' in E. simpl in E. simplify_eq. done.
  - simpl app. rewrite decide_False by done. rewrite IH by (simpl in *; lia). done.
Qed.

(** The two loops compute the runs; in particular they end. *)
Lemma raw_to_request_split raw :
  raw_to_request raw = Ok (string_of <$> split_tokens [] (bytes_of raw)).
Proof. apply tokens_split. rewrite length_bytes_of. lia. Qed.

(** A word made of word characters. *)
Definition word (w : string) : Prop := w ≠ "" ∧ Forall (λ c, tok c = true) (bytes_of w).

#[export] Instance word_dec w : Decision (word w).
Proof. unfold word. apply _. Defined.

Lemma split_tokens_run cur w r :
  Forall (λ c, tok c = true) w → split_tokens cur (w ++ r) = split_tokens (cur ++ w) r.
Proof.
  intros Hw. revert cur. induction Hw as [|c w Hc Hw IH]; intros cur; simpl; [by rewrite app_nil_r|].
  by rewrite Hc, IH, <-app_assoc.
Qed.

Lemma split_tokens_word w c r :
  word w → tok c = false →
  split_tokens [] (bytes_of w ++ c :: r) = bytes_of w :: split_tokens [] r.
Proof.
  intros [Hne Hw] Hc. rewrite split_tokens_run by done. simpl. rewrite Hc, decide_False; [done|].
  intros H. apply Hne, bytes_of_inj. done.
Qed.

Lemma split_tokens_last w : word w → split_tokens [] (bytes_of w) = [bytes_of w].
Proof.
  intros [Hne Hw]. rewrite <-(app_nil_r (bytes_of w)) at 1. rewrite split_tokens_run by done.
  simpl. rewrite decide_False; [done|]. intros H. apply Hne, bytes_of_inj. done.
Qed.

(** Every word that is found is made of word characters. *)
Lemma split_tokens_words cur it :
  Forall (λ c, tok c = true) cur →
  Forall (λ w, w ≠ [] ∧ Forall (λ c, tok c = true) w) (split_tokens cur it).
Proof.
  revert cur; induction it as [|c it IH]; intros cur Hcur; simpl.
  - case_decide; [constructor|]. by repeat constructor.
  - destruct (tok c) eqn:E.
    + apply IH, Forall_app. by repeat constructor.
    + case_decide; [by apply IH|]. constructor; [done|]. by apply IH.
Qed.

Lemma split_tokens_concat cur it : concat (split_tokens cur it) = cur ++ filter (λ c, tok c = true) it.
Proof.
  revert cur; induction it as [|c it IH]; intros cur; cbn [split_tokens].
  - rewrite app_nil_r. destruct (decide (cur = [])) as [->|]; [done|]. cbn. by rewrite app_nil_r.
  - rewrite filter_cons. destruct (tok c) eqn:E.
    + by rewrite decide_True, IH, <-app_assoc by done.
    + rewrite (decide_False (P := false = true)) by done. destruct (decide (cur = [])) as [->|]; [by rewrite IH|].
      cbn [concat]. by rewrite IH.
Qed.

Lemma raw_to_request_words raw l : raw_to_request raw = Ok l → Forall word l.
Proof.
  rewrite raw_to_request_split. intros [= <-]. apply Forall_fmap.
  eapply Forall_impl; [by apply split_tokens_words|]. intros w [Hne Hw]. split.
  - intros H. apply Hne. rewrite <-(bytes_of_string_of w). simpl in H. by rewrite H.
  - simpl. by rewrite bytes_of_string_of.
Qed.

Hypothesis space : tok " "%char = false.

(** Words followed by blanks, as the Fork functions write them, are found again. *)
Definition words_line (l : list string) : string := foldr (λ w s, w +:+ " " +:+ s) "" l.

Lemma split_words_line l r :
  Forall word l → split_tokens [] (bytes_of (words_line l) ++ r) = (bytes_of <$> l) ++ split_tokens [] r.
Proof.
  induction 1 as [|w l Hw Hl IH]; [done|]. simpl. rewrite !bytes_of_app, <-!app_assoc. simpl.
  rewrite split_tokens_word by done. by rewrite IH.
Qed.

Lemma string_of_bytes_list (l : list string) : string_of <$> (bytes_of <$> l) = l.
Proof. induction l as [|w l IH]; [done|]. by rewrite !fmap_cons, string_of_bytes_of, IH. Qed.

Lemma raw_to_request_line l : Forall word l → raw_to_request (words_line l) = Ok l.
Proof.
  intros Hl. rewrite raw_to_request_split. f_equal.
  rewrite <-(app_nil_r (bytes_of (words_line l))), split_words_line by done.
  change (split_tokens [] []) with (@nil bytes). by rewrite app_nil_r, string_of_bytes_list.
Qed.

Lemma raw_to_request_line_last l w :
  Forall word l → word w → raw_to_request (words_line l +:+ w) = Ok (l ++ [w]).
Proof.
  intros Hl Hw. rewrite raw_to_request_split, bytes_of_app, split_words_line, split_tokens_last by done.
  by rewrite fmap_app, string_of_bytes_list, fmap_cons, string_of_bytes_of.
Qed.

End Tokens.

(** The two programs. *)
Definition RawCommandToRequest (raw : string) : result (list string) := raw_to_request isTokenMember raw.
Definition cli_RawCommandToRequest (raw : string) : result (list string) := raw_to_request cli_isTokenMember raw.

(** ** Properties *)

(** Both tokenizers end on every text; the tokens are words, and together they are
    the word characters of the text, in order. *)
Lemma tokenizers_total raw :
  (∃ l, RawCommandToRequest raw = Ok l ∧ Forall (word isTokenMember) l ∧
        concat (bytes_of <$> l) = filter (λ c, isTokenMember c = true) (bytes_of raw)) ∧
  (∃ l, cli_RawCommandToRequest raw = Ok l ∧ Forall (word cli_isTokenMember) l ∧
        concat (bytes_of <$> l) = filter (λ c, cli_isTokenMember c = true) (bytes_of raw)).
Proof.
  assert (∀ tok, ∃ l, raw_to_request tok raw = Ok l ∧ Forall (word tok) l ∧
          concat (bytes_of <$> l) = filter (λ c, tok c = true) (bytes_of raw)) as Hall.
  { intros tok. exists (string_of <$> split_tokens tok [] (bytes_of raw)).
    pose proof (raw_to_request_split tok raw) as Hr. split_and!; [done|by eapply raw_to_request_words|].
    rewrite <-list_fmap_compose, (list_fmap_ext _ id), list_fmap_id by (intros; apply bytes_of_string_of).
    by rewrite split_tokens_concat. }
  split; apply Hall.
Qed.

(** Words joined by blanks are cut into the same words, by the server's tokenizer
    and by the client's. *)
Lemma tokenizers_words l w :
  Forall (word isTokenMember) l → word isTokenMember w →
  RawCommandToRequest (words_line l +:+ w) = Ok (l ++ [w]) ∧
  cli_RawCommandToRequest (words_line l +:+ w) = Ok (l ++ [w]).
Proof.
  intros Hl Hw.
  assert (∀ w, word isTokenMember w → word cli_isTokenMember w) as Hcli.
  { intros x [Hne Hx]. split; [done|]. eapply Forall_impl; [exact Hx|]. intros c Hc. simpl in Hc.
    unfold cli_isTokenMember. by rewrite Hc. }
  split; apply raw_to_request_line_last; try done; try (by apply Hcli).
  eapply Forall_impl; [exact Hl|done].
Qed.

Lemma tokenizers_words_witness :
  RawCommandToRequest "SET k" = Ok ["SET"; "k"] ∧ cli_RawCommandToRequest "SET k" = Ok ["SET"; "k"].
Proof. apply (tokenizers_words ["SET"] "k"); apply (bool_decide_unpack _); vm_compute; exact I. Defined.

End Request.
Export Request.
