(* ===== verification/Database.v ===== *)
(** * database/db.h, database/db.cc: keys, objects and databases

    [Object] is the class hierarchy of objects/object.h as a sum; [KeyValue] adds the
    key and the expiry; [Db] is one database with its AOF cache.  The numbers of the
    databases come from a table shared by the process ([Registry]).  A [Db] is
    referred to by its address: timers and clients keep pointers to it. *)

From stdpp Require Import base gmap list strings fin_maps.
From Stdlib Require Import Ascii ZArith Lia.
From S2P Require Import Prelude CInt Util Object StrObj Containers ListObj HashObj SetObj ZSetObj.
From S2P Require Import Json Request.
Local Open Scope Z_scope.

Module Database.

(** ** Objects *)

Inductive Object :=
| OStr (s : Str)
| OList (l : List)
| OHash (h : Hash)
| OSet (s : SetT)
| OZSet (z : ZSet).

Definition GetObjectType (o : Object) : ObjectType :=
  match o with
  | OStr s => Str_GetObjectType s
  | OList l => List_GetObjectType l
  | OHash h => Hash_GetObjectType h
  | OSet s => Set_GetObjectType s
  | OZSet z => ZSet_GetObjectType z
  end.

Definition Object_Fork (o : Object) (key : string) : string :=
  match o with
  | OStr s => Str_Fork s key
  | OList l => List_Fork l key
  | OHash h => Hash_Fork h key
  | OSet s => Set_Fork s key
  | OZSet z => ZSet_Fork z key
  end.

Section Codec.
Context `{Compressor} `{HashOrder}.

Definition Object_EncodeValue (compress : bool) (o : Object) : result bytes :=
  match o with
  | OStr s => Str_EncodeValue compress s
  | OList l => List_EncodeValue compress l
  | OHash h => Hash_EncodeValue compress h
  | OSet s => Set_EncodeValue compress s
  | OZSet z => ZSet_EncodeValue compress z
  end.

(** The switch of [KeyValue::Decode]: a fresh object of the type reads its image. *)
Definition Object_DecodeValue (otyp : ObjectType) (source : bytes) : result (Object * bytes) :=
  match otyp with
  | STR => '(s, source) ← Str_DecodeValue source; Ok (OStr s, source)
  | LIST => '(l, source) ← List_DecodeValue source; Ok (OList l, source)
  | HASH => '(h, source) ← Hash_DecodeValue Hash_empty source; Ok (OHash h, source)
  | SET => '(s, source) ← Set_DecodeValue source; Ok (OSet s, source)
  | ZSET => '(z, source) ← ZSet_DecodeValue ZSet_empty source; Ok (OZSet z, source)
  | _ => Err AssertFail
  end.

End Codec.

(** ** KeyValue *)

Record KeyValue := mkKeyValue {
  key_ : Str;
  value_ : Object;
  expire_time_us_ : option Z;
}.

Definition KeyValue_new (k : Str) (v : Object) : KeyValue := mkKeyValue k v None.

(** The copy and move operations carry the key and the value only. *)
Definition KeyValue_copy (kv : KeyValue) : KeyValue := mkKeyValue (key_ kv) (value_ kv) None.

Definition MakeExpireAt (kv : KeyValue) (time_stamp : Z) : KeyValue :=
  mkKeyValue (key_ kv) (value_ kv) (Some time_stamp).
Definition UndoExpire (kv : KeyValue) : KeyValue := mkKeyValue (key_ kv) (value_ kv) None.
Definition GetExpire (kv : KeyValue) : option Z := expire_time_us_ kv.
Definition IsExpire (now : Z) (kv : KeyValue) : bool :=
  match expire_time_us_ kv with None => false | Some t => t <? now end.

Definition KeyValue_Fork (kv : KeyValue) : string := Object_Fork (value_ kv) (Str_GetRaw (key_ kv)).

Section KeyValueCodec.
Context `{Compressor} `{HashOrder}.

Definition InternalPrefixEncode (kv : KeyValue) : result bytes :=
  ret ← (match expire_time_us_ kv with
         | Some us => c ← ObjectTypeToChar EXPIRE_ENTRY; Ok (c :: BitsToString sizeof_size_t us)
         | None => Ok []
         end);
  otyp ← ObjectTypeToChar (GetObjectType (value_ kv));
  Ok (ret ++ [otyp]).

Definition KeyValue_Encode (compress : bool) (kv : KeyValue) : result bytes :=
  prefix ← InternalPrefixEncode kv;
  k ← Str_EncodeValue compress (key_ kv);
  v ← Object_EncodeValue compress (value_ kv);
  Ok (prefix ++ k ++ v).

Definition KeyValue_Decode (source : bytes) : result (KeyValue * bytes) :=
  '(c, source) ← pop_front source;
  otyp ← CharToObjectType c;
  '(expire, source) ← (if decide (otyp = EXPIRE_ENTRY) then
        '(s, source) ← PeekSize source; Ok (Some s, source)
      else Ok (None, source));
  '(otyp, source) ← (if decide (otyp = EXPIRE_ENTRY) then
        '(c, source) ← pop_front source; otyp ← CharToObjectType c; Ok (otyp, source)
      else Ok (otyp, source));
  '(key, source) ← Str_DecodeValue source;
  '(value, source) ← Object_DecodeValue otyp source;
  Ok (mkKeyValue key value expire, source).

End KeyValueCodec.

(** ** The numbers of the databases *)

(** [num_hash] and [number_source]; a missing entry counts as 0. *)
Record Registry := mkRegistry {
  num_hash : gmap Z Z;
  number_source : Z;
}.

Definition Registry_start : Registry := mkRegistry ∅ 0.

Definition taken (m : gmap Z Z) (n : Z) : bool := negb (default 0 (m !! n) =? 0).

(** [while (num_hash[n]) n++;] *)
Fixpoint next_free (fuel : nat) (m : gmap Z Z) (n : Z) : result Z :=
  match fuel with
  | O => Err Diverge
  | S fuel => if taken m n then n' ← int_add n 1; next_free fuel m n' else Ok n
  end.

Definition next_number (m : gmap Z Z) (n : Z) : result Z := next_free (S (size m)) m n.

(** ** Databases *)

(** [DbExpireTimer]: the database by its address. *)
Record DbExpireTimer := mkDbExpireTimer {
  tmr_database_ : nat;
  tmr_obj_name_ : string;
  tmr_expire_us : Z;
}.

Record Db := mkDb {
  db_addr : nat;
  number_ : Z;
  key_value_map_ : list (Str * KeyValue);
  aof_cache_ : bytes;
}.

(** [Db::Db()] advances [number_source]; [Db::Db(int)] does not. *)
Definition Db_new (addr : nat) (r : Registry) : result (Db * Registry) :=
  n ← next_number (num_hash r) (number_source r);
  Ok (mkDb addr n [] [], mkRegistry (<[n := 1]> (num_hash r)) n).

Definition Db_new_number (addr : nat) (r : Registry) (db_number : Z) : result (Db * Registry) :=
  n ← next_number (num_hash r) db_number;
  Ok (mkDb addr n [] [], mkRegistry (<[n := 1]> (num_hash r)) (number_source r)).

(** [Db::~Db()] clears the entry of [number_source]. *)
Definition Db_destroy (r : Registry) : Registry :=
  mkRegistry (<[number_source r := 0]> (num_hash r)) (number_source r).

Definition Number (db : Db) : Z := number_ db.

Definition Db_key (e : Str * KeyValue) : string := data_ e.1.

Definition set_map (db : Db) (m : list (Str * KeyValue)) : Db :=
  mkDb (db_addr db) (number_ db) m (aof_cache_ db).
Definition set_cache (db : Db) (c : bytes) : Db :=
  mkDb (db_addr db) (number_ db) (key_value_map_ db) c.

(** [NewStr], [NewList], [NewSet], [NewZSet] and [NewHash] insert a fresh object of
    their type; the insertion has no effect when the key is present. *)
Definition Db_New `{HashOrder} (db : Db) (key : Str) (o : Object) : Db :=
  set_map db (tbl_insert Db_key (key, KeyValue_new key o) (key_value_map_ db)).1.
Definition NewStr `{HashOrder} (db : Db) (key : Str) : Db := Db_New db key (OStr Str_default).
Definition NewList `{HashOrder} (db : Db) (key : Str) : Db := Db_New db key (OList List_empty).
Definition NewSet `{HashOrder} (db : Db) (key : Str) : Db := Db_New db key (OSet Set_empty).
Definition NewZSet `{HashOrder} (db : Db) (key : Str) : Db := Db_New db key (OZSet ZSet_empty).
Definition NewHash `{HashOrder} (db : Db) (key : Str) : Db := Db_New db key (OHash Hash_empty).

Definition Db_Del (db : Db) (key : Str) : Db * Z :=
  match tbl_find Db_key (data_ key) (key_value_map_ db) with
  | Some _ => (set_map db (tbl_erase Db_key (data_ key) (key_value_map_ db)), 1)
  | None => (db, 0)
  end.

Definition Db_Get (db : Db) (key : Str) : option Object :=
  (λ e, value_ e.2) <$> tbl_find Db_key (data_ key) (key_value_map_ db).

(** An operation on the object that [Get] pointed to. *)
Definition Db_store (db : Db) (key : Str) (o : Object) : Db :=
  set_map db (tbl_update Db_key (data_ key)
    (λ e, (e.1, mkKeyValue (key_ e.2) o (expire_time_us_ e.2))) (key_value_map_ db)).

Definition ExpireAt (db : Db) (key : Str) (time_point_us : Z) : Db * option DbExpireTimer :=
  match tbl_find Db_key (data_ key) (key_value_map_ db) with
  | None => (db, None)
  | Some _ =>
      (set_map db (tbl_update Db_key (data_ key) (λ e, (e.1, MakeExpireAt e.2 time_point_us)) (key_value_map_ db)),
       Some (mkDbExpireTimer (db_addr db) (Str_GetRaw key) time_point_us))
  end.

(** [now] is [UsTime()]; the difference is computed in [size_t]. *)
Definition WhenExpire (db : Db) (now : Z) (key : Str) : string :=
  match tbl_find Db_key (data_ key) (key_value_map_ db) with
  | None => "(nil)"
  | Some e =>
      match GetExpire e.2 with
      | Some time_point => to_string (to_size (time_point - now) / 990000)
      | None => "never"
      end
  end.

Definition SELECT_DB_ : ascii := "s"%char.

Section DbCodec.
Context `{Compressor} `{HashOrder}.

Definition Db_Save (compress : bool) (db : Db) : result bytes :=
  match key_value_map_ db with
  | [] => Ok []
  | m =>
      body ← concatM (λ e, KeyValue_Encode compress e.2) m;
      Ok ([SELECT_DB_] ++ BitsToString sizeof_int (number_ db)
          ++ BitsToString sizeof_size_t (Z.of_nat (length m)) ++ body)
  end.

(** The body of the loop of [Db::Load]: the timer of a key with an expiry, and the insertion. *)
Definition Db_load_kv (st : Db * list DbExpireTimer) (kv : KeyValue) : Db * list DbExpireTimer :=
  let '(db, timers) := st in
  let timers := match GetExpire kv with
                | Some t => timers ++ [mkDbExpireTimer (db_addr db) (Str_GetRaw (key_ kv)) t]
                | None => timers
                end in
  (set_map db (tbl_insert Db_key (key_ kv, kv) (key_value_map_ db)).1, timers).

(** [Db::Load] with the timers it hands to the loop. *)
Definition Db_Load (db : Db) (source : bytes) : result ((Db * list DbExpireTimer) * bytes) :=
  '(s, source) ← pop_front source;
  if negb (Ascii.eqb s SELECT_DB_) then Err RuntimeError
  else
    '(number, source) ← PeekInt source;
    '(n, source) ← PeekSize source;
    decode_loop KeyValue_Decode Db_load_kv (Z.to_nat n)
      (mkDb (db_addr db) number (key_value_map_ db) (aof_cache_ db), []) source.

End DbCodec.

(** The command that selects a database from a script. *)
Definition select_line (password : string) (db : Db) : string :=
  "SELECT " +:+ to_string (number_ db) +:+ " " +:+ password.

Definition Db_Fork (password : string) (db : Db) : result (list bytes) :=
  sel ← RawCommandToRequest (select_line password db);
  cmds ← mapM_result (λ e, cmd ← RawCommandToRequest (KeyValue_Fork e.2); Ok (dump_array cmd))
           (key_value_map_ db);
  Ok (dump_array sel :: cmds).

Definition AppendAOF `{CDouble} (db : Db) (request : list Json) : Db :=
  set_cache db (aof_cache_ db ++ dump (JArray request)).

Definition ExportAOF (password : string) (db : Db) : result (Db * bytes) :=
  sel ← RawCommandToRequest (select_line password db);
  match aof_cache_ db with
  | [] => Ok (db, [])
  | cache => Ok (set_cache db [], dump_array sel ++ cache)
  end.

(** ** Numbers: the search ends at the first free number *)

Lemma next_free_delete fuel m k n : k < n → next_free fuel (delete k m) n = next_free fuel m n.
Proof.
  revert n; induction fuel as [|fuel IH]; intros n Hk; simpl; [done|].
  unfold taken. rewrite lookup_delete_ne by lia. destruct (negb _); [|done].
  unfold int_add, int_check. destruct (is_intb (n + 1)); simpl; [apply IH; lia|done].
Qed.

Lemma next_free_first fuel m n :
  (size m < fuel)%nat → is_int n → (∀ k, n ≤ k → taken m k = true → k < INT_MAX) →
  ∃ n', next_free fuel m n = Ok n' ∧ n ≤ n' ∧ is_int n' ∧
        taken m n' = false ∧ ∀ k, n ≤ k < n' → taken m k = true.
Proof.
  revert m n; induction fuel as [|fuel IH]; intros m n Hf Hn Hmax; [lia|]. simpl.
  destruct (taken m n) eqn:Ht; [|exists n; split_and!; [done|lia|done|done|lia]].
  assert (∃ v, m !! n = Some v) as [v Hv].
  { unfold taken in Ht. destruct (m !! n) as [v|] eqn:Hv; [by exists v|done]. }
  assert (S (size (delete n m)) = size m) as Hs.
  { rewrite map_size_delete, Hv. assert (size m ≠ 0)%nat; [|lia]. intros Hz.
    apply map_size_empty_inv in Hz. subst. by rewrite lookup_empty in Hv. }
  pose proof (Hmax n ltac:(lia) Ht) as Hlt.
  assert (is_int (n + 1)) as Hn1 by (unfold is_int in *; lia).
  unfold int_add. rewrite int_check_is by done. cbn [mbind result_bind].
  assert (∀ k, n < k → taken (delete n m) k = taken m k) as Hdel.
  { intros k Hk. unfold taken. by rewrite lookup_delete_ne by lia. }
  destruct (IH (delete n m) (n + 1)) as (n' & Hn' & Hr & Hi & Hfree & Hall); [lia|done| |].
  { intros k Hk. rewrite Hdel by lia. apply Hmax. lia. }
  rewrite next_free_delete in Hn' by lia. exists n'. split_and!; [done|lia|done| |].
  - by rewrite Hdel in Hfree by lia.
  - intros k Hk. destruct (decide (k = n)) as [->|]; [done|].
    rewrite <-Hdel by lia. apply Hall. lia.
Qed.

(** ** The abstract state of a database *)

Definition Db_map (db : Db) : gmap string KeyValue := snd <$> tbl_map Db_key (key_value_map_ db).

Definition Object_wf (o : Object) : Prop :=
  match o with
  | OStr s => Str_wf s
  | OList l => Forall Str_wf l
  | OHash h => Hash_wf h
  | OSet s => Set_wf s
  | OZSet z => ZSet_wf z
  end.

(** Keys are distinct, an entry carries the key it is filed under, objects are well formed. *)
Record Db_wf (db : Db) : Prop := {
  wf_db_keys : tbl_wf Db_key (key_value_map_ db);
  wf_db_entries : Forall (λ e, key_ e.2 = e.1 ∧ Str_wf e.1 ∧ Object_wf (value_ e.2)) (key_value_map_ db);
}.

Lemma Db_map_lookup db k : Db_map db !! k = snd <$> tbl_find Db_key k (key_value_map_ db).
Proof. unfold Db_map. by rewrite lookup_fmap, tbl_map_find. Qed.

Lemma Db_Get_map db key : Db_Get db key = value_ <$> Db_map db !! data_ key.
Proof. unfold Db_Get. rewrite Db_map_lookup, <-option_fmap_compose. done. Qed.

Lemma Db_Del_map db key :
  Db_map (Db_Del db key).1 = delete (data_ key) (Db_map db) ∧
  (Db_Del db key).2 = (if decide (is_Some (Db_map db !! data_ key)) then 1 else 0).
Proof.
  unfold Db_Del. rewrite Db_map_lookup. destruct (tbl_find _ _ _) as [e|] eqn:Hf; simpl.
  - split; [|done]. unfold Db_map. simpl. by rewrite tbl_erase_map, fmap_delete.
  - split; [|done].
    rewrite delete_id; [done|]. by rewrite Db_map_lookup, Hf.
Qed.

Lemma Db_store_map db key o :
  Db_map (Db_store db key o)
  = alter (λ kv, mkKeyValue (key_ kv) o (expire_time_us_ kv)) (data_ key) (Db_map db).
Proof.
  apply map_eq. intros k. rewrite lookup_alter, !Db_map_lookup. simpl. rewrite tbl_update_find by done.
  case_decide as Hk; [|done]. subst. by destruct (tbl_find _ _ _).
Qed.

Lemma ExpireAt_map db key t :
  Db_map (ExpireAt db key t).1 = alter (λ kv, MakeExpireAt kv t) (data_ key) (Db_map db).
Proof.
  apply map_eq. intros k. rewrite lookup_alter, !Db_map_lookup. unfold ExpireAt.
  destruct (tbl_find Db_key (data_ key) _) as [e|] eqn:Hf; simpl.
  - rewrite tbl_update_find by done. case_decide as Hk; [|done]. subst. by rewrite Hf.
  - case_decide; [|done]. subst. by rewrite Hf.
Qed.

Lemma Db_New_map `{HashOrder} db key o :
  Db_wf db → Db_map db !! data_ key = None →
  Db_map (Db_New db key o) = <[data_ key := KeyValue_new key o]> (Db_map db).
Proof.
  intros [Hwf _] Hk. rewrite Db_map_lookup in Hk. apply fmap_None in Hk. unfold Db_map. simpl.
  destruct (tbl_insert_map Db_key (key, KeyValue_new key o) (key_value_map_ db) Hwf) as [-> _].
  change (Db_key (key, KeyValue_new key o)) with (data_ key). rewrite Hk. by rewrite fmap_insert.
Qed.

(** *** The operations keep a database well formed *)

Lemma Db_New_wf `{HashOrder} db key o : Str_wf key → Object_wf o → Db_wf db → Db_wf (Db_New db key o).
Proof.
  intros Hk Ho [Hwf Hall]. split; simpl; [by apply tbl_insert_wf|].
  destruct (tbl_find Db_key (data_ key) (key_value_map_ db)) eqn:Hf.
  - unfold tbl_insert. change (Db_key (key, KeyValue_new key o)) with (data_ key). by rewrite Hf.
  - rewrite tbl_insert_perm by done. by constructor.
Qed.

Lemma Db_Del_wf db key : Db_wf db → Db_wf (Db_Del db key).1.
Proof.
  intros [Hwf Hall]. unfold Db_Del. destruct (tbl_find _ _ _); [|done]. split; simpl.
  - by apply tbl_erase_wf.
  - by apply Forall_filter_keep.
Qed.

Lemma Db_store_wf db key o : Object_wf o → Db_wf db → Db_wf (Db_store db key o).
Proof.
  intros Ho [Hwf Hall]. split; simpl; [by apply tbl_update_wf|].
  apply Forall_tbl_update; [|done]. intros [k kv]. simpl. naive_solver.
Qed.

Lemma ExpireAt_wf db key t : Db_wf db → Db_wf (ExpireAt db key t).1.
Proof.
  intros [Hwf Hall]. unfold ExpireAt. destruct (tbl_find _ _ _); [|done]. split; simpl.
  - by apply tbl_update_wf.
  - apply Forall_tbl_update; [|done]. intros [k kv]. simpl. naive_solver.
Qed.

Lemma Db_Get_wf db key o : Db_wf db → Db_Get db key = Some o → Object_wf o.
Proof.
  intros [_ Hall]. unfold Db_Get. intros (e & [He _]%tbl_find_Some & ->)%fmap_Some.
  eapply Forall_forall in Hall; [|done]. naive_solver.
Qed.

(** ** Saving and loading *)

(** Equal for every command: containers without an order may be enumerated in another
    one, and a sorted set may have other nodes. *)
Definition obj_equiv (o o' : Object) : Prop :=
  match o, o' with
  | OStr s, OStr s' => s = s'
  | OList l, OList l' => l = l'
  | OHash h, OHash h' => h ≡ₚ h'
  | OSet s, OSet s' => s ≡ₚ s'
  | OZSet z, OZSet z' => ZSet_view z = ZSet_view z'
  | _, _ => False
  end.

Definition kv_equiv (kv kv' : KeyValue) : Prop :=
  key_ kv = key_ kv' ∧ expire_time_us_ kv = expire_time_us_ kv' ∧ obj_equiv (value_ kv) (value_ kv').

#[export] Instance obj_equiv_equivalence : Equivalence obj_equiv.
Proof.
  split.
  - intros []; simpl; done.
  - intros [] []; simpl; done || (by intros ->).
  - intros [] [] []; simpl; try done; intros; by etrans.
Qed.

#[export] Instance kv_equiv_equivalence : Equivalence kv_equiv.
Proof.
  split.
  - intros kv. done.
  - intros kv kv' (? & ? & ?). done.
  - intros kv1 kv2 kv3 (? & ? & ?) (? & ? & ?). split_and!; etrans; done.
Qed.

(** The same number, and equal entries under the same keys. *)
Definition Db_equiv (db db' : Db) : Prop :=
  number_ db = number_ db' ∧ ∀ k, option_Forall2 kv_equiv (Db_map db !! k) (Db_map db' !! k).

(** What an image can carry without changing it. *)
Definition Object_stable (o : Object) : Prop :=
  match o with
  | OStr s => Str_stable s
  | OList l => image_size l ∧ Forall Str_stable l
  | OHash h => image_size h ∧ tbl_wf Hash_key h ∧ Forall (λ e, Str_stable e.1 ∧ Str_stable e.2) h
  | OSet s => image_size s ∧ tbl_wf data_ s ∧ Forall Str_stable s
  | OZSet z => ZSet_wf z ∧ image_size (sequence_list_ z) ∧
               Forall (λ n, Str_stable (node_member n)) (sequence_list_ z)
  end.

Definition KeyValue_stable (kv : KeyValue) : Prop :=
  Str_stable (key_ kv) ∧ Object_stable (value_ kv) ∧
  match expire_time_us_ kv with Some t => is_size t | None => True end.

Record Db_stable (db : Db) : Prop := {
  stable_number : is_int (number_ db);
  stable_size : image_size (key_value_map_ db);
  stable_keys : tbl_wf Db_key (key_value_map_ db);
  stable_entries : Forall (λ e, key_ e.2 = e.1 ∧ KeyValue_stable e.2) (key_value_map_ db);
}.

Section Survive.
Context `{CompressorLaws} `{HashOrder}.

Lemma Object_stable_survives compress o :
  Object_stable o →
  ∃ o', survives (Object_EncodeValue compress) (Object_DecodeValue (GetObjectType o)) o o' ∧
        obj_equiv o o' ∧ GetObjectType o' = GetObjectType o.
Proof.
  destruct o as [s|l|h|s|z]; simpl; intros Hs.
  - destruct (Str_stable_survives compress s Hs) as (b & Hb & Hd).
    exists (OStr s). split; [|done]. exists b. split; [done|]. intros rest. simpl. by rewrite Hd.
  - destruct Hs as [Hz Hs]. destruct (List_stable_survives compress l Hz Hs) as (b & Hb & Hd).
    exists (OList l). split; [|done]. exists b. split; [done|]. intros rest. simpl. by rewrite Hd.
  - destruct Hs as (Hz & Hw & Hs). destruct (Hash_stable_survives compress h Hz Hw Hs) as (h' & (b & Hb & Hd) & Hp).
    exists (OHash h'). split; [|done]. exists b. split; [done|]. intros rest. simpl. by rewrite Hd.
  - destruct Hs as (Hz & Hw & Hs). destruct (Set_stable_survives compress s Hz Hw Hs) as (s' & (b & Hb & Hd) & Hp).
    exists (OSet s'). split; [|done]. exists b. split; [done|]. intros rest. simpl. by rewrite Hd.
  - destruct Hs as (Hw & Hz & Hs). destruct (ZSet_stable_survives compress z Hw Hz Hs) as (z' & (b & Hb & Hd) & _ & Hv).
    exists (OZSet z'). split; [|done]. exists b. split; [done|]. intros rest. simpl. by rewrite Hd.
Qed.

Lemma ObjectTypeToChar_value o :
  ∃ c, ObjectTypeToChar (GetObjectType o) = Ok c ∧ CharToObjectType c = Ok (GetObjectType o) ∧
       GetObjectType o ≠ EXPIRE_ENTRY.
Proof. destruct o; simpl; eexists; done. Qed.

Lemma KeyValue_stable_survives compress kv :
  KeyValue_stable kv →
  ∃ kv', survives (KeyValue_Encode compress) KeyValue_Decode kv kv' ∧ kv_equiv kv kv'.
Proof.
  intros (Hk & Ho & He).
  destruct (Object_stable_survives compress _ Ho) as (o' & (bo & Eo & Do) & Heq & _).
  destruct (Str_stable_survives compress _ Hk) as (bk & Ek & Dk).
  destruct (ObjectTypeToChar_value (value_ kv)) as (c & Hc & Hc' & Hne).
  exists (mkKeyValue (key_ kv) o' (expire_time_us_ kv)). split; [|done].
  unfold survives, KeyValue_Encode, InternalPrefixEncode. rewrite Hc, Ek, Eo.
  destruct (expire_time_us_ kv) as [t|]; cbn [mbind result_bind ObjectTypeToChar];
    (eexists; split; [done|]; intros rest; unfold KeyValue_Decode; rewrite <-!app_assoc; cbn [app]).
  - change (pop_front (byte_of 6 :: ?x)) with (Ok (byte_of 6, x)). cbn [mbind result_bind].
    change (CharToObjectType (byte_of 6)) with (@Ok ObjectType EXPIRE_ENTRY). cbn [mbind result_bind].
    rewrite decide_True by done. rewrite PeekSize_Bits by done.
    cbn [mbind result_bind pop_front]. rewrite Hc'. cbn [mbind result_bind].
    rewrite decide_True by done. cbn [mbind result_bind]. rewrite Dk. cbn [mbind result_bind]. by rewrite Do.
  - change (pop_front (c :: ?x)) with (Ok (c, x)). cbn [mbind result_bind]. rewrite Hc'. cbn [mbind result_bind].
    rewrite decide_False by done. cbn [mbind result_bind]. rewrite decide_False by done. cbn [mbind result_bind].
    rewrite Dk. cbn [mbind result_bind]. by rewrite Do.
Qed.

(** The timers of the loaded keys. *)
Definition kv_timer (addr : nat) (kv : KeyValue) : option DbExpireTimer :=
  mkDbExpireTimer addr (Str_GetRaw (key_ kv)) <$> GetExpire kv.

Lemma Db_load_kvs l db ts :
  fold_left Db_load_kv l (db, ts)
  = (set_map db (fold_left (λ m e, (tbl_insert Db_key e m).1) ((λ kv, (key_ kv, kv)) <$> l) (key_value_map_ db)),
     ts ++ omap (kv_timer (db_addr db)) l).
Proof.
  revert db ts; induction l as [|kv l IH]; intros db ts; cbn [fold_left].
  - rewrite app_nil_r. by destruct db.
  - rewrite fmap_cons. cbn [fold_left]. unfold Db_load_kv at 2. rewrite IH. simpl. f_equal.
    unfold kv_timer at 2. destruct (GetExpire kv); simpl; [by rewrite <-app_assoc|done].
Qed.

(** *** Tables whose entries correspond *)

Definition entries (l : list KeyValue) : list (Str * KeyValue) := (λ kv, (key_ kv, kv)) <$> l.

Section Entries.
Context (db : Db) (l' : list KeyValue).
Hypothesis Hwf : tbl_wf Db_key (key_value_map_ db).
Hypothesis Hkeys : Forall (λ e, key_ e.2 = e.1) (key_value_map_ db).
Hypothesis Hl : Forall2 (λ e, kv_equiv e.2) (key_value_map_ db) l'.

Lemma entries_wf : tbl_wf Db_key (entries l').
Proof.
  unfold tbl_wf in *. assert (Db_key <$> entries l' = Db_key <$> key_value_map_ db) as ->; [|done].
  clear Hwf. revert Hkeys. induction Hl as [|e kv m l [Hk _] Hl' IH]; [done|]. inversion 1 as [|?? He Hm]; subst.
  unfold entries in *. rewrite !fmap_cons, IH by done. f_equal. unfold Db_key. simpl. by rewrite <-Hk, He.
Qed.

Lemma entries_equiv db' :
  number_ db = number_ db' → key_value_map_ db' ≡ₚ entries l' → Db_equiv db db'.
Proof.
  intros Hn Hp. split; [done|]. intros k. rewrite !Db_map_lookup.
  rewrite <-(tbl_find_perm Db_key k _ _ entries_wf (symmetry Hp)).
  clear Hwf Hp Hn. revert Hkeys. induction Hl as [|e kv m l Hkv Hl' IH]; [constructor|].
  inversion 1 as [|?? He Hm]; subst. unfold entries. rewrite fmap_cons. cbn [tbl_find].
  assert (Db_key (key_ kv, kv) = Db_key e) as ->.
  { destruct Hkv as [Hk _]. unfold Db_key. simpl. by rewrite <-Hk, He. }
  case_decide; [by constructor|]. by apply IH.
Qed.

Lemma Db_map_elem k kv :
  Db_map db !! k = Some kv ↔ ∃ e, e ∈ key_value_map_ db ∧ Db_key e = k ∧ e.2 = kv.
Proof.
  rewrite Db_map_lookup, fmap_Some. split.
  - intros (e & [He Hk]%tbl_find_Some & ->). eauto.
  - intros (e & He & <- & <-). exists e. split; [|done]. by apply tbl_find_elem.
Qed.

Lemma entries_timers addr t :
  t ∈ omap (kv_timer addr) l' ↔ ∃ k kv, Db_map db !! k = Some kv ∧ kv_timer addr kv = Some t.
Proof.
  assert (∀ kv kv', kv_equiv kv kv' → kv_timer addr kv = kv_timer addr kv') as Ht.
  { intros kv kv' (Hk & He & _). unfold kv_timer, GetExpire. by rewrite Hk, He. }
  rewrite list_elem_of_omap. setoid_rewrite Db_map_elem. split.
  - intros (kv' & Hin & Hk). apply list_elem_of_lookup in Hin as [i Hi].
    eapply Forall2_lookup_r in Hl as (e & He & Heq); [|done].
    exists (Db_key e), e.2. rewrite (Ht _ _ Heq). split; [|done]. exists e. split_and!; [|done..].
    by eapply list_elem_of_lookup_2.
  - intros (k & kv & (e & Hin & <- & <-) & Hk). apply list_elem_of_lookup in Hin as [i Hi].
    eapply Forall2_lookup_l in Hl as (kv' & Hi' & Heq); [|done].
    exists kv'. rewrite <-(Ht _ _ Heq). split; [|done]. by eapply list_elem_of_lookup_2.
Qed.

End Entries.

(** A database that is saved is loaded into an equal one, whatever follows it in the
    file; the loader starts a timer for each key with an expiry, and no other. *)
Lemma Db_stable_survives compress db :
  Db_stable db → key_value_map_ db ≠ [] →
  ∃ b, Db_Save compress db = Ok b ∧ b ≠ [] ∧
  ∀ addr number0, ∃ db' ts,
    Db_equiv db db' ∧ db_addr db' = addr ∧ aof_cache_ db' = [] ∧
    (∀ t, t ∈ ts ↔ ∃ k kv, Db_map db !! k = Some kv ∧ kv_timer addr kv = Some t) ∧
    ∀ rest, Db_Load (mkDb addr number0 [] []) (b ++ rest) = Ok ((db', ts), rest).
Proof.
  intros [Hn Hsz Hwf Hall] Hne.
  destruct (decode_loop_survives_rel (λ e : Str * KeyValue, KeyValue_Encode compress e.2) KeyValue_Decode
    Db_load_kv (λ e, kv_equiv e.2) (key_value_map_ db)) as (b & l' & Hb & Hl & Hd).
  { intros e He. eapply Forall_forall in Hall as [_ Hst]; [|done].
    destruct (KeyValue_stable_survives compress e.2 Hst) as (kv' & (b & Hb & Hd) & Heq).
    exists kv'. split; [|done]. by exists b. }
  assert (Forall (λ e : Str * KeyValue, key_ e.2 = e.1) (key_value_map_ db)) as Hkeys.
  { eapply Forall_impl; [exact Hall|]. naive_solver. }
  set (pre := BitsToString sizeof_int (number_ db) ++
              BitsToString sizeof_size_t (Z.of_nat (length (key_value_map_ db)))).
  assert (Db_Save compress db = Ok (SELECT_DB_ :: pre ++ b)) as Hsave.
  { unfold Db_Save, pre. destruct (key_value_map_ db); [done|]. rewrite Hb.
    cbn [mbind result_bind app]. by rewrite <-app_assoc. }
  exists (SELECT_DB_ :: pre ++ b). split_and!; [done|done|]. intros addr number0.
  assert (∀ rest, Db_Load (mkDb addr number0 [] []) ((SELECT_DB_ :: pre ++ b) ++ rest)
                  = Ok (fold_left Db_load_kv l' (mkDb addr (number_ db) [] [], []), rest)) as Hload.
  { intros rest. unfold Db_Load, pre. cbn [app pop_front mbind result_bind].
    change (Ascii.eqb SELECT_DB_ SELECT_DB_) with true. cbn [negb].
    rewrite <-!app_assoc, PeekInt_Bits by done. cbn [mbind result_bind].
    rewrite PeekSize_Bits by done. cbn [mbind result_bind]. rewrite Nat2Z.id. apply Hd. }
  rewrite Db_load_kvs in Hload. eexists _, _. split_and!; [..|exact Hload].
  - eapply entries_equiv; [done..|]. simpl.
    apply (tbl_inserts_perm Db_key (entries l') []). by eapply entries_wf.
  - done.
  - done.
  - intros t. by apply entries_timers.
Qed.

End Survive.

(** ** Properties *)

(** A new database gets the first number from [number_source] on that no database
    has taken; the search ends. *)
Lemma Db_new_first_free addr r :
  is_int (number_source r) → (∀ k, number_source r ≤ k → taken (num_hash r) k = true → k < INT_MAX) →
  ∃ n r', Db_new addr r = Ok (mkDb addr n [] [], r') ∧
    number_source r ≤ n ∧ taken (num_hash r) n = false ∧
    (∀ k, number_source r ≤ k < n → taken (num_hash r) k = true) ∧
    number_source r' = n ∧ ∀ k, taken (num_hash r') k = true ↔ k = n ∨ taken (num_hash r) k = true.
Proof.
  intros Hs Hmax. unfold Db_new, next_number.
  destruct (next_free_first (S (size (num_hash r))) (num_hash r) (number_source r)) as (n & -> & Hle & _ & Hf & Hall); [lia|done|done|].
  cbn [mbind result_bind]. eexists _, _. split_and!; [done|done|done|done|done|]. intros k. unfold taken. cbn [num_hash].
  rewrite lookup_insert. case_decide; [subst; naive_solver|naive_solver].
Qed.

Lemma Db_new_first_free_witness :
  ∃ n r', Db_new 7 (mkRegistry {[0 := 1; 1 := 1]} 0) = Ok (mkDb 7 n [] [], r') ∧ 0 ≤ n.
Proof.
  destruct (Db_new_first_free 7 (mkRegistry {[0 := 1; 1 := 1]} 0)) as (n & r' & Hn & Hle & _); [done| |by exists n, r'].
  cbn [num_hash number_source]. intros k _. unfold taken. destruct (decide (k = 0)) as [->|]; [done|].
  destruct (decide (k = 1)) as [->|]; [done|]. by rewrite lookup_insert_ne, lookup_singleton_ne.
Defined.

(** Destroying any database gives up the number of the one created last: the next
    one created gets that number again, while its first holder is still there. *)
Theorem Db_destroy_frees_last addr addr' r db r' :
  Db_new addr r = Ok (db, r') →
  ∃ db' r'', Db_new addr' (Db_destroy r') = Ok (db', r'') ∧ Number db' = Number db.
Proof.
  unfold Db_new. intros Hx. inv_exec. unfold next_number. cbn [Db_destroy num_hash number_source next_free].
  unfold taken. rewrite lookup_insert_eq. cbn. by eexists _, _.
Qed.

Lemma Db_destroy_frees_last_witness :
  ∃ db' r'', Db_new 1 (Db_destroy (mkRegistry {[0 := 1]} 0)) = Ok (db', r'') ∧ Number db' = 0.
Proof. apply (Db_destroy_frees_last 0 1 Registry_start (mkDb 0 0 [] [])). reflexivity. Defined.

(** The operations of a database on its keys: [NewStr] and the other constructors
    add a fresh object under an unused key and change nothing otherwise; [Del] removes
    the key and answers whether it was there; [ExpireAt] leaves the objects alone and
    hands out a timer for the key if it exists. *)
Lemma Db_key_operations `{HashOrder} db key :
  Db_wf db →
  (∀ o k, Db_Get (Db_New db key o) k =
     if decide (data_ key = data_ k) then Some (default o (Db_Get db key)) else Db_Get db k) ∧
  (∀ k, Db_Get (Db_Del db key).1 k = if decide (data_ key = data_ k) then None else Db_Get db k) ∧
  (Db_Del db key).2 = (if decide (is_Some (Db_Get db key)) then 1 else 0) ∧
  (∀ t k, Db_Get (ExpireAt db key t).1 k = Db_Get db k) ∧
  (∀ t, (ExpireAt db key t).2 =
     if decide (is_Some (Db_Get db key)) then Some (mkDbExpireTimer (db_addr db) (data_ key) t) else None).
Proof.
  intros Hwf. split_and!.
  - intros o k. unfold Db_Get, Db_New, set_map. cbn [key_value_map_].
    rewrite (tbl_insert_find Db_key) by apply (wf_db_keys db Hwf). change (Db_key (key, KeyValue_new key o)) with (data_ key).
    case_decide as E; [|done]. rewrite E. by destruct (tbl_find Db_key (data_ k) (key_value_map_ db)).
  - intros k. rewrite !Db_Get_map. destruct (Db_Del_map db key) as [-> _].
    case_decide as E; [rewrite <-E; by rewrite lookup_delete_eq|by rewrite lookup_delete_ne].
  - destruct (Db_Del_map db key) as [_ ->]. rewrite Db_Get_map. destruct (Db_map db !! data_ key); done.
  - intros t k. rewrite !Db_Get_map, ExpireAt_map. destruct (decide (data_ key = data_ k)) as [E|E].
    + rewrite <-E, lookup_alter_eq. by destruct (Db_map db !! data_ key).
    + by rewrite lookup_alter_ne.
  - intros t. unfold ExpireAt, Db_Get. by destruct (tbl_find Db_key (data_ key) (key_value_map_ db)).
Qed.

#[local] Existing Instance front_order.

Lemma Db_key_operations_witness :
  Db_Get (Db_New (mkDb 0 0 [] []) (Str_new "k") (OStr Str_default)) (Str_new "k") = Some (OStr Str_default).
Proof. apply (Db_key_operations (mkDb 0 0 [] []) (Str_new "k")). split; constructor. Defined.

End Database.
Export Database.
