(* ===== verification/Rdb.v ===== *)
(** * database/disk.cc, database/rdb.cc, AOFSave of database/aof.cc: files

    The file system is a map from names to contents; a [FileManager] is the name of its
    file.  [RDBSave] rewrites the file from the images of the databases, [RDBLoad]
    rebuilds the databases from its contents. *)

From stdpp Require Import base gmap list sets strings fin_maps.
From Stdlib Require Import Ascii ZArith Lia.
From S2P Require Import Prelude CInt Util Object StrObj Containers ListObj HashObj SetObj ZSetObj.
From S2P Require Import Json Request Database.
Local Open Scope Z_scope.

Module Disk.

Abbreviation files := (gmap string bytes).

(** The constructor and [Change]: the file is created when it does not exist; no file has
    the empty name. *)
Definition FileManager_open (fs : files) (filename : string) : files :=
  match fs !! filename with
  | Some _ => fs
  | None => if String.eqb filename "" then fs else <[filename := []]> fs
  end.

(** [std::filesystem::resize_file] throws when there is no such file. *)
Definition Truncate (fs : files) (filename : string) : result files :=
  match fs !! filename with Some _ => Ok (<[filename := []]> fs) | None => Err RuntimeError end.

(** [ios::app]: the bytes go to the end of the file. *)
Definition Write (fs : files) (filename : string) (b : bytes) : files :=
  <[filename := default [] (fs !! filename) ++ b]> fs.

Definition LoadAndExport (fs : files) (filename : string) : result bytes :=
  match fs !! filename with Some b => Ok b | None => Err RuntimeError end.

Definition Size (fs : files) (filename : string) : result Z :=
  match fs !! filename with Some b => Ok (Z.of_nat (length b)) | None => Err RuntimeError end.

Lemma Write_all fs filename l b :
  fs !! filename = Some b →
  fold_left (λ fs x, Write fs filename x) l fs !! filename = Some (b ++ concat l).
Proof.
  revert fs b; induction l as [|x l IH]; intros fs b Hb; simpl; [by rewrite app_nil_r|].
  rewrite (IH _ (b ++ x)); [by rewrite <-app_assoc|]. unfold Write. by rewrite Hb, lookup_insert_eq.
Qed.

End Disk.
Export Disk.

Module Rdb.

Definition RDBSave (database_sources : list bytes) (fs : files) (dump_file : string) : result files :=
  fs ← Truncate fs dump_file;
  let fs := Write fs dump_file (bytes_of "RDB") in
  Ok (fold_left (λ fs db, Write fs dump_file db) database_sources fs).

Definition AOFSave (database_sources : list bytes) (fs : files) (dump_file : string) : files :=
  fold_left (λ fs db, Write fs dump_file db) database_sources fs.

(** What [RDBLoad] works on: the databases and timers so far, the table of numbers and
    the next free address. *)
Record Loading := mkLoading {
  loaded : list Db;
  load_timers : list DbExpireTimer;
  load_registry : Registry;
  load_addr : nat;
}.

Section Load.
Context `{Compressor} `{HashOrder}.

(** [while (!source->empty()) { ... }] *)
Fixpoint rdb_loop (fuel : nat) (st : Loading) (source : bytes) : result Loading :=
  match source with
  | [] => Ok st
  | _ =>
      match fuel with
      | O => Err Diverge
      | S fuel =>
          '(db, r) ← Db_new (load_addr st) (load_registry st);
          '(db, ts, source) ← Db_Load db source;
          rdb_loop fuel (mkLoading (loaded st ++ [db]) (load_timers st ++ ts) r (S (load_addr st))) source
      end
  end.

Definition RDBLoad (addr : nat) (r : Registry) (source : bytes) : result Loading :=
  '(rdb_str, source) ← PeekString source 3;
  if negb (bool_decide (rdb_str = bytes_of "RDB")) then Ok (mkLoading [] [] r addr)
  else rdb_loop (S (length source)) (mkLoading [] [] r addr) source.

End Load.

(** ** The numbers a loader takes *)

(** Enough numbers are left for [n] more databases. *)
Record registry_room (r : Registry) (n : nat) : Prop := {
  room_source : is_int (number_source r);
  room_left : number_source r + Z.of_nat n ≤ INT_MAX;
  room_taken : ∀ k, taken (num_hash r) k = true → k + Z.of_nat n ≤ INT_MAX;
}.

Lemma Db_new_room r n addr :
  registry_room r (S n) →
  ∃ num r', Db_new addr r = Ok (mkDb addr num [] [], r') ∧ registry_room r' n ∧
            is_int num ∧ taken (num_hash r) num = false ∧ num_hash r' = <[num := 1]> (num_hash r).
Proof.
  intros [Hs Hl Ht]. unfold Db_new, next_number.
  destruct (next_free_first (S (size (num_hash r))) (num_hash r) (number_source r))
    as (num & -> & Hb & Hi & Hf & Hall); [lia|done| |].
  { intros k _ Hk. apply Ht in Hk. lia. }
  cbn [mbind result_bind]. eexists _, _. split_and!; [done| |done|done|done].
  assert (num + Z.of_nat n ≤ INT_MAX) as Hn.
  { destruct (decide (num = number_source r)) as [->|]; [lia|].
    specialize (Ht _ (Hall (num - 1) ltac:(lia))). lia. }
  split; simpl; [done|done|]. intros k Hk. unfold taken in Hk.
  destruct (decide (k = num)) as [->|Hne]; [done|]. rewrite lookup_insert_ne in Hk by done.
  specialize (Ht k Hk). lia.
Qed.

(** ** Loading what was saved *)

Section RoundTrip.
Context `{CompressorLaws} `{HashOrder}.

(** A database without keys leaves no trace in the file. *)
Definition has_keys (db : Db) : Prop := key_value_map_ db ≠ [].
#[export] Instance has_keys_dec db : Decision (has_keys db).
Proof. unfold has_keys. destruct (key_value_map_ db); [right|left]; naive_solver. Defined.

Lemma Db_Save_nil compress db : ¬ has_keys db → Db_Save compress db = Ok [].
Proof. unfold has_keys, Db_Save. destruct (key_value_map_ db); [done|]. intros []. done. Qed.

Lemma rdb_loop_nonempty fuel st source :
  source ≠ [] →
  rdb_loop (S fuel) st source
  = ('(db, r) ← Db_new (load_addr st) (load_registry st);
     '(db, ts, source) ← Db_Load db source;
     rdb_loop fuel (mkLoading (loaded st ++ [db]) (load_timers st ++ ts) r (S (load_addr st))) source).
Proof. by destruct source. Qed.

(** The keys with an expiry have a timer among [ts]. *)
Definition timed (ts : list DbExpireTimer) (db : Db) : Prop :=
  ∀ k kv t, Db_map db !! k = Some kv → kv_timer (db_addr db) kv = Some t → t ∈ ts.

Lemma timed_equiv db db' addr (ts : list DbExpireTimer) :
  Db_equiv db db' → db_addr db' = addr →
  (∀ t, t ∈ ts ↔ ∃ k kv, Db_map db !! k = Some kv ∧ kv_timer addr kv = Some t) → timed ts db'.
Proof.
  intros [_ Heq] <- Hts k kv t Hk Ht. apply Hts. specialize (Heq k). rewrite Hk in Heq.
  inversion Heq as [kv0 kv' (Hkey & Hexp & _) Hm|]; subst. exists k, kv0. split; [done|].
  unfold kv_timer, GetExpire in *. by rewrite Hkey, Hexp.
Qed.

Lemma timed_more (ts ts' : list DbExpireTimer) db : timed ts db → ts ⊆ ts' → timed ts' db.
Proof. intros Ht Hs k kv t Hk Hkv. apply Hs. by eapply Ht. Qed.

Lemma rdb_loop_images compress dbs n :
  Forall Db_stable dbs →
  ∃ srcs, mapM_result (Db_Save compress) dbs = Ok srcs ∧
  ∀ fuel st, (length (concat srcs) < fuel)%nat → registry_room (load_registry st) (length dbs + n) →
  ∃ dbs' ts st', rdb_loop fuel st (concat srcs) = Ok st' ∧ loaded st' = loaded st ++ dbs' ∧
              load_timers st' = load_timers st ++ ts ∧
              Forall2 Db_equiv (filter has_keys dbs) dbs' ∧ Forall (timed ts) dbs' ∧
              registry_room (load_registry st') n.
Proof.
  induction 1 as [|db dbs Hdb Hdbs (srcs & Hs & IH)].
  { exists []. split; [done|]. intros fuel st Hf Hr. exists [], [], st.
    rewrite !app_nil_r. split_and!; [by destruct fuel|done|done|constructor|constructor|done]. }
  simpl. destruct (decide (has_keys db)) as [Hk|Hk]; rewrite filter_cons.
  - rewrite decide_True by done.
    destruct (Db_stable_survives compress db Hdb Hk) as (b & Hb & Hne & Hload).
    exists (b :: srcs). rewrite Hb. simpl. rewrite Hs. split; [done|]. intros fuel st Hf Hr.
    rewrite length_app in Hf. destruct fuel as [|fuel]; [lia|].
    assert (0 < length b)%nat by (destruct b; simpl; [done|lia]).
    rewrite rdb_loop_nonempty by (destruct b; done).
    destruct (Db_new_room _ _ (load_addr st) Hr) as (num & r' & -> & Hr' & _). cbn [mbind result_bind].
    destruct (Hload (load_addr st) num) as (db' & ts & Heq & Haddr & _ & Hts & ->). cbn [mbind result_bind].
    destruct (IH fuel (mkLoading (loaded st ++ [db']) (load_timers st ++ ts) r' (S (load_addr st))))
      as (dbs' & ts' & st' & Hst' & Hl & Ht & Hall & Htimed & Hroom); [lia|done|].
    exists (db' :: dbs'), (ts ++ ts'), st'. split_and!; [done| | |by constructor| |done].
    + rewrite Hl. simpl. by rewrite <-app_assoc.
    + rewrite Ht. simpl. by rewrite <-app_assoc.
    + constructor; [eapply timed_more; [by eapply timed_equiv|set_solver]|].
      eapply Forall_impl; [exact Htimed|]. intros d Hd. eapply timed_more; [done|set_solver].
  - rewrite decide_False by done. exists ([] :: srcs). rewrite Db_Save_nil by done. simpl. rewrite Hs.
    split; [done|]. intros fuel st Hf Hr. apply IH; [done|].
    destruct Hr as [Hr1 Hr2 Hr3]. simpl in *. split; [done|lia|]. intros k Hk'. specialize (Hr3 k Hk'). lia.
Qed.

(** What [RDBSave] writes [RDBLoad] reads back: the databases with keys, in order, with
    their numbers, keys, values and expiries, and a timer for every expiry. *)
Lemma RDBSave_RDBLoad compress dbs fs file addr r n :
  Forall Db_stable dbs → is_Some (fs !! file) → registry_room r (length dbs + n) →
  ∃ srcs fs' image st,
    mapM_result (Db_Save compress) dbs = Ok srcs ∧
    RDBSave srcs fs file = Ok fs' ∧
    LoadAndExport fs' file = Ok image ∧
    RDBLoad addr r image = Ok st ∧
    Forall2 Db_equiv (filter has_keys dbs) (loaded st) ∧
    Forall (timed (load_timers st)) (loaded st) ∧
    registry_room (load_registry st) n.
Proof.
  intros Hst [old Hold] Hr. destruct (rdb_loop_images compress dbs n Hst) as (srcs & Hs & Hload).
  destruct (Hload (S (length (concat srcs))) (mkLoading [] [] r addr)) as (dbs' & ts & st & Hl & Hd & Ht & Heq & Htimed & Hroom); [lia|done|].
  set (fs1 := Write (<[file := []]> fs) file (bytes_of "RDB")).
  assert (fs1 !! file = Some (bytes_of "RDB")) as Hfs1.
  { unfold fs1, Write. by rewrite !lookup_insert_eq. }
  exists srcs, (fold_left (λ fs db, Write fs file db) srcs fs1), (bytes_of "RDB" ++ concat srcs), st.
  split_and!; [done| | | |by rewrite Hd|by rewrite Hd, Ht|done].
  - unfold RDBSave, Truncate. by rewrite Hold.
  - unfold LoadAndExport. by rewrite (Write_all _ _ _ _ Hfs1).
  - unfold RDBLoad. change 3 with (Z.of_nat (length (bytes_of "RDB"))).
    by rewrite PeekString_app.
Qed.

End RoundTrip.

End Rdb.
Export Rdb.
