(* ===== verification/DecodeWf.v ===== *)
(** * Loading arbitrary files: whatever the bytes, what is decoded is well formed

    The decoders fail on images they cannot read; when they answer, the objects, the
    keys and the databases have the invariants of freshly built ones. *)

From stdpp Require Import base gmap list strings fin_maps.
From Stdlib Require Import Ascii ZArith Lia.
From S2P Require Import Prelude CInt Util Lzfse Object StrObj Containers ListObj HashObj SetObj ZSetObj.
From S2P Require Import Json Request Database Rdb.
Local Open Scope Z_scope.

Module DecodeWf.

(** An invariant of the container the loop fills. *)
Lemma decode_loop_inv {S A} (dec : bytes → result (A * bytes)) (ins : S → A → S) (P : S → Prop) (Q : A → Prop) n st b st' r :
  (∀ b x r, dec b = Ok (x, r) → Q x) → (∀ s x, P s → Q x → P (ins s x)) →
  P st → decode_loop dec ins n st b = Ok (st', r) → P st'.
Proof.
  intros Hdec Hins. revert st b. induction n as [|n IH]; intros st b Hst; cbn [decode_loop]; intros H.
  - by inv_exec.
  - inv_exec. eapply IH; [|done]. eauto.
Qed.

Lemma tbl_insert_Forall {E} (key : E → string) (P : E → Prop) `{HashOrder} e l :
  P e → Forall P l → Forall P (tbl_insert key e l).1.
Proof.
  intros He Hl. destruct (tbl_find key (key e) l) eqn:Hf.
  - unfold tbl_insert. by rewrite Hf.
  - rewrite (tbl_insert_perm key e l Hf). by constructor.
Qed.

Section Decode.
Context `{Compressor} `{HashOrder}.

Lemma Str_DecodeValue_wf b s r : Str_DecodeValue b = Ok (s, r) → Str_wf s.
Proof.
  unfold Str_DecodeValue. intros Hx. inv_exec; [left; split; [done|apply int_like_to_string]|by right|by right].
Qed.

Lemma List_DecodeValue_wf b l r : List_DecodeValue b = Ok (l, r) → Forall Str_wf l.
Proof.
  unfold List_DecodeValue. intros Hx. inv_exec.
  eapply (decode_loop_inv _ _ (Forall Str_wf)) in Hx; [done|apply Str_DecodeValue_wf| |constructor].
  intros acc x Hl Hw. apply Forall_app. split; [done|by constructor].
Qed.

Lemma entry_DecodeValue_wf b e r : entry_DecodeValue b = Ok (e, r) → Str_wf e.1 ∧ Str_wf e.2.
Proof. unfold entry_DecodeValue. intros Hx. inv_exec. split; by eapply Str_DecodeValue_wf. Qed.

Lemma Hash_DecodeValue_wf b h r : Hash_DecodeValue Hash_empty b = Ok (h, r) → Hash_wf h.
Proof.
  unfold Hash_DecodeValue. intros Hx. inv_exec.
  eapply (decode_loop_inv _ _ Hash_wf) in Hx; [done|apply entry_DecodeValue_wf| |split; constructor].
  intros acc e [Hw Hf] He. split; [by apply tbl_insert_wf|by apply tbl_insert_Forall].
Qed.

Lemma Set_DecodeValue_wf b s r : Set_DecodeValue b = Ok (s, r) → Set_wf s.
Proof.
  unfold Set_DecodeValue. intros Hx. inv_exec.
  eapply (decode_loop_inv _ _ Set_wf) in Hx; [done|apply Str_DecodeValue_wf| |split; constructor].
  intros acc x [Hw Hf] He. split; [by apply tbl_insert_wf|by apply tbl_insert_Forall].
Qed.

Lemma node_DecodeValue_wf b e r : node_DecodeValue b = Ok (e, r) → is_int e.1 ∧ Str_wf e.2.
Proof.
  unfold node_DecodeValue. intros Hx. inv_exec.
  split; [|by eapply Str_DecodeValue_wf]. simpl. by eapply PeekInt_suffix.
Qed.

Lemma ZSet_DecodeValue_wf b z r : ZSet_DecodeValue ZSet_empty b = Ok (z, r) → ZSet_wf z.
Proof.
  unfold ZSet_DecodeValue. intros Hx. inv_exec.
  eapply (decode_loop_inv _ _ ZSet_wf) in Hx; [done|apply node_DecodeValue_wf| |apply ZSet_empty_wf].
  intros acc [i m] Hz [Hi Hm]. by apply ZSet_Add_wf.
Qed.

Lemma Object_DecodeValue_wf t b o r : Object_DecodeValue t b = Ok (o, r) → Object_wf o.
Proof.
  unfold Object_DecodeValue. intros Hx. destruct t; inv_exec; simpl.
  all: eauto using Str_DecodeValue_wf, List_DecodeValue_wf, Hash_DecodeValue_wf, Set_DecodeValue_wf, ZSet_DecodeValue_wf.
Qed.

Lemma KeyValue_Decode_wf b kv r : KeyValue_Decode b = Ok (kv, r) → Str_wf (key_ kv) ∧ Object_wf (value_ kv).
Proof.
  unfold KeyValue_Decode. intros Hx. inv_exec; simpl; eauto using Str_DecodeValue_wf, Object_DecodeValue_wf.
Qed.

(** The database a loop fills, and the timers it has set. *)
Definition loading_wf (addr : nat) (st : Db * list DbExpireTimer) : Prop :=
  Db_wf st.1 ∧ db_addr st.1 = addr ∧ Forall (λ t, tmr_database_ t = addr) st.2.

Lemma Db_load_kv_wf addr st kv :
  loading_wf addr st → Str_wf (key_ kv) ∧ Object_wf (value_ kv) → loading_wf addr (Db_load_kv st kv).
Proof.
  destruct st as [db ts]. intros (Hwf & Ha & Ht) [Hk Ho]. unfold Db_load_kv, loading_wf in *. simpl in *. split_and!.
  - destruct Hwf as [Hd He]. split; simpl; [by apply tbl_insert_wf|]. by apply tbl_insert_Forall.
  - done.
  - destruct (GetExpire kv); [|done]. apply Forall_app. split; [done|]. by repeat constructor.
Qed.

Lemma Db_Load_wf db b db' ts r :
  Db_wf db → Db_Load db b = Ok ((db', ts), r) → loading_wf (db_addr db) (db', ts).
Proof.
  intros Hwf. unfold Db_Load. intros Hx. inv_exec.
  eapply (decode_loop_inv _ _ (loading_wf (db_addr db))) in Hx; [done|apply KeyValue_Decode_wf|apply Db_load_kv_wf|].
  split_and!; [|done|constructor]. by destruct Hwf.
Qed.

(** [RDBLoad] numbers the addresses from [addr] on. *)
Record Loading_wf (addr : nat) (st : Loading) : Prop := {
  lwf_dbs : Forall Db_wf (loaded st);
  lwf_addrs : db_addr <$> loaded st = seq addr (length (loaded st));
  lwf_next : load_addr st = (addr + length (loaded st))%nat;
  lwf_timers : Forall (λ t, tmr_database_ t ∈ db_addr <$> loaded st) (load_timers st);
}.

Lemma Db_new_addr addr r db r' : Db_new addr r = Ok (db, r') → db_addr db = addr ∧ Db_wf db.
Proof. unfold Db_new. intros Hx. inv_exec. split; [done|]. split; constructor. Qed.

Lemma rdb_loop_wf addr fuel st b st' :
  Loading_wf addr st → rdb_loop fuel st b = Ok st' → Loading_wf addr st'.
Proof.
  revert st b. induction fuel as [|fuel IH]; intros st b Hst; cbn [rdb_loop]; intros Hx; destruct b; inv_exec; try done.
  match goal with E : Db_new _ _ = _ |- _ => apply Db_new_addr in E as [Hda Hdw] end.
  match goal with E : Db_Load _ _ = _ |- _ => apply Db_Load_wf in E as (Hw & Ha & Ht); [|done] end.
  eapply IH; [|eassumption]. destruct Hst as [H1 H2 H3 H4]. simpl in *. rewrite Hda in *.
  split; cbn [loaded load_timers load_addr]; rewrite ?fmap_app, ?length_app; cbn [length].
  - apply Forall_app. split; [done|by constructor].
  - rewrite seq_app, H2. simpl. by rewrite Ha, H3.
  - lia.
  - apply Forall_app. split.
    + eapply Forall_impl; [exact H4|]. set_solver.
    + eapply Forall_impl; [exact Ht|]. simpl. intros t ->. rewrite Ha. set_solver.
Qed.

Lemma RDBLoad_wf addr r b st : RDBLoad addr r b = Ok st → Loading_wf addr st.
Proof.
  unfold RDBLoad. intros Hx.
  assert (Loading_wf addr (mkLoading [] [] r addr)) as Hst.
  { split; simpl; [constructor|done|lia|constructor]. }
  inv_exec; [done|]. by eapply rdb_loop_wf.
Qed.

End Decode.

(** ** The loop over the databases of a file ends *)

Section Consume.
Context `{Compressor} `{HashOrder}.

(** A decoder leaves at most what it was given. *)
Definition shrinks {A} (dec : bytes → result (A * bytes)) : Prop :=
  ∀ b x r, dec b = Ok (x, r) → (length r ≤ length b)%nat.

Lemma pop_front_length b c r : pop_front b = Ok (c, r) → (length r < length b)%nat.
Proof. destruct b; simpl; intros; simplify_eq. simpl. lia. Qed.

Lemma PeekInt_length b z r : PeekInt b = Ok (z, r) → (length r ≤ length b)%nat.
Proof. intros (_ & -> & _)%PeekInt_suffix. rewrite length_drop. lia. Qed.

Lemma PeekSize_length b z r : PeekSize b = Ok (z, r) → (length r ≤ length b)%nat.
Proof. intros (_ & -> & _)%PeekSize_suffix. rewrite length_drop. lia. Qed.

Lemma decode_loop_shrinks {S A} (dec : bytes → result (A * bytes)) (ins : S → A → S) n st :
  shrinks dec → shrinks (decode_loop dec ins n st).
Proof.
  intros Hd. revert st. induction n as [|n IH]; intros st b x r; cbn [decode_loop]; intros Hx; inv_exec; [lia|].
  etrans; [by eapply IH|by eapply Hd].
Qed.

(** What each reader in a successful decoder leaves. *)
Ltac measure :=
  repeat match goal with
  | E : pop_front _ = Ok _ |- _ => apply pop_front_length in E
  | E : PeekInt _ = Ok _ |- _ => apply PeekInt_length in E
  | E : PeekSize _ = Ok _ |- _ => apply PeekSize_length in E
  | E : PeekString _ _ = Ok _ |- _ => apply PeekString_length in E
  end.

Lemma Str_DecodeValue_shrinks : shrinks Str_DecodeValue.
Proof. intros b x r. unfold Str_DecodeValue. intros Hx. inv_exec; measure; lia. Qed.

Lemma Object_DecodeValue_shrinks t : shrinks (Object_DecodeValue t).
Proof.
  assert (shrinks entry_DecodeValue) as He.
  { intros b x r. unfold entry_DecodeValue. intros Hx. inv_exec. etrans; by eapply Str_DecodeValue_shrinks. }
  assert (shrinks node_DecodeValue) as Hn.
  { intros b x r. unfold node_DecodeValue. intros Hx. inv_exec. measure. etrans; [by eapply Str_DecodeValue_shrinks|lia]. }
  intros b x r. unfold Object_DecodeValue. destruct t; intros Hx; try done; inv_exec; [by eapply Str_DecodeValue_shrinks|..].
  all: unfold List_DecodeValue, Hash_DecodeValue, Set_DecodeValue, ZSet_DecodeValue in *; inv_exec; measure.
  all: etrans; [by eapply decode_loop_shrinks; [|eassumption]; auto using Str_DecodeValue_shrinks|lia].
Qed.

Lemma KeyValue_Decode_shrinks : shrinks KeyValue_Decode.
Proof.
  intros b x r. unfold KeyValue_Decode. intros Hx. inv_exec; measure.
  all: repeat match goal with
       | E : Str_DecodeValue _ = Ok _ |- _ => apply Str_DecodeValue_shrinks in E
       | E : Object_DecodeValue _ _ = Ok _ |- _ => apply Object_DecodeValue_shrinks in E
       end; lia.
Qed.

Lemma Db_Load_length db b x r : Db_Load db b = Ok (x, r) → (length r < length b)%nat.
Proof.
  unfold Db_Load. intros Hx. inv_exec. measure.
  match goal with E : decode_loop _ _ _ _ _ = _ |- _ => apply (decode_loop_shrinks _ _ _ _ KeyValue_Decode_shrinks) in E end. lia.
Qed.

(** The loop of [RDBLoad] over an arbitrary file ends: every turn takes a byte, so
    that any number of turns above the length of the file gives the same result. *)
Lemma RDBLoad_turns_enough fuel st source :
  (length source < fuel)%nat → rdb_loop fuel st source = rdb_loop (S (length source)) st source.
Proof.
  remember (length source) as n eqn:Hn. revert fuel st source Hn.
  induction n as [n IH] using lt_wf_ind. intros fuel st source -> Hf. destruct fuel as [|fuel]; [lia|].
  destruct source as [|c source]; [done|]. cbn [rdb_loop].
  destruct (Db_new (load_addr st) (load_registry st)) as [[db r]|]; [|done]. cbn [mbind result_bind].
  destruct (Db_Load db (c :: source)) as [[[db' ts] rest]|] eqn:Hl; [|done]. cbn [mbind result_bind].
  apply Db_Load_length in Hl.
  rewrite (IH (length rest)) by (done || lia). symmetry. apply (IH (length rest)); [done..|lia].
Qed.

(** C34: what [RDBLoad] builds from a file, whatever its bytes, is well formed: keys are
    distinct, objects have their invariants, the databases are at the addresses that
    follow, and every timer is for one of them. *)
Theorem loaded_databases_wf addr r image st :
  RDBLoad addr r image = Ok st →
  Forall Db_wf (loaded st) ∧ db_addr <$> loaded st = seq addr (length (loaded st)) ∧
  Forall (λ t, tmr_database_ t ∈ db_addr <$> loaded st) (load_timers st).
Proof. intros Hl. by apply RDBLoad_wf in Hl as []. Qed.

End Consume.

#[local] Existing Instance lzfse_x86.
#[local] Existing Instance front_order.

Lemma RDBLoad_turns_enough_witness :
  rdb_loop 50 (mkLoading [] [] Registry_start 0) (bytes_of "s12345")
  = rdb_loop 7 (mkLoading [] [] Registry_start 0) (bytes_of "s12345").
Proof. apply (RDBLoad_turns_enough 50 (mkLoading [] [] Registry_start 0) (bytes_of "s12345")). simpl. lia. Defined.

(** The image of two databases: one key of every type, one of them with an expiry, and a key
    in the database 3. *)
Definition sample_dbs : list Db :=
  let kv k o e := (Str_new k, mkKeyValue (Str_new k) o e) in
  [mkDb 0 0 [kv "s" (OStr (Str_new "hello")) (Some 77);
             kv "l" (OList [Str_new "1"; Str_new "x"]) None;
             kv "h" (OHash [(Str_new "f", Str_new "v"); (Str_new "g", Str_new "2")]) None;
             kv "m" (OSet [Str_new "a"; Str_new "b"]) None;
             kv "z" (OZSet (ZSet_Add (ZSet_Add ZSet_empty 5 (Str_new "p")).1 2 (Str_new "q")).1) None] [];
   mkDb 1 3 [kv "k" (OStr (Str_new "1")) None] []].

Definition sample_image : bytes :=
  match mapM_result (Db_Save true) sample_dbs with Ok srcs => bytes_of "RDB" ++ concat srcs | Err _ => [] end.

Definition sample_loaded : Loading :=
  Eval vm_compute in match RDBLoad 4 Registry_start sample_image with Ok st => st | Err _ => mkLoading [] [] Registry_start 0 end.

Lemma loaded_databases_wf_witness :
  ((λ db, length (key_value_map_ db)) <$> loaded sample_loaded = [5%nat; 1%nat] ∧ load_timers sample_loaded = [mkDbExpireTimer 4 "s" 77]) ∧
  Forall Db_wf (loaded sample_loaded) ∧ db_addr <$> loaded sample_loaded = [4%nat; 5%nat] ∧
  Forall (λ t, tmr_database_ t ∈ db_addr <$> loaded sample_loaded) (load_timers sample_loaded).
Proof.
  split; [split; reflexivity|]. apply (loaded_databases_wf 4 Registry_start sample_image). vm_compute. reflexivity.
Defined.

End DecodeWf.
Export DecodeWf.
