(* ===== verification/Command.v ===== *)
(** * server/command.h, server/command.cc: from requests to commands

    A request is a JSON array; the [JsonTo...] functions check its shape and build one
    command object per group.  [RequestToCommandExec] upper-cases the command word and
    chooses the group. *)

From stdpp Require Import base list strings.
From Stdlib Require Import Ascii ZArith Lia.
From S2P Require Import Prelude CInt Util StrObj Json.
Local Open Scope Z_scope.

Module Command.

Record CommandBase := mkBase {
  valid_ : bool;
  command_ : string;
  obj_name_ : string;
}.

(** [bool valid_{true}] and empty texts. *)
Definition CommandBase_default : CommandBase := mkBase true "" "".

Record StrCommand := mkStrCommand { str_base : CommandBase; str_value_ : option string }.
Record ListCommand := mkListCommand { list_base : CommandBase; list_values_ : list Str }.
Record HashCommand := mkHashCommand { hash_base : CommandBase; hash_values_ : list Str }.
Record SetCommand := mkSetCommand { set_base : CommandBase; set_values_ : list Str }.
Record ZSetCommand := mkZSetCommand { zset_base : CommandBase; zset_values_ : list Str }.
Record DbCommand := mkDbCommand { dbc_base : CommandBase; dbc_value_ : option string }.
Record CliCommand := mkCliCommand { cli_base : CommandBase; pswd_ : option string }.
(** [port_] has no initialiser: [None] until it is assigned. *)
Record ServerCommand := mkServerCommand { srv_base : CommandBase; srv_ip_ : string; srv_port_ : option Z }.

Inductive Command :=
| CServer (c : ServerCommand)
| CCli (c : CliCommand)
| CDb (c : DbCommand)
| CStr (c : StrCommand)
| CList (c : ListCommand)
| CHash (c : HashCommand)
| CSet (c : SetCommand)
| CZSet (c : ZSetCommand).

Definition command_base (c : Command) : CommandBase :=
  match c with
  | CServer c => srv_base c | CCli c => cli_base c | CDb c => dbc_base c | CStr c => str_base c
  | CList c => list_base c | CHash c => hash_base c | CSet c => set_base c | CZSet c => zset_base c
  end.

Definition invalid (b : CommandBase) : CommandBase := mkBase false (command_ b) (obj_name_ b).

(** [cmd == "A" || cmd == "B" || ...] *)
Definition is_one_of (cmd : string) (l : list string) : bool := existsb (String.eqb cmd) l.

(** [JsonToBase] on a fresh command: the base it leaves, and its answer. *)
Definition JsonToBase (source : list Json) : CommandBase * bool :=
  match source with
  | e0 :: e1 :: _ =>
      if existsb (λ e, String.eqb (string_value e) "") source
      then (invalid CommandBase_default, false)
      else (mkBase true (string_value e0) (string_value e1), true)
  | _ => (invalid CommandBase_default, false)
  end.

Definition source_size (source : list Json) : Z := Z.of_nat (length source).

(** [values_.push_back(source[i].string_value())] from [i = 2] on. *)
Definition values_of (source : list Json) : list Str := Str_new ∘ string_value <$> drop 2 source.

Definition third_value (source : list Json) : option string := string_value <$> source !! 2%nat.

Definition JsonToStrCommand (source : list Json) : StrCommand :=
  let '(b, ok) := JsonToBase source in
  if negb ok then mkStrCommand b None
  else if is_one_of (command_ b) ["GET"; "LEN"] then mkStrCommand b None
  else if source_size source <? 3 then mkStrCommand (invalid b) None
  else mkStrCommand b (third_value source).

Definition JsonToListCommand (source : list Json) : ListCommand :=
  let '(b, ok) := JsonToBase source in
  if negb ok then mkListCommand b []
  else if is_one_of (command_ b) ["LPOPF"; "LPOPB"; "LLEN"] then mkListCommand b []
  else if source_size source <? 3 then mkListCommand (invalid b) []
  else if is_one_of (command_ b) ["LREM"; "LSET"; "LTRIM"] && (source_size source <? 4)
  then mkListCommand (invalid b) []
  else mkListCommand b (values_of source).

Definition JsonToSetCommand (source : list Json) : SetCommand :=
  let '(b, ok) := JsonToBase source in
  if negb ok then mkSetCommand b []
  else if is_one_of (command_ b) ["SCARD"; "SRANDMEMBER"; "SMEMBERS"; "SPOP"] then mkSetCommand b []
  else if source_size source <? 3 then mkSetCommand (invalid b) []
  else mkSetCommand b (values_of source).

Definition JsonToZSetCommand (source : list Json) : ZSetCommand :=
  let '(b, ok) := JsonToBase source in
  if negb ok then mkZSetCommand b []
  else if is_one_of (command_ b) ["ZCARD"] then mkZSetCommand b []
  else if source_size source <? 3 then mkZSetCommand (invalid b) []
  else if negb (source_size source mod 2 =? 0) && negb (is_one_of (command_ b) ["ZSCORE"; "ZRANK"])
  then mkZSetCommand (invalid b) []
  else mkZSetCommand b (values_of source).

Definition JsonToHashCommand (source : list Json) : HashCommand :=
  let '(b, ok) := JsonToBase source in
  if negb ok then mkHashCommand b []
  else if is_one_of (command_ b) ["HLEN"; "HGETALL"] then mkHashCommand b []
  else if source_size source <? 3 then mkHashCommand (invalid b) []
  else if is_one_of (command_ b) ["HSET"; "HINCRBY"; "HDECRBY"] && negb (source_size source mod 2 =? 0)
  then mkHashCommand (invalid b) []
  else mkHashCommand b (values_of source).

Definition head_value (source : list Json) : string :=
  match source with e :: _ => string_value e | [] => "" end.

Definition JsonToDbCommand (source : list Json) : DbCommand :=
  if negb (bool_decide (source = [])) && String.eqb (head_value source) "REWRITE"
  then mkDbCommand (mkBase true "REWRITE" "") None
  else
    let '(b, ok) := JsonToBase source in
    if negb ok then mkDbCommand b None
    else if is_one_of (command_ b) ["DEL"; "WHEN"] then mkDbCommand b None
    else if source_size source <? 3 then mkDbCommand (invalid b) None
    else mkDbCommand b (third_value source).

(** [JsonToCliCommand] does not refuse empty texts. *)
Definition JsonToCliCommand (source : list Json) : CliCommand :=
  match source with
  | [] => mkCliCommand (invalid CommandBase_default) None
  | e0 :: rest =>
      let cmd := string_value e0 in
      if is_one_of cmd ["CREATE"; "SHOW"] then mkCliCommand (mkBase true cmd "") None
      else
        match rest with
        | [] => mkCliCommand (mkBase false cmd "") None
        | e1 :: rest =>
            mkCliCommand (mkBase true cmd (string_value e1))
              (match rest with [e2] => Some (string_value e2) | _ => None end)
        end
  end.

(** The texts before and after the first colon. *)
Fixpoint split_colon (s : string) : option (string * string) :=
  match s with
  | EmptyString => None
  | String c rest =>
      if Ascii.eqb c ":"%char then Some ("", rest)
      else match split_colon rest with
           | Some (ip, port) => Some (String c ip, port)
           | None => None
           end
  end.

Definition JsonToServerCommand (source : list Json) : result ServerCommand :=
  if negb (bool_decide (source = [])) && String.eqb (head_value source) "ENDFORKING"
  then Ok (mkServerCommand (mkBase true "ENDFORKING" "") "" None)
  else
    let '(b, ok) := JsonToBase source in
    if negb ok then Ok (mkServerCommand b "" None)
    else
      match split_colon (obj_name_ b) with
      | None => Ok (mkServerCommand (invalid b) "" None)
      | Some (ip, port) =>
          n ← stoi port;
          Ok (mkServerCommand b ip (Some (to_short n)))
      end.

Definition isServerCommand (cmd : string) : bool := is_one_of cmd ["FORK"; "ENDFORKING"].
Definition isCliCommand (cmd : string) : bool := is_one_of cmd ["SELECT"; "CREATE"; "SHOW"].
Definition isDbCommand (cmd : string) : bool := is_one_of cmd ["DEL"; "EXPIRE"; "WHEN"; "REWRITE"].
Definition isStrCommand (cmd : string) : bool :=
  is_one_of cmd ["SET"; "GET"; "APPEND"; "LEN"; "INCRBY"; "DECRBY"].
Definition isListCommand (cmd : string) : bool :=
  is_one_of cmd ["LPUSHF"; "LPUSHB"; "LPOPF"; "LPOPB"; "LINDEX"; "LREM"; "LTRIM"; "LLEN"; "LSET"].
Definition isSetCommand (cmd : string) : bool :=
  is_one_of cmd ["SADD"; "SCARD"; "SISMEMBER"; "SMEMBERS"; "SRANDMEMBER"; "SPOP"; "SREM"; "SINTER"; "SDIFF"].
Definition isZSetCommand (cmd : string) : bool :=
  is_one_of cmd ["ZADD"; "ZCARD"; "ZCOUNT"; "ZLEXCOUNT"; "ZINCRBY"; "ZDECRBY"; "ZREM"; "ZRANGE";
                 "ZRANGEBYSCORE"; "ZRANGEBYLEX"; "ZRANK"; "ZSCORE"].
Definition isHashCommand (cmd : string) : bool :=
  is_one_of cmd ["HGET"; "HSET"; "HEXIST"; "HDEL"; "HLEN"; "HGETALL"; "HINCRBY"; "HDECRBY"].

(** [std::toupper] of the C locale. *)
Definition toupper (c : ascii) : ascii :=
  let z := byte_val c in if (97 <=? z) && (z <=? 122) then byte_of (z - 32) else c.
Definition string_toupper (s : string) : string := string_of (toupper <$> bytes_of s).

(** [RequestToCommandExec]; no command for an empty request or an unknown word. *)
Definition RequestToCommandExec (req : list Json) : result (option Command) :=
  match req with
  | [] => Ok None
  | e0 :: rest =>
      let cmd := string_toupper (string_value e0) in
      let req := JString cmd :: rest in
      ret ← (if isServerCommand cmd then c ← JsonToServerCommand req; Ok (Some (CServer c)) else Ok None);
      let ret := if isCliCommand cmd then Some (CCli (JsonToCliCommand req)) else ret in
      let ret := if isDbCommand cmd then Some (CDb (JsonToDbCommand req)) else ret in
      let ret := if isStrCommand cmd then Some (CStr (JsonToStrCommand req)) else ret in
      let ret := if isListCommand cmd then Some (CList (JsonToListCommand req)) else ret in
      let ret := if isHashCommand cmd then Some (CHash (JsonToHashCommand req)) else ret in
      let ret := if isSetCommand cmd then Some (CSet (JsonToSetCommand req)) else ret in
      let ret := if isZSetCommand cmd then Some (CZSet (JsonToZSetCommand req)) else ret in
      Ok ret
  end.

End Command.
Export Command.
