(* ===== verification/Exec.v ===== *)
(** * The Exec functions of server/command.cc on objects

    A command finds its object in the client's database, creates it if the command may,
    and calls one operation.  [None] for the client stands for a client that has gone. *)

From stdpp Require Import base gmap list strings fin_maps.
From Stdlib Require Import Ascii ZArith Lia.
From S2P Require Import Prelude CInt Util Object StrObj Containers ListObj HashObj SetObj ZSetObj.
From S2P Require Import Json Request Database Command.
Local Open Scope Z_scope.

Module Exec.

(** The answer of a command: the texts of a JSON array. *)
Abbreviation answer := (list string).

Definition dq : string := String dquote "".
Definition quoted (s : string) : string := dq +:+ s +:+ dq.

(** [{{" "}}], [{{"(nil)"}}] and [{{"OK"}}]. *)
Definition refused : answer := [" "].
Definition nil_answer : answer := ["(nil)"].
Definition ok_answer : answer := ["OK"].
Definition or_nil (a : answer) : answer := match a with [] => nil_answer | _ => a end.

(** The texts that stand for "no value". *)
Definition quoted_or_nil (s : Str) : answer :=
  if Str_Empty s then nil_answer else [quoted (Str_GetRaw s)].

(** A step on an object: the object after it and the answer. *)
Abbreviation step A := (result (A * answer)).

(** [std::string::empty] of the answer of an increment. *)
Definition number_answer (val : string) : answer :=
  match val with EmptyString => refused | _ => [val] end.

(** ** Operations by command word *)

Definition str_exec (c : StrCommand) (s : Str) : step Str :=
  let cmd := command_ (str_base c) in
  if String.eqb cmd "SET" then
    value ← opt_value (str_value_ c); Ok (Str_Set s value, ok_answer)
  else if String.eqb cmd "GET" then
    Ok (s, match Str_GetRaw s with EmptyString => nil_answer | ret => [quoted ret] end)
  else if String.eqb cmd "INCRBY" then
    value ← opt_value (str_value_ c);
    intval ← RedisStrToInt value;
    match intval with
    | None => Ok (s, refused)
    | Some i => '(s, ret) ← Str_IncrBy s i; Ok (s, number_answer ret)
    end
  else if String.eqb cmd "DECRBY" then
    value ← opt_value (str_value_ c);
    intval ← RedisStrToInt value;
    match intval with
    | None => Ok (s, refused)
    | Some i => '(s, ret) ← Str_DecrBy s i; Ok (s, number_answer ret)
    end
  else if String.eqb cmd "APPEND" then
    value ← opt_value (str_value_ c);
    '(s, size) ← Str_Append s value; Ok (s, [to_string size])
  else if String.eqb cmd "LEN" then Ok (s, [to_string (Str_Len s)])
  else Ok (s, ok_answer).

(** The loop of LINDEX: texts that are not numbers and empty elements are skipped. *)
Definition lindex_step (l : List) (ret : answer) (value : Str) : result answer :=
  intval ← RedisStrToInt (Str_GetRaw value);
  match intval with
  | None => Ok ret
  | Some i =>
      str ← List_Index l i;
      Ok (if Str_Empty str then ret else ret ++ [quoted (Str_GetRaw str)])
  end.

Definition list_exec (c : ListCommand) (l : List) : step List :=
  let cmd := command_ (list_base c) in
  let values := list_values_ c in
  if String.eqb cmd "LPUSHF" then
    let l := fold_left (λ l v, (List_PushFront l v).1) values l in Ok (l, [to_string (List_Len l)])
  else if String.eqb cmd "LPUSHB" then
    let l := fold_left (λ l v, (List_PushBack l v).1) values l in Ok (l, [to_string (List_Len l)])
  else if String.eqb cmd "LPOPF" then
    let '(l, str) := List_PopFront l in Ok (l, quoted_or_nil str)
  else if String.eqb cmd "LPOPB" then
    let '(l, str) := List_PopBack l in Ok (l, quoted_or_nil str)
  else if String.eqb cmd "LINDEX" then
    ret ← foldM (lindex_step l) [] values; Ok (l, or_nil ret)
  else if String.eqb cmd "LLEN" then Ok (l, [to_string (List_Len l)])
  else if String.eqb cmd "LREM" then
    v0 ← vec_at values 0;
    intval ← RedisStrToInt (Str_GetRaw v0);
    match intval with
    | None => Ok (l, refused)
    | Some i =>
        v1 ← vec_at values 1;
        '(l, n) ← List_Rem l i v1; Ok (l, [to_string n])
    end
  else if String.eqb cmd "LTRIM" then
    v0 ← vec_at values 0;
    intval1 ← RedisStrToInt (Str_GetRaw v0);
    v1 ← vec_at values 1;
    intval2 ← RedisStrToInt (Str_GetRaw v1);
    match intval1, intval2 with
    | Some b, Some e => '(l, ret) ← List_Trim l b e; Ok (l, if ret : bool then ok_answer else refused)
    | _, _ => Ok (l, refused)
    end
  else if String.eqb cmd "LSET" then
    v0 ← vec_at values 0;
    intval ← RedisStrToInt (Str_GetRaw v0);
    match intval with
    | None => Ok (l, refused)
    | Some i =>
        v1 ← vec_at values 1;
        '(l, ret) ← List_Set l i v1; Ok (l, if ret : bool then ok_answer else refused)
    end
  else Ok (l, ok_answer).

Section HashExec.
Context `{HashOrder}.

(** [for (i = 0; i < values_.size(); i += 2) tbl->Set(values_[i], values_[i + 1]);] *)
Fixpoint hset_loop (h : Hash) (values : list Str) : result Hash :=
  match values with
  | [] => Ok h
  | [_] => Err Undefined
  | k :: v :: values => hset_loop (Hash_Set h k v) values
  end.

Definition bool_text (b : bool) : string := if b then "1" else "0".

Definition hash_exec (c : HashCommand) (h : Hash) : step Hash :=
  let cmd := command_ (hash_base c) in
  let values := hash_values_ c in
  if String.eqb cmd "HSET" then h ← hset_loop h values; Ok (h, ok_answer)
  else if String.eqb cmd "HGET" then
    Ok (h, or_nil ((λ key, quoted (match Str_GetRaw (Hash_Get h key) with
                                    | EmptyString => "(nil)" | s => s end)) <$> values))
  else if String.eqb cmd "HEXIST" then Ok (h, (λ key, bool_text (Hash_Exist h key)) <$> values)
  else if String.eqb cmd "HDEL" then Ok (fold_left Hash_Del values h, ok_answer)
  else if String.eqb cmd "HLEN" then Ok (h, [to_string (Hash_Len h)])
  else if String.eqb cmd "HGETALL" then
    Ok (h, or_nil (concat ((λ kv, [quoted (Str_GetRaw kv.1); quoted (Str_GetRaw kv.2)]) <$> Hash_GetAll h)))
  else if String.eqb cmd "HINCRBY" then
    v1 ← vec_at values 1;
    intval ← RedisStrToInt (Str_GetRaw v1);
    match intval with
    | None => Ok (h, refused)
    | Some i =>
        v0 ← vec_at values 0;
        '(h, val) ← Hash_IncrBy h v0 i; Ok (h, number_answer val)
    end
  else if String.eqb cmd "HDECRBY" then
    v1 ← vec_at values 1;
    intval ← RedisStrToInt (Str_GetRaw v1);
    match intval with
    | None => Ok (h, refused)
    | Some i =>
        v0 ← vec_at values 0;
        '(h, val) ← Hash_DecrBy h v0 i; Ok (h, number_answer val)
    end
  else Ok (h, ok_answer).

End HashExec.

Section SetExec.
Context `{HashOrder}.

(** [other] answers [client->GetDB()->Get(key)] with the address of the set; [self] is
    the address of this one. *)
Definition set_algebra (op : Z → Z → SetT → SetT → list Str) (self : Z) (st : SetT)
    (another : option (Z * Object)) : answer :=
  match another with
  | Some (p, OSet a) => or_nil (Str_GetRaw <$> op self p st a)
  | _ => refused
  end.

Definition count_step (op : SetT → Str → SetT * bool) (acc : SetT * Z) (element : Str) : SetT * Z :=
  let '(st, cnt) := acc in
  let '(st, ok) := op st element in (st, if ok : bool then cnt + 1 else cnt).

Definition set_exec (rand : Z) (self : Z) (get : Str → option (Z * Object)) (c : SetCommand) (st : SetT) : step SetT :=
  let cmd := command_ (set_base c) in
  let values := set_values_ c in
  if String.eqb cmd "SADD" then
    let '(st, cnt) := fold_left (count_step Set_Add) values (st, 0) in Ok (st, [to_string cnt])
  else if String.eqb cmd "SCARD" then Ok (st, [to_string (Set_Card st)])
  else if String.eqb cmd "SISMEMBER" then
    Ok (st, or_nil ((λ e, bool_text (Set_IsMember st e)) <$> values))
  else if String.eqb cmd "SMEMBERS" then
    Ok (st, or_nil ((λ e, quoted (Str_GetRaw e)) <$> Set_Members st))
  else if String.eqb cmd "SRANDMEMBER" then
    v ← Set_RandMember st rand; Ok (st, quoted_or_nil v)
  else if String.eqb cmd "SPOP" then
    '(st, v) ← Set_Pop st; Ok (st, quoted_or_nil v)
  else if String.eqb cmd "SREM" then
    let '(st, cnt) := fold_left (count_step Set_Rem) values (st, 0) in Ok (st, [to_string cnt])
  else if String.eqb cmd "SINTER" then
    v0 ← vec_at values 0; Ok (st, set_algebra Set_Inter self st (get v0))
  else if String.eqb cmd "SDIFF" then
    v0 ← vec_at values 0; Ok (st, set_algebra Set_Diff self st (get v0))
  else Ok (st, ok_answer).

End SetExec.

(** ZADD and ZREM: pairs of a score and a member; a score that is not a number skips
    its pair. *)
Fixpoint zpairs (op : ZSet → Z → Str → result (ZSet * bool)) (z : ZSet) (cnt : Z) (values : list Str)
    : result (ZSet * Z) :=
  match values with
  | [] => Ok (z, cnt)
  | score :: rest =>
      intval ← RedisStrToInt (Str_GetRaw score);
      match intval, rest with
      | None, [] => Ok (z, cnt)
      | None, _ :: rest => zpairs op z cnt rest
      | Some _, [] => Err Undefined
      | Some i, member :: rest =>
          '(z, ok) ← op z i member;
          zpairs op z (if ok : bool then cnt + 1 else cnt) rest
      end
  end.

Definition range_answer (res : list (Str * Z)) : answer :=
  or_nil (concat ((λ kv, [Str_GetRaw kv.1; to_string kv.2]) <$> res)).

Definition text_or_nil (s : string) : answer := match s with EmptyString => nil_answer | _ => [s] end.

(** The two bounds of ZCOUNT, ZRANGE and ZRANGEBYSCORE. *)
Definition two_ints (values : list Str) : result (option (Z * Z)) :=
  v0 ← vec_at values 0;
  intval1 ← RedisStrToInt (Str_GetRaw v0);
  v1 ← vec_at values 1;
  intval2 ← RedisStrToInt (Str_GetRaw v1);
  Ok (match intval1, intval2 with Some a, Some b => Some (a, b) | _, _ => None end).

Definition zset_exec (c : ZSetCommand) (z : ZSet) : step ZSet :=
  let cmd := command_ (zset_base c) in
  let values := zset_values_ c in
  if String.eqb cmd "ZADD" then
    '(z, cnt) ← zpairs (λ z i m, Ok (ZSet_Add z i m)) z 0 values; Ok (z, [to_string cnt])
  else if String.eqb cmd "ZCARD" then Ok (z, [to_string (ZSet_Card z)])
  else if String.eqb cmd "ZREM" then
    '(z, cnt) ← zpairs ZSet_Rem z 0 values; Ok (z, [to_string cnt])
  else if String.eqb cmd "ZCOUNT" then
    r ← two_ints values;
    Ok (z, match r with Some (a, b) => [to_string (ZSet_Count z a b)] | None => refused end)
  else if String.eqb cmd "ZLEXCOUNT" then
    v0 ← vec_at values 0; v1 ← vec_at values 1; Ok (z, [to_string (ZSet_LexCount z v0 v1)])
  else if String.eqb cmd "ZINCRBY" then
    v0 ← vec_at values 0;
    intval ← RedisStrToInt (Str_GetRaw v0);
    match intval with
    | None => Ok (z, refused)
    | Some i => v1 ← vec_at values 1; '(z, val) ← ZSet_IncrBy z i v1; Ok (z, number_answer val)
    end
  else if String.eqb cmd "ZDECRBY" then
    v0 ← vec_at values 0;
    intval ← RedisStrToInt (Str_GetRaw v0);
    match intval with
    | None => Ok (z, refused)
    | Some i =>
        (* the amount passed on is [intval.has_value()] *)
        v1 ← vec_at values 1; '(z, val) ← ZSet_DecrBy z 1 v1; Ok (z, number_answer val)
    end
  else if String.eqb cmd "ZRANGE" then
    r ← two_ints values;
    match r with
    | None => Ok (z, refused)
    | Some (a, b) => res ← ZSet_Range z a b; Ok (z, range_answer res)
    end
  else if String.eqb cmd "ZRANGEBYSCORE" then
    r ← two_ints values;
    Ok (z, match r with Some (a, b) => range_answer (ZSet_RangeByScore z a b) | None => refused end)
  else if String.eqb cmd "ZRANGEBYLEX" then
    v0 ← vec_at values 0; v1 ← vec_at values 1; res ← ZSet_RangeByLex z v0 v1; Ok (z, range_answer res)
  else if String.eqb cmd "ZRANK" then
    v0 ← vec_at values 0; rank ← ZSet_Rank z v0; Ok (z, text_or_nil rank)
  else if String.eqb cmd "ZSCORE" then
    v0 ← vec_at values 0; score ← ZSet_Score z v0; Ok (z, text_or_nil score)
  else Ok (z, ok_answer).

(** ** The commands *)

Section Commands.
Context `{HashOrder}.

(** The frame the five Exec functions share: an invalid command is refused, a client
    that has gone gets no answer, the object is looked up, created by the commands in
    [creates], and must have the type the command works on. *)
Definition with_object {A} (b : CommandBase) (creates : list string) (fresh : Object)
    (as_type : Object → option A) (to_object : A → Object)
    (exec : Db → A → step A) (client : option Db) : result (option Db * option answer) :=
  if negb (valid_ b) then Ok (client, Some refused)
  else
    match client with
    | None => Ok (None, None)
    | Some db =>
        let key := Str_new (obj_name_ b) in
        let '(db, found) :=
          match Db_Get db key with
          | Some o => (db, Some o)
          | None => if is_one_of (command_ b) creates
                    then let db := Db_New db key fresh in (db, Some fresh)
                    else (db, None)
          end in
        match found with
        | None => Ok (Some db, Some refused)
        | Some o =>
            match as_type o with
            | None => Ok (Some db, Some refused)
            | Some a =>
                '(a, ret) ← exec db a;
                Ok (Some (Db_store db key (to_object a)), Some ret)
            end
        end
    end.

Definition StrCommand_Exec (c : StrCommand) : option Db → result (option Db * option answer) :=
  with_object (str_base c) ["SET"] (OStr Str_default)
    (λ o, match o with OStr s => Some s | _ => None end) OStr (λ _, str_exec c).

Definition ListCommand_Exec (c : ListCommand) : option Db → result (option Db * option answer) :=
  with_object (list_base c) ["LPUSHF"; "LPUSHB"] (OList List_empty)
    (λ o, match o with OList l => Some l | _ => None end) OList (λ _, list_exec c).

Definition HashCommand_Exec (c : HashCommand) : option Db → result (option Db * option answer) :=
  with_object (hash_base c) ["HSET"] (OHash Hash_empty)
    (λ o, match o with OHash h => Some h | _ => None end) OHash (λ _, hash_exec c).

(** Two lookups give the same set exactly when they use the same key. *)
Definition set_address (self key : Str) : Z := if decide (data_ self = data_ key) then 0 else 1.

Definition SetCommand_Exec (rand : Z) (c : SetCommand) : option Db → result (option Db * option answer) :=
  let self := Str_new (obj_name_ (set_base c)) in
  with_object (set_base c) ["SADD"] (OSet Set_empty)
    (λ o, match o with OSet s => Some s | _ => None end) OSet
    (λ db, set_exec rand 0 (λ key, (λ o, (set_address self key, o)) <$> Db_Get db key) c).

Definition ZSetCommand_Exec (c : ZSetCommand) : option Db → result (option Db * option answer) :=
  with_object (zset_base c) ["ZADD"] (OZSet ZSet_empty)
    (λ o, match o with OZSet z => Some z | _ => None end) OZSet (λ _, zset_exec c).

(** [cmd->Exec()] for the five groups that work on one object. *)
Definition object_Exec (rand : Z) (c : Command) (client : option Db) : option (result (option Db * option answer)) :=
  match c with
  | CStr c => Some (StrCommand_Exec c client)
  | CList c => Some (ListCommand_Exec c client)
  | CHash c => Some (HashCommand_Exec c client)
  | CSet c => Some (SetCommand_Exec rand c client)
  | CZSet c => Some (ZSetCommand_Exec c client)
  | CServer _ | CCli _ | CDb _ => None
  end.

End Commands.

End Exec.
Export Exec.
