(* ===== verification/ExecWf.v ===== *)
(** * The object commands: what they need, what they keep, what they touch

    The parser of requests guarantees the number of arguments that Exec relies on; each
    object operation keeps its object well formed; a command changes at most the entry of
    its own key. *)

From stdpp Require Import base gmap list strings fin_maps.
From Stdlib Require Import Ascii ZArith Lia.
From S2P Require Import Prelude CInt Util Object StrObj Containers ListObj HashObj SetObj ZSetObj.
From S2P Require Import Json Request Database Command Exec.
Local Open Scope Z_scope.

Module ExecWf.

(** ** Arguments *)

Lemma values_of_wf source : Forall Str_wf (values_of source).
Proof. unfold values_of. apply Forall_fmap, Forall_true. intros x. apply Str_new_wf. Qed.

Lemma length_values_of source : Z.of_nat (length (values_of source)) = Z.max 0 (source_size source - 2).
Proof. unfold values_of, source_size. rewrite length_fmap, length_drop. lia. Qed.

Lemma is_one_of_spec cmd l : is_one_of cmd l = true ↔ cmd ∈ l.
Proof.
  unfold is_one_of. rewrite existsb_exists. split.
  - intros (x & Hx & ->%String.eqb_eq). by apply list_elem_of_In.
  - intros Hx. exists cmd. split; [by apply list_elem_of_In|apply String.eqb_refl].
Qed.

Lemma JsonToBase_ok source b : JsonToBase source = (b, true) → valid_ b = true ∧ 2 ≤ source_size source.
Proof.
  unfold JsonToBase, source_size. destruct source as [|e0 [|e1 source]]; [done..|].
  destruct (existsb _ _); intros; simplify_eq; simpl; split; [done|lia].
Qed.

(** A valid list, hash, set or sorted-set command has well-formed arguments. *)
Lemma command_values_wf source :
  Forall Str_wf (list_values_ (JsonToListCommand source)) ∧
  Forall Str_wf (hash_values_ (JsonToHashCommand source)) ∧
  Forall Str_wf (set_values_ (JsonToSetCommand source)) ∧
  Forall Str_wf (zset_values_ (JsonToZSetCommand source)).
Proof.
  unfold JsonToListCommand, JsonToHashCommand, JsonToSetCommand, JsonToZSetCommand.
  destruct (JsonToBase source) as [b ok].
  split_and!; repeat case_match; simpl; constructor || apply values_of_wf.
Qed.

(** Arguments read by position from a known list. *)
Ltac inv_args :=
  repeat match goal with E : vec_at (_ :: _) _ = Ok _ |- _ => injection E as E; try subst end.

(** ** Well-formed objects *)

Lemma str_exec_wf c s s' a : Str_wf s → str_exec c s = Ok (s', a) → Str_wf s'.
Proof.
  intros Hs. unfold str_exec, Str_DecrBy. intros H.
  inv_exec; eauto using Str_new_wf, Str_IncrBy_wf, Str_Append_wf.
Qed.

Lemma List_PushFront_wf values l : Forall Str_wf values → Forall Str_wf l →
  Forall Str_wf (fold_left (λ l v, (List_PushFront l v).1) values l).
Proof. intros Hv. revert l. induction Hv as [|v vs Hv Hvs IH]; intros l Hl; simpl; [done|]. apply IH. by constructor. Qed.

Lemma List_PushBack_wf values l : Forall Str_wf values → Forall Str_wf l →
  Forall Str_wf (fold_left (λ l v, (List_PushBack l v).1) values l).
Proof.
  intros Hv. revert l. induction Hv as [|v vs Hv Hvs IH]; intros l Hl; simpl; [done|].
  apply IH, Forall_app. split; [done|by constructor].
Qed.

Lemma List_Rem_wf l count value l' n : Forall Str_wf l → List_Rem l count value = Ok (l', n) → Forall Str_wf l'.
Proof. intros Hl Hr. apply List_Rem_Ok in Hr. by simplify_eq. Qed.

Lemma List_Trim_wf l b e l' r : Forall Str_wf l → List_Trim l b e = Ok (l', r) → Forall Str_wf l'.
Proof.
  intros Hl. unfold List_Trim. destruct l as [|x l]; intros H; inv_exec; try done.
  apply Forall_app. split; [by apply Forall_take|by apply Forall_drop].
Qed.

Lemma List_Set_wf l i v l' r : Str_wf v → Forall Str_wf l → List_Set l i v = Ok (l', r) → Forall Str_wf l'.
Proof.
  intros Hv Hl. unfold List_Set. destruct l as [|x l]; intros H; inv_exec; try done. by apply Forall_insert.
Qed.

Lemma vec_at_wf values i v : Forall Str_wf values → vec_at values i = Ok v → Str_wf v.
Proof. intros Hv Hi%vec_at_Ok. by eapply Forall_lookup in Hv. Qed.

Lemma list_exec_wf c l l' a :
  Forall Str_wf (list_values_ c) → Forall Str_wf l → list_exec c l = Ok (l', a) → Forall Str_wf l'.
Proof.
  intros Hv Hl. unfold list_exec. intros H.
  inv_exec; try exact Hl; try (by apply List_PushFront_wf); try (by apply List_PushBack_wf).
  all: try (by eapply List_Rem_wf); try (by eapply List_Trim_wf); try (eapply List_Set_wf; [by eapply (vec_at_wf _ _ _ Hv)|done|done]).
  - destruct l; simplify_eq/=; [done|]. by inversion Hl.
  - unfold List_PopBack in *. destruct (last l); simplify_eq/=; [by apply Forall_take|done].
Qed.

Lemma hset_loop_wf `{HashOrder} h values h' :
  Forall Str_wf values → Hash_wf h → hset_loop h values = Ok h' → Hash_wf h'.
Proof.
  intros Hv. revert h h'. remember (length values) as n eqn:Hn. revert values Hv Hn.
  induction n as [n IH] using lt_wf_ind. intros [|k [|v values]] Hv -> h h' Hh; cbn [hset_loop].
  - by intros [= <-].
  - done.
  - inversion Hv as [|?? Hk Hv']; inversion Hv'; subst.
    eapply IH; [|done|done|by apply Hash_Set_wf]. simpl. lia.
Qed.

Lemma Hash_Dels_wf keys h : Hash_wf h → Hash_wf (fold_left Hash_Del keys h).
Proof. revert h; induction keys as [|k keys IH]; intros h Hh; simpl; [done|]. apply IH. by apply Hash_Del_wf. Qed.

Lemma Hash_DecrBy_wf h key delta h' ret :
  INT_MIN < delta ≤ INT_MAX → Hash_wf h → Hash_DecrBy h key delta = Ok (h', ret) → Hash_wf h'.
Proof. intros Hd Hh. rewrite Hash_DecrBy_IncrBy by done. by apply Hash_IncrBy_wf. Qed.

Lemma RedisStrToInt_int s i : RedisStrToInt s = Ok (Some i) → INT_MIN < i ≤ INT_MAX.
Proof. intros H%RedisStrToInt_range. unfold INT_MIN, INT_MAX in *. lia. Qed.

Lemma hash_exec_wf `{HashOrder} c h h' a :
  Forall Str_wf (hash_values_ c) → Hash_wf h → hash_exec c h = Ok (h', a) → Hash_wf h'.
Proof.
  intros Hv Hh. unfold hash_exec. intros Hx.
  inv_exec; eauto using hset_loop_wf, Hash_Dels_wf, Hash_IncrBy_wf, Hash_DecrBy_wf, RedisStrToInt_int.
Qed.

Lemma count_step_wf (op : SetT → Str → SetT * bool) values st :
  (∀ s v, Str_wf v → Set_wf s → Set_wf (op s v).1) → Forall Str_wf values → Set_wf st.1 →
  Set_wf (fold_left (count_step op) values st).1.
Proof.
  intros Hop Hv. revert st. induction Hv as [|v vs Hv Hvs IH]; intros [s cnt] Hs; [done|].
  cbn [fold_left]. apply IH. unfold count_step. specialize (Hop s v Hv Hs). destruct (op s v). done.
Qed.

Lemma Set_Pop_wf s s' x : Set_wf s → Set_Pop s = Ok (s', x) → Set_wf s'.
Proof.
  intros [Hwf Hall]. unfold Set_Pop. destruct s as [|y [|z s]]; intros; simplify_eq; [by split|].
  unfold tbl_wf in Hwf. rewrite fmap_cons, NoDup_cons in Hwf. inversion Hall; subst. by destruct Hwf.
Qed.

Lemma set_exec_wf `{HashOrder} rand self get c s s' a :
  Forall Str_wf (set_values_ c) → Set_wf s → set_exec rand self get c s = Ok (s', a) → Set_wf s'.
Proof.
  intros Hv Hs. unfold set_exec. intros Hx.
  inv_exec; eauto using Set_Pop_wf.
  - match goal with E : fold_left _ _ _ = (?x, _) |- _ => change x with (x, 0).1; rewrite <-(f_equal fst E : _ = x) end.
    apply count_step_wf; [|done..]. intros. by apply Set_Add_wf.
  - match goal with E : fold_left _ _ _ = (?x, _) |- _ => rewrite <-(f_equal fst E : _ = x) end.
    apply count_step_wf; [|done..]. intros. by apply Set_Rem_wf.
Qed.

Lemma ZSet_Rem_wf z score member z' ok :
  ZSet_wf z → INT_MIN < score ≤ INT_MAX → ZSet_Rem z score member = Ok (z', ok) → ZSet_wf z'.
Proof.
  intros Hz Hs. rewrite ZSet_Rem_eq by done. case_decide; intros; simplify_eq; [by apply zset_without_wf|done].
Qed.

Lemma ZSet_IncrBy_wf z delta member z' ret :
  ZSet_wf z → ZSet_IncrBy z delta member = Ok (z', ret) → ZSet_wf z'.
Proof.
  intros Hz. rewrite ZSet_IncrBy_eq by done.
  destruct (tbl_find _ _ _) as [pos|] eqn:Hf; [|intros; by simplify_eq].
  apply (member_find_Some z Hz) in Hf as (n & Hn & _ & _ & Hd). rewrite Hd. cbn [mbind result_bind].
  intros H. inv_exec. apply zset_rescore_wf; [done..|]. unfold int_add in *.
  match goal with E : int_check _ = Ok _ |- _ => by apply int_check_Ok in E as [-> ?] end.
Qed.

Lemma zpairs_wf (op : ZSet → Z → Str → result (ZSet * bool)) z cnt values z' n :
  (∀ z i m z' ok, ZSet_wf z → INT_MIN < i ≤ INT_MAX → Str_wf m → op z i m = Ok (z', ok) → ZSet_wf z') →
  Forall Str_wf values → ZSet_wf z → zpairs op z cnt values = Ok (z', n) → ZSet_wf z'.
Proof.
  intros Hop. remember (length values) as k eqn:Hk. revert z cnt values Hk.
  induction k as [k IH] using lt_wf_ind. intros z cnt [|s [|m values]] -> Hv Hz; cbn [zpairs]; intros H.
  - by inv_exec.
  - by inv_exec.
  - inversion Hv as [|?? _ Hv']; inversion Hv'; subst. inv_exec.
    + eapply (IH (length values)); [simpl; lia|done|done| |done]. eapply Hop; [done| |done|done]. by eapply RedisStrToInt_int.
    + eapply (IH (length values)); [simpl; lia|done|done|done|done].
Qed.

Lemma zset_exec_wf c z z' a :
  Forall Str_wf (zset_values_ c) → ZSet_wf z → zset_exec c z = Ok (z', a) → ZSet_wf z'.
Proof.
  intros Hv Hz. unfold zset_exec, ZSet_DecrBy. intros H.
  inv_exec; eauto using ZSet_IncrBy_wf.
  - eapply zpairs_wf; [|done..]. intros y i m y' ok Hy Hi Hm [= Ha].
    pose proof (ZSet_Add_wf y Hy i m Hm) as Hw. rewrite Ha in Hw. apply Hw. unfold is_int. lia.
  - eapply zpairs_wf; [|done..]. intros y i m y' ok Hy Hi Hm Ha. by eapply ZSet_Rem_wf.
Qed.

(** ** The frame of a command *)

Section WithObject.
Context `{HashOrder} {A : Type} (b : CommandBase) (creates : list string) (fresh : Object).
Context (as_type : Object → option A) (to_object : A → Object) (exec : Db → A → step A).

(** What a command may do to the database. *)
Record touches_only (k : string) (db db' : Db) : Prop := {
  touch_addr : db_addr db' = db_addr db;
  touch_number : number_ db' = number_ db;
  touch_cache : aof_cache_ db' = aof_cache_ db;
  touch_others : ∀ k', k' ≠ k → Db_map db' !! k' = Db_map db !! k';
}.

Lemma touches_only_refl k db : touches_only k db db.
Proof. done. Qed.

Lemma touches_only_trans k db1 db2 db3 :
  touches_only k db1 db2 → touches_only k db2 db3 → touches_only k db1 db3.
Proof.
  intros [H1 H2 H3 H4] [H5 H6 H7 H8]. split; [congruence..|]. intros k' Hk'. by rewrite H8, H4.
Qed.

Lemma Db_store_touches db key o : touches_only (data_ key) db (Db_store db key o).
Proof. split; [done..|]. intros k' Hk'. rewrite Db_store_map. by rewrite lookup_alter_ne. Qed.

Lemma Db_New_touches db key o :
  Db_wf db → Db_Get db key = None → touches_only (data_ key) db (Db_New db key o).
Proof.
  intros Hwf Hg. split; [done..|]. intros k' Hk'. rewrite Db_Get_map in Hg. apply fmap_None in Hg.
  rewrite Db_New_map by done. by rewrite lookup_insert_ne.
Qed.

Hypothesis as_fresh : is_Some (as_type fresh).
Hypothesis as_inv : ∀ o a, as_type o = Some a → to_object a = o.

Let key := Str_new (obj_name_ b).
Let run := with_object b creates fresh as_type to_object exec.

(** The cases of a command that is executed: it is refused without a change, or its
    object, present or freshly created, goes through [exec]. *)
Lemma with_object_cases db r :
  run (Some db) = Ok r →
  r = (Some db, Some refused) ∨
  ∃ db1 o a a' ret,
    (Db_Get db key = Some o ∧ db1 = db ∨ Db_Get db key = None ∧ o = fresh ∧ db1 = Db_New db key fresh) ∧
    as_type o = Some a ∧ exec db1 a = Ok (a', ret) ∧ r = (Some (Db_store db1 key (to_object a')), Some ret).
Proof.
  unfold run, with_object. fold key. destruct (valid_ b); cbn [negb]; [|intros [= <-]; by left].
  destruct (Db_Get db key) as [o|] eqn:Hg.
  - destruct (as_type o) as [a|] eqn:Ha; [|intros [= <-]; by left].
    intros Hx. inv_exec. right. exists db, o, a. eauto 10.
  - destruct (is_one_of _ _); [|intros [= <-]; by left].
    destruct as_fresh as [a Ha]. rewrite Ha. intros Hx. inv_exec. right.
    exists (Db_New db key fresh), fresh, a. eauto 10.
Qed.

Hypothesis fresh_wf : Object_wf fresh.
Hypothesis exec_wf : ∀ db a a' ret,
  Object_wf (to_object a) → exec db a = Ok (a', ret) → Object_wf (to_object a').

Lemma with_object_keeps db db' ret :
  Db_wf db → run (Some db) = Ok (Some db', ret) → Db_wf db' ∧ touches_only (obj_name_ b) db db'.
Proof.
  intros Hwf Hr. apply with_object_cases in Hr as [Hr|(db1 & o & a & a' & r & Hdb1 & Ha & He & Hr)].
  { simplify_eq. split; [done|apply touches_only_refl]. }
  simplify_eq.
  assert (Db_wf db1 ∧ touches_only (obj_name_ b) db db1 ∧ Object_wf o) as (Hwf1 & Ht & Ho).
  { destruct Hdb1 as [[Hg ->]|(Hg & -> & ->)].
    - split_and!; [done|apply touches_only_refl|by eapply Db_Get_wf].
    - split_and!; [apply Db_New_wf; [apply Str_new_wf|done|done]|by apply (Db_New_touches db key)|done]. }
  split.
  - apply Db_store_wf; [|done]. eapply exec_wf; [|done]. by rewrite (as_inv _ _ Ha).
  - eapply touches_only_trans; [done|]. apply (Db_store_touches db1 key).
Qed.

End WithObject.

(** ** Every object command *)

(** The arguments of a command. *)
Definition command_values (c : Command) : list Str :=
  match c with
  | CList c => list_values_ c | CHash c => hash_values_ c | CSet c => set_values_ c | CZSet c => zset_values_ c
  | _ => []
  end.

Lemma RequestToCommandExec_values req c :
  RequestToCommandExec req = Ok (Some c) → Forall Str_wf (command_values c).
Proof.
  unfold RequestToCommandExec. destruct req as [|e0 rest]; [done|].
  destruct (command_values_wf (JString (string_toupper (string_value e0)) :: rest)) as (Hl & Hh & Hs & Hz).
  intros Hx. inv_bind.
  assert (∀ c, a = Some c → Forall Str_wf (command_values c)) as Ha.
  { intros c' ->. destruct (isServerCommand _); inv_bind; simplify_eq. constructor. }
  repeat case_match; simplify_eq; simpl; auto; constructor.
Qed.

Lemma object_Exec_keeps `{HashOrder} rand c db db' ret :
  Forall Str_wf (command_values c) → Db_wf db →
  object_Exec rand c (Some db) = Some (Ok (Some db', ret)) →
  Db_wf db' ∧ touches_only (obj_name_ (command_base c)) db db'.
Proof.
  intros Hv Hwf. destruct c as [c|c|c|c|c|c|c|c]; simpl; try done; intros [= Hx];
    (eapply with_object_keeps; [..|exact Hwf|exact Hx]; simpl; try done).
  all: try (intros []; naive_solver).
  all: try (intros; by eapply str_exec_wf).
  all: try (intros; by eapply list_exec_wf).
  all: try (intros; by eapply hash_exec_wf).
  all: try (intros; by eapply set_exec_wf).
  all: try (intros; by eapply zset_exec_wf).
  - left. done.
  - split; constructor.
  - split; constructor.
  - apply ZSet_empty_wf.
Qed.

(** ** Properties *)

(** C20: a command of a request that runs on the objects keeps the database well formed,
    and can only change the object under its own key: the number, the address, the log
    and all other keys stay. *)
Theorem object_command_frame `{HashOrder} rand req c db db' ret :
  RequestToCommandExec req = Ok (Some c) → Db_wf db →
  object_Exec rand c (Some db) = Some (Ok (Some db', ret)) →
  Db_wf db' ∧ touches_only (obj_name_ (command_base c)) db db'.
Proof. intros Hreq Hwf Hx. eapply object_Exec_keeps; [by eapply RequestToCommandExec_values|done|exact Hx]. Qed.

Lemma object_command_frame_witness :
  ∃ db' ret, object_Exec (H := front_order) 0 (CStr (mkStrCommand (mkBase true "SET" "k") (Some "1"))) (Some (mkDb 0 0 [] []))
             = Some (Ok (Some db', ret)) ∧ Db_wf db' ∧ touches_only "k" (mkDb 0 0 [] []) db'.
Proof.
  eexists _, _. split; [vm_compute; reflexivity|].
  apply (object_command_frame (H := front_order) 0 [JString "set"; JString "k"; JString "1"]
    (CStr (mkStrCommand (mkBase true "SET" "k") (Some "1"))) (mkDb 0 0 [] []) _ (Some ["OK"])).
  - reflexivity.
  - split; constructor.
  - vm_compute. reflexivity.
Defined.

End ExecWf.
Export ExecWf.
