(* ===== verification/Spec.v ===== *)
(** * Abstract objects and the refinement of the object commands

    A set command is specified on the finite set of its members' texts, a hash command
    on the finite map of its fields, a sorted-set command on the list of members and
    scores in insertion order.  The relations say which new state and which answer a
    command may give; the theorems show that the code gives one of them. *)

From stdpp Require Import base gmap list strings fin_maps sets sorting.
From Stdlib Require Import Ascii ZArith Lia.
From S2P Require Import Prelude CInt Util Object StrObj Containers ListObj HashObj SetObj ZSetObj.
From S2P Require Import Json Request Database Command Exec ExecWf.
Local Open Scope Z_scope.

Module Spec.

(** ** Sets *)

(** [other key] is the set another key holds, if it holds one. *)
Inductive set_spec (other : string → option (gset string)) :
    string → list string → gset string → gset string → answer → Prop :=
| spec_sadd args S :
    set_spec other "SADD" args S (list_to_set args ∪ S)
      [to_string (Z.of_nat (size (list_to_set args ∪ S)) - Z.of_nat (size S))]
| spec_scard args S : set_spec other "SCARD" args S S [to_string (Z.of_nat (size S))]
| spec_sismember args S :
    set_spec other "SISMEMBER" args S S (or_nil ((λ e, bool_text (bool_decide (e ∈ S))) <$> args))
| spec_smembers args S l :
    l ≡ₚ elements S → set_spec other "SMEMBERS" args S S (or_nil (quoted <$> l))
| spec_srandmember_empty args : set_spec other "SRANDMEMBER" args ∅ ∅ nil_answer
| spec_srandmember args S x :
    x ∈ S → set_spec other "SRANDMEMBER" args S S (if decide (x = "") then nil_answer else [quoted x])
| spec_spop_empty args : set_spec other "SPOP" args ∅ ∅ nil_answer
| spec_spop args S x y :
    (* one member goes, another one is named in the answer *)
    x ∈ S → y ∈ S ∖ {[x]} →
    set_spec other "SPOP" args S (S ∖ {[x]}) (if decide (y = "") then nil_answer else [quoted y])
| spec_srem args S :
    set_spec other "SREM" args S (S ∖ list_to_set args)
      [to_string (Z.of_nat (size S) - Z.of_nat (size (S ∖ list_to_set args)))]
| spec_salgebra_none cmd k args S :
    cmd ∈ ["SINTER"; "SDIFF"] → other k = None → set_spec other cmd (k :: args) S S refused
| spec_sinter k args S T l :
    other k = Some T → l ≡ₚ elements (S ∩ T) → set_spec other "SINTER" (k :: args) S S (or_nil l)
| spec_sdiff k args S T l :
    other k = Some T → l ≡ₚ elements (S ∖ T) → set_spec other "SDIFF" (k :: args) S S (or_nil l).

Section SetRefines.
Context `{HashOrder}.

Lemma Set_adds values st cnt st' cnt' :
  Set_wf st → Forall Str_wf values → fold_left (count_step Set_Add) values (st, cnt) = (st', cnt') →
  Set_elems st' = list_to_set (data_ <$> values) ∪ Set_elems st ∧
  cnt' = cnt + Z.of_nat (size (Set_elems st')) - Z.of_nat (size (Set_elems st)).
Proof.
  intros Hwf Hv. revert st cnt Hwf. induction Hv as [|v vs Hv Hvs IH]; intros st cnt Hwf; cbn [fold_left].
  { intros [= <- <-]. split; [set_solver|lia]. }
  unfold count_step at 2. pose proof (Set_Add_elems st v) as [He Hb]. pose proof (Set_Add_wf st v Hv Hwf) as Hwf1.
  destruct (Set_Add st v) as [st1 ok]. simpl in He, Hb, Hwf1. intros Hf.
  destruct (IH st1 _ Hwf1 Hf) as [-> ->]. rewrite He. split; [simpl; set_solver|].
  subst ok. destruct (decide (data_ v ∈ Set_elems st)).
  - rewrite bool_decide_false by auto. replace ({[data_ v]} ∪ Set_elems st) with (Set_elems st) by set_solver. lia.
  - rewrite bool_decide_true by done. rewrite (size_union {[data_ v]} (Set_elems st)), size_singleton by set_solver. lia.
Qed.

Lemma Set_rems values st cnt st' cnt' :
  Set_wf st → fold_left (count_step Set_Rem) values (st, cnt) = (st', cnt') →
  Set_elems st' = Set_elems st ∖ list_to_set (data_ <$> values) ∧
  cnt' = cnt + Z.of_nat (size (Set_elems st)) - Z.of_nat (size (Set_elems st')).
Proof.
  revert st cnt. induction values as [|v vs IH]; intros st cnt Hwf; cbn [fold_left].
  { intros [= <- <-]. split; [set_solver|lia]. }
  unfold count_step at 2. pose proof (Set_Rem_elems st v) as [He Hb]. pose proof (Set_Rem_wf st v Hwf) as Hwf1.
  destruct (Set_Rem st v) as [st1 ok]. simpl in He, Hb, Hwf1. intros Hf.
  destruct (IH st1 _ Hwf1 Hf) as [-> ->]. rewrite He. split; [simpl; set_solver|].
  subst ok. destruct (decide (data_ v ∈ Set_elems st)).
  - rewrite bool_decide_true by done. rewrite (size_difference (Set_elems st) {[data_ v]}), size_singleton by set_solver.
    assert (size (Set_elems st) ≠ 0)%nat by (intros E%size_empty_inv; set_solver). lia.
  - rewrite bool_decide_false by auto. replace (Set_elems st ∖ {[data_ v]}) with (Set_elems st) by set_solver. lia.
Qed.

Lemma Set_elems_elements st : tbl_wf data_ st → data_ <$> st ≡ₚ elements (Set_elems st).
Proof.
  intros Hwf. unfold Set_elems. symmetry. apply elements_list_to_set. exact Hwf.
Qed.

Lemma quoted_or_nil_text s : quoted_or_nil s = if decide (data_ s = "") then nil_answer else [quoted (data_ s)].
Proof. unfold quoted_or_nil, Str_Empty, Str_GetRaw. destruct (data_ s); by case_decide. Qed.

Lemma tbl_wf_filter {E} (key : E → string) (P : E → Prop) `{∀ x, Decision (P x)} l :
  tbl_wf key l → tbl_wf key (filter P l).
Proof. unfold tbl_wf. apply NoDup_fmap_filter. Qed.

(** The sets an algebra command computes list the members once each. *)
Lemma Set_algebra_wf p q st a :
  tbl_wf data_ st → tbl_wf data_ (Set_Inter p q st a) ∧ tbl_wf data_ (Set_Diff p q st a).
Proof.
  intros Hwf. unfold Set_Inter, Set_Diff. repeat case_match; split; first [by apply tbl_wf_filter|done|constructor].
Qed.

Lemma Set_RandMember_in st rand v : Set_RandMember st rand = Ok v → st ≠ [] → v ∈ st.
Proof.
  unfold Set_RandMember. destruct st as [|x st]; [done|]. intros Hv%vec_at_Ok _.
  by eapply list_elem_of_lookup_2.
Qed.

Lemma elem_Set_elems v st : v ∈ st → data_ v ∈ Set_elems st.
Proof. intros Hv. unfold Set_elems. apply elem_of_list_to_set. by apply list_elem_of_fmap_2. Qed.

Lemma Set_Pop_refines other args st st' v :
  tbl_wf data_ st → Set_Pop st = Ok (st', v) →
  set_spec other "SPOP" args (Set_elems st) (Set_elems st') (quoted_or_nil v).
Proof.
  intros Hnd. unfold Set_Pop. destruct st as [|x [|y s]]; [|done|].
  - intros [= <- <-]. apply spec_spop_empty.
  - intros [= <- <-]. rewrite quoted_or_nil_text. unfold tbl_wf in Hnd. rewrite fmap_cons, NoDup_cons in Hnd.
    assert (Set_elems (y :: s) = Set_elems (x :: y :: s) ∖ {[data_ x]}) as ->.
    { unfold Set_elems. rewrite (fmap_cons _ x). set_solver. }
    apply spec_spop; set_solver.
Qed.

(** The sets other keys hold. *)
Context (get : Str → option (Z * Object)) (st : SetT).
Hypothesis get_text : ∀ key, get key = get (Str_new (data_ key)).
Hypothesis get_self : ∀ key a, get key = Some (0, OSet a) → st = a.

Definition others (k : string) : option (gset string) :=
  match get (Str_new k) with Some (_, OSet s) => Some (Set_elems s) | _ => None end.

Lemma set_algebra_refines (op : Z → Z → SetT → SetT → list Str) (aop : gset string → gset string → gset string)
    cmd v0 args :
  cmd ∈ ["SINTER"; "SDIFF"] →
  (∀ p a, (0 = p → st = a) → tbl_wf data_ (op 0 p st a) ∧ Set_elems (op 0 p st a) = aop (Set_elems st) (Set_elems a)) →
  (∀ T l, others (data_ v0) = Some T → l ≡ₚ elements (aop (Set_elems st) T) →
     set_spec others cmd (data_ v0 :: args) (Set_elems st) (Set_elems st) (or_nil l)) →
  set_spec others cmd (data_ v0 :: args) (Set_elems st) (Set_elems st) (set_algebra op 0 st (get v0)).
Proof.
  intros Hcmd Hop Hspec. unfold set_algebra. unfold others at 1 in Hspec. rewrite get_text.
  destruct (get (Str_new (data_ v0))) as [[p o]|] eqn:E.
  2:{ apply spec_salgebra_none; [done|]. unfold others. by rewrite E. }
  destruct o as [| | |a|]; try (apply spec_salgebra_none; [done|]; unfold others; by rewrite E).
  destruct (Hop p a) as [Hw He]; [intros <-; eauto|].
  eapply Hspec; [done|]. rewrite <-He. by apply Set_elems_elements.
Qed.

Lemma set_exec_refines rand c st' a :
  Set_wf st → Forall Str_wf (set_values_ c) → isSetCommand (command_ (set_base c)) = true →
  set_exec rand 0 get c st = Ok (st', a) →
  set_spec others (command_ (set_base c)) (data_ <$> set_values_ c) (Set_elems st) (Set_elems st') a.
Proof.
  intros Hwf Hv Hcmd%is_one_of_spec. pose proof (proj1 Hwf) as Hnd. unfold set_exec.
  set (cmd := command_ (set_base c)) in *. clearbody cmd.
  repeat (apply elem_of_cons in Hcmd as [->|Hcmd]); [..|by apply not_elem_of_nil in Hcmd]; cbn [String.eqb Ascii.eqb Bool.eqb].
  - destruct (fold_left _ _ _) as [st1 cnt] eqn:Hf. intros [= <- <-].
    destruct (Set_adds _ _ _ _ _ Hwf Hv Hf) as [-> ->]. rewrite Z.add_0_l. apply spec_sadd.
  - intros [= <- <-]. rewrite Set_Card_elems by done. apply spec_scard.
  - intros [= <- <-]. replace ((λ e, bool_text (Set_IsMember st e)) <$> set_values_ c)
      with ((λ e, bool_text (bool_decide (e ∈ Set_elems st))) <$> (data_ <$> set_values_ c)); [apply spec_sismember|].
    rewrite <-list_fmap_compose. apply list_fmap_ext. intros i x _. simpl. by rewrite Set_IsMember_elems.
  - intros [= <- <-]. unfold Set_Members.
    replace ((λ e, quoted (Str_GetRaw e)) <$> st) with (quoted <$> (data_ <$> st)) by (by rewrite <-list_fmap_compose).
    apply spec_smembers. by apply Set_elems_elements.
  - destruct st as [|x s] eqn:Est.
    + intros [= <- <-]. apply spec_srandmember_empty.
    + intros Hx. inv_bind. simplify_eq. rewrite quoted_or_nil_text. apply spec_srandmember, elem_Set_elems.
      by eapply Set_RandMember_in.
  - intros Hx. inv_exec. by eapply Set_Pop_refines.
  - destruct (fold_left _ _ _) as [st1 cnt] eqn:Hf. intros [= <- <-].
    destruct (Set_rems _ _ _ _ _ Hwf Hf) as [-> ->]. rewrite Z.add_0_l. apply spec_srem.
  - destruct (set_values_ c) as [|v0 vs]; [done|]. intros [= <- <-].
    apply set_algebra_refines with (aop := λ S T, S ∩ T); [set_solver| |].
    + intros p s Hp. split; [by apply Set_algebra_wf|by apply Set_Inter_elems].
    + intros T l HT Hl. by eapply spec_sinter.
  - destruct (set_values_ c) as [|v0 vs]; [done|]. intros [= <- <-].
    apply set_algebra_refines with (aop := λ S T, S ∖ T); [set_solver| |].
    + intros p s Hp. split; [by apply Set_algebra_wf|by apply Set_Diff_elems].
    + intros T l HT Hl. by eapply spec_sdiff.
Qed.

End SetRefines.

(** ** Hashes *)

(** The pairs HSET assigns. *)
Fixpoint assign_pairs (args : list Str) (M : gmap string Str) : gmap string Str :=
  match args with
  | k :: v :: args => assign_pairs args (<[data_ k := v]> M)
  | _ => M
  end.

Definition field_text (M : gmap string Str) (k : string) : string :=
  match M !! k with
  | Some s => if decide (data_ s = "") then "(nil)" else data_ s
  | None => "(nil)"
  end.

(** An increment of a field by a signed amount. *)
Inductive incr_spec (M : gmap string Str) (k : string) (delta : Z) : gmap string Str → answer → Prop :=
| incr_absent : M !! k = None → incr_spec M k delta M refused
| incr_text s s' : M !! k = Some s → Str_IncrBy s delta = Ok (s', "") → incr_spec M k delta (<[k := s']> M) refused
| incr_number s s' ret :
    M !! k = Some s → Str_IncrBy s delta = Ok (s', ret) → ret ≠ "" → incr_spec M k delta (<[k := s']> M) [ret].

Inductive hash_spec : string → list Str → gmap string Str → gmap string Str → answer → Prop :=
| spec_hset args M : hash_spec "HSET" args M (assign_pairs args M) ok_answer
| spec_hget args M : hash_spec "HGET" args M M (or_nil ((λ k, quoted (field_text M (data_ k))) <$> args))
| spec_hexist args M :
    hash_spec "HEXIST" args M M ((λ k, bool_text (bool_decide (is_Some (M !! data_ k)))) <$> args)
| spec_hdel args M : hash_spec "HDEL" args M (fold_left (λ M k, delete (data_ k) M) args M) ok_answer
| spec_hlen args M : hash_spec "HLEN" args M M [to_string (Z.of_nat (size M))]
| spec_hgetall args M l :
    l ≡ₚ map_to_list (data_ <$> M) →
    hash_spec "HGETALL" args M M (or_nil (concat ((λ kv : string * string, [quoted kv.1; quoted kv.2]) <$> l)))
| spec_hcounter_text cmd k v args M :
    cmd ∈ ["HINCRBY"; "HDECRBY"] → RedisStrToInt (data_ v) = Ok None → hash_spec cmd (k :: v :: args) M M refused
| spec_hincrby k v args M i M' a :
    RedisStrToInt (data_ v) = Ok (Some i) → incr_spec M (data_ k) i M' a → hash_spec "HINCRBY" (k :: v :: args) M M' a
| spec_hdecrby k v args M i M' a :
    RedisStrToInt (data_ v) = Ok (Some i) → incr_spec M (data_ k) (- i) M' a → hash_spec "HDECRBY" (k :: v :: args) M M' a.

Section HashRefines.
Context `{HashOrder}.

Lemma hset_loop_map h values h' :
  Forall Str_wf values → Hash_wf h → hset_loop h values = Ok h' → Hash_map h' = assign_pairs values (Hash_map h).
Proof.
  intros Hv. revert h h'. remember (length values) as n eqn:Hn. revert values Hv Hn.
  induction n as [n IH] using lt_wf_ind. intros [|k [|v values]] Hv -> h h' Hh; cbn [hset_loop assign_pairs].
  - by intros [= <-].
  - done.
  - inversion Hv as [|?? Hk Hv']; inversion Hv'; subst. intros Hl. rewrite <-Hash_Set_map by done.
    eapply IH; [|done|done|by apply Hash_Set_wf|done]. simpl. lia.
Qed.

Lemma Hash_Dels_map keys h : Hash_map (fold_left Hash_Del keys h) = fold_left (λ M k, delete (data_ k) M) keys (Hash_map h).
Proof.
  revert h; induction keys as [|k keys IH]; intros h; cbn [fold_left]; [done|]. by rewrite IH, Hash_Del_map.
Qed.

Lemma Hash_GetAll_map h : Hash_wf h → (λ kv : Str * Str, (data_ kv.1, data_ kv.2)) <$> h ≡ₚ map_to_list (data_ <$> Hash_map h).
Proof.
  intros [Hwf _]. unfold Hash_map, tbl_map. rewrite <-map_fmap_compose, <-list_to_map_fmap, <-list_fmap_compose.
  rewrite map_to_list_to_map; [done|]. rewrite <-list_fmap_compose. exact Hwf.
Qed.

Lemma number_answer_text ret : number_answer ret = if decide (ret = "") then refused else [ret].
Proof. by destruct ret. Qed.

Lemma Hash_IncrBy_refines h key delta h' ret :
  Hash_IncrBy h key delta = Ok (h', ret) →
  incr_spec (Hash_map h) (data_ key) delta (Hash_map h') (number_answer ret).
Proof.
  intros He. destruct (Hash_IncrBy_cases h key delta) as [[Hn Hc]|(s & Hs & Hc)].
  - rewrite He in Hc. simplify_eq. by apply incr_absent.
  - destruct (Str_IncrBy s delta) as [[s' r]|e] eqn:Ei; [|congruence].
    destruct Hc as (h2 & Hh2 & Hm). rewrite He in Hh2. simplify_eq. rewrite Hm, number_answer_text.
    case_decide; subst; [by eapply incr_text|by eapply incr_number].
Qed.

Lemma hash_exec_refines c h h' a :
  Hash_wf h → Forall Str_wf (hash_values_ c) → isHashCommand (command_ (hash_base c)) = true →
  hash_exec c h = Ok (h', a) →
  hash_spec (command_ (hash_base c)) (hash_values_ c) (Hash_map h) (Hash_map h') a.
Proof.
  intros Hwf Hv Hcmd%is_one_of_spec. unfold hash_exec.
  set (cmd := command_ (hash_base c)) in *. clearbody cmd.
  repeat (apply elem_of_cons in Hcmd as [->|Hcmd]); [..|by apply not_elem_of_nil in Hcmd]; cbn [String.eqb Ascii.eqb Bool.eqb].
  - intros [= <- <-].
    replace (or_nil _) with (or_nil ((λ k, quoted (field_text (Hash_map h) (data_ k))) <$> hash_values_ c)); [apply spec_hget|].
    f_equal. apply list_fmap_ext. intros i k _. simpl. unfold field_text. rewrite Hash_Get_map. f_equal.
    destruct (Hash_map h !! data_ k) as [s|]; [|done]. simpl. unfold Str_GetRaw. by destruct (data_ s); case_decide.
  - intros Hx. inv_bind. simplify_eq. erewrite (hset_loop_map h _ h') by done. apply spec_hset.
  - intros [= <- <-].
    replace ((λ key, bool_text (Hash_Exist h key)) <$> hash_values_ c)
      with ((λ k, bool_text (bool_decide (is_Some (Hash_map h !! data_ k)))) <$> hash_values_ c); [apply spec_hexist|].
    apply list_fmap_ext. intros i k _. simpl. by rewrite Hash_Exist_map.
  - intros [= <- <-]. rewrite Hash_Dels_map. apply spec_hdel.
  - intros [= <- <-]. rewrite Hash_Len_map by done. apply spec_hlen.
  - intros [= <- <-]. unfold Hash_GetAll.
    replace ((λ kv : Str * Str, [quoted (Str_GetRaw kv.1); quoted (Str_GetRaw kv.2)]) <$> h)
      with ((λ kv : string * string, [quoted kv.1; quoted kv.2]) <$> ((λ kv : Str * Str, (data_ kv.1, data_ kv.2)) <$> h))
      by (by rewrite <-list_fmap_compose).
    apply spec_hgetall. by apply Hash_GetAll_map.
  - destruct (hash_values_ c) as [|k [|v vs]]; [done..|]. intros Hx. inv_exec; inv_args.
    + eapply spec_hincrby; [done|]. by apply Hash_IncrBy_refines.
    + apply spec_hcounter_text; [set_solver|done].
  - destruct (hash_values_ c) as [|k [|v vs]]; [done..|]. intros Hx. inv_exec; inv_args.
    + eapply spec_hdecrby; [done|]. apply Hash_IncrBy_refines. rewrite <-Hash_DecrBy_IncrBy; [done|].
      by eapply RedisStrToInt_int.
    + apply spec_hcounter_text; [set_solver|done].
Qed.

End HashRefines.

(** ** Sorted sets *)

Abbreviation zview := (list (string * Z)).

Definition zadd1 (V : zview) (score : Z) (m : string) : zview :=
  if decide (m ∈ V.*1) then V else V ++ [(m, score)].
Definition zrem1 (V : zview) (score : Z) (m : string) : zview :=
  if decide ((m, score) ∈ V) then filter (λ p, p.1 ≠ m) V else V.

(** The pairs of ZADD and ZREM; a score that is no number skips its pair. *)
Fixpoint zpairs_spec (op : zview → Z → string → zview) (args : list Str) (V : zview) : zview :=
  match args with
  | s :: m :: args =>
      zpairs_spec op args
        (match RedisStrToInt (data_ s) with Ok (Some i) => op V i (data_ m) | _ => V end)
  | _ => V
  end.

Definition rescore (V : zview) (m : string) (score : Z) : zview :=
  (λ p, if decide (p.1 = m) then (p.1, score) else p) <$> V.

Definition pairs_answer (l : zview) : answer := or_nil (concat ((λ p : string * Z, [p.1; to_string p.2]) <$> l)).

(** A counter of a member: its score moves by [delta]. *)
Inductive zincr_spec (V : zview) (delta : Z) (m : string) : zview → answer → Prop :=
| zincr_absent : m ∉ V.*1 → zincr_spec V delta m V refused
| zincr_member score :
    (m, score) ∈ V → is_int (score + delta) →
    zincr_spec V delta m (rescore V m (score + delta)) [to_string (score + delta)].

Definition between (lo hi : string) (p : string * Z) : Prop := String.le lo p.1 ∧ String.le p.1 hi.
#[export] Instance between_dec lo hi p : Decision (between lo hi p).
Proof. unfold between. apply _. Defined.

Inductive zset_spec : string → list Str → zview → zview → answer → Prop :=
| spec_zadd args V :
    zset_spec "ZADD" args V (zpairs_spec zadd1 args V)
      [to_string (Z.of_nat (length (zpairs_spec zadd1 args V)) - Z.of_nat (length V))]
| spec_zrem args V :
    zset_spec "ZREM" args V (zpairs_spec zrem1 args V)
      [to_string (Z.of_nat (length V) - Z.of_nat (length (zpairs_spec zrem1 args V)))]
| spec_zcard args V : zset_spec "ZCARD" args V V [to_string (Z.of_nat (length V))]
| spec_zbad cmd args V :
    (* a bound or an amount that is not a number *)
    cmd ∈ ["ZCOUNT"; "ZRANGE"; "ZRANGEBYSCORE"; "ZINCRBY"; "ZDECRBY"] →
    Exists (λ v, RedisStrToInt (data_ v) = Ok None) (take 2 args) → zset_spec cmd args V V refused
| spec_zcount s1 s2 args V lo hi :
    RedisStrToInt (data_ s1) = Ok (Some lo) → RedisStrToInt (data_ s2) = Ok (Some hi) →
    zset_spec "ZCOUNT" (s1 :: s2 :: args) V V
      [to_string (Z.of_nat (length (filter (λ p : string * Z, lo ≤ p.2 ≤ hi) V)))]
| spec_zlexcount lo hi args V :
    zset_spec "ZLEXCOUNT" (lo :: hi :: args) V V
      [to_string (Z.of_nat (length (filter (between (data_ lo) (data_ hi)) V)))]
| spec_zincrby v m args V delta V' a :
    RedisStrToInt (data_ v) = Ok (Some delta) → zincr_spec V delta (data_ m) V' a →
    zset_spec "ZINCRBY" (v :: m :: args) V V' a
| spec_zdecrby v m args V delta V' a :
    (* the amount is read and then one is subtracted *)
    RedisStrToInt (data_ v) = Ok (Some delta) → zincr_spec V (-1) (data_ m) V' a →
    zset_spec "ZDECRBY" (v :: m :: args) V V' a
| spec_zrange_empty s1 s2 args b e :
    RedisStrToInt (data_ s1) = Ok (Some b) → RedisStrToInt (data_ s2) = Ok (Some e) →
    zset_spec "ZRANGE" (s1 :: s2 :: args) [] [] nil_answer
| spec_zrange s1 s2 args V b e :
    RedisStrToInt (data_ s1) = Ok (Some b) → RedisStrToInt (data_ s2) = Ok (Some e) → V ≠ [] →
    let lb := position (Z.of_nat (length V)) b in
    let le := position (Z.of_nat (length V)) e in
    zset_spec "ZRANGE" (s1 :: s2 :: args) V V
      (pairs_answer (if decide (le ≤ lb) then [] else slice (Z.to_nat lb) (Z.to_nat (le + 1)) V))
| spec_zrangebyscore s1 s2 args V lo hi l :
    RedisStrToInt (data_ s1) = Ok (Some lo) → RedisStrToInt (data_ s2) = Ok (Some hi) →
    l ≡ₚ filter (λ p : string * Z, lo ≤ p.2 ≤ hi) V → StronglySorted Z.le l.*2 →
    zset_spec "ZRANGEBYSCORE" (s1 :: s2 :: args) V V (pairs_answer l)
| spec_zrangebylex lo hi args V l :
    l ≡ₚ filter (between (data_ lo) (data_ hi)) V → StronglySorted String.le l.*1 →
    zset_spec "ZRANGEBYLEX" (lo :: hi :: args) V V (pairs_answer l)
| spec_zmissing cmd m args V :
    cmd ∈ ["ZRANK"; "ZSCORE"] → data_ m ∉ V.*1 → zset_spec cmd (m :: args) V V nil_answer
| spec_zrank m args V score :
    (data_ m, score) ∈ V →
    zset_spec "ZRANK" (m :: args) V V
      [to_string (Z.of_nat (length (filter (λ p : string * Z, p.2 < score) V)))]
| spec_zscore m args V score :
    (data_ m, score) ∈ V → zset_spec "ZSCORE" (m :: args) V V [to_string score].

Lemma ZSet_Add_view z score m : ZSet_wf z →
  ZSet_view (ZSet_Add z score m).1 = zadd1 (ZSet_view z) score (data_ m) ∧
  (ZSet_Add z score m).2 = bool_decide (data_ m ∉ (ZSet_view z).*1).
Proof.
  intros Hz. unfold zadd1. case_decide as Hm.
  - rewrite ZSet_Add_present by done. rewrite bool_decide_false; [done|]. auto.
  - destruct (ZSet_Add_absent z Hz score m Hm) as (z' & -> & Hv). by rewrite bool_decide_true.
Qed.

Lemma ZSet_Card_view z : ZSet_Card z = Z.of_nat (length (ZSet_view z)).
Proof. unfold ZSet_Card, ZSet_view. by rewrite length_fmap. Qed.

Lemma ZSet_Rem_view z score m z' ok :
  ZSet_wf z → INT_MIN < score ≤ INT_MAX → ZSet_Rem z score m = Ok (z', ok) →
  ZSet_view z' = zrem1 (ZSet_view z) score (data_ m) ∧ ok = bool_decide ((data_ m, score) ∈ ZSet_view z).
Proof.
  intros Hz Hs. rewrite ZSet_Rem_eq by done. unfold zrem1. case_decide; intros [= <- <-].
  - rewrite zset_without_view. by rewrite bool_decide_true.
  - by rewrite bool_decide_false.
Qed.

Lemma ZSet_view_NoDup z : ZSet_wf z → NoDup (ZSet_view z).*1.
Proof. intros Hz. unfold ZSet_view. rewrite <-list_fmap_compose. apply (wf_keys z Hz). Qed.

(** Removing a member that is there shortens the view by one. *)
Lemma zrem1_length V score m :
  NoDup V.*1 → Z.of_nat (length V) - Z.of_nat (length (zrem1 V score m)) = Z.b2z (bool_decide ((m, score) ∈ V)).
Proof.
  intros Hnd. unfold zrem1. case_decide as Hin; [|rewrite bool_decide_false by done; simpl; lia].
  rewrite bool_decide_true by done. simpl.
  assert (length V = S (length (filter (λ p : string * Z, p.1 ≠ m) V))) as ->; [|lia].
  clear -Hnd Hin. induction V as [|p V IH]; [set_solver|]. rewrite fmap_cons, NoDup_cons in Hnd. destruct Hnd as [Hp Hnd].
  rewrite filter_cons. apply elem_of_cons in Hin as [<-|Hin].
  - rewrite decide_False by auto. simpl. f_equal. simpl in Hp. clear -Hp.
    induction V as [|q V IH]; [done|]. rewrite filter_cons, decide_True by set_solver. simpl. f_equal. apply IH. set_solver.
  - rewrite decide_True. { simpl. f_equal. by apply IH. }
    intros E. apply Hp. rewrite E. by apply (list_elem_of_fmap_2 fst) in Hin.
Qed.

Lemma zpairs_view (op : ZSet → Z → Str → result (ZSet * bool)) (aop : zview → Z → string → zview) sgn z cnt values z' n :
  (∀ z i m z' ok, ZSet_wf z → INT_MIN < i ≤ INT_MAX → Str_wf m → op z i m = Ok (z', ok) →
     ZSet_wf z' ∧ ZSet_view z' = aop (ZSet_view z) i (data_ m) ∧
     sgn * (Z.of_nat (length (ZSet_view z')) - Z.of_nat (length (ZSet_view z))) = Z.b2z ok) →
  Forall Str_wf values → ZSet_wf z → zpairs op z cnt values = Ok (z', n) →
  ZSet_view z' = zpairs_spec aop values (ZSet_view z) ∧
  n = cnt + sgn * (Z.of_nat (length (ZSet_view z')) - Z.of_nat (length (ZSet_view z))).
Proof.
  intros Hop. remember (length values) as k eqn:Hk. revert z cnt values Hk.
  induction k as [k IH] using lt_wf_ind.
  intros z cnt [|s [|m values]] -> Hv Hz; cbn [zpairs zpairs_spec]; intros H; [inv_exec; split; [done|lia]..|].
  inversion Hv as [|?? _ Hv']; inversion Hv'; subst. unfold Str_GetRaw in H. inv_bind.
  destruct a as [i|]; [|by eapply (IH (length values)) in H; [|simpl; lia|done..]].
  inv_exec. edestruct Hop as (Hw & Hview & Hcnt); [done|by eapply RedisStrToInt_int|done|done|].
  eapply (IH (length values)) in H as [-> ->]; [|simpl; lia|done..]. rewrite Hview. split; [done|].
  rewrite Hview in Hcnt. destruct b; simpl in Hcnt; lia.
Qed.

Lemma zadd_step z i m z' ok :
  ZSet_wf z → INT_MIN < i ≤ INT_MAX → Str_wf m → Ok (ZSet_Add z i m) = Ok (z', ok) →
  ZSet_wf z' ∧ ZSet_view z' = zadd1 (ZSet_view z) i (data_ m) ∧
  1 * (Z.of_nat (length (ZSet_view z')) - Z.of_nat (length (ZSet_view z))) = Z.b2z ok.
Proof.
  intros Hz Hi Hm [= Ha]. pose proof (ZSet_Add_wf z Hz i m Hm) as Hw.
  destruct (ZSet_Add_view z i m Hz) as [Hview Hok]. rewrite Ha in *. cbn [fst snd] in *.
  split_and!; [apply Hw; unfold is_int; lia|done|]. rewrite Hview, Hok. unfold zadd1. destruct (decide _).
  - rewrite bool_decide_false by auto. simpl. lia.
  - rewrite bool_decide_true by done. rewrite length_app. simpl. lia.
Qed.

Lemma zrem_step z i m z' ok :
  ZSet_wf z → INT_MIN < i ≤ INT_MAX → Str_wf m → ZSet_Rem z i m = Ok (z', ok) →
  ZSet_wf z' ∧ ZSet_view z' = zrem1 (ZSet_view z) i (data_ m) ∧
  -1 * (Z.of_nat (length (ZSet_view z')) - Z.of_nat (length (ZSet_view z))) = Z.b2z ok.
Proof.
  intros Hz Hi Hm Ha. destruct (ZSet_Rem_view z i m z' ok Hz Hi Ha) as [Hview ->].
  split_and!; [by eapply ZSet_Rem_wf|done|]. rewrite Hview.
  rewrite <-(zrem1_length (ZSet_view z) i (data_ m)) by (by apply ZSet_view_NoDup). lia.
Qed.

Lemma ZSet_IncrBy_refines z delta m z' ret :
  ZSet_wf z → ZSet_IncrBy z delta m = Ok (z', ret) →
  zincr_spec (ZSet_view z) delta (data_ m) (ZSet_view z') (number_answer ret).
Proof.
  intros Hz. rewrite ZSet_IncrBy_eq by done.
  destruct (tbl_find member_key (data_ m) (member_map_ z)) as [pos|] eqn:Hf.
  - apply (member_find_Some z Hz) in Hf as (n & Hn & Hk & _ & Hd). rewrite Hd. cbn [mbind result_bind].
    intros H. inv_bind. simplify_eq. apply int_check_Ok in E as [-> Hi].
    rewrite zset_rescore_view by done. rewrite Hk, number_answer_text.
    rewrite decide_False by apply to_string_nonempty. apply zincr_member; [|done].
    apply list_elem_of_fmap. exists n. by rewrite Hk.
  - intros [= <- <-]. apply (member_find_None z Hz) in Hf. apply zincr_absent.
    unfold ZSet_view. by rewrite <-list_fmap_compose.
Qed.

Lemma range_answer_pairs l : range_answer l = pairs_answer ((λ p : Str * Z, (data_ p.1, p.2)) <$> l).
Proof. unfold range_answer, pairs_answer. by rewrite <-list_fmap_compose. Qed.

(** The bounds of a range command: two numbers, or a refusal. *)
Lemma two_ints_cases v0 v1 vs r :
  two_ints (v0 :: v1 :: vs) = Ok r →
  (∃ a b, r = Some (a, b) ∧ RedisStrToInt (data_ v0) = Ok (Some a) ∧ RedisStrToInt (data_ v1) = Ok (Some b)) ∨
  (r = None ∧ Exists (λ v, RedisStrToInt (data_ v) = Ok None) [v0; v1]).
Proof.
  unfold two_ints, Str_GetRaw. intros H. inv_bind. inv_args. destruct a0 as [i|], a2 as [j|].
  - left. eauto.
  - right. split; [done|]. apply Exists_cons_tl. by constructor.
  - right. split; [done|]. by constructor.
  - right. split; [done|]. by constructor.
Qed.

Lemma ZSet_Rank_missing z m : ZSet_wf z → data_ m ∉ (ZSet_view z).*1 → ZSet_Rank z m = Ok "" ∧ ZSet_Score z m = Ok "".
Proof.
  intros Hz Hm. unfold ZSet_Rank, ZSet_Score, ZSet_view in *. rewrite <-list_fmap_compose in Hm.
  apply (member_find_None z Hz) in Hm. by rewrite Hm.
Qed.

Lemma ZSet_Score_member z m score : ZSet_wf z → (data_ m, score) ∈ ZSet_view z → ZSet_Score z m = Ok (to_string score).
Proof.
  intros Hz Hm. rewrite ZSet_Score_view by done. erewrite elem_of_list_to_map_1; [done| |done].
  by apply ZSet_view_NoDup.
Qed.

Lemma view_member (V : zview) m : m ∈ V.*1 → ∃ score, (m, score) ∈ V.
Proof. intros ([k score] & -> & Hin)%list_elem_of_fmap. by exists score. Qed.

Lemma text_or_nil_number z : text_or_nil (to_string z) = [to_string z].
Proof. pose proof (to_string_nonempty z). by destruct (to_string z). Qed.

(** ZRANK and ZSCORE. *)
Lemma zlookup_refines cmd z m args z' a :
  ZSet_wf z → cmd ∈ ["ZRANK"; "ZSCORE"] →
  (r ← (if String.eqb cmd "ZRANK" then ZSet_Rank z m else ZSet_Score z m); Ok (z, text_or_nil r)) = Ok (z', a) →
  zset_spec cmd (m :: args) (ZSet_view z) (ZSet_view z') a.
Proof.
  intros Hz Hcmd. destruct (decide (data_ m ∈ (ZSet_view z).*1)) as [Hm|Hm].
  - apply view_member in Hm as [score Hm]. rewrite (ZSet_Rank_view z Hz m score), (ZSet_Score_member z m score) by done.
    apply elem_of_cons in Hcmd as [->|[->|[]%not_elem_of_nil]%elem_of_cons]; intros [= <- <-]; rewrite text_or_nil_number.
    + by apply spec_zrank.
    + by apply spec_zscore.
  - destruct (ZSet_Rank_missing z m Hz Hm) as [-> ->]. rewrite Tauto.if_same. intros [= <- <-]. by apply spec_zmissing.
Qed.

Lemma zrange_refines z s1 s2 args b e res :
  ZSet_wf z → Z.of_nat (length (sequence_list_ z)) ≤ INT_MAX →
  RedisStrToInt (data_ s1) = Ok (Some b) → RedisStrToInt (data_ s2) = Ok (Some e) →
  ZSet_Range z b e = Ok res →
  zset_spec "ZRANGE" (s1 :: s2 :: args) (ZSet_view z) (ZSet_view z) (range_answer res).
Proof.
  intros Hz Hsz Hb He. destruct (decide (sequence_list_ z = [])) as [Hnil|Hne].
  { unfold ZSet_Range, ZSet_view. rewrite Hnil. intros [= <-]. by eapply spec_zrange_empty. }
  rewrite ZSet_Range_view by (done || by eapply RedisStrToInt_int). rewrite range_answer_pairs.
  assert (Z.of_nat (length (sequence_list_ z)) = Z.of_nat (length (ZSet_view z))) as ->.
  { unfold ZSet_view. by rewrite length_fmap. }
  intros Hres. assert ((λ p : Str * Z, (data_ p.1, p.2)) <$> res
    = if decide (position (Z.of_nat (length (ZSet_view z))) e ≤ position (Z.of_nat (length (ZSet_view z))) b) then []
      else slice (Z.to_nat (position (Z.of_nat (length (ZSet_view z))) b))
                 (Z.to_nat (position (Z.of_nat (length (ZSet_view z))) e + 1)) (ZSet_view z)) as ->.
  { case_decide; [by injection Hres as <-|]. case_decide; [done|]. injection Hres as <-.
    unfold ZSet_view, slice. rewrite <-fmap_drop, <-fmap_take, <-list_fmap_compose. done. }
  eapply spec_zrange; [done|done|]. unfold ZSet_view. by destruct (sequence_list_ z).
Qed.

(** The second argument of a command that was executed is there. *)
Ltac two_args H :=
  match type of H with
  | context [zset_values_ ?c] =>
      destruct (zset_values_ c) as [|s1 [|s2 vs]];
      [discriminate H|exfalso; unfold two_ints in H; inv_exec;
       repeat match goal with E : vec_at [_] 1 = Ok _ |- _ => discriminate E end|]
  end.

Lemma zset_exec_refines c z z' a :
  ZSet_wf z → Z.of_nat (length (sequence_list_ z)) ≤ INT_MAX → Forall Str_wf (zset_values_ c) →
  isZSetCommand (command_ (zset_base c)) = true → zset_exec c z = Ok (z', a) →
  zset_spec (command_ (zset_base c)) (zset_values_ c) (ZSet_view z) (ZSet_view z') a.
Proof.
  intros Hz Hsz Hv Hcmd%is_one_of_spec. unfold zset_exec, ZSet_DecrBy.
  set (cmd := command_ (zset_base c)) in *. clearbody cmd.
  repeat (apply elem_of_cons in Hcmd as [->|Hcmd]); [..|by apply not_elem_of_nil in Hcmd];
    cbn [String.eqb Ascii.eqb Bool.eqb]; intros Hx.
  - inv_exec. eapply (zpairs_view _ zadd1 1) in E as [Hv' ->]; [|apply zadd_step|done..].
    rewrite Z.add_0_l, Z.mul_1_l, Hv'. apply spec_zadd.
  - inv_exec. rewrite ZSet_Card_view. apply spec_zcard.
  - two_args Hx. inv_bind.
    apply two_ints_cases in E as [(lo & hi & -> & H1 & H2)|[-> Hb]]; simplify_eq.
    + rewrite ZSet_Count_view by done. by apply spec_zcount.
    + apply spec_zbad; [set_solver|done].
  - two_args Hx. inv_exec; inv_args.
    rewrite ZSet_LexCount_view by done. apply spec_zlexcount.
  - destruct (zset_values_ c) as [|s1 vs]; [discriminate Hx|]. inv_exec; inv_args.
    + destruct vs as [|s2 vs]; [done|]. inv_args. eapply spec_zincrby; [done|]. by apply ZSet_IncrBy_refines.
    + apply spec_zbad; [set_solver|]. by constructor.
  - destruct (zset_values_ c) as [|s1 vs]; [discriminate Hx|]. inv_exec; inv_args.
    + destruct vs as [|s2 vs]; [done|]. inv_args. eapply spec_zdecrby; [done|]. apply ZSet_IncrBy_refines; [done|]. 
      by match goal with E : int_neg 1 = Ok _ |- _ => apply int_check_Ok in E as [-> _] end.
    + apply spec_zbad; [set_solver|]. by constructor.
  - inv_exec. eapply (zpairs_view _ zrem1 (-1)) in E as [Hv' ->]; [|apply zrem_step|done..].
    rewrite Hv'. replace (0 + -1 * _) with
      (Z.of_nat (length (ZSet_view z)) - Z.of_nat (length (zpairs_spec zrem1 (zset_values_ c) (ZSet_view z)))) by lia.
    apply spec_zrem.
  - two_args Hx. inv_bind.
    apply two_ints_cases in E as [(lo & hi & -> & H1 & H2)|[-> Hb]]; inv_bind; simplify_eq.
    + by eapply zrange_refines.
    + apply spec_zbad; [set_solver|done].
  - two_args Hx. inv_bind.
    apply two_ints_cases in E as [(lo & hi & -> & H1 & H2)|[-> Hb]]; simplify_eq.
    + rewrite range_answer_pairs. destruct (ZSet_RangeByScore_view z' Hz lo hi) as [Hp Hs].
      eapply spec_zrangebyscore; [done..|]. by rewrite <-list_fmap_compose.
    + apply spec_zbad; [set_solver|done].
  - two_args Hx. inv_exec; inv_args.
    match goal with E : ZSet_RangeByLex _ ?x ?y = Ok ?l |- _ =>
      destruct (ZSet_RangeByLex_view z' Hz x y) as (r & Hr & Hp & Hs);
      assert (r = l) as -> by congruence end.
    rewrite range_answer_pairs. apply spec_zrangebylex; [done|]. by rewrite <-!list_fmap_compose in *.
  - destruct (zset_values_ c) as [|m vs]; [done..|]. eapply zlookup_refines; [done|set_solver|]. exact Hx.
  - destruct (zset_values_ c) as [|m vs]; [done..|]. eapply zlookup_refines; [done|set_solver|]. exact Hx.
Qed.

End Spec.
Export Spec.
