(* ===== verification/CommandSpec.v ===== *)
(** * The object commands against their specifications

    A request that [RequestToCommandExec] accepts as a set, hash or sorted-set command
    is executed on the object its key holds; the answer and the new abstract object are
    among those the relations of Spec.v allow. *)

From stdpp Require Import base gmap list strings fin_maps sets.
From Stdlib Require Import Ascii ZArith Lia.
From S2P Require Import Prelude CInt Util Object StrObj Containers ListObj HashObj SetObj ZSetObj.
From S2P Require Import Json Request Database Command Exec ExecWf Spec.
Local Open Scope Z_scope.

Module CommandSpec.

(** ** Which command a request becomes *)

(** The words of the group a command belongs to. *)
Definition group_of (c : Command) : string → bool :=
  match c with
  | CServer _ => isServerCommand | CCli _ => isCliCommand | CDb _ => isDbCommand | CStr _ => isStrCommand
  | CList _ => isListCommand | CHash _ => isHashCommand | CSet _ => isSetCommand | CZSet _ => isZSetCommand
  end.

Lemma JsonToBase_command e0 rest b : JsonToBase (e0 :: rest) = (b, true) → command_ b = string_value e0.
Proof. unfold JsonToBase. destruct rest as [|e1 rest]; [done|]. destruct (existsb _ _); intros; by simplify_eq. Qed.

(** What the [JsonTo...] functions have in common: a valid command keeps its word. *)
Ltac keeps_word :=
  match goal with
  | |- context [JsonToBase ?s] =>
      let b := fresh "b" in let E := fresh "E" in
      destruct (JsonToBase s) as [b []] eqn:E; cbn [negb];
      [apply JsonToBase_command in E
      |unfold JsonToBase in E; repeat case_match; simplify_eq; simpl; done]
  end; repeat case_match; simpl; done.

Lemma valid_commands_keep_word e0 rest :
  let s := e0 :: rest in let w := string_value e0 in
  (valid_ (str_base (JsonToStrCommand s)) = true → command_ (str_base (JsonToStrCommand s)) = w) ∧
  (valid_ (list_base (JsonToListCommand s)) = true → command_ (list_base (JsonToListCommand s)) = w) ∧
  (valid_ (hash_base (JsonToHashCommand s)) = true → command_ (hash_base (JsonToHashCommand s)) = w) ∧
  (valid_ (set_base (JsonToSetCommand s)) = true → command_ (set_base (JsonToSetCommand s)) = w) ∧
  (valid_ (zset_base (JsonToZSetCommand s)) = true → command_ (zset_base (JsonToZSetCommand s)) = w) ∧
  (valid_ (cli_base (JsonToCliCommand s)) = true → command_ (cli_base (JsonToCliCommand s)) = w) ∧
  (valid_ (dbc_base (JsonToDbCommand s)) = true → command_ (dbc_base (JsonToDbCommand s)) = w) ∧
  (∀ c, JsonToServerCommand s = Ok c → valid_ (srv_base c) = true → command_ (srv_base c) = w).
Proof.
  cbv zeta. split_and!.
  - unfold JsonToStrCommand. keeps_word.
  - unfold JsonToListCommand. keeps_word.
  - unfold JsonToHashCommand. keeps_word.
  - unfold JsonToSetCommand. keeps_word.
  - unfold JsonToZSetCommand. keeps_word.
  - unfold JsonToCliCommand. destruct (is_one_of _ _); [done|]. by destruct rest.
  - unfold JsonToDbCommand. destruct (_ && _) eqn:E.
    + intros _. apply andb_true_iff in E as [_ E%String.eqb_eq]. simpl in *. congruence.
    + clear E. keeps_word.
  - unfold JsonToServerCommand. intros c. destruct (_ && _) eqn:E.
    + intros [= <-] _. apply andb_true_iff in E as [_ E%String.eqb_eq]. simpl in *. congruence.
    + clear E. destruct (JsonToBase _) as [b []] eqn:E; cbn [negb].
      * apply JsonToBase_command in E. destruct (split_colon _) as [[ip port]|]; intros Hc; inv_bind; simpl; congruence.
      * intros [= <-]. unfold JsonToBase in E. repeat case_match; simplify_eq; simpl; done.
Qed.

Lemma RequestToCommandExec_word e0 rest c :
  RequestToCommandExec (e0 :: rest) = Ok (Some c) →
  group_of c (string_toupper (string_value e0)) = true ∧
  (valid_ (command_base c) = true → command_ (command_base c) = string_toupper (string_value e0)).
Proof.
  unfold RequestToCommandExec. set (w := string_toupper (string_value e0)). cbv zeta. intros Hc.
  apply bind_Ok in Hc as (ret & Hret & Hc). injection Hc as Hc.
  destruct (valid_commands_keep_word (JString w) rest) as (H1 & H2 & H3 & H4 & H5 & H6 & H7 & H8).
  destruct (isZSetCommand w) eqn:?; [by injection Hc as <-|].
  destruct (isSetCommand w) eqn:?; [by injection Hc as <-|].
  destruct (isHashCommand w) eqn:?; [by injection Hc as <-|].
  destruct (isListCommand w) eqn:?; [by injection Hc as <-|].
  destruct (isStrCommand w) eqn:?; [by injection Hc as <-|].
  destruct (isDbCommand w) eqn:?; [by injection Hc as <-|].
  destruct (isCliCommand w) eqn:?; [by injection Hc as <-|].
  destruct (isServerCommand w) eqn:?; [|congruence]. apply bind_Ok in Hret as (sc & Hs & Hret). simplify_eq.
  split; [done|]. by apply H8.
Qed.

Lemma RequestToCommandExec_group req c :
  RequestToCommandExec req = Ok (Some c) → valid_ (command_base c) = true →
  group_of c (command_ (command_base c)) = true.
Proof.
  destruct req as [|e0 rest]; [done|]. intros Hc Hv. apply RequestToCommandExec_word in Hc as [Hg Hw].
  by rewrite (Hw Hv).
Qed.

(** ** The abstract object under a key *)

Section AtKey.
Context `{HashOrder} {V : Type} (view : Object → option V).

Definition at_key (db : Db) (k : string) : option V := kv ← Db_map db !! k; view (value_ kv).

Lemma at_key_Get db key : at_key db (data_ key) = (o ← Db_Get db key; view o).
Proof. unfold at_key. rewrite Db_Get_map. by destruct (Db_map db !! data_ key). Qed.

Context {A : Type} (b : CommandBase) (creates : list string) (fresh : Object).
Context (as_type : Object → option A) (to_object : A → Object) (exec : Db → A → step A) (abs : A → V).

Hypothesis as_fresh : ∃ a, as_type fresh = Some a ∧ fresh = to_object a.
Hypothesis view_as : ∀ o, view o = abs <$> as_type o.
Hypothesis as_to : ∀ a, as_type (to_object a) = Some a.
Hypothesis to_as : ∀ o a, as_type o = Some a → to_object a = o.

(** The database the operation runs on, and the object it starts from. *)
Definition starts_from (db db1 : Db) (v : V) : Prop :=
  (at_key db (obj_name_ b) = Some v ∧ db1 = db) ∨
  (Db_map db !! obj_name_ b = None ∧ command_ b ∈ creates ∧ view fresh = Some v ∧
   db1 = Db_New db (Str_new (obj_name_ b)) fresh).

Lemma with_object_refines db db' a :
  Object_wf fresh → Db_wf db → valid_ b = true →
  with_object b creates fresh as_type to_object exec (Some db) = Ok (Some db', Some a) →
  (db' = db ∧ a = refused ∧ at_key db (obj_name_ b) = None ∧
     (Db_map db !! obj_name_ b = None → command_ b ∉ creates)) ∨
  ∃ db1 x x', starts_from db db1 (abs x) ∧ Db_wf db1 ∧ Db_Get db1 (Str_new (obj_name_ b)) = Some (to_object x) ∧
    exec db1 x = Ok (x', a) ∧ at_key db' (obj_name_ b) = Some (abs x').
Proof.
  intros Hfr Hwf Hv. set (key := Str_new (obj_name_ b)). unfold with_object. rewrite Hv. cbn [negb]. fold key.
  assert (obj_name_ b = data_ key) as Hk by done.
  assert (∀ db1 o x', Db_Get db1 key = Some o → at_key (Db_store db1 key (to_object x')) (data_ key) = Some (abs x')) as Hstore.
  { intros db1 o x' Hg. rewrite Db_Get_map in Hg. unfold at_key. rewrite Db_store_map, lookup_alter_eq.
    destruct (Db_map db1 !! data_ key); [|done]. simpl. by rewrite view_as, as_to. }
  destruct (Db_Get db key) as [o|] eqn:Hg.
  - assert (at_key db (data_ key) = view o) as Hat by (by rewrite at_key_Get, Hg).
    destruct (as_type o) as [x|] eqn:Ho.
    + intros Hx. apply bind_Ok in Hx as ([x' r] & He & Hx). simplify_eq. right. exists db, x, x'.
      split_and!; [left; by rewrite Hk, Hat, view_as, Ho|done|by rewrite (to_as o x)|done|by eapply Hstore].
    + intros Hx. simplify_eq. left. rewrite Hk, Hat, view_as, Ho. split_and!; [done..|].
      intros Hn. rewrite Db_Get_map, Hn in Hg. done.
  - assert (Db_map db !! data_ key = None) as Hn by (rewrite Db_Get_map in Hg; by destruct (Db_map db !! data_ key)).
    destruct (is_one_of (command_ b) creates) eqn:Hc.
    + destruct as_fresh as (x & Hx1 & Hx2). rewrite Hx1. intros Hx. apply bind_Ok in Hx as ([x' r] & He & Hx). simplify_eq.
      right. exists (Db_New db key fresh), x, x'.
      assert (Db_Get (Db_New db key fresh) key = Some fresh) as Hf.
      { rewrite Db_Get_map, Db_New_map by done. by rewrite lookup_insert_eq. }
      split_and!.
      * right. split_and!; [done|by apply is_one_of_spec|by rewrite view_as, Hx1|done].
      * apply Db_New_wf; [apply Str_new_wf|done|done].
      * by rewrite Hf, Hx2.
      * done.
      * by eapply Hstore.
    + intros Hx. simplify_eq. left. rewrite Hk. split_and!; [done|done|unfold at_key; by rewrite Hn|].
      intros _ Hin%is_one_of_spec. congruence.
Qed.

End AtKey.

(** ** The views of the five types *)

Definition set_at : Db → string → option (gset string) :=
  at_key (λ o, match o with OSet s => Some (Set_elems s) | _ => None end).
Definition hash_at : Db → string → option (gmap string Str) :=
  at_key (λ o, match o with OHash h => Some (Hash_map h) | _ => None end).
Definition zset_at : Db → string → option zview :=
  at_key (λ o, match o with OZSet z => Some (ZSet_view z) | _ => None end).

(** A refused command found no object of its type, and could not create one. *)
Definition refused_at {V} (at_key : Db → string → option V) (creates : list string) (b : CommandBase)
    (db db' : Db) (a : answer) : Prop :=
  db' = db ∧ a = refused ∧ at_key db (obj_name_ b) = None ∧
  (Db_map db !! obj_name_ b = None → command_ b ∉ creates).

(** The abstract object a command starts from: the one under its key, or the [fresh] one
    of a command that creates it. *)
Definition found_at {V} (at_key : Db → string → option V) (creates : list string) (fresh : V) (b : CommandBase)
    (db : Db) (v : V) : Prop :=
  at_key db (obj_name_ b) = Some v ∨
  (Db_map db !! obj_name_ b = None ∧ command_ b ∈ creates ∧ v = fresh).

(** ** The refinements *)

Section Refinements.
Context `{HashOrder}.

Lemma set_spec_ext o1 o2 cmd args S S' a :
  (∀ k, o1 k = o2 k) → set_spec o1 cmd args S S' a → set_spec o2 cmd args S S' a.
Proof.
  intros Ho. destruct 1; try (by constructor); try (by econstructor; eauto).
  - apply spec_salgebra_none; [done|]. by rewrite <-Ho.
  - eapply spec_sinter; [|done]. by rewrite <-Ho.
  - eapply spec_sdiff; [|done]. by rewrite <-Ho.
Qed.

(** SADD does not look at other keys. *)
Lemma set_spec_sadd o1 o2 args S S' a : set_spec o1 "SADD" args S S' a → set_spec o2 "SADD" args S S' a.
Proof.
  inversion 1; subst; try by constructor.
  all: match goal with Hc : _ ∈ [_; _] |- _ => exfalso; set_solver end.
Qed.

(** C14: a set command of a request does to the set under its key, and answers, what the
    specification of its word allows; without a set it is refused and changes nothing. *)
Theorem set_command_refines rand req c db db' a :
  RequestToCommandExec req = Ok (Some (CSet c)) → valid_ (set_base c) = true → Db_wf db →
  SetCommand_Exec rand c (Some db) = Ok (Some db', Some a) →
  refused_at set_at ["SADD"] (set_base c) db db' a ∨
  ∃ S S', found_at set_at ["SADD"] ∅ (set_base c) db S ∧
    set_spec (set_at db) (command_ (set_base c)) (data_ <$> set_values_ c) S S' a ∧
    set_at db' (obj_name_ (set_base c)) = Some S'.
Proof.
  intros Hreq Hv Hwf Hx. pose proof (RequestToCommandExec_group _ _ Hreq Hv) as Hg.
  pose proof (RequestToCommandExec_values _ _ Hreq) as Hvals. simpl in Hg, Hvals.
  eapply (with_object_refines (λ o, match o with OSet s => Some (Set_elems s) | _ => None end) _ _ _ _ _ _ Set_elems) in Hx
    as [?|(db1 & x & x' & Hs & Hwf1 & Hget & He & Hat)]; [by left| | | | | |split; constructor|done|done].
  2: by eexists. 2: by intros []. 2: done. 2: intros []; naive_solver.
  right. exists (Set_elems x), (Set_elems x').
  assert (Set_wf x) as Hxwf by (by eapply Db_Get_wf in Hget).
  eapply set_exec_refines in He; [| | |done..].
  - split_and!; [|clear Hat|done].
    + destruct Hs as [[Hs _]|(Hn & Hc & Hf & _)]; [by left|right]. split_and!; [done..|]. by injection Hf as <-.
    + assert (∀ k, others (λ key, (λ o, (set_address (Str_new (obj_name_ (set_base c))) key, o)) <$> Db_Get db1 key) k = set_at db1 k) as Hoth.
      { intros k. unfold others, set_at. change k with (data_ (Str_new k)) at 3. rewrite at_key_Get.
        destruct (Db_Get db1 (Str_new k)) as [[]|]; done. }
      eapply set_spec_ext in He; [|exact Hoth]. destruct Hs as [[_ ->]|(_ & Hc & _)]; [done|].
      apply list_elem_of_singleton in Hc. rewrite Hc in *. by eapply set_spec_sadd.
  - intros key. unfold set_address. change (data_ (Str_new (data_ key))) with (data_ key).
    by rewrite !Db_Get_map.
  - intros key s Hk. destruct (Db_Get db1 key) as [o|] eqn:Ho; [|done]. simpl in Hk. injection Hk as Ha ->.
    unfold set_address in Ha. case_decide as Hd; [|done]. rewrite Db_Get_map in Ho, Hget. rewrite Hd in Hget. congruence.
Qed.

(** C15: the same for hash commands: HSET, HGET, HEXIST, HDEL, HLEN, HGETALL and the
    counters are the operations of the finite map of fields.  The counters take the field
    and then the amount, in the order of the code; README.md has them the other way round,
    and a request in that order is refused. *)
Theorem hash_command_refines req c db db' a :
  RequestToCommandExec req = Ok (Some (CHash c)) → valid_ (hash_base c) = true → Db_wf db →
  HashCommand_Exec c (Some db) = Ok (Some db', Some a) →
  refused_at hash_at ["HSET"] (hash_base c) db db' a ∨
  ∃ M M', found_at hash_at ["HSET"] ∅ (hash_base c) db M ∧
    hash_spec (command_ (hash_base c)) (hash_values_ c) M M' a ∧
    hash_at db' (obj_name_ (hash_base c)) = Some M'.
Proof.
  intros Hreq Hv Hwf Hx. pose proof (RequestToCommandExec_group _ _ Hreq Hv) as Hg.
  pose proof (RequestToCommandExec_values _ _ Hreq) as Hvals. simpl in Hg, Hvals.
  eapply (with_object_refines (λ o, match o with OHash s => Some (Hash_map s) | _ => None end) _ _ _ _ _ _ Hash_map) in Hx
    as [?|(db1 & x & x' & Hs & Hwf1 & Hget & He & Hat)]; [by left| | | | | |split; constructor|done|done].
  2: by eexists. 2: by intros []. 2: done. 2: intros []; naive_solver.
  right. exists (Hash_map x), (Hash_map x').
  assert (Hash_wf x) as Hxwf by (by eapply Db_Get_wf in Hget).
  split_and!; [|by apply hash_exec_refines|done].
  destruct Hs as [[Hs _]|(Hn & Hc & Hf & _)]; [by left|right]. split_and!; [done..|]. by injection Hf as <-.
Qed.

(** C16: the same for sorted sets, on the members and scores in insertion order: ZDECRBY
    subtracts one whatever the amount, ZRANGE of a single position is empty. *)
Theorem zset_command_refines req c db db' a :
  RequestToCommandExec req = Ok (Some (CZSet c)) → valid_ (zset_base c) = true → Db_wf db →
  (∀ V, zset_at db (obj_name_ (zset_base c)) = Some V → Z.of_nat (length V) ≤ INT_MAX) →
  ZSetCommand_Exec c (Some db) = Ok (Some db', Some a) →
  refused_at zset_at ["ZADD"] (zset_base c) db db' a ∨
  ∃ V V', found_at zset_at ["ZADD"] [] (zset_base c) db V ∧
    zset_spec (command_ (zset_base c)) (zset_values_ c) V V' a ∧
    zset_at db' (obj_name_ (zset_base c)) = Some V'.
Proof.
  intros Hreq Hv Hwf Hlen Hx. pose proof (RequestToCommandExec_group _ _ Hreq Hv) as Hg.
  pose proof (RequestToCommandExec_values _ _ Hreq) as Hvals. simpl in Hg, Hvals.
  eapply (with_object_refines (λ o, match o with OZSet s => Some (ZSet_view s) | _ => None end) _ _ _ _ _ _ ZSet_view) in Hx
    as [?|(db1 & x & x' & Hs & Hwf1 & Hget & He & Hat)]; [by left| | | | | |apply ZSet_empty_wf|done|done].
  2: by eexists. 2: by intros []. 2: done. 2: intros []; naive_solver.
  right. exists (ZSet_view x), (ZSet_view x').
  assert (ZSet_wf x) as Hxwf by (by eapply Db_Get_wf in Hget).
  assert (found_at zset_at ["ZADD"] [] (zset_base c) db (ZSet_view x)) as Hfound.
  { destruct Hs as [[Hs _]|(Hn & Hc & Hf & _)]; [by left|right]. split_and!; [done..|]. by injection Hf as <-. }
  split_and!; [done| |done]. apply zset_exec_refines; try done.
  destruct Hfound as [Hf|(_ & _ & Hf)].
  - apply Hlen in Hf. unfold ZSet_view in Hf. by rewrite length_fmap in Hf.
  - unfold ZSet_view in Hf. apply fmap_nil_inv in Hf. by rewrite Hf.
Qed.

End Refinements.

Lemma set_command_refines_witness :
  let c := mkSetCommand (mkBase true "SADD" "k") [Str_new "x"] in
  ∃ db' a, refused_at set_at ["SADD"] (set_base c) (mkDb 0 0 [] []) db' a ∨
    ∃ x x', found_at set_at ["SADD"] ∅ (set_base c) (mkDb 0 0 [] []) x ∧
      set_spec (set_at (mkDb 0 0 [] [])) "SADD" ["x"] x x' a ∧ set_at db' "k" = Some x'.
Proof.
  intros c. eexists _, _.
  apply (set_command_refines (H := front_order) 0 [JString "sadd"; JString "k"; JString "x"] c (mkDb 0 0 [] [])).
  - reflexivity.
  - reflexivity.
  - split; constructor.
  - vm_compute. reflexivity.
Defined.

Lemma hash_command_refines_witness :
  let c := mkHashCommand (mkBase true "HSET" "k") [Str_new "f"; Str_new "1"] in
  ∃ db' a, refused_at hash_at ["HSET"] (hash_base c) (mkDb 0 0 [] []) db' a ∨
    ∃ x x', found_at hash_at ["HSET"] ∅ (hash_base c) (mkDb 0 0 [] []) x ∧
      hash_spec "HSET" [Str_new "f"; Str_new "1"] x x' a ∧ hash_at db' "k" = Some x'.
Proof.
  intros c. eexists _, _.
  apply (hash_command_refines (H := front_order) [JString "hset"; JString "k"; JString "f"; JString "1"] c (mkDb 0 0 [] [])).
  - reflexivity.
  - reflexivity.
  - split; constructor.
  - vm_compute. reflexivity.
Defined.

(** The counters in the order of the code and in that of README.md. *)
Lemma hincrby_order :
  let db := mkDb 0 0 [(Str_new "k", mkKeyValue (Str_new "k") (OHash [(Str_new "f", Str_new "5")]) None)] [] in
  let after values := r ← HashCommand_Exec (H := front_order) (mkHashCommand (mkBase true "HINCRBY" "k") values) (Some db); Ok r.2 in
  after [Str_new "f"; Str_new "3"] = Ok (Some ["8"]) ∧ after [Str_new "3"; Str_new "f"] = Ok (Some refused).
Proof. split; vm_compute; reflexivity. Qed.

(** ZREM takes scores and members; the member alone of README.md is refused. *)
Lemma zrem_order :
  JsonToZSetCommand [JString "ZREM"; JString "k"; JString "m"] = mkZSetCommand (mkBase false "ZREM" "k") [].
Proof. reflexivity. Qed.

Lemma zset_command_refines_witness :
  let c := mkZSetCommand (mkBase true "ZADD" "k") [Str_new "1"; Str_new "m"] in
  ∃ db' a, refused_at zset_at ["ZADD"] (zset_base c) (mkDb 0 0 [] []) db' a ∨
    ∃ x x', found_at zset_at ["ZADD"] [] (zset_base c) (mkDb 0 0 [] []) x ∧
      zset_spec "ZADD" [Str_new "1"; Str_new "m"] x x' a ∧ zset_at db' "k" = Some x'.
Proof.
  intros c. eexists _, _.
  apply (zset_command_refines (H := front_order) [JString "zadd"; JString "k"; JString "1"; JString "m"] c (mkDb 0 0 [] [])).
  - reflexivity.
  - reflexivity.
  - split; constructor.
  - intros V HV. by vm_compute in HV.
  - vm_compute. reflexivity.
Defined.

(** ** The arguments of valid commands *)

(** Which [JsonTo...] function built a command. *)
Lemma RequestToCommandExec_json e0 rest c :
  RequestToCommandExec (e0 :: rest) = Ok (Some c) →
  let source := JString (string_toupper (string_value e0)) :: rest in
  match c with
  | CStr c => c = JsonToStrCommand source | CList c => c = JsonToListCommand source
  | CHash c => c = JsonToHashCommand source | CSet c => c = JsonToSetCommand source
  | CZSet c => c = JsonToZSetCommand source | CCli c => c = JsonToCliCommand source
  | CDb c => c = JsonToDbCommand source | CServer c => JsonToServerCommand source = Ok c
  end.
Proof.
  unfold RequestToCommandExec. set (w := string_toupper (string_value e0)). cbv zeta. intros Hc.
  apply bind_Ok in Hc as (ret & Hret & Hc). injection Hc as Hc.
  destruct (isZSetCommand w); [by injection Hc as <-|]. destruct (isSetCommand w); [by injection Hc as <-|].
  destruct (isHashCommand w); [by injection Hc as <-|]. destruct (isListCommand w); [by injection Hc as <-|].
  destruct (isStrCommand w); [by injection Hc as <-|]. destruct (isDbCommand w); [by injection Hc as <-|].
  destruct (isCliCommand w); [by injection Hc as <-|]. destruct (isServerCommand w); [|congruence].
  apply bind_Ok in Hret as (sc & Hs & Hret). by simplify_eq.
Qed.

(** The arguments an operation reads by position, by its word. *)
Definition positions_read (cmd : string) : nat :=
  if is_one_of cmd ["LREM"; "LTRIM"; "LSET"; "HINCRBY"; "HDECRBY"; "ZCOUNT"; "ZLEXCOUNT"; "ZINCRBY"; "ZDECRBY";
                    "ZRANGE"; "ZRANGEBYSCORE"; "ZRANGEBYLEX"] then 2
  else if is_one_of cmd ["SINTER"; "SDIFF"; "ZRANK"; "ZSCORE"] then 1 else 0.

(** The operations that take their arguments in pairs. *)
Definition reads_pairs (cmd : string) : bool := is_one_of cmd ["HSET"; "ZADD"; "ZREM"].

Definition arguments_present (cmd : string) (values : list Str) : Prop :=
  (positions_read cmd ≤ length values)%nat ∧ (reads_pairs cmd = true → Z.of_nat (length values) mod 2 = 0).

(** What Exec relies on for each kind of command. *)
Definition arguments_present_for (c : Command) : Prop :=
  match c with
  | CStr c => command_ (str_base c) ∉ ["GET"; "LEN"] → is_Some (str_value_ c)
  | CList c => arguments_present (command_ (list_base c)) (list_values_ c)
  | CHash c => arguments_present (command_ (hash_base c)) (hash_values_ c)
  | CSet c => arguments_present (command_ (set_base c)) (set_values_ c)
  | CZSet c => arguments_present (command_ (zset_base c)) (zset_values_ c)
  | _ => True
  end.

(** One case per word of a group, on arguments whose number the guards have bounded. *)
Ltac by_word Hg :=
  unfold isListCommand, isHashCommand, isSetCommand, isZSetCommand in Hg; apply is_one_of_spec in Hg;
  repeat (apply elem_of_cons in Hg as [Hg|Hg]); [..|by apply not_elem_of_nil in Hg];
  rewrite Hg in *; unfold arguments_present, positions_read, reads_pairs; simpl in *;
  repeat match goal with
  | E : (_ <? _) = false |- _ => apply Z.ltb_ge in E
  | E : negb (_ =? _) = false |- _ => apply negb_false_iff, Z.eqb_eq in E
  end; try discriminate; split; try (intros; discriminate); try (intros _); Z.div_mod_to_equations; lia.

Lemma values_length source : 3 ≤ source_size source →
  Z.of_nat (length (values_of source)) = source_size source - 2.
Proof. intros Hs. rewrite length_values_of. lia. Qed.

Lemma JsonToBase_invalid source b : JsonToBase source = (b, false) → valid_ b = false.
Proof. unfold JsonToBase. repeat case_match; intros; by simplify_eq. Qed.

(** The guards of a [JsonTo...] function that pushes arguments, one after the other. *)
Ltac open_guards :=
  match goal with
  | |- context [JsonToBase ?s] =>
      let b := fresh "b" in let E := fresh "Eb" in
      destruct (JsonToBase s) as [b []] eqn:E; cbn [negb];
      [clear E|apply JsonToBase_invalid in E; simpl; congruence]
  end;
  repeat match goal with |- context [if ?g then _ else _] => destruct g eqn:?; [try (simpl; discriminate)|] end;
  simpl; intros Hv Hg;
  try match goal with E : (source_size ?s <? 3) = false |- _ =>
    apply Z.ltb_ge in E; pose proof (values_length s E) end.

Lemma list_arguments source :
  let c := JsonToListCommand source in
  valid_ (list_base c) = true → isListCommand (command_ (list_base c)) = true →
  arguments_present (command_ (list_base c)) (list_values_ c).
Proof. cbv zeta. unfold JsonToListCommand. open_guards; by_word Hg. Qed.

Lemma hash_arguments source :
  let c := JsonToHashCommand source in
  valid_ (hash_base c) = true → isHashCommand (command_ (hash_base c)) = true →
  arguments_present (command_ (hash_base c)) (hash_values_ c).
Proof. cbv zeta. unfold JsonToHashCommand. open_guards; by_word Hg. Qed.

Lemma set_arguments source :
  let c := JsonToSetCommand source in
  valid_ (set_base c) = true → isSetCommand (command_ (set_base c)) = true →
  arguments_present (command_ (set_base c)) (set_values_ c).
Proof. cbv zeta. unfold JsonToSetCommand. open_guards; by_word Hg. Qed.

Lemma zset_arguments source :
  let c := JsonToZSetCommand source in
  valid_ (zset_base c) = true → isZSetCommand (command_ (zset_base c)) = true →
  arguments_present (command_ (zset_base c)) (zset_values_ c).
Proof. cbv zeta. unfold JsonToZSetCommand. open_guards; by_word Hg. Qed.

Lemma third_value_some source : 3 ≤ source_size source → is_Some (third_value source).
Proof.
  unfold source_size, third_value. intros Hs. destruct (lookup_lt_is_Some_2 source 2) as [e He]; [lia|].
  rewrite He. by eexists.
Qed.

Lemma str_argument source :
  let c := JsonToStrCommand source in
  valid_ (str_base c) = true → command_ (str_base c) ∉ ["GET"; "LEN"] → is_Some (str_value_ c).
Proof.
  cbv zeta. unfold JsonToStrCommand. open_guards.
  - by apply is_one_of_spec in Heqb0.
  - by apply third_value_some.
Qed.

(** The arguments that Exec reads without a check are there: a valid command of a
    request has as many as its word needs, whole pairs where they are read in pairs, and
    a value for the words of strings other than GET and LEN. *)
Theorem valid_commands_have_arguments req c :
  RequestToCommandExec req = Ok (Some c) → valid_ (command_base c) = true →
  arguments_present_for c.
Proof.
  intros Hreq Hv. pose proof (RequestToCommandExec_group _ _ Hreq Hv) as Hg.
  destruct req as [|e0 rest]; [done|]. apply RequestToCommandExec_json in Hreq. cbv zeta in Hreq.
  destruct c as [c|c|c|c|c|c|c|c]; simpl in *; try done; subst c.
  - by apply str_argument.
  - by apply list_arguments.
  - by apply hash_arguments.
  - by apply set_arguments.
  - by apply zset_arguments.
Qed.

Lemma valid_commands_have_arguments_witness :
  arguments_present_for (CHash (mkHashCommand (mkBase true "HSET" "k") [Str_new "f"; Str_new "1"])).
Proof.
  apply (valid_commands_have_arguments [JString "hset"; JString "k"; JString "f"; JString "1"]); reflexivity.
Defined.

End CommandSpec.
Export CommandSpec.
