(* ===== verification/TextSpec.v ===== *)
(** * The string and list commands against their specifications

    A string command is specified on the text under its key, a list command on the list
    of texts.  The relations say which new state and which answer a command may give; the
    theorems show that the code gives one of them. *)

From stdpp Require Import base gmap list strings fin_maps sets.
From Stdlib Require Import Ascii ZArith Lia.
From S2P Require Import Prelude CInt Util Object StrObj Containers ListObj HashObj SetObj ZSetObj.
From S2P Require Import Json Request Database Command Exec ExecWf Spec CommandSpec.
Local Open Scope Z_scope.

Module TextSpec.

(** ** Texts as numbers and answers *)

(** The number an argument stands for. *)
Definition number (s : string) : option Z :=
  match RedisStrToInt s with Ok (Some i) => Some i | _ => None end.

Definition text_answer (s : string) : answer := if decide (s = "") then nil_answer else [quoted s].

Lemma number_of s i : RedisStrToInt s = Ok (Some i) → number s = Some i ∧ INT_MIN < i ≤ INT_MAX.
Proof. intros E. split; [unfold number; by rewrite E|by eapply RedisStrToInt_int]. Qed.

Lemma number_none s : RedisStrToInt s = Ok None → number s = None.
Proof. intros E. unfold number. by rewrite E. Qed.

(** ** Lists *)

(** An index that lands on an element of a list of [n] elements: it is counted modulo [n],
    and a negative multiple of [n] lands behind the last one. *)
Definition lands (n : Z) (i : Z) : Prop := ¬ (i < 0 ∧ i mod n = 0).

Definition element (L : list string) (i : Z) : option string := L !! Z.to_nat (i mod Z.of_nat (length L)).

(** What LINDEX says about one argument. *)
Definition indexed (L : list string) (arg : string) : option string :=
  i ← number arg; x ← element L i; if decide (x = "") then None else Some (quoted x).

Inductive list_spec : string → list string → list string → list string → answer → Prop :=
| spec_lpushf args L :
    list_spec "LPUSHF" args L (rev args ++ L) [to_string (Z.of_nat (length args + length L))]
| spec_lpushb args L :
    list_spec "LPUSHB" args L (L ++ args) [to_string (Z.of_nat (length args + length L))]
| spec_lpop_empty cmd args : cmd ∈ ["LPOPF"; "LPOPB"] → list_spec cmd args [] [] nil_answer
| spec_lpopf args x L : list_spec "LPOPF" args (x :: L) L (text_answer x)
| spec_lpopb args x L : list_spec "LPOPB" args (L ++ [x]) L (text_answer x)
| spec_llen args L : list_spec "LLEN" args L L [to_string (Z.of_nat (length L))]
| spec_lindex args L :
    (L ≠ [] → Forall (λ a, ∀ i, number a = Some i → lands (Z.of_nat (length L)) i) args) →
    list_spec "LINDEX" args L L (or_nil (omap (indexed L) args))
| spec_lbad cmd args L :
    (* a position or a count that is not a number *)
    cmd ∈ ["LREM"; "LTRIM"; "LSET"] → Exists (λ a, number a = None) (take 2 args) → list_spec cmd args L L refused
| spec_lrem a v args L i :
    (* nothing is removed *)
    number a = Some i → list_spec "LREM" (a :: v :: args) L L ["0"]
| spec_lempty cmd a b args :
    cmd ∈ ["LTRIM"; "LSET"] → list_spec cmd (a :: b :: args) [] [] refused
| spec_ltrim_order a b args L i j :
    number a = Some i → number b = Some j → L ≠ [] →
    position (Z.of_nat (length L)) j < position (Z.of_nat (length L)) i →
    list_spec "LTRIM" (a :: b :: args) L L refused
| spec_ltrim a b args L i j :
    (* the elements between the positions go, both included *)
    number a = Some i → number b = Some j → L ≠ [] → lands (Z.of_nat (length L)) j →
    position (Z.of_nat (length L)) i ≤ j mod Z.of_nat (length L) →
    list_spec "LTRIM" (a :: b :: args) L
      (take (Z.to_nat (position (Z.of_nat (length L)) i)) L ++ drop (S (Z.to_nat (j mod Z.of_nat (length L)))) L) ok_answer
| spec_lset a v args L i :
    number a = Some i → L ≠ [] → lands (Z.of_nat (length L)) i →
    list_spec "LSET" (a :: v :: args) L (<[Z.to_nat (i mod Z.of_nat (length L)) := v]> L) ok_answer.

(** The texts of a list object. *)
Definition List_view (l : List) : list string := data_ <$> l.

Lemma pushes_front values l : fold_left (λ l v, (List_PushFront l v).1) values l = rev values ++ l.
Proof. revert l; induction values as [|v vs IH]; intros l; [done|]. simpl. rewrite IH. by rewrite <-app_assoc. Qed.

Lemma pushes_back values l : fold_left (λ l v, (List_PushBack l v).1) values l = l ++ values.
Proof. revert l; induction values as [|v vs IH]; intros l; simpl; [by rewrite app_nil_r|]. rewrite IH. by rewrite <-app_assoc. Qed.

Lemma quoted_or_nil_view s : quoted_or_nil s = text_answer (data_ s).
Proof. apply quoted_or_nil_text. Qed.

Lemma List_view_length l : length (List_view l) = length l.
Proof. apply length_fmap. Qed.

Lemma List_view_nil l : List_view l = [] ↔ l = [].
Proof. unfold List_view. split; [apply fmap_nil_inv|by intros ->]. Qed.

Lemma List_PopBack_view args l l' str :
  List_PopBack l = (l', str) → list_spec "LPOPB" args (List_view l) (List_view l') (text_answer (data_ str)).
Proof.
  unfold List_PopBack. destruct l as [|x l _] using rev_ind.
  - intros [= <- <-]. apply spec_lpop_empty. set_solver.
  - rewrite last_snoc, length_app, Nat.add_sub, take_app_length. intros [= <- <-].
    unfold List_view. rewrite fmap_app. apply spec_lpopb.
Qed.

(** An index either lands on an element, or the read is undefined. *)
Lemma List_Index_view l i x :
  l ≠ [] → Z.of_nat (length l) < INT_MAX → INT_MIN < i ≤ INT_MAX → List_Index l i = Ok x →
  lands (Z.of_nat (length l)) i ∧ element (List_view l) i = Some (data_ x).
Proof.
  intros Hne Hf Hi Hx. assert (List_fits l) as Hfit by (unfold List_fits; lia).
  destruct (decide (i < 0 ∧ i mod Z.of_nat (length l) = 0)) as [Hd|Hd].
  { destruct (List_past_end l i) as [He _]; [done..|]. congruence. }
  split; [done|]. destruct (List_lands l i) as (y & Hy & Hxy & _); [done..|].
  unfold element, List_view. rewrite length_fmap, list_lookup_fmap, Hy. simpl. congruence.
Qed.

Lemma lindex_view l values acc ret :
  Z.of_nat (length l) < INT_MAX → foldM (lindex_step l) acc values = Ok ret →
  ret = acc ++ omap (indexed (List_view l)) (data_ <$> values) ∧
  (l ≠ [] → Forall (λ a, ∀ i, number a = Some i → lands (Z.of_nat (length l)) i) (data_ <$> values)).
Proof.
  intros Hf. revert acc. induction values as [|v vs IH]; intros acc Hr.
  { injection Hr as <-. split; [symmetry; apply app_nil_r|]. intros _. constructor. }
  cbn [foldM] in Hr. apply bind_Ok in Hr as (acc' & Hs & Hr). apply IH in Hr as [-> Hl].
  assert (acc' = acc ++ option_list (indexed (List_view l) (data_ v)) ∧
    (l ≠ [] → ∀ i, number (data_ v) = Some i → lands (Z.of_nat (length l)) i)) as [-> Hv].
  { unfold lindex_step in Hs. apply bind_Ok in Hs as ([i|] & Hi & Hs).
    - apply number_of in Hi as [Hn Hi]. unfold indexed. unfold Str_GetRaw in Hn. rewrite Hn. simpl.
      apply bind_Ok in Hs as (x & Hx & Hs). injection Hs as <-. destruct (decide (l = [])) as [->|Hne].
      { injection Hx as <-. simpl. by rewrite app_nil_r. }
      destruct (List_Index_view l i x) as [Hlands Hel]; [done..|]. rewrite Hel. simpl. split.
      + unfold Str_Empty, Str_GetRaw. destruct (data_ x); by rewrite ?decide_True, ?decide_False, ?app_nil_r by done.
      + intros _ j [= <-]. done.
    - apply number_none in Hi. unfold indexed. unfold Str_GetRaw in Hi. rewrite Hi. simpl.
      injection Hs as <-. by rewrite app_nil_r. }
  split.
  - cbn [omap list_omap fmap list_fmap]. destruct (indexed (List_view l) (data_ v)); simpl; by rewrite <-?app_assoc, ?app_nil_r.
  - intros Hne. constructor; auto.
Qed.

Lemma List_Trim_view args a b l l' ok i j :
  number a = Some i → number b = Some j → INT_MIN < i ≤ INT_MAX → INT_MIN < j ≤ INT_MAX →
  Z.of_nat (length l) < INT_MAX → List_Trim l i j = Ok (l', ok) →
  list_spec "LTRIM" (a :: b :: args) (List_view l) (List_view l') (if ok then ok_answer else refused).
Proof.
  intros Ha Hb Hi Hj Hf. destruct (decide (l = [])) as [->|Hne].
  { intros [= <- <-]. apply spec_lempty. set_solver. }
  assert (0 < Z.of_nat (length l)) as Hn by (destruct l; simpl; [done|lia]).
  rewrite List_Trim_positions by (done || unfold List_fits; lia). cbv zeta. rewrite <-!(List_view_length l) in *.
  pose proof (position_range _ j Hn). pose proof (position_end _ j Hn).
  assert (List_view l ≠ []) as Hv by (by rewrite List_view_nil).
  destruct (Z.ltb_spec (position (Z.of_nat (length (List_view l))) j) (position (Z.of_nat (length (List_view l))) i)).
  { intros [= <- <-]. by eapply spec_ltrim_order. }
  destruct (Z.eqb_spec (position (Z.of_nat (length (List_view l))) j) (Z.of_nat (length (List_view l)))); [done|].
  assert (lands (Z.of_nat (length (List_view l))) j) as Hl by (unfold lands; tauto).
  assert (position (Z.of_nat (length (List_view l))) j = j mod Z.of_nat (length (List_view l))) as Hp.
  { unfold position, lands in *. repeat case_match; lia. }
  intros [= <- <-]. rewrite Hp in *. unfold List_view at 2. rewrite fmap_app, fmap_take, fmap_drop.
  by eapply spec_ltrim.
Qed.

Lemma List_Set_view args a v l l' ok i :
  number a = Some i → INT_MIN < i ≤ INT_MAX → Z.of_nat (length l) < INT_MAX → List_Set l i v = Ok (l', ok) →
  list_spec "LSET" (a :: data_ v :: args) (List_view l) (List_view l') (if ok then ok_answer else refused).
Proof.
  intros Ha Hi Hf Hs. destruct (decide (l = [])) as [->|Hne].
  { injection Hs as <- <-. apply spec_lempty. set_solver. }
  assert (List_fits l) by (unfold List_fits; lia).
  destruct (decide (i < 0 ∧ i mod Z.of_nat (length l) = 0)) as [Hd|Hd].
  { destruct (List_past_end l i) as [_ He]; [done..|]. by rewrite He in Hs. }
  destruct (List_lands l i) as (y & Hy & _ & He); [done..|]. rewrite He in Hs. injection Hs as <- <-.
  unfold List_view at 2. rewrite list_fmap_insert. rewrite <-(List_view_length l) in *. apply spec_lset; [done| |done].
  by rewrite List_view_nil.
Qed.

(** The arguments a command reads by position are there if it answers. *)
Lemma vec_at_head {A} (l : list A) x : vec_at l 0 = Ok x → ∃ l', l = x :: l'.
Proof. destruct l; [done|]. intros [= ->]. by eexists. Qed.

Lemma vec_at_two {A} (l : list A) x y : vec_at l 0 = Ok x → vec_at l 1 = Ok y → ∃ l', l = x :: y :: l'.
Proof. destruct l as [|? [|? l]]; [done..|]. intros [= ->] [= ->]. by eexists. Qed.

Lemma list_exec_refines c l l' a :
  Z.of_nat (length l) < INT_MAX → isListCommand (command_ (list_base c)) = true → list_exec c l = Ok (l', a) →
  list_spec (command_ (list_base c)) (data_ <$> list_values_ c) (List_view l) (List_view l') a.
Proof.
  intros Hf Hcmd%is_one_of_spec. unfold list_exec.
  set (cmd := command_ (list_base c)) in *. set (values := list_values_ c) in *. clearbody cmd values.
  repeat (apply elem_of_cons in Hcmd as [->|Hcmd]); [..|by apply not_elem_of_nil in Hcmd]; cbn [String.eqb Ascii.eqb Bool.eqb].
  - rewrite pushes_front. intros [= <- <-]. unfold List_Len, List_view. rewrite fmap_app, length_app, length_rev.
    change (data_ <$> rev values) with (map data_ (rev values)). rewrite map_rev.
    rewrite <-(length_fmap data_ values), <-(length_fmap data_ l). apply spec_lpushf.
  - rewrite pushes_back. intros [= <- <-]. unfold List_Len, List_view. rewrite fmap_app, length_app, Nat.add_comm.
    rewrite <-(length_fmap data_ values), <-(length_fmap data_ l). apply spec_lpushb.
  - unfold List_PopFront. destruct l as [|x l]; intros [= <- <-]; rewrite quoted_or_nil_view;
      [apply spec_lpop_empty; set_solver|apply spec_lpopf].
  - destruct (List_PopBack l) as [l1 str] eqn:E. intros [= <- <-]. rewrite quoted_or_nil_view. by apply List_PopBack_view.
  - intros Hx. apply bind_Ok in Hx as (ret & Hr & Hx). injection Hx as <- <-.
    apply lindex_view in Hr as [-> Hl]; [|done]. apply spec_lindex. by rewrite List_view_nil, List_view_length.
  - intros Hx. apply bind_Ok in Hx as (v0 & H0 & Hx). apply bind_Ok in Hx as ([i|] & Hi & Hx).
    + apply bind_Ok in Hx as (v1 & H1 & Hx). inv_exec. destruct (vec_at_two values v0 v1) as [vs ->]; [done..|].
      match goal with E : List_Rem _ _ _ = Ok _ |- _ => apply List_Rem_Ok in E; simplify_eq end.
      apply number_of in Hi as [Hi _]. by eapply spec_lrem.
    + injection Hx as <- <-. destruct (vec_at_head _ _ H0) as [vs ->]. apply spec_lbad; [set_solver|]. left. by apply number_none.
  - intros Hx. apply bind_Ok in Hx as (v0 & H0 & Hx). apply bind_Ok in Hx as (i1 & Hi & Hx).
    apply bind_Ok in Hx as (v1 & H1 & Hx). apply bind_Ok in Hx as (i2 & Hj & Hx).
    destruct (vec_at_two values v0 v1) as [vs ->]; [done..|]. unfold Str_GetRaw in *.
    destruct i1 as [i|]; [|injection Hx as <- <-; apply spec_lbad; [set_solver|]; left; by apply number_none].
    destruct i2 as [j|]; [|injection Hx as <- <-; apply spec_lbad; [set_solver|]; right; left; by apply number_none].
    apply number_of in Hi as [Hi ?], Hj as [Hj ?]. inv_exec; by eapply (List_Trim_view _ _ _ _ _ _ i j).
  - intros [= <- <-]. unfold List_Len. rewrite <-List_view_length. apply spec_llen.
  - intros Hx. apply bind_Ok in Hx as (v0 & H0 & Hx). apply bind_Ok in Hx as ([i|] & Hi & Hx).
    + apply bind_Ok in Hx as (v1 & H1 & Hx). destruct (vec_at_two values v0 v1) as [vs ->]; [done..|].
      unfold Str_GetRaw in *. apply number_of in Hi as [Hi ?]. inv_exec; by eapply (List_Set_view _ _ v1).
    + injection Hx as <- <-. destruct (vec_at_head _ _ H0) as [vs ->]. apply spec_lbad; [set_solver|]. left. by apply number_none.
Qed.

(** ** Strings *)

(** A string is its text and whether it counts as a number: that is decided when it is
    set, and lost when an append or an increment finds that it is none. *)
Abbreviation text := (string * bool)%type.

(** A counter of a text moves by [delta]. *)
Inductive count_spec (delta : Z) : text → text → answer → Prop :=
| count_number T z :
    number T = Some z → is_int (z + delta) →
    count_spec delta (T, true) (to_string (z + delta), true) [to_string (z + delta)]
| count_empty : count_spec delta ("", true) ("", false) refused
| count_text T : count_spec delta (T, false) (T, false) refused.

Inductive str_spec : string → option string → text → text → answer → Prop :=
| spec_set v T c : str_spec "SET" (Some v) (T, c) (v, int_like v) ok_answer
| spec_get v T c : str_spec "GET" v (T, c) (T, c) (text_answer T)
| spec_len v T c : str_spec "LEN" v (T, c) (T, c) [to_string (Z.of_nat (String.length T))]
| spec_append v T c :
    str_spec "APPEND" (Some v) (T, c) (T +:+ v, c && bool_decide (is_Some (number (T +:+ v))))
      [to_string (Z.of_nat (String.length (T +:+ v)))]
| spec_count_bad cmd v T : cmd ∈ ["INCRBY"; "DECRBY"] → number v = None → str_spec cmd (Some v) T T refused
| spec_incrby v i T T' a : number v = Some i → count_spec i T T' a → str_spec "INCRBY" (Some v) T T' a
| spec_decrby v i T T' a : number v = Some i → count_spec (- i) T T' a → str_spec "DECRBY" (Some v) T T' a.

Definition Str_view (s : Str) : text := (data_ s, bool_decide (encoding_type_ s = INT)).

Lemma int_like_not_number s : int_like s = true → RedisStrToInt s = Ok None → s = "".
Proof.
  destruct s as [|c s]; [done|]. with_strategy transparent [RedisStrToInt] unfold int_like, RedisStrToInt.
  destruct (char_val c =? 45) eqn:Hm.
  - destruct s as [|c' s].
    + simpl. rewrite andb_true_r. intros Hd%is_digit_val. unfold digit_val in Hd. apply Z.eqb_eq in Hm. lia.
    + intros ->. by destruct (stoi _).
  - destruct s as [|c' s]; intros ->; by destruct (stoi _).
Qed.

Lemma Str_IncrBy_view s delta s' ret :
  Str_wf s → Str_IncrBy s delta = Ok (s', ret) → count_spec delta (Str_view s) (Str_view s') (number_answer ret).
Proof.
  intros Hwf. unfold Str_IncrBy, Str_view. case_decide as Hd.
  - rewrite bool_decide_true by done. destruct Hwf as [[_ Hint]|Hraw]; [|congruence].
    intros Hx. apply bind_Ok in Hx as ([z|] & Hz & Hx).
    + apply bind_Ok in Hx as (r & Hr & Hx). injection Hx as <- <-. apply int_check_Ok in Hr as [-> Hr]. simpl.
      rewrite bool_decide_true by done. rewrite number_answer_text, decide_False.
      * apply count_number; [by apply number_of|done].
      * apply to_string_nonempty.
    + injection Hx as <- <-. simpl. apply int_like_not_number in Hz; [|done]. rewrite Hz. apply count_empty.
  - intros [= <- <-]. rewrite bool_decide_false by done. apply count_text.
Qed.

Lemma Str_Append_view s v s' n :
  Str_Append s v = Ok (s', n) →
  Str_view s' = (data_ s +:+ v, bool_decide (encoding_type_ s = INT) && bool_decide (is_Some (number (data_ s +:+ v)))) ∧
  n = Z.of_nat (String.length (data_ s +:+ v)).
Proof.
  unfold Str_Append, Str_view. intros Hx. apply bind_Ok in Hx as (enc & He & Hx). injection Hx as <- <-.
  split; [|done]. cbn [data_ encoding_type_]. f_equal. case_decide as Hd.
  - rewrite (bool_decide_true _ Hd). apply bind_Ok in He as (i & Hi & He). injection He as <-. unfold number. rewrite Hi.
    destruct i; [rewrite !bool_decide_true by (done || by eexists)|rewrite !bool_decide_false by (done || by intros [])]; done.
  - injection He as <-. by rewrite bool_decide_false.
Qed.

Lemma str_exec_refines c s s' a :
  Str_wf s → isStrCommand (command_ (str_base c)) = true → str_exec c s = Ok (s', a) →
  str_spec (command_ (str_base c)) (str_value_ c) (Str_view s) (Str_view s') a.
Proof.
  intros Hwf Hcmd%is_one_of_spec. unfold str_exec.
  set (cmd := command_ (str_base c)) in *. set (value := str_value_ c) in *. clearbody cmd value.
  repeat (apply elem_of_cons in Hcmd as [->|Hcmd]); [..|by apply not_elem_of_nil in Hcmd]; cbn [String.eqb Ascii.eqb Bool.eqb].
  - destruct value as [v|]; [|done]. intros [= <- <-]. unfold Str_view at 2, Str_Set. simpl. rewrite classify_spec.
    replace (bool_decide ((if int_like v then INT else STR_RAW) = INT)) with (int_like v) by (by destruct (int_like v)).
    apply spec_set.
  - intros [= <- <-]. replace (match Str_GetRaw s with EmptyString => nil_answer | ret => [quoted ret] end) with (text_answer (data_ s)); [apply spec_get|].
    unfold text_answer, Str_GetRaw. by destruct (data_ s).
  - destruct value as [v|]; [|done]. cbn [opt_value mbind result_bind]. intros Hx. inv_exec.
    match goal with E : Str_Append _ _ = Ok _ |- _ => apply Str_Append_view in E as [-> ->] end. apply spec_append.
  - intros [= <- <-]. apply spec_len.
  - destruct value as [v|]; [|done]. cbn [opt_value mbind result_bind]. intros Hx.
    apply bind_Ok in Hx as ([i|] & Hi & Hx); [|injection Hx as <- <-; apply spec_count_bad; [set_solver|by apply number_none]].
    apply number_of in Hi as [Hi _]. inv_exec. eapply spec_incrby; [done|]. by apply Str_IncrBy_view.
  - destruct value as [v|]; [|done]. cbn [opt_value mbind result_bind]. intros Hx.
    apply bind_Ok in Hx as ([i|] & Hi & Hx); [|injection Hx as <- <-; apply spec_count_bad; [set_solver|by apply number_none]].
    apply number_of in Hi as [Hi _]. unfold Str_DecrBy in Hx. inv_exec. eapply spec_decrby; [done|].
    match goal with E : int_neg i = Ok _ |- _ => apply int_check_Ok in E as [-> _] end. by apply Str_IncrBy_view.
Qed.

(** ** The refinements *)

Section Refinements.
Context `{HashOrder}.

Definition str_at : Db → string → option text :=
  at_key (λ o, match o with OStr s => Some (Str_view s) | _ => None end).
Definition list_at : Db → string → option (list string) :=
  at_key (λ o, match o with OList l => Some (List_view l) | _ => None end).

(** C17: a string command of a request does to the text under its key, and answers, what
    the specification of its word allows; without a string it is refused, and only SET
    creates one. *)
Theorem str_command_refines req c db db' a :
  RequestToCommandExec req = Ok (Some (CStr c)) → valid_ (str_base c) = true → Db_wf db →
  StrCommand_Exec c (Some db) = Ok (Some db', Some a) →
  refused_at str_at ["SET"] (str_base c) db db' a ∨
  ∃ T T', found_at str_at ["SET"] ("", true) (str_base c) db T ∧
    str_spec (command_ (str_base c)) (str_value_ c) T T' a ∧
    str_at db' (obj_name_ (str_base c)) = Some T'.
Proof.
  intros Hreq Hv Hwf Hx. pose proof (RequestToCommandExec_group _ _ Hreq Hv) as Hg. simpl in Hg.
  eapply (with_object_refines (λ o, match o with OStr s => Some (Str_view s) | _ => None end) _ _ _ _ _ _ Str_view) in Hx
    as [?|(db1 & x & x' & Hs & Hwf1 & Hget & He & Hat)]; [by left| | | | | |by left|done|done].
  2: by eexists. 2: by intros []. 2: done. 2: intros []; naive_solver.
  right. exists (Str_view x), (Str_view x').
  assert (Str_wf x) as Hxwf by (by eapply Db_Get_wf in Hget).
  split_and!; [|by apply str_exec_refines|done].
  destruct Hs as [[Hs _]|(Hn & Hc & Hf & _)]; [by left|right]. split_and!; [done..|]. apply Some_inj in Hf. by rewrite <-Hf.
Qed.

(** C18: the same for list commands, on the list of texts: LREM removes nothing, LTRIM
    takes the elements between its positions out, LINDEX and LSET count modulo the
    length and answer only if they land on an element. *)
Theorem list_command_refines req c db db' a :
  RequestToCommandExec req = Ok (Some (CList c)) → valid_ (list_base c) = true → Db_wf db →
  (∀ L, list_at db (obj_name_ (list_base c)) = Some L → Z.of_nat (length L) < INT_MAX) →
  ListCommand_Exec c (Some db) = Ok (Some db', Some a) →
  refused_at list_at ["LPUSHF"; "LPUSHB"] (list_base c) db db' a ∨
  ∃ L L', found_at list_at ["LPUSHF"; "LPUSHB"] [] (list_base c) db L ∧
    list_spec (command_ (list_base c)) (data_ <$> list_values_ c) L L' a ∧
    list_at db' (obj_name_ (list_base c)) = Some L'.
Proof.
  intros Hreq Hv Hwf Hlen Hx. pose proof (RequestToCommandExec_group _ _ Hreq Hv) as Hg. simpl in Hg.
  eapply (with_object_refines (λ o, match o with OList s => Some (List_view s) | _ => None end) _ _ _ _ _ _ List_view) in Hx
    as [?|(db1 & x & x' & Hs & Hwf1 & Hget & He & Hat)]; [by left| | | | | |constructor|done|done].
  2: by eexists. 2: by intros []. 2: done. 2: intros []; naive_solver.
  right. exists (List_view x), (List_view x').
  assert (found_at list_at ["LPUSHF"; "LPUSHB"] [] (list_base c) db (List_view x)) as Hfound.
  { destruct Hs as [[Hs _]|(Hn & Hc & Hf & _)]; [by left|right]. split_and!; [done..|]. by injection Hf as <-. }
  split_and!; [done| |done]. apply list_exec_refines; [|done..].
  destruct Hfound as [Hf|(_ & _ & Hf)]; [apply Hlen in Hf; by rewrite List_view_length in Hf|].
  apply List_view_nil in Hf. by rewrite Hf.
Qed.

End Refinements.

Lemma str_command_refines_witness :
  let c := mkStrCommand (mkBase true "SET" "k") (Some "41") in
  ∃ db' a, refused_at str_at ["SET"] (str_base c) (mkDb 0 0 [] []) db' a ∨
    ∃ x x', found_at str_at ["SET"] ("", true) (str_base c) (mkDb 0 0 [] []) x ∧
      str_spec "SET" (Some "41") x x' a ∧ str_at db' "k" = Some x'.
Proof.
  intros c. eexists _, _.
  apply (str_command_refines (H := front_order) [JString "set"; JString "k"; JString "41"] c (mkDb 0 0 [] [])).
  - reflexivity.
  - reflexivity.
  - split; constructor.
  - vm_compute. reflexivity.
Defined.

Lemma list_command_refines_witness :
  let c := mkListCommand (mkBase true "LPUSHF" "k") [Str_new "a"; Str_new "b"] in
  ∃ db' a, refused_at list_at ["LPUSHF"; "LPUSHB"] (list_base c) (mkDb 0 0 [] []) db' a ∨
    ∃ x x', found_at list_at ["LPUSHF"; "LPUSHB"] [] (list_base c) (mkDb 0 0 [] []) x ∧
      list_spec "LPUSHF" ["a"; "b"] x x' a ∧ list_at db' "k" = Some x'.
Proof.
  intros c. eexists _, _.
  apply (list_command_refines (H := front_order) [JString "lpushf"; JString "k"; JString "a"; JString "b"] c (mkDb 0 0 [] [])).
  - reflexivity.
  - reflexivity.
  - split; constructor.
  - intros L HL. by vm_compute in HL.
  - vm_compute. reflexivity.
Defined.

End TextSpec.
Export TextSpec.
