(* ===== verification/Client.v ===== *)
(** * ClientInfo of server/server.cc: the buffers of a connection

    Bytes arrive in chunks and are cut into requests at the first '[' and the first ']'
    of the buffer; answers are printed into the send buffer.  The kernel's part of
    [recv] and [send] is an argument. *)

From stdpp Require Import base list strings.
From Stdlib Require Import Ascii ZArith Lia.
From S2P Require Import Prelude CInt Util Json.
Local Open Scope Z_scope.

Module Client.

(** [database_] is the address of the selected database, [None] for the null pointer. *)
Record ClientInfo := mkClient {
  fd_ : Z;
  database_ : option nat;
  recv_buffer_ : bytes;
  send_buffer_ : bytes;
}.

Definition ClientInfo_new (fd : Z) : ClientInfo := mkClient fd None [] [].

Definition set_recv (c : ClientInfo) (b : bytes) : ClientInfo := mkClient (fd_ c) (database_ c) b (send_buffer_ c).
Definition set_send (c : ClientInfo) (b : bytes) : ClientInfo := mkClient (fd_ c) (database_ c) (recv_buffer_ c) b.
Definition SetDB (c : ClientInfo) (database : nat) : ClientInfo :=
  mkClient (fd_ c) (Some database) (recv_buffer_ c) (send_buffer_ c).

(** What one [recv] does: bytes, an error, or the end of the stream (no bytes). *)
Inductive recv_result := Received (b : bytes) | RecvError.

Definition recv_chunk : Z := 65535.

(** [ClientInfo::Read]: [total_n] is the sum so far. *)
Fixpoint Read_loop (total_n : Z) (c : ClientInfo) (rs : list recv_result) : result (ClientInfo * Z) :=
  match rs with
  | [] => Err Diverge
  | RecvError :: _ => Ok (c, -1)
  | Received b :: rs =>
      let n := Z.of_nat (length b) in
      total_n ← int_add total_n n;
      if n =? 0 then Ok (c, 0)
      else
        let c := set_recv c (recv_buffer_ c ++ b) in
        if n =? recv_chunk then Read_loop total_n c rs else Ok (c, total_n)
  end.

Definition Read (c : ClientInfo) (rs : list recv_result) : result (ClientInfo * Z) := Read_loop 0 c rs.

(** [ClientInfo::Send]; [n] is the result of [send], at most the bytes offered. *)
Definition Send (c : ClientInfo) (n : Z) : ClientInfo * Z :=
  match send_buffer_ c with
  | [] => (c, 0)
  | b => if (n =? 0) || (n =? -1) then (c, n) else (set_send c (drop (Z.to_nat n) b), n)
  end.

Definition IsSendOut (c : ClientInfo) : bool := match send_buffer_ c with [] => true | _ => false end.

(** [ClientInfo::Append] of an answer, which is an array of texts. *)
Definition Append (c : ClientInfo) (to_send_message : list string) : ClientInfo :=
  set_send c (send_buffer_ c ++ dump_array to_send_message).

(** ** Cutting the stream into requests *)

(** [std::find]: the distance to the first occurrence. *)
Fixpoint find (x : ascii) (b : bytes) : option nat :=
  match b with
  | [] => None
  | c :: b => if Ascii.eqb c x then Some O else S <$> find x b
  end.

(** One turn of the loop of [ExportMessages]: the element and the rest of the buffer. *)
Definition next_element (recv_buffer : bytes) : option (bytes * bytes) :=
  match find "["%char recv_buffer, find "]"%char recv_buffer with
  | Some b, Some e =>
      if (Z.of_nat e - Z.of_nat b <=? 0)%Z then None
      else Some (take (S e - b) (drop b recv_buffer), drop (S e) recv_buffer)
  | _, _ => None
  end.

Fixpoint export_loop (fuel : nat) (recv_buffer : bytes) : result (list (list Json) * bytes) :=
  match next_element recv_buffer with
  | None => Ok ([], recv_buffer)
  | Some (element, rest) =>
      match fuel with
      | O => Err Diverge
      | S fuel =>
          '(req, _) ← parse element;
          '(ret, rest) ← export_loop fuel rest;
          Ok (array_items req :: ret, rest)
      end
  end.

Definition ExportMessages (c : ClientInfo) : result (ClientInfo * list (list Json)) :=
  '(ret, rest) ← export_loop (length (recv_buffer_ c)) (recv_buffer_ c);
  Ok (set_recv c rest, ret).

(** *** The loop ends, and what it gives does not depend on how the bytes arrived *)

Lemma find_lt x b i : find x b = Some i → (i < length b)%nat ∧ b !! i = Some x.
Proof.
  revert i; induction b as [|c b IH]; intros i; simpl; [done|].
  destruct (Ascii.eqb_spec c x) as [->|]; [intros [= <-]; split; [lia|done]|].
  destruct (find x b) as [j|]; [|done]. intros [= <-]. destruct (IH j eq_refl). split; [lia|done].
Qed.

Lemma find_app x a b i : find x a = Some i → find x (a ++ b) = Some i.
Proof.
  revert i; induction a as [|c a IH]; intros i; simpl; [done|].
  destruct (Ascii.eqb c x); [done|]. destruct (find x a) as [j|]; [|done]. intros [= <-]. by rewrite (IH j).
Qed.

Lemma next_element_app a b element rest :
  next_element a = Some (element, rest) → next_element (a ++ b) = Some (element, rest ++ b).
Proof.
  unfold next_element. destruct (find "[" a) as [i|] eqn:Hi; [|done]. destruct (find "]" a) as [j|] eqn:Hj; [|done].
  destruct (Z.leb_spec (Z.of_nat j - Z.of_nat i) 0) as [|Hlt]; [done|]. intros [= <- <-].
  apply find_lt in Hj as Hj'. destruct Hj' as [Hj' _].
  rewrite (find_app _ _ _ _ Hi), (find_app _ _ _ _ Hj). destruct (Z.leb_spec (Z.of_nat j - Z.of_nat i) 0); [lia|].
  rewrite !drop_app_le by lia. by rewrite take_app_le by (rewrite length_drop; lia).
Qed.

Lemma next_element_shorter a element rest :
  next_element a = Some (element, rest) → (length rest < length a)%nat.
Proof.
  unfold next_element. destruct (find "[" a) as [i|]; [|done]. destruct (find "]" a) as [j|] eqn:Hj; [|done].
  destruct (_ <=? _); [done|]. intros [= _ <-]. apply find_lt in Hj as [Hj _]. rewrite length_drop. lia.
Qed.

(** With enough turns the result does not depend on their number. *)
Lemma export_loop_total n fuel buf :
  (length buf ≤ n)%nat → (length buf ≤ fuel)%nat →
  ∃ ret rest, export_loop n buf = Ok (ret, rest) ∧ export_loop fuel buf = Ok (ret, rest) ∧ next_element rest = None.
Proof.
  revert fuel buf; induction n as [|n IH]; intros fuel buf Hn Hf.
  - destruct buf; [|simpl in Hn; lia]. exists [], []. by destruct fuel.
  - destruct (next_element buf) as [[element rest]|] eqn:He.
    + pose proof (next_element_shorter _ _ _ He) as Hs. destruct fuel as [|fuel]; [lia|].
      destruct (IH fuel rest) as (ret & rest' & H1 & H2 & Hno); [lia..|].
      destruct (parse_total element) as (j & ok & Hj).
      exists (array_items j :: ret), rest'. cbn [export_loop]. by rewrite He, Hj, H1, H2.
    + exists [], buf. destruct fuel; cbn [export_loop]; by rewrite He.
Qed.

(** The requests of a buffer and what is left of it. *)
Definition export (buf : bytes) : result (list (list Json) * bytes) := export_loop (length buf) buf.

Lemma export_total buf : ∃ ret rest, export buf = Ok (ret, rest) ∧ next_element rest = None.
Proof.
  destruct (export_loop_total (length buf) (length buf) buf) as (ret & rest & H1 & _ & H2); [lia..|].
  by exists ret, rest.
Qed.

Lemma export_step buf element rest :
  next_element buf = Some (element, rest) →
  export buf = ('(req, _) ← parse element; '(ret, r) ← export rest; Ok (array_items req :: ret, r)).
Proof.
  intros He. pose proof (next_element_shorter _ _ _ He) as Hs. unfold export.
  destruct (length buf) as [|n] eqn:Hn; [lia|]. cbn [export_loop]. rewrite He.
  destruct (export_loop_total n (length rest) rest) as (ret & r & -> & -> & _); [lia..|done].
Qed.

Lemma export_app n a b :
  (length a ≤ n)%nat →
  export (a ++ b) = ('(ret1, rest) ← export a; '(ret2, rest) ← export (rest ++ b); Ok (ret1 ++ ret2, rest)).
Proof.
  revert a; induction n as [|n IH]; intros a Hn.
  - destruct a; [|simpl in Hn; lia]. simpl. destruct (export b) as [[]|]; done.
  - destruct (next_element a) as [[element rest]|] eqn:He.
    + rewrite (export_step _ _ _ He), (export_step _ _ _ (next_element_app _ b _ _ He)).
      pose proof (next_element_shorter _ _ _ He) as Hs.
      destruct (parse_total element) as (j & ok & ->). cbn [mbind result_bind]. rewrite IH by lia.
      destruct (export rest) as [[ret1 r1]|]; [|done]. cbn [mbind result_bind].
      by destruct (export (r1 ++ b)) as [[ret2 r2]|].
    + assert (export a = Ok ([], a)) as ->.
      { unfold export. destruct (length a); cbn [export_loop]; by rewrite He. }
      cbn [mbind result_bind]. by destruct (export (a ++ b)) as [[]|].
Qed.

(** Chunks received one after the other, with an export after each. *)
Fixpoint receive (buf : bytes) (chunks : list bytes) : result (list (list Json) * bytes) :=
  match chunks with
  | [] => Ok ([], buf)
  | chunk :: chunks =>
      '(ret, buf) ← export (buf ++ chunk);
      '(ret', buf) ← receive buf chunks;
      Ok (ret ++ ret', buf)
  end.

Lemma receive_concat buf chunks :
  next_element buf = None → receive buf chunks = export (buf ++ concat chunks).
Proof.
  revert buf; induction chunks as [|chunk chunks IH]; intros buf Hb; simpl.
  - rewrite app_nil_r. unfold export. destruct (length buf); cbn [export_loop]; by rewrite Hb.
  - rewrite app_assoc, (export_app (length (buf ++ chunk)) (buf ++ chunk) (concat chunks)) by lia.
    destruct (export_total (buf ++ chunk)) as (ret & rest & -> & Hno). cbn [mbind result_bind].
    by rewrite IH.
Qed.

(** *** Requests without brackets in their texts *)

Definition no_bracket (s : bytes) : Prop := Forall (λ c, c ≠ "["%char ∧ c ≠ "]"%char) s.

#[export] Instance no_bracket_dec s : Decision (no_bracket s).
Proof. unfold no_bracket. apply _. Defined.

Lemma find_no_bracket x s r :
  no_bracket s → x = "["%char ∨ x = "]"%char → find x (s ++ x :: r) = Some (length s).
Proof.
  intros Hs Hx. induction Hs as [|c s [H1 H2] Hs IH]; simpl.
  - by rewrite Ascii.eqb_refl.
  - destruct (Ascii.eqb_spec c x) as [->|]; [naive_solver|]. by rewrite IH.
Qed.

Lemma no_bracket_app a b : no_bracket a → no_bracket b → no_bracket (a ++ b).
Proof. intros. by apply Forall_app. Qed.

Lemma dump_char_no_bracket c : c ≠ "["%char → c ≠ "]"%char → no_bracket (dump_char c).
Proof.
  intros H1 H2. unfold no_bracket.
  destruct (bool_decide (Forall (λ c, c ≠ "["%char ∧ c ≠ "]"%char) (dump_char c))) eqn:E.
  - by apply bool_decide_eq_true in E.
  - exfalso. revert H1 H2 E. destruct c as [[] [] [] [] [] [] [] []]; vm_compute; congruence.
Qed.

Lemma dump_chars_no_bracket n s : (length s ≤ n)%nat → no_bracket s → no_bracket (dump_chars s).
Proof.
  revert s; induction n as [|n IH]; intros [|c s] Hn Hs; simpl in Hn; try lia; try constructor.
  inversion Hs as [|?? [H1 H2] Hs']; subst.
  assert (no_bracket (dump_char c ++ dump_chars s)) as Hplain.
  { apply no_bracket_app; [by apply dump_char_no_bracket|]. apply IH; [lia|done]. }
  cbn [dump_chars]. destruct (line_separator (c :: s)) as [d|] eqn:Hd; [|done].
  destruct s as [|c1 [|c2 s]]; [done..|].
  apply no_bracket_app.
  - unfold line_separator in Hd. repeat case_match; simplify_eq; by repeat constructor.
  - apply IH; [simpl in *; lia|]. inversion Hs' as [|?? _ Hs'']; by inversion Hs''.
Qed.

Lemma separated_no_bracket l : Forall no_bracket l → no_bracket (separated l).
Proof.
  induction 1 as [|x l Hx Hl IH]; [constructor|]. destruct l as [|y l]; [done|].
  rewrite separated_cons. apply no_bracket_app; [done|]. apply no_bracket_app; [by repeat constructor|done].
Qed.

Definition frame_safe (m : list string) : Prop := Forall (λ s, no_bracket (bytes_of s)) m.

#[export] Instance frame_safe_dec m : Decision (frame_safe m).
Proof. unfold frame_safe. apply _. Defined.

Lemma dump_array_frame m : frame_safe m →
  ∃ body, dump_array m = "["%char :: body ++ ["]"%char] ∧ no_bracket body.
Proof.
  intros Hm. exists (separated (dump_text <$> m)). split; [done|]. apply separated_no_bracket.
  apply Forall_fmap. eapply Forall_impl; [done|]. intros s Hs. simpl. unfold dump_text, dump_string.
  apply no_bracket_app; [by repeat constructor|]. apply no_bracket_app; [|by repeat constructor].
  by eapply dump_chars_no_bracket.
Qed.

Lemma next_element_array m rest : frame_safe m → next_element (dump_array m ++ rest) = Some (dump_array m, rest).
Proof.
  intros Hm. destruct (dump_array_frame m Hm) as (body & -> & Hb). unfold next_element.
  rewrite <-app_comm_cons, <-app_assoc. cbn [app].
  change (find "[" ("["%char :: ?x)) with (Some O).
  assert (find "]" ("["%char :: body ++ "]"%char :: rest) = Some (S (length body))) as ->.
  { change (find "]" ("["%char :: ?x)) with (S <$> find "]" x). by rewrite find_no_bracket by auto. }
  destruct (Z.leb_spec (Z.of_nat (S (length body)) - Z.of_nat 0) 0); [lia|].
  rewrite drop_0. replace (S (S (length body)) - 0)%nat with (S (S (length body))) by lia.
  change ("["%char :: body ++ "]"%char :: rest) with (("["%char :: body) ++ "]"%char :: rest).
  assert (length ("["%char :: body ++ ["]"%char]) = S (S (length body))) as Hl.
  { simpl. rewrite length_app. simpl. lia. }
  replace (("["%char :: body) ++ "]"%char :: rest) with (("["%char :: body ++ ["]"%char]) ++ rest).
  - by rewrite <-Hl, take_app_length, drop_app_length.
  - simpl. by rewrite <-app_assoc.
Qed.

Definition json_texts (m : list string) : list Json := JString <$> m.

Lemma export_arrays (ms : list (list string)) (rest : bytes) :
  Forall frame_safe ms → next_element rest = None →
  export (concat (dump_array <$> ms) ++ rest) = Ok (json_texts <$> ms, rest).
Proof.
  intros Hms Hr. induction Hms as [|m ms Hm Hms IH].
  - unfold export. simpl. destruct (length rest); cbn [export_loop]; by rewrite Hr.
  - rewrite fmap_cons. cbn [concat]. rewrite <-app_assoc.
    rewrite (export_step _ _ _ (next_element_array m _ Hm)), parse_dump_array.
    cbn [mbind result_bind]. by rewrite IH.
Qed.

(** ** Properties *)

(** [ExportMessages] ends on every buffer and leaves nothing it could still cut. *)
Lemma ExportMessages_ends c :
  ∃ c' reqs, ExportMessages c = Ok (c', reqs) ∧ next_element (recv_buffer_ c') = None ∧
             send_buffer_ c' = send_buffer_ c ∧ database_ c' = database_ c.
Proof.
  unfold ExportMessages. destruct (export_total (recv_buffer_ c)) as (ret & rest & He & Hn). unfold export in He.
  rewrite He. cbn [mbind result_bind]. by eexists _, _.
Qed.

(** The requests cut out of a stream, and what stays in the buffer, do not depend on
    the pieces in which the bytes arrived. *)
Theorem segmentation_irrelevant buf chunks chunks' :
  next_element buf = None → concat chunks = concat chunks' → receive buf chunks = receive buf chunks'.
Proof. intros Hb Hc. by rewrite !receive_concat, Hc. Qed.

Lemma segmentation_irrelevant_witness :
  receive [] [bytes_of "[1"; bytes_of "][2]"] = receive [] [bytes_of "[1][2]"].
Proof. apply segmentation_irrelevant; reflexivity. Defined.

(** C21: answers that one side appends, cut into pieces on the way, are received by the
    other side as they were sent, if no text holds a bracket. *)
Theorem appended_answers_received c ms chunks :
  Forall frame_safe ms → send_buffer_ c = [] →
  concat chunks = send_buffer_ (fold_left Append ms c) →
  receive [] chunks = Ok (json_texts <$> ms, []).
Proof.
  intros Hms Hs Hc. rewrite receive_concat, Hc by done. rewrite <-(export_arrays ms []) by done. f_equal.
  rewrite app_nil_r. cbn [app]. clear Hc Hms. change (concat (dump_array <$> ms)) with ([] ++ concat (dump_array <$> ms)).
  rewrite <-Hs. clear Hs. revert c. induction ms as [|m ms IH]; intros c; cbn [fold_left]; [by rewrite app_nil_r|].
  rewrite IH. cbn [Append set_send send_buffer_]. by rewrite fmap_cons, <-app_assoc.
Qed.

Lemma appended_answers_received_witness :
  receive [] [take 3 (dump_array ["OK"]); drop 3 (dump_array ["OK"]) ++ dump_array ["1"; "2"]] = Ok ([[JString "OK"]; [JString "1"; JString "2"]], []).
Proof.
  apply (appended_answers_received (ClientInfo_new 4) [["OK"]; ["1"; "2"]]); [|reflexivity|reflexivity].
  repeat (constructor; [apply (bool_decide_unpack _); vm_compute; exact I|]). constructor.
Defined.

End Client.
Export Client.
