(* ===== verification/RedisCli.v ===== *)
(** * The client program

    [Words]: the words of a line on the wire.  [RedisCli]: the loop of redis-cli.cc. *)

From stdpp Require Import base list strings.
From Stdlib Require Import Ascii ZArith Lia.
From S2P Require Import Prelude CInt Request Json Client Util StrObj Command.
Local Open Scope Z_scope.

(** * Words on the wire

    Both tokenizers keep digits together and cut at brackets, so that numbers are words
    and words do not disturb the framing of messages. *)

Module Words.

(** What the two tokenizers have in common. *)
Class Tokenizer (tok : ascii → bool) : Prop := {
  tok_digit c : is_digit c = true → tok c = true;
  tok_open : tok "["%char = false;
  tok_close : tok "]"%char = false;
  tok_blank : tok " "%char = false;
}.

#[export] Instance isTokenMember_tokenizer : Tokenizer isTokenMember.
Proof.
  split; try reflexivity. intros c Hc%digit_byte. unfold isTokenMember, char_val. destruct (Z.ltb_spec (byte_val c) 128); lia.
Qed.

#[export] Instance cli_isTokenMember_tokenizer : Tokenizer cli_isTokenMember.
Proof. split; try reflexivity. intros c Hc. unfold cli_isTokenMember. by rewrite (tok_digit c Hc). Qed.

Section Words.
Context `{Tokenizer tok}.

Lemma digits_word s : all_digits s = true → s ≠ "" → word tok s.
Proof.
  intros Hs Hne. split; [done|]. clear Hne. induction s as [|c s IH]; [constructor|].
  cbn [all_digits] in Hs. apply andb_true_iff in Hs as [Hc Hs]. constructor; [by apply tok_digit|by apply IH].
Qed.

Lemma number_word n : 0 ≤ n → word tok (to_string n).
Proof. intros Hn. destruct (to_string_nonneg n Hn) as (Hd & _ & _). apply digits_word; [done|]. apply to_string_nonempty. Qed.

Lemma word_no_bracket w : word tok w → no_bracket (bytes_of w).
Proof.
  intros [_ Hw]. eapply Forall_impl; [exact Hw|]. intros c Hc. split; intros ->; [by rewrite tok_open in Hc|by rewrite tok_close in Hc].
Qed.

Lemma words_frame_safe l : Forall (word tok) l → frame_safe l.
Proof. intros Hl. eapply Forall_impl; [exact Hl|]. apply word_no_bracket. Qed.

End Words.

(** Numbers, negative ones as well, hold no bracket. *)
Lemma to_string_no_bracket z : no_bracket (bytes_of (to_string z)).
Proof.
  destruct (Z.lt_ge_cases z 0) as [Hz|Hz]; [|by eapply (word_no_bracket (tok := isTokenMember)), number_word].
  rewrite to_string_neg by done. constructor; [done|]. eapply (word_no_bracket (tok := isTokenMember)), number_word. lia.
Qed.

End Words.
Export Words.

(** * redis-cli.cc: the loop of the client program

    Each line of the input is cut into words and sent as an array; the third word of a
    line that begins with "expire" is a number of seconds and becomes a point in time.
    The results of [write] and the clock are arguments.  What the other thread prints of
    the answers is a function of each chunk it reads. *)

Module RedisCli.

(** One line of [std::cin] with the time at which it is read and whether [write] works. *)
Record Input := mkInput {
  line : string;
  UsTime : Z;
  written : bool;
}.

(** [rds::UsTime() + std::stoul(...) * 1000'000] on [std::size_t]. *)
Definition expire_point (time seconds : Z) : Z := to_size (time + to_size (seconds * 1000000)).

(** The array a line becomes; [cmd_arr[0]] of an empty array is undefined. *)
Definition cmd_arr (i : Input) : result (list string) :=
  cmd_arr ← cli_RawCommandToRequest (line i);
  match cmd_arr with
  | [] => Err Undefined
  | cmd :: _ =>
      if String.eqb cmd "expire" then
        match cmd_arr !! 2%nat with
        | Some t => n ← stoull t; Ok (<[2%nat := to_string (expire_point (UsTime i) n)]> cmd_arr)
        | None => Ok cmd_arr
        end
      else Ok cmd_arr
  end.

(** The loop of [ClientEnd]: what it has written to the connection after these lines,
    unless [write] fails before.  At the end of the input [std::getline] gives an empty
    line, whose array has no first element. *)
Fixpoint ClientEnd (inputs : list Input) : result (list bytes) :=
  match inputs with
  | [] => Ok []
  | i :: inputs =>
      arr ← cmd_arr i;
      if negb (written i) then Ok []
      else sent ← ClientEnd inputs; Ok (dump_array arr :: sent)
  end.

(** The text up to the first zero character, as [printf] reads it. *)
Fixpoint c_string (b : bytes) : bytes :=
  match b with
  | [] => []
  | c :: b => if Ascii.eqb c (byte_of 0) then [] else c :: c_string b
  end.

(** The other thread: [buf] has 65535 characters and a zero is stored behind the chunk. *)
Definition print_chunk (chunk : bytes) : result bytes :=
  if Z.of_nat (length chunk) =? 65535 then Err Undefined else Ok (c_string chunk).

(** ** What the server receives *)

Lemma cmd_arr_safe i arr : cmd_arr i = Ok arr → frame_safe arr.
Proof.
  unfold cmd_arr. intros (l & Hl%raw_to_request_words & H)%bind_Ok.
  assert (frame_safe l) as Hsafe by (by eapply words_frame_safe).
  destruct l as [|cmd l]; [done|]. destruct (String.eqb cmd "expire"); [|by injection H as <-].
  destruct (_ !! 2%nat) as [t|]; [|by injection H as <-]. apply bind_Ok in H as (n & _ & [= <-]).
  apply (Forall_insert _ (cmd :: l) 2); [done|]. apply to_string_no_bracket.
Qed.

Lemma ClientEnd_arrays inputs sent :
  ClientEnd inputs = Ok sent → Forall (λ i, written i = true) inputs →
  ∃ reqs, mapM_result cmd_arr inputs = Ok reqs ∧ sent = dump_array <$> reqs ∧ Forall frame_safe reqs.
Proof.
  revert sent. induction inputs as [|i inputs IH]; intros sent; cbn [ClientEnd mapM_result].
  { intros [= <-] _. by exists []. }
  intros (arr & Harr & H)%bind_Ok [Hw Hws]%Forall_cons. rewrite Hw in H. cbn [negb] in H. apply bind_Ok in H as (sent' & Hs & [= <-]).
  destruct (IH _ Hs Hws) as (reqs & Hr & -> & Hsafe). exists (arr :: reqs). rewrite Harr. cbn [mbind result_bind]. rewrite Hr.
  split_and!; [done|done|]. constructor; [by eapply cmd_arr_safe|done].
Qed.

(** A line of three words. *)
Lemma three_words cmd key arg time ok :
  word cli_isTokenMember cmd → word cli_isTokenMember key → word cli_isTokenMember arg →
  cli_RawCommandToRequest (line (mkInput (words_line [cmd; key] +:+ arg) time ok)) = Ok [cmd; key; arg].
Proof. intros Hc Hk Ha. apply (raw_to_request_line_last cli_isTokenMember eq_refl [cmd; key] arg); [repeat (constructor; [done|]); constructor|done]. Qed.

Lemma expire_request cmd key arg :
  string_toupper cmd = "EXPIRE" → key ≠ "" → arg ≠ "" →
  RequestToCommandExec (json_texts [cmd; key; arg]) = Ok (Some (CDb (mkDbCommand (mkBase true "EXPIRE" key) (Some arg)))).
Proof.
  intros Hc Hk Ha. unfold RequestToCommandExec. cbn [json_texts fmap list_fmap string_value]. rewrite Hc.
  unfold JsonToDbCommand, JsonToBase. cbn.
  apply String.eqb_neq in Hk. apply String.eqb_neq in Ha. by rewrite Hk, Ha.
Qed.

(** ** Properties *)

(** What the client writes for its lines, cut into pieces on the way, the server
    receives as the arrays of the lines. *)
Theorem lines_received inputs sent chunks :
  ClientEnd inputs = Ok sent → Forall (λ i, written i = true) inputs → concat chunks = concat sent →
  ∃ reqs, mapM_result cmd_arr inputs = Ok reqs ∧ receive [] chunks = Ok (json_texts <$> reqs, []).
Proof.
  intros Hs Hw Hc. destruct (ClientEnd_arrays inputs sent Hs Hw) as (reqs & Hr & -> & Hsafe). exists reqs. split; [done|].
  rewrite receive_concat, Hc by done. cbn [app]. rewrite <-(app_nil_r (concat _)). by apply export_arrays.
Qed.

Definition two_lines : list Input := [mkInput "SET k v" 5 true; mkInput "expire k 2" 7 true].

Lemma lines_received_witness :
  ∃ reqs, mapM_result cmd_arr two_lines = Ok reqs ∧
    receive [] [dump_array ["SET"; "k"; "v"] ++ take 5 (dump_array ["expire"; "k"; "2000007"]);
                drop 5 (dump_array ["expire"; "k"; "2000007"])] = Ok (json_texts <$> reqs, []).
Proof.
  apply (lines_received two_lines [dump_array ["SET"; "k"; "v"]; dump_array ["expire"; "k"; "2000007"]]);
    [vm_compute; reflexivity|by repeat constructor|vm_compute; reflexivity].
Defined.

(** The client turns the seconds of a line that begins with "expire" into a point in
    time, which the server's command carries; the server takes the word in any case, the
    client does not, and then the seconds count as a point in time. *)
Theorem expire_line key secs time ok :
  word cli_isTokenMember key → all_digits secs = true → secs ≠ "" → digits_go 0 secs ≤ ULLONG_MAX →
  (∃ req t, cmd_arr (mkInput (words_line ["expire"; key] +:+ secs) time ok) = Ok req ∧
     RequestToCommandExec (json_texts req) = Ok (Some (CDb (mkDbCommand (mkBase true "EXPIRE" key) (Some t)))) ∧
     RedisStrToSize t = Ok (Some (expire_point time (digits_go 0 secs)))) ∧
  (∃ req, cmd_arr (mkInput (words_line ["EXPIRE"; key] +:+ secs) time ok) = Ok req ∧
     RequestToCommandExec (json_texts req) = Ok (Some (CDb (mkDbCommand (mkBase true "EXPIRE" key) (Some secs)))) ∧
     RedisStrToSize secs = Ok (Some (digits_go 0 secs))).
Proof.
  intros Hkey Hsecs Hne Hmax. pose proof (digits_word secs Hsecs Hne) as Hword.
  assert (stoull secs = Ok (digits_go 0 secs)) as Hst.
  { unfold stoull. rewrite strto_digits by done. destruct (Z.leb_spec (digits_go 0 secs) ULLONG_MAX); [done|lia]. }
  split.
  - unfold cmd_arr. rewrite three_words by (done || by apply (bool_decide_unpack _)). cbn [mbind result_bind].
    change (String.eqb "expire" "expire") with true. cbn [lookup list_lookup]. rewrite Hst. cbn [mbind result_bind].
    eexists _, _. split; [reflexivity|]. split; [apply expire_request; [done|apply Hkey|apply to_string_nonempty]|].
    apply RedisStrToSize_to_string. pose proof (Z.mod_pos_bound (time + to_size (digits_go 0 secs * 1000000)) (2 ^ 64)).
    unfold expire_point, to_size, is_size, SIZE_MAX in *. lia.
  - unfold cmd_arr. rewrite three_words by (done || by apply (bool_decide_unpack _)). cbn [mbind result_bind].
    change (String.eqb "EXPIRE" "expire") with false. eexists. split; [reflexivity|].
    split; [apply expire_request; [done|apply Hkey|done]|]. by rewrite RedisStrToSize_digits, Hst.
Qed.

Lemma expire_line_witness :
  (∃ req t, cmd_arr (mkInput "expire k 2" 7 true) = Ok req ∧
     RequestToCommandExec (json_texts req) = Ok (Some (CDb (mkDbCommand (mkBase true "EXPIRE" "k") (Some t)))) ∧
     RedisStrToSize t = Ok (Some 2000007)) ∧
  (∃ req, cmd_arr (mkInput "EXPIRE k 2" 7 true) = Ok req ∧
     RequestToCommandExec (json_texts req) = Ok (Some (CDb (mkDbCommand (mkBase true "EXPIRE" "k") (Some "2")))) ∧
     RedisStrToSize "2" = Ok (Some 2)).
Proof. apply (expire_line "k" "2" 7 true); [apply (bool_decide_unpack _); vm_compute; exact I|done|done|vm_compute; discriminate]. Defined.

(** An empty line ends the client: [cmd_arr[0]] does not exist. *)
Example empty_line time ok : ClientEnd [mkInput "" time ok] = Err Undefined.
Proof. reflexivity. Qed.

End RedisCli.
Export RedisCli.
