(* ===== verification/Interest.v ===== *)
(** * When a connection is read and when it is written

    server.cc keeps one interest per connection with epoll: EPOLLIN or EPOLLOUT, changed
    by [EnableRead] and [EnableSend].  The command thread appends an answer and enables
    sending; the io thread sends, looks whether everything is out and enables reading
    again.  Each of these is one step here, since the locks of [ClientInfo] cover them
    one by one.  An event of a connection is only reported for the interest it has.

    One io thread serves one connection here, so that [errno] changes with its calls
    only.  A connection goes on after [recv] has given nothing and after a failed [send],
    where the program logs the client out: these runs are more than the program's. *)

From stdpp Require Import base list strings.
From Stdlib Require Import Ascii ZArith Lia.
From S2P Require Import Prelude CInt Util Json Client.
Local Open Scope Z_scope.

Module Interest.

(** Where the io thread is in [ioClient]: waiting, before [Send], before the test of
    [IsSendOut], before [EnableRead]. *)
Inductive io_pc := IoWaits | IoSends | IoTests | IoEnablesRead.

(** Where the command thread is in [ExecCommand]: elsewhere, or between [Append] and
    [EnableSend]. *)
Inductive exec_pc := ExecElsewhere | ExecEnablesSend.

(** [sending] is the interest, [errno_eagain] what the last failed call of the io thread
    has left in [errno]; a call that works does not change it. *)
Record Connection := mkConnection {
  client : ClientInfo;
  sending : bool;
  io : io_pc;
  errno_eagain : bool;
  exec : exec_pc;
}.

(** What can happen next: an event for reading with the results of [recv], an event for
    writing, the results of [send] (with its [errno] if it fails), and the next steps of
    the two threads. *)
Inductive action :=
| EventIn (rs : list recv_result) (eagain : bool)
| EventOut
| DoSend (n : Z) (eagain : bool)
| DoTest
| DoEnableRead
| DoAppend (ret : list string)
| DoEnableSend.

Definition EnableRead (s : Connection) : Connection := mkConnection (client s) false (io s) (errno_eagain s) (exec s).
Definition EnableSend (s : Connection) : Connection := mkConnection (client s) true (io s) (errno_eagain s) (exec s).

Definition at_io (s : Connection) (pc : io_pc) : Connection := mkConnection (client s) (sending s) pc (errno_eagain s) (exec s).

(** [errno] after a call with the result [n]. *)
Definition errno_after (n : Z) (eagain before : bool) : bool := if n =? -1 then eagain else before.

(** One step; [None] when it is not the thread's next one.  What reading leaves in the
    receive buffer is the business of Client.v. *)
Definition act (s : Connection) (a : action) : option Connection :=
  match a, io s, exec s with
  | EventIn rs eagain, IoWaits, _ =>
      if sending s then None
      else
        match Read (client s) rs with
        | Ok (c, n) => Some (mkConnection c (sending s) IoWaits (errno_after n eagain (errno_eagain s)) (exec s))
        | Err _ => None
        end
  | EventOut, IoWaits, _ => if sending s then Some (at_io s IoSends) else None
  | DoSend n eagain, IoSends, _ =>
      let '(c, n) := Send (client s) n in
      Some (mkConnection c (sending s) IoTests (errno_after n eagain (errno_eagain s)) (exec s))
  | DoTest, IoTests, _ => Some (at_io s (if IsSendOut (client s) && negb (errno_eagain s) then IoEnablesRead else IoWaits))
  | DoEnableRead, IoEnablesRead, _ => Some (at_io (EnableRead s) IoWaits)
  | DoAppend ret, _, ExecElsewhere =>
      Some (mkConnection (Append (client s) ret) (sending s) (io s) (errno_eagain s) ExecEnablesSend)
  | DoEnableSend, _, ExecEnablesSend =>
      Some (mkConnection (client (EnableSend s)) (sending (EnableSend s)) (io s) (errno_eagain s) ExecElsewhere)
  | _, _, _ => None
  end.

Fixpoint act_all (s : Connection) (l : list action) : option Connection :=
  match l with
  | [] => Some s
  | a :: l => s' ← act s a; act_all s' l
  end.

(** A connection that was accepted. *)
Definition accepted (fd : Z) : Connection := mkConnection (ClientInfo_new fd) false IoWaits false ExecElsewhere.

(** ** Answers that wait are announced, but for one window *)

(** An answer is appended while the io thread is about to enable reading. *)
Definition in_window (s : Connection) (a : action) : bool :=
  match a, io s with DoAppend _, IoEnablesRead => true | _, _ => false end.

(** No step of the run falls into the window. *)
Fixpoint outside_window (s : Connection) (l : list action) : bool :=
  match l with
  | [] => true
  | a :: l => negb (in_window s a) && match act s a with Some s' => outside_window s' l | None => true end
  end.

Definition announced (s : Connection) : Prop :=
  send_buffer_ (client s) ≠ [] → (sending s = true ∨ exec s = ExecEnablesSend) ∧ io s ≠ IoEnablesRead.

Lemma Send_nonempty c n : send_buffer_ (Send c n).1 ≠ [] → send_buffer_ c ≠ [].
Proof. unfold Send. destruct (send_buffer_ c) as [|x b] eqn:E; cbn; congruence. Qed.

Lemma Read_send_buffer rs total c c' n : Read_loop total c rs = Ok (c', n) → send_buffer_ c' = send_buffer_ c.
Proof.
  revert total c. induction rs as [|[b|] rs IH]; intros total c; cbn [Read_loop]; [done| |by intros [= <- _]].
  intros (t & _ & Hx)%bind_Ok. destruct (_ =? 0); [by injection Hx as <- _|]. destruct (_ =? recv_chunk).
  - by apply IH in Hx.
  - by injection Hx as <- _.
Qed.

Lemma IsSendOut_true c : IsSendOut c = true ↔ send_buffer_ c = [].
Proof. unfold IsSendOut. by destruct (send_buffer_ c). Qed.

Lemma act_announced s a s' : announced s → in_window s a = false → act s a = Some s' → announced s'.
Proof.
  unfold announced. intros Hs Hw Ha Hb. destruct a as [rs eagain| |n eagain| | |ret|]; cbn [act in_window] in *.
  - destruct (io s) eqn:Ei; try done. destruct (sending s) eqn:Es; [done|]. destruct (Read _ _) as [[c n]|] eqn:Er; [|done].
    injection Ha as <-. cbn in *. apply Read_send_buffer in Er. rewrite Er in Hb. by apply Hs.
  - destruct (io s) eqn:Ei; try done. destruct (sending s) eqn:Es; [|done]. injection Ha as <-. cbn in *. split; [by left|done].
  - destruct (io s) eqn:Ei; try done. pose proof (Send_nonempty (client s) n) as Hn.
    destruct (Send (client s) n) as [c m]. injection Ha as <-. cbn in *. split; [|done]. by apply Hs, Hn.
  - destruct (io s) eqn:Ei; try done. injection Ha as <-. cbn in *. split; [by apply Hs|].
    destruct (IsSendOut (client s)) eqn:Eo; [|done]. by apply IsSendOut_true in Eo.
  - destruct (io s) eqn:Ei; try done. injection Ha as <-. cbn in *. by destruct (Hs Hb) as [_ ?].
  - destruct (exec s) eqn:Ee; [|by destruct (io s)].
    assert (Some (mkConnection (Append (client s) ret) (sending s) (io s) (errno_eagain s) ExecEnablesSend) = Some s') as Ha'
      by (by destruct (io s)).
    injection Ha' as <-. cbn. split; [by right|]. by destruct (io s).
  - destruct (exec s) eqn:Ee; [by destruct (io s)|].
    assert (Some (mkConnection (client (EnableSend s)) (sending (EnableSend s)) (io s) (errno_eagain s) ExecElsewhere) = Some s') as Ha'
      by (by destruct (io s)).
    injection Ha' as <-. cbn in *. split; [by left|]. by apply Hs.
Qed.

Lemma act_all_announced l s s' : announced s → outside_window s l = true → act_all s l = Some s' → announced s'.
Proof.
  revert s. induction l as [|a l IH]; intros s Hs Hw; cbn [act_all]; [by intros [= <-]|]. cbn [outside_window] in Hw.
  apply andb_true_iff in Hw as [Hw1%negb_true_iff Hw2]. intros (s1 & Ha & Hl)%bind_Some. rewrite Ha in Hw2.
  eapply IH; [|done..]. by eapply act_announced.
Qed.

(** ** A stale [errno] *)

(** The io thread has once been told that there is nothing to receive. *)
Definition deaf (s : Connection) : Prop := sending s = true ∧ errno_eagain s = true ∧ io s ≠ IoEnablesRead.

(** No call of [send] fails. *)
Definition send_works (a : action) : bool := match a with DoSend n _ => 0 <=? n | _ => true end.

Lemma Send_result c n : 0 ≤ n → (Send c n).2 ≠ -1.
Proof. intros Hn. unfold Send. destruct (send_buffer_ c); cbn; [lia|]. destruct (_ || _); cbn; lia. Qed.

Lemma act_deaf s a s' : deaf s → send_works a = true → act s a = Some s' → deaf s'.
Proof.
  unfold deaf. intros (Hs & He & Hi) Hw Ha. destruct a as [rs eagain| |n eagain| | |ret|]; cbn [act send_works] in *.
  - destruct (io s); try done. by rewrite Hs in Ha.
  - destruct (io s); try done. rewrite Hs in Ha. by injection Ha as <-.
  - destruct (io s); try done. apply Z.leb_le in Hw. pose proof (Send_result (client s) n Hw) as Hr.
    destruct (Send (client s) n) as [c m]. injection Ha as <-. cbn in *. unfold errno_after.
    destruct (Z.eqb_spec m (-1)); [done|]. done.
  - destruct (io s); try done. injection Ha as <-. cbn. rewrite He, andb_false_r. done.
  - by destruct (io s).
  - destruct (exec s); [|by destruct (io s)]. destruct (io s); try done; by injection Ha as <-.
  - destruct (exec s); [by destruct (io s)|]. destruct (io s); try done; by injection Ha as <-.
Qed.

(** ** Properties *)

(** C32: an answer that waits in the send buffer is announced: the connection has the
    interest in sending or the command thread is about to give it, and the io thread is not
    about to take it away; on every run in which no answer is appended between the test of
    [IsSendOut] and [EnableRead]. *)
Theorem waiting_answers_announced fd l s :
  act_all (accepted fd) l = Some s → outside_window (accepted fd) l = true → send_buffer_ (client s) ≠ [] →
  (sending s = true ∨ exec s = ExecEnablesSend) ∧ io s ≠ IoEnablesRead.
Proof. intros Hl Hw. by apply (act_all_announced l (accepted fd)). Qed.

(** A request is answered; the second answer waits. *)
Definition answered_twice : list action :=
  [EventIn [Received (bytes_of "[1][2]")] false; DoAppend ["OK"]; DoEnableSend; EventOut; DoSend 6 false; DoAppend ["1"]; DoTest].

Lemma waiting_answers_announced_witness :
  ∃ s, act_all (accepted 4) answered_twice = Some s ∧ (sending s = true ∨ exec s = ExecEnablesSend) ∧ io s ≠ IoEnablesRead.
Proof. eexists. split; [vm_compute; reflexivity|]. apply (waiting_answers_announced 4 answered_twice); [reflexivity|reflexivity|discriminate]. Defined.

(** In the window an answer is lost: nothing announces it, and all threads wait. *)
Example answer_lost :
  ∃ s, act_all (accepted 4) [EventIn [Received (bytes_of "[1][2]")] false; DoAppend ["OK"]; DoEnableSend; EventOut;
         DoSend 6 false; DoTest; DoAppend ["1"]; DoEnableSend; DoEnableRead] = Some s ∧
    send_buffer_ (client s) = dump_array ["1"] ∧ sending s = false ∧ io s = IoWaits ∧ exec s = ExecElsewhere.
Proof. eexists. split; [vm_compute; reflexivity|]. done. Qed.

(** Once the io thread has been told that there is nothing to receive, and the
    connection has the interest in sending, it never gets the interest in receiving again,
    whatever is answered and sent, as long as no [send] fails: later requests of the client
    are not read. *)
Theorem stale_errno_stops_reading s l s' :
  sending s = true → errno_eagain s = true → io s = IoWaits →
  act_all s l = Some s' → forallb send_works l = true →
  sending s' = true ∧ ∀ rs eagain, act s' (EventIn rs eagain) = None.
Proof.
  intros Hs He Hi Hl Hw. assert (deaf s) as Hd by (unfold deaf; by rewrite Hi).
  assert (deaf s') as (Hs' & _ & _).
  { clear Hs He Hi. revert s Hl Hd. induction l as [|a l IH]; intros s; cbn [act_all]; [by intros [= <-]|].
    cbn [forallb] in Hw. apply andb_true_iff in Hw as [Hw1 Hw2]. intros (s1 & Ha & Hl)%bind_Some Hd.
    eapply IH; [done..|]. by eapply act_deaf. }
  split; [done|]. intros rs eagain. cbn. rewrite Hs'. by destruct (io s').
Qed.

(** An event without bytes, then a request and its answer. *)
Definition deaf_connection : Connection := mkConnection (mkClient 4 None (bytes_of "[1]") (dump_array ["OK"])) true IoWaits true ExecElsewhere.

Example deaf_reached :
  act_all (accepted 4) [EventIn [RecvError] true; EventIn [Received (bytes_of "[1]")] false; DoAppend ["OK"]; DoEnableSend] = Some deaf_connection.
Proof. reflexivity. Qed.

Lemma stale_errno_stops_reading_witness :
  ∃ s', act_all deaf_connection [EventOut; DoSend 6 false; DoTest] = Some s' ∧
    sending s' = true ∧ ∀ rs eagain, act s' (EventIn rs eagain) = None.
Proof.
  eexists. split; [vm_compute; reflexivity|].
  apply (stale_errno_stops_reading deaf_connection [EventOut; DoSend 6 false; DoTest]); reflexivity.
Defined.

End Interest.
Export Interest.
