(* ===== verification/Timer.v ===== *)
(** * server/timer.h, server/timer.cc: the timers and their queue

    [TimerQue] is a priority queue by [expire_time_us_]; which of two timers with the
    same time comes first is left open by the heap, so popping is a relation, with an
    executable instance that takes the first of the queue's list. *)

From stdpp Require Import base list sets strings.
From Stdlib Require Import Ascii ZArith Lia.
From S2P Require Import Prelude CInt Database.
Local Open Scope Z_scope.

Module Timers.

Record RdbTimer := mkRdbTimer { rdb_expire : Z; rdb_fm : string; rdb_after : Z }.
Record AofTimer := mkAofTimer { aof_expire : Z; aof_fm : string; aof_after : Z; every_sec_ : bool }.

Inductive Timer :=
| TExpire (t : DbExpireTimer)
| TRewrite (expire : Z) (fm : string) (cache : bytes)
| TRdb (t : RdbTimer)
| TAof (t : AofTimer).

Definition timer_expire (t : Timer) : Z :=
  match t with
  | TExpire t => tmr_expire_us t
  | TRewrite e _ _ => e
  | TRdb t => rdb_expire t
  | TAof t => aof_expire t
  end.

Definition TimerGreater (a b : Timer) : bool := timer_expire b <? timer_expire a.

Abbreviation TimerQue := (list Timer).

Definition TimerQue_Push (q : TimerQue) (t : Timer) : TimerQue := q ++ [t].

(** [BlockPop] returns when the top of the heap is due: a timer no other precedes. *)
Inductive BlockPop (now : Z) : TimerQue → Timer → TimerQue → Prop :=
| block_pop q1 t q2 :
    Forall (λ x, TimerGreater t x = false) (q1 ++ q2) → (now <? timer_expire t) = false →
    BlockPop now (q1 ++ t :: q2) t (q1 ++ q2).

(** How long [BlockPop] waits, in microseconds of [size_t]; [None] for an empty queue. *)
Definition sleep_period (now : Z) (q : TimerQue) (top : Timer) : option Z :=
  match q with
  | [] => None
  | _ => if now <? timer_expire top then Some (to_size (timer_expire top - now)) else Some 0
  end.

(** The top: the first timer no other precedes. *)
Fixpoint top (q : TimerQue) : option Timer :=
  match q with
  | [] => None
  | t :: q => match top q with
              | Some u => if TimerGreater t u then Some u else Some t
              | None => Some t
              end
  end.

Fixpoint remove_top (m : Z) (q : TimerQue) : TimerQue :=
  match q with
  | [] => []
  | t :: q => if timer_expire t =? m then q else t :: remove_top m q
  end.

Definition pop_due (now : Z) (q : TimerQue) : option (Timer * TimerQue) :=
  match top q with
  | Some t => if now <? timer_expire t then None else Some (t, remove_top (timer_expire t) q)
  | None => None
  end.

Lemma top_spec q t : top q = Some t → t ∈ q ∧ Forall (λ x, timer_expire t ≤ timer_expire x) q.
Proof.
  revert t; induction q as [|u q IH]; intros t; simpl; [done|].
  destruct (top q) as [v|] eqn:Hq.
  - destruct (IH v eq_refl) as [Hin Hall]. unfold TimerGreater. destruct (Z.ltb_spec (timer_expire v) (timer_expire u)).
    + intros [= <-]. split; [set_solver|]. constructor; [lia|done].
    + intros [= <-]. split; [set_solver|]. constructor; [lia|]. eapply Forall_impl; [done|]. simpl. lia.
  - destruct q as [|w q]; [|simpl in Hq; destruct (top q); [destruct (TimerGreater _ _)|]; discriminate Hq].
    intros [= <-]. split; [set_solver|]. by repeat constructor.
Qed.

Lemma top_nonempty q : q ≠ [] → is_Some (top q).
Proof. destruct q as [|t q]; [done|]. simpl. destruct (top q); [destruct (TimerGreater _ _)|]; eauto. Qed.

(** Removing the first timer with the time of the top splits the queue there, and the
    top is that timer when the executable choice is made. *)
Lemma remove_top_split m q :
  m ∈ timer_expire <$> q →
  ∃ q1 t q2, q = q1 ++ t :: q2 ∧ timer_expire t = m ∧ remove_top m q = q1 ++ q2 ∧
             Forall (λ x, timer_expire x ≠ m) q1.
Proof.
  induction q as [|u q IH]; [set_solver|]. rewrite fmap_cons. intros Hm. cbn [remove_top].
  destruct (Z.eqb_spec (timer_expire u) m) as [Hu|Hu].
  - exists [], u, q. split_and!; [done|done|done|constructor].
  - destruct IH as (q1 & t & q2 & -> & Ht & Hr & Hq1); [set_solver|].
    exists (u :: q1), t, q2. split_and!; [done|done|by rewrite Hr|by constructor].
Qed.

Lemma top_first q1 t q2 :
  Forall (λ x, timer_expire t < timer_expire x) q1 → Forall (λ x, timer_expire t ≤ timer_expire x) q2 →
  top (q1 ++ t :: q2) = Some t.
Proof.
  intros H1 H2. induction H1 as [|u q1 Hu H1 IH]; simpl.
  - destruct (top q2) as [v|] eqn:Hv; [|done]. apply top_spec in Hv as [Hv _].
    eapply Forall_forall in H2; [|done]. unfold TimerGreater. simpl in H2.
    destruct (Z.ltb_spec (timer_expire v) (timer_expire t)); [lia|done].
  - rewrite IH. unfold TimerGreater. destruct (Z.ltb_spec (timer_expire t) (timer_expire u)); [done|lia].
Qed.

(** The executable pop is one of the pops of the relation. *)
Lemma pop_due_BlockPop now q t q' : pop_due now q = Some (t, q') → BlockPop now q t q'.
Proof.
  unfold pop_due. destruct (top q) as [u|] eqn:Hu; [|done]. destruct (now <? timer_expire u) eqn:Hd; [done|].
  intros [= <- <-]. destruct (top_spec q u Hu) as [Hin Hall].
  destruct (remove_top_split (timer_expire u) q) as (q1 & t & q2 & -> & Ht & -> & Hne).
  { by apply list_elem_of_fmap_2. }
  assert (u = t) as ->; [|].
  { rewrite Forall_app, Forall_cons in Hall. destruct Hall as (Ha & _ & Hb).
    rewrite (top_first q1 t q2) in Hu; [congruence| |by rewrite Ht].
    rewrite Ht. rewrite Forall_forall in Hne, Ha |- *. intros x Hx. specialize (Hne x Hx). specialize (Ha x Hx).
    simpl in *. lia. }
  constructor; [|done]. rewrite Forall_app, Forall_cons in Hall. destruct Hall as (Ha & _ & Hb).
  apply Forall_app. split; eapply Forall_impl; try done; intros x Hx; unfold TimerGreater; simpl in Hx; by apply Z.ltb_ge.
Qed.

(** A due queue is not stuck: if some timer is due, the top is. *)
Lemma pop_due_some now q t : t ∈ q → timer_expire t ≤ now → is_Some (pop_due now q).
Proof.
  intros Hin Ht. unfold pop_due. destruct (top_nonempty q) as [u Hu]; [by destruct q; [apply not_elem_of_nil in Hin|]|]. rewrite Hu.
  destruct (top_spec q u Hu) as [_ Hall]. eapply Forall_forall in Hall; [|done]. simpl in Hall.
  destruct (Z.ltb_spec now (timer_expire u)); [lia|eauto].
Qed.

(** ** Properties *)

(** The timer that [BlockPop] takes is due and none of the others is before it; the
    others stay in the queue, and the executable choice is one of the allowed ones. *)
Lemma timers_in_order now q t q' :
  (BlockPop now q t q' → q ≡ₚ t :: q' ∧ timer_expire t ≤ now ∧ Forall (λ x, timer_expire t ≤ timer_expire x) q') ∧
  (pop_due now q = Some (t, q') → BlockPop now q t q').
Proof.
  split; [|apply pop_due_BlockPop]. intros [q1 u q2 Hall Hd]. split_and!; [by rewrite Permutation_middle|by apply Z.ltb_ge|].
  eapply Forall_impl; [exact Hall|]. intros x Hx. unfold TimerGreater in Hx. by apply Z.ltb_ge.
Qed.

(** C39: a due timer is not missed: as long as the queue holds one, [BlockPop] returns a
    timer, no later than that one. *)
Theorem due_timer_popped now q t :
  t ∈ q → timer_expire t ≤ now → ∃ u q', pop_due now q = Some (u, q') ∧ timer_expire u ≤ timer_expire t ∧ BlockPop now q u q'.
Proof.
  intros Hin Ht. destruct (pop_due_some now q t Hin Ht) as [[u q'] Hp]. exists u, q'.
  pose proof (pop_due_BlockPop now q u q' Hp) as Hb. split_and!; [done| |done].
  unfold pop_due in Hp. destruct (top q) as [v|] eqn:Hv; [|done]. destruct (now <? _); [done|]. injection Hp as <- _.
  apply top_spec in Hv as [_ Hall]. by eapply Forall_forall in Hall.
Qed.

Lemma due_timer_popped_witness :
  ∃ u q', pop_due 9 [TRewrite 8 "f" []; TRewrite 3 "g" []] = Some (u, q') ∧ timer_expire u ≤ 8 ∧
          BlockPop 9 [TRewrite 8 "f" []; TRewrite 3 "g" []] u q'.
Proof. apply (due_timer_popped 9 _ (TRewrite 8 "f" [])); [by left|done]. Defined.

End Timers.
Export Timers.
