(* ===== verification/Loop.v ===== *)
(** * server/loop.cc, server/handler.cc and the rest of server/command.cc: the process

    [World] is the state of a running server: the databases, the clients, the queues of
    the handler and the files.  Each thread contributes small steps: [MainLoop::Run]
    accepts and announces clients, one io thread at a time reads a client and turns its
    requests into commands, [ExecCommand] executes them in order, [ExecTimer] the
    timers.  What the operating system decides (bytes received, clocks, random numbers,
    connections to other servers) is an argument. *)

From stdpp Require Import base gmap list strings fin_maps.
From Stdlib Require Import Ascii ZArith Lia.
From S2P Require Import Prelude CInt Util Object StrObj Containers ListObj HashObj SetObj ZSetObj.
From S2P Require Import Json Request Database Rdb Command Exec Client Timer.
Local Open Scope Z_scope.

Module Loop.

(** [clients] are the living [ClientInfo] objects, [client_map_] those the server still
    refers to.  [io_work] is what is left of the loop over the requests of one client:
    the io thread that runs it holds [cli_mtx_] and keeps the client alive.  [forked]
    records what FORK has sent. *)
Record World := mkWorld {
  conf : RedisConf;
  databases_ : list Db;
  registry : Registry;
  next_addr : nat;
  disk : files;
  tmr_que_ : TimerQue;
  aof_timer_ : AofTimer;
  clients : gmap nat ClientInfo;
  client_map_ : gset nat;
  next_client : nat;
  cli_que_ : list (nat * bool);
  io_work : list (nat * list Json);
  cmd_que_ : list (nat * Command);
  forked : list (string * Z * list bytes);
}.

(** The password and the compression switch are set once, by the constructor. *)
Definition GetPassword (w : World) : string := password_ (conf w).
Definition DefineCompress (w : World) : bool := negb (enable_aof_ (conf w)) && compress_ (conf w).

Definition with_databases (w : World) (dbs : list Db) : World :=
  mkWorld (conf w) dbs (registry w) (next_addr w) (disk w) (tmr_que_ w)
    (aof_timer_ w) (clients w) (client_map_ w) (next_client w) (cli_que_ w) (io_work w) (cmd_que_ w) (forked w).
Definition with_new_db (w : World) (db : Db) (r : Registry) : World :=
  mkWorld (conf w) (databases_ w ++ [db]) r (S (next_addr w)) (disk w) (tmr_que_ w)
    (aof_timer_ w) (clients w) (client_map_ w) (next_client w) (cli_que_ w) (io_work w) (cmd_que_ w) (forked w).
Definition with_loaded (w : World) (dbs : list Db) (r : Registry) (addr : nat) : World :=
  mkWorld (conf w) dbs r addr (disk w) (tmr_que_ w)
    (aof_timer_ w) (clients w) (client_map_ w) (next_client w) (cli_que_ w) (io_work w) (cmd_que_ w) (forked w).
Definition with_disk (w : World) (fs : files) : World :=
  mkWorld (conf w) (databases_ w) (registry w) (next_addr w) fs (tmr_que_ w)
    (aof_timer_ w) (clients w) (client_map_ w) (next_client w) (cli_que_ w) (io_work w) (cmd_que_ w) (forked w).
Definition with_timers (w : World) (q : TimerQue) : World :=
  mkWorld (conf w) (databases_ w) (registry w) (next_addr w) (disk w) q
    (aof_timer_ w) (clients w) (client_map_ w) (next_client w) (cli_que_ w) (io_work w) (cmd_que_ w) (forked w).
Definition with_aof_timer (w : World) (t : AofTimer) : World :=
  mkWorld (conf w) (databases_ w) (registry w) (next_addr w) (disk w) (tmr_que_ w)
    t (clients w) (client_map_ w) (next_client w) (cli_que_ w) (io_work w) (cmd_que_ w) (forked w).
Definition with_clients (w : World) (m : gmap nat ClientInfo) : World :=
  mkWorld (conf w) (databases_ w) (registry w) (next_addr w) (disk w) (tmr_que_ w)
    (aof_timer_ w) m (client_map_ w) (next_client w) (cli_que_ w) (io_work w) (cmd_que_ w) (forked w).
Definition with_accepted (w : World) (c : ClientInfo) : World :=
  mkWorld (conf w) (databases_ w) (registry w) (next_addr w) (disk w) (tmr_que_ w)
    (aof_timer_ w) (<[next_client w := c]> (clients w)) ({[next_client w]} ∪ client_map_ w) (S (next_client w)) (cli_que_ w) (io_work w) (cmd_que_ w) (forked w).
Definition with_registered (w : World) (m : gset nat) : World :=
  mkWorld (conf w) (databases_ w) (registry w) (next_addr w) (disk w) (tmr_que_ w)
    (aof_timer_ w) (clients w) m (next_client w) (cli_que_ w) (io_work w) (cmd_que_ w) (forked w).
Definition with_queues (w : World) (cli : list (nat * bool)) (io : list (nat * list Json)) (cmd : list (nat * Command)) : World :=
  mkWorld (conf w) (databases_ w) (registry w) (next_addr w) (disk w) (tmr_que_ w)
    (aof_timer_ w) (clients w) (client_map_ w) (next_client w) cli io cmd (forked w).
Definition with_forked (w : World) (out : string * Z * list bytes) : World :=
  mkWorld (conf w) (databases_ w) (registry w) (next_addr w) (disk w) (tmr_que_ w)
    (aof_timer_ w) (clients w) (client_map_ w) (next_client w) (cli_que_ w) (io_work w) (cmd_que_ w) (forked w ++ [out]).

(** [MainLoop::EncounterTimer], [Handler::Handle] of a timer. *)
Definition EncounterTimer (w : World) (t : Timer) : World := with_timers w (TimerQue_Push (tmr_que_ w) t).

(** ** Databases by address and by number *)

Definition find_db (addr : nat) (dbs : list Db) : option Db :=
  match filter (λ db, db_addr db = addr) dbs with db :: _ => Some db | [] => None end.

Definition update_db (db' : Db) (dbs : list Db) : list Db :=
  (λ db, if decide (db_addr db = db_addr db') then db' else db) <$> dbs.

(** What a [Db *] points to. *)
Definition deref_db (w : World) (p : option nat) : result Db :=
  match p with
  | Some addr => match find_db addr (databases_ w) with Some db => Ok db | None => Err Undefined end
  | None => Err Undefined
  end.

Definition store_db (w : World) (db : Db) : World := with_databases w (update_db db (databases_ w)).

Definition number_find (db_number : Z) (dbs : list Db) : option Db :=
  match filter (λ db, Number db = db_number) dbs with db :: _ => Some db | [] => None end.

(** [databases_.begin()->get()]. *)
Definition first_db (w : World) : result Db :=
  match databases_ w with db :: _ => Ok db | [] => Err Undefined end.

Definition GetDB (w : World) (db_number : Z) : result Db :=
  match number_find db_number (databases_ w) with Some db => Ok db | None => first_db w end.

Definition CreateDB (w : World) : result (World * Z) :=
  if 16 <=? Z.of_nat (length (databases_ w)) then Ok (w, -1)
  else
    '(db, r) ← Db_new (next_addr w) (registry w);
    Ok (with_new_db w db r, Number db).

(** [databases_.erase(it)] destroys the database. *)
Fixpoint erase_number (db_number : Z) (dbs : list Db) : option (list Db) :=
  match dbs with
  | [] => None
  | db :: dbs => if Number db =? db_number then Some dbs else (λ l, db :: l) <$> erase_number db_number dbs
  end.

Definition DropDB (w : World) (db_number : Z) : World * bool :=
  if (length (databases_ w) =? 1)%nat then (w, false)
  else
    match erase_number db_number (databases_ w) with
    | None => (w, false)
    | Some dbs =>
        (with_loaded w dbs (Db_destroy (registry w)) (next_addr w), true)
    end.

Definition ShowDB (w : World) : string :=
  fold_left (λ ret db, ret +:+ to_string (Number db) +:+ "|") (databases_ w) "".

Definition SuGetDB (w : World) (db_number : Z) : result (World * Db) :=
  match number_find db_number (databases_ w) with
  | Some db => Ok (w, db)
  | None =>
      '(new_db, r) ← Db_new_number (next_addr w) (registry w) db_number;
      Ok (with_new_db w new_db r, new_db)
  end.

(** ** Saving and logging *)

Section Process.
Context `{Compressor} `{HashOrder} `{CDouble}.

Definition DatabaseSave (w : World) : result (list bytes) :=
  mapM_result (Db_Save (DefineCompress w)) (databases_ w).

(** Every database hands out its cache and empties it. *)
Definition DatabaseAppend (w : World) : result (World * list bytes) :=
  r ← mapM_result (ExportAOF (GetPassword w)) (databases_ w);
  Ok (with_databases w r.*1, r.*2).

Definition DatabaseForkAll (w : World) : result bytes :=
  r ← mapM_result (Db_Fork (GetPassword w)) (databases_ w);
  Ok (concat (concat r)).

(** ** Timers *)

(** [database_->Del({obj_name_})]. *)
Definition DbExpireTimer_Exec (w : World) (t : DbExpireTimer) : result World :=
  db ← deref_db w (Some (tmr_database_ t));
  Ok (store_db w (Db_Del db (Str_new (tmr_obj_name_ t))).1).

Definition RdbTimer_Exec (now : Z) (w : World) (t : RdbTimer) : result World :=
  src ← DatabaseSave w;
  fs ← RDBSave src (disk w) (rdb_fm t);
  Ok (EncounterTimer (with_disk w fs) (TRdb (mkRdbTimer (to_size (now + rdb_after t)) (rdb_fm t) (rdb_after t)))).

Definition AofTimer_Exec (now : Z) (w : World) (t : AofTimer) : result World :=
  '(w, src) ← DatabaseAppend w;
  let w := with_disk w (AOFSave src (disk w) (aof_fm t)) in
  Ok (if every_sec_ t
      then EncounterTimer w (TAof (mkAofTimer (to_size (now + aof_after t)) (aof_fm t) (aof_after t) true))
      else w).

Definition DbRewriteTimer_Exec (w : World) (fm : string) (cache : bytes) : result World :=
  fs ← Truncate (disk w) fm;
  Ok (with_disk w (Write fs fm cache)).

Definition Timer_Exec (now : Z) (w : World) (t : Timer) : result World :=
  match t with
  | TExpire t => DbExpireTimer_Exec w t
  | TRewrite _ fm cache => DbRewriteTimer_Exec w fm cache
  | TRdb t => RdbTimer_Exec now w t
  | TAof t => AofTimer_Exec now w t
  end.

(** ** Start *)

Definition initial_world (c : RedisConf) (r : Registry) (fs : files) : World :=
  mkWorld c [] r 0 fs [] (mkAofTimer 0 "" 0 true) ∅ ∅ 0 [] [] [] [].

(** What the constructor does without the log: the saving timer, the databases of the
    file, a first database if there is none. *)
Definition start_rdb (now : Z) (w : World) (dbfile : bytes) : result World :=
  let c := conf w in
  _ ← (if save_n_times_ c =? 0 then Err Undefined else Ok tt);
  let after := to_size (every_n_sec_ c * 1000000) / save_n_times_ c in
  let w := EncounterTimer w (TRdb (mkRdbTimer (to_size (now + 1000000)) (file_name_ c) after)) in
  st ← RDBLoad (next_addr w) (registry w) dbfile;
  let w := with_timers w (tmr_que_ w ++ (TExpire <$> load_timers st)) in
  let w := with_loaded w (loaded st) (load_registry st) (load_addr st) in
  match databases_ w with
  | [] => '(db, r) ← Db_new (next_addr w) (registry w); Ok (with_new_db w db r)
  | _ => Ok w
  end.

(** The constructor of [MainLoop], on the files of the machine; the image it read is
    handed to [AOFLoad] when the log is enabled. *)
Definition MainLoop_start (now : Z) (c : RedisConf) (r : Registry) (fs : files) : result (World * bytes) :=
  let fs := FileManager_open fs (file_name_ c) in
  dbfile ← LoadAndExport fs (file_name_ c);
  fs ← Truncate fs (file_name_ c);
  let w := initial_world c r fs in
  w ← (if negb (enable_aof_ c) then start_rdb now w dbfile else Ok w);
  Ok (w, dbfile).

(** [AOFLoad]: the bytes it writes to the server's own port. *)
Definition AOFLoad (source : bytes) : result bytes :=
  '(rdb_str, source) ← PeekString source 3;
  Ok (if bool_decide (rdb_str = bytes_of "AOF") then source else []).

(** The timer of each mode of the log. *)
Definition aof_mode_timer (now : Z) (c : RedisConf) : AofTimer :=
  if String.eqb (aof_mode_ c) "every_sec" then mkAofTimer (to_size (now + 1000000)) (file_name_ c) 1000000 true
  else if String.eqb (aof_mode_ c) "always" then mkAofTimer (to_size (now + 1000)) (file_name_ c) 1000 true
  else mkAofTimer 0 (file_name_ c) 0 false.

(** [CheckAOFLoad], which [main] calls once after the constructor. *)
Definition CheckAOFLoad (now : Z) (w : World) : result (World * bool) :=
  if negb (enable_aof_ (conf w)) then Ok (w, false)
  else
    w ← (match databases_ w with
         | [] =>
             let w := with_disk w (Write (disk w) (file_name_ (conf w)) (bytes_of "AOF")) in
             '(db, r) ← Db_new (next_addr w) (registry w);
             Ok (with_new_db w db r)
         | _ => Ok w
         end);
    let t := aof_mode_timer now (conf w) in
    Ok (EncounterTimer (with_aof_timer w t) (TAof t), true).

(** [main]: a server that has come up. *)
Definition boot (now : Z) (c : RedisConf) (fs : files) : result World :=
  '(w, _) ← MainLoop_start now c Registry_start fs;
  '(w, _) ← CheckAOFLoad now w;
  Ok w.

(** ** Commands on databases, clients and the server *)

(** How the attempt of FORK to reach another server ends. *)
Inductive net_result := NoSocket | NoConnection | WriteError | Written.

(** What the machine supplies to a command: [UsTime()], [rand()] and the network. *)
Record Env := mkEnv {
  now : Z;
  rand : Z;
  net : net_result;
}.

(** A step of the process with the answer of a command. *)
Abbreviation world_step := (result (World * option answer)).

Definition DbCommand_Exec (e : Env) (w : World) (id : nat) (c : DbCommand) : world_step :=
  let b := dbc_base c in
  let cmd := command_ b in
  let key := Str_new (obj_name_ b) in
  if negb (valid_ b) then Ok (w, Some refused)
  else
    match clients w !! id with
    | None => Ok (w, None)
    | Some client =>
        if String.eqb cmd "DEL" then
          db ← deref_db w (database_ client);
          let '(db, n) := Db_Del db key in
          Ok (store_db w db, Some [to_string n])
        else if String.eqb cmd "EXPIRE" then
          value ← opt_value (dbc_value_ c);
          time_point_us ← RedisStrToSize value;
          match time_point_us with
          | None => Ok (w, Some refused)
          | Some t =>
              db ← deref_db w (database_ client);
              let '(db, tmr) := ExpireAt db key t in
              let w := store_db w db in
              Ok (match tmr with Some tmr => EncounterTimer w (TExpire tmr) | None => w end, Some ok_answer)
          end
        else if String.eqb cmd "WHEN" then
          db ← deref_db w (database_ client);
          Ok (w, Some [WhenExpire db (now e) key])
        else if String.eqb cmd "REWRITE" && enable_aof_ (conf w) then
          body ← DatabaseForkAll w;
          Ok (EncounterTimer w (TRewrite 0 (aof_fm (aof_timer_ w)) (bytes_of "AOF" ++ body)), Some ok_answer)
        else Ok (w, Some ok_answer)
    end.

(** [client->SetDB(db)] and the answer of SELECT. *)
Definition select_db (w : World) (id : nat) (client : ClientInfo) (db : Db) : World * option answer :=
  (with_clients w (<[id := SetDB client (db_addr db)]> (clients w)), Some ["Select: " +:+ to_string (Number db)]).

Definition CliCommand_Exec (w : World) (id : nat) (c : CliCommand) : world_step :=
  let b := cli_base c in
  let cmd := command_ b in
  if negb (valid_ b) then Ok (w, Some refused)
  else if String.eqb cmd "SELECT" then
    intval ← RedisStrToInt (obj_name_ b);
    match intval with
    | None => Ok (w, Some refused)
    | Some n =>
        match clients w !! id with
        | None => Ok (w, None)
        | Some client =>
            if bool_decide (pswd_ c = Some (GetPassword w))
            then '(w, db) ← SuGetDB w n; Ok (select_db w id client db)
            else db ← GetDB w n; Ok (select_db w id client db)
        end
    end
  else if String.eqb cmd "SHOW" then
    match clients w !! id with
    | None => Ok (w, None)
    | Some client => db ← deref_db w (database_ client); Ok (w, Some [to_string (Number db); ShowDB w])
    end
  else if String.eqb cmd "DROP" then
    intval ← RedisStrToInt (obj_name_ b);
    Ok (match intval with
        | None => (w, Some refused)
        | Some n => ((DropDB w n).1, Some ok_answer)
        end)
  else if String.eqb cmd "CREATE" then
    match clients w !! id with
    | None => Ok (w, None)
    | Some _ =>
        '(w, new_db_num) ← CreateDB w;
        Ok (w, Some (if new_db_num =? -1 then refused else [to_string new_db_num]))
    end
  else Ok (w, Some ok_answer).

(** The object of a client goes with the last reference to it. *)
Definition release (w : World) (id : nat) : World :=
  if bool_decide (id ∈ client_map_ w) || bool_decide (id ∈ (io_work w).*1) then w
  else with_clients w (delete id (clients w)).

(** [client->Logout()], [Server::RemoveCli]. *)
Definition Logout (w : World) (id : nat) : World :=
  release (with_registered w (client_map_ w ∖ {[id]})) id.

(** FORK reads [port_] before anything else; what it sends ends with a bare word. *)
Definition ServerCommand_Exec (e : Env) (w : World) (id : nat) (c : ServerCommand) : world_step :=
  let cmd := command_ (srv_base c) in
  match clients w !! id with
  | None => Ok (w, None)
  | Some client =>
      if String.eqb cmd "FORK" then
        match srv_port_ c with
        | None => Err Undefined
        | Some port =>
            match net e with
            | NoSocket => Ok (w, Some refused)
            | NoConnection => Ok (w, Some ["Connect faied: " +:+ srv_ip_ c +:+ ":" +:+ to_string port])
            | _ =>
                db ← deref_db w (database_ client);
                reqs ← Db_Fork (GetPassword w) db;
                match net e with
                | WriteError => Ok (w, Some ["Write Error"])
                | _ => Ok (with_forked w (srv_ip_ c, port, reqs ++ [bytes_of "ENDFORKING"]), Some ok_answer)
                end
            end
        end
      else if String.eqb cmd "ENDFORKING" then Ok (Logout w id, Some refused)
      else Ok (w, Some ok_answer)
  end.

(** The object commands work on the database of the client. *)
Definition on_object (e : Env) (w : World) (id : nat) (c : Command) : world_step :=
  if negb (valid_ (command_base c)) then Ok (w, Some refused)
  else
    match clients w !! id with
    | None => Ok (w, None)
    | Some client =>
        db ← deref_db w (database_ client);
        match object_Exec (rand e) c (Some db) with
        | Some r => '(db, ret) ← r; Ok (match db with Some db => store_db w db | None => w end, ret)
        | None => Ok (w, None)
        end
    end.

(** [cmd->Exec()]. *)
Definition Command_Exec (e : Env) (w : World) (id : nat) (c : Command) : world_step :=
  match c with
  | CServer c => ServerCommand_Exec e w id c
  | CCli c => CliCommand_Exec w id c
  | CDb c => DbCommand_Exec e w id c
  | _ => on_object e w id c
  end.

(** ** The steps of the threads *)

(** [Server::Wait] on the listening socket: [fd] comes from the kernel. *)
Definition Server_accept (w : World) (fd : Z) : World := with_accepted w (ClientInfo_new fd).

(** [MainLoop::Run] on an event of a client: [out] for EPOLLOUT. *)
Definition Run_event (w : World) (id : nat) (out : bool) : result World :=
  match (if bool_decide (id ∈ client_map_ w) then clients w !! id else None) with
  | None => Ok w
  | Some client =>
      w ← (match database_ client with
           | Some _ => Ok w
           | None => to_choose ← first_db w;
                     Ok (with_clients w (<[id := SetDB client (db_addr to_choose)]> (clients w)))
           end);
      Ok (with_queues w (cli_que_ w ++ [(id, out)]) (io_work w) (cmd_que_ w))
  end.

(** What the kernel does in one turn of the io thread, with the [errno] it leaves. *)
Record io_result := mkIo {
  io_recv : list recv_result;
  io_sent : Z;
  io_errno_eagain : bool;
  io_errno_epipe : bool;
}.

(** The body of the inner loop of [ioClient], up to the loop over the requests. *)
Definition io_turn (io : io_result) (w : World) : result World :=
  match cli_que_ w with
  | [] => Ok w
  | (id, out) :: que =>
      let w := with_queues w que (io_work w) (cmd_que_ w) in
      match clients w !! id with
      | None => Ok w
      | Some client =>
          if (out : bool) then
            let '(client, nwrite) := Send client (io_sent io) in
            let w := with_clients w (<[id := client]> (clients w)) in
            Ok (if (nwrite =? -1) && io_errno_epipe io then Logout w id else w)
          else
            '(client, nread) ← Read client (io_recv io);
            let w := with_clients w (<[id := client]> (clients w)) in
            if nread =? 0 then Ok (Logout w id)
            else if (nread =? -1) && io_errno_eagain io then Ok w
            else
              '(client, reqs) ← ExportMessages client;
              let w := with_clients w (<[id := client]> (clients w)) in
              Ok (with_queues w (cli_que_ w) (io_work w ++ ((λ req, (id, req)) <$> reqs)) (cmd_que_ w))
      end
  end.

(** With the log enabled, a request is first appended to the log of the database the
    client has selected; in the mode no each request also queues a timer that writes
    the log. *)
Definition log_request (w : World) (id : nat) (req : list Json) : result World :=
  if enable_aof_ (conf w) then
    match clients w !! id with
    | None => Ok w
    | Some client =>
        db ← deref_db w (database_ client);
        let w := store_db w (AppendAOF db req) in
        Ok (if String.eqb (aof_mode_ (conf w)) "no" then EncounterTimer w (TAof (aof_timer_ w)) else w)
    end
  else Ok w.

(** The body of the loop over the requests; the io thread keeps the client alive. *)
Definition io_request (w : World) : result World :=
  match io_work w with
  | [] => Ok w
  | (id, req) :: work =>
      w ← log_request (with_queues w (cli_que_ w) work (cmd_que_ w)) id req;
      cmd ← RequestToCommandExec req;
      Ok (release (match cmd with
                   | Some c => with_queues w (cli_que_ w) (io_work w) (cmd_que_ w ++ [(id, c)])
                   | None => w
                   end) id)
  end.

(** One turn of [ExecCommand]. *)
Definition exec_turn (e : Env) (w : World) : result World :=
  match cmd_que_ w with
  | [] => Ok w
  | (id, c) :: que =>
      '(w, respond) ← Command_Exec e (with_queues w (cli_que_ w) (io_work w) que) id c;
      Ok (match respond, clients w !! id with
          | Some ret, Some client => with_clients w (<[id := Append client ret]> (clients w))
          | _, _ => w
          end)
  end.

(** One turn of [ExecTimer], with the top the queue happens to have. *)
Definition timer_turn (now : Z) (w : World) : result World :=
  match pop_due now (tmr_que_ w) with
  | None => Ok w
  | Some (t, que) => Timer_Exec now (with_timers w que) t
  end.

(** What can happen next. *)
Inductive event :=
| EvAccept (fd : Z)
| EvReady (id : nat) (out : bool)
| EvIo (io : io_result)
| EvRequest
| EvCommand (e : Env)
| EvTimer (now : Z).

Definition handle (ev : event) (w : World) : result World :=
  match ev with
  | EvAccept fd => Ok (Server_accept w fd)
  | EvReady id out => Run_event w id out
  | EvIo io => match io_work w with [] => io_turn io w | _ => Ok w end
  | EvRequest => io_request w
  | EvCommand e => exec_turn e w
  | EvTimer now => timer_turn now w
  end.

(** The step relation: any due timer no other precedes may be taken. *)
Inductive step (w : World) : World → Prop :=
| step_accept fd : step w (Server_accept w fd)
| step_ready id out w' : Run_event w id out = Ok w' → step w w'
| step_io io w' : io_work w = [] → io_turn io w = Ok w' → step w w'
| step_request w' : io_request w = Ok w' → step w w'
| step_command e w' : exec_turn e w = Ok w' → step w w'
| step_timer now t que w' :
    BlockPop now (tmr_que_ w) t que → Timer_Exec now (with_timers w que) t = Ok w' → step w w'.

End Process.

End Loop.
Export Loop.
