(* ===== verification/LoopWf.v ===== *)
(** * The invariant of the running server

    Whatever the clients send and in whatever order the threads move, the databases are
    well formed and have distinct addresses, every pointer to a database is valid, and
    the file the timers write is there. *)

From stdpp Require Import base gmap list strings fin_maps sets.
From Stdlib Require Import Ascii ZArith Lia.
From S2P Require Import Prelude CInt Util Object StrObj Containers ListObj HashObj SetObj ZSetObj.
From S2P Require Import Json Request Database Rdb DecodeWf Command Exec ExecWf Client Timer Loop.
Local Open Scope Z_scope.

Module LoopWf.

Definition addrs (w : World) : list nat := db_addr <$> databases_ w.

(** The clients that events, requests and commands in flight refer to. *)
Definition announced (w : World) : list nat := (cli_que_ w).*1 ++ (io_work w).*1 ++ (cmd_que_ w).*1.

Definition timer_ok (dbs : list nat) (file : string) (t : Timer) : Prop :=
  match t with
  | TExpire t => tmr_database_ t ∈ dbs
  | TRewrite _ fm _ => fm = file
  | TRdb t => rdb_fm t = file
  | TAof t => aof_fm t = file
  end.

(** DROP is not among the words of a request. *)
Definition command_ok (c : Command) : Prop :=
  Forall Str_wf (command_values c) ∧ match c with CCli c => command_ (cli_base c) ≠ "DROP" | _ => True end.

Definition pointer_ok (dbs : list nat) (p : option nat) : Prop :=
  match p with Some a => a ∈ dbs | None => True end.

Record World_wf (w : World) : Prop := {
  wf_addrs : NoDup (addrs w);
  wf_addr_fresh : Forall (λ db, (db_addr db < next_addr w)%nat) (databases_ w);
  wf_dbs : Forall Db_wf (databases_ w);
  wf_some_db : databases_ w ≠ [];
  wf_selected : ∀ id c, clients w !! id = Some c → pointer_ok (addrs w) (database_ c);
  wf_client_ids : ∀ id, is_Some (clients w !! id) → (id < next_client w)%nat;
  wf_registered : ∀ id, id ∈ client_map_ w → is_Some (clients w !! id);
  wf_announced : ∀ id, id ∈ announced w →
    (id < next_client w)%nat ∧ ∀ c, clients w !! id = Some c → is_Some (database_ c);
  wf_held : ∀ id, id ∈ (io_work w).*1 → is_Some (clients w !! id);
  wf_commands : Forall (λ p, command_ok p.2) (cmd_que_ w);
  wf_timers : Forall (timer_ok (addrs w) (file_name_ (conf w))) (tmr_que_ w);
  wf_file : is_Some (disk w !! file_name_ (conf w));
  wf_aof : enable_aof_ (conf w) = true → aof_fm (aof_timer_ w) = file_name_ (conf w);
}.

(** ** Pointers *)

Lemma find_db_Some a dbs :
  a ∈ db_addr <$> dbs → ∃ db, find_db a dbs = Some db ∧ db_addr db = a ∧ db ∈ dbs.
Proof.
  intros (db & -> & Hdb)%list_elem_of_fmap. unfold find_db.
  destruct (filter _ dbs) as [|db' l] eqn:E.
  - exfalso. assert (db ∈ filter (λ d, db_addr d = db_addr db) dbs) as Hin by (by apply list_elem_of_filter).
    rewrite E in Hin. by apply not_elem_of_nil in Hin.
  - exists db'. assert (db' ∈ filter (λ d, db_addr d = db_addr db) dbs) as Hin by (rewrite E; left).
    by apply list_elem_of_filter in Hin as [? ?].
Qed.

Lemma deref_db_ok w a :
  World_wf w → a ∈ addrs w → ∃ db, deref_db w (Some a) = Ok db ∧ db_addr db = a ∧ Db_wf db.
Proof.
  intros Hwf Ha. destruct (find_db_Some a (databases_ w) Ha) as (db & Hf & Hd & Hin).
  exists db. unfold deref_db. rewrite Hf. split_and!; [done..|]. pose proof (wf_dbs w Hwf) as Hall.
  by eapply Forall_forall in Hall.
Qed.

Lemma deref_db_Ok w p db :
  World_wf w → deref_db w p = Ok db → db_addr db ∈ addrs w ∧ Db_wf db.
Proof.
  intros Hwf. unfold deref_db. destruct p as [a|]; [|done]. unfold find_db.
  destruct (filter _ _) as [|db' l] eqn:E; [done|]. intros [= <-].
  assert (db' ∈ filter (λ d, db_addr d = a) (databases_ w)) as Hin by (rewrite E; left).
  apply list_elem_of_filter in Hin as [_ Hin]. split; [by apply list_elem_of_fmap_2|].
  pose proof (wf_dbs w Hwf) as Hall. by eapply Forall_forall in Hall.
Qed.

Lemma update_db_addrs db dbs : db_addr <$> update_db db dbs = db_addr <$> dbs.
Proof.
  unfold update_db. rewrite <-list_fmap_compose. apply list_fmap_ext. intros i x _. simpl.
  by case_decide.
Qed.

Lemma find_update_db db db0 dbs : find_db (db_addr db) dbs = Some db0 → find_db (db_addr db) (update_db db dbs) = Some db.
Proof.
  unfold find_db, update_db. induction dbs as [|x dbs IH]; [done|]. rewrite fmap_cons, !filter_cons.
  destruct (decide (db_addr x = db_addr db)) as [E|E].
  - intros _. by rewrite decide_True by done.
  - intros Hx. rewrite decide_False by done. by apply IH.
Qed.

(** ** What each kind of change keeps *)

Lemma with_databases_wf w dbs :
  World_wf w → db_addr <$> dbs = addrs w → Forall Db_wf dbs → World_wf (with_databases w dbs).
Proof.
  intros [] Ha Hd. assert (addrs (with_databases w dbs) = addrs w) as Hs by done.
  split; rewrite ?Hs; try done; cbn [with_databases databases_ next_addr].
  - assert (Forall (λ a, (a < next_addr w)%nat) (db_addr <$> dbs)) as Hf%Forall_fmap; [|done].
    rewrite Ha. by apply Forall_fmap.
  - intros ->. unfold addrs in Ha. by destruct (databases_ w).
Qed.

Lemma store_db_wf w db :
  World_wf w → Db_wf db → World_wf (store_db w db).
Proof.
  intros Hwf Hdb. apply with_databases_wf; [done|apply update_db_addrs|].
  unfold update_db. apply Forall_fmap. eapply Forall_impl; [apply (wf_dbs w Hwf)|].
  intros x Hx. simpl. by case_decide.
Qed.

Lemma timer_ok_more l l' file t : timer_ok l file t → timer_ok (l ++ l') file t.
Proof. destruct t; simpl; set_solver. Qed.

Lemma with_new_db_wf w db r :
  World_wf w → db_addr db = next_addr w → Db_wf db → World_wf (with_new_db w db r).
Proof.
  intros [] Ha Hd. assert (addrs (with_new_db w db r) = addrs w ++ [next_addr w]) as Hs.
  { unfold addrs. simpl. by rewrite fmap_app, <-Ha. }
  split; rewrite ?Hs; try done; cbn [with_new_db databases_ next_addr].
  - apply NoDup_app. split_and!; [done| |apply NoDup_singleton].
    intros a (x & -> & Hx)%list_elem_of_fmap Hn. apply list_elem_of_singleton in Hn.
    eapply Forall_forall in wf_addr_fresh0; [|done]. simpl in *. lia.
  - apply Forall_app. split; [|apply Forall_singleton; lia].
    eapply Forall_impl; [exact wf_addr_fresh0|]. intros x Hx. simpl in *. lia.
  - apply Forall_app. split; [done|by constructor].
  - by destruct (databases_ w).
  - intros id c Hc. specialize (wf_selected0 id c Hc). unfold pointer_ok in *. destruct (database_ c); [|done]. set_solver.
  - eapply Forall_impl; [done|]. intros t. apply timer_ok_more.
Qed.

Lemma with_disk_wf w fs : World_wf w → is_Some (fs !! file_name_ (conf w)) → World_wf (with_disk w fs).
Proof. intros [] Hfs. by split. Qed.

Lemma with_timers_wf w q :
  World_wf w → Forall (timer_ok (addrs w) (file_name_ (conf w))) q → World_wf (with_timers w q).
Proof. intros [] Hq. by split. Qed.

Lemma EncounterTimer_wf w t :
  World_wf w → timer_ok (addrs w) (file_name_ (conf w)) t → World_wf (EncounterTimer w t).
Proof.
  intros Hwf Ht. apply with_timers_wf; [done|]. unfold TimerQue_Push. apply Forall_app.
  split; [apply (wf_timers w Hwf)|by constructor].
Qed.

Lemma with_forked_wf w out : World_wf w → World_wf (with_forked w out).
Proof. intros []. by split. Qed.

(** A client is updated in place and does not lose its database. *)
Lemma put_client_wf w id c c' :
  World_wf w → clients w !! id = Some c → pointer_ok (addrs w) (database_ c') →
  (is_Some (database_ c) → is_Some (database_ c')) →
  World_wf (with_clients w (<[id := c']> (clients w))).
Proof.
  intros [] Hc Hp Hs. split; try done; cbn [with_clients clients next_client].
  - intros i x. rewrite lookup_insert. case_decide; naive_solver.
  - intros i. rewrite lookup_insert. case_decide as E; [|apply wf_client_ids0].
    intros _. subst i. by apply wf_client_ids0; eexists.
  - intros i Hi. rewrite lookup_insert. case_decide; [by eexists|by apply wf_registered0].
  - intros i Hi. destruct (wf_announced0 i Hi) as [Hl Hd]. split; [done|]. intros x.
    rewrite lookup_insert. case_decide; naive_solver.
  - intros i Hi. rewrite lookup_insert. case_decide; [by eexists|by apply wf_held0].
Qed.

(** Same database, other buffers. *)
Lemma put_buffers_wf w id c c' :
  World_wf w → clients w !! id = Some c → database_ c' = database_ c →
  World_wf (with_clients w (<[id := c']> (clients w))).
Proof.
  intros Hwf Hc Hd. eapply put_client_wf; [done|done| |by rewrite Hd]. rewrite Hd. by eapply wf_selected.
Qed.

Lemma release_wf w id : World_wf w → World_wf (release w id).
Proof.
  intros Hw. unfold release. destruct (bool_decide_reflect (id ∈ client_map_ w)) as [|Hr]; [done|].
  destruct (bool_decide_reflect (id ∈ (io_work w).*1)) as [|Hh]; [done|]. simpl. destruct Hw.
  split; try done; cbn [with_clients clients next_client].
  - intros i c [_ Hc]%lookup_delete_Some. eauto.
  - intros i [c [_ Hc]%lookup_delete_Some]. eauto.
  - intros i Hi. rewrite lookup_delete_ne by (intros ->; done). eauto.
  - intros i Hi. destruct (wf_announced0 i Hi). split; [done|]. intros c [_ Hc]%lookup_delete_Some. eauto.
  - intros i Hi. rewrite lookup_delete_ne by (intros ->; done). eauto.
Qed.

Lemma Logout_wf w id : World_wf w → World_wf (Logout w id).
Proof.
  intros []. apply release_wf. split; try done. cbn [with_registered client_map_ clients]. set_solver.
Qed.

Lemma with_queues_wf w cli io cmd :
  World_wf w →
  (∀ id, id ∈ cli.*1 ++ io.*1 ++ cmd.*1 →
     (id < next_client w)%nat ∧ ∀ c, clients w !! id = Some c → is_Some (database_ c)) →
  (∀ id, id ∈ io.*1 → is_Some (clients w !! id)) → Forall (λ p, command_ok p.2) cmd →
  World_wf (with_queues w cli io cmd).
Proof. intros [] Ha Hh Hc. by split. Qed.

(** ** Files *)

Lemma Write_file fs f b g : is_Some (fs !! g) → is_Some (Write fs f b !! g).
Proof. intros Hg. unfold Write. rewrite lookup_insert. case_decide; [by eexists|done]. Qed.

Lemma Truncate_file fs f fs' g : Truncate fs f = Ok fs' → is_Some (fs !! g) → is_Some (fs' !! g).
Proof.
  unfold Truncate. destruct (fs !! f); [|done]. intros [= <-] Hg. rewrite lookup_insert. case_decide; [by eexists|done].
Qed.

Lemma AOFSave_file l fs f g : is_Some (fs !! g) → is_Some (AOFSave l fs f !! g).
Proof.
  unfold AOFSave. revert fs. induction l as [|b l IH]; intros fs Hg; simpl; [done|]. by apply IH, Write_file.
Qed.

Lemma RDBSave_file l fs f fs' g : RDBSave l fs f = Ok fs' → is_Some (fs !! g) → is_Some (fs' !! g).
Proof.
  unfold RDBSave. intros Hx Hg. inv_exec. apply (AOFSave_file l), Write_file. by eapply Truncate_file.
Qed.

(** ** Steps *)

Section Steps.
Context `{Compressor} `{HashOrder} `{CDouble}.

Lemma CreateDB_wf w w' n : World_wf w → CreateDB w = Ok (w', n) → World_wf w'.
Proof.
  intros Hwf. unfold CreateDB. intros Hx. inv_exec; [done|].
  match goal with E : Db_new _ _ = _ |- _ => apply Db_new_addr in E as [??] end. by apply with_new_db_wf.
Qed.

(** Selecting finds a database of the server, perhaps a new one. *)
Lemma SuGetDB_wf w n w' db :
  World_wf w → SuGetDB w n = Ok (w', db) → World_wf w' ∧ db_addr db ∈ addrs w' ∧ clients w' = clients w.
Proof.
  intros Hwf. unfold SuGetDB, number_find.
  destruct (filter _ _) as [|db' l] eqn:E.
  - unfold Db_new_number. intros Hx. inv_exec. split_and!; [|unfold addrs; simpl; rewrite fmap_app; set_solver|done].
    apply with_new_db_wf; [done..|split; constructor].
  - intros [= <- <-]. split_and!; [done| |done].
    assert (db' ∈ filter (λ d, Number d = n) (databases_ w)) as [_ Hin]%list_elem_of_filter by (rewrite E; left).
    by apply list_elem_of_fmap_2.
Qed.

Lemma GetDB_addr w n db : GetDB w n = Ok db → db_addr db ∈ addrs w.
Proof.
  unfold GetDB, first_db, number_find. destruct (filter _ _) as [|db' l] eqn:E.
  - unfold addrs. destruct (databases_ w) as [|d dbs]; [done|]. intros [= <-]. set_solver.
  - intros [= <-].
    assert (db' ∈ filter (λ d, Number d = n) (databases_ w)) as [_ Hin]%list_elem_of_filter by (rewrite E; left).
    by apply list_elem_of_fmap_2.
Qed.

Lemma ExportAOF_keeps pw db db' b : ExportAOF pw db = Ok (db', b) → db_addr db' = db_addr db ∧ (Db_wf db → Db_wf db').
Proof.
  unfold ExportAOF. intros Hx. inv_bind. destruct (aof_cache_ db); simplify_eq; [done|]. split; [done|].
  intros []. by split.
Qed.

Lemma DatabaseAppend_wf w w' src : World_wf w → DatabaseAppend w = Ok (w', src) → World_wf w' ∧ conf w' = conf w ∧ disk w' = disk w.
Proof.
  intros Hwf. unfold DatabaseAppend. intros Hx. inv_exec. split_and!; [|done..].
  match goal with E : mapM_result _ _ = _ |- _ => apply mapM_result_Forall2 in E; rename E into Hf end.
  apply with_databases_wf; [done| |].
  - unfold addrs. induction Hf as [|db [db' b] dbs r Hx Hf IH]; [done|]. simpl.
    apply ExportAOF_keeps in Hx as [-> _]. by f_equal.
  - pose proof (wf_dbs w Hwf) as Hall. induction Hf as [|db [db' b] dbs r Hx Hf IH]; [constructor|].
    inversion Hall; subst. apply ExportAOF_keeps in Hx as [_ Hk]. constructor; [by apply Hk|by apply IH].
Qed.

Lemma Timer_Exec_wf now w t w' :
  World_wf w → timer_ok (addrs w) (file_name_ (conf w)) t → Timer_Exec now w t = Ok w' → World_wf w'.
Proof.
  intros Hwf Ht. destruct t as [t|e fm cache|t|t]; cbn [Timer_Exec].
  - unfold DbExpireTimer_Exec. intros Hx. inv_exec.
    match goal with E : deref_db _ _ = _ |- _ => apply deref_db_Ok in E as [_ Hd]; [|done] end.
    by apply store_db_wf, Db_Del_wf.
  - unfold DbRewriteTimer_Exec. intros Hx. inv_exec. apply with_disk_wf; [done|].
    eapply Write_file, Truncate_file; [done|apply (wf_file w Hwf)].
  - unfold RdbTimer_Exec. intros Hx. inv_exec. apply EncounterTimer_wf; [|done].
    apply with_disk_wf; [done|]. eapply RDBSave_file; [done|apply (wf_file w Hwf)].
  - unfold AofTimer_Exec. intros Hx. inv_exec.
    match goal with E : DatabaseAppend _ = _ |- _ => apply DatabaseAppend_wf in E as (Hw & Hc & Hd); [|done] end.
    assert (∀ fs, is_Some (fs !! file_name_ (conf w0)) → World_wf (with_disk w0 fs)) as Hdisk by (intros; by apply with_disk_wf).
    destruct (every_sec_ t); [apply EncounterTimer_wf; [|by rewrite <-Hc in Ht]|].
    all: apply Hdisk; apply AOFSave_file, (wf_file w0 Hw).
Qed.

(** A command never leaves a client without a database. *)
Lemma select_db_wf w id c db :
  World_wf w → clients w !! id = Some c → db_addr db ∈ addrs w → World_wf (select_db w id c db).1.
Proof. intros Hwf Hc Hd. by eapply put_client_wf. Qed.

Lemma CliCommand_Exec_wf w id c w' a :
  World_wf w → command_ (cli_base c) ≠ "DROP" → CliCommand_Exec w id c = Ok (w', a) → World_wf w'.
Proof.
  intros Hwf Hd. unfold CliCommand_Exec, select_db. intros Hx.
  inv_exec; try done; try (by eapply CreateDB_wf).
  - match goal with E : SuGetDB _ _ = _ |- _ => apply SuGetDB_wf in E as (Hw & Ha & Hc); [|done] end.
    rewrite <-Hc in *. by eapply select_db_wf.
  - match goal with E : GetDB _ _ = _ |- _ => apply GetDB_addr in E end. by eapply select_db_wf.
  - match goal with E : String.eqb _ "DROP" = true |- _ => by apply String.eqb_eq in E end.
Qed.

Lemma DbCommand_Exec_wf e w id c w' a : World_wf w → DbCommand_Exec e w id c = Ok (w', a) → World_wf w'.
Proof.
  intros Hwf. unfold DbCommand_Exec. intros Hx. inv_exec; try done.
  all: try match goal with E : deref_db _ _ = _ |- _ => apply deref_db_Ok in E as [Hin Hdb]; [|done] end.
  - match goal with E : Db_Del _ _ = (?d, _) |- _ => rewrite <-(f_equal fst E : _ = d) end. by apply store_db_wf, Db_Del_wf.
  - match goal with E : ExpireAt ?db ?k ?t = (?d, ?o) |- _ =>
      pose proof (ExpireAt_wf db k t Hdb) as Hw; rewrite E in Hw; simpl in Hw; rename E into Hex end.
    pose proof (store_db_wf w d Hwf Hw) as Hw'. destruct o as [tmr|]; [|done]. apply EncounterTimer_wf; [done|].
    unfold addrs, store_db. cbn [with_databases databases_]. rewrite update_db_addrs. simpl.
    unfold ExpireAt in Hex. destruct (tbl_find _ _ _); [|done]. injection Hex as _ <-. exact Hin.
  - apply EncounterTimer_wf; [done|]. simpl. apply (wf_aof w Hwf).
    match goal with E : (_ && _) = true |- _ => by apply andb_true_iff in E as [_ E] end.
Qed.

Lemma ServerCommand_Exec_wf e w id c w' a : World_wf w → ServerCommand_Exec e w id c = Ok (w', a) → World_wf w'.
Proof.
  intros Hwf. unfold ServerCommand_Exec. intros Hx. destruct (net e); inv_exec; try done; try (by apply Logout_wf).
  by apply with_forked_wf.
Qed.

Lemma on_object_wf e w id c w' a :
  World_wf w → Forall Str_wf (command_values c) → on_object e w id c = Ok (w', a) → World_wf w'.
Proof.
  intros Hwf Hv. unfold on_object. intros Hx.
  destruct (negb _); [by inv_exec|]. destruct (clients w !! id) as [cl|]; [|by inv_exec].
  apply bind_Ok in Hx as (db & Hdb & Hx). apply deref_db_Ok in Hdb as [_ Hdb]; [|done].
  destruct (object_Exec (rand e) c (Some db)) as [[[[db'|] ret]|]|] eqn:E; simpl in Hx; simplify_eq; try done.
  eapply object_Exec_keeps in E as [Hdb' _]; [|done..]. by apply store_db_wf.
Qed.

Lemma Command_Exec_wf e w id c w' a :
  World_wf w → command_ok c → Command_Exec e w id c = Ok (w', a) → World_wf w'.
Proof.
  intros Hwf [Hv Hd]. destruct c; cbn [Command_Exec].
  all: eauto using ServerCommand_Exec_wf, CliCommand_Exec_wf, DbCommand_Exec_wf, on_object_wf.
Qed.

(** *** The turns of the threads *)

Lemma Server_accept_wf w fd : World_wf w → World_wf (Server_accept w fd).
Proof.
  intros []. assert (clients w !! next_client w = None) as Hn.
  { destruct (clients w !! next_client w) eqn:E; [|done].
    specialize (wf_client_ids0 (next_client w) (ex_intro _ _ E)). lia. }
  split; try done; cbn [Server_accept with_accepted clients client_map_ next_client].
  - intros i c. rewrite lookup_insert. case_decide; [intros [= <-]; done|apply wf_selected0].
  - intros i. rewrite lookup_insert. case_decide; [lia|]. intros Hi%wf_client_ids0. lia.
  - intros i Hi. rewrite lookup_insert. case_decide; [by eexists|]. apply wf_registered0. set_solver.
  - intros i Hi. destruct (wf_announced0 i Hi) as [Hl Hd]. split; [lia|]. intros c.
    rewrite lookup_insert. case_decide; [lia|apply Hd].
  - intros i Hi. rewrite lookup_insert. case_decide; [by eexists|by apply wf_held0].
Qed.

(** Events, requests and commands of one client join the queues. *)
Lemma enqueue_wf w cli io cmd id :
  World_wf w → (∀ i, i ∈ cli.*1 ++ io.*1 ++ cmd.*1 → i ∈ announced w ∨ i = id) →
  (id ∈ announced w ∨ ∃ c, clients w !! id = Some c ∧ is_Some (database_ c)) →
  (∀ i, i ∈ io.*1 → i ∈ (io_work w).*1 ∨ is_Some (clients w !! i)) → Forall (λ p, command_ok p.2) cmd →
  World_wf (with_queues w cli io cmd).
Proof.
  intros Hwf Hin Hid Hio Hcmd. apply with_queues_wf; [done| | |done].
  - intros i Hi. destruct (Hin i Hi) as [Ha| ->]; [by apply wf_announced|].
    destruct Hid as [Ha|(c & Hc & Hd)]; [by apply wf_announced|]. split; [apply wf_client_ids; [done|by eexists]|].
    intros c' Hc'. by simplify_eq.
  - intros i Hi. destruct (Hio i Hi); [by apply wf_held|done].
Qed.

Lemma Run_event_wf w id out w' : World_wf w → Run_event w id out = Ok w' → World_wf w'.
Proof.
  intros Hwf. unfold Run_event. case_bool_decide; [|by intros; simplify_eq].
  destruct (clients w !! id) as [c|] eqn:Hc; [|by intros; simplify_eq]. intros Hx.
  apply bind_Ok in Hx as (w1 & Hw1 & Hx). injection Hx as <-.
  assert (World_wf w1 ∧ (∃ c, clients w1 !! id = Some c ∧ is_Some (database_ c)) ∧
          cli_que_ w1 = cli_que_ w ∧ io_work w1 = io_work w ∧ cmd_que_ w1 = cmd_que_ w) as (Hw & Hd & Hq1 & Hq2 & Hq3).
  { destruct (database_ c) eqn:Hd; [injection Hw1 as <-; split_and!; try done; exists c; rewrite Hd; eauto|].
    apply bind_Ok in Hw1 as (db & Hf & Hw1). injection Hw1 as <-. split_and!; try done.
    - eapply put_client_wf; [done|done| |eauto]. simpl. unfold first_db in Hf. unfold addrs.
      destruct (databases_ w); [done|]. injection Hf as ->. set_solver.
    - exists (SetDB c (db_addr db)). cbn [with_clients clients]. rewrite lookup_insert_eq. eauto. }
  apply (enqueue_wf w1 _ _ _ id); [done| |by right| |apply (wf_commands w1 Hw)].
  - unfold announced. rewrite Hq1, Hq2, Hq3, fmap_app. set_solver.
  - intros i Hi. by left.
Qed.

(** The queues of a world without the event the io thread has taken. *)
Lemma take_event_wf w ev que :
  World_wf w → cli_que_ w = ev :: que → World_wf (with_queues w que (io_work w) (cmd_que_ w)).
Proof.
  intros Hwf Hq. apply (enqueue_wf w _ _ _ ev.1); [done| | | |apply (wf_commands w Hwf)].
  all: unfold announced; rewrite ?Hq; set_solver.
Qed.

Lemma Read_database rs c total c' n : Read_loop total c rs = Ok (c', n) → database_ c' = database_ c.
Proof.
  revert total c. induction rs as [|[b|] rs IH]; intros total c; cbn [Read_loop]; intros Hx; inv_exec; try done.
  match goal with E : Read_loop _ _ _ = _ |- _ => by apply IH in E end.
Qed.

Lemma ExportMessages_database c c' reqs : ExportMessages c = Ok (c', reqs) → database_ c' = database_ c.
Proof. unfold ExportMessages. intros Hx. by inv_exec. Qed.

Lemma io_turn_wf io w w' : World_wf w → io_turn io w = Ok w' → World_wf w'.
Proof.
  intros Hwf. unfold io_turn. destruct (cli_que_ w) as [|[id out] que] eqn:Hq; [by intros; simplify_eq|].
  pose proof (take_event_wf w _ _ Hwf Hq) as Hw1.
  assert (∀ c, clients w !! id = Some c → is_Some (database_ c)) as Hdb.
  { apply (wf_announced w Hwf). unfold announced. rewrite Hq. set_solver. }
  set (w1 := with_queues w que (io_work w) (cmd_que_ w)) in *. cbv zeta.
  destruct (clients w1 !! id) as [c|] eqn:Hc; [|by intros; simplify_eq].
  destruct out.
  - destruct (Send c (io_sent io)) as [c' n] eqn:Hs. intros [= <-].
    assert (World_wf (with_clients w1 (<[id := c']> (clients w1)))) as Hw2.
    { eapply put_buffers_wf; [done..|]. unfold Send in Hs. destruct (send_buffer_ c); [by simplify_eq|].
      destruct (_ || _); by simplify_eq. }
    destruct (_ && _); [by apply Logout_wf|done].
  - intros Hx. apply bind_Ok in Hx as ([c1 n] & Hr & Hx). apply Read_database in Hr as Hrd.
    assert (World_wf (with_clients w1 (<[id := c1]> (clients w1)))) as Hw2 by (by eapply put_buffers_wf).
    destruct (n =? 0); [injection Hx as <-; by apply Logout_wf|]. destruct (_ && _); [by injection Hx as <-|].
    apply bind_Ok in Hx as ([c2 reqs] & He & Hx). injection Hx as <-. apply ExportMessages_database in He as Hed.
    set (w2 := with_clients w1 (<[id := c1]> (clients w1))) in *.
    assert (World_wf (with_clients w2 (<[id := c2]> (clients w2)))) as Hw3.
    { eapply (put_buffers_wf w2 id c1); [done| |done]. unfold w2. cbn [with_clients clients]. by rewrite lookup_insert_eq. }
    set (w3 := with_clients w2 (<[id := c2]> (clients w2))) in *.
    assert (clients w3 !! id = Some c2) as Hc2 by (unfold w3; cbn [with_clients clients]; by rewrite lookup_insert_eq).
    assert (is_Some (database_ c2)) as Hd2 by (rewrite Hed, Hrd; by apply Hdb).
    apply (enqueue_wf w3 _ _ _ id); [done| |right; eauto| |apply (wf_commands w3 Hw3)].
    all: rewrite fmap_app, <-list_fmap_compose; cbn [compose fst].
    + unfold announced. set_solver.
    + intros i. rewrite elem_of_app. intros [Hi|Hi]; [by left|]. right.
      apply list_elem_of_fmap in Hi as (? & -> & _). by eexists.
Qed.

(** What [RequestToCommandExec] can produce. *)
Lemma RequestToCommandExec_ok req c : RequestToCommandExec req = Ok (Some c) → command_ok c.
Proof.
  intros Hc. split; [by eapply RequestToCommandExec_values|]. unfold RequestToCommandExec in Hc.
  destruct req as [|e0 rest]; [done|]. apply bind_Ok in Hc as (a & Ha & Hc).
  assert (∀ c, a ≠ Some (CCli c)) as Hna.
  { intros c' ->. destruct (isServerCommand _); inv_bind; by simplify_eq. }
  destruct c as [|c| | | | | |]; try done. injection Hc as Hc.
  assert (isCliCommand (string_toupper (string_value e0)) = true ∧
          c = JsonToCliCommand (JString (string_toupper (string_value e0)) :: rest)) as [Hcli ->].
  { destruct (isZSetCommand _); [done|]. destruct (isSetCommand _); [done|]. destruct (isHashCommand _); [done|].
    destruct (isListCommand _); [done|]. destruct (isStrCommand _); [done|]. destruct (isDbCommand _); [done|].
    destruct (isCliCommand _); [by injection Hc as <-|]. by destruct (Hna c). }
  assert (command_ (cli_base (JsonToCliCommand (JString (string_toupper (string_value e0)) :: rest)))
          = string_toupper (string_value e0)) as ->.
  { unfold JsonToCliCommand. cbn [string_value]. by destruct (is_one_of _ _); [|destruct rest]. }
  intros E. by rewrite E in Hcli.
Qed.

Lemma log_request_wf w id req :
  World_wf w → (∀ c, clients w !! id = Some c → is_Some (database_ c)) →
  ∃ w', log_request w id req = Ok w' ∧ World_wf w' ∧ clients w' = clients w ∧ next_client w' = next_client w ∧
        cli_que_ w' = cli_que_ w ∧ io_work w' = io_work w ∧ cmd_que_ w' = cmd_que_ w.
Proof.
  intros Hwf Hd. unfold log_request. destruct (enable_aof_ (conf w)) eqn:Haof; [|by exists w].
  destruct (clients w !! id) as [c|] eqn:Hc; [|by exists w]. destruct (Hd c eq_refl) as [a Ha].
  pose proof (wf_selected w Hwf id c Hc) as Hp. rewrite Ha in *. destruct (deref_db_ok w a Hwf Hp) as (db & Hdb & _ & Hdw).
  rewrite Hdb. cbn [mbind result_bind]. eexists. split; [done|].
  assert (World_wf (store_db w (AppendAOF db req))) as Hs by (apply store_db_wf; [done|by destruct Hdw]).
  destruct (String.eqb _ _); [|done]. split_and!; try done. apply EncounterTimer_wf; [done|]. by apply (wf_aof w).
Qed.

(** A world without the request the io thread has taken. *)
Lemma take_request_wf w id req work :
  World_wf w → io_work w = (id, req) :: work →
  World_wf (with_queues w (cli_que_ w) work (cmd_que_ w)) ∧ (id < next_client w)%nat ∧
  ∀ c, clients w !! id = Some c → is_Some (database_ c).
Proof.
  intros Hwf Hq. assert (id ∈ announced w) as Hid by (unfold announced; rewrite Hq; set_solver).
  split; [|by apply wf_announced].
  apply (enqueue_wf w _ _ _ id); [done| | | |apply (wf_commands w Hwf)].
  all: unfold announced; rewrite Hq; set_solver.
Qed.

Lemma io_request_wf w w' : World_wf w → io_request w = Ok w' → World_wf w'.
Proof.
  intros Hwf. unfold io_request. destruct (io_work w) as [|[id req] work] eqn:Hq; [by intros; simplify_eq|].
  destruct (take_request_wf w id req work Hwf Hq) as (Hw1 & Hlt & Hdb).
  destruct (log_request_wf _ id req Hw1 Hdb) as (w2 & -> & Hwf2 & Hc & Hn & Hq1 & Hq2 & Hq3).
  cbn [mbind result_bind with_queues clients next_client cli_que_ io_work cmd_que_] in *. intros Hx.
  apply bind_Ok in Hx as (cmd & Hcmd & Hx). injection Hx as <-. apply release_wf. destruct cmd as [c|]; [|done].
  apply with_queues_wf; [done| | |].
  - intros i Hi. rewrite Hn, Hc.
    assert (i ∈ announced w2 ∨ i = id) as [Ha|Hi']; [| |subst i; by split].
    { unfold announced. rewrite !fmap_app in Hi. set_solver. }
    rewrite <-Hn, <-Hc. by apply wf_announced.
  - intros i Hi. by apply wf_held.
  - apply Forall_app. split; [apply (wf_commands w2 Hwf2)|]. apply Forall_singleton. by eapply RequestToCommandExec_ok.
Qed.

Lemma exec_turn_wf e w w' : World_wf w → exec_turn e w = Ok w' → World_wf w'.
Proof.
  intros Hwf. unfold exec_turn. destruct (cmd_que_ w) as [|[id c] que] eqn:Hq; [by intros; simplify_eq|].
  pose proof (wf_commands w Hwf) as Hcmd. rewrite Hq in Hcmd. inversion Hcmd as [|?? Hc Hrest]; subst.
  assert (World_wf (with_queues w (cli_que_ w) (io_work w) que)) as Hw1.
  { apply (enqueue_wf w _ _ _ id); [done| | | |done]. all: unfold announced; rewrite ?Hq; set_solver. }
  intros Hx. apply bind_Ok in Hx as ([w2 respond] & Hx & Hr). injection Hr as <-.
  eapply Command_Exec_wf in Hx; [|done..]. destruct respond as [ret|]; [|done].
  destruct (clients w2 !! id) as [cl|] eqn:Hcl; [|done]. by eapply put_buffers_wf.
Qed.

Lemma BlockPop_perm now q t q' : BlockPop now q t q' → q ≡ₚ t :: q' ∧ Forall (λ x, timer_expire t ≤ timer_expire x) q' ∧ timer_expire t ≤ now.
Proof.
  intros [q1 u q2 Hall Hd]. split_and!; [by rewrite Permutation_middle| |by apply Z.ltb_ge].
  eapply Forall_impl; [exact Hall|]. intros x Hx. unfold TimerGreater in Hx. by apply Z.ltb_ge.
Qed.

Lemma timer_pop_wf now w t que w' :
  World_wf w → BlockPop now (tmr_que_ w) t que → Timer_Exec now (with_timers w que) t = Ok w' → World_wf w'.
Proof.
  intros Hwf Hp Hx. apply BlockPop_perm in Hp as (Hp & _). pose proof (wf_timers w Hwf) as Ht.
  rewrite Hp in Ht. inversion Ht as [|?? Ht1 Ht2]; subst. apply (Timer_Exec_wf now (with_timers w que) t); [by apply with_timers_wf|exact Ht1|exact Hx].
Qed.

(** Every step keeps the invariant. *)
Lemma step_wf w w' : World_wf w → step w w' → World_wf w'.
Proof.
  intros Hwf. destruct 1; eauto using Server_accept_wf, Run_event_wf, io_turn_wf, io_request_wf, exec_turn_wf, timer_pop_wf.
Qed.

(** The executable steps are steps, or do nothing. *)
Lemma handle_step ev w w' : handle ev w = Ok w' → step w w' ∨ w' = w.
Proof.
  destruct ev; cbn [handle]; intros Hx.
  - injection Hx as <-. left. constructor.
  - left. by eapply step_ready.
  - destruct (io_work w) eqn:Hq; [left; by eapply step_io|right; congruence].
  - left. by eapply step_request.
  - left. by eapply step_command.
  - unfold timer_turn in Hx. destruct (pop_due now0 (tmr_que_ w)) as [[t que]|] eqn:Hp; [|right; congruence].
    left. eapply step_timer; [by apply pop_due_BlockPop|done].
Qed.

(** ** Start *)

(** A server without clients whose databases have the first addresses. *)
Lemma quiet_wf w :
  clients w = ∅ → client_map_ w = ∅ → announced w = [] → cmd_que_ w = [] →
  addrs w = seq 0 (length (databases_ w)) → next_addr w = length (databases_ w) →
  Forall Db_wf (databases_ w) → databases_ w ≠ [] →
  Forall (timer_ok (addrs w) (file_name_ (conf w))) (tmr_que_ w) → is_Some (disk w !! file_name_ (conf w)) →
  (enable_aof_ (conf w) = true → aof_fm (aof_timer_ w) = file_name_ (conf w)) → World_wf w.
Proof.
  intros Hc Hm Ha Hq Hs Hn Hd Hne Ht Hf Haof. split; try done; rewrite ?Hc, ?Hm, ?Ha, ?Hq.
  - rewrite Hs. apply NoDup_seq.
  - assert (Forall (λ a, (a < next_addr w)%nat) (addrs w)) as Hall%Forall_fmap; [|done].
    rewrite Hs, Hn. apply Forall_forall. intros a Hin%elem_of_seq. lia.
  - intros id Hid. set_solver.
  - intros id [c Hid]. by rewrite lookup_empty in Hid.
  - set_solver.
  - set_solver.
  - intros id Hid. exfalso. assert (id ∈ announced w) as Hin by (unfold announced; set_solver). rewrite Ha in Hin.
    by apply not_elem_of_nil in Hin.
  - constructor.
Qed.

Lemma start_rdb_wf now c r fs dbfile w :
  enable_aof_ c = false → is_Some (fs !! file_name_ c) →
  start_rdb now (initial_world c r fs) dbfile = Ok w → World_wf w ∧ conf w = c.
Proof.
  intros Haof Hf. unfold start_rdb. destruct (save_n_times_ _ =? 0); [done|]. intros Hx.
  apply bind_Ok in Hx as ([] & _ & Hx). cbv zeta in Hx. apply bind_Ok in Hx as (st & Hl & Hx).
  apply RDBLoad_wf in Hl as [Hl1 Hl2 Hl3 Hl4]. cbn [next_addr initial_world with_timers EncounterTimer] in *.
  destruct (loaded st) as [|db dbs] eqn:Hd; cbn [databases_ with_loaded] in Hx.
  - apply bind_Ok in Hx as ([db r'] & Hdb & Hx). injection Hx as <-. split; [|done].
    apply Db_new_addr in Hdb as [Hda Hdw]. cbn [next_addr with_loaded] in Hda. rewrite Hl3 in Hda.
    apply quiet_wf; try done; cbn.
    + by rewrite Hda.
    + by rewrite Hl3.
    + by constructor.
    + constructor; [done|]. apply Forall_fmap. eapply Forall_impl; [exact Hl4|]. simpl. intros t Ht. set_solver.
    + by rewrite Haof.
  - injection Hx as <-. split; [|done]. apply quiet_wf; try done; cbn.
    + constructor; [done|]. apply Forall_fmap. eapply Forall_impl; [exact Hl4|]. done.
    + by rewrite Haof.
Qed.

Lemma boot_wf now c fs w : boot now c fs = Ok w → World_wf w.
Proof.
  unfold boot, MainLoop_start. intros Hx. apply bind_Ok in Hx as ([w1 dbfile] & Hx & Hcheck).
  cbv zeta in Hx. apply bind_Ok in Hx as (b & Hb & Hx). apply bind_Ok in Hx as (fs1 & Hfs & Hx).
  apply bind_Ok in Hx as (w2 & Hw2 & Hx). injection Hx as -> <-.
  apply bind_Ok in Hcheck as ([w3 ok] & Hc & Hx). injection Hx as ->.
  assert (is_Some (fs1 !! file_name_ c)) as Hfile.
  { eapply Truncate_file; [done|]. unfold LoadAndExport in Hb. by destruct (_ !! _). }
  unfold CheckAOFLoad in Hc. destruct (enable_aof_ c) eqn:Haof; cbn [negb] in Hw2.
  - injection Hw2 as <-. cbn [conf initial_world] in Hc. rewrite Haof in Hc. cbn [negb databases_ initial_world] in Hc.
    apply bind_Ok in Hc as (w4 & Hw4 & Hc). apply bind_Ok in Hw4 as ([db r] & Hdb & Hw4). injection Hw4 as <-.
    cbv zeta in Hc. injection Hc as <- _. apply Db_new_addr in Hdb as [Hda Hdw]. cbn [next_addr with_disk initial_world] in Hda.
    assert (∀ c, aof_fm (aof_mode_timer now c) = file_name_ c) as Hfm.
    { intros c'. unfold aof_mode_timer. by destruct (String.eqb _ _); [|destruct (String.eqb _ _)]. }
    apply quiet_wf; try done; cbn.
    + by rewrite Hda.
    + by constructor.
    + constructor; [apply Hfm|constructor].
    + by apply Write_file.
    + intros _. apply Hfm.
  - apply start_rdb_wf in Hw2 as [Hwf Hcf]; [|done..]. rewrite Hcf, Haof in Hc. cbn [negb] in Hc. by injection Hc as <- _.
Qed.

(** What a server can come to after [main] has brought it up. *)
Inductive reachable (c : RedisConf) : World → Prop :=
| reach_boot now fs w : boot now c fs = Ok w → reachable c w
| reach_step w w' : reachable c w → step w w' → reachable c w'.

Lemma reachable_wf c w : reachable c w → World_wf w.
Proof. induction 1; eauto using boot_wf, step_wf. Qed.

(** Runs of the executable steps. *)
Definition run (evs : list event) (w : World) : result World := foldM (λ w ev, handle ev w) w evs.

Lemma run_reachable c w evs w' : reachable c w → run evs w = Ok w' → reachable c w'.
Proof.
  intros Hr. unfold run. apply (foldM_inv (reachable c)); [|done]. clear Hr. intros v ev v' _ Hr Hx.
  apply handle_step in Hx as [Hx| ->]; [by eapply reach_step|done].
Qed.

(** ** Properties *)

(** C4: in every state a server can reach, whatever its file held, whatever bytes the
    clients sent and however the threads interleaved, there is a database, the
    databases are well formed and at different addresses, and every pointer to one held
    by a client or by a timer is valid. *)
Theorem reachable_pointers_valid c w :
  reachable c w →
  databases_ w ≠ [] ∧ Forall Db_wf (databases_ w) ∧ NoDup (db_addr <$> databases_ w) ∧
  (∀ id cl a, clients w !! id = Some cl → database_ cl = Some a →
     ∃ db, deref_db w (Some a) = Ok db ∧ db_addr db = a) ∧
  (∀ t, TExpire t ∈ tmr_que_ w → ∃ db, deref_db w (Some (tmr_database_ t)) = Ok db ∧ db_addr db = tmr_database_ t).
Proof.
  intros Hr. pose proof (reachable_wf c w Hr) as Hwf. split_and!; try apply Hwf.
  - intros id cl a Hc Ha. pose proof (wf_selected w Hwf id cl Hc) as Hp. rewrite Ha in Hp.
    destruct (deref_db_ok w a Hwf Hp) as (db & ? & ? & _). by exists db.
  - intros t Ht. pose proof (wf_timers w Hwf) as Hall. eapply Forall_forall in Hall; [|exact Ht]. simpl in Hall.
    destruct (deref_db_ok w _ Hwf Hall) as (db & ? & ? & _). by exists db.
Qed.

(** C31: the timer of a key never fails, and removes the key from its database: also when
    the key has been deleted and created again, or given another expiry, since the timer
    was set. *)
Theorem expiry_timer_deletes c w t :
  reachable c w → TExpire t ∈ tmr_que_ w →
  ∃ db w', deref_db w (Some (tmr_database_ t)) = Ok db ∧ DbExpireTimer_Exec w t = Ok w' ∧
    deref_db w' (Some (tmr_database_ t)) = Ok (Db_Del db (Str_new (tmr_obj_name_ t))).1 ∧
    Db_map (Db_Del db (Str_new (tmr_obj_name_ t))).1 = delete (tmr_obj_name_ t) (Db_map db).
Proof.
  intros Hr Ht. pose proof (reachable_wf c w Hr) as Hwf. pose proof (wf_timers w Hwf) as Hall.
  eapply Forall_forall in Hall; [|exact Ht]. simpl in Hall.
  destruct (deref_db_ok w _ Hwf Hall) as (db & Hd & Ha & Hdw). exists db. unfold DbExpireTimer_Exec. rewrite Hd.
  cbn [mbind result_bind]. eexists. split_and!; [done|done| |by destruct (Db_Del_map db (Str_new (tmr_obj_name_ t)))].
  set (db' := (Db_Del db (Str_new (tmr_obj_name_ t))).1).
  assert (db_addr db' = tmr_database_ t) as Ha' by (unfold db', Db_Del; by destruct (tbl_find _ _ _)).
  unfold deref_db, store_db. cbn [with_databases databases_]. unfold deref_db in Hd.
  destruct (find_db (tmr_database_ t) (databases_ w)) as [x|] eqn:Hx; [|done]. injection Hd as ->.
  by rewrite <-Ha', (find_update_db _ db) by (by rewrite Ha').
Qed.

(** A thread that announces a client or takes one of its requests does not fail: a
    client always has a database by then.  Only a FORK whose port is not a number is
    refused by an exception. *)
Theorem events_do_not_fail c w id out :
  reachable c w →
  (∃ w', Run_event w id out = Ok w') ∧
  match io_request w with
  | Ok _ => True
  | Err e => ∃ i req work, io_work w = (i, req) :: work ∧ RequestToCommandExec req = Err e
  end.
Proof.
  intros Hr. pose proof (reachable_wf c w Hr) as Hwf. split.
  - unfold Run_event. destruct (if bool_decide _ then _ else _) as [cl|]; [|by eexists].
    destruct (database_ cl); [by eexists|]. unfold first_db. pose proof (wf_some_db w Hwf).
    destruct (databases_ w); [done|by eexists].
  - unfold io_request. destruct (io_work w) as [|[i req] work] eqn:Hq; [done|].
    destruct (take_request_wf w i req work Hwf Hq) as (Hw1 & _ & Hdb).
    destruct (log_request_wf _ i req Hw1 Hdb) as (w1 & -> & _). cbn [mbind result_bind].
    destruct (RequestToCommandExec req) as [cmd|e] eqn:Hreq; cbn [mbind result_bind]; [done|]. by exists i, req, work.
Qed.

End Steps.

End LoopWf.
Export LoopWf.
