(* ===== verification/Served.v ===== *)
(** * From request to answer

    What the threads do with the requests of a client, step by step, is what serving the
    requests one after another does: the requests of a buffer are executed in the order
    in which they were sent, and the answers leave in that order. *)

From stdpp Require Import base gmap list strings fin_maps.
From Stdlib Require Import Ascii ZArith Lia.
From S2P Require Import Prelude CInt Util Object StrObj Containers ListObj HashObj SetObj ZSetObj.
From S2P Require Import Json Request Database Rdb Command Exec Client Timer Loop LoopWf.
Local Open Scope Z_scope.

Module Served.

Section Served.
Context `{Compressor} `{HashOrder} `{CDouble}.

(** Executing one command for a client: its answer goes to the client, if it has one. *)
Definition serve (id : nat) (w : World) (p : Env * Command) : result World :=
  '(w, respond) ← Command_Exec p.1 w id p.2;
  Ok (match respond, clients w !! id with
      | Some ret, Some client => with_clients w (<[id := Append client ret]> (clients w))
      | _, _ => w
      end).

(** ** Commands do not look at what waits for the threads *)

Definition set_waiting (w : World) (io : list (nat * list Json)) (q : list (nat * Command)) : World := with_queues w (cli_que_ w) io q.

Definition framed (io : list (nat * list Json)) (q : list (nat * Command)) (r : World * option answer) : World * option answer :=
  (set_waiting r.1 io q, r.2).

(** Only ENDFORKING logs its client out; whether the client then goes depends on whether
    requests of it wait. *)
Definition stays (c : Command) : bool :=
  match c with CServer c => negb (String.eqb (command_ (srv_base c)) "ENDFORKING") | _ => true end.

Lemma fmap_bind {A B C} (g : B → C) (m : result A) (f : A → result B) : g <$> (m ≫= f) = x ← m; g <$> f x.
Proof. by destruct m. Qed.

Section Frame.
Context (w : World) (io : list (nat * list Json)) (q : list (nat * Command)).

Lemma deref_db_set p : deref_db (set_waiting w io q) p = deref_db w p.
Proof. done. Qed.
Lemma GetDB_set n : GetDB (set_waiting w io q) n = GetDB w n.
Proof. done. Qed.
Lemma ShowDB_set : ShowDB (set_waiting w io q) = ShowDB w.
Proof. done. Qed.
Lemma GetPassword_set : GetPassword (set_waiting w io q) = GetPassword w.
Proof. done. Qed.
Lemma clients_set : clients (set_waiting w io q) = clients w.
Proof. done. Qed.
Lemma conf_set : conf (set_waiting w io q) = conf w.
Proof. done. Qed.
Lemma DatabaseForkAll_set : DatabaseForkAll (set_waiting w io q) = DatabaseForkAll w.
Proof. done. Qed.
Lemma SuGetDB_set n : SuGetDB (set_waiting w io q) n = (λ p, (set_waiting p.1 io q, p.2)) <$> SuGetDB w n.
Proof.
  unfold SuGetDB. change (databases_ (set_waiting w io q)) with (databases_ w). destruct (number_find _ _); [done|].
  change (next_addr (set_waiting w io q)) with (next_addr w). change (registry (set_waiting w io q)) with (registry w).
  by destruct (Db_new_number _ _ _) as [[]|].
Qed.
Lemma CreateDB_set : CreateDB (set_waiting w io q) = (λ p, (set_waiting p.1 io q, p.2)) <$> CreateDB w.
Proof.
  unfold CreateDB. change (databases_ (set_waiting w io q)) with (databases_ w). destruct (_ <=? _); [done|].
  change (next_addr (set_waiting w io q)) with (next_addr w). change (registry (set_waiting w io q)) with (registry w).
  by destruct (Db_new _ _) as [[]|].
Qed.
Lemma DropDB_set n : DropDB (set_waiting w io q) n = (set_waiting (DropDB w n).1 io q, (DropDB w n).2).
Proof.
  unfold DropDB. change (databases_ (set_waiting w io q)) with (databases_ w). destruct (_ =? _)%nat; [done|]. by destruct (erase_number _ _).
Qed.
Lemma Logout_set id : io = io_work w → Logout (set_waiting w io q) id = set_waiting (Logout w id) io q.
Proof. intros ->. unfold Logout, release, with_registered, set_waiting, with_queues, with_clients. cbn. by destruct (_ || _). Qed.

End Frame.

Create Rewrite HintDb frame.
#[local] Hint Rewrite deref_db_set GetDB_set ShowDB_set GetPassword_set clients_set conf_set DatabaseForkAll_set SuGetDB_set CreateDB_set
  DropDB_set : frame.

(** Both sides make the same choices. *)
Ltac same_choices :=
  repeat (autorewrite with frame; cbn [mbind result_bind fmap result_fmap framed fst snd];
          match goal with
          | |- _ = _ => reflexivity
          | |- (_ ← (_ <$> ?m); _) = _ => destruct m as [[]|?]
          | |- (_ ← ?m; _) = _ => destruct m as [?|?]
          | |- context [match ?x with _ => _ end] => destruct x
          end).

Lemma CliCommand_frame w id c io q : CliCommand_Exec (set_waiting w io q) id c = framed io q <$> CliCommand_Exec w id c.
Proof. unfold CliCommand_Exec. same_choices. Qed.

Lemma DbCommand_frame e w id c io q : DbCommand_Exec e (set_waiting w io q) id c = framed io q <$> DbCommand_Exec e w id c.
Proof. unfold DbCommand_Exec. same_choices. Qed.

Lemma ServerCommand_frame e w id c io q :
  stays (CServer c) = true ∨ io = io_work w → ServerCommand_Exec e (set_waiting w io q) id c = framed io q <$> ServerCommand_Exec e w id c.
Proof.
  intros Hc. unfold ServerCommand_Exec. destruct (String.eqb (command_ (srv_base c)) "ENDFORKING") eqn:E; [|same_choices].
  destruct Hc as [Hc|Hio]; [cbn in Hc; by rewrite E in Hc|]. apply String.eqb_eq in E. rewrite E. cbn [String.eqb Ascii.eqb Bool.eqb].
  rewrite clients_set, Logout_set by done. by destruct (clients w !! id).
Qed.

Lemma on_object_frame e w id c io q : on_object e (set_waiting w io q) id c = framed io q <$> on_object e w id c.
Proof. unfold on_object. same_choices. Qed.

Lemma Command_frame e w id c io q :
  stays c = true ∨ io = io_work w → Command_Exec e (set_waiting w io q) id c = framed io q <$> Command_Exec e w id c.
Proof.
  intros Hc. destruct c; cbn [Command_Exec];
    [by apply ServerCommand_frame|apply CliCommand_frame|apply DbCommand_frame|apply on_object_frame..].
Qed.

Lemma serve_frame id w p io q :
  stays p.2 = true ∨ io = io_work w → serve id (set_waiting w io q) p = (λ w', set_waiting w' io q) <$> serve id w p.
Proof.
  intros Hp. unfold serve. rewrite Command_frame by done. destruct (Command_Exec _ _ _ _) as [[w' r]|]; [|done].
  cbn [fmap result_fmap mbind result_bind framed fst snd]. rewrite clients_set. destruct r; [|done]. by destruct (clients w' !! id).
Qed.

(** ... and do not change it. *)
Lemma serve_queues id w p w' : serve id w p = Ok w' → io_work w' = io_work w ∧ cmd_que_ w' = cmd_que_ w.
Proof.
  intros Hs. assert (w = set_waiting w (io_work w) (cmd_que_ w)) as Hw by (by destruct w).
  rewrite Hw, serve_frame in Hs by (by right). by apply fmap_Ok in Hs as (w1 & _ & ->).
Qed.

Lemma foldM_serve_queues id l w w' : foldM (serve id) w l = Ok w' → io_work w' = io_work w ∧ cmd_que_ w' = cmd_que_ w.
Proof.
  revert w. induction l as [|p l IH]; intros w; cbn [foldM]; [by intros [= <-]|].
  intros (w1 & [E1 E2]%serve_queues & [E3 E4]%IH)%bind_Ok. by rewrite E3, E4.
Qed.

(** ** Commands keep the configuration and the registered clients *)

Definition keeps (w w' : World) : Prop := conf w' = conf w ∧ client_map_ w' = client_map_ w.

(** Every outcome is one of the updates of the state. *)
Ltac outcomes :=
  repeat match goal with
         | H : Err _ = Ok _ |- _ => discriminate H
         | H : Ok _ = Ok _ |- _ => injection H; clear H; intros; subst
         | H : (_ ≫= _) = Ok _ |- _ => apply bind_Ok in H as (? & ? & H)
         | H : (_, _) = (_, _) |- _ => injection H; clear H; intros; subst
         | H : match ?x with _ => _ end = Ok _ |- _ => destruct x
         | H : match ?x with _ => _ end = (_, _) |- _ => destruct x
         | |- keeps _ (match ?x with _ => _ end) => destruct x
         | |- keeps _ _ => split; reflexivity
         end.

Lemma SuGetDB_keeps w n w' db : SuGetDB w n = Ok (w', db) → keeps w w'.
Proof. unfold SuGetDB. intros Hx. outcomes. Qed.
Lemma CreateDB_keeps w n w' : CreateDB w = Ok (w', n) → keeps w w'.
Proof. unfold CreateDB. intros Hx. outcomes. Qed.
Lemma DropDB_keeps w n : keeps w (DropDB w n).1.
Proof. unfold DropDB. destruct (_ =? _)%nat; [done|]. by destruct (erase_number _ _). Qed.

Lemma Command_keeps e w id c w' r : stays c = true → Command_Exec e w id c = Ok (w', r) → keeps w w'.
Proof.
  intros Hs. destruct c; cbn [Command_Exec]; [| | |unfold on_object; intros Hx; outcomes..].
  - unfold ServerCommand_Exec. cbn in Hs. apply negb_true_iff in Hs. rewrite Hs. intros Hx. outcomes.
  - unfold CliCommand_Exec, select_db. intros Hx. outcomes; try apply DropDB_keeps.
    + match goal with H : SuGetDB _ _ = _ |- _ => exact (SuGetDB_keeps _ _ _ _ H) end.
    + match goal with H : CreateDB _ = _ |- _ => exact (CreateDB_keeps _ _ _ H) end.
  - unfold DbCommand_Exec. intros Hx. outcomes.
Qed.

Lemma serve_keeps id w p w' : stays p.2 = true → serve id w p = Ok w' → keeps w w'.
Proof.
  intros Hs (x & Hx & Hw)%bind_Ok. destruct x as [w1 r]. apply Command_keeps in Hx as [E1 E2]; [|done]. injection Hw as <-.
  destruct r; [|by split]. by destruct (clients w1 !! id).
Qed.

Lemma run_app a b w : run (a ++ b) w = (w1 ← run a w; run b w1).
Proof. apply foldM_app. Qed.

(** ** The io thread *)

(** The client with the database it works on: at first the first one. *)
Definition ready_client (w : World) (c : ClientInfo) : result ClientInfo :=
  match database_ c with
  | Some _ => Ok c
  | None => db ← first_db w; Ok (SetDB c (db_addr db))
  end.

Definition arrived (b : bytes) : io_result := mkIo [Received b] 0 false false.

(** Requests of a client wait for the io thread and commands of it for theirs. *)
Definition pipeline (w : World) (id : nat) (reqs : list (list string)) (cmds : list Command) : World :=
  set_waiting w ((λ req, (id, json_texts req)) <$> reqs) ((λ c, (id, c)) <$> cmds).

(** The setters of the state, without unfolding it. *)
Section Setters.
Context (w : World) (m : gmap nat ClientInfo) (q : list (nat * bool)) (io : list (nat * list Json)) (cmd : list (nat * Command)).

Lemma queues_queues q' io' cmd' : with_queues (with_queues w q' io' cmd') q io cmd = with_queues w q io cmd.
Proof. reflexivity. Qed.
Lemma clients_clients m' : with_clients (with_clients w m') m = with_clients w m.
Proof. reflexivity. Qed.
Lemma clients_queues : with_clients (with_queues w q io cmd) m = with_queues (with_clients w m) q io cmd.
Proof. reflexivity. Qed.
Lemma clients_of_queues : clients (with_queues w q io cmd) = clients w.
Proof. reflexivity. Qed.
Lemma clients_of_clients : clients (with_clients w m) = m.
Proof. reflexivity. Qed.
Lemma cli_que_of_queues : cli_que_ (with_queues w q io cmd) = q.
Proof. reflexivity. Qed.
Lemma io_work_of_queues : io_work (with_queues w q io cmd) = io.
Proof. reflexivity. Qed.
Lemma cmd_que_of_queues : cmd_que_ (with_queues w q io cmd) = cmd.
Proof. reflexivity. Qed.
End Setters.

Create Rewrite HintDb setters.
#[local] Hint Rewrite queues_queues clients_clients clients_queues clients_of_queues clients_of_clients cli_que_of_queues
  io_work_of_queues cmd_que_of_queues : setters.

Section Client.
Context (w : World) (id : nat) (c c0 : ClientInfo).
Hypothesis Hque : cli_que_ w = [] ∧ io_work w = [] ∧ cmd_que_ w = [].
Hypothesis Hlog : enable_aof_ (conf w) = false.
Hypothesis Hreg : id ∈ client_map_ w.
Hypothesis Hclient : clients w !! id = Some c.
Hypothesis Hrecv : recv_buffer_ c = [].
Hypothesis Hready : ready_client w c = Ok c0.

Lemma announced : run [EvReady id false] w = Ok (with_queues (with_clients w (<[id := c0]> (clients w))) [(id, false)] [] []).
Proof.
  destruct Hque as (Hq1 & Hq2 & Hq3). unfold run. cbn [foldM handle]. unfold Run_event.
  rewrite bool_decide_true, Hclient by done. unfold ready_client in Hready.
  destruct (database_ c) as [a|].
  - injection Hready as <-. cbn [mbind result_bind]. rewrite Hq1, Hq2, Hq3. rewrite insert_id by done. by destruct w.
  - apply bind_Ok in Hready as (db & -> & [= <-]). cbn [mbind result_bind]. unfold with_clients. cbn.
    by rewrite Hq1, Hq2, Hq3.
Qed.

Lemma ready_buffers : recv_buffer_ c0 = [] ∧ send_buffer_ c0 = send_buffer_ c.
Proof.
  unfold ready_client in Hready. destruct (database_ c); [by injection Hready as <-|].
  by apply bind_Ok in Hready as (db & _ & [= <-]).
Qed.

Lemma requests_read reqs :
  Forall frame_safe reqs → reqs ≠ [] → Z.of_nat (length (concat (dump_array <$> reqs))) < recv_chunk →
  run [EvReady id false; EvIo (arrived (concat (dump_array <$> reqs)))] w = Ok (pipeline (with_clients w (<[id := c0]> (clients w))) id reqs []).
Proof.
  intros Hsafe Hne Hlen. change [EvReady id false; EvIo ?x] with ([EvReady id false] ++ [EvIo x]).
  rewrite run_app, announced. cbn [mbind result_bind]. unfold run. cbn [foldM handle]. destruct Hque as (Hq1 & Hq2 & Hq3).
  destruct ready_buffers as [Hr Hs].
  rewrite io_work_of_queues. unfold io_turn. rewrite cli_que_of_queues. cbv zeta. autorewrite with setters. rewrite lookup_insert_eq.
  unfold Read, arrived. cbn [io_recv Read_loop]. set (b := concat _) in *.
  assert (0 < Z.of_nat (length b)) as Hpos.
  { unfold b. destruct reqs as [|req reqs]; [done|]. rewrite fmap_cons. cbn [concat]. rewrite length_app.
    unfold dump_array. simpl. lia. }
  unfold recv_chunk in *.
  unfold int_add at 1. rewrite Z.add_0_l, int_check_is by (unfold is_int, INT_MIN, INT_MAX; lia). cbn [mbind result_bind].
  destruct (Z.eqb_spec (Z.of_nat (length b)) 0); [lia|]. destruct (Z.eqb_spec (Z.of_nat (length b)) 65535); [lia|].
  cbn [mbind result_bind]. destruct (Z.eqb_spec (Z.of_nat (length b)) 0); [lia|].
  destruct (Z.eqb_spec (Z.of_nat (length b)) (-1)); [lia|]. cbn [andb].
  unfold ExportMessages. cbn [set_recv recv_buffer_]. rewrite Hr. cbn [app].
  pose proof (export_arrays reqs [] Hsafe eq_refl) as He. rewrite app_nil_r in He. fold b in He. unfold export in He. rewrite He.
  cbn [mbind result_bind]. autorewrite with setters. rewrite !insert_insert_eq. unfold pipeline.
  rewrite <-list_fmap_compose. unfold set_waiting, with_queues, with_clients. cbn. rewrite Hq1. repeat f_equal. destruct c0. cbn in Hr. by subst.
Qed.

End Client.

(** ** Both threads *)

(** An order of the steps by which commands that wait, and the commands of requests that
    wait, are executed: a step of the io thread makes the next request a command, a step of
    the command thread, with what the machine supplies to it, executes the first that waits.
    A command that logs its client out is executed when all requests are commands. *)
Inductive schedule : list Command → list Command → list Env → list event → Prop :=
| schedule_done : schedule [] [] [] []
| schedule_request q c cmds es evs : schedule (q ++ [c]) cmds es evs → schedule q (c :: cmds) es (EvRequest :: evs)
| schedule_command c q cmds e es evs :
    stays c = true ∨ cmds = [] → schedule q cmds es evs → schedule (c :: q) cmds (e :: es) (EvCommand e :: evs).

(** The requests first, or each command at once. *)
Lemma requests_first q cmds es :
  length es = length (q ++ cmds) → schedule q cmds es (replicate (length cmds) EvRequest ++ (EvCommand <$> es)).
Proof.
  revert q. induction cmds as [|c cmds IH]; intros q Hes.
  - rewrite app_nil_r in Hes. cbn [length replicate app]. revert es Hes. induction q as [|c q IH]; intros [|e es] Hes; try discriminate; [constructor|].
    cbn [fmap list_fmap]. constructor; [by right|]. apply IH. by injection Hes.
  - cbn [length replicate app]. constructor. apply IH. by rewrite <-app_assoc.
Qed.

Lemma commands_at_once cmds es :
  length es = length cmds → Forall (λ c, stays c = true) cmds →
  schedule [] cmds es (concat ((λ e, [EvRequest; EvCommand e]) <$> es)).
Proof.
  intros Hes Hs. revert es Hes. induction Hs as [|c cmds Hc Hs IH]; intros [|e es] Hes; try discriminate; [constructor|].
  cbn [fmap list_fmap concat app]. constructor. constructor; [by left|]. apply IH. by injection Hes.
Qed.

Lemma schedule_length q cmds es evs : schedule q cmds es evs → length es = length (q ++ cmds).
Proof. induction 1; simpl; rewrite ?length_app in *; simpl in *; lia. Qed.

Lemma request_step w id req reqs q c :
  enable_aof_ (conf w) = false → id ∈ client_map_ w → RequestToCommandExec (json_texts req) = Ok (Some c) →
  io_request (pipeline w id (req :: reqs) q) = Ok (pipeline w id reqs (q ++ [c])).
Proof.
  intros Hlog Hreg Hc. unfold io_request. cbn [pipeline set_waiting with_queues io_work fmap list_fmap]. unfold log_request.
  change (enable_aof_ (conf (with_queues _ _ _ _))) with (enable_aof_ (conf w)). rewrite Hlog. cbn [mbind result_bind]. rewrite Hc.
  cbn [mbind result_bind]. unfold release. cbn [with_queues client_map_]. rewrite bool_decide_true by done. cbn [orb].
  unfold pipeline, set_waiting, with_queues. cbn. by rewrite fmap_app.
Qed.

Lemma command_step w id reqs q c e :
  io_work w = [] → stays c = true ∨ reqs = [] →
  exec_turn e (pipeline w id reqs (c :: q)) = (λ w', pipeline w' id reqs q) <$> serve id w (e, c).
Proof.
  intros Hio Hc.
  assert (exec_turn e (pipeline w id reqs (c :: q)) = serve id (pipeline w id reqs q) (e, c)) as -> by done.
  apply serve_frame. destruct Hc as [Hc| ->]; [by left|right; by rewrite Hio].
Qed.

(** Every order of the steps has the outcome of serving the commands one after another. *)
Lemma schedule_served id q cmds es evs reqs w :
  schedule q cmds es evs → mapM_result RequestToCommandExec (json_texts <$> reqs) = Ok (Some <$> cmds) →
  (enable_aof_ (conf w) = false ∧ id ∈ client_map_ w) ∨ cmds = [] → io_work w = [] →
  run evs (pipeline w id reqs q) = (λ w', pipeline w' id [] []) <$> foldM (serve id) w (zip es (q ++ cmds)).
Proof.
  intros Hs. revert reqs w. induction Hs as [|q c cmds es evs Hs IH|c q cmds e es evs Hc Hs IH]; intros reqs w Hp Hreg Hio.
  - destruct reqs as [|req reqs]; [done|]. cbn in Hp. apply bind_Ok in Hp as (? & _ & Hp). by apply bind_Ok in Hp as (? & _ & ?).
  - destruct reqs as [|req reqs]; [done|]. apply bind_Ok in Hp as (oc & Hc & Hp). apply bind_Ok in Hp as (ocs & Hcs & Heq).
    rewrite fmap_cons in Heq. injection Heq as -> ->. destruct Hreg as [[Hlog Hreg]|]; [|done].
    unfold run in *. cbn [foldM handle]. rewrite (request_step _ _ _ _ _ c) by done. cbn [mbind result_bind].
    rewrite IH by (done || by left). by rewrite <-app_assoc.
  - assert (cmds = [] → reqs = []) as Hreqs.
    { intros ->. destruct reqs as [|req reqs]; [done|]. cbn in Hp. apply bind_Ok in Hp as (? & _ & Hp). by apply bind_Ok in Hp as (? & _ & ?). }
    unfold run in *. cbn [foldM handle app zip zip_with]. rewrite command_step by (done || destruct Hc; auto).
    destruct (serve id w (e, c)) as [w'|] eqn:E; [|done]. cbn [fmap result_fmap mbind result_bind].
    pose proof (serve_queues _ _ _ _ E) as [Hio' _].
    apply IH; [done| |by rewrite Hio']. destruct Hc as [Hc| ->]; [|by right].
    apply serve_keeps in E as [-> ->]; [done|done].
Qed.

(** ** Properties *)

(** C2: a registered client sends requests that are commands, of texts without brackets and
    of less than 65535 bytes together, to a server that keeps no log and whose queues are
    empty.  The client is announced and the io thread reads the requests; then the io thread
    and the command thread take their steps in any order in which a command is executed
    after its request has been read, and ENDFORKING, which logs the client out, after all of
    them have.  Every such run has the outcome of serving the commands one after another, in
    the order of the requests, answers appended in that order. *)
Theorem requests_served w id c c0 reqs cmds es evs :
  cli_que_ w = [] ∧ io_work w = [] ∧ cmd_que_ w = [] → enable_aof_ (conf w) = false →
  id ∈ client_map_ w → clients w !! id = Some c → recv_buffer_ c = [] → ready_client w c = Ok c0 →
  Forall frame_safe reqs → reqs ≠ [] → Z.of_nat (length (concat (dump_array <$> reqs))) < recv_chunk →
  mapM_result RequestToCommandExec (json_texts <$> reqs) = Ok (Some <$> cmds) → schedule [] cmds es evs →
  run ([EvReady id false; EvIo (arrived (concat (dump_array <$> reqs)))] ++ evs) w
  = foldM (serve id) (with_clients w (<[id := c0]> (clients w))) (zip es cmds).
Proof.
  intros Hque Hlog Hreg Hcl Hrecv Hready Hsafe Hne Hlen Hcmds Hevs.
  rewrite run_app, (requests_read w id c c0 Hque Hlog Hreg Hcl Hrecv Hready reqs) by done. cbn [mbind result_bind].
  destruct Hque as (Hq1 & Hq2 & Hq3). set (v := with_clients w (<[id := c0]> (clients w))).
  rewrite (schedule_served id [] cmds es evs reqs v) by (done || by left). cbn [app].
  destruct (foldM (serve id) v (zip es cmds)) as [w'|] eqn:E; [|done]. apply foldM_serve_queues in E as [E1 E2]. cbn [fmap result_fmap]. f_equal.
  unfold pipeline, set_waiting, with_queues. cbn [fmap list_fmap]. change (io_work v) with (io_work w) in E1. change (cmd_que_ v) with (cmd_que_ w) in E2.
  rewrite Hq2 in E1. rewrite Hq3 in E2. destruct w'. cbn in *. by subst.
Qed.

End Served.
End Served.
Export Served.
