(* ===== verification/Persistence.v ===== *)
(** * Restarting: the snapshot and the log

    A server that has saved its databases and is started again on the same file has the
    same databases.  The log of a database, received as requests, is the sequence of the
    requests that were appended to it, after the selection of the database. *)

From stdpp Require Import base gmap list strings fin_maps sets.
From Stdlib Require Import Ascii ZArith Lia.
From S2P Require Import Prelude CInt Util Lzfse Object StrObj Containers ListObj HashObj SetObj ZSetObj.
From S2P Require Import Json Request Database Rdb DecodeWf Command Exec ExecWf Client RedisCli Timer Loop LoopWf.
Local Open Scope Z_scope.

Module Persistence.

Section Snapshot.
Context `{CompressorLaws} `{HashOrder} `{CDouble}.

Lemma registry_start_room n : Z.of_nat n ≤ INT_MAX → registry_room Registry_start n.
Proof.
  intros Hn. split; simpl; [done|lia|]. intros k Hk. unfold taken in Hk. by rewrite lookup_empty in Hk.
Qed.

(** Starting on a file from which [RDBLoad] reads databases. *)
Lemma boot_image now c fs image st :
  enable_aof_ c = false → save_n_times_ c ≠ 0 → fs !! file_name_ c = Some image →
  RDBLoad 0 Registry_start image = Ok st → registry_room (load_registry st) 1 →
  ∃ w, boot now c fs = Ok w ∧ conf w = c ∧
       (TExpire <$> load_timers st) ⊆ tmr_que_ w ∧
       match loaded st with
       | [] => ∃ db, databases_ w = [db] ∧ key_value_map_ db = []
       | dbs => databases_ w = dbs
       end.
Proof.
  intros Haof Hn Hf Hl Hroom. unfold boot, MainLoop_start, FileManager_open, LoadAndExport, Truncate. cbv zeta. rewrite !Hf.
  cbn [mbind result_bind]. rewrite Haof. cbn [negb]. unfold start_rdb. cbn [conf initial_world].
  rewrite (proj2 (Z.eqb_neq _ _) Hn). cbn [mbind result_bind]. cbv zeta.
  cbn [next_addr registry EncounterTimer with_timers initial_world]. rewrite Hl. cbn [mbind result_bind with_loaded databases_].
  assert (∀ w, conf w = c → CheckAOFLoad now w = Ok (w, false)) as Hcheck.
  { intros w Hc. unfold CheckAOFLoad. by rewrite Hc, Haof. }
  destruct (loaded st) as [|db dbs] eqn:Hd.
  - destruct (Db_new_room _ _ (load_addr st) Hroom) as (num & r' & Hnew & _).
    cbn [next_addr registry with_loaded]. rewrite Hnew. cbn [mbind result_bind]. rewrite Hcheck by done. cbn [mbind result_bind].
    eexists. split_and!; [done|done| |by eexists]. cbn. set_solver.
  - cbn [mbind result_bind]. rewrite Hcheck by done. cbn [mbind result_bind].
    eexists. split_and!; [done|done| |done]. cbn. set_solver.
Qed.

(** C1: what the timer of the snapshot writes, a restart reads: the databases that have
    keys, with their numbers, keys, values and expiries, and a timer for every expiry.  The
    log is disabled, a number of saves is set, there are fewer than INT_MAX databases, and
    their texts survive their image: a text stored as an [int] is the printed form of one.
    Another text of digits is reprinted ([snapshot_reprints]) or, out of range, makes the
    snapshot throw ([snapshot_throws]). *)
Theorem restart_after_snapshot c w now now' t :
  reachable c w → enable_aof_ c = false → save_n_times_ c ≠ 0 → conf w = c → rdb_fm t = file_name_ c →
  Forall Db_stable (databases_ w) → Z.of_nat (S (length (databases_ w))) ≤ INT_MAX →
  ∃ w1 w2 dbs,
    RdbTimer_Exec now w t = Ok w1 ∧ boot now' c (disk w1) = Ok w2 ∧
    Forall2 Db_equiv (filter has_keys (databases_ w)) dbs ∧
    (dbs ≠ [] → databases_ w2 = dbs) ∧
    (dbs = [] → ∃ db, databases_ w2 = [db] ∧ key_value_map_ db = []) ∧
    ∀ db k kv tmr, db ∈ dbs → Db_map db !! k = Some kv → kv_timer (db_addr db) kv = Some tmr →
      TExpire tmr ∈ tmr_que_ w2.
Proof.
  intros Hr Haof Hn Hc Hfm Hst Hlen. pose proof (reachable_wf c w Hr) as Hwf. pose proof (wf_file w Hwf) as Hfile.
  rewrite Hc, <-Hfm in Hfile.
  destruct (RDBSave_RDBLoad (DefineCompress w) (databases_ w) (disk w) (rdb_fm t) 0 Registry_start 1)
    as (srcs & fs' & image & st & Hs & Hsave & Himg & Hload & Heq & Htimed & Hroom); [done|done|apply registry_start_room; lia|].
  assert (fs' !! file_name_ c = Some image) as Hf'.
  { rewrite <-Hfm. unfold LoadAndExport in Himg. by destruct (fs' !! _) as [b|]; [injection Himg as ->|]. }
  destruct (boot_image now' c fs' image st Haof Hn Hf' Hload Hroom) as (w2 & Hboot & _ & Hts & Hdbs).
  unfold RdbTimer_Exec, DatabaseSave. rewrite Hs. cbn [mbind result_bind]. rewrite Hsave. cbn [mbind result_bind].
  eexists _, w2, (loaded st). split_and!; [done|done|done| | |].
  - intros Hne. by destruct (loaded st).
  - intros He. by rewrite He in Hdbs.
  - intros db k kv tmr Hdb Hk Ht. apply Hts, list_elem_of_fmap_2. eapply Forall_forall in Htimed; [|done]. by eapply Htimed.
Qed.

(** A file without the three bytes of a header. *)
Lemma boot_short now c fs :
  enable_aof_ c = false → save_n_times_ c ≠ 0 → file_name_ c ≠ "" →
  match fs !! file_name_ c with Some b => (length b < 3)%nat | None => True end →
  boot now c fs = Err Undefined.
Proof.
  intros Haof Hn Hname Hf. set (fs' := FileManager_open fs (file_name_ c)).
  assert (∃ b, fs' !! file_name_ c = Some b ∧ (length b < 3)%nat) as (b & Hb & Hl).
  { unfold fs', FileManager_open. destruct (fs !! file_name_ c) as [b|] eqn:E; [by exists b|].
    exists []. rewrite (proj2 (String.eqb_neq _ _) Hname), lookup_insert_eq. split; [done|simpl; lia]. }
  unfold boot, MainLoop_start. fold fs'. cbv zeta. unfold LoadAndExport, Truncate. rewrite Hb. cbn [mbind result_bind].
  rewrite Haof. cbn [negb]. unfold start_rdb. cbn [conf initial_world].
  rewrite (proj2 (Z.eqb_neq _ _) Hn). cbn [mbind result_bind]. cbv zeta. unfold RDBLoad.
  by rewrite PeekString_short by lia.
Qed.

Lemma start_rdb_disk now w image w' : start_rdb now w image = Ok w' → disk w' = disk w.
Proof.
  unfold start_rdb. destruct (save_n_times_ _ =? 0); [done|]. cbn [mbind result_bind]. cbv zeta. intros Hx.
  apply bind_Ok in Hx as (st & _ & Hx). destruct (databases_ _); [|by injection Hx as <-].
  apply bind_Ok in Hx as ([db r] & _ & Hx). by injection Hx as <-.
Qed.

(** C33: with the log disabled and a number of saves set, a start empties the file it has
    loaded, and a start on an empty or missing file reads three bytes past the end of its
    image, which is undefined behaviour: the default database, which the code means to
    create then, is not reached.  So a server that goes down before its first snapshot has
    lost its data, and its next start is undefined. *)
Theorem empty_file_undefined c now fs :
  enable_aof_ c = false → save_n_times_ c ≠ 0 → file_name_ c ≠ "" →
  (fs !! file_name_ c = None → boot now c fs = Err Undefined) ∧
  (∀ w now', boot now c fs = Ok w → disk w !! file_name_ c = Some [] ∧ boot now' c (disk w) = Err Undefined).
Proof.
  intros Haof Hn Hname. split; [intros Hf; apply boot_short; [done..|by rewrite Hf]|].
  intros w now' Hb. assert (disk w !! file_name_ c = Some []) as Hd; [|split; [done|]; apply boot_short; [done..|]; rewrite Hd; simpl; lia].
  unfold boot, MainLoop_start in Hb. apply bind_Ok in Hb as ([w1 image] & Hm & Hb). cbv zeta in Hm.
  apply bind_Ok in Hm as (b & _ & Hm). apply bind_Ok in Hm as (fs1 & Ht & Hm). rewrite Haof in Hm. cbn [negb] in Hm.
  apply bind_Ok in Hm as (w2 & Hs & Hm). injection Hm as -> _. apply bind_Ok in Hb as ([w3 ok] & Hc & Hb). injection Hb as ->.
  assert (conf w1 = c) as Hcf.
  { unfold start_rdb in Hs. destruct (save_n_times_ _ =? 0); [done|]. cbn [mbind result_bind] in Hs. cbv zeta in Hs.
    apply bind_Ok in Hs as (st & _ & Hs). destruct (databases_ _); [|by injection Hs as <-].
    apply bind_Ok in Hs as ([db r] & _ & Hs). by injection Hs as <-. }
  unfold CheckAOFLoad in Hc. rewrite Hcf, Haof in Hc. injection Hc as <- _. apply start_rdb_disk in Hs. rewrite Hs.
  cbn [disk initial_world]. unfold Truncate in Ht. destruct (_ !! _); [|done]. injection Ht as <-. by rewrite lookup_insert_eq.
Qed.

End Snapshot.
(** ** Words on the wire *)

Lemma select_word : word isTokenMember "SELECT".
Proof. apply (bool_decide_unpack _). vm_compute. exact I. Qed.

Definition select_request (password : string) (db : Db) : list string := ["SELECT"; to_string (Number db); password].

Lemma select_request_words password db :
  0 ≤ Number db → word isTokenMember password → Forall (word isTokenMember) (select_request password db).
Proof.
  intros Hn Hp. constructor; [apply select_word|]. constructor; [by apply number_word|].
  by apply Forall_singleton.
Qed.

Lemma select_line_request password db :
  0 ≤ Number db → word isTokenMember password →
  RawCommandToRequest (select_line password db) = Ok (select_request password db).
Proof.
  intros Hn Hp. unfold RawCommandToRequest, select_line.
  change ("SELECT " +:+ to_string (number_ db) +:+ " " +:+ password)
    with (words_line ["SELECT"] +:+ (to_string (number_ db) +:+ " " +:+ password)).
  replace (words_line ["SELECT"] +:+ (to_string (number_ db) +:+ " " +:+ password))
    with (words_line ["SELECT"; to_string (number_ db)] +:+ password).
  - rewrite (raw_to_request_line_last isTokenMember eq_refl ["SELECT"; to_string (number_ db)]); [done| |done].
    constructor; [apply select_word|]. constructor; [by apply number_word|constructor].
  - simpl. by rewrite !string_app_assoc.
Qed.

(** ** The log *)

Section Log.
Context `{CDouble}.

(** Logging requests one after the other. *)
Lemma AppendAOF_all ms db :
  let db' := fold_left (λ db m, AppendAOF db (json_texts m)) ms db in
  aof_cache_ db' = aof_cache_ db ++ concat (dump_array <$> ms) ∧
  number_ db' = number_ db ∧ key_value_map_ db' = key_value_map_ db.
Proof.
  revert db. induction ms as [|m ms IH]; intros db; simpl; [by rewrite app_nil_r|].
  destruct (IH (AppendAOF db (json_texts m))) as (-> & -> & ->). split_and!; [|done..].
  unfold AppendAOF. cbn [set_cache aof_cache_]. change (JArray (json_texts m)) with (string_array m).
  by rewrite dump_string_array, <-app_assoc.
Qed.

(** C19: the log of a database, arriving at a server in any pieces, is the selection of the
    database followed by the logged requests, of which there is at least one, and exporting
    empties it.  The log was empty before, the number of the database is not negative, the
    password is a word of letters and digits, and the requests are arrays of texts without
    brackets: with a bracket in a text or another character in the password it is false. *)
Theorem log_replays password db ms :
  0 ≤ Number db → word isTokenMember password → Forall frame_safe ms → ms ≠ [] → aof_cache_ db = [] →
  ∃ db' log, ExportAOF password (fold_left (λ db m, AppendAOF db (json_texts m)) ms db) = Ok (db', log) ∧
    aof_cache_ db' = [] ∧ key_value_map_ db' = key_value_map_ db ∧
    ∀ chunks, concat chunks = log →
      receive [] chunks = Ok (json_texts <$> select_request password db :: ms, []).
Proof.
  intros Hn Hp Hms Hne Hc. destruct (AppendAOF_all ms db) as (Hcache & Hnum & Hkv).
  set (db1 := fold_left _ ms db) in *. unfold ExportAOF. rewrite select_line_request; [|unfold Number; by rewrite Hnum|done].
  cbn [mbind result_bind]. rewrite Hcache, Hc. cbn [app].
  assert (select_request password db1 = select_request password db) as -> by (unfold select_request, Number; by rewrite Hnum).
  destruct (concat (dump_array <$> ms)) as [|a l] eqn:E.
  { destruct ms as [|m ms]; [done|]. rewrite fmap_cons in E. cbn [concat] in E. by apply app_eq_nil in E as [? _]. }
  eexists _, _. split; [done|]. split_and!; [done|done|]. intros chunks Hch.
  rewrite receive_concat by done. rewrite Hch, <-E. cbn [app].
  rewrite <-(export_arrays (select_request password db :: ms) []).
  - by rewrite app_nil_r, fmap_cons.
  - constructor; [by apply (words_frame_safe (tok := isTokenMember)), select_request_words|done].
  - done.
Qed.

End Log.

End Persistence.
Export Persistence.
