(* ===== verification/Replay.v ===== *)
(** * FORK and REWRITE: what the commands that are sent rebuild

    [Db::Fork] writes one command per key, which the server's tokenizer cuts into words.
    Executed on a database without the key, each command creates an object with the
    contents of the one it was written for, as long as these are made of words.  Expiries
    are not written. *)

From stdpp Require Import base gmap list strings fin_maps sets.
From Stdlib Require Import Ascii ZArith Lia.
From S2P Require Import Prelude CInt Util Object StrObj Containers ListObj HashObj SetObj ZSetObj.
From S2P Require Import Json Request Database Command Exec ExecWf Spec TextSpec Client RedisCli Persistence.
Local Open Scope Z_scope.

Module Replay.

(** ** Contents *)



(** The command word of a type and the texts behind the key. *)
Definition creator (o : Object) : string :=
  match o with OStr _ => "SET" | OList _ => "LPUSHB" | OHash _ => "HSET" | OSet _ => "SADD" | OZSet _ => "ZADD" end.

Definition field_texts (e : Str * Str) : list string := [data_ e.1; data_ e.2].
Definition node_texts (n : seq_node) : list string := [to_string (node_score n); data_ (node_member n)].

Definition arguments (o : Object) : list string :=
  match o with
  | OStr s => [data_ s]
  | OList l => data_ <$> l
  | OHash h => concat (field_texts <$> h)
  | OSet s => data_ <$> s
  | OZSet z => concat (node_texts <$> sequence_list_ z)
  end.

(** The request that [Fork] of an object becomes. *)
Definition fork_request (key : string) (o : Object) : list string := creator o :: key :: arguments o.

(** ** The texts that Fork writes *)






(** ** The command a request becomes *)

Section Exec.
Context `{HashOrder}.








(** ** What the command does *)












(** The words of a request are enough for its command to rebuild the object. *)
Definition forkable (key : string) (o : Object) : Prop := Forall (word isTokenMember) (fork_request key o) ∧ arguments o ≠ [].

#[export] Instance forkable_dec key o : Decision (forkable key o).
Proof. unfold forkable. apply _. Defined.



(** ** A whole database *)








End Exec.



(** What is not a word is lost: the sign of a score, and the rest of a text after a blank. *)
Example fork_loses_sign :
  RawCommandToRequest (Object_Fork (OZSet (ZSet_Add ZSet_empty (-5) (Str_new "m")).1) "z") = Ok ["ZADD"; "z"; "5"; "m"] ∧
  RawCommandToRequest (Object_Fork (OStr (Str_new "a b")) "k") = Ok ["SET"; "k"; "a"; "b"].
Proof. split; reflexivity. Qed.

End Replay.
Export Replay.
