(* ===== verification/Scenario.v ===== *)
(** * A server at work

    A concrete run, evaluated step by step: a server comes up on a file without
    databases, a client connects and sets a key with an expiry.  The theorems on
    reachable states are applied to it. *)

From stdpp Require Import base gmap list strings fin_maps.
From Stdlib Require Import Ascii ZArith Lia.
From S2P Require Import Prelude CInt Util Lzfse Object StrObj Containers ListObj HashObj SetObj ZSetObj.
From S2P Require Import Json Request Database Rdb DecodeWf Command Exec ExecWf Client Timer Loop LoopWf Served Persistence.
Local Open Scope Z_scope.

Module Scenario.

(** Numbers with a fraction do not occur in the run. *)
Definition no_doubles : CDouble := {| g17 := λ b, b; double_int := λ _, Err Undefined |}.

#[local] Existing Instance lzfse_x86.
#[local] Existing Instance front_order.
#[local] Existing Instance no_doubles.

Definition requests_sent : bytes :=
  dump_array ["set"; "k"; "hello"] ++ dump_array ["lpushb"; "l"; "1"; "x"] ++ dump_array ["expire"; "k"; "77"].

Definition env : Env := mkEnv 5 0 NoSocket.

Definition events : list event :=
  [EvAccept 9; EvReady 0 false; EvIo (mkIo [Received requests_sent] 0 false false);
   EvRequest; EvCommand env; EvRequest; EvRequest; EvCommand env; EvCommand env].

(** The file of a server that has never had a key. *)
Definition fresh_disk : files := {["dump.db" := bytes_of "RDB"]}.

Definition world : result World := w ← boot 0 DefaultConf fresh_disk; run events w.

Definition the_db : Db :=
  mkDb 0 0 [(Str_new "l", mkKeyValue (Str_new "l") (OList [Str_new "1"; Str_new "x"]) None);
            (Str_new "k", mkKeyValue (Str_new "k") (OStr (Str_new "hello")) (Some 77))] [].

Definition the_world : World :=
  mkWorld DefaultConf [the_db] (mkRegistry {[0 := 1]} 0) 1 {["dump.db" := []]}
    [TRdb (mkRdbTimer 1000000 "dump.db" 1000000); TExpire (mkDbExpireTimer 0 "k" 77)] (mkAofTimer 0 "" 0 true)
    {[0%nat := mkClient 9 (Some 0%nat) [] (dump_array ["OK"] ++ dump_array ["2"] ++ dump_array ["OK"])]} {[0%nat]} 1
    [] [] [] [].

Lemma the_world_runs : world = Ok the_world.
Proof. vm_compute. reflexivity. Qed.

Lemma the_world_reachable : reachable DefaultConf the_world.
Proof.
  assert (∃ w0, boot 0 DefaultConf fresh_disk = Ok w0 ∧ run events w0 = Ok the_world) as (w0 & Hb & Hr).
  { pose proof the_world_runs as Hw. unfold world in Hw. by apply bind_Ok in Hw. }
  eapply run_reachable; [|exact Hr]. by eapply reach_boot.
Qed.

Lemma the_timer_queued : TExpire (mkDbExpireTimer 0 "k" 77) ∈ tmr_que_ the_world.
Proof. right. left. Qed.

Lemma the_db_stable : Forall Db_stable (databases_ the_world).
Proof.
  assert (∀ s, String.length s = 1%nat → int_like s = false → Str_stable (Str_new s)) as Hone.
  { intros s Hl Hi. split; [unfold Str_fits; simpl; by rewrite Hl|]. right. split; [by rewrite Str_new_encoding, Hi|].
    intros He. simpl in He. by rewrite He in Hl. }
  apply Forall_singleton. split; cbn [the_db key_value_map_ number_].
  - done.
  - done.
  - apply (bool_decide_unpack _). vm_compute. exact I.
  - constructor; [split; [done|]|apply Forall_singleton; split; [done|]].
    + split; [by apply Hone|]. split; [|done]. split; [done|]. constructor; [|apply Forall_singleton; by apply Hone].
      split; [done|]. left. split; [done|]. by exists 1.
    + split; [by apply Hone|]. split; [|done]. split; [done|]. by right.
Qed.

(** ** The theorems on reachable states, here *)

Lemma reachable_pointers_valid_witness :
  ∃ db, deref_db the_world (Some 0%nat) = Ok db ∧ db_addr db = 0%nat.
Proof.
  destruct (reachable_pointers_valid DefaultConf the_world the_world_reachable) as (_ & _ & _ & _ & Ht).
  exact (Ht _ the_timer_queued).
Defined.

Lemma expiry_timer_deletes_witness :
  ∃ db w', deref_db the_world (Some 0%nat) = Ok db ∧ DbExpireTimer_Exec the_world (mkDbExpireTimer 0 "k" 77) = Ok w' ∧
    deref_db w' (Some 0%nat) = Ok (Db_Del db (Str_new "k")).1 ∧ Db_map (Db_Del db (Str_new "k")).1 = delete "k" (Db_map db).
Proof. exact (expiry_timer_deletes DefaultConf the_world _ the_world_reachable the_timer_queued). Defined.

Lemma events_do_not_fail_witness :
  (∃ w', Run_event the_world 0 true = Ok w') ∧
  match io_request the_world with
  | Ok _ => True
  | Err e => ∃ i req work, io_work the_world = (i, req) :: work ∧ RequestToCommandExec req = Err e
  end.
Proof. exact (events_do_not_fail DefaultConf the_world 0 true the_world_reachable). Defined.

(** Two more requests of the same client. *)
Definition two_requests : list (list string) := [["get"; "k"]; ["append"; "k"; "x"]].

Lemma requests_served_witness :
  ∃ cmds, mapM_result RequestToCommandExec (json_texts <$> two_requests) = Ok (Some <$> cmds) ∧
    run [EvReady 0 false; EvIo (arrived (concat (dump_array <$> two_requests))); EvRequest; EvCommand env; EvRequest; EvCommand env] the_world
    = foldM (serve 0) (with_clients the_world (clients the_world)) (zip [env; env] cmds).
Proof.
  assert (∃ cmds, mapM_result RequestToCommandExec (json_texts <$> two_requests) = Ok (Some <$> cmds) ∧ length cmds = 2%nat ∧
      Forall (λ c, stays c = true) cmds) as (cmds & Hc & Hl & Hs).
  { eexists [_; _]. split; [vm_compute; reflexivity|]. split; [reflexivity|]. repeat constructor. }
  exists cmds. split; [exact Hc|].
  apply (requests_served the_world 0 (mkClient 9 (Some 0%nat) [] (dump_array ["OK"] ++ dump_array ["2"] ++ dump_array ["OK"]))
           (mkClient 9 (Some 0%nat) [] (dump_array ["OK"] ++ dump_array ["2"] ++ dump_array ["OK"])) two_requests cmds [env; env] [EvRequest; EvCommand env; EvRequest; EvCommand env]).
  - repeat split.
  - reflexivity.
  - apply (bool_decide_unpack _). vm_compute. exact I.
  - reflexivity.
  - reflexivity.
  - reflexivity.
  - apply (bool_decide_unpack _). vm_compute. exact I.
  - discriminate.
  - reflexivity.
  - exact Hc.
  - apply (commands_at_once cmds [env; env]); [symmetry; exact Hl|exact Hs].
Defined.

Lemma restart_after_snapshot_witness :
  ∃ w1 w2 dbs,
    RdbTimer_Exec 8 the_world (mkRdbTimer 1000000 "dump.db" 1000000) = Ok w1 ∧ boot 9 DefaultConf (disk w1) = Ok w2 ∧
    Forall2 Db_equiv (filter has_keys (databases_ the_world)) dbs ∧
    (dbs ≠ [] → databases_ w2 = dbs) ∧
    (dbs = [] → ∃ db, databases_ w2 = [db] ∧ key_value_map_ db = []) ∧
    ∀ db k kv tmr, db ∈ dbs → Db_map db !! k = Some kv → kv_timer (db_addr db) kv = Some tmr →
      TExpire tmr ∈ tmr_que_ w2.
Proof.
  apply (restart_after_snapshot DefaultConf the_world 8 9 (mkRdbTimer 1000000 "dump.db" 1000000)).
  - exact the_world_reachable.
  - reflexivity.
  - discriminate.
  - reflexivity.
  - reflexivity.
  - exact the_db_stable.
  - apply (bool_decide_unpack _). vm_compute. exact I.
Defined.

(** ** Texts that do not survive their image *)

(** A server with one key, and the file its snapshot leaves. *)
Definition after_set (value : string) : result World :=
  w ← boot 0 DefaultConf fresh_disk;
  run [EvAccept 9; EvReady 0 false; EvIo (mkIo [Received (dump_array ["set"; "k"; value])] 0 false false); EvRequest; EvCommand env] w.

Definition texts_of (w : World) : list (Str * Object) :=
  map (λ e : Str * KeyValue, (e.1, value_ e.2)) (concat (map key_value_map_ (databases_ w))).

Definition snapshot (w : World) : result World := RdbTimer_Exec 8 w (mkRdbTimer 1000000 "dump.db" 1000000).

(** A number that is not in its printed form is stored as an [int] and comes back printed. *)
Lemma snapshot_reprints :
  texts_of <$> after_set "007" = Ok [(Str_new "k", OStr (Str_new "007"))] ∧
  texts_of <$> (w ← after_set "007"; w1 ← snapshot w; boot 9 DefaultConf (disk w1)) = Ok [(Str_new "k", OStr (Str_new "7"))].
Proof. split; vm_compute; reflexivity. Qed.

(** One that is no [int] makes the snapshot throw. *)
Lemma snapshot_throws :
  texts_of <$> after_set "12345678901" = Ok [(Str_new "k", OStr (Str_new "12345678901"))] ∧
  (w ← after_set "12345678901"; snapshot w) = Err OutOfRange.
Proof. split; vm_compute; reflexivity. Qed.

Lemma log_replays_witness :
  ∃ db' log, ExportAOF "yeah" (AppendAOF (mkDb 0 3 [] []) (json_texts ["SET"; "k"; "v"])) = Ok (db', log) ∧
    aof_cache_ db' = [] ∧ key_value_map_ db' = [] ∧
    ∀ chunks, concat chunks = log →
      receive [] chunks = Ok (json_texts <$> [["SELECT"; "3"; "yeah"]; ["SET"; "k"; "v"]], []).
Proof.
  apply (log_replays "yeah" (mkDb 0 3 [] []) [["SET"; "k"; "v"]]).
  - discriminate.
  - apply (bool_decide_unpack _). vm_compute. exact I.
  - constructor; [|constructor]. apply (bool_decide_unpack _). vm_compute. exact I.
  - discriminate.
  - reflexivity.
Defined.

Lemma empty_file_undefined_witness :
  boot 0 DefaultConf ∅ = Err Undefined ∧ boot 3 DefaultConf {["dump.db" := []]} = Err Undefined.
Proof.
  split; [apply (empty_file_undefined DefaultConf 0 ∅); [reflexivity|discriminate|discriminate|reflexivity]|].
  assert (∃ w, boot 0 DefaultConf fresh_disk = Ok w ∧ disk w = {["dump.db" := []]}) as (w & Hb & Hd).
  { eexists. split; [vm_compute; reflexivity|reflexivity]. }
  rewrite <-Hd. apply (empty_file_undefined DefaultConf 0 fresh_disk); [reflexivity|discriminate|discriminate|exact Hb].
Defined.

End Scenario.
Export Scenario.
