(* ===== verification/Config.v ===== *)
(** * LoadConf of util.cc: the configuration file

    The server reads [redis-conf.json], a JSON object with one field per parameter.  A
    file that is there but is no such object gives the default configuration, a file that
    is not there the value-initialised one. *)

From stdpp Require Import base gmap list strings fin_maps.
From Stdlib Require Import Ascii ZArith Lia.
From S2P Require Import Prelude CInt Util Lzfse Object StrObj Containers ListObj HashObj SetObj ZSetObj.
From S2P Require Import Json JsonRoundtrip Request Database Rdb Command Exec Client Timer Loop Scenario.
Local Open Scope Z_scope.

Module Config.

Definition conf_path : string := "redis-conf.json".

(** [return {}]: every member is value-initialised. *)
Definition zero_conf : RedisConf := {|
  file_name_ := ""; ip_ := ""; port_ := 0; compress_ := false; enable_aof_ := false;
  every_n_sec_ := 0; save_n_times_ := 0; mem_size_mbytes_ := 0; cpu_num_ := 0;
  password_ := ""; aof_mode_ := "" |}.

Definition fields : list string :=
  ["dbfile"; "ip"; "port"; "compress"; "aof"; "aof_mode"; "sec"; "time"; "memsiz_mb"; "cpu"; "password"].

(** [o.find(f)] of the map of members. *)
Fixpoint member (f : string) (o : list (string * Json)) : option Json :=
  match o with
  | [] => None
  | (k, j) :: o => if String.eqb k f then Some j else member f o
  end.

(** [o[f]], which inserts a null value when there is none. *)
Definition field (o : list (string * Json)) (f : string) : Json := default JNull (member f o).

Section Load.
Context `{CDouble}.

(** The assignments, each with the conversion to the type of its member. *)
Definition conf_of (o : list (string * Json)) : result RedisConf :=
  port ← int_value (field o "port");
  sec ← int_value (field o "sec");
  time ← int_value (field o "time");
  memsiz ← int_value (field o "memsiz_mb");
  cpu ← int_value (field o "cpu");
  Ok {| file_name_ := string_value (field o "dbfile");
        ip_ := string_value (field o "ip");
        port_ := to_short port;
        compress_ := bool_value (field o "compress");
        enable_aof_ := bool_value (field o "aof");
        every_n_sec_ := to_size sec;
        save_n_times_ := to_size time;
        mem_size_mbytes_ := to_size memsiz;
        cpu_num_ := cpu;
        password_ := string_value (field o "password");
        aof_mode_ := string_value (field o "aof_mode") |}.

Definition all_fields (o : list (string * Json)) : bool :=
  forallb (λ f, match member f o with Some _ => true | None => false end) fields.

Definition LoadConf (fs : files) : result RedisConf :=
  match fs !! conf_path with
  | None => Ok zero_conf
  | Some conf_file =>
      '(conf_obj, good) ← parse conf_file;
      if negb good then Ok DefaultConf
      else
        let obj_value := object_items conf_obj in
        if all_fields obj_value then conf_of obj_value else Ok DefaultConf
  end.

(** [main]: the configuration, then the constructor and [CheckAOFLoad]. *)
Definition main (now : Z) (fs : files) `{Compressor} `{HashOrder} : result World :=
  conf ← LoadConf fs; boot now conf fs.

End Load.

(** ** What the file gives *)

(** The object a configuration is written as; the members are in the order of their keys. *)
Definition conf_json (c : RedisConf) : Json :=
  JObject [("aof", JBool (enable_aof_ c)); ("aof_mode", JString (aof_mode_ c)); ("compress", JBool (compress_ c));
           ("cpu", JInt (cpu_num_ c)); ("dbfile", JString (file_name_ c)); ("ip", JString (ip_ c));
           ("memsiz_mb", JInt (mem_size_mbytes_ c)); ("password", JString (password_ c)); ("port", JInt (port_ c));
           ("sec", JInt (every_n_sec_ c)); ("time", JInt (save_n_times_ c))].

(** The numbers are small enough to be read as integers and fit their members. *)
Record conf_writable (c : RedisConf) : Prop := {
  writable_port : to_short (port_ c) = port_ c;
  writable_sizes : Forall is_size [every_n_sec_ c; save_n_times_ c; mem_size_mbytes_ c];
  writable_digits :
    Forall (λ z, (String.length (to_string z) ≤ 9)%nat)
      [port_ c; every_n_sec_ c; save_n_times_ c; mem_size_mbytes_ c; cpu_num_ c];
}.

Lemma conf_json_printable c : conf_writable c → printable (conf_json c).
Proof.
  intros [_ _ Hd]. repeat (apply Forall_cons in Hd as [? Hd]). constructor.
  - repeat constructor.
  - repeat (apply Forall_cons; split; [cbn [snd]; by constructor|]). constructor.
Qed.

Section Laws.
Context `{CDouble}.

Lemma conf_of_json c : conf_writable c → conf_of (object_items (conf_json c)) = Ok c.
Proof.
  intros [Hp Hs _]. repeat (apply Forall_cons in Hs as [? Hs]). unfold conf_of. cbn. destruct c. simpl in *.
  by rewrite Hp, !to_size_id.
Qed.

(** A configuration that is written to the file as a JSON object is the one the
    server loads. *)
Lemma configuration_roundtrip fs c :
  conf_writable c → fs !! conf_path = Some (dump (conf_json c)) → LoadConf fs = Ok c.
Proof.
  intros Hc Hf. unfold LoadConf. rewrite Hf.
  assert (parse (dump (conf_json c)) = Ok (conf_json c, true)) as ->.
  { apply parse_dump; [by apply conf_json_printable|]. vm_compute. discriminate. }
  cbn [mbind result_bind negb]. by apply conf_of_json.
Qed.

Context `{Compressor} `{HashOrder}.

(** A file that is not JSON, or lacks one of the fields, gives the default
    configuration; without the file the configuration has no file name and the server
    does not come up. *)
Theorem unusable_configuration fs now :
  (∀ b j ok, fs !! conf_path = Some b → parse b = Ok (j, ok) →
     ok = false ∨ Exists (λ f, member f (object_items j) = None) fields → LoadConf fs = Ok DefaultConf) ∧
  (fs !! conf_path = None → fs !! "" = None → LoadConf fs = Ok zero_conf ∧ main now fs = Err RuntimeError).
Proof.
  split.
  - intros b j ok Hb Hp Hbad. unfold LoadConf. rewrite Hb, Hp. cbn [mbind result_bind]. destruct ok; [|done]. cbn [negb].
    destruct Hbad as [|Hbad]; [done|]. replace (all_fields (object_items j)) with false; [done|]. symmetry.
    unfold all_fields. apply not_true_is_false. rewrite forallb_forall. intros Hall.
    apply Exists_exists in Hbad as (f & Hf & Hn). apply list_elem_of_In in Hf. apply Hall in Hf. by rewrite Hn in Hf.
  - intros Hf He. assert (LoadConf fs = Ok zero_conf) as Hl by (unfold LoadConf; by rewrite Hf). split; [done|].
    unfold main. rewrite Hl. cbn [mbind result_bind]. unfold boot, MainLoop_start, FileManager_open, LoadAndExport.
    cbn [file_name_ zero_conf]. rewrite He. cbn [String.eqb]. cbv zeta. by rewrite He.
Qed.

End Laws.

#[local] Existing Instance lzfse_x86.
#[local] Existing Instance front_order.
#[local] Existing Instance no_doubles.

Lemma configuration_roundtrip_witness :
  LoadConf {[conf_path := dump (conf_json DefaultConf)]} = Ok DefaultConf.
Proof.
  apply (configuration_roundtrip {[conf_path := dump (conf_json DefaultConf)]} DefaultConf).
  - constructor; [reflexivity|..]; repeat constructor; vm_compute; try discriminate; lia.
  - apply lookup_singleton_eq.
Defined.

Lemma unusable_configuration_witness :
  LoadConf {[conf_path := bytes_of "{}"]} = Ok DefaultConf ∧ main 0 ∅ = Err RuntimeError.
Proof.
  split.
  - apply (unusable_configuration {[conf_path := bytes_of "{}"]} 0 ) with (b := bytes_of "{}") (j := JObject []) (ok := true).
    + apply lookup_singleton_eq.
    + vm_compute. reflexivity.
    + right. left. reflexivity.
  - apply (unusable_configuration ∅ 0); reflexivity.
Defined.

End Config.
Export Config.
