(* ===== verification/UpgradeLock.v ===== *)
(** * UPGradeLock of database/lru.h: a lock of a mutex and a shared mutex

    Every method takes [mtx_] first and keeps it while it acts on [mu_].  The threads are
    a step relation: a thread is between two calls, waits for [mtx_], is about to act on
    [mu_], or is about to release [mtx_].  The theorems show that the lock excludes, and
    that a call that has to wait inside [mu_] waits for ever, with every other caller. *)

From stdpp Require Import base gmap list fin_maps sets relations.
From S2P Require Import Prelude.

Module UpgradeLock.

Abbreviation tid := nat.

(** What a thread holds between two calls, and the calls it may make then. *)
Inductive mode := Free | Reading | Writing.
Inductive call := ReadLock | ReadUnlock | UPGrade | WriteLock | WriteUnlock.

#[export] Instance mode_eq_dec : EqDecision mode.
Proof. solve_decision. Defined.
#[export] Instance call_eq_dec : EqDecision call.
Proof. solve_decision. Defined.

Definition mode_before (c : call) : mode :=
  match c with ReadLock | WriteLock => Free | ReadUnlock | UPGrade => Reading | WriteUnlock => Writing end.

(** Where a thread is: outside, at the lock guard of [mtx_], at the first action on [mu_],
    at [mu_.lock()] of [UPGrade], at the end of the method. *)
Inductive pc :=
| Outside (m : mode)
| WaitMtx (c : call)
| InBody (c : call)
| Upgrading
| Leaving (m : mode).

#[export] Instance pc_eq_dec : EqDecision pc.
Proof. solve_decision. Defined.

(** [std::shared_mutex]: the threads that share it, or the one that owns it. *)
Record shared_mutex := mkShared {
  readers : gset tid;
  writer : option tid;
}.

Record Lock := mkLock {
  mtx_ : option tid;
  mu_ : shared_mutex;
  threads : gmap tid pc;
}.

(** The actions on [mu_]; [None] while the caller has to wait. *)
Definition lock_shared (mu : shared_mutex) (t : tid) : option shared_mutex :=
  if decide (writer mu = None) then Some (mkShared ({[t]} ∪ readers mu) None) else None.
Definition unlock_shared (mu : shared_mutex) (t : tid) : shared_mutex := mkShared (readers mu ∖ {[t]}) (writer mu).
Definition lock (mu : shared_mutex) (t : tid) : option shared_mutex :=
  if decide (writer mu = None ∧ readers mu = ∅) then Some (mkShared ∅ (Some t)) else None.
Definition unlock (mu : shared_mutex) : shared_mutex := mkShared (readers mu) None.

(** The next action of a thread that holds [mtx_]. *)
Definition body_step (p : pc) (mu : shared_mutex) (t : tid) : option (shared_mutex * pc) :=
  match p with
  | InBody ReadLock => (λ mu, (mu, Leaving Reading)) <$> lock_shared mu t
  | InBody ReadUnlock => Some (unlock_shared mu t, Leaving Free)
  | InBody UPGrade => Some (unlock_shared mu t, Upgrading)
  | InBody WriteLock | Upgrading => (λ mu, (mu, Leaving Writing)) <$> lock mu t
  | InBody WriteUnlock => Some (unlock mu, Leaving Free)
  | _ => None
  end.

(** One step of thread [t]; [c] is the method a thread outside calls next. *)
Definition thread_step (s : Lock) (t : tid) (c : call) : option Lock :=
  match threads s !! t with
  | Some (Outside m) =>
      if decide (m = mode_before c) then Some (mkLock (mtx_ s) (mu_ s) (<[t := WaitMtx c]> (threads s))) else None
  | Some (WaitMtx c) =>
      match mtx_ s with
      | None => Some (mkLock (Some t) (mu_ s) (<[t := InBody c]> (threads s)))
      | Some _ => None
      end
  | Some (Leaving m) => Some (mkLock None (mu_ s) (<[t := Outside m]> (threads s)))
  | Some p => '(mu, p') ← body_step p (mu_ s) t; Some (mkLock (mtx_ s) mu (<[t := p']> (threads s)))
  | None => None
  end.

Definition lock_step (s s' : Lock) : Prop := ∃ t c, thread_step s t c = Some s'.

(** A lock nobody has called yet. *)
Definition Lock_new (ts : gset tid) : Lock := mkLock None (mkShared ∅ None) (gset_to_gmap (Outside Free) ts).

Definition lock_reachable (s : Lock) : Prop := ∃ ts, rtc lock_step (Lock_new ts) s.

(** ** The invariant *)

(** What a thread holds of [mu_]. *)
Definition holds (p : pc) : mode :=
  match p with
  | Outside m | Leaving m => m
  | WaitMtx c | InBody c => mode_before c
  | Upgrading => Free
  end.

Definition holds_mtx (p : pc) : bool :=
  match p with InBody _ | Upgrading | Leaving _ => true | _ => false end.

Record Lock_wf (s : Lock) : Prop := {
  wf_mtx : ∀ t, mtx_ s = Some t ↔ ∃ p, threads s !! t = Some p ∧ holds_mtx p = true;
  wf_readers : ∀ t, t ∈ readers (mu_ s) ↔ ∃ p, threads s !! t = Some p ∧ holds p = Reading;
  wf_writer : ∀ t, writer (mu_ s) = Some t ↔ ∃ p, threads s !! t = Some p ∧ holds p = Writing;
  wf_excl : writer (mu_ s) ≠ None → readers (mu_ s) = ∅;
}.

Lemma at_thread (P : pc → Prop) (m : gmap tid pc) t p t' :
  (∃ q, <[t := p]> m !! t' = Some q ∧ P q) ↔ (if decide (t' = t) then P p else ∃ q, m !! t' = Some q ∧ P q).
Proof.
  case_decide as E; [subst; rewrite lookup_insert_eq|rewrite lookup_insert_ne by done]; naive_solver.
Qed.

(** Moving one thread keeps the invariant if the fields change for it alone. *)
Lemma move_wf s t p' mtx mu :
  Lock_wf s →
  (∀ t', mtx = Some t' ↔ if decide (t' = t) then holds_mtx p' = true else mtx_ s = Some t') →
  (∀ t', t' ∈ readers mu ↔ if decide (t' = t) then holds p' = Reading else t' ∈ readers (mu_ s)) →
  (∀ t', writer mu = Some t' ↔ if decide (t' = t) then holds p' = Writing else writer (mu_ s) = Some t') →
  (writer mu ≠ None → readers mu = ∅) →
  Lock_wf (mkLock mtx mu (<[t := p']> (threads s))).
Proof.
  intros [H1 H2 H3 H4] Hm Hr Hw He. constructor; simpl; [..|done]; intros t'; rewrite at_thread.
  - rewrite Hm. case_decide; [done|apply H1].
  - rewrite Hr. case_decide; [done|apply H2].
  - rewrite Hw. case_decide; [done|apply H3].
Qed.

(** What the invariant says about one thread. *)
Lemma thread_wf s t p : Lock_wf s → threads s !! t = Some p →
  (mtx_ s = Some t ↔ holds_mtx p = true) ∧ (t ∈ readers (mu_ s) ↔ holds p = Reading) ∧
  (writer (mu_ s) = Some t ↔ holds p = Writing).
Proof.
  intros [H1 H2 H3 _] Hp. rewrite H1, H2, H3. naive_solver.
Qed.

Ltac by_thread := intros t'; case_decide; subst; simpl; first [done | intuition congruence | set_solver].

Lemma thread_step_wf s t c s' : Lock_wf s → thread_step s t c = Some s' → Lock_wf s'.
Proof.
  intros Hwf. unfold thread_step. destruct (threads s !! t) as [p|] eqn:Hp; [|done].
  destruct (thread_wf s t p Hwf Hp) as (Hm & Hr & Hw). pose proof (wf_excl _ Hwf) as He.
  destruct p as [m|c'|c'| |m]; simpl in Hm, Hr, Hw.
  - case_decide; [|done]. intros [= <-]. subst m. apply move_wf; [done|by_thread..|done].
  - destruct (mtx_ s) as [?|] eqn:Em; [done|]. intros [= <-]. apply move_wf; [done| |by_thread..|done].
    rewrite Em. by_thread.
  - assert (mtx_ s = Some t) as Em by naive_solver. destruct c'; simpl.
    + unfold lock_shared. case_decide as Ew; [|done]. intros [= <-]. apply move_wf; rewrite ?Ew in *; simpl; [done|by_thread..|done].
    + intros [= <-]. apply move_wf; simpl; [done|by_thread..|]. intros Hn%He. set_solver.
    + intros [= <-]. apply move_wf; simpl; [done|by_thread..|]. intros Hn%He. set_solver.
    + unfold lock. case_decide as Ew; [|done]. destruct Ew as [Ew Er]. intros [= <-].
      apply move_wf; simpl; [done|by_thread..|done].
    + intros [= <-]. apply move_wf; simpl; [done|by_thread..|done].
  - assert (mtx_ s = Some t) as Em by naive_solver. simpl. unfold lock. case_decide as Ew; [|done].
    destruct Ew as [Ew Er]. intros [= <-]. apply move_wf; simpl; [done|by_thread..|done].
  - intros [= <-]. assert (mtx_ s = Some t) as Em by naive_solver. apply move_wf; [done|by_thread..|done].
Qed.

Lemma lock_reachable_wf s : lock_reachable s → Lock_wf s.
Proof.
  intros [ts Hs]. assert (Lock_wf (Lock_new ts)) as Hwf.
  { constructor; simpl; [..|done]; intros t; setoid_rewrite lookup_gset_to_gmap_Some; set_solver. }
  induction Hs as [|s s1 s2 [t [c Hst]] _ IH]; [done|]. by eapply IH, thread_step_wf.
Qed.

(** A thread that holds [mtx_] and is not done with [mu_]. *)
Definition at_mu (p : pc) : bool := match p with InBody _ | Upgrading => true | _ => false end.

Definition waits (s : Lock) (t : tid) (p : pc) : Prop :=
  threads s !! t = Some p ∧ at_mu p = true ∧ body_step p (mu_ s) t = None.

(** While one thread waits, the others can only come to wait for [mtx_]. *)
Lemma step_while_waiting s t p s' :
  Lock_wf s → waits s t p → lock_step s s' →
  waits s' t p ∧ mu_ s' = mu_ s ∧ mtx_ s' = mtx_ s ∧
  ∀ t' q, threads s !! t' = Some q → ∃ q', threads s' !! t' = Some q' ∧ holds q' = holds q.
Proof.
  intros Hwf (Hp & Hat & Hbody) (u & c & Hst). unfold thread_step in Hst.
  destruct (threads s !! u) as [q|] eqn:Hq; [|done].
  assert (mtx_ s = Some t) as Em by (apply (thread_wf s t p Hwf Hp); by destruct p).
  assert (holds_mtx q = true → q = p ∧ u = t) as Hsame.
  { intros Hh. assert (u = t) as -> by (pose proof (thread_wf s u q Hwf Hq) as [? _]; naive_solver). split; congruence. }
  destruct q as [m|c'|c'| |m].
  - case_decide as Hm; [|done]. injection Hst as <-. subst m. split_and!; [|done..|].
    + split_and!; simpl; [|done..]. rewrite lookup_insert_ne; [done|]. intros ->. by simplify_eq.
    + intros t' q Ht'. simpl. destruct (decide (t' = u)) as [->|].
      * rewrite lookup_insert_eq. exists (WaitMtx c). by simplify_eq.
      * rewrite lookup_insert_ne by done. by exists q.
  - by rewrite Em in Hst.
  - destruct (Hsame eq_refl) as [<- ->]. by rewrite Hbody in Hst.
  - destruct (Hsame eq_refl) as [<- ->]. by rewrite Hbody in Hst.
  - destruct (Hsame eq_refl) as [<- ->]. done.
Qed.

Lemma lock_reachable_step s s' : lock_reachable s → rtc lock_step s s' → lock_reachable s'.
Proof. intros [ts Hs] Hs'. exists ts. by etrans. Qed.

(** The lock excludes: in every reachable state, while a thread has it for writing, no
    other thread has it, for reading or for writing. *)
Theorem lock_excludes s t t' p p' :
  lock_reachable s → threads s !! t = Some p → threads s !! t' = Some p' → t ≠ t' →
  holds p = Writing → holds p' = Free.
Proof.
  intros Hwf%lock_reachable_wf Hp Hp' Hne Hw.
  destruct (thread_wf s t p Hwf Hp) as (_ & _ & Hw1). destruct (thread_wf s t' p' Hwf Hp') as (_ & Hr2 & Hw2).
  assert (writer (mu_ s) = Some t) as Ew by tauto. pose proof (wf_excl _ Hwf) as He.
  destruct (holds p') eqn:E; [done| |naive_solver].
  exfalso. rewrite He in Hr2; [set_solver|congruence].
Qed.

(** A call that has to wait for [mu_] never returns: it waits with [mtx_], which every
    release needs.  From then on nothing changes hands, whatever the other threads do. *)
Theorem waiting_for_ever s t p :
  lock_reachable s → waits s t p →
  ∀ s', rtc lock_step s s' →
    waits s' t p ∧ mu_ s' = mu_ s ∧ mtx_ s' = mtx_ s ∧
    ∀ t' q, threads s !! t' = Some q → ∃ q', threads s' !! t' = Some q' ∧ holds q' = holds q.
Proof.
  intros Hr Hw s' Hs. revert Hr Hw. induction Hs as [|s s1 s2 Hst Hs IH]; intros Hr Hw; [by eauto 10|].
  destruct (step_while_waiting s t p s1) as (Hw1 & Hmu & Hm & Hh); [by apply lock_reachable_wf|done..|].
  destruct IH as (Hw2 & Hmu2 & Hm2 & Hh2); [by eapply lock_reachable_step, rtc_once|done|].
  split_and!; [done|congruence..|]. intros t' q Hq. destruct (Hh _ _ Hq) as (q1 & Hq1 & E1).
  destruct (Hh2 _ _ Hq1) as (q2 & Hq2 & E2). exists q2. split; [done|congruence].
Qed.

(** Otherwise the lock makes progress: if a thread is inside a method and none waits
    for [mu_], a thread inside a method can move. *)
Lemma lock_progress s t p :
  lock_reachable s → threads s !! t = Some p → (∀ m, p ≠ Outside m) → (∀ u q, ¬ waits s u q) →
  ∃ u q s', threads s !! u = Some q ∧ (∀ m, q ≠ Outside m) ∧ ∀ c, thread_step s u c = Some s'.
Proof.
  intros Hwf%lock_reachable_wf Hp Hin Hnw. destruct (mtx_ s) as [u|] eqn:Em.
  - apply (wf_mtx _ Hwf) in Em as (q & Hq & Hh). destruct q as [| |c|  |m]; try done.
    + destruct (body_step (InBody c) (mu_ s) u) as [[mu q']|] eqn:Eb; [|by destruct (Hnw u (InBody c))].
      eexists u, _, _. split_and!; [done..|]. intros c'. unfold thread_step. rewrite Hq, Eb. reflexivity.
    + destruct (body_step Upgrading (mu_ s) u) as [[mu q']|] eqn:Eb; [|by destruct (Hnw u Upgrading)].
      eexists u, _, _. split_and!; [done..|]. intros c'. unfold thread_step. rewrite Hq, Eb. reflexivity.
    + eexists u, _, _. split_and!; [done..|]. intros c'. unfold thread_step. by rewrite Hq.
  - assert (¬ mtx_ s = Some t) as Hnt by congruence. destruct (thread_wf s t p Hwf Hp) as (Hm & _).
    destruct p as [m|c|c| |m]; simpl in Hm; [naive_solver| |naive_solver..].
    eexists t, _, _. split_and!; [done..|]. intros c'. unfold thread_step. rewrite Hp, Em. reflexivity.
Qed.

(** ** Two threads *)

(** The schedule of a run: which thread moves, and what it calls when it is outside. *)
Fixpoint lock_run (s : Lock) (sched : list (tid * call)) : option Lock :=
  match sched with
  | [] => Some s
  | (t, c) :: sched => s' ← thread_step s t c; lock_run s' sched
  end.

Lemma lock_run_reachable s sched s' : lock_run s sched = Some s' → rtc lock_step s s'.
Proof.
  revert s. induction sched as [|[t c] sched IH]; intros s; simpl; [by intros [= ->]|].
  intros (s1 & H1 & H2)%bind_Some. eapply rtc_l; [by exists t, c|]. by apply IH.
Qed.

(** One thread has read-locked and another one calls WriteLock; then the first one calls
    ReadUnlock. *)
Definition reader_inside : Lock :=
  mkLock (Some 1) (mkShared {[0]} None) (<[0 := Outside Reading]> (<[1 := InBody WriteLock]> ∅)).
Definition reader_writer : Lock :=
  mkLock (Some 1) (mkShared {[0]} None) (<[0 := WaitMtx ReadUnlock]> (<[1 := InBody WriteLock]> ∅)).

Lemma reader_inside_reachable : lock_reachable reader_inside.
Proof.
  exists {[0; 1]}. apply (lock_run_reachable _ [(0, ReadLock); (0, ReadLock); (0, ReadLock); (0, ReadLock); (1, WriteLock); (1, WriteLock)]).
  vm_compute. reflexivity.
Qed.

Lemma lock_excludes_witness :
  holds (Outside Free) = Free.
Proof.
  apply (lock_excludes (mkLock None (mkShared ∅ (Some 0)) (<[0 := Outside Writing]> (<[1 := Outside Free]> ∅))) 0 1 (Outside Writing)).
  - exists {[0; 1]}. apply (lock_run_reachable _ [(0, WriteLock); (0, WriteLock); (0, WriteLock); (0, WriteLock)]). vm_compute. reflexivity.
  - reflexivity.
  - reflexivity.
  - lia.
  - reflexivity.
Defined.

(** The reader cannot give the lock back. *)
Lemma waiting_for_ever_witness :
  waits reader_writer 1 (InBody WriteLock) ∧ mu_ reader_writer = mu_ reader_inside ∧ mtx_ reader_writer = mtx_ reader_inside ∧
  ∀ t' q, threads reader_inside !! t' = Some q → ∃ q', threads reader_writer !! t' = Some q' ∧ holds q' = holds q.
Proof.
  apply (waiting_for_ever reader_inside 1 (InBody WriteLock)).
  - apply reader_inside_reachable.
  - repeat split.
  - apply (lock_run_reachable _ [(0, ReadUnlock)]). vm_compute. reflexivity.
Defined.

Lemma lock_progress_witness :
  let s := mkLock None (mkShared ∅ None) (<[0 := WaitMtx ReadLock]> (<[1 := Outside Free]> ∅)) in
  ∃ u q s', threads s !! u = Some q ∧ (∀ m, q ≠ Outside m) ∧ ∀ c, thread_step s u c = Some s'.
Proof.
  intros s. apply (lock_progress s 0 (WaitMtx ReadLock)).
  - exists {[0; 1]}. apply (lock_run_reachable _ [(0, ReadLock)]). vm_compute. reflexivity.
  - reflexivity.
  - discriminate.
  - intros u q (Hq & Hat & _). unfold s in Hq. simpl in Hq. rewrite !lookup_insert_Some, lookup_empty in Hq. naive_solver.
Defined.

End UpgradeLock.
Export UpgradeLock.
