(* ===== verification/Lru.v ===== *)
(** * database/lru.h, database/lru.cc: the list of recently used keys and its lock

    [LRU] keeps the keys with their sizes in the order of their last use ([rank_]) and a
    map from a key to its place in that list.  [UPGradeLock] is built from a mutex and a
    shared mutex; its methods are sequences of atomic actions of the threads that call
    them.  The server does not use either class. *)

From stdpp Require Import base gmap list strings fin_maps sets.
From Stdlib Require Import Ascii ZArith Lia.
From S2P Require Import Prelude CInt Util.
Local Open Scope Z_scope.

Module Lru.

(** ** The list *)

(** An iterator of [rank_] is the identity of its node. *)
Record rank_node := mkRank {
  itr : nat;
  rank_key : string;
  rank_bytes : Z;
}.

Record LRU := mkLRU {
  mem_limit_bytes_ : Z;
  size_ : Z;
  rank_ : list rank_node;
  map_ : gmap string nat;
  next_itr : nat;
}.

(** [std::atomic_uint32_t] wraps around. *)
Definition to_uint32 (z : Z) : Z := z mod 2 ^ 32.

(** The constructor does not initialise [size_]; the limit of the configuration, in
    megabytes, is taken for a number of bytes and cut to the range from 4096 to 8192. *)
Definition LRU_new (conf : RedisConf) (indeterminate : Z) : LRU :=
  let mem_limit := if 4096 <? mem_size_mbytes_ conf then mem_size_mbytes_ conf else 4096 in
  mkLRU (if mem_limit <? 1024 * 8 then mem_limit else 1024 * 8) (to_uint32 indeterminate) [] ∅ 0.

Definition IsFull (l : LRU) : bool := mem_limit_bytes_ l <=? size_ l.

(** Dereferencing an iterator of [rank_], and erasing its node. *)
Fixpoint rank_find (i : nat) (r : list rank_node) : result rank_node :=
  match r with
  | [] => Err Undefined
  | n :: r => if decide (itr n = i) then Ok n else rank_find i r
  end.
Definition rank_erase_itr (i : nat) (r : list rank_node) : list rank_node := filter (λ n, itr n ≠ i) r.

(** A key that is in the map: its node moves to the front with the new size. *)
Definition Access_found (l : LRU) (key : string) (i : nat) (size : Z) : result (LRU * Z) :=
  n ← rank_find i (rank_ l);
  let size' := to_uint32 (to_uint32 (size_ l - rank_bytes n) + size) in
  Ok (mkLRU (mem_limit_bytes_ l) size'
        (mkRank (next_itr l) (rank_key n) size :: rank_erase_itr i (rank_ l))
        (<[key := next_itr l]> (map_ l)) (S (next_itr l)), size').

(** What follows for a key that is not in the map: the pair that is inserted has the
    empty text as its key. *)
Definition Access_insert (l : LRU) (key : string) (size : Z) : LRU * Z :=
  let size' := to_uint32 (size_ l + size) in
  (mkLRU (mem_limit_bytes_ l) size' (mkRank (next_itr l) key size :: rank_ l)
     (match map_ l !! "" with Some _ => map_ l | None => <[ "" := next_itr l ]> (map_ l) end)
     (S (next_itr l)), size').

(** The mutex of [it->second] is locked before [it] is compared with [end()]: for a key
    that is not in the map the program is already undefined. *)
Definition Access (l : LRU) (key : string) (size : Z) : result (LRU * Z) :=
  match map_ l !! key with
  | Some i => Access_found l key i size
  | None => Err Undefined
  end.

Definition Remove (l : LRU) (key : string) : result LRU :=
  match map_ l !! key with
  | None => Ok l
  | Some i =>
      n ← rank_find i (rank_ l);
      Ok (mkLRU (mem_limit_bytes_ l) (to_uint32 (size_ l - rank_bytes n)) (rank_erase_itr i (rank_ l))
            (delete key (map_ l)) (next_itr l))
  end.

(** [rank_.back()] of an empty list is undefined; [size_] stays as it is. *)
Definition Evict (l : LRU) : result (LRU * string) :=
  match last (rank_ l) with
  | None => Err Undefined
  | Some n =>
      Ok (mkLRU (mem_limit_bytes_ l) (size_ l) (take (length (rank_ l) - 1) (rank_ l))
            (delete (rank_key n) (map_ l)) (next_itr l), rank_key n)
  end.

(** ** The order of use *)

(** The keys with their sizes, the last used one first. *)
Definition LRU_view (l : LRU) : list (string * Z) := (λ n, (rank_key n, rank_bytes n)) <$> rank_ l.

(** The map has exactly the keys of the list, each with its node. *)
Record LRU_wf (l : LRU) : Prop := {
  wf_rank_keys : NoDup (rank_key <$> rank_ l);
  wf_rank_itrs : NoDup (itr <$> rank_ l);
  wf_rank_fresh : Forall (λ n, (itr n < next_itr l)%nat) (rank_ l);
  wf_rank_map : ∀ k i, map_ l !! k = Some i ↔ ∃ n, n ∈ rank_ l ∧ rank_key n = k ∧ itr n = i;
}.

Definition bytes_of_view (V : list (string * Z)) : Z := foldr Z.add 0 V.*2.

(** [size_] counts the bytes of the list, modulo its width. *)
Definition counts (l : LRU) : Prop := size_ l = to_uint32 (bytes_of_view (LRU_view l)).

Lemma rank_find_elem n r : NoDup (itr <$> r) → n ∈ r → rank_find (itr n) r = Ok n.
Proof.
  induction r as [|m r IH]; intros Hnd Hn; [by apply not_elem_of_nil in Hn|]. simpl. rewrite fmap_cons, NoDup_cons in Hnd.
  destruct Hnd as [Hm Hnd]. apply elem_of_cons in Hn as [->|Hn]; [by rewrite decide_True|].
  rewrite decide_False; [by apply IH|]. intros E. apply Hm. rewrite E. by apply list_elem_of_fmap_2.
Qed.

(** Two nodes of a well-formed list are one if they have the same key or the same place. *)
Lemma rank_same l n m : LRU_wf l → n ∈ rank_ l → m ∈ rank_ l → itr n = itr m ↔ rank_key n = rank_key m.
Proof.
  intros [Hk Hi _ _] Hn Hm.
  apply list_elem_of_lookup in Hn as [a Ha]. apply list_elem_of_lookup in Hm as [b Hb]. split; intros E.
  - assert (a = b) as ->; [|congruence]. eapply NoDup_lookup; [exact Hi| |]; rewrite list_lookup_fmap; [by rewrite Ha|].
    by rewrite Hb, E.
  - assert (a = b) as ->; [|congruence]. eapply NoDup_lookup; [exact Hk| |]; rewrite list_lookup_fmap; [by rewrite Ha|].
    by rewrite Hb, E.
Qed.

Lemma rank_erase_view l n :
  LRU_wf l → n ∈ rank_ l →
  (λ n, (rank_key n, rank_bytes n)) <$> rank_erase_itr (itr n) (rank_ l) = filter (λ p, p.1 ≠ rank_key n) (LRU_view l).
Proof.
  intros Hwf Hn. apply fmap_filter_iff. intros m Hm. simpl. by rewrite (rank_same l m n).
Qed.

Lemma rank_erase_elem l n m : LRU_wf l → n ∈ rank_ l →
  m ∈ rank_erase_itr (itr n) (rank_ l) ↔ m ∈ rank_ l ∧ rank_key m ≠ rank_key n.
Proof.
  intros Hwf Hn. unfold rank_erase_itr. rewrite list_elem_of_filter. split.
  - intros [Hi Hm]. split; [done|]. by rewrite <-(rank_same l m n).
  - intros [Hm Hk]. split; [|done]. by rewrite (rank_same l m n).
Qed.

Lemma bytes_of_cons k b V : bytes_of_view ((k, b) :: V) = b + bytes_of_view V.
Proof. done. Qed.

Lemma bytes_of_filter V k b :
  NoDup V.*1 → (k, b) ∈ V → bytes_of_view V = b + bytes_of_view (filter (λ p, p.1 ≠ k) V).
Proof.
  induction V as [|[k' b'] V IH]; intros Hnd Hin; [by apply not_elem_of_nil in Hin|].
  rewrite fmap_cons, NoDup_cons in Hnd. destruct Hnd as [Hk' Hnd]. rewrite filter_cons, bytes_of_cons. cbn [fst].
  apply elem_of_cons in Hin as [[= -> ->]|Hin].
  - rewrite decide_False by (intros Hn; by apply Hn). f_equal. rewrite filter_all; [done|].
    apply Forall_forall. intros p Hp E. apply Hk'. simpl in *. rewrite <-E. by apply list_elem_of_fmap_2.
  - rewrite decide_True. 2:{ intros ->. apply Hk'. by apply (list_elem_of_fmap_2 fst _ (k, b)). }
    rewrite bytes_of_cons, IH by done. lia.
Qed.

Lemma to_uint32_add a b : to_uint32 (to_uint32 a + b) = to_uint32 (a + b).
Proof. unfold to_uint32. by rewrite Zplus_mod_idemp_l. Qed.
Lemma to_uint32_sub a b : to_uint32 (to_uint32 a - b) = to_uint32 (a - b).
Proof. unfold to_uint32. by rewrite Zminus_mod_idemp_l. Qed.

(** The well-formed states without the node [n], with or without a new first node. *)
Lemma LRU_erase_wf l n sz :
  LRU_wf l → n ∈ rank_ l →
  LRU_wf (mkLRU (mem_limit_bytes_ l) sz (rank_erase_itr (itr n) (rank_ l)) (delete (rank_key n) (map_ l)) (next_itr l)).
Proof.
  intros Hwf Hn. pose proof Hwf as [Hk Hi Hf Hm]. constructor; simpl.
  - by apply NoDup_fmap_filter.
  - by apply NoDup_fmap_filter.
  - by apply Forall_filter_keep.
  - intros k i. rewrite lookup_delete_Some, Hm. setoid_rewrite rank_erase_elem; [|done..]. naive_solver.
Qed.

Lemma LRU_push_wf l k b sz :
  LRU_wf l → k ∉ rank_key <$> rank_ l →
  LRU_wf (mkLRU (mem_limit_bytes_ l) sz (mkRank (next_itr l) k b :: rank_ l) (<[k := next_itr l]> (map_ l)) (S (next_itr l))).
Proof.
  intros [Hk Hi Hf Hm] Hnew. rewrite Forall_forall in Hf. constructor; simpl.
  - by constructor.
  - constructor; [|done]. intros (n & Hn & Hin)%list_elem_of_fmap. apply Hf in Hin. lia.
  - constructor; simpl; [lia|]. apply Forall_forall. intros n Hn%Hf. lia.
  - intros k' i. rewrite lookup_insert_Some, Hm. setoid_rewrite elem_of_cons. split.
    + intros [[<- <-]|[Hne (n & Hn & Hkn & Hin)]]; [by eexists; split; [left|]|naive_solver].
    + intros (n & [->|Hn] & Hkn & Hin); simpl in *; [by left|]. right. split; [|naive_solver].
      intros ->. apply Hnew. rewrite <-Hkn. by apply list_elem_of_fmap_2.
Qed.

Lemma LRU_view_keys l : (LRU_view l).*1 = rank_key <$> rank_ l.
Proof. unfold LRU_view. by rewrite <-list_fmap_compose. Qed.

Lemma LRU_node l key i :
  LRU_wf l → map_ l !! key = Some i →
  ∃ n, n ∈ rank_ l ∧ rank_key n = key ∧ itr n = i ∧ rank_find i (rank_ l) = Ok n ∧
    bytes_of_view (LRU_view l) = rank_bytes n + bytes_of_view (filter (λ p, p.1 ≠ key) (LRU_view l)).
Proof.
  intros Hwf Hi. apply (wf_rank_map _ Hwf) in Hi as (n & Hn & Hk & Hin). exists n. split_and!; [done..| |].
  - rewrite <-Hin. apply rank_find_elem; [apply Hwf|done].
  - apply bytes_of_filter; [rewrite LRU_view_keys; apply Hwf|]. rewrite <-Hk.
    by apply (list_elem_of_fmap_2 (λ n, (rank_key n, rank_bytes n))).
Qed.

Lemma LRU_absent l key : LRU_wf l → map_ l !! key = None ↔ key ∉ (LRU_view l).*1.
Proof.
  intros Hwf. rewrite LRU_view_keys, eq_None_not_Some, list_elem_of_fmap. apply not_iff_compat. unfold is_Some.
  setoid_rewrite (wf_rank_map _ Hwf). naive_solver.
Qed.

Lemma Access_present l key i size :
  LRU_wf l → map_ l !! key = Some i →
  ∃ l', Access l key size = Ok (l', size_ l') ∧ LRU_wf l' ∧ (counts l → counts l') ∧
    LRU_view l' = (key, size) :: filter (λ p, p.1 ≠ key) (LRU_view l).
Proof.
  intros Hwf Hi. unfold Access, Access_found. rewrite Hi.
  destruct (LRU_node l key i Hwf Hi) as (n & Hn & <- & <- & -> & Hb). cbn [mbind result_bind].
  set (sz := to_uint32 (to_uint32 (size_ l - rank_bytes n) + size)).
  match goal with |- context [Ok (?l1, sz)] => exists l1 end. split; [reflexivity|]. split; [|split].
  - pose proof (LRU_erase_wf l n 0 Hwf Hn) as Hwf'. apply LRU_push_wf with (k := rank_key n) (b := size) (sz := sz) in Hwf'.
    + simpl in Hwf'. by rewrite insert_delete_eq in Hwf'.
    + simpl. intros (m & Hm & Hin)%list_elem_of_fmap. apply rank_erase_elem in Hin as [_ Hin]; congruence.
  - unfold counts, sz. simpl. intros ->. unfold LRU_view at 2. simpl. rewrite rank_erase_view by done.
    rewrite to_uint32_add, <-Z.add_sub_swap, <-Z.add_sub_assoc, to_uint32_add, Hb.
    rewrite bytes_of_cons. f_equal. lia.
  - unfold LRU_view at 1. simpl. by rewrite rank_erase_view.
Qed.

Lemma Remove_view l key :
  LRU_wf l →
  ∃ l', Remove l key = Ok l' ∧ LRU_wf l' ∧ (counts l → counts l') ∧ LRU_view l' = filter (λ p, p.1 ≠ key) (LRU_view l).
Proof.
  intros Hwf. unfold Remove. destruct (map_ l !! key) as [i|] eqn:Hi.
  - destruct (LRU_node l key i Hwf Hi) as (n & Hn & <- & <- & -> & Hb). cbn [mbind result_bind].
    eexists. split; [reflexivity|]. split; [by apply LRU_erase_wf|]. unfold counts, LRU_view. simpl.
    rewrite rank_erase_view by done. fold (LRU_view l). split; [|done]. intros ->.
    rewrite Hb, to_uint32_sub. f_equal. lia.
  - exists l. split_and!; [done..|]. symmetry. apply filter_all, Forall_forall. intros p Hp E.
    apply LRU_absent in Hi; [|done]. apply Hi. rewrite <-E. by apply list_elem_of_fmap_2.
Qed.

Lemma Evict_view l V k b :
  LRU_wf l → LRU_view l = V ++ [(k, b)] →
  ∃ l', Evict l = Ok (l', k) ∧ LRU_wf l' ∧ LRU_view l' = V ∧ size_ l' = size_ l.
Proof.
  intros Hwf HV. unfold LRU_view in HV. apply fmap_app_inv in HV as (r & last & Hr1 & Hr2 & HV).
  destruct last as [|n [|]]; try discriminate. injection Hr2 as -> ->. subst V.
  unfold Evict. rewrite HV, last_snoc, length_app, Nat.add_sub, take_app_length.
  eexists. split; [reflexivity|]. split; [|by unfold LRU_view].
  pose proof (LRU_erase_wf l n (size_ l) Hwf) as Hwf'. rewrite HV in Hwf'. unfold rank_erase_itr in Hwf'.
  rewrite filter_app, filter_cons, filter_nil, decide_False, app_nil_r, filter_all in Hwf'; [apply Hwf'; set_solver| |tauto].
  destruct Hwf as [_ Hi _ _]. rewrite HV, fmap_app in Hi. apply NoDup_app in Hi as (_ & Hi & _).
  apply Forall_forall. intros m Hm E. apply (Hi (itr m)); [by apply list_elem_of_fmap_2|]. rewrite E. by left.
Qed.

(** On a state in which map and list agree, the list is the order of use: accessing a
    key that is there moves it to the front with its new size, removing takes it out,
    evicting takes the last one; map and list stay in agreement.  Access and removal keep
    the count of bytes, eviction leaves it as it was. *)
Theorem LRU_order_of_use l :
  LRU_wf l →
  (∀ key size, key ∈ (LRU_view l).*1 →
     ∃ l', Access l key size = Ok (l', size_ l') ∧ LRU_wf l' ∧ (counts l → counts l') ∧
       LRU_view l' = (key, size) :: filter (λ p, p.1 ≠ key) (LRU_view l)) ∧
  (∀ key, ∃ l', Remove l key = Ok l' ∧ LRU_wf l' ∧ (counts l → counts l') ∧
     LRU_view l' = filter (λ p, p.1 ≠ key) (LRU_view l)) ∧
  (∀ V k b, LRU_view l = V ++ [(k, b)] →
     ∃ l', Evict l = Ok (l', k) ∧ LRU_wf l' ∧ LRU_view l' = V ∧ size_ l' = size_ l).
Proof.
  intros Hwf. split_and!.
  - intros key size Hk. destruct (map_ l !! key) as [i|] eqn:Hi; [by eapply Access_present|].
    by apply LRU_absent in Hi.
  - intros key. by apply Remove_view.
  - intros V k b. by apply Evict_view.
Qed.

Definition two_keys : LRU :=
  mkLRU 4096 8 [mkRank 1 "b" 5; mkRank 0 "a" 3] (<["a" := 0%nat]> (<["b" := 1%nat]> ∅)) 2.

Lemma two_keys_wf : LRU_wf two_keys.
Proof.
  constructor; simpl.
  - repeat constructor; set_solver.
  - repeat constructor; set_solver.
  - repeat constructor; lia.
  - intros k i. rewrite !lookup_insert_Some, lookup_empty. setoid_rewrite elem_of_cons. setoid_rewrite list_elem_of_singleton.
    naive_solver.
Qed.

Lemma LRU_order_of_use_witness :
  ∃ l', Access two_keys "a" 4 = Ok (l', size_ l') ∧ LRU_wf l' ∧ (counts two_keys → counts l') ∧
    LRU_view l' = [("a", 4); ("b", 5)].
Proof. apply (LRU_order_of_use two_keys two_keys_wf). vm_compute. set_solver. Defined.

(** ** Runs from the constructor *)

Inductive lru_op := OpAccess (key : string) (size : Z) | OpRemove (key : string) | OpEvict.

Definition lru_run_op (l : LRU) (op : lru_op) : result LRU :=
  match op with
  | OpAccess key size => fst <$> Access l key size
  | OpRemove key => Remove l key
  | OpEvict => fst <$> Evict l
  end.

(** A list that was constructed never holds a key: accessing any key, and evicting,
    are undefined from the start, and after any sequence of operations that is defined. *)
Theorem LRU_never_holds_a_key conf indeterminate ops l :
  foldM lru_run_op (LRU_new conf indeterminate) ops = Ok l →
  l = LRU_new conf indeterminate ∧ (∀ key size, Access l key size = Err Undefined) ∧ Evict l = Err Undefined.
Proof.
  intros Hrun. assert (l = LRU_new conf indeterminate) as ->; [|done].
  induction ops as [|op ops IH]; [by injection Hrun|]. cbn [foldM] in Hrun. apply bind_Ok in Hrun as (l1 & H1 & Hrun).
  destruct op as [k b|k|]; [done| |done]. injection H1 as <-. by apply IH.
Qed.

Lemma LRU_never_holds_a_key_witness : Access (LRU_new DefaultConf 7) "k" 1 = Err Undefined.
Proof. apply (LRU_never_holds_a_key DefaultConf 7 [OpRemove "k"]). reflexivity. Defined.

End Lru.
Export Lru.
