(* ===== verification/SnBits.v ===== *)
(** * snmalloc: bits, addresses and constants

    [SnBits]: ds_core/bits.h.  [Address]: aal/address.h.  [AllocConfig]: ds/allocconfig.h. *)

From stdpp Require Import base list numbers.
From Stdlib Require Import ZArith Lia.
From S2P Require Import Prelude CInt.
Local Open Scope Z_scope.

(** * snmalloc, ds_core/bits.h: the bit manipulation of the allocator

    The functions of the namespace [snmalloc::bits] that the allocator uses, for the
    64 bits of [size_t].  A value of type [size_t] is a [Z] between 0 and [2 ^ 64 - 1];
    the arithmetic wraps around through [to_size].  An assertion that fails and a call
    of a builtin outside its documented domain end in [Err]. *)

Module SnBits.
Import CInt.

(** ** Operations *)

Definition BITS : Z := 64.

(** [~x] of a [size_t]. *)
Definition size_not (x : Z) : Z := to_size (Z.lnot x).

(** [x << n] of a [size_t]; a shift by the width or more is undefined. *)
Definition size_shl (x n : Z) : result Z :=
  if bool_decide (0 ≤ n < BITS) then Ok (to_size (Z.shiftl x n)) else Err Undefined.

Definition size_shr (x n : Z) : result Z :=
  if bool_decide (0 ≤ n < BITS) then Ok (Z.shiftr x n) else Err Undefined.

Definition one_at_bit (shift : Z) : result Z :=
  assert_ (to_size shift <? BITS);; size_shl 1 shift.

(** [__builtin_clzl]: the number of leading zero bits, undefined for 0. *)
Definition clz (x : Z) : result Z :=
  assert_ (negb (x =? 0));; Ok (BITS - 1 - Z.log2 x).

Fixpoint ctz_pos (p : positive) : Z :=
  match p with xO p => 1 + ctz_pos p | _ => 0 end.

(** [__builtin_ctzl]: the number of trailing zero bits, undefined for 0. *)
Definition ctz (x : Z) : result Z :=
  assert_ (negb (x =? 0));; Ok (ctz_pos (Z.to_pos x)).

(** The loop [for (int i = BITS - 1; i >= 0; i--)], with [i + 1] turns to go. *)
Fixpoint clz_loop (i : nat) (x n : Z) : result Z :=
  match i with
  | O => Ok n
  | S i =>
      mask ← one_at_bit (Z.of_nat i);
      if Z.land x mask =? mask then Ok n else clz_loop i x (n + 1)
  end.

Definition clz_const (x : Z) : result Z := clz_loop (Z.to_nat BITS) x 0.

(** The loop [for (size_t i = 0; i < BITS; i++)], with [k] turns to go. *)
Fixpoint ctz_loop (k : nat) (i x n : Z) : result Z :=
  match k with
  | O => Ok n
  | S k =>
      mask ← one_at_bit i;
      if Z.land x mask =? mask then Ok n else ctz_loop k (i + 1) x (n + 1)
  end.

Definition ctz_const (x : Z) : result Z := ctz_loop (Z.to_nat BITS) 0 x 0.

Definition rotr_const (x n : Z) : result Z :=
  let nn := Z.land n (BITS - 1) in
  a ← size_shr x nn;
  b ← size_shl x (Z.land (to_size (- nn)) (BITS - 1));
  Ok (Z.lor a b).

Definition rotl_const (x n : Z) : result Z :=
  let nn := Z.land n (BITS - 1) in
  a ← size_shl x nn;
  b ← size_shr x (Z.land (to_size (- nn)) (BITS - 1));
  Ok (Z.lor a b).

(** The product and whether it has overflowed ([__builtin_mul_overflow]). *)
Definition umul (x y : Z) : Z * bool :=
  (to_size (x * y), SIZE_MAX <? x * y).

Definition is_pow2 (x : Z) : bool := Z.land x (to_size (x - 1)) =? 0.

Definition next_pow2 (x : Z) : result Z :=
  if x <=? 2 then Ok x
  else c ← clz (to_size (x - 1)); one_at_bit (to_size (BITS - c)).

Definition next_pow2_bits (x : Z) : result Z :=
  if x =? 1 then Ok 0
  else c ← clz (to_size (x - 1)); Ok (to_size (BITS - c)).

Definition next_pow2_const (x : Z) : result Z :=
  if x <=? 2 then Ok x
  else c ← clz_const (to_size (x - 1)); one_at_bit (to_size (BITS - c)).

Definition prev_pow2_const (x : Z) : result Z :=
  if x <=? 2 then Ok x
  else c ← clz_const (to_size (x + 1)); one_at_bit (to_size (BITS - (c + 1))).

Definition next_pow2_bits_const (x : Z) : result Z :=
  c ← clz_const (to_size (x - 1)); Ok (to_size (BITS - c)).

Definition align_down (value alignment : Z) : result Z :=
  assert_ (is_pow2 alignment);;
  let align_1 := to_size (alignment - 1) in
  Ok (Z.land value (size_not align_1)).

Definition align_up (value alignment : Z) : result Z :=
  assert_ (is_pow2 alignment);;
  let align_1 := to_size (alignment - 1) in
  let value := to_size (value + align_1) in
  Ok (Z.land value (size_not align_1)).

(** The two versions of the mapping to an exponent and a mantissa differ in the
    function that counts the leading zeros. *)
Definition exp_mant_with (clz : Z → result Z) (MANTISSA_BITS LOW_BITS value : Z) : result Z :=
  lead ← one_at_bit (MANTISSA_BITS + LOW_BITS);
  let LEADING_BIT := Z.shiftr lead 1 in
  one ← one_at_bit MANTISSA_BITS;
  let MANTISSA_MASK := one - 1 in
  let value := to_size (value - 1) in
  c ← clz (Z.lor value LEADING_BIT);
  let e := to_size (BITS - MANTISSA_BITS - LOW_BITS - c) in
  let b := if e =? 0 then 0 else 1 in
  v ← size_shr value (to_size (LOW_BITS + e - b));
  let m := Z.land v MANTISSA_MASK in
  em ← size_shl e MANTISSA_BITS;
  Ok (to_size (em + m)).

Definition to_exp_mant := exp_mant_with clz.
Definition to_exp_mant_const := exp_mant_with clz_const.

Definition from_exp_mant (MANTISSA_BITS LOW_BITS m_e : Z) : result Z :=
  if 0 <? MANTISSA_BITS then
    let m_e := to_size (m_e + 1) in
    one ← one_at_bit MANTISSA_BITS;
    let MANTISSA_MASK := one - 1 in
    let m := Z.land m_e MANTISSA_MASK in
    e ← size_shr m_e MANTISSA_BITS;
    let b := if e =? 0 then 0 else 1 in
    let shifted_e := e - b in
    bm ← size_shl b MANTISSA_BITS;
    let extended_m := to_size (m + bm) in
    size_shl extended_m (to_size (shifted_e + LOW_BITS))
  else one_at_bit (to_size (m_e + LOW_BITS)).

Definition min (t1 t2 : Z) : Z := if t1 <? t2 then t1 else t2.
Definition max (t1 t2 : Z) : Z := if t2 <? t1 then t1 else t2.

(** ** Powers of two and masks *)

Lemma size_pow n : 0 ≤ n < 64 → 1 ≤ 2 ^ n ≤ 2 ^ 63.
Proof.
  intros Hn. split; [|apply Z.pow_le_mono_r; lia].
  pose proof (Z.pow_pos_nonneg 2 n). lia.
Qed.

Lemma is_size_pow n : 0 ≤ n < 64 → is_size (2 ^ n).
Proof. intros Hn. pose proof (size_pow n Hn). unfold is_size, SIZE_MAX. lia. Qed.

Lemma size_shl_Ok x n :
  0 ≤ x → 0 ≤ n < 64 → x * 2 ^ n ≤ SIZE_MAX → size_shl x n = Ok (x * 2 ^ n).
Proof.
  intros Hx Hn Hle. unfold size_shl, BITS. rewrite bool_decide_true by lia.
  rewrite Z.shiftl_mul_pow2 by lia. pose proof (size_pow n Hn).
  rewrite to_size_id; [done|]. unfold is_size. nia.
Qed.

Lemma size_shr_Ok x n : 0 ≤ n < 64 → size_shr x n = Ok (x / 2 ^ n).
Proof.
  intros Hn. unfold size_shr, BITS. rewrite bool_decide_true by lia.
  by rewrite Z.shiftr_div_pow2 by lia.
Qed.

Lemma one_at_bit_Ok n : 0 ≤ n < 64 → one_at_bit n = Ok (2 ^ n).
Proof.
  intros Hn. unfold one_at_bit. rewrite to_size_id by (unfold is_size, SIZE_MAX; lia).
  unfold BITS. rewrite (proj2 (Z.ltb_lt n 64)) by lia. cbn [assert_ mbind result_bind].
  pose proof (size_pow n Hn). rewrite size_shl_Ok; [f_equal; lia|lia..|].
  unfold SIZE_MAX. lia.
Qed.

Lemma to_size_pred x : 1 ≤ x → is_size x → to_size (x - 1) = x - 1.
Proof. intros H1 Hx. apply to_size_id. unfold is_size in *. lia. Qed.

Lemma land_pow2_pred x n : 0 ≤ n → Z.land x (2 ^ n - 1) = x mod 2 ^ n.
Proof.
  intros Hn. rewrite <- Z.land_ones by done. by rewrite Z.ones_equiv.
Qed.

Lemma size_not_testbit x i : 0 ≤ i < 64 → Z.testbit (size_not x) i = negb (Z.testbit x i).
Proof.
  intros Hi. unfold size_not, to_size. rewrite Z.mod_pow2_bits_low by lia.
  by rewrite Z.lnot_spec by lia.
Qed.

Lemma size_testbit_high x i : is_size x → 64 ≤ i → Z.testbit x i = false.
Proof.
  intros Hx Hi. unfold is_size, SIZE_MAX in Hx.
  rewrite <- (Z.mod_small x (2 ^ 64)) by lia. apply Z.mod_pow2_bits_high. lia.
Qed.

Lemma size_of_bits x : 0 ≤ x → (∀ i, 64 ≤ i → Z.testbit x i = false) → is_size x.
Proof.
  intros Hx Hb. assert (E : x = x mod 2 ^ 64).
  { apply Z.bits_inj'. intros i Hi. destruct (decide (i < 64)).
    - by rewrite Z.mod_pow2_bits_low by lia.
    - rewrite Z.mod_pow2_bits_high by lia. apply Hb. lia. }
  pose proof (Z.mod_pos_bound x (2 ^ 64) ltac:(lia)). unfold is_size, SIZE_MAX. lia.
Qed.

Lemma mod_of_bits x n : 0 ≤ n → (∀ i, 0 ≤ i < n → Z.testbit x i = false) → x mod 2 ^ n = 0.
Proof.
  intros Hn Hb. apply Z.bits_inj'. intros i Hi. rewrite Z.bits_0. destruct (decide (i < n)).
  - rewrite Z.mod_pow2_bits_low by lia. apply Hb. lia.
  - by rewrite Z.mod_pow2_bits_high by lia.
Qed.

Lemma size_land_not x y : is_size (Z.land x (size_not y)).
Proof.
  assert (Hn : ∀ i, 64 ≤ i → Z.testbit (size_not y) i = false).
  { intros i Hi. unfold size_not, to_size. by rewrite Z.mod_pow2_bits_high by lia. }
  apply size_of_bits; [apply Z.land_nonneg; right; unfold size_not, to_size; by apply Z.mod_pos_bound|].
  intros i Hi. by rewrite Z.land_spec, Hn, andb_false_r.
Qed.

(** [x & ~(2 ^ n - 1)] clears the bits below [n]. *)
Lemma land_size_not x n :
  is_size x → 0 ≤ n → Z.land x (size_not (2 ^ n - 1)) = x / 2 ^ n * 2 ^ n.
Proof.
  intros Hx Hn. rewrite <- Z.shiftr_div_pow2, <- Z.shiftl_mul_pow2 by done.
  rewrite <- Z.ldiff_ones_r by done. apply Z.bits_inj'. intros i Hi.
  rewrite Z.land_spec, Z.ldiff_spec, Z.ones_equiv, <- Z.sub_1_r.
  destruct (decide (i < 64)).
  - by rewrite size_not_testbit by lia.
  - by rewrite (size_testbit_high x i) by (done || lia).
Qed.

Lemma is_pow2_pow n : 0 ≤ n < 64 → is_pow2 (2 ^ n) = true.
Proof.
  intros Hn. unfold is_pow2. pose proof (size_pow n Hn).
  rewrite to_size_pred by (done || lia || by apply is_size_pow).
  rewrite land_pow2_pred by lia. apply Z.eqb_eq, Z.mod_same. lia.
Qed.

(** The test accepts the powers of two and 0. *)
Lemma is_pow2_spec x :
  is_size x → is_pow2 x = true → x = 0 ∨ ∃ n, 0 ≤ n < 64 ∧ x = 2 ^ n.
Proof.
  intros Hx H. destruct (decide (x = 0)) as [|H0]; [by left|right].
  assert (Hp : 0 < x) by (unfold is_size in Hx; lia).
  exists (Z.log2 x). pose proof (Z.log2_spec x Hp) as [Hl Hu].
  assert (0 ≤ Z.log2 x < 64).
  { split; [apply Z.log2_nonneg|]. unfold is_size, SIZE_MAX in Hx.
    apply Z.log2_lt_pow2; lia. }
  split; [done|]. unfold is_pow2 in H. apply Z.eqb_eq in H.
  rewrite to_size_pred in H by (done || lia).
  destruct (decide (x = 2 ^ Z.log2 x)) as [|Hne]; [done|exfalso].
  assert (Hb : Z.testbit (Z.land x (x - 1)) (Z.log2 x) = true).
  { rewrite Z.land_spec, Z.bit_log2 by done.
    replace (Z.log2 x) with (Z.log2 (x - 1)); [rewrite Z.bit_log2; [done|lia]|].
    apply Z.log2_unique; [apply Z.log2_nonneg|lia]. }
  by rewrite H, Z.bits_0 in Hb.
Qed.

Lemma align_down_pow x n :
  is_size x → 0 ≤ n < 64 → align_down x (2 ^ n) = Ok (x / 2 ^ n * 2 ^ n).
Proof.
  intros Hx Hn. pose proof (size_pow n Hn). unfold align_down.
  rewrite is_pow2_pow by done. cbn [assert_ mbind result_bind].
  rewrite to_size_pred by (lia || by apply is_size_pow).
  by rewrite land_size_not by (done || lia).
Qed.

Lemma align_up_pow x n :
  is_size (x + 2 ^ n - 1) → 0 ≤ x → 0 ≤ n < 64 →
  align_up x (2 ^ n) = Ok ((x + 2 ^ n - 1) / 2 ^ n * 2 ^ n).
Proof.
  intros Hx H0 Hn. pose proof (size_pow n Hn). unfold align_up.
  rewrite is_pow2_pow by done. cbn [assert_ mbind result_bind].
  rewrite to_size_pred by (lia || by apply is_size_pow).
  rewrite Z.add_sub_assoc, to_size_id by done.
  by rewrite land_size_not by (done || lia).
Qed.

(** ** Counting zeros *)

Lemma clz_Ok x : 0 < x → clz x = Ok (63 - Z.log2 x).
Proof.
  intros Hx. unfold clz. rewrite (proj2 (Z.eqb_neq x 0)) by lia. done.
Qed.

Lemma log2_size x : 0 < x → is_size x → 0 ≤ Z.log2 x < 64.
Proof.
  intros H0 Hx. unfold is_size, SIZE_MAX in Hx.
  split; [apply Z.log2_nonneg|apply Z.log2_lt_pow2; lia].
Qed.

Lemma ctz_pos_spec p : 0 ≤ ctz_pos p ∧ ∃ q, Zpos p = 2 ^ ctz_pos p * (2 * q + 1) ∧ 0 ≤ q.
Proof.
  induction p as [p IH|p IH|]; cbn [ctz_pos].
  - split; [done|]. exists (Zpos p). cbn [Z.pow]. lia.
  - destruct IH as (H0 & q & Hq & ?). split; [lia|]. exists q. split; [|done].
    rewrite Z.pow_add_r by lia. rewrite Pos2Z.inj_xO, Hq. lia.
  - split; [done|]. exists 0. done.
Qed.

Lemma ctz_Ok x : 0 < x →
  ∃ n q, ctz x = Ok n ∧ 0 ≤ n ∧ x = 2 ^ n * (2 * q + 1) ∧ 0 ≤ q.
Proof.
  intros Hx. unfold ctz. rewrite (proj2 (Z.eqb_neq x 0)) by lia.
  cbn [negb assert_ mbind result_bind].
  destruct (ctz_pos_spec (Z.to_pos x)) as (H0 & q & Hq & ?).
  exists (ctz_pos (Z.to_pos x)), q. rewrite Z2Pos.id in Hq by done. done.
Qed.

Lemma land_bit x i : 0 ≤ i → (Z.land x (2 ^ i) =? 2 ^ i) = Z.testbit x i.
Proof.
  intros Hi. destruct (Z.testbit x i) eqn:Hb.
  - apply Z.eqb_eq, Z.bits_inj'. intros j Hj. rewrite Z.land_spec, Z.pow2_bits_eqb by done.
    destruct (Z.eqb_spec i j) as [->|]; [by rewrite Hb|by rewrite andb_false_r].
  - apply Z.eqb_neq. intros E. apply (f_equal (λ z, Z.testbit z i)) in E.
    rewrite Z.land_spec, Hb, Z.pow2_bits_true in E by done. discriminate E.
Qed.

Lemma clz_loop_Ok i x n :
  (i ≤ 64)%nat → 0 < x → Z.log2 x < Z.of_nat i →
  clz_loop i x n = Ok (n + (Z.of_nat i - 1 - Z.log2 x)).
Proof.
  revert n; induction i as [|i IH]; intros n Hi Hx Hl; [pose proof (Z.log2_nonneg x); lia|].
  cbn [clz_loop]. rewrite one_at_bit_Ok by lia. cbn [mbind result_bind].
  rewrite land_bit by lia.
  destruct (decide (Z.log2 x = Z.of_nat i)) as [E|].
  - rewrite <- E, Z.bit_log2 by done. f_equal. lia.
  - rewrite Z.bits_above_log2 by lia. rewrite IH by lia. f_equal. lia.
Qed.

Lemma clz_const_Ok x : 0 < x → is_size x → clz_const x = Ok (63 - Z.log2 x).
Proof.
  intros H0 Hx. pose proof (log2_size x H0 Hx). unfold clz_const.
  rewrite clz_loop_Ok by (change (Z.to_nat BITS) with 64%nat; lia).
  change (Z.of_nat (Z.to_nat BITS)) with 64. f_equal; lia.
Qed.

Lemma clz_const_0 : clz_const 0 = Ok 64.
Proof. reflexivity. Qed.

(** ** The next power of two *)

(** The exponent of the smallest power of two that is not below [x]. *)
Definition ceil_log2 (x : Z) : Z := if x =? 1 then 0 else Z.log2 (x - 1) + 1.

Lemma ceil_log2_spec x n : 1 ≤ x → 0 ≤ n → (ceil_log2 x ≤ n ↔ x ≤ 2 ^ n).
Proof.
  intros Hx Hn. unfold ceil_log2. destruct (Z.eqb_spec x 1) as [->|].
  - split; [|lia]. intros _. pose proof (Z.pow_pos_nonneg 2 n). lia.
  - split.
    + intros Hl. pose proof (Z.log2_spec (x - 1)). pose proof (Z.log2_nonneg (x - 1)).
      pose proof (Z.pow_le_mono_r 2 (Z.succ (Z.log2 (x - 1))) n). lia.
    + intros Hle. assert (Z.log2 (x - 1) < n); [|lia]. apply Z.log2_lt_pow2; lia.
Qed.

Lemma ceil_log2_nonneg x : 0 ≤ ceil_log2 x.
Proof.
  unfold ceil_log2. destruct (x =? 1); [done|]. pose proof (Z.log2_nonneg (x - 1)). lia.
Qed.

Lemma ceil_log2_le x : 1 ≤ x → x ≤ 2 ^ ceil_log2 x.
Proof. intros Hx. apply ceil_log2_spec; [done|apply ceil_log2_nonneg|done]. Qed.

Lemma ceil_log2_gt x : 1 < x → 2 ^ (ceil_log2 x - 1) < x.
Proof.
  intros Hx. destruct (Z.lt_ge_cases (2 ^ (ceil_log2 x - 1)) x) as [|H]; [done|].
  assert (0 < ceil_log2 x).
  { unfold ceil_log2. destruct (Z.eqb_spec x 1); [lia|]. pose proof (Z.log2_nonneg (x - 1)). lia. }
  apply ceil_log2_spec in H; lia.
Qed.

Lemma ceil_log2_pow n : 0 ≤ n → ceil_log2 (2 ^ n) = n.
Proof.
  intros Hn. pose proof (Z.pow_pos_nonneg 2 n).
  apply Z.le_antisymm.
  - apply ceil_log2_spec; lia.
  - apply Z.le_ngt. intros Hlt. pose proof (ceil_log2_le (2 ^ n)).
    pose proof (Z.pow_lt_mono_r 2 (ceil_log2 (2 ^ n)) n). lia.
Qed.

Lemma ceil_log2_size x : 1 ≤ x → is_size x → 0 ≤ ceil_log2 x ≤ 64.
Proof.
  intros H1 Hx. split; [apply ceil_log2_nonneg|].
  apply ceil_log2_spec; [done..|]. unfold is_size, SIZE_MAX in Hx. lia.
Qed.

Lemma next_pow2_bits_Ok x : 1 ≤ x → is_size x → next_pow2_bits x = Ok (ceil_log2 x).
Proof.
  intros H1 Hx. unfold next_pow2_bits, ceil_log2.
  destruct (Z.eqb_spec x 1) as [->|]; [done|].
  rewrite to_size_pred by done.
  assert (Hs : is_size (x - 1)) by (unfold is_size in *; lia).
  pose proof (log2_size (x - 1) ltac:(lia) Hs).
  rewrite clz_Ok by lia. cbn [mbind result_bind]. unfold BITS.
  rewrite to_size_id by (unfold is_size, SIZE_MAX; lia). f_equal. lia.
Qed.

Lemma next_pow2_bits_const_Ok x :
  1 ≤ x → is_size x → next_pow2_bits_const x = Ok (ceil_log2 x).
Proof.
  intros H1 Hx. unfold next_pow2_bits_const, ceil_log2.
  destruct (Z.eqb_spec x 1) as [->|]; [done|].
  rewrite to_size_pred by done.
  assert (Hs : is_size (x - 1)) by (unfold is_size in *; lia).
  pose proof (log2_size (x - 1) ltac:(lia) Hs).
  rewrite clz_const_Ok by (done || lia). cbn [mbind result_bind]. unfold BITS.
  rewrite to_size_id by (unfold is_size, SIZE_MAX; lia). f_equal. lia.
Qed.

Lemma next_pow2_Ok x : 1 ≤ x ≤ 2 ^ 63 → next_pow2 x = Ok (2 ^ ceil_log2 x).
Proof.
  intros [H1 H2]. unfold next_pow2.
  destruct (Z.leb_spec x 2).
  { assert (x = 1 ∨ x = 2) as [-> | ->] by lia; done. }
  assert (Hs : is_size x) by (unfold is_size, SIZE_MAX; lia).
  rewrite to_size_pred by (done || lia). rewrite clz_Ok by lia. cbn [mbind result_bind].
  assert (Hc : 0 ≤ ceil_log2 x ≤ 63).
  { split; [apply ceil_log2_nonneg|]. apply ceil_log2_spec; lia. }
  assert (Hd : BITS - (63 - Z.log2 (x - 1)) = ceil_log2 x).
  { unfold BITS, ceil_log2. destruct (Z.eqb_spec x 1); lia. }
  rewrite Hd, to_size_id by (unfold is_size, SIZE_MAX; lia).
  apply one_at_bit_Ok. lia.
Qed.

Lemma next_pow2_const_eq x : 0 ≤ x ≤ 2 ^ 63 → next_pow2_const x = next_pow2 x.
Proof.
  intros [H1 H2]. unfold next_pow2_const, next_pow2.
  destruct (Z.leb_spec x 2); [done|].
  assert (Hs : is_size x) by (unfold is_size, SIZE_MAX; lia).
  rewrite to_size_pred by (done || lia).
  rewrite clz_Ok, clz_const_Ok; [done|lia| |lia]. unfold is_size in *. lia.
Qed.

(** Past [2 ^ 63] the shift leaves the type: the assertion of [one_at_bit] fails. *)
Lemma next_pow2_overflow x : 2 ^ 63 < x → is_size x → next_pow2 x = Err AssertFail.
Proof.
  intros H Hx. unfold next_pow2. destruct (Z.leb_spec x 2); [lia|].
  rewrite to_size_pred by (done || lia).
  assert (Hs : is_size (x - 1)) by (unfold is_size in *; lia).
  pose proof (log2_size (x - 1) ltac:(lia) Hs).
  assert (63 ≤ Z.log2 (x - 1)) by (apply Z.log2_le_pow2; lia).
  rewrite clz_Ok by lia. cbn [mbind result_bind].
  by replace (Z.log2 (x - 1)) with 63 by lia.
Qed.

(** The same function for constants rounds up as well, and not down as its comment says. *)
Example prev_pow2_const_7 : prev_pow2_const 7 = Ok 8.
Proof. reflexivity. Qed.

(** ** The mapping to an exponent and a mantissa *)

Lemma div_mod_add q r b : 0 ≤ r < b → (q * b + r) / b = q ∧ (q * b + r) mod b = r.
Proof.
  intros Hr. split.
  - rewrite Z.div_add_l, Z.div_small by lia. lia.
  - rewrite Z.add_comm, Z.mod_add, Z.mod_small by lia. done.
Qed.

Section ExpMant.
Context (M L : Z) (HM : 0 < M) (HL : 0 ≤ L) (HN : M + L < 57).

(** What the two directions compute, with [w = value - 1]. *)
Definition exp_shift (w : Z) : Z := Z.max 0 (Z.log2 w - (M + L)).
Definition class_of (w : Z) : Z := exp_shift w * 2 ^ M + w / 2 ^ (L + exp_shift w).
Definition class_value (c : Z) : Z :=
  if c + 1 <? 2 ^ M then (c + 1) * 2 ^ L
  else ((c + 1) mod 2 ^ M + 2 ^ M) * 2 ^ ((c + 1) / 2 ^ M - 1 + L).

Lemma pow_M_pos : 2 ≤ 2 ^ M.
Proof. pose proof (Z.pow_le_mono_r 2 1 M). lia. Qed.

Lemma exp_shift_nonneg w : 0 ≤ exp_shift w.
Proof. unfold exp_shift. lia. Qed.

Lemma exp_shift_small w : w < 2 ^ (M + L + 1) → exp_shift w = 0.
Proof.
  intros Hw. unfold exp_shift. destruct (Z.le_gt_cases w 0).
  - rewrite Z.log2_nonpos by done. lia.
  - pose proof (proj1 (Z.log2_lt_pow2 w (M + L + 1) ltac:(lia)) Hw). lia.
Qed.

(** A value in the part of exponent [k + 1] has [M + 1] bits above the shift. *)
Lemma exp_shift_unique w k :
  0 ≤ k → 2 ^ (M + L + k) ≤ w < 2 ^ (M + L + k + 1) → exp_shift w = k.
Proof.
  intros Hk Hw. unfold exp_shift.
  pose proof (Z.log2_unique w (M + L + k) ltac:(lia) Hw). lia.
Qed.

Lemma class_mantissa_lt w : 0 ≤ w → w / 2 ^ (L + exp_shift w) < 2 ^ (M + 1).
Proof.
  intros Hw. pose proof (exp_shift_nonneg w).
  apply Z.div_lt_upper_bound; [apply Z.pow_pos_nonneg; lia|].
  rewrite <- Z.pow_add_r by lia.
  destruct (decide (w = 0)) as [->|]; [apply Z.pow_pos_nonneg; lia|].
  apply Z.log2_lt_pow2; [lia|]. unfold exp_shift. lia.
Qed.

Lemma class_mantissa_ge w : 0 < exp_shift w → 2 ^ M ≤ w / 2 ^ (L + exp_shift w).
Proof.
  intros Hs. assert (Hw : 0 < w).
  { destruct (Z.le_gt_cases w 0); [|done]. unfold exp_shift in Hs.
    rewrite Z.log2_nonpos in Hs by done. lia. }
  apply Z.div_le_lower_bound; [apply Z.pow_pos_nonneg; lia|].
  rewrite <- Z.pow_add_r by lia. apply Z.log2_le_pow2; [lia|]. unfold exp_shift in *. lia.
Qed.

Lemma class_of_mono w w' : 0 ≤ w ≤ w' → class_of w ≤ class_of w'.
Proof.
  intros [Hw Hle]. unfold class_of.
  assert (Hk : exp_shift w ≤ exp_shift w').
  { unfold exp_shift. pose proof (Z.log2_le_mono w w' Hle). lia. }
  pose proof (exp_shift_nonneg w) as H0. pose proof pow_M_pos.
  destruct (decide (exp_shift w = exp_shift w')) as [E|].
  - rewrite E. pose proof (Z.div_le_mono w w' (2 ^ (L + exp_shift w'))).
    pose proof (Z.pow_pos_nonneg 2 (L + exp_shift w')). lia.
  - pose proof (class_mantissa_lt w Hw). pose proof (class_mantissa_ge w' ltac:(lia)).
    rewrite (Z.pow_add_r 2 M 1) in * by lia.
    set (q := w / _) in *. set (q' := w' / _) in *. set (p := 2 ^ M) in *.
    assert (exp_shift w * p + p ≤ exp_shift w' * p) by nia. lia.
Qed.

Lemma class_value_pos c : 0 ≤ c → 0 < class_value c.
Proof.
  intros Hc. unfold class_value. pose proof pow_M_pos.
  pose proof (Z.pow_pos_nonneg 2 L). destruct (Z.ltb_spec (c + 1) (2 ^ M)); [nia|].
  pose proof (Z.mod_pos_bound (c + 1) (2 ^ M)).
  assert (1 ≤ (c + 1) / 2 ^ M) by (apply Z.div_le_lower_bound; lia).
  pose proof (Z.pow_pos_nonneg 2 ((c + 1) / 2 ^ M - 1 + L)). nia.
Qed.

(** The value of the class of [w + 1] is [w] rounded up to the granule of the class. *)
Lemma class_value_of w : 0 ≤ w →
  class_value (class_of w) = (w / 2 ^ (L + exp_shift w) + 1) * 2 ^ (L + exp_shift w).
Proof.
  intros Hw. pose proof (exp_shift_nonneg w) as H0. pose proof pow_M_pos.
  pose proof (class_mantissa_lt w Hw) as Hlt.
  assert (Hge : exp_shift w = 0 ∨ 2 ^ M ≤ w / 2 ^ (L + exp_shift w)).
  { destruct (decide (0 < exp_shift w)); [right; by apply class_mantissa_ge|left; lia]. }
  rewrite (Z.pow_add_r 2 M 1) in Hlt by lia.
  assert (Hq : 0 ≤ w / 2 ^ (L + exp_shift w)) by (apply Z.div_pos; [lia|apply Z.pow_pos_nonneg; lia]).
  unfold class_value, class_of.
  set (k := exp_shift w) in *. set (q := w / 2 ^ (L + k)) in *.
  destruct (Z.ltb_spec (k * 2 ^ M + q + 1) (2 ^ M)) as [Hsm|Hbg].
  - assert (k = 0) as -> by nia. rewrite Z.add_0_r. f_equal; lia.
  - assert (Hcase : q + 1 < 2 ^ (M + 1) ∧ 2 ^ M ≤ q + 1 ∨ q + 1 = 2 ^ (M + 1)).
    { rewrite (Z.pow_add_r 2 M 1) by lia. destruct Hge as [E | ?]; [rewrite E in Hbg|]; lia. }
    rewrite (Z.pow_add_r 2 M 1) in Hcase by lia. destruct Hcase as [[Hlt' Hge']|E].
    + replace (k * 2 ^ M + q + 1) with ((k + 1) * 2 ^ M + (q + 1 - 2 ^ M)) by lia.
      destruct (div_mod_add (k + 1) (q + 1 - 2 ^ M) (2 ^ M)) as [-> ->]; [lia|].
      f_equal; [lia|]. f_equal. lia.
    + replace (k * 2 ^ M + q + 1) with ((k + 2) * 2 ^ M + 0) by lia.
      destruct (div_mod_add (k + 2) 0 (2 ^ M)) as [-> ->]; [lia|].
      rewrite E. replace (k + 2 - 1 + L) with (1 + (L + k)) by lia.
      rewrite (Z.pow_add_r 2 1 (L + k)) by lia. lia.
Qed.

(** The values of the classes come back to their classes. *)
Lemma class_of_value c : 0 ≤ c → class_of (class_value c - 1) = c.
Proof.
  intros Hc. unfold class_of, class_value. pose proof pow_M_pos.
  pose proof (Z.pow_pos_nonneg 2 L ltac:(lia) HL).
  destruct (Z.ltb_spec (c + 1) (2 ^ M)).
  - rewrite exp_shift_small.
    2:{ rewrite !Z.pow_add_r by lia. nia. }
    rewrite Z.add_0_r. replace ((c + 1) * 2 ^ L - 1) with (c * 2 ^ L + (2 ^ L - 1)) by lia.
    rewrite Z.div_add_l, (Z.div_small (2 ^ L - 1)) by lia. lia.
  - pose proof (Z.mod_pos_bound (c + 1) (2 ^ M) ltac:(lia)) as Hr.
    pose proof (Z.div_mod (c + 1) (2 ^ M) ltac:(lia)) as Hdm.
    assert (He : 1 ≤ (c + 1) / 2 ^ M) by (apply Z.div_le_lower_bound; lia).
    set (e := (c + 1) / 2 ^ M) in *. set (r := (c + 1) mod 2 ^ M) in *.
    destruct (decide (r = 0)) as [Er|Er]; [rewrite Er in *; destruct (decide (e = 1)) as [Ee|Ee]|].
    + rewrite Ee in *. replace (1 - 1 + L) with L by lia.
      rewrite exp_shift_small by (rewrite !Z.pow_add_r by lia; nia).
      rewrite Z.add_0_r. replace ((0 + 2 ^ M) * 2 ^ L - 1) with ((2 ^ M - 1) * 2 ^ L + (2 ^ L - 1)) by lia.
      rewrite Z.div_add_l, (Z.div_small (2 ^ L - 1)) by lia. lia.
    + set (g := 2 ^ (L + (e - 2))). assert (0 < g) by (apply Z.pow_pos_nonneg; lia).
      assert (Hg : 2 ^ (e - 1 + L) = 2 * g).
      { unfold g. rewrite <- Z.pow_succ_r by lia. f_equal. lia. }
      rewrite Hg. rewrite (exp_shift_unique _ (e - 2)) by first
        [lia | rewrite <- !Z.add_assoc, !(Z.pow_add_r 2 M) by lia;
          replace (2 ^ (L + (e - 2 + 1))) with (2 * g) by (rewrite <- Hg; f_equal; lia);
          fold g; nia].
      fold g. replace ((0 + 2 ^ M) * (2 * g) - 1) with ((2 ^ M * 2 - 1) * g + (g - 1)) by lia.
      rewrite Z.div_add_l, (Z.div_small (g - 1)) by lia. lia.
    + set (g := 2 ^ (L + (e - 1))). assert (0 < g) by (apply Z.pow_pos_nonneg; lia).
      replace (2 ^ (e - 1 + L)) with g by (unfold g; f_equal; lia).
      rewrite (exp_shift_unique _ (e - 1)) by first
        [lia | rewrite <- !Z.add_assoc, !(Z.pow_add_r 2 M) by lia;
          replace (2 ^ (L + (e - 1 + 1))) with (2 * g)
            by (unfold g; rewrite <- Z.pow_succ_r by lia; f_equal; lia);
          fold g; nia].
      fold g. replace ((r + 2 ^ M) * g - 1) with ((r + 2 ^ M - 1) * g + (g - 1)) by lia.
      rewrite Z.div_add_l, (Z.div_small (g - 1)) by lia. lia.
Qed.
(** The code computes these functions. *)
Lemma lead_bit_log2 w : 0 ≤ w →
  Z.log2 (Z.lor w (2 ^ (M + L) / 2)) = Z.max (Z.log2 w) (M + L - 1).
Proof.
  intros Hw. replace (2 ^ (M + L) / 2) with (2 ^ (M + L - 1)).
  2:{ replace (M + L) with (Z.succ (M + L - 1)) at 2 by lia.
      rewrite Z.pow_succ_r, Z.mul_comm, Z.div_mul by lia. done. }
  rewrite Z.log2_lor, Z.log2_pow2 by (done || lia || (apply Z.pow_nonneg; lia)). done.
Qed.

Lemma exp_mant_with_Ok f v :
  (∀ x, 0 < x → is_size x → f x = Ok (63 - Z.log2 x)) →
  1 ≤ v → is_size v → exp_mant_with f M L v = Ok (class_of (v - 1)).
Proof.
  intros Hf H1 Hv. unfold exp_mant_with.
  rewrite one_at_bit_Ok by lia. cbn [mbind result_bind].
  rewrite one_at_bit_Ok by lia. cbn [mbind result_bind].
  rewrite to_size_pred by done.
  assert (Hw : 0 ≤ v - 1) by lia.
  assert (Hws : is_size (v - 1)) by (unfold is_size in *; lia).
  set (w := v - 1) in *. rewrite <- Z.div2_spec, Z.div2_div.
  assert (Hlw : Z.log2 w < 64).
  { destruct (decide (w = 0)) as [->|]; [done|]. apply log2_size; [lia|done]. }
  pose proof (lead_bit_log2 w Hw) as Hlog. pose proof (Z.log2_nonneg w).
  assert (Hpos : 0 < 2 ^ (M + L) / 2).
  { apply Z.div_str_pos. pose proof (Z.pow_le_mono_r 2 1 (M + L)). lia. }
  assert (Hor : 0 < Z.lor w (2 ^ (M + L) / 2)).
  { assert (Z.lor w (2 ^ (M + L) / 2) ≠ 0) by (intros ?%Z.lor_eq_0_iff; lia).
    pose proof (proj2 (Z.lor_nonneg w (2 ^ (M + L) / 2)) ltac:(lia)). lia. }
  rewrite Hf; [|done|].
  2:{ assert (Z.lor w (2 ^ (M + L) / 2) < 2 ^ 64); [|unfold is_size, SIZE_MAX; lia].
      apply Z.log2_lt_pow2; lia. }
  cbn [mbind result_bind]. rewrite Hlog. unfold BITS.
  set (e := 64 - M - L - (63 - Z.max (Z.log2 w) (M + L - 1))).
  assert (He : 0 ≤ e ≤ 64 ∧ exp_shift w = e - (if e =? 0 then 0 else 1)).
  { unfold exp_shift. destruct (Z.eqb_spec e 0); lia. }
  destruct He as [He Hsh]. rewrite (to_size_id e) by (unfold is_size, SIZE_MAX; lia).
  replace (L + e - (if e =? 0 then 0 else 1)) with (L + exp_shift w) by lia.
  pose proof (exp_shift_nonneg w).
  assert (Hs64 : L + exp_shift w < 64) by (unfold exp_shift; lia).
  rewrite (to_size_id (L + exp_shift w)) by (unfold is_size, SIZE_MAX; lia).
  rewrite size_shr_Ok by lia. cbn [mbind result_bind].
  pose proof (Z.pow_pos_nonneg 2 M ltac:(lia) ltac:(lia)).
  assert (Hp : 2 ^ M ≤ 2 ^ 56) by (apply Z.pow_le_mono_r; lia).
  rewrite size_shl_Ok by (unfold SIZE_MAX; nia || lia). cbn [mbind result_bind].
  rewrite land_pow2_pred by lia. pose proof (class_mantissa_lt w Hw) as Hm.
  assert (Hq : 0 ≤ w / 2 ^ (L + exp_shift w))
    by (apply Z.div_pos; [done|apply Z.pow_pos_nonneg; lia]).
  pose proof (Z.mod_pos_bound (w / 2 ^ (L + exp_shift w)) (2 ^ M) ltac:(lia)).
  rewrite to_size_id by (unfold is_size, SIZE_MAX; nia). f_equal. unfold class_of.
  rewrite (Z.pow_add_r 2 M 1) in Hm by lia.
  destruct (Z.eqb_spec e 0) as [E|E].
  - replace e with 0 by lia. rewrite Hsh, E. replace (L + (0 - 0)) with L in * by lia.
    rewrite Z.mod_small; [lia|]. split; [apply Z.div_pos; [lia|apply Z.pow_pos_nonneg; lia]|].
    apply Z.div_lt_upper_bound; [apply Z.pow_pos_nonneg; lia|].
    rewrite <- Z.pow_add_r by lia. destruct (decide (w = 0)) as [->|]; [apply Z.pow_pos_nonneg; lia|].
    apply Z.log2_lt_pow2; lia.
  - assert (Hge : 2 ^ M ≤ w / 2 ^ (L + exp_shift w)).
    { apply Z.div_le_lower_bound; [apply Z.pow_pos_nonneg; lia|].
      rewrite <- Z.pow_add_r by lia. apply Z.log2_le_pow2; [|lia].
      destruct (decide (w = 0)) as [E0|]; [|lia].
      assert (Z.log2 w = 0) by (by rewrite E0). lia. }
    set (q := w / _) in *.
    replace q with (1 * 2 ^ M + (q - 2 ^ M)) at 1 by lia.
    destruct (div_mod_add 1 (q - 2 ^ M) (2 ^ M)) as [_ ->]; [lia|]. rewrite Hsh. lia.
Qed.

Lemma from_exp_mant_Ok c :
  0 ≤ c → class_value c ≤ SIZE_MAX → from_exp_mant M L c = Ok (class_value c).
Proof.
  intros Hc Hv. pose proof pow_M_pos. pose proof (Z.pow_pos_nonneg 2 L ltac:(lia) HL).
  assert (Hp : 2 ^ M ≤ 2 ^ 56) by (apply Z.pow_le_mono_r; lia).
  unfold from_exp_mant. rewrite (proj2 (Z.ltb_lt 0 M) HM).
  unfold class_value in *.
  pose proof (Z.mod_pos_bound (c + 1) (2 ^ M) ltac:(lia)) as Hr.
  pose proof (Z.div_mod (c + 1) (2 ^ M) ltac:(lia)) as Hdm.
  assert (Hsz : is_size (c + 1) ∧ ((c + 1) / 2 ^ M < 57 + 57)).
  { destruct (Z.ltb_spec (c + 1) (2 ^ M)).
    - rewrite Z.div_small by lia. unfold is_size, SIZE_MAX. lia.
    - assert (He : 1 ≤ (c + 1) / 2 ^ M) by (apply Z.div_le_lower_bound; lia).
      assert (Hlt : 2 ^ ((c + 1) / 2 ^ M - 1 + L) < 2 ^ 63).
      { unfold SIZE_MAX in Hv. pose proof (Z.pow_pos_nonneg 2 ((c + 1) / 2 ^ M - 1 + L)). nia. }
      apply Z.pow_lt_mono_r_iff in Hlt; [|lia..]. unfold is_size, SIZE_MAX. nia. }
  destruct Hsz as [Hsz He].
  rewrite to_size_id by done. rewrite one_at_bit_Ok by lia. cbn [mbind result_bind].
  rewrite size_shr_Ok by lia. cbn [mbind result_bind]. rewrite land_pow2_pred by lia.
  destruct (Z.ltb_spec (c + 1) (2 ^ M)).
  - rewrite (Z.div_small (c + 1)), Z.mod_small by lia. cbn [Z.eqb].
    rewrite size_shl_Ok by (unfold SIZE_MAX; lia). cbn [mbind result_bind].
    rewrite (to_size_id (c + 1 + 0 * _)) by (unfold is_size, SIZE_MAX; lia).
    rewrite (to_size_id (0 - 0 + L)) by (unfold is_size, SIZE_MAX; lia).
    replace (c + 1 + 0 * 2 ^ M) with (c + 1) by lia. apply size_shl_Ok; lia.
  - assert (He1 : 1 ≤ (c + 1) / 2 ^ M) by (apply Z.div_le_lower_bound; lia).
    destruct (Z.eqb_spec ((c + 1) / 2 ^ M) 0); [lia|].
    rewrite size_shl_Ok by (unfold SIZE_MAX; lia). cbn [mbind result_bind].
    rewrite (to_size_id ((c + 1) mod _ + _)) by (unfold is_size, SIZE_MAX; lia).
    rewrite (to_size_id ((c + 1) / _ - 1 + L)) by (unfold is_size, SIZE_MAX; lia).
    rewrite Z.mul_1_l.
    assert (Hlt : 2 ^ ((c + 1) / 2 ^ M - 1 + L) < 2 ^ 63).
    { unfold SIZE_MAX in Hv. pose proof (Z.pow_pos_nonneg 2 ((c + 1) / 2 ^ M - 1 + L)). nia. }
    apply Z.pow_lt_mono_r_iff in Hlt; [|lia..]. apply size_shl_Ok; lia.
Qed.

Lemma class_value_of_le v : 1 ≤ v ≤ 2 ^ 63 →
  v ≤ class_value (class_of (v - 1)) ≤ 2 ^ 63.
Proof.
  intros [H1 H2]. rewrite class_value_of by lia.
  pose proof (exp_shift_nonneg (v - 1)).
  assert (Hs : L + exp_shift (v - 1) ≤ 62).
  { unfold exp_shift. destruct (decide (v = 1)) as [E|].
    { assert (Z.log2 (v - 1) = 0) by (by rewrite E). lia. }
    pose proof (proj1 (Z.log2_lt_pow2 (v - 1) 63 ltac:(lia)) ltac:(lia)). lia. }
  set (s := L + exp_shift (v - 1)) in *.
  pose proof (Z.pow_pos_nonneg 2 s ltac:(lia) ltac:(lia)).
  pose proof (Z.div_mod (v - 1) (2 ^ s) ltac:(lia)).
  pose proof (Z.mod_pos_bound (v - 1) (2 ^ s) ltac:(lia)). split; [nia|].
  assert (Hlt : (v - 1) / 2 ^ s < 2 ^ (63 - s)).
  { apply Z.div_lt_upper_bound; [lia|]. rewrite <- Z.pow_add_r by lia.
    replace (s + (63 - s)) with 63 by lia. lia. }
  replace (2 ^ 63) with (2 ^ (63 - s) * 2 ^ s); [nia|].
  rewrite <- Z.pow_add_r by lia. f_equal. lia.
Qed.
End ExpMant.

(** The mapping of sizes to classes by an exponent and a mantissa of any widths:
    a size up to [2 ^ 63] goes to a class whose size is at least the size, every class
    with that property is at or above it, and the size of a class goes back to the
    class; counting the zeros with the loop or with the builtin is the same. *)
Theorem exp_mant_smallest M L v :
  0 < M → 0 ≤ L → M + L < 57 → 1 ≤ v ≤ 2 ^ 63 →
  ∃ c s, to_exp_mant M L v = Ok c ∧ to_exp_mant_const M L v = Ok c ∧
    from_exp_mant M L c = Ok s ∧ v ≤ s ≤ 2 ^ 63 ∧ to_exp_mant M L s = Ok c ∧
    ∀ c' s', 0 ≤ c' → from_exp_mant M L c' = Ok s' → v ≤ s' → c ≤ c'.
Proof.
  intros HM HL HN Hv.
  assert (Hvs : is_size v) by (unfold is_size, SIZE_MAX; lia).
  pose proof (class_value_of_le M L HM HL HN v Hv) as [Hle Hmax].
  assert (Hc0 : 0 ≤ class_of M L (v - 1)).
  { unfold class_of. pose proof (exp_shift_nonneg M L (v - 1)).
    pose proof (pow_M_pos M HM). pose proof (Z.pow_pos_nonneg 2 (L + exp_shift M L (v - 1))).
    pose proof (Z.div_pos (v - 1) (2 ^ (L + exp_shift M L (v - 1)))). nia. }
  exists (class_of M L (v - 1)), (class_value M L (class_of M L (v - 1))).
  unfold to_exp_mant, to_exp_mant_const.
  rewrite !(exp_mant_with_Ok M L HM HL HN) by
    (done || lia || (intros; by apply clz_Ok) || (intros; by apply clz_const_Ok) ||
     (unfold is_size, SIZE_MAX in *; lia)).
  rewrite (from_exp_mant_Ok M L HM HL HN) by (unfold SIZE_MAX; lia).
  rewrite class_of_value by lia. split_and!; try done.
  intros c' s' Hc' Hs' Hvs'. rewrite <- (class_of_value M L HM HL HN c' Hc').
  apply class_of_mono; [done..|]. split; [lia|]. apply Z.sub_le_mono_r.
  destruct (Z.le_gt_cases (class_value M L c') SIZE_MAX) as [Hok|]; [|unfold is_size in *; lia].
  rewrite (from_exp_mant_Ok M L HM HL HN) in Hs' by done. injection Hs' as <-. lia.
Qed.

Lemma exp_mant_smallest_witness :
  ∃ c s, to_exp_mant 2 4 100 = Ok c ∧ to_exp_mant_const 2 4 100 = Ok c ∧
    from_exp_mant 2 4 c = Ok s ∧ 100 ≤ s ≤ 2 ^ 63 ∧ to_exp_mant 2 4 s = Ok c ∧
    ∀ c' s', 0 ≤ c' → from_exp_mant 2 4 c' = Ok s' → 100 ≤ s' → c ≤ c'.
Proof. apply (exp_mant_smallest 2 4 100); [reflexivity|discriminate|reflexivity|split; discriminate]. Defined.

End SnBits.

(** * snmalloc, aal/address.h: pointer arithmetic

    Pointers are addresses; the assertions of the functions are kept. *)

Module Address.
Import CInt SnBits.

Definition pointer_offset (base diff : Z) : result Z :=
  assert_ (negb (base =? 0));; Ok (to_size (base + diff)).

Definition is_aligned_block (alignment p size : Z) : bool :=
  Z.land (Z.lor p size) (to_size (alignment - 1)) =? 0.

(** With an alignment that is a template argument; it is a power of two. *)
Definition pointer_align_down_const (alignment p : Z) : Z :=
  if alignment =? 1 then p else Z.land p (size_not (to_size (alignment - 1))).
Definition pointer_align_up_const (alignment p : Z) : Z :=
  if alignment =? 1 then p
  else Z.land (to_size (p + to_size (alignment - 1))) (size_not (to_size (alignment - 1))).

(** With an alignment that is an argument. *)
Definition pointer_align_down (p alignment : Z) : result Z :=
  assert_ (0 <? alignment);; assert_ (is_pow2 alignment);; align_down p alignment.
Definition pointer_align_up (p alignment : Z) : result Z :=
  assert_ (0 <? alignment);; assert_ (is_pow2 alignment);; align_up p alignment.

Definition pointer_diff (base cursor : Z) : result Z :=
  assert_ (base <=? cursor);; Ok (to_size (cursor - base)).

Lemma pointer_offset_Ok base diff :
  0 < base → 0 ≤ diff → base + diff < 2 ^ 64 → pointer_offset base diff = Ok (base + diff).
Proof.
  intros Hb Hd Hs. unfold pointer_offset. assert ((base =? 0) = false) as -> by (apply Z.eqb_neq; lia).
  cbn [negb assert_ mbind result_bind]. rewrite to_size_id; [done|]. unfold is_size, SIZE_MAX. lia.
Qed.

Lemma pointer_align_down_pow p n :
  is_size p → 0 ≤ n < 64 → pointer_align_down p (2 ^ n) = Ok (p / 2 ^ n * 2 ^ n).
Proof.
  intros Hp Hn. pose proof (size_pow n Hn). unfold pointer_align_down.
  assert ((0 <? 2 ^ n) = true) as -> by (apply Z.ltb_lt; lia). rewrite is_pow2_pow by done.
  cbn [assert_ mbind result_bind]. by apply align_down_pow.
Qed.

Lemma pointer_align_up_pow p n :
  is_size (p + 2 ^ n - 1) → 0 ≤ p → 0 ≤ n < 64 →
  pointer_align_up p (2 ^ n) = Ok ((p + 2 ^ n - 1) / 2 ^ n * 2 ^ n).
Proof.
  intros Hs Hp Hn. pose proof (size_pow n Hn). unfold pointer_align_up.
  assert ((0 <? 2 ^ n) = true) as -> by (apply Z.ltb_lt; lia). rewrite is_pow2_pow by done.
  cbn [assert_ mbind result_bind]. by apply align_up_pow.
Qed.

(** A block and its alignment are tested at once. *)
Lemma is_aligned_block_spec n p size :
  0 ≤ n < 64 → 0 ≤ p → 0 ≤ size →
  is_aligned_block (2 ^ n) p size = (p mod 2 ^ n =? 0) && (size mod 2 ^ n =? 0).
Proof.
  intros Hn Hp Hs. pose proof (size_pow n Hn). unfold is_aligned_block.
  rewrite to_size_pred by (lia || by apply is_size_pow). rewrite Z.land_lor_distr_l, !land_pow2_pred by lia.
  apply eq_true_iff_eq. rewrite andb_true_iff, !Z.eqb_eq, Z.lor_eq_0_iff. done.
Qed.

End Address.

(** * snmalloc, ds/allocconfig.h: the constants of the allocator

    The configuration of a 64-bit machine without the work-around for QEMU. *)

Module AllocConfig.
Import CInt SnBits.

Definition INTERMEDIATE_BITS : Z := 2.
Definition sizeof_pointer : Z := 8.
Definition MIN_ALLOC_SIZE : Z := 2 * sizeof_pointer.
Definition MIN_ALLOC_BITS : Z := 4.
Definition MIN_CHUNK_BITS : Z := 14.
Definition MIN_OBJECT_COUNT (random_larger_thresholds : bool) : Z :=
  if random_larger_thresholds then 13 else 4.
Definition MAX_SMALL_SIZECLASS_BITS : Z := 16.
Definition MAX_SMALL_SIZECLASS_SIZE : Z := 2 ^ MAX_SMALL_SIZECLASS_BITS.

(** [MIN_ALLOC_BITS] is computed by the code, and the assertions it makes at compile time
    hold. *)
Lemma config_asserted :
  ctz_const MIN_ALLOC_SIZE = Ok MIN_ALLOC_BITS ∧
  one_at_bit MAX_SMALL_SIZECLASS_BITS = Ok MAX_SMALL_SIZECLASS_SIZE ∧
  next_pow2_const sizeof_pointer = Ok sizeof_pointer ∧
  2 ^ MIN_CHUNK_BITS ≤ MAX_SMALL_SIZECLASS_SIZE ∧
  INTERMEDIATE_BITS < MIN_ALLOC_BITS ∧ 2 * sizeof_pointer ≤ MIN_ALLOC_SIZE.
Proof. by vm_compute. Qed.

End AllocConfig.
