(* ===== verification/SizeClass.v ===== *)
(** * snmalloc, mem/sizeclasstable.h: size classes

    The tables of the size classes are built by constant evaluation; [sizeclass_metadata]
    and [sizeclass_lookup] are the same computations.  The mitigation
    [random_larger_thresholds] is a parameter of the tables.  A [sizeclass_t] is its raw
    value.  The theorems: a size gets the smallest class that holds it, objects are found
    by multiplication as by division, and aligned sizes have aligned objects. *)

From stdpp Require Import base list numbers.
From Stdlib Require Import ZArith Lia.
From S2P Require Import Prelude CInt SnBits.
Local Open Scope Z_scope.

Module SizeClass.
Import CInt SnBits AllocConfig.

(** ** Classes and their tags *)

Definition size_to_sizeclass_const (size : Z) : result Z :=
  sc ← to_exp_mant_const INTERMEDIATE_BITS MIN_ALLOC_BITS size;
  assert_ (sc =? sc mod 2 ^ 8);; Ok sc.

Definition NUM_SMALL_SIZECLASSES : Z := Eval vm_compute in
  match size_to_sizeclass_const MAX_SMALL_SIZECLASS_SIZE with Ok n => n | Err _ => 0 end.

(** [DefaultPal::address_bits] of a 64-bit machine. *)
Definition address_bits : Z := 48.
Definition NUM_LARGE_CLASSES : Z := address_bits - MAX_SMALL_SIZECLASS_BITS.

Definition tag_sizeclass_bits : result Z :=
  a ← next_pow2_bits_const (NUM_SMALL_SIZECLASSES + 1);
  b ← next_pow2_bits_const (NUM_LARGE_CLASSES + 1);
  Ok (max a b).
Definition TAG_SIZECLASS_BITS : Z := Eval vm_compute in
  match tag_sizeclass_bits with Ok n => n | Err _ => 0 end.
Definition SIZECLASS_REP_SIZE : Z := 2 ^ (TAG_SIZECLASS_BITS + 1).
Definition TAG : Z := 2 ^ TAG_SIZECLASS_BITS.

Definition from_small_class (sc : Z) : result Z := assert_ (sc <? TAG);; Ok (to_size (TAG + sc)).
Definition from_large_class (large_class : Z) : result Z :=
  assert_ (large_class <? TAG);; Ok large_class.
Definition from_raw (raw : Z) : Z := raw.
Definition raw (value : Z) : Z := value.
Definition index (value : Z) : Z := Z.land value (TAG - 1).
Definition is_small (value : Z) : bool := negb (Z.land value TAG =? 0).
Definition as_small (value : Z) : result Z :=
  assert_ (is_small value);; Ok (Z.land value (TAG - 1)).
Definition as_large (value : Z) : result Z :=
  assert_ (negb (is_small value));; Ok (to_size (BITS - Z.land value (TAG - 1))).
Definition is_default (value : Z) : bool := value =? 0.

Definition aligned_size (alignment size : Z) : result Z :=
  assert_ (negb (alignment =? 0));;
  assert_ (is_pow2 alignment);;
  Ok (to_size (Z.lor (to_size (alignment - 1)) (to_size (size - 1)) + 1)).

(** ** The tables *)

Record sizeclass_data_fast := mkFast {
  size_ : Z; slab_mask : Z; div_mult : Z; mod_zero_mult : Z;
}.
Record sizeclass_data_slow := mkSlow { capacity : Z; waking : Z }.
Record SizeClassTable := mkTable {
  fast_ : list sizeclass_data_fast; slow_ : list sizeclass_data_slow; DIV_MULT_SHIFT_ : Z;
}.

(** [ModArray] is [std::array], where an index past the end is undefined; for the checked
    build it masks the index, which is the same for the indices below its 128 entries. *)
Definition at_ {A} (l : list A) (i : Z) : result A := vec_at l (Z.to_nat i).

Definition fast (t : SizeClassTable) (index : Z) : result sizeclass_data_fast := at_ (fast_ t) (raw index).
Definition fast_small (t : SizeClassTable) (sc : Z) : result sizeclass_data_fast :=
  c ← from_small_class sc; at_ (fast_ t) (raw c).
Definition slow (t : SizeClassTable) (index : Z) : result sizeclass_data_slow := at_ (slow_ t) (raw index).

(** The assignments through the references that [fast], [fast_small] and [slow] return. *)
Definition set_fast (t : SizeClassTable) (c : Z) (d : sizeclass_data_fast) : SizeClassTable :=
  mkTable (<[Z.to_nat (raw c) := d]> (fast_ t)) (slow_ t) (DIV_MULT_SHIFT_ t).
Definition set_slow (t : SizeClassTable) (c : Z) (d : sizeclass_data_slow) : SizeClassTable :=
  mkTable (fast_ t) (<[Z.to_nat (raw c) := d]> (slow_ t)) (DIV_MULT_SHIFT_ t).

Definition to_uint16 (z : Z) : Z := z mod 2 ^ 16.
Definition div_ (x y : Z) : result Z := if y =? 0 then Err Undefined else Ok (x / y).

Section Table.
Context (random_larger_thresholds : bool).

(** One turn of the first loop of the constructor. *)
Definition size_turn (sizeclass : Z) (s : SizeClassTable * Z) : result (SizeClassTable * Z) :=
  let '(t, max_capacity) := s in
  meta ← fast_small t sizeclass;
  c ← from_small_class sizeclass;
  rsize ← from_exp_mant INTERMEDIATE_BITS MIN_ALLOC_BITS sizeclass;
  bits ← next_pow2_bits_const (to_size (MIN_OBJECT_COUNT random_larger_thresholds * rsize));
  let slab_bits := max bits MIN_CHUNK_BITS in
  slab ← one_at_bit slab_bits;
  let t := set_fast t c (mkFast rsize (slab - 1) (div_mult meta) (mod_zero_mult meta)) in
  cap ← div_ (to_size (slab - 1 + 1)) rsize;
  let cap := to_uint16 cap in
  let wake := if random_larger_thresholds then to_uint16 (cap / 4) else to_uint16 (min (cap / 4) 32) in
  let t := set_slow t c (mkSlow cap wake) in
  Ok (t, if max_capacity <? cap then cap else max_capacity).

(** One turn of the second loop. *)
Definition div_turn (sizeclass : Z) (t : SizeClassTable) : result SizeClassTable :=
  meta ← fast_small t sizeclass;
  c ← from_small_class sizeclass;
  one ← one_at_bit (DIV_MULT_SHIFT_ t);
  d ← div_ (to_size (one - 1)) (size_ meta);
  m ← div_ (size_not 0) (size_ meta);
  Ok (set_fast t c (mkFast (size_ meta) (slab_mask meta) (to_size (d + 1)) (to_size (m + 1)))).

(** One turn of the third loop. *)
Definition large_turn (sizeclass : Z) (t : SizeClassTable) : result SizeClassTable :=
  lsc ← from_large_class sizeclass;
  size ← (if sizeclass =? 0 then Ok 0 else l ← as_large lsc; one_at_bit l);
  Ok (set_fast t lsc (mkFast size (to_size (size - 1)) 0 1)).

(** [for (i = 0; i < n; i++)], with [k] turns to go. *)
Fixpoint for_loop {S} (turn : Z → S → result S) (k : nat) (i : Z) (s : S) : result S :=
  match k with
  | O => Ok s
  | S k => s ← turn i s; for_loop turn k (i + 1) s
  end.

(** The constructor of [SizeClassTable]. *)
Definition SizeClassTable_new : result SizeClassTable :=
  let n := Z.to_nat SIZECLASS_REP_SIZE in
  let t := mkTable (replicate n (mkFast 0 0 0 0)) (replicate n (mkSlow 0 0)) 0 in
  '(t, max_capacity) ← for_loop size_turn (Z.to_nat NUM_SMALL_SIZECLASSES) 0 (t, 0);
  bits ← next_pow2_bits_const max_capacity;
  let t := mkTable (fast_ t) (slow_ t) (to_size (BITS - bits)) in
  t ← for_loop div_turn (Z.to_nat NUM_SMALL_SIZECLASSES) 0 t;
  for_loop large_turn (Z.to_nat BITS) 0 t.

Definition sizeclass_metadata : result SizeClassTable := SizeClassTable_new.

Definition DIV_MULT_SHIFT : result Z := t ← sizeclass_metadata; Ok (DIV_MULT_SHIFT_ t).

(** ** Sizes and slabs of a class *)

Definition sizeclass_to_size (sizeclass : Z) : result Z :=
  t ← sizeclass_metadata; meta ← fast_small t sizeclass; Ok (size_ meta).
Definition sizeclass_full_to_size (sizeclass : Z) : result Z :=
  t ← sizeclass_metadata; meta ← fast t sizeclass; Ok (size_ meta).
Definition sizeclass_full_to_slab_size (sizeclass : Z) : result Z :=
  t ← sizeclass_metadata; meta ← fast t sizeclass; Ok (to_size (slab_mask meta + 1)).
Definition sizeclass_to_slab_size (sizeclass : Z) : result Z :=
  t ← sizeclass_metadata; meta ← fast_small t sizeclass; Ok (to_size (slab_mask meta + 1)).
Definition threshold_for_waking_slab (sizeclass : Z) : result Z :=
  t ← sizeclass_metadata; c ← from_small_class sizeclass; s ← slow t c; Ok (waking s).
Definition sizeclass_to_slab_sizeclass (sizeclass : Z) : result Z :=
  ssize ← sizeclass_to_slab_size sizeclass;
  b ← next_pow2_bits ssize; Ok (to_size (b - MIN_CHUNK_BITS)).
Definition slab_sizeclass_to_size (sizeclass : Z) : result Z :=
  one_at_bit (to_size (MIN_CHUNK_BITS + sizeclass)).
Definition metaentry_chunk_sizeclass_to_slab_sizeclass (sizeclass : Z) : Z :=
  to_size (sizeclass - MIN_CHUNK_BITS).
Definition sizeclass_to_slab_object_count (sizeclass : Z) : result Z :=
  t ← sizeclass_metadata; c ← from_small_class sizeclass; s ← slow t c; Ok (capacity s).

(** ** Objects of a slab *)

Definition start_of_object (sc addr : Z) : result Z :=
  t ← sizeclass_metadata;
  meta ← fast t sc;
  shift ← DIV_MULT_SHIFT;
  let slab_start := Z.land addr (size_not (slab_mask meta)) in
  let offset := Z.land addr (slab_mask meta) in
  let size := size_ meta in
  q ← size_shr (to_size (offset * div_mult meta)) shift;
  Ok (to_size (slab_start + to_size (q * size))).

Definition index_in_object (sc addr : Z) : result Z :=
  start ← start_of_object sc addr; Ok (to_size (addr - start)).
Definition remaining_bytes (sc addr : Z) : result Z :=
  t ← sizeclass_metadata;
  meta ← fast t sc;
  i ← index_in_object sc addr; Ok (to_size (size_ meta - i)).

Definition is_start_of_object (sc addr : Z) : result bool :=
  slab ← sizeclass_full_to_slab_size sc;
  let offset := Z.land addr (to_size (slab - 1)) in
  t ← sizeclass_metadata;
  meta ← fast t sc;
  Ok (to_size (offset * mod_zero_mult meta) <? mod_zero_mult meta).

Definition large_size_to_chunk_size (size : Z) : result Z := next_pow2 size.
Definition large_size_to_chunk_sizeclass (size : Z) : result Z :=
  b ← next_pow2_bits size; Ok (to_size (b - MIN_CHUNK_BITS)).

(** ** From sizes to classes *)

Definition sizeclass_lookup_index (s : Z) : Z := Z.shiftr (to_size (s - 1)) MIN_ALLOC_BITS.
Definition sizeclass_lookup_size : Z := sizeclass_lookup_index MAX_SMALL_SIZECLASS_SIZE.

(** The inner loop of the constructor of [SizeClassLookup], with [k] turns to go. *)
Fixpoint lookup_loop (k : nat) (limit sizeclass curr : Z) (table : list Z) : result (Z * list Z) :=
  match k with
  | O => Err Diverge
  | S k =>
      if curr <=? limit then
        let i := sizeclass_lookup_index curr in
        if i =? sizeclass_lookup_size then Ok (curr, table)
        else if i <? sizeclass_lookup_size then
          lookup_loop k limit sizeclass (to_size (curr + Z.shiftl 1 MIN_ALLOC_BITS))
            (<[Z.to_nat i := sizeclass]> table)
        else Err Undefined
      else Ok (curr, table)
  end.

Definition lookup_turn (sizeclass : Z) (s : Z * list Z) : result (Z * list Z) :=
  limit ← sizeclass_to_size sizeclass;
  lookup_loop (S (Z.to_nat sizeclass_lookup_size)) limit sizeclass s.1 s.2.

Definition sizeclass_lookup : result (list Z) :=
  s ← for_loop lookup_turn (Z.to_nat NUM_SMALL_SIZECLASSES) 0
    (1, replicate (Z.to_nat sizeclass_lookup_size) 0);
  Ok s.2.

Definition size_to_sizeclass (size : Z) : result Z :=
  let index := sizeclass_lookup_index size in
  if index <? sizeclass_lookup_size then table ← sizeclass_lookup; at_ table index
  else assert_ (size =? 0);; Ok 0.

Definition size_to_sizeclass_full (size : Z) : result Z :=
  limit ← sizeclass_to_size (NUM_SMALL_SIZECLASSES - 1);
  if to_size (size - 1) <? limit then c ← size_to_sizeclass size; from_small_class c
  else c ← clz (to_size (size - 1)); from_large_class c.

Definition round_size (size : Z) : result Z :=
  limit ← sizeclass_to_size (NUM_SMALL_SIZECLASSES - 1);
  if limit <? size then next_pow2 size
  else if size =? 0 then c ← size_to_sizeclass 1; sizeclass_to_size c
  else c ← size_to_sizeclass size; sizeclass_to_size c.

Definition natural_alignment (size : Z) : result Z :=
  rsize ← round_size size;
  if size =? 0 then Ok 1 else b ← ctz rsize; one_at_bit b.

End Table.

(** ** The tables are built *)

Definition the_table (r : bool) : SizeClassTable := Eval vm_compute in
  if r then match sizeclass_metadata true with Ok t => t | Err _ => mkTable [] [] 0 end
  else match sizeclass_metadata false with Ok t => t | Err _ => mkTable [] [] 0 end.

Lemma sizeclass_metadata_Ok r : sizeclass_metadata r = Ok (the_table r).
Proof. destruct r; vm_compute; reflexivity. Qed.

Lemma constants_Ok :
  size_to_sizeclass_const MAX_SMALL_SIZECLASS_SIZE = Ok NUM_SMALL_SIZECLASSES ∧
  tag_sizeclass_bits = Ok TAG_SIZECLASS_BITS.
Proof. by vm_compute. Qed.

Lemma DIV_MULT_SHIFT_Ok r : DIV_MULT_SHIFT r = Ok 54.
Proof. unfold DIV_MULT_SHIFT. rewrite sizeclass_metadata_Ok. by destruct r. Qed.

Lemma forall_below n (P : Z → bool) :
  forallb P (seqZ 0 n) = true → ∀ k, 0 ≤ k < n → P k = true.
Proof.
  intros H k Hk. rewrite forallb_forall in H. apply H.
  apply list_elem_of_In, elem_of_seqZ. lia.
Qed.

(** The size of the small class [k]. *)
Definition small_size (k : Z) : Z := class_value INTERMEDIATE_BITS MIN_ALLOC_BITS k.

(** What is computed about the entries of the small class [k]; the last conjuncts make the
    two multiplications exact. *)
Definition small_ok (r : bool) (k : Z) : bool :=
  match at_ (fast_ (the_table r)) (TAG + k), at_ (slow_ (the_table r)) (TAG + k) with
  | Ok d, Ok w =>
      let z := size_ d in let slab := slab_mask d + 1 in
      let e := div_mult d * z - 2 ^ 54 in let f := mod_zero_mult d * z - 2 ^ 64 in
      (z =? small_size k) && (z mod 16 =? 0) && (small_size (k - 1) <? z) && (z <=? 57344) &&
      (slab =? 2 ^ Z.log2 slab) && (Z.log2 slab <=? 20) && (14 <=? Z.log2 slab) &&
      (capacity w =? slab / z) && (MIN_OBJECT_COUNT r <=? capacity w) && (waking w <=? capacity w) &&
      (0 <=? e) && (slab * e <? 2 ^ 54) && (slab * div_mult d <=? 2 ^ 64) &&
      (0 <=? f) && ((slab / z + 1) * f <? mod_zero_mult d)
  | _, _ => false
  end.

Lemma small_all_ok r k : 0 ≤ k < NUM_SMALL_SIZECLASSES → small_ok r k = true.
Proof. apply forall_below. destruct r; vm_compute; reflexivity. Qed.

Record small_facts (r : bool) (k : Z) (d : sizeclass_data_fast) (b : Z) : Prop := {
  sf_size : size_ d = small_size k;
  sf_16 : (16 | small_size k);
  sf_prev : small_size (k - 1) < small_size k ≤ 57344;
  sf_bits : 14 ≤ b ≤ 20;
  sf_mask : slab_mask d = 2 ^ b - 1;
  sf_count : MIN_OBJECT_COUNT r ≤ 2 ^ b / size_ d;
  sf_div : 2 ^ 54 ≤ div_mult d * size_ d ∧ 2 ^ b * (div_mult d * size_ d - 2 ^ 54) < 2 ^ 54 ∧
    2 ^ b * div_mult d ≤ 2 ^ 64;
  sf_mod : 2 ^ 64 ≤ mod_zero_mult d * size_ d ∧
    (2 ^ b / size_ d + 1) * (mod_zero_mult d * size_ d - 2 ^ 64) < mod_zero_mult d;
}.

Lemma small_entry r k : 0 ≤ k < NUM_SMALL_SIZECLASSES →
  ∃ d b, at_ (fast_ (the_table r)) (TAG + k) = Ok d ∧ small_facts r k d b.
Proof.
  intros Hk. pose proof (small_all_ok r k Hk) as H. unfold small_ok in H.
  destruct (at_ (fast_ _) _) as [d|]; [|done]. destruct (at_ (slow_ _) _) as [w|]; [|done].
  rewrite !andb_true_iff, ?Z.eqb_eq, ?Z.leb_le, ?Z.ltb_lt in H.
  destruct H as [[[[[[[[[[[[[[H1 H2] H3] H4] H5] H6] H7] Hw] Hn] _] H8] H9] H10] H11] H12].
  exists d, (Z.log2 (slab_mask d + 1)). split; [done|].
  constructor; try lia; rewrite <- ?H5; try (rewrite <- ?H1; lia); try lia.
  rewrite <- H1. by apply Z.mod_divide.
Qed.

Lemma small_class_lt k : 0 ≤ k < NUM_SMALL_SIZECLASSES → from_small_class k = Ok (TAG + k).
Proof.
  intros Hk. change NUM_SMALL_SIZECLASSES with 43 in Hk. unfold from_small_class, TAG.
  change (2 ^ TAG_SIZECLASS_BITS) with 64.
  rewrite (proj2 (Z.ltb_lt k 64)) by lia. cbn [assert_ mbind result_bind].
  rewrite to_size_id; [done|]. unfold is_size, SIZE_MAX. lia.
Qed.

Lemma large_entry r c : 1 ≤ c < 64 →
  at_ (fast_ (the_table r)) c = Ok (mkFast (2 ^ (64 - c)) (2 ^ (64 - c) - 1) 0 1).
Proof.
  intros Hc. set (P := λ c, match at_ (fast_ (the_table r)) (c + 1) with
    | Ok d => (size_ d =? 2 ^ (63 - c)) && (slab_mask d =? 2 ^ (63 - c) - 1) &&
        (div_mult d =? 0) && (mod_zero_mult d =? 1)
    | Err _ => false end).
  assert (HP : P (c - 1) = true).
  { apply (forall_below 63); [|lia]. subst P. destruct r; vm_compute; reflexivity. }
  subst P. cbv beta in HP. replace (c - 1 + 1) with c in HP by lia.
  replace (63 - (c - 1)) with (64 - c) in HP by lia.
  destruct (at_ _ _) as [[z m d e]|]; [|done]. cbn [size_ slab_mask div_mult mod_zero_mult] in HP.
  rewrite !andb_true_iff, !Z.eqb_eq in HP. by destruct HP as [[[-> ->] ->] ->].
Qed.

(** ** From sizes to classes *)

Lemma small_size_le j k : 0 ≤ j ≤ k → k < NUM_SMALL_SIZECLASSES → small_size j ≤ small_size k.
Proof.
  intros Hj Hk. set (P := λ k, forallb (λ j, small_size j <=? small_size k) (seqZ 0 (k + 1))).
  assert (HP : P k = true) by (apply (forall_below NUM_SMALL_SIZECLASSES); [by vm_compute|lia]).
  apply Z.leb_le. by apply (forall_below (k + 1) _ HP); lia.
Qed.

Lemma sizeclass_to_size_Ok r k : 0 ≤ k < NUM_SMALL_SIZECLASSES →
  sizeclass_to_size r k = Ok (small_size k).
Proof.
  intros Hk. destruct (small_entry r k Hk) as (d&b&Hd&F).
  unfold sizeclass_to_size, fast_small. rewrite sizeclass_metadata_Ok, small_class_lt by done.
  cbn [mbind result_bind]. unfold raw. rewrite Hd. cbn [mbind result_bind]. by rewrite (sf_size _ _ _ _ F).
Qed.

Lemma largest_small r : sizeclass_to_size r (NUM_SMALL_SIZECLASSES - 1) = Ok 57344.
Proof. rewrite sizeclass_to_size_Ok by (by vm_compute). by vm_compute. Qed.

Lemma lookup_index_Ok s : 1 ≤ s → is_size s → sizeclass_lookup_index s = (s - 1) / 16.
Proof.
  intros H1 Hs. unfold sizeclass_lookup_index. rewrite to_size_pred by done.
  by rewrite Z.shiftr_div_pow2.
Qed.

Lemma lookup_loop_Ok k L c j table :
  0 ≤ j ≤ L → L ≤ sizeclass_lookup_size → L - j < Z.of_nat k →
  Z.of_nat (length table) = sizeclass_lookup_size →
  ∃ table', lookup_loop k (16 * L) c (16 * j + 1) table = Ok (16 * L + 1, table') ∧
    length table' = length table ∧
    ∀ i : nat, table' !! i =
      if (j <=? Z.of_nat i) && (Z.of_nat i <? L) then Some c else table !! i.
Proof.
  revert j table. change sizeclass_lookup_size with 4095.
  induction k as [|k IH]; intros j table Hj HL Hk Ht; [lia|].
  cbn [lookup_loop]. destruct (Z.leb_spec (16 * j + 1) (16 * L)).
  - rewrite lookup_index_Ok by (unfold is_size, SIZE_MAX; lia).
    replace (16 * j + 1 - 1) with (j * 16) by lia. rewrite Z.div_mul by lia.
    change sizeclass_lookup_size with 4095.
    rewrite (proj2 (Z.eqb_neq j 4095)), (proj2 (Z.ltb_lt j 4095)) by lia.
    rewrite to_size_id by (change (Z.shiftl 1 MIN_ALLOC_BITS) with 16; unfold is_size, SIZE_MAX; lia).
    change (Z.shiftl 1 MIN_ALLOC_BITS) with 16. replace (16 * j + 1 + 16) with (16 * (j + 1) + 1) by lia.
    destruct (IH (j + 1) (<[Z.to_nat j := c]> table)) as (t'&E&Hl&Hi); [lia..| |].
    { by rewrite length_insert. }
    exists t'. split; [done|]. rewrite length_insert in Hl. split; [done|].
    intros i. rewrite Hi. destruct (decide (i = Z.to_nat j)) as [->|].
    + rewrite (proj2 (Z.leb_gt (j + 1) _)), (proj2 (Z.leb_le j _)), (proj2 (Z.ltb_lt _ L)) by lia.
      apply list_lookup_insert_eq. lia.
    + rewrite list_lookup_insert_ne by lia.
      by destruct (Z.leb_spec (j + 1) (Z.of_nat i)), (Z.leb_spec j (Z.of_nat i)); try lia.
  - assert (j = L) as -> by lia. exists table. split; [done|]. split; [done|].
    intros i. by destruct (Z.leb_spec L (Z.of_nat i)), (Z.ltb_spec (Z.of_nat i) L); try lia.
Qed.

(** The entries of the lookup table below a size; the others are still zero. *)
Definition looked_up (table : list Z) (limit : Z) : Prop :=
  Z.of_nat (length table) = sizeclass_lookup_size ∧
  (∀ i, 0 ≤ i → 16 * i < limit → ∃ c, table !! Z.to_nat i = Some c ∧
    0 ≤ c < NUM_SMALL_SIZECLASSES ∧ small_size (c - 1) ≤ 16 * i ∧ 16 * i + 16 ≤ small_size c) ∧
  ∀ i, limit ≤ 16 * i < 16 * sizeclass_lookup_size → table !! Z.to_nat i = Some 0.

Lemma lookup_turn_Ok r c table : 0 ≤ c < NUM_SMALL_SIZECLASSES →
  looked_up table (small_size (c - 1)) →
  ∃ table', lookup_turn r c (small_size (c - 1) + 1, table) = Ok (small_size c + 1, table') ∧
    looked_up table' (small_size c).
Proof.
  intros Hc (Ht&Hlow&Hhigh). pose proof (small_entry r c Hc) as (d&b&_&F).
  destruct (sf_16 _ _ _ _ F) as [L HL]. pose proof (sf_prev _ _ _ _ F) as Hprev.
  assert (∃ j, small_size (c - 1) = 16 * j ∧ 0 ≤ j) as (j&Hj&H0).
  { destruct (decide (c = 0)) as [->|]; [by exists 0|].
    destruct (small_entry r (c - 1)) as (d'&b'&_&F'); [lia|].
    destruct (sf_16 _ _ _ _ F') as [j Hj]. exists j. split; [lia|].
    pose proof (small_size_le 0 (c - 1)). change (small_size 0) with 16 in *. lia. }
  unfold lookup_turn. rewrite sizeclass_to_size_Ok by done. cbn [mbind result_bind fst snd].
  replace (small_size c) with (16 * L) by lia. rewrite Hj.
  destruct (lookup_loop_Ok (S (Z.to_nat sizeclass_lookup_size)) L c j table) as (t'&E&Hl&Hi).
  { lia. } { change sizeclass_lookup_size with 4095. lia. }
  { change sizeclass_lookup_size with 4095. lia. } { done. }
  exists t'. split; [done|]. split_and!; [by rewrite Hl| |].
  - intros i Hi0 HiL. rewrite Hi, Z2Nat.id, (proj2 (Z.ltb_lt i L)), andb_true_r by lia.
    destruct (Z.leb_spec j i).
    + exists c. split; [done|]. split; [done|]. lia.
    + apply Hlow; lia.
  - intros i HiL. rewrite Hi, Z2Nat.id, (proj2 (Z.ltb_ge i L)), andb_false_r by lia.
    apply Hhigh. lia.
Qed.

Lemma lookup_all r k c table : 0 ≤ c → c + Z.of_nat k = NUM_SMALL_SIZECLASSES →
  looked_up table (small_size (c - 1)) →
  ∃ s, for_loop (lookup_turn r) k c (small_size (c - 1) + 1, table) = Ok s ∧ looked_up s.2 57344.
Proof.
  revert c table. induction k as [|k IH]; intros c table Hc Hk H; cbn [for_loop].
  - replace (c - 1) with 42 in * by (change NUM_SMALL_SIZECLASSES with 43 in Hk; lia).
    exists (small_size 42 + 1, table). done.
  - destruct (lookup_turn_Ok r c table) as (t'&E&H'); [lia|done|].
    rewrite E. cbn [mbind result_bind]. destruct (IH (c + 1) t') as (s&Es&Hs); [lia..| |].
    { by replace (c + 1 - 1) with c by lia. }
    replace (c + 1 - 1) with c in Es by lia. by exists s.
Qed.

Lemma sizeclass_lookup_Ok r : ∃ table, sizeclass_lookup r = Ok table ∧ looked_up table 57344.
Proof.
  unfold sizeclass_lookup.
  destruct (lookup_all r (Z.to_nat NUM_SMALL_SIZECLASSES) 0
    (replicate (Z.to_nat sizeclass_lookup_size) 0)) as (s&E&H); [done..| |].
  { change (small_size (0 - 1)) with 0. split_and!; [by rewrite length_replicate|lia|].
    intros i Hi. apply lookup_replicate_2. lia. }
  change (small_size (0 - 1) + 1) with 1 in E. rewrite E. by exists s.2.
Qed.

Lemma size_to_sizeclass_Ok r s : 1 ≤ s ≤ 57344 →
  ∃ c, size_to_sizeclass r s = Ok c ∧ 0 ≤ c < NUM_SMALL_SIZECLASSES ∧
    small_size (c - 1) < s ≤ small_size c.
Proof.
  intros Hs. destruct (sizeclass_lookup_Ok r) as (table&E&_&H&_).
  unfold size_to_sizeclass. rewrite lookup_index_Ok by (unfold is_size, SIZE_MAX; lia).
  pose proof (Z.div_mod (s - 1) 16 ltac:(lia)). pose proof (Z.mod_pos_bound (s - 1) 16 ltac:(lia)).
  rewrite (proj2 (Z.ltb_lt _ _)) by (change sizeclass_lookup_size with 4095; lia).
  rewrite E. cbn [mbind result_bind].
  destruct (H ((s - 1) / 16)) as (c&Hc&?&?&?); [lia..|].
  exists c. unfold at_, vec_at. rewrite Hc. split; [done|]. lia.
Qed.

(** The classes that are handed out: the small ones, and the large ones from [2 ^ 16] up. *)
Definition is_class (c : Z) : Prop :=
  (∃ k, c = TAG + k ∧ 0 ≤ k < NUM_SMALL_SIZECLASSES) ∨ 1 ≤ c ≤ 64 - MAX_SMALL_SIZECLASS_BITS.

Lemma full_to_size_small r k : 0 ≤ k < NUM_SMALL_SIZECLASSES →
  sizeclass_full_to_size r (TAG + k) = Ok (small_size k).
Proof.
  intros Hk. destruct (small_entry r k Hk) as (d&b&Hd&F).
  unfold sizeclass_full_to_size, fast, raw. rewrite sizeclass_metadata_Ok. cbn [mbind result_bind].
  rewrite Hd. cbn [mbind result_bind]. by rewrite (sf_size _ _ _ _ F).
Qed.

Lemma full_to_size_large r c : 1 ≤ c < 64 → sizeclass_full_to_size r c = Ok (2 ^ (64 - c)).
Proof.
  intros Hc. unfold sizeclass_full_to_size, fast, raw. rewrite sizeclass_metadata_Ok.
  cbn [mbind result_bind]. by rewrite large_entry.
Qed.

(** A size up to that of the largest small class. *)
Lemma sizes_small r s : 1 ≤ s ≤ 57344 →
  ∃ k, size_to_sizeclass_full r s = Ok (TAG + k) ∧ round_size r s = Ok (small_size k) ∧
    0 ≤ k < NUM_SMALL_SIZECLASSES ∧ small_size (k - 1) < s ≤ small_size k.
Proof.
  intros Hs. destruct (size_to_sizeclass_Ok r s Hs) as (k&E&Hk&Hb). exists k.
  unfold size_to_sizeclass_full, round_size. rewrite largest_small. cbn [mbind result_bind].
  rewrite to_size_pred by (unfold is_size, SIZE_MAX; lia).
  rewrite (proj2 (Z.ltb_lt (s - 1) _)), (proj2 (Z.ltb_ge 57344 s)) by lia.
  rewrite (proj2 (Z.eqb_neq s 0)) by lia. rewrite E. cbn [mbind result_bind].
  by rewrite small_class_lt, sizeclass_to_size_Ok.
Qed.

(** A size above it. *)
Lemma sizes_large r s : 57344 < s ≤ 2 ^ 63 →
  size_to_sizeclass_full r s = Ok (64 - ceil_log2 s) ∧ round_size r s = Ok (2 ^ ceil_log2 s) ∧
    16 ≤ ceil_log2 s ≤ 63.
Proof.
  intros Hs. assert (Hb : 16 ≤ ceil_log2 s ≤ 63).
  { split; [|by apply ceil_log2_spec; lia].
    destruct (Z.le_gt_cases 16 (ceil_log2 s)) as [|H]; [done|].
    assert (ceil_log2 s ≤ 15) as H15%ceil_log2_spec by lia; lia. }
  unfold size_to_sizeclass_full, round_size. rewrite largest_small. cbn [mbind result_bind].
  rewrite to_size_pred by (unfold is_size, SIZE_MAX; lia).
  rewrite (proj2 (Z.ltb_ge (s - 1) _)), (proj2 (Z.ltb_lt 57344 s)) by lia.
  rewrite next_pow2_Ok by lia. split; [|done]. rewrite clz_Ok by lia. cbn [mbind result_bind].
  assert (El : ceil_log2 s = Z.log2 (s - 1) + 1).
  { unfold ceil_log2. by rewrite (proj2 (Z.eqb_neq s 1)) by lia. }
  unfold from_large_class. rewrite (proj2 (Z.ltb_lt _ _)).
  - cbn [assert_ mbind result_bind]. f_equal. lia.
  - unfold TAG. change (2 ^ TAG_SIZECLASS_BITS) with 64. lia.
Qed.

Lemma ceil_log2_mono x y : 1 ≤ x ≤ y → ceil_log2 x ≤ ceil_log2 y.
Proof.
  intros H. apply ceil_log2_spec; [lia|apply ceil_log2_nonneg|].
  pose proof (ceil_log2_le y ltac:(lia)). lia.
Qed.

(** C25: Every size up to [2 ^ 63] is served by the smallest class that holds it: the class,
    its size and the rounded size agree, and no class that is handed out has a size
    between.  For small sizes the class comes from a table that is filled in by a loop. *)
Theorem smallest_class_serves r s : 1 ≤ s ≤ 2 ^ 63 →
  ∃ c z, size_to_sizeclass_full r s = Ok c ∧ sizeclass_full_to_size r c = Ok z ∧
    round_size r s = Ok z ∧ is_class c ∧ s ≤ z ∧
    ∀ c' z', is_class c' → sizeclass_full_to_size r c' = Ok z' → s ≤ z' → z ≤ z'.
Proof.
  intros Hs. destruct (decide (s ≤ 57344)).
  - destruct (sizes_small r s ltac:(lia)) as (k&E1&E2&Hk&Hp&Hle).
    exists (TAG + k), (small_size k). rewrite full_to_size_small by done.
    do 3 (split; [done|]). split; [left; by exists k|]. split; [done|].
    intros c' z' [(k'&->&Hk')|Hc'] E Hz.
    + rewrite full_to_size_small in E by done. injection E as <-.
      apply small_size_le; [|lia]. split; [lia|]. destruct (Z.le_gt_cases k k'); [done|].
      pose proof (small_size_le k' (k - 1)). lia.
    + change (64 - MAX_SMALL_SIZECLASS_BITS) with 48 in Hc'.
      rewrite full_to_size_large in E by lia. injection E as <-.
      destruct (small_entry r k Hk) as (d&b&_&F). pose proof (sf_prev _ _ _ _ F).
      pose proof (Z.pow_le_mono_r 2 16 (64 - c')). lia.
  - destruct (sizes_large r s ltac:(lia)) as (E1&E2&Hb).
    exists (64 - ceil_log2 s), (2 ^ ceil_log2 s). rewrite full_to_size_large by lia.
    replace (64 - (64 - ceil_log2 s)) with (ceil_log2 s) by lia.
    do 3 (split; [done|]). change (is_class ?c) with (is_class c). split.
    { right. change (64 - MAX_SMALL_SIZECLASS_BITS) with 48. lia. }
    split; [apply ceil_log2_le; lia|]. intros c' z' [(k'&->&Hk')|Hc'] E Hz.
    + rewrite full_to_size_small in E by done. injection E as <-.
      destruct (small_entry r k' Hk') as (d&b&_&F). pose proof (sf_prev _ _ _ _ F). lia.
    + change (64 - MAX_SMALL_SIZECLASS_BITS) with 48 in Hc'.
      rewrite full_to_size_large in E by lia. injection E as <-.
      apply Z.pow_le_mono_r; [lia|]. apply ceil_log2_spec; lia.
Qed.

Lemma smallest_class_serves_witness :
  ∃ c z, size_to_sizeclass_full false 100 = Ok c ∧ sizeclass_full_to_size false c = Ok z ∧
    round_size false 100 = Ok z ∧ is_class c ∧ 100 ≤ z ∧
    ∀ c' z', is_class c' → sizeclass_full_to_size false c' = Ok z' → 100 ≤ z' → z ≤ z'.
Proof. apply (smallest_class_serves false 100). lia. Defined.

(** Size 0 gets the class 0 of size 0, but is rounded to the smallest class; sizes above
    [2 ^ 63] get the class 0 as well. *)
Lemma sizes_unserved r s : s = 0 ∨ 2 ^ 63 < s → is_size s →
  size_to_sizeclass_full r s = Ok 0 ∧ sizeclass_full_to_size r 0 = Ok 0 ∧
  round_size r s = if s =? 0 then Ok 16 else Err AssertFail.
Proof.
  intros Hs Hz. assert (Hp : 57344 ≤ to_size (s - 1) ∧ 2 ^ 63 ≤ to_size (s - 1) ≤ SIZE_MAX).
  { destruct Hs as [->|Hs]; [by vm_compute|]. unfold is_size, SIZE_MAX in *.
    rewrite to_size_pred by (unfold is_size, SIZE_MAX; lia). lia. }
  split_and!; [| |].
  - unfold size_to_sizeclass_full. rewrite largest_small. cbn [mbind result_bind].
    rewrite (proj2 (Z.ltb_ge _ _)) by lia. rewrite clz_Ok by lia. cbn [mbind result_bind].
    rewrite (Z.log2_unique (to_size (s - 1)) 63); [done|lia|]. unfold SIZE_MAX in Hp. lia.
  - unfold sizeclass_full_to_size. rewrite sizeclass_metadata_Ok. by destruct r.
  - unfold round_size. rewrite largest_small. cbn [mbind result_bind].
    destruct Hs as [->|Hs].
    + destruct (size_to_sizeclass_Ok r 1 ltac:(lia)) as (c&E&Hc&Hb).
      cbn [Z.ltb Z.eqb Z.compare]. rewrite E. cbn [mbind result_bind].
      rewrite sizeclass_to_size_Ok by done. f_equal.
      destruct (decide (c = 0)) as [->|]; [done|].
      pose proof (small_size_le 0 (c - 1)). change (small_size 0) with 16 in *. lia.
    + rewrite (proj2 (Z.ltb_lt 57344 s)), (proj2 (Z.eqb_neq s 0)) by lia.
      by apply next_pow2_overflow.
Qed.

(** Between the largest small class and the end of the lookup table, the table has not been
    filled in: the function answers the smallest class, and its assertion does not notice. *)
Lemma size_to_sizeclass_unchecked r s : 57344 < s ≤ 65520 → size_to_sizeclass r s = Ok 0.
Proof.
  intros Hs. destruct (sizeclass_lookup_Ok r) as (table&E&_&_&H).
  unfold size_to_sizeclass. rewrite lookup_index_Ok by (unfold is_size, SIZE_MAX; lia).
  pose proof (Z.div_mod (s - 1) 16 ltac:(lia)). pose proof (Z.mod_pos_bound (s - 1) 16 ltac:(lia)).
  change sizeclass_lookup_size with 4095 in *.
  rewrite (proj2 (Z.ltb_lt _ _)), E by lia. cbn [mbind result_bind].
  unfold at_, vec_at. by rewrite H by lia.
Qed.

(** ** Objects of a slab *)

(** Multiplication by a rounded reciprocal and a shift is division. *)
Lemma reciprocal_div N m d n :
  0 < d → 0 ≤ n → N ≤ m * d → n * (m * d - N) < N → n * m / N = n / d.
Proof.
  intros Hd Hn Hm He. pose proof (Z.div_mod n d ltac:(lia)).
  pose proof (Z.mod_pos_bound n d Hd). symmetry. apply Z.div_unique with (n * m - N * (n / d)); [|lia].
  left. assert (E : d * (n * m - N * (n / d)) = n * (m * d - N) + N * (n mod d)).
  { replace (N * (n mod d)) with (N * (n - d * (n / d))) by (f_equal; lia). ring. }
  assert (0 ≤ n * (m * d - N)) by (apply Z.mul_nonneg_nonneg; lia).
  assert (0 ≤ N * (n mod d) ≤ N * (d - 1)).
  { split; [apply Z.mul_nonneg_nonneg|apply Z.mul_le_mono_nonneg_l]; lia. }
  split; [apply (Z.mul_le_mono_pos_l _ _ d)|apply (Z.mul_lt_mono_pos_l d)]; lia.
Qed.

(** A multiple of the rounded reciprocal of [M] is small modulo [M] just for the multiples
    of the divisor. *)
Lemma reciprocal_mod M m d n :
  0 < d → 0 ≤ n → 0 < m → M ≤ m * d → (n / d + 1) * (m * d - M) < m →
  (n * m mod M <? m) = (n mod d =? 0).
Proof.
  intros Hd Hn Hm HM He. pose proof (Z.div_mod n d ltac:(lia)) as Hq.
  pose proof (Z.mod_pos_bound n d Hd) as Hr. pose proof (Z.div_pos n d Hn Hd) as H0.
  assert (E : n * m mod M = n / d * (m * d - M) + n mod d * m).
  { assert (n mod d * m ≤ (d - 1) * m) by (apply Z.mul_le_mono_nonneg_r; lia).
    assert (0 ≤ n / d * (m * d - M)) by (apply Z.mul_nonneg_nonneg; lia).
    symmetry. apply Z.mod_unique with (n / d).
    - left. split; [apply Z.add_nonneg_nonneg; [done|apply Z.mul_nonneg_nonneg; lia]|lia].
    - replace (n * m) with ((d * (n / d) + n mod d) * m) by (by rewrite <- Hq). ring. }
  rewrite E. destruct (Z.eqb_spec (n mod d) 0) as [->|].
  - apply Z.ltb_lt. nia.
  - apply Z.ltb_ge. assert (1 * m ≤ n mod d * m) by (apply Z.mul_le_mono_nonneg_r; lia).
    assert (0 ≤ n / d * (m * d - M)) by (apply Z.mul_nonneg_nonneg; lia). lia.
Qed.

(** What [start_of_object] and [is_start_of_object] need of an entry with size [z] and slabs
    of [2 ^ b] bytes. *)
Lemma locate r c a d z b :
  at_ (fast_ (the_table r)) c = Ok d → size_ d = z → slab_mask d = 2 ^ b - 1 →
  0 < z ≤ SIZE_MAX → 0 ≤ b < 64 → is_size a →
  (∀ n, 0 ≤ n < 2 ^ b → to_size (n * div_mult d) / 2 ^ 54 = n / z) →
  (∀ n, 0 ≤ n < 2 ^ b → (to_size (n * mod_zero_mult d) <? mod_zero_mult d) = (n mod z =? 0)) →
  start_of_object r c a = Ok (a - (a mod 2 ^ b) mod z) ∧
  index_in_object r c a = Ok ((a mod 2 ^ b) mod z) ∧
  remaining_bytes r c a = Ok (z - (a mod 2 ^ b) mod z) ∧
  is_start_of_object r c a = Ok ((a mod 2 ^ b) mod z =? 0).
Proof.
  intros Hd Hz Hm Hz0 Hb Ha Hdiv Hmod. pose proof (size_pow b Hb) as Hp.
  set (n := a mod 2 ^ b). assert (Hn : 0 ≤ n < 2 ^ b) by (apply Z.mod_pos_bound; lia).
  pose proof (Z.div_mod a (2 ^ b) ltac:(lia)) as Eab. fold n in Eab.
  pose proof (Z.div_mod n z ltac:(lia)) as En. pose proof (Z.mod_pos_bound n z ltac:(lia)) as Hr.
  assert (H0 : 0 ≤ 2 ^ b * (a / 2 ^ b)).
  { apply Z.mul_nonneg_nonneg; [lia|]. apply Z.div_pos; unfold is_size in Ha; lia. }
  assert (Hq : 0 ≤ z * (n / z)) by (apply Z.mul_nonneg_nonneg; [lia|apply Z.div_pos; lia]).
  unfold is_size in Ha.
  assert (Es : start_of_object r c a = Ok (a - n mod z)).
  { unfold start_of_object, fast, raw. rewrite sizeclass_metadata_Ok. cbn [mbind result_bind].
    rewrite Hd, DIV_MULT_SHIFT_Ok. cbn [mbind result_bind]. rewrite Hm, Hz.
    rewrite land_size_not, land_pow2_pred by (done || lia). fold n.
    rewrite size_shr_Ok, Hdiv by lia. cbn [mbind result_bind]. f_equal.
    rewrite (to_size_id (n / z * z)) by (unfold is_size; lia). rewrite to_size_id; unfold is_size; lia. }
  assert (Ei : index_in_object r c a = Ok (n mod z)).
  { unfold index_in_object. rewrite Es. cbn [mbind result_bind]. f_equal.
    rewrite to_size_id; unfold is_size; lia. }
  split; [done|]. split; [done|]. split.
  - unfold remaining_bytes, fast, raw. rewrite sizeclass_metadata_Ok. cbn [mbind result_bind].
    rewrite Hd, Ei. cbn [mbind result_bind]. rewrite Hz. f_equal. rewrite to_size_id; unfold is_size; lia.
  - unfold is_start_of_object, sizeclass_full_to_slab_size, fast, raw. rewrite sizeclass_metadata_Ok.
    cbn [mbind result_bind]. rewrite Hd. cbn [mbind result_bind]. rewrite Hm.
    replace (2 ^ b - 1 + 1) with (2 ^ b) by lia. rewrite (to_size_id (2 ^ b)) by (by apply is_size_pow).
    rewrite to_size_pred by (by apply is_size_pow || lia). rewrite land_pow2_pred by lia. fold n.
    by rewrite Hmod.
Qed.

Lemma slab_size_of r c d b :
  at_ (fast_ (the_table r)) c = Ok d → slab_mask d = 2 ^ b - 1 → 0 ≤ b < 64 →
  sizeclass_full_to_slab_size r c = Ok (2 ^ b).
Proof.
  intros Hd Hm Hb. unfold sizeclass_full_to_slab_size, fast, raw. rewrite sizeclass_metadata_Ok.
  cbn [mbind result_bind]. rewrite Hd. cbn [mbind result_bind]. rewrite Hm.
  replace (2 ^ b - 1 + 1) with (2 ^ b) by lia. by rewrite to_size_id by (by apply is_size_pow).
Qed.

Lemma small_slab r k d b : 0 ≤ k < NUM_SMALL_SIZECLASSES → small_facts r k d b →
  16 ≤ small_size k ∧ small_size k * MIN_OBJECT_COUNT r ≤ 2 ^ b.
Proof.
  intros Hk F. pose proof (small_size_le 0 k ltac:(lia) ltac:(lia)) as H0.
  change (small_size 0) with 16 in H0. split; [done|].
  pose proof (sf_count _ _ _ _ F) as Hc. rewrite (sf_size _ _ _ _ F) in Hc.
  pose proof (Z.mul_div_le (2 ^ b) (small_size k) ltac:(lia)).
  pose proof (Z.mul_le_mono_nonneg_l _ _ (small_size k) ltac:(lia) Hc). lia.
Qed.

Lemma small_div r k d b n : 0 ≤ k < NUM_SMALL_SIZECLASSES → small_facts r k d b → 0 ≤ n < 2 ^ b →
  to_size (n * div_mult d) / 2 ^ 54 = n / small_size k.
Proof.
  intros Hk F Hn. pose proof (small_slab r k d b Hk F) as [Hz _].
  destruct (sf_div _ _ _ _ F) as (D1&D2&D3). rewrite (sf_size _ _ _ _ F) in *.
  assert (0 < div_mult d) by nia.
  rewrite to_size_id.
  - apply reciprocal_div; [lia..|]. 
    assert (n * (div_mult d * small_size k - 2 ^ 54) ≤ 2 ^ b * (div_mult d * small_size k - 2 ^ 54))
      by (apply Z.mul_le_mono_nonneg_r; lia). lia.
  - assert (n * div_mult d ≤ (2 ^ b - 1) * div_mult d) by (apply Z.mul_le_mono_nonneg_r; lia).
    unfold is_size, SIZE_MAX. split; [apply Z.mul_nonneg_nonneg; lia|lia].
Qed.

Lemma small_mod r k d b n : 0 ≤ k < NUM_SMALL_SIZECLASSES → small_facts r k d b → 0 ≤ n < 2 ^ b →
  (to_size (n * mod_zero_mult d) <? mod_zero_mult d) = (n mod small_size k =? 0).
Proof.
  intros Hk F Hn. pose proof (small_slab r k d b Hk F) as [Hz _].
  destruct (sf_mod _ _ _ _ F) as (M1&M2). rewrite (sf_size _ _ _ _ F) in *.
  assert (0 < mod_zero_mult d) by nia.
  apply (reciprocal_mod (2 ^ 64)); [lia..|].
  assert (n / small_size k ≤ 2 ^ b / small_size k) by (apply Z.div_le_mono; lia).
  assert ((n / small_size k + 1) * (mod_zero_mult d * small_size k - 2 ^ 64) ≤
    (2 ^ b / small_size k + 1) * (mod_zero_mult d * small_size k - 2 ^ 64))
    by (apply Z.mul_le_mono_nonneg_r; lia). lia.
Qed.

(** C13: For every class and every address the multiplications by precomputed reciprocals,
    modulo [2 ^ 64], find the object an address lies in: the start of the object, the index
    in it, the bytes up to its end and whether it is its start are those that division of
    the offset in the slab by the size of the class gives. *)
Theorem objects_located r c a : is_class c → is_size a →
  ∃ z b, sizeclass_full_to_size r c = Ok z ∧ sizeclass_full_to_slab_size r c = Ok (2 ^ b) ∧
    0 < z ≤ 2 ^ b ∧
    let i := (a mod 2 ^ b) mod z in
    start_of_object r c a = Ok (a - i) ∧ index_in_object r c a = Ok i ∧
    remaining_bytes r c a = Ok (z - i) ∧ is_start_of_object r c a = Ok (i =? 0).
Proof.
  intros Hc Ha. destruct Hc as [(k&->&Hk)|Hc].
  - destruct (small_entry r k Hk) as (d&b&Hd&F). exists (small_size k), b.
    pose proof (sf_bits _ _ _ _ F). pose proof (sf_prev _ _ _ _ F).
    pose proof (small_slab r k d b Hk F) as [Hz Hs].
    assert (4 ≤ MIN_OBJECT_COUNT r) by (by destruct r). assert (small_size k * 1 ≤ 2 ^ b) by nia.
    rewrite full_to_size_small by done. rewrite (slab_size_of r _ d b) by (done || apply F || lia).
    do 3 (split; [done || lia|]). apply (locate r _ a d); [done|apply F|apply F|unfold SIZE_MAX; lia|lia|done|..].
    + intros n Hn. by apply (small_div r k d b).
    + intros n Hn. by apply (small_mod r k d b).
  - change (64 - MAX_SMALL_SIZECLASS_BITS) with 48 in Hc.
    exists (2 ^ (64 - c)), (64 - c). pose proof (size_pow (64 - c) ltac:(lia)).
    rewrite full_to_size_large by lia.
    rewrite (slab_size_of r c _ (64 - c) (large_entry r c ltac:(lia))) by (done || lia).
    do 3 (split; [done || lia|]).
    apply (locate r c a _ _ _ (large_entry r c ltac:(lia))); [done|done|unfold SIZE_MAX; lia|lia|done|..].
    + intros n Hn. cbn [div_mult]. rewrite Z.mul_0_r. by rewrite (Z.div_small n).
    + intros n Hn. cbn [mod_zero_mult]. rewrite Z.mul_1_r, to_size_id, Z.mod_small by (unfold is_size, SIZE_MAX; lia).
      destruct (Z.ltb_spec n 1), (Z.eqb_spec n 0); lia.
Qed.

Lemma objects_located_witness :
  ∃ z b, sizeclass_full_to_size true (TAG + 9) = Ok z ∧
    sizeclass_full_to_slab_size true (TAG + 9) = Ok (2 ^ b) ∧ 0 < z ≤ 2 ^ b ∧
    let i := (1234567 mod 2 ^ b) mod z in
    start_of_object true (TAG + 9) 1234567 = Ok (1234567 - i) ∧
    index_in_object true (TAG + 9) 1234567 = Ok i ∧
    remaining_bytes true (TAG + 9) 1234567 = Ok (z - i) ∧
    is_start_of_object true (TAG + 9) 1234567 = Ok (i =? 0).
Proof.
  apply (objects_located true (TAG + 9) 1234567).
  - left. exists 9. by vm_compute.
  - by vm_compute.
Defined.

(** The number of objects of a slab is the quotient of its size, at least the minimum. *)
Lemma slab_capacity r k : 0 ≤ k < NUM_SMALL_SIZECLASSES →
  ∃ z b n w, sizeclass_to_size r k = Ok z ∧ sizeclass_to_slab_size r k = Ok (2 ^ b) ∧
    sizeclass_to_slab_object_count r k = Ok n ∧ threshold_for_waking_slab r k = Ok w ∧
    n * z ≤ 2 ^ b < (n + 1) * z ∧ MIN_OBJECT_COUNT r ≤ n ∧ w ≤ n ∧
    (c ← sizeclass_to_slab_sizeclass r k; slab_sizeclass_to_size c) = Ok (2 ^ b).
Proof.
  intros Hk. pose proof (small_all_ok r k Hk) as H. unfold small_ok in H.
  destruct (small_entry r k Hk) as (d&b&Hd&F). pose proof (sf_bits _ _ _ _ F).
  pose proof (small_slab r k d b Hk F) as [Hz _]. rewrite Hd in H.
  destruct (at_ (slow_ _) _) as [w|] eqn:Hw; [|done].
  rewrite !andb_true_iff, ?Z.eqb_eq, ?Z.leb_le in H.
  destruct H as [[[[[[[[[[[[[[H1 _] _] _] _] _] _] Hc] Hn] Hwk] _] _] _] _] _].
  rewrite H1, (sf_mask _ _ _ _ F) in Hc. replace (2 ^ b - 1 + 1) with (2 ^ b) in Hc by lia.
  assert (Es : sizeclass_to_slab_size r k = Ok (2 ^ b)).
  { unfold sizeclass_to_slab_size, fast_small, raw. rewrite sizeclass_metadata_Ok, small_class_lt by done.
    cbn [mbind result_bind]. rewrite Hd. cbn [mbind result_bind]. rewrite (sf_mask _ _ _ _ F).
    replace (2 ^ b - 1 + 1) with (2 ^ b) by lia. by rewrite to_size_id by (apply is_size_pow; lia). }
  exists (small_size k), b, (capacity w), (waking w). rewrite sizeclass_to_size_Ok by done.
  split; [done|]. split; [done|].
  unfold sizeclass_to_slab_object_count, threshold_for_waking_slab, slow, raw.
  rewrite sizeclass_metadata_Ok, small_class_lt by done. cbn [mbind result_bind]. rewrite Hw.
  split; [done|]. split; [done|].
  pose proof (Z.div_mod (2 ^ b) (small_size k) ltac:(lia)).
  pose proof (Z.mod_pos_bound (2 ^ b) (small_size k) ltac:(lia)).
  rewrite Hc in *. split; [lia|]. split; [done|]. split; [done|].
  unfold sizeclass_to_slab_sizeclass. rewrite Es. cbn [mbind result_bind].
  pose proof (size_pow b ltac:(lia)).
  rewrite next_pow2_bits_Ok, ceil_log2_pow by (lia || apply is_size_pow; lia).
  cbn [mbind result_bind]. unfold slab_sizeclass_to_size. change MIN_CHUNK_BITS with 14 in *.
  rewrite (to_size_id (b - 14)) by (unfold is_size, SIZE_MAX; lia).
  rewrite to_size_id by (unfold is_size, SIZE_MAX; lia). rewrite one_at_bit_Ok by lia. do 2 f_equal. lia.
Qed.

(** The two kinds of classes are told apart by the tag and read back. *)
Lemma class_tags_roundtrip k : 0 ≤ k < TAG →
  from_small_class k = Ok (TAG + k) ∧ is_small (TAG + k) = true ∧ as_small (TAG + k) = Ok k ∧
  from_large_class k = Ok k ∧ is_small k = false ∧ as_large k = Ok (64 - k) ∧
  index (TAG + k) = k ∧ index k = k.
Proof.
  intros Hk. set (P := λ k, bool_decide (from_small_class k = Ok (TAG + k)) && is_small (TAG + k) &&
    bool_decide (as_small (TAG + k) = Ok k) && bool_decide (from_large_class k = Ok k) &&
    negb (is_small k) && bool_decide (as_large k = Ok (64 - k)) &&
    (index (TAG + k) =? k) && (index k =? k)).
  assert (HP : P k = true) by (apply (forall_below TAG); [by vm_compute|done]).
  unfold P in HP. rewrite !andb_true_iff, !bool_decide_eq_true, negb_true_iff, !Z.eqb_eq in HP.
  naive_solver.
Qed.

(** ** Alignment *)

Lemma divide_pow m n : 0 ≤ m ≤ n → (2 ^ m | 2 ^ n).
Proof. intros H. exists (2 ^ (n - m)). rewrite <- Z.pow_add_r by lia. f_equal. lia. Qed.

Lemma divide_odd m n q : 0 ≤ m → 0 ≤ n → (2 ^ n | 2 ^ m * (2 * q + 1)) → n ≤ m.
Proof.
  intros Hm Hn [k Hk]. destruct (Z.le_gt_cases n m) as [|H]; [done|exfalso].
  replace n with (m + (1 + (n - m - 1))) in Hk by lia. rewrite !Z.pow_add_r, Z.pow_1_r in Hk by lia.
  assert (H0 : 0 < 2 ^ m) by (by apply Z.pow_pos_nonneg).
  assert (2 ^ m * (2 * q + 1) = 2 ^ m * (2 * (k * 2 ^ (n - m - 1)))) as E%Z.mul_reg_l by lia; lia.
Qed.

Lemma aligned_size_Ok n s : 0 ≤ n < 64 → 1 ≤ s → ((s - 1) / 2 ^ n + 1) * 2 ^ n ≤ 2 ^ 63 →
  aligned_size (2 ^ n) s = Ok (((s - 1) / 2 ^ n + 1) * 2 ^ n).
Proof.
  intros Hn Hs Hle. pose proof (size_pow n Hn) as Hp. unfold aligned_size.
  pose proof (Z.div_mod (s - 1) (2 ^ n) ltac:(lia)) as E.
  pose proof (Z.mod_pos_bound (s - 1) (2 ^ n) ltac:(lia)).
  rewrite (proj2 (Z.eqb_neq (2 ^ n) 0)), is_pow2_pow by lia. cbn [assert_ negb mbind result_bind].
  assert ((s - 1) / 2 ^ n * 2 ^ n = 2 ^ n * ((s - 1) / 2 ^ n)) by ring.
  rewrite !to_size_pred by (unfold is_size, SIZE_MAX; lia).
  assert (El : Z.lor (2 ^ n - 1) (s - 1) = (s - 1) / 2 ^ n * 2 ^ n + (2 ^ n - 1)).
  { rewrite <- Z.shiftr_div_pow2, <- Z.shiftl_mul_pow2 by lia.
    replace (2 ^ n - 1) with (Z.ones n) by (rewrite Z.ones_equiv; lia).
    rewrite Z.add_nocarry_lxor.
    - apply Z.bits_inj'. intros i Hi. rewrite Z.lor_spec, Z.lxor_spec, Z.shiftl_spec by lia.
      destruct (decide (i < n)).
      + rewrite Z.ones_spec_low by lia. by rewrite (Z.testbit_neg_r _ (i - n)) by lia.
      + rewrite Z.ones_spec_high by lia. rewrite Z.shiftr_spec by lia.
        replace (i - n + n) with i by lia. by destruct (Z.testbit _ _).
    - apply Z.bits_inj'. intros i Hi. rewrite Z.land_spec, Z.shiftl_spec, Z.bits_0 by lia.
      destruct (decide (i < n)).
      + by rewrite (Z.testbit_neg_r _ (i - n)) by lia.
      + rewrite Z.ones_spec_high by lia. by rewrite andb_false_r. }
  rewrite El. f_equal. rewrite to_size_id; [lia|]. unfold is_size, SIZE_MAX. lia.
Qed.

(** Below a small class, no multiple of a power of two that does not divide its size is
    above the class before. *)
Lemma small_aligned k n x : 0 ≤ k < NUM_SMALL_SIZECLASSES → 0 ≤ n →
  small_size (k - 1) < x ≤ small_size k → 0 < x → (2 ^ n | x) → (2 ^ n | small_size k).
Proof.
  intros Hk Hn Hx H0 Hd. destruct (small_entry true k Hk) as (d&b&_&F).
  pose proof (sf_prev _ _ _ _ F) as Hp. pose proof (Z.divide_pos_le _ _ H0 Hd) as Hle.
  assert (Hn16 : n < 16) by (apply (Z.pow_lt_mono_r_iff 2); lia).
  set (P := λ k, forallb (λ n, (small_size k mod 2 ^ n =? 0) ||
    (small_size k / 2 ^ n * 2 ^ n <=? small_size (k - 1))) (seqZ 0 16)).
  assert (HP : P k = true) by (apply (forall_below NUM_SMALL_SIZECLASSES); [by vm_compute|lia]).
  pose proof (forall_below 16 _ HP n ltac:(lia)) as H. cbv beta in H.
  pose proof (Z.pow_pos_nonneg 2 n).
  apply orb_prop in H as [H%Z.eqb_eq|H%Z.leb_le]; [by apply Z.mod_divide; [lia|]|].
  destruct Hd as [j ->]. exfalso.
  assert (j ≤ small_size k / 2 ^ n) by (apply Z.div_le_lower_bound; lia).
  assert (j * 2 ^ n ≤ small_size k / 2 ^ n * 2 ^ n) by (apply Z.mul_le_mono_nonneg_r; lia). lia.
Qed.

(** The class of a size that is a multiple of [2 ^ n]. *)
Lemma class_aligned r n x : 0 ≤ n → 1 ≤ x ≤ 2 ^ 63 → (2 ^ n | x) →
  ∃ c z b, size_to_sizeclass_full r x = Ok c ∧ sizeclass_full_to_size r c = Ok z ∧
    sizeclass_full_to_slab_size r c = Ok (2 ^ b) ∧ round_size r x = Ok z ∧
    0 ≤ b < 64 ∧ x ≤ z ≤ 2 ^ b ∧ (2 ^ n | z).
Proof.
  intros Hn Hx Hd. destruct (decide (x ≤ 57344)).
  - destruct (sizes_small r x ltac:(lia)) as (k&E1&E2&Hk&Hb).
    destruct (small_entry r k Hk) as (d&b&Hd'&F). pose proof (sf_bits _ _ _ _ F).
    pose proof (small_slab r k d b Hk F) as [Hz Hs].
    assert (4 ≤ MIN_OBJECT_COUNT r) by (by destruct r). assert (small_size k * 1 ≤ 2 ^ b) by nia.
    exists (TAG + k), (small_size k), b. rewrite full_to_size_small by done.
    rewrite (slab_size_of r _ d b) by (done || apply F || lia).
    do 4 (split; [done|]). split; [lia|]. split; [lia|]. by apply (small_aligned k n x); [..|lia|].
  - destruct (sizes_large r x ltac:(lia)) as (E1&E2&Hb).
    exists (64 - ceil_log2 x), (2 ^ ceil_log2 x), (ceil_log2 x).
    rewrite full_to_size_large by lia.
    rewrite (slab_size_of r _ _ (64 - (64 - ceil_log2 x)) (large_entry r (64 - ceil_log2 x) ltac:(lia)))
      by (done || lia).
    replace (64 - (64 - ceil_log2 x)) with (ceil_log2 x) by lia.
    do 4 (split; [done|]). split; [lia|]. pose proof (ceil_log2_le x ltac:(lia)).
    split; [lia|]. apply divide_pow. split; [done|]. apply (Z.pow_le_mono_r_iff 2); [lia..|].
    pose proof (Z.divide_pos_le (2 ^ n) x ltac:(lia) Hd). lia.
Qed.

Lemma natural_alignment_Ok r x z : 1 ≤ x → 0 < z < 2 ^ 64 → round_size r x = Ok z →
  ∃ m q, natural_alignment r x = Ok (2 ^ m) ∧ 0 ≤ m < 64 ∧ z = 2 ^ m * (2 * q + 1).
Proof.
  intros Hx Hz E. destruct (ctz_Ok z) as (m&q&Ec&Hm&Eq&Hq); [lia|]. exists m, q.
  assert (m < 64). { apply (Z.pow_lt_mono_r_iff 2); [lia..|]. nia. }
  unfold natural_alignment. rewrite E, (proj2 (Z.eqb_neq x 0)) by lia. cbn [mbind result_bind].
  rewrite Ec. cbn [mbind result_bind]. by rewrite one_at_bit_Ok by lia.
Qed.

(** C24: An allocation of [s] bytes with the alignment [2 ^ n] asks for the next multiple of
    the alignment; the class that serves it has a natural alignment that is at least as
    large, and all objects of its slabs are aligned to it. *)
Theorem aligned_objects r n s :
  0 ≤ n < 64 → 1 ≤ s → ((s - 1) / 2 ^ n + 1) * 2 ^ n ≤ 2 ^ 63 →
  ∃ x c z b m, aligned_size (2 ^ n) s = Ok x ∧ s ≤ x < s + 2 ^ n ∧ (2 ^ n | x) ∧
    size_to_sizeclass_full r x = Ok c ∧ sizeclass_full_to_size r c = Ok z ∧ x ≤ z ∧
    sizeclass_full_to_slab_size r c = Ok (2 ^ b) ∧
    natural_alignment r x = Ok (2 ^ m) ∧ n ≤ m ∧
    ∀ base i, (2 ^ b | base) → (2 ^ m | base + i * z).
Proof.
  intros Hn Hs Hle. pose proof (size_pow n Hn).
  pose proof (Z.div_mod (s - 1) (2 ^ n) ltac:(lia)). pose proof (Z.mod_pos_bound (s - 1) (2 ^ n) ltac:(lia)).
  set (x := ((s - 1) / 2 ^ n + 1) * 2 ^ n) in *. assert (Hx : s ≤ x < s + 2 ^ n) by lia.
  assert (Hd : (2 ^ n | x)) by apply Z.divide_factor_r.
  destruct (class_aligned r n x) as (c&z&b&Ec&Ez&Eb&Er&Hb&Hz&Hnz); [lia..|done|].
  pose proof (size_pow b Hb).
  destruct (natural_alignment_Ok r x z) as (m&q&Em&Hm&Eq); [lia..|done|].
  assert (Hmz : (2 ^ m | z)) by (rewrite Eq; apply Z.divide_factor_l).
  assert (m ≤ b).
  { apply (Z.pow_le_mono_r_iff 2); [lia..|]. pose proof (Z.divide_pos_le (2 ^ m) z ltac:(lia) Hmz). lia. }
  exists x, c, z, b, m. rewrite aligned_size_Ok by done.
  do 5 (split; [done|]). split; [lia|]. split; [done|]. split; [done|].
  split; [rewrite Eq in Hnz; by apply (divide_odd m n q); [lia..|]|].
  intros base i Hbase. apply Z.divide_add_r; [|by apply Z.divide_mul_r].
  apply (Z.divide_trans _ (2 ^ b)); [apply divide_pow; lia|done].
Qed.

Lemma aligned_objects_witness :
  ∃ x c z b m, aligned_size (2 ^ 6) 100 = Ok x ∧ 100 ≤ x < 100 + 2 ^ 6 ∧ (2 ^ 6 | x) ∧
    size_to_sizeclass_full false x = Ok c ∧ sizeclass_full_to_size false c = Ok z ∧ x ≤ z ∧
    sizeclass_full_to_slab_size false c = Ok (2 ^ b) ∧
    natural_alignment false x = Ok (2 ^ m) ∧ 6 ≤ m ∧
    ∀ base i, (2 ^ b | base) → (2 ^ m | base + i * z).
Proof. apply (aligned_objects false 6 100); [lia|lia|by vm_compute]. Defined.

End SizeClass.
