(* ===== verification/MetaEntry.v ===== *)
(** * snmalloc, mem/metadata.h: the entries of the pagemap

    One [MetaEntryBase] is two words of a [uintptr_t].  An entry is owned by the front
    end, owned by the back end (the marker bit of the second word), or by neither.  The
    back end sees the two words through [BackendStateWordRef], which hides the low
    bits.  Words are numbers between 0 and [2 ^ 64 - 1]. *)

From stdpp Require Import base list numbers.
From Stdlib Require Import ZArith Lia.
From S2P Require Import Prelude CInt SnBits.
Local Open Scope Z_scope.

Module MetaEntry.
Import CInt SnBits.

Definition REMOTE_BACKEND_MARKER : Z := Z.shiftl 1 7.
Definition META_BOUNDARY_BIT : Z := Z.shiftl 1 0.
Definition REMOTE_WITH_BACKEND_MARKER_ALIGN : Z := REMOTE_BACKEND_MARKER.
Definition BACKEND_RESERVED_MASK : Z := Z.shiftl REMOTE_BACKEND_MARKER 1 - 1.

Record MetaEntryBase := mkEntry { meta : Z; remote_and_sizeclass : Z }.

Definition empty_entry : MetaEntryBase := mkEntry 0 0.

Definition is_backend_owned (e : MetaEntryBase) : bool :=
  Z.land REMOTE_BACKEND_MARKER (remote_and_sizeclass e) =? REMOTE_BACKEND_MARKER.

Definition is_unowned (e : MetaEntryBase) : bool :=
  ((meta e =? 0) || (meta e =? META_BOUNDARY_BIT)) && (remote_and_sizeclass e =? 0).

(** [encode(remote, sizeclass)] *)
Definition encode (remote sizeclass : Z) : Z := to_size (remote + sizeclass).

(** [operator=]: the boundary bit of the target stays. *)
Definition assign_entry (e other : MetaEntryBase) : MetaEntryBase :=
  mkEntry (Z.lor (Z.land (meta other) (size_not META_BOUNDARY_BIT))
             (Z.land (meta e) META_BOUNDARY_BIT)) (remote_and_sizeclass other).

Definition set_boundary (e : MetaEntryBase) : MetaEntryBase :=
  mkEntry (Z.lor (meta e) META_BOUNDARY_BIT) (remote_and_sizeclass e).
Definition is_boundary (e : MetaEntryBase) : bool :=
  negb (Z.land (meta e) META_BOUNDARY_BIT =? 0).

(** The new value of [meta] is also the result, as a [bool]. *)
Definition clear_boundary_bit (e : MetaEntryBase) : bool * MetaEntryBase :=
  let m := Z.land (meta e) (size_not META_BOUNDARY_BIT) in
  (negb (m =? 0), mkEntry m (remote_and_sizeclass e)).

Definition get_remote (e : MetaEntryBase) : result Z :=
  assert_ (negb (is_backend_owned e));;
  align_down (remote_and_sizeclass e) REMOTE_WITH_BACKEND_MARKER_ALIGN.
Definition get_sizeclass (e : MetaEntryBase) : Z :=
  Z.land (remote_and_sizeclass e) (REMOTE_WITH_BACKEND_MARKER_ALIGN - 1).

Definition claim_for_backend (e : MetaEntryBase) : MetaEntryBase :=
  mkEntry (if is_boundary e then META_BOUNDARY_BIT else 0) REMOTE_BACKEND_MARKER.

(** ** Words *)

Inductive Word := One | Two.

Definition is_backend_allowed_value (_ : Word) (val : Z) : bool :=
  Z.land val BACKEND_RESERVED_MASK =? 0.

(** [get] and the assignment of a [BackendStateWordRef] to the word [val]. *)
Definition ref_get (val : Z) : Z := Z.land val (size_not BACKEND_RESERVED_MASK).
Definition ref_assign (val v : Z) : result Z :=
  assert_ (Z.land v BACKEND_RESERVED_MASK =? 0);;
  Ok (Z.lor v (Z.land val BACKEND_RESERVED_MASK)).

Definition word (w : Word) (e : MetaEntryBase) : Z :=
  match w with One => meta e | Two => remote_and_sizeclass e end.
Definition set_word (w : Word) (v : Z) (e : MetaEntryBase) : MetaEntryBase :=
  match w with
  | One => mkEntry v (remote_and_sizeclass e)
  | Two => mkEntry (meta e) v
  end.

(** What [get_backend_word] does to the entry; the reference is to [word w]. *)
Definition get_backend_word (e : MetaEntryBase) : result MetaEntryBase :=
  if is_backend_owned e then Ok e
  else assert_ (is_unowned e);; Ok (claim_for_backend e).

(** ** Bits *)

Lemma reserved_testbit i : 0 ≤ i → Z.testbit BACKEND_RESERVED_MASK i = (i <? 8).
Proof.
  intros Hi. change BACKEND_RESERVED_MASK with (Z.ones 8). rewrite Z.testbit_ones_nonneg by lia. done.
Qed.

Lemma ref_get_testbit x i :
  0 ≤ i → Z.testbit (ref_get x) i = (8 <=? i) && (i <? 64) && Z.testbit x i.
Proof.
  intros Hi. unfold ref_get. rewrite Z.land_spec. destruct (Z.ltb_spec i 64).
  - rewrite size_not_testbit, reserved_testbit by lia.
    rewrite Z.ltb_antisym. destruct (8 <=? i); simpl; by destruct (Z.testbit x i).
  - unfold size_not, to_size. rewrite Z.mod_pow2_bits_high by lia.
    rewrite !andb_false_r. done.
Qed.

Lemma low_bits v n i : v mod 2 ^ n = 0 → 0 ≤ i < n → Z.testbit v i = false.
Proof. intros Hv Hi. by rewrite <- (Z.mod_pow2_bits_low v n) by lia; rewrite Hv, Z.bits_0. Qed.

(** A value with no reserved bits is what is read back, and the reserved bits stay. *)
Lemma ref_assign_Ok x v :
  is_size v → v mod 2 ^ 8 = 0 →
  ∃ x', ref_assign x v = Ok x' ∧ ref_get x' = v ∧
    ∀ i, 0 ≤ i < 8 → Z.testbit x' i = Z.testbit x i.
Proof.
  intros Hv Hm. unfold ref_assign.
  assert (Hz : Z.land v BACKEND_RESERVED_MASK = 0).
  { change BACKEND_RESERVED_MASK with (2 ^ 8 - 1). by rewrite land_pow2_pred by lia. }
  rewrite Hz. cbn [Z.eqb assert_ mbind result_bind]. eexists. split; [done|].
  split.
  - apply Z.bits_inj'. intros i Hi. rewrite ref_get_testbit, Z.lor_spec, Z.land_spec, reserved_testbit by lia.
    destruct (Z.leb_spec 8 i); simpl.
    + assert ((i <? 8) = false) as -> by (apply Z.ltb_ge; lia). rewrite andb_false_r, orb_false_r.
      destruct (Z.ltb_spec i 64); [done|]. simpl. symmetry. by apply size_testbit_high.
    + symmetry. apply (low_bits v 8); [done|lia].
  - intros i Hi. rewrite Z.lor_spec, Z.land_spec, reserved_testbit by lia.
    rewrite (low_bits v 8) by (done || lia).
    assert ((i <? 8) = true) as -> by (apply Z.ltb_lt; lia). by rewrite andb_true_r.
Qed.

Lemma ref_assign_low x v x' :
  ref_assign x v = Ok x' → ∀ i, 0 ≤ i < 8 → Z.testbit x' i = Z.testbit x i.
Proof.
  unfold ref_assign. destruct (Z.eqb_spec (Z.land v BACKEND_RESERVED_MASK) 0) as [Hz|]; [|done].
  intros [= <-] i Hi. rewrite Z.lor_spec, Z.land_spec, reserved_testbit by lia.
  assert ((i <? 8) = true) as Hl by (apply Z.ltb_lt; lia).
  assert (Hv : Z.testbit (Z.land v BACKEND_RESERVED_MASK) i = false) by (by rewrite Hz, Z.bits_0).
  rewrite Z.land_spec, reserved_testbit, Hl, andb_true_r in Hv by lia. by rewrite Hv, Hl, andb_true_r.
Qed.

Lemma is_backend_owned_bit e : is_backend_owned e = Z.testbit (remote_and_sizeclass e) 7.
Proof. unfold is_backend_owned. rewrite Z.land_comm. by apply (land_bit _ 7). Qed.

Lemma is_boundary_bit e : is_boundary e = Z.testbit (meta e) 0.
Proof.
  unfold is_boundary. change META_BOUNDARY_BIT with (2 ^ 1 - 1). rewrite land_pow2_pred by lia.
  change (2 ^ 1) with 2. rewrite Zmod_odd, Z.bit0_odd. by destruct (Z.odd _).
Qed.

Lemma is_unowned_spec e :
  is_unowned e = true → (meta e = 0 ∨ meta e = 1) ∧ remote_and_sizeclass e = 0.
Proof.
  unfold is_unowned. rewrite andb_true_iff, orb_true_iff, !Z.eqb_eq.
  change META_BOUNDARY_BIT with 1. done.
Qed.

(** Claiming an entry that nobody owns changes neither what the words show nor the
    boundary bit. *)
Lemma get_backend_word_Ok e :
  is_backend_owned e = true ∨ is_unowned e = true →
  ∃ e', get_backend_word e = Ok e' ∧ is_backend_owned e' = true ∧
    is_boundary e' = is_boundary e ∧ (∀ w, ref_get (word w e') = ref_get (word w e)) ∧
    Z.testbit (meta e') 8 = Z.testbit (meta e) 8.
Proof.
  intros He. unfold get_backend_word. destruct (is_backend_owned e) eqn:Ho; [by exists e|].
  destruct He as [|Hu]; [done|]. rewrite Hu. cbn [assert_ mbind result_bind].
  apply is_unowned_spec in Hu as [Hm Hr]. destruct e as [m r]. simpl in Hm, Hr. subst r.
  eexists. split; [done|]. destruct Hm as [-> | ->]; (split_and!; [done..|intros [|]; done|done]).
Qed.

(** The owner and the boundary stay when a word is assigned. *)
Lemma set_word_low w e x' :
  (∀ i, 0 ≤ i < 8 → Z.testbit x' i = Z.testbit (word w e) i) →
  is_backend_owned (set_word w x' e) = is_backend_owned e ∧
  is_boundary (set_word w x' e) = is_boundary e.
Proof.
  intros Hl. rewrite !is_backend_owned_bit, !is_boundary_bit.
  destruct w; cbn [word set_word meta remote_and_sizeclass] in *; split; try done; apply Hl; lia.
Qed.

Lemma word_set_eq w x e : word w (set_word w x e) = x.
Proof. by destruct w. Qed.
Lemma word_set_ne w w' x e : w ≠ w' → word w (set_word w' x e) = word w e.
Proof. by destruct w, w'. Qed.

End MetaEntry.
