(* ===== verification/RbTree.v ===== *)
(** * snmalloc, ds_core/redblacktree.h: the red-black tree of the buddy allocators

    [RBTree<Rep, run_checks>] with its paths ([RBPath]) and the references to children
    ([ChildRef]).  The nodes live in memory that the representation [Rep] reads and
    writes, so the operations are computations in a store; a [ChildRef] is the place a
    pointer is stored in (the root of a tree or one of the two fields of a node), not
    the pointer itself.  The direction [true] is left.  The theorems are in [RbShape],
    [RbInsert] and [RbRemove]. *)

From stdpp Require Import base list numbers.
From Stdlib Require Import ZArith Lia.
From S2P Require Import Prelude CInt.
Local Open Scope Z_scope.

Module RbTree.

(** ** The representation *)

(** [Rep::Handle]: the root field of the tree number [tree], or the field that
    [Rep::ref(direction, node)] points to. *)
Inductive handle :=
| Root (tree : nat)
| Ref (direction : bool) (node : Z).

#[export] Instance handle_eq_dec : EqDecision handle.
Proof. solve_decision. Defined.

(** The concept [RBRep]: the operations a representation has to define on its store.
    [rep_ref] is what [Rep::ref(direction, k)] does to the store; the place it returns
    is [Ref direction k]. *)
Class RBRep (St : Type) := {
  rep_null : Z;
  rep_ref : St → bool → Z → result St;
  rep_get : St → handle → result Z;
  rep_set : St → handle → Z → result St;
  rep_is_red : St → Z → result (bool * St);
  rep_set_red : St → Z → bool → result St;
  rep_compare : Z → Z → bool;
  rep_equal : Z → Z → bool;
}.

(** Computations that change the store or fail. *)
Definition M (St A : Type) : Type := St → result (A * St).

#[export] Instance M_ret {St} : MRet (M St) := λ A a s, Ok (a, s).
#[export] Instance M_bind {St} : MBind (M St) :=
  λ A B f m s, match m s with Ok (a, s') => f a s' | Err e => Err e end.

Definition lift {St A} (r : result A) : M St A :=
  λ s, match r with Ok a => Ok (a, s) | Err e => Err e end.

(** ** Paths *)

Record RBStep := mkStep { node : handle; dir : bool }.

(** The array of an [RBPath] up to its [length], the current step first; its 128
    places are the bound of [push]. *)
Definition RBPath := list RBStep.
Definition path_capacity : nat := 128.

Section Ops.
Context {St : Type} `{RBRep St}.

Definition deref (r : handle) : M St Z := λ s, lift (rep_get s r) s.
Definition assign (r : handle) (v : Z) : M St unit :=
  λ s, match rep_set s r v with Ok s' => Ok (tt, s') | Err e => Err e end.
Definition is_red (k : Z) : M St bool := λ s, rep_is_red s k.
Definition set_red (k : Z) (b : bool) : M St unit :=
  λ s, match rep_set_red s k b with Ok s' => Ok (tt, s') | Err e => Err e end.

Definition is_null (r : handle) : M St bool :=
  k ← deref r; mret (bool_decide (k = rep_null)).

Definition get_dir (direction : bool) (k : Z) : M St handle :=
  λ s, match rep_ref s direction k with Ok s' => Ok (Ref direction k, s') | Err e => Err e end.

(** The conversion of a [ChildRef] to the node it holds, and the assignment to one. *)
Definition load (r : M St handle) : M St Z := h ← r; deref h.
Definition store (r : M St handle) (v : Z) : M St unit := h ← r; assign h v.

(** [ith] and [ith_dir]: the assertion lets [n = length] through, which is outside. *)
Definition ith_step (path : RBPath) (n : nat) : M St RBStep :=
  lift (assert_ (bool_decide (n ≤ length path)%nat));; lift (vec_at path n).
Definition ith (path : RBPath) (n : nat) : M St handle :=
  st ← ith_step path n; mret (node st).
Definition ith_dir (path : RBPath) (n : nat) : M St bool :=
  st ← ith_step path n; mret (dir st).

Definition curr (path : RBPath) : M St handle := ith path 0.
Definition curr_dir (path : RBPath) : M St bool := ith_dir path 0.
Definition parent (path : RBPath) : M St handle := ith path 1.
Definition parent_dir (path : RBPath) : M St bool := ith_dir path 1.
Definition grand_parent (path : RBPath) : M St handle := ith path 2.

(** [path[length].set(next, direction); length++] *)
Definition push (path : RBPath) (next : handle) (direction : bool) : M St RBPath :=
  if bool_decide (length path < path_capacity)%nat
  then mret (mkStep next direction :: path) else lift (Err Undefined).

Definition move (path : RBPath) (direction : bool) : M St (bool * RBPath) :=
  c ← load (curr path);
  next ← get_dir direction c;
  null ← is_null next;
  if (null : bool) then mret (false, path)
  else path ← push path next direction; mret (true, path).

Definition move_inc_null (path : RBPath) (direction : bool) : M St (bool * RBPath) :=
  c ← load (curr path);
  next ← get_dir direction c;
  path ← push path next direction;
  null ← is_null next;
  mret (negb null, path).

Definition pop (path : RBPath) : M St RBPath :=
  lift (assert_ (bool_decide (0 < length path)%nat));; mret (tail path).

(** [while (path.move(direction)) {}] *)
Fixpoint move_all (fuel : nat) (path : RBPath) (direction : bool) : M St RBPath :=
  match fuel with
  | O => lift (Err Diverge)
  | S fuel =>
      '(moved, path) ← move path direction;
      if (moved : bool) then move_all fuel path direction else mret path
  end.

Definition get_root_path (t : nat) : RBPath := [mkStep (Root t) false].

(** ** The tree *)

Context (run_checks : bool).

(** The loop of [fixup] goes from the root to the end of the path.  The error it
    reports for an unexpected change only exists with the checks. *)
Fixpoint fixup_loop (expected : bool) (path : RBPath) : M St RBPath :=
  match path with
  | st :: (_ :: _) as rest =>
      rest' ← fixup_loop expected rest;
      p ← load (curr rest');
      actual ← get_dir (dir st) p;
      if bool_decide (actual = node st) then mret (st :: rest')
      else if expected then mret (mkStep actual (dir st) :: rest')
      else lift (Err RuntimeError)
  | _ => mret path
  end.

Definition fixup (expected : bool) (path : RBPath) : M St RBPath :=
  if negb run_checks && negb expected then mret path else fixup_loop expected path.

(** [invariant(curr, lower, upper)]: the black depth, or a fatal error. *)
Fixpoint invariant (fuel : nat) (k lower upper : Z) : M St Z :=
  if negb run_checks then mret 0
  else if bool_decide (k = rep_null) then mret 1
  else
    match fuel with
    | O => lift (Err Diverge)
    | S fuel =>
        if (negb (bool_decide (lower = rep_null)) && rep_compare lower k)
           || (negb (bool_decide (upper = rep_null)) && rep_compare k upper)
        then lift (Err RuntimeError)
        else
          red ← is_red k;
          bad ← (if (red : bool) then
                   l ← load (get_dir true k);
                   lred ← is_red l;
                   if (lred : bool) then mret true
                   else r ← load (get_dir false k); is_red r
                 else mret false);
          if (bad : bool) then lift (Err RuntimeError)
          else
            l ← load (get_dir true k);
            left_inv ← invariant fuel l lower k;
            r ← load (get_dir false k);
            right_inv ← invariant fuel r k upper;
            if negb (left_inv =? right_inv) then lift (Err RuntimeError)
            else
              red ← is_red k;
              if (red : bool) then mret left_inv else mret (left_inv + 1)
    end.

Definition check (k : Z) : M St unit :=
  invariant path_capacity k rep_null rep_null;; mret tt.

(** The [do] loop of [find]. *)
Fixpoint find_loop (fuel : nat) (path : RBPath) (value : Z) : M St (bool * RBPath) :=
  match fuel with
  | O => lift (Err Diverge)
  | S fuel =>
      c ← load (curr path);
      if rep_equal c value then mret (true, path)
      else
        '(moved, path) ← move_inc_null path (rep_compare c value);
        if (moved : bool) then find_loop fuel path value else mret (false, path)
  end.

Definition find (path : RBPath) (value : Z) : M St (bool * RBPath) :=
  c ← curr path;
  null ← is_null c;
  if (null : bool) then mret (false, path) else find_loop path_capacity path value.

(** The loop of [remove_path] that moves the double black up. *)
Fixpoint remove_loop (fuel : nat) (t : nat) (path : RBPath) : M St unit :=
  match fuel with
  | O => lift (Err Diverge)
  | S fuel =>
      c ← curr path;
      if bool_decide (c = Root t) then mret tt
      else
        par ← load (parent path);
        cur_dir ← curr_dir path;
        sibling ← load (get_dir (negb cur_dir) par);
        sib_red ← is_red sibling;
        if (sib_red : bool) then
          nibling ← load (get_dir cur_dir sibling);
          store (get_dir (negb cur_dir) par) nibling;;
          store (get_dir cur_dir sibling) par;;
          set_red par true;;
          set_red sibling false;;
          ph ← parent path;
          assign ph sibling;;
          path ← pop path;
          '(_, path) ← move path cur_dir;
          '(_, path) ← move_inc_null path cur_dir;
          path ← fixup false path;
          remove_loop fuel t path
        else
          rn ← load (get_dir (negb cur_dir) sibling);
          rn_red ← is_red rn;
          if (rn_red : bool) then
            r_nibling ← load (get_dir (negb cur_dir) sibling);
            o_nibling ← load (get_dir cur_dir sibling);
            store (get_dir cur_dir sibling) par;;
            store (get_dir (negb cur_dir) par) o_nibling;;
            ph ← parent path;
            assign ph sibling;;
            set_red r_nibling false;;
            par_red ← is_red par;
            set_red sibling par_red;;
            set_red par false
          else
            on ← load (get_dir cur_dir sibling);
            on_red ← is_red on;
            if (on_red : bool) then
              r_nibling ← load (get_dir cur_dir sibling);
              r_nibling_same ← load (get_dir cur_dir r_nibling);
              r_nibling_opp ← load (get_dir (negb cur_dir) r_nibling);
              store (get_dir (negb cur_dir) par) r_nibling_same;;
              store (get_dir cur_dir sibling) r_nibling_opp;;
              store (get_dir cur_dir r_nibling) par;;
              store (get_dir (negb cur_dir) r_nibling) sibling;;
              ph ← parent path;
              assign ph r_nibling;;
              par_red ← is_red par;
              set_red r_nibling par_red;;
              set_red par false
            else
              par_red ← is_red par;
              if (par_red : bool) then
                set_red par false;;
                set_red sibling true
              else
                set_red sibling true;;
                path ← pop path;
                k ← load (curr path);
                check k;;
                remove_loop fuel t path
  end.

(** At most one turn without a [pop] between two turns with one. *)
Definition remove_fuel : nat := 2 * path_capacity.

Definition remove_path (t : nat) (path : RBPath) : M St bool :=
  splice ← curr path;
  null ← is_null splice;
  lift (assert_ (negb null));;
  '(_, path) ← move path true;
  path ← move_all path_capacity path false;
  c ← load (curr path);
  child ← load (get_dir true c);
  ch ← curr path;
  assign ch child;;
  leaf_red ← is_red c;
  ch ← curr path;
  path ← (if bool_decide (ch = splice) then mret path
          else
            old ← deref splice;
            old_red ← is_red old;
            set_red c old_red;;
            old ← deref splice;
            l ← load (get_dir true old);
            store (get_dir true c) l;;
            old ← deref splice;
            r ← load (get_dir false old);
            store (get_dir false c) r;;
            assign splice c;;
            fixup true path);
  if (leaf_red : bool) then mret true
  else remove_loop remove_fuel t path;; mret true.

(** The loop of [insert_path] that moves the double red up. *)
Fixpoint insert_loop (fuel : nat) (t : nat) (path : RBPath) : M St unit :=
  match fuel with
  | O => lift (Err Diverge)
  | S fuel =>
      ch ← curr path;
      if bool_decide (ch = Root t) then
        root ← deref (Root t);
        set_red root false;;
        root ← deref (Root t);
        check root
      else
        c ← load (curr path);
        c_red ← is_red c;
        lift (assert_ c_red);;
        p ← load (parent path);
        p_red ← is_red p;
        if negb p_red then root ← deref (Root t); check root
        else
          cur_dir ← curr_dir path;
          c ← load (curr path);
          p ← load (parent path);
          g ← load (grand_parent path);
          g_red ← is_red g;
          lift (assert_ (negb g_red));;
          par_dir ← parent_dir path;
          (if bool_decide (par_dir = cur_dir) then
             sibling ← load (get_dir (negb cur_dir) p);
             set_red c false;;
             store (get_dir cur_dir g) sibling;;
             store (get_dir (negb cur_dir) p) g;;
             gh ← grand_parent path;
             assign gh p
           else
             child_g ← load (get_dir cur_dir c);
             child_p ← load (get_dir (negb cur_dir) c);
             set_red p false;;
             gh ← grand_parent path;
             assign gh c;;
             store (get_dir cur_dir c) g;;
             store (get_dir (negb cur_dir) c) p;;
             store (get_dir cur_dir p) child_p;;
             store (get_dir (negb cur_dir) g) child_g);;
          path ← pop path;
          path ← pop path;
          k ← load (curr path);
          check k;;
          insert_loop fuel t path
  end.

Definition insert_path (t : nat) (path : RBPath) (value : Z) : M St unit :=
  ch ← curr path;
  null ← is_null ch;
  lift (assert_ null);;
  assign ch value;;
  k ← load (curr path);
  store (get_dir true k) rep_null;;
  k ← load (curr path);
  store (get_dir false k) rep_null;;
  set_red value true;;
  insert_loop path_capacity t path.

Definition is_empty (t : nat) : M St bool := is_null (Root t).

Definition remove_min (t : nat) : M St Z :=
  empty ← is_empty t;
  if (empty : bool) then mret rep_null
  else
    path ← move_all path_capacity (get_root_path t) true;
    result ← load (curr path);
    remove_path t path;;
    mret result.

Definition remove_elem (t : nat) (value : Z) : M St bool :=
  empty ← is_empty t;
  if (empty : bool) then mret false
  else
    '(found, path) ← find (get_root_path t) value;
    if negb found then mret false
    else remove_path t path;; mret true.

Definition insert_elem (t : nat) (value : Z) : M St bool :=
  '(found, path) ← find (get_root_path t) value;
  if (found : bool) then mret false
  else insert_path t path value;; mret true.

End Ops.

End RbTree.
