(* ===== verification/RbShape.v ===== *)
(** * The shape of a red-black tree in the store of its representation

    The laws a representation of [RbTree] has to satisfy ([RBRepLaws]), the mathematical
    trees and the contexts of their subtrees, what it means that a store holds a tree
    or a context ([tree_at], [ctx_at]), and the red-black and search-tree properties. *)

From stdpp Require Import base list numbers sorting sets.
From Stdlib Require Import ZArith Lia.
From S2P Require Import Prelude CInt RbTree.
Local Open Scope Z_scope.

Module RbShape.
Import RbTree.

(** ** The laws of a representation *)

(** [rep_valid s k]: the fields of the node [k] can be read and written in [s];
    [rep_fresh s k]: they can be once [rep_ref] has returned them;
    [rep_colour] is the colour its representation stores;
    [rep_root s t]: so can the root field of the tree [t].  What a field or a colour
    holds before it is written is not constrained. *)
Class RBRepLaws (St : Type) `{RBRep St} := {
  rep_valid : St → Z → Prop;
  rep_fresh : St → Z → Prop;
  rep_root : St → nat → Prop;
  rep_colour : St → Z → bool;
  rep_place (s : St) (h : handle) : Prop :=
    match h with Root t => rep_root s t | Ref _ k => rep_valid s k end;
  rep_same_places (s s' : St) : Prop :=
    (∀ k, rep_valid s k → rep_valid s' k) ∧ (∀ k, rep_fresh s k → rep_fresh s' k) ∧
    (∀ t, rep_root s t → rep_root s' t);
  rep_same_view (s s' : St) : Prop :=
    rep_same_places s s' ∧ (∀ h, rep_place s h → rep_get s' h = rep_get s h) ∧
    (∀ k, rep_valid s k → rep_colour s' k = rep_colour s k);
  rep_null_0 : rep_null = 0;
  rep_valid_fresh s k : rep_valid s k → rep_fresh s k;
  rep_valid_range s k : rep_fresh s k → 0 < k < 2 ^ 64 ∧ k mod 16 = 0;
  rep_compare_lt k1 k2 : rep_compare k1 k2 = (k2 <? k1);
  rep_equal_eq k1 k2 : rep_equal k1 k2 = (k1 =? k2);
  rep_ref_ok s d k : rep_fresh s k →
    ∃ s', rep_ref s d k = Ok s' ∧ rep_same_view s s' ∧ rep_valid s' k;
  rep_get_ok s h : rep_place s h → ∃ v, rep_get s h = Ok v;
  rep_is_red_ok s k : rep_valid s k →
    ∃ s', rep_is_red s k = Ok (rep_colour s k, s') ∧ rep_same_view s s';
  rep_is_red_null s : rep_is_red s 0 = Ok (false, s);
  rep_set_ok s h v : rep_place s h → v = 0 ∨ rep_fresh s v →
    ∃ s', rep_set s h v = Ok s' ∧ rep_same_places s s' ∧
      (∀ h', rep_place s h' → rep_get s' h' = if decide (h' = h) then Ok v else rep_get s h') ∧
      (∀ k, rep_valid s k → rep_colour s' k = rep_colour s k);
  rep_set_red_ok s k b : rep_valid s k →
    ∃ s', rep_set_red s k b = Ok s' ∧ rep_same_places s s' ∧
      (∀ h, rep_place s h → rep_get s' h = rep_get s h) ∧
      (∀ k', rep_valid s k' → rep_colour s' k' = if decide (k' = k) then b else rep_colour s k');
}.

(** ** Stores as functions *)

Record ideal := mkIdeal { cell : handle → Z; red : Z → bool }.

Definition upd (σ : ideal) (h : handle) (v : Z) : ideal :=
  mkIdeal (λ h', if decide (h' = h) then v else cell σ h') (red σ).
Definition paint (σ : ideal) (k : Z) (b : bool) : ideal :=
  mkIdeal (cell σ) (λ k', if decide (k' = k) then b else red σ k').

Lemma cell_upd_eq σ h v : cell (upd σ h v) h = v.
Proof. simpl. by rewrite decide_True. Qed.
Lemma cell_upd_ne σ h h' v : h' ≠ h → cell (upd σ h v) h' = cell σ h'.
Proof. intros. simpl. by rewrite decide_False. Qed.
Lemma red_upd σ h v k : red (upd σ h v) k = red σ k.
Proof. done. Qed.
Lemma cell_paint σ k b h : cell (paint σ k b) h = cell σ h.
Proof. done. Qed.
Lemma red_paint_eq σ k b : red (paint σ k b) k = b.
Proof. simpl. by rewrite decide_True. Qed.
Lemma red_paint_ne σ k k' b : k' ≠ k → red (paint σ k b) k' = red σ k'.
Proof. intros. simpl. by rewrite decide_False. Qed.

(** [σ'] differs from [σ] only in the nodes [K] and in the place [h0]. *)
Definition touches (K : list Z) (h0 : handle) (σ σ' : ideal) : Prop :=
  (∀ h, h ≠ h0 → (∀ d k, h = Ref d k → k ∉ K) → cell σ' h = cell σ h) ∧
  (∀ k, k ∉ K → red σ' k = red σ k).

Lemma touches_refl K h0 σ : touches K h0 σ σ.
Proof. done. Qed.
Lemma touches_ref K h0 σ σ' d k v : touches K h0 σ σ' → k ∈ K → touches K h0 σ (upd σ' (Ref d k) v).
Proof.
  intros [Hc Hr] Hk. split; [|done]. intros h H0 HK. rewrite cell_upd_ne; [auto|].
  intros ->. by apply (HK d k).
Qed.
Lemma touches_hole K h0 σ σ' v : touches K h0 σ σ' → touches K h0 σ (upd σ' h0 v).
Proof. intros [Hc Hr]. split; [|done]. intros h H0 HK. rewrite cell_upd_ne; auto. Qed.
Lemma touches_paint K h0 σ σ' k b : touches K h0 σ σ' → k ∈ K → touches K h0 σ (paint σ' k b).
Proof.
  intros [Hc Hr] Hk. split; [done|]. intros k' Hk'. rewrite red_paint_ne; [auto|].
  intros ->. done.
Qed.
Lemma touches_trans K h0 K' h0' σ σ' σ'' :
  touches K h0 σ σ' → touches K' h0' σ' σ'' →
  (∀ k, k ∈ K → k ∈ K') → (h0 = h0' ∨ ∃ d k, h0 = Ref d k ∧ k ∈ K') → touches K' h0' σ σ''.
Proof.
  intros [Hc Hr] [Hc' Hr'] HK Hh. split.
  - intros h H0 H1. rewrite Hc' by done. apply Hc; [|intros d k E ?; by apply (H1 d k E), HK].
    destruct Hh as [->|(d & k & -> & Hk)]; [done|]. intros ->. by apply (H1 d k).
  - intros k Hk. rewrite Hr' by done. apply Hr. intros ?. by apply Hk, HK.
Qed.

(** ** Trees and contexts *)

Inductive tree :=
| E
| T (c : bool) (l : tree) (k : Z) (r : tree).

(** The node [k] with the child [a] in the direction [d] and [b] in the other. *)
Definition mk (d c : bool) (k : Z) (a b : tree) : tree :=
  if d then T c a k b else T c b k a.

Record frame := mkFrame { fdir : bool; fred : bool; fkey : Z; fsib : tree }.
Definition ctx := list frame.

Definition fill (f : frame) (t : tree) : tree := mk (fdir f) (fred f) (fkey f) t (fsib f).
Fixpoint plug (C : ctx) (t : tree) : tree :=
  match C with [] => t | f :: C => plug C (fill f t) end.

Fixpoint elems (t : tree) : list Z :=
  match t with E => [] | T _ l k r => elems l ++ k :: elems r end.
Fixpoint height (t : tree) : nat :=
  match t with E => 0 | T _ l _ r => S (Nat.max (height l) (height r)) end.
Definition key (t : tree) : Z := match t with E => 0 | T _ _ k _ => k end.
Definition colour (t : tree) : bool := match t with E => false | T c _ _ _ => c end.

(** The nodes of a context, those left and those right of its hole. *)
Fixpoint ckeys (C : ctx) : list Z :=
  match C with [] => [] | f :: C => fkey f :: elems (fsib f) ++ ckeys C end.
Fixpoint cleft (C : ctx) : list Z :=
  match C with
  | [] => []
  | f :: C => if fdir f then cleft C else cleft C ++ elems (fsib f) ++ [fkey f]
  end.
Fixpoint cright (C : ctx) : list Z :=
  match C with
  | [] => []
  | f :: C => if fdir f then fkey f :: elems (fsib f) ++ cright C else cright C
  end.

Lemma elems_plug C t : elems (plug C t) = cleft C ++ elems t ++ cright C.
Proof.
  revert t; induction C as [|f C IH]; intros t; cbn [plug cleft cright].
  - by rewrite app_nil_r.
  - rewrite IH. unfold fill, mk.
    destruct (fdir f); simpl; by rewrite <- ?app_assoc.
Qed.

Lemma plug_app C1 C2 t : plug (C1 ++ C2) t = plug C2 (plug C1 t).
Proof. revert t; induction C1 as [|f C1 IH]; intros t; [done|]. apply IH. Qed.

Lemma ckeys_perm C : cleft C ++ cright C ≡ₚ ckeys C.
Proof.
  induction C as [|f C IH]; simpl; [done|]. rewrite <- IH. destruct (fdir f).
  - by rewrite <- Permutation_middle, Permutation_app_swap_app.
  - rewrite <- !app_assoc. simpl. rewrite Permutation_app_swap_app, <- Permutation_middle.
    rewrite <- Permutation_middle. by rewrite Permutation_app_swap_app.
Qed.

Lemma elems_plug_perm C t : elems (plug C t) ≡ₚ elems t ++ ckeys C.
Proof. rewrite elems_plug, <- ckeys_perm. apply Permutation_app_swap_app. Qed.

Lemma ckeys_app C1 C2 : ckeys (C1 ++ C2) = ckeys C1 ++ ckeys C2.
Proof. induction C1 as [|f C1 IH]; simpl; [done|]. by rewrite IH, <- app_assoc. Qed.

(** ** Trees and contexts in a store *)

Section At.
Context (V : Z → Prop) (root : nat) (σ : ideal).

Fixpoint tree_at (h : handle) (t : tree) : Prop :=
  match t with
  | E => cell σ h = 0
  | T c l k r => cell σ h = k ∧ V k ∧ red σ k = c ∧
      tree_at (Ref true k) l ∧ tree_at (Ref false k) r
  end.

Definition hole (C : ctx) : handle :=
  match C with [] => Root root | f :: _ => Ref (fdir f) (fkey f) end.

Fixpoint ctx_at (C : ctx) : Prop :=
  match C with
  | [] => True
  | f :: C => cell σ (hole C) = fkey f ∧ V (fkey f) ∧ red σ (fkey f) = fred f ∧
      tree_at (Ref (negb (fdir f)) (fkey f)) (fsib f) ∧ ctx_at C
  end.

Fixpoint path_of (C : ctx) : RBPath :=
  match C with
  | [] => get_root_path root
  | f :: C' => mkStep (hole C) (fdir f) :: path_of C'
  end.
End At.

Lemma tree_at_key V σ h t : tree_at V σ h t → cell σ h = key t.
Proof. destruct t; simpl; naive_solver. Qed.

Lemma tree_at_key_ok V σ h t : tree_at V σ h t → key t = 0 ∨ V (key t).
Proof. destruct t; simpl; [by left|right]. naive_solver. Qed.

Lemma tree_at_valid V σ h t k : tree_at V σ h t → k ∈ elems t → V k.
Proof.
  revert h; induction t as [|c l IHl k' r IHr]; intros h; simpl; [set_solver|].
  intros (_ & Hv & _ & Hl & Hr). rewrite elem_of_app, elem_of_cons.
  intros [?|[->|?]]; eauto.
Qed.

Lemma ctx_at_valid V root σ C k : ctx_at V root σ C → k ∈ ckeys C → V k.
Proof.
  induction C as [|f C IH]; simpl; [set_solver|]. intros (_ & Hv & _ & Hs & HC).
  rewrite elem_of_cons, elem_of_app.
  intros [->|[Hk|?]]; [done| |auto]. exact (tree_at_valid _ _ _ _ _ Hs Hk).
Qed.

(** A node in the direction [d] and its other child. *)
Lemma tree_at_mk V σ h d c k a b :
  tree_at V σ h (mk d c k a b) ↔
  cell σ h = k ∧ V k ∧ red σ k = c ∧ tree_at V σ (Ref d k) a ∧ tree_at V σ (Ref (negb d) k) b.
Proof. destruct d; simpl; tauto. Qed.

Lemma zip_up V root σ f C t :
  tree_at V σ (hole root (f :: C)) t ∧ ctx_at V root σ (f :: C) ↔
  tree_at V σ (hole root C) (fill f t) ∧ ctx_at V root σ C.
Proof. unfold fill. rewrite tree_at_mk. simpl. tauto. Qed.

Lemma zip_plug V root σ C t :
  tree_at V σ (hole root C) t ∧ ctx_at V root σ C ↔ tree_at V σ (Root root) (plug C t).
Proof.
  revert t; induction C as [|f C IH]; intros t; [simpl; tauto|].
  rewrite zip_up. apply IH.
Qed.

Lemma tree_at_mono V V' σ h t : tree_at V σ h t → (∀ k, V k → V' k) → tree_at V' σ h t.
Proof. revert h; induction t; simpl; intros h; naive_solver. Qed.

Lemma tree_at_restrict V V' σ h t :
  tree_at V σ h t → (∀ k, k ∈ elems t → V' k) → tree_at V' σ h t.
Proof.
  revert h; induction t as [|c l IHl k r IHr]; simpl; intros h; [done|].
  intros (? & ? & ? & ? & ?) HV. split_and!; [done|apply HV; set_solver|done|apply IHl|apply IHr];
    try done; intros; apply HV; set_solver.
Qed.

Lemma ctx_at_mono V V' root σ C :
  ctx_at V root σ C → (∀ k, V k → V' k) → ctx_at V' root σ C.
Proof. induction C as [|f C IH]; simpl; [done|]. pose proof tree_at_mono. naive_solver. Qed.

(** A tree stays where its nodes and its pointer stay. *)
Lemma tree_at_agree V σ σ' h h' t :
  tree_at V σ h t → cell σ' h' = cell σ h →
  (∀ d k, k ∈ elems t → cell σ' (Ref d k) = cell σ (Ref d k)) →
  (∀ k, k ∈ elems t → red σ' k = red σ k) → tree_at V σ' h' t.
Proof.
  revert h h'; induction t as [|c l IHl k r IHr]; simpl; intros h h'; [intros ? ->; done|].
  intros (Hk & Hv & Hred & Hl & Hrt) Heq Hc Hr. split_and!; [congruence|done| | |].
  - rewrite Hr; [done|]. set_solver.
  - apply (IHl (Ref true k)); [done| | |]; intros; (apply Hc || apply Hr); set_solver.
  - apply (IHr (Ref false k)); [done| | |]; intros; (apply Hc || apply Hr); set_solver.
Qed.

Lemma hole_in root C : hole root C = Root root ∨ ∃ d k, hole root C = Ref d k ∧ k ∈ ckeys C.
Proof. destruct C; simpl; [by left|right]. eexists _, _. split; [done|]. set_solver. Qed.

Lemma hole_ne root C d k : k ∉ ckeys C → hole root C ≠ Ref d k.
Proof. intros Hk E. destruct (hole_in root C) as [?|(d' & k' & ? & ?)]; congruence. Qed.

Lemma hole_in_plug root C t :
  hole root C = Root root ∨ ∃ d k, hole root C = Ref d k ∧ k ∈ elems (plug C t).
Proof.
  destruct (hole_in root C) as [?|(d & k & ? & ?)]; [by left|right].
  exists d, k. split; [done|]. rewrite elems_plug_perm. set_solver.
Qed.

(** A context stays when its nodes and its pointers, its hole apart, stay. *)
Lemma ctx_at_agree V root σ σ' C :
  ctx_at V root σ C → NoDup (ckeys C) →
  (∀ h, h ≠ hole root C → h = Root root ∨ (∃ d k, h = Ref d k ∧ k ∈ ckeys C) →
    cell σ' h = cell σ h) →
  (∀ k, k ∈ ckeys C → red σ' k = red σ k) → ctx_at V root σ' C.
Proof.
  induction C as [|f C IH]; [done|]. cbn [ctx_at ckeys hole].
  intros (Hk & Hv & Hred & Hs & HC) HN Hc Hr.
  apply NoDup_cons in HN as [Hf HN]. apply NoDup_app in HN as (HNs & Hsc & HNC).
  rewrite elem_of_app in Hf. split_and!; [|done| | |].
  - rewrite <- Hk. apply Hc; [apply hole_ne; tauto|].
    destruct (hole_in root C) as [?|(d & k & ? & ?)]; [by left|right].
    exists d, k. split; [done|]. set_solver.
  - rewrite Hr; [done|]. set_solver.
  - apply (tree_at_agree V σ σ' (Ref (negb (fdir f)) (fkey f))); [done|..].
    + apply Hc; [by destruct (fdir f)|]. right. eexists _, _. split; [done|]. set_solver.
    + intros d k ?. apply Hc; [intros [= -> ->]; tauto|].
      right. eexists _, _. split; [done|]. set_solver.
    + intros k ?. apply Hr. set_solver.
  - apply IH; [done|done| |].
    + intros h _ Hh. apply Hc; [|destruct Hh as [?|(d & k & -> & ?)]; [by left|]].
      * intros ->. destruct Hh as [?|(d & k & [= <- <-] & ?)]; [done|tauto].
      * right. eexists _, _. split; [done|]. set_solver.
    + intros k ?. apply Hr. set_solver.
Qed.

Lemma touches_place K h0 σ σ' h v :
  touches K h0 σ σ' → h = h0 ∨ (∃ d k, h = Ref d k ∧ k ∈ K) → touches K h0 σ (upd σ' h v).
Proof. intros Ht [->|(d & k & -> & Hk)]; [by apply touches_hole|by apply touches_ref]. Qed.

Lemma zip_app V root σ D C t :
  tree_at V σ (hole root C) (plug D t) ∧ ctx_at V root σ C ↔
  tree_at V σ (hole root (D ++ C)) t ∧ ctx_at V root σ (D ++ C).
Proof.
  revert t; induction D as [|f D IH]; intros t; [done|]. cbn [plug app].
  by rewrite IH, <- zip_up.
Qed.

Lemma mk_inj d c k a b c' k' a' b' :
  mk d c k a b = mk d c' k' a' b' → c = c' ∧ k = k' ∧ a = a' ∧ b = b'.
Proof. destruct d; simpl; intros [= -> -> -> ->]; done. Qed.

Lemma plug_inj C t t' : plug C t = plug C t' → t = t'.
Proof.
  revert t t'; induction C as [|f C IH]; intros t t'; [done|]. cbn [plug].
  intros E%IH. by apply mk_inj in E as (_ & _ & ? & _).
Qed.

Lemma plug_ne C t : t ≠ E → plug C t ≠ E.
Proof.
  revert t; induction C as [|f C IH]; intros t Ht; [done|]. cbn [plug]. apply IH.
  unfold fill, mk. by destruct (fdir f).
Qed.

(** A tree with one node only has one place for a node. *)
Lemma plug_leaf D t c k : plug D t = T c E k E → t ≠ E → D = [].
Proof.
  intros Hp Ht. destruct D as [|f D] using rev_ind; [done|]. rewrite plug_app in Hp.
  cbn [plug] in Hp. pose proof (plug_ne D t Ht) as Hne. unfold fill, mk in Hp.
  destruct (fdir f); injection Hp; intros; congruence.
Qed.

(** What a rotation leaves in place: [K] are the nodes it changes, [L] those of the
    subtrees it moves. *)
Section Rotation.
Context (V : Z → Prop) (root : nat) (C : ctx) (K L : list Z) (σ σ' : ideal).
Context (HN : NoDup (K ++ L ++ ckeys C)) (Ht : touches K (hole root C) σ σ').

Lemma rotation_ctx : ctx_at V root σ C → ctx_at V root σ' C.
Proof.
  apply NoDup_app in HN as (_ & HKL & HN'). apply NoDup_app in HN' as (_ & HLC & HNC).
  destruct Ht as [Hc Hr]. intros HC. apply (ctx_at_agree V root σ); [done..| |].
  - intros h Hh Hin. apply Hc; [done|]. intros d k -> Hk.
    destruct Hin as [?|(d' & k' & [= <- <-] & ?)]; [done|]. apply (HKL k Hk). set_solver.
  - intros k Hk. apply Hr. intros Hk'. apply (HKL k Hk'). set_solver.
Qed.

Lemma rotation_tree h h' t :
  tree_at V σ h t → cell σ' h' = cell σ h → (∀ k, k ∈ elems t → k ∈ L) → tree_at V σ' h' t.
Proof.
  apply NoDup_app in HN as (_ & HKL & HN'). apply NoDup_app in HN' as (_ & HLC & HNC).
  destruct Ht as [Hc Hr]. intros Htr Heq HL. apply (tree_at_agree V σ σ' h); [done..| |].
  - intros d k Hk. apply Hc.
    + apply not_eq_sym, hole_ne. by apply HLC, HL.
    + intros d' k' [= <- <-] Hk'. apply (HKL k Hk'). set_solver.
  - intros k Hk. apply Hr. intros Hk'. apply (HKL k Hk'). set_solver.
Qed.
End Rotation.

(** ** Red-black trees *)

(** [rbt c n t]: the root of [t] has the colour [c], a red node has black children and
    every path down has [n] black nodes. *)
Inductive rbt : bool → nat → tree → Prop :=
| rbt_E : rbt false 0 E
| rbt_black c1 c2 n l k r : rbt c1 n l → rbt c2 n r → rbt false (S n) (T false l k r)
| rbt_red n l k r : rbt false n l → rbt false n r → rbt true n (T true l k r).

(** [ctx_ok c n C]: a tree of colour [c] and black height [n] fits in the hole of [C];
    the root of the whole tree is black. *)
Inductive ctx_ok : bool → nat → ctx → Prop :=
| ctx_ok_top n : ctx_ok false n []
| ctx_ok_black c c' n d k sib C :
    rbt c' n sib → ctx_ok false (S n) C → ctx_ok c n (mkFrame d false k sib :: C)
| ctx_ok_red n d k sib C :
    rbt false n sib → ctx_ok true n C → ctx_ok false n (mkFrame d true k sib :: C).

Lemma rbt_mk_black d c1 c2 n k a b :
  rbt c1 n a → rbt c2 n b → rbt false (S n) (mk d false k a b).
Proof. destruct d; simpl; eauto using rbt. Qed.
Lemma rbt_mk_red d n k a b :
  rbt false n a → rbt false n b → rbt true n (mk d true k a b).
Proof. destruct d; simpl; eauto using rbt. Qed.

Lemma rbt_mk_any d c n k a b :
  rbt false n a → rbt false n b → rbt c (if c then n else S n) (mk d c k a b).
Proof. destruct c; [apply rbt_mk_red|apply rbt_mk_black]. Qed.

Lemma rbt_mk_inv d c n c' k a b :
  rbt c n (mk d c' k a b) →
  c' = c ∧ (if c then rbt false n a ∧ rbt false n b
            else ∃ c1 c2 m, n = S m ∧ rbt c1 m a ∧ rbt c2 m b).
Proof. destruct d; simpl; inversion 1; subst; split; eauto 10. Qed.

(** A tree that is not empty, seen from a direction. *)
Lemma tree_mk d t : t = E ∨ ∃ c k a b, t = mk d c k a b.
Proof. destruct t as [|c l k r]; [by left|right]. destruct d; simpl; eauto. Qed.

(** A child in the direction [d] that has to be there. *)
Lemma rbt_S_mk d n t : rbt false (S n) t → ∃ k a b, t = mk d false k a b.
Proof.
  intros Ht. destruct (tree_mk d t) as [->|(c & k & a & b & ->)]; [inversion Ht|].
  apply rbt_mk_inv in Ht as [-> _]. eauto.
Qed.

Lemma ctx_ok_false c n C : ctx_ok c n C → ctx_ok false n C.
Proof. destruct 1; eauto using ctx_ok. Qed.

Lemma ctx_ok_black_inv c n d k sib C :
  ctx_ok c n (mkFrame d false k sib :: C) → ∃ c', rbt c' n sib ∧ ctx_ok false (S n) C.
Proof. inversion 1; eauto. Qed.

Lemma ctx_ok_red_inv c n d k sib C :
  ctx_ok c n (mkFrame d true k sib :: C) →
  rbt false n sib ∧ ∃ d' k' sib' C', C = mkFrame d' false k' sib' :: C' ∧
    ctx_ok true n C ∧ (∃ c', rbt c' n sib') ∧ ctx_ok false (S n) C'.
Proof.
  inversion 1 as [| |? ? ? ? ? ? HC]; subst. split; [done|].
  inversion HC; subst. eauto 15.
Qed.

(** The sibling of a tree that is one black node short. *)
Lemma ctx_ok_short n d c k sib C :
  ctx_ok false (S n) (mkFrame d c k sib :: C) →
  (∃ cs, rbt cs (S n) sib ∧ (c = true → cs = false)) ∧
  ctx_ok c (if c then S n else S (S n)) C.
Proof.
  inversion 1 as [|? c' ? ? ? ? ? Hsib HC|? ? ? ? ? Hsib HC]; subst; (split; [|done]).
  - exists c'. split; [done|discriminate].
  - by exists false.
Qed.

Lemma ctx_ok_key c n D d c' k k' sib C :
  ctx_ok c n (D ++ mkFrame d c' k sib :: C) → ctx_ok c n (D ++ mkFrame d c' k' sib :: C).
Proof.
  revert c n; induction D as [|f D IH]; intros c n H; inversion H; subst; simpl; econstructor; eauto.
Qed.

Lemma plug_rbt c n C t : ctx_ok c n C → rbt c n t → ∃ m, rbt false m (plug C t).
Proof.
  revert c n t; induction C as [|f C IH]; intros c n t HC Ht.
  - inversion HC; subst. simpl. eauto.
  - cbn [plug]. inversion HC; subst; unfold fill; cbn [fdir fred fkey fsib].
    + eapply IH; [done|]. eapply rbt_mk_black; done.
    + eapply IH; [done|]. by apply rbt_mk_red.
Qed.

Lemma plug_rbt_inv m C t : rbt false m (plug C t) → ∃ c n, ctx_ok c n C ∧ rbt c n t.
Proof.
  revert t; induction C as [|f C IH]; intros t H; [simpl in *; eauto using ctx_ok|].
  cbn [plug] in H. apply IH in H as (c & n & HC & Hf). destruct f as [d c' k sib].
  unfold fill in Hf. cbn [fdir fred fkey fsib] in Hf. apply rbt_mk_inv in Hf as [-> Hc].
  destruct c; [|destruct Hc as (c1 & c2 & n' & -> & ? & ?)]; [destruct Hc|]; eauto using ctx_ok.
Qed.

(** The height is bounded by the number of nodes. *)
Lemma rbt_height c n t : rbt c n t → (height t ≤ 2 * n + (if c then 1 else 0))%nat.
Proof. induction 1; simpl; repeat case_match; lia. Qed.

Lemma rbt_size c n t : rbt c n t → (2 ^ n ≤ S (length (elems t)))%nat.
Proof.
  induction 1; simpl; rewrite ?length_app; simpl; lia.
Qed.

Lemma height_plug C t : (length C + height t ≤ height (plug C t))%nat.
Proof.
  revert t; induction C as [|f C IH]; intros t; [done|]. cbn [plug length]. specialize (IH (fill f t)).
  assert (S (height t) ≤ height (fill f t))%nat; [|lia].
  unfold fill, mk. destruct (fdir f); simpl; lia.
Qed.

(** The nodes are multiples of 16 between 0 and [2 ^ 64], so there are fewer than [2 ^ 60]. *)
Lemma nodes_bound (l : list Z) :
  NoDup l → (∀ k, k ∈ l → 0 < k < 2 ^ 64 ∧ k mod 16 = 0) → Z.of_nat (length l) < 2 ^ 60.
Proof.
  intros HN Hl. assert (Hs : (l ⊆+ ((λ n, 16 * Z.of_nat n) <$> seq 1 (Z.to_nat (2 ^ 60 - 1))))).
  { apply NoDup_submseteq; [done|]. intros k Hk. destruct (Hl k Hk) as [Hr Hm].
    apply list_elem_of_fmap. exists (Z.to_nat (k / 16)).
    pose proof (Z.div_mod k 16 ltac:(lia)). split; [lia|]. apply elem_of_seq. lia. }
  apply submseteq_length in Hs. rewrite length_fmap, length_seq in Hs. lia.
Qed.

Lemma rbt_height_bound c n t :
  rbt c n t → NoDup (elems t) → (∀ k, k ∈ elems t → 0 < k < 2 ^ 64 ∧ k mod 16 = 0) →
  (height t ≤ 121)%nat.
Proof.
  intros Ht HN Hk. pose proof (rbt_height c n t Ht). pose proof (rbt_size c n t Ht) as Hs.
  pose proof (nodes_bound _ HN Hk) as Hb. assert (n ≤ 60)%nat; [|destruct c; lia].
  apply Nat2Z.inj_le. apply Nat2Z.inj_le in Hs. rewrite Nat2Z.inj_pow in Hs.
  apply (Z.pow_le_mono_r_iff 2); lia.
Qed.

(** ** Search trees *)

Definition sorted := StronglySorted Z.lt.

Lemma sorted_NoDup l : sorted l → NoDup l.
Proof.
  induction 1 as [|x l Hs IH Hx]; constructor; [|done].
  intros Hin. rewrite Forall_forall in Hx. specialize (Hx x Hin). lia.
Qed.

Lemma perm_NoDup (l1 l2 : list Z) : l1 ≡ₚ l2 → NoDup l1 → NoDup l2.
Proof. by intros ->. Qed.

Lemma sorted_app l1 l2 :
  sorted (l1 ++ l2) ↔ sorted l1 ∧ sorted l2 ∧ ∀ x y, x ∈ l1 → y ∈ l2 → x < y.
Proof.
  unfold sorted. rewrite StronglySorted_app. naive_solver.
Qed.

Lemma sorted_cons x l : sorted (x :: l) ↔ sorted l ∧ ∀ y, y ∈ l → x < y.
Proof.
  unfold sorted. rewrite StronglySorted_cons, Forall_forall. tauto.
Qed.

(** Two sorted lists with the same elements are equal. *)
Lemma sorted_ext l1 l2 : sorted l1 → sorted l2 → (∀ x, x ∈ l1 ↔ x ∈ l2) → l1 = l2.
Proof.
  intros H1 H2 He. apply (StronglySorted_unique_strong Z.lt); [|done..|].
  - intros x y _ _ ? ?. lia.
  - apply NoDup_Permutation; [by apply sorted_NoDup..|done].
Qed.

Lemma sorted_plug C t : sorted (elems (plug C t)) → sorted (elems t).
Proof. rewrite elems_plug, !sorted_app. tauto. Qed.

Lemma sorted_remove A k B : sorted (A ++ k :: B) → sorted (A ++ B).
Proof.
  rewrite !sorted_app, sorted_cons. intros (HA & [HB _] & H). split_and!; [done..|].
  intros x y Hx Hy. apply H; [done|]. by right.
Qed.

Lemma cleft_ckeys C x : x ∈ cleft C → x ∈ ckeys C.
Proof. intros ?. rewrite <- ckeys_perm. set_solver. Qed.
Lemma cright_ckeys C x : x ∈ cright C → x ∈ ckeys C.
Proof. intros ?. rewrite <- ckeys_perm. set_solver. Qed.

(** [value] belongs in the hole of [C]. *)
Definition in_hole (C : ctx) (value : Z) : Prop :=
  (∀ x, x ∈ cleft C → x < value) ∧ (∀ x, x ∈ cright C → value < x).

Lemma in_hole_top value : in_hole [] value.
Proof. split; simpl; intros x Hx; by apply elem_of_nil in Hx. Qed.

Lemma in_hole_not_in C t value :
  sorted (elems (plug C t)) → in_hole C value → value ∉ elems t → value ∉ elems (plug C t).
Proof.
  intros Hs [Hl Hr] Ht. rewrite elems_plug, !elem_of_app.
  intros [Hx|[?|Hx]]; [specialize (Hl _ Hx); lia|done|specialize (Hr _ Hx); lia].
Qed.

(** Inserting there keeps the order. *)
Lemma in_hole_sorted C value :
  sorted (elems (plug C E)) → in_hole C value → sorted (elems (plug C (T true E value E))).
Proof.
  rewrite !elems_plug. simpl. rewrite !sorted_app, sorted_cons.
  intros (HL & HR & HLR) [Hl Hr]. split_and!; [done|done|done|].
  intros x y Hx. rewrite elem_of_cons. intros [->|?]; auto.
Qed.

End RbShape.
