(* ===== verification/RbRun.v ===== *)
(** * Running the operations of the red-black tree

    [sees] relates a store of a representation to the functions it shows on the nodes
    [V] and the roots [R]; [wp] is the weakest precondition of a computation: it ends
    without a fault in a state and with a value that satisfy a predicate.  Each basic
    operation of [RbTree] has one rule; [wp_step] applies them.  The path operations,
    [find] and the check of the invariant are proved here. *)

From stdpp Require Import base list numbers sorting sets.
From Stdlib Require Import ZArith Lia.
From S2P Require Import Prelude CInt RbTree RbShape.
Local Open Scope Z_scope.

Module RbRun.
Import RbTree RbShape.

Definition wp {St A} (m : M St A) (s : St) (Q : A → St → Prop) : Prop :=
  match m s with Ok (a, s') => Q a s' | Err _ => False end.

Lemma wp_ret {St A} (a : A) s (Q : A → St → Prop) : Q a s → wp (mret a) s Q.
Proof. done. Qed.

Lemma wp_bind {St A B} (m : M St A) (f : A → M St B) s Q :
  wp m s (λ a s', wp (f a) s' Q) → wp (m ≫= f) s Q.
Proof. unfold wp, mbind, M_bind. destruct (m s) as [[a s']|e]; done. Qed.

Lemma wp_mono {St A} (m : M St A) s (Q Q' : A → St → Prop) :
  wp m s Q → (∀ a s', Q a s' → Q' a s') → wp m s Q'.
Proof. unfold wp. destruct (m s) as [[a s']|e]; auto. Qed.

Lemma wp_lift {St A} (r : result A) a s (Q : A → St → Prop) :
  r = Ok a → Q a s → wp (lift r) s Q.
Proof. by intros ->. Qed.

Lemma wp_assert {St} b s (Q : unit → St → Prop) : b = true → Q tt s → wp (lift (assert_ b)) s Q.
Proof. by intros ->. Qed.

Lemma wp_run {St A} (m : M St A) s Q : wp m s Q → ∃ a s', m s = Ok (a, s') ∧ Q a s'.
Proof. unfold wp. destruct (m s) as [[a s']|e]; [eauto|done]. Qed.

Section Run.
Context {St : Type} `{RBRepLaws St} (V F : Z → Prop) (R : nat → Prop).

Definition place (h : handle) : Prop := match h with Root t => R t | Ref _ k => V k end.

(** The store [s] shows [σ] on the nodes [V] and the roots [R]; the nodes [F] can be
    claimed. *)
Record sees (s : St) (σ : ideal) : Prop := {
  sees_valid k : V k → rep_valid s k;
  sees_fresh k : F k → rep_fresh s k;
  sees_root t : R t → rep_root s t;
  sees_cell h : place h → rep_get s h = Ok (cell σ h);
  sees_red k : V k → rep_colour s k = red σ k;
  sees_null : red σ 0 = false;
}.

Lemma V_range s σ k : sees s σ → V k → 0 < k < 2 ^ 64 ∧ k mod 16 = 0.
Proof. intros Hs Hk. by eapply rep_valid_range, rep_valid_fresh, sees_valid. Qed.

Lemma sees_place s σ h : sees s σ → place h → rep_place s h.
Proof. intros Hs. destruct h; simpl; [apply (sees_root _ _ Hs)|apply (sees_valid _ _ Hs)]. Qed.

(** Every store shows something. *)
Lemma sees_exists s :
  (∀ k, V k → rep_valid s k) → (∀ k, F k → rep_fresh s k) → (∀ t, R t → rep_root s t) →
  ∃ σ, sees s σ.
Proof.
  intros HV HF HR.
  exists (mkIdeal (λ h, match rep_get s h with Ok v => v | Err _ => 0 end)
           (λ k, bool_decide (k ≠ 0) && rep_colour s k)).
  split; [done|done|done| | |]; simpl.
  - intros h Hh. destruct (rep_get_ok s h) as [v ->]; [destruct h; simpl in *; auto|done].
  - intros k Hk. pose proof (rep_valid_range s k (rep_valid_fresh s k (HV k Hk))). by rewrite bool_decide_true by lia.
  - done.
Qed.

Lemma sees_same s s' σ : sees s σ → rep_same_view s s' → sees s' σ.
Proof.
  intros Hs ((Hpv & Hpf & Hpr) & Hg & Hr). split.
  - intros k Hk. by eapply Hpv, sees_valid.
  - intros k Hk. by eapply Hpf, sees_fresh.
  - intros t Ht. by eapply Hpr, sees_root.
  - intros h Hh. rewrite Hg by (by eapply sees_place). exact (sees_cell _ _ Hs h Hh).
  - intros k Hk. rewrite Hr by (by eapply sees_valid). exact (sees_red _ _ Hs k Hk).
  - exact (sees_null _ _ Hs).
Qed.

Lemma wp_get_dir s σ d k (Q : _ → St → Prop) :
  sees s σ → V k → (∀ s', sees s' σ → Q (Ref d k) s') → wp (get_dir d k) s Q.
Proof.
  intros Hs Hk HQ. unfold wp, get_dir.
  destruct (rep_ref_ok s d k) as (s' & -> & Hv & _); [by eapply rep_valid_fresh, sees_valid|].
  apply HQ. by eapply sees_same.
Qed.

Lemma wp_deref s σ h Q : sees s σ → place h → Q (cell σ h) s → wp (deref h) s Q.
Proof.
  intros Hs Hh HQ. unfold wp, deref, lift. by rewrite (sees_cell _ _ Hs h Hh).
Qed.

Lemma wp_is_red s σ k Q :
  sees s σ → k = 0 ∨ V k → (∀ s', sees s' σ → Q (red σ k) s') → wp (is_red k) s Q.
Proof.
  intros Hs Hk HQ. unfold wp, is_red.
  destruct Hk as [->|Hk].
  - rewrite rep_is_red_null. rewrite <- (sees_null _ _ Hs). by apply HQ.
  - destruct (rep_is_red_ok s k) as (s' & -> & Hv); [by eapply sees_valid|].
    rewrite (sees_red _ _ Hs k Hk). apply HQ. by eapply sees_same.
Qed.

Lemma wp_assign_fresh s σ h v Q :
  sees s σ → place h → v = 0 ∨ rep_fresh s v → (∀ s', sees s' (upd σ h v) → Q tt s') →
  wp (assign h v) s Q.
Proof.
  intros Hs Hh Hv HQ. unfold wp, assign.
  destruct (rep_set_ok s h v) as (s' & -> & (Hpv & Hpf & Hpr) & Hg & Hr);
    [by eapply sees_place|done|].
  apply HQ. split.
  - intros k Hk. by eapply Hpv, sees_valid.
  - intros k Hk. by eapply Hpf, sees_fresh.
  - intros t Ht. by eapply Hpr, sees_root.
  - intros h' Hh'. rewrite Hg by (by eapply sees_place). simpl.
    destruct (decide (h' = h)); [done|]. exact (sees_cell _ _ Hs h' Hh').
  - intros k Hk. rewrite Hr by (by eapply sees_valid). exact (sees_red _ _ Hs k Hk).
  - exact (sees_null _ _ Hs).
Qed.

Lemma wp_assign s σ h v Q :
  sees s σ → place h → v = 0 ∨ V v → (∀ s', sees s' (upd σ h v) → Q tt s') → wp (assign h v) s Q.
Proof.
  intros Hs Hh Hv HQ. eapply wp_assign_fresh; [done..| |done].
  destruct Hv; [by left|right]. by eapply rep_valid_fresh, sees_valid.
Qed.

Lemma wp_set_red s σ k b Q :
  sees s σ → V k → (∀ s', sees s' (paint σ k b) → Q tt s') → wp (set_red k b) s Q.
Proof.
  intros Hs Hk HQ. unfold wp, set_red.
  destruct (rep_set_red_ok s k b) as (s' & -> & (Hpv & Hpf & Hpr) & Hg & Hr); [by eapply sees_valid|].
  apply HQ. split.
  - intros k' Hk'. by eapply Hpv, sees_valid.
  - intros k' Hk'. by eapply Hpf, sees_fresh.
  - intros t Ht. by eapply Hpr, sees_root.
  - intros h' Hh'. rewrite Hg by (by eapply sees_place). exact (sees_cell _ _ Hs h' Hh').
  - intros k' Hk'. rewrite Hr by (by eapply sees_valid). simpl.
    destruct (decide (k' = k)); [done|]. exact (sees_red _ _ Hs k' Hk').
  - rewrite red_paint_ne; [exact (sees_null _ _ Hs)|]. intros <-.
    pose proof (V_range _ _ _ Hs Hk). lia.
Qed.

Lemma wp_is_null s σ h Q :
  sees s σ → place h → Q (bool_decide (cell σ h = 0)) s → wp (is_null h) s Q.
Proof.
  intros Hs Hh HQ. unfold is_null. apply wp_bind. eapply wp_deref; [done..|].
  apply wp_ret. by rewrite rep_null_0.
Qed.

Lemma wp_load m h s σ Q :
  (∀ Q', Q' h s → wp m s Q') → sees s σ → place h → Q (cell σ h) s → wp (load m) s Q.
Proof.
  intros Hm Hs Hh HQ. unfold load. apply wp_bind, Hm. by eapply wp_deref.
Qed.

Lemma wp_load_dir d k s σ (Q : _ → St → Prop) :
  sees s σ → V k → (∀ s', sees s' σ → Q (cell σ (Ref d k)) s') → wp (load (get_dir d k)) s Q.
Proof.
  intros Hs Hk HQ. unfold load. apply wp_bind. eapply wp_get_dir; [done..|]. intros s' Hs'.
  eapply wp_deref; [done..|]. by apply HQ.
Qed.

Lemma wp_store_dir d k v s σ (Q : _ → St → Prop) :
  sees s σ → V k → v = 0 ∨ V v → (∀ s', sees s' (upd σ (Ref d k) v) → Q tt s') →
  wp (store (get_dir d k) v) s Q.
Proof.
  intros Hs Hk Hv HQ. unfold store. apply wp_bind. eapply wp_get_dir; [done..|]. intros s' Hs'.
  by eapply wp_assign.
Qed.

(** ** Paths *)

Section Path.
Context (root : nat).

Abbreviation path_of := (path_of root).
Abbreviation hole := (hole root).

Lemma length_path_of C : length (path_of C) = S (length C).
Proof. induction C; simpl; congruence. Qed.

Lemma wp_curr C s (Q : _ → St → Prop) : Q (hole C) s → wp (curr (path_of C)) s Q.
Proof. by destruct C. Qed.
Lemma wp_curr_dir f C s (Q : _ → St → Prop) : Q (fdir f) s → wp (curr_dir (path_of (f :: C))) s Q.
Proof. done. Qed.
Lemma wp_parent f C s (Q : _ → St → Prop) : Q (hole C) s → wp (parent (path_of (f :: C))) s Q.
Proof. by destruct C. Qed.
Lemma wp_parent_dir f f' C s (Q : _ → St → Prop) :
  Q (fdir f') s → wp (parent_dir (path_of (f :: f' :: C))) s Q.
Proof. done. Qed.
Lemma wp_grand_parent f f' C s (Q : _ → St → Prop) :
  Q (hole C) s → wp (grand_parent (path_of (f :: f' :: C))) s Q.
Proof. by destruct C. Qed.
Lemma wp_pop f C s (Q : _ → St → Prop) : Q (path_of C) s → wp (pop (path_of (f :: C))) s Q.
Proof. done. Qed.

Lemma wp_push f C s (Q : _ → St → Prop) :
  (length C < 127)%nat → Q (path_of (f :: C)) s →
  wp (push (path_of C) (Ref (fdir f) (fkey f)) (fdir f)) s Q.
Proof.
  intros Hl HQ. unfold push. rewrite bool_decide_true; [done|].
  rewrite length_path_of. unfold path_capacity. lia.
Qed.

Lemma place_hole C σ : R root → ctx_at V root σ C → place (hole C).
Proof. destruct C; simpl; [done|tauto]. Qed.

Definition is_E (t : tree) : bool := match t with E => true | _ => false end.

(** The step of the context into the child in the direction [d]. *)
Definition down (d : bool) (t : tree) : frame * tree :=
  match t with
  | E => (mkFrame d false 0 E, E)
  | T c l k r => if d then (mkFrame d c k r, l) else (mkFrame d c k l, r)
  end.

Lemma down_fill d t : t ≠ E → fill (down d t).1 (down d t).2 = t ∧ fdir (down d t).1 = d ∧
  fkey (down d t).1 = key t.
Proof. destruct t as [|c l k r]; [done|]. by destruct d. Qed.

Lemma plug_down d C t : t ≠ E → plug ((down d t).1 :: C) (down d t).2 = plug C t.
Proof. intros Ht. simpl. by rewrite (proj1 (down_fill d t Ht)). Qed.

Context (Hroot : R root).

(** The store holds the tree [t] in the hole of [C]. *)
Definition zip (σ : ideal) (C : ctx) (t : tree) : Prop :=
  tree_at V σ (hole C) t ∧ ctx_at V root σ C.

Lemma zip_down d σ C t : t ≠ E → zip σ C t → zip σ ((down d t).1 :: C) (down d t).2.
Proof.
  intros Ht Hz. unfold zip in *. rewrite zip_up. by rewrite (proj1 (down_fill d t Ht)).
Qed.

Lemma zip_place σ C t : zip σ C t → place (hole C).
Proof. intros [_ HC]. by eapply place_hole. Qed.

Lemma wp_load_curr C t s σ Q :
  sees s σ → zip σ C t → Q (key t) s → wp (load (curr (path_of C))) s Q.
Proof.
  intros Hs Hz HQ. eapply wp_load; [intros; by apply wp_curr|done|by eapply zip_place|].
  by rewrite (tree_at_key _ _ _ _ (proj1 Hz)).
Qed.

Lemma key_null σ C t s : sees s σ → zip σ C t → bool_decide (key t = 0) = is_E t.
Proof.
  intros Hs [Ht _]. destruct t as [|c l k r]; [done|]. simpl. destruct Ht as (_ & Hv & _).
  pose proof (V_range _ _ _ Hs Hv). apply bool_decide_false. lia.
Qed.

Lemma wp_is_null_hole C t s σ Q :
  sees s σ → zip σ C t → Q (is_E t) s → wp (is_null (hole C)) s Q.
Proof.
  intros Hs Hz HQ. eapply wp_is_null; [done|by eapply zip_place|].
  by rewrite (tree_at_key _ _ _ _ (proj1 Hz)), (key_null σ C t s).
Qed.

Lemma hole_down d t C : t ≠ E → hole ((down d t).1 :: C) = Ref d (key t).
Proof. intros Ht. simpl. by destruct (down_fill d t Ht) as (_ & -> & ->). Qed.

Lemma wp_push_down d C t s (Q : _ → St → Prop) :
  t ≠ E → (length C < 127)%nat → Q (path_of ((down d t).1 :: C)) s →
  wp (push (path_of C) (Ref d (key t)) d) s Q.
Proof.
  intros Ht Hl HQ. destruct (down_fill d t Ht) as (_ & Hd & Hk).
  pose proof (wp_push (down d t).1 C s Q Hl HQ) as Hw. by rewrite Hd, Hk in Hw.
Qed.

Lemma zip_key_valid σ C t : zip σ C t → t ≠ E → V (key t).
Proof. intros [Ht _] Hne. destruct t; [done|]. simpl in *. tauto. Qed.

(** The place of the child in the direction [d]. *)
Lemma wp_get_down d C t s σ (Q : _ → St → Prop) :
  sees s σ → zip σ C t → t ≠ E → (∀ s', sees s' σ → Q (hole ((down d t).1 :: C)) s') →
  wp (get_dir d (key t)) s Q.
Proof.
  intros Hs Hz Ht HQ. rewrite hole_down in HQ by done.
  eapply wp_get_dir; [done|by eapply zip_key_valid|done].
Qed.

Lemma wp_move_inc_null d C t s σ (Q : _ → St → Prop) :
  sees s σ → zip σ C t → t ≠ E → (length C < 127)%nat →
  (∀ s', sees s' σ → Q (negb (is_E (down d t).2), path_of ((down d t).1 :: C)) s') →
  wp (move_inc_null (path_of C) d) s Q.
Proof.
  intros Hs Hz Ht Hl HQ. unfold move_inc_null.
  apply wp_bind. eapply wp_load_curr; [done..|].
  apply wp_bind. eapply wp_get_down; [done..|]. intros s' Hs'.
  apply wp_bind. rewrite hole_down by done. apply wp_push_down; [done..|].
  apply wp_bind. rewrite <- (hole_down d t C Ht).
  eapply wp_is_null_hole; [done|by apply zip_down|]. apply wp_ret. by apply HQ.
Qed.

Lemma wp_move d C t s σ (Q : _ → St → Prop) :
  sees s σ → zip σ C t → t ≠ E → (length C < 127)%nat →
  (∀ s', sees s' σ →
    Q (if is_E (down d t).2 then (false, path_of C) else (true, path_of ((down d t).1 :: C))) s') →
  wp (move (path_of C) d) s Q.
Proof.
  intros Hs Hz Ht Hl HQ. unfold move.
  apply wp_bind. eapply wp_load_curr; [done..|]. apply wp_bind.
  eapply wp_get_down; [done..|]. intros s' Hs'. specialize (HQ s' Hs').
  apply wp_bind. eapply wp_is_null_hole; [done|by apply zip_down|].
  destruct (is_E (down d t).2); [by apply wp_ret|].
  rewrite hole_down by done. apply wp_bind.
  apply wp_push_down; [done..|]. by apply wp_ret.
Qed.

Lemma height_down d t : t ≠ E → (height (down d t).2 < height t)%nat.
Proof. destruct t as [|c l k r]; [done|]. intros _. destruct d; simpl; lia. Qed.

(** [while (path.move(d)) {}] ends at the last node in the direction [d]. *)
Lemma wp_move_all d fuel C t s σ (Q : _ → St → Prop) :
  sees s σ → zip σ C t → t ≠ E → (height t ≤ fuel)%nat → (length C + height t ≤ 127)%nat →
  (∀ C' t', zip σ C' t' → t' ≠ E → (down d t').2 = E → plug C' t' = plug C t →
    (∃ D, C' = D ++ C ∧ Forall (λ f, fdir f = d) D) →
    (length C' + height t' ≤ length C + height t)%nat →
    ∀ s', sees s' σ → Q (path_of C') s') →
  wp (move_all fuel (path_of C) d) s Q.
Proof.
  revert C t s; induction fuel as [|fuel IH]; intros C t s Hs Hz Ht Hf Hl HQ.
  { destruct t; [done|simpl in Hf; lia]. }
  pose proof (height_down d t Ht) as Hh. cbn [move_all].
  apply wp_bind. eapply wp_move; [done..|lia|]. intros s1 Hs1.
  destruct (is_E (down d t).2) eqn:EE.
  - apply wp_ret, (HQ C t); [done|done| |done| |done|done].
    + by destruct (down d t).2.
    + exists []. done.
  - apply IH with (down d t).2; [done|by apply zip_down|by intros E; rewrite E in EE|lia|simpl; lia|].
    intros C' t' Hz' Ht' HE Hp (D & -> & HD) Hlen. apply (HQ _ t'); [done|done|done| | |].
    + by rewrite Hp, plug_down.
    + exists (D ++ [(down d t).1]). rewrite <- app_assoc. split; [done|].
      apply Forall_app; split; [done|]. constructor; [|done]. by apply (down_fill d t Ht).
    + simpl in Hlen. lia.
Qed.

(** A path with the directions of a context is brought up to date. *)
Lemma wp_fixup_loop e path C s σ (Q : _ → St → Prop) :
  sees s σ → ctx_at V root σ C → dir <$> path = dir <$> path_of C →
  e = true ∨ path = path_of C → node <$> last path = Some (Root root) →
  (∀ s', sees s' σ → Q (path_of C) s') → wp (fixup_loop e path) s Q.
Proof.
  intros Hs HC Hd He Hl HQ.
  revert path s Q Hs HC Hd He HQ Hl; induction C as [|f C IH]; intros path s Q Hs HC Hd He HQ Hl.
  - destruct path as [|st [|? ?]]; try discriminate. destruct st as [h d]. simpl in Hd, Hl.
    simplify_eq. apply wp_ret. by apply HQ.
  - destruct path as [|st rest]; [done|].
    assert (Hrest : ∃ st' rest', rest = st' :: rest').
    { destruct rest as [|st' rest']; [|eauto]. by destruct C. }
    destruct Hrest as (st' & rest' & ->). destruct HC as (Hk & Hv & _ & _ & HC).
    assert (Hdir : dir st = fdir f ∧ dir <$> st' :: rest' = dir <$> path_of C).
    { cbn [RbShape.path_of] in Hd. rewrite !fmap_cons in Hd. injection Hd as -> Hd'. split; [done|].
      by rewrite fmap_cons, Hd'. }
    destruct Hdir as [Hds Hdr]. cbn [fixup_loop].
    change (wp (rest ← fixup_loop e (st' :: rest');
      p ← load (curr rest);
      actual ← get_dir (dir st) p;
      if bool_decide (actual = node st) then mret (st :: rest)
      else if e then mret (mkStep actual (dir st) :: rest) else lift (Err RuntimeError)) s Q).
    apply wp_bind, (IH (st' :: rest')); [done|done|done| | |by rewrite <- Hl].
    { destruct He as [?|He]; [by left|right]. by injection He. }
    intros s1 Hs1. apply wp_bind.
    eapply wp_load; [intros; by apply wp_curr|done|by eapply place_hole|].
    rewrite Hk, Hds. apply wp_bind. eapply wp_get_dir; [done..|]. intros s2 Hs2.
    destruct st as [h d]. cbn [node dir] in *. subst d.
    case_bool_decide as Eh; [apply wp_ret; rewrite <- Eh; by apply HQ|].
    destruct He as [->|He]; [apply wp_ret; by apply HQ|]. by injection He as -> _.
Qed.

Lemma last_path_of C : node <$> last (path_of C) = Some (Root root).
Proof.
  induction C as [|f C IH]; [done|]. cbn [RbShape.path_of].
  destruct (path_of C) eqn:E; [by destruct C|]. by rewrite last_cons_cons.
Qed.

Lemma wp_fixup_same run_checks e C s σ (Q : _ → St → Prop) :
  sees s σ → ctx_at V root σ C → (∀ s', sees s' σ → Q (path_of C) s') →
  wp (fixup run_checks e (path_of C)) s Q.
Proof.
  intros Hs HC HQ. unfold fixup. destruct (negb run_checks && negb e); [apply wp_ret; by apply HQ|].
  eapply wp_fixup_loop; [done..|by right|apply last_path_of|done].
Qed.

Lemma wp_fixup_update run_checks path C s σ (Q : _ → St → Prop) :
  sees s σ → ctx_at V root σ C → dir <$> path = dir <$> path_of C →
  node <$> last path = Some (Root root) → (∀ s', sees s' σ → Q (path_of C) s') →
  wp (fixup run_checks true path) s Q.
Proof.
  intros Hs HC Hd Hl HQ. unfold fixup. cbn [negb]. rewrite andb_false_r.
  eapply wp_fixup_loop; [done..|by left|done|done].
Qed.

(** ** Searching *)

Lemma in_hole_down C t value :
  t ≠ E → sorted (elems (plug C t)) → in_hole C value → value ≠ key t →
  in_hole ((down (value <? key t) t).1 :: C) value.
Proof.
  destruct t as [|c l k r]; [done|]. intros _ Hs [Hl Hr] Hk. simpl in Hk. cbn [key].
  rewrite elems_plug in Hs. cbn [elems] in Hs.
  apply sorted_app in Hs as (HL & Hs & HLs). apply sorted_app in Hs as (Hs & HR & HsR).
  apply sorted_app in Hs as (Hls & Hs & Hlr). apply sorted_cons in Hs as (Hrs & Hkr).
  destruct (Z.ltb_spec value k); split; simpl.
  - done.
  - intros x. rewrite elem_of_cons, elem_of_app. intros [->|[Hx|?]]; [done| |auto].
    specialize (Hkr x Hx). lia.
  - intros x. rewrite !elem_of_app, list_elem_of_singleton. intros [?|[Hx| ->]]; [auto| |lia].
    specialize (Hlr x k Hx). set_solver by lia.
  - done.
Qed.

(** [find] ends at the value, or at the empty place it belongs in. *)
Lemma wp_find_loop fuel C t value s σ (Q : _ → St → Prop) :
  sees s σ → zip σ C t → t ≠ E → sorted (elems (plug C t)) → in_hole C value →
  (height t ≤ fuel)%nat → (length C + height t ≤ 127)%nat →
  (∀ C' t', zip σ C' t' → plug C' t' = plug C t → in_hole C' value →
    (length C' + height t' ≤ length C + height t)%nat →
    ∀ s', sees s' σ →
    (t' = E ∧ value ∉ elems (plug C t) → Q (false, path_of C') s') ∧
    (t' ≠ E ∧ key t' = value → Q (true, path_of C') s')) →
  wp (find_loop fuel (path_of C) value) s Q.
Proof.
  revert C t s; induction fuel as [|fuel IH]; intros C t s Hs Hz Ht Hso Hin Hf Hl HQ.
  { destruct t; [done|simpl in Hf; lia]. }
  pose proof (height_down (value <? key t) t Ht) as Hh. cbn [find_loop].
  apply wp_bind. eapply wp_load_curr; [done..|].
  rewrite rep_equal_eq, rep_compare_lt.
  destruct (Z.eqb_spec (key t) value) as [Ek|Ek].
  { apply wp_ret. by apply (HQ C t Hz eq_refl Hin (le_n _) s Hs). }
  apply wp_bind. eapply wp_move_inc_null; [done..|lia|]. intros s1 Hs1.
  pose proof (in_hole_down C t value Ht Hso Hin ltac:(done)) as Hin'.
  pose proof (zip_down (value <? key t) σ C t Ht Hz) as Hz'.
  pose proof (plug_down (value <? key t) C t Ht) as Hp'.
  destruct (is_E (down (value <? key t) t).2) eqn:EE; cbn [negb].
  - assert (Hd : (down (value <? key t) t).2 = E) by (by destruct (down _ t).2).
    apply wp_ret. apply (HQ _ E); [by rewrite <- Hd|by rewrite <- Hp', Hd|done|simpl; lia|done|].
    split; [done|]. rewrite <- Hp', Hd in *. by apply in_hole_not_in; [| |set_solver].
  - apply IH with (down (value <? key t) t).2;
      [done|done|by intros E; rewrite E in EE|by rewrite Hp'|done|lia|simpl; lia|].
    intros C' t' Hzc Hpc Hinc Hlen. rewrite Hp' in Hpc. rewrite Hp'.
    apply (HQ C' t'); [done..|]. simpl in Hlen. lia.
Qed.

Lemma wp_find C t value s σ (Q : _ → St → Prop) :
  sees s σ → zip σ C t → sorted (elems (plug C t)) → in_hole C value →
  (length C + height t ≤ 122)%nat →
  (∀ C' t', zip σ C' t' → plug C' t' = plug C t → in_hole C' value →
    (length C' + height t' ≤ length C + height t)%nat →
    ∀ s', sees s' σ →
    (t' = E ∧ value ∉ elems (plug C t) → Q (false, path_of C') s') ∧
    (t' ≠ E ∧ key t' = value → Q (true, path_of C') s')) →
  wp (find (path_of C) value) s Q.
Proof.
  intros Hs Hz Hso Hin Hl HQ. unfold find. apply wp_bind, wp_curr, wp_bind.
  eapply wp_is_null_hole; [done..|].
  destruct (is_E t) eqn:EE.
  - destruct t; [|done]. apply wp_ret, (HQ C E); [done..|].
    split; [done|]. apply in_hole_not_in; [done..|set_solver].
  - eapply wp_find_loop; [done..| |done|done| | |done]; [by intros ->|unfold path_capacity; lia|lia].
Qed.

End Path.

(** ** The check of the invariant *)

Lemma tree_at_colour s σ h t : sees s σ → tree_at V σ h t → red σ (key t) = colour t.
Proof. intros Hs. destruct t; simpl; [intros; by eapply sees_null|tauto]. Qed.

(** A red node has no red child. *)
Lemma wp_red_red c n l k r h s σ (Q : bool → St → Prop) :
  sees s σ → tree_at V σ h (T c l k r) → rbt c n (T c l k r) → (∀ s', sees s' σ → Q false s') →
  wp (if c then
        l ← load (get_dir true k);
        lred ← is_red l;
        if (lred : bool) then mret true else r ← load (get_dir false k); is_red r
      else mret false) s Q.
Proof.
  intros Hs (Hk & Hv & Hc & Hl & Hr) Hrb HQ. destruct c; [|apply wp_ret; by apply HQ].
  inversion Hrb as [| |? ? ? ? Hrl Hrr]; subst.
  assert (Hcl : red σ (key l) = false) by (erewrite tree_at_colour by done; by inversion Hrl).
  assert (Hcr : red σ (key r) = false) by (erewrite tree_at_colour by done; by inversion Hrr).
  apply wp_bind. eapply wp_load_dir; [done..|]. intros s1 Hs1. rewrite (tree_at_key _ _ _ _ Hl).
  apply wp_bind. eapply wp_is_red; [done|by eapply tree_at_key_ok|]. intros s2 Hs2. rewrite Hcl.
  apply wp_bind. eapply wp_load_dir; [done..|]. intros s3 Hs3. rewrite (tree_at_key _ _ _ _ Hr).
  eapply wp_is_red; [done|by eapply tree_at_key_ok|]. intros s4 Hs4. rewrite Hcr. by apply HQ.
Qed.

Lemma wp_invariant (run_checks : bool) fuel lower upper h t c n s σ (Q : _ → St → Prop) :
  sees s σ → tree_at V σ h t → rbt c n t → sorted (elems t) → (height t ≤ fuel)%nat →
  (lower = 0 ∨ ∀ x, x ∈ elems t → lower ≤ x) → (upper = 0 ∨ ∀ x, x ∈ elems t → x ≤ upper) →
  (∀ s', sees s' σ → Q (if run_checks then Z.of_nat n + 1 else 0) s') →
  wp (invariant run_checks fuel (key t) lower upper) s Q.
Proof.
  revert h t c n lower upper s Q.
  induction fuel as [|fuel IH]; intros h t c n lower upper s Q Hs Ht Hrb Hso Hf Hlo Hup HQ;
    cbn [invariant]; (destruct run_checks; [cbn [negb]|apply wp_ret; by apply HQ]); rewrite rep_null_0.
  - destruct t; [|simpl in Hf; lia]. inversion Hrb; subst. apply wp_ret. by apply HQ.
  - destruct t as [|cc l k r]; [inversion Hrb; subst; apply wp_ret; by apply HQ|].
    pose proof Ht as Ht'. cbn [tree_at] in Ht'. destruct Ht' as (Hk & Hv & Hc & Hl & Hr). cbn [key].
    pose proof (V_range _ _ _ Hs Hv) as [Hkr _].
    rewrite bool_decide_false by lia. cbn [elems] in *.
    pose proof Hso as Hso'.
    apply sorted_app in Hso as (Hsl & Hso & Hlk). apply sorted_cons in Hso as (Hsr & Hkr').
    assert (Hb : negb (bool_decide (lower = 0)) && rep_compare lower k
           || negb (bool_decide (upper = 0)) && rep_compare k upper = false).
    { rewrite !rep_compare_lt. apply orb_false_iff.
      split; apply andb_false_iff.
      - destruct Hlo as [->|Hlo]; [by left|right]. apply Z.ltb_ge, Hlo. set_solver.
      - destruct Hup as [->|Hup]; [by left|right]. apply Z.ltb_ge, Hup. set_solver. }
    rewrite Hb. simpl in Hf.
    assert (Hcase : ∃ c1 c2 m, rbt c1 m l ∧ rbt c2 m r ∧ cc = c ∧ n = if c then m else S m).
    { inversion Hrb as [|c1 c2 m ? ? ? Hl1 Hr1|m ? ? ? Hl1 Hr1]; subst.
      - by exists c1, c2, m. - by exists false, false, n. }
    destruct Hcase as (c1 & c2 & m & Hl1 & Hr1 & -> & ->).
    apply wp_bind. eapply wp_is_red; [done|by right|]. intros s1 Hs1. rewrite Hc.
    apply wp_bind. eapply wp_red_red; [done..|]. intros s2 Hs2.
    apply wp_bind. eapply wp_load_dir; [done..|]. intros s3 Hs3. rewrite (tree_at_key _ _ _ _ Hl).
    apply wp_bind. eapply IH; [done|exact Hl|exact Hl1|done|lia| | |].
    { destruct Hlo as [?|Hlo]; [by left|right]. intros x Hx. apply Hlo. set_solver. }
    { right. intros x Hx. specialize (Hlk x k Hx). set_solver by lia. }
    intros s4 Hs4. apply wp_bind. eapply wp_load_dir; [done..|]. intros s5 Hs5.
    rewrite (tree_at_key _ _ _ _ Hr). apply wp_bind. eapply IH; [done|exact Hr|exact Hr1|done|lia| | |].
    { right. intros x Hx. specialize (Hkr' x Hx). lia. }
    { destruct Hup as [?|Hup]; [by left|right]. intros x Hx. apply Hup. set_solver. }
    intros s6 Hs6. rewrite Z.eqb_refl. cbn [negb].
    apply wp_bind. eapply wp_is_red; [done|by right|]. intros s7 Hs7. rewrite Hc.
    destruct c; apply wp_ret; specialize (HQ s7 Hs7); [done|].
    by replace (Z.of_nat m + 1 + 1) with (Z.of_nat (S m) + 1) by lia.
Qed.

Lemma elems_range σ h t s : sees s σ → tree_at V σ h t →
  ∀ k, k ∈ elems t → 0 < k < 2 ^ 64 ∧ k mod 16 = 0.
Proof. intros Hs Ht k Hk. eapply V_range; [done|]. by eapply tree_at_valid. Qed.

(** The check that the code runs with [run_checks] always passes. *)
Lemma wp_check run_checks h t c n s σ (Q : _ → St → Prop) :
  sees s σ → tree_at V σ h t → rbt c n t → sorted (elems t) → (∀ s', sees s' σ → Q tt s') →
  wp (check run_checks (key t)) s Q.
Proof.
  intros Hs Ht Hrb Hso HQ. unfold check. apply wp_bind. rewrite rep_null_0.
  eapply wp_invariant; [done..| | | |intros; apply wp_ret; by apply HQ]; [|by left..].
  pose proof (rbt_height_bound _ _ _ Hrb (sorted_NoDup _ Hso) (elems_range _ _ _ _ Hs Ht)).
  unfold path_capacity. lia.
Qed.


(** ** Trees at a root *)

Section Done.
Context (root : nat).

Abbreviation zip := (zip root).
Abbreviation hole := (hole root).

(** What an operation on the tree [root] leaves: [t'] in place of the nodes [K]. *)
Definition done_at (K : list Z) (σ : ideal) (t' : tree) (s' : St) : Prop :=
  ∃ σ' m, sees s' σ' ∧ tree_at V σ' (Root root) t' ∧ rbt false m t' ∧ touches K (Root root) σ σ'.

Lemma done_at_trans K h0 K' σ σ' t' s' :
  done_at K' σ' t' s' → touches K h0 σ σ' → (∀ k, k ∈ K → k ∈ K') →
  (h0 = Root root ∨ ∃ d k, h0 = Ref d k ∧ k ∈ K') → done_at K' σ t' s'.
Proof.
  intros (σ'' & m & ? & ? & ? & Ht) Ht' HK Hh. exists σ'', m. split_and!; [done..|].
  by eapply touches_trans.
Qed.

Lemma done_at_mono K K' σ t' s' :
  done_at K σ t' s' → (∀ k, k ∈ K → k ∈ K') → done_at K' σ t' s'.
Proof.
  intros (σ' & m & ? & ? & ? & [Hc Hr]) HK. exists σ', m. split_and!; [done..|]. split.
  - intros h Hh HK'. apply Hc; [done|]. intros d k E Hk. by apply (HK' d k E), HK.
  - intros k Hk. apply Hr. intros ?. by apply Hk, HK.
Qed.

(** A rotation that is the last step. *)
Lemma zip_done K C t' s' σ σ' c n :
  sees s' σ' → zip σ' C t' → touches K (hole C) σ σ' → ctx_ok c n C → rbt c n t' →
  (∀ k, k ∈ K → k ∈ elems t') → done_at (elems (plug C t')) σ (plug C t') s'.
Proof.
  intros Hs Hz Hto HC Ht HK. destruct (plug_rbt c n C t' HC Ht) as [m Hm].
  eapply done_at_trans; [|exact Hto| |apply hole_in_plug].
  - exists σ', m. split_and!; [done|by apply zip_plug|done|apply touches_refl].
  - intros k Hk. rewrite elems_plug_perm. apply elem_of_app. left. auto.
Qed.

(** The store shows the red-black search tree [t] at the root. *)
Definition holds (σ : ideal) (t : tree) : Prop :=
  tree_at V σ (Root root) t ∧ (∃ m, rbt false m t) ∧ sorted (elems t).

Lemma holds_height s σ t : sees s σ → holds σ t → (height t ≤ 121)%nat.
Proof.
  intros Hs (Ht & [m Hm] & Hso). eapply rbt_height_bound; [done|by apply sorted_NoDup|].
  by eapply elems_range.
Qed.

(** A place that [find] ends at, in a tree. *)
Lemma holds_plug σ C t : holds σ (plug C t) →
  zip σ C t ∧ ∃ c n, ctx_ok c n C ∧ rbt c n t.
Proof.
  intros (Ht & [m Hm] & Hso). split; [by apply zip_plug|]. by eapply plug_rbt_inv.
Qed.

End Done.

End Run.

(** ** A new node *)

(** [rep_ref] claims a node that can be claimed. *)
Definition with_node (V : Z → Prop) (k : Z) : Z → Prop := λ x, V x ∨ x = k.

(** [σ'] shows the same as [σ], the node [k] apart. *)
Definition agree_but (k : Z) (σ σ' : ideal) : Prop :=
  (∀ h, (∀ d, h ≠ Ref d k) → cell σ' h = cell σ h) ∧ ∀ x, x ≠ k → red σ' x = red σ x.

Lemma touches_but K h0 k σ0 σ σ' :
  touches K h0 σ0 σ → agree_but k σ σ' → k ∈ K → touches K h0 σ0 σ'.
Proof.
  intros [Hc Hr] [Hc' Hr'] Hk. split.
  - intros h Hh HK. rewrite Hc'; [by apply Hc|]. intros d E. exact (HK d k E Hk).
  - intros x Hx. rewrite Hr'; [by apply Hr|congruence].
Qed.

Section Fresh.
Context {St : Type} `{RBRepLaws St} (V F : Z → Prop) (R : nat → Prop).

Lemma wp_get_fresh d k s σ (Q : _ → St → Prop) :
  sees V F R s σ → F k →
  (∀ s' σ', sees (with_node V k) F R s' σ' → agree_but k σ σ' → Q (Ref d k) s') →
  wp (get_dir d k) s Q.
Proof.
  intros Hs Hk HQ. unfold wp, get_dir. pose proof (sees_fresh _ _ _ _ _ Hs k Hk) as Hf.
  destruct (rep_ref_ok s d k Hf) as (s' & -> & Hv & Hk').
  pose proof (sees_same _ _ _ _ _ _ Hs Hv) as Hs'. pose proof (rep_valid_range s k Hf).
  set (σ' := mkIdeal
    (λ h, match h with
          | Ref _ k' => if decide (k' = k) then match rep_get s' h with Ok v => v | Err _ => 0 end
                        else cell σ h
          | _ => cell σ h
          end) (λ x, if decide (x = k) then rep_colour s' k else red σ x)).
  apply (HQ s' σ').
  - split; unfold with_node.
    + intros x [Hx| ->]; [by eapply sees_valid|done].
    + intros x Hx. by eapply sees_fresh.
    + intros t Ht. by eapply sees_root.
    + intros [t|d' k'] Hh; simpl in *; [by eapply (sees_cell _ _ _ _ _ Hs')|].
      destruct (decide (k' = k)) as [->|Hne].
      * by destruct (rep_get_ok s' (Ref d' k) Hk') as [v ->].
      * destruct Hh as [Hh|]; [|done]. by eapply (sees_cell _ _ _ _ _ Hs').
    + intros x Hx. simpl. destruct (decide (x = k)) as [->|Hne]; [done|].
      destruct Hx as [Hx|]; [|done]. by eapply (sees_red _ _ _ _ _ Hs').
    + simpl. rewrite decide_False by lia. exact (sees_null _ _ _ _ _ Hs).
  - split; simpl.
    + intros [t|d' k'] Hh; [done|]. rewrite decide_False; [done|]. intros ->. by apply (Hh d').
    + intros x Hx. by rewrite decide_False.
Qed.
End Fresh.

(** ** Automation *)

(** Simplifies the cells and colours of a store after some updates. *)
Lemma ref_ne d d' k k' : k ≠ k' → Ref d k ≠ Ref d' k'.
Proof. congruence. Qed.
Ltac look_ne :=
  first [ assumption | discriminate | apply ref_ne; assumption | apply not_eq_sym; assumption
        | apply ref_ne, not_eq_sym; assumption | apply hole_ne; assumption
        | apply not_eq_sym, hole_ne; assumption ].
(** The disequalities of the distinct nodes of a rotation. *)
Ltac distinct HN :=
  let H := fresh "Hd" in pose proof HN as H; cbn [app] in H;
  rewrite ?NoDup_cons, ?not_elem_of_cons, ?not_elem_of_app in H; destruct_and! H.
Ltac look :=
  repeat first
    [ rewrite cell_upd_eq | rewrite red_upd | rewrite cell_paint | rewrite red_paint_eq
    | rewrite cell_upd_ne by look_ne | rewrite red_paint_ne by look_ne ];
  repeat match goal with
  | H : cell ?σ ?h = _ |- context [cell ?σ ?h] => rewrite H
  | H : red ?σ ?k = _ |- context [red ?σ ?k] => rewrite H
  end.

(** What a rotation changes, and where its parts are afterwards. *)
Ltac in_list := repeat first [apply list_elem_of_here | apply list_elem_of_further].
Ltac touch :=
  repeat first [ apply touches_refl | apply touches_hole | apply touches_ref; [|solve [in_list]]
               | apply touches_paint; [|solve [in_list]] ].
Ltac in_parts := let x := fresh in intros x; rewrite ?elem_of_app; tauto.
Ltac in_elems :=
  let x := fresh in intros x; cbn [elems]; rewrite ?elem_of_cons, ?elem_of_app, ?elem_of_cons, ?elem_of_nil;
  rewrite ?elem_of_app, ?elem_of_cons; tauto.
(** A rotation keeps the elements in their order. *)
Ltac same_elems :=
  cbn [plug]; unfold fill; cbn [mk fdir fred fkey fsib negb]; rewrite ?elems_plug; cbn [elems];
  repeat (rewrite <- app_assoc; cbn [app]); reflexivity.
(** The new tree is in the hole of the context [C]: [HN] says that the nodes are distinct. *)
Ltac rotated V root C σ HN :=
  split;
  [ cbn [tree_at]; look; split_and!; try done;
    (eapply (rotation_tree V root C _ _ σ _ HN); [touch|eassumption|look; done|in_parts])
  | eapply (rotation_ctx V root C _ _ σ _ HN); [touch|eassumption] ].

(** The next step of a computation whose paths are those of contexts. *)
Ltac rb_place := first [eassumption | eapply place_hole; eassumption].
Ltac rb_value := first [left; reflexivity | right; eassumption | eapply tree_at_key_ok; eassumption].
Ltac rb_step :=
  lazymatch goal with
  | |- wp (_ ≫= _) _ _ => apply wp_bind
  | |- wp (mret _) _ _ => apply wp_ret
  | |- wp (deref _) _ _ => eapply wp_deref; [eassumption|rb_place|cbn [negb]; look]
  | |- wp (is_red _) _ _ => eapply wp_is_red; [eassumption|rb_value|intros ? ?; look]
  | |- wp (load (get_dir _ _)) _ _ =>
      eapply wp_load_dir; [eassumption|eassumption|intros ? ?; cbn [negb]; look]
  | |- wp (store (get_dir _ _) _) _ _ =>
      eapply wp_store_dir; [eassumption|eassumption|rb_value|intros ? ?; cbn [negb]]
  | |- wp (assign _ _) _ _ => eapply wp_assign; [eassumption|rb_place|rb_value|intros ? ?]
  | |- wp (set_red _ _) _ _ => eapply wp_set_red; [eassumption|eassumption|intros ? ?]
  | |- wp (curr _) _ _ => apply wp_curr
  | |- wp (parent _) _ _ => apply wp_parent
  | |- wp (grand_parent _) _ _ => apply wp_grand_parent
  | |- wp (curr_dir _) _ _ => apply wp_curr_dir; cbn [fdir]
  | |- wp (parent_dir _) _ _ => apply wp_parent_dir; cbn [fdir]
  end.

(** Two lists with the same elements in some order. *)
Ltac perm :=
  apply (Permutation_count_occ Z.eq_dec); intros ?x; repeat (rewrite count_occ_app; cbn [count_occ app]);
  cbn [count_occ app]; repeat (case_match; try lia); repeat rewrite count_occ_app; cbn [count_occ]; 
  repeat (case_match; try lia).

End RbRun.
