(* ===== verification/FreeList.v ===== *)
(** * snmalloc: randomness and lists of free objects

    [Entropy]: mem/entropy.h.  [FreeList]: mem/freelist.h. *)

From stdpp Require Import base numbers list gmap.
From Stdlib Require Import ZArith Lia.
From S2P Require Import Prelude CInt SnBits RbTree RbRun.
Local Open Scope Z_scope.

(** * snmalloc, mem/entropy.h: the source of randomness of an allocator

    [LocalEntropy] enciphers a counter with a key; the numbers the platform supplies to
    [init] are arguments. *)

Module Entropy.
Import CInt SnBits.

Record FreeListKey := mkKey { key1 : Z; key2 : Z; key_next : Z }.

Record LocalEntropy := mkEntropy {
  bit_source : Z; local_key : Z; local_counter : Z; fresh_bits : Z; count : Z; key : FreeListKey;
}.

(** One round of the loop of [get_next].  The mask has 36 bits. *)
Definition feistel (local_key c : Z) : Z :=
  let bottom := Z.land c (Z.ones 36) in
  Z.lor (to_size (Z.shiftl c 32))
    (Z.shiftr (Z.lxor (to_size (bottom * local_key)) c) 32).

Definition get_next (e : LocalEntropy) : Z * LocalEntropy :=
  let c := to_size (local_counter e + 1) in
  (feistel (local_key e) (feistel (local_key e) c),
   mkEntropy (bit_source e) (local_key e) c (fresh_bits e) (count e) (key e)).

Definition with_key (e : LocalEntropy) (k : FreeListKey) : LocalEntropy :=
  mkEntropy (bit_source e) (local_key e) (local_counter e) (fresh_bits e) (count e) k.
Definition with_bits (e : LocalEntropy) (b : Z) : LocalEntropy :=
  mkEntropy b (local_key e) (local_counter e) (fresh_bits e) (count e) (key e).

(** [init], with the two numbers of [get_entropy64]. *)
Definition init (e : LocalEntropy) (entropy_key entropy_counter : Z) : LocalEntropy :=
  let e := mkEntropy (bit_source e) entropy_key entropy_counter (fresh_bits e) (count e) (key e) in
  let '(k1, e) := get_next e in
  let '(k2, e) := get_next e in
  let '(kn, e) := get_next e in
  let e := with_key e (mkKey k1 k2 kn) in
  let '(b, e) := get_next e in
  with_bits e b.

Definition next_bit (e : LocalEntropy) : Z * LocalEntropy :=
  let bottom_bit := Z.land (bit_source e) 1 in
  let b := Z.lor (to_size (Z.shiftl bottom_bit 63)) (Z.shiftr (bit_source e) 1) in
  (Z.land b 1, with_bits e b).

Definition get_free_list_key (e : LocalEntropy) : FreeListKey := key e.

Definition refresh_bits (e : LocalEntropy) : LocalEntropy :=
  let '(b, e) := get_next e in with_bits e b.

Definition next_fresh_bits (n : Z) (e : LocalEntropy) : result (Z * LocalEntropy) :=
  let e := if count e <=? n then
      let '(b, e) := get_next e in
      mkEntropy (bit_source e) (local_key e) (local_counter e) b 64 (key e)
    else e in
  mask ← one_at_bit n;
  rest ← size_shr (fresh_bits e) n;
  Ok (Z.land (fresh_bits e) (mask - 1) mod 2 ^ 16,
      mkEntropy (bit_source e) (local_key e) (local_counter e) rest (to_size (count e - n)) (key e)).

Definition sample (n : Z) (e : LocalEntropy) : result (Z * LocalEntropy) :=
  i ← next_pow2_bits n;
  '(bits, e) ← next_fresh_bits i e;
  Ok (if n <=? bits then (n - (1 + bits - n)) mod 2 ^ 16 else bits, e).

Lemma next_bit_range e : 0 ≤ (next_bit e).1 ≤ 1.
Proof.
  unfold next_bit. cbn [fst]. generalize (Z.lor (to_size (Z.shiftl (Z.land (bit_source e) 1) 63))
    (Z.shiftr (bit_source e) 1)). intros x. change (Z.land x 1) with (Z.land x (Z.ones 1)).
  rewrite Z.land_ones by done. pose proof (Z.mod_pos_bound x (2 ^ 1)). lia.
Qed.

(** A sample is below its bound. *)
Lemma sample_range n e : 1 ≤ n < 2 ^ 16 → ∃ r e', sample n e = Ok (r, e') ∧ 0 ≤ r < n.
Proof.
  intros Hn. assert (Hs : is_size n) by (unfold is_size, SIZE_MAX; lia).
  assert (Hi : 0 ≤ ceil_log2 n ≤ 16).
  { split; [apply ceil_log2_nonneg|]. apply ceil_log2_spec; lia. }
  unfold sample. rewrite next_pow2_bits_Ok by (done || lia). cbn [mbind result_bind].
  unfold next_fresh_bits.
  set (e1 := if count e <=? ceil_log2 n then _ else e). clearbody e1.
  rewrite one_at_bit_Ok, size_shr_Ok by lia. cbn [mbind result_bind].
  rewrite land_pow2_pred by lia. pose proof (Z.pow_pos_nonneg 2 (ceil_log2 n)).
  pose proof (Z.mod_pos_bound (fresh_bits e1) (2 ^ ceil_log2 n)) as Hb.
  assert (Hpow : 2 ^ ceil_log2 n ≤ 2 * n - 1).
  { destruct (decide (n = 1)) as [->|]; [done|]. pose proof (ceil_log2_gt n ltac:(lia)) as Hg.
    assert (1 ≤ ceil_log2 n).
    { destruct (Z.le_gt_cases 1 (ceil_log2 n)) as [|H0]; [done|].
      assert (ceil_log2 n ≤ 0) as H1%ceil_log2_spec by lia; lia. }
    replace (ceil_log2 n) with (1 + (ceil_log2 n - 1)) by lia.
    rewrite Z.pow_add_r by lia. lia. }
  assert (2 ^ ceil_log2 n ≤ 2 ^ 16) by (apply Z.pow_le_mono_r; lia).
  rewrite (Z.mod_small _ (2 ^ 16)) by lia.
  eexists _, _. split; [done|].
  destruct (Z.leb_spec n (fresh_bits e1 mod 2 ^ ceil_log2 n)); [|lia].
  rewrite Z.mod_small by lia. lia.
Qed.

(** The cipher is not a permutation, although its comment promises a period of [2 ^ 64]:
    the mask of its rounds takes four bits too many. *)
Lemma get_next_collides :
  let e c := mkEntropy 0 1 c 0 0 (mkKey 0 0 0) in
  ∃ c d, c ≠ d ∧ (get_next (e c)).1 = (get_next (e d)).1.
Proof. exists (2 ^ 32 - 1), (2 ^ 33 - 1). by vm_compute. Qed.

End Entropy.

(** * snmalloc, mem/freelist.h: lists of free objects

    The links of a list are in the free objects: the first word of an object is its
    [next_object], the second its [prev_encoded], a signature of the link that leads to
    it.  The memory is a map from the addresses of words to their values; the heads of a
    [Builder] are words of it too, because links and signatures refer to their addresses.
    The mitigations and the function [domesticate] are parameters.

    [freelist_refines]: a builder and an iterator are queues of objects, whatever the
    client does with the memory that is its own. *)

Module FreeList.
Import CInt Entropy RbTree(M, M_ret, M_bind, lift) RbRun(wp, wp_ret, wp_bind, wp_mono, wp_lift, wp_assert, wp_run).
#[local] Existing Instances RbTree.M_ret RbTree.M_bind.

(** ** Memory *)

Abbreviation Mem := (gmap Z Z).

(** A word that is not mapped cannot be accessed. *)
Definition load (a : Z) : M Mem Z :=
  λ m, match m !! a with Some v => Ok (v, m) | None => Err Undefined end.
Definition store (a v : Z) : M Mem unit :=
  λ m, match m !! a with Some _ => Ok (tt, <[a := v]> m) | None => Err Undefined end.

Record mitigations := mkMitigations {
  freelist_forward_edge : bool; freelist_backward_edge : bool;
  freelist_teardown_validate : bool; clear_meta : bool;
}.

(** [check_client_impl]: a test that fails ends the process with a message. *)
Definition check_client (b : bool) : M Mem unit := lift (if b then Ok tt else Err RuntimeError).

Definition signed_prev (curr next : Z) (key : FreeListKey) : Z :=
  to_size (to_size (curr + key1 key) * to_size (next + key2 key)).

Record Iter := mkIter { prev_ : Z; curr_ : Z }.
Record Builder := mkBuilder { head_ : Z; end_ : list Z; length_ : list Z }.

Section Ops.
Context (mit : mitigations) (domesticate : Z → Z).

(** ** Objects *)

Definition prev_encoded (p : Z) : Z := p + 8.

Definition check_prev (p signed : Z) : M Mem unit :=
  if freelist_backward_edge mit then s ← load (prev_encoded p); check_client (signed =? s)
  else mret tt.
Definition set_prev (p signed : Z) : M Mem unit :=
  if freelist_backward_edge mit then store (prev_encoded p) signed else mret tt.

Definition code_next (curr next : Z) (key : FreeListKey) : Z :=
  if freelist_forward_edge mit then Z.lxor next (key_next key) else next.
Definition encode_next := code_next.
Definition decode_next := code_next.

Definition atomic_read_next (p : Z) (key : FreeListKey) : M Mem Z :=
  n ← load p;
  let n_tame := domesticate (decode_next p n key) in
  (if freelist_backward_edge mit && negb (n_tame =? 0) then check_prev n_tame (signed_prev p n_tame key)
   else mret tt);;
  mret n_tame.

Definition read_next (p : Z) (key : FreeListKey) : M Mem Z :=
  n ← load p; mret (domesticate (decode_next p n key)).

Definition cleanup (p : Z) : M Mem unit :=
  if clear_meta mit then
    store p 0;;
    (if freelist_backward_edge mit then store (prev_encoded p) 0 else mret tt)
  else mret tt.

(** [store_next] returns the address of the [next_object] of [next]. *)
Definition store_next (curr next : Z) (key : FreeListKey) : M Mem Z :=
  (if freelist_backward_edge mit then set_prev next (signed_prev curr next key) else mret tt);;
  store curr (encode_next curr next key);;
  mret next.
Definition store_null (curr : Z) (key : FreeListKey) : M Mem unit :=
  store curr (encode_next curr 0 key).

(** The words that the atomic versions write are the same. *)
Definition atomic_store_next (curr next : Z) (key : FreeListKey) : M Mem unit :=
  (if freelist_backward_edge mit then set_prev next (signed_prev curr next key) else mret tt);;
  store curr (encode_next curr next key).
Definition atomic_store_null (curr : Z) (key : FreeListKey) : M Mem unit :=
  store curr (encode_next curr 0 key).

(** ** Iterators *)

Definition Iter_empty (it : Iter) : bool := curr_ it =? 0.
Definition peek (it : Iter) : Z := curr_ it.

Definition take_ (key : FreeListKey) (it : Iter) : M Mem (Z * Iter) :=
  let c := curr_ it in
  next ← read_next c key;
  it ← (if freelist_backward_edge mit then
          check_prev c (prev_ it);;
          mret (mkIter (signed_prev c next key) next)
        else mret (mkIter (prev_ it) next));
  cleanup c;;
  mret (c, it).

(** ** Builders *)

Context (RANDOM : bool).

Definition LENGTH : nat := if RANDOM then 2 else 1.
Definition head_at (b : Builder) (i : nat) : Z := head_ b + 8 * Z.of_nat i.

Definition empty (b : Builder) : bool :=
  forallb (λ i, bool_decide (end_ b !! i = Some (head_at b i))) (seq 0 LENGTH).

Definition get_end (b : Builder) (i : nat) : M Mem Z := lift (vec_at (end_ b) i).
Definition set_end (b : Builder) (i : nat) (p : Z) : Builder :=
  mkBuilder (head_ b) (<[i := p]> (end_ b)) (length_ b).
Definition set_length (b : Builder) (i : nat) (n : Z) : Builder :=
  mkBuilder (head_ b) (end_ b) (<[i := n]> (length_ b)).

Definition add (b : Builder) (n : Z) (key : FreeListKey) (entropy : LocalEntropy)
    : M Mem (Builder * LocalEntropy) :=
  let '(index, entropy) := if RANDOM then next_bit entropy else (0, entropy) in
  let index := Z.to_nat index in
  e ← get_end b index;
  e ← store_next e n key;
  let b := set_end b index e in
  if RANDOM then
    l ← lift (vec_at (length_ b) index);
    mret (set_length b index ((l + 1) mod 2 ^ 16), entropy)
  else mret (b, entropy).

(** The version of [add] without entropy, for builders that are not random. *)
Definition add_plain (b : Builder) (n : Z) (key : FreeListKey) : M Mem Builder :=
  e ← get_end b 0; e ← store_next e n key; mret (set_end b 0 e).

Definition terminate_list (b : Builder) (index : nat) (key : FreeListKey) : M Mem unit :=
  e ← get_end b index; store_null e key.

Definition read_head (b : Builder) (index : nat) (key : FreeListKey) : M Mem Z :=
  h ← load (head_at b index); mret (decode_next (head_at b index) h key).

Definition get_fake_signed_prev (b : Builder) (index : nat) (key : FreeListKey) : M Mem Z :=
  h ← read_head b index key; mret (signed_prev (head_at b index) h key).

Definition close (b : Builder) (key : FreeListKey) : M Mem (Z * Iter * Builder) :=
  i ← (if RANDOM then
         e0 ← get_end b 0; e1 ← get_end b 1;
         lift (assert_ (negb (e1 =? head_at b 0)));;
         lift (assert_ (negb (e0 =? head_at b 1)));;
         l0 ← lift (vec_at (length_ b) 0); l1 ← lift (vec_at (length_ b) 1);
         mret (if l1 <? l0 then 0%nat else 1%nat)
       else mret 0%nat);
  terminate_list b i key;;
  h ← read_head b i key;
  p ← get_fake_signed_prev b i key;
  let fl := mkIter p h in
  let b := set_end b i (head_at b i) in
  if RANDOM then
    let b := set_length b i 0 in
    n ← lift (vec_at (length_ b) (1 - i)); mret (n, fl, b)
  else mret (0, fl, b).

(** The loop of [init] from the index [i], with [k] turns to go. *)
Fixpoint init_loop (k i : nat) (slab : Z) (key : FreeListKey) (b : Builder) : M Mem Builder :=
  match k with
  | O => mret b
  | S k =>
      let b := set_end b i (head_at b i) in
      let b := if RANDOM then set_length b i 0 else b in
      store (head_at b i) (code_next (head_at b i) slab key);;
      init_loop k (S i) slab key b
  end.
Definition init (b : Builder) (slab : Z) (key : FreeListKey) : M Mem Builder :=
  init_loop LENGTH 0 slab key b.

Definition extract_segment (b : Builder) (key : FreeListKey) : M Mem (Z * Z * Builder) :=
  lift (assert_ (negb (empty b)));;
  first ← read_head b 0 key;
  last ← get_end b 0;
  h ← load (head_at b 0);
  b ← init b h key;
  mret (first, last, b).

(** The loop [while (true)] of [validate]; it ends at the object whose link [end] is. *)
Fixpoint validate_loop (fuel : nat) (key : FreeListKey) (e curr prev count : Z) : M Mem Z :=
  match fuel with
  | O => lift (Err Diverge)
  | S fuel =>
      check_prev curr prev;;
      if curr =? e then mret count
      else
        next ← read_next curr key;
        validate_loop fuel key e next (signed_prev curr next key) (count + 1)
  end.

(** The loop of [validate] over the lists, from the index [i], with [k] turns to go.  A
    list of objects is shorter than the number of mapped words. *)
Fixpoint validate_all (k i : nat) (key : FreeListKey) (b : Builder) : M Mem unit :=
  match k with
  | O => mret tt
  | S k =>
      e ← get_end b i;
      (if head_at b i =? e then
         if RANDOM then l ← lift (vec_at (length_ b) i); check_client (l =? 0) else mret tt
       else
         curr ← read_head b i key;
         prev ← get_fake_signed_prev b i key;
         count ← (λ m, validate_loop (S (size m)) key e curr prev 1 m);
         if RANDOM then l ← lift (vec_at (length_ b) i); check_client (count =? l) else mret tt);;
      validate_all k (S i) key b
  end.
Definition validate (b : Builder) (key : FreeListKey) : M Mem unit :=
  if freelist_teardown_validate mit then validate_all LENGTH 0 key b else mret tt.

End Ops.
End FreeList.
