(* ===== verification/FreeListSpec.v ===== *)
(** * Free lists are queues

    [chain]: a list that is being built; [iter_at]: a closed list that is being taken from.
    The theorem is about sequences of calls of a builder and an iterator, and of writes of
    the client to memory that is its own. *)

From stdpp Require Import base list numbers gmap.
From Stdlib Require Import ZArith Lia.
From S2P Require Import Prelude CInt FreeList RbTree RbRun.
Local Open Scope Z_scope.

Module FreeListSpec.
Import CInt Entropy RbTree(M, M_ret, M_bind, lift) RbRun(wp, wp_ret, wp_bind, wp_mono, wp_lift, wp_assert, wp_run) FreeList.
#[local] Existing Instances RbTree.M_ret RbTree.M_bind.

(** ** Lists of lists *)

Lemma concat_alter_snoc (ls : list (list Z)) i l p : ls !! i = Some l →
  concat (alter (λ l, l ++ [p]) i ls) ≡ₚ p :: concat ls.
Proof.
  revert i. induction ls as [|l' ls IH]; intros [|i] H; [done..| |]; cbn in *.
  - by rewrite Permutation_middle, <- (assoc_L (++)).
  - rewrite (IH i) by done. by rewrite Permutation_middle.
Qed.

Lemma concat_insert_nil (ls : list (list Z)) i l : ls !! i = Some l →
  l ++ concat (<[i := []]> ls) ≡ₚ concat ls.
Proof.
  revert i. induction ls as [|l' ls IH]; intros [|i] H; [done..| |]; cbn in *.
  - by injection H as ->.
  - rewrite <- (IH i) by done. by rewrite !(assoc_L (++)), (Permutation_app_comm l l').
Qed.

Lemma concat_elem (ls : list (list Z)) i l p : ls !! i = Some l → p ∈ l → p ∈ concat ls.
Proof.
  intros Hi Hp. rewrite <- (concat_insert_nil ls i l Hi). set_solver.
Qed.

Lemma concat_apart (ls : list (list Z)) i j l l' p : NoDup (concat ls) →
  ls !! i = Some l → ls !! j = Some l' → i ≠ j → p ∈ l → p ∉ l'.
Proof.
  intros Hnd Hi Hj Hij Hp Hp'. rewrite <- (concat_insert_nil ls i l Hi) in Hnd.
  apply NoDup_app in Hnd as (_&Hnd&_). apply (Hnd p Hp).
  apply (concat_elem _ j l'); [|done]. by rewrite list_lookup_insert_ne.
Qed.

Section Spec.
Context (mit : mitigations) (domesticate : Z → Z) (RANDOM : bool) (key : FreeListKey).
(** The objects, the address of the builder, and the mapped words. *)
Context (obj : Z → Prop) (hd : Z) (words : gset Z).

Abbreviation LENGTH := (LENGTH RANDOM).
Definition head (i : nat) : Z := hd + 8 * Z.of_nat i.

(** Objects have two words of their own, apart from the heads. *)
Record objects_ok : Prop := {
  ok_null : ¬ obj 0;
  ok_apart : ∀ p q, obj p → obj q → p ≠ q + 8;
  ok_head : ∀ i p, (i < LENGTH)%nat → obj p → head i ≠ p ∧ head i ≠ p + 8;
  ok_mapped : ∀ p, obj p → p ∈ words ∧ p + 8 ∈ words;
  ok_mapped_head : ∀ i, (i < LENGTH)%nat → head i ∈ words;
  ok_tame : ∀ p, p = 0 ∨ obj p → domesticate p = p;
}.
Context (HO : objects_ok).

(** The places of links. *)
Definition link (a : Z) : Prop := obj a ∨ ∃ i, (i < LENGTH)%nat ∧ a = head i.

Lemma link_head i : (i < LENGTH)%nat → link (head i).
Proof. right. by exists i. Qed.

Lemma link_ne a p : link a → obj p → a ≠ p + 8.
Proof. intros [Ha|(i&Hi&->)] Hp; [by apply (ok_apart HO)|by apply (ok_head HO)]. Qed.

Lemma link_mapped a : link a → a ∈ words.
Proof. intros [Ha|(i&Hi&->)]; [by apply (ok_mapped HO)|by apply (ok_mapped_head HO)]. Qed.

Lemma obj_ne0 p : obj p → p ≠ 0.
Proof. intros Hp ->. by apply (ok_null HO). Qed.

Abbreviation code := (λ n : Z, code_next mit 0 n key).
Abbreviation signed := (λ a n : Z, signed_prev a n key).

Lemma code_invol a b n : code_next mit a (code_next mit b n key) key = n.
Proof.
  unfold code_next. destruct (freelist_forward_edge mit); [|done].
  by rewrite Z.lxor_assoc, Z.lxor_nilpotent, Z.lxor_0_r.
Qed.

(** The memory [m'] is [m] but for the words that [P] holds of. *)
Definition agree (P : Z → Prop) (m m' : Mem) : Prop := ∀ a, ¬ P a → m' !! a = m !! a.

(** ** Lists in memory *)

Fixpoint end_of (a : Z) (l : list Z) : Z :=
  match l with [] => a | p :: l => end_of p l end.

Fixpoint chain (m : Mem) (a : Z) (l : list Z) : Prop :=
  match l with
  | [] => True
  | p :: l => m !! a = Some (code p) ∧
      (freelist_backward_edge mit = true → m !! (p + 8) = Some (signed a p)) ∧ chain m p l
  end.

Fixpoint iter_at (m : Mem) (prev c : Z) (l : list Z) : Prop :=
  match l with
  | [] => c = 0
  | p :: l => c = p ∧ (freelist_backward_edge mit = true → m !! (p + 8) = Some prev) ∧
      ∃ n, m !! p = Some (code n) ∧ iter_at m (signed p n) n l
  end.

Lemma end_of_elem a l : end_of a l = a ∨ end_of a l ∈ l.
Proof. revert a. induction l as [|p l IH]; intros a; [by left|]. right. cbn. destruct (IH p); set_solver. Qed.

Lemma end_of_ne a p l : a ∉ p :: l → a ≠ end_of p l.
Proof. destruct (end_of_elem p l); set_solver. Qed.

Lemma end_of_snoc a l n : end_of a (l ++ [n]) = n.
Proof. revert a. induction l as [|p l IH]; intros a; [done|]. apply IH. Qed.

Lemma chain_frame m m' a l :
  m' !! a = m !! a → (∀ p, p ∈ l → m' !! p = m !! p ∧ m' !! (p + 8) = m !! (p + 8)) →
  chain m a l → chain m' a l.
Proof.
  revert a. induction l as [|p l IH]; intros a Ha Hl; [done|]. cbn.
  destruct (Hl p) as [Hp Hp8]; [set_solver|]. rewrite Ha, Hp8. intros (H1&H2&H3).
  split; [done|]. split; [done|]. apply IH; [done|set_solver|done].
Qed.

Lemma iter_frame m m' prev c l :
  (∀ p, p ∈ l → m' !! p = m !! p ∧ m' !! (p + 8) = m !! (p + 8)) →
  iter_at m prev c l → iter_at m' prev c l.
Proof.
  revert prev c. induction l as [|p l IH]; intros prev c Hl; [done|]. cbn.
  destruct (Hl p) as [-> ->]; [set_solver|]. intros (H1&H2&n&H3&H4).
  split; [done|]. split; [done|]. exists n. split; [done|]. apply IH; [set_solver|done].
Qed.

(** Linking [n] to the end of a list. *)
Lemma chain_snoc m m' a l n :
  link a → Forall obj l → obj n → NoDup (a :: l) → n ∉ l →
  m' !! end_of a l = Some (code n) →
  (freelist_backward_edge mit = true → m' !! (n + 8) = Some (signed (end_of a l) n)) →
  agree (λ x, x = end_of a l ∨ x = n + 8) m m' →
  chain m a l → chain m' a (l ++ [n]).
Proof.
  revert a. induction l as [|p l IH]; intros a Ha Hl Hn Hnd Hnl He Hs Hm; [done|].
  cbn in *. intros (H1&H2&H3).
  apply Forall_cons in Hl as [Hp Hl]. apply NoDup_cons in Hnd as [Hna Hnd].
  assert (Hend : a ≠ end_of p l) by by apply end_of_ne.
  assert (Hend8 : p + 8 ≠ end_of p l).
  { intros E. assert (obj (end_of p l)) as Ho.
    { destruct (end_of_elem p l) as [->|Hin]; [done|]. by apply (Forall_forall obj l). }
    by apply (ok_apart HO _ p Ho Hp). }
  split; [|split].
  - rewrite Hm; [done|]. intros [?|?]; [done|]. by apply (link_ne a n).
  - intros Hb. rewrite Hm; [by apply H2|]. intros [?|?]; [done|]. set_solver by lia.
  - apply IH; try done; [by left|set_solver].
Qed.

(** The last link is not part of a list that is built. *)
Lemma chain_last_free m m' a l :
  link a → Forall obj l → NoDup (a :: l) → agree (λ x, x = end_of a l) m m' →
  chain m a l → chain m' a l.
Proof.
  revert a. induction l as [|p l IH]; intros a Ha Hl Hnd Hg; [done|].
  cbn in *. intros (H1&H2&H3).
  apply Forall_cons in Hl as [Hp Hl]. apply NoDup_cons in Hnd as [Hna Hnd].
  assert (Hend : a ≠ end_of p l) by by apply end_of_ne.
  assert (Hend8 : end_of p l ≠ p + 8).
  { apply link_ne; [|done]. destruct (end_of_elem p l) as [->|Hin]; [by left|left].
    by apply (Forall_forall obj l). }
  split; [by rewrite Hg|]. split; [by rewrite Hg|]. apply IH; try done. by left.
Qed.

(** A list whose last link is null can be taken from. *)
Lemma chain_iter m a l : Forall obj l →
  m !! end_of a l = Some (code 0) → chain m a l →
  m !! a = Some (code (default 0 (list.head l))) ∧
  iter_at m (signed a (default 0 (list.head l))) (default 0 (list.head l)) l.
Proof.
  revert a. induction l as [|p l IH]; intros a Hl He; [done|]. cbn in *. intros (H1&H2&H3).
  apply Forall_cons in Hl as [Hp Hl]. destruct (IH p Hl He H3) as [H4 H5].
  split; [done|]. split; [done|]. split; [done|]. by eexists.
Qed.

(** ** The operations *)

Lemma wp_load_word m a v (Q : Z → Mem → Prop) : m !! a = Some v → Q v m → wp (load a) m Q.
Proof. unfold wp, load. by intros ->. Qed.

Lemma wp_store m a v (Q : unit → Mem → Prop) :
  dom m = words → a ∈ words →
  (∀ m', dom m' = words → m' !! a = Some v → agree (λ x, x = a) m m' → Q tt m') →
  wp (store a v) m Q.
Proof.
  intros Hm Ha HQ. rewrite <- Hm in Ha. apply elem_of_dom in Ha as [w Hw].
  unfold wp, store. rewrite Hw. apply HQ.
  - rewrite dom_insert_lookup_L; [done|by eexists].
  - by rewrite lookup_insert_eq.
  - intros b Hb. by rewrite lookup_insert_ne by congruence.
Qed.

Lemma wp_store_next m a n (Q : Z → Mem → Prop) :
  dom m = words → link a → obj n →
  (∀ m', dom m' = words → m' !! a = Some (code n) →
    (freelist_backward_edge mit = true → m' !! (n + 8) = Some (signed a n)) →
    agree (λ x, x = a ∨ x = n + 8) m m' → Q n m') →
  wp (store_next mit a n key) m Q.
Proof.
  intros Hm Ha Hn HQ. unfold store_next, set_prev, encode_next. apply wp_bind.
  pose proof (link_ne a n Ha Hn) as Hne.
  destruct (freelist_backward_edge mit) eqn:Eb; cbn [andb].
  - apply (wp_store m); [done|by apply (ok_mapped HO)|]. intros m1 H1 Hv1 Hg1.
    apply wp_bind, (wp_store m1); [done|by apply link_mapped|]. intros m2 H2 Hv2 Hg2.
    apply wp_ret, HQ; [done|done| |].
    + intros _. rewrite Hg2; [done|]. intros E. by apply Hne.
    + intros b Hb. rewrite Hg2, Hg1; [done|naive_solver..].
  - apply wp_ret, wp_bind, (wp_store m); [done|by apply link_mapped|]. intros m2 H2 Hv2 Hg2.
    apply wp_ret, HQ; [done|done|done|]. intros b Hb. apply Hg2. naive_solver.
Qed.

Lemma iter_prev m prev prev' c l :
  freelist_backward_edge mit = false → iter_at m prev c l → iter_at m prev' c l.
Proof. intros Hb. destruct l; [done|]. cbn. rewrite Hb. naive_solver. Qed.

Lemma wp_take m prev c p l (Q : Z * Iter → Mem → Prop) :
  dom m = words → obj p → Forall obj l → p ∉ l → iter_at m prev c (p :: l) →
  (∀ m' it, dom m' = words → iter_at m' (prev_ it) (curr_ it) l →
    agree (λ x, x = p ∨ x = p + 8) m m' → Q (p, it) m') →
  wp (take_ mit domesticate key (mkIter prev c)) m Q.
Proof.
  intros Hm Hp Hl Hpl (->&Hprev&n&Hn&Hit) HQ. unfold take_. cbn [curr_ prev_]. apply wp_bind.
  unfold read_next. apply wp_bind, (wp_load_word m _ (code n)); [done|].
  assert (En : domesticate (decode_next mit p (code n) key) = n).
  { unfold decode_next. rewrite code_invol.
    apply (ok_tame HO). destruct l as [|q l]; [by left|right]. destruct Hit as [-> _].
    by apply Forall_cons in Hl as [Hq _]. }
  rewrite En. apply wp_ret. unfold cleanup, check_prev, prev_encoded.
  assert (apart : ∀ q, q ∈ l → obj q → ¬ (q = p ∨ q = p + 8) ∧ ¬ (q + 8 = p ∨ q + 8 = p + 8)).
  { intros q Hq Ho. split; intros [E|E]; [by subst| | |].
    - by apply (ok_apart HO q p).
    - by apply (ok_apart HO p q).
    - apply Hpl. by replace p with q by lia. }
  assert (Hclean : ∀ it, iter_at m (prev_ it) (curr_ it) l →
    wp (((if clear_meta mit then store p 0;; (if freelist_backward_edge mit then store (p + 8) 0 else mret tt)
      else mret tt) : M Mem unit);; mret (p, it)) m Q).
  { intros it Hi. apply wp_bind.
    assert (HQ' : ∀ m', dom m' = words → agree (λ x, x = p ∨ x = p + 8) m m' → Q (p, it) m').
    { intros m' H1 H2. apply HQ; [done| |done]. apply (iter_frame m); [|done]. intros q Hq.
      assert (obj q) by by apply (Forall_forall obj l). split; apply H2; by apply apart. }
    destruct (clear_meta mit); [|apply wp_ret, wp_ret; by apply HQ'].
    apply wp_bind, (wp_store m); [done|by apply (ok_mapped HO)|]. intros m1 H1 _ Hg1.
    destruct (freelist_backward_edge mit).
    - apply (wp_store m1); [done|by apply (ok_mapped HO)|]. intros m2 H2 _ Hg2.
      apply wp_ret, HQ'; [done|]. intros a Ha. rewrite Hg2, Hg1; naive_solver.
    - apply wp_ret, wp_ret, HQ'; [done|]. intros a Ha. apply Hg1. naive_solver. }
  apply wp_bind. destruct (freelist_backward_edge mit) eqn:Eb.
  - apply wp_bind, wp_bind, (wp_load_word m _ prev); [by apply Hprev|].
    apply (wp_lift _ tt); [by rewrite Z.eqb_refl|]. by apply wp_ret, Hclean.
  - apply wp_ret, Hclean. by apply (iter_prev m (signed p n)).
Qed.

Lemma wp_read_head m b i n (Q : Z → Mem → Prop) :
  head_ b = hd → m !! head i = Some (code n) → Q n m → wp (read_head mit b i key) m Q.
Proof.
  intros Hb Hm HQ. unfold read_head, head_at. rewrite Hb. apply wp_bind, (wp_load_word m _ (code n)); [done|].
  apply wp_ret. unfold decode_next. by rewrite code_invol.
Qed.

Lemma wp_fake_signed_prev m b i n (Q : Z → Mem → Prop) :
  head_ b = hd → m !! head i = Some (code n) → Q (signed (head i) n) m →
  wp (get_fake_signed_prev mit b i key) m Q.
Proof.
  intros Hb Hm HQ. unfold get_fake_signed_prev. apply wp_bind, (wp_read_head m b i n); [done..|].
  apply wp_ret. unfold head_at. by rewrite Hb.
Qed.

Lemma wp_get_end m b i e (Q : Z → Mem → Prop) : end_ b !! i = Some e → Q e m → wp (get_end b i) m Q.
Proof. intros He HQ. unfold get_end. eapply wp_lift; [|done]. unfold vec_at. by rewrite He. Qed.

Lemma wp_get_length m b i n (Q : Z → Mem → Prop) :
  length_ b !! i = Some n → Q n m → wp (lift (vec_at (length_ b) i)) m Q.
Proof. intros He HQ. eapply wp_lift; [|done]. unfold vec_at. by rewrite He. Qed.

Lemma wp_validate_loop fuel m a p l count (Q : Z → Mem → Prop) :
  Forall obj (p :: l) → NoDup (p :: l) → chain m a (p :: l) → (length l < fuel)%nat →
  Q (count + Z.of_nat (length l)) m →
  wp (validate_loop mit domesticate fuel key (end_of p l) p (signed a p) count) m Q.
Proof.
  revert a p l count. induction fuel as [|fuel IH]; intros a p l count Ho Hnd Hc Hf HQ; [lia|].
  destruct Hc as (_&H2&H3). cbn [validate_loop]. apply wp_bind. unfold check_prev.
  assert (Hrest : wp (if p =? end_of p l then mret count else
    next ← read_next mit domesticate p key;
    validate_loop mit domesticate fuel key (end_of p l) next (signed p next) (count + 1)) m Q).
  { destruct l as [|q l].
    - cbn [end_of]. rewrite Z.eqb_refl. apply wp_ret. by replace count with (count + 0) by lia.
    - assert (Hne : p ≠ end_of q l).
      { apply NoDup_cons in Hnd as [Hp _]. by apply end_of_ne. }
      cbn [end_of]. rewrite (proj2 (Z.eqb_neq _ _) Hne). apply wp_bind. unfold read_next.
      destruct H3 as (H4&H5&H6). apply wp_bind, (wp_load_word m _ (code q)); [done|]. apply wp_ret.
      apply Forall_cons in Ho as [Hp Ho]. unfold decode_next. rewrite code_invol, (ok_tame HO).
      2: { right. by apply Forall_cons in Ho as [Hq _]. }
      apply IH; [done|by apply NoDup_cons in Hnd as [_ Hq]|done|cbn in Hf; lia|].
      by replace (count + 1 + Z.of_nat (length l)) with (count + Z.of_nat (length (q :: l)))
        by (cbn [length]; lia). }
  destruct (freelist_backward_edge mit).
  - apply wp_bind, (wp_load_word m _ (signed a p)); [by apply H2|].
    apply (wp_lift _ tt); [by rewrite Z.eqb_refl|done].
  - by apply wp_ret.
Qed.

Lemma objects_bound (m : Mem) (l : list Z) : dom m = words → Forall obj l → NoDup l → (length l ≤ size m)%nat.
Proof.
  intros Hm Ho Hnd. rewrite <- size_dom, Hm. rewrite <- (size_list_to_set (C := gset Z) l) by done.
  apply subseteq_size. intros a Ha. apply elem_of_list_to_set in Ha.
  apply (ok_mapped HO). by apply (Forall_forall obj l).
Qed.

(** ** Sequences of calls *)

Record state := mkState { mem : Mem; builder : Builder; fl : Iter; entropy : LocalEntropy }.

Inductive op :=
| Add (p : Z)
| Close
| Take
| Extract
| Validate
| Write (a v : Z)       (* by the client *)
| Read (a : Z).         (* by the client *)

Inductive answer := Done | Ptr (p : Z) | Count (n : Z) | Segment (first last : Z) | Value (v : Z).

Definition step (o : op) (s : state) : result (answer * state) :=
  match o with
  | Add p =>
      '((b, e), m) ← add mit RANDOM (builder s) p key (entropy s) (mem s);
      Ok (Done, mkState m b (fl s) e)
  | Close =>
      '((n, it, b), m) ← close mit RANDOM (builder s) key (mem s);
      Ok (Count n, mkState m b it (entropy s))
  | Take =>
      '((p, it), m) ← take_ mit domesticate key (fl s) (mem s);
      Ok (Ptr p, mkState m (builder s) it (entropy s))
  | Extract =>
      '((first, last, b), m) ← extract_segment mit RANDOM (builder s) key (mem s);
      Ok (Segment first last, mkState m b (fl s) (entropy s))
  | Validate =>
      '(_, m) ← validate mit domesticate RANDOM (builder s) key (mem s);
      Ok (Done, mkState m (builder s) (fl s) (entropy s))
  | Write a v =>
      '(_, m) ← store a v (mem s); Ok (Done, mkState m (builder s) (fl s) (entropy s))
  | Read a =>
      '(v, m) ← load a (mem s); Ok (Value v, mkState m (builder s) (fl s) (entropy s))
  end.

Fixpoint run (ops : list op) (s : state) : result (list answer * state) :=
  match ops with
  | [] => Ok ([], s)
  | o :: ops => '(a, s) ← step o s; '(l, s) ← run ops s; Ok (a :: l, s)
  end.

(** The specification: one queue or two, the queue that is being taken from, and what the
    client has written. *)
Record queues := mkQueues {
  building : list (list Z); taking : list Z; bits : LocalEntropy; client : gmap Z Z;
}.

Definition choice (e : LocalEntropy) : nat * LocalEntropy :=
  if RANDOM then (Z.to_nat (next_bit e).1, (next_bit e).2) else (0%nat, e).

(** The longer of two queues, the second one if they are as long. *)
Definition longest (ls : list (list Z)) : nat :=
  if RANDOM then if decide (length (default [] (ls !! 1%nat)) < length (default [] (ls !! 0%nat)))%nat then 0 else 1
  else 0.

Definition spec_step (o : op) (σ : queues) : answer * queues :=
  match o with
  | Add p => (Done, mkQueues (alter (λ l, l ++ [p]) (choice (bits σ)).1 (building σ)) (taking σ) (choice (bits σ)).2
      (delete p (delete (p + 8) (client σ))))
  | Close =>
      let i := longest (building σ) in
      (Count (if RANDOM then Z.of_nat (length (default [] (building σ !! (1 - i)%nat))) else 0),
       mkQueues (<[i := []]> (building σ)) (default [] (building σ !! i)) (bits σ) (client σ))
  | Take => (Ptr (default 0 (list.head (taking σ))), mkQueues (building σ) (drop 1 (taking σ)) (bits σ) (client σ))
  | Extract =>
      let l := default [] (building σ !! 0%nat) in
      (Segment (default 0 (list.head l)) (end_of (head 0) l), mkQueues [[]] (taking σ) (bits σ) (client σ))
  | Validate => (Done, σ)
  | Write a v => (Done, mkQueues (building σ) (taking σ) (bits σ) (<[a := v]> (client σ)))
  | Read a => (Value (default 0 (client σ !! a)), σ)
  end.

Fixpoint spec_run (ops : list op) (σ : queues) : list answer :=
  match ops with [] => [] | o :: ops => (spec_step o σ).1 :: spec_run ops (spec_step o σ).2 end.

Definition free_objects (σ : queues) : list Z := concat (building σ) ++ taking σ.

(** The word [a] is neither a head nor part of a free object. *)
Definition not_used (a : Z) (σ : queues) : Prop :=
  (∀ i, (i < LENGTH)%nat → a ≠ head i) ∧ ∀ p, p ∈ free_objects σ → a ≠ p ∧ a ≠ p + 8.

#[export] Instance not_used_dec a σ : Decision (not_used a σ).
Proof.
  refine (cast_if (decide (Forall (λ i, a ≠ head i) (seq 0 LENGTH) ∧
    Forall (λ p, a ≠ p ∧ a ≠ p + 8) (free_objects σ)))); unfold not_used; rewrite !Forall_forall in *.
  - split; [|naive_solver]. intros i Hi. apply (proj1 a0), elem_of_seq. lia.
  - intros [H1 H2]. apply n. split; [|done]. intros i [_ Hi]%elem_of_seq. by apply H1.
Defined.

(** What callers have to respect: an object is added once, a queue that is taken from has
    elements, the client writes only to words of its own and reads what it has written. *)
Definition allowed (o : op) (σ : queues) : Prop :=
  match o with
  | Add p => obj p ∧ p ∉ free_objects σ ∧ Z.of_nat (length (free_objects σ)) < 2 ^ 16 - 1
  | Take => taking σ ≠ []
  | Extract => RANDOM = false ∧ building σ ≠ [[]]
  | Write a _ => a ∈ words ∧ not_used a σ
  | Read a => is_Some (client σ !! a)
  | Close | Validate => True
  end.

Fixpoint all_allowed (ops : list op) (σ : queues) : Prop :=
  match ops with [] => True | o :: ops => allowed o σ ∧ all_allowed ops (spec_step o σ).2 end.

Record related (s : state) (σ : queues) : Prop := {
  r_dom : dom (mem s) = words;
  r_hd : head_ (builder s) = hd;
  r_lists : length (building σ) = LENGTH;
  r_chain : ∀ i l, building σ !! i = Some l →
    end_ (builder s) !! i = Some (end_of (head i) l) ∧ chain (mem s) (head i) l;
  r_length : RANDOM = true → ∀ i l, building σ !! i = Some l →
    length_ (builder s) !! i = Some (Z.of_nat (length l));
  r_iter : iter_at (mem s) (prev_ (fl s)) (curr_ (fl s)) (taking σ);
  r_objs : Forall obj (free_objects σ);
  r_nodup : NoDup (free_objects σ);
  r_bound : Z.of_nat (length (free_objects σ)) < 2 ^ 16;
  r_bits : bits σ = entropy s;
  r_client : ∀ a v, client σ !! a = Some v → mem s !! a = Some v ∧ not_used a σ;
}.

(** What a queue keeps when words are written that are not its own. *)
Lemma chain_agree P m m' i l : agree P m m' → ¬ P (head i) →
  (∀ p, p ∈ l → ¬ P p ∧ ¬ P (p + 8)) → chain m (head i) l → chain m' (head i) l.
Proof. intros Hg Hh Hl. apply chain_frame; [by apply Hg|]. intros p Hp. split; apply Hg; by apply Hl. Qed.

Lemma iter_agree P m m' prev c l : agree P m m' →
  (∀ p, p ∈ l → ¬ P p ∧ ¬ P (p + 8)) → iter_at m prev c l → iter_at m' prev c l.
Proof. intros Hg Hl. apply iter_frame. intros p Hp. split; apply Hg; by apply Hl. Qed.

Section Related.
Context (s : state) (σ : queues) (HR : related s σ).

Lemma building_obj i l p : building σ !! i = Some l → p ∈ l → obj p ∧ p ∈ free_objects σ.
Proof.
  intros Hi Hp. assert (Hin : p ∈ free_objects σ).
  { unfold free_objects. apply elem_of_app. left. by apply (concat_elem _ i l). }
  split; [|done]. apply (Forall_forall obj (free_objects σ)); [apply (r_objs _ _ HR)|done].
Qed.

Lemma taking_obj p : p ∈ taking σ → obj p ∧ p ∈ free_objects σ.
Proof.
  intros Hp. assert (Hin : p ∈ free_objects σ) by (unfold free_objects; set_solver).
  split; [|done]. apply (Forall_forall obj (free_objects σ)); [apply (r_objs _ _ HR)|done].
Qed.

Lemma building_lt i l : building σ !! i = Some l → (i < LENGTH)%nat.
Proof. intros H%lookup_lt_Some. by rewrite (r_lists _ _ HR) in H. Qed.

Lemma building_nodup i l : building σ !! i = Some l → NoDup l ∧ NoDup (head i :: l) ∧ Forall obj l.
Proof.
  intros Hi. assert (Hl : NoDup l).
  { pose proof (r_nodup _ _ HR) as Hnd. apply NoDup_app in Hnd as (Hnd&_&_).
    rewrite <- (concat_insert_nil _ i l Hi) in Hnd. by apply NoDup_app in Hnd as (Hq&_&_). }
  split; [done|]. split.
  - apply NoDup_cons. split; [|done]. intros Hin. destruct (building_obj i l _ Hi Hin) as [Ho _].
    by apply (ok_head HO i (head i)) in Ho as [Hq _]; [|by apply (building_lt i l)].
  - apply Forall_forall. intros p Hp. by apply (building_obj i l).
Qed.

(** Writing to the last link of the queue [i], and to the second word of an object that is
    in no queue, leaves the other queues as they are. *)
Lemma others_keep i l n m' : building σ !! i = Some l →
  (n ∉ free_objects σ ∧ obj n ∨ n = 0) →
  agree (λ x, x = end_of (head i) l ∨ (n ≠ 0 ∧ x = n + 8)) (mem s) m' →
  (∀ j l', j ≠ i → building σ !! j = Some l' → chain m' (head j) l') ∧
  iter_at m' (prev_ (fl s)) (curr_ (fl s)) (taking σ) ∧
  ∀ a v, client σ !! a = Some v → (n ≠ 0 → a ≠ n + 8) → m' !! a = Some v.
Proof.
  intros Hi Hn Hg. pose proof (building_lt i l Hi) as Hlt.
  assert (Hlink : link (end_of (head i) l)).
  { destruct (end_of_elem (head i) l) as [->|Hin]; [by apply link_head|left].
    by apply (building_obj i l). }
  assert (Hn8 : ∀ x, obj x ∧ x ≠ n → ¬ (n ≠ 0 ∧ x = n + 8) ∧ ¬ (n ≠ 0 ∧ x + 8 = n + 8)).
  { intros x [Hx Hxn]. split; intros [Hn0 E]; [|lia]. destruct Hn as [[_ Hn]|]; [|done].
    by apply (ok_apart HO x n). }
  assert (Hfree : ∀ x, x ∈ free_objects σ → obj x → x ≠ end_of (head i) l →
    ¬ (x = end_of (head i) l ∨ n ≠ 0 ∧ x = n + 8) ∧
    ¬ (x + 8 = end_of (head i) l ∨ n ≠ 0 ∧ x + 8 = n + 8)).
  { intros x Hx Ho He. destruct (Hn8 x) as [H1 H2].
    { split; [done|]. intros ->. destruct Hn as [[Hn _]| -> ]; [done|]. by apply (ok_null HO). }
    split; intros [E|E]; try done. by apply (link_ne (end_of (head i) l) x). }
  split_and!.
  - intros j l' Hj Hl'. apply (chain_agree _ (mem s) m' j l' Hg).
    + pose proof (building_lt j l' Hl') as Hjlt. intros [E|[Hn0 E]].
      * destruct (end_of_elem (head i) l) as [Ee|Hin]; [rewrite Ee in E; unfold head in E; lia|].
        rewrite <- E in Hin. destruct (building_obj i l _ Hi Hin) as [Ho _].
        by apply (ok_head HO j (head j)) in Ho as [Hq _].
      * destruct Hn as [[_ Hn]|]; [|done]. by apply (ok_head HO j n) in Hn as [_ Hn8'].
    + intros p Hp. destruct (building_obj j l' p Hl' Hp) as [Ho Hf]. apply Hfree; [done..|].
      intros ->. destruct (end_of_elem (head i) l) as [Ee|Hin].
      * rewrite Ee in Ho. by apply (ok_head HO i (head i)) in Ho as [Hq _].
      * pose proof (r_nodup _ _ HR) as Hnd. apply NoDup_app in Hnd as (Hnd&_&_).
        by apply (concat_apart _ i j l l' _ Hnd Hi Hl' (not_eq_sym Hj) Hin).
    + by apply (r_chain _ _ HR).
  - apply (iter_agree _ (mem s) m' _ _ _ Hg); [|apply (r_iter _ _ HR)].
    intros p Hp. destruct (taking_obj p Hp) as [Ho Hf]. apply Hfree; [done..|].
    intros ->. destruct (end_of_elem (head i) l) as [Ee|Hin].
    + rewrite Ee in Ho. by apply (ok_head HO i (head i)) in Ho as [Hq _].
    + pose proof (r_nodup _ _ HR) as Hnd. apply NoDup_app in Hnd as (_&Hnd&_).
      apply (Hnd (end_of (head i) l)); [|done]. by apply (concat_elem _ i l).
  - intros a v Ha Han. destruct (r_client _ _ HR a v Ha) as [Hv [Hh Hf]].
    rewrite Hg; [done|]. intros [->|[Hn0 E]]; [|by apply Han].
    destruct (end_of_elem (head i) l) as [Ee|Hin].
    + rewrite Ee in Hh. by apply (Hh i).
    + destruct (building_obj i l _ Hi Hin) as [_ Hx]. by destruct (Hf _ Hx).
Qed.

End Related.

#[export] Instance allowed_dec `{!∀ p, Decision (obj p)} o σ : Decision (allowed o σ).
Proof. destruct o; cbn [allowed]; apply _. Defined.

#[export] Instance all_allowed_dec `{!∀ p, Decision (obj p)} ops σ : Decision (all_allowed ops σ).
Proof. revert σ. induction ops; intros σ; cbn [all_allowed]; apply _. Defined.

(** ** Each call refines its specification *)

Definition refined (o : op) (s : state) (σ : queues) : Prop :=
  ∃ s', step o s = Ok ((spec_step o σ).1, s') ∧ related s' (spec_step o σ).2.

Lemma choice_eq e : (if RANDOM then next_bit e else (0, e)) = (Z.of_nat (choice e).1, (choice e).2).
Proof.
  unfold choice. destruct RANDOM; [|done]. pose proof (next_bit_range e). cbn [fst snd].
  rewrite Z2Nat.id by lia. by destruct (next_bit e).
Qed.

Lemma choice_lt e : ((choice e).1 < LENGTH)%nat.
Proof.
  unfold choice, FreeList.LENGTH. destruct RANDOM; cbn [fst]; [|lia]. pose proof (next_bit_range e). lia.
Qed.

Lemma building_at s σ i : related s σ → (i < LENGTH)%nat → ∃ l, building σ !! i = Some l.
Proof. intros HR Hi. apply lookup_lt_is_Some. by rewrite (r_lists _ _ HR). Qed.

Lemma queue_link s σ i l : related s σ → building σ !! i = Some l → link (end_of (head i) l).
Proof.
  intros HR Hi. destruct (end_of_elem (head i) l) as [->|Hin].
  - apply link_head. by apply (building_lt s σ HR i l).
  - left. by apply (building_obj s σ HR i l).
Qed.

Lemma free_add (σ : queues) i l p : building σ !! i = Some l →
  concat (alter (λ l, l ++ [p]) i (building σ)) ++ taking σ ≡ₚ p :: free_objects σ.
Proof. intros Hi. by rewrite (concat_alter_snoc _ i l) by done. Qed.

Lemma add_refined p s σ : related s σ → allowed (Add p) σ → refined (Add p) s σ.
Proof.
  intros HR (Hp&Hfree&Hbound). unfold refined. cbn [step spec_step fst snd].
  destruct (choice (bits σ)) as [i e'] eqn:Ech. cbn [fst snd].
  assert (Hi : (i < LENGTH)%nat) by (pose proof (choice_lt (bits σ)) as H; by rewrite Ech in H).
  destruct (building_at s σ i HR Hi) as [l Hl].
  destruct (building_nodup s σ HR i l Hl) as (Hnd&Hndh&Hobj).
  destruct (r_chain _ _ HR i l Hl) as [Hend Hchain].
  assert (Hwp : wp (add mit RANDOM (builder s) p key (entropy s)) (mem s) (λ r m,
    related (mkState m r.1 (fl s) r.2)
      (mkQueues (alter (λ l, l ++ [p]) i (building σ)) (taking σ) e'
        (delete p (delete (p + 8) (client σ)))))).
  { unfold add. rewrite choice_eq, <- (r_bits _ _ HR), Ech. cbn [fst snd]. rewrite Nat2Z.id.
    apply wp_bind, (wp_get_end _ _ i _ _ Hend), wp_bind.
    apply wp_store_next; [apply (r_dom _ _ HR)|by apply (queue_link s σ)|done|].
    intros m Hdom Hlast Hsig Hg.
    destruct (others_keep s σ HR i l p m Hl) as (Hothers&Hiter&Hclient); [by left|..].
    { intros x Hx. apply Hg. pose proof (obj_ne0 p Hp). naive_solver. }
    assert (Hnew : chain m (head i) (l ++ [p])).
    { apply (chain_snoc (mem s)); try done; [by apply link_head|].
      intros Hin. apply Hfree. by apply (building_obj s σ HR i l). }
    assert (Hperm := free_add σ i l p Hl).
    assert (Hrel : ∀ b, head_ b = hd → end_ b = <[i := p]> (end_ (builder s)) →
      (RANDOM = true → length_ b = <[i := Z.of_nat (length l) + 1]> (length_ (builder s))) →
      related (mkState m b (fl s) e') (mkQueues (alter (λ l, l ++ [p]) i (building σ)) (taking σ) e'
          (delete p (delete (p + 8) (client σ))))).
    { intros b Hb1 Hb2 Hb3. constructor; cbn [mem builder fl entropy building taking bits]; try done.
      - by rewrite length_alter, (r_lists _ _ HR).
      - intros j l' Hj. rewrite Hb2. destruct (decide (j = i)) as [->|Hne].
        + rewrite list_lookup_alter_eq, Hl in Hj. injection Hj as <-.
          rewrite end_of_snoc, list_lookup_insert_eq by (by apply lookup_lt_Some in Hend). done.
        + rewrite list_lookup_alter_ne in Hj by done. rewrite list_lookup_insert_ne by done.
          split; [by apply (r_chain _ _ HR)|by apply Hothers].
      - intros Hr j l' Hj. rewrite (Hb3 Hr). destruct (decide (j = i)) as [->|Hne].
        + rewrite list_lookup_alter_eq, Hl in Hj. injection Hj as <-.
          pose proof (r_length _ _ HR Hr i l Hl) as Hlen.
          rewrite list_lookup_insert_eq by (by apply lookup_lt_Some in Hlen).
          rewrite length_app. cbn [length]. f_equal. lia.
        + rewrite list_lookup_alter_ne in Hj by done. rewrite list_lookup_insert_ne by done.
          by apply (r_length _ _ HR).
      - unfold free_objects. cbn [building taking]. rewrite Hperm. apply Forall_cons.
        split; [done|apply (r_objs _ _ HR)].
      - unfold free_objects. cbn [building taking]. rewrite Hperm. apply NoDup_cons.
        split; [done|apply (r_nodup _ _ HR)].
      - unfold free_objects. cbn [building taking]. rewrite Hperm. cbn [length]. lia.
      - cbn [client]. intros a v Ha. apply lookup_delete_Some in Ha as [Hap [Hap8 Ha]%lookup_delete_Some].
        destruct (r_client _ _ HR a v Ha) as [_ [Hh Hf]]. split; [by apply Hclient|].
        split; [done|]. unfold free_objects. cbn [building taking]. intros q Hq.
        rewrite Hperm in Hq. apply elem_of_cons in Hq as [->|Hq]; [done|by apply Hf]. }
    destruct RANDOM eqn:Er.
    - pose proof (r_length _ _ HR Er i l Hl) as Hlen.
      apply wp_bind, (wp_get_length _ _ i (Z.of_nat (length l))); [done|]. apply wp_ret.
      apply Hrel; cbn; [apply (r_hd _ _ HR)|done|]. intros _. rewrite Z.mod_small; [done|].
      assert (length l ≤ length (free_objects σ))%nat; [|lia].
      unfold free_objects. rewrite length_app, <- (concat_insert_nil _ i l Hl), length_app. lia.
    - apply wp_ret, Hrel; [apply (r_hd _ _ HR)|done|done]. }
  apply wp_run in Hwp as ([b e]&m&E&Hrel). rewrite E. cbn [mbind result_bind].
  by eexists.
Qed.

Lemma end_apart s σ i j l : related s σ → building σ !! i = Some l → (j < LENGTH)%nat → i ≠ j →
  end_of (head i) l ≠ head j.
Proof.
  intros HR Hl Hj Hij E. destruct (end_of_elem (head i) l) as [Ee|Hin].
  - rewrite Ee in E. unfold head in E. lia.
  - rewrite E in Hin. destruct (building_obj s σ HR i l _ Hl Hin) as [Ho _].
    by apply (ok_head HO j (head j)) in Ho as [Hq _].
Qed.

Lemma longest_lt σ : (longest (building σ) < LENGTH)%nat.
Proof. unfold longest, FreeList.LENGTH. destruct RANDOM; [destruct (decide _)|]; lia. Qed.

Lemma wp_pick s σ (Q : nat → Mem → Prop) : related s σ →
  Q (longest (building σ)) (mem s) →
  wp (if RANDOM then
       e0 ← get_end (builder s) 0; e1 ← get_end (builder s) 1;
       lift (assert_ (negb (e1 =? head_at (builder s) 0)));;
       lift (assert_ (negb (e0 =? head_at (builder s) 1)));;
       l0 ← lift (vec_at (length_ (builder s)) 0); l1 ← lift (vec_at (length_ (builder s)) 1);
       mret (if l1 <? l0 then 0%nat else 1%nat)
     else mret 0%nat) (mem s) Q.
Proof.
  intros HR HQ. unfold longest in HQ. destruct RANDOM eqn:Er; [|by apply wp_ret].
  assert (HL : LENGTH = 2%nat) by (unfold FreeList.LENGTH; by rewrite Er).
  destruct (building_at s σ 0 HR) as [l0 H0]; [rewrite HL; lia|].
  destruct (building_at s σ 1 HR) as [l1 H1]; [rewrite HL; lia|].
  rewrite H0, H1 in HQ. change (default [] (Some ?x)) with x in HQ.
  destruct (r_chain _ _ HR 0%nat l0 H0) as [E0 _]. destruct (r_chain _ _ HR 1%nat l1 H1) as [E1 _].
  apply wp_bind, (wp_get_end _ _ _ _ _ E0), wp_bind, (wp_get_end _ _ _ _ _ E1).
  unfold head_at. rewrite (r_hd _ _ HR). fold (head 0) (head 1).
  apply wp_bind, wp_assert.
  { apply negb_true_iff, Z.eqb_neq, (end_apart s σ 1 0 l1 HR H1); [rewrite HL; lia|done]. }
  apply wp_bind, wp_assert.
  { apply negb_true_iff, Z.eqb_neq, (end_apart s σ 0 1 l0 HR H0); [rewrite HL; lia|done]. }
  apply wp_bind, (wp_get_length _ _ _ _ _ (r_length _ _ HR Er 0%nat l0 H0)).
  apply wp_bind, (wp_get_length _ _ _ _ _ (r_length _ _ HR Er 1%nat l1 H1)), wp_ret.
  revert HQ. destruct (Z.ltb_spec (Z.of_nat (length l1)) (Z.of_nat (length l0))),
    (decide (length l1 < length l0)%nat); first [lia|done].
Qed.

(** The state after the queue [i] has been emptied. *)
Lemma related_emptied s σ i l m b it taken : related s σ → building σ !! i = Some l →
  dom m = words → head_ b = hd → end_ b = <[i := head i]> (end_ (builder s)) →
  (RANDOM = true → length_ b = <[i := 0]> (length_ (builder s))) →
  (∀ j l', j ≠ i → building σ !! j = Some l' → chain m (head j) l') →
  iter_at m (prev_ it) (curr_ it) taken →
  taken = l ∨ taken = taking σ →
  (∀ a v, client σ !! a = Some v → m !! a = Some v) →
  related (mkState m b it (entropy s)) (mkQueues (<[i := []]> (building σ)) taken (bits σ) (client σ)).
Proof.
  intros HR Hl Hdom Hb1 Hb2 Hb3 Hothers Hit Htaken Hclient.
  pose proof (proj1 (r_chain _ _ HR i l Hl)) as Hend.
  pose proof (concat_insert_nil _ i l Hl) as Hperm.
  assert (Hsub : ∃ rest, free_objects σ ≡ₚ (concat (<[i := []]> (building σ)) ++ taken) ++ rest).
  { unfold free_objects. destruct Htaken as [-> |  -> ].
    - exists (taking σ). by rewrite <- Hperm, (Permutation_app_comm l).
    - exists l. rewrite <- Hperm, <- !(assoc_L (++)). by rewrite Permutation_app_comm, <- !(assoc_L (++)). }
  destruct Hsub as [rest Hsub].
  pose proof (r_objs _ _ HR) as Hobjs. pose proof (r_nodup _ _ HR) as Hnd. pose proof (r_bound _ _ HR) as Hbd.
  assert (Hused : ∀ a, not_used a σ →
    not_used a (mkQueues (<[i := []]> (building σ)) taken (bits σ) (client σ))).
  { intros a [Hh Hf]. split; [done|]. intros p Hp. apply Hf. rewrite Hsub.
    unfold free_objects in Hp. cbn [building taking] in Hp. set_solver. }
  rewrite Hsub in Hobjs, Hnd, Hbd. apply Forall_app in Hobjs as [Hobjs _].
  apply NoDup_app in Hnd as (Hnd&_&_). rewrite length_app in Hbd.
  constructor; cbn [mem builder fl entropy building taking bits]; try done.
  - by rewrite length_insert, (r_lists _ _ HR).
  - intros j l' Hj. rewrite Hb2. destruct (decide (j = i)) as [->|Hne].
    + rewrite list_lookup_insert_eq in Hj by (by apply lookup_lt_Some in Hl). injection Hj as <-.
      by rewrite list_lookup_insert_eq by (by apply lookup_lt_Some in Hend).
    + rewrite list_lookup_insert_ne in Hj by done. rewrite list_lookup_insert_ne by done.
      split; [by apply (r_chain _ _ HR)|by apply Hothers].
  - intros Hr j l' Hj. rewrite (Hb3 Hr). destruct (decide (j = i)) as [->|Hne].
    + rewrite list_lookup_insert_eq in Hj by (by apply lookup_lt_Some in Hl). injection Hj as <-.
      pose proof (r_length _ _ HR Hr i l Hl) as Hlen.
      by rewrite list_lookup_insert_eq by (by apply lookup_lt_Some in Hlen).
    + rewrite list_lookup_insert_ne in Hj by done. rewrite list_lookup_insert_ne by done.
      by apply (r_length _ _ HR).
  - unfold free_objects. cbn [building taking]. lia.
  - apply (r_bits _ _ HR).
  - intros a v Ha. split; [by apply Hclient|apply Hused]. by apply (r_client _ _ HR a v).
Qed.

Lemma close_refined s σ : related s σ → refined Close s σ.
Proof.
  intros HR. unfold refined. cbn [step spec_step fst snd].
  set (i := longest (building σ)). pose proof (longest_lt σ) as Hi. fold i in Hi.
  destruct (building_at s σ i HR Hi) as [l Hl].
  destruct (building_nodup s σ HR i l Hl) as (Hnd&Hndh&Hobj).
  destruct (r_chain _ _ HR i l Hl) as [Hend Hchain]. rewrite Hl. change (default [] (Some ?x)) with x.
  set (n := if RANDOM then Z.of_nat (length (default [] (building σ !! (1 - i)%nat))) else 0).
  assert (Hwp : wp (close mit RANDOM (builder s) key) (mem s) (λ r m, r.1.1 = n ∧
    related (mkState m r.2 r.1.2 (entropy s)) (mkQueues (<[i := []]> (building σ)) l (bits σ) (client σ)))).
  { unfold close. apply wp_bind, (wp_pick s σ); [done|]. fold i.
    unfold terminate_list. apply wp_bind, wp_bind, (wp_get_end _ _ i _ _ Hend).
    apply wp_store; [apply (r_dom _ _ HR)|by apply link_mapped, (queue_link s σ)|].
    intros m Hdom Hnull Hg.
    destruct (others_keep s σ HR i l 0 m Hl) as (Hothers&_&Hclient); [by right|..].
    { intros x Hx. apply Hg. naive_solver. }
    destruct (chain_iter m (head i) l) as [Hhd Hit]; [done..|by apply (chain_last_free (mem s)), Hchain; try done; apply link_head|].
    apply wp_bind, (wp_read_head _ _ _ _ _ (r_hd _ _ HR) Hhd).
    apply wp_bind, (wp_fake_signed_prev _ _ _ _ _ (r_hd _ _ HR) Hhd).
    assert (Hhead : head_at (builder s) i = head i) by (unfold head_at; by rewrite (r_hd _ _ HR)).
    rewrite Hhead.
    assert (Hrel : ∀ b, head_ b = hd → end_ b = <[i := head i]> (end_ (builder s)) →
      (RANDOM = true → length_ b = <[i := 0]> (length_ (builder s))) →
      related (mkState m b (mkIter (signed (head i) (default 0 (list.head l))) (default 0 (list.head l))) (entropy s))
        (mkQueues (<[i := []]> (building σ)) l (bits σ) (client σ))).
    { intros b Hb1 Hb2 Hb3. apply (related_emptied s σ i l); try done; [by left|].
      intros a v Ha. by apply Hclient. }
    subst n. pose proof (r_hd _ _ HR) as Hb. destruct RANDOM eqn:Er.
    - destruct (building_at s σ (1 - i) HR) as [l' Hl'].
      { unfold FreeList.LENGTH. rewrite Er. lia. }
      assert (Hne : i ≠ (1 - i)%nat) by lia.
      pose proof (r_length _ _ HR Er (1 - i)%nat l' Hl') as Hlen.
      rewrite Hl'. change (default [] (Some ?x)) with x.
      apply wp_bind, (wp_get_length _ _ _ (Z.of_nat (length l'))).
      { unfold set_length, set_end. cbn [length_]. by rewrite list_lookup_insert_ne. }
      apply wp_ret. cbn [fst snd]. split; [done|]. by apply Hrel.
    - apply wp_ret. cbn [fst snd]. split; [done|]. by apply Hrel. }
  apply wp_run in Hwp as ([[n' it] b]&m&E&Hn&Hrel). cbn [fst snd] in *. rewrite E.
  cbn [mbind result_bind]. subst n'. by eexists.
Qed.

Lemma take_refined s σ : related s σ → allowed Take σ → refined Take s σ.
Proof.
  intros HR Hne. unfold refined. cbn [step spec_step fst snd allowed] in *.
  destruct (taking σ) as [|p l] eqn:Et; [done|]. cbn [list.head drop].
  change (default 0 (Some p)) with p.
  assert (Hsub : free_objects σ ≡ₚ p :: concat (building σ) ++ l).
  { unfold free_objects. rewrite Et. by rewrite Permutation_middle. }
  pose proof (r_objs _ _ HR) as Hobjs. pose proof (r_nodup _ _ HR) as Hnd. pose proof (r_bound _ _ HR) as Hbd.
  rewrite Hsub in Hobjs, Hnd, Hbd. apply Forall_cons in Hobjs as [Hp Hobjs]. apply NoDup_cons in Hnd as [Hpn Hnd].
  pose proof (r_iter _ _ HR) as Hit. rewrite Et in Hit.
  assert (Hwp : wp (take_ mit domesticate key (fl s)) (mem s) (λ r m, r.1 = p ∧
    related (mkState m (builder s) r.2 (entropy s)) (mkQueues (building σ) l (bits σ) (client σ)))).
  { destruct (fl s) as [prev c]. apply (wp_take _ _ _ p l); [apply (r_dom _ _ HR)|done| | |done|].
    - by apply Forall_app in Hobjs as [_ Hq].
    - intros Hin. apply Hpn. set_solver.
    - intros m it Hdom Hit' Hg. split; [done|].
      constructor; cbn [mem builder fl entropy building taking bits]; try apply HR; try done.
      + intros i l' Hl'. destruct (r_chain _ _ HR i l' Hl') as [He Hc]. split; [done|].
        apply (chain_agree _ _ _ _ _ Hg); [| |done].
        * destruct (ok_head HO i p (building_lt s σ HR i l' Hl') Hp). naive_solver.
        * intros q Hq. destruct (building_obj s σ HR i l' q Hl' Hq) as [Ho _].
          assert (q ≠ p).
          { intros ->. apply Hpn. apply elem_of_app. left. by apply (concat_elem _ i l'). }
          pose proof (ok_apart HO q p Ho Hp). pose proof (ok_apart HO p q Hp Ho).
          split; [naive_solver|]. intros [?|?]; [by subst|]. lia.
      + unfold free_objects. cbn [building taking]. cbn [length] in Hbd. lia.
      + intros a v Ha. destruct (r_client _ _ HR a v Ha) as [Hv [Hh Hf]].
        assert (a ≠ p ∧ a ≠ p + 8) as [Hap Hap8].
        { apply Hf. rewrite Hsub. by left. }
        split; [rewrite Hg; [done|naive_solver]|]. split; [done|]. intros q Hq. apply Hf. rewrite Hsub.
        by right. }
  apply wp_run in Hwp as ([p' it]&m&E&Hn&Hrel). cbn [fst snd] in *. rewrite E.
  cbn [mbind result_bind]. subst p'. by eexists.
Qed.

Lemma write_refined a v s σ : related s σ → allowed (Write a v) σ → refined (Write a v) s σ.
Proof.
  intros HR (Ha&Hu). pose proof Hu as [Hhead Hfree]. unfold refined. cbn [step spec_step fst snd].
  assert (Hwp : wp (store a v) (mem s) (λ _ m,
    related (mkState m (builder s) (fl s) (entropy s))
      (mkQueues (building σ) (taking σ) (bits σ) (<[a := v]> (client σ))))).
  { apply wp_store; [apply HR|done|]. intros m Hdom Hv Hg.
    constructor; cbn [mem builder fl entropy building taking bits client]; try apply HR; try done.
    - intros i l Hl. destruct (r_chain _ _ HR i l Hl) as [He Hc]. split; [done|].
      apply (chain_agree _ _ _ _ _ Hg); [| |done].
      + intros E. by apply (Hhead i); [apply (building_lt s σ HR i l)|].
      + intros p Hp. destruct (building_obj s σ HR i l p Hl Hp) as [_ Hf].
        destruct (Hfree p Hf). naive_solver.
    - apply (iter_agree _ _ _ _ _ _ Hg); [|apply HR]. intros p Hp.
      destruct (taking_obj s σ HR p Hp) as [_ Hf]. destruct (Hfree p Hf). naive_solver.
    - intros b w [[<- <-]|[Hab Hb]]%lookup_insert_Some; [done|].
      destruct (r_client _ _ HR b w Hb) as [Hw Hub]. split; [|done]. rewrite Hg; [done|congruence]. }
  apply wp_run in Hwp as (u&m&E&Hrel). rewrite E. by eexists.
Qed.

Lemma read_refined a s σ : related s σ → allowed (Read a) σ → refined (Read a) s σ.
Proof.
  intros HR [v Hv]. unfold refined. cbn [step spec_step fst snd]. rewrite Hv.
  destruct (r_client _ _ HR a v Hv) as [Hm _]. unfold load. rewrite Hm. cbn [mbind result_bind].
  eexists. split; [done|]. by destruct s.
Qed.

Lemma wp_validate_all s σ k i (Q : unit → Mem → Prop) : related s σ → (i + k = LENGTH)%nat →
  Q tt (mem s) → wp (validate_all mit domesticate RANDOM k i key (builder s)) (mem s) Q.
Proof.
  intros HR. revert i. induction k as [|k IH]; intros i Hi HQ; cbn [validate_all]; [by apply wp_ret|].
  destruct (building_at s σ i HR) as [l Hl]; [lia|].
  destruct (r_chain _ _ HR i l Hl) as [Hend Hchain].
  destruct (building_nodup s σ HR i l Hl) as (Hnd&Hndh&Hobj).
  assert (Hhead : head_at (builder s) i = head i) by (unfold head_at; by rewrite (r_hd _ _ HR)).
  apply wp_bind, (wp_get_end _ _ _ _ _ Hend), wp_bind. rewrite Hhead.
  assert (Hcheck : ∀ n, n = Z.of_nat (length l) →
    wp (if RANDOM then l ← lift (vec_at (length_ (builder s)) i); check_client (n =? l) else mret tt)
      (mem s) (λ _ m, wp (validate_all mit domesticate RANDOM k (S i) key (builder s)) m Q)).
  { intros n ->. assert (Hrest := IH (S i) ltac:(lia) HQ). destruct RANDOM eqn:Er; [|by apply wp_ret].
    apply wp_bind, (wp_get_length _ _ _ _ _ (r_length _ _ HR Er i l Hl)).
    unfold check_client. rewrite Z.eqb_refl. by apply (wp_lift _ tt). }
  destruct l as [|p l].
  - cbn [end_of]. rewrite Z.eqb_refl.
    assert (Hrest := IH (S i) ltac:(lia) HQ). destruct RANDOM eqn:Er; [|by apply wp_ret].
    apply wp_bind, (wp_get_length _ _ _ _ _ (r_length _ _ HR Er i [] Hl)).
    by apply (wp_lift _ tt).
  - assert (Hne : head i ≠ end_of (head i) (p :: l)).
    { cbn [end_of]. apply NoDup_cons in Hndh as [Hin _]. by apply end_of_ne. }
    rewrite (proj2 (Z.eqb_neq _ _) Hne). destruct Hchain as (H1&H2&H3).
    apply wp_bind, (wp_read_head _ _ _ p _ (r_hd _ _ HR) H1).
    apply wp_bind, (wp_fake_signed_prev _ _ _ p _ (r_hd _ _ HR) H1), wp_bind.
    apply (wp_validate_loop _ (mem s) (head i) p l 1); [done|done|by split|..].
    + pose proof (objects_bound (mem s) (p :: l) (r_dom _ _ HR) Hobj Hnd). cbn [length] in *. lia.
    + apply Hcheck. cbn [length]. lia.
Qed.

Lemma validate_refined s σ : related s σ → refined Validate s σ.
Proof.
  intros HR. unfold refined. cbn [step spec_step fst snd].
  assert (Hwp : wp (validate mit domesticate RANDOM (builder s) key) (mem s) (λ _ m, m = mem s)).
  { unfold validate. destruct (freelist_teardown_validate mit); [|by apply wp_ret].
    by apply (wp_validate_all s σ). }
  apply wp_run in Hwp as (u&m&E&->). rewrite E. cbn [mbind result_bind].
  eexists. split; [done|]. by destruct s.
Qed.

Lemma wp_init_loop k i slab b m (Q : Builder → Mem → Prop) :
  dom m = words → head_ b = hd → (i + k = LENGTH)%nat →
  (∀ m' b', dom m' = words → head_ b' = hd →
    length (end_ b') = length (end_ b) → length (length_ b') = length (length_ b) →
    (∀ j, (j < length (end_ b))%nat → end_ b' !! j = if decide (i ≤ j < i + k)%nat then Some (head j) else end_ b !! j) →
    (RANDOM = true → ∀ j, (j < length (length_ b))%nat →
      length_ b' !! j = if decide (i ≤ j < i + k)%nat then Some 0 else length_ b !! j) →
    agree (λ x, ∃ j, (j < LENGTH)%nat ∧ x = head j) m m' → Q b' m') →
  wp (init_loop mit RANDOM k i slab key b) m Q.
Proof.
  revert i b m. induction k as [|k IH]; intros i b m Hm Hb Hi HQ; cbn [init_loop].
  { apply wp_ret, HQ; try done; [intros j Hj|intros Hr j Hj]; by rewrite decide_False by lia. }
  set (b1 := if RANDOM then _ else _).
  assert (Hb1 : head_ b1 = hd) by (unfold b1; by destruct RANDOM).
  assert (He1 : end_ b1 = <[i := head i]> (end_ b)).
  { unfold b1, head_at. rewrite Hb. by destruct RANDOM. }
  assert (Hl1 : length_ b1 = if RANDOM then <[i := 0]> (length_ b) else length_ b) by (unfold b1; by destruct RANDOM).
  clearbody b1. apply wp_bind. unfold head_at. rewrite Hb1.
  apply wp_store; [done|by apply (ok_mapped_head HO); lia|]. intros m1 H1 _ Hg1.
  apply IH; [done|done|lia|]. intros m2 b2 H2 Hh2 Hle Hll He2 Hl2 Hg2.
  assert (Hlen : length (length_ b1) = length (length_ b)) by (rewrite Hl1; destruct RANDOM; [by rewrite length_insert|done]).
  rewrite He1, length_insert in Hle, He2. rewrite Hlen in Hll, Hl2.
  apply HQ; [done..| | |].
  - intros j Hj. rewrite He2 by done. destruct (decide (i = j)) as [->|Hne].
    + rewrite decide_False, decide_True by lia. by apply list_lookup_insert_eq.
    + rewrite list_lookup_insert_ne by done. destruct (decide (S i ≤ j < S i + k)%nat), (decide (i ≤ j < i + S k)%nat);
        first [done|lia].
  - intros Hr j Hj. rewrite Hl2 by done. rewrite Hl1, Hr. destruct (decide (i = j)) as [->|Hne].
    + rewrite decide_False, decide_True by lia. by apply list_lookup_insert_eq.
    + rewrite list_lookup_insert_ne by done. destruct (decide (S i ≤ j < S i + k)%nat), (decide (i ≤ j < i + S k)%nat);
        first [done|lia].
  - intros a Ha. rewrite Hg2 by done. apply Hg1. intros ->. apply Ha. exists i. split; [lia|done].
Qed.

Lemma extract_refined s σ : related s σ → allowed Extract σ → refined Extract s σ.
Proof.
  intros HR [Er Hne]. unfold refined. cbn [step spec_step fst snd].
  assert (HL : LENGTH = 1%nat) by (unfold FreeList.LENGTH; by rewrite Er).
  pose proof (r_lists _ _ HR) as Hlen. rewrite HL in Hlen.
  destruct (building σ) as [|l [|]] eqn:Hbu; [done| |done]. cbn [lookup list_lookup].
  change (default [] (Some ?x)) with x.
  assert (Hl : building σ !! 0%nat = Some l) by by rewrite Hbu.
  destruct l as [|p l]; [done|]. cbn [list.head]. change (default 0 (Some p)) with p.
  destruct (r_chain _ _ HR 0%nat _ Hl) as [Hend Hchain].
  destruct (building_nodup s σ HR 0%nat _ Hl) as (Hnd&Hndh&Hobj).
  assert (Hhead : head_at (builder s) 0 = head 0) by (unfold head_at; by rewrite (r_hd _ _ HR)).
  assert (Hwp : wp (extract_segment mit RANDOM (builder s) key) (mem s) (λ r m,
    r.1 = (p, end_of (head 0) (p :: l)) ∧
    related (mkState m r.2 (fl s) (entropy s)) (mkQueues [[]] (taking σ) (bits σ) (client σ)))).
  { unfold extract_segment. apply wp_bind, wp_assert.
    { unfold empty. rewrite HL. cbn [seq forallb]. rewrite Hhead, Hend, bool_decide_false; [done|].
      intros E. apply NoDup_cons in Hndh as [Hin _]. apply (end_of_ne (head 0) p l Hin). by injection E. }
    destruct Hchain as (H1&_).
    apply wp_bind, (wp_read_head _ _ _ p _ (r_hd _ _ HR) H1).
    apply wp_bind, (wp_get_end _ _ _ _ _ Hend), wp_bind. rewrite Hhead.
    apply (wp_load_word _ _ _ _ H1), wp_bind. unfold init. rewrite HL.
    apply wp_init_loop; [apply HR|apply HR|by rewrite HL|].
    intros m b Hm Hb Hle Hll He Hlb Hg. apply wp_ret. cbn [fst snd]. split; [done|].
    replace [[]] with (<[0%nat := []]> (building σ)) by by rewrite Hbu.
    pose proof (lookup_lt_Some _ _ _ Hend) as Hlt.
    apply (related_emptied s σ 0 (p :: l)); try done.
    - apply list_eq. intros j. destruct (decide (j < length (end_ (builder s)))%nat) as [Hj|Hj].
      + rewrite He by done. destruct (decide (0%nat = j)) as [<-|Hj0].
        * by rewrite decide_True, list_lookup_insert_eq by lia.
        * by rewrite decide_False, list_lookup_insert_ne by lia.
      + rewrite !lookup_ge_None_2; [done|rewrite length_insert; lia|lia].
    - rewrite Er. done.
    - intros j l' Hj0 Hj. rewrite Hbu in Hj. destruct j; done.
    - apply (iter_agree _ _ _ _ _ _ Hg); [|apply HR]. intros q Hq.
      destruct (taking_obj s σ HR q Hq) as [Ho _].
      split; intros (j&Hj&E); destruct (ok_head HO j q Hj Ho); congruence.
    - by right.
    - intros a v Ha. destruct (r_client _ _ HR a v Ha) as [Hv [Hh _]]. rewrite Hg; [done|].
      intros (j&Hj&->). by apply (Hh j). }
  apply wp_run in Hwp as ([[f e] b]&m&E&Hn&Hrel). cbn [fst snd] in *. rewrite E.
  cbn [mbind result_bind]. injection Hn as -> ->. by eexists.
Qed.

Lemma step_refined o s σ : related s σ → allowed o σ → refined o s σ.
Proof.
  destruct o; intros HR Ho.
  - by apply add_refined.
  - by apply close_refined.
  - by apply take_refined.
  - by apply extract_refined.
  - by apply validate_refined.
  - by apply write_refined.
  - by apply read_refined.
Qed.

Lemma run_refined ops s σ : related s σ → all_allowed ops σ →
  ∃ s', run ops s = Ok (spec_run ops σ, s').
Proof.
  revert s σ. induction ops as [|o ops IH]; intros s σ HR Ho; [by eexists|].
  destruct Ho as [Ho Hrest]. destruct (step_refined o s σ HR Ho) as (s1&E&HR1).
  destruct (IH s1 _ HR1 Hrest) as (s2&E2). cbn [run spec_run]. rewrite E. cbn [mbind result_bind].
  rewrite E2. by eexists.
Qed.

(** A builder that has just been initialised holds nothing. *)
Lemma init_related slab e0 l0 m e : dom m = words → length e0 = LENGTH →
  (RANDOM = true → length l0 = LENGTH) →
  ∃ b m', init mit RANDOM (mkBuilder hd e0 l0) slab key m = Ok (b, m') ∧
    related (mkState m' b (mkIter 0 0) e) (mkQueues (replicate LENGTH []) [] e ∅).
Proof.
  intros Hm He Hl. apply (wp_run (init mit RANDOM (mkBuilder hd e0 l0) slab key) m (λ b m',
    related (mkState m' b (mkIter 0 0) e) (mkQueues (replicate LENGTH []) [] e ∅))).
  apply wp_init_loop; [done..|]. cbn [head_ end_ length_].
  intros m' b Hm' Hb Hle Hll He' Hl' _. rewrite He in He'.
  assert (Hnone : concat (replicate LENGTH []) = @nil Z) by (generalize LENGTH; by induction n).
  assert (Hfree : free_objects (mkQueues (replicate LENGTH []) [] e ∅) = []).
  { unfold free_objects. cbn [building taking]. by rewrite Hnone. }
  constructor; cbn [mem builder fl entropy building taking bits client]; rewrite ?Hfree; try done.
  - by rewrite length_replicate.
  - intros i l [-> Hi]%lookup_replicate. rewrite He' by done. by rewrite decide_True by lia.
  - intros Hr i l [-> Hi]%lookup_replicate. rewrite Hl' by (done || by rewrite Hl).
    by rewrite decide_True by lia.
  - by apply NoDup_nil.
Qed.

(** An object whose signature has been overwritten is not handed out. *)
Lemma take_detects s σ p l w : related s σ → taking σ = p :: l → freelist_backward_edge mit = true →
  w ≠ prev_ (fl s) →
  step Take (mkState (<[p + 8 := w]> (mem s)) (builder s) (fl s) (entropy s)) = Err RuntimeError.
Proof.
  intros HR Et Hb Hw. pose proof (r_iter _ _ HR) as Hit. rewrite Et in Hit.
  destruct Hit as (Hc&_&n&Hn&_). cbn [step mem fl builder entropy]. unfold take_, read_next, check_prev.
  rewrite Hb, Hc. unfold mbind, M_bind, load, prev_encoded.
  rewrite lookup_insert_ne by lia. rewrite Hn. cbn. rewrite lookup_insert_eq.
  unfold check_client. by rewrite (proj2 (Z.eqb_neq _ _)) by done.
Qed.

End Spec.

(** C8: A builder of free lists and the iterator that is taken from are queues of objects:
    from an initialised builder every sequence of calls runs without a fault and answers as
    the queues do, whatever the keys and the random bits are, with every combination of
    mitigations, and whatever the client writes to memory of its own in between; the client
    reads back what it has written. *)
Theorem freelist_refines mit domesticate RANDOM key obj hd words slab e0 l0 m e ops :
  objects_ok domesticate RANDOM obj hd words → dom m = words →
  length e0 = LENGTH RANDOM → (RANDOM = true → length l0 = LENGTH RANDOM) →
  let σ := mkQueues (replicate (LENGTH RANDOM) []) [] e ∅ in
  all_allowed RANDOM obj hd words ops σ →
  ∃ b m' s, init mit RANDOM (mkBuilder hd e0 l0) slab key m = Ok (b, m') ∧
    run mit domesticate RANDOM key ops (mkState m' b (mkIter 0 0) e) = Ok (spec_run RANDOM hd ops σ, s).
Proof.
  intros HO Hm He Hl σ Ho.
  destruct (init_related mit domesticate RANDOM key obj hd words HO slab e0 l0 m e) as (b&m'&E&HR); [done..|].
  destruct (run_refined mit domesticate RANDOM key obj hd words HO ops _ σ HR Ho) as (s&Er).
  by exists b, m', s.
Qed.

(** Three objects and a builder with two lists and all mitigations. *)
Definition sample_objects : list Z := [1000; 1016; 1032].
Definition sample_words : list Z := [500; 508; 1000; 1008; 1016; 1024; 1032; 1040].
Definition sample_mem : gmap Z Z := list_to_map ((λ a, (a, 0)) <$> sample_words).
Definition sample_key : FreeListKey := mkKey 3735928559 3203391149 3735928559.
Definition sample_ops : list op :=
  [Write 1000 7; Read 1000; Add 1000; Add 1016; Add 1032; Validate; Close; Take; Write 1008 9; Read 1008;
   Close; Take; Add 1016].

Lemma sample_objects_ok : objects_ok (λ p, p) true (λ p, p ∈ sample_objects) 500 (list_to_set sample_words).
Proof.
  assert (Hp : ∀ p, p ∈ sample_objects → p = 1000 ∨ p = 1016 ∨ p = 1032) by (unfold sample_objects; set_solver).
  constructor.
  - intros H%Hp. lia.
  - intros p q Hp1%Hp Hq%Hp. lia.
  - intros i p Hi Hp1%Hp. unfold head. cbn in Hi. lia.
  - intros p [-> | [-> | ->]]%Hp; split; apply (bool_decide_unpack _); by vm_compute.
  - intros [|[|i]] Hi; cbn in Hi; try lia; apply (bool_decide_unpack _); by vm_compute.
  - done.
Qed.

Definition sample_entropy : LocalEntropy := mkEntropy 4 0 0 0 0 sample_key.

Lemma freelist_refines_witness :
  ∃ b m' s, init (mkMitigations true true true true) true (mkBuilder 500 [0; 0] [0; 0]) 1000 sample_key sample_mem
      = Ok (b, m') ∧
    run (mkMitigations true true true true) (λ p, p) true sample_key sample_ops
      (mkState m' b (mkIter 0 0) sample_entropy)
    = Ok ([Done; Value 7; Done; Done; Done; Done; Count 1; Ptr 1000; Done; Value 9; Count 0; Ptr 1016; Done], s).
Proof.
  apply (freelist_refines (mkMitigations true true true true) (λ p, p) true sample_key
    (λ p, p ∈ sample_objects) 500 (list_to_set sample_words) 1000 [0; 0] [0; 0] sample_mem sample_entropy
    sample_ops).
  - apply sample_objects_ok.
  - unfold sample_mem. by rewrite dom_list_to_map_L.
  - done.
  - done.
  - apply (bool_decide_unpack _). by vm_compute.
Defined.

(** A builder with one list, whose objects are sent away as a segment. *)
Lemma segment_run :
  ∃ b m' s, init (mkMitigations false false false false) false (mkBuilder 500 [0] []) 1000 sample_key sample_mem
      = Ok (b, m') ∧
    run (mkMitigations false false false false) (λ p, p) false sample_key [Add 1016; Add 1000; Extract; Add 1032]
      (mkState m' b (mkIter 0 0) sample_entropy) = Ok ([Done; Done; Segment 1016 1000; Done], s).
Proof. do 3 eexists. split; vm_compute; reflexivity. Qed.

End FreeListSpec.
