(* ===== verification/SeqSet.v ===== *)
(** * snmalloc, ds_core/seqset.h: sets as cyclic doubly linked lists

    A set is a head; the nodes of its elements and the head form a cycle.  A node is at
    the address of its element, so elements and nodes are the same numbers.  The store
    maps addresses to nodes, and several sets share it.

    [seqset_refines]: sets are lists of their elements, in whatever order they are used. *)

From stdpp Require Import base list numbers gmap.
From Stdlib Require Import ZArith Lia.
From S2P Require Import Prelude CInt RbTree RbRun.
Local Open Scope Z_scope.

Module SeqSet.
Import RbTree(M, M_ret, M_bind, lift) RbRun(wp, wp_ret, wp_bind, wp_mono, wp_lift, wp_assert, wp_run).
#[local] Existing Instances RbTree.M_ret RbTree.M_bind.

(** ** The operations *)

Record Node := mkNode { next : Z; prev : Z }.
Abbreviation Nodes := (gmap Z Node).

(** Reading and writing the fields of the node at [n]. *)
Definition node (n : Z) : M Nodes Node :=
  λ s, match s !! n with Some d => Ok (d, s) | None => Err Undefined end.
Definition put (n : Z) (d : Node) : M Nodes unit := λ s, Ok (tt, <[n := d]> s).
Definition set_next (n v : Z) : M Nodes unit := d ← node n; put n (mkNode v (prev d)).
Definition set_prev (n v : Z) : M Nodes unit := d ← node n; put n (mkNode (next d) v).

Definition invariant (n : Z) : M Nodes unit :=
  d ← node n;
  lift (assert_ (negb (next d =? 0)));;
  lift (assert_ (negb (prev d =? 0)));;
  dn ← node (next d); lift (assert_ (prev dn =? n));;
  dp ← node (prev d); lift (assert_ (next dp =? n)).

Definition remove (n : Z) : M Nodes unit :=
  invariant n;;
  d ← node n; invariant (next d);; invariant (prev d);;
  set_prev (next d) (prev d);;
  d ← node n; set_next (prev d) (next d);;
  d ← node n; invariant (next d);; invariant (prev d).

(** The constructor of a set with its head at [head]. *)
Definition SeqSet_new (head : Z) : M Nodes unit := put head (mkNode head head).

Definition is_empty (head : Z) : M Nodes bool :=
  invariant head;; d ← node head; mret (next d =? head).

Definition pop_front (head : Z) : M Nodes Z :=
  invariant head;;
  e ← is_empty head; lift (assert_ (negb e));;
  d ← node head; remove (next d);; invariant head;; mret (next d).
Definition pop_back (head : Z) : M Nodes Z :=
  invariant head;;
  e ← is_empty head; lift (assert_ (negb e));;
  d ← node head; remove (prev d);; invariant head;; mret (prev d).
Definition pop (is_fifo : bool) (head : Z) : M Nodes Z :=
  invariant head;; if is_fifo then pop_front head else pop_back head.

Definition insert (head item : Z) : M Nodes unit :=
  d ← node head; set_next item (next d);;
  d ← node head; set_prev (next d) item;;
  set_prev item head;;
  set_next head item;;
  invariant item;; invariant head.

Definition peek (head : Z) : M Nodes Z := d ← node head; mret (next d).

(** [iterate] applies [f], which works on a state that the nodes are part of. *)
Section Iterate.
Context {St : Type} (nodes : St → Nodes) (with_nodes : St → Nodes → St).

Definition on_nodes {A} (m : M Nodes A) : M St A :=
  λ s, match m (nodes s) with Ok (a, n) => Ok (a, with_nodes s n) | Err e => Err e end.

Fixpoint iterate_loop (fuel : nat) (head curr : Z) (f : Z → M St unit) : M St unit :=
  match fuel with
  | O => lift (Err Diverge)
  | S fuel =>
      if curr =? head then mret tt
      else
        d ← on_nodes (node curr);
        f curr;;
        iterate_loop fuel head (next d) f
  end.

(** A set has fewer elements than there are nodes. *)
Definition iterate (head : Z) (f : Z → M St unit) : M St unit :=
  d ← on_nodes (node head);
  on_nodes (invariant (next d));;
  fuel ← on_nodes (λ n, Ok (size n, n));
  iterate_loop fuel head (next d) f.
End Iterate.

(** ** Cycles of nodes *)

Definition nx (s : Nodes) (a : Z) : option Z := next <$> s !! a.
Definition pv (s : Nodes) (a : Z) : option Z := prev <$> s !! a.
Definition link (s : Nodes) (a b : Z) : Prop := nx s a = Some b ∧ pv s b = Some a.

(** From the node [a] through those of [l] to the node [b]. *)
Fixpoint path (s : Nodes) (a : Z) (l : list Z) (b : Z) : Prop :=
  match l with [] => link s a b | x :: l => link s a x ∧ path s x l b end.

Fixpoint last_node (a : Z) (l : list Z) : Z := match l with [] => a | x :: l => last_node x l end.

Record ring (s : Nodes) (h : Z) (l : list Z) : Prop := {
  ring_path : path s h l h; ring_nodup : NoDup (h :: l); ring_null : 0 ∉ h :: l;
}.

Lemma last_node_elem a l : last_node a l = a ∨ last_node a l ∈ l.
Proof. revert a. induction l as [|x l IH]; intros a; [by left|]. right. cbn. destruct (IH x); set_solver. Qed.

Lemma last_node_ne a x l : a ∉ x :: l → a ≠ last_node x l.
Proof. destruct (last_node_elem x l); set_solver. Qed.

Lemma last_node_snoc a l x : last_node a (l ++ [x]) = x.
Proof. revert a. induction l as [|y l IH]; intros a; [done|]. apply IH. Qed.

Lemma path_app s a l1 x l2 b : path s a (l1 ++ x :: l2) b ↔ path s a l1 x ∧ path s x l2 b.
Proof. revert a. induction l1 as [|y l1 IH]; intros a; cbn; [done|]. rewrite IH. tauto. Qed.

Lemma path_frame s s' a l b : (∀ y, y ∈ a :: l → nx s' y = nx s y) → (∀ y, y ∈ l ++ [b] → pv s' y = pv s y) →
  path s a l b → path s' a l b.
Proof.
  revert a. induction l as [|x l IH]; intros a Hn Hp; cbn; unfold link.
  - rewrite Hn, Hp by set_solver. done.
  - rewrite Hn, Hp by set_solver. intros [H1 H2]. split; [done|]. apply IH; set_solver.
Qed.

(** A path may lead to another node at its end. *)
Lemma path_retarget s s' a l b b' : path s a l b → NoDup (a :: l) →
  (∀ y, y ∈ a :: l → y ≠ last_node a l → nx s' y = nx s y) → (∀ y, y ∈ l → pv s' y = pv s y) →
  link s' (last_node a l) b' → path s' a l b'.
Proof.
  revert a. induction l as [|x l IH]; intros a Hs Hnd Hn Hp Hl; cbn in *; [done|].
  destruct Hs as [[H1 H2] H3]. apply NoDup_cons in Hnd as [Ha Hnd]. split.
  - split; [rewrite Hn; [done|set_solver|by apply last_node_ne]|rewrite Hp; [done|set_solver]].
  - apply IH; [done|done|set_solver|set_solver|done].
Qed.

Lemma path_first s a l b : path s a l b → link s a (default b (head l)).
Proof. destruct l; cbn; [done|]. by intros [? _]. Qed.

Lemma path_last s a l b : path s a l b → link s (last_node a l) b.
Proof. revert a. induction l as [|x l IH]; intros a; cbn; [done|]. intros [_ H]. by apply IH. Qed.

(** Every node of a ring has a predecessor and a successor in it. *)
Lemma ring_links s h l y : ring s h l → y ∈ h :: l →
  ∃ p n, link s p y ∧ link s y n ∧ p ∈ h :: l ∧ n ∈ h :: l.
Proof.
  intros [Hp Hnd H0] Hy. apply elem_of_cons in Hy as [->|Hy].
  - exists (last_node h l), (default h (head l)). split_and!; [by apply path_last|by apply path_first| |].
    + destruct (last_node_elem h l) as [->|]; set_solver.
    + destruct l; set_solver.
  - apply list_elem_of_split in Hy as (l1&l2&->). apply path_app in Hp as [H1 H2].
    exists (last_node h l1), (default h (head l2)).
    split_and!; [by apply path_last|by apply path_first| |].
    + destruct (last_node_elem h l1) as [->|]; set_solver.
    + destruct l2; set_solver.
Qed.

(** ** Steps *)

Lemma wp_node s n d (Q : Node → Nodes → Prop) : s !! n = Some d → Q d s → wp (node n) s Q.
Proof. unfold wp, node. by intros ->. Qed.

Lemma nx_Some s a b : nx s a = Some b → ∃ d, s !! a = Some d ∧ next d = b.
Proof. unfold nx. destruct (s !! a) as [d|]; [|done]. intros [= <-]. by exists d. Qed.
Lemma pv_Some s a b : pv s b = Some a → ∃ d, s !! b = Some d ∧ prev d = a.
Proof. unfold pv. destruct (s !! b) as [d|]; [|done]. intros [= <-]. by exists d. Qed.

(** Both fields of a node between [p] and [n]. *)
Lemma node_between s p y n : link s p y → link s y n → s !! y = Some (mkNode n p).
Proof.
  intros [_ (d&Hd&Hp)%pv_Some] [(d'&Hd'&Hn)%nx_Some _]. rewrite Hd in Hd'. injection Hd' as <-.
  rewrite Hd. f_equal. destruct d. cbn in *. congruence.
Qed.

(** The nodes [s'] have the fields of [s], but for those of the nodes in [l]. *)
Definition changed (l : list Z) (s s' : Nodes) : Prop :=
  dom s' = dom s ∧ ∀ y, y ∉ l → s' !! y = s !! y.

Lemma wp_set_next s n v (Q : unit → Nodes → Prop) : n ∈ dom s →
  (∀ s', changed [n] s s' → (∀ y, nx s' y = if decide (y = n) then Some v else nx s y) →
    (∀ y, pv s' y = pv s y) → Q tt s') →
  wp (set_next n v) s Q.
Proof.
  intros [d Hd]%elem_of_dom HQ. unfold set_next. apply wp_bind, (wp_node _ _ d); [done|].
  unfold wp, put. apply HQ.
  - split; [rewrite dom_insert_lookup_L; [done|by eexists]|]. intros y Hy. rewrite lookup_insert_ne; [done|set_solver].
  - intros y. unfold nx. destruct (decide (y = n)) as [->|]; [by rewrite lookup_insert_eq|by rewrite lookup_insert_ne].
  - intros y. unfold pv. destruct (decide (y = n)) as [->|]; [by rewrite lookup_insert_eq, Hd|by rewrite lookup_insert_ne].
Qed.

Lemma wp_set_prev s n v (Q : unit → Nodes → Prop) : n ∈ dom s →
  (∀ s', changed [n] s s' → (∀ y, pv s' y = if decide (y = n) then Some v else pv s y) →
    (∀ y, nx s' y = nx s y) → Q tt s') →
  wp (set_prev n v) s Q.
Proof.
  intros [d Hd]%elem_of_dom HQ. unfold set_prev. apply wp_bind, (wp_node _ _ d); [done|].
  unfold wp, put. apply HQ.
  - split; [rewrite dom_insert_lookup_L; [done|by eexists]|]. intros y Hy. rewrite lookup_insert_ne; [done|set_solver].
  - intros y. unfold pv. destruct (decide (y = n)) as [->|]; [by rewrite lookup_insert_eq|by rewrite lookup_insert_ne].
  - intros y. unfold nx. destruct (decide (y = n)) as [->|]; [by rewrite lookup_insert_eq, Hd|by rewrite lookup_insert_ne].
Qed.

Lemma link_dom s a b : link s a b → a ∈ dom s ∧ b ∈ dom s.
Proof. intros [(?&?&_)%nx_Some (?&?&_)%pv_Some]. split; apply elem_of_dom; by eexists. Qed.

Lemma wp_node_invariant s h l y (Q : unit → Nodes → Prop) : ring s h l → y ∈ h :: l → Q tt s → wp (invariant y) s Q.
Proof.
  intros Hr Hy HQ. destruct (ring_links s h l y Hr Hy) as (p&n&Hp&Hn&Hip&Hin).
  pose proof (node_between s p y n Hp Hn) as Hd.
  assert (∀ z, z ∈ h :: l → z ≠ 0) as Hnz by (intros z Hz ->; by apply (ring_null _ _ _ Hr)).
  unfold invariant. apply wp_bind, (wp_node _ _ _ _ Hd). cbn [next prev].
  apply wp_bind, wp_assert; [rewrite negb_true_iff, Z.eqb_neq; by apply Hnz|].
  apply wp_bind, wp_assert; [rewrite negb_true_iff, Z.eqb_neq; by apply Hnz|].
  destruct Hn as [_ (dn&Hdn&En)%pv_Some]. destruct Hp as [(dp&Hdp&Ep)%nx_Some _].
  apply wp_bind, (wp_node _ _ _ _ Hdn), wp_bind, wp_assert; [by apply Z.eqb_eq|].
  apply wp_bind, (wp_node _ _ _ _ Hdp), wp_assert; [by apply Z.eqb_eq|]. done.
Qed.

Lemma ring_dom s h l : ring s h l → h ∈ dom s ∧ (∀ y, y ∈ l → y ∈ dom s).
Proof.
  intros Hr. assert (∀ y, y ∈ h :: l → y ∈ dom s) as H; [|split; [|intros ??]; apply H; set_solver].
  intros y Hy. destruct (ring_links s h l y Hr Hy) as (p&n&_&Hn&_). by apply link_dom in Hn as [? _].
Qed.

Lemma last_node_app a l1 x l2 : last_node a (l1 ++ x :: l2) = last_node x l2.
Proof. revert a. induction l1 as [|y l1 IH]; intros a; [done|]. apply IH. Qed.

(** Two ends of paths are joined over the node between them. *)
Lemma ring_join s s' h l1 x l2 p n : ring s h (l1 ++ x :: l2) →
  p = last_node h l1 → n = default h (head l2) →
  (∀ y, nx s' y = if decide (y = p) then Some n else nx s y) →
  (∀ y, pv s' y = if decide (y = n) then Some p else pv s y) →
  ring s' h (l1 ++ l2).
Proof.
  intros [Hp Hnd H0] Ep En Hn Hpv. apply path_app in Hp as [H1 H2].
  assert (Hnd1 : NoDup (h :: l1 ++ l2)).
  { apply NoDup_cons in Hnd as [Hh Hnd]. apply NoDup_cons. split; [set_solver|].
    apply NoDup_app in Hnd as (Ha&Hb&Hc). apply NoDup_cons in Hc as [_ Hc]. apply NoDup_app. set_solver. }
  assert (Hnl : n = h ∨ n ∈ l2) by (subst n; destruct l2; set_solver).
  assert (Hpl : p = h ∨ p ∈ l1) by (subst p; apply last_node_elem).
  apply NoDup_cons in Hnd1 as [Hh Hnd12]. pose proof Hnd12 as (Hnd2&Hap&Hnd3)%NoDup_app.
  assert (Hfirst : path s' h l1 n).
  { apply (path_retarget s s' h l1 x n H1).
    - apply NoDup_cons. set_solver.
    - intros y Hy Hne. by rewrite Hn, decide_False by congruence.
    - intros y Hy. rewrite Hpv, decide_False; [done|]. clear Ep En. set_solver.
    - rewrite <- Ep. split; [by rewrite Hn, decide_True|by rewrite Hpv, decide_True]. }
  split; [|apply NoDup_cons; set_solver|set_solver].
  destruct l2 as [|z l2]; cbn in En; subst n; [by rewrite app_nil_r|]. apply path_app. split; [done|].
  destruct H2 as [_ H2]. apply (path_frame s); [| |done].
  - intros y Hy. rewrite Hn, decide_False; [done|]. clear Ep. set_solver.
  - intros y Hy. rewrite Hpv, decide_False; [done|]. intros ->. apply NoDup_cons in Hnd3. clear Ep. set_solver.
Qed.

Lemma wp_remove s h l1 x l2 (Q : unit → Nodes → Prop) : ring s h (l1 ++ x :: l2) →
  (∀ s', ring s' h (l1 ++ l2) → changed (h :: l1 ++ l2) s s' → Q tt s') → wp (remove x) s Q.
Proof.
  intros Hr HQ. pose proof Hr as [Hp Hnd H0]. pose proof Hp as [H1 H2]%path_app.
  set (p := last_node h l1). set (n := default h (head l2)).
  assert (Hnl : n ∈ h :: l2) by (unfold n; destruct l2; set_solver).
  assert (Hpl : p ∈ h :: l1) by (unfold p; destruct (last_node_elem h l1) as [->|]; set_solver).
  pose proof (path_last _ _ _ _ H1) as Hlp. pose proof (path_first _ _ _ _ H2) as Hln.
  pose proof (node_between s p x n Hlp Hln) as Hx.
  assert (Hxn : x ≠ n ∧ x ≠ p).
  { apply NoDup_cons in Hnd as [Hh (Ha&Hb&Hc)%NoDup_app]. apply NoDup_cons in Hc.
    split; intros <-; set_solver. }
  unfold remove. apply wp_bind, (wp_node_invariant s h (l1 ++ x :: l2)); [done|set_solver|].
  apply wp_bind, (wp_node _ _ _ _ Hx). cbn [next prev].
  apply wp_bind, (wp_node_invariant s h (l1 ++ x :: l2)); [done|set_solver|].
  apply wp_bind, (wp_node_invariant s h (l1 ++ x :: l2)); [done|set_solver|].
  apply wp_bind, wp_set_prev; [by apply (link_dom s x n)|]. intros s1 [Hd1 Hc1] Hp1 Hn1.
  apply wp_bind, (wp_node _ _ (mkNode n p)); [rewrite Hc1; [done|set_solver]|]. cbn [next prev].
  apply wp_bind, wp_set_next; [rewrite Hd1; by apply (link_dom s p x)|]. intros s2 [Hd2 Hc2] Hn2 Hp2.
  assert (Hr2 : ring s2 h (l1 ++ l2)).
  { apply (ring_join s s2 h l1 x l2 p n Hr); [done|done|intros y|intros y]; [by rewrite Hn2, Hn1|by rewrite Hp2, Hp1]. }
  apply wp_bind, (wp_node _ _ (mkNode n p)); [rewrite Hc2, Hc1; [done|set_solver..]|]. cbn [next prev].
  apply wp_bind, (wp_node_invariant s2 h (l1 ++ l2)); [done|set_solver|].
  apply (wp_node_invariant s2 h (l1 ++ l2)); [done|set_solver|].
  apply HQ; [done|]. split; [congruence|]. intros y Hy. rewrite Hc2, Hc1; [done|set_solver..].
Qed.

Lemma wp_insert s h l x (Q : unit → Nodes → Prop) : ring s h l → x ∈ dom s → x ≠ 0 → x ∉ h :: l →
  (∀ s', ring s' h (x :: l) → changed (x :: h :: l) s s' → Q tt s') → wp (insert h x) s Q.
Proof.
  intros Hr Hx Hx0 Hnx HQ. pose proof Hr as [Hp Hnd H0].
  set (p := last_node h l). set (n := default h (head l)).
  assert (Hnl : n ∈ h :: l) by (unfold n; destruct l; set_solver).
  pose proof (path_last _ _ _ _ Hp) as Hlp. pose proof (path_first _ _ _ _ Hp) as Hln.
  pose proof (node_between s p h n Hlp Hln) as Hh.
  unfold insert. apply wp_bind, (wp_node _ _ _ _ Hh). cbn [next prev].
  apply wp_bind, wp_set_next; [done|]. intros s1 [Hd1 Hc1] Hn1 Hp1.
  apply wp_bind, (wp_node _ _ (mkNode n p)); [rewrite Hc1; [done|set_solver]|]. cbn [next prev].
  apply wp_bind, wp_set_prev; [rewrite Hd1; by apply (link_dom s h n)|]. intros s2 [Hd2 Hc2] Hp2 Hn2.
  apply wp_bind, wp_set_prev; [by rewrite Hd2, Hd1|]. intros s3 [Hd3 Hc3] Hp3 Hn3.
  apply wp_bind, wp_set_next; [rewrite Hd3, Hd2, Hd1; by apply (link_dom s h n)|]. intros s4 [Hd4 Hc4] Hn4 Hp4.
  assert (Hn : ∀ y, nx s4 y = if decide (y = h) then Some x else if decide (y = x) then Some n else nx s y).
  { intros y. by rewrite Hn4, Hn3, Hn2, Hn1. }
  assert (Hpv : ∀ y, pv s4 y = if decide (y = x) then Some h else if decide (y = n) then Some x else pv s y).
  { intros y. by rewrite Hp4, Hp3, Hp2, Hp1. }
  assert (Hr4 : ring s4 h (x :: l)).
  { split; [|rewrite !NoDup_cons in *; set_solver|set_solver]. cbn [path]. split.
    - split; [by rewrite Hn, decide_True|by rewrite Hpv, decide_True].
    - assert (link s4 x n) as Hl4.
      { split; [rewrite Hn, decide_False, decide_True by set_solver; done|].
        rewrite Hpv, decide_False, decide_True by set_solver; done. }
      unfold n in *. destruct l as [|z l]; [done|]. cbn in *. split; [done|]. destruct Hp as [_ Hp].
      rewrite !NoDup_cons in Hnd. apply (path_frame s); [| |done].
      + intros y Hy. rewrite Hn, !decide_False; [done|set_solver..].
      + intros y Hy. rewrite Hpv, !decide_False; [done|set_solver..]. }
  apply wp_bind, (wp_node_invariant s4 h (x :: l)); [done|set_solver|].
  apply (wp_node_invariant s4 h (x :: l)); [done|set_solver|].
  apply HQ; [done|]. split; [congruence|]. intros y Hy. rewrite Hc4, Hc3, Hc2, Hc1; [done|set_solver..].
Qed.

Lemma wp_is_empty s h l (Q : bool → Nodes → Prop) : ring s h l →
  Q (bool_decide (l = [])) s → wp (is_empty h) s Q.
Proof.
  intros Hr HQ. unfold is_empty. apply wp_bind, (wp_node_invariant s h l); [done|set_solver|].
  pose proof Hr as [Hp Hnd H0].
  pose proof (node_between s _ h _ (path_last _ _ _ _ Hp) (path_first _ _ _ _ Hp)) as Hh.
  apply wp_bind, (wp_node _ _ _ _ Hh), wp_ret. cbn [next].
  assert ((default h (head l) =? h) = bool_decide (l = [])) as ->; [|done].
  destruct l as [|z l]; [by rewrite Z.eqb_refl|]. rewrite bool_decide_false by done. apply Z.eqb_neq. cbn.
  apply NoDup_cons in Hnd. set_solver.
Qed.

(** The element that [pop] takes. *)
Definition popped (is_fifo : bool) (h : Z) (l : list Z) : Z := if is_fifo then default h (head l) else last_node h l.

(** [remove] of an element, wherever it is. *)
Lemma wp_remove_member s h l x (Q : unit → Nodes → Prop) : ring s h l → x ∈ l →
  (∀ s', ring s' h (without x l) → changed (h :: without x l) s s' → Q tt s') → wp (remove x) s Q.
Proof.
  intros Hr Hx HQ. pose proof (ring_nodup _ _ _ Hr) as [_ Hnd]%NoDup_cons.
  apply list_elem_of_split in Hx as (l1&l2&->). rewrite (without_split x l1 l2 Hnd) in HQ. by apply (wp_remove s h l1 x l2).
Qed.

Lemma popped_elem is_fifo h l : l ≠ [] → popped is_fifo h l ∈ l.
Proof.
  intros Hl. destruct l as [|y l]; [done|]. destruct is_fifo; cbn; [set_solver|].
  destruct (last_node_elem y l) as [->|]; set_solver.
Qed.

Lemma wp_set_pop s is_fifo h l (Q : Z → Nodes → Prop) : ring s h l → l ≠ [] →
  (∀ s', ring s' h (without (popped is_fifo h l) l) →
    changed (h :: without (popped is_fifo h l) l) s s' → Q (popped is_fifo h l) s') →
  wp (pop is_fifo h) s Q.
Proof.
  intros Hr Hl HQ. unfold pop. apply wp_bind, (wp_node_invariant s h l); [done|set_solver|].
  pose proof Hr as [Hp Hnd H0].
  pose proof (node_between s _ h _ (path_last _ _ _ _ Hp) (path_first _ _ _ _ Hp)) as Hh.
  pose proof (popped_elem is_fifo h l Hl) as Hx.
  destruct is_fifo; unfold pop_front, pop_back.
  all: apply wp_bind, (wp_node_invariant s h l); [done|set_solver|].
  all: apply wp_bind, (wp_is_empty s h l); [done|].
  all: apply wp_bind, wp_assert; [by rewrite bool_decide_false|].
  all: apply wp_bind, (wp_node _ _ _ _ Hh); cbn [next prev].
  all: apply wp_bind, (wp_remove_member s h l _); [done|exact Hx|]; intros s' Hr' Hc.
  all: apply wp_bind; eapply wp_node_invariant; [exact Hr'|set_solver|]; by apply wp_ret, HQ.
Qed.

Lemma wp_peek s h l (Q : Z → Nodes → Prop) : ring s h l → Q (default h (head l)) s → wp (peek h) s Q.
Proof.
  intros [Hp Hnd H0] HQ. unfold peek.
  pose proof (node_between s _ h _ (path_last _ _ _ _ Hp) (path_first _ _ _ _ Hp)) as Hh.
  by apply wp_bind, (wp_node _ _ _ _ Hh), wp_ret.
Qed.

Lemma wp_SeqSet_new s h (Q : unit → Nodes → Prop) : h ≠ 0 →
  (∀ s', ring s' h [] → dom s' = {[h]} ∪ dom s → (∀ y, y ≠ h → s' !! y = s !! y) → Q tt s') → wp (SeqSet_new h) s Q.
Proof.
  intros Hh HQ. unfold wp, SeqSet_new, put. apply HQ.
  - split; [|apply NoDup_singleton|set_solver]. cbn. unfold link, nx, pv. by rewrite lookup_insert_eq.
  - apply dom_insert_L.
  - intros y Hy. by rewrite lookup_insert_ne.
Qed.

(** A set has fewer elements than there are nodes. *)
Lemma ring_size s h l : ring s h l → (length l < size s)%nat.
Proof.
  intros Hr. pose proof (ring_nodup _ _ _ Hr) as Hnd. destruct (ring_dom s h l Hr) as [Hh Hl].
  rewrite <- size_dom. change (length l < size (dom s))%nat with (length (h :: l) ≤ size (dom s))%nat.
  rewrite <- (size_list_to_set (C := gset Z) (h :: l)) by done. apply subseteq_size. set_solver.
Qed.

Section IterateSpec.
Context {St : Type} (nodes : St → Nodes) (with_nodes : St → Nodes → St).
Context (nodes_eq : ∀ s, with_nodes s (nodes s) = s).

Lemma wp_on_nodes_read {A} (m : M Nodes A) s (a : A) (Q : A → St → Prop) :
  m (nodes s) = Ok (a, nodes s) → Q a s → wp (on_nodes nodes with_nodes m) s Q.
Proof. unfold wp, on_nodes. intros ->. by rewrite nodes_eq. Qed.

Lemma wp_on_nodes {A} (m : M Nodes A) s (Q : A → St → Prop) :
  wp m (nodes s) (λ a n, Q a (with_nodes s n)) → wp (on_nodes nodes with_nodes m) s Q.
Proof. unfold wp, on_nodes. by destruct (m (nodes s)) as [[a n]|]. Qed.

(** [I l s]: the elements of [l] are still to be visited in the state [s]. *)
Lemma wp_iterate_loop (I : list Z → St → Prop) fuel h l s f (Q : unit → St → Prop) :
  (length l < fuel)%nat → h ∉ l → I l s →
  (∀ x r s, I (x :: r) s → nx (nodes s) x = Some (default h (head r)) ∧ wp (f x) s (λ _ s', I r s')) →
  (∀ s, I [] s → Q tt s) →
  wp (iterate_loop nodes with_nodes fuel h (default h (head l)) f) s Q.
Proof.
  intros Hf Hh Hs Hstep HQ. revert fuel s Hf Hs. induction l as [|x l IH]; intros [|fuel] s Hf Hs;
    cbn [length] in Hf; try lia; cbn [iterate_loop].
  - cbn. rewrite Z.eqb_refl. by apply wp_ret, HQ.
  - change (default h (head (x :: l))) with x. apply not_elem_of_cons in Hh as [Hx Hh].
    rewrite (proj2 (Z.eqb_neq _ _)) by congruence.
    destruct (Hstep x l s Hs) as [(d&Hd&Hn)%nx_Some Hwp].
    apply wp_bind, (wp_on_nodes_read _ _ d); [unfold node; by rewrite Hd|]. rewrite Hn.
    apply wp_bind. eapply wp_mono; [exact Hwp|]. intros [] s' Hs'. apply IH; [done|lia|done].
Qed.

Lemma wp_iterate (I : list Z → St → Prop) h l s f (Q : unit → St → Prop) : ring (nodes s) h l → I l s →
  (∀ x r s, I (x :: r) s → nx (nodes s) x = Some (default h (head r)) ∧ wp (f x) s (λ _ s', I r s')) →
  (∀ s, I [] s → Q tt s) →
  wp (iterate nodes with_nodes h f) s Q.
Proof.
  intros Hr Hs Hstep HQ. unfold iterate. pose proof Hr as [Hp Hnd H0].
  destruct (nx_Some _ _ _ (proj1 (path_first _ _ _ _ Hp))) as (d&Hd&Hn).
  apply wp_bind, (wp_on_nodes_read _ _ d); [unfold node; by rewrite Hd|]. rewrite Hn.
  apply wp_bind, wp_on_nodes, (wp_node_invariant _ h l); [done|destruct l; set_solver|]. rewrite nodes_eq.
  apply wp_bind, (wp_on_nodes_read _ _ (size (nodes s))); [done|].
  apply (wp_iterate_loop I); [by apply (ring_size _ h)| |done|done|done]. by apply NoDup_cons in Hnd as [? _].
Qed.
End IterateSpec.

(** ** Several sets *)

Inductive op :=
| Insert (h x : Z)
| Pop (is_fifo : bool) (h : Z)
| Remove (x : Z)
| IsEmpty (h : Z)
| Peek (h : Z)
| Sweep (h : Z) (drops : Z → bool).  (* [iterate] with a function that removes some elements *)

Inductive answer := Done | Elem (x : Z) | Flag (b : bool) | Visited (l : list Z).

(** The function that [Sweep] applies keeps the elements it is given. *)
Definition sweep (drops : Z → bool) (x : Z) : M (Nodes * list Z) unit := λ s,
  '(_, n) ← (if drops x then remove x else mret tt) s.1; Ok (tt, (n, s.2 ++ [x])).

Definition step (o : op) (s : Nodes) : result (answer * Nodes) :=
  match o with
  | Insert h x => '(_, s) ← insert h x s; Ok (Done, s)
  | Pop f h => '(x, s) ← pop f h s; Ok (Elem x, s)
  | Remove x => '(_, s) ← remove x s; Ok (Done, s)
  | IsEmpty h => '(b, s) ← is_empty h s; Ok (Flag b, s)
  | Peek h => '(x, s) ← peek h s; Ok (Elem x, s)
  | Sweep h drops =>
      '(_, (s, l)) ← iterate fst (λ s n, (n, s.2)) h (sweep drops) (s, []); Ok (Visited l, s)
  end.

Fixpoint run (ops : list op) (s : Nodes) : result (list answer * Nodes) :=
  match ops with
  | [] => Ok ([], s)
  | o :: ops => '(a, s) ← step o s; '(l, s) ← run ops s; Ok (a :: l, s)
  end.

(** The specification: the lists of the sets, by their heads. *)
Abbreviation Sets := (gmap Z (list Z)).

Definition spec_step (o : op) (σ : Sets) : answer * Sets :=
  match o with
  | Insert h x => (Done, alter (cons x) h σ)
  | Pop f h => let l := default [] (σ !! h) in let x := popped f h l in (Elem x, alter (without x) h σ)
  | Remove x => (Done, without x <$> σ)
  | IsEmpty h => (Flag (bool_decide (default [] (σ !! h) = [])), σ)
  | Peek h => (Elem (default h (head (default [] (σ !! h)))), σ)
  | Sweep h drops =>
      (Visited (default [] (σ !! h)), alter (filter (λ x, drops x = false)) h σ)
  end.

Fixpoint spec_run (ops : list op) (σ : Sets) : list answer :=
  match ops with [] => [] | o :: ops => (spec_step o σ).1 :: spec_run ops (spec_step o σ).2 end.

Section Several.
Context (nodes : gset Z).

(** The nodes of no set. *)
Definition outside (x : Z) (σ : Sets) : Prop := map_Forall (λ h l, x ∉ h :: l) σ.

(** What callers have to respect. *)
Definition allowed (o : op) (σ : Sets) : Prop :=
  match o with
  | Insert h x => is_Some (σ !! h) ∧ x ∈ nodes ∧ x ≠ 0 ∧ outside x σ
  | Pop _ h => ∃ l, σ !! h = Some l ∧ l ≠ []
  | Remove x => ∃ h l, σ !! h = Some l ∧ x ∈ l
  | IsEmpty h | Peek h | Sweep h _ => is_Some (σ !! h)
  end.

Fixpoint all_allowed (ops : list op) (σ : Sets) : Prop :=
  match ops with [] => True | o :: ops => allowed o σ ∧ all_allowed ops (spec_step o σ).2 end.

Record related (s : Nodes) (σ : Sets) : Prop := {
  r_dom : dom s = nodes;
  r_ring : ∀ h l, σ !! h = Some l → ring s h l;
  r_apart : ∀ h h' l l' y, σ !! h = Some l → σ !! h' = Some l' → h ≠ h' → y ∈ h :: l → y ∉ h' :: l';
}.

Lemma ring_frame s s' h l : (∀ y, y ∈ h :: l → s' !! y = s !! y) → ring s h l → ring s' h l.
Proof.
  intros Hy [Hp Hnd H0]. split; [|done|done].
  apply (path_frame s); [| |done]; intros y Hin; unfold nx, pv; rewrite Hy; set_solver.
Qed.

(** One set changes, and only its nodes and nodes outside of all sets. *)
Lemma related_alter s σ h l l' s' c : related s σ → σ !! h = Some l → ring s' h l' → changed c s s' →
  (∀ y, y ∈ c → y ∈ h :: l ∨ outside y σ) → (∀ y, y ∈ l' → y ∈ l ∨ outside y σ) →
  related s' (<[h := l']> σ).
Proof.
  intros [Hd Hrings Hap] Hl Hr' [Hd' Hch] Hc Hl'. split; [congruence| |].
  - intros h1 l1 [[<- <-]|[Hne Hl1]]%lookup_insert_Some; [done|].
    apply (ring_frame s); [|by apply Hrings]. intros y Hy. apply Hch. intros Hyc.
    destruct (Hc y Hyc) as [Hin|Hout]; [|by apply (Hout h1 l1)]. by apply (Hap h h1 l l1 y).
  - intros h1 h2 l1 l2 y [[<- <-]|[Hne1 H1]]%lookup_insert_Some [[<- <-]|[Hne2 H2]]%lookup_insert_Some Hne Hy;
      [done| | |by apply (Hap h1 h2 l1 l2)].
    + apply elem_of_cons in Hy as [->|Hy]; [apply (Hap h h2 l l2); set_solver|].
      destruct (Hl' y Hy) as [Hin|Hout]; [apply (Hap h h2 l l2); set_solver|by apply (Hout h2 l2)].
    + intros [->|Hy']%elem_of_cons; [apply (Hap h1 h l1 l h) in Hy; set_solver|].
      destruct (Hl' y Hy') as [Hin|Hout]; [apply (Hap h1 h l1 l y) in Hy; set_solver|by apply (Hout h1 l1)].
Qed.

Lemma alter_lookup (f : list Z → list Z) h l (σ : Sets) : σ !! h = Some l → alter f h σ = <[h := f l]> σ.
Proof.
  intros Hl. apply map_eq. intros h'. destruct (decide (h = h')) as [<-|Hne].
  - by rewrite lookup_alter_eq, Hl, lookup_insert_eq.
  - by rewrite lookup_alter_ne, lookup_insert_ne.
Qed.

Lemma without_all s σ h l x : related s σ → σ !! h = Some l → x ∈ l → without x <$> σ = <[h := without x l]> σ.
Proof.
  intros HR Hl Hx. apply map_eq. intros h'. rewrite lookup_fmap. destruct (decide (h = h')) as [<-|Hne].
  - by rewrite Hl, lookup_insert_eq.
  - rewrite lookup_insert_ne by done. destruct (σ !! h') as [l'|] eqn:Hl'; [|done]. cbn. f_equal. apply without_notin.
    intros Hx'. apply (r_apart _ _ HR h h' l l' x); set_solver.
Qed.

Definition refined (o : op) (s : Nodes) (σ : Sets) : Prop :=
  ∃ s', step o s = Ok ((spec_step o σ).1, s') ∧ related s' (spec_step o σ).2.

Lemma insert_refined h x s σ : related s σ → allowed (Insert h x) σ → refined (Insert h x) s σ.
Proof.
  intros HR ([l Hl]&Hx&Hx0&Hout). unfold refined. cbn [step spec_step fst snd].
  rewrite (alter_lookup _ h l) by done.
  destruct (wp_run (insert h x) s (λ _ s', related s' (<[h := x :: l]> σ))) as (u&s'&E&HR').
  { apply (wp_insert s h l x); [by apply (r_ring _ _ HR)|by rewrite (r_dom _ _ HR)|done|by apply Hout|].
    intros s' Hr' Hc. apply (related_alter s σ h l _ s' (x :: h :: l) HR Hl Hr' Hc); set_solver. }
  rewrite E. by exists s'.
Qed.

Lemma pop_refined f h s σ : related s σ → allowed (Pop f h) σ → refined (Pop f h) s σ.
Proof.
  intros HR (l&Hl&Hne). unfold refined. cbn [step spec_step fst snd].
  rewrite (alter_lookup _ h l), Hl by done. change (default [] (Some l)) with l.
  destruct (wp_run (pop f h) s (λ x s', x = popped f h l ∧ related s' (<[h := without (popped f h l) l]> σ)))
    as (x&s'&E&->&HR').
  { apply (wp_set_pop s f h l); [by apply (r_ring _ _ HR)|done|]. intros s' Hr' Hc. split; [done|].
    apply (related_alter s σ h l _ s' _ HR Hl Hr' Hc); intros y.
    - intros [->|[_ ?]%elem_of_without]%elem_of_cons; set_solver.
    - intros [_ ?]%elem_of_without. by left. }
  rewrite E. by exists s'.
Qed.

Lemma remove_refined x s σ : related s σ → allowed (Remove x) σ → refined (Remove x) s σ.
Proof.
  intros HR (h&l&Hl&Hx). unfold refined. cbn [step spec_step fst snd].
  rewrite (without_all s σ h l x HR Hl Hx).
  destruct (wp_run (remove x) s (λ _ s', related s' (<[h := without x l]> σ))) as (u&s'&E&HR').
  { apply (wp_remove_member s h l x); [by apply (r_ring _ _ HR)|done|]. intros s' Hr' Hc.
    apply (related_alter s σ h l _ s' _ HR Hl Hr' Hc); intros y.
    - intros [->|[_ ?]%elem_of_without]%elem_of_cons; set_solver.
    - intros [_ ?]%elem_of_without. by left. }
  rewrite E. by exists s'.
Qed.

(** Visiting the rest [r] after the elements [d]. *)
Lemma sweep_visits s σ h l drops : related s σ → σ !! h = Some l →
  wp (iterate fst (λ s n, (n, s.2)) h (sweep drops)) (s, [])
    (λ _ s', s'.2 = l ∧ related s'.1 (<[h := filter (λ x, drops x = false) l]> σ)).
Proof.
  intros HR Hl. pose proof (r_ring _ _ HR h l Hl) as Hr.
  pose proof (ring_nodup _ _ _ Hr) as [Hh Hnd]%NoDup_cons.
  set (keep := filter (λ x, drops x = false)).
  apply (wp_iterate fst (λ s n, (n, s.2)) ltac:(by intros []) (λ r s',
    ∃ d, l = d ++ r ∧ s'.2 = d ∧ ring s'.1 h (keep d ++ r) ∧ changed (h :: l) s s'.1) h l);
    [done|by exists []| |].
  - intros x r [s1 v] (d&El&Ev&Hr1&Hd1&Hc1). cbn [fst snd] in *. subst v. split.
    { pose proof (ring_path _ _ _ Hr1) as [_ H2]%path_app. by apply path_first in H2 as [? _]. }
    assert (Hsub : ∀ y, y ∈ keep d → y ∈ l).
    { intros y [_ Hy]%list_elem_of_filter. subst l. set_solver. }
    assert (Hk : keep (d ++ [x]) = keep d ++ (if drops x then [] else [x])).
    { unfold keep. rewrite filter_app. f_equal. destruct (drops x) eqn:Ed.
      - by rewrite filter_cons_False by congruence.
      - by rewrite filter_cons_True. }
    unfold wp, sweep. cbn [fst snd]. destruct (drops x) eqn:Ed.
    + destruct (wp_run (remove x) s1 (λ _ s2, ring s2 h (keep d ++ r) ∧ changed (h :: l) s s2))
        as (u&s2&E&Hr2&Hc2).
      { apply (wp_remove s1 h (keep d) x r _ Hr1). intros s2 Hr2 [Hd2 Hc2]. split; [done|]. split; [congruence|].
        intros y Hy. rewrite Hc2, Hc1; [done..|]. subst l. set_solver. }
      rewrite E. cbn. exists (d ++ [x]). rewrite Hk, app_nil_r. subst l. by rewrite <- app_assoc.
    + cbn. exists (d ++ [x]). rewrite Hk. subst l. rewrite <- !app_assoc. done.
  - intros [s1 v] (d&El&Ev&Hr1&Hc1). rewrite app_nil_r in *. cbn [fst snd] in *. subst d. split; [done|].
    apply (related_alter s σ h l _ s1 _ HR Hl Hr1 Hc1); [by left|].
    intros y [_ Hy]%list_elem_of_filter. by left.
Qed.

Lemma sweep_refined h drops s σ : related s σ → allowed (Sweep h drops) σ → refined (Sweep h drops) s σ.
Proof.
  intros HR [l Hl]. unfold refined. cbn [step spec_step fst snd].
  rewrite (alter_lookup _ h l), Hl by done. change (default [] (Some l)) with l.
  destruct (wp_run _ _ _ (sweep_visits s σ h l drops HR Hl)) as (u&[s' v]&E&Ev&HR'). cbn [fst snd] in *.
  rewrite E. cbn. subst v. by exists s'.
Qed.

Lemma reading_refined {A} (m : M Nodes A) s (a : A) :
  (∀ Q : A → Nodes → Prop, Q a s → wp m s Q) → m s = Ok (a, s).
Proof. intros H. destruct (wp_run m s (λ b s', b = a ∧ s' = s)) as (b&s'&E&->&->); [by apply H|done]. Qed.

Lemma set_step_refined o s σ : related s σ → allowed o σ → refined o s σ.
Proof.
  destruct o as [h x|f h|x|h|h|h drops]; intros HR Ho;
    [by apply insert_refined|by apply pop_refined|by apply remove_refined| | |by apply sweep_refined].
  all: destruct Ho as [l Hl]; unfold refined; cbn [step spec_step fst snd]; rewrite Hl;
    change (default [] (Some l)) with l; exists s; split; [|done].
  - rewrite (reading_refined (is_empty h) s (bool_decide (l = []))); [done|].
    intros Q. apply wp_is_empty, (r_ring _ _ HR h l Hl).
  - rewrite (reading_refined (peek h) s (default h (head l))); [done|].
    intros Q. apply wp_peek, (r_ring _ _ HR h l Hl).
Qed.

Lemma set_run_refined ops s σ : related s σ → all_allowed ops σ → ∃ s', run ops s = Ok (spec_run ops σ, s').
Proof.
  revert s σ. induction ops as [|o ops IH]; intros s σ HR Ho; [by eexists|].
  destruct Ho as [Ho Hrest]. destruct (set_step_refined o s σ HR Ho) as (s1&E&HR1).
  destruct (IH s1 _ HR1 Hrest) as (s2&E2). cbn [run spec_run]. rewrite E. cbn [mbind result_bind].
  rewrite E2. by eexists.
Qed.
End Several.

(** The constructors of sets with their heads at [heads]. *)
Fixpoint new_sets (heads : list Z) : M Nodes unit :=
  match heads with [] => mret tt | h :: heads => new_sets heads;; SeqSet_new h end.

Definition empty_sets (heads : list Z) : Sets := list_to_map ((λ h, (h, [])) <$> heads).

Lemma empty_sets_lookup heads h l : empty_sets heads !! h = Some l → h ∈ heads ∧ l = [].
Proof.
  unfold empty_sets. intros H%elem_of_list_to_map_2. apply list_elem_of_fmap in H as (h'&[= -> ->]&Hin). done.
Qed.

Lemma new_sets_related heads s : NoDup heads → 0 ∉ heads →
  wp (new_sets heads) s (λ _ s', related (list_to_set heads ∪ dom s) s' (empty_sets heads)).
Proof.
  induction heads as [|h heads IH]; intros Hnd H0.
  - apply wp_ret. split; [set_solver|done..].
  - apply NoDup_cons in Hnd as [Hh Hnd]. cbn [new_sets]. apply wp_bind.
    eapply wp_mono; [apply IH; [done|set_solver]|]. intros [] s1 [Hd Hr Hap].
    apply wp_SeqSet_new; [set_solver|]. intros s2 Hr2 Hd2 Hs2. split.
    + rewrite Hd2, Hd. set_solver.
    + intros h' l' [Hin ->]%empty_sets_lookup. destruct (decide (h' = h)) as [->|Hne]; [done|].
      apply (ring_frame s1); [|apply Hr].
      * intros y Hy. apply Hs2. set_solver.
      * unfold empty_sets. apply elem_of_list_to_map_1'; [|apply list_elem_of_fmap; exists h'; set_solver].
        intros l (h''&[= -> ->]&_)%list_elem_of_fmap. done.
    + intros h1 h2 l1 l2 y [_ ->]%empty_sets_lookup [_ ->]%empty_sets_lookup Hne Hy. set_solver.
Qed.

(** C11: Sets that share nodes are lists of their elements: after their constructors every
    sequence of insertions at the front, removals, pops at either end, tests and sweeps that
    remove elements on the way runs without a fault, fulfils the assertions about the links,
    and answers as the lists do.  A pop with [is_fifo] takes the front, so the element that
    was inserted last; a pop without it takes the oldest. *)
Theorem seqset_refines heads s ops : NoDup heads → 0 ∉ heads →
  all_allowed (list_to_set heads ∪ dom s) ops (empty_sets heads) →
  ∃ s1 s2, new_sets heads s = Ok (tt, s1) ∧ run ops s1 = Ok (spec_run ops (empty_sets heads), s2).
Proof.
  intros Hnd H0 Ho. destruct (wp_run _ _ _ (new_sets_related heads s Hnd H0)) as ([]&s1&E&HR).
  destruct (set_run_refined _ ops s1 _ HR Ho) as (s2&E2). by exists s1, s2.
Qed.

(** The names of the two modes are exchanged. *)
Lemma pop_order :
  spec_run [Insert 10 1; Insert 10 2; Pop true 10] (empty_sets [10]) = [Done; Done; Elem 2] ∧
  spec_run [Insert 10 1; Insert 10 2; Pop false 10] (empty_sets [10]) = [Done; Done; Elem 1].
Proof. split; vm_compute; reflexivity. Qed.

(** Two sets and three nodes. *)
Definition sample_nodes : Nodes := list_to_map ((λ a, (a, mkNode 0 0)) <$> [1; 2; 3]).
Definition sample_ops : list op :=
  [Insert 10 1; Insert 10 2; Insert 20 3; Pop true 10; Insert 20 2; Remove 3; Insert 10 3; Sweep 10 Z.odd;
   IsEmpty 10; Peek 20].

Lemma seqset_refines_witness :
  ∃ s1 s2, new_sets [10; 20] sample_nodes = Ok (tt, s1) ∧
    run sample_ops s1 = Ok ([Done; Done; Done; Elem 2; Done; Done; Done; Visited [3; 1]; Flag true; Elem 2], s2).
Proof.
  apply (seqset_refines [10; 20] sample_nodes sample_ops).
  - apply (bool_decide_unpack _). by vm_compute.
  - apply (bool_decide_unpack _). by vm_compute.
  - assert (Hi : ∀ (σ : Sets) h, bool_decide (is_Some (σ !! h)) = true → is_Some (σ !! h)) by (intros; by eapply bool_decide_eq_true_1).
    assert (Ho : ∀ x σ, bool_decide (outside x σ) = true → outside x σ) by (intros; by eapply bool_decide_eq_true_1).
    assert (Hn : ∀ x, bool_decide (x ∈ (list_to_set [10; 20] ∪ dom sample_nodes : gset Z)) = true →
      x ∈ (list_to_set [10; 20] ∪ dom sample_nodes : gset Z)) by (intros; by eapply bool_decide_eq_true_1).
    unfold sample_ops. cbn [all_allowed allowed]. split_and!; try (apply Hi; vm_compute; reflexivity);
      try (apply Ho; vm_compute; reflexivity); try (apply Hn; vm_compute; reflexivity); try done.
    + exists [2; 1]. by split; [vm_compute|].
    + exists 20, [2; 3]. split; [by vm_compute|set_solver].
Defined.

End SeqSet.
