(* ===== verification/Slab.v ===== *)
(** * snmalloc, mem/metadata.h and mem/corealloc.h: slabs of small objects

    [FrontendSlabMetadata]: the free objects of a slab, the number of deallocations until
    the slow path, and its state; [alloc_new_list], [clear_slab] and
    [dealloc_local_object_fast] of [CoreAllocator] work on it.  The memory is that of
    [FreeList]; the mitigations are parameters.  A check of [SNMALLOC_CHECK] that fails ends
    the process like [check_client]. *)

From stdpp Require Import base list numbers gmap.
From Stdlib Require Import ZArith Lia.
From S2P Require Import Prelude CInt SnBits SizeClass RbTree RbRun FreeList.
Local Open Scope Z_scope.

Module Slab.
Import CInt SnBits Address SizeClass RbTree(M, M_ret, M_bind, lift) Entropy FreeList.
#[local] Existing Instances RbTree.M_ret RbTree.M_bind.

Section Ops.
Context (mit : mitigations) (domesticate : Z → Z).
Context (random_initial random_preserve random_larger_thresholds sanity_checks : bool).

(** ** A list of all objects of a slab *)

(** The loop that builds a random cycle of the objects, Sattolo's algorithm: the object
    [curr] is put behind one of the [count] objects before it. *)
Fixpoint cycle_loop (fuel : nat) (bumpptr rsize slab_end curr count : Z) (e : LocalEntropy)
    : M Mem (Z * LocalEntropy) :=
  match fuel with
  | O => lift (Err Diverge)
  | S fuel =>
      if curr <? slab_end then
        '(insert_index, e) ← lift (sample count e);
        at_ ← lift (pointer_offset bumpptr (to_size (insert_index * rsize)));
        old ← load at_;
        store at_ curr;;
        store curr old;;
        next ← lift (pointer_offset curr rsize);
        cycle_loop fuel bumpptr rsize slab_end next (to_uint16 (count + 1)) e
      else mret (count, e)
  end.

(** The loop that adds the objects in the order of the cycle, until it is closed. *)
Fixpoint add_loop (fuel : nat) (key : FreeListKey) (start curr : Z) (b : Builder) (e : LocalEntropy)
    : M Mem (Builder * LocalEntropy) :=
  match fuel with
  | O => lift (Err Diverge)
  | S fuel =>
      '(b, e) ← add mit random_preserve b curr key e;
      next ← load curr;
      if next =? start then mret (b, e) else add_loop fuel key start next b e
  end.

(** The loop that adds the objects in the order of their addresses. *)
Fixpoint bump_loop (fuel : nat) (key : FreeListKey) (rsize slab_end p : Z) (b : Builder) (e : LocalEntropy)
    : M Mem (Builder * LocalEntropy) :=
  match fuel with
  | O => lift (Err Diverge)
  | S fuel =>
      '(b, e) ← add mit random_preserve b p key e;
      p ← lift (pointer_offset p rsize);
      if p <? slab_end then bump_loop fuel key rsize slab_end p b e else mret (b, e)
  end.

(** The result has the new value of [bumpptr].  A slab has [slab_size / rsize] objects, which
    bounds the loops. *)
Definition alloc_new_list (bumpptr : Z) (b : Builder) (rsize slab_size : Z) (e : LocalEntropy)
    : M Mem (Builder * LocalEntropy * Z) :=
  slab_end ← lift (pointer_offset bumpptr (to_size (slab_size + 1 - rsize)));
  let key := get_free_list_key e in
  let fuel := S (Z.to_nat (slab_size / rsize)) in
  '(b, e) ← (if random_initial then
      curr ← lift (pointer_offset bumpptr 0);
      store curr curr;;
      curr ← lift (pointer_offset curr rsize);
      '(count, e) ← cycle_loop fuel bumpptr rsize slab_end curr 1 e;
      '(start_index, e) ← lift (sample count e);
      at_ ← lift (pointer_offset bumpptr (to_size (start_index * rsize)));
      start_ptr ← load at_;
      add_loop fuel key start_ptr start_ptr b e
    else bump_loop fuel key rsize slab_end bumpptr b e);
  mret (b, e, slab_end).

(** ** The metadata of a slab *)

Record SlabMeta := mkMeta { free_queue : Builder; needed_ : Z; sleeping_ : bool; large_ : bool }.

Definition with_queue (meta : SlabMeta) (b : Builder) : SlabMeta :=
  mkMeta b (needed_ meta) (sleeping_ meta) (large_ meta).
Definition with_needed (meta : SlabMeta) (n : Z) : SlabMeta :=
  mkMeta (free_queue meta) (to_uint16 n) (sleeping_ meta) (large_ meta).
Definition with_sleeping (meta : SlabMeta) (s : bool) : SlabMeta :=
  mkMeta (free_queue meta) (needed_ meta) s (large_ meta).
Definition with_large (meta : SlabMeta) (l : bool) : SlabMeta :=
  mkMeta (free_queue meta) (needed_ meta) (sleeping_ meta) l.

Definition is_unused (meta : SlabMeta) : bool := needed_ meta =? 0.
Definition is_sleeping (meta : SlabMeta) : bool := sleeping_ meta.
Definition is_large (meta : SlabMeta) : bool := large_ meta.

Definition return_object (meta : SlabMeta) : bool * SlabMeta :=
  let meta := with_needed meta (needed_ meta - 1) in (needed_ meta =? 0, meta).

Definition set_sleeping (sizeclass remaining : Z) (meta : SlabMeta) : result (bool * SlabMeta) :=
  threshold ← threshold_for_waking_slab random_larger_thresholds sizeclass;
  if threshold <=? remaining then
    allocated ← sizeclass_to_slab_object_count random_larger_thresholds sizeclass;
    Ok (false, with_sleeping (with_needed meta (allocated - remaining)) false)
  else Ok (true, with_needed (with_sleeping meta true) (threshold - remaining)).

Definition set_not_sleeping (sizeclass : Z) (meta : SlabMeta) : result SlabMeta :=
  allocated ← sizeclass_to_slab_object_count random_larger_thresholds sizeclass;
  threshold ← threshold_for_waking_slab random_larger_thresholds sizeclass;
  let meta := with_needed meta (allocated - threshold) in
  assert_ (negb (needed_ meta =? 0));;
  Ok (with_sleeping meta false).

Definition initialise (sizeclass slab : Z) (key : FreeListKey) (meta : SlabMeta) : M Mem SlabMeta :=
  b ← init mit random_preserve (free_queue meta) slab key;
  '(_, meta) ← lift (set_sleeping sizeclass 0 (with_queue meta b));
  mret (with_large meta false).

Definition initialise_large (slab : Z) (key : FreeListKey) (meta : SlabMeta) : M Mem SlabMeta :=
  b ← init mit random_preserve (free_queue meta) slab key;
  mret (with_needed (with_large (with_queue meta b) true) 1).

(** The object, whether the slab has more, and what has changed: the metadata, the fast
    list and the entropy. *)
Definition alloc_free_list (meta : SlabMeta) (e : LocalEntropy) (sizeclass : Z)
    : M Mem (Z * bool * (SlabMeta * Iter * LocalEntropy)) :=
  let key := get_free_list_key e in
  '(remaining, tmp_fl, b) ← close mit random_preserve (free_queue meta) key;
  '(p, fl) ← take_ mit domesticate key tmp_fl;
  let e := if random_preserve then refresh_bits e else e in
  '(sleeping, meta) ← lift (set_sleeping sizeclass remaining (with_queue meta b));
  mret (p, negb sleeping, (meta, fl, e)).

(** The part of [small_alloc_slow] that turns a chunk into a slab. *)
Definition new_slab (sizeclass slab : Z) (meta : SlabMeta) (e : LocalEntropy)
    : M Mem (Z * bool * (SlabMeta * Iter * LocalEntropy)) :=
  rsize ← lift (sizeclass_to_size random_larger_thresholds sizeclass);
  slab_size ← lift (sizeclass_to_slab_size random_larger_thresholds sizeclass);
  meta ← initialise sizeclass slab (get_free_list_key e) meta;
  '(b, e, _) ← alloc_new_list slab (free_queue meta) rsize slab_size e;
  alloc_free_list (with_queue meta b) e sizeclass.

Definition get_slab_interior (meta : SlabMeta) (key : FreeListKey) : M Mem Z :=
  read_head mit (free_queue meta) 0 key.

(** ** Returning objects and slabs *)

Definition finish_alloc_no_zero (p sizeclass : Z) : result Z :=
  c ← from_small_class sizeclass;
  s ← is_start_of_object random_larger_thresholds c p;
  assert_ s;; Ok p.

(** The loop [while (!fl.empty())] of [clear_slab]. *)
Fixpoint drain_loop (fuel : nat) (key : FreeListKey) (fl : Iter) (count : Z) : M Mem Z :=
  match fuel with
  | O => lift (Err Diverge)
  | S fuel =>
      if Iter_empty fl then mret count
      else '(_, fl) ← take_ mit domesticate key fl; drain_loop fuel key fl (to_size (count + 1))
  end.
Definition drain (key : FreeListKey) (fl : Iter) (count : Z) : M Mem Z :=
  fuel ← (λ m, Ok (S (size m), m)); drain_loop fuel key fl count.

Definition clear_slab (meta : SlabMeta) (sizeclass : Z) (e : LocalEntropy) : M Mem (Z * SlabMeta) :=
  let key := get_free_list_key e in
  '(more, fl, b) ← close mit random_preserve (free_queue meta) key;
  '(p, fl) ← take_ mit domesticate key fl;
  p ← lift (finish_alloc_no_zero p sizeclass);
  b ← (if freelist_teardown_validate mit || clear_meta mit then
      count ← drain key fl 1;
      n ← lift (sizeclass_to_slab_object_count random_larger_thresholds sizeclass);
      check_client (to_size (count + more) =? n);;
      '(b, count) ← (if 0 <? more then
          '(no_more, fl, b) ← close mit random_preserve b key;
          lift (assert_ (no_more =? 0));;
          count ← drain key fl count;
          mret (b, count)
        else mret (b, count));
      check_client (count =? n);;
      mret b
    else mret b);
  s ← lift (sizeclass_to_slab_size random_larger_thresholds sizeclass);
  start ← lift (pointer_align_down p s);
  mret (start, with_queue meta b).

(** The result tells whether the fast path was enough. *)
Definition dealloc_local_object_fast (sizeclass p : Z) (meta : SlabMeta) (e : LocalEntropy)
    : M Mem (bool * (SlabMeta * LocalEntropy)) :=
  lift (assert_ (negb (is_unused meta)));;
  (if sanity_checks then
     s ← lift (is_start_of_object random_larger_thresholds sizeclass p); check_client s
   else mret tt);;
  let key := get_free_list_key e in
  '(b, e) ← add mit random_preserve (free_queue meta) p key e;
  let '(done, meta) := return_object (with_queue meta b) in
  mret (negb done, (meta, e)).

End Ops.
End Slab.
