(* ===== verification/SlabSpec.v ===== *)
(** * Slabs hand out each of their objects

    [new_list_complete]: the list that a new slab starts with has each of its objects once,
    whatever the random numbers are.  [slab_refines]: a slab is a set of free objects, and
    its counter tells when it is worth using again and when it is empty. *)

From stdpp Require Import base list numbers gmap.
From Stdlib Require Import ZArith Lia.
From S2P Require Import Prelude CInt SnBits SizeClass RbTree RbRun FreeList FreeListSpec Slab.
Local Open Scope Z_scope.

Module SlabSpec.
Import CInt SnBits Address SizeClass RbTree(M, M_ret, M_bind, lift) RbRun(wp, wp_ret, wp_bind, wp_mono, wp_lift, wp_assert, wp_run) Entropy FreeList FreeListSpec Slab.
#[local] Existing Instances RbTree.M_ret RbTree.M_bind.

(** ** The key of an entropy source is constant *)

Lemma next_bit_key e : key (next_bit e).2 = key e.
Proof. done. Qed.

Lemma refresh_bits_key e : key (refresh_bits e) = key e.
Proof. done. Qed.

Lemma sample_key_kept n e r e' : sample n e = Ok (r, e') → key e' = key e.
Proof.
  unfold sample, next_fresh_bits. destruct (next_pow2_bits n) as [i|]; [|done]. cbn [mbind result_bind].
  set (e1 := if count e <=? i then _ else e). assert (key e1 = key e) as <- by (unfold e1; by destruct (_ <=? _)).
  destruct (one_at_bit i) as [mask|]; [|done]. cbn [mbind result_bind].
  destruct (size_shr _ i) as [rest|]; [|done]. cbn [mbind result_bind]. by intros [= _ <-].
Qed.

Lemma choice_key RANDOM e : key (choice RANDOM e).2 = key e.
Proof. unfold choice. by destruct RANDOM. Qed.

(** ** Cycles in memory *)

(** The words of [l] hold the next object each, the last one [z]. *)
Fixpoint seg (m : gmap Z Z) (l : list Z) (z : Z) : Prop :=
  match l with [] => True | x :: l => m !! x = Some (default z (list.head l)) ∧ seg m l z end.

Definition cycle (m : gmap Z Z) (l : list Z) : Prop := seg m l (default 0 (list.head l)).

Lemma seg_app m l1 l2 z : seg m (l1 ++ l2) z ↔ seg m l1 (default z (list.head l2)) ∧ seg m l2 z.
Proof.
  induction l1 as [|x l1 IH]; cbn; [tauto|]. rewrite IH.
  assert (list.head (l1 ++ l2) = match list.head l1 with Some y => Some y | None => list.head l2 end) as ->
    by by destruct l1.
  destruct l1; cbn; tauto.
Qed.

Lemma seg_frame m m' l z : (∀ x, x ∈ l → m' !! x = m !! x) → seg m l z → seg m' l z.
Proof.
  induction l as [|x l IH]; intros Hx; cbn; [done|]. rewrite Hx by set_solver.
  intros [? ?]. split; [done|]. apply IH; set_solver.
Qed.

(** A cycle may start anywhere. *)
Lemma cycle_rotate m l1 x l2 : cycle m (l1 ++ x :: l2) → cycle m (x :: l2 ++ l1).
Proof.
  unfold cycle. destruct l1 as [|y l1]; [by rewrite app_nil_r|]. cbn [list.head app]. cbn [default].
  change (y :: l1 ++ x :: l2) with ((y :: l1) ++ x :: l2). change (x :: l2 ++ y :: l1) with ((x :: l2) ++ y :: l1).
  rewrite !seg_app. cbn [list.head default]. tauto.
Qed.

Lemma cycle_from m c x : cycle m c → x ∈ c → ∃ r, x :: r ≡ₚ c ∧ cycle m (x :: r).
Proof.
  intros Hc (l1&l2&->)%list_elem_of_split. exists (l2 ++ l1). split; [|by apply cycle_rotate].
  by rewrite app_comm_cons, Permutation_app_comm.
Qed.

(** A new object is put behind [x]. *)
Lemma cycle_insert m x r y : cycle m (x :: r) → NoDup (x :: r) → y ∉ x :: r →
  cycle (<[y := default x (list.head r)]> (<[x := y]> m)) (x :: y :: r).
Proof.
  unfold cycle. cbn. intros [_ Hr] [Hx Hnd]%NoDup_cons [Hyx Hyr]%not_elem_of_cons. split_and!.
  - by rewrite lookup_insert_ne, lookup_insert_eq.
  - by rewrite lookup_insert_eq.
  - apply (seg_frame m); [|done]. intros z Hz. rewrite !lookup_insert_ne; [done|set_solver..].
Qed.

Section Spec.
Context (mit : mitigations) (domesticate : Z → Z) (random_initial RANDOM r sanity : bool) (key : FreeListKey).
(** A slab of the class [k]: its address, its size, and the number and the size of its objects. *)
Context (k base SZ N z hd : Z) (words : gset Z).

Definition object (i : Z) : Z := base + i * z.
Definition obj (p : Z) : Prop := ∃ i, 0 ≤ i < N ∧ p = object i.
Definition objects (n : Z) : list Z := object <$> seqZ 0 n.

Abbreviation related := (FreeListSpec.related mit RANDOM key obj hd words).
Abbreviation allowed := (FreeListSpec.allowed RANDOM obj hd words).
Abbreviation spec_step := (FreeListSpec.spec_step RANDOM hd).

Context (HO : objects_ok domesticate RANDOM obj hd words).
Context (Hbase : 0 < base) (Hend : base + SZ + z < 2 ^ 64) (Hz : 0 < z).
Context (HN : 1 ≤ N < 2 ^ 16) (HS : N = SZ / z) (Hzs : z ≤ SZ).

(** ** The operations of free lists *)

Lemma wp_write a v m b it e σ (Q : unit → Mem → Prop) : related (mkState m b it e) σ → allowed (Write a v) σ →
  (∀ m', related (mkState m' b it e) (mkQueues (building σ) (taking σ) (bits σ) (<[a := v]> (client σ))) → Q tt m') →
  wp (store a v) m Q.
Proof.
  intros HR Ha HQ. destruct (write_refined mit domesticate RANDOM key obj hd words HO a v _ σ HR Ha) as (s'&E&HR').
  unfold wp. cbn [FreeListSpec.step mem builder fl entropy] in E. destruct (store a v m) as [[[] m']|]; [|done].
  injection E as <-. by apply HQ.
Qed.

Lemma wp_read a v m b it e σ (Q : Z → Mem → Prop) : related (mkState m b it e) σ → client σ !! a = Some v →
  Q v m → wp (load a) m Q.
Proof.
  intros HR Ha HQ. destruct (r_client _ _ _ _ _ _ _ _ HR a v Ha) as [Hm _]. by apply (wp_load_word _ _ v).
Qed.

(** Adding an object does not change its first word. *)
Lemma add_keeps b n e m b' e' m' : (∀ i x, (i < LENGTH RANDOM)%nat → end_ b !! i = Some x → x ≠ n) →
  add mit RANDOM b n key e m = Ok ((b', e'), m') → m' !! n = m !! n.
Proof.
  intros He. unfold add. rewrite choice_eq, Nat2Z.id. pose proof (choice_lt RANDOM e) as Hi.
  set (i := (choice RANDOM e).1) in *. set (e1 := (choice RANDOM e).2).
  unfold get_end, lift, vec_at, mbind, M_bind. destruct (end_ b !! i) as [x|] eqn:Ex; [|done].
  assert (x ≠ n) as Hxn by by apply (He i).
  assert (Hst : ∀ a v m1 m2 u, a ≠ n → store a v m1 = Ok (u, m2) → m2 !! n = m1 !! n).
  { intros a v m1 m2 u Ha. unfold store. destruct (m1 !! a); [|done]. intros [= _ <-]. by rewrite lookup_insert_ne. }
  assert (Hnx : ∀ m2 y, store_next mit x n key m = Ok (y, m2) → m2 !! n = m !! n).
  { intros m2 y. unfold store_next, set_prev, prev_encoded, mbind, M_bind, mret, M_ret.
    destruct (freelist_backward_edge mit).
    - destruct (store (n + 8) _ m) as [[u m1]|] eqn:E1; [|done]. destruct (store x _ m1) as [[u' m3]|] eqn:E2; [|done].
      intros [= _ <-]. rewrite (Hst _ _ _ _ _ Hxn E2). eapply Hst; [|exact E1]; lia.
    - destruct (store x _ m) as [[u' m3]|] eqn:E2; [|done]. intros [= _ <-]. by apply (Hst _ _ _ _ _ Hxn E2). }
  destruct (store_next mit x n key m) as [[y m2]|] eqn:E; [|done]. specialize (Hnx _ _ eq_refl).
  destruct RANDOM; [|by intros [= _ _ <-]]. destruct (length_ (set_end b i y) !! i); [|done].
  by intros [= _ _ <-].
Qed.

Lemma ends_ne s σ p : related s σ → obj p → p ∉ free_objects σ →
  ∀ i x, (i < LENGTH RANDOM)%nat → end_ (builder s) !! i = Some x → x ≠ p.
Proof.
  intros HR Hp Hf i x Hi Hx ->. destruct (building_at mit RANDOM key obj hd words s σ i HR Hi) as [l Hl].
  destruct (r_chain _ _ _ _ _ _ _ _ HR i l Hl) as [He _]. rewrite Hx in He. injection He as He.
  destruct (end_of_elem _ _ _ _ _ HO (head hd i) l) as [E|E]; rewrite <- He in E.
  - by destruct (ok_head _ _ _ _ _ HO i p Hi Hp).
  - apply Hf. unfold free_objects. apply elem_of_app. left. by apply (concat_elem _ i l).
Qed.

Lemma wp_add p m b it e σ (Q : Builder * LocalEntropy → Mem → Prop) :
  related (mkState m b it e) σ → allowed (Add p) σ →
  (∀ m' b' e', related (mkState m' b' it e') (spec_step (Add p) σ).2 → m' !! p = m !! p → Entropy.key e' = Entropy.key e →
    Q (b', e') m') →
  wp (add mit RANDOM b p key e) m Q.
Proof.
  intros HR Ha HQ. destruct (add_refined mit domesticate RANDOM key obj hd words HO p _ σ HR Ha) as (s'&E&HR').
  pose proof Ha as (Hp&Hf&_). pose proof (ends_ne _ _ p HR Hp Hf) as Hne.
  unfold wp. cbn [FreeListSpec.step mem builder fl entropy] in *.
  destruct (add mit RANDOM b p key e m) as [[[b' e'] m']|] eqn:Ea; [|done].
  injection E as <-. apply HQ; [done|by apply (add_keeps b p e m b' e')|].
  pose proof (r_bits _ _ _ _ _ _ _ _ HR') as Hb. pose proof (r_bits _ _ _ _ _ _ _ _ HR) as Hb0.
  cbn [FreeListSpec.spec_step snd bits entropy] in Hb, Hb0. rewrite <- Hb, choice_key. by rewrite Hb0.
Qed.

(** Random numbers that are drawn for other purposes. *)
Lemma related_entropy m b it e e' σ : related (mkState m b it e) σ →
  related (mkState m b it e') (mkQueues (building σ) (taking σ) e' (client σ)).
Proof. intros [? ? ? ? ? ? ? ? ? ? ?]. by constructor. Qed.

(** ** The list of a new slab *)

Lemma object_inj i j : object i = object j → i = j.
Proof. unfold object. nia. Qed.

Lemma elem_of_objects n p : p ∈ objects n ↔ ∃ i, 0 ≤ i < n ∧ p = object i.
Proof. unfold objects. rewrite list_elem_of_fmap. setoid_rewrite elem_of_seqZ. naive_solver lia. Qed.

Lemma objects_nodup n : NoDup (objects n).
Proof. apply NoDup_fmap_2; [intros i j; apply object_inj|apply NoDup_seqZ]. Qed.

Lemma objects_succ n : 0 ≤ n → objects (n + 1) = objects n ++ [object n].
Proof. intros Hn. unfold objects. rewrite seqZ_app by lia. by rewrite fmap_app. Qed.

Lemma length_objects n : 0 ≤ n → Z.of_nat (length (objects n)) = n.
Proof. intros Hn. unfold objects. rewrite length_fmap, length_seqZ. lia. Qed.

Lemma object_range i : 0 ≤ i ≤ N → 0 < object i ∧ object i < 2 ^ 64 ∧ 0 ≤ i * z ∧ i * z ≤ SZ.
Proof.
  intros Hi. unfold object. pose proof (Z.mul_div_le SZ z Hz). assert (i * z ≤ N * z) by nia.
  rewrite HS in *. nia.
Qed.

(** An index times the size of an object does not wrap around. *)
Lemma pointer_to_object i : 0 ≤ i ≤ N → pointer_offset base (to_size (i * z)) = Ok (object i).
Proof.
  intros Hi. destruct (object_range i Hi) as (?&?&?&?).
  rewrite to_size_id by (unfold is_size, SIZE_MAX; lia). apply pointer_offset_Ok; [done|lia|unfold object in *; lia].
Qed.

Lemma pointer_to_next i : 0 ≤ i ≤ N → pointer_offset (object i) z = Ok (object (i + 1)).
Proof.
  intros Hi. destruct (object_range i Hi) as (?&?&?&?). rewrite pointer_offset_Ok by (unfold object in *; lia).
  f_equal. unfold object. lia.
Qed.

Lemma slab_end_Ok : pointer_offset base (to_size (SZ + 1 - z)) = Ok (base + (SZ + 1 - z)).
Proof. rewrite to_size_id by (unfold is_size, SIZE_MAX; lia). apply pointer_offset_Ok; lia. Qed.

(** The comparison with [slab_end] counts the objects. *)
Lemma before_end i : 0 ≤ i → (object i <? base + (SZ + 1 - z)) = (i <? N).
Proof.
  intros Hi. unfold object. rewrite HS. apply eq_true_iff_eq. rewrite !Z.ltb_lt.
  pose proof (Z.mul_div_le SZ z Hz). pose proof (Z.mul_succ_div_gt SZ z Hz). nia.
Qed.

(** A word of an object that is not free may be written. *)
Lemma write_allowed p v σ : obj p → free_objects σ = [] → allowed (Write p v) σ.
Proof.
  intros Hp Hf. split; [by apply (ok_mapped _ _ _ _ _ HO)|]. split; [|rewrite Hf; set_solver].
  intros i Hi ->. by destruct (ok_head _ _ _ _ _ HO i _ Hi Hp).
Qed.

(** What the words of other objects keep. *)
Definition apart (a : Z) : Prop := ∀ p, obj p → a ≠ p ∧ a ≠ p + 8.

Lemma wp_cycle_loop fuel n m b it e σ c (Q : Z * LocalEntropy → Mem → Prop) :
  related (mkState m b it e) σ → free_objects σ = [] → 1 ≤ n ≤ N → (Z.to_nat (N - n) < fuel)%nat →
  c ≡ₚ objects n → cycle (client σ) c →
  (∀ m' e' σ' c', related (mkState m' b it e') σ' → building σ' = building σ → taking σ' = taking σ →
    (∀ a, apart a → client σ' !! a = client σ !! a) → Entropy.key e' = Entropy.key e →
    c' ≡ₚ objects N → cycle (client σ') c' → Q (N, e') m') →
  wp (cycle_loop fuel base z (base + (SZ + 1 - z)) (object n) n e) m Q.
Proof.
  revert n m e σ c. induction fuel as [|fuel IH]; intros n m e σ c HR Hf Hn Hfuel Hc Hcy HQ; [lia|].
  cbn [cycle_loop]. rewrite before_end by lia. destruct (Z.ltb_spec n N) as [Hlt|Hge]; last first.
  { assert (n = N) as -> by lia. by apply wp_ret, (HQ _ _ σ c). }
  destruct (sample_range n e ltac:(lia)) as (i&e1&Es&Hi).
  apply wp_bind, (wp_lift _ (i, e1)); [done|].
  apply wp_bind, (wp_lift _ (object i)); [apply pointer_to_object; lia|].
  destruct (cycle_from (client σ) c (object i) Hcy) as (l&Hl&Hcy').
  { rewrite Hc. apply elem_of_objects. exists i. by split; [lia|]. }
  assert (Hol : obj (object i) ∧ obj (object n)) by (split; [exists i|exists n]; by split; [lia|]).
  assert (Hnd : NoDup (object i :: l)) by (rewrite Hl, Hc; apply objects_nodup).
  assert (Hni : object n ∉ object i :: l).
  { rewrite Hl, Hc, elem_of_objects. intros (j&Hj&E%object_inj). lia. }
  pose proof (related_entropy _ _ _ _ e1 _ HR) as HR1.
  apply wp_bind, (wp_read _ (default (object i) (list.head l)) _ _ _ _ _ _ HR1); [by destruct Hcy'|].
  apply wp_bind, (wp_write _ _ _ _ _ _ _ _ HR1); [by apply write_allowed; [apply Hol|]|]. intros m1 HR2.
  apply wp_bind, (wp_write _ _ _ _ _ _ _ _ HR2); [by apply write_allowed; [apply Hol|]|]. intros m2 HR3.
  cbn [building taking bits client] in *.
  apply wp_bind, (wp_lift _ (object (n + 1))); [apply pointer_to_next; lia|].
  replace (to_uint16 (n + 1)) with (n + 1) by (unfold to_uint16; rewrite Z.mod_small; lia).
  apply (IH (n + 1) m2 e1 _ (object i :: object n :: l) HR3); [exact Hf|lia|lia| |cbn [client]; by apply cycle_insert|].
  - rewrite objects_succ by lia. rewrite <- Hc, <- Hl, Permutation_app_comm. apply Permutation_swap.
  - cbn [building taking bits client]. intros m' e' σ' c' HR' Hb Ht Hcl Hk Hc' Hcy2.
    apply (HQ m' e' σ' c'); try done; [|by rewrite Hk; apply (sample_key_kept n e i e1)].
    intros a Ha. rewrite Hcl by done. destruct (Ha _ (proj1 Hol)), (Ha _ (proj2 Hol)).
    by rewrite !lookup_insert_ne by congruence.
Qed.

(** An object that is added is in one of the queues. *)
Lemma add_building s σ p : related s σ →
  concat (building (spec_step (Add p) σ).2) ≡ₚ p :: concat (building σ) ∧
  free_objects (spec_step (Add p) σ).2 ≡ₚ p :: free_objects σ.
Proof.
  intros HR. cbn [FreeListSpec.spec_step snd].
  destruct (building_at mit RANDOM key obj hd words s σ _ HR (choice_lt RANDOM (bits σ))) as [l Hl].
  unfold free_objects. cbn [building taking]. by rewrite !(concat_alter_snoc _ _ l p Hl).
Qed.

(** What adding the objects of [l] has done. *)
Definition added (l : list Z) (σ : queues) (e : LocalEntropy) (σ' : queues) (e' : LocalEntropy) : Prop :=
  concat (building σ') ≡ₚ l ++ concat (building σ) ∧ taking σ' = taking σ ∧
  (∀ a, apart a → client σ' !! a = client σ !! a) ∧ Entropy.key e' = Entropy.key e.

Lemma added_cons s σ e x l σ2 e1 e2 : related s σ → obj x → Entropy.key e1 = Entropy.key e →
  added l (spec_step (Add x) σ).2 e1 σ2 e2 → added (x :: l) σ e σ2 e2.
Proof.
  intros HR Hx He (Hb&Ht&Hc&Hk). destruct (add_building s σ x HR) as [Hb1 _].
  split_and!; [|done| |congruence].
  - rewrite Hb, Hb1. by rewrite <- Permutation_middle.
  - intros a Ha. rewrite Hc by done. cbn. destruct (Ha x Hx). by rewrite !lookup_delete_ne by congruence.
Qed.

Lemma add_allowed p σ : obj p → p ∉ free_objects σ → Z.of_nat (length (free_objects σ)) < 2 ^ 16 - 1 →
  allowed (Add p) σ.
Proof. done. Qed.

Lemma wp_add_loop fuel start x l m b it e σ (Q : Builder * LocalEntropy → Mem → Prop) :
  related (mkState m b it e) σ → NoDup (x :: l) → Forall obj (x :: l) → (∀ p, p ∈ x :: l → p ∉ free_objects σ) →
  start ∉ l → seg (client σ) (x :: l) start → Z.of_nat (length (free_objects σ) + length (x :: l)) < 2 ^ 16 →
  (length (x :: l) ≤ fuel)%nat →
  (∀ m' b' e' σ', related (mkState m' b' it e') σ' → added (x :: l) σ e σ' e' → Q (b', e') m') →
  wp (add_loop mit RANDOM fuel key start x b e) m Q.
Proof.
  revert fuel x m b e σ. induction l as [|y l IH]; intros [|fuel] x m b e σ HR Hnd Hobj Hfr Hst Hs Hlen Hfuel HQ;
    cbn [length] in *; try lia; cbn [add_loop]; destruct Hs as [Hx Hs]; cbn in Hx;
    apply Forall_cons in Hobj as [Hox Hobj]; apply NoDup_cons in Hnd as [Hxl Hnd];
    destruct (r_client _ _ _ _ _ _ _ _ HR x _ Hx) as [Hmx _]; cbn [mem] in Hmx.
  all: apply wp_bind, (wp_add x _ _ _ _ _ _ HR); [apply add_allowed; [done|by apply Hfr; left|lia]|].
  all: intros m1 b1 e1 HR1 Hm1 Hk1; cbn [mem] in Hm1; rewrite Hmx in Hm1.
  all: apply wp_bind, (wp_load_word _ _ _ _ Hm1).
  - rewrite Z.eqb_refl. apply wp_ret, (HQ _ _ _ _ HR1), (added_cons _ _ _ _ _ _ e1 _ HR Hox Hk1).
    split_and!; done.
  - rewrite (proj2 (Z.eqb_neq _ _)) by (intros ->; apply Hst; by left).
    destruct (add_building _ σ x HR) as [_ Hfree].
    apply (IH fuel y m1 b1 e1 _ HR1); [done|done| |by intros ?; apply Hst; right| |rewrite Hfree; cbn [length]; lia|lia|].
    + intros p Hp. rewrite Hfree. intros [->|Hin]%elem_of_cons; [done|]. by apply (Hfr p); [by right|].
    + apply (seg_frame (client σ)); [|done]. intros p Hp. cbn.
      assert (obj p) as Hop by by apply (Forall_forall obj (y :: l)).
      pose proof (ok_apart _ _ _ _ _ HO p x Hop Hox). rewrite !lookup_delete_ne; [done|congruence|by intros ->].
    + intros m' b' e' σ' HR' Hadd. by apply (HQ _ _ _ _ HR'), (added_cons _ _ _ _ _ _ e1 _ HR Hox Hk1).
Qed.

Lemma object_obj i : 0 ≤ i < N → obj (object i).
Proof. intros Hi. by exists i. Qed.

(** The objects from the index [n] on. *)
Definition objects_from (n : Z) : list Z := object <$> seqZ n (N - n).

Lemma objects_from_cons n : n < N → objects_from n = object n :: objects_from (n + 1).
Proof.
  intros Hn. unfold objects_from. rewrite (seqZ_cons n) by lia. cbn. do 3 f_equal; lia.
Qed.

Lemma elem_of_objects_from n p : p ∈ objects_from n → ∃ i, n ≤ i < N ∧ p = object i.
Proof. unfold objects_from. intros (i&->&Hi%elem_of_seqZ)%list_elem_of_fmap. exists i. split; [lia|done]. Qed.

Lemma wp_bump_loop fuel n m b it e σ (Q : Builder * LocalEntropy → Mem → Prop) :
  related (mkState m b it e) σ → 0 ≤ n < N → (∀ p, p ∈ objects_from n → p ∉ free_objects σ) →
  Z.of_nat (length (free_objects σ)) = n → (Z.to_nat (N - n) ≤ fuel)%nat →
  (∀ m' b' e' σ', related (mkState m' b' it e') σ' → added (objects_from n) σ e σ' e' → Q (b', e') m') →
  wp (bump_loop mit RANDOM fuel key z (base + (SZ + 1 - z)) (object n) b e) m Q.
Proof.
  revert n m b e σ. induction fuel as [|fuel IH]; intros n m b e σ HR Hn Hfr Hlen Hfuel HQ; [lia|].
  cbn [bump_loop]. rewrite objects_from_cons in * by lia. pose proof (object_obj n Hn) as Hox.
  apply wp_bind, (wp_add (object n) _ _ _ _ _ _ HR); [apply add_allowed; [done|by apply Hfr; left|lia]|].
  intros m1 b1 e1 HR1 _ Hk1.
  apply wp_bind, (wp_lift _ (object (n + 1))); [apply pointer_to_next; lia|].
  rewrite before_end by lia. destruct (add_building _ σ (object n) HR) as [_ Hfree].
  destruct (Z.ltb_spec (n + 1) N).
  - apply (IH (n + 1) m1 b1 e1 _ HR1); [lia| |rewrite Hfree; cbn [length]; lia|lia|].
    + intros p Hp. rewrite Hfree. intros [->|Hin]%elem_of_cons; [|by apply (Hfr p); [by right|]].
      apply elem_of_objects_from in Hp as (i&Hi&E%object_inj). lia.
    + intros m' b' e' σ' HR' Hadd. by apply (HQ _ _ _ _ HR'), (added_cons _ _ _ _ _ _ e1 _ HR Hox Hk1).
  - apply wp_ret, (HQ _ _ _ _ HR1), (added_cons _ _ _ _ _ _ e1 _ HR Hox Hk1).
    assert (objects_from (n + 1) = []) as -> by (unfold objects_from; rewrite seqZ_nil by lia; done).
    split_and!; done.
Qed.

Lemma object_0 : object 0 = base.
Proof. unfold object. lia. Qed.

Lemma free_objects_nil σ : free_objects σ = [] → concat (building σ) = [] ∧ taking σ = [].
Proof. apply app_eq_nil. Qed.

(** All objects of the slab are in the queues, in whatever order. *)
Lemma wp_alloc_new_list m b it e σ (Q : Builder * LocalEntropy * Z → Mem → Prop) :
  related (mkState m b it e) σ → free_objects σ = [] → Entropy.key e = key →
  (∀ m' b' e' σ', related (mkState m' b' it e') σ' → added (objects N) σ e σ' e' →
    Q (b', e', base + (SZ + 1 - z)) m') →
  wp (alloc_new_list mit random_initial RANDOM base b z SZ e) m Q.
Proof.
  intros HR Hf Hkey HQ. unfold alloc_new_list, get_free_list_key. rewrite Hkey, <- HS.
  apply wp_bind, (wp_lift _ _ _ _ slab_end_Ok).
  assert (Hret : ∀ m' b' e' σ', related (mkState m' b' it e') σ' → added (objects N) σ e σ' e' →
    wp (mret (b', e', base + (SZ + 1 - z))) m' Q) by (intros; by eapply wp_ret, HQ).
  destruct random_initial; [|].
  - pose proof (object_obj 0 ltac:(lia)) as Ho. rewrite object_0 in Ho.
    apply wp_bind, wp_bind, (wp_lift _ base); [rewrite pointer_offset_Ok by lia; f_equal; lia|].
    apply wp_bind, (wp_write _ _ _ _ _ _ _ _ HR); [by apply write_allowed|]. intros m1 HR1.
    apply wp_bind, (wp_lift _ (object 1)); [rewrite <- object_0; by apply pointer_to_next; lia|].
    apply wp_bind, (wp_cycle_loop _ 1 _ _ _ _ _ [base] _ HR1); [exact Hf|lia|lia| | |].
    { unfold objects. change (seqZ 0 1) with [0]. cbn. by rewrite object_0. }
    { unfold cycle. cbn. by rewrite lookup_insert_eq. }
    cbn [building taking bits client]. intros m2 e2 σ2 c HR2 Hb2 Ht2 Hc2 Hk2 Hperm Hcy.
    destruct (sample_range N e2 ltac:(lia)) as (i&e3&Es&Hi).
    apply wp_bind, (wp_lift _ (i, e3)); [done|].
    apply wp_bind, (wp_lift _ (object i)); [apply pointer_to_object; lia|].
    destruct (cycle_from (client σ2) c (object i) Hcy) as (l&Hl&Hcyl).
    { rewrite Hperm. apply elem_of_objects. by exists i. }
    set (start := default (object i) (list.head l)).
    pose proof (related_entropy _ _ _ _ e3 _ HR2) as HR3.
    apply wp_bind, (wp_read _ start _ _ _ _ _ _ HR3); [by destruct Hcyl|].
    destruct (cycle_from (client σ2) c start Hcy) as (l2&Hl2&Hcyl2).
    { rewrite <- Hl. unfold start. destruct l; cbn; [by left|by right; left]. }
    assert (Hnd : NoDup (start :: l2)) by (rewrite Hl2, Hperm; apply objects_nodup).
    apply (wp_add_loop _ start start l2 _ _ _ _ _ _ HR3); [done| | | |exact Hcyl2| | |].
    + rewrite Hl2, Hperm. apply Forall_forall. intros p (j&Hj&->)%elem_of_objects. by apply object_obj.
    + intros p _. unfold free_objects. cbn [building taking]. rewrite Hb2, Ht2. fold (free_objects σ).
      rewrite Hf. by intros ?%not_elem_of_nil.
    + by apply NoDup_cons in Hnd as [? _].
    + rewrite Hl2, Hperm. unfold free_objects. cbn [building taking]. rewrite Hb2, Ht2. fold (free_objects σ).
      rewrite Hf. cbn [length Nat.add]. rewrite length_objects; lia.
    + rewrite Hl2, Hperm. pose proof (length_objects N ltac:(lia)). lia.
    + intros m' b' e' σ' HR' (Hb&Ht&Hc&Hk). cbn [building taking bits client] in *.
      apply (Hret m' b' e' σ' HR'). split_and!.
      * rewrite Hb, Hl2, Hperm. by rewrite Hb2.
      * by rewrite Ht.
      * intros a Ha. rewrite Hc, Hc2 by done. destruct (Ha base Ho). by rewrite lookup_insert_ne by congruence.
      * rewrite Hk, (sample_key_kept _ _ _ _ Es). done.
  - rewrite <- object_0 at 2. apply wp_bind, (wp_bump_loop _ 0 _ _ _ _ _ _ HR); [lia| |by rewrite Hf|lia|].
    + intros p _. rewrite Hf. by intros ?%not_elem_of_nil.
    + intros m' b' e' σ' HR' Hadd. apply (Hret m' b' e' σ' HR').
      unfold objects_from in Hadd. by rewrite Z.sub_0_r in Hadd.
Qed.

(** ** The life of a slab *)

(** The state of a slab: the memory, its metadata, the fast list of its class, the entropy. *)
Record slab := mkSlab { words_ : Mem; meta_ : SlabMeta; fast : Iter; ent : LocalEntropy }.

Inductive slab_op :=
| Fast                  (* an allocation from the fast list *)
| Refill                (* an allocation that refills the fast list from the slab *)
| Return (p : Z)        (* a deallocation, with what the slow path does to the metadata *)
| WriteWord (a v : Z)   (* by the client *)
| ReadWord (a : Z).     (* by the client *)

Inductive slab_answer :=
| Got (p : Z) | Refilled (p : Z) (still_active : bool) | Returned (fast_path woken : bool) | Word (v : Z) | Written.

Definition slab_step (o : slab_op) (s : slab) : result (slab_answer * slab) :=
  match o with
  | Fast =>
      '((p, it), m) ← take_ mit domesticate key (fast s) (words_ s);
      Ok (Got p, mkSlab m (meta_ s) it (ent s))
  | Refill =>
      '((p, active, (meta, it, e)), m) ← alloc_free_list mit domesticate RANDOM r (meta_ s) (ent s) k (words_ s);
      Ok (Refilled p active, mkSlab m meta it e)
  | Return p =>
      '((fast_path, (meta, e)), m) ←
        dealloc_local_object_fast mit RANDOM r sanity (TAG + k) p (meta_ s) (ent s) (words_ s);
      let woken := negb fast_path && is_sleeping meta in
      meta ← (if woken then set_not_sleeping r k meta else Ok meta);
      Ok (Returned fast_path woken, mkSlab m meta (fast s) e)
  | WriteWord a v => '(_, m) ← store a v (words_ s); Ok (Written, mkSlab m (meta_ s) (fast s) (ent s))
  | ReadWord a => '(v, m) ← load a (words_ s); Ok (Word v, mkSlab m (meta_ s) (fast s) (ent s))
  end.

Fixpoint run_slab (ops : list slab_op) (s : slab) : result (list slab_answer * slab) :=
  match ops with
  | [] => Ok ([], s)
  | o :: ops => '(a, s) ← slab_step o s; '(l, s) ← run_slab ops s; Ok (a :: l, s)
  end.

(** The specification: the free objects in their queues, those that the program has, and
    whether the slab is asleep; [w] is the threshold for waking it. *)
Record ghost := mkGhost { q : queues; used : list Z; asleep : bool }.
Context (w : Z).

(** The number of the objects that wait in the slab. *)
Definition waiting (g : ghost) : Z := Z.of_nat (length (concat (building (q g)))).

Definition close_queue (σ : queues) : queues := (FreeListSpec.spec_step RANDOM hd Close σ).2.
Definition take_queue (σ : queues) : queues := (FreeListSpec.spec_step RANDOM hd Take σ).2.

Definition slab_spec (o : slab_op) (g : ghost) : slab_answer * ghost :=
  match o with
  | Fast =>
      let p := default 0 (list.head (taking (q g))) in
      (Got p, mkGhost (take_queue (q g)) (p :: used g) (asleep g))
  | Refill =>
      let σ := close_queue (q g) in
      let p := default 0 (list.head (taking σ)) in
      let σ := take_queue σ in
      let e := if RANDOM then refresh_bits (bits σ) else bits σ in
      let σ := mkQueues (building σ) (taking σ) e (client σ) in
      let a := Z.of_nat (length (concat (building σ))) <? w in
      (Refilled p (negb a), mkGhost σ (p :: used g) a)
  | Return p =>
      let g' := mkGhost (spec_step (Add p) (q g)).2 (without p (used g)) (asleep g) in
      let full := waiting g' =? (if asleep g then w else N) in
      (Returned (negb full) (full && asleep g), mkGhost (q g') (used g') (asleep g && negb full))
  | WriteWord a v => (Written, mkGhost (spec_step (Write a v) (q g)).2 (used g) (asleep g))
  | ReadWord a => (Word (default 0 (client (q g) !! a)), g)
  end.

(** What callers have to respect. *)
Definition slab_allowed (o : slab_op) (g : ghost) : Prop :=
  match o with
  | Fast => taking (q g) ≠ []
  | Refill => taking (q g) = [] ∧ asleep g = false
  | Return p => p ∈ used g
  | WriteWord a v => allowed (Write a v) (q g)
  | ReadWord a => allowed (Read a) (q g)
  end.

Fixpoint slab_all_allowed (ops : list slab_op) (g : ghost) : Prop :=
  match ops with [] => True | o :: ops => slab_allowed o g ∧ slab_all_allowed ops (slab_spec o g).2 end.
Fixpoint spec_slab (ops : list slab_op) (g : ghost) : list slab_answer * ghost :=
  match ops with
  | [] => ([], g)
  | o :: ops => let '(a, g) := slab_spec o g in let '(l, g) := spec_slab ops g in (a :: l, g)
  end.

Record slab_ok (s : slab) (g : ghost) : Prop := {
  s_related : related (mkState (words_ s) (free_queue (meta_ s)) (fast s) (ent s)) (q g);
  s_key : Entropy.key (ent s) = key;
  s_objects : free_objects (q g) ++ used g ≡ₚ objects N;
  s_asleep : sleeping_ (meta_ s) = asleep g;
  s_needed : needed_ (meta_ s) = (if asleep g then w else N) - waiting g;
  s_waiting : if asleep g then waiting g < w else w ≤ waiting g;
}.

Context (Hw : 1 ≤ w < N) (Hcount : sizeclass_to_slab_object_count r k = Ok N).
Context (Hthreshold : threshold_for_waking_slab r k = Ok w).
Context (Hstart : ∀ i, 0 ≤ i < N → is_start_of_object r (TAG + k) (object i) = Ok true).

(** ** Closing and taking *)

(** One queue, which is closed, or two, of which the longer one is closed. *)
Lemma longest_cases s σ : related s σ →
  (RANDOM = false ∧ longest RANDOM (building σ) = 0%nat ∧ ∃ l, building σ = [l]) ∨
  (RANDOM = true ∧ ∃ l0 l1, building σ = [l0; l1] ∧
    (longest RANDOM (building σ) = 0%nat ∧ (length l1 < length l0)%nat ∨
     longest RANDOM (building σ) = 1%nat ∧ (length l0 ≤ length l1)%nat)).
Proof.
  intros HR. pose proof (r_lists _ _ _ _ _ _ _ _ HR) as Hlen. unfold longest, LENGTH in *. destruct RANDOM.
  - right. split; [done|]. destruct (building σ) as [|l0 [|l1 [|]]]; try done. exists l0, l1. split; [done|].
    case_decide as H; cbn in H; [left|right]; (split; [done|lia]).
  - left. destruct (building σ) as [|l0 [|]]; try done. split; [done|]. split; [done|]. by exists l0.
Qed.

Lemma wp_close m b it e σ (Q : Z * Iter * Builder → Mem → Prop) : related (mkState m b it e) σ →
  (∀ m' it' b', related (mkState m' b' it' e) (close_queue σ) →
    Q (Z.of_nat (length (concat (building (close_queue σ)))), it', b') m') →
  wp (close mit RANDOM b key) m Q.
Proof.
  intros HR HQ. destruct (close_refined mit domesticate RANDOM key obj hd words HO _ σ HR) as (s'&E&HR').
  unfold wp. cbn [FreeListSpec.step mem builder fl entropy] in E.
  destruct (close mit RANDOM b key m) as [[[[n it'] b'] m']|]; [|done]. cbn [mbind result_bind] in E.
  injection E as En <-.
  assert (n = Z.of_nat (length (concat (building (close_queue σ))))) as ->; [|by apply HQ].
  rewrite En. unfold close_queue. cbn [FreeListSpec.spec_step snd building].
  destruct (longest_cases _ σ HR) as [(->&->&l&->)|(->&l0&l1&->&[[-> _]|[-> _]])]; cbn; by rewrite ?app_nil_r.
Qed.

(** The queue that is closed is not empty, unless all are. *)
Lemma close_taking s σ : related s σ →
  taking (close_queue σ) ++ concat (building (close_queue σ)) ≡ₚ concat (building σ) ∧
  (concat (building σ) ≠ [] → taking (close_queue σ) ≠ []).
Proof.
  intros HR. unfold close_queue. cbn [FreeListSpec.spec_step snd building taking].
  pose proof (longest_lt RANDOM σ) as Hi. destruct (building_at mit RANDOM key obj hd words s σ _ HR Hi) as [l Hl].
  split; [rewrite Hl; by apply concat_insert_nil|].
  destruct (longest_cases _ σ HR) as [(_&->&l'&->)|(_&l0&l1&->&[[-> Hlt]|[-> Hlt]])]; cbn; rewrite ?app_nil_r;
    [done|destruct l0; cbn in *; [lia|done]|].
  intros Hne ->. destruct l0; cbn in *; [done|lia].
Qed.

Lemma wp_take_one m b it e σ (Q : Z * Iter → Mem → Prop) : related (mkState m b it e) σ → taking σ ≠ [] →
  (∀ m' it', related (mkState m' b it' e) (take_queue σ) → Q (default 0 (list.head (taking σ)), it') m') →
  wp (take_ mit domesticate key it) m Q.
Proof.
  intros HR Hne HQ. destruct (take_refined mit domesticate RANDOM key obj hd words HO _ σ HR Hne) as (s'&E&HR').
  unfold wp. cbn [FreeListSpec.step mem builder fl entropy] in E.
  destruct (take_ mit domesticate key it m) as [[[p it'] m']|]; [|done]. cbn [mbind result_bind] in E.
  injection E as -> <-. by apply HQ.
Qed.

Lemma set_sleeping_Ok rem meta : 0 ≤ rem ≤ N →
  set_sleeping r k rem meta = Ok (rem <? w,
    mkMeta (free_queue meta) ((if rem <? w then w else N) - rem) (rem <? w) (large_ meta)).
Proof.
  intros Hr. unfold set_sleeping. rewrite Hthreshold. cbn [mbind result_bind]. unfold to_uint16.
  destruct (Z.leb_spec w rem), (Z.ltb_spec rem w); try lia; [rewrite Hcount; cbn [mbind result_bind]|];
    unfold with_sleeping, with_needed, to_uint16; cbn; rewrite Z.mod_small by lia; done.
Qed.

(** ** The steps *)

Definition slab_refined (o : slab_op) (s : slab) (g : ghost) : Prop :=
  ∃ s', slab_step o s = Ok ((slab_spec o g).1, s') ∧ slab_ok s' (slab_spec o g).2.

(** What is free, after an object has been taken. *)
Lemma take_queue_objects σ p l : taking σ = p :: l →
  free_objects (take_queue σ) ++ [p] ≡ₚ free_objects σ ∧ building (take_queue σ) = building σ.
Proof.
  intros E. unfold take_queue, free_objects. cbn [FreeListSpec.spec_step snd building taking]. rewrite E. cbn.
  split; [|done]. rewrite <- app_assoc. by rewrite <- Permutation_cons_append.
Qed.

Lemma fast_refined s g : slab_ok s g → slab_allowed Fast g → slab_refined Fast s g.
Proof.
  intros Hs Hne. unfold slab_refined. cbn [slab_step slab_spec fst snd slab_allowed] in *.
  destruct (taking (q g)) as [|p l] eqn:Et; [done|].
  destruct (wp_run (take_ mit domesticate key (fast s)) (words_ s) (λ x m',
    x.1 = p ∧ related (mkState m' (free_queue (meta_ s)) x.2 (ent s)) (take_queue (q g)))) as ([p' it]&m'&E&Ep&HR).
  { apply (wp_take_one _ _ _ _ _ _ (s_related _ _ Hs)); [by rewrite Et|]. intros m' it HR. by rewrite Et. }
  cbn [fst snd] in *. subst p'. rewrite E. cbn [mbind result_bind list.head]. change (default 0 (Some p)) with p.
  eexists. split; [done|]. destruct (take_queue_objects (q g) p l Et) as [Hf Hb].
  constructor; cbn [words_ meta_ fast ent q used asleep]; try apply Hs; [done|..];
    unfold waiting; cbn [q]; rewrite ?Hb; try apply Hs.
  rewrite (Permutation_cons_append (used g)), <- (s_objects _ _ Hs), <- Hf, <- !app_assoc. f_equiv.
  by rewrite Permutation_app_comm.
Qed.

Lemma objects_bounded g : free_objects (q g) ++ used g ≡ₚ objects N →
  0 ≤ waiting g ∧ waiting g + Z.of_nat (length (taking (q g)) + length (used g)) = N.
Proof.
  intros Hobj. pose proof (Permutation_length Hobj) as Hl. pose proof (length_objects N ltac:(lia)).
  unfold free_objects in Hl. rewrite !length_app in Hl. unfold waiting. lia.
Qed.

(** Whatever the metadata says, a slab with waiting objects can fill the fast list. *)
Lemma wp_alloc_free_list m meta it e g (Q : Z * bool * (SlabMeta * Iter * LocalEntropy) → Mem → Prop) :
  related (mkState m (free_queue meta) it e) (q g) → Entropy.key e = key →
  free_objects (q g) ++ used g ≡ₚ objects N → taking (q g) = [] → 1 ≤ waiting g →
  (∀ p active m' meta' it' e', (slab_spec Refill g).1 = Refilled p active →
    slab_ok (mkSlab m' meta' it' e') (slab_spec Refill g).2 → Q (p, active, (meta', it', e')) m') →
  wp (alloc_free_list mit domesticate RANDOM r meta e k) m Q.
Proof.
  intros HR Hkey Hobj Ht Hwait HQ. destruct (objects_bounded g Hobj) as [Hbd0 Hbd].
  destruct (close_taking _ _ HR) as [Hperm Hne].
  assert (Htk : taking (close_queue (q g)) ≠ []).
  { apply Hne. intros E. unfold waiting in Hwait. rewrite E in Hwait. cbn in Hwait. lia. }
  cbn [slab_spec fst snd] in HQ. destruct (taking (close_queue (q g))) as [|p l] eqn:Et; [done|].
  destruct (take_queue_objects _ p l Et) as [Hf Hb]. cbn [list.head] in HQ. change (default 0 (Some p)) with p in HQ.
  set (σ := take_queue (close_queue (q g))) in *. set (n := Z.of_nat (length (concat (building σ)))) in *.
  set (e2 := if RANDOM then refresh_bits (bits σ) else bits σ) in *.
  assert (Hn : 0 ≤ n < N).
  { pose proof (Permutation_length Hperm) as Hl. rewrite length_app in Hl. cbn [length] in Hl.
    unfold n. rewrite Hb. unfold waiting in Hbd. lia. }
  unfold alloc_free_list, get_free_list_key. rewrite Hkey.
  apply wp_bind, (wp_close _ _ _ _ _ _ HR). intros m1 it1 b1 HR1. rewrite <- Hb. fold n.
  apply wp_bind, (wp_take_one _ _ _ _ _ _ HR1); [by rewrite Et|]. intros m2 it2 HR2. rewrite Et. cbn [list.head].
  change (default 0 (Some p)) with p. apply wp_bind; eapply wp_lift; [apply set_sleeping_Ok; lia|].
  assert (bits σ = e) as Hbits by apply (r_bits _ _ _ _ _ _ _ _ HR2).
  apply wp_ret, HQ; [done|]. rewrite <- Hbits. fold e2.
  constructor; cbn [words_ meta_ fast ent q used asleep sleeping_ needed_ free_queue with_queue];
    unfold waiting; cbn [q building]; fold n; try done.
  - by apply (related_entropy _ _ _ e).
  - unfold e2. rewrite Hbits. by destruct RANDOM.
  - rewrite (Permutation_cons_append (used g)), <- Hobj.
    change (free_objects (mkQueues (building σ) (taking σ) e2 (client σ))) with (free_objects σ).
    rewrite (Permutation_app_comm (used g)), (assoc_L (++)), Hf. f_equiv.
    unfold free_objects. rewrite Ht, app_nil_r, Et, <- Hperm. by rewrite Permutation_app_comm.
  - destruct (Z.ltb_spec n w); lia.
Qed.

Lemma refill_refined s g : slab_ok s g → slab_allowed Refill g → slab_refined Refill s g.
Proof.
  intros Hs [Ht Ha]. pose proof (s_waiting _ _ Hs) as Hwait. rewrite Ha in Hwait. unfold slab_refined.
  destruct (wp_run (alloc_free_list mit domesticate RANDOM r (meta_ s) (ent s) k) (words_ s) (λ x m',
    ∃ p active meta it e, x = (p, active, (meta, it, e)) ∧ (slab_spec Refill g).1 = Refilled p active ∧
      slab_ok (mkSlab m' meta it e) (slab_spec Refill g).2)) as (x&m'&E&p&active&meta&it&e&->&Ep&Hok).
  { apply (wp_alloc_free_list _ _ (fast s) _ g); [apply Hs|apply Hs|apply Hs|done|lia|]. eauto 10. }
  cbn [slab_step]. rewrite E, Ep. cbn [mbind result_bind]. by eexists.
Qed.

Lemma waiting_bound s g : slab_ok s g → 0 ≤ waiting g ∧ waiting g + Z.of_nat (length (used g)) ≤ N.
Proof. intros Hs. destruct (objects_bounded g (s_objects _ _ Hs)). lia. Qed.

Lemma used_objects s g p : slab_ok s g → p ∈ used g →
  (∃ i, 0 ≤ i < N ∧ p = object i) ∧ p ∉ free_objects (q g) ∧ used g ≡ₚ p :: without p (used g) ∧
  Z.of_nat (length (free_objects (q g))) < N.
Proof.
  intros Hs Hp. pose proof (s_objects _ _ Hs) as Hobj. pose proof (objects_nodup N) as Hnd. rewrite <- Hobj in Hnd.
  apply NoDup_app in Hnd as (_&Hap&Hnd). split_and!.
  - apply elem_of_objects. rewrite <- Hobj. set_solver.
  - set_solver.
  - by apply without_Permutation.
  - pose proof (Permutation_length Hobj) as Hl. pose proof (length_objects N ltac:(lia)).
    rewrite length_app in Hl. destruct (used g); [set_solver|]. cbn [length] in Hl. lia.
Qed.

Lemma to_uint16_id n : 0 ≤ n < 2 ^ 16 → to_uint16 n = n.
Proof. apply Z.mod_small. Qed.

Lemma return_refined p s g : slab_ok s g → slab_allowed (Return p) g → slab_refined (Return p) s g.
Proof.
  intros Hs Hp. cbn [slab_allowed] in Hp. destruct (used_objects s g p Hs Hp) as ((j&Hj&Ep)&Hfree&Hused&Hlen).
  pose proof (waiting_bound s g Hs) as Hbd. pose proof (s_waiting _ _ Hs) as Hwait. pose proof (s_needed _ _ Hs) as Hnd.
  assert (Hul : (0 < length (used g))%nat) by (destruct (used g); [set_solver|cbn; lia]).
  set (limit := if asleep g then w else N) in *.
  assert (Hlim : waiting g < limit ≤ N) by (unfold limit; destruct (asleep g); lia).
  unfold slab_refined. cbn [slab_step slab_spec fst snd]. fold limit.
  set (σ := (spec_step (Add p) (q g)).2). destruct (add_building _ _ p (s_related _ _ Hs)) as [Hb Hf]. fold σ in Hb, Hf.
  assert (Hw1 : waiting (mkGhost σ (without p (used g)) (asleep g)) = waiting g + 1).
  { unfold waiting. cbn [q]. rewrite Hb. cbn [length]. lia. }
  rewrite Hw1. set (full := waiting g + 1 =? limit).
  destruct (wp_run (dealloc_local_object_fast mit RANDOM r sanity (TAG + k) p (meta_ s) (ent s)) (words_ s) (λ x m',
    ∃ b e, x = (negb full, (mkMeta b (limit - waiting g - 1) (asleep g) (large_ (meta_ s)), e)) ∧
      Entropy.key e = key ∧ related (mkState m' b (fast s) e) σ)) as (x&m'&E&b&e&->&He&HR).
  { unfold dealloc_local_object_fast, get_free_list_key, is_unused. rewrite (s_key _ _ Hs).
    apply wp_bind, wp_assert; [rewrite negb_true_iff, Z.eqb_neq; lia|].
    apply wp_bind. apply (wp_mono _ _ (λ _ m, m = words_ s)); [|intros [] m ->].
    { destruct sanity; [|by apply wp_ret]. apply wp_bind, (wp_lift _ true); [subst p; by apply Hstart|]. by apply (wp_lift _ tt). }
    apply wp_bind, (wp_add p _ _ _ _ _ _ (s_related _ _ Hs)); [apply add_allowed; [by exists j|done|lia]|].
    intros m' b e HR _ Hk. unfold return_object, with_needed. cbn [with_queue needed_ free_queue sleeping_ large_].
    rewrite to_uint16_id by lia. apply wp_ret. exists b, e. split; [|by rewrite Hk, (s_key _ _ Hs)].
    rewrite (s_asleep _ _ Hs). replace (needed_ (meta_ s) - 1) with (limit - waiting g - 1) by lia.
    do 2 f_equal. unfold full. apply eq_true_iff_eq. rewrite !Z.eqb_eq. lia. }
  rewrite E. cbn [mbind result_bind]. rewrite negb_involutive. unfold is_sleeping. cbn [sleeping_].
  assert (Hobj : free_objects σ ++ without p (used g) ≡ₚ objects N).
  { rewrite Hf, <- (s_objects _ _ Hs). etrans; [|apply Permutation_app_head; symmetry; exact Hused].
    by rewrite <- Permutation_middle. }
  assert (Hdone : ∀ meta, free_queue meta = b → sleeping_ meta = asleep g && negb full →
    needed_ meta = (if asleep g && negb full then w else N) - (waiting g + 1) →
    slab_ok (mkSlab m' meta (fast s) e) (mkGhost σ (without p (used g)) (asleep g && negb full))).
  { intros meta <- Hsl Hn. constructor; cbn [words_ meta_ fast ent q used asleep]; try done.
    - rewrite Hn. f_equal. symmetry. exact Hw1.
    - replace (waiting _) with (waiting g + 1) by (symmetry; exact Hw1). unfold full, limit in *.
      destruct (asleep g); cbn; [destruct (Z.eqb_spec (waiting g + 1) w); cbn|]; lia. }
  destruct (full && asleep g) eqn:Efa.
  - apply andb_prop in Efa as [Ef Ea]. unfold set_not_sleeping. rewrite Hcount, Hthreshold. cbn [mbind result_bind].
    unfold with_needed. cbn [needed_]. rewrite to_uint16_id by lia. rewrite (proj2 (Z.eqb_neq _ _)) by lia.
    cbn [negb assert_ mbind result_bind]. eexists. split; [done|]. apply Hdone; [done|by rewrite Ef, Ea|].
    unfold full, limit in Ef. rewrite Ea in Ef. apply Z.eqb_eq in Ef. rewrite Ea. unfold full, limit. rewrite Ea.
    rewrite (proj2 (Z.eqb_eq _ _) Ef). cbn. lia.
  - cbn [mbind result_bind]. eexists. split; [done|]. apply Hdone; [done| |]; cbn [sleeping_ needed_].
    + destruct (asleep g), full; done.
    + unfold limit. destruct (asleep g), full; cbn in *; try done; lia.
Qed.

Lemma slab_step_refined o s g : slab_ok s g → slab_allowed o g → slab_refined o s g.
Proof.
  destruct o as [| |p|a v|a]; intros Hs Ho;
    [by apply fast_refined|by apply refill_refined|by apply return_refined|..].
  - unfold slab_refined. cbn [slab_step slab_spec fst snd slab_allowed] in *.
    destruct (wp_run (store a v) (words_ s) (λ _ m',
      related (mkState m' (free_queue (meta_ s)) (fast s) (ent s)) (spec_step (Write a v) (q g)).2)) as (u&m'&E&HR).
    { apply (wp_write _ _ _ _ _ _ _ _ (s_related _ _ Hs) Ho). done. }
    rewrite E. cbn [mbind result_bind]. eexists. split; [done|]. constructor; try apply Hs; done.
  - destruct Ho as [v Hv]. unfold slab_refined. cbn [slab_step slab_spec fst snd]. rewrite Hv.
    destruct (wp_run (load a) (words_ s) (λ x m', x = v ∧ m' = words_ s)) as (x&m'&E&->&->).
    { by apply (wp_read _ v _ _ _ _ _ _ (s_related _ _ Hs) Hv). }
    rewrite E. cbn [mbind result_bind]. exists s. split; [|done]. by destruct s.
Qed.

Lemma run_slab_refined ops s g : slab_ok s g → slab_all_allowed ops g →
  ∃ s', run_slab ops s = Ok ((spec_slab ops g).1, s') ∧ slab_ok s' (spec_slab ops g).2.
Proof.
  revert s g. induction ops as [|o ops IH]; intros s g Hs Ho; [by exists s|].
  destruct Ho as [Ho Hrest]. destruct (slab_step_refined o s g Hs Ho) as (s1&E&Hs1).
  destruct (IH s1 _ Hs1 Hrest) as (s2&E2&Hs2). cbn [run_slab spec_slab].
  destruct (slab_spec o g) as [a g1]. cbn [fst snd] in *. destruct (spec_slab ops g1) as [l g2]. cbn [fst snd] in *.
  rewrite E. cbn [mbind result_bind]. rewrite E2. by exists s2.
Qed.

(** ** Making and clearing a slab *)

Context (Hsize : sizeclass_to_size r k = Ok z) (Hslab : sizeclass_to_slab_size r k = Ok SZ).
Context (Htag : from_small_class k = Ok (TAG + k)).
Context (Halign : ∀ i, 0 ≤ i < N → pointer_align_down (object i) SZ = Ok base).

Lemma wp_new_slab m meta e (Q : Z * bool * (SlabMeta * Iter * LocalEntropy) → Mem → Prop) :
  dom m = words → head_ (free_queue meta) = hd → length (end_ (free_queue meta)) = LENGTH RANDOM →
  (RANDOM = true → length (length_ (free_queue meta)) = LENGTH RANDOM) → Entropy.key e = key →
  (∀ p active m' meta' it' e' g, used g = [p] → asleep g = negb active →
    slab_ok (mkSlab m' meta' it' e') g → Q (p, active, (meta', it', e')) m') →
  wp (new_slab mit domesticate random_initial RANDOM r k base meta e) m Q.
Proof.
  intros Hm Hhd He Hl Hkey HQ. unfold new_slab, get_free_list_key. rewrite Hkey.
  apply wp_bind, (wp_lift _ _ _ _ Hsize), wp_bind, (wp_lift _ _ _ _ Hslab).
  destruct (init_related mit domesticate RANDOM key obj hd words HO base (end_ (free_queue meta))
    (length_ (free_queue meta)) m e Hm He Hl) as (b&m1&Ei&HR).
  replace (mkBuilder hd (end_ (free_queue meta)) (length_ (free_queue meta))) with (free_queue meta) in Ei
    by (rewrite <- Hhd; by destruct (free_queue meta)).
  apply wp_bind. unfold initialise. apply wp_bind. unfold wp at 1. rewrite Ei.
  apply wp_bind; eapply wp_lift; [apply set_sleeping_Ok; lia|]. apply wp_ret. cbn [with_large with_queue free_queue].
  assert (Hnone : concat (replicate (LENGTH RANDOM) []) = @nil Z) by (generalize (LENGTH RANDOM); by induction n).
  apply wp_bind, (wp_alloc_new_list _ _ _ _ _ _ HR); [unfold free_objects; cbn [building taking]; by rewrite Hnone|done|].
  intros m2 b2 e2 σ2 HR2 (Hb2&Ht2&_&Hk2). cbn [building taking] in *. rewrite Hnone, app_nil_r in Hb2.
  set (g := mkGhost σ2 [] true).
  assert (Hobj : free_objects (q g) ++ used g ≡ₚ objects N).
  { change ((concat (building σ2) ++ taking σ2) ++ [] ≡ₚ objects N). by rewrite Ht2, !app_nil_r, Hb2. }
  apply (wp_alloc_free_list _ _ (mkIter 0 0) _ g); [done|by rewrite Hk2|done|done| |].
  { destruct (objects_bounded g Hobj) as [_ Hn]. change (taking (q g)) with (taking σ2) in Hn.
    rewrite Ht2 in Hn. cbn in Hn. lia. }
  intros p active m' meta' it' e' Ep Hok. apply (HQ p active m' meta' it' e' (slab_spec Refill g).2); [| |done].
  - cbn [slab_spec fst snd used] in *. by injection Ep as <- _.
  - cbn [slab_spec fst snd asleep] in *. injection Ep as _ <-. by rewrite negb_involutive.
Qed.

Lemma wp_drain_loop fuel m b it e σ count (Q : Z → Mem → Prop) : related (mkState m b it e) σ →
  (length (taking σ) < fuel)%nat → 0 ≤ count → count + Z.of_nat (length (taking σ)) < 2 ^ 64 →
  (∀ m' it' σ', related (mkState m' b it' e) σ' → building σ' = building σ → taking σ' = [] →
    Q (count + Z.of_nat (length (taking σ))) m') →
  wp (drain_loop mit domesticate fuel key it count) m Q.
Proof.
  revert m it σ count. induction fuel as [|fuel IH]; intros m it σ count HR Hf H0 Hc HQ; [lia|].
  cbn [drain_loop]. pose proof (r_iter _ _ _ _ _ _ _ _ HR) as Hit. cbn [fl mem] in Hit. unfold Iter_empty.
  destruct (taking σ) as [|p l] eqn:Et.
  - cbn in Hit. rewrite Hit. cbn. apply wp_ret. rewrite <- (Z.add_0_r count). by apply (HQ m it σ).
  - destruct Hit as [-> _]. assert (p ≠ 0) as Hp.
    { intros ->. apply (ok_null _ _ _ _ _ HO). pose proof (r_objs _ _ _ _ _ _ _ _ HR) as Hobjs.
      unfold free_objects in Hobjs. rewrite Et in Hobjs. apply Forall_app in Hobjs as [_ Hobjs].
      by apply Forall_cons in Hobjs as [? _]. }
    rewrite (proj2 (Z.eqb_neq _ _)) by done.
    apply wp_bind, (wp_take_one _ _ _ _ _ _ HR); [by rewrite Et|]. intros m1 it1 HR1.
    assert (Et1 : taking (take_queue σ) = l) by (unfold take_queue; cbn; by rewrite Et).
    cbn [length] in *. rewrite to_size_id by (unfold is_size, SIZE_MAX; lia).
    apply (IH m1 it1 (take_queue σ)); [done|rewrite Et1; lia|lia|rewrite Et1; lia|].
    intros m' it' σ' HR' Hb Ht. rewrite Et1. replace (count + 1 + Z.of_nat (length l)) with (count + Z.of_nat (S (length l))) by lia.
    by apply (HQ m' it' σ').
Qed.

Lemma wp_drain m b it e σ count (Q : Z → Mem → Prop) : related (mkState m b it e) σ →
  0 ≤ count < 2 ^ 16 →
  (∀ m' it' σ', related (mkState m' b it' e) σ' → building σ' = building σ → taking σ' = [] →
    Q (count + Z.of_nat (length (taking σ))) m') →
  wp (drain mit domesticate key it count) m Q.
Proof.
  intros HR Hc HQ. unfold drain. apply wp_bind. unfold wp at 1.
  pose proof (r_objs _ _ _ _ _ _ _ _ HR) as Hobjs. pose proof (r_nodup _ _ _ _ _ _ _ _ HR) as Hnd.
  pose proof (r_bound _ _ _ _ _ _ _ _ HR) as Hbd. unfold free_objects in *.
  apply Forall_app in Hobjs as [_ Hobjs]. apply NoDup_app in Hnd as (_&_&Hnd). rewrite length_app in Hbd.
  pose proof (objects_bound domesticate RANDOM obj hd words HO m (taking σ) (r_dom _ _ _ _ _ _ _ _ HR) Hobjs Hnd).
  apply (wp_drain_loop _ _ _ _ _ _ _ _ HR); [lia|lia|lia|done].
Qed.

(** After both queues have been closed nothing waits. *)
Lemma close_twice s s' σ σ' : related s σ → related s' σ' → building σ' = building (close_queue σ) →
  concat (building (close_queue σ')) = [].
Proof.
  intros HR HR' Hb. unfold close_queue in *. cbn [FreeListSpec.spec_step snd building] in *.
  destruct (longest_cases _ σ HR) as [(_&E1&l&E2)|(_&l0&l1&E2&[[E1 Hlt]|[E1 Hlt]])]; rewrite E1, E2 in Hb; cbn in Hb;
    destruct (longest_cases _ σ' HR') as [(_&E3&l'&E4)|(_&l2&l3&E4&[[E3 Hlt']|[E3 Hlt']])]; rewrite E3, Hb; try done;
    rewrite Hb in E4; clear Hb E1 E2 E3; simplify_eq; cbn in *; rewrite ?app_nil_r; try lia.
  apply nil_length_inv. lia.
Qed.

(** A slab whose counter has reached zero gives its chunk back; the checks of its free
    objects hold. *)
Lemma wp_clear_slab s g (Q : Z * SlabMeta → Mem → Prop) : slab_ok s g → needed_ (meta_ s) = 0 →
  (∀ meta m, Q (base, meta) m) →
  wp (clear_slab mit domesticate RANDOM r (meta_ s) k (ent s)) (words_ s) Q.
Proof.
  intros Hs Hn0 HQ. pose proof (s_needed _ _ Hs) as Hnd. pose proof (s_waiting _ _ Hs) as Hwait.
  destruct (objects_bounded g (s_objects _ _ Hs)) as [_ Hbd].
  assert (Ha : asleep g = false) by (destruct (asleep g); [lia|done]). rewrite Ha in Hnd.
  assert (Htk0 : taking (q g) = [] ∧ used g = []) by (split; apply nil_length_inv; lia). destruct Htk0 as [Htk0 Hus].
  pose proof (s_related _ _ Hs) as HR. destruct (close_taking _ _ HR) as [Hperm Hne].
  assert (Htk : taking (close_queue (q g)) ≠ []).
  { apply Hne. intros E. unfold waiting in Hnd. rewrite E in Hnd. cbn in Hnd. lia. }
  destruct (taking (close_queue (q g))) as [|p l] eqn:Et; [done|].
  destruct (take_queue_objects _ p l Et) as [_ Hb].
  assert (Hp : ∃ i, 0 ≤ i < N ∧ p = object i).
  { apply elem_of_objects. rewrite <- (s_objects _ _ Hs). unfold free_objects. rewrite <- Hperm. set_solver. }
  destruct Hp as (i&Hi&->). pose proof (Permutation_length Hperm) as Hlen. rewrite length_app in Hlen.
  cbn [length] in Hlen. set (more := Z.of_nat (length (concat (building (close_queue (q g)))))).
  assert (Hsum : 1 + Z.of_nat (length l) + more = N) by (unfold more; unfold waiting in *; lia).
  unfold clear_slab, get_free_list_key. rewrite (s_key _ _ Hs).
  apply wp_bind, (wp_close _ _ _ _ _ _ HR). intros m1 it1 b1 HR1. fold more.
  apply wp_bind, (wp_take_one _ _ _ _ _ _ HR1); [by rewrite Et|]. intros m2 it2 HR2. rewrite Et. cbn [list.head].
  change (default 0 (Some (object i))) with (object i).
  apply wp_bind, (wp_lift _ (object i)).
  { unfold finish_alloc_no_zero. rewrite Htag. cbn [mbind result_bind]. by rewrite Hstart. }
  assert (Hrest : ∀ b m, wp (s' ← lift (sizeclass_to_slab_size r k); start ← lift (pointer_align_down (object i) s');
    mret (start, with_queue (meta_ s) b)) m Q).
  { intros b m. apply wp_bind, (wp_lift _ _ _ _ Hslab), wp_bind, (wp_lift _ _ _ _ (Halign i Hi)). by apply wp_ret. }
  apply wp_bind. destruct (freelist_teardown_validate mit || clear_meta mit); [|by apply wp_ret].
  assert (Et2 : taking (take_queue (close_queue (q g))) = l) by (unfold take_queue; cbn [FreeListSpec.spec_step snd taking]; by rewrite Et).
  apply wp_bind, (wp_drain _ _ _ _ _ _ _ HR2); [lia|]. rewrite Et2. intros m3 it3 σ3 HR3 Hb3 Ht3.
  apply wp_bind, (wp_lift _ _ _ _ Hcount).
  assert (Hmore : 0 ≤ more) by (unfold more; lia).
  apply wp_bind. unfold check_client. rewrite to_size_id by (unfold is_size, SIZE_MAX; lia).
  rewrite Hsum, Z.eqb_refl. apply (wp_lift _ tt); [done|]. apply wp_bind. destruct (Z.ltb_spec 0 more) as [Hpos|Hpos].
  - apply wp_bind, (wp_close _ _ _ _ _ _ HR3). intros m4 it4 b4 HR4.
    assert (E0 : concat (building (close_queue σ3)) = []) by (apply (close_twice _ _ _ _ HR HR3); congruence).
    rewrite E0. apply wp_bind, wp_assert; [done|].
    destruct (close_taking _ _ HR3) as [Hperm3 _]. pose proof (Permutation_length Hperm3) as Hlen3.
    rewrite E0, app_nil_r, Hb3, Hb in Hlen3.
    apply wp_bind, (wp_drain _ _ _ _ _ _ _ HR4); [lia|]. intros m5 it5 σ5 _ _ _. rewrite Hlen3. fold more.
    apply wp_ret. rewrite Hsum, Z.eqb_refl. apply wp_bind, (wp_lift _ tt); [done|]. apply wp_ret, Hrest.
  - apply wp_ret. assert (1 + Z.of_nat (length l) = N) as -> by lia. rewrite Z.eqb_refl.
    apply wp_bind, (wp_lift _ tt); [done|]. apply wp_ret, Hrest.
Qed.
End Spec.

(** ** The numbers of a class *)

Lemma small_waking r k : 0 ≤ k < NUM_SMALL_SIZECLASSES →
  ∃ d, at_ (slow_ (the_table r)) (TAG + k) = Ok d ∧ 1 ≤ waking d < capacity d ∧ capacity d < 2 ^ 16.
Proof.
  intros Hk. set (P := λ k, match at_ (slow_ (the_table r)) (TAG + k) with
    | Ok d => (1 <=? waking d) && (waking d <? capacity d) && (capacity d <? 2 ^ 16)
    | Err _ => false end).
  assert (HP : P k = true) by (apply (forall_below NUM_SMALL_SIZECLASSES); [destruct r; vm_compute; reflexivity|done]).
  subst P. cbv beta in HP. destruct (at_ _ _) as [d|]; [|done]. exists d. split; [done|].
  rewrite !andb_true_iff, !Z.leb_le, !Z.ltb_lt in HP. lia.
Qed.

(** What the tables say about slabs of the class [k]: objects of [z] bytes, [2 ^ b] bytes of
    memory, [n] objects, and the threshold [w]. *)
Record slab_numbers (r : bool) (k z b n w : Z) : Prop := {
  n_class : 0 ≤ k < NUM_SMALL_SIZECLASSES;
  n_size : sizeclass_to_size r k = Ok z; n_slab : sizeclass_to_slab_size r k = Ok (2 ^ b);
  n_count : sizeclass_to_slab_object_count r k = Ok n; n_threshold : threshold_for_waking_slab r k = Ok w;
  n_quotient : n = 2 ^ b / z; n_bits : 14 ≤ b ≤ 20; n_z : 16 ≤ z ≤ 2 ^ b; n_w : 1 ≤ w < n; n_bound : n < 2 ^ 16;
  n_start : ∀ a, is_size a → is_start_of_object r (TAG + k) a = Ok ((a mod 2 ^ b) mod z =? 0);
}.

Lemma slab_numbers_exist r k : 0 ≤ k < NUM_SMALL_SIZECLASSES → ∃ z b n w, slab_numbers r k z b n w.
Proof.
  intros Hk. destruct (slab_capacity r k Hk) as (z&b&n&w&Hz&Hb&Hn&Hw&Hq&_&_&_).
  destruct (small_waking r k Hk) as (sl&Hsl&Hwk&Hcap).
  destruct (small_entry r k Hk) as (d&b'&Hd&F). pose proof (sf_bits _ _ _ _ F). pose proof (sf_prev _ _ _ _ F).
  destruct (small_slab r k d b' Hk F) as [Hz16 Hmin].
  rewrite sizeclass_to_size_Ok in Hz by done. injection Hz as <-.
  assert (Hb' : sizeclass_to_slab_size r k = Ok (2 ^ b')).
  { unfold sizeclass_to_slab_size, fast_small, raw. rewrite sizeclass_metadata_Ok, small_class_lt by done.
    cbn [mbind result_bind]. rewrite Hd. cbn [mbind result_bind]. rewrite (sf_mask _ _ _ _ F).
    replace (2 ^ b' - 1 + 1) with (2 ^ b') by lia. by rewrite to_size_id by (apply is_size_pow; lia). }
  assert (Epow : 2 ^ b = 2 ^ b') by congruence. rewrite Epow in Hq.
  unfold sizeclass_to_slab_object_count, threshold_for_waking_slab, slow, raw in Hn, Hw.
  rewrite sizeclass_metadata_Ok, small_class_lt in Hn, Hw by done. cbn [mbind result_bind] in Hn, Hw.
  rewrite Hsl in Hn, Hw. cbn [mbind result_bind] in Hn, Hw. injection Hn as <-. injection Hw as <-.
  exists (small_size k), b', (capacity sl), (waking sl). constructor; try done; try lia.
  - by apply sizeclass_to_size_Ok.
  - unfold sizeclass_to_slab_object_count, slow, raw. rewrite sizeclass_metadata_Ok, small_class_lt by done.
    cbn [mbind result_bind]. by rewrite Hsl.
  - unfold threshold_for_waking_slab, slow, raw. rewrite sizeclass_metadata_Ok, small_class_lt by done.
    cbn [mbind result_bind]. by rewrite Hsl.
  - apply Z.div_unique with (2 ^ b' - capacity sl * small_size k); lia.
  - assert (4 ≤ AllocConfig.MIN_OBJECT_COUNT r) by (by destruct r). nia.
  - intros a Ha. apply (locate r _ a d); [done|apply F|apply F|unfold SIZE_MAX; lia|lia|done|..].
    + intros j Hj. by apply (small_div r k d b').
    + intros j Hj. by apply (small_mod r k d b').
Qed.

(** An object is at a multiple of its size in an aligned slab. *)
Lemma object_offset base z n b i : 0 < base → base mod 2 ^ b = 0 → base + 2 ^ b < 2 ^ 64 → 0 ≤ b < 64 → 0 < z →
  n = 2 ^ b / z → 0 ≤ i < n →
  object base z i mod 2 ^ b = i * z ∧ object base z i / 2 ^ b * 2 ^ b = base ∧ is_size (object base z i).
Proof.
  intros Hb0 Hal Hend Hb Hz Hn Hi. pose proof (size_pow b Hb). pose proof (Z.mul_div_le (2 ^ b) z Hz).
  assert (0 ≤ i * z < 2 ^ b) by nia. unfold object.
  pose proof (Z.div_mod base (2 ^ b) ltac:(lia)) as E.
  assert (Eq : (base + i * z) / 2 ^ b = base / 2 ^ b) by (symmetry; apply Z.div_unique with (i * z); lia).
  split_and!.
  - symmetry. apply Z.mod_unique with (base / 2 ^ b); lia.
  - rewrite Eq. lia.
  - unfold is_size, SIZE_MAX. lia.
Qed.

(** An aligned slab in the address space, its metadata before it is used, and the memory. *)
Record slab_place (domesticate : Z → Z) (RANDOM : bool) (base z b n hd : Z) (words : gset Z)
    (bld : Builder) (m : Mem) : Prop := {
  p_base : 0 < base; p_aligned : base mod 2 ^ b = 0; p_end : base + 2 ^ (b + 1) < 2 ^ 64;
  p_objects : objects_ok domesticate RANDOM (obj base n z) hd words;
  p_words : dom m = words; p_head : head_ bld = hd; p_ends : length (end_ bld) = LENGTH RANDOM;
  p_lengths : RANDOM = true → length (length_ bld) = LENGTH RANDOM;
}.

Section Place.
Context {r : bool} {k z b n w : Z} (Hnum : slab_numbers r k z b n w).
Context {domesticate : Z → Z} {RANDOM : bool} {base hd : Z} {words : gset Z} {bld : Builder} {m : Mem}.
Context (Hp : slab_place domesticate RANDOM base z b n hd words bld m).

Lemma place_end : base + 2 ^ b + z < 2 ^ 64.
Proof.
  pose proof (p_end _ _ _ _ _ _ _ _ _ _ Hp) as He. destruct Hnum. rewrite Z.pow_add_r in He by lia. lia.
Qed.

Lemma place_start i : 0 ≤ i < n → is_start_of_object r (TAG + k) (object base z i) = Ok true.
Proof.
  intros Hi. pose proof place_end. destruct Hnum, Hp.
  destruct (object_offset base z n b i) as (E&_&Hs); try lia.
  rewrite n_start0, E by done. by rewrite Z.mod_mul, Z.eqb_refl by lia.
Qed.

Lemma place_align i : 0 ≤ i < n → pointer_align_down (object base z i) (2 ^ b) = Ok base.
Proof.
  intros Hi. pose proof place_end. destruct Hnum, Hp.
  destruct (object_offset base z n b i) as (_&E&Hs); try lia.
  rewrite pointer_align_down_pow by (done || lia). by rewrite E.
Qed.
End Place.

(** ** The properties *)

(** C10: The list that a new slab starts with is complete, whatever the random numbers are and
    whether objects are shuffled or not: the loops end inside the slab, and the one or two
    linked lists that the builder then has in memory hold each object of the slab once. *)
Theorem new_list_complete mit domesticate random_initial RANDOM r k z b n w base hd words bld m e :
  slab_numbers r k z b n w → slab_place domesticate RANDOM base z b n hd words bld m →
  ∃ b1 m1 b2 e2 m2 ls,
    init mit RANDOM bld base (key e) m = Ok (b1, m1) ∧
    alloc_new_list mit random_initial RANDOM base b1 z (2 ^ b) e m1 = Ok ((b2, e2, base + (2 ^ b + 1 - z)), m2) ∧
    length ls = LENGTH RANDOM ∧ concat ls ≡ₚ objects base z n ∧
    ∀ i l, ls !! i = Some l →
      end_ b2 !! i = Some (end_of (head hd i) l) ∧ chain mit (key e) m2 (head hd i) l.
Proof.
  intros Hnum Hp. pose proof (place_end Hnum Hp) as Hend. destruct Hnum, Hp.
  assert (Hn : 1 ≤ n < 2 ^ 16) by lia.
  destruct (init_related mit domesticate RANDOM (key e) _ hd words p_objects0 base (end_ bld) (length_ bld) m e)
    as (b1&m1&Ei&HR); [done..|].
  replace (mkBuilder hd (end_ bld) (length_ bld)) with bld in Ei by (rewrite <- p_head0; by destruct bld).
  assert (Hnone : concat (replicate (LENGTH RANDOM) []) = @nil Z) by (generalize (LENGTH RANDOM); by induction n0).
  destruct (wp_run (alloc_new_list mit random_initial RANDOM base b1 z (2 ^ b) e) m1 (λ x m2,
    ∃ b2 e2 σ2, x = (b2, e2, base + (2 ^ b + 1 - z)) ∧
      FreeListSpec.related mit RANDOM (key e) (obj base n z) hd words (mkState m2 b2 (mkIter 0 0) e2) σ2 ∧
      concat (building σ2) ≡ₚ objects base z n)) as (x&m2&E&b2&e2&σ2&->&HR2&Hb2).
  { eapply (wp_alloc_new_list mit domesticate random_initial RANDOM (key e) base (2 ^ b) n z hd words);
      [done|done|lia|lia|done|done|lia|exact HR| |done|].
    - unfold free_objects. cbn [building taking]. by rewrite Hnone.
    - intros m' b' e' σ' HR' (Hb&_). cbn [building] in Hb. rewrite Hnone, app_nil_r in Hb. by exists b', e', σ'. }
  exists b1, m1, b2, e2, m2, (building σ2). split_and!; [done|done|apply HR2|done|].
  intros i l Hl. apply (r_chain _ _ _ _ _ _ _ _ HR2 i l Hl).
Qed.

(** C9: A slab is its set of objects: from the chunk it is made of, every sequence of
    allocations, refills of the fast list, deallocations and accesses of the program to its
    own memory runs without a fault and answers as the specification does, for every class,
    mitigation, key and random number.  The counter of deallocations tells exactly when a
    sleeping slab has reached its threshold and when all objects are back; then the slab
    gives back its chunk. *)
Theorem slab_refines mit domesticate random_initial RANDOM r sanity k z b n w base hd words meta m e :
  slab_numbers r k z b n w → slab_place domesticate RANDOM base z b n hd words (free_queue meta) m →
  ∃ p active meta1 it1 e1 m1 g,
    new_slab mit domesticate random_initial RANDOM r k base meta e m = Ok ((p, active, (meta1, it1, e1)), m1) ∧
    used g = [p] ∧ asleep g = negb active ∧ free_objects (q g) ++ used g ≡ₚ objects base z n ∧
    ∀ ops, slab_all_allowed RANDOM base n z hd words w ops g →
      ∃ s, let g' := (spec_slab RANDOM n hd w ops g).2 in
        run_slab mit domesticate RANDOM r sanity (key e) k ops (mkSlab m1 meta1 it1 e1)
          = Ok ((spec_slab RANDOM n hd w ops g).1, s) ∧
        free_objects (q g') ++ used g' ≡ₚ objects base z n ∧
        is_unused (meta_ s) = bool_decide (waiting g' = n) ∧
        (waiting g' = n → ∃ meta2 m2,
          clear_slab mit domesticate RANDOM r (meta_ s) k (ent s) (words_ s) = Ok ((base, meta2), m2)).
Proof.
  intros Hnum Hp. pose proof (place_end Hnum Hp) as Hend. pose proof (@place_start _ _ _ _ _ _ Hnum _ _ _ _ _ _ _ Hp) as Hstart.
  pose proof (@place_align _ _ _ _ _ _ Hnum _ _ _ _ _ _ _ Hp) as Halign. destruct Hnum, Hp.
  assert (Hn : 1 ≤ n < 2 ^ 16) by lia.
  destruct (wp_run (new_slab mit domesticate random_initial RANDOM r k base meta e) m (λ x m1,
    ∃ p active meta1 it1 e1 g, x = (p, active, (meta1, it1, e1)) ∧ used g = [p] ∧ asleep g = negb active ∧
      slab_ok mit RANDOM (key e) base n z hd words w (mkSlab m1 meta1 it1 e1) g))
    as (x&m1&E&p&active&meta1&it1&e1&g&->&Hu&Ha&Hok).
  { apply (wp_new_slab mit domesticate random_initial RANDOM r (key e) k base (2 ^ b) n z hd words p_objects0 p_base0
      Hend ltac:(lia) Hn n_quotient0 ltac:(lia) w n_w0 n_count0 n_threshold0 n_size0 n_slab0); try done. eauto 10. }
  exists p, active, meta1, it1, e1, m1, g. split; [done|]. split; [done|]. split; [done|].
  split; [apply (s_objects _ _ _ _ _ _ _ _ _ _ _ Hok)|]. intros ops Hops.
  destruct (run_slab_refined mit domesticate RANDOM r sanity (key e) k base (2 ^ b) n z hd words p_objects0 p_base0
    Hend ltac:(lia) Hn n_quotient0 ltac:(lia) w n_w0 n_count0 n_threshold0 Hstart ops _ g Hok Hops) as (s&Er&Hs).
  exists s. cbv zeta. set (g' := (spec_slab RANDOM n hd w ops g).2) in *.
  pose proof (s_needed _ _ _ _ _ _ _ _ _ _ _ Hs) as Hnd. pose proof (s_waiting _ _ _ _ _ _ _ _ _ _ _ Hs) as Hwt.
  assert (Hun : needed_ (meta_ s) = 0 ↔ waiting g' = n) by (destruct (asleep g'); lia).
  split; [done|]. split; [apply (s_objects _ _ _ _ _ _ _ _ _ _ _ Hs)|]. split.
  - unfold is_unused. apply eq_true_iff_eq. by rewrite Z.eqb_eq, bool_decide_eq_true.
  - intros Hfull%Hun.
    destruct (wp_run (clear_slab mit domesticate RANDOM r (meta_ s) k (ent s)) (words_ s) (λ x _, x.1 = base))
      as ([start meta2]&m2&Ec&E1).
    { apply (wp_clear_slab mit domesticate RANDOM r (key e) k base (2 ^ b) n z hd words p_objects0 p_base0 Hend
        ltac:(lia) Hn n_quotient0 ltac:(lia) w n_w0 n_count0 n_threshold0 Hstart n_size0 n_slab0
        (small_class_lt k n_class0) Halign s g'); done. }
    cbn in E1. subst start. by exists meta2, m2.
Qed.

(** ** A sample: a slab of six objects of 10 KiB *)

Definition sample_objects : list Z := objects 131072 10240 6.
Definition sample_words : list Z := [500; 508] ++ sample_objects ++ ((λ p, p + 8) <$> sample_objects).
Definition sample_mem : Mem := list_to_map ((λ a, (a, 0)) <$> sample_words).
Definition sample_entropy : LocalEntropy := mkEntropy 123456789 987654321 5 77 64 (mkKey 11 22 33).
Definition sample_meta : SlabMeta := mkMeta (mkBuilder 500 [0; 0] [0; 0]) 0 false false.
Definition all_mitigations : mitigations := mkMitigations true true true true.

Lemma sample_numbers : slab_numbers false 32 10240 16 6 1.
Proof.
  destruct (slab_numbers_exist false 32) as (z&b&n&w&H); [by vm_compute|].
  assert (E1 : sizeclass_to_size false 32 = Ok 10240) by by vm_compute.
  assert (E2 : sizeclass_to_slab_size false 32 = Ok (2 ^ 16)) by by vm_compute.
  assert (E3 : sizeclass_to_slab_object_count false 32 = Ok 6) by by vm_compute.
  assert (E4 : threshold_for_waking_slab false 32 = Ok 1) by by vm_compute.
  pose proof H as H0. destruct H0. rewrite E1 in n_size0. injection n_size0 as <-.
  rewrite E2 in n_slab0. injection n_slab0 as Eb. rewrite E3 in n_count0. injection n_count0 as <-.
  rewrite E4 in n_threshold0. injection n_threshold0 as <-.
  assert (b = 16) as ->; [|done]. apply (Z.pow_inj_r 2); [done|lia|done|]. by rewrite <- Eb.
Qed.

Lemma sample_place : slab_place (λ p, p) true 131072 10240 16 6 500 (list_to_set sample_words)
  (free_queue sample_meta) sample_mem.
Proof.
  assert (Hobj : ∀ p, obj 131072 6 10240 p → p ∈ sample_objects ∧ 131072 ≤ p ∧ p mod 16 = 0).
  { intros p (i&Hi&->). split; [unfold sample_objects; apply (elem_of_objects _ 6); [done|by exists i]|]. unfold object. split; [lia|].
    replace (131072 + i * 10240) with ((8192 + i * 640) * 16) by lia. by apply Z.mod_mul. }
  constructor; try done.
  - constructor.
    + intros H%Hobj. lia.
    + intros p p' (_&_&Hp)%Hobj (_&_&Hp')%Hobj ->. rewrite Z.add_mod, Hp' in Hp by done. done.
    + intros i p Hi (_&Hp&_)%Hobj. unfold head. cbn in Hi. lia.
    + intros p (Hp&_)%Hobj. rewrite !elem_of_list_to_set. unfold sample_words. rewrite !elem_of_app.
      split; right; [by left|right]. by apply (list_elem_of_fmap_2 (λ p, p + 8)).
    + intros [|[|i]] Hi; cbn in Hi; try lia; apply elem_of_list_to_set; [by left|right; by left].
    + done.
Qed.

Lemma new_list_complete_witness :
  ∃ b1 m1 b2 e2 m2 ls,
    init all_mitigations true (free_queue sample_meta) 131072 (key sample_entropy) sample_mem = Ok (b1, m1) ∧
    alloc_new_list all_mitigations true true 131072 b1 10240 (2 ^ 16) sample_entropy m1
      = Ok ((b2, e2, 131072 + (2 ^ 16 + 1 - 10240)), m2) ∧
    length ls = 2%nat ∧ concat ls ≡ₚ sample_objects ∧
    ∀ i l, ls !! i = Some l →
      end_ b2 !! i = Some (end_of (head 500 i) l) ∧ chain all_mitigations (key sample_entropy) m2 (head 500 i) l.
Proof.
  apply (new_list_complete all_mitigations (λ p, p) true true false 32 10240 16 6 1 131072 500 (list_to_set sample_words)
    (free_queue sample_meta) sample_mem sample_entropy); [exact sample_numbers|exact sample_place].
Defined.

Lemma slab_refines_witness :
  ∃ p active meta1 it1 e1 m1 g,
    new_slab all_mitigations (λ p, p) true true false 32 131072 sample_meta sample_entropy sample_mem
      = Ok ((p, active, (meta1, it1, e1)), m1) ∧
    used g = [p] ∧ asleep g = negb active ∧ free_objects (q g) ++ used g ≡ₚ sample_objects ∧
    ∀ ops, slab_all_allowed true 131072 6 10240 500 (list_to_set sample_words) 1 ops g →
      ∃ s, let g' := (spec_slab true 6 500 1 ops g).2 in
        run_slab all_mitigations (λ p, p) true false true (key sample_entropy) 32 ops (mkSlab m1 meta1 it1 e1)
          = Ok ((spec_slab true 6 500 1 ops g).1, s) ∧
        free_objects (q g') ++ used g' ≡ₚ sample_objects ∧
        is_unused (meta_ s) = bool_decide (waiting g' = 6) ∧
        (waiting g' = 6 → ∃ meta2 m2,
          clear_slab all_mitigations (λ p, p) true false (meta_ s) 32 (ent s) (words_ s) = Ok ((131072, meta2), m2)).
Proof.
  apply (slab_refines all_mitigations (λ p, p) true true false true 32 10240 16 6 1 131072 500 (list_to_set sample_words)
    sample_meta sample_mem sample_entropy); [exact sample_numbers|exact sample_place].
Defined.

(** The first objects that the slab hands out; the program writes to the first one and returns it. *)
Example sample_slab_run :
  (r ← new_slab all_mitigations (λ p, p) true true false 32 131072 sample_meta sample_entropy sample_mem;
   let '((p, active, (meta, it, e)), m) := r in
   '(l, _) ← run_slab all_mitigations (λ p, p) true false true (key sample_entropy) 32
     [WriteWord p 7; Fast; ReadWord p; Return p; Fast] (mkSlab m meta it e);
   Ok (p, active, l))
  = Ok (141312, true, [Written; Got 151552; Word 7; Returned true false; Got 161792]).
Proof. vm_compute. reflexivity. Qed.
End SlabSpec.
