(* ===== verification/RemoteQueue.v ===== *)
(** * snmalloc, mem/remoteallocator.h: the queue of messages to an allocator

    Threads free objects of another allocator by sending it lists of them: [enqueue] by any
    thread, [can_dequeue] and [dequeue] by the owner.  The accesses to the shared memory are
    the steps of the model, in any order; the steps of one call follow the code.  The
    memory is sequentially consistent, and assertions are not compiled.

    [messages_in_order]: no message is lost, duplicated or overtaken, and the owner never
    follows a link that is not there, whatever the interleaving. *)

From stdpp Require Import base list numbers gmap.
From Stdlib Require Import ZArith Lia.
From S2P Require Import Prelude CInt FreeList RbTree RbRun FreeListSpec.
Local Open Scope Z_scope.

Module RemoteQueue.
Import CInt Entropy FreeList FreeListSpec.

Section Ops.
Context (mit : mitigations) (domesticate_head domesticate_queue : Z → Z) (key_global : FreeListKey).
(** The addresses of [back], [front] and [stub]. *)
Context (back front stub : Z).

(** A segment is the list of its messages; [enqueue] gets the first and the last one. *)
Definition first_of (seg : list Z) : Z := default 0 (list.head seg).
Definition last_of (seg : list Z) : Z := end_of 0 seg.

(** Where a call of [enqueue] is: before it terminates its segment, before the exchange of
    [back], in [atomic_store_next] before the signature and before the link, and before
    the store of [front]. *)
Inductive producer :=
| TNull (seg : list Z)
| TExchange (seg : list Z)
| TSetPrev (prev : Z) (seg : list Z)
| TLink (prev : Z) (seg : list Z)
| TFront (seg : list Z).

(** Where the owner is: in [can_dequeue] with the front, and with the next message of which
    the signature is not checked yet; before [dequeue]; in it with [b], at the head of the
    loop, before the check of the next message, before the callback, and before the store
    of [front]. *)
Inductive consumer :=
| CIdle
| CPoll (f : Z)
| CPollCheck (f next : Z)
| CReady
| CBack (b : Z)
| CLoop (b curr : Z)
| CCheck (b curr next : Z)
| CCall (b curr next : Z)
| CStore (c : Z).

#[export] Instance consumer_eq_dec : EqDecision consumer.
Proof. solve_decision. Defined.

(** [sent]: the messages in the order of the exchanges; [received]: those the callback got. *)
Record world := mkWorld {
  mem : Mem; threads : gmap nat producer; owner : consumer; sent : list Z; received : list Z;
}.

Definition with_mem (w : world) (m : Mem) : world := mkWorld m (threads w) (owner w) (sent w) (received w).
Definition with_thread (w : world) (t : nat) (p : producer) : world :=
  mkWorld (mem w) (<[t := p]> (threads w)) (owner w) (sent w) (received w).
Definition end_thread (w : world) (t : nat) : world :=
  mkWorld (mem w) (delete t (threads w)) (owner w) (sent w) (received w).
Definition with_owner (w : world) (c : consumer) : world :=
  mkWorld (mem w) (threads w) c (sent w) (received w).

Definition read (w : world) (a : Z) : result Z := '(v, _) ← load a (mem w); Ok v.
Definition write (w : world) (a v : Z) : result world := '(_, m) ← store a v (mem w); Ok (with_mem w m).

(** [init]. *)
Definition init (m : Mem) : result world :=
  let w := mkWorld m ∅ CIdle [] [] in
  w ← write w stub (encode_next mit stub 0 key_global);
  w ← write w front stub;
  write w back 0.

(** [invariant], with a world for each of its two reads. *)
Definition invariant (w1 w2 : world) : result unit :=
  b ← read w1 back;
  if negb (b =? 0) then Ok tt else f ← read w2 front; assert_ (f =? stub).

Definition destroy (w : world) : result (Z * world) :=
  fnt ← read w front;
  w ← write w back 0;
  f ← read w front;
  Ok (if f =? stub then 0 else fnt, w).

Definition run_producer (t : nat) (p : producer) (w : world) : result world :=
  match p with
  | TNull seg =>
      w ← write w (last_of seg) (encode_next mit (last_of seg) 0 key_global);
      Ok (with_thread w t (TExchange seg))
  | TExchange seg =>
      prev ← read w back;
      w ← write w back (last_of seg);
      let w := mkWorld (mem w) (threads w) (owner w) (sent w ++ seg) (received w) in
      Ok (with_thread w t (if negb (prev =? 0) then TSetPrev (domesticate_head prev) seg else TFront seg))
  | TSetPrev prev seg =>
      w ← (if freelist_backward_edge mit then
             write w (prev_encoded (first_of seg)) (signed_prev prev (first_of seg) key_global)
           else Ok w);
      Ok (with_thread w t (TLink prev seg))
  | TLink prev seg =>
      w ← write w prev (encode_next mit prev (first_of seg) key_global);
      Ok (end_thread w t)
  | TFront seg => w ← write w front (first_of seg); Ok (end_thread w t)
  end.

(** The check of a signature in [atomic_read_next]. *)
Definition check_signature (w : world) (curr next : Z) : result unit :=
  if freelist_backward_edge mit then
    s ← read w (prev_encoded next);
    if signed_prev curr next key_global =? s then Ok tt else Err RuntimeError
  else Ok tt.

Definition run_owner (more : bool) (w : world) : result world :=
  match owner w with
  | CIdle => f ← read w front; Ok (with_owner w (CPoll (domesticate_head f)))
  | CPoll f =>
      n ← read w f;
      let next := domesticate_head (decode_next mit f n key_global) in
      Ok (with_owner w (if next =? 0 then CIdle else CPollCheck f next))
  | CPollCheck f next => check_signature w f next;; Ok (with_owner w CReady)
  | CReady => b ← read w back; Ok (with_owner w (CBack b))
  | CBack b => c ← read w front; Ok (with_owner w (CLoop b (domesticate_head c)))
  | CLoop b curr =>
      if curr =? b then Ok (with_owner w (CStore curr))
      else
        n ← read w curr;
        let next := domesticate_queue (decode_next mit curr n key_global) in
        Ok (with_owner w (if next =? 0 then CStore curr else CCheck b curr next))
  | CCheck b curr next => check_signature w curr next;; Ok (with_owner w (CCall b curr next))
  | CCall b curr next =>
      let w := mkWorld (mem w) (threads w) (owner w) (sent w) (received w ++ [curr]) in
      Ok (with_owner w (if more then CLoop b next else CStore next))
  | CStore c => w ← write w front c; Ok (with_owner w CIdle)
  end.

Inductive event :=
| Start (t : nat) (seg : list Z)      (* the thread [t] calls [enqueue] *)
| Producer (t : nat)                  (* the next access of the thread [t] *)
| Owner (more : bool)                 (* the next access of the owner; what a callback answers *)
| Client (a v : Z).                   (* the program writes to memory *)

Definition exec (e : event) (w : world) : result world :=
  match e with
  | Start t seg => Ok (with_thread w t (TNull seg))
  | Producer t => match threads w !! t with Some p => run_producer t p w | None => Ok w end
  | Owner more => run_owner more w
  | Client a v => write w a v
  end.

Fixpoint exec_all (es : list event) (w : world) : result world :=
  match es with [] => Ok w | e :: es => w ← exec e w; exec_all es w end.

End Ops.
End RemoteQueue.
