(* ===== verification/RemoteQueueSpec.v ===== *)
(** * The queue of messages delivers them in order

    The invariant of the queue under any interleaving of its producers and its owner, and
    the theorems about what the owner receives. *)

From stdpp Require Import base list numbers gmap.
From Stdlib Require Import ZArith Lia.
From S2P Require Import Prelude CInt FreeList RbTree RbRun FreeListSpec RemoteQueue.
Local Open Scope Z_scope.

Module RemoteQueueSpec.
Import CInt Entropy FreeList FreeListSpec RemoteQueue.

(** ** Neighbours in a list *)

Inductive adj : list Z → Z → Z → Prop :=
| adj_here x y l : adj (x :: y :: l) x y
| adj_there z l x y : adj l x y → adj (z :: l) x y.

Lemma adj_elem l x y : adj l x y → x ∈ l ∧ y ∈ l.
Proof. induction 1; set_solver. Qed.

Lemma adj_cons z l x y : adj (z :: l) x y → x = z ∧ (∃ l', l = y :: l') ∨ adj l x y.
Proof. inversion 1; subst; [left; eauto|by right]. Qed.

Lemma adj_unique l x y x' y' : NoDup l → adj l x y → adj l x' y' → x = x' ↔ y = y'.
Proof.
  intros Hnd H. revert x' y'. induction H as [x y l|z l x y H IH]; intros x' y' H'.
  - apply NoDup_cons in Hnd as [Hx Hnd]. apply NoDup_cons in Hnd as [Hy Hnd].
    apply adj_cons in H' as [[-> [l' E]]|H'].
    + injection E as -> ->. done.
    + pose proof (adj_elem _ _ _ H') as [H1 H2]. split; [intros ->; done|intros ->].
      apply adj_cons in H' as [[-> [l' E]]|H']; [set_solver|].
      by apply adj_elem in H' as [_ H3].
  - apply NoDup_cons in Hnd as [Hz Hnd]. apply adj_cons in H' as [[-> [l' ->]]|H'].
    + pose proof (adj_elem _ _ _ H) as [H1 H2]. split; [intros ->; done|intros ->].
      apply NoDup_cons in Hnd as [Hy Hnd]. apply adj_cons in H as [[-> [l'' E]]|H]; [set_solver|].
      by apply adj_elem in H as [_ H3].
    + by apply IH.
Qed.

Lemma end_of_default a a' l : l ≠ [] → end_of a l = end_of a' l.
Proof. by destruct l. Qed.

Lemma end_of_in a l : l ≠ [] → end_of a l ∈ l.
Proof. revert a. induction l as [|x l IH]; intros a H; [done|]. cbn. destruct l; [set_solver|]. right. by apply IH. Qed.

Lemma adj_not_last a l x y : NoDup l → adj l x y → x ≠ end_of a l.
Proof.
  intros Hnd H. revert a. induction H as [x y l|z l x y H IH]; intros a.
  - apply NoDup_cons in Hnd as [Hx Hnd]. intros E. apply Hx. rewrite E. by apply (end_of_in x (y :: l)).
  - apply NoDup_cons in Hnd as [Hz Hnd]. by apply IH.
Qed.

Lemma adj_app l l' x y : adj (l ++ l') x y →
  adj l x y ∨ adj l' x y ∨ (l ≠ [] ∧ x = end_of 0 l ∧ ∃ l'', l' = y :: l'').
Proof.
  intros H. induction l as [|z l IH]; [by right; left|]. cbn in H.
  apply adj_cons in H as [[-> [l2 E]]|H].
  - destruct l as [|z' l].
    + right. right. split; [done|]. split; [done|]. by exists l2.
    + injection E as -> _. left. constructor.
  - destruct (IH H) as [H1|[H1|(H1&->&H2)]]; [left; by constructor|by right; left|].
    right. right. split; [done|]. split; [|done]. by destruct l.
Qed.

Lemma adj_app_l l l' x y : adj l x y → adj (l ++ l') x y.
Proof. induction 1; by constructor. Qed.

Lemma adj_app_r l l' x y : adj l' x y → adj (l ++ l') x y.
Proof. intros H. induction l; [done|by constructor]. Qed.

Lemma adj_join l y l' : l ≠ [] → adj (l ++ y :: l') (end_of 0 l) y.
Proof.
  intros H. assert (G : ∀ a, adj (l ++ y :: l') (end_of a l) y); [|apply G].
  induction l as [|z l IH]; [done|]. intros a. cbn. destruct l as [|z' l]; [constructor|].
  constructor. by apply IH.
Qed.

Lemma end_of_app a l l' : end_of a (l ++ l') = end_of (end_of a l) l'.
Proof. revert a. induction l as [|x l IH]; intros a; [done|]. apply IH. Qed.

Section Spec.
Context (mit : mitigations) (domesticate_head domesticate_queue : Z → Z) (key : FreeListKey).
Context (back front stub : Z).
(** The messages, and the mapped words. *)
Context (obj : Z → Prop) (words : gset Z).

Definition special (a : Z) : Prop := a = back ∨ a = front ∨ a = stub.

Record queue_ok : Prop := {
  q_null : ¬ obj 0 ∧ stub ≠ 0;
  q_apart : ∀ p q, obj p → obj q → p ≠ q + 8;
  q_special : ∀ a p, special a → obj p → a ≠ p ∧ a ≠ p + 8;
  q_distinct : back ≠ front ∧ back ≠ stub ∧ front ≠ stub;
  q_mapped : ∀ p, obj p → p ∈ words ∧ p + 8 ∈ words;
  q_mapped_special : ∀ a, special a → a ∈ words;
  q_tame_head : ∀ p, p = 0 ∨ p = stub ∨ obj p → domesticate_head p = p;
  q_tame_queue : ∀ p, p = 0 ∨ obj p → domesticate_queue p = p;
}.
Context (HQ : queue_ok).

Abbreviation code := (λ n : Z, code_next mit 0 n key).
Abbreviation signed := (λ a n : Z, signed_prev a n key).

Lemma decode_code p n : decode_next mit p (code n) key = n.
Proof. apply code_invol. Qed.

Lemma code_inj n n' : code n = code n' → n = n'.
Proof. intros E. by rewrite <- (decode_code 0 n), E, decode_code. Qed.

Lemma message_ne0 p : obj p → p ≠ 0.
Proof. intros Hp ->. by apply (proj1 (q_null HQ)). Qed.

Lemma special_front : special front. Proof. by right; left. Qed.
Lemma special_back : special back. Proof. by left. Qed.
Lemma special_stub : special stub. Proof. by right; right. Qed.
Hint Resolve special_front special_back special_stub : core.

(** ** The invariant *)

Definition linked (m : Mem) (x y : Z) : Prop :=
  m !! x = Some (code y) ∧ (freelist_backward_edge mit = true → m !! (y + 8) = Some (signed x y)).

(** The messages of a thread before the exchange. *)
Definition unsent (p : producer) : list Z :=
  match p with TNull seg | TExchange seg => seg | _ => [] end.

(** The link a thread is about to write. *)
Definition pending (p : producer) (x y : Z) : Prop :=
  match p with TSetPrev prev seg | TLink prev seg => prev = x ∧ first_of seg = y | _ => False end.

Definition seg_ok (m : Mem) (rest seg : list Z) : Prop :=
  seg ≠ [] ∧ Forall obj seg ∧ NoDup seg ∧ (∀ x, x ∈ seg → x ∉ rest) ∧
  ∀ x y, adj seg x y → linked m x y.

Definition thread_ok (m : Mem) (rest : list Z) (p : producer) : Prop :=
  match p with
  | TNull seg => seg_ok m rest seg
  | TExchange seg => seg_ok m rest seg ∧ m !! last_of seg = Some (code 0)
  | TSetPrev prev seg => adj rest prev (first_of seg) ∧ m !! prev = Some (code 0)
  | TLink prev seg => adj rest prev (first_of seg) ∧ m !! prev = Some (code 0) ∧
      (freelist_backward_edge mit = true →
        m !! (first_of seg + 8) = Some (signed prev (first_of seg)))
  | TFront seg => list.head rest = Some (first_of seg)
  end.

(** Nothing has been sent; a first segment has been sent, but [front] is still the stub;
    [front] is a message. *)
Inductive phase := Empty | First | Open.

#[export] Instance phase_eq_dec : EqDecision phase.
Proof. solve_decision. Defined.

Definition is_front (p : producer) : Prop := match p with TFront _ => True | _ => False end.

Definition phase_ok (m : Mem) (ths : gmap nat producer) (received rest : list Z) (ph : phase) : Prop :=
  match ph with
  | Empty => rest = [] ∧ received = [] ∧ m !! front = Some stub ∧
      ∀ t p, ths !! t = Some p → ¬ is_front p
  | First => rest ≠ [] ∧ received = [] ∧ m !! front = Some stub ∧
      ∃ t p, ths !! t = Some p ∧ is_front p ∧ ∀ t' p', ths !! t' = Some p' → is_front p' → t' = t
  | Open => rest ≠ [] ∧ ∀ t p, ths !! t = Some p → ¬ is_front p
  end.

Definition front_ok (m : Mem) (rest : list Z) : Prop := m !! front = list.head rest.

Definition owner_ok (m : Mem) (rest : list Z) (ph : phase) (o : consumer) : Prop :=
  match o with
  | CIdle => ph = Open → front_ok m rest
  | CPoll f => (f = stub ∨ ph = Open ∧ list.head rest = Some f) ∧ (ph = Open → front_ok m rest)
  | CPollCheck f n => ph = Open ∧ front_ok m rest ∧ list.head rest = Some f ∧ adj rest f n ∧ linked m f n
  | CReady => ph = Open ∧ front_ok m rest
  | CBack b => ph = Open ∧ front_ok m rest ∧ b ∈ rest
  | CLoop b c => ph = Open ∧ b ∈ rest ∧ list.head rest = Some c
  | CCheck b c n | CCall b c n => ph = Open ∧ b ∈ rest ∧ list.head rest = Some c ∧ c ≠ b ∧
      adj rest c n ∧ linked m c n
  | CStore c => ph = Open ∧ list.head rest = Some c
  end.

Record Inv (m : Mem) (ths : gmap nat producer) (o : consumer) (received rest : list Z) (ph : phase) : Prop := {
  i_dom : dom m = words;
  i_objs : Forall obj rest;
  i_nodup : NoDup rest;
  i_threads : ∀ t p, ths !! t = Some p → thread_ok m rest p;
  i_unsent : ∀ t t' p p' x, ths !! t = Some p → ths !! t' = Some p' → x ∈ unsent p → x ∈ unsent p' → t = t';
  i_unique : ∀ t t' p p' x y y', ths !! t = Some p → ths !! t' = Some p' →
    pending p x y → pending p' x y' → t = t';
  i_links : ∀ x y, adj rest x y → linked m x y ∨ ∃ t p, ths !! t = Some p ∧ pending p x y;
  i_back : m !! back = Some (end_of 0 rest);
  i_stub : m !! stub = Some (code 0);
  i_last : rest ≠ [] → m !! end_of 0 rest = Some (code 0);
  i_phase : phase_ok m ths received rest ph;
  i_owner : owner_ok m rest ph o;
}.

Definition inv (w : world) : Prop :=
  ∃ rest ph, sent w = received w ++ rest ∧ Inv (mem w) (threads w) (owner w) (received w) rest ph.

(** ** What the program may do *)

(** The messages that belong to the queue or to a call of [enqueue]. *)
Definition owned (w : world) : list Z :=
  drop (length (received w)) (sent w) ++ ((map_to_list (threads w)).*2 ≫= unsent).

(** A thread sends a segment whose links are set, of messages that are its own; the program
    writes to words that are in no message of the queue. *)
Definition allowed (e : event) (w : world) : Prop :=
  match e with
  | Start t seg => threads w !! t = None ∧ seg ≠ [] ∧ Forall obj seg ∧ NoDup seg ∧
      Forall (λ x, x ∉ owned w) seg ∧ chain mit key (mem w) (first_of seg) (drop 1 seg)
  | Client a _ => a ∈ words ∧ ¬ special a ∧ Forall (λ x, a ≠ x ∧ a ≠ x + 8) (owned w)
  | Producer _ | Owner _ => True
  end.

Abbreviation exec := (exec mit domesticate_head domesticate_queue key back front).
Abbreviation exec_all := (exec_all mit domesticate_head domesticate_queue key back front).

(** All events are allowed in the worlds they happen in. *)
Fixpoint all_allowed (es : list event) (w : world) : Prop :=
  match es with
  | [] => True
  | e :: es => allowed e w ∧ match exec e w with Ok w => all_allowed es w | Err _ => True end
  end.

Lemma owned_spec w x : x ∈ owned w ↔
  x ∈ drop (length (received w)) (sent w) ∨ ∃ t p, threads w !! t = Some p ∧ x ∈ unsent p.
Proof.
  unfold owned. rewrite elem_of_app, list_elem_of_bind. split.
  - intros [H|(p&Hx&Hp)]; [by left|right]. apply list_elem_of_fmap in Hp as ([t p']&->&Hp).
    apply elem_of_map_to_list in Hp. by exists t, p'.
  - intros [H|(t&p&Ht&Hx)]; [by left|right]. exists p. split; [done|]. apply list_elem_of_fmap.
    exists (t, p). split; [done|]. by apply elem_of_map_to_list.
Qed.

#[export] Instance chain_dec m a l : Decision (chain mit key m a l).
Proof. revert a. induction l as [|p l IH]; intros a; cbn [chain]; apply _. Defined.

#[export] Instance allowed_dec `{!∀ p, Decision (obj p)} e w : Decision (allowed e w).
Proof. destruct e; cbn [allowed]; unfold special; apply _. Defined.

#[export] Instance all_allowed_dec `{!∀ p, Decision (obj p)} es w : Decision (all_allowed es w).
Proof.
  revert w. induction es as [|e es IH]; intros w; cbn [all_allowed]; [apply _|].
  destruct (exec e w); apply _.
Defined.

(** ** Memory *)

Lemma queue_read w a v : mem w !! a = Some v → read w a = Ok v.
Proof. intros H. unfold read, load. by rewrite H. Qed.

Lemma queue_write w a v : dom (mem w) = words → a ∈ words →
  write w a v = Ok (with_mem w (<[a := v]> (mem w))).
Proof.
  intros Hm Ha. rewrite <- Hm in Ha. apply elem_of_dom in Ha as [u Hu].
  unfold write, store. by rewrite Hu.
Qed.

Lemma dom_write (m : Mem) a v : dom m = words → a ∈ words → dom (<[a := v]> m) = words.
Proof. intros Hm Ha. rewrite <- Hm in Ha. rewrite dom_insert_lookup_L; [done|by apply elem_of_dom]. Qed.

Lemma linked_frame m m' x y : m' !! x = m !! x → m' !! (y + 8) = m !! (y + 8) → linked m x y → linked m' x y.
Proof. unfold linked. by intros -> ->. Qed.

Lemma chain_linked m a l x y : chain mit key m a l → adj (a :: l) x y → linked m x y.
Proof.
  revert a. induction l as [|p l IH]; intros a Hc Ha.
  - apply adj_cons in Ha as [[-> [l' E]]|Ha]; [done|]. inversion Ha.
  - destruct Hc as (H1&H2&H3). apply adj_cons in Ha as [[-> [l' E]]|Ha].
    + injection E as -> ->. by split.
    + by apply (IH p).
Qed.

(** Writing to a word of no message. *)
Lemma linked_special m a v x y : obj x → obj y → special a → linked m x y → linked (<[a := v]> m) x y.
Proof.
  intros Hx Hy Ha. destruct (q_special HQ a x Ha Hx), (q_special HQ a y Ha Hy).
  apply linked_frame; by rewrite lookup_insert_ne.
Qed.

Lemma rest_obj rest x : Forall obj rest → x ∈ rest → obj x.
Proof. intros H Hx. by apply (Forall_forall obj rest). Qed.

Lemma head_elem (rest : list Z) x : list.head rest = Some x → x ∈ rest.
Proof. destruct rest; [done|]. intros [= ->]. by left. Qed.

Definition same (m m' : Mem) (x : Z) : Prop := m' !! x = m !! x ∧ m' !! (x + 8) = m !! (x + 8).

Lemma linked_same m m' x y : same m m' x → same m m' y → linked m x y → linked m' x y.
Proof. intros [H1 _] [_ H2]. by apply linked_frame. Qed.

Lemma seg_same m m' rest seg : (∀ x, x ∈ seg → same m m' x) → seg_ok m rest seg → seg_ok m' rest seg.
Proof.
  intros Hs (H1&H2&H3&H4&H5). split; [done|]. split; [done|]. split; [done|]. split; [done|].
  intros x y Ha. pose proof (adj_elem _ _ _ Ha) as [Hx Hy]. apply (linked_same m); auto.
Qed.

Lemma last_of_in seg : seg ≠ [] → last_of seg ∈ seg.
Proof. apply end_of_in. Qed.

Lemma thread_same m m' rest p : (∀ x, x ∈ rest → same m m' x) → (∀ x, x ∈ unsent p → same m m' x) →
  thread_ok m rest p → thread_ok m' rest p.
Proof.
  intros Hr Hu. destruct p as [seg|seg|prev seg|prev seg|seg]; cbn [thread_ok unsent] in *.
  - by apply seg_same.
  - intros [Hs Hl]. split; [by apply (seg_same m)|]. destruct Hs as [Hne _].
    destruct (Hu (last_of seg) (last_of_in seg Hne)) as [E _]. by rewrite E.
  - intros [Ha Hp]. pose proof (adj_elem _ _ _ Ha) as [Hx _]. destruct (Hr _ Hx) as [E _]. by rewrite E.
  - intros (Ha&Hp&Hs). pose proof (adj_elem _ _ _ Ha) as [Hx Hy].
    destruct (Hr _ Hx) as [-> _]. by destruct (Hr _ Hy) as [_ ->].
  - done.
Qed.

Lemma owner_same m m' rest ph o : (∀ x y, adj rest x y → linked m x y → linked m' x y) →
  m' !! front = m !! front → owner_ok m rest ph o → owner_ok m' rest ph o.
Proof.
  intros Hr Hf. unfold owner_ok, front_ok. destruct o; rewrite ?Hf; try done.
  - intros (H1&H2&H3&H4&H5). auto 10.
  - intros (H1&H2&H3&H4&H5&H6). auto 10.
  - intros (H1&H2&H3&H4&H5&H6). auto 10.
Qed.

Lemma phase_same m m' ths r rest ph : m' !! front = m !! front → phase_ok m ths r rest ph →
  phase_ok m' ths r rest ph.
Proof. intros Hf. unfold phase_ok. destruct ph; by rewrite ?Hf. Qed.

(** Writes to words that the queue does not use. *)
Lemma Inv_frame m m' ths o r rest ph : dom m' = words →
  (∀ a, special a → m' !! a = m !! a) → (∀ x, x ∈ rest → same m m' x) →
  (∀ t p x, ths !! t = Some p → x ∈ unsent p → same m m' x) →
  Inv m ths o r rest ph → Inv m' ths o r rest ph.
Proof.
  intros Hd Hsp Hr Hu HI.
  assert (Hl : ∀ x y, adj rest x y → linked m x y → linked m' x y).
  { intros x y Ha. pose proof (adj_elem _ _ _ Ha) as [Hx Hy]. apply linked_same; auto. }
  constructor; try apply HI; try done.
  - intros t p Ht. apply (thread_same m); [done|by intros; apply (Hu t p)|exact (i_threads _ _ _ _ _ _ HI t p Ht)].
  - intros x y Ha. destruct (i_links _ _ _ _ _ _ HI x y Ha) as [H|H]; [left; auto|by right].
  - rewrite Hsp by auto. apply HI.
  - rewrite Hsp by auto. apply HI.
  - intros Hne. destruct (Hr (end_of 0 rest) (end_of_in 0 rest Hne)) as [-> _]. exact (i_last _ _ _ _ _ _ HI Hne).
  - apply (phase_same m); [by apply Hsp; auto|apply HI].
  - apply (owner_same m); [done|by apply Hsp; auto|apply HI].
Qed.

Lemma drop_received (r rest : list Z) : drop (length r) (r ++ rest) = rest.
Proof. apply drop_app_length. Qed.

Lemma client_step a v w : inv w → allowed (Client a v) w → ∃ w', exec (Client a v) w = Ok w' ∧ inv w'.
Proof.
  intros (rest&ph&Hs&HI) (Ha&Hsp&Hu').
  assert (Hu : ∀ x, x ∈ rest ∨ (∃ t p, threads w !! t = Some p ∧ x ∈ unsent p) → a ≠ x ∧ a ≠ x + 8).
  { intros x Hx. rewrite Forall_forall in Hu'. apply Hu', owned_spec. by rewrite Hs, drop_received. }
  cbn [RemoteQueue.exec]. rewrite queue_write by (done || apply HI). eexists. split; [done|].
  exists rest, ph. split; [done|]. cbn [with_mem mem threads owner received].
  apply (Inv_frame (mem w)); [by apply dom_write, Ha; apply HI| | | |done].
  - intros b Hb. apply lookup_insert_ne. by intros ->.
  - intros x Hx. destruct (Hu x) as [H1 H2]; [by left|]. split; by apply lookup_insert_ne.
  - intros t p x Ht Hx. destruct (Hu x) as [H1 H2]; [right; by exists t, p|].
    split; by apply lookup_insert_ne.
Qed.

(** ** The producers *)

Section Producer.
Context (m : Mem) (ths : gmap nat producer) (o : consumer) (r rest : list Z) (ph : phase).
Context (HI : Inv m ths o r rest ph) (t : nat).

(** What the threads know of each other when [t] goes on to [p']. *)
Lemma unsent_update p p' : ths !! t = Some p → (∀ x, x ∈ unsent p' → x ∈ unsent p) →
  ∀ t1 t2 p1 p2 x, <[t := p']> ths !! t1 = Some p1 → <[t := p']> ths !! t2 = Some p2 →
    x ∈ unsent p1 → x ∈ unsent p2 → t1 = t2.
Proof.
  intros Ht Hu t1 t2 p1 p2 x [[<- <-]|[Hn1 H1]]%lookup_insert_Some [[<- <-]|[Hn2 H2]]%lookup_insert_Some Hx1 Hx2;
    [done| | |].
  - exact (i_unsent _ _ _ _ _ _ HI t t2 p p2 x Ht H2 (Hu x Hx1) Hx2).
  - exact (i_unsent _ _ _ _ _ _ HI t1 t p1 p x H1 Ht Hx1 (Hu x Hx2)).
  - exact (i_unsent _ _ _ _ _ _ HI t1 t2 p1 p2 x H1 H2 Hx1 Hx2).
Qed.

Lemma unique_update p p' : ths !! t = Some p → (∀ x y, pending p' x y → pending p x y) →
  ∀ t1 t2 p1 p2 x y y', <[t := p']> ths !! t1 = Some p1 → <[t := p']> ths !! t2 = Some p2 →
    pending p1 x y → pending p2 x y' → t1 = t2.
Proof.
  intros Ht Hu t1 t2 p1 p2 x y y' [[<- <-]|[Hn1 H1]]%lookup_insert_Some
    [[<- <-]|[Hn2 H2]]%lookup_insert_Some Hx1 Hx2; [done| | |].
  - exact (i_unique _ _ _ _ _ _ HI t t2 p p2 x y y' Ht H2 (Hu x y Hx1) Hx2).
  - exact (i_unique _ _ _ _ _ _ HI t1 t p1 p x y y' H1 Ht Hx1 (Hu x y' Hx2)).
  - exact (i_unique _ _ _ _ _ _ HI t1 t2 p1 p2 x y y' H1 H2 Hx1 Hx2).
Qed.

Lemma pending_keep p p' x y : ths !! t = Some p → (∀ x y, pending p x y → pending p' x y) →
  (∃ t p, ths !! t = Some p ∧ pending p x y) → ∃ t1 p1, <[t := p']> ths !! t1 = Some p1 ∧ pending p1 x y.
Proof.
  intros Ht Hp (t1&p1&H1&Hp1). destruct (decide (t1 = t)) as [->|Hne].
  - exists t, p'. rewrite lookup_insert_eq. split; [done|]. apply Hp. congruence.
  - exists t1, p1. by rewrite lookup_insert_ne.
Qed.

Lemma front_update p p' : ths !! t = Some p → (is_front p ↔ is_front p') →
  phase_ok m ths r rest ph → phase_ok m (<[t := p']> ths) r rest ph.
Proof.
  intros Ht Hf. assert (Hnone : (∀ t p, ths !! t = Some p → ¬ is_front p) →
    ∀ t1 p1, <[t := p']> ths !! t1 = Some p1 → ¬ is_front p1).
  { intros H t1 p1 [[<- <-]|[Hn1 H1]]%lookup_insert_Some; [rewrite <- Hf; by apply (H t)|by apply (H t1)]. }
  destruct ph; cbn [phase_ok].
  - intros (H1&H2&H3&H4). split_and!; [done..|by apply Hnone].
  - intros (H1&H2&H3&tf&pf&H4&H5&H6). split; [done|]. split; [done|]. split; [done|].
    exists tf. destruct (decide (tf = t)) as [->|Hne].
    + exists p'. rewrite lookup_insert_eq. split; [done|]. split; [apply Hf; congruence|].
      intros t' q [[<- <-]|[Hn1 Ht1]]%lookup_insert_Some Hq; [done|by apply (H6 t' q)].
    + exists pf. rewrite lookup_insert_ne by done. split; [done|]. split; [done|].
      intros t' q [[<- <-]|[Hn1 Ht1]]%lookup_insert_Some Hq; [|by apply (H6 t' q)].
      apply (H6 t p); [done|by apply Hf].
  - intros [H1 H2]. split; [done|by apply Hnone].
Qed.

End Producer.

Lemma same_obj m x y v : obj x → obj y → x ≠ y → same m (<[y := v]> m) x.
Proof.
  intros Hx Hy Hne. pose proof (q_apart HQ y x Hy Hx). split; by rewrite lookup_insert_ne by congruence.
Qed.

Lemma same_obj8 m x y v : obj x → obj y → x ≠ y → same m (<[y + 8 := v]> m) x.
Proof.
  intros Hx Hy Hne. pose proof (q_apart HQ x y Hx Hy). split; by rewrite lookup_insert_ne by (congruence || lia).
Qed.

Lemma same_special m x a v : obj x → special a → same m (<[a := v]> m) x.
Proof. intros Hx Ha. destruct (q_special HQ a x Ha Hx). split; by rewrite lookup_insert_ne by congruence. Qed.

Lemma special_word (m : Mem) a x (v : Z) : special a → obj x → <[x := v]> m !! a = m !! a ∧ <[x + 8 := v]> m !! a = m !! a.
Proof. intros Ha Hx. destruct (q_special HQ a x Ha Hx). split; by rewrite lookup_insert_ne by congruence. Qed.

Lemma unsent_obj m rest p x : thread_ok m rest p → x ∈ unsent p → obj x ∧ x ∉ rest.
Proof.
  destruct p as [seg|seg|prev seg|prev seg|seg]; cbn [thread_ok unsent]; [|intros [Hs _]; revert Hs|set_solver..];
    intros (_&Hobj&_&Hrest&_) Hx; (split; [by apply (rest_obj seg)|by apply Hrest]).
Qed.

Abbreviation run_producer := (run_producer mit domesticate_head key back front).

Lemma null_step w t seg : inv w → threads w !! t = Some (TNull seg) →
  ∃ w', run_producer t (TNull seg) w = Ok w' ∧ inv w'.
Proof.
  intros (rest&ph&Hs&HI) Ht. pose proof (i_threads _ _ _ _ _ _ HI t _ Ht) as (Hne&Hobj&Hnd&Hdisj&Hl).
  pose proof (last_of_in seg Hne) as Hin. assert (Ho : obj (last_of seg)) by by apply (rest_obj seg).
  cbn [RemoteQueue.run_producer]. rewrite queue_write; [|apply HI|by apply (q_mapped HQ)].
  eexists. split; [done|]. exists rest, ph. split; [done|].
  cbn [with_mem with_thread mem threads owner received].
  set (m' := <[last_of seg := _]> (mem w)).
  assert (Hrest : ∀ x, x ∈ rest → same (mem w) m' x).
  { intros x Hx. apply same_obj; [by apply (rest_obj rest), Hx; apply HI|done|]. intros ->. by apply (Hdisj (last_of seg)). }
  constructor; try apply HI.
  - apply dom_write; [apply HI|by apply (q_mapped HQ)].
  - intros t1 p1 [[<- <-]|[Hn1 H1]]%lookup_insert_Some.
    + split; [|apply lookup_insert_eq]. split; [done|]. split; [done|]. split; [done|]. split; [done|].
      intros x y Ha. pose proof (adj_elem _ _ _ Ha) as [Hx Hy].
      assert (Hx0 : x ≠ last_of seg) by by apply (adj_not_last 0 seg x y).
      assert (y + 8 ≠ last_of seg) by (intros E; by apply (q_apart HQ _ y Ho (rest_obj seg y Hobj Hy))).
      apply (linked_frame (mem w)); [by apply lookup_insert_ne..|by apply Hl].
    + apply (thread_same (mem w)); [done| |exact (i_threads _ _ _ _ _ _ HI t1 p1 H1)].
      intros x Hx. destruct (unsent_obj _ _ _ x (i_threads _ _ _ _ _ _ HI t1 p1 H1) Hx) as [Hxo _].
      apply same_obj; [done..|]. intros ->. apply Hn1.
      exact (i_unsent _ _ _ _ _ _ HI t t1 _ p1 _ Ht H1 Hin Hx).
  - by apply (unsent_update _ _ _ _ _ _ HI t (TNull seg)).
  - by apply (unique_update _ _ _ _ _ _ HI t (TNull seg)).
  - intros x y Ha. pose proof (adj_elem _ _ _ Ha) as [Hx Hy].
    destruct (i_links _ _ _ _ _ _ HI x y Ha) as [H|H].
    + left. apply (linked_same (mem w)); auto.
    + right. by apply (pending_keep _ t (TNull seg)).
  - destruct (special_word (mem w) back (last_of seg) (encode_next mit (last_of seg) 0 key)) as [E _]; [auto..|].
    unfold m'. rewrite E. apply HI.
  - destruct (special_word (mem w) stub (last_of seg) (encode_next mit (last_of seg) 0 key)) as [E _]; [auto..|].
    unfold m'. rewrite E. apply HI.
  - intros Hr. destruct (Hrest _ (end_of_in 0 rest Hr)) as [-> _]. exact (i_last _ _ _ _ _ _ HI Hr).
  - apply (phase_same (mem w)); [by apply special_word|].
    apply (front_update _ _ _ _ _ _ HI t (TNull seg)); [done|done|apply HI].
  - apply (owner_same (mem w)); [|by apply special_word|apply HI].
    intros x y Ha. pose proof (adj_elem _ _ _ Ha) as [Hx Hy]. apply linked_same; auto.
Qed.

Lemma exchange_step w t seg : inv w → threads w !! t = Some (TExchange seg) →
  ∃ w', run_producer t (TExchange seg) w = Ok w' ∧ inv w' ∧ sent w' = sent w ++ seg ∧ received w' = received w.
Proof.
  intros (rest&ph&Hs&HI) Ht.
  pose proof (i_threads _ _ _ _ _ _ HI t _ Ht) as [(Hne&Hobj&Hnd&Hdisj&Hl) Hlast].
  pose proof (last_of_in seg Hne) as Hin. assert (Ho : obj (last_of seg)) by by apply (rest_obj seg).
  cbn [RemoteQueue.run_producer]. rewrite (queue_read _ _ _ (i_back _ _ _ _ _ _ HI)). cbn [mbind result_bind].
  rewrite queue_write; [|apply HI|by apply (q_mapped_special HQ)]. cbn [mbind result_bind].
  set (p' := if negb _ then _ else _).
  eexists. split; [done|]. cbn [with_mem with_thread mem threads owner received sent].
  split; [|done].
  set (m' := <[back := last_of seg]> (mem w)).
  pose proof (i_objs _ _ _ _ _ _ HI) as Hrobj.
  assert (Hsame : ∀ x, obj x → same (mem w) m' x) by (intros x Hx; by apply same_special).
  assert (Hfront : m' !! front = mem w !! front).
  { apply lookup_insert_ne. by apply (q_distinct HQ). }
  (* what the thread does next *)
  assert (Hp' : (rest = [] ∧ p' = TFront seg) ∨ (rest ≠ [] ∧ p' = TSetPrev (end_of 0 rest) seg)).
  { unfold p'. destruct rest as [|x rest']; [by left|right]. split; [done|].
    set (e := end_of 0 (x :: rest')). assert (He : obj e) by by apply (rest_obj (x :: rest')), end_of_in.
    rewrite (proj2 (Z.eqb_neq e 0)) by by apply message_ne0. cbn [negb]. f_equal. apply (q_tame_head HQ). auto. }
  clearbody p'. set (ph' := match ph with Empty => First | _ => ph end).
  assert (Hsplit : rest = [] ∨ rest ≠ []) by (destruct rest; auto).
  exists (rest ++ seg), ph'. cbn [with_mem with_thread mem threads owner received sent].
  split; [by rewrite Hs, (assoc_L (++))|].
  assert (Hadj : ∀ x y, adj (rest ++ seg) x y → obj x ∧ obj y).
  { intros x y Ha. pose proof (adj_elem _ _ _ Ha) as [Hx Hy].
    assert (Hall : Forall obj (rest ++ seg)) by by apply Forall_app_2. split; by apply (rest_obj (rest ++ seg)). }
  assert (Hlk : ∀ x y, obj x → obj y → linked (mem w) x y → linked m' x y).
  { intros x y Hx Hy. apply linked_same; auto. }
  assert (Hunp : ∀ x y, ¬ pending (TExchange seg) x y) by by intros x y [].
  assert (Hseg : seg = first_of seg :: drop 1 seg) by by destruct seg.
  constructor.
  - apply dom_write; [apply HI|by apply (q_mapped_special HQ)].
  - by apply Forall_app_2.
  - apply NoDup_app. split; [apply HI|]. split; [|done]. intros x Hx Hx'. by apply (Hdisj x).
  - intros t1 p1 [[<- <-]|[Hn1 H1]]%lookup_insert_Some.
    + destruct Hp' as [[-> ->]|[Hr ->]]; cbn [thread_ok].
      * by destruct seg.
      * split; [rewrite Hseg at 1; by apply adj_join|].
        assert (He : obj (end_of 0 rest)) by by apply (rest_obj rest), end_of_in.
        destruct (Hsame _ He) as [-> _]. exact (i_last _ _ _ _ _ _ HI Hr).
    + pose proof (i_threads _ _ _ _ _ _ HI t1 p1 H1) as Hok.
      apply (thread_same (mem w)).
      * intros x Hx. apply Hsame, (rest_obj (rest ++ seg)); [by apply Forall_app_2|done].
      * intros x Hx. apply Hsame. by apply (unsent_obj (mem w) rest p1).
      * assert (Hnot : ∀ x, x ∈ unsent p1 → x ∉ seg).
        { intros x Hx Hx'. apply Hn1. exact (i_unsent _ _ _ _ _ _ HI t t1 _ p1 x Ht H1 Hx' Hx). }
        destruct p1 as [seg1|seg1|prev1 seg1|prev1 seg1|seg1]; cbn [thread_ok unsent] in *.
        -- destruct Hok as (A1&A2&A3&A4&A5). repeat (split; [done|]). split; [|done]. set_solver.
        -- destruct Hok as [(A1&A2&A3&A4&A5) A6]. split; [|done]. repeat (split; [done|]). split; [|done]. set_solver.
        -- destruct Hok as [A1 A2]. split; [by apply adj_app_l|done].
        -- destruct Hok as (A1&A2&A3). split; [by apply adj_app_l|done].
        -- by destruct rest.
  - apply (unsent_update _ _ _ _ _ _ HI t (TExchange seg)); [done|].
    intros x. destruct Hp' as [[_ ->]|[_ ->]]; cbn [unsent]; set_solver.
  - intros t1 t2 p1 p2 x y y' H1 H2.
    assert (Hnew : ∀ t3 p3, threads w !! t3 = Some p3 → pending p' x y → pending p3 x y' → False).
    { intros t3 p3 H3 Hx Hx3. destruct Hp' as [[_ ->]|[Hr ->]]; [done|]. destruct Hx as [<- _].
      pose proof (i_threads _ _ _ _ _ _ HI t3 p3 H3) as Hok.
      assert (Ha : adj rest (end_of 0 rest) y').
      { destruct p3; try done; destruct Hx3 as [<- <-]; [by destruct Hok|by destruct Hok as (Ha&_)]. }
      by apply (adj_not_last 0 _ _ _ (i_nodup _ _ _ _ _ _ HI)) in Ha. }
    assert (Hnew' : ∀ t3 p3, threads w !! t3 = Some p3 → pending p' x y' → pending p3 x y → False).
    { intros t3 p3 H3 Hx Hx3. destruct Hp' as [[_ ->]|[Hr ->]]; [done|]. destruct Hx as [<- _].
      pose proof (i_threads _ _ _ _ _ _ HI t3 p3 H3) as Hok.
      assert (Ha : adj rest (end_of 0 rest) y).
      { destruct p3; try done; destruct Hx3 as [<- <-]; [by destruct Hok|by destruct Hok as (Ha&_)]. }
      by apply (adj_not_last 0 _ _ _ (i_nodup _ _ _ _ _ _ HI)) in Ha. }
    apply lookup_insert_Some in H1 as [[<- <-]|[Hn1 H1]]; apply lookup_insert_Some in H2 as [[<- <-]|[Hn2 H2]].
    + done.
    + intros Hx1 Hx2. destruct (Hnew _ _ H2 Hx1 Hx2).
    + intros Hx1 Hx2. destruct (Hnew' _ _ H1 Hx2 Hx1).
    + exact (i_unique _ _ _ _ _ _ HI t1 t2 p1 p2 x y y' H1 H2).
  - intros x y Ha. destruct (Hadj x y Ha) as [Hx Hy]. apply adj_app in Ha as [Ha|[Ha|(Hr&->&l&El)]].
    + destruct (i_links _ _ _ _ _ _ HI x y Ha) as [H|H]; [left; auto|right].
      by apply (pending_keep _ t (TExchange seg)).
    + left. auto.
    + right. exists t, p'. rewrite lookup_insert_eq. split; [done|].
      destruct Hp' as [[-> ->]|[_ ->]]; [done|]. split; [done|]. by rewrite El.
  - unfold m'. rewrite lookup_insert_eq, end_of_app. f_equal. by apply end_of_default.
  - unfold m'. rewrite lookup_insert_ne by by apply (q_distinct HQ). apply HI.
  - intros _. rewrite end_of_app, (end_of_default _ 0) by done. change (end_of 0 seg) with (last_of seg).
    destruct (Hsame _ Ho) as [-> _]. done.
  - apply (phase_same (mem w)); [done|].
    assert (Hne' : rest ++ seg ≠ []) by (intros [_ E]%app_eq_nil; done).
    pose proof (i_phase _ _ _ _ _ _ HI) as Hph. destruct Hp' as [[-> ->]|[Hr ->]].
    + unfold ph'. destruct ph; [|by destruct Hph|by destruct Hph]. destruct Hph as (_&H2&H3&H4).
      split; [done|]. split; [done|]. split; [done|]. exists t, (TFront seg). rewrite lookup_insert_eq.
      split; [done|]. split; [done|]. intros t' q [[<- <-]|[Hn Hq]]%lookup_insert_Some Hf; [done|].
      by apply H4 in Hq.
    + apply (front_update _ _ _ _ _ _ HI t (TExchange seg) (TSetPrev (end_of 0 rest) seg)) in Hph; [|done|done].
      unfold ph'. destruct ph; [by destruct Hph| |]; destruct Hph as [_ Hph]; by split.
  - assert (Hh : ∀ c, list.head rest = Some c → list.head (rest ++ seg) = Some c) by by destruct rest.
    pose proof (i_owner _ _ _ _ _ _ HI) as How. pose proof (i_phase _ _ _ _ _ _ HI) as Hph.
    apply (owner_same (mem w)); [by intros x y Ha; destruct (Hadj x y Ha); apply Hlk|done|].
    assert (Hopen : ph' = Open → ph = Open) by by destruct ph.
    assert (Hopen' : ph = Open → ph' = Open) by by intros ->.
    assert (Hfr : ph = Open → front_ok (mem w) rest → front_ok (mem w) (rest ++ seg)).
    { intros ->. destruct Hph as [Hr _]. unfold front_ok. by destruct rest. }
    assert (Hinr : ∀ b, b ∈ rest → b ∈ rest ++ seg) by (intros; by apply elem_of_app; left).
    assert (Haa := λ x y, adj_app_l rest seg x y).
    destruct (owner w); cbn [owner_ok] in *; naive_solver.
Qed.

(** A link that is pending is not there yet. *)
Lemma pending_not_linked (m : Mem) x b : m !! x = Some (code 0) → obj b → ¬ linked m x b.
Proof.
  intros Hx Hb [H _]. rewrite H in Hx. injection Hx as E%code_inj. by apply (message_ne0 b).
Qed.

Lemma pending_adj m ths o r rest ph t p x y : Inv m ths o r rest ph → ths !! t = Some p → pending p x y →
  adj rest x y ∧ m !! x = Some (code 0).
Proof.
  intros HI Ht Hp. pose proof (i_threads _ _ _ _ _ _ HI t p Ht) as Hok.
  destruct p; try done; destruct Hp as [<- <-]; [done|]. by destruct Hok as (H1&H2&_).
Qed.

Lemma setprev_step w t prev seg : inv w → threads w !! t = Some (TSetPrev prev seg) →
  ∃ w', run_producer t (TSetPrev prev seg) w = Ok w' ∧ inv w' ∧ sent w' = sent w ∧ received w' = received w.
Proof.
  intros (rest&ph&Hs&HI) Ht. set (y := first_of seg).
  pose proof (i_threads _ _ _ _ _ _ HI t _ Ht) as [Hadj Hprev]. fold y in Hadj.
  pose proof (adj_elem _ _ _ Hadj) as [Hpr Hyr]. pose proof (i_objs _ _ _ _ _ _ HI) as Hrobj.
  pose proof (i_nodup _ _ _ _ _ _ HI) as Hnd.
  assert (Hpo : obj prev) by by apply (rest_obj rest). assert (Hyo : obj y) by by apply (rest_obj rest).
  set (m' := if freelist_backward_edge mit then <[y + 8 := signed prev y]> (mem w) else mem w).
  assert (Hstep : ∃ w', run_producer t (TSetPrev prev seg) w = Ok w' ∧
    w' = mkWorld m' (<[t := TLink prev seg]> (threads w)) (owner w) (sent w) (received w)).
  { cbn [RemoteQueue.run_producer]. unfold m'. destruct (freelist_backward_edge mit).
    - rewrite queue_write; [|apply HI|by apply (q_mapped HQ)]. by eexists.
    - by eexists. }
  destruct Hstep as (w'&E&->). eexists. split; [done|]. split; [|done].
  exists rest, ph. cbn [mem threads owner received sent]. split; [done|].
  assert (Hsame : ∀ x, obj x → x ≠ y → same (mem w) m' x).
  { intros x Hx Hne. unfold m'. destruct (freelist_backward_edge mit); [by apply same_obj8|done]. }
  assert (Hword : ∀ a, special a ∨ obj a → m' !! a = mem w !! a).
  { intros a Ha. unfold m'. destruct (freelist_backward_edge mit); [|done]. apply lookup_insert_ne.
    destruct Ha as [Ha|Ha]; [by destruct (q_special HQ a y Ha Hyo)|].
    intros E'. by apply (q_apart HQ a y Ha Hyo). }
  assert (Hlk : ∀ a b, adj rest a b → linked (mem w) a b → linked m' a b).
  { intros a b Ha Hl. pose proof (adj_elem _ _ _ Ha) as [Har Hbr].
    destruct (decide (b = y)) as [->|Hby].
    - apply (adj_unique rest a y prev y) in Ha as [_ Heq]; [|done|done]. rewrite Heq in Hl by done.
      by apply (pending_not_linked _ prev _) in Hl.
    - apply (linked_frame (mem w)); [by apply Hword; right; apply (rest_obj rest)| |done].
      apply Hsame; [by apply (rest_obj rest)|done]. }
  constructor; try apply HI.
  - unfold m'. destruct (freelist_backward_edge mit); [|apply HI].
    apply dom_write; [apply HI|by apply (q_mapped HQ)].
  - intros t1 p1 [[<- <-]|[Hn1 H1]]%lookup_insert_Some.
    + split; [done|]. split; [by rewrite Hword by (by right)|]. intros Hb. unfold m'. rewrite Hb.
      apply lookup_insert_eq.
    + pose proof (i_threads _ _ _ _ _ _ HI t1 p1 H1) as Hok.
      assert (Hfree : ∀ x, x ∈ unsent p1 → same (mem w) m' x).
      { intros x Hx. destruct (unsent_obj _ _ _ x Hok Hx) as [Hxo Hxr]. apply Hsame; [done|]. by intros ->. }
      destruct p1 as [seg1|seg1|prev1 seg1|prev1 seg1|seg1]; cbn [thread_ok unsent] in *.
      * by apply (seg_same (mem w)).
      * destruct Hok as [Hok Hl]. split; [by apply (seg_same (mem w))|].
        destruct (Hfree _ (last_of_in seg1 ltac:(by destruct Hok))) as [-> _]. done.
      * destruct Hok as [A1 A2]. split; [done|]. rewrite Hword; [done|right].
        apply (rest_obj rest); [done|by apply adj_elem in A1 as [? _]].
      * destruct Hok as (A1&A2&A3). pose proof (adj_elem _ _ _ A1) as [B1 B2]. split; [done|].
        split; [by rewrite Hword by (right; by apply (rest_obj rest))|].
        destruct (decide (first_of seg1 = y)) as [Ey|Hney].
        -- exfalso. rewrite Ey in A1. apply (adj_unique rest prev1 y prev y) in A1 as [_ Heq]; [|done|done].
           apply Hn1. apply (i_unique _ _ _ _ _ _ HI t t1 (TSetPrev prev seg) (TLink prev1 seg1) prev y y Ht H1);
             [done|]. split; [by apply Heq|done].
        -- destruct (Hsame (first_of seg1)) as [_ ->]; [by apply (rest_obj rest)|done|done].
      * done.
  - by apply (unsent_update _ _ _ _ _ _ HI t (TSetPrev prev seg)).
  - by apply (unique_update _ _ _ _ _ _ HI t (TSetPrev prev seg)).
  - intros a b Ha. destruct (i_links _ _ _ _ _ _ HI a b Ha) as [H|H]; [left; auto|right].
    by apply (pending_keep _ t (TSetPrev prev seg)).
  - rewrite Hword by auto. apply HI.
  - rewrite Hword by auto. apply HI.
  - intros Hr. rewrite Hword; [exact (i_last _ _ _ _ _ _ HI Hr)|right]. by apply (rest_obj rest), end_of_in.
  - apply (phase_same (mem w)); [by apply Hword; auto|].
    apply (front_update _ _ _ _ _ _ HI t (TSetPrev prev seg)); [done|done|apply HI].
  - apply (owner_same (mem w)); [done|by apply Hword; auto|apply HI].
Qed.

(** A thread that ends leaves the others as they are. *)
Lemma unsent_delete m ths o r rest ph t : Inv m ths o r rest ph →
  ∀ t1 t2 p1 p2 x, delete t ths !! t1 = Some p1 → delete t ths !! t2 = Some p2 →
    x ∈ unsent p1 → x ∈ unsent p2 → t1 = t2.
Proof.
  intros HI t1 t2 p1 p2 x [_ H1]%lookup_delete_Some [_ H2]%lookup_delete_Some.
  by apply (i_unsent _ _ _ _ _ _ HI t1 t2 p1 p2).
Qed.

Lemma unique_delete m ths o r rest ph t : Inv m ths o r rest ph →
  ∀ t1 t2 p1 p2 x y y', delete t ths !! t1 = Some p1 → delete t ths !! t2 = Some p2 →
    pending p1 x y → pending p2 x y' → t1 = t2.
Proof.
  intros HI t1 t2 p1 p2 x y y' [_ H1]%lookup_delete_Some [_ H2]%lookup_delete_Some.
  by apply (i_unique _ _ _ _ _ _ HI t1 t2 p1 p2).
Qed.

Lemma link_step w t prev seg : inv w → threads w !! t = Some (TLink prev seg) →
  ∃ w', run_producer t (TLink prev seg) w = Ok w' ∧ inv w' ∧ sent w' = sent w ∧ received w' = received w.
Proof.
  intros (rest&ph&Hs&HI) Ht. set (y := first_of seg).
  pose proof (i_threads _ _ _ _ _ _ HI t _ Ht) as (Hadj&Hprev&Hsig). fold y in Hadj, Hsig.
  pose proof (adj_elem _ _ _ Hadj) as [Hpr Hyr]. pose proof (i_objs _ _ _ _ _ _ HI) as Hrobj.
  pose proof (i_nodup _ _ _ _ _ _ HI) as Hnd.
  assert (Hpo : obj prev) by by apply (rest_obj rest). assert (Hyo : obj y) by by apply (rest_obj rest).
  cbn [RemoteQueue.run_producer]. rewrite queue_write; [|apply HI|by apply (q_mapped HQ)].
  eexists. split; [done|]. split; [|done]. exists rest, ph.
  cbn [with_mem end_thread mem threads owner received sent]. split; [done|]. fold y.
  set (m' := <[prev := _]> (mem w)).
  assert (Hsame : ∀ x, obj x → x ≠ prev → same (mem w) m' x) by (intros; by apply same_obj).
  assert (H8 : ∀ x, obj x → m' !! (x + 8) = mem w !! (x + 8)).
  { intros x Hx. apply lookup_insert_ne. by apply (q_apart HQ). }
  assert (Hsp : ∀ a, special a → m' !! a = mem w !! a).
  { intros a Ha. apply lookup_insert_ne. intros E. by destruct (q_special HQ a prev Ha Hpo). }
  assert (Hnew : linked m' prev y).
  { split; [apply lookup_insert_eq|]. intros Hb. rewrite H8 by done. by apply Hsig. }
  assert (Hlk : ∀ a b, obj a → obj b → linked (mem w) a b → linked m' a b).
  { intros a b Ha Hb Hl. destruct (decide (a = prev)) as [->|Hap].
    - by apply (pending_not_linked _ prev _) in Hl.
    - apply (linked_frame (mem w)); [by apply Hsame|by apply H8|done]. }
  assert (Hlk' : ∀ a b, adj rest a b → linked (mem w) a b → linked m' a b).
  { intros a b Ha. pose proof (adj_elem _ _ _ Ha) as [? ?]. by apply Hlk; apply (rest_obj rest). }
  constructor; try apply HI.
  - apply dom_write; [apply HI|by apply (q_mapped HQ)].
  - intros t1 p1 [Hn1 H1]%lookup_delete_Some.
    pose proof (i_threads _ _ _ _ _ _ HI t1 p1 H1) as Hok.
    assert (Hfree : ∀ x, x ∈ unsent p1 → same (mem w) m' x).
    { intros x Hx. destruct (unsent_obj _ _ _ x Hok Hx) as [Hxo Hxr]. apply Hsame; [done|]. by intros ->. }
    assert (Hother : ∀ prev1 y1, pending p1 prev1 y1 → prev1 ≠ prev).
    { intros prev1 y1 Hp ->. apply Hn1.
      by apply (i_unique _ _ _ _ _ _ HI t t1 (TLink prev seg) p1 prev y y1). }
    destruct p1 as [seg1|seg1|prev1 seg1|prev1 seg1|seg1]; cbn [thread_ok unsent pending] in *.
    + by apply (seg_same (mem w)).
    + destruct Hok as [Hok Hl]. split; [by apply (seg_same (mem w))|].
      destruct (Hfree _ (last_of_in seg1 ltac:(by destruct Hok))) as [-> _]. done.
    + destruct Hok as [A1 A2]. split; [done|]. pose proof (adj_elem _ _ _ A1) as [B1 _].
      destruct (Hsame prev1) as [-> _]; [by apply (rest_obj rest)| |done]. by apply (Hother _ (first_of seg1)).
    + destruct Hok as (A1&A2&A3). split; [done|]. pose proof (adj_elem _ _ _ A1) as [B1 B2].
      destruct (Hsame prev1) as [-> _]; [by apply (rest_obj rest)|by apply (Hother _ (first_of seg1))|].
      split; [done|]. by rewrite H8 by by apply (rest_obj rest).
    + done.
  - by apply (unsent_delete _ _ _ _ _ _ _ HI).
  - by apply (unique_delete _ _ _ _ _ _ _ HI).
  - intros a b Ha. destruct (i_links _ _ _ _ _ _ HI a b Ha) as [H|(t1&p1&H1&Hp1)]; [left; auto|].
    destruct (decide (t1 = t)) as [->|Hne].
    + left. rewrite Ht in H1. injection H1 as <-. destruct Hp1 as [<- <-]. done.
    + right. exists t1, p1. by rewrite lookup_delete_ne.
  - rewrite Hsp by auto. apply HI.
  - rewrite Hsp by auto. apply HI.
  - intros Hr. assert (Hee : end_of 0 rest ≠ prev) by (intros E; by apply (adj_not_last 0 rest prev y)).
    destruct (Hsame (end_of 0 rest)) as [-> _]; [by apply (rest_obj rest), end_of_in|done|].
    exact (i_last _ _ _ _ _ _ HI Hr).
  - apply (phase_same (mem w)); [by apply Hsp|]. pose proof (i_phase _ _ _ _ _ _ HI) as Hph.
    destruct ph; cbn [phase_ok] in *.
    + destruct Hph as (A1&A2&A3&A4). repeat (split; [done|]). intros t1 p1 [_ H1]%lookup_delete_Some. by apply (A4 t1).
    + destruct Hph as (A1&A2&A3&tf&pf&A4&A5&A6). repeat (split; [done|]). exists tf, pf.
      split; [rewrite lookup_delete_ne; [done|]; intros <-; rewrite Ht in A4; by injection A4 as <-|].
      split; [done|]. intros t1 p1 [_ H1]%lookup_delete_Some. by apply (A6 t1).
    + destruct Hph as [A1 A2]. split; [done|]. intros t1 p1 [_ H1]%lookup_delete_Some. by apply (A2 t1).
  - apply (owner_same (mem w)); [done|by apply Hsp|apply HI].
Qed.

Lemma front_step w t seg : inv w → threads w !! t = Some (TFront seg) →
  ∃ w', run_producer t (TFront seg) w = Ok w' ∧ inv w' ∧ sent w' = sent w ∧ received w' = received w.
Proof.
  intros (rest&ph&Hs&HI) Ht. pose proof (i_threads _ _ _ _ _ _ HI t _ Ht) as Hh. cbn [thread_ok] in Hh.
  pose proof (i_phase _ _ _ _ _ _ HI) as Hph. pose proof (i_objs _ _ _ _ _ _ HI) as Hrobj.
  destruct ph; cbn [phase_ok] in Hph.
  { destruct Hph as (_&_&_&Hno). by destruct (Hno t _ Ht). }
  2: { destruct Hph as [_ Hno]. by destruct (Hno t _ Ht). }
  destruct Hph as (Hne&Hrec&Hf&tf&pf&Htf&Hpf&Huniq).
  cbn [RemoteQueue.run_producer]. rewrite queue_write; [|apply HI|by apply (q_mapped_special HQ)].
  eexists. split; [done|]. split; [|done]. exists rest, Open.
  cbn [with_mem end_thread mem threads owner received sent]. split; [done|].
  set (m' := <[front := _]> (mem w)).
  assert (Hsame : ∀ x, obj x → same (mem w) m' x) by (intros; by apply same_special).
  assert (Hlk : ∀ a b, adj rest a b → linked (mem w) a b → linked m' a b).
  { intros a b Ha. pose proof (adj_elem _ _ _ Ha) as [? ?]. apply linked_same; by apply Hsame, (rest_obj rest). }
  constructor; try apply HI.
  - apply dom_write; [apply HI|by apply (q_mapped_special HQ)].
  - intros t1 p1 [Hn1 H1]%lookup_delete_Some. apply (thread_same (mem w)).
    + intros x Hx. by apply Hsame, (rest_obj rest).
    + intros x Hx. apply Hsame. by apply (unsent_obj (mem w) rest p1 x); [apply (i_threads _ _ _ _ _ _ HI t1)|].
    + by apply (i_threads _ _ _ _ _ _ HI t1).
  - by apply (unsent_delete _ _ _ _ _ _ _ HI).
  - by apply (unique_delete _ _ _ _ _ _ _ HI).
  - intros a b Ha. destruct (i_links _ _ _ _ _ _ HI a b Ha) as [H|(t1&p1&H1&Hp1)]; [left; auto|].
    right. exists t1, p1. rewrite lookup_delete_ne; [done|]. intros <-. rewrite Ht in H1. by injection H1 as <-.
  - unfold m'. rewrite lookup_insert_ne; [apply HI|]. intros E. by destruct (q_distinct HQ) as (Hd&_).
  - unfold m'. rewrite lookup_insert_ne; [apply HI|]. by destruct (q_distinct HQ) as (_&_&Hd).
  - intros Hr. destruct (Hsame (end_of 0 rest)) as [-> _]; [by apply (rest_obj rest), end_of_in|].
    exact (i_last _ _ _ _ _ _ HI Hr).
  - split; [done|]. intros t1 p1 [Hn1 H1]%lookup_delete_Some Hp1.
    apply Hn1. rewrite (Huniq t _ Ht I). symmetry. by apply (Huniq t1 p1).
  - pose proof (i_owner _ _ _ _ _ _ HI) as How.
    assert (Hok : front_ok m' rest) by (unfold front_ok, m'; rewrite lookup_insert_eq; by rewrite Hh).
    destruct (owner w); cbn [owner_ok] in *; naive_solver.
Qed.

Lemma start_step w t seg : inv w → allowed (Start t seg) w → inv (with_thread w t (TNull seg)).
Proof.
  intros (rest&ph&Hs&HI) (Ht&Hne&Hobj&Hnd&Hown'&Hc).
  assert (Hown : ∀ x, x ∈ seg → ¬ (x ∈ rest ∨ ∃ t p, threads w !! t = Some p ∧ x ∈ unsent p)).
  { intros x Hx H. rewrite Forall_forall in Hown'. apply (Hown' x Hx), owned_spec. by rewrite Hs, drop_received. }
  exists rest, ph. cbn [with_thread mem threads owner received sent]. split; [done|].
  assert (Hseg : first_of seg :: drop 1 seg = seg) by by destruct seg.
  constructor; try apply HI.
  - intros t1 p1 [[<- <-]|[Hn1 H1]]%lookup_insert_Some; [|by apply (i_threads _ _ _ _ _ _ HI t1)].
    split; [done|]. split; [done|]. split; [done|]. split; [intros x Hx Hr; apply (Hown x Hx); by left|].
    intros x y Ha. apply (chain_linked _ _ _ _ _ Hc). by rewrite Hseg.
  - intros t1 t2 p1 p2 x [[<- <-]|[Hn1 H1]]%lookup_insert_Some [[<- <-]|[Hn2 H2]]%lookup_insert_Some Hx1 Hx2.
    + done.
    + destruct (Hown x Hx1). right. by exists t2, p2.
    + destruct (Hown x Hx2). right. by exists t1, p1.
    + exact (i_unsent _ _ _ _ _ _ HI t1 t2 p1 p2 x H1 H2 Hx1 Hx2).
  - intros t1 t2 p1 p2 x y y' [[<- <-]|[Hn1 H1]]%lookup_insert_Some [[<- <-]|[Hn2 H2]]%lookup_insert_Some Hx1 Hx2;
      [done..|]. exact (i_unique _ _ _ _ _ _ HI t1 t2 p1 p2 x y y' H1 H2 Hx1 Hx2).
  - intros x y Ha. destruct (i_links _ _ _ _ _ _ HI x y Ha) as [H|(t1&p1&H1&Hp1)]; [by left|right].
    exists t1, p1. rewrite lookup_insert_ne; [done|]. intros <-. by rewrite Ht in H1.
  - pose proof (i_phase _ _ _ _ _ _ HI) as Hph.
    assert (Hno : (∀ t p, threads w !! t = Some p → ¬ is_front p) →
      ∀ t1 p1, <[t := TNull seg]> (threads w) !! t1 = Some p1 → ¬ is_front p1).
    { intros H t1 p1 [[<- <-]|[Hn1 H1]]%lookup_insert_Some; [by intros []|by apply (H t1)]. }
    destruct ph; cbn [phase_ok] in *.
    + destruct Hph as (A1&A2&A3&A4). repeat (split; [done|]). by apply Hno.
    + destruct Hph as (A1&A2&A3&tf&pf&A4&A5&A6). repeat (split; [done|]). exists tf, pf.
      split; [rewrite lookup_insert_ne; [done|]; intros <-; by rewrite Ht in A4|]. split; [done|].
      intros t1 p1 [[<- <-]|[Hn1 H1]]%lookup_insert_Some Hp1; [done|by apply (A6 t1 p1)].
    + destruct Hph as [A1 A2]. split; [done|by apply Hno].
Qed.

(** ** The owner *)

(** The owner on its way, with no thread left that sends: what it has seen is up to date. *)
Definition quiet (rest : list Z) (o : consumer) : Prop :=
  match o with
  | CIdle => (length rest ≤ 1)%nat
  | CPoll f => ∃ n, adj rest f n
  | CPollCheck _ _ | CReady => True
  | CBack b | CLoop b _ | CCheck b _ _ | CCall b _ _ => b = end_of 0 rest
  | CStore c => rest = [c]
  end.

Definition to_go (rest : list Z) (o : consumer) : nat :=
  3 * length rest + match o with
  | CIdle => 0 | CPoll _ => 8 | CPollCheck _ _ => 7 | CReady => 6 | CBack _ => 5
  | CLoop _ _ => 4 | CCheck _ _ _ => 3 | CCall _ _ _ => 2 | CStore _ => 1
  end.

Lemma Inv_owner m ths o o' r rest ph : Inv m ths o r rest ph → owner_ok m rest ph o' → Inv m ths o' r rest ph.
Proof. intros HI Ho. constructor; try apply HI. done. Qed.

Lemma head_next m ths o r rest ph c : Inv m ths o r rest ph → list.head rest = Some c →
  (m !! c = Some (code 0) ∧ (ths = ∅ → rest = [c])) ∨ ∃ n, adj rest c n ∧ linked m c n ∧ obj n.
Proof.
  intros HI Hc. destruct rest as [|c' [|n l]]; [done| |]; injection Hc as ->.
  - left. split; [|done]. by apply (i_last _ _ _ _ _ _ HI).
  - assert (Ha : adj (c :: n :: l) c n) by constructor.
    destruct (i_links _ _ _ _ _ _ HI c n Ha) as [H|(t&p&Ht&Hp)].
    + right. exists n. split; [done|]. split; [done|]. pose proof (i_objs _ _ _ _ _ _ HI) as Ho.
      apply (rest_obj _ _ Ho). set_solver.
    + left. split; [by apply (pending_adj _ _ _ _ _ _ t p c n HI)|]. intros ->. by rewrite lookup_empty in Ht.
Qed.

Abbreviation run_owner := (run_owner mit domesticate_head domesticate_queue key back front).

(** What a step of the owner does. *)
Definition owner_steps (more : bool) (w : world) (rest : list Z) (ph : phase) : Prop :=
  ∃ w' rest', run_owner more w = Ok w' ∧ sent w' = sent w ∧ threads w' = threads w ∧
    sent w' = received w' ++ rest' ∧ Inv (mem w') (threads w') (owner w') (received w') rest' ph ∧
    (threads w = ∅ → more = true → owner w ≠ CIdle → quiet rest (owner w) →
      quiet rest' (owner w') ∧ (to_go rest' (owner w') < to_go rest (owner w))%nat).

Lemma owner_moves more w rest ph o' : sent w = received w ++ rest →
  Inv (mem w) (threads w) (owner w) (received w) rest ph →
  run_owner more w = Ok (with_owner w o') → owner_ok (mem w) rest ph o' →
  (threads w = ∅ → owner w ≠ CIdle → quiet rest (owner w) →
    quiet rest o' ∧ (to_go rest o' < to_go rest (owner w))%nat) →
  owner_steps more w rest ph.
Proof.
  intros Hs HI E Ho Hq. exists (with_owner w o'), rest. cbn [with_owner mem threads owner received sent].
  split; [done|]. split; [done|]. split; [done|]. split; [done|]. split; [by apply (Inv_owner _ _ (owner w))|]. auto.
Qed.

Lemma check_signature_Ok w x y : linked (mem w) x y → check_signature mit key w x y = Ok tt.
Proof.
  intros [_ H]. unfold check_signature. destruct (freelist_backward_edge mit); [|done].
  unfold prev_encoded. rewrite (queue_read _ _ _ (H eq_refl)). cbn [mbind result_bind]. by rewrite Z.eqb_refl.
Qed.

Lemma owner_call more w rest ph b c n : sent w = received w ++ rest →
  Inv (mem w) (threads w) (owner w) (received w) rest ph → owner w = CCall b c n →
  owner_steps more w rest ph.
Proof.
  intros Hs HI Eo. pose proof (i_owner _ _ _ _ _ _ HI) as How. rewrite Eo in How.
  destruct How as (->&Hb&Hc&Hcb&Ha&Hlk). pose proof (i_nodup _ _ _ _ _ _ HI) as Hnd.
  destruct rest as [|c' l]; [done|]. injection Hc as ->.
  assert (∃ l', l = n :: l') as [l' ->].
  { apply adj_cons in Ha as [[_ H]|Ha]; [done|]. apply NoDup_cons in Hnd as [Hcn _].
    by apply adj_elem in Ha as [H _]. }
  apply NoDup_cons in Hnd as [Hcn Hnd].
  unfold owner_steps, run_owner. rewrite Eo. eexists _, (n :: l').
  split; [done|]. cbn [with_owner mem threads owner received sent].
  split; [done|]. split; [done|]. split; [by rewrite Hs, <- (assoc_L (++))|].
  assert (Hob : b ∈ n :: l') by (apply elem_of_cons in Hb as [->|Hb]; done).
  split; [constructor; try apply HI|].
  - pose proof (i_objs _ _ _ _ _ _ HI) as Ho. by apply Forall_cons in Ho as [_ Ho].
  - done.
  - intros t p Ht. pose proof (i_threads _ _ _ _ _ _ HI t p Ht) as Hok.
    assert (Hadj : ∀ x y, adj (c :: n :: l') x y → mem w !! x = Some (code 0) → adj (n :: l') x y).
    { intros x y Hxy Hx. apply adj_cons in Hxy as [[-> _]|Hxy]; [|done].
      assert (Hon : obj n).
      { pose proof (i_objs _ _ _ _ _ _ HI) as Ho. apply (rest_obj _ _ Ho). set_solver. }
      by apply (pending_not_linked _ c n) in Hlk. }
    destruct p as [seg|seg|prev seg|prev seg|seg]; cbn [thread_ok] in *.
    + destruct Hok as (A1&A2&A3&A4&A5). repeat (split; [done|]). split; [|done]. set_solver.
    + destruct Hok as [(A1&A2&A3&A4&A5) A6]. split; [|done]. repeat (split; [done|]). split; [|done]. set_solver.
    + destruct Hok as [A1 A2]. auto.
    + destruct Hok as (A1&A2&A3). auto.
    + pose proof (i_phase _ _ _ _ _ _ HI) as [_ Hno]. by destruct (Hno t _ Ht).
  - intros x y Hxy. by apply (i_links _ _ _ _ _ _ HI), adj_there.
  - intros _. by apply (i_last _ _ _ _ _ _ HI).
  - pose proof (i_phase _ _ _ _ _ _ HI) as [_ Hno]. by split.
  - destruct more; cbn [owner_ok]; [|by auto]. split; [done|]. by split.
  - intros _ -> _ Hq. cbn [quiet] in *. unfold to_go. cbn [length]. split; [done|lia].
Qed.

Lemma owner_step more w rest ph : sent w = received w ++ rest →
  Inv (mem w) (threads w) (owner w) (received w) rest ph → owner_steps more w rest ph.
Proof.
  intros Hs HI. pose proof (i_owner _ _ _ _ _ _ HI) as How. pose proof (i_phase _ _ _ _ _ _ HI) as Hph.
  pose proof (i_objs _ _ _ _ _ _ HI) as Hobj.
  assert (Htame : ∀ c, list.head rest = Some c → domesticate_head c = c).
  { intros c Hc. apply (q_tame_head HQ). right. right. by apply (rest_obj rest), head_elem. }
  assert (Hdec0 : ∀ p, domesticate_head (decode_next mit p (code 0) key) = 0).
  { intros p. rewrite decode_code. apply (q_tame_head HQ). by left. }
  destruct (owner w) as [|f|f n| |b|b c|b c n|b c n|c] eqn:Eo; cbn [owner_ok] in How.
  - (* CIdle *)
    destruct (decide (ph = Open)) as [->|Hno].
    + destruct Hph as [Hne _]. specialize (How eq_refl) as Hf. destruct rest as [|c l]; [done|].
      apply (owner_moves _ w _ _ (CPoll c)); [done|by rewrite Eo| |cbn [owner_ok]; auto|by rewrite Eo].
      unfold run_owner. rewrite Eo, (queue_read _ _ c Hf). cbn [mbind result_bind]. by rewrite Htame.
    + assert (Hf : mem w !! front = Some stub) by (destruct ph; [by destruct Hph as (_&_&H&_)|by destruct Hph as (_&_&H&_)|done]).
      apply (owner_moves _ w _ _ (CPoll stub)); [done|by rewrite Eo| |cbn [owner_ok]; auto|by rewrite Eo].
      unfold run_owner. rewrite Eo, (queue_read _ _ stub Hf). cbn [mbind result_bind].
      rewrite (q_tame_head HQ) by auto. done.
  - (* CPoll *)
    destruct How as [Hf Hfront].
    assert (Hnull : mem w !! f = Some (code 0) → (threads w = ∅ → ∀ n, ¬ adj rest f n) → owner_steps more w rest ph).
    { intros Hn Hquiet. apply (owner_moves _ w _ _ CIdle); [done|by rewrite Eo| |done|].
      - unfold run_owner. rewrite Eo, (queue_read _ _ _ Hn). cbn [mbind result_bind]. by rewrite Hdec0.
      - intros Ht _ Hq. rewrite Eo in Hq. destruct Hq as [n Hq]. by destruct (Hquiet Ht n). }
    destruct Hf as [->|[-> Hf]].
    + apply Hnull; [apply HI|]. intros _ n Ha. apply adj_elem in Ha as [Hin _].
      by destruct (q_special HQ stub stub special_stub (rest_obj rest stub Hobj Hin)).
    + destruct (head_next _ _ _ _ _ _ f HI Hf) as [[Hn Hq]|(n&Ha&Hl&Hn)].
      * apply Hnull; [done|]. intros Ht n Ha. rewrite (Hq Ht) in Ha. apply adj_cons in Ha as [[_ [l E]]|Ha]; [done|inversion Ha].
      * apply (owner_moves _ w _ _ (CPollCheck f n)); [done|by rewrite Eo| |by cbn [owner_ok]; auto|].
        { unfold run_owner. destruct Hl as [Hl _]. rewrite Eo, (queue_read _ _ _ Hl). cbn [mbind result_bind].
          rewrite decode_code, (q_tame_head HQ) by auto. by rewrite (proj2 (Z.eqb_neq n 0)) by by apply message_ne0. }
        intros _ _ _. rewrite Eo. cbn [quiet]. unfold to_go. split; [done|lia].
  - (* CPollCheck *)
    destruct How as (->&Hfront&Hf&Ha&Hl).
    apply (owner_moves _ w _ _ CReady); [done|by rewrite Eo| |done|intros _ _ _; rewrite Eo; cbn [quiet]; unfold to_go; split; [done|lia]].
    unfold run_owner. by rewrite Eo, check_signature_Ok.
  - (* CReady *)
    destruct How as (->&Hfront). destruct Hph as [Hne _].
    apply (owner_moves _ w _ _ (CBack (end_of 0 rest))); [done|by rewrite Eo| | |].
    + unfold run_owner. rewrite Eo, (queue_read _ _ _ (i_back _ _ _ _ _ _ HI)). done.
    + split; [done|]. split; [done|by apply end_of_in].
    + intros _ _ _. rewrite Eo. cbn [quiet]. unfold to_go. split; [done|lia].
  - (* CBack *)
    destruct How as (->&Hfront&Hb). destruct Hph as [Hne _]. destruct rest as [|c l]; [done|].
    apply (owner_moves _ w _ _ (CLoop b c)); [done|by rewrite Eo| |done|].
    + unfold run_owner. rewrite Eo, (queue_read _ _ c Hfront). cbn [mbind result_bind]. by rewrite Htame.
    + rewrite Eo. cbn [quiet]. unfold to_go. intros _ _ Hq. split; [done|lia].
  - (* CLoop *)
    destruct How as (->&Hb&Hc). destruct (decide (c = b)) as [->|Hcb].
    + apply (owner_moves _ w _ _ (CStore b)); [done|by rewrite Eo| |done|].
      * unfold run_owner. by rewrite Eo, Z.eqb_refl.
      * rewrite Eo. cbn [quiet]. unfold to_go. intros _ _ Hq. split; [|lia].
        destruct rest as [|b' [|n l]]; [done|by injection Hc as ->|]. injection Hc as ->.
        pose proof (i_nodup _ _ _ _ _ _ HI) as Hnd. exfalso.
        by apply (adj_not_last 0 _ b n Hnd); [constructor|].
    + assert (Hstop : mem w !! c = Some (code 0) → (threads w = ∅ → rest = [c]) → owner_steps more w rest Open).
      { intros Hn Hq. apply (owner_moves _ w _ _ (CStore c)); [done|by rewrite Eo| |done|].
        - unfold run_owner. rewrite Eo, (proj2 (Z.eqb_neq c b)), (queue_read _ _ _ Hn) by done.
          cbn [mbind result_bind]. rewrite decode_code, (q_tame_queue HQ) by by left. done.
        - rewrite Eo. cbn [quiet]. unfold to_go. intros Ht _ _. split; [auto|lia]. }
      destruct (head_next _ _ _ _ _ _ c HI Hc) as [[Hn Hq]|(n&Ha&Hl&Hn)]; [by apply Hstop|].
      apply (owner_moves _ w _ _ (CCheck b c n)); [done|by rewrite Eo| |by cbn [owner_ok]; auto 10|].
      * unfold run_owner. destruct Hl as [Hl _].
        rewrite Eo, (proj2 (Z.eqb_neq c b)), (queue_read _ _ _ Hl) by done. cbn [mbind result_bind].
        rewrite decode_code, (q_tame_queue HQ) by auto. by rewrite (proj2 (Z.eqb_neq n 0)) by by apply message_ne0.
      * rewrite Eo. cbn [quiet]. unfold to_go. intros _ _ Hq. split; [done|lia].
  - (* CCheck *)
    apply (owner_moves _ w _ _ (CCall b c n)); [done|by rewrite Eo| |done|].
    + unfold run_owner. destruct How as (_&_&_&_&_&Hl). by rewrite Eo, check_signature_Ok.
    + rewrite Eo. cbn [quiet]. unfold to_go. intros _ _ Hq. split; [done|lia].
  - (* CCall *)
    apply (owner_call _ _ _ _ b c n); [done|by rewrite Eo|done].
  - (* CStore *)
    destruct How as (->&Hc). unfold owner_steps, run_owner. rewrite Eo.
    rewrite queue_write; [|apply HI|by apply (q_mapped_special HQ)]. eexists _, rest. split; [done|].
    cbn [with_mem with_owner mem threads owner received sent]. split; [done|]. split; [done|]. split; [done|].
    set (m' := <[front := c]> (mem w)).
    assert (Hsame : ∀ x, obj x → same (mem w) m' x) by (intros; by apply same_special).
    split; [|intros _ _ _ ->; split; [cbn; lia|cbn; lia]].
    constructor; try apply HI.
    + apply dom_write; [apply HI|by apply (q_mapped_special HQ)].
    + intros t p Ht. pose proof (i_threads _ _ _ _ _ _ HI t p Ht) as Hok. apply (thread_same (mem w)); [| |done].
      * intros x Hx. by apply Hsame, (rest_obj rest).
      * intros x Hx. apply Hsame. by apply (unsent_obj _ _ _ x Hok).
    + intros x y Ha. pose proof (adj_elem _ _ _ Ha) as [Hx Hy].
      destruct (i_links _ _ _ _ _ _ HI x y Ha) as [H|H]; [left|by right].
      apply (linked_same (mem w)); [by apply Hsame, (rest_obj rest)..|done].
    + unfold m'. rewrite lookup_insert_ne; [apply HI|]. intros E. by destruct (q_distinct HQ) as (Hd&_).
    + unfold m'. rewrite lookup_insert_ne; [apply HI|]. by destruct (q_distinct HQ) as (_&_&Hd).
    + intros Hr. destruct (Hsame (end_of 0 rest)) as [-> _]; [by apply (rest_obj rest), end_of_in|].
      exact (i_last _ _ _ _ _ _ HI Hr).
    + intros _. unfold front_ok, m'. by rewrite lookup_insert_eq.
Qed.

(** ** Runs *)

Lemma exec_inv e w : inv w → allowed e w → ∃ w', exec e w = Ok w' ∧ inv w'.
Proof.
  intros Hw He. destruct e as [t seg|t|more|a v].
  - eexists. split; [done|]. by apply start_step.
  - cbn [RemoteQueue.exec]. destruct (threads w !! t) as [[seg|seg|prev seg|prev seg|seg]|] eqn:Ht; [| | | | |by eexists].
    + by apply null_step.
    + destruct (exchange_step w t seg Hw Ht) as (w'&E&Hw'&_). eauto.
    + destruct (setprev_step w t prev seg Hw Ht) as (w'&E&Hw'&_). eauto.
    + destruct (link_step w t prev seg Hw Ht) as (w'&E&Hw'&_). eauto.
    + destruct (front_step w t seg Hw Ht) as (w'&E&Hw'&_). eauto.
  - destruct Hw as (rest&ph&Hs&HI). destruct (owner_step more w rest ph Hs HI) as (w'&rest'&E&_&_&Hs'&HI'&_).
    exists w'. split; [done|]. by exists rest', ph.
  - by apply client_step.
Qed.

Lemma exec_all_inv es w : inv w → all_allowed es w → ∃ w', exec_all es w = Ok w' ∧ inv w'.
Proof.
  revert w. induction es as [|e es IH]; intros w Hw Ha; [by eexists|].
  destruct Ha as [He Ha]. destruct (exec_inv e w Hw He) as (w1&E&Hw1). rewrite E in Ha.
  destruct (IH w1 Hw1 Ha) as (w2&E2&Hw2). exists w2. cbn [RemoteQueue.exec_all]. by rewrite E.
Qed.

Lemma init_inv m : dom m = words → ∃ w, init mit key back front stub m = Ok w ∧ inv w.
Proof.
  intros Hm. unfold init. pose proof (q_mapped_special HQ) as Hsp.
  destruct (q_distinct HQ) as (D1&D2&D3).
  rewrite queue_write by auto. cbn [mbind result_bind].
  rewrite queue_write by (auto || (cbn [with_mem mem]; apply dom_write; auto)). cbn [mbind result_bind].
  rewrite queue_write by (auto || (cbn [with_mem mem]; repeat apply dom_write; auto)).
  eexists. split; [done|]. exists [], Empty. cbn [with_mem mem threads owner received sent]. split; [done|].
  assert (Hno : ∀ t p, (∅ : gmap nat producer) !! t = Some p → False) by (intros t p H; by rewrite lookup_empty in H).
  constructor.
  - repeat apply dom_write; auto.
  - done.
  - constructor.
  - intros t p H. destruct (Hno t p H).
  - intros t t' p p' x H. destruct (Hno t p H).
  - intros t t' p p' x y y' H. destruct (Hno t p H).
  - intros x y H. inversion H.
  - by rewrite lookup_insert_eq.
  - by rewrite !lookup_insert_ne, lookup_insert_eq by congruence.
  - done.
  - split; [done|]. split; [done|]. split; [by rewrite lookup_insert_ne, lookup_insert_eq by congruence|].
    intros t p H. destruct (Hno t p H).
  - done.
Qed.

Lemma drain n w rest ph : (to_go rest (owner w) ≤ n)%nat → sent w = received w ++ rest →
  Inv (mem w) (threads w) (owner w) (received w) rest ph → threads w = ∅ → quiet rest (owner w) →
  ∃ k w' rest', exec_all (replicate k (Owner true)) w = Ok w' ∧ sent w' = sent w ∧
    sent w' = received w' ++ rest' ∧ (length rest' ≤ 1)%nat.
Proof.
  revert w rest. induction n as [|n IH]; intros w rest Hn Hs HI Ht Hq.
  - exists 0%nat, w, rest. split; [done|]. split; [done|]. split; [done|]. unfold to_go in Hn. lia.
  - destruct (decide (owner w = CIdle)) as [Eo|Hne].
    { rewrite Eo in Hq. by exists 0%nat, w, rest. }
    destruct (owner_step true w rest ph Hs HI) as (w1&rest1&E&Hs1&Ht1&Hs1'&HI1&Hq1).
    destruct (Hq1 Ht eq_refl Hne Hq) as [Hquiet Hless].
    destruct (IH w1 rest1) as (k&w2&rest2&E2&Hs2&Hs2'&Hl); [lia|done|done|by rewrite Ht1|done|].
    exists (S k), w2, rest2. cbn [replicate RemoteQueue.exec_all RemoteQueue.exec]. rewrite E.
    cbn [mbind result_bind]. split; [done|]. split; [by rewrite Hs2|done].
Qed.

Lemma drained w : inv w → threads w = ∅ → owner w = CIdle →
  ∃ k w' rest, exec_all (replicate k (Owner true)) w = Ok w' ∧ sent w' = sent w ∧
    sent w' = received w' ++ rest ∧ (length rest ≤ 1)%nat.
Proof.
  intros (rest&ph&Hs&HI) Ht Eo.
  assert (Hcase : (length rest ≤ 1)%nat ∨ ∃ c n l, rest = c :: n :: l).
  { destruct rest as [|c [|n l]]; [left; cbn; lia..|right; by eauto]. }
  destruct Hcase as [Hl|(c&n&l&->)].
  { by exists 0%nat, w, rest. }
  pose proof (i_phase _ _ _ _ _ _ HI) as Hph.
  assert (ph = Open) as ->.
  { destruct ph; [by destruct Hph| |done]. destruct Hph as (_&_&_&t&p&Hp&_). by rewrite Ht, lookup_empty in Hp. }
  pose proof (i_owner _ _ _ _ _ _ HI) as How. rewrite Eo in How. specialize (How eq_refl) as Hf.
  assert (E : run_owner true w = Ok (with_owner w (CPoll c))).
  { unfold run_owner. rewrite Eo, (queue_read _ _ c Hf). cbn [mbind result_bind]. rewrite (q_tame_head HQ); [done|].
    right. right. pose proof (i_objs _ _ _ _ _ _ HI) as Ho. by apply Forall_cons in Ho as [Ho _]. }
  destruct (drain (to_go (c :: n :: l) (CPoll c)) (with_owner w (CPoll c)) (c :: n :: l) Open) as (k&w'&rest'&E'&H1&H2&H3).
  - done.
  - done.
  - apply (Inv_owner _ _ (owner w)); [done|]. cbn [owner_ok]. split; [by right|done].
  - done.
  - exists n. constructor.
  - exists (S k), w', rest'. cbn [replicate RemoteQueue.exec_all RemoteQueue.exec]. rewrite E. cbn [mbind result_bind]. auto.
Qed.

(** Between calls the assertion holds; the queue is destroyed with its first message. *)
Lemma idle_invariant w : inv w → threads w = ∅ → owner w = CIdle →
  invariant back front stub w w = Ok tt ∧
  ∃ w', destroy back front stub w =
    Ok (default 0 (list.head (drop (length (received w)) (sent w))), w') ∧ mem w' !! back = Some 0.
Proof.
  intros (rest&ph&Hs&HI) Ht Eo. rewrite Hs, drop_received. unfold invariant, destroy.
  pose proof (i_back _ _ _ _ _ _ HI) as Hb. pose proof (i_phase _ _ _ _ _ _ HI) as Hph.
  pose proof (i_owner _ _ _ _ _ _ HI) as How. rewrite Eo in How.
  pose proof (i_objs _ _ _ _ _ _ HI) as Hobj. destruct (q_distinct HQ) as (D1&D2&D3).
  assert (Hf : mem w !! front = Some (match rest with [] => stub | x :: _ => x end) ∧
    match rest with [] => True | x :: _ => x ≠ stub end).
  { destruct ph; cbn [phase_ok] in Hph.
    - by destruct Hph as (->&_&H&_).
    - destruct Hph as (_&_&_&t&p&Hp&_). by rewrite Ht, lookup_empty in Hp.
    - destruct Hph as [Hne _]. destruct rest as [|x l]; [done|]. split; [by apply How|].
      intros ->. apply Forall_cons in Hobj as [Ho _]. by destruct (q_special HQ stub stub special_stub Ho). }
  destruct Hf as [Hf Hstub]. rewrite (queue_read _ _ _ Hb), (queue_read _ _ _ Hf). cbn [mbind result_bind]. split.
  - destruct rest as [|x l]; [cbn [end_of]; by rewrite !Z.eqb_refl|].
    rewrite (proj2 (Z.eqb_neq (end_of 0 (x :: l)) 0)); [done|].
    apply message_ne0. by apply (rest_obj (x :: l)), end_of_in.
  - rewrite queue_write by (apply HI || by apply (q_mapped_special HQ)). cbn [mbind result_bind].
    rewrite (queue_read _ front (match rest with [] => stub | x :: _ => x end))
      by (cbn [with_mem mem]; by rewrite lookup_insert_ne).
    cbn [mbind result_bind]. exists (with_mem w (<[back := 0]> (mem w))). split; [|by apply lookup_insert_eq].
    destruct rest as [|x l]; [by rewrite Z.eqb_refl|]. by rewrite (proj2 (Z.eqb_neq x stub)).
Qed.

End Spec.

(** C7: Whatever the interleaving of the threads that send messages with the owner that
    receives them and with what the program writes to its own memory, no access faults, no
    signature is found wrong, and the owner has received a prefix of what has been sent, in
    the order of the exchanges.  If no thread is inside [enqueue] any more, the owner
    receives all but the last message. *)
Theorem messages_in_order mit dh dq key back front stub obj words m es :
  queue_ok dh dq back front stub obj words → dom m = words →
  ∃ w0, init mit key back front stub m = Ok w0 ∧
  (all_allowed mit dh dq key back front stub obj words es w0 →
   ∃ w rest, exec_all mit dh dq key back front es w0 = Ok w ∧ sent w = received w ++ rest ∧
    (threads w = ∅ → owner w = CIdle →
     ∃ k w' rest', exec_all mit dh dq key back front (replicate k (Owner true)) w = Ok w' ∧
       sent w' = sent w ∧ sent w' = received w' ++ rest' ∧ (length rest' ≤ 1)%nat)).
Proof.
  intros HQ Hm. destruct (init_inv mit dh dq key back front stub obj words HQ m Hm) as (w0&E0&Hw0).
  exists w0. split; [done|]. intros Ha.
  destruct (exec_all_inv mit dh dq key back front stub obj words HQ es w0 Hw0 Ha) as (w&E&Hw).
  pose proof Hw as (rest&ph&Hs&_). exists w, rest. split; [done|]. split; [done|].
  by apply (drained mit dh dq key back front stub obj words HQ).
Qed.

(** ** A run *)

(** [RemoteAllocator::key_global], with all mitigations. *)
Definition key_global : FreeListKey := mkKey 0xdeadbeef 0xbeefdead 0xdeadbeef.
Definition sample_mit : mitigations := mkMitigations true true true true.
Definition sample_objects : list Z := [1000; 1016; 1032].
Definition sample_words : list Z := [1500; 1508; 2000; 1000; 1008; 1016; 1024; 1032; 1040].
(** The first two objects are a segment: the one is linked to the other. *)
Definition sample_mem : Mem :=
  <[1000 := code_next sample_mit 1000 1016 key_global]>
    (<[1024 := signed_prev 1000 1016 key_global]> (list_to_map ((λ a, (a, 0)) <$> sample_words))).
Definition sample_events : list event :=
  [Start 1 [1000; 1016]; Start 2 [1032]; Producer 1; Producer 2; Producer 1; Producer 2; Owner true;
   Producer 2; Producer 1; Owner true; Owner true; Owner true; Owner true; Owner true; Owner true;
   Owner true; Owner true; Owner true; Client 1000 5; Producer 2; Owner true; Owner true].

Lemma sample_queue_ok : queue_ok (λ p, p) (λ p, p) 1500 1508 2000 (λ p, p ∈ sample_objects) (list_to_set sample_words).
Proof.
  assert (Hp : ∀ p, p ∈ sample_objects → p = 1000 ∨ p = 1016 ∨ p = 1032) by (unfold sample_objects; set_solver).
  constructor.
  - split; [intros H%Hp; lia|lia].
  - intros p q H1%Hp H2%Hp. lia.
  - intros a p [-> | [-> | ->]] H%Hp; lia.
  - lia.
  - intros p [-> | [-> | ->]]%Hp; split; apply (bool_decide_unpack _); by vm_compute.
  - intros a [-> | [-> | ->]]; apply (bool_decide_unpack _); by vm_compute.
  - done.
  - done.
Qed.

Lemma sample_dom : dom sample_mem = list_to_set sample_words.
Proof.
  assert (H : ∀ (m : Mem) a v, is_Some (m !! a) → dom (<[a := v]> m) = dom m) by (intros; by apply dom_insert_lookup_L).
  unfold sample_mem. rewrite H by (by eexists; vm_compute). rewrite H by (by eexists; vm_compute).
  by rewrite dom_list_to_map_L.
Qed.

Lemma messages_in_order_witness :
  ∃ w0, init sample_mit key_global 1500 1508 2000 sample_mem = Ok w0 ∧
   ∃ w rest, exec_all sample_mit (λ p, p) (λ p, p) key_global 1500 1508 sample_events w0 = Ok w ∧
    sent w = received w ++ rest ∧
    (threads w = ∅ → owner w = CIdle →
     ∃ k w' rest', exec_all sample_mit (λ p, p) (λ p, p) key_global 1500 1508 (replicate k (Owner true)) w = Ok w' ∧
       sent w' = sent w ∧ sent w' = received w' ++ rest' ∧ (length rest' ≤ 1)%nat).
Proof.
  destruct (messages_in_order sample_mit (λ p, p) (λ p, p) key_global 1500 1508 2000 (λ p, p ∈ sample_objects)
    (list_to_set sample_words) sample_mem sample_events sample_queue_ok sample_dom) as (w0&E&H).
  exists w0. split; [done|]. apply H. vm_compute in E. injection E as <-.
  apply (bool_decide_unpack _). by vm_compute.
Defined.

Lemma sample_messages :
  ∃ w0 w, init sample_mit key_global 1500 1508 2000 sample_mem = Ok w0 ∧
    exec_all sample_mit (λ p, p) (λ p, p) key_global 1500 1508 sample_events w0 = Ok w ∧
    sent w = [1000; 1016; 1032] ∧ received w = [1000] ∧ threads w = ∅.
Proof. do 2 eexists. split; [vm_compute; reflexivity|]. split; [vm_compute; reflexivity|]. by vm_compute. Qed.

(** The assertion can fail when a thread reads [back] before, and [front] after the first
    messages are sent by another one. *)
Example invariant_race :
  ∃ w0 w, init sample_mit key_global 1500 1508 2000 sample_mem = Ok w0 ∧
    exec_all sample_mit (λ p, p) (λ p, p) key_global 1500 1508
      [Start 1 [1000; 1016]; Producer 1; Producer 1; Producer 1] w0 = Ok w ∧
    invariant 1500 1508 2000 w0 w = Err AssertFail.
Proof. do 2 eexists. split; [vm_compute; reflexivity|]. split; [vm_compute; reflexivity|]. by vm_compute. Qed.

(** An owner that calls [dequeue] without having seen a message with [can_dequeue] can
    overwrite the first store of [front] with the stub: the messages are never received. *)
Example dequeue_without_poll :
  ∃ w0 w, init sample_mit key_global 1500 1508 2000 sample_mem = Ok w0 ∧
    exec_all sample_mit (λ p, p) (λ p, p) key_global 1500 1508
      [Start 1 [1000; 1016]; Producer 1; Producer 1; Owner true; Owner true; Owner true; Producer 1; Owner true]
      (with_owner w0 CReady) = Ok w ∧
    sent w = [1000; 1016] ∧ received w = [] ∧ threads w = ∅ ∧ owner w = CIdle ∧ mem w !! 1508 = Some 2000 ∧
    exec_all sample_mit (λ p, p) (λ p, p) key_global 1500 1508 [Owner true; Owner true] w = Ok w.
Proof. do 2 eexists. split; [vm_compute; reflexivity|]. split; [vm_compute; reflexivity|]. by vm_compute. Qed.

End RemoteQueueSpec.
