(* ===== verification/RbInsert.v ===== *)
(** * Insertion into the red-black tree *)

From stdpp Require Import base list numbers sorting sets.
From Stdlib Require Import ZArith Lia Permutation.
From S2P Require Import Prelude CInt RbTree RbShape RbRun.
Local Open Scope Z_scope.

Module RbInsert.
Import RbTree RbShape RbRun.

Section Insert.
Context {St : Type} `{RBRepLaws St} (V F : Z → Prop) (R : nat → Prop).
Context (root : nat) (Hroot : R root) (run_checks : bool).

Abbreviation sees := (sees V F R).
Abbreviation zip := (zip V root).
Abbreviation path_of := (path_of root).
Abbreviation hole := (hole root).
Abbreviation done_at := (done_at V F R root).
Abbreviation holds := (holds V root).

(** The new node is the root: it becomes black. *)
Lemma wp_insert_top l k r n s σ (Q : unit → St → Prop) :
  sees s σ → tree_at V σ (Root root) (T true l k r) → sorted (elems (T true l k r)) →
  rbt false n l → rbt false n r →
  (∀ s' t', done_at (elems (T true l k r)) σ t' s' → elems t' = elems (T true l k r) → Q tt s') →
  wp (root' ← deref (Root root); set_red root' false;;
      root' ← deref (Root root); check run_checks root') s Q.
Proof.
  intros Hs Ht Hso Hl Hr HQ. pose proof Ht as (Hk & Hv & Hc & Htl & Htr).
  apply wp_bind. eapply wp_deref; [done..|]. rewrite Hk.
  apply wp_bind. eapply wp_set_red; [done..|]. intros s1 Hs1.
  apply wp_bind. eapply wp_deref; [done..|]. rewrite cell_paint, Hk.
  assert (HN : NoDup ([k] ++ (elems l ++ elems r) ++ ckeys [])).
  { simpl. rewrite app_nil_r, Permutation_middle. by apply sorted_NoDup in Hso. }
  assert (Hto : touches [k] (hole []) σ (paint σ k false)) by touch.
  assert (Ht' : tree_at V (paint σ k false) (Root root) (T false l k r)).
  { simpl. split_and!; [done|done|by rewrite decide_True| |].
    - eapply rotation_tree; [done|done|exact Htl|done|in_parts].
    - eapply rotation_tree; [done|done|exact Htr|done|in_parts]. }
  change (check run_checks k) with (check (St := St) run_checks (key (T false l k r))).
  eapply wp_check; [done..|exact Ht'|by eapply rbt_black|done|]. intros s2 Hs2.
  eapply (HQ _ (T false l k r)); [|done]. exists (paint σ k false), (S n).
  split_and!; [done|done|by eapply rbt_black|]. apply touches_paint; [apply touches_refl|].
  simpl. set_solver.
Qed.

(** The tree that a rotation ends with, in the words of what is left to show. *)
Ltac replaced V root C σ HN Hcont :=
  eapply Hcont;
  [ eassumption | touch | rotated V root C σ HN | by eapply rbt_black | by eapply rbt_black
  | same_elems ].

(** A red node below a red one: the rotation around the grand parent [g].  What replaces
    it is a red node with black children. *)
Lemma wp_insert_rotate d p sib dg g u C l k r n c' s σ (Q : unit → St → Prop) :
  let C0 := mkFrame d true p sib :: mkFrame dg false g u :: C in
  sees s σ → zip σ C0 (T true l k r) → NoDup (elems (plug C0 (T true l k r))) →
  rbt false n l → rbt false n r → rbt false n sib → rbt c' n u →
  (∀ l' k' r' s' σ', sees s' σ' → touches [k; p; g] (hole C) σ σ' →
    zip σ' C (T true l' k' r') → rbt false (S n) l' → rbt false (S n) r' →
    elems (plug C (T true l' k' r')) = elems (plug C0 (T true l k r)) → Q tt s') →
  wp (if bool_decide (dg = d) then
        sibling ← load (get_dir (negb d) p);
        set_red k false;;
        store (get_dir d g) sibling;;
        store (get_dir (negb d) p) g;;
        gh ← grand_parent (path_of C0);
        assign gh p
      else
        child_g ← load (get_dir d k);
        child_p ← load (get_dir (negb d) k);
        set_red p false;;
        gh ← grand_parent (path_of C0);
        assign gh k;;
        store (get_dir d k) g;;
        store (get_dir (negb d) k) p;;
        store (get_dir d p) child_p;;
        store (get_dir (negb d) g) child_g) s Q.
Proof.
  intros C0 Hs Hz HN Hl Hr Hsib Hu Hcont. unfold C0 in *. clear C0.
  destruct Hz as [(Hk & Hv & Hc & Htl & Htr) (Hp & Hvp & Hcp & Hts & Hg & Hvg & Hcg & Htu & HCt)].
  cbn [fdir fred fkey fsib] in *. rewrite elems_plug_perm in HN. cbn [ckeys fkey fsib elems] in HN.
  apply (perm_NoDup _ ([k; p; g] ++ (elems l ++ elems r ++ elems sib ++ elems u) ++ ckeys C)) in HN;
    [|simpl; perm].
  distinct HN.
  pose proof (tree_at_key _ _ _ _ Htl) as Ekl. pose proof (tree_at_key _ _ _ _ Htr) as Ekr.
  pose proof (tree_at_key _ _ _ _ Hts) as Eks. pose proof (tree_at_key _ _ _ _ Htu) as Eku.
  destruct d, dg; cbn [negb] in *;
    first [rewrite bool_decide_true by done | rewrite bool_decide_false by done];
    (repeat rb_step);
    [ replaced V root C σ HN (Hcont (T false l k r) p (T false sib g u))
    | replaced V root C σ HN (Hcont (T false u g l) k (T false r p sib))
    | replaced V root C σ HN (Hcont (T false sib p l) k (T false r g u))
    | replaced V root C σ HN (Hcont (T false u g sib) p (T false l k r)) ].
Qed.

Lemma wp_insert_loop fuel C l k r n s σ (Q : unit → St → Prop) :
  sees s σ → zip σ C (T true l k r) → sorted (elems (plug C (T true l k r))) →
  rbt false n l → rbt false n r → ctx_ok false n C → (length C < fuel)%nat →
  (∀ s' t', done_at (elems (plug C (T true l k r))) σ t' s' →
    elems t' = elems (plug C (T true l k r)) → Q tt s') →
  wp (insert_loop run_checks fuel root (path_of C)) s Q.
Proof.
  revert C l k r n s σ. induction fuel as [|fuel IH]; intros C l k r n s σ Hs Hz Hso Hl Hr HC Hf HQ;
    [lia|].
  cbn [insert_loop]. apply wp_bind, wp_curr.
  destruct C as [|[d cp p sib] C]; cbn [RbShape.hole fdir fkey].
  { rewrite bool_decide_true by done. eapply wp_insert_top; [done|apply Hz|done..]. }
  rewrite bool_decide_false by done.
  apply wp_bind. eapply (wp_load_curr V F R root Hroot); [done..|].
  cbn [key]. pose proof Hz as [(_ & Hv & Hc & _) HCt].
  pose proof HCt as (Hp & Hvp & Hcp & _ & HCt'). cbn [fdir fred fkey fsib] in *.
  apply wp_bind. eapply wp_is_red; [done|by right|]. intros s1 Hs1. rewrite Hc.
  apply wp_bind. apply wp_assert; [done|].
  apply wp_bind. eapply wp_load; [intros; by apply wp_parent|done|by eapply place_hole|].
  rewrite Hp. apply wp_bind. eapply wp_is_red; [done|by right|]. intros s2 Hs2. rewrite Hcp.
  destruct cp; cbn [negb].
  2:{ (* a black parent *)
    assert (Hpl : tree_at V σ (Root root) (plug (mkFrame d false p sib :: C) (T true l k r))).
    { by apply zip_plug. }
    apply wp_bind. eapply wp_deref; [done..|]. rewrite (tree_at_key _ _ _ _ Hpl).
    apply ctx_ok_black_inv in HC as (c' & Hsib & HC').
    destruct (plug_rbt true n (mkFrame d false p sib :: C) (T true l k r)) as [m Hm];
      [by eapply ctx_ok_black|by apply rbt_red|].
    eapply wp_check; [exact Hs2|exact Hpl|exact Hm|exact Hso|]. intros s3 Hs3.
    eapply HQ; [|done]. exists σ, m. done. }
  apply ctx_ok_red_inv in HC as (Hsib & dg & g & u & C' & -> & HC' & (c' & Hu) & HC'').
  rename C' into C. pose proof HCt' as (Hg & Hvg & Hcg & _ & HCt''). cbn [fdir fred fkey fsib] in *.
  apply wp_bind, wp_curr_dir. cbn [fdir].
  apply wp_bind. eapply (wp_load_curr V F R root Hroot); [done..|]. cbn [key].
  apply wp_bind. eapply wp_load; [intros; by apply wp_parent|done|by eapply place_hole|].
  rewrite Hp. apply wp_bind.
  eapply wp_load; [intros; by apply wp_grand_parent|done|by eapply place_hole|]. rewrite Hg.
  apply wp_bind. eapply wp_is_red; [done|by right|]. intros s3 Hs3. rewrite Hcg.
  apply wp_bind. apply wp_assert; [done|].
  apply wp_bind, wp_parent_dir. cbn [fdir]. apply wp_bind.
  eapply wp_insert_rotate; [exact Hs3|exact Hz|by apply sorted_NoDup|exact Hl|exact Hr|exact Hsib|exact Hu|].
  set (whole := elems (plug _ _)) in *. intros l' k' r' s4 σ' Hs4 Hto Hz' Hl' Hr' He.
  apply wp_bind, wp_pop, wp_bind, wp_pop, wp_bind.
  eapply (wp_load_curr V F R root Hroot); [done..|]. apply wp_bind.
  eapply wp_check; [done|exact (proj1 Hz')|by apply rbt_red| |].
  { apply (sorted_plug C). by rewrite He. }
  intros s5 Hs5. eapply IH; [done..|by rewrite He|done|done|done|simpl in Hf; lia|].
  intros s' t' Hd Ht'. apply (HQ s' t'); [|by rewrite Ht']. rewrite He in Hd.
  eapply done_at_trans; [exact Hd|exact Hto| |].
  - intros x Hx. unfold whole. rewrite elems_plug_perm. simpl. set_solver.
  - rewrite <- He. exact (hole_in_plug root C _).
Qed.

End Insert.

(** ** Inserting a node *)

Section InsertNode.
Context {St : Type} `{RBRepLaws St} (V F : Z → Prop) (R : nat → Prop).
Context (root : nat) (Hroot : R root) (run_checks : bool).

Abbreviation sees := (sees V F R).
Abbreviation zip := (zip V root).
Abbreviation path_of := (path_of root).
Abbreviation hole := (hole root).
Abbreviation holds := (holds V root).

(** Insertion at the end of a path that [find] has left at an empty place. *)
Lemma wp_insert_path C value n s σ (Q : unit → St → Prop) :
  let V' := with_node V value in
  sees s σ → zip σ C E → F value → sorted (elems (plug C (T true E value E))) →
  ctx_ok false n C → n = 0%nat → (length C < 128)%nat →
  (∀ s' t', RbRun.done_at V' F R root (value :: elems (plug C E)) σ t' s' →
    elems t' = elems (plug C (T true E value E)) → Q tt s') →
  wp (insert_path run_checks root (path_of C) value) s Q.
Proof.
  intros V' Hs Hz Hv Hso HC -> Hlen HQ. unfold insert_path.
  pose proof (zip_place V R root Hroot σ C E Hz) as Hpl.
  assert (HN : NoDup ([value] ++ [] ++ ckeys C)).
  { apply sorted_NoDup in Hso. rewrite elems_plug_perm in Hso. done. }
  assert (Hh : ∀ d, hole C ≠ Ref d value).
  { intros d. apply hole_ne. apply NoDup_app in HN as (_ & HN & _). apply (HN value). in_list. }
  pose proof (Hh true). pose proof (Hh false).
  rb_step. rb_step. rb_step. eapply (wp_is_null_hole V F R root Hroot); [done..|].
  rb_step. apply wp_assert; [done|].
  rb_step. eapply wp_assign_fresh; [done|done|right; by eapply sees_fresh|]. intros s1 Hs1.
  apply wp_bind. eapply wp_load; [intros; by apply wp_curr|eassumption|done|]. look. rewrite rep_null_0.
  apply wp_bind. unfold store at 1. apply wp_bind.
  eapply wp_get_fresh; [done..|]. intros s2 σ2 Hs2 Hag. fold V' in Hs2.
  assert (Eh : cell σ2 (hole C) = value) by (rewrite (proj1 Hag) by done; by look).
  assert (Hvv : V' value) by (by right).
  assert (Hpl' : place V' R (hole C)) by (destruct C; [done|left; exact Hpl]).
  rb_step. apply wp_bind.
  eapply wp_load; [intros; by apply wp_curr|eassumption|done|]. look.
  rb_step. rb_step. rb_step. rb_step.
  match goal with |- wp _ ?s0 _ => match goal with H : RbRun.sees V' F R s0 ?x |- _ =>
    set (σ5 := x) in *; rename H into Hs5 end end.
  assert (Hto : touches [value] (hole C) σ σ5).
  { unfold σ5. touch. eapply touches_but; [|exact Hag|in_list]. touch. }
  assert (Hz5 : RbRun.zip V' root σ5 C (T true E value E)).
  { split; [cbn [tree_at]; unfold σ5; look; by split_and!|].
    eapply ctx_at_mono; [exact (rotation_ctx V root C [value] [] σ σ5 HN Hto (proj2 Hz))|].
    intros k Hk. by left. }
  eapply (wp_insert_loop V' F R root Hroot run_checks _ C E value E 0 _ _ _ Hs5 Hz5);
    [done|apply rbt_E|apply rbt_E|done|done|].
  intros s6 t' Hd Ht'. apply (HQ s6 t'); [|done].
  eapply (done_at_trans V' F R root [value] (hole C)); [|exact Hto| |].
  - eapply done_at_mono; [exact Hd|]. intros k. rewrite !elems_plug_perm. done.
  - intros k ->%list_elem_of_singleton. in_list.
  - destruct (hole_in_plug root C E) as [?|(d & k & ? & ?)]; [by left|right].
    exists d, k. split; [done|]. by right.
Qed.

Lemma wp_insert_elem value t s σ :
  let V' := with_node V value in
  sees s σ → holds σ t → F value →
  wp (insert_elem run_checks root value) s (λ b s', ∃ σ' t',
    (if (b : bool) then RbRun.sees V' F R s' σ' ∧ RbRun.holds V' root σ' t'
     else sees s' σ' ∧ t' = t ∧ σ' = σ) ∧
    b = bool_decide (value ∉ elems t) ∧
    (∀ x, x ∈ elems t' ↔ x = value ∨ x ∈ elems t) ∧
    touches (value :: elems t) (Root root) σ σ').
Proof.
  intros V' Hs Hh Hv. pose proof (holds_height V F R root _ _ _ Hs Hh) as Hht. pose proof Hh as (Ht & Hm & Hso).
  unfold insert_elem. rb_step.
  eapply (wp_find V F R root Hroot [] t); [done|done|done|apply in_hole_top|simpl; lia|].
  intros C' t' Hz Hp Hin Hlen s1 Hs1. cbn [plug] in *. split; intros [H1 H2].
  - subst t'. cbn beta iota. rb_step.
    rewrite <- Hp in Hh. apply holds_plug in Hh as (_ & c & n & HC & Hr). inversion Hr; subst c n.
    eapply wp_insert_path; [done..| |done|done|simpl in *; lia|].
    { apply in_hole_sorted; [by rewrite Hp|done]. }
    intros s' t' (σ' & m & Hs' & Ht' & Hm' & Hto) He. apply wp_ret. exists σ', t'.
    rewrite Hp in Hto.
    split_and!; [done| |by rewrite bool_decide_true| |done].
    + split_and!; [done|eauto|]. rewrite He. apply in_hole_sorted; [by rewrite Hp|done].
    + intros x. rewrite He, <- Hp, !elems_plug. simpl. set_solver.
  - cbn beta iota. apply wp_ret. exists σ, t.
    assert (value ∈ elems t).
    { rewrite <- Hp, elems_plug. destruct t' as [|c l k r]; [done|]. simpl in *. set_solver. }
    split_and!; [done|done|done| |set_solver|apply touches_refl].
    rewrite bool_decide_false; [done|]. by intros Hn.
Qed.

End InsertNode.
End RbInsert.
