(* ===== verification/RbRemove.v ===== *)
(** * snmalloc: removal from a red-black tree

    [RbRebalance]: the turns of the loop that repairs the tree.  [RbRemove]: removal. *)

From stdpp Require Import base list numbers sorting sets.
From Stdlib Require Import ZArith Lia Permutation.
From S2P Require Import Prelude CInt RbTree RbShape RbRun.
Local Open Scope Z_scope.

(** * The loop of removal that moves the double black up *)

Module RbRebalance.
Import RbTree RbShape RbRun.

Section Remove.
Context {St : Type} `{RBRepLaws St} (V F : Z → Prop) (R : nat → Prop).
Context (root : nat) (Hroot : R root) (run_checks : bool).

Abbreviation sees := (sees V F R).
Abbreviation zip := (zip V root).
Abbreviation path_of := (path_of root).
Abbreviation hole := (hole root).
Abbreviation done_at := (done_at V F R root).
Abbreviation holds := (holds V root).

(** The names of the parts of a node with a direction. *)
Lemma elems_mk d c k a b : elems (mk d c k a b) ≡ₚ k :: elems a ++ elems b.
Proof. destruct d; simpl; perm. Qed.

(** The step of the loop that ends it: the sibling is black, and the parent or a nibling
    is red. *)
Lemma wp_remove_last fuel d cp p ks a b C t c n s σ (Q : unit → St → Prop) :
  sees s σ → zip σ (mkFrame d cp p (mk d false ks a b) :: C) t →
  sorted (elems (plug (mkFrame d cp p (mk d false ks a b) :: C) t)) → rbt c n t →
  ctx_ok false (S n) (mkFrame d cp p (mk d false ks a b) :: C) →
  cp = true ∨ colour a = true ∨ colour b = true →
  (∀ s' t', done_at (elems (plug (mkFrame d cp p (mk d false ks a b) :: C) t)) σ t' s' →
    elems t' = elems (plug (mkFrame d cp p (mk d false ks a b) :: C) t) → Q tt s') →
  wp (remove_loop run_checks (S fuel) root (path_of (mkFrame d cp p (mk d false ks a b) :: C))) s Q.
Proof.
  intros Hs Hz Hso Ht HC Hred HQ.
  apply ctx_ok_short in HC as [(cs & Hrs & _) HC].
  apply rbt_mk_inv in Hrs as [<- (ca & cb & n' & [= <-] & Ha & Hb)].
  destruct Hz as [Htt HCt]. destruct HCt as (Hp & Hvp & Hcp & Hsib & HCt).
  cbn [fdir fred fkey fsib] in *. apply tree_at_mk in Hsib as (Hks & Hvs & Hcs & Hta & Htb).
  pose proof (tree_at_key _ _ _ _ Hta) as Eka. pose proof (tree_at_key _ _ _ _ Htb) as Ekb.
  pose proof (tree_at_key _ _ _ _ Htt) as Ekt. cbn [RbShape.hole fdir fkey] in Ekt.
  pose proof (tree_at_colour V F R _ _ _ _ Hs Hta) as Eca.
  pose proof (tree_at_colour V F R _ _ _ _ Hs Htb) as Ecb.
  apply sorted_NoDup in Hso. pose proof Hso as HN0. rewrite elems_plug_perm in HN0. cbn [ckeys fkey fsib] in HN0.
  set (whole := elems (plug _ _)) in *.
  assert (Hfin : ∀ K s' σ' t' c', sees s' σ' → zip σ' C t' → touches K (hole C) σ σ' →
    rbt c' (if cp then S n else S (S n)) t' → c' = cp ∨ c' = false →
    (∀ k, k ∈ K → k ∈ elems t') → elems (plug C t') = whole → Q tt s').
  { intros K s' σ' t' c' Hs' Hz' Hto Hr Hc' HK He. apply (HQ s' (plug C t')); [|done].
    rewrite <- He. eapply (zip_done V F R root K); [done..| |exact Hr|done].
    destruct Hc' as [-> | ->]; [exact HC|by eapply ctx_ok_false]. }
  clear HQ.
  cbn [remove_loop]. repeat rb_step. rewrite bool_decide_false by done.
  apply wp_bind. eapply wp_load; [intros; by apply wp_parent|done|by eapply place_hole|]. look.
  destruct (colour b) eqn:Ecolb.
  { (* a red nibling on the far side *)
    destruct b as [|[] b1 kb b2]; [done| |done]. clear Ecolb.
    assert (HN : NoDup ([p; ks; kb] ++ (elems t ++ elems a ++ elems b1 ++ elems b2) ++ ckeys C)).
    { eapply perm_NoDup; [|exact HN0]. destruct d; simpl; perm. }
    distinct HN. cbn [colour key] in *. destruct Htb as (_ & Hvb & _ & Htb1 & Htb2).
    inversion Hb as [| |? ? ? ? Hb1 Hb2]; subst cb.
    assert (Hrb : rbt cp (if cp then S n else S (S n)) (mk d cp ks (mk d false p t a) (T false b1 kb b2))).
    { apply rbt_mk_any; [by eapply rbt_mk_black|by eapply rbt_black]. }
    set (t' := mk d cp ks _ _) in Hrb.
    destruct d; cbn [negb] in *; (repeat rb_step); eapply (Hfin [p; ks; kb] _ _ t');
      try eassumption; subst t'; cbn [mk];
      [rotated V root C σ HN|touch|by left|in_elems|unfold whole; same_elems
      |rotated V root C σ HN|touch|by left|in_elems|unfold whole; same_elems]. }
  destruct (colour a) eqn:Ecola.
  { (* a red nibling on the near side *)
    destruct (tree_mk d a) as [->|(c' & ka & a1 & a2 & ->)]; [done|].
    apply rbt_mk_inv in Ha as [-> Ha]. destruct ca; [|by destruct d]. destruct Ha as [Ha1 Ha2].
    assert (HN : NoDup ([p; ks; ka] ++ (elems t ++ elems b ++ elems a1 ++ elems a2) ++ ckeys C)).
    { eapply perm_NoDup; [|exact HN0]. destruct d; simpl; perm. }
    distinct HN. apply tree_at_mk in Hta as (_ & Hva & _ & Hta1 & Hta2).
    pose proof (tree_at_key _ _ _ _ Hta1) as Eka1. pose proof (tree_at_key _ _ _ _ Hta2) as Eka2.
    destruct cb; [by inversion Hb; subst|].
    assert (Hrb : rbt cp (if cp then S n else S (S n))
      (mk d cp ka (mk d false p t a1) (mk d false ks a2 b))).
    { apply rbt_mk_any; by eapply rbt_mk_black. }
    set (t' := mk d cp ka _ _) in Hrb.
    destruct d; cbn [negb mk key] in *; (repeat rb_step); eapply (Hfin [p; ks; ka] _ _ t');
      try eassumption; subst t'; cbn [mk];
      [rotated V root C σ HN|touch|by left|in_elems|unfold whole; same_elems
      |rotated V root C σ HN|touch|by left|in_elems|unfold whole; same_elems]. }
  (* a red parent *)
  destruct Hred as [->|[?|?]]; [|done..].
  assert (HN : NoDup ([p; ks] ++ (elems t ++ elems a ++ elems b) ++ ckeys C)).
  { eapply perm_NoDup; [|exact HN0]. destruct d; simpl; perm. }
  distinct HN.
  destruct ca; [by inversion Ha; subst|]. destruct cb; [by inversion Hb; subst|].
  assert (Hrb : rbt false (S n) (mk d false p t (mk d true ks a b))).
  { eapply rbt_mk_black; [done|by apply rbt_mk_red]. }
  set (t' := mk d false p _ _) in Hrb.
  destruct d; cbn [negb] in *; (repeat rb_step); eapply (Hfin [p; ks] _ _ t');
    try eassumption; subst t'; cbn [mk];
    [rotated V root C σ HN|touch|by right|in_elems|unfold whole; same_elems
    |rotated V root C σ HN|touch|by right|in_elems|unfold whole; same_elems].
Qed.

Lemma down_mk d c k a b : down d (mk d c k a b) = (mkFrame d c k b, a).
Proof. by destruct d. Qed.

Lemma mk_ne d c k a b : mk d c k a b ≠ E.
Proof. by destruct d. Qed.

(** A red sibling is rotated up first; the step that follows is the last. *)
Lemma wp_remove_red fuel d p ks a b C t c n s σ (Q : unit → St → Prop) :
  sees s σ → zip σ (mkFrame d false p (mk d true ks a b) :: C) t →
  sorted (elems (plug (mkFrame d false p (mk d true ks a b) :: C) t)) → rbt c n t →
  ctx_ok false (S n) (mkFrame d false p (mk d true ks a b) :: C) → (length C < 126)%nat →
  (∀ s' t', done_at (elems (plug (mkFrame d false p (mk d true ks a b) :: C) t)) σ t' s' →
    elems t' = elems (plug (mkFrame d false p (mk d true ks a b) :: C) t) → Q tt s') →
  wp (remove_loop run_checks (S (S fuel)) root (path_of (mkFrame d false p (mk d true ks a b) :: C))) s Q.
Proof.
  intros Hs Hz Hso Ht HC Hlen HQ.
  apply ctx_ok_short in HC as [(cs & Hrs & _) HC].
  apply rbt_mk_inv in Hrs as [<- [Ha Hb]].
  destruct Hz as [Htt HCt]. destruct HCt as (Hp & Hvp & Hcp & Hsib & HCt).
  cbn [fdir fred fkey fsib] in *. apply tree_at_mk in Hsib as (Hks & Hvs & Hcs & Hta & Htb).
  pose proof (tree_at_key _ _ _ _ Hta) as Eka. pose proof (tree_at_key _ _ _ _ Htb) as Ekb.
  pose proof (tree_at_key _ _ _ _ Htt) as Ekt. cbn [RbShape.hole fdir fkey] in Ekt.
  pose proof Hso as HN. apply sorted_NoDup in HN. rewrite elems_plug_perm in HN. cbn [ckeys fkey fsib] in HN.
  apply (perm_NoDup _ ([p; ks] ++ (elems t ++ elems a ++ elems b) ++ ckeys C)) in HN;
    [|destruct d; simpl; perm].
  distinct HN.
  set (C' := mkFrame d true p a :: mkFrame d false ks b :: C).
  assert (He : elems (plug C' t) = elems (plug (mkFrame d false p (mk d true ks a b) :: C) t)).
  { unfold C'. destruct d; same_elems. }
  assert (HC' : ctx_ok false (S n) C').
  { apply ctx_ok_red; [done|]. by eapply ctx_ok_black. }
  assert (Hcont : ∀ s' σ', sees s' σ' → zip σ' C (mk d false ks (mk d true p t a) b) →
    touches [p; ks] (hole C) σ σ' →
    wp (pop (path_of (mkFrame d false p (mk d true ks a b) :: C))) s' (λ path s',
      wp ('(_, path) ← move path d; '(_, path) ← move_inc_null path d;
          path ← fixup run_checks false path; remove_loop run_checks (S fuel) root path) s' Q)).
  { intros s' σ' Hs' Hz' Hto. apply wp_pop, wp_bind.
    eapply (wp_move V F R root Hroot); [exact Hs'|exact Hz'|apply mk_ne|lia|]. intros s1 Hs1.
    apply (zip_down V root d) in Hz'; [|apply mk_ne]. rewrite down_mk in *. cbn [fst snd] in *.
    assert (is_E (mk d true p t a) = false) as -> by (by destruct d).
    rb_step. eapply (wp_move_inc_null V F R root Hroot); [exact Hs1|exact Hz'|apply mk_ne|simpl; lia|].
    intros s2 Hs2.
    apply (zip_down V root d) in Hz'; [|apply mk_ne]. rewrite down_mk in *. cbn [fst snd] in *.
    fold C' in Hz' |- *. rb_step. eapply (wp_fixup_same V F R root Hroot); [exact Hs2|exact (proj2 Hz')|].
    intros s3 Hs3.
    destruct (rbt_S_mk d n a Ha) as (ka & a1 & a2 & Ea). unfold C' in *. rewrite Ea in *.
    eapply wp_remove_last; [exact Hs3|exact Hz'|by rewrite He|done|done|by left|].
    intros s'' t' Hd Ht'. apply (HQ s'' t'); [|by rewrite Ht'].
    rewrite <- He. eapply done_at_trans; [exact Hd|exact Hto| |].
    - intros x. rewrite elems_plug_perm. cbn [ckeys fkey fsib].
      rewrite !elem_of_app, !elem_of_cons, !elem_of_app, !elem_of_cons. rewrite elem_of_nil. tauto.
    - exact (hole_in_plug root C (mk d false ks (mk d true p t (mk d false ka a1 a2)) b)). }
  clear HQ He.
  cbn [remove_loop]. repeat rb_step. rewrite bool_decide_false by done.
  apply wp_bind. eapply wp_load; [intros; by apply wp_parent|done|by eapply place_hole|]. look.
  destruct d; cbn [negb] in *; (repeat rb_step); (eapply Hcont; [eassumption| |touch]);
    cbn [mk]; rotated V root C σ HN.
Qed.

(** A black parent with a black sibling and black niblings: the sibling becomes red and
    the whole subtree is one black node short. *)
Lemma wp_remove_black fuel d p ks a b C t c n s σ (Q : unit → St → Prop) :
  sees s σ → zip σ (mkFrame d false p (mk d false ks a b) :: C) t →
  sorted (elems (plug (mkFrame d false p (mk d false ks a b) :: C) t)) → rbt c n t →
  rbt false n a → rbt false n b →
  (∀ s' σ', sees s' σ' → zip σ' C (mk d false p t (mk d true ks a b)) →
    touches [p; ks] (hole C) σ σ' → wp (remove_loop run_checks fuel root (path_of C)) s' Q) →
  wp (remove_loop run_checks (S fuel) root (path_of (mkFrame d false p (mk d false ks a b) :: C))) s Q.
Proof.
  intros Hs Hz Hso Ht Ha Hb HQ.
  destruct Hz as [Htt HCt]. destruct HCt as (Hp & Hvp & Hcp & Hsib & HCt).
  cbn [fdir fred fkey fsib] in *. apply tree_at_mk in Hsib as (Hks & Hvs & Hcs & Hta & Htb).
  pose proof (tree_at_key _ _ _ _ Hta) as Eka. pose proof (tree_at_key _ _ _ _ Htb) as Ekb.
  pose proof (tree_at_key _ _ _ _ Htt) as Ekt. cbn [RbShape.hole fdir fkey] in Ekt.
  pose proof (tree_at_colour V F R _ _ _ _ Hs Hta) as Eca.
  pose proof (tree_at_colour V F R _ _ _ _ Hs Htb) as Ecb.
  assert (colour a = false) as Ea by (by inversion Ha).
  assert (colour b = false) as Eb by (by inversion Hb). rewrite Ea in Eca. rewrite Eb in Ecb.
  pose proof Hso as HN. apply sorted_NoDup in HN. rewrite elems_plug_perm in HN. cbn [ckeys fkey fsib] in HN.
  apply (perm_NoDup _ ([p; ks] ++ (elems t ++ elems a ++ elems b) ++ ckeys C)) in HN;
    [|destruct d; simpl; perm].
  distinct HN.
  assert (Hsot : sorted (elems (mk d false p t (mk d true ks a b)))).
  { cbn [plug] in Hso. apply sorted_plug in Hso. unfold fill in Hso. by destruct d. }
  assert (Hrb : rbt false (S n) (mk d false p t (mk d true ks a b))).
  { eapply rbt_mk_black; [done|by apply rbt_mk_red]. }
  assert (Hcont : ∀ s' σ', sees s' σ' → zip σ' C (mk d false p t (mk d true ks a b)) →
    touches [p; ks] (hole C) σ σ' →
    wp (pop (path_of (mkFrame d false p (mk d false ks a b) :: C))) s' (λ path s',
      wp (k ← load (curr path); check run_checks k;; remove_loop run_checks fuel root path) s' Q)).
  { intros s' σ' Hs' Hz' Hto. apply wp_pop, wp_bind.
    eapply (wp_load_curr V F R root Hroot); [done..|]. apply wp_bind.
    eapply wp_check; [exact Hs'|exact (proj1 Hz')|exact Hrb|exact Hsot|].
    intros s1 Hs1. by eapply HQ. }
  clear HQ.
  cbn [remove_loop]. repeat rb_step. rewrite bool_decide_false by done.
  apply wp_bind. eapply wp_load; [intros; by apply wp_parent|done|by eapply place_hole|]. look.
  destruct d; cbn [negb] in *; (repeat rb_step); (eapply Hcont; [eassumption| |touch]);
    cbn [mk]; rotated V root C σ HN.
Qed.

(** The loop that moves the double black up: [t] is one black node short. *)
Lemma wp_remove_loop fuel C t c n s σ (Q : unit → St → Prop) :
  sees s σ → zip σ C t → sorted (elems (plug C t)) → rbt c n t → ctx_ok false (S n) C →
  (C = [] → c = false) → (length C + 2 ≤ fuel)%nat → (length C < 126)%nat →
  (∀ s' t', done_at (elems (plug C t)) σ t' s' → elems t' = elems (plug C t) → Q tt s') →
  wp (remove_loop run_checks fuel root (path_of C)) s Q.
Proof.
  revert C t c n s σ. induction fuel as [|fuel IH]; intros C t c n s σ Hs Hz Hso Ht HC Hc Hf Hl HQ; [lia|].
  destruct C as [|[d cp p sib] C].
  - cbn [remove_loop]. rb_step. apply wp_curr. rewrite bool_decide_true by done. apply wp_ret.
    apply (HQ s t); [|done]. exists σ, n. rewrite Hc in Ht by done.
    split_and!; [done|apply Hz|done|apply touches_refl].
  - simpl in Hf, Hl. pose proof (ctx_ok_short _ _ _ _ _ _ HC) as [(cs & Hrs & Hcs) HC'].
    destruct (tree_mk d sib) as [->|(cs' & ks & a & b & ->)]; [by inversion Hrs|].
    pose proof Hrs as Hrs'. apply rbt_mk_inv in Hrs' as [-> Hab]. destruct cs.
    + (* a red sibling *)
      destruct cp; [by specialize (Hcs eq_refl)|]. destruct fuel as [|fuel]; [lia|].
      eapply wp_remove_red; [exact Hs|exact Hz|exact Hso|exact Ht|exact HC|lia|exact HQ].
    + destruct Hab as (ca & cb & m & [= <-] & Ha & Hb).
      destruct (decide (cp = true ∨ colour a = true ∨ colour b = true)) as [Hred|Hred].
      { eapply wp_remove_last; [exact Hs|exact Hz|exact Hso|exact Ht|exact HC|exact Hred|exact HQ]. }
      destruct cp; [tauto|].
      assert (ca = false) as -> by (inversion Ha; subst; simpl in *; tauto).
      assert (cb = false) as -> by (inversion Hb; subst; simpl in *; tauto).
      eapply wp_remove_black; [exact Hs|exact Hz|exact Hso|exact Ht|exact Ha|exact Hb|].
      intros s' σ' Hs' Hz' Hto.
      assert (He : elems (plug C (mk d false p t (mk d true ks a b))) =
        elems (plug (mkFrame d false p (mk d false ks a b) :: C) t)).
      { destruct d; same_elems. }
      eapply IH; [exact Hs'|exact Hz'|by rewrite He| |exact HC'|done|lia|lia|].
      { eapply rbt_mk_black; [done|by apply rbt_mk_red]. }
      intros s'' t' Hd Ht'. apply (HQ s'' t'); [|by rewrite Ht'].
      rewrite <- He. eapply done_at_trans; [exact Hd|exact Hto| |].
      * intros x. rewrite elems_plug_perm, elems_mk, elems_mk. rewrite ?elem_of_cons, ?elem_of_app.
        rewrite ?elem_of_cons, ?elem_of_app, ?elem_of_cons, elem_of_nil. tauto.
      * apply hole_in_plug.
Qed.

End Remove.
End RbRebalance.

(** * Removal from the red-black tree *)

Module RbRemove.
Import RbTree RbShape RbRun RbRebalance.

Section Remove.
Context {St : Type} `{RBRepLaws St} (V F : Z → Prop) (R : nat → Prop).
Context (root : nat) (Hroot : R root) (run_checks : bool).

Abbreviation sees := (sees V F R).
Abbreviation zip := (zip V root).
Abbreviation path_of := (path_of root).
Abbreviation hole := (hole root).
Abbreviation done_at := (done_at V F R root).
Abbreviation holds := (holds V root).

(** ** Splicing *)

(** Where the walk of [remove_path] from the node of [t] ends: at a node [k2] without a
    right child, reached by the frames [D]. *)
Definition spliced (t : tree) (D : ctx) (c2 : bool) (l2 : tree) (k2 : Z) : Prop :=
  plug D (T c2 l2 k2 E) = t ∧
  (D = [] ∧ l2 = E ∨
   ∃ D' d0 sib, D = D' ++ [mkFrame d0 (colour t) (key t) sib] ∧
     (d0 = true ∧ Forall (λ f, fdir f = false) D' ∨ d0 = false ∧ sib = E)).

Lemma wp_splice_walk C t s σ (Q : _ → St → Prop) :
  sees s σ → zip σ C t → t ≠ E → (length C + height t ≤ 122)%nat →
  (∀ D c2 l2 k2, spliced t D c2 l2 k2 → zip σ (D ++ C) (T c2 l2 k2 E) →
    (length (D ++ C) ≤ 122)%nat → ∀ s', sees s' σ → Q (path_of (D ++ C)) s') →
  wp (move (path_of C) true) s (λ mp s', wp (move_all path_capacity mp.2 false) s' Q).
Proof.
  intros Hs Hz Ht Hl HQ. eapply (wp_move V F R root Hroot); [done..|lia|]. intros s1 Hs1.
  pose proof (height_down true t Ht) as Hh. unfold path_capacity.
  assert (Hlast : ∀ t', t' ≠ E → (down false t').2 = E → ∃ c2 l2 k2, t' = T c2 l2 k2 E).
  { intros [|c l k r] ? HE; [done|]. simpl in HE. subst. eauto. }
  destruct (is_E (down true t).2) eqn:EE.
  - (* no left child *)
    assert (HdE : (down true t).2 = E) by (by destruct (down true t).2).
    eapply (wp_move_all V F R root Hroot); [done|done|done|lia|lia|].
    intros C' t' Hz' Ht' HE Hp (D & -> & HD) Hlen s2 Hs2.
    destruct (Hlast t' Ht' HE) as (c2 & l2 & k2 & ->).
    apply (HQ D c2 l2 k2); [|done|lia|done]. rewrite plug_app in Hp. apply plug_inj in Hp.
    split; [done|]. destruct t as [|c l k r]; [done|]. simpl in HdE. subst l.
    destruct D as [|f D' _] using rev_ind.
    + left. simpl in Hp. by injection Hp.
    + right. apply Forall_app in HD as [_ Hf]. apply Forall_cons in Hf as [Hf _]. rewrite plug_app in Hp.
      destruct f as [d0 c0 k0 sib]. cbn [plug fdir] in *. unfold fill in Hp.
      cbn [fdir fred fkey fsib] in Hp. simpl in Hf. subst d0. simpl in Hp. injection Hp as -> -> -> Hr.
      exists D', false, E. split; [done|by right].
  - assert (Hne : (down true t).2 ≠ E) by (intros EE'; by rewrite EE' in EE).
    eapply (wp_move_all V F R root Hroot); [done|by apply (zip_down V root)|done|lia|simpl; lia|].
    intros C' t' Hz' Ht' HE Hp (D & -> & HD) Hlen s2 Hs2.
    destruct (Hlast t' Ht' HE) as (c2 & l2 & k2 & ->).
    destruct t as [|c l k r]; [done|]. cbn [down fst snd] in *.
    assert (Heq : D ++ mkFrame true c k r :: C = (D ++ [mkFrame true c k r]) ++ C) by by rewrite <- app_assoc.
    rewrite Heq in *. simpl in Hlen, Hl. apply (HQ _ c2 l2 k2); [|done|lia|done].
    rewrite plug_app in Hp. change (plug (mkFrame true c k r :: C) l) with (plug C (T c l k r)) in Hp.
    apply plug_inj in Hp. split; [done|]. right.
    exists D, true, r. split; [done|by left].
Qed.

(** The node that is taken out, and the one that is moved into its place. *)
Lemma spliced_elems t D' d0 sib c2 l2 k2 c n :
  rbt c n t → spliced t (D' ++ [mkFrame d0 (colour t) (key t) sib]) c2 l2 k2 →
  t = mk d0 (colour t) (key t) (plug D' (T c2 l2 k2 E)) sib ∧
  ∃ A B, elems t = A ++ key t :: B ∧
    elems (mk d0 (colour t) k2 (plug D' l2) sib) = A ++ B.
Proof.
  intros Hrb [Hp Hcase]. rewrite plug_app in Hp. cbn [plug] in Hp. unfold fill in Hp.
  cbn [fdir fred fkey fsib] in Hp. split; [done|].
  destruct Hcase as [[HD _]|(D'' & d0' & sib' & HD & Hc)]; [by destruct D'|].
  apply app_inj_tail in HD as [<- [= <- <-]].
  destruct Hc as [[-> HD]|[-> ->]].
  - assert (Hcr : cright D' = []).
    { clear -HD. induction HD as [|f D' Hf HD IH]; [done|]. simpl. by rewrite Hf. }
    exists (elems (plug D' (T c2 l2 k2 E))), (elems sib). rewrite <- Hp at 1. simpl.
    split; [done|]. rewrite !elems_plug, Hcr. simpl. by rewrite !app_nil_r, <- !app_assoc.
  - assert (D' = []) as ->.
    { rewrite <- Hp in Hrb. simpl in Hrb.
      assert (Hx : ∀ m x, rbt m 0 x → x ≠ E → ∃ k, x = T true E k E).
      { intros m x Hx Hne. inversion Hx as [| |? ? ? ? Ha Hb]; subst; [done|].
        inversion Ha; inversion Hb; subst. eauto. }
      assert (Hm : ∃ m, rbt m 0 (plug D' (T c2 l2 k2 E))).
      { inversion Hrb as [|? ? ? ? ? ? HE Hr|? ? ? ? HE Hr]; subst; inversion HE; subst; eauto. }
      destruct Hm as [m Hm]. destruct (Hx _ _ Hm) as [k Hk]; [by apply plug_ne|].
      by eapply plug_leaf. }
    exists [], (elems (T c2 l2 k2 E)). rewrite <- Hp at 1. simpl. split; [done|].
    simpl in Hp. rewrite <- Hp in Hrb. simpl in Hrb.
    assert (Hm : ∃ m, rbt m 0 (T c2 l2 k2 E)).
    { inversion Hrb as [|? ? ? ? ? ? HE Hr|? ? ? ? HE Hr]; subst; inversion HE; subst; eauto. }
    destruct Hm as [m Hm]. inversion Hm as [| |? ? ? ? Ha Hb]; subst. by inversion Ha.
Qed.

(** The node below is taken out. *)
Lemma unlink_zip C c2 l2 k2 σ whole :
  zip σ C (T c2 l2 k2 E) → NoDup whole → whole = elems (plug C (T c2 l2 k2 E)) →
  zip (upd σ (hole C) (key l2)) C l2 ∧ touches whole (Root root) σ (upd σ (hole C) (key l2)) ∧
  V k2 ∧ red σ k2 = c2 ∧ cell σ (Ref true k2) = key l2.
Proof.
  intros [(Hk & Hv & Hc & Hl & _) HC] HN ->. pose proof (tree_at_key _ _ _ _ Hl) as Ekl.
  assert (HN' : NoDup ([k2] ++ elems l2 ++ ckeys C)).
  { eapply perm_NoDup; [|exact HN]. rewrite elems_plug_perm. simpl. perm. }
  split_and!; [|apply touches_place; [apply touches_refl|apply hole_in_plug]|done..].
  split; [|eapply (rotation_ctx V root C [k2] (elems l2) σ); [done|touch|done]].
  eapply (rotation_tree V root C [k2] (elems l2) σ); [done|touch|exact Hl|by look|done].
Qed.

(** The node that was taken out replaces the node above. *)
Lemma wp_splice D' d0 c k sib C l2 k2 s σ (Q : RBPath → St → Prop) :
  sees s σ → zip σ ((D' ++ [mkFrame d0 c k sib]) ++ C) l2 → V k2 →
  NoDup ([k2] ++ (k :: elems (plug D' l2) ++ elems sib) ++ ckeys C) →
  (∀ s' σ', sees s' σ' → zip σ' ((D' ++ [mkFrame d0 c k2 sib]) ++ C) l2 →
    touches [k2] (hole C) σ σ' → Q (path_of ((D' ++ [mkFrame d0 c k2 sib]) ++ C)) s') →
  wp (old ← deref (hole C); old_red ← is_red old; set_red k2 old_red;;
      old ← deref (hole C); l ← load (get_dir true old); store (get_dir true k2) l;;
      old ← deref (hole C); r ← load (get_dir false old); store (get_dir false k2) r;;
      assign (hole C) k2;;
      fixup run_checks true (path_of ((D' ++ [mkFrame d0 c k sib]) ++ C))) s Q.
Proof.
  intros Hs Hz Hv2 HN HQ. apply zip_app in Hz as Hz'. rewrite plug_app in Hz'.
  cbn [plug] in Hz'. unfold fill in Hz'. cbn [fdir fred fkey fsib] in Hz'.
  destruct Hz' as [Ht HC]. apply tree_at_mk in Ht as (Hk & Hvk & Hck & HtX & HtS).
  pose proof (tree_at_key _ _ _ _ HtX) as EkX. pose proof (tree_at_key _ _ _ _ HtS) as EkS.
  pose proof (place_hole V R root C σ Hroot HC) as Hpl. distinct HN.
  assert (k ∉ ckeys C).
  { apply NoDup_app in HN as (_ & _ & HN). apply NoDup_app in HN as (_ & HN & _). apply HN. in_list. }
  assert (Hcont : ∀ s' σ', sees s' σ' → zip σ' C (mk d0 c k2 (plug D' l2) sib) →
    touches [k2] (hole C) σ σ' →
    wp (fixup run_checks true (path_of ((D' ++ [mkFrame d0 c k sib]) ++ C))) s' Q).
  { intros s' σ' Hs' Hz' Hto.
    assert (Hz2 : zip σ' ((D' ++ [mkFrame d0 c k2 sib]) ++ C) l2).
    { apply zip_app. by rewrite plug_app. }
    eapply (wp_fixup_update V F R root Hroot); [exact Hs'|exact (proj2 Hz2)| | |intros s2 Hs2; by eapply HQ].
    - rewrite <- !app_assoc. clear. induction D' as [|f D IH]; [done|]. simpl. by f_equal.
    - clear. induction ((D' ++ [mkFrame d0 c k sib]) ++ C) as [|f C' IH]; [done|].
      cbn [RbShape.path_of]. destruct (path_of C') eqn:E; [by destruct C'|]. by rewrite last_cons_cons. }
  clear HQ.
  assert (Hne : hole C ≠ Ref true k ∧ hole C ≠ Ref false k) by (split; by apply hole_ne).
  destruct Hne.
  destruct d0; cbn [negb] in *; (repeat rb_step); (eapply Hcont; [eassumption| |touch]); cbn [mk].
  all: split; [|eapply (rotation_ctx V root C _ _ σ _ HN); [touch|done]].
  all: cbn [tree_at]; look; split_and!; try done;
    (eapply (rotation_tree V root C _ _ σ _ HN); [touch|eassumption|look; done|]).
  all: intros x ?; rewrite elem_of_cons, elem_of_app; tauto.
Qed.

(** What is left to do once the node is out: nothing if it was red, the loop if it was
    black. *)
Lemma wp_removed C l2 c2 k2 m s σ σ0 whole (Q : bool → St → Prop) :
  sees s σ → zip σ C l2 → sorted (elems (plug C l2)) → rbt c2 m (T c2 l2 k2 E) → ctx_ok c2 m C →
  (C = [] → l2 = E) → (length C ≤ 122)%nat →
  touches whole (Root root) σ0 σ → (∀ x, x ∈ elems (plug C l2) → x ∈ whole) →
  (∀ s' t', done_at whole σ0 t' s' → elems t' = elems (plug C l2) → Q true s') →
  wp (if c2 then mret true else remove_loop run_checks remove_fuel root (path_of C);; mret true) s Q.
Proof.
  intros Hs Hz Hso Hrb HC Htop Hlen Hto Hin HQ.
  assert (Hpost : ∀ s' t', done_at (elems (plug C l2)) σ t' s' → elems t' = elems (plug C l2) → Q true s').
  { intros s' t' Hd Ht'. apply (HQ s' t'); [|done].
    eapply done_at_trans; [by eapply done_at_mono|exact Hto|done|by left]. }
  destruct c2.
  - inversion Hrb as [| |? ? ? ? Hl HE]; subst. inversion HE; subst. inversion Hl; subst.
    destruct (plug_rbt false 0 C E) as [m' Hm']; [by eapply ctx_ok_false|apply rbt_E|].
    apply wp_ret, (Hpost s (plug C E)); [|done]. exists σ, m'.
    split_and!; [done|by apply zip_plug|done|apply touches_refl].
  - inversion Hrb as [|cl cr n ? ? ? Hl HE|]; subst. inversion HE; subst.
    apply wp_bind. eapply (wp_remove_loop V F R root Hroot); [exact Hs|exact Hz|exact Hso|exact Hl|exact HC| | |lia|].
    { intros E. specialize (Htop E). subst. by inversion Hl. }
    { unfold remove_fuel, path_capacity. lia. }
    intros s' t' Hd Ht'. apply wp_ret. by eapply Hpost.
Qed.

Lemma spliced_hole t D c2 l2 k2 C :
  spliced t D c2 l2 k2 → NoDup (ckeys (D ++ C)) → bool_decide (hole (D ++ C) = hole C) = bool_decide (D = []).
Proof.
  intros _ HN. apply bool_decide_ext. destruct D as [|f D]; [done|]. split; [|done].
  rewrite ckeys_app in HN. apply NoDup_app in HN as (_ & HN & _). simpl. intros E. exfalso.
  symmetry in E. revert E. apply hole_ne, HN. simpl. set_solver.
Qed.

Lemma wp_remove_path C t c n s σ (Q : bool → St → Prop) :
  sees s σ → zip σ C t → t ≠ E → sorted (elems (plug C t)) → rbt c n t → ctx_ok c n C →
  (length C + height t ≤ 122)%nat →
  (∀ s' t' A B, done_at (elems (plug C t)) σ t' s' →
    elems (plug C t) = A ++ key t :: B → elems t' = A ++ B → Q true s') →
  wp (remove_path run_checks root (path_of C)) s Q.
Proof.
  intros Hs Hz Hne Hso Hrb HC Hlen HQ. unfold remove_path.
  rb_step. rb_step. rb_step. eapply (wp_is_null_hole V F R root Hroot); [done..|].
  rb_step. apply wp_assert; [by destruct t|].
  apply wp_bind.
  eapply wp_mono; [apply (wp_splice_walk C t s σ (λ p s', sees s' σ ∧ ∃ D c2 l2 k2, p = path_of (D ++ C) ∧
    spliced t D c2 l2 k2 ∧ zip σ (D ++ C) (T c2 l2 k2 E) ∧ (length (D ++ C) ≤ 122)%nat)); eauto 20|].
  intros [b p] s1 Hw. apply wp_bind. eapply wp_mono; [exact Hw|]. clear b p s1 Hw.
  intros p s1 (Hs1 & D & c2 & l2 & k2 & -> & Hsp & HzD & HlD).
  assert (Hpl : plug C t = plug (D ++ C) (T c2 l2 k2 E)) by (by rewrite plug_app, (proj1 Hsp)).
  destruct (unlink_zip (D ++ C) c2 l2 k2 σ (elems (plug C t)) HzD) as (Hz1 & Hto & Hv2 & Hc2 & Ek2);
    [by apply sorted_NoDup|by rewrite Hpl|].
  assert (HrbD : ∃ m, ctx_ok c2 m (D ++ C) ∧ rbt c2 m (T c2 l2 k2 E)).
  { destruct (plug_rbt c n C t HC Hrb) as [m Hm]. rewrite Hpl in Hm.
    apply plug_rbt_inv in Hm as (c' & m' & ? & Hr). exists m'.
    assert (c' = c2) as -> by (by inversion Hr). done. }
  destruct HrbD as (m & HCD & Hr2).
  apply wp_bind. eapply (wp_load_curr V F R root Hroot); [done|exact HzD|]. cbn [key].
  rb_step. rb_step. rb_step. rb_step. rb_step.
  eapply wp_assign; [done|by eapply zip_place|by eapply tree_at_key_ok, (proj1 Hz1)|]. intros s2 Hs2.
  rb_step. eapply wp_is_red; [done|by right|]. intros s3 Hs3. rewrite red_upd, Hc2. rb_step. rb_step.
  assert (HND : NoDup (ckeys (D ++ C))).
  { pose proof (sorted_NoDup _ Hso) as HN. rewrite Hpl, elems_plug_perm in HN.
    by apply NoDup_app in HN as (_ & _ & HN). }
  rewrite (spliced_hole _ _ _ _ _ C Hsp HND).
  apply wp_bind.
  destruct Hsp as [Hp [[-> ->]|(D' & d0 & sib & -> & Hcase)]].
  - (* the node itself is a leaf *)
    rewrite bool_decide_true by done. apply wp_ret. cbn [app plug] in *. subst t.
    assert (Hw : elems (plug C (T c2 E k2 E)) = cleft C ++ k2 :: cright C) by (by rewrite elems_plug).
    assert (Hw' : elems (plug C E) = cleft C ++ cright C) by (by rewrite elems_plug).
    eapply (wp_removed C E c2 k2 m s3 _ σ _ Q Hs3 Hz1); [|exact Hr2|exact HCD|done|lia|exact Hto| |].
    + rewrite Hw in Hso. rewrite Hw'. by apply sorted_remove in Hso.
    + intros x. rewrite Hw, Hw', !elem_of_app, elem_of_cons. tauto.
    + intros s5 t' Hd Ht'. apply (HQ s5 t' (cleft C) (cright C)); [done|done|by rewrite Ht'].
  - rewrite bool_decide_false by (by destruct D').
    assert (Hsp : spliced t (D' ++ [mkFrame d0 (colour t) (key t) sib]) c2 l2 k2).
    { split; [done|]. right. by exists D', d0, sib. }
    destruct (spliced_elems t D' d0 sib c2 l2 k2 c n Hrb Hsp) as (Et & A & B & EA & EB).
    pose proof (sorted_NoDup _ Hso) as HN. rewrite elems_plug_perm, Et, elems_mk, elems_plug_perm in HN.
    set (k := key t) in *. set (ct := colour t) in *.
    eapply wp_splice; [exact Hs3|exact Hz1|exact Hv2| |].
    { eapply perm_NoDup; [|exact HN]. rewrite elems_plug_perm. simpl. perm. }
    intros s4 σ2 Hs4 Hz2 Hto2.
    assert (Hw : elems (plug C t) = (cleft C ++ A) ++ k :: (B ++ cright C)).
    { rewrite elems_plug, EA. by rewrite <- !app_assoc. }
    assert (Hw' : elems (plug ((D' ++ [mkFrame d0 ct k2 sib]) ++ C) l2) = (cleft C ++ A) ++ B ++ cright C).
    { rewrite !plug_app. cbn [plug]. unfold fill. cbn [fdir fred fkey fsib].
      rewrite elems_plug, EB. by rewrite <- !app_assoc. }
    assert (Hk2 : k2 ∈ elems (plug C t)).
    { rewrite elems_plug_perm, Et, elems_mk, elems_plug_perm. simpl. set_solver. }
    eapply (wp_removed _ l2 c2 k2 m s4 σ2 σ _ Q Hs4 Hz2); [|exact Hr2| |by destruct D'| | | |].
    + rewrite Hw in Hso. rewrite Hw'. by apply sorted_remove in Hso.
    + rewrite <- app_assoc in HCD |- *. simpl in *. by eapply ctx_ok_key.
    + rewrite !length_app in *. simpl in *. lia.
    + eapply touches_trans; [exact Hto| |done|by left].
      eapply touches_trans; [exact Hto2|apply touches_refl| |apply hole_in_plug].
      by intros x ->%list_elem_of_singleton.
    + intros x. rewrite Hw, Hw', !elem_of_app, elem_of_cons, elem_of_app. tauto.
    + intros s5 t' Hd Ht'. apply (HQ s5 t' (cleft C ++ A) (B ++ cright C)); [done|done|by rewrite Ht'].
Qed.

(** ** Trees at a root *)

Lemma wp_remove_elem value t s σ :
  sees s σ → holds σ t →
  wp (remove_elem run_checks root value) s (λ b s', ∃ σ' t',
    sees s' σ' ∧ holds σ' t' ∧ b = bool_decide (value ∈ elems t) ∧
    (∀ x, x ∈ elems t' ↔ x ∈ elems t ∧ x ≠ value) ∧ touches (elems t) (Root root) σ σ').
Proof.
  intros Hs Hh. pose proof (holds_height V F R root _ _ _ Hs Hh) as Hht. pose proof Hh as (Ht & Hm & Hso).
  unfold remove_elem, is_empty. rb_step.
  eapply (wp_is_null_hole V F R root Hroot []); [done|by split|]. destruct (is_E t) eqn:EE.
  { destruct t; [|done]. apply wp_ret. exists σ, E. split_and!; try done. simpl. set_solver. }
  rb_step. eapply (wp_find V F R root Hroot [] t); [done|done|done|apply in_hole_top|simpl; lia|].
  intros C' t' Hz Hp Hin Hlen s1 Hs1. cbn [plug] in *. split; intros [H1 H2]; cbn beta iota; cbn [negb].
  - apply wp_ret. exists σ, t. split_and!; [done|done|by rewrite bool_decide_false| |apply touches_refl].
    set_solver.
  - rewrite <- Hp in Hh. apply holds_plug in Hh as (_ & c & n & HC & Hr).
    rb_step. eapply wp_remove_path; [done|done|done|by rewrite Hp|done|done|simpl in *; lia|].
    intros s' t'' A B (σ' & m & Hs' & Ht' & Hm' & Hto) Ew Ew'. apply wp_ret. exists σ', t''.
    rewrite Hp in *. rewrite H2 in *.
    assert (value ∈ elems t) by (rewrite Ew; set_solver).
    split_and!; [done| |by rewrite bool_decide_true| |done].
    + split_and!; [done|eauto|]. rewrite Ew in Hso. rewrite Ew'. by apply sorted_remove in Hso.
    + pose proof (sorted_NoDup _ Hso) as HN. rewrite Ew in HN |- *. rewrite Ew'.
      rewrite <- Permutation_middle in HN. apply NoDup_cons in HN as [HN _]. intros x.
      rewrite !elem_of_app, elem_of_cons in *. destruct (decide (x = value)) as [->|]; tauto.
Qed.

(** The least element, or null when the tree is empty. *)
Lemma wp_remove_min t s σ :
  sees s σ → holds σ t →
  wp (remove_min run_checks root) s (λ v s', ∃ σ' t',
    sees s' σ' ∧ holds σ' t' ∧
    match elems t with
    | [] => v = 0 ∧ elems t' = []
    | x :: l => v = x ∧ elems t' = l
    end ∧ touches (elems t) (Root root) σ σ').
Proof.
  intros Hs Hh. pose proof (holds_height V F R root _ _ _ Hs Hh) as Hht. pose proof Hh as (Ht & Hm & Hso).
  unfold remove_min, is_empty. rb_step.
  eapply (wp_is_null_hole V F R root Hroot []); [done|by split|]. destruct (is_E t) eqn:EE.
  { destruct t; [|done]. apply wp_ret. exists σ, E. rewrite rep_null_0. by split_and!. }
  assert (Hne : t ≠ E) by (by intros ->).
  rb_step. eapply (wp_move_all V F R root Hroot true _ [] t);
    [done|by split|done|unfold path_capacity; lia|simpl; lia|].
  intros C t' Hz Ht' HE Hp (D & HD & Hdirs) Hlen s1 Hs1. rewrite app_nil_r in HD. subst D.
  cbn [plug length Nat.add] in *. destruct t' as [|c l k r]; [done|]. simpl in HE. subst l.
  assert (Hcl : cleft C = []).
  { clear -Hdirs. induction Hdirs as [|f C Hf HC IH]; [done|]. simpl. by rewrite Hf. }
  rb_step. eapply (wp_load_curr V F R root Hroot); [done..|]. cbn [key].
  rewrite <- Hp in Hh. apply holds_plug in Hh as (_ & c' & n & HC & Hr).
  rb_step. eapply wp_remove_path; [done|done|done|by rewrite Hp|done|done|lia|].
  intros s' t'' A B (σ' & m & Hs' & Ht'' & Hm' & Hto) Ew Ew'. apply wp_ret. exists σ', t''.
  cbn [key] in Ew. pose proof Hso as Hso'. rewrite Hp in *. rewrite Ew in Hso'.
  split_and!; [done| | |done].
  - split_and!; [done|eauto|]. rewrite Ew'. by apply sorted_remove in Hso'.
  - rewrite Ew. assert (A = []) as ->; [|by rewrite Ew'].
    rewrite <- Hp, elems_plug, Hcl in Ew. destruct A as [|a A]; [done|]. exfalso.
    simpl in Ew. injection Ew as <- _. apply sorted_NoDup in Hso'.
    apply NoDup_cons in Hso' as [Hk _]. set_solver.
Qed.

End Remove.
End RbRemove.
