(* ===== verification/Buddy.v ===== *)
(** * snmalloc, backend_helpers/buddy.h: the buddy allocator

    [Buddy<Rep, MIN_SIZE_BITS, MAX_SIZE_BITS>] keeps one red-black tree of free blocks
    for each power of two from [2 ^ MIN_SIZE_BITS] up to, and without,
    [2 ^ MAX_SIZE_BITS].  Blocks are their addresses; the nodes of the trees are in the
    store of the representation, the root of the tree number [i] is the place [Root i].
    The theorems are in [BuddySpec]. *)

From stdpp Require Import base list numbers.
From Stdlib Require Import ZArith Lia.
From S2P Require Import Prelude CInt SnBits RbTree.
Local Open Scope Z_scope.

Module Buddy.
Import CInt SnBits RbTree.

(** What the buddy allocator needs of [Rep] besides the operations of the trees. *)
Class BuddyRep (St : Type) := {
  rep_offset : Z → Z → result Z;
  rep_buddy : Z → Z → result Z;
  rep_align_down : Z → Z → result Z;
  rep_can_consolidate : St → Z → Z → result bool;
}.

Section Ops.
Context {St : Type} `{RBRep St} `{BuddyRep St}.
Context (run_checks : bool) (MIN_SIZE_BITS MAX_SIZE_BITS : Z).

(** The state of a [Buddy]: the store with the roots, and [empty_at_or_above]. *)
Definition BSt : Type := St * Z.

Definition on_trees {A} (m : M St A) : M BSt A :=
  λ '(s, e), match m s with Ok (a, s') => Ok (a, (s', e)) | Err x => Err x end.
Definition get_empty : M BSt Z := λ '(s, e), Ok (e, (s, e)).
Definition set_empty (e : Z) : M BSt unit := λ '(s, _), Ok (tt, (s, e)).
Definition can_consolidate (addr size : Z) : M BSt bool :=
  λ '(s, e), lift (rep_can_consolidate s addr size) (s, e).

Definition trees_size : Z := MAX_SIZE_BITS - MIN_SIZE_BITS.

Definition to_index (size : Z) : M BSt Z :=
  lift (assert_ (negb (size =? 0)));;
  lift (assert_ (is_pow2 size));;
  log ← lift (next_pow2_bits size);
  lift (assert_ (MIN_SIZE_BITS <=? log));;
  lift (assert_ (log <? MAX_SIZE_BITS));;
  mret (log - MIN_SIZE_BITS).

Definition validate_block (addr size : Z) : M BSt unit :=
  lift (assert_ (is_pow2 size));;
  a ← lift (rep_align_down addr size);
  lift (assert_ (addr =? a)).

(** The loop of [invariant], [n] trees from the number [i] on; it is compiled out of a
    release build. *)
Fixpoint empty_from (n : nat) (i : nat) : M BSt unit :=
  match n with
  | O => mret tt
  | S n => b ← on_trees (is_empty i); lift (assert_ b);; empty_from n (S i)
  end.

Definition invariant : M BSt unit :=
  if run_checks then
    e ← get_empty; empty_from (Z.to_nat (trees_size - e)) (Z.to_nat e)
  else mret tt.

(** The recursion is at most as deep as there are sizes. *)
Fixpoint add_block (fuel : nat) (addr size : Z) : M BSt Z :=
  match fuel with
  | O => lift (Err Diverge)
  | S fuel =>
      idx ← to_index size;
      e ← get_empty;
      set_empty (max e (idx + 1));;
      validate_block addr size;;
      buddy ← lift (rep_buddy addr size);
      let t := Z.to_nat idx in
      '(contains_buddy, path) ← on_trees (find (get_root_path t) buddy);
      can ← (if (contains_buddy : bool) then can_consolidate addr size else mret false);
      if (can : bool) then
        on_trees (remove_path run_checks t path);;
        let size := to_size (size * 2) in
        addr ← lift (rep_align_down addr size);
        top ← lift (one_at_bit MAX_SIZE_BITS);
        if size =? top then invariant;; mret addr
        else add_block fuel addr size
      else
        '(_, path) ← (if (contains_buddy : bool) then on_trees (find path addr)
                      else mret (false, path));
        on_trees (insert_path run_checks t path addr);;
        invariant;;
        mret rep_null
  end.

Fixpoint remove_block (fuel : nat) (size : Z) : M BSt Z :=
  match fuel with
  | O => lift (Err Diverge)
  | S fuel =>
      invariant;;
      idx ← to_index size;
      e ← get_empty;
      if e <=? idx then mret rep_null
      else
        let t := Z.to_nat idx in
        addr ← on_trees (remove_min run_checks t);
        if negb (addr =? rep_null) then validate_block addr size;; mret addr
        else
          top ← lift (one_at_bit MAX_SIZE_BITS);
          if to_size (size * 2) =? top then mret rep_null
          else
            bigger ← remove_block fuel (to_size (size * 2));
            if bigger =? rep_null then
              set_empty idx;;
              invariant;;
              mret rep_null
            else
              second ← lift (rep_offset bigger size);
              add_block (S fuel) second size;;
              mret bigger
  end.

(** The number of sizes is at most 64. *)
Definition buddy_fuel : nat := 64.

End Ops.

End Buddy.
