(* ===== verification/BuddySpec.v ===== *)
(** * The buddy allocator keeps the free memory *)

From stdpp Require Import base list numbers sorting sets functions.
From Stdlib Require Import ZArith Lia.
From S2P Require Import Prelude CInt SnBits RbTree RbShape RbRun RbInsert RbRemove Buddy.
Local Open Scope Z_scope.

Module BuddySpec.
Import CInt SnBits RbTree RbShape RbRun Buddy.

(** ** The laws of the representation *)

(** The other half of the block of the next size. *)
Definition buddy_of (n k : Z) : Z := if Z.even (k / 2 ^ n) then k + 2 ^ n else k - 2 ^ n.

(** [rep_bits] bounds the sizes of the blocks the representation computes with. *)
Class BuddyRepLaws (St : Type) `{RBRepLaws St} `{BuddyRep St} := {
  rep_bits : Z;
  rep_buddy_ok s k n : rep_fresh s k → 0 ≤ n < rep_bits → k mod 2 ^ n = 0 →
    rep_buddy k (2 ^ n) = Ok (buddy_of n k);
  rep_offset_ok s k n : rep_fresh s k → 0 ≤ n < rep_bits → k + 2 ^ n < 2 ^ 64 →
    rep_offset k (2 ^ n) = Ok (k + 2 ^ n);
  rep_align_down_ok s k n : rep_fresh s k → 0 ≤ n ≤ rep_bits →
    rep_align_down k (2 ^ n) = Ok (k / 2 ^ n * 2 ^ n);
  rep_can_ok s k n : rep_fresh s k → rep_fresh s (buddy_of n k) → 0 ≤ n < rep_bits →
    k mod 2 ^ n = 0 → ∃ b, rep_can_consolidate s k (2 ^ n) = Ok b ∧
      rep_can_consolidate s (buddy_of n k) (2 ^ n) = Ok b;
  rep_ref_can s d k s' : rep_ref s d k = Ok s' →
    ∀ k z, rep_can_consolidate s' k z = rep_can_consolidate s k z;
  rep_is_red_can s k b s' : rep_is_red s k = Ok (b, s') →
    ∀ k z, rep_can_consolidate s' k z = rep_can_consolidate s k z;
  rep_set_can s h v s' : rep_set s h v = Ok s' →
    ∀ k z, rep_can_consolidate s' k z = rep_can_consolidate s k z;
  rep_set_red_can s k b s' : rep_set_red s k b = Ok s' →
    ∀ k z, rep_can_consolidate s' k z = rep_can_consolidate s k z;
}.

(** ** Blocks *)

Lemma buddy_of_aligned n k : 0 ≤ n → k mod 2 ^ n = 0 → buddy_of n k mod 2 ^ n = 0.
Proof.
  intros Hn Hk. pose proof (Z.pow_pos_nonneg 2 n ltac:(lia) Hn). unfold buddy_of.
  destruct (Z.even _).
  - replace (k + 2 ^ n) with (k + 1 * 2 ^ n) by lia. by rewrite Z.mod_add by lia.
  - replace (k - 2 ^ n) with (k + (-1) * 2 ^ n) by lia. by rewrite Z.mod_add by lia.
Qed.

(** An aligned block and its buddy are the halves of an aligned block of twice the size. *)
Lemma buddy_halves n k :
  0 ≤ n → k mod 2 ^ n = 0 →
  let p := k / 2 ^ (n + 1) * 2 ^ (n + 1) in
  (k = p ∧ buddy_of n k = p + 2 ^ n) ∨ (buddy_of n k = p ∧ k = p + 2 ^ n).
Proof.
  intros Hn Hk p. pose proof (Z.pow_pos_nonneg 2 n ltac:(lia) Hn) as Hp.
  pose proof (Z.div_mod k (2 ^ n) ltac:(lia)) as Hd. rewrite Hk in Hd.
  assert (Hq : k / 2 ^ (n + 1) = k / 2 ^ n / 2).
  { rewrite Z.pow_add_r, <- Z.div_div by lia. done. }
  unfold p, buddy_of. rewrite Hq. rewrite Z.pow_add_r by lia.
  set (q := k / 2 ^ n) in *. pose proof (Z.div_mod q 2 ltac:(lia)) as Hq2.
  rewrite Zmod_even in Hq2. destruct (Z.even q); [left|right]; nia.
Qed.

Lemma buddy_of_involutive n k : 0 ≤ n → k mod 2 ^ n = 0 → buddy_of n (buddy_of n k) = k.
Proof.
  intros Hn Hk. pose proof (Z.pow_pos_nonneg 2 n ltac:(lia) Hn) as Hp.
  pose proof (Z.div_mod k (2 ^ n) ltac:(lia)) as Hd. rewrite Hk in Hd.
  unfold buddy_of. destruct (Z.even (k / 2 ^ n)) eqn:He.
  - replace (k + 2 ^ n) with ((k / 2 ^ n + 1) * 2 ^ n) by lia.
    rewrite Z.div_mul, Z.even_add, He by lia. cbn [Z.even eqb]. lia.
  - replace (k - 2 ^ n) with ((k / 2 ^ n - 1) * 2 ^ n) by lia.
    rewrite Z.div_mul, Z.even_sub, He by lia. cbn [Z.even eqb]. lia.
Qed.

(** ** The computations of the trees do not change what can be consolidated *)

Section Keeps.
Context {St : Type} `{BuddyRepLaws St}.

Definition same_can (s s' : St) : Prop :=
  ∀ k z, rep_can_consolidate s' k z = rep_can_consolidate s k z.
Definition keeps {A} (m : M St A) : Prop := ∀ s a s', m s = Ok (a, s') → same_can s s'.

Lemma keeps_ret {A} (a : A) : keeps (mret a).
Proof. intros s a' s' [= _ <-]. done. Qed.
Lemma keeps_lift {A} (r : result A) : keeps (lift r).
Proof. intros s a' s' E. unfold lift in E. destruct r; simplify_eq. done. Qed.
Lemma keeps_bind {A B} (m : M St A) (f : A → M St B) :
  keeps m → (∀ a, keeps (f a)) → keeps (m ≫= f).
Proof.
  intros Hm Hf s b s' E. unfold mbind, M_bind in E. destruct (m s) as [[a s1]|] eqn:Em; [|done].
  intros k z. rewrite (Hf a s1 b s' E). by apply (Hm s a s1).
Qed.
Lemma keeps_deref h : keeps (deref h).
Proof. intros s a s' E. unfold deref in E. by apply keeps_lift in E. Qed.
Lemma keeps_is_red k : keeps (is_red k).
Proof. intros s a s' E. exact (rep_is_red_can s k a s' E). Qed.
Lemma keeps_get_dir d k : keeps (get_dir d k).
Proof.
  intros s a s' E. unfold get_dir in E. destruct (rep_ref s d k) eqn:Es; simplify_eq.
  exact (rep_ref_can s d k s' Es).
Qed.
Lemma keeps_assign h v : keeps (assign h v).
Proof.
  intros s a s' E. unfold assign in E. destruct (rep_set s h v) eqn:Es; simplify_eq.
  exact (rep_set_can s h v s' Es).
Qed.
Lemma keeps_set_red k b : keeps (set_red k b).
Proof.
  intros s a s' E. unfold set_red in E. destruct (rep_set_red s k b) eqn:Es; simplify_eq.
  exact (rep_set_red_can s k b s' Es).
Qed.

Ltac keep_step :=
  lazymatch goal with
  | |- keeps (_ ≫= _) => apply keeps_bind; [|intros ?]
  | |- keeps (mret _) => apply keeps_ret
  | |- keeps (lift _) => apply keeps_lift
  | |- keeps (deref _) => apply keeps_deref
  | |- keeps (RbTree.is_red _) => apply keeps_is_red
  | |- keeps (assign _ _) => apply keeps_assign
  | |- keeps (RbTree.set_red _ _) => apply keeps_set_red
  | |- keeps (is_null _) => unfold is_null
  | |- keeps (get_dir _ _) => apply keeps_get_dir
  | |- keeps (store _ _) => unfold store
  | |- keeps (load _) => unfold load
  | |- keeps (if ?b then _ else _) => destruct b
  | |- keeps (match ?p with pair _ _ => _ end) => destruct p
  | |- keeps (let _ := _ in _) => cbv zeta
  end.
Ltac keep :=
  repeat first [keep_step | match goal with IH : context [keeps _] |- _ => apply IH end].

Lemma keeps_ith_step path n : keeps (ith_step path n).
Proof. unfold ith_step. keep. Qed.
Ltac keep_path :=
  unfold curr_dir, parent_dir, ith_dir, curr, parent, grand_parent, ith;
  repeat first
    [ progress keep
    | lazymatch goal with
      | |- keeps (ith_step _ _) => apply keeps_ith_step
      | |- keeps (move _ _) => unfold move, curr, ith
      | |- keeps (move_inc_null _ _) => unfold move_inc_null, curr, ith
      | |- keeps (push _ _ _) => unfold push
      | |- keeps (pop _) => unfold pop
      end ].

Lemma keeps_fixup_loop e path : keeps (fixup_loop e path).
Proof.
  induction path as [|st [|st' path] IH]; [apply keeps_ret..|]. cbn [fixup_loop].
  apply keeps_bind; [exact IH|intros ?]. keep_path.
Qed.
Lemma keeps_fixup run_checks e path : keeps (fixup run_checks e path).
Proof. unfold fixup. destruct (_ && _); [apply keeps_ret|apply keeps_fixup_loop]. Qed.
Lemma keeps_move_all fuel path d : keeps (move_all fuel path d).
Proof. revert path; induction fuel; intros path; cbn [move_all]; keep_path. Qed.
Lemma keeps_invariant rc fuel k l u : keeps (RbTree.invariant rc fuel k l u).
Proof. revert k l u; induction fuel; intros k l u; cbn [RbTree.invariant]; keep_path. Qed.
Lemma keeps_check rc k : keeps (check rc k).
Proof. unfold check. apply keeps_bind; [apply keeps_invariant|intros ?; apply keeps_ret]. Qed.
Lemma keeps_find_loop fuel path v : keeps (find_loop fuel path v).
Proof. revert path; induction fuel; intros path; cbn [find_loop]; keep_path. Qed.
Lemma keeps_find path v : keeps (find path v).
Proof. unfold find. keep_path. apply keeps_find_loop. Qed.
Lemma keeps_insert_loop rc fuel t path : keeps (insert_loop rc fuel t path).
Proof.
  revert path; induction fuel; intros path; cbn [insert_loop]; keep_path; apply keeps_check.
Qed.
Lemma keeps_insert_path rc t path v : keeps (insert_path rc t path v).
Proof. unfold insert_path. keep_path. apply keeps_insert_loop. Qed.
Lemma keeps_remove_loop rc fuel t path : keeps (remove_loop rc fuel t path).
Proof.
  revert path; induction fuel; intros path; cbn [remove_loop]; keep_path;
    first [apply keeps_check | apply keeps_fixup].
Qed.
Lemma keeps_remove_path rc t path : keeps (remove_path rc t path).
Proof.
  unfold remove_path. keep_path; first [apply keeps_move_all | apply keeps_fixup | apply keeps_remove_loop].
Qed.
Lemma keeps_remove_min rc t : keeps (remove_min rc t).
Proof.
  unfold remove_min, is_empty. keep_path; first [apply keeps_move_all | apply keeps_remove_path].
Qed.

Lemma wp_keeps {A} (m : M St A) s Q :
  keeps m → wp m s Q → wp m s (λ a s', Q a s' ∧ same_can s s').
Proof.
  intros Hk Hw. unfold wp in *. destruct (m s) as [[a s']|] eqn:E; [|done].
  split; [done|]. by eapply Hk.
Qed.
End Keeps.

(** ** The state of a buddy allocator *)

Section Spec.
Context {St : Type} `{BuddyRepLaws St} (F : Z → Prop) (C : Z → Z → bool).
Context (run_checks : bool) (MIN MAX : Z).
Context (HMIN : 0 ≤ MIN) (HMM : MIN < MAX) (HMAX : MAX ≤ 63) (Hbits : MAX ≤ rep_bits).

Definition ntrees : nat := Z.to_nat (trees_size MIN MAX).
Definition R (t : nat) : Prop := (t < ntrees)%nat.

Abbreviation sees V := (RbRun.sees V F R).

(** The blocks of the tree number [i] have [2 ^ bits i] bytes. *)
Definition bits (i : nat) : Z := MIN + Z.of_nat i.
Definition is_block (i : nat) (a : Z) : Prop :=
  0 < a ∧ a mod 2 ^ bits i = 0 ∧ a + 2 ^ bits i < 2 ^ 64.
Definition in_block (i : nat) (a x : Z) : Prop := a ≤ x < a + 2 ^ bits i.

(** The bytes of the free blocks. *)
Definition free (T : nat → tree) (x : Z) : Prop :=
  ∃ i a, (i < ntrees)%nat ∧ a ∈ elems (T i) ∧ in_block i a x.

(** The trees hold blocks that do not overlap; [empty_at_or_above] is a bound; every
    place a block can start at in the free memory is a node; [C] is what the
    representation answers about consolidation. *)
Record buddy_inv (s : St) (e : Z) (T : nat → tree) : Prop := {
  bi_holds : ∃ V σ, sees V s σ ∧ ∀ i, (i < ntrees)%nat → holds V i σ (T i);
  bi_range : 0 ≤ e ≤ Z.of_nat ntrees;
  bi_empty i : (i < ntrees)%nat → e ≤ Z.of_nat i → T i = E;
  bi_block i a : (i < ntrees)%nat → a ∈ elems (T i) → is_block i a;
  bi_disjoint i j a b x : (i < ntrees)%nat → (j < ntrees)%nat → a ∈ elems (T i) → b ∈ elems (T j) →
    in_block i a x → in_block j b x → i = j ∧ a = b;
  bi_cover x : free T x → x mod 2 ^ MIN = 0 → F x;
  bi_can k m : F k → F (buddy_of m k) → 0 ≤ m < rep_bits → k mod 2 ^ m = 0 →
    rep_can_consolidate s k (2 ^ m) = Ok (C k (2 ^ m));
}.

(** No two halves of a larger block are free when they may be joined. *)
Definition coalesced (T : nat → tree) : Prop :=
  ∀ i a, (i < ntrees)%nat → a ∈ elems (T i) → buddy_of (bits i) a ∈ elems (T i) → C a (2 ^ bits i) = false.

Lemma bits_range i : (i < ntrees)%nat → 0 ≤ bits i < MAX.
Proof. unfold ntrees, trees_size, bits. lia. Qed.

Lemma in_block_start i a : (i < ntrees)%nat → in_block i a a.
Proof. intros Hi. pose proof (bits_range i Hi). pose proof (Z.pow_pos_nonneg 2 (bits i)). unfold in_block. lia. Qed.

Lemma free_start T i a : (i < ntrees)%nat → a ∈ elems (T i) → free T a.
Proof. intros Hi Ha. exists i, a. split_and!; [done..|]. by apply in_block_start. Qed.

(** A block and its buddy make a block of the next size. *)
Lemma in_block_halves i a x :
  a mod 2 ^ bits i = 0 →
  in_block (S i) (a / 2 ^ bits (S i) * 2 ^ bits (S i)) x ↔ in_block i a x ∨ in_block i (buddy_of (bits i) a) x.
Proof.
  intros Ha. assert (Hb : bits (S i) = bits i + 1) by (unfold bits; lia).
  assert (Hb0 : 0 ≤ bits i) by (unfold bits; lia).
  pose proof (buddy_halves (bits i) a Hb0 Ha) as Hh. unfold in_block. rewrite Hb.
  rewrite (Z.pow_add_r 2 (bits i) 1) in * by lia. cbn zeta in Hh.
  pose proof (Z.pow_pos_nonneg 2 (bits i) ltac:(lia) Hb0). destruct Hh as [[E1 E2]|[E1 E2]]; lia.
Qed.

(** One tree is replaced, the others stay. *)
Lemma holds_update V V' i K σ σ' m t' T :
  (∀ k, V k → V' k) → (i < ntrees)%nat → (∀ j, (j < ntrees)%nat → holds V j σ (T j)) →
  tree_at V' σ' (Root i) t' → rbt false m t' → touches K (Root i) σ σ' → sorted (elems t') →
  (∀ j k, (j < ntrees)%nat → j ≠ i → k ∈ elems (T j) → k ∉ K) →
  ∀ j, (j < ntrees)%nat → holds V' j σ' (<[i:=t']> T j).
Proof.
  intros HV Hi HT Ht' Hm [Hc Hr] Hso HK j Hj.
  destruct (decide (j = i)) as [->|Hne].
  - rewrite fn_lookup_insert. split_and!; [done|eauto|done].
  - rewrite fn_lookup_insert_ne by done. destruct (HT j Hj) as (Ht & Hrb & Hsj).
    split_and!; [|done|done]. eapply tree_at_agree; [by eapply tree_at_mono| | |].
    + apply Hc; [congruence|done].
    + intros d k Hk. apply Hc; [done|]. intros d' k' [= <- <-]. by eapply HK.
    + intros k Hk. apply Hr. by eapply HK.
Qed.

(** A block leaves its tree. *)
Lemma buddy_inv_remove V s e T i a t' s' σ' :
  buddy_inv s e T → (i < ntrees)%nat → a ∈ elems (T i) →
  (∀ x, x ∈ elems t' ↔ x ∈ elems (T i) ∧ x ≠ a) →
  sees V s' σ' → (∀ j, (j < ntrees)%nat → holds V j σ' (<[i:=t']> T j)) → same_can s s' →
  buddy_inv s' e (<[i:=t']> T) ∧ (∀ x, free (<[i:=t']> T) x ↔ free T x ∧ ¬ in_block i a x).
Proof.
  intros Hinv Hi Ha Ht' Hs' HT' Hsame.
  assert (Hsub : ∀ j x, x ∈ elems (<[i:=t']> T j) ↔ x ∈ elems (T j) ∧ ¬ (j = i ∧ x = a)).
  { intros j x. destruct (decide (j = i)) as [->|Hne].
    - rewrite fn_lookup_insert, Ht'. naive_solver.
    - rewrite fn_lookup_insert_ne by done. naive_solver. }
  assert (Hfree : ∀ x, free (<[i:=t']> T) x ↔ free T x ∧ ¬ in_block i a x).
  { intros x. split.
    - intros (j & b & Hj & Hb & Hx). apply Hsub in Hb as [Hb Hne]. split; [by exists j, b|].
      intros Hxa. apply Hne. by eapply (bi_disjoint _ _ _ Hinv j i b a x).
    - intros [(j & b & Hj & Hb & Hx) Hxa]. exists j, b. split_and!; [done| |done].
      apply Hsub. split; [done|]. intros [-> ->]. done. }
  split; [|done]. split.
  - eauto.
  - apply Hinv.
  - intros j Hj He. destruct (decide (j = i)) as [->|Hne].
    + rewrite (bi_empty _ _ _ Hinv i Hj He) in Ha. by apply elem_of_nil in Ha.
    + rewrite fn_lookup_insert_ne by done. by eapply bi_empty.
  - intros j b Hj Hb. apply Hsub in Hb as [Hb _]. by eapply bi_block.
  - intros j1 j2 b1 b2 x Hj1 Hj2 Hb1 Hb2. apply Hsub in Hb1 as [Hb1 _]. apply Hsub in Hb2 as [Hb2 _].
    by eapply bi_disjoint.
  - intros x [Hx _]%Hfree. by eapply bi_cover.
  - intros k m Hk Hk' Hm Hkm. rewrite Hsame. by eapply bi_can.
Qed.

(** A block enters its tree. *)
Lemma buddy_inv_insert V s e T i a t' s' σ' :
  buddy_inv s e T → (i < ntrees)%nat → is_block i a → (∀ x, in_block i a x → ¬ free T x) →
  (∀ x, in_block i a x → x mod 2 ^ MIN = 0 → F x) → Z.of_nat i < e →
  (∀ x, x ∈ elems t' ↔ x = a ∨ x ∈ elems (T i)) →
  sees V s' σ' → (∀ j, (j < ntrees)%nat → holds V j σ' (<[i:=t']> T j)) → same_can s s' →
  buddy_inv s' e (<[i:=t']> T) ∧ (∀ x, free (<[i:=t']> T) x ↔ free T x ∨ in_block i a x).
Proof.
  intros Hinv Hi Ha Hnf Hcov He Ht' Hs' HT' Hsame.
  assert (Hsup : ∀ j x, x ∈ elems (<[i:=t']> T j) ↔ x ∈ elems (T j) ∨ (j = i ∧ x = a)).
  { intros j x. destruct (decide (j = i)) as [->|Hne].
    - rewrite fn_lookup_insert, Ht'. naive_solver.
    - rewrite fn_lookup_insert_ne by done. naive_solver. }
  assert (Hfree : ∀ x, free (<[i:=t']> T) x ↔ free T x ∨ in_block i a x).
  { intros x. split.
    - intros (j & b & Hj & Hb & Hx). apply Hsup in Hb as [Hb|[-> ->]]; [left; by exists j, b|by right].
    - intros [(j & b & Hj & Hb & Hx)|Hx]; [exists j, b|exists i, a]; (split_and!; [done| |done]);
        apply Hsup; [by left|by right]. }
  split; [|done]. split.
  - eauto.
  - apply Hinv.
  - intros j Hj Hej. rewrite fn_lookup_insert_ne by (intros <-; lia). by eapply bi_empty.
  - intros j b Hj Hb. apply Hsup in Hb as [Hb|[-> ->]]; [by eapply bi_block|done].
  - intros j1 j2 b1 b2 x Hj1 Hj2 Hb1 Hb2 Hx1 Hx2.
    apply Hsup in Hb1 as [Hb1|[-> ->]]; apply Hsup in Hb2 as [Hb2|[-> ->]].
    + by eapply bi_disjoint.
    + exfalso. apply (Hnf x Hx2). by exists j1, b1.
    + exfalso. apply (Hnf x Hx1). by exists j2, b2.
    + done.
  - intros x [Hx|Hx]%Hfree; [by eapply bi_cover|by apply Hcov].
  - intros k m Hk Hk' Hm Hkm. rewrite Hsame. by eapply bi_can.
Qed.

Lemma buddy_inv_store V s s' e T σ' :
  buddy_inv s e T → sees V s' σ' → (∀ j, (j < ntrees)%nat → holds V j σ' (T j)) → same_can s s' →
  buddy_inv s' e T.
Proof.
  intros Hinv Hs' HT Hsame. split; try apply Hinv; [by exists V, σ'|].
  intros k m Hk Hk' Hm Hkm. rewrite Hsame. by eapply bi_can.
Qed.

(** [find] shows the same trees afterwards. *)
Lemma wp_find_in V i C0 t value s e σ T (Q : bool * RBPath → St → Prop) :
  buddy_inv s e T → sees V s σ → (∀ j, (j < ntrees)%nat → holds V j σ (T j)) → (i < ntrees)%nat →
  zip V i σ C0 t → sorted (elems (plug C0 t)) → in_hole C0 value → (length C0 + height t ≤ 122)%nat →
  (∀ C' t', zip V i σ C' t' → plug C' t' = plug C0 t → in_hole C' value →
    (length C' + height t' ≤ length C0 + height t)%nat →
    ∀ s', sees V s' σ → buddy_inv s' e T →
    (t' = E ∧ value ∉ elems (plug C0 t) → Q (false, path_of i C') s') ∧
    (t' ≠ E ∧ key t' = value → Q (true, path_of i C') s')) →
  wp (find (path_of i C0) value) s Q.
Proof.
  intros Hinv Hs HT Hi Hz Hso Hin Hl HQ.
  apply wp_mono with (λ a s', (sees V s' σ ∧ (buddy_inv s' e T → Q a s')) ∧ same_can s s').
  - apply wp_keeps; [apply keeps_find|]. eapply (wp_find V F R i Hi C0 t); [done..|].
    intros C' t' Hz' Hp Hin' Hl' s' Hs'.
    split; intros Ht; (split; [done|intros Hinv']); by apply (HQ C' t').
  - intros a s' [[Hs' H3] Hsame]. apply H3. by eapply buddy_inv_store.
Qed.

(** ** The operations *)

Lemma wp_on_trees {A} (m : M St A) s e (Q : A → BSt → Prop) :
  wp m s (λ a s', Q a (s', e)) → wp (on_trees m) (s, e) Q.
Proof. unfold wp, on_trees. by destruct (m s) as [[a s']|]. Qed.

Lemma wp_to_index i st (Q : Z → BSt (St := St) → Prop) :
  (i < ntrees)%nat → Q (Z.of_nat i) st → wp (to_index MIN MAX (2 ^ bits i)) st Q.
Proof.
  intros Hi HQ. pose proof (bits_range i Hi) as Hb. unfold to_index.
  pose proof (size_pow (bits i) ltac:(lia)). pose proof (is_size_pow (bits i) ltac:(lia)).
  apply wp_bind, wp_assert; [apply negb_true_iff, Z.eqb_neq; lia|].
  apply wp_bind, wp_assert; [apply is_pow2_pow; lia|].
  apply wp_bind. eapply wp_lift; [rewrite next_pow2_bits_Ok, ceil_log2_pow by (done || lia); done|].
  apply wp_bind, wp_assert; [apply Z.leb_le; unfold bits; lia|].
  apply wp_bind, wp_assert; [apply Z.ltb_lt; lia|].
  apply wp_ret. by replace (bits i - MIN) with (Z.of_nat i) by (unfold bits; lia).
Qed.

Lemma wp_validate_block V i a s σ st (Q : unit → BSt (St := St) → Prop) :
  sees V s σ → F a → (i < ntrees)%nat → a mod 2 ^ bits i = 0 → Q tt st →
  wp (validate_block a (2 ^ bits i)) st Q.
Proof.
  intros Hs Hv Hi Ha HQ. pose proof (bits_range i Hi) as Hb. unfold validate_block.
  apply wp_bind, wp_assert; [apply is_pow2_pow; lia|].
  apply wp_bind. eapply wp_lift; [eapply (rep_align_down_ok s); [by eapply sees_fresh|lia]|].
  apply wp_assert; [|done]. apply Z.eqb_eq. pose proof (Z.pow_pos_nonneg 2 (bits i)).
  pose proof (Z.div_mod a (2 ^ bits i)). lia.
Qed.

Lemma wp_empty_from V n i s e σ T (Q : unit → BSt → Prop) :
  sees V s σ → (∀ j, (j < ntrees)%nat → holds V j σ (T j)) →
  (∀ j, (i ≤ j < i + n)%nat → (j < ntrees)%nat ∧ T j = E) →
  Q tt (s, e) → wp (empty_from n i) (s, e) Q.
Proof.
  intros Hs HT. revert i; induction n as [|n IH]; intros i He HQ; [by apply wp_ret|].
  cbn [empty_from]. destruct (He i ltac:(lia)) as [Hi Hi0].
  apply wp_bind, wp_on_trees. unfold is_empty.
  eapply (wp_is_null_hole V F R i Hi []); [done|split; [apply (HT i Hi)|done]|].
  rewrite Hi0. apply wp_bind, wp_assert; [done|]. apply IH; [|done]. intros j Hj. apply He. lia.
Qed.

Lemma wp_buddy_invariant s e T (Q : unit → BSt → Prop) :
  buddy_inv s e T → Q tt (s, e) → wp (invariant run_checks MIN MAX) (s, e) Q.
Proof.
  intros Hinv HQ. unfold invariant. destruct run_checks; [|by apply wp_ret].
  destruct (bi_holds _ _ _ Hinv) as (V & σ & Hs & HT). pose proof (bi_range _ _ _ Hinv).
  apply wp_bind. unfold get_empty, wp at 1.
  eapply wp_empty_from; [done|done| |done].
  intros j Hj. assert (Hj' : (j < ntrees)%nat) by (unfold ntrees in *; lia).
  split; [done|]. apply (bi_empty _ _ _ Hinv); [done|]. lia.
Qed.

Lemma buddy_inv_empty s e e' T :
  buddy_inv s e T → 0 ≤ e' ≤ Z.of_nat ntrees →
  (∀ i, (i < ntrees)%nat → e' ≤ Z.of_nat i → T i = E) → buddy_inv s e' T.
Proof. intros [] ? ?. by split. Qed.

Lemma is_block_base i a : is_block i a → a mod 2 ^ MIN = 0.
Proof.
  intros (_ & Ha & _). apply Z.mod_divide; [apply Z.pow_nonzero; lia|].
  apply Z.mod_divide in Ha; [|apply Z.pow_nonzero; unfold bits; lia].
  eapply Z.divide_trans; [|exact Ha]. unfold bits. rewrite Z.pow_add_r by lia.
  apply Z.divide_factor_l.
Qed.

Lemma block_node s e T i a : buddy_inv s e T → (i < ntrees)%nat → a ∈ elems (T i) → F a.
Proof.
  intros Hinv Hi Ha. apply (bi_cover _ _ _ Hinv); [by eapply free_start|].
  by eapply is_block_base, bi_block.
Qed.

(** Neighbours in a tree are at least a block apart. *)
Lemma in_hole_buddy i a C' t s e T :
  buddy_inv s e T → (i < ntrees)%nat → is_block i a → a ∉ elems (T i) →
  plug C' t = T i → in_hole C' (buddy_of (bits i) a) → in_hole C' a.
Proof.
  intros Hinv Hi (_ & Ha & _) Hnot Hp [Hl Hr].
  assert (Hsp : ∀ x, x ∈ cleft C' ∨ x ∈ cright C' → x mod 2 ^ bits i = 0 ∧ x ≠ a).
  { intros x Hx. assert (Hin : x ∈ elems (T i)).
    { rewrite <- Hp, elems_plug. set_solver. }
    split; [by apply (bi_block _ _ _ Hinv i x Hi Hin)|]. by intros ->. }
  pose proof (bits_range i Hi). pose proof (Z.pow_pos_nonneg 2 (bits i) ltac:(lia) ltac:(lia)) as Hp0.
  pose proof (Z.div_mod a (2 ^ bits i) ltac:(lia)) as Hda. rewrite Ha in Hda.
  assert (Hb : buddy_of (bits i) a = a + 2 ^ bits i ∨ buddy_of (bits i) a = a - 2 ^ bits i).
  { unfold buddy_of. destruct (Z.even _); [by left|by right]. }
  split; intros x Hx; destruct (Hsp x) as [Hxm Hxa]; try tauto;
    pose proof (Z.div_mod x (2 ^ bits i) ltac:(lia)) as Hdx; rewrite Hxm in Hdx;
    [specialize (Hl x Hx)|specialize (Hr x Hx)];
    set (q := x / 2 ^ bits i) in *; set (q' := a / 2 ^ bits i) in *; set (p := 2 ^ bits i) in *;
    assert (q ≠ q') by (intros ->; lia); destruct Hb as [Hb|Hb]; rewrite Hb in *; nia.
Qed.

(** The end of [add_block]: the block goes into its tree. *)
Lemma wp_add_here i a C' s e T (Q : Z → BSt → Prop) :
  buddy_inv s e T → (i < ntrees)%nat → plug C' E = T i → in_hole C' a → is_block i a →
  (∀ x, in_block i a x → ¬ free T x) → (∀ x, in_block i a x → x mod 2 ^ MIN = 0 → F x) →
  Z.of_nat i < e →
  (∀ s' T', buddy_inv s' e T' → (∀ x, free T' x ↔ free T x ∨ in_block i a x) →
    (∀ j x, x ∈ elems (T' j) ↔ x ∈ elems (T j) ∨ j = i ∧ x = a) → Q 0 (s', e)) →
  wp (on_trees (insert_path run_checks i (path_of i C') a);; invariant run_checks MIN MAX;; mret rep_null)
    (s, e) Q.
Proof.
  intros Hinv Hi Hp Hin Hblk Hnf Hcov He HQ.
  destruct (bi_holds _ _ _ Hinv) as (V & σ & Hs & HT). pose proof (HT i Hi) as Hh.
  assert (Hv : F a) by (apply Hcov; [by apply in_block_start|by eapply is_block_base]).
  assert (Hna : ∀ j, (j < ntrees)%nat → a ∉ elems (T j)).
  { intros j Hj Ha. apply (Hnf a); [by apply in_block_start|by eapply free_start]. }
  pose proof (holds_height V F R i _ _ _ Hs Hh) as Hht. pose proof Hh as (_ & _ & Hso).
  rewrite <- Hp in Hh, Hso. pose proof (height_plug C' E) as Hlen. rewrite Hp in Hlen.
  apply holds_plug in Hh as (Hz & c & n & HC & Hr). inversion Hr; subst c n.
  apply wp_bind, wp_on_trees.
  eapply wp_mono; [apply wp_keeps; [apply keeps_insert_path|]|].
  { eapply (RbInsert.wp_insert_path V F R i Hi run_checks C' a 0 s σ
      (λ _ s', ∃ t', done_at (with_node V a) F R i (a :: elems (T i)) σ t' s' ∧ elems t' = elems (plug C' (RbShape.T true E a E))));
      [done|done|done|by apply in_hole_sorted|done|done|simpl in *; lia|].
    intros s' t' Hd He'. exists t'. by rewrite Hp in Hd. }
  intros [] s' [(t' & (σ' & m & Hs' & Ht' & Hm & Hto) & Ee) Hsame].
  assert (Hso' : sorted (elems t')) by (rewrite Ee; by apply in_hole_sorted).
  assert (Hel : ∀ x, x ∈ elems t' ↔ x = a ∨ x ∈ elems (T i)).
  { intros x. rewrite Ee, <- Hp, !elems_plug. simpl. set_solver. }
  assert (HT' : ∀ j, (j < ntrees)%nat → holds (with_node V a) j σ' (<[i:=t']> T j)).
  { eapply holds_update; [intros k Hk; by left|done|exact HT|done|done|exact Hto|done|].
    intros j k Hj Hne Hk. rewrite elem_of_cons. intros [->|Hk']; [by apply (Hna j)|].
    destruct (bi_disjoint _ _ _ Hinv j i k k k) as [? _]; try done; by apply in_block_start. }
  destruct (buddy_inv_insert (with_node V a) s e T i a t' s' σ' Hinv Hi Hblk Hnf Hcov He Hel Hs' HT' Hsame) as [Hinv' Hfree].
  apply wp_bind. eapply wp_buddy_invariant; [done|]. apply wp_ret. rewrite rep_null_0.
  apply (HQ s' (<[i:=t']> T)); [done|done|]. intros j x. destruct (decide (j = i)) as [->|Hne].
  - rewrite fn_lookup_insert, Hel. naive_solver.
  - rewrite fn_lookup_insert_ne by done. naive_solver.
Qed.

(** The buddy of the block is taken out of its tree. *)
Lemma wp_take_buddy i b C' t s e T (Q : bool → BSt → Prop) :
  buddy_inv s e T → (i < ntrees)%nat → plug C' t = T i → t ≠ E → key t = b →
  (∀ s' T', buddy_inv s' e T' → (∀ x, free T' x ↔ free T x ∧ ¬ in_block i b x) →
    (∀ j x, x ∈ elems (T' j) ↔ x ∈ elems (T j) ∧ ¬ (j = i ∧ x = b)) → Q true (s', e)) →
  wp (on_trees (remove_path run_checks i (path_of i C'))) (s, e) Q.
Proof.
  intros Hinv Hi Hp Hne Hk HQ.
  destruct (bi_holds _ _ _ Hinv) as (V & σ & Hs & HT). pose proof (HT i Hi) as Hh.
  pose proof (holds_height V F R i _ _ _ Hs Hh) as Hht. pose proof Hh as (_ & _ & Hso).
  rewrite <- Hp in Hh, Hso. pose proof (height_plug C' t) as Hlen. rewrite Hp in Hlen.
  apply holds_plug in Hh as (Hz & c & n & HC & Hr).
  assert (Hb : b ∈ elems (T i)).
  { rewrite <- Hp, elems_plug. destruct t as [|? ? k ?]; [done|]. simpl in *. set_solver. }
  apply wp_on_trees. eapply wp_mono; [apply wp_keeps; [apply keeps_remove_path|]|].
  { eapply (RbRemove.wp_remove_path V F R i Hi run_checks C' t c n s σ
      (λ r s', r = true ∧ ∃ t' A B, done_at V F R i (elems (T i)) σ t' s' ∧
        elems (T i) = A ++ b :: B ∧ elems t' = A ++ B));
      [done|done|done|done|done|done|lia|].
    intros s' t' A B Hd HA HB. split; [done|]. exists t', A, B. rewrite Hp, Hk in *. done. }
  intros r s' [(-> & t' & A & B & (σ' & m & Hs' & Ht' & Hm & Hto) & HA & HB) Hsame].
  rewrite Hp in Hso. pose proof Hso as Hso2. rewrite HA in Hso2. apply sorted_remove in Hso2 as Hso'.
  rewrite <- HB in Hso'.
  assert (Hel : ∀ x, x ∈ elems t' ↔ x ∈ elems (T i) ∧ x ≠ b).
  { apply sorted_NoDup in Hso2. rewrite <- Permutation_middle in Hso2.
    assert (Hn : b ∉ A ++ B) by (by inversion Hso2). intros x. rewrite HB, HA.
    rewrite !elem_of_app, elem_of_cons in *. destruct (decide (x = b)) as [->|]; tauto. }
  assert (HT' : ∀ j, (j < ntrees)%nat → holds V j σ' (<[i:=t']> T j)).
  { eapply holds_update; [by intros|done|exact HT|done|done|exact Hto|done|].
    intros j k Hj Hji Hkj Hki.
    destruct (bi_disjoint _ _ _ Hinv j i k k k) as [? _]; try done; by apply in_block_start. }
  destruct (buddy_inv_remove V s e T i b t' s' σ' Hinv Hi Hb Hel Hs' HT' Hsame) as [Hinv' Hfree].
  apply (HQ s' (<[i:=t']> T)); [done|done|]. intros j x. destruct (decide (j = i)) as [->|Hji].
  - rewrite fn_lookup_insert, Hel. naive_solver.
  - rewrite fn_lookup_insert_ne by done. naive_solver.
Qed.

(** ** Adding a block *)

Definition in_top (r x : Z) : Prop := r ≤ x < r + 2 ^ MAX.

(** The memory after [add_block]: the block is free, or a block of the size [2 ^ MAX]
    that contains it has left the allocator. *)
Definition added (T T' : nat → tree) (i : nat) (a r : Z) : Prop :=
  (r = 0 ∧ ∀ x, free T' x ↔ free T x ∨ in_block i a x) ∨
  (0 < r ∧ r mod 2 ^ MAX = 0 ∧ (∀ x, in_top r x → free T x ∨ in_block i a x) ∧
   ∀ x, free T' x ↔ (free T x ∨ in_block i a x) ∧ ¬ in_top r x).

Lemma can_symmetric s e T k n :
  buddy_inv s e T → F k → F (buddy_of n k) → 0 ≤ n < MAX → k mod 2 ^ n = 0 →
  C k (2 ^ n) = C (buddy_of n k) (2 ^ n).
Proof.
  intros Hinv Hk Hb Hn Hm. destruct (bi_holds _ _ _ Hinv) as (V & σ & Hs & _).
  destruct (rep_can_ok s k n) as (b & E1 & E2);
    [by eapply sees_fresh|by eapply sees_fresh|lia|done|].
  rewrite (bi_can _ _ _ Hinv) in E1 by (done || lia).
  rewrite (bi_can _ _ _ Hinv) in E2; [congruence|done| |lia|by apply buddy_of_aligned; [lia|]].
  by rewrite buddy_of_involutive by (done || lia).
Qed.

Lemma coalesced_insert s e T s' e' T' i a :
  buddy_inv s e T → buddy_inv s' e' T' → (i < ntrees)%nat → is_block i a →
  (∀ j x, x ∈ elems (T' j) ↔ x ∈ elems (T j) ∨ j = i ∧ x = a) →
  (buddy_of (bits i) a ∈ elems (T i) → C a (2 ^ bits i) = false) →
  coalesced T → coalesced T'.
Proof.
  intros Hinv Hinv' Hi (_ & Ha & _) Hel Hc Hco j x Hj Hx Hbx. pose proof (bits_range j Hj) as Hb.
  pose proof (block_node _ _ _ j x Hinv' Hj Hx) as HVx.
  pose proof (block_node _ _ _ j _ Hinv' Hj Hbx) as HVb.
  assert (Hxm : x mod 2 ^ bits j = 0) by apply (bi_block _ _ _ Hinv' j x Hj Hx).
  assert (Hne : buddy_of (bits j) x ≠ x).
  { unfold buddy_of. pose proof (Z.pow_pos_nonneg 2 (bits j)). destruct (Z.even _); lia. }
  apply Hel in Hx as [Hx|[-> ->]]; apply Hel in Hbx as [Hbx|[Ej Eb]].
  - by apply Hco.
  - subst j. rewrite (can_symmetric s' e' T') by (done || lia). rewrite Eb. apply Hc.
    by rewrite <- Eb, buddy_of_involutive by (done || lia).
  - by apply Hc.
  - congruence.
Qed.

(** The block that two buddies make. *)
Lemma joined_block i a :
  is_block i a → is_block i (buddy_of (bits i) a) →
  is_block (S i) (a / 2 ^ bits (S i) * 2 ^ bits (S i)) ∧
  (a / 2 ^ bits (S i) * 2 ^ bits (S i) = a ∨
   a / 2 ^ bits (S i) * 2 ^ bits (S i) = buddy_of (bits i) a).
Proof.
  intros (H1a & Ha & H2a) (H1b & Hb & H2b).
  assert (Hbits' : bits (S i) = bits i + 1) by (unfold bits; lia).
  assert (Hb0 : 0 ≤ bits i) by (unfold bits; lia).
  pose proof (buddy_halves (bits i) a Hb0 Ha) as Hh. cbn zeta in Hh. rewrite Hbits'.
  pose proof (Z.pow_pos_nonneg 2 (bits i) ltac:(lia) Hb0).
  set (p := a / 2 ^ (bits i + 1) * 2 ^ (bits i + 1)) in *.
  assert (Hp : p mod 2 ^ (bits i + 1) = 0) by (apply Z.mod_mul, Z.pow_nonzero; lia).
  assert (Hpw : 2 ^ (bits i + 1) = 2 * 2 ^ bits i) by (rewrite Z.pow_add_r by lia; lia).
  unfold is_block. rewrite Hbits'. clearbody p.
  destruct Hh as [[E1 E2]|[E1 E2]].
  - split; [split_and!; [lia|exact Hp|lia]|left; lia].
  - split; [split_and!; [lia|exact Hp|lia]|right; lia].
Qed.

Lemma wp_add_block fuel i a s e T (Q : Z → BSt → Prop) :
  (ntrees - i ≤ fuel)%nat → (i < ntrees)%nat → buddy_inv s e T → is_block i a →
  (∀ x, in_block i a x → ¬ free T x) → (∀ x, in_block i a x → x mod 2 ^ MIN = 0 → F x) →
  (∀ r s' e' T', buddy_inv s' e' T' → (coalesced T → coalesced T') →
    (buddy_of (bits i) a ∉ elems (T i) → r = 0) → added T T' i a r → Q r (s', e')) →
  wp (add_block run_checks MIN MAX fuel a (2 ^ bits i)) (s, e) Q.
Proof.
  revert i a s e T; induction fuel as [|fuel IH]; intros i a s e T Hf Hi Hinv Hblk Hnf Hcov HQ; [lia|].
  pose proof (bits_range i Hi) as Hbr. pose proof Hblk as (Ha0 & Ham & _).
  destruct (bi_holds _ _ _ Hinv) as (V & σ & Hs & HT). pose proof (HT i Hi) as Hh.
  pose proof (holds_height V F R i _ _ _ Hs Hh) as Hht. pose proof Hh as (Htr & _ & Hso).
  assert (Hv : F a) by (apply Hcov; [by apply in_block_start|by eapply is_block_base]).
  assert (Hna : a ∉ elems (T i)).
  { intros Ha. apply (Hnf a); [by apply in_block_start|by eapply free_start]. }
  cbn [add_block]. apply wp_bind, wp_to_index; [done|].
  apply wp_bind. unfold get_empty, wp at 1. apply wp_bind. unfold set_empty, wp at 1.
  set (e1 := max e (Z.of_nat i + 1)).
  assert (He1 : Z.of_nat i < e1 ∧ e ≤ e1 ≤ Z.of_nat ntrees).
  { pose proof (bi_range _ _ _ Hinv). unfold e1, max. destruct (Z.ltb_spec (Z.of_nat i + 1) e); lia. }
  assert (Hinv1 : buddy_inv s e1 T).
  { apply (buddy_inv_empty s e); [done|pose proof (bi_range _ _ _ Hinv); lia|].
    intros j Hj Hej. apply (bi_empty _ _ _ Hinv); [done|lia]. }
  clearbody e1. apply wp_bind. eapply wp_validate_block; [done..|].
  apply wp_bind. eapply wp_lift; [eapply (rep_buddy_ok s); [by eapply sees_fresh|lia|done]|].
  rewrite Nat2Z.id. set (b := buddy_of (bits i) a) in *.
  apply wp_bind, wp_on_trees.
  eapply (wp_find_in V i [] (T i)); [exact Hinv1|exact Hs|exact HT|done|by split|done|apply in_hole_top|simpl; lia|].
  intros C' t' Hz Hp Hin Hlen s0 Hs0 Hinv0. cbn [plug] in Hp. split; intros [H3 H4]; cbn beta iota.
  - (* the buddy is not free *)
    subst t'. apply wp_bind, wp_ret. apply wp_bind, wp_ret. cbn beta iota.
    eapply wp_add_here; [done|done|done|by eapply in_hole_buddy|done|done|done|lia|].
    intros s' T' Hinv' Hfree Hel. apply (HQ 0 s' e1 T'); [done| |done|by left].
    eapply coalesced_insert; [exact Hinv|exact Hinv'|done|done|done|]. by intros ?.
  - assert (Hb : b ∈ elems (T i)).
    { rewrite <- Hp, elems_plug. destruct t' as [|? ? k ?]; [done|]. simpl in H4. subst k. simpl. set_solver. }
    pose proof (block_node _ _ _ i b Hinv Hi Hb) as HVb.
    pose proof (bi_block _ _ _ Hinv i b Hi Hb) as Hbb.
    apply wp_bind. unfold can_consolidate, wp at 1. unfold lift.
    rewrite (bi_can _ _ _ Hinv0) by (done || lia).
    destruct (C a (2 ^ bits i)) eqn:Ec.
    + (* the two are joined *)
      apply wp_bind. eapply wp_take_buddy; [exact Hinv0|done|exact Hp|done|done|].
      intros s1 T1 Hinv2 Hfree1 Hel1. cbn zeta.
      assert (Hb2 : to_size (2 ^ bits i * 2) = 2 ^ bits (S i)).
      { replace (bits (S i)) with (bits i + 1) by (unfold bits; lia). rewrite Z.pow_add_r by lia.
        pose proof (size_pow (bits i) ltac:(lia)).
        assert (2 ^ bits i ≤ 2 ^ 62) by (apply Z.pow_le_mono_r; lia).
        rewrite to_size_id; [lia|]. unfold is_size, SIZE_MAX. lia. }
      rewrite Hb2. apply wp_bind. destruct (bi_holds _ _ _ Hinv2) as (V2 & σ2 & Hs2 & _).
      eapply wp_lift.
      { apply (rep_align_down_ok s1); [by eapply sees_fresh|unfold bits in *; lia]. }
      apply wp_bind. eapply wp_lift; [apply one_at_bit_Ok; lia|].
      destruct (joined_block i a Hblk Hbb) as [Hj Hjab].
      pose proof (in_block_halves i a) as Hhalf. fold b in Hjab, Hhalf.
      set (a' := a / 2 ^ bits (S i) * 2 ^ bits (S i)) in *.
      destruct (Z.eqb_spec (2 ^ bits (S i)) (2 ^ MAX)) as [Etop|Etop].
      * apply wp_bind. eapply wp_buddy_invariant; [done|]. apply wp_ret.
        apply (HQ a' s1 e1 T1); [done| | |].
        { intros Hco j x Hj' Hx Hbx. apply Hel1 in Hx as [Hx _]. apply Hel1 in Hbx as [Hbx _]. by apply Hco. }
        { done. }
        right. destruct Hj as (Hj1 & Hj2 & _). rewrite Etop in Hj2.
        assert (Htop : ∀ x, in_top a' x ↔ in_block i a x ∨ in_block i b x).
        { intros x. rewrite <- Hhalf by done. unfold in_top, in_block. by rewrite Etop. }
        split_and!; [done|done| |].
        -- intros x [?|?]%Htop; [by right|left]. by exists i, b.
        -- intros x. rewrite Hfree1, Htop. split; [|tauto]. intros [Hx Hnx].
           split; [by left|]. intros [?|?]; [by apply (Hnf x)|done].
      * assert (Hi' : (S i < ntrees)%nat).
        { destruct (decide (S i = ntrees)) as [E|]; [|lia]. exfalso. apply Etop. f_equal.
          unfold bits. rewrite E. unfold ntrees, trees_size. lia. }
        eapply (IH (S i) a' s1 e1 T1); [lia|done|done|done| | |].
        { intros x Hx Hfx. apply Hfree1 in Hfx as [Hfx Hnx]. apply Hhalf in Hx as [Hx|Hx]; [by apply (Hnf x)|done|done]. }
        { intros x Hx Hxm. apply Hhalf in Hx as [Hx|Hx]; [by apply Hcov| |done].
          apply (bi_cover _ _ _ Hinv); [by exists i, b|done]. }
        assert (Hun : ∀ x, free T1 x ∨ in_block (S i) a' x ↔ free T x ∨ in_block i a x).
        { intros x. rewrite Hhalf, Hfree1 by done.
          assert (in_block i b x → free T x) by (intros; by exists i, b).
          destruct (decide (in_block i b x)); [tauto|tauto]. }
        intros r s' e' T' Hinv' Hco Hr0 Hadd. apply (HQ r s' e' T'); [done| |done|].
        { intros Hc. apply Hco. intros j x Hj' Hx Hbx. apply Hel1 in Hx as [Hx _]. apply Hel1 in Hbx as [Hbx _].
          by apply Hc. }
        destruct Hadd as [[-> Hfr]|(Hr & Hrm & Hrt & Hfr)].
        -- left. split; [done|]. intros x. by rewrite Hfr, Hun.
        -- right. split_and!; [done|done| |].
           ++ intros x Hx. apply Hun. by apply Hrt.
           ++ intros x. by rewrite Hfr, Hun.
    + (* the two must not be joined *)
      cbn beta iota. apply wp_bind, wp_on_trees.
      assert (Hina : in_hole C' a) by (by eapply in_hole_buddy).
      eapply (wp_find_in V i C' t');
        [exact Hinv0|exact Hs0|exact HT|done|done|by rewrite Hp|done|simpl in *; lia|].
      intros C2 t2 Hz2 Hp2 Hin2 Hlen2 s2 Hs2 Hinv2. rewrite Hp in Hp2. split; intros [H5 H6]; cbn beta iota.
      * subst t2. eapply wp_add_here; [done|done|done|done|done|done|done|lia|].
        intros s' T' Hinv' Hfree Hel. apply (HQ 0 s' e1 T'); [done| |done|by left].
        eapply coalesced_insert; [exact Hinv|exact Hinv'|done|exact Hblk|done|by intros _].
      * exfalso. apply Hna. rewrite <- Hp2, elems_plug. destruct t2 as [|? ? k ?]; [done|].
        simpl in H6. subst k. simpl. set_solver.
Qed.

(** ** Taking a block *)

(** The least block of one tree, or nothing when the tree is empty. *)
Lemma wp_take_min i s e T (Q : Z → BSt → Prop) :
  buddy_inv s e T → (i < ntrees)%nat →
  (T i = E → ∀ s', buddy_inv s' e T → Q 0 (s', e)) →
  (∀ a s' T', a ∈ elems (T i) → buddy_inv s' e T' → (∀ x, free T' x ↔ free T x ∧ ¬ in_block i a x) →
    (∀ j x, x ∈ elems (T' j) → x ∈ elems (T j)) → Q a (s', e)) →
  wp (on_trees (remove_min run_checks i)) (s, e) Q.
Proof.
  intros Hinv Hi HQ0 HQ.
  destruct (bi_holds _ _ _ Hinv) as (V & σ & Hs & HT). pose proof (HT i Hi) as Hh.
  apply wp_on_trees. eapply wp_mono; [apply wp_keeps; [apply keeps_remove_min|]|].
  { by apply (RbRemove.wp_remove_min V F R i Hi run_checks (T i) s σ). }
  intros v s' [(σ' & t' & Hs' & Hh' & Hv & Hto) Hsame].
  destruct Hh' as (Ht' & [m Hm] & Hso').
  assert (HT' : ∀ j, (j < ntrees)%nat → holds V j σ' (<[i:=t']> T j)).
  { eapply holds_update; [by intros|done|exact HT|done|done|exact Hto|done|].
    intros j k Hj Hji Hkj Hki.
    destruct (bi_disjoint _ _ _ Hinv j i k k k) as [? _]; try done; by apply in_block_start. }
  destruct (elems (T i)) as [|a l] eqn:El.
  - destruct Hv as [-> Et].
    assert (HE : ∀ t, elems t = [] → t = E) by (intros [|? l' ? ?]; [done|]; simpl; by destruct (elems l')).
    apply HQ0; [by apply HE|]. eapply buddy_inv_store; [done|exact Hs'| |done].
    intros j Hj. specialize (HT' j Hj). destruct (decide (j = i)) as [->|Hji].
    + rewrite fn_lookup_insert in HT'. by rewrite (HE _ El), <- (HE _ Et).
    + by rewrite fn_lookup_insert_ne in HT'.
  - destruct Hv as [-> Et].
    assert (Ha : a ∈ elems (T i)) by (rewrite El; by left).
    assert (Hel : ∀ x, x ∈ elems t' ↔ x ∈ elems (T i) ∧ x ≠ a).
    { destruct Hh as (_ & _ & Hso). rewrite El in Hso. apply sorted_NoDup in Hso.
      assert (a ∉ l) by (by inversion Hso). intros x. rewrite Et, El, elem_of_cons.
      destruct (decide (x = a)) as [->|]; tauto. }
    destruct (buddy_inv_remove V s e T i a t' s' σ' Hinv Hi Ha Hel Hs' HT' Hsame) as [Hinv' Hfree].
    eapply HQ; [by left|done|done|].
    intros j x. destruct (decide (j = i)) as [->|Hji].
    + rewrite fn_lookup_insert, Hel. tauto.
    + by rewrite fn_lookup_insert_ne by done.
Qed.

Lemma wp_remove_block fuel i s e T (Q : Z → BSt → Prop) :
  (ntrees - i ≤ fuel)%nat → (i < ntrees)%nat → buddy_inv s e T →
  (∀ s' e', buddy_inv s' e' T → (∀ j, (i ≤ j < ntrees)%nat → T j = E) → Q 0 (s', e')) →
  (∀ r s' e' T', buddy_inv s' e' T' → (coalesced T → coalesced T') → is_block i r → F r →
    (∀ x, in_block i r x → free T x) → (∀ x, free T' x ↔ free T x ∧ ¬ in_block i r x) → Q r (s', e')) →
  wp (remove_block run_checks MIN MAX fuel (2 ^ bits i)) (s, e) Q.
Proof.
  revert i s e T Q; induction fuel as [|fuel IH]; intros i s e T Q Hf Hi Hinv HQ0 HQ; [lia|].
  pose proof (bits_range i Hi) as Hbr.
  cbn [remove_block]. apply wp_bind. eapply wp_buddy_invariant; [done|].
  apply wp_bind, wp_to_index; [done|]. apply wp_bind. unfold get_empty, wp at 1.
  destruct (Z.leb_spec e (Z.of_nat i)) as [He|He].
  { apply wp_ret. rewrite rep_null_0. apply HQ0; [done|].
    intros j Hj. apply (bi_empty _ _ _ Hinv); lia. }
  rewrite Nat2Z.id. apply wp_bind. eapply wp_take_min; [done|done| |].
  - (* no block of this size *)
    intros HE s1 Hinv1. rewrite rep_null_0. cbn [Z.eqb negb].
    apply wp_bind. eapply wp_lift; [apply one_at_bit_Ok; lia|].
    assert (Hb2 : to_size (2 ^ bits i * 2) = 2 ^ bits (S i)).
    { replace (bits (S i)) with (bits i + 1) by (unfold bits; lia). rewrite Z.pow_add_r by lia.
      assert (2 ^ bits i ≤ 2 ^ 62) by (apply Z.pow_le_mono_r; lia).
      pose proof (size_pow (bits i) ltac:(lia)).
      rewrite to_size_id; [lia|]. unfold is_size, SIZE_MAX. lia. }
    rewrite Hb2.
    assert (Hbits' : bits (S i) = bits i + 1) by (unfold bits; lia).
    destruct (Z.eqb_spec (2 ^ bits (S i)) (2 ^ MAX)) as [Etop|Etop].
    + apply wp_ret. apply HQ0; [done|]. intros j Hj.
      assert (bits (S i) = MAX) by (apply (Z.pow_inj_r 2); lia).
      assert (j = i) as ->; [|done]. unfold bits, ntrees, trees_size in *. lia.
    + assert (Hi' : (S i < ntrees)%nat).
      { destruct (decide (S i = ntrees)) as [Ei|]; [|lia]. exfalso. apply Etop. f_equal.
        unfold bits. rewrite Ei. unfold ntrees, trees_size. lia. }
      apply wp_bind. eapply IH; [lia|done|exact Hinv1| |].
      * (* none of a larger size *)
        intros s2 e2 Hinv2 HEs. cbn [Z.eqb].
        assert (Hall : ∀ j, (i ≤ j < ntrees)%nat → T j = E).
        { intros j Hj. destruct (decide (j = i)) as [->|]; [done|]. apply HEs. lia. }
        assert (Hinv3 : buddy_inv s2 (Z.of_nat i) T).
        { eapply buddy_inv_empty; [done|lia|]. intros j Hj Hij. apply Hall. lia. }
        apply wp_bind. unfold set_empty, wp at 1. apply wp_bind.
        eapply wp_buddy_invariant; [done|]. apply wp_ret. by apply HQ0.
      * (* a larger block is split *)
        intros r s2 e2 T2 Hinv2 Hco2 Hblk HVr Hrf Hfree2. pose proof Hblk as (Hr0 & Hrm & Hrt).
        destruct (Z.eqb_spec r 0); [lia|].
        destruct (bi_holds _ _ _ Hinv2) as (V2 & σ2 & Hs2 & _).
        pose proof (Z.pow_pos_nonneg 2 (bits i) ltac:(lia) ltac:(lia)) as Hpp.
        assert (Hpw : 2 ^ bits (S i) = 2 * 2 ^ bits i) by (rewrite Hbits', Z.pow_add_r by lia; lia).
        apply wp_bind. eapply wp_lift.
        { apply (rep_offset_ok s2); [by eapply sees_fresh|lia|lia]. }
        assert (Hrm' : r mod 2 ^ bits i = 0).
        { apply Z.mod_divide; [lia|]. apply Z.mod_divide in Hrm; [|lia].
          eapply Z.divide_trans; [|exact Hrm]. rewrite Hpw. apply Z.divide_factor_r. }
        pose proof (in_block_halves i r) as Hhalf. specialize (Hhalf) with (1 := Hrm').
        pose proof (buddy_halves (bits i) r ltac:(lia) Hrm') as Hh. cbn zeta in Hh.
        rewrite <- Hbits' in Hh.
        assert (Hrp : r / 2 ^ bits (S i) * 2 ^ bits (S i) = r).
        { pose proof (Z.div_mod r (2 ^ bits (S i)) ltac:(lia)). lia. }
        rewrite Hrp in Hh, Hhalf. destruct Hh as [[_ Hbo]|[_ Hbad]]; [|lia].
        set (b := r + 2 ^ bits i) in *.
        assert (Hbb : buddy_of (bits i) b = r) by (rewrite <- Hbo; apply buddy_of_involutive; [lia|done]).
        rewrite Hbo in Hhalf. apply wp_bind.
        assert (Hrn : r ∉ elems (T2 i)).
        { intros Hr. pose proof (free_start T2 i r Hi Hr) as Hfr. apply Hfree2 in Hfr as [_ Hfr].
          apply Hfr. by apply in_block_start. }
        eapply wp_add_block; [lia|done|exact Hinv2| | | |].
        { split_and!; [lia| |unfold b; lia]. unfold b.
          replace (r + 2 ^ bits i) with (r + 1 * 2 ^ bits i) by lia. by rewrite Z.mod_add by lia. }
        { intros x Hx Hfx. apply Hfree2 in Hfx as [_ Hfx]. apply Hfx, Hhalf. by right. }
        { intros x Hx Hxm. apply (bi_cover _ _ _ Hinv1); [|done]. apply Hrf, Hhalf. by right. }
        intros r' s3 e3 T3 Hinv3 Hco3 Hr' Hadd. rewrite Hbb in Hr'. specialize (Hr' Hrn). subst r'.
        destruct Hadd as [[_ Hadd]|[? _]]; [|lia]. apply wp_ret.
        apply (HQ r s3 e3 T3); [done|auto| |done| |].
        { split_and!; [done|done|lia]. }
        { intros x Hx. apply Hrf, Hhalf. by left. }
        { intros x. rewrite Hadd, Hfree2, Hhalf.
          assert (in_block i b x → free T x ∧ ¬ in_block i r x).
          { intros Hx. split; [apply Hrf, Hhalf; by right|]. unfold in_block, b in *. lia. }
          destruct (decide (in_block i b x)); tauto. }
  - (* a block of this size *)
    intros a s1 T1 Ha Hinv1 Hfree1 Hel1. pose proof (bi_block _ _ _ Hinv i a Hi Ha) as Hblk.
    pose proof (block_node _ _ _ i a Hinv Hi Ha) as HVa. pose proof Hblk as (Ha0 & Ham & _).
    rewrite rep_null_0. destruct (Z.eqb_spec a 0); [lia|]. cbn [negb].
    destruct (bi_holds _ _ _ Hinv) as (V & σ & Hs & _).
    apply wp_bind. eapply wp_validate_block; [exact Hs|done..|]. apply wp_ret.
    apply (HQ a s1 e T1); [done| |done|done|by intros x Hx; exists i, a|done].
    intros Hco j x Hj Hx Hbx. apply Hel1 in Hx. apply Hel1 in Hbx. by apply Hco.
Qed.

End Spec.

End BuddySpec.
