(* ===== verification/BuddyChunk.v ===== *)
(** * snmalloc, backend_helpers/largebuddyrange.h: [BuddyChunkRep]

    The nodes of the trees are chunks: the two words of the pagemap entry of a chunk
    are the fields of its node, and a bit of the first word is its colour.  The laws of
    [RbShape] and [BuddySpec] hold for it, so the theorems about trees and buddy
    allocators apply to it. *)

From stdpp Require Import base list numbers gmap.
From Stdlib Require Import ZArith Lia.
From S2P Require Import Prelude CInt SnBits MetaEntry RbTree RbShape Buddy BuddySpec.
Local Open Scope Z_scope.

Module BuddyChunk.
Import CInt SnBits MetaEntry RbTree RbShape Buddy BuddySpec.

Abbreviation MIN_CHUNK_BITS := AllocConfig.MIN_CHUNK_BITS.
Definition RED_BIT : Z := Z.shiftl 1 8.

(** The pagemap, by the number of the chunk, and the words of the roots. *)
Record ChunkSt := mkSt { pagemap : gmap Z MetaEntryBase; roots : list Z }.

(** [Pagemap::get_metaentry_mut<false>(p)]: reading outside the memory of the pagemap is
    undefined. *)
Definition chunk_index (p : Z) : Z := Z.shiftr p MIN_CHUNK_BITS.
Definition get_entry (s : ChunkSt) (p : Z) : result MetaEntryBase :=
  match pagemap s !! chunk_index p with Some e => Ok e | None => Err Undefined end.
Definition set_entry (s : ChunkSt) (p : Z) (e : MetaEntryBase) : ChunkSt :=
  mkSt (<[chunk_index p := e]> (pagemap s)) (roots s).

Definition word_of (direction : bool) : Word := if direction then One else Two.

(** [ref(direction, k)]: the null entry is a constant. *)
Definition ref (s : ChunkSt) (_ : bool) (k : Z) : result ChunkSt :=
  if k =? 0 then Ok s
  else e ← get_entry s k; e ← get_backend_word e; Ok (set_entry s k e).

(** The word a handle points to, and the assignment to it; the null entry is in
    read-only memory. *)
Definition read_word (s : ChunkSt) (h : handle) : result Z :=
  match h with
  | Root t => vec_at (roots s) t
  | Ref d k => if k =? 0 then Ok 0 else e ← get_entry s k; Ok (word (word_of d) e)
  end.
Definition write_word (s : ChunkSt) (h : handle) (v : Z) : result ChunkSt :=
  w ← read_word s h;
  w ← ref_assign w v;
  match h with
  | Root t => Ok (mkSt (pagemap s) (<[t := w]> (roots s)))
  | Ref d k =>
      if k =? 0 then Err Undefined
      else e ← get_entry s k; Ok (set_entry s k (set_word (word_of d) w e))
  end.

Definition set (s : ChunkSt) (h : handle) (r : Z) : result ChunkSt :=
  w ← read_word s h;
  write_word s h (Z.lor r (Z.land (ref_get w) RED_BIT)).

Definition get (s : ChunkSt) (h : handle) : result Z :=
  w ← read_word s h; Ok (Z.land (ref_get w) (size_not RED_BIT)).

Definition is_red (s : ChunkSt) (k : Z) : result (bool * ChunkSt) :=
  s ← ref s true k;
  w ← read_word s (Ref true k);
  Ok (Z.land (ref_get w) RED_BIT =? RED_BIT, s).

Definition set_red (s : ChunkSt) (k : Z) (new_is_red : bool) : result ChunkSt :=
  '(r, s) ← is_red s k;
  s ← (if negb (eqb new_is_red r) then
         s ← ref s true k;
         w ← read_word s (Ref true k);
         write_word s (Ref true k) (Z.lxor (ref_get w) RED_BIT)
       else Ok s);
  '(r, s) ← is_red s k;
  assert_ (eqb r new_is_red);; Ok s.

Definition offset (k size : Z) : result Z := Ok (to_size (k + size)).
Definition buddy (k size : Z) : result Z := Ok (Z.lxor k size).
Definition align_down (k size : Z) : result Z :=
  Ok (Z.land k (size_not (to_size (size - 1)))).
Definition compare (k1 k2 : Z) : bool := k2 <? k1.
Definition equal (k1 k2 : Z) : bool := k1 =? k2.

Definition can_consolidate (s : ChunkSt) (k size : Z) : result bool :=
  b ← buddy k size;
  let larger := max k b in
  e ← get_entry s larger;
  Ok (negb (is_boundary e)).

#[export] Instance BuddyChunkRep : RBRep ChunkSt := {
  rep_null := 0;
  rep_ref := ref;
  rep_get := get;
  rep_set := set;
  rep_is_red := is_red;
  rep_set_red := set_red;
  rep_compare := compare;
  rep_equal := equal;
}.
#[export] Instance BuddyChunkBuddy : BuddyRep ChunkSt := {
  rep_offset := offset;
  rep_buddy := buddy;
  rep_align_down := align_down;
  rep_can_consolidate := can_consolidate;
}.

(** ** Words *)

Lemma red_testbit i : Z.testbit RED_BIT i = (8 =? i).
Proof. change RED_BIT with (2 ^ 8). by apply Z.pow2_bits_eqb. Qed.

Lemma red_eqb x : (Z.land x RED_BIT =? RED_BIT) = Z.testbit x 8.
Proof. by apply (land_bit x 8). Qed.

Lemma ref_get_nonneg x : 0 ≤ ref_get x.
Proof.
  unfold ref_get. apply Z.land_nonneg. right. unfold size_not, to_size. by apply Z.mod_pos_bound.
Qed.

Lemma ref_get_8 x : Z.testbit (ref_get x) 8 = Z.testbit x 8.
Proof. by rewrite ref_get_testbit by lia. Qed.

(** The word of a pointer [r] with the colour of [w]. *)
Lemma coloured_word r w :
  is_size r → r mod 2 ^ 14 = 0 →
  let v := Z.lor r (Z.land (ref_get w) RED_BIT) in
  is_size v ∧ v mod 2 ^ 8 = 0 ∧ Z.land v (size_not RED_BIT) = r ∧
  Z.testbit v 8 = Z.testbit w 8.
Proof.
  intros Hr Hm v. assert (Hv : ∀ i, 0 ≤ i → Z.testbit v i = Z.testbit r i || (Z.testbit w 8 && (8 =? i))).
  { intros i Hi. unfold v. rewrite Z.lor_spec, Z.land_spec, red_testbit.
    destruct (Z.eqb_spec 8 i) as [<-|]; [by rewrite ref_get_8|by rewrite !andb_false_r]. }
  assert (Hlow : ∀ i, 0 ≤ i < 14 → Z.testbit r i = false) by (intros; by apply (low_bits r 14)).
  pose proof (ref_get_nonneg w). split_and!.
  - apply size_of_bits; [apply Z.lor_nonneg; split; [apply Hr|apply Z.land_nonneg; by left]|].
    intros i Hi. rewrite Hv, (size_testbit_high r i Hr Hi) by lia.
    assert ((8 =? i) = false) as -> by (apply Z.eqb_neq; lia). by rewrite andb_false_r.
  - apply mod_of_bits; [lia|]. intros i Hi. rewrite Hv, Hlow by lia.
    assert ((8 =? i) = false) as -> by (apply Z.eqb_neq; lia). by rewrite andb_false_r.
  - apply Z.bits_inj'. intros i Hi. rewrite Z.land_spec, Hv by done.
    destruct (decide (i < 64)).
    + rewrite size_not_testbit, red_testbit by lia. destruct (Z.eqb_spec 8 i) as [<-|].
      * rewrite andb_false_r. symmetry. by apply Hlow.
      * by rewrite andb_false_r, orb_false_r, andb_true_r.
    + unfold size_not, to_size. rewrite Z.mod_pow2_bits_high by lia. rewrite andb_false_r.
      symmetry. apply size_testbit_high; [done|lia].
  - rewrite Hv by lia. rewrite Hlow by lia. by rewrite andb_true_r.
Qed.

(** The other colour. *)
Lemma recoloured_word w :
  let v := Z.lxor (ref_get w) RED_BIT in
  is_size v ∧ v mod 2 ^ 8 = 0 ∧
  Z.land v (size_not RED_BIT) = Z.land (ref_get w) (size_not RED_BIT) ∧
  Z.testbit v 8 = negb (Z.testbit w 8).
Proof.
  intros v. assert (Hv : ∀ i, 0 ≤ i → Z.testbit v i = xorb (Z.testbit (ref_get w) i) (8 =? i)).
  { intros i Hi. unfold v. by rewrite Z.lxor_spec, red_testbit. }
  pose proof (ref_get_nonneg w). split_and!.
  - apply size_of_bits; [by apply Z.lxor_nonneg|]. intros i Hi. rewrite Hv, ref_get_testbit by lia.
    assert ((8 =? i) = false) as -> by (apply Z.eqb_neq; lia).
    assert ((i <? 64) = false) as -> by (apply Z.ltb_ge; lia). by rewrite andb_false_r.
  - apply mod_of_bits; [lia|]. intros i Hi. rewrite Hv, ref_get_testbit by lia.
    assert ((8 =? i) = false) as -> by (apply Z.eqb_neq; lia).
    by assert ((8 <=? i) = false) as -> by (apply Z.leb_gt; lia).
  - apply Z.bits_inj'. intros i Hi. rewrite !Z.land_spec, Hv by done.
    destruct (decide (i < 64)).
    + rewrite size_not_testbit, red_testbit by lia. destruct (Z.eqb_spec 8 i) as [<-|].
      * by rewrite !andb_false_r.
      * by rewrite xorb_false_r.
    + unfold size_not, to_size. rewrite Z.mod_pow2_bits_high by lia. by rewrite !andb_false_r.
  - rewrite Hv, ref_get_8 by lia. by destruct (Z.testbit w 8).
Qed.

(** ** The laws *)

Definition node_range (k : Z) : Prop := 0 < k < 2 ^ 64 ∧ k mod 2 ^ MIN_CHUNK_BITS = 0.

Definition valid (s : ChunkSt) (k : Z) : Prop :=
  node_range k ∧ ∃ e, get_entry s k = Ok e ∧ is_backend_owned e = true.
Definition fresh (s : ChunkSt) (k : Z) : Prop :=
  node_range k ∧ ∃ e, get_entry s k = Ok e ∧ (is_backend_owned e = true ∨ is_unowned e = true).
Definition root_ok (s : ChunkSt) (t : nat) : Prop := (t < length (roots s))%nat.
Definition colour (s : ChunkSt) (k : Z) : bool :=
  match read_word s (Ref true k) with Ok w => Z.testbit w 8 | Err _ => false end.

Definition place_ok (s : ChunkSt) (h : handle) : Prop :=
  match h with Root t => root_ok s t | Ref _ k => valid s k end.
Definition same_places (s s' : ChunkSt) : Prop :=
  (∀ k, valid s k → valid s' k) ∧ (∀ k, fresh s k → fresh s' k) ∧ (∀ t, root_ok s t → root_ok s' t).

Lemma chunk_index_inj k k' :
  node_range k → node_range k' → chunk_index k = chunk_index k' → k = k'.
Proof.
  unfold node_range, chunk_index, MIN_CHUNK_BITS. rewrite !Z.shiftr_div_pow2 by lia.
  intros [_ Hk] [_ Hk'] E. rewrite (Z.div_mod k (2 ^ 14)), (Z.div_mod k' (2 ^ 14)) by lia. lia.
Qed.

Lemma get_entry_set s k e k' :
  node_range k → node_range k' →
  get_entry (set_entry s k e) k' = if decide (k' = k) then Ok e else get_entry s k'.
Proof.
  intros Hk Hk'. unfold get_entry, set_entry. simpl. destruct (decide (k' = k)) as [->|Hne].
  - by rewrite lookup_insert_eq.
  - rewrite lookup_insert_ne; [done|]. intros E. by apply Hne, chunk_index_inj.
Qed.

Lemma node_ne_0 k : node_range k → (k =? 0) = false.
Proof. intros [? _]. apply Z.eqb_neq. lia. Qed.

Lemma valid_fresh s k : valid s k → fresh s k.
Proof. intros (Hk & e & He & Ho). split; [done|]. exists e. by split; [|left]. Qed.

Lemma set_entry_same s k e : get_entry s k = Ok e → set_entry s k e = s.
Proof.
  unfold get_entry, set_entry. destruct s as [m r]. simpl. destruct (m !! _) eqn:E; [|done].
  intros [= ->]. f_equal. by apply insert_id.
Qed.

(** [ref] of a node that the back end owns changes nothing. *)
Lemma ref_valid s d k : valid s k → ref s d k = Ok s.
Proof.
  intros (Hk & e & He & Ho). unfold ref. rewrite node_ne_0, He by done. cbn [mbind result_bind].
  unfold get_backend_word. rewrite Ho. cbn [mbind result_bind]. by rewrite set_entry_same.
Qed.

Lemma read_word_Ok s h : place_ok s h → ∃ w, read_word s h = Ok w.
Proof.
  destruct h as [t|d k]; simpl.
  - intros Ht. apply lookup_lt_is_Some in Ht as [w Hw]. exists w. unfold vec_at. by rewrite Hw.
  - intros (Hk & e & He & _). rewrite node_ne_0, He by done. eauto.
Qed.

Lemma place_ne_0 s d k : place_ok s (Ref d k) → (k =? 0) = false.
Proof. intros [Hk _]. by apply node_ne_0. Qed.

Lemma word_of_inj d d' : word_of d = word_of d' → d = d'.
Proof. by destruct d, d'. Qed.

(** An assignment to a place, and what the other places show. *)
Lemma write_word_Ok s h v :
  place_ok s h → is_size v → v mod 2 ^ 8 = 0 →
  ∃ s' w', write_word s h v = Ok s' ∧ ref_get w' = v ∧ same_places s s' ∧
    ∀ h', place_ok s h' → read_word s' h' = if decide (h' = h) then Ok w' else read_word s h'.
Proof.
  intros Hh Hv Hm. destruct (read_word_Ok s h Hh) as [w Ew].
  destruct (ref_assign_Ok w v Hv Hm) as (w' & Ea & Eg & Hlow).
  unfold write_word. rewrite Ew. cbn [mbind result_bind]. rewrite Ea. cbn [mbind result_bind].
  destruct h as [t|d k].
  - eexists _, w'. split; [done|]. split; [done|]. split.
    { split_and!; [done|done|]. intros t'. unfold root_ok. simpl. by rewrite length_insert. }
    intros [t'|d' k'] Hh'; simpl; [|done]. unfold vec_at. destruct (decide (Root t' = Root t)) as [E|Hne].
    + injection E as ->. by rewrite list_lookup_insert_eq by exact Hh.
    + rewrite list_lookup_insert_ne; [done|]. congruence.
  - pose proof Hh as (Hk & e & He & Ho). rewrite node_ne_0, He by done. cbn [mbind result_bind].
    eexists _, w'. split; [done|]. split; [done|].
    simpl in Ew. rewrite node_ne_0, He in Ew by done. injection Ew as <-.
    destruct (set_word_low (word_of d) e w' Hlow) as [Ho' Hb'].
    split.
    { split_and!; [| |done].
      - intros k' (Hk' & e' & He' & Hoe). split; [done|]. rewrite get_entry_set by done.
        destruct (decide (k' = k)) as [->|]; [|by exists e'].
        eexists. split; [done|congruence].
      - intros k' (Hk' & e' & He' & Hoe). split; [done|]. rewrite get_entry_set by done.
        destruct (decide (k' = k)) as [->|]; [|by exists e'].
        eexists. split; [done|]. left. congruence. }
    intros [t'|d' k'] Hh'; [done|]. pose proof Hh' as (Hk' & e' & He' & _). simpl.
    rewrite node_ne_0, get_entry_set, He' by done.
    destruct (decide (k' = k)) as [->|Hne]; [|by rewrite decide_False by congruence].
    destruct (decide (d' = d)) as [->|Hd].
    + rewrite decide_True by done. cbn [mbind result_bind]. by rewrite word_set_eq.
    + rewrite decide_False by congruence. cbn [mbind result_bind].
      rewrite word_set_ne by (intros E; by apply word_of_inj in E). congruence.
Qed.

(** [set] keeps the colour. *)
Lemma set_Ok s h r :
  place_ok s h → is_size r → r mod 2 ^ 14 = 0 →
  ∃ s', set s h r = Ok s' ∧ same_places s s' ∧
    (∀ h', place_ok s h' → get s' h' = if decide (h' = h) then Ok r else get s h') ∧
    (∀ k, valid s k → colour s' k = colour s k).
Proof.
  intros Hh Hr Hm. destruct (read_word_Ok s h Hh) as [w Ew]. unfold set. rewrite Ew.
  cbn [mbind result_bind].
  destruct (coloured_word r w Hr Hm) as (Hs & H8 & Hg & Hc).
  destruct (write_word_Ok s h _ Hh Hs H8) as (s' & w' & -> & Eg & Hpl & Hread).
  exists s'. split; [done|]. split; [done|]. split.
  - intros h' Hh'. unfold get. rewrite Hread by done.
    destruct (decide (h' = h)); [|done]. cbn [mbind result_bind]. by rewrite Eg, Hg.
  - intros k Hk. unfold colour. rewrite (Hread (Ref true k)) by done.
    destruct (decide (Ref true k = h)) as [<-|]; [|done]. rewrite Ew.
    by rewrite <- (ref_get_8 w'), Eg, Hc.
Qed.

Lemma is_red_valid s k : valid s k → is_red s k = Ok (colour s k, s).
Proof.
  intros Hk. unfold is_red. rewrite ref_valid by done. cbn [mbind result_bind].
  destruct (read_word_Ok s (Ref true k) Hk) as [w Ew]. rewrite Ew. cbn [mbind result_bind].
  unfold colour. by rewrite Ew, red_eqb, ref_get_8.
Qed.

Lemma set_red_Ok s k b :
  valid s k → ∃ s', set_red s k b = Ok s' ∧ same_places s s' ∧
    (∀ h, place_ok s h → get s' h = get s h) ∧
    (∀ k', valid s k' → colour s' k' = if decide (k' = k) then b else colour s k').
Proof.
  intros Hk. unfold set_red. rewrite is_red_valid by done. cbn [mbind result_bind].
  destruct (eqb b (colour s k)) eqn:Eb; cbn [negb mbind result_bind].
  - apply eqb_prop in Eb. rewrite is_red_valid by done. cbn [mbind result_bind].
    rewrite Eb, eqb_reflx. cbn [assert_ mbind result_bind].
    exists s. split_and!; try done. intros k' _. by destruct (decide (k' = k)) as [->|].
  - rewrite ref_valid by done. cbn [mbind result_bind].
    destruct (read_word_Ok s (Ref true k) Hk) as [w Ew]. rewrite Ew. cbn [mbind result_bind].
    destruct (recoloured_word w) as (Hs & H8 & Hg & Hc).
    destruct (write_word_Ok s (Ref true k) _ Hk Hs H8) as (s' & w' & -> & Eg & Hpl & Hread).
    cbn [mbind result_bind].
    assert (Hcol : ∀ k', valid s k' → colour s' k' = if decide (k' = k) then b else colour s k').
    { intros k' Hk'. unfold colour. rewrite (Hread (Ref true k')) by done.
      destruct (decide (k' = k)) as [->|Hne]; [|by rewrite decide_False by congruence].
      rewrite decide_True by done. rewrite <- ref_get_8, Eg, Hc. unfold colour in Eb.
      rewrite Ew in Eb. by destruct (Z.testbit w 8), b. }
    rewrite is_red_valid by (by apply Hpl). cbn [mbind result_bind].
    rewrite (Hcol k Hk), decide_True, eqb_reflx by done. cbn [mbind result_bind assert_].
    exists s'. split_and!; [done|done| |done].
    intros h Hh. unfold get. rewrite Hread by done. destruct (decide (h = Ref true k)) as [->|]; [|done].
    rewrite Ew. cbn [mbind result_bind]. by rewrite Eg, Hg.
Qed.

(** [ref] claims a chunk that nobody owns; nothing shows it. *)
Lemma ref_Ok s d k :
  fresh s k → ∃ s', ref s d k = Ok s' ∧ valid s' k ∧ same_places s s' ∧
    (∀ h, place_ok s h → get s' h = get s h) ∧ (∀ k', valid s k' → colour s' k' = colour s k').
Proof.
  intros (Hk & e & He & Hoe). unfold ref. rewrite node_ne_0, He by done. cbn [mbind result_bind].
  destruct (get_backend_word_Ok e Hoe) as (e' & -> & Ho' & _ & Hw & H8). cbn [mbind result_bind].
  assert (Hread : ∀ d' k', valid s k' →
    (ref_get <$> read_word (set_entry s k e') (Ref d' k')) = (ref_get <$> read_word s (Ref d' k'))).
  { intros d' k' (Hk' & e1 & He1 & _). simpl. rewrite node_ne_0, get_entry_set, He1 by done.
    destruct (decide (k' = k)) as [->|]; [|done]. simpl. replace e1 with e by congruence. by rewrite Hw. }
  eexists. split; [done|]. split; [|split; [split_and!|split]].
  - split; [done|]. exists e'. rewrite get_entry_set by done. by rewrite decide_True.
  - intros k' (Hk' & e1 & He1 & Ho1). split; [done|]. rewrite get_entry_set by done.
    destruct (decide (k' = k)); [by exists e'|by exists e1].
  - intros k' (Hk' & e1 & He1 & Ho1). split; [done|]. rewrite get_entry_set by done.
    destruct (decide (k' = k)); [exists e'; split; [done|by left]|by exists e1].
  - done.
  - intros [t|d' k'] Hh; [done|]. specialize (Hread d' k' Hh). unfold get.
    destruct (read_word_Ok s (Ref d' k') Hh) as [w Ew]. rewrite Ew in *.
    destruct (read_word (set_entry s k e') (Ref d' k')); simpl in *; congruence.
  - intros k' Hk'. specialize (Hread true k' Hk'). unfold colour.
    destruct (read_word_Ok s (Ref true k') Hk') as [w Ew]. rewrite Ew in *.
    destruct (read_word (set_entry s k e') (Ref true k')); simpl in Hread; [|done].
    rewrite <- (ref_get_8 w), <- ref_get_8. congruence.
Qed.

(** ** What can be consolidated *)

(** The boundary bits stay. *)
Definition same_edges (s s' : ChunkSt) : Prop :=
  ∀ i, is_boundary <$> pagemap s' !! i = is_boundary <$> pagemap s !! i.

Lemma set_entry_edges s k e e' :
  get_entry s k = Ok e → is_boundary e' = is_boundary e → same_edges s (set_entry s k e').
Proof.
  unfold get_entry. intros He Hb i. simpl. destruct (decide (i = chunk_index k)) as [->|Hne].
  - rewrite lookup_insert_eq. destruct (pagemap s !! chunk_index k); [|done]. simpl. congruence.
  - by rewrite lookup_insert_ne.
Qed.

Lemma ref_edges s d k s' : ref s d k = Ok s' → same_edges s s'.
Proof.
  unfold ref. destruct (k =? 0); [by intros [= <-]|]. destruct (get_entry s k) as [e|] eqn:He; [|done].
  cbn [mbind result_bind]. destruct (get_backend_word e) as [e'|] eqn:Hg; [|done]. intros [= <-].
  eapply set_entry_edges; [done|]. unfold get_backend_word in Hg.
  destruct (is_backend_owned e); [by injection Hg as <-|].
  destruct (is_unowned e) eqn:Hu; [|done]. injection Hg as <-.
  apply is_unowned_spec in Hu as [Hm Hr]. destruct e as [m r]. simpl in *. subst r.
  by destruct Hm as [-> | ->].
Qed.

Lemma write_word_edges s h v s' : write_word s h v = Ok s' → same_edges s s'.
Proof.
  unfold write_word. destruct (read_word s h) as [w|] eqn:Ew; [|done]. cbn [mbind result_bind].
  destruct (ref_assign w v) as [w'|] eqn:Ea; [|done]. cbn [mbind result_bind].
  destruct h as [t|d k]; [by intros [= <-]|]. simpl in Ew. destruct (k =? 0); [done|].
  destruct (get_entry s k) as [e|] eqn:He; [|done]. injection Ew as <-. intros [= <-].
  eapply set_entry_edges; [done|]. apply set_word_low. by eapply ref_assign_low.
Qed.

Lemma same_edges_can s s' k z : same_edges s s' → can_consolidate s' k z = can_consolidate s k z.
Proof.
  intros Hs. unfold can_consolidate. cbn [buddy mbind result_bind]. unfold get_entry.
  specialize (Hs (chunk_index (max k (Z.lxor k z)))).
  destruct (pagemap s' !! _), (pagemap s !! _); simpl in *; congruence.
Qed.

Lemma is_red_edges s k r s' : is_red s k = Ok (r, s') → same_edges s s'.
Proof.
  unfold is_red. destruct (ref s true k) as [s1|] eqn:E; [|done]. cbn [mbind result_bind].
  destruct (read_word s1 _); [|done]. intros [= _ <-]. by eapply ref_edges.
Qed.

Lemma same_edges_trans s1 s2 s3 : same_edges s1 s2 → same_edges s2 s3 → same_edges s1 s3.
Proof. intros H1 H2 i. by rewrite H2. Qed.

Lemma set_red_edges s k b s' : set_red s k b = Ok s' → same_edges s s'.
Proof.
  unfold set_red. destruct (is_red s k) as [[r s1]|] eqn:E1; [|done]. cbn [mbind result_bind].
  intros E. assert (∃ s2, same_edges s1 s2 ∧
    ('(r, s) ← is_red s2 k; assert_ (eqb r b);; Ok s) = Ok s') as (s2 & H2 & E2).
  { destruct (eqb b r); cbn [negb mbind result_bind] in E; [by exists s1|].
    destruct (ref s1 true k) as [s2|] eqn:Er; [|done]. cbn [mbind result_bind] in E.
    destruct (read_word s2 (Ref true k)) as [w|] eqn:Ew; [|done]. cbn [mbind result_bind] in E.
    destruct (write_word s2 (Ref true k) (Z.lxor (ref_get w) RED_BIT)) as [s3|] eqn:Eww; [|done].
    exists s3. split; [|done].
    eapply same_edges_trans; [by eapply ref_edges|by eapply write_word_edges]. }
  destruct (is_red s2 k) as [[r' s3]|] eqn:E3; [|done]. cbn [mbind result_bind] in E2.
  destruct (eqb r' b); [|done]. injection E2 as <-.
  eapply same_edges_trans; [by eapply is_red_edges|].
  eapply same_edges_trans; [done|by eapply is_red_edges].
Qed.

(** ** The instances *)

Lemma range_chunk k : node_range k → 0 < k < 2 ^ 64 ∧ k mod 16 = 0.
Proof.
  intros [Hr Hm]. split; [done|]. unfold MIN_CHUNK_BITS in Hm. change 16 with (2 ^ 4).
  apply Z.mod_divide in Hm; [|done]. apply Z.mod_divide; [done|].
  eapply Z.divide_trans; [|exact Hm]. by exists (2 ^ 10).
Qed.

Lemma range_size k : k = 0 ∨ node_range k → is_size k ∧ k mod 2 ^ 14 = 0.
Proof.
  unfold is_size, SIZE_MAX. intros [->|[Hr Hm]]; (split; [lia|done]).
Qed.

#[export] Program Instance BuddyChunkLaws : RBRepLaws ChunkSt := {
  rep_valid := valid;
  rep_fresh := fresh;
  rep_root := root_ok;
  rep_colour := colour;
}.
Next Obligation. done. Qed.
Next Obligation. apply valid_fresh. Qed.
Next Obligation. intros s k [Hk _]. by apply range_chunk. Qed.
Next Obligation. done. Qed.
Next Obligation. done. Qed.
Next Obligation.
  intros s d k Hk. destruct (ref_Ok s d k Hk) as (s' & E & Hv & Hpl & Hg & Hc). by exists s'.
Qed.
Next Obligation.
  intros s h Hh. destruct (read_word_Ok s h Hh) as [w Ew]. simpl. unfold get. rewrite Ew. eauto.
Qed.
Next Obligation.
  intros s k Hk. exists s. simpl. by rewrite is_red_valid.
Qed.
Next Obligation. done. Qed.
Next Obligation.
  intros s h v Hh Hv.
  destruct (range_size v) as [Hs Hm]; [destruct Hv as [->|[? _]]; auto|]. by apply set_Ok.
Qed.
Next Obligation. intros s k b Hk. by apply set_red_Ok. Qed.

Lemma lxor_buddy n k : 0 ≤ n → Z.lxor k (2 ^ n) = buddy_of n k.
Proof.
  intros Hn. unfold buddy_of.
  assert (Hb : Z.testbit k n = negb (Z.even (k / 2 ^ n))).
  { by rewrite Z.testbit_odd, Z.shiftr_div_pow2, Z.negb_even by lia. }
  assert (Hadd : ∀ x, Z.testbit x n = false → Z.lxor x (2 ^ n) = x + 2 ^ n).
  { intros x Hx. symmetry. apply Z.add_nocarry_lxor. apply Z.bits_inj'. intros i Hi.
    rewrite Z.land_spec, Z.pow2_bits_eqb, Z.bits_0 by done.
    destruct (Z.eqb_spec n i) as [<-|]; [by rewrite Hx|by rewrite andb_false_r]. }
  destruct (Z.even (k / 2 ^ n)); [by apply Hadd|].
  assert (Hx : Z.testbit (Z.lxor k (2 ^ n)) n = false).
  { rewrite Z.lxor_spec, Z.pow2_bits_eqb, Z.eqb_refl, Hb by done. done. }
  apply Hadd in Hx. rewrite Z.lxor_assoc, Z.lxor_nilpotent, Z.lxor_0_r in Hx. lia.
Qed.

Lemma buddy_ne n k : 0 ≤ n → buddy_of n k ≠ k.
Proof. intros Hn. pose proof (Z.pow_pos_nonneg 2 n). unfold buddy_of. destruct (Z.even _); lia. Qed.

#[export] Program Instance BuddyChunkBuddyLaws : BuddyRepLaws ChunkSt := { rep_bits := 63 }.
Next Obligation. intros s k n Hk Hn Hm. simpl. unfold buddy. by rewrite lxor_buddy by lia. Qed.
Next Obligation.
  intros s k n [Hk _] Hn Hlt. simpl. unfold offset. apply range_chunk in Hk.
  pose proof (Z.pow_pos_nonneg 2 n). rewrite to_size_id; [done|]. unfold is_size, SIZE_MAX. lia.
Qed.
Next Obligation.
  intros s k n [Hk _] Hn. simpl. unfold align_down. pose proof (size_pow n ltac:(lia)).
  rewrite to_size_pred by (lia || by apply is_size_pow; lia).
  rewrite land_size_not; [done| |lia]. apply range_size. by right.
Qed.
Next Obligation.
  intros s k n (Hk & e & He & _) (Hb & e' & He' & _) Hn Hm. simpl. unfold can_consolidate, buddy.
  cbn [mbind result_bind]. rewrite !lxor_buddy, buddy_of_involutive by (done || lia).
  pose proof (buddy_ne n k ltac:(lia)). unfold max.
  destruct (Z.ltb_spec (buddy_of n k) k), (Z.ltb_spec k (buddy_of n k)); try lia.
  - rewrite He. cbn [mbind result_bind]. eauto.
  - rewrite He'. cbn [mbind result_bind]. eauto.
Qed.
Next Obligation. intros s d k s' E c z. by eapply same_edges_can, ref_edges. Qed.
Next Obligation. intros s k b s' E c z. by eapply same_edges_can, is_red_edges. Qed.
Next Obligation.
  intros s h v s' E c z. eapply same_edges_can. simpl in E. unfold set in E.
  destruct (read_word s h); [|done]. by eapply write_word_edges.
Qed.
Next Obligation. intros s k b s' E c z. by eapply same_edges_can, set_red_edges. Qed.

End BuddyChunk.
