(* ===== verification/BuddyInplace.v ===== *)
(** * snmalloc, backend_helpers/smallbuddyrange.h: [BuddyInplaceRep]

    The node of a free block is a [FreeChunk] at the start of the block itself: two
    pointers, the lowest bit of the second is the colour.  The laws of [RbShape] and
    [BuddySpec] hold for it as they do for [BuddyChunkRep]. *)

From stdpp Require Import base list numbers gmap.
From Stdlib Require Import ZArith Lia.
From S2P Require Import Prelude CInt SnBits RbTree RbShape Buddy BuddySpec.
Local Open Scope Z_scope.

Module BuddyInplace.
Import CInt SnBits Address RbTree RbShape Buddy BuddySpec.

Definition MASK : Z := 1.

(** The words of the memory that belongs to the allocator, by address, and the words of
    the roots. *)
Record InplaceSt := mkSt { memory : gmap Z Z; roots : list Z }.

(** [&r->left] and [&r->right] *)
Definition field (direction : bool) (k : Z) : Z := if direction then k else k + 8.

Definition read (s : InplaceSt) (h : handle) : result Z :=
  match h with
  | Root t => vec_at (roots s) t
  | Ref d k => match memory s !! field d k with Some w => Ok w | None => Err Undefined end
  end.
Definition write (s : InplaceSt) (h : handle) (v : Z) : result InplaceSt :=
  read s h;;
  Ok match h with
     | Root t => mkSt (memory s) (<[t := v]> (roots s))
     | Ref d k => mkSt (<[field d k := v]> (memory s)) (roots s)
     end.

Definition set (s : InplaceSt) (ptr : handle) (r : Z) : result InplaceSt :=
  assert_ (Z.land r MASK =? 0);;
  w ← read s ptr;
  if r =? 0 then write s ptr (Z.land w MASK)
  else v ← pointer_offset r (Z.land w MASK); write s ptr v.

Definition get (s : InplaceSt) (ptr : handle) : result Z :=
  w ← read s ptr; Ok (pointer_align_down_const 2 w).

(** The address of a field is computed, not read. *)
Definition ref (s : InplaceSt) (direction : bool) (r : Z) : result InplaceSt := Ok s.

Definition is_red (s : InplaceSt) (k : Z) : result bool :=
  if k =? 0 then Ok false
  else w ← read s (Ref false k); Ok (Z.land w MASK =? MASK).

Definition set_red (s : InplaceSt) (k : Z) (new_is_red : bool) : result InplaceSt :=
  old ← is_red s k;
  if negb (eqb new_is_red old) then
    w ← read s (Ref false k);
    let old_addr := pointer_align_down_const 2 w in
    s ← (if (new_is_red : bool) then
           if old_addr =? 0 then write s (Ref false k) MASK
           else v ← pointer_offset old_addr MASK; write s (Ref false k) v
         else write s (Ref false k) old_addr);
    r ← is_red s k;
    assert_ (eqb r new_is_red);; Ok s
  else Ok s.

Definition offset (k size : Z) : result Z := pointer_offset k size.

(** [size * 2] wraps around like every [size_t]. *)
Definition buddy (k size : Z) : result Z :=
  base ← pointer_align_down k (to_size (size * 2));
  let offset := Z.lxor (Z.land k size) size in
  pointer_offset base offset.

Definition align_down (k size : Z) : result Z := pointer_align_down k size.
Definition compare (k1 k2 : Z) : bool := k2 <? k1.
Definition equal (k1 k2 : Z) : bool := k1 =? k2.
Definition can_consolidate (s : InplaceSt) (k size : Z) : result bool := Ok true.

#[export] Instance BuddyInplaceRep : RBRep InplaceSt := {
  rep_null := 0;
  rep_ref := ref;
  rep_get := get;
  rep_set := set;
  rep_is_red := λ s k, b ← is_red s k; Ok (b, s);
  rep_set_red := set_red;
  rep_compare := compare;
  rep_equal := equal;
}.
#[export] Instance BuddyInplaceBuddy : BuddyRep InplaceSt := {
  rep_offset := offset;
  rep_buddy := buddy;
  rep_align_down := align_down;
  rep_can_consolidate := can_consolidate;
}.

(** ** Words *)

(** Blocks that are smaller than a chunk, in the memory after the first chunk. *)
Definition node_range (k : Z) : Prop := 2 ^ 14 ≤ k < 2 ^ 64 ∧ k mod 16 = 0.

Definition valid (s : InplaceSt) (k : Z) : Prop :=
  node_range k ∧ ∀ d, is_Some (memory s !! field d k).
Definition root_ok (s : InplaceSt) (t : nat) : Prop := (t < length (roots s))%nat.
Definition colour (s : InplaceSt) (k : Z) : bool :=
  match read s (Ref false k) with Ok w => Z.odd w | Err _ => false end.

Definition place_ok (s : InplaceSt) (h : handle) : Prop :=
  match h with Root t => root_ok s t | Ref _ k => valid s k end.
Definition same_places (s s' : InplaceSt) : Prop :=
  (∀ k, valid s k → valid s' k) ∧ (∀ t, root_ok s t → root_ok s' t).

Lemma land_mask w : Z.land w MASK = Z.b2z (Z.odd w).
Proof.
  change MASK with (2 ^ 1 - 1). rewrite land_pow2_pred by lia. change (2 ^ 1) with 2.
  rewrite Zmod_odd. by destruct (Z.odd w).
Qed.

(** The pointer of a word does not depend on the colour bit. *)
Lemma ptr_add r b : is_size r → Z.even r = true → pointer_align_down_const 2 (r + Z.b2z b) = r.
Proof.
  intros Hr He. unfold pointer_align_down_const. change (2 =? 1) with false. cbn iota.
  change (to_size (2 - 1)) with (2 ^ 1 - 1). apply Z.even_spec in He as [q ->].
  unfold is_size, SIZE_MAX in *.
  rewrite land_size_not; [|unfold is_size, SIZE_MAX; destruct b; simpl; lia|lia].
  change (2 ^ 1) with 2.
  assert ((2 * q + Z.b2z b) / 2 = q) as ->; [|lia].
  symmetry. apply Z.div_unique with (Z.b2z b); [left; destruct b; simpl; lia|done].
Qed.

Lemma ptr_even w :
  is_size (pointer_align_down_const 2 w) ∧ Z.even (pointer_align_down_const 2 w) = true.
Proof.
  unfold pointer_align_down_const. change (2 =? 1) with false. cbn iota. split; [apply size_land_not|].
  rewrite <- Z.negb_odd, <- Z.bit0_odd, Z.land_spec. by rewrite andb_false_r.
Qed.

(** ** The laws *)

Lemma field_inj d d' k k' :
  node_range k → node_range k' → field d k = field d' k' → d = d' ∧ k = k'.
Proof.
  unfold node_range, field. intros [_ Hk] [_ Hk'] E.
  pose proof (Z.div_mod k 16). pose proof (Z.div_mod k' 16). destruct d, d'; split; lia.
Qed.

Lemma inplace_node_ne_0 k : node_range k → (k =? 0) = false.
Proof. intros [? _]. apply Z.eqb_neq. lia. Qed.

Lemma read_Ok s h : place_ok s h → ∃ w, read s h = Ok w.
Proof.
  destruct h as [t|d k]; simpl.
  - intros Ht. apply lookup_lt_is_Some in Ht as [w Hw]. exists w. unfold vec_at. by rewrite Hw.
  - intros [_ Hm]. destruct (Hm d) as [w ->]. eauto.
Qed.

(** An assignment to a place, and what the other places hold. *)
Lemma write_Ok s h v :
  place_ok s h → ∃ s', write s h v = Ok s' ∧ same_places s s' ∧
    ∀ h', place_ok s h' → read s' h' = if decide (h' = h) then Ok v else read s h'.
Proof.
  intros Hh. destruct (read_Ok s h Hh) as [w Ew]. unfold write. rewrite Ew. cbn [mbind result_bind].
  eexists. split; [done|]. destruct h as [t|d k].
  - split.
    { split; [done|]. intros t'. unfold root_ok. simpl. by rewrite length_insert. }
    intros [t'|d' k'] Hh'; simpl; [|done]. unfold vec_at. destruct (decide (Root t' = Root t)) as [E|Hne].
    + injection E as ->. by rewrite list_lookup_insert_eq by exact Hh.
    + rewrite list_lookup_insert_ne; [done|]. congruence.
  - pose proof Hh as [Hk _]. split.
    { split; [|done]. intros k' [Hk' Hm']. split; [done|]. intros d'. simpl.
      destruct (decide (field d' k' = field d k)) as [->|]; [by rewrite lookup_insert_eq|].
      by rewrite lookup_insert_ne. }
    intros [t'|d' k'] Hh'; [done|]. pose proof Hh' as [Hk' _]. simpl.
    destruct (decide (Ref d' k' = Ref d k)) as [E|Hne].
    + injection E as -> ->. by rewrite lookup_insert_eq.
    + rewrite lookup_insert_ne; [done|]. intros E. apply field_inj in E as [-> ->]; done.
Qed.

(** A place holds a pointer and a colour. *)
Lemma write_ptr s h r b :
  place_ok s h → is_size r → Z.even r = true →
  ∃ s', write s h (r + Z.b2z b) = Ok s' ∧ same_places s s' ∧
    (∀ h', place_ok s h' → get s' h' = if decide (h' = h) then Ok r else get s h') ∧
    (∀ k, valid s k → colour s' k = if decide (Ref false k = h) then b else colour s k).
Proof.
  intros Hh Hr He. destruct (write_Ok s h (r + Z.b2z b) Hh) as (s' & E & Hpl & Hread).
  exists s'. split; [done|]. split; [done|]. split.
  - intros h' Hh'. unfold get. rewrite Hread by done. destruct (decide (h' = h)); [|done].
    cbn [mbind result_bind]. by rewrite ptr_add.
  - intros k Hk. unfold colour. rewrite (Hread (Ref false k)) by done.
    destruct (decide (Ref false k = h)); [|done]. rewrite Z.odd_add, <- Z.negb_even, He. by destruct b.
Qed.

Lemma range_even r : r = 0 ∨ node_range r → is_size r ∧ Z.even r = true.
Proof.
  unfold is_size, SIZE_MAX. intros [->|[Hr Hm]]; (split; [lia|]); [done|].
  pose proof (Z.div_mod r 16). apply Z.even_spec. exists (8 * (r / 16)). lia.
Qed.

Lemma inplace_set_Ok s h r :
  place_ok s h → r = 0 ∨ node_range r →
  ∃ s', set s h r = Ok s' ∧ same_places s s' ∧
    (∀ h', place_ok s h' → get s' h' = if decide (h' = h) then Ok r else get s h') ∧
    (∀ k, valid s k → colour s' k = colour s k).
Proof.
  intros Hh Hr. destruct (range_even r Hr) as [Hs He]. unfold set.
  rewrite land_mask, <- Z.negb_even, He. cbn [negb Z.b2z Z.eqb assert_ mbind result_bind].
  destruct (read_Ok s h Hh) as [w Ew]. rewrite Ew. cbn [mbind result_bind]. rewrite land_mask.
  assert (Hw : ∃ s', write s h (r + Z.b2z (Z.odd w)) = Ok s' ∧ same_places s s' ∧
    (∀ h', place_ok s h' → get s' h' = if decide (h' = h) then Ok r else get s h') ∧
    (∀ k, valid s k → colour s' k = colour s k)).
  { destruct (write_ptr s h r (Z.odd w) Hh Hs He) as (s' & E & Hpl & Hg & Hc).
    exists s'. split; [done|]. split; [exact Hpl|]. split; [done|]. intros k Hk. rewrite Hc by done.
    destruct (decide (Ref false k = h)) as [<-|]; [|done]. unfold colour. by rewrite Ew. }
  destruct (Z.eqb_spec r 0) as [->|Hne]; [by rewrite Z.add_0_l in Hw|].
  destruct Hr as [|[Hr _]]; [done|]. rewrite pointer_offset_Ok; [exact Hw|lia|by destruct (Z.odd w)|].
  unfold is_size, SIZE_MAX in Hs. apply Z.even_spec in He as [q ->]. destruct (Z.odd w); simpl; lia.
Qed.

Lemma inplace_is_red_valid s k : valid s k → is_red s k = Ok (colour s k).
Proof.
  intros Hk. unfold is_red. rewrite inplace_node_ne_0 by apply Hk.
  destruct (read_Ok s (Ref false k) Hk) as [w Ew]. rewrite Ew. cbn [mbind result_bind].
  unfold colour. rewrite Ew, land_mask. by destruct (Z.odd w).
Qed.

Lemma inplace_set_red_Ok s k b :
  valid s k → ∃ s', set_red s k b = Ok s' ∧ same_places s s' ∧
    (∀ h, place_ok s h → get s' h = get s h) ∧
    (∀ k', valid s k' → colour s' k' = if decide (k' = k) then b else colour s k').
Proof.
  intros Hk. unfold set_red. rewrite inplace_is_red_valid by done. cbn [mbind result_bind].
  destruct (eqb b (colour s k)) eqn:Eb; cbn [negb].
  { apply eqb_prop in Eb. exists s. split_and!; try done.
    intros k' _. by destruct (decide (k' = k)) as [->|]. }
  destruct (read_Ok s (Ref false k) Hk) as [w Ew]. rewrite Ew. cbn [mbind result_bind].
  destruct (ptr_even w) as [Hs He]. set (a := pointer_align_down_const 2 w) in *.
  destruct (write_ptr s (Ref false k) a b Hk Hs He) as (s' & E & Hpl & Hg & Hc).
  assert (Hcol : ∀ k', valid s k' → colour s' k' = if decide (k' = k) then b else colour s k').
  { intros k' Hk'. rewrite Hc by done. destruct (decide (k' = k)) as [->|]; [by rewrite decide_True|].
    by rewrite decide_False by congruence. }
  assert (Hw : (if b then if a =? 0 then write s (Ref false k) MASK
      else v ← pointer_offset a MASK; write s (Ref false k) v else write s (Ref false k) a) = Ok s').
  { destruct b; simpl in E; [|by rewrite Z.add_0_r in E].
    destruct (Z.eqb_spec a 0) as [Ha|Ha]; [by rewrite Ha in E|]. unfold is_size, SIZE_MAX in Hs.
    rewrite pointer_offset_Ok; [exact E|lia|done|]. apply Z.even_spec in He as [q Hq].
    unfold MASK. lia. }
  rewrite Hw. cbn [mbind result_bind]. rewrite inplace_is_red_valid by (by apply Hpl). cbn [mbind result_bind].
  rewrite (Hcol k Hk), decide_True, eqb_reflx by done. cbn [assert_ mbind result_bind].
  exists s'. split; [done|]. split; [exact Hpl|]. split; [|done].
  intros h Hh. rewrite Hg by done. destruct (decide (h = Ref false k)) as [->|]; [|done].
  unfold get. by rewrite Ew.
Qed.

#[export] Program Instance BuddyInplaceLaws : RBRepLaws InplaceSt := {
  rep_valid := valid;
  rep_fresh := valid;
  rep_root := root_ok;
  rep_colour := colour;
}.
Next Obligation. done. Qed.
Next Obligation. done. Qed.
Next Obligation. intros s k [[Hr Hm] _]. lia. Qed.
Next Obligation. done. Qed.
Next Obligation. done. Qed.
Next Obligation. intros s d k Hk. by exists s. Qed.
Next Obligation.
  intros s h Hh. destruct (read_Ok s h Hh) as [w Ew]. simpl. unfold get. rewrite Ew. eauto.
Qed.
Next Obligation. intros s k Hk. exists s. simpl. by rewrite inplace_is_red_valid. Qed.
Next Obligation. done. Qed.
Next Obligation.
  intros s h v Hh Hv. destruct (inplace_set_Ok s h v) as (s' & E & Hpl & Hg & Hc);
    [done|destruct Hv as [|[? _]]; auto|].
  exists s'. destruct Hpl as [Hv' Hr']. by split_and!.
Qed.
Next Obligation.
  intros s k b Hk. destruct (inplace_set_red_Ok s k b Hk) as (s' & E & Hpl & Hg & Hc).
  exists s'. destruct Hpl as [Hv' Hr']. by split_and!.
Qed.

#[export] Program Instance BuddyInplaceBuddyLaws : BuddyRepLaws InplaceSt := { rep_bits := 14 }.
Next Obligation.
  intros s k n [[Hr _] _] Hn Hm. simpl. unfold buddy.
  pose proof (Z.pow_pos_nonneg 2 n ltac:(lia) ltac:(lia)) as Hp.
  assert (Hpn : 2 ^ (n + 1) = 2 ^ n * 2) by (rewrite Z.pow_add_r by lia; done).
  assert (Hle : 2 ^ (n + 1) ≤ 2 ^ 14) by (apply Z.pow_le_mono_r; lia).
  rewrite to_size_id by (unfold is_size, SIZE_MAX; lia). rewrite <- Hpn.
  rewrite pointer_align_down_pow by (unfold is_size, SIZE_MAX; lia). cbn [mbind result_bind].
  pose proof (buddy_halves n k ltac:(lia) Hm) as Hh. cbn zeta in Hh.
  set (p := k / 2 ^ (n + 1) * 2 ^ (n + 1)) in *.
  assert (Hp0 : 0 < p).
  { unfold p. apply Z.mul_pos_pos; [apply Z.div_str_pos|]; lia. }
  assert (Hpt : p + 2 ^ (n + 1) ≤ 2 ^ 64).
  { unfold p. assert (k / 2 ^ (n + 1) < 2 ^ (64 - (n + 1))).
    - apply Z.div_lt_upper_bound; [lia|]. rewrite <- Z.pow_add_r by lia.
      replace (n + 1 + (64 - (n + 1))) with 64 by lia. apply Hr.
    - replace (2 ^ 64) with (2 ^ (64 - (n + 1)) * 2 ^ (n + 1)); [nia|].
      rewrite <- Z.pow_add_r by lia. f_equal. lia. }
  assert (Hlow : Z.lxor (Z.land k (2 ^ n)) (2 ^ n) = if Z.testbit k n then 0 else 2 ^ n).
  { apply Z.bits_inj'. intros i Hi. rewrite Z.lxor_spec, Z.land_spec, Z.pow2_bits_eqb by lia.
    destruct (Z.eqb_spec n i) as [<-|Hne].
    - rewrite andb_true_r. destruct (Z.testbit k n); [by rewrite Z.bits_0|].
      by rewrite Z.pow2_bits_true by lia.
    - rewrite andb_false_r. destruct (Z.testbit k n); [by rewrite Z.bits_0|].
      by rewrite Z.pow2_bits_false by lia. }
  rewrite Hlow. assert (Hb : Z.testbit k n = negb (Z.even (k / 2 ^ n))).
  { by rewrite Z.testbit_odd, Z.shiftr_div_pow2, Z.negb_even by lia. }
  rewrite Hb. unfold buddy_of in *. destruct (Z.even (k / 2 ^ n)); cbn [negb];
    rewrite pointer_offset_Ok by lia; f_equal; lia.
Qed.
Next Obligation.
  intros s k n [[Hr _] _] Hn Hlt. simpl. pose proof (Z.pow_pos_nonneg 2 n).
  apply pointer_offset_Ok; lia.
Qed.
Next Obligation.
  intros s k n [[Hr _] _] Hn. simpl. apply pointer_align_down_pow; [|lia].
  unfold is_size, SIZE_MAX. lia.
Qed.
Next Obligation. intros s k n _ _ _ _. by exists true. Qed.
Next Obligation. done. Qed.
Next Obligation. done. Qed.
Next Obligation. done. Qed.
Next Obligation. done. Qed.

End BuddyInplace.
