(* ===== verification/RbSet.v ===== *)
(** * The red-black tree is a finite set

    Any sequence of insertions, removals and removals of the least element that starts
    with an empty tree behaves as it does on a finite set of numbers, for every
    representation that satisfies the laws of [RbShape].  The second half applies this
    to [BuddyChunkRep]. *)

From stdpp Require Import base list numbers sorting gmap sets.
From Stdlib Require Import ZArith Lia.
From S2P Require Import Prelude CInt MetaEntry RbTree RbShape RbRun RbInsert RbRemove Buddy BuddyChunk.
Local Open Scope Z_scope.

Module RbSet.
Import RbTree RbShape RbRun.

(** The operations that clients call, with their results as numbers. *)
Inductive op := Insert (value : Z) | Remove (value : Z) | RemoveMin.

(** What they mean. *)
Inductive set_step : gset Z → op → Z → gset Z → Prop :=
| step_insert X v : set_step X (Insert v) (Z.b2z (bool_decide (v ∉ X))) ({[v]} ∪ X)
| step_remove X v : set_step X (Remove v) (Z.b2z (bool_decide (v ∈ X))) (X ∖ {[v]})
| step_min_empty : set_step ∅ RemoveMin 0 ∅
| step_min X v : v ∈ X → (∀ x, x ∈ X → v ≤ x) → set_step X RemoveMin v (X ∖ {[v]}).

Inductive set_steps : gset Z → list op → list Z → gset Z → Prop :=
| steps_nil X : set_steps X [] [] X
| steps_cons X o r X' ops rs X'' :
    set_step X o r X' → set_steps X' ops rs X'' → set_steps X (o :: ops) (r :: rs) X''.

Section Ops.
Context {St : Type} `{RBRep St} (run_checks : bool) (t : nat).

Definition run_op (o : op) : M St Z :=
  match o with
  | Insert v => b ← insert_elem run_checks t v; mret (Z.b2z b)
  | Remove v => b ← remove_elem run_checks t v; mret (Z.b2z b)
  | RemoveMin => remove_min run_checks t
  end.

Fixpoint run_ops (ops : list op) : M St (list Z) :=
  match ops with
  | [] => mret []
  | o :: ops => r ← run_op o; rs ← run_ops ops; mret (r :: rs)
  end.
End Ops.

Section Refine.
Context {St : Type} `{RBRepLaws St} (F : Z → Prop) (t : nat) (run_checks : bool).

Definition R1 (t' : nat) : Prop := t' = t.

(** The store holds the tree whose elements are the set [X]. *)
Definition represents (s : St) (X : gset Z) : Prop :=
  ∃ V σ T, sees V F R1 s σ ∧ holds V t σ T ∧ ∀ x, x ∈ elems T ↔ x ∈ X.

Definition op_ok (o : op) : Prop := match o with Insert v => F v | _ => True end.

(** A tree is empty when it is constructed. *)
Lemma represents_init s :
  (∀ k, F k → rep_fresh s k) → rep_root s t → rep_get s (Root t) = Ok rep_null → represents s ∅.
Proof.
  intros HF Ht Hg. destruct (sees_exists (λ _, False) F R1 s) as [σ Hs];
    [done|done|by intros ? ->|].
  exists (λ _, False), σ, RbShape.E. split; [done|]. split; [|set_solver].
  split_and!; [|exists 0%nat; apply rbt_E|constructor]. simpl.
  pose proof (sees_cell _ _ _ _ _ Hs (Root t) eq_refl) as E. rewrite Hg, rep_null_0 in E. by injection E.
Qed.

Lemma run_op_ok o s X :
  represents s X → op_ok o →
  wp (run_op run_checks t o) s (λ r s', ∃ X', set_step X o r X' ∧ represents s' X').
Proof.
  intros (V & σ & T & Hs & Hh & HX) Ho. destruct o as [v|v|]; simpl.
  - apply wp_bind. eapply wp_mono; [by apply (RbInsert.wp_insert_elem V F R1 t eq_refl run_checks v T)|].
    intros b s' (σ' & T' & Hst & -> & HT' & _). apply wp_ret.
    assert (bool_decide (v ∉ elems T) = bool_decide (v ∉ X)) as E
      by (apply bool_decide_ext; by rewrite HX).
    rewrite E in *. exists ({[v]} ∪ X). split; [constructor|].
    destruct (bool_decide (v ∉ X)); [destruct Hst as [Hs' Hh']|destruct Hst as (Hs' & -> & ->)].
    + exists (with_node V v), σ', T'. split_and!; [done|done|].
      intros x. rewrite HT', HX. set_solver.
    + exists V, σ, T. split_and!; [done|done|].
      intros x. rewrite HT', HX. set_solver.
  - apply wp_bind. eapply wp_mono; [by apply (RbRemove.wp_remove_elem V F R1 t eq_refl run_checks v T)|].
    intros b s' (σ' & T' & Hs' & Hh' & -> & HT' & _). apply wp_ret.
    exists (X ∖ {[v]}). split.
    + assert (bool_decide (v ∈ elems T) = bool_decide (v ∈ X)) as ->
        by (apply bool_decide_ext; by rewrite HX). constructor.
    + exists V, σ', T'. split_and!; [done|done|].
      intros x. rewrite HT', HX. set_solver.
  - eapply wp_mono; [by apply (RbRemove.wp_remove_min V F R1 t eq_refl run_checks T)|].
    intros v s' (σ' & T' & Hs' & Hh' & Hv & _). destruct Hh as (_ & _ & Hso).
    destruct (elems T) as [|x l] eqn:El.
    + destruct Hv as [-> HE]. assert (X = ∅) as -> by set_solver.
      exists ∅. split; [constructor|]. exists V, σ', T'. split; [done|]. split; [done|]. rewrite HE. set_solver.
    + destruct Hv as [-> HE]. apply sorted_cons in Hso as [Hso Hx]. exists (X ∖ {[x]}). split.
      * constructor; [apply HX; by left|]. intros y Hy. apply HX, elem_of_cons in Hy as [->|Hy]; [lia|].
        specialize (Hx y Hy). lia.
      * exists V, σ', T'. split; [done|]. split; [done|]. rewrite HE. intros y.
        rewrite elem_of_difference, elem_of_singleton, <- HX, elem_of_cons. split; [|naive_solver].
        intros Hy. split; [by right|]. intros ->. specialize (Hx x Hy). lia.
Qed.

Lemma run_ops_ok ops s X :
  represents s X → Forall op_ok ops →
  wp (run_ops run_checks t ops) s (λ rs s', ∃ X', set_steps X ops rs X' ∧ represents s' X').
Proof.
  revert s X; induction ops as [|o ops IH]; intros s X HX Hok.
  - apply wp_ret. exists X. split; [constructor|done].
  - apply Forall_cons in Hok as [Ho Hok]. cbn [run_ops]. apply wp_bind.
    eapply wp_mono; [by apply run_op_ok|]. intros r s1 (X1 & Hst & HX1). apply wp_bind.
    eapply wp_mono; [by apply IH|]. intros rs s2 (X2 & Hsts & HX2). apply wp_ret.
    exists X2. split; [by econstructor|done].
Qed.
End Refine.

(** ** The property *)

(** C12: every sequence of operations on a red-black tree of the allocator that starts
    with an empty tree runs to its end without a fault, also when the tree checks its
    invariant after every step, and gives the results of the operations on a finite
    set; the tree then holds that set. *)
Theorem rbtree_is_a_set {St : Type} `{RBRepLaws St} (F : Z → Prop) (t : nat) (run_checks : bool)
    (ops : list op) (s : St) :
  (∀ k, F k → rep_fresh s k) → rep_root s t → rep_get s (Root t) = Ok rep_null →
  Forall (op_ok F) ops →
  ∃ rs s' X, run_ops run_checks t ops s = Ok (rs, s') ∧ set_steps ∅ ops rs X ∧ represents F t s' X.
Proof.
  intros HF Ht Hg Hok. pose proof (represents_init F t s HF Ht Hg) as HX.
  destruct (wp_run _ _ _ (run_ops_ok F t run_checks ops s ∅ HX Hok)) as (rs & s' & E & X & Hst & HX').
  by exists rs, s', X.
Qed.

#[local] Existing Instances BuddyChunk.BuddyChunkRep BuddyChunk.BuddyChunkLaws.

(** Eight chunks of 16 KiB, none of them claimed, and one tree. *)
Definition sample_store : BuddyChunk.ChunkSt :=
  BuddyChunk.mkSt (list_to_map ((λ n, (n, MetaEntry.empty_entry)) <$> [1; 2; 3; 4; 5; 6; 7; 8])) [0].
Definition sample_ops : list op :=
  [Insert 49152; Insert 16384; Insert 32768; Insert 16384; RemoveMin; Remove 49152; Remove 16384; RemoveMin; RemoveMin].

Example sample_run :
  fst <$> run_ops true 0 sample_ops sample_store = Ok [1; 1; 1; 0; 16384; 1; 0; 32768; 0].
Proof. vm_compute. done. Qed.

Definition sample_nodes (k : Z) : Prop := k = 16384 ∨ k = 32768 ∨ k = 49152.

Lemma rbtree_is_a_set_witness :
  ∃ rs s' X, run_ops true 0 sample_ops sample_store = Ok (rs, s') ∧
    set_steps ∅ sample_ops rs X ∧ represents sample_nodes 0 s' X.
Proof.
  apply (rbtree_is_a_set sample_nodes 0 true sample_ops sample_store).
  - intros k [-> | [-> | ->]]; (split; [done|eexists; split; [vm_compute; done|by right]]).
  - simpl. unfold BuddyChunk.root_ok. simpl. lia.
  - done.
  - unfold sample_ops. repeat (apply Forall_cons; split; [simpl; unfold sample_nodes; tauto|]).
    apply Forall_nil. done.
Defined.

End RbSet.
