(* ===== verification/BuddyMemory.v ===== *)
(** * What a buddy allocator promises

    [memory_ok st free]: the trees of a buddy allocator hold exactly the bytes [free],
    as blocks that do not overlap and that have been joined where that is allowed.  An
    allocator that is constructed holds nothing; [add_block] and [remove_block] never
    fault and move one block; [remove_block] fails only when no aligned block of the
    size is free.  The theorems are about every representation with the laws; the
    samples are about [BuddyChunkRep] and [BuddyInplaceRep]. *)

From stdpp Require Import base list numbers gmap sets functions.
From Stdlib Require Import ZArith Lia.
From S2P Require Import Prelude CInt SnBits MetaEntry RbTree RbShape RbRun Buddy BuddySpec BuddyChunk BuddyInplace.
Local Open Scope Z_scope.

Module BuddyMemory.
Import CInt SnBits RbTree RbShape RbRun Buddy BuddySpec.

Section Memory.
Context {St : Type} `{BuddyRepLaws St} (F : Z → Prop) (C : Z → Z → bool).
Context (run_checks : bool) (MIN MAX : Z).
Context (HMIN : 0 ≤ MIN) (HMM : MIN < MAX) (HMAX : MAX ≤ 63) (Hbits : MAX ≤ rep_bits).

Abbreviation ntrees := (ntrees MIN MAX).
Abbreviation bits := (bits MIN).
Abbreviation in_block := (in_block MIN).
Abbreviation is_block := (is_block MIN).
Abbreviation buddy_inv := (buddy_inv F C MIN MAX).
Abbreviation coalesced := (coalesced C MIN MAX).

Definition memory_ok (st : BSt) (mem : Z → Prop) : Prop :=
  ∃ T, buddy_inv st.1 st.2 T ∧ coalesced T ∧ ∀ x, mem x ↔ free MIN MAX T x.

(** The constructor: every root is null and [empty_at_or_above] is 0. *)
Lemma memory_ok_init s :
  (∀ k, F k → rep_fresh s k) → (∀ t, R MIN MAX t → rep_root s t ∧ rep_get s (Root t) = Ok rep_null) →
  (∀ k m, F k → F (buddy_of m k) → 0 ≤ m < rep_bits → k mod 2 ^ m = 0 →
    rep_can_consolidate s k (2 ^ m) = Ok (C k (2 ^ m))) →
  memory_ok (s, 0) (λ _, False).
Proof.
  intros HF HR HC. destruct (sees_exists (λ _, False) F (R MIN MAX) s) as [σ Hs];
    [done|done|by intros t Ht; apply HR|].
  assert (Hfree : ∀ x, ¬ free MIN MAX (λ _, RbShape.E) x).
  { intros x (i & a & _ & Ha & _). by apply elem_of_nil in Ha. }
  exists (λ _, RbShape.E). split; [|split].
  - split; simpl.
    + exists (λ _, False), σ. split; [done|]. intros i Hi.
      split_and!; [|exists 0%nat; apply rbt_E|constructor]. simpl.
      destruct (HR i Hi) as [_ Hg]. pose proof (sees_cell _ _ _ _ _ Hs (Root i) Hi) as E.
      rewrite Hg, rep_null_0 in E. by injection E.
    + lia.
    + done.
    + intros i a _ Ha. by apply elem_of_nil in Ha.
    + intros i j a b x _ _ Ha. by apply elem_of_nil in Ha.
    + intros x Hx. by apply Hfree in Hx.
    + exact HC.
  - intros i a _ Ha. by apply elem_of_nil in Ha.
  - intros x. split; [done|]. apply Hfree.
Qed.

(** The words of a node that is in no tree do not matter. *)
Lemma memory_ok_other s s' e mem r :
  memory_ok (s, e) mem → ¬ mem r → rep_same_places s s' →
  (∀ h, rep_place s h → (∀ d, h ≠ Ref d r) → rep_get s' h = rep_get s h) →
  (∀ k, rep_valid s k → k ≠ r → rep_colour s' k = rep_colour s k) →
  (∀ k z, rep_can_consolidate s' k z = rep_can_consolidate s k z) → memory_ok (s', e) mem.
Proof.
  intros (T & Hinv & Hco & Hm) Hr (Hpv & Hpf & Hpr) Hg Hc Hcan. exists T. split; [|done].
  cbn [fst snd] in *. destruct (bi_holds _ _ _ _ _ _ _ Hinv) as (V & σ & Hs & HT).
  assert (Hel : ∀ i k, (i < ntrees)%nat → k ∈ elems (T i) → k ≠ r).
  { intros i k Hi Hk ->. apply Hr, Hm. by apply (free_start MIN MAX HMIN HMM T i). }
  split; try apply Hinv; [|intros k m ? ? ? ?; rewrite Hcan; by apply Hinv].
  exists (λ k, V k ∧ k ≠ r), σ. split.
  - split.
    + intros k [Hk _]. by eapply Hpv, sees_valid.
    + intros k Hk. by eapply Hpf, sees_fresh.
    + intros t Ht. by eapply Hpr, sees_root.
    + intros h Hh. assert (Hh' : place V (R MIN MAX) h) by (destruct h; [done|by destruct Hh]).
      rewrite Hg; [by eapply sees_cell|by eapply sees_place|].
      intros d ->. by destruct Hh.
    + intros k [Hk Hkr]. rewrite Hc; [by eapply sees_red|by eapply sees_valid|done].
    + by eapply sees_null.
  - intros i Hi. destruct (HT i Hi) as (Ht & Hrb & Hso). split_and!; [|done|done].
    eapply tree_at_restrict; [done|]. intros k Hk. split; [by eapply tree_at_valid|by eapply Hel].
Qed.

(** ** Aligned blocks *)

Lemma in_block_div j b x : b mod 2 ^ bits j = 0 → in_block j b x ↔ x / 2 ^ bits j = b / 2 ^ bits j.
Proof.
  intros Hb. assert (Hp : 0 < 2 ^ bits j) by (apply Z.pow_pos_nonneg; unfold BuddySpec.bits; lia).
  pose proof (Z.div_mod b (2 ^ bits j) ltac:(lia)) as Eb. rewrite Hb in Eb.
  pose proof (Z.div_mod x (2 ^ bits j) ltac:(lia)) as Ex.
  pose proof (Z.mod_pos_bound x (2 ^ bits j) Hp). unfold BuddySpec.in_block.
  set (p := 2 ^ bits j) in *. set (q := b / p) in *. set (q' := x / p) in *. split; nia.
Qed.

(** Two blocks that meet are nested. *)
Lemma in_block_nest i j a b x y :
  (j ≤ i)%nat → a mod 2 ^ bits i = 0 → b mod 2 ^ bits j = 0 →
  in_block i a x → in_block j b x → in_block j b y → in_block i a y.
Proof.
  intros Hij Ha Hb. rewrite !in_block_div by done. intros Hx Hxb Hyb. rewrite <- Hx.
  assert (E : 2 ^ bits i = 2 ^ bits j * 2 ^ (bits i - bits j)).
  { rewrite <- Z.pow_add_r by (unfold BuddySpec.bits; lia). f_equal. lia. }
  assert (0 < 2 ^ bits j) by (apply Z.pow_pos_nonneg; unfold BuddySpec.bits; lia).
  assert (0 < 2 ^ (bits i - bits j)) by (apply Z.pow_pos_nonneg; unfold BuddySpec.bits; lia).
  rewrite E, <- !Z.div_div by lia. congruence.
Qed.

(** Without boundaries the free blocks are joined as far as possible: an aligned region
    that is free lies in one block. *)
Lemma coalesced_complete s e T i a :
  buddy_inv s e T → coalesced T → (∀ k z, C k z = true) → (i < ntrees)%nat → is_block i a →
  (∀ x, in_block i a x → free MIN MAX T x) → ∃ j b, (i ≤ j < ntrees)%nat ∧ b ∈ elems (T j).
Proof.
  intros Hinv Hco HC Hi Hblk Hfree. pose proof Hblk as (_ & Ham & _).
  destruct (Hfree a) as (j & b & Hj & Hb & Hx); [by apply (in_block_start MIN MAX)|].
  destruct (decide (i ≤ j)%nat) as [Hij|Hij]; [by exists j, b|]. exfalso.
  assert (Hnone : ∀ n j b x, (j < n)%nat → (j < i)%nat → b ∈ elems (T j) → in_block j b x → in_block i a x → False).
  { clear j b Hj Hb Hx Hij. induction n as [|n IH]; intros j b x Hjn Hji Hb Hxb Hxa; [lia|].
    assert (Hj : (j < ntrees)%nat) by lia. pose proof (bits_range MIN MAX HMIN HMM j Hj) as Hbr.
    pose proof (bi_block _ _ _ _ _ _ _ Hinv j b Hj Hb) as (_ & Hbm & _).
    set (c := buddy_of (bits j) b).
    assert (Hcm : c mod 2 ^ bits j = 0) by (apply buddy_of_aligned; [lia|done]).
    pose proof (in_block_halves MIN HMIN j b) as Hhalf. fold c in Hhalf.
    set (p := b / 2 ^ bits (S j) * 2 ^ bits (S j)) in *.
    assert (Hpm : p mod 2 ^ bits (S j) = 0) by (apply Z.mod_mul, Z.pow_nonzero; unfold BuddySpec.bits; lia).
    assert (Hcc : in_block j c c) by (by apply (in_block_start MIN MAX)).
    assert (Hca : in_block i a c).
    { apply (in_block_nest i (S j) a p x c); [lia|done|done|done| |]; apply Hhalf; auto. }
    destruct (Hfree c Hca) as (j2 & c2 & Hj2 & Hc2 & Hcx).
    pose proof (bi_block _ _ _ _ _ _ _ Hinv j2 c2 Hj2 Hc2) as (_ & Hc2m & _).
    destruct (decide (j2 < j)%nat) as [Hlt|Hge].
    { apply (IH j2 c2 c); [lia|lia|done|done|done]. }
    destruct (decide (j2 = j)) as [->|Hne].
    - assert (c2 = c) as ->.
      { apply in_block_div in Hcx; [|done]. rewrite (Z.div_mod c (2 ^ bits j)), (Z.div_mod c2 (2 ^ bits j));
          [congruence|apply Z.pow_nonzero; lia..]. }
      pose proof (Hco j b Hj Hb Hc2) as E. rewrite HC in E. done.
    - assert (Hbc2 : in_block j2 c2 b).
      { apply (in_block_nest j2 (S j) c2 p c b); [lia|done|done|done| |]; apply Hhalf; try done.
        - by right. - left. by apply (in_block_start MIN MAX). }
      destruct (bi_disjoint _ _ _ _ _ _ _ Hinv j j2 b c2 b) as [E _]; try done.
      by apply (in_block_start MIN MAX). }
  apply (Hnone (S j) j b a); [lia|lia|done|done|by apply (in_block_start MIN MAX)].
Qed.

(** ** The operations *)

(** What [add_block] returns, and the memory afterwards: nothing, or a block of the
    largest size that leaves the allocator. *)
Definition add_result (mem mem' : Z → Prop) (i : nat) (a r : Z) : Prop :=
  (r = 0 ∧ ∀ x, mem' x ↔ mem x ∨ in_block i a x) ∨
  (0 < r ∧ r mod 2 ^ MAX = 0 ∧ (∀ x, in_top MAX r x → mem x ∨ in_block i a x) ∧
   ∀ x, mem' x ↔ (mem x ∨ in_block i a x) ∧ ¬ in_top MAX r x).

Lemma ntrees_fuel : (ntrees ≤ buddy_fuel)%nat.
Proof. unfold BuddySpec.ntrees, trees_size, buddy_fuel. lia. Qed.

Lemma add_block_ok i a st mem :
  memory_ok st mem → (i < ntrees)%nat → is_block i a → (∀ x, in_block i a x → ¬ mem x) →
  (∀ x, in_block i a x → x mod 2 ^ MIN = 0 → F x) →
  wp (add_block run_checks MIN MAX buddy_fuel a (2 ^ bits i)) st
    (λ r st', ∃ mem', memory_ok st' mem' ∧ add_result mem mem' i a r).
Proof.
  intros (T & Hinv & Hco & Hm) Hi Hblk Hn HF. destruct st as [s e]. cbn [fst snd] in Hinv.
  pose proof ntrees_fuel.
  eapply (wp_add_block F C run_checks MIN MAX); [done..|lia|done|exact Hinv|done| |done|].
  { intros x Hx Hf. apply (Hn x Hx). by apply Hm. }
  intros r s' e' T' Hinv' Hco' _ Hadd. exists (free MIN MAX T'). split.
  { exists T'. split_and!; [done|by apply Hco'|done]. }
  destruct Hadd as [[-> Hf]|(Hr & Hrm & Hrt & Hf)]; [left|right].
  - split; [done|]. intros x. by rewrite Hf, Hm.
  - split_and!; [done|done| |].
    + intros x Hx. rewrite Hm. by apply Hrt.
    + intros x. by rewrite Hf, Hm.
Qed.

(** What [remove_block] returns, and the memory afterwards. *)
Definition take_result (mem mem' : Z → Prop) (i : nat) (r : Z) : Prop :=
  (r = 0 ∧ (∀ x, mem' x ↔ mem x) ∧
   ((∀ k z, C k z = true) → ∀ a, is_block i a → ¬ ∀ x, in_block i a x → mem x)) ∨
  (is_block i r ∧ (∀ x, in_block i r x → mem x) ∧ ∀ x, mem' x ↔ mem x ∧ ¬ in_block i r x).

Lemma remove_block_ok i st mem :
  memory_ok st mem → (i < ntrees)%nat →
  wp (remove_block run_checks MIN MAX buddy_fuel (2 ^ bits i)) st
    (λ r st', ∃ mem', memory_ok st' mem' ∧ take_result mem mem' i r).
Proof.
  intros (T & Hinv & Hco & Hm) Hi. destruct st as [s e]. cbn [fst snd] in Hinv. pose proof ntrees_fuel.
  eapply (wp_remove_block F C run_checks MIN MAX); [done..|lia|done|exact Hinv| |].
  - intros s' e' Hinv' HE. exists mem. split; [by exists T|]. left. split_and!; [done|done|].
    intros HC a Hblk Hall.
    destruct (coalesced_complete s' e' T i a) as (j & b & Hj & Hb); try done.
    { intros x Hx. apply Hm. by apply Hall. }
    rewrite (HE j Hj) in Hb. by apply elem_of_nil in Hb.
  - intros r s' e' T' Hinv' Hco' Hblk _ Hr Hf. exists (free MIN MAX T'). split.
    { exists T'. split_and!; [done|by apply Hco'|done]. }
    right. split_and!; [done| |].
    + intros x Hx. apply Hm. by apply Hr.
    + intros x. by rewrite Hf, Hm.
Qed.

(** ** Clients *)

(** [Give i a]: a block of the tree number [i] is added; [Take i]: one is asked for. *)
Inductive call := Give (i : nat) (a : Z) | Take (i : nat).

Definition run_call (c : call) : M BSt Z :=
  match c with
  | Give i a => add_block run_checks MIN MAX buddy_fuel a (2 ^ bits i)
  | Take i => remove_block run_checks MIN MAX buddy_fuel (2 ^ bits i)
  end.

Fixpoint run_calls (cs : list call) : M BSt (list Z) :=
  match cs with
  | [] => mret []
  | c :: cs => r ← run_call c; rs ← run_calls cs; mret (r :: rs)
  end.

(** What one call does to the memory. *)
Definition call_result (mem mem' : Z → Prop) (c : call) (r : Z) : Prop :=
  match c with
  | Give i a => add_result mem mem' i a r
  | Take i => take_result mem mem' i r
  end.

(** The client owns what it gives: an aligned block of one of the sizes that is not free. *)
Definition call_ok (mem : Z → Prop) (c : call) : Prop :=
  match c with
  | Give i a => (i < ntrees)%nat ∧ is_block i a ∧ (∀ x, in_block i a x → ¬ mem x) ∧
      ∀ x, in_block i a x → x mod 2 ^ MIN = 0 → F x
  | Take i => (i < ntrees)%nat
  end.

(** The calls are in order whatever the allocator answers. *)
Fixpoint safe (mem : Z → Prop) (cs : list call) : Prop :=
  match cs with
  | [] => True
  | c :: cs => call_ok mem c ∧ ∀ r mem', call_result mem mem' c r → safe mem' cs
  end.

Inductive history : (Z → Prop) → list call → list Z → (Z → Prop) → Prop :=
| history_nil mem : history mem [] [] mem
| history_cons mem mem' mem'' c cs r rs :
    call_result mem mem' c r → history mem' cs rs mem'' → history mem (c :: cs) (r :: rs) mem''.

Lemma run_calls_ok cs st mem :
  memory_ok st mem → safe mem cs →
  wp (run_calls cs) st (λ rs st', ∃ mem', history mem cs rs mem' ∧ memory_ok st' mem').
Proof.
  revert st mem; induction cs as [|c cs IH]; intros st mem Hm Hs.
  - apply wp_ret. exists mem. split; [constructor|done].
  - destruct Hs as [Hc Hs]. cbn [run_calls]. apply wp_bind.
    assert (Hrun : wp (run_call c) st (λ r st', ∃ mem', memory_ok st' mem' ∧ call_result mem mem' c r)).
    { destruct c as [i a|i]; cbn [run_call call_result call_ok] in *.
      - destruct Hc as (Hi & Hb & Hn & HF). by apply add_block_ok.
      - by apply remove_block_ok. }
    eapply wp_mono; [exact Hrun|]. intros r st1 (mem1 & Hm1 & Hr). apply wp_bind.
    eapply wp_mono; [apply (IH st1 mem1); [done|by eapply Hs]|].
    intros rs st2 (mem2 & Hh & Hm2). apply wp_ret. exists mem2. split; [by econstructor|done].
Qed.

End Memory.

(** What the representation answers about joining blocks in the store [s]. *)
Definition answers {St} `{BuddyRep St} (s : St) (k z : Z) : bool :=
  match rep_can_consolidate s k z with Ok b => b | Err _ => false end.

Lemma memory_ok_new {St} `{BuddyRepLaws St} (F : Z → Prop) MIN MAX s :
  0 ≤ MIN → MIN < MAX → (∀ k, F k → rep_fresh s k) →
  (∀ t, R MIN MAX t → rep_root s t ∧ rep_get s (Root t) = Ok rep_null) →
  memory_ok F (answers s) MIN MAX (s, 0) (λ _, False).
Proof.
  intros H3 H4 HF HR. apply memory_ok_init; [done..|]. intros k m Hk Hb Hm Hkm.
  destruct (rep_can_ok s k m (HF k Hk) (HF _ Hb) Hm Hkm) as (b & E & _).
  unfold answers. by rewrite E.
Qed.

(** ** The property *)

(** C6: from a buddy allocator that holds the memory [mem], every sequence of calls that
    gives aligned blocks the client owns and asks for blocks runs to its end without a
    fault; the memory it holds afterwards is what was given and not handed out, a block
    that is handed out was free and is aligned, and without boundaries a request fails
    only when no aligned block of the size is free as a whole. *)
Theorem buddy_keeps_memory {St : Type} `{BuddyRepLaws St} (F : Z → Prop) (C : Z → Z → bool)
    (run_checks : bool) (MIN MAX : Z) (cs : list call) (st : BSt) (mem : Z → Prop) :
  0 ≤ MIN → MIN < MAX → MAX ≤ 63 → MAX ≤ rep_bits →
  memory_ok F C MIN MAX st mem → safe F C MIN MAX mem cs →
  ∃ rs st' mem', run_calls run_checks MIN MAX cs st = Ok (rs, st') ∧
    history C MIN MAX mem cs rs mem' ∧ memory_ok F C MIN MAX st' mem'.
Proof.
  intros H1' H2' H3' H4' Hm Hs.
  destruct (wp_run _ _ _ (run_calls_ok F C run_checks MIN MAX H1' H2' H3' H4' cs st mem Hm Hs))
    as (rs & st' & E & mem' & Hh & Hm').
  by exists rs, st', mem'.
Qed.

#[local] Existing Instances BuddyChunk.BuddyChunkRep BuddyChunk.BuddyChunkLaws
  BuddyChunk.BuddyChunkBuddy BuddyChunk.BuddyChunkBuddyLaws BuddyInplace.BuddyInplaceRep
  BuddyInplace.BuddyInplaceBuddy.

(** Eight chunks that nobody owns, and three trees: of chunks, of pairs and of fours. *)
Definition sample_chunks : BuddyChunk.ChunkSt :=
  BuddyChunk.mkSt (list_to_map ((λ n, (n, MetaEntry.empty_entry)) <$> [1; 2; 3; 4; 5; 6; 7; 8])) [0; 0; 0].

(** Four chunks are split for one chunk; when all of them are back the four are one
    block again. *)
Example sample_chunk_run :
  fst <$> run_calls (St := BuddyChunk.ChunkSt) true 14 17
    [Give 2 65536; Take 0; Take 1; Take 0; Take 0; Give 0 65536; Give 1 98304; Give 0 81920; Take 2]
    (sample_chunks, 0)
  = Ok [0; 65536; 98304; 81920; 0; 0; 0; 0; 65536].
Proof. vm_compute. done. Qed.

(** The same in the memory of the blocks: 64 bytes are split for 16. *)
Definition sample_memory : BuddyInplace.InplaceSt :=
  BuddyInplace.mkSt (list_to_map ((λ n : nat, (16384 + 8 * Z.of_nat n, 7)) <$> seq 0 16)) [0; 0; 0].
Example sample_memory_run :
  fst <$> run_calls (St := BuddyInplace.InplaceSt) true 4 7
    [Give 2 16384; Take 0; Take 0; Take 1; Take 0; Give 0 16400; Give 1 16416; Give 0 16384; Take 2]
    (sample_memory, 0)
  = Ok [0; 16384; 16400; 16416; 0; 0; 0; 0; 16384].
Proof. vm_compute. done. Qed.

Definition sample_nodes (k : Z) : Prop := ∃ n, n ∈ [4; 5; 6; 7] ∧ k = n * 16384.

Lemma buddy_keeps_memory_witness :
  let cs := [Give 2 65536; Take 0; Take 1; Take 2] in
  ∃ rs st' mem', run_calls true 14 17 cs (sample_chunks, 0) = Ok (rs, st') ∧
    history (answers sample_chunks) 14 17 (λ _, False) cs rs mem' ∧
    memory_ok sample_nodes (answers sample_chunks) 14 17 st' mem'.
Proof.
  intros cs.
  apply (buddy_keeps_memory sample_nodes (answers sample_chunks) true 14 17 cs (sample_chunks, 0) (λ _, False));
    [lia..|done| |].
  - apply memory_ok_new; [lia..| |].
    + intros k (n & Hn & ->). rewrite !elem_of_cons, elem_of_nil in Hn.
      destruct Hn as [-> | [-> | [-> | [-> | []]]]];
        (split; [done|eexists; split; [vm_compute; done|by right]]).
    + intros t Ht. assert (t < 3)%nat by exact Ht.
      assert (t = 0 ∨ t = 1 ∨ t = 2)%nat as Et by lia.
      split; [simpl; unfold BuddyChunk.root_ok; simpl; lia|].
      by destruct Et as [-> | [-> | ->]].
  - unfold cs. cbn [safe call_ok]. unfold BuddySpec.ntrees, trees_size, BuddySpec.is_block, BuddySpec.in_block.
    change (2 ^ BuddySpec.bits 14 2) with 65536. split_and!; try lia; try done.
    + intros x Hx Hm. exists (x / 16384). pose proof (Z.div_mod x 16384 ltac:(lia)).
      change (2 ^ 14) with 16384 in Hm. split; [|lia].
      assert (4 ≤ x / 16384 < 8) by (split; [apply Z.div_le_lower_bound|apply Z.div_lt_upper_bound]; lia).
      rewrite !elem_of_cons, elem_of_nil. lia.
    + intros. split_and!; try lia. intros. split_and!; try lia. intros. split_and!; try lia.
Defined.

End BuddyMemory.
