(* ===== verification/RangeBlocks.v ===== *)
(** * snmalloc, backend_helpers/range_helpers.h: cutting a range into blocks

    [range_to_pow_2_blocks] calls a function for naturally aligned blocks of powers of
    two that make up a range of addresses. *)

From stdpp Require Import base list numbers.
From Stdlib Require Import ZArith Lia.
From S2P Require Import Prelude CInt SnBits RbTree RbRun.
Local Open Scope Z_scope.

Module RangeBlocks.
Import CInt SnBits Address RbTree RbRun.

Section Ops.
Context {St : Type} (f : Z → Z → bool → M St unit) (MIN_BITS : Z).

Fixpoint blocks_loop (fuel : nat) (base length : Z) (first : bool) : M St unit :=
  match fuel with
  | O => lift (Err Diverge)
  | S fuel =>
      min_size ← lift (one_at_bit MIN_BITS);
      if length <? min_size then mret tt
      else
        base_align_bits ← lift (ctz base);
        c ← lift (clz length);
        let length_align_bits := to_size (BITS - 1 - c) in
        let align_bits := min base_align_bits length_align_bits in
        align ← lift (one_at_bit align_bits);
        f base align first;;
        base ← lift (pointer_offset base align);
        blocks_loop fuel base (to_size (length - align)) false
  end.

(** The alignment of the base grows by one bit with each turn at least, until it is more
    than the length has; from then on the length loses its highest bit with each turn. *)
Definition blocks_fuel : nat := 130.

Definition range_to_pow_2_blocks (base length : Z) : M St unit :=
  end_ ← lift (pointer_offset base length);
  min_size ← lift (one_at_bit MIN_BITS);
  base ← lift (pointer_align_up base min_size);
  end_ ← lift (pointer_align_down end_ min_size);
  length ← lift (pointer_diff base end_);
  blocks_loop blocks_fuel base length true.
End Ops.

(** ** Termination *)

Definition turns (v L : Z) : Z := if L <? v then L + 1 else 128 - v.

(** The first address of a block and the address after the last one. *)
Definition first_block (MIN base : Z) : Z := (base + 2 ^ MIN - 1) / 2 ^ MIN * 2 ^ MIN.
Definition last_block (MIN base length : Z) : Z := (base + length) / 2 ^ MIN * 2 ^ MIN.

Lemma log2_sub_lt len : 0 < len - 2 ^ Z.log2 len → Z.log2 (len - 2 ^ Z.log2 len) < Z.log2 len.
Proof.
  intros H. assert (0 < len) by (pose proof (Z.pow_nonneg 2 (Z.log2 len)); lia).
  pose proof (Z.log2_spec len ltac:(lia)) as [_ Hu]. rewrite Z.pow_succ_r in Hu by apply Z.log2_nonneg.
  apply Z.log2_lt_pow2; lia.
Qed.

(** The exponent of 2 in a sum. *)
Lemma val_unique v q v' q' : 0 ≤ v → 0 ≤ v' → 2 ^ v * (2 * q + 1) = 2 ^ v' * (2 * q' + 1) → v = v'.
Proof.
  intros Hv Hv' E. destruct (Z.lt_trichotomy v v') as [Hlt|[?|Hlt]]; [|done|]; exfalso.
  - replace v' with (v + 1 + (v' - v - 1)) in E by lia.
    rewrite (Z.pow_add_r 2 (v + 1)), Z.pow_add_r, <- !Z.mul_assoc in E by lia.
    apply Z.mul_reg_l in E; [lia|]. apply Z.pow_nonzero; lia.
  - replace v with (v' + 1 + (v - v' - 1)) in E by lia.
    rewrite (Z.pow_add_r 2 (v' + 1)), Z.pow_add_r, <- !Z.mul_assoc in E by lia.
    apply Z.mul_reg_l in E; [lia|]. apply Z.pow_nonzero; lia.
Qed.

Lemma val_add v q : 0 ≤ v → 0 ≤ q →
  ∀ v' q', 0 ≤ v' → 2 ^ v * (2 * q + 1) + 2 ^ v = 2 ^ v' * (2 * q' + 1) → v + 1 ≤ v'.
Proof.
  intros Hv Hq v' q' Hv' E. apply Z.nlt_ge. intros Hlt.
  replace v with (v' + (v - v')) in E by lia. rewrite Z.pow_add_r in E by lia.
  assert (0 < 2 ^ v') by (apply Z.pow_pos_nonneg; lia).
  assert (2 ^ (v - v') * (2 * q + 2) = 2 * q' + 1) by nia.
  assert (2 * (2 ^ (v - v') * (q + 1)) = 2 * q' + 1) by lia. lia.
Qed.

(** ** The blocks *)

Section Blocks.
Context {St : Type} (f : Z → Z → bool → M St unit) (MIN : Z) (HMIN : 0 ≤ MIN < 64).
Context (lo hi : Z) (I : Z → St → Prop).

(** Every block of the range is cut off with the function [f]. *)
Definition cuts : Prop := ∀ b n first s,
  MIN ≤ n < 64 → b mod 2 ^ n = 0 → lo ≤ b → b + 2 ^ n ≤ hi → I b s →
  wp (f b (2 ^ n) first) s (λ _ s', I (b + 2 ^ n) s').

Lemma wp_blocks_loop fuel v q len first s (Q : unit → St → Prop) :
  let b := 2 ^ v * (2 * q + 1) in
  cuts → 0 ≤ v → 0 ≤ q → 0 ≤ len → b + len = hi → hi < 2 ^ 64 → lo ≤ b →
  b mod 2 ^ MIN = 0 → len mod 2 ^ MIN = 0 →
  (len = 0 ∨ turns v (Z.log2 len) ≤ Z.of_nat fuel - 1) → (0 < fuel)%nat →
  I b s → (∀ s', I hi s' → Q tt s') → wp (blocks_loop f MIN fuel b len first) s Q.
Proof.
  revert v q len first s; induction fuel as [|fuel IH];
    intros v q len first s b Hf Hv Hq Hlen Hb Hhi Hlo Hbm Hlm Ht Hfuel HI HQ; [lia|].
  pose proof (size_pow MIN HMIN) as HP. assert (Hv0 : 0 < 2 ^ v) by (apply Z.pow_pos_nonneg; lia).
  assert (Hb0 : 0 < b) by (unfold b; nia).
  cbn [blocks_loop]. apply wp_bind. eapply wp_lift; [by apply one_at_bit_Ok|].
  destruct (Z.ltb_spec len (2 ^ MIN)) as [Hl|Hl].
  { assert (len = 0) by (rewrite Z.mod_small in Hlm; lia). apply wp_ret, HQ.
    by replace hi with b by lia. }
  destruct Ht as [|Ht]; [lia|].
  destruct (ctz_Ok b Hb0) as (v' & q' & Ec & Hv' & Eb & Hq').
  assert (v' = v) as -> by (symmetry; by eapply val_unique).
  apply wp_bind. eapply wp_lift; [exact Ec|].
  apply wp_bind. eapply wp_lift; [apply clz_Ok; lia|].
  set (L := Z.log2 len) in *.
  pose proof (Z.log2_spec len ltac:(lia)) as [HL1 HL2]. fold L in HL1, HL2.
  rewrite Z.pow_succ_r in HL2 by apply Z.log2_nonneg.
  assert (HL : 0 ≤ L < 64) by (apply log2_size; [lia|unfold is_size, SIZE_MAX; lia]).
  assert (HLM : MIN ≤ L) by (apply Z.log2_le_pow2; lia).
  assert (Hv64 : v < 64).
  { apply (Z.pow_lt_mono_r_iff 2); [lia..|]. assert (2 ^ v ≤ b) by (unfold b; nia). lia. }
  assert (HvM : MIN ≤ v).
  { apply Z.nlt_ge. intros Hlt. apply Z.mod_divide in Hbm as [c Hc]; [|lia]. unfold b in Hc.
    replace MIN with (v + 1 + (MIN - v - 1)) in Hc by lia.
    rewrite (Z.pow_add_r 2 (v + 1)), Z.pow_add_r in Hc by lia.
    assert (2 ^ v * (2 * q + 1) = 2 ^ v * (2 * (c * 2 ^ (MIN - v - 1)))) as E by lia.
    apply Z.mul_reg_l in E; lia. }
  rewrite to_size_id by (unfold is_size, SIZE_MAX, BITS; lia).
  replace (BITS - 1 - (63 - L)) with L by (unfold BITS; lia).
  assert (Hmin : ∃ n, min v L = n ∧ n = Z.min v L) by (unfold min; destruct (Z.ltb_spec v L); eexists; split; [done|lia|done|lia]).
  destruct Hmin as (n & -> & Hn).
  assert (Hnn : MIN ≤ n < 64) by lia.
  assert (Hdiv : ∀ m, MIN ≤ m → (2 ^ MIN | 2 ^ m)).
  { intros m Hm. exists (2 ^ (m - MIN)). rewrite <- Z.pow_add_r by lia. f_equal. lia. }
  pose proof (size_pow n ltac:(lia)) as HPn.
  assert (Hbn : b mod 2 ^ n = 0).
  { apply Z.mod_divide; [lia|]. apply Z.divide_mul_l. exists (2 ^ (v - n)).
    rewrite <- Z.pow_add_r by lia. f_equal. lia. }
  assert (Hnl : 2 ^ n ≤ len).
  { etrans; [|exact HL1]. apply Z.pow_le_mono_r; lia. }
  apply wp_bind. eapply wp_lift; [apply one_at_bit_Ok; lia|].
  apply wp_bind. eapply wp_mono; [apply Hf; try done; lia|]. intros [] s1 HI1. clear HI.
  apply wp_bind. eapply wp_lift; [apply pointer_offset_Ok; lia|].
  rewrite to_size_id by (unfold is_size, SIZE_MAX; lia).
  destruct (ctz_Ok (b + 2 ^ n) ltac:(lia)) as (v2 & q2 & _ & Hv2 & Eb2 & Hq2).
  rewrite Eb2 in HI1 |- *.
  assert (Hsum : (2 ^ MIN | b + 2 ^ n)) by (apply Z.divide_add_r; [by apply Z.mod_divide; [lia|]|by apply Hdiv; lia]).
  assert (Ht' : len - 2 ^ n = 0 ∨ turns v2 (Z.log2 (len - 2 ^ n)) ≤ Z.of_nat fuel - 1).
  { destruct (decide (len - 2 ^ n = 0)) as [|Hne]; [by left|right].
    assert (HL' : Z.log2 (len - 2 ^ n) ≤ L) by (apply Z.log2_le_mono; lia).
    unfold turns in *. destruct (Z.ltb_spec L v) as [HLv|HLv].
    - (* the length decides *)
      assert (n = L) as -> by lia. pose proof (log2_sub_lt len ltac:(fold L; lia)) as Hlt. fold L in Hlt.
      assert (v2 = L) as ->.
      { apply (val_unique v2 q2 L (2 ^ (v - L - 1) * (2 * q + 1))); [lia..|]. rewrite <- Eb2. unfold b.
        replace v with (L + 1 + (v - L - 1)) at 1 by lia. rewrite (Z.pow_add_r 2 (L + 1)), Z.pow_add_r by lia. lia. }
      destruct (Z.ltb_spec (Z.log2 (len - 2 ^ L)) L); lia.
    - (* the alignment of the base decides *)
      assert (n = v) as -> by lia. pose proof (val_add v q Hv Hq v2 q2 Hv2 Eb2).
      destruct (Z.ltb_spec (Z.log2 (len - 2 ^ v)) v2); lia. }
  apply (IH v2 q2 (len - 2 ^ n) false s1); try done; try lia.
  - rewrite <- Eb2. by apply Z.mod_divide; [lia|].
  - apply Z.mod_divide; [lia|]. apply Z.divide_sub_r; [by apply Z.mod_divide; [lia|]|apply Hdiv; lia].
  - assert (1 ≤ turns v L); [|lia]. unfold turns. destruct (L <? v); lia.
Qed.
End Blocks.

Lemma wp_range_to_pow_2_blocks {St} f MIN base length (I : Z → St → Prop) s (Q : unit → St → Prop) :
  let lo := first_block MIN base in let hi := last_block MIN base length in
  0 ≤ MIN < 64 → 0 < base → 0 ≤ length → is_size (base + length) → is_size (base + 2 ^ MIN - 1) →
  lo ≤ hi → cuts f MIN lo hi I → I lo s → (∀ s', I hi s' → Q tt s') →
  wp (range_to_pow_2_blocks f MIN base length) s Q.
Proof.
  intros lo hi HMIN Hb Hlen Hs Hs' Hle Hf HI HQ. pose proof (size_pow MIN HMIN) as HP.
  unfold range_to_pow_2_blocks.
  apply wp_bind. eapply wp_lift; [apply pointer_offset_Ok; unfold is_size, SIZE_MAX in *; lia|].
  apply wp_bind. eapply wp_lift; [by apply one_at_bit_Ok|].
  apply wp_bind. eapply wp_lift; [apply pointer_align_up_pow; [done|lia|lia]|]. fold (first_block MIN base).
  apply wp_bind. eapply wp_lift; [by apply pointer_align_down_pow|]. fold (last_block MIN base length).
  fold lo hi. assert (Hlo0 : 0 < lo).
  { unfold lo, first_block. apply Z.mul_pos_pos; [apply Z.div_str_pos|]; lia. }
  assert (Hhi : hi < 2 ^ 64).
  { unfold hi, last_block. pose proof (Z.mul_div_le (base + length) (2 ^ MIN) ltac:(lia)).
    unfold is_size, SIZE_MAX in Hs. lia. }
  apply wp_bind. eapply wp_lift.
  { unfold pointer_diff. rewrite (proj2 (Z.leb_le lo hi) Hle). cbn [assert_ mbind result_bind].
    rewrite to_size_id; [done|]. unfold is_size, SIZE_MAX. lia. }
  assert (Hlom : lo mod 2 ^ MIN = 0) by (apply Z.mod_mul; lia).
  assert (Hhim : hi mod 2 ^ MIN = 0) by (apply Z.mod_mul; lia).
  destruct (ctz_Ok lo Hlo0) as (v & q & _ & Hv & Elo & Hq).
  assert (v < 64).
  { apply (Z.pow_lt_mono_r_iff 2); [lia..|]. assert (2 ^ v ≤ lo) by (rewrite Elo; nia). lia. }
  rewrite Elo in HI |- *. eapply (wp_blocks_loop f MIN HMIN lo hi I); try done; try lia.
  - by rewrite <- Elo.
  - apply Z.mod_divide; [lia|]. rewrite <- Elo.
    apply Z.divide_sub_r; (apply Z.mod_divide; [lia|done]).
  - destruct (decide (hi - lo = 0)) as [E|]; [left; by rewrite <- Elo|right]. rewrite <- Elo.
    assert (HL : 0 ≤ Z.log2 (hi - lo) < 64) by (apply log2_size; [lia|unfold is_size, SIZE_MAX; lia]).
    unfold turns, blocks_fuel. destruct (Z.ltb_spec (Z.log2 (hi - lo)) v); lia.
  - unfold blocks_fuel. lia.
Qed.

(** ** The property *)

(** The callback that writes down its calls. *)
Definition record (base align : Z) (first : bool) : M (list (Z * Z * bool)) unit :=
  λ l, Ok (tt, l ++ [(base, align, first)]).

(** Blocks that follow each other from [a] to [b], aligned to their sizes, which are
    powers of two from [2 ^ MIN] on. *)
Inductive tiles (MIN a : Z) : list (Z * Z * bool) → Z → Prop :=
| tiles_nil : tiles MIN a [] a
| tiles_snoc l b n first :
    tiles MIN a l b → MIN ≤ n → b mod 2 ^ n = 0 → tiles MIN a (l ++ [(b, 2 ^ n, first)]) (b + 2 ^ n).

(** C36: for a range of addresses that does not wrap around and in which an aligned
    address lies, [range_to_pow_2_blocks] ends and calls its function for blocks of
    powers of two that are aligned to their size and that tile the range from its first
    to its last aligned address. *)
Theorem range_blocks_tile MIN base length :
  0 ≤ MIN < 64 → 0 < base → 0 ≤ length → is_size (base + length) → is_size (base + 2 ^ MIN - 1) →
  first_block MIN base ≤ last_block MIN base length →
  ∃ l, range_to_pow_2_blocks record MIN base length [] = Ok (tt, l) ∧
    tiles MIN (first_block MIN base) l (last_block MIN base length).
Proof.
  intros HM Hb Hl Hs Hs' Hle.
  destruct (wp_run (range_to_pow_2_blocks record MIN base length) []
    (λ _ l, tiles MIN (first_block MIN base) l (last_block MIN base length))) as ([] & l & E & Ht).
  - apply (wp_range_to_pow_2_blocks record MIN base length
      (λ b l, tiles MIN (first_block MIN base) l b)); try done; [|constructor].
    intros b n first l Hn Hbn _ _ Ht. unfold record, wp. apply tiles_snoc; [done|lia|done].
  - by exists l.
Qed.

Lemma range_blocks_tile_witness :
  ∃ l, range_to_pow_2_blocks record 4 100 1000 [] = Ok (tt, l) ∧
    tiles 4 (first_block 4 100) l (last_block 4 100 1000).
Proof.
  apply (range_blocks_tile 4 100 1000); try lia; unfold is_size, SIZE_MAX; try lia; vm_compute; congruence.
Defined.

Example range_blocks_run :
  range_to_pow_2_blocks record 4 100 1000 [] =
    Ok (tt, [(112, 16, true); (128, 128, false); (256, 256, false); (512, 512, false);
             (1024, 64, false)]).
Proof. vm_compute. done. Qed.

End RangeBlocks.
