(* ===== verification/SnRange.v ===== *)
(** * snmalloc, backend_helpers: ranges and their interface

    A range hands out and takes back blocks of memory; each is built on a parent range
    and calls it for what it lacks.  [Range] is the C++ interface, [RangeLaws] is what a
    range promises its child about the memory it holds; a range over a lawful parent is
    lawful.  This file has the interface, [EmptyRange], [PalRange], [LogRange],
    [StatsRange] and [SubRange]; the buddy ranges are in [LargeRange] and [SmallRange]. *)

From stdpp Require Import base list numbers.
From Stdlib Require Import ZArith Lia.
From S2P Require Import Prelude CInt SnBits RbTree RbRun.
Local Open Scope Z_scope.

Module SnRange.
Import CInt SnBits Address RbTree RbRun.

(** [ParentRange] with its state [P].  A range without a [dealloc_range] is only used
    where the code does not call it. *)
Class Range (P : Type) := {
  Aligned : bool;
  alloc_range : Z → M P Z;
  dealloc_range : Z → Z → M P unit;
}.

(** ** Blocks *)

Definition block (n a : Z) : Prop := 0 < a ∧ a mod 2 ^ n = 0 ∧ a + 2 ^ n < 2 ^ 64.
Definition in_pow (n a x : Z) : Prop := a ≤ x < a + 2 ^ n.

(** The memory after a request for [2 ^ n] bytes that was answered with [r]. *)
Definition taken (n : Z) (mem mem' : Z → Prop) (r : Z) : Prop :=
  (r = 0 ∧ ∀ x, mem' x ↔ mem x) ∨
  (block n r ∧ (∀ x, in_pow n r x → mem x) ∧ ∀ x, mem' x ↔ mem x ∧ ¬ in_pow n r x).

(** What a range with aligned blocks promises: it holds memory, a part of the addresses
    [U]; a request takes one block out of it or fails, and a block that is given back is
    held again. *)
Class RangeLaws (P : Type) `{Range P} (U : Z → Prop) := {
  min_bits : Z;
  can_dealloc : bool;
  range_inv : P → (Z → Prop) → Prop;
  aligned_law : Aligned = true;
  range_in p mem x : range_inv p mem → mem x → U x;
  alloc_law p mem n : range_inv p mem → min_bits ≤ n ≤ 63 →
    wp (alloc_range (2 ^ n)) p (λ r p', ∃ mem', range_inv p' mem' ∧ taken n mem mem' r);
  dealloc_law p mem n a : can_dealloc = true → range_inv p mem → min_bits ≤ n ≤ 62 → block n a →
    (∀ x, in_pow n a x → U x ∧ ¬ mem x) →
    wp (dealloc_range a (2 ^ n)) p (λ _ p', ∃ mem', range_inv p' mem' ∧ ∀ x, mem' x ↔ mem x ∨ in_pow n a x);
}.

(** ** EmptyRange *)

Inductive EmptyRange := empty_range.

#[export] Instance EmptyRange_range : Range EmptyRange := {
  Aligned := true;
  alloc_range _ := mret 0;
  dealloc_range _ _ := lift (Err Undefined);
}.

#[export] Program Instance EmptyRange_laws (U : Z → Prop) : RangeLaws EmptyRange U := {
  min_bits := 0;
  can_dealloc := false;
  range_inv _ mem := ∀ x, ¬ mem x;
}.
Next Obligation. done. Qed.
Next Obligation. intros U p mem x Hn Hx. by apply Hn in Hx. Qed.
Next Obligation. intros U p mem n Hn _. apply wp_ret. exists mem. split; [done|]. by left. Qed.
Next Obligation. done. Qed.

(** ** LogRange: the messages are compiled out *)

Record LogRange (P : Type) := mkLog { log_parent : P }.
Arguments mkLog {P} _.
Arguments log_parent {P} _.

Definition on_log {P A} (m : M P A) : M (LogRange P) A :=
  λ s, match m (log_parent s) with Ok (a, p) => Ok (a, mkLog p) | Err e => Err e end.

#[export] Instance LogRange_range `{Range P} : Range (LogRange P) := {
  Aligned := Aligned;
  alloc_range size := on_log (alloc_range size);
  dealloc_range base size := on_log (dealloc_range base size);
}.

(** ** StatsRange: the use and the highest use *)

Record StatsRange (P : Type) := mkStats { current_usage : Z; peak_usage : Z; stats_parent : P }.
Arguments mkStats {P} _ _ _.
Arguments current_usage {P} _.
Arguments peak_usage {P} _.
Arguments stats_parent {P} _.

Definition on_stats {P A} (m : M P A) : M (StatsRange P) A :=
  λ s, match m (stats_parent s) with
       | Ok (a, p) => Ok (a, mkStats (current_usage s) (peak_usage s) p)
       | Err e => Err e
       end.

(** The loop with [compare_exchange_weak] ends with the larger of the two values. *)
Definition count_alloc {P} (size : Z) : M (StatsRange P) unit := λ s,
  let prev := current_usage s in
  let curr := peak_usage s in
  let sum := to_size (prev + size) in
  Ok (tt, mkStats sum (if curr <? sum then sum else curr) (stats_parent s)).
Definition count_dealloc {P} (size : Z) : M (StatsRange P) unit := λ s,
  Ok (tt, mkStats (to_size (current_usage s - size)) (peak_usage s) (stats_parent s)).

#[export] Instance StatsRange_range `{Range P} : Range (StatsRange P) := {
  Aligned := Aligned;
  alloc_range size :=
    result ← on_stats (alloc_range size);
    (if negb (result =? 0) then count_alloc size else mret tt);;
    mret result;
  dealloc_range base size := count_dealloc size;; on_stats (dealloc_range base size);
}.

(** ** PalRange: memory from the operating system *)

(** [reserve] stands for [PAL::reserve] and, with [aligned], [PAL::reserve_aligned]; its
    state is the platform's. *)
Section PalRange.
Context {Pal : Type} (aligned : bool) (minimum_alloc_size : Z) (reserve : Z → M Pal Z).

Definition pal_alloc_range (size : Z) : M Pal Z :=
  b ← lift (next_pow2_bits size);
  if BITS - 1 <=? b then mret 0
  else if aligned then lift (assert_ (minimum_alloc_size <=? size));; reserve size
  else reserve size.

(** There is no [dealloc_range]. *)
Definition PalRange_range : Range Pal := {|
  Aligned := aligned;
  alloc_range := pal_alloc_range;
  dealloc_range _ _ := lift (Err Undefined);
|}.
End PalRange.

(** ** SubRange: a block inside a larger one *)

Section SubRange.
Context {P : Type} `{Range P} (RATIO_BITS : Z) (entropy : nat → Z).

(** The loop asks for another random number, the number [i], until it is neither the
    first nor the last block. *)
Fixpoint pick_offset (fuel : nat) (i : nat) (offset_mask : Z) : M P Z :=
  match fuel with
  | O => lift (Err Diverge)
  | S fuel =>
      let offset := Z.land (entropy i) offset_mask in
      if (offset =? 0) || (offset =? offset_mask) then pick_offset fuel (S i) offset_mask
      else mret offset
  end.

Definition sub_alloc_range (fuel : nat) (sub_size : Z) : M P Z :=
  lift (assert_ (is_pow2 sub_size));;
  full_size ← lift (size_shl sub_size RATIO_BITS);
  overblock ← alloc_range full_size;
  if overblock =? 0 then mret 0
  else
    offset ← pick_offset fuel 0 (to_size (full_size - sub_size));
    lift (pointer_offset overblock offset).
End SubRange.

(** ** Lifting *)

Lemma wp_on_log {P A} (m : M P A) s (Q : A → LogRange P → Prop) :
  wp m (log_parent s) (λ a p, Q a (mkLog p)) → wp (on_log m) s Q.
Proof. unfold wp, on_log. by destruct (m (log_parent s)) as [[a p]|]. Qed.

Lemma wp_on_stats {P A} (m : M P A) s (Q : A → StatsRange P → Prop) :
  wp m (stats_parent s) (λ a p, Q a (mkStats (current_usage s) (peak_usage s) p)) → wp (on_stats m) s Q.
Proof. unfold wp, on_stats. by destruct (m (stats_parent s)) as [[a p]|]. Qed.

#[export] Program Instance LogRange_laws `{Range P} (U : Z → Prop) `{!RangeLaws P U} :
    RangeLaws (LogRange P) U := {
  min_bits := @min_bits P _ U _;
  can_dealloc := @can_dealloc P _ U _;
  range_inv s mem := @range_inv P _ U _ (log_parent s) mem;
}.
Next Obligation. intros P H U HL. exact (@aligned_law P _ U _). Qed.
Next Obligation. intros P H U HL p mem x Hp. by apply (@range_in P _ U _ (log_parent p) mem x). Qed.
Next Obligation.
  intros P H U HL p mem n Hp Hn. apply wp_on_log. eapply wp_mono; [by apply (@alloc_law P _ U _ _ mem n)|]. done.
Qed.
Next Obligation.
  intros P H U HL p mem n a Hc Hp Hn Hb Hm. apply wp_on_log.
  eapply wp_mono; [by apply (@dealloc_law P _ U _ _ mem n a)|]. done.
Qed.

#[export] Program Instance StatsRange_laws `{Range P} (U : Z → Prop) `{!RangeLaws P U} :
    RangeLaws (StatsRange P) U := {
  min_bits := @min_bits P _ U _;
  can_dealloc := @can_dealloc P _ U _;
  range_inv s mem := @range_inv P _ U _ (stats_parent s) mem;
}.
Next Obligation. intros P H U HL. exact (@aligned_law P _ U _). Qed.
Next Obligation. intros P H U HL p mem x Hp. by apply (@range_in P _ U _ (stats_parent p) mem x). Qed.
Next Obligation.
  intros P H U HL p mem n Hp Hn. apply wp_bind, wp_on_stats.
  eapply wp_mono; [by apply (@alloc_law P _ U _ _ mem n)|]. intros r p' Hr. by destruct (r =? 0).
Qed.
Next Obligation.
  intros P H U HL p mem n a Hc Hp Hn Hb Hm. apply wp_bind. unfold count_dealloc, wp at 1.
  apply wp_on_stats. eapply wp_mono; [by apply (@dealloc_law P _ U _ _ mem n a)|]. done.
Qed.

(** The offset is neither the first nor the last block, and the block lies inside. *)
Lemma pick_offset_spec {P} `{Range P} entropy fuel i mask (s : P) o s' :
  pick_offset (P := P) entropy fuel i mask s = Ok (o, s') → s' = s ∧ o ≠ 0 ∧ o ≠ mask ∧ Z.land o mask = o.
Proof.
  revert i; induction fuel as [|fuel IH]; intros i; [done|]. cbn [pick_offset].
  destruct (Z.eqb_spec (Z.land (entropy i) mask) 0); [apply IH|].
  destruct (Z.eqb_spec (Z.land (entropy i) mask) mask); [apply IH|]. cbn [orb].
  intros [= <- <-]. split_and!; try done. by rewrite <- Z.land_assoc, Z.land_diag.
Qed.

End SnRange.
