(* ===== verification/LargeRange.v ===== *)
(** * snmalloc, backend_helpers/largebuddyrange.h: [LargeBuddyRange]

    A range with a buddy allocator of chunks; what the buddy allocator lacks comes from
    the parent range, and blocks of its largest size go back to it.  Over a lawful
    parent with aligned blocks it is lawful. *)

From stdpp Require Import base list numbers.
From Stdlib Require Import ZArith Lia.
From S2P Require Import Prelude CInt SnBits RbTree RbRun Buddy BuddySpec BuddyChunk BuddyMemory RangeBlocks SnRange.
Local Open Scope Z_scope.

Module LargeRange.
Import CInt SnBits Address RbTree RbRun Buddy RangeBlocks SnRange.

Abbreviation MIN_CHUNK_BITS := BuddyChunk.MIN_CHUNK_BITS.
Abbreviation MIN_CHUNK_SIZE := (2 ^ MIN_CHUNK_BITS).
Abbreviation ChunkSt := BuddyChunk.ChunkSt.
#[local] Existing Instances BuddyChunk.BuddyChunkRep BuddyChunk.BuddyChunkLaws
  BuddyChunk.BuddyChunkBuddy BuddyChunk.BuddyChunkBuddyLaws.

Record LargeBuddyRange (P : Type) := mkLarge {
  buddy_large : BSt (St := ChunkSt); requested_total : Z; parent : P;
}.
Arguments mkLarge {P} _ _ _.
Arguments buddy_large {P} _.
Arguments requested_total {P} _.
Arguments parent {P} _.

Section Ops.
Context {P : Type} `{Range P} (run_checks : bool).
Context (REFILL_SIZE_BITS MAX_SIZE_BITS MIN_REFILL_SIZE_BITS : Z).

Abbreviation LM := (M (LargeBuddyRange P)).

Definition on_buddy {A} (m : M BSt A) : LM A := λ s,
  match m (buddy_large s) with
  | Ok (a, b) => Ok (a, mkLarge b (requested_total s) (parent s))
  | Err e => Err e
  end.
Definition on_parent {A} (m : M P A) : LM A := λ s,
  match m (parent s) with
  | Ok (a, p) => Ok (a, mkLarge (buddy_large s) (requested_total s) p)
  | Err e => Err e
  end.
Definition get_requested : LM Z := λ s, Ok (requested_total s, s).
Definition set_requested (z : Z) : LM unit := λ s, Ok (tt, mkLarge (buddy_large s) z (parent s)).

Definition dealloc_overflow (overflow : Z) : LM unit :=
  if negb (MAX_SIZE_BITS =? BITS - 1) then
    if negb (overflow =? 0) then
      top ← lift (one_at_bit MAX_SIZE_BITS); on_parent (dealloc_range overflow top)
    else mret tt
  else if negb (overflow =? 0) then lift (Err AssertFail) else mret tt.

Definition add_one (base align : Z) : LM unit :=
  overflow ← on_buddy (add_block run_checks MIN_CHUNK_BITS MAX_SIZE_BITS buddy_fuel base align);
  dealloc_overflow overflow.

Definition add_range (base length : Z) : LM unit :=
  range_to_pow_2_blocks (λ base align _, add_one base align) MIN_CHUNK_BITS base length.

(** The loop of [refill] for a parent without alignment; [again] is [alloc_range]. *)
Fixpoint refill_loop (again : Z → LM Z) (fuel : nat) (size needed_size refill_size : Z) : LM Z :=
  match fuel with
  | O => lift (Err Diverge)
  | S fuel =>
      if needed_size <=? refill_size then
        refill ← on_parent (alloc_range refill_size);
        if negb (refill =? 0) then
          total ← get_requested;
          set_requested (to_size (total + refill_size));;
          add_range refill refill_size;;
          top ← lift (one_at_bit MAX_SIZE_BITS);
          lift (assert_ (refill_size <? top));;
          again size
        else refill_loop again fuel size needed_size (Z.shiftr refill_size 1)
      else mret 0
  end.

Definition refill (again : Z → LM Z) (size : Z) : LM Z :=
  REFILL_SIZE ← lift (one_at_bit REFILL_SIZE_BITS);
  MIN_REFILL_SIZE ← lift (one_at_bit MIN_REFILL_SIZE_BITS);
  if (Aligned : bool) then
    total ← get_requested;
    let refill_size := min REFILL_SIZE total in
    let refill_size := max refill_size MIN_REFILL_SIZE in
    let refill_size := max refill_size size in
    refill_size ← lift (next_pow2 refill_size);
    refill_range ← on_parent (alloc_range refill_size);
    (if negb (refill_range =? 0) then
       total ← get_requested;
       set_requested (to_size (total + refill_size));;
       rest ← lift (pointer_offset refill_range size);
       add_range rest (to_size (refill_size - size))
     else mret tt);;
    mret refill_range
  else
    let '(needed_size, overflow) := umul size 2 in
    if (overflow : bool) then mret 0
    else refill_loop again 65 size needed_size (max needed_size REFILL_SIZE).

(** The calls of [alloc_range] by [refill] are at most as deep as [fuel]. *)
Fixpoint large_alloc (fuel : nat) (size : Z) : LM Z :=
  match fuel with
  | O => lift (Err Diverge)
  | S fuel =>
      lift (assert_ (MIN_CHUNK_SIZE <=? size));;
      lift (assert_ (is_pow2 size));;
      top ← lift (one_at_bit MAX_SIZE_BITS);
      if top - 1 <=? size then
        if (Aligned : bool) then on_parent (alloc_range size) else mret 0
      else
        result ← on_buddy (remove_block run_checks MIN_CHUNK_BITS MAX_SIZE_BITS buddy_fuel size);
        if negb (result =? 0) then mret result
        else refill (large_alloc fuel) size
  end.

Definition large_dealloc (base size : Z) : LM unit :=
  lift (assert_ (MIN_CHUNK_SIZE <=? size));;
  lift (assert_ (is_pow2 size));;
  top ← lift (one_at_bit MAX_SIZE_BITS);
  if negb (MAX_SIZE_BITS =? BITS - 1) && (top - 1 <=? size) then on_parent (dealloc_range base size)
  else add_one base size.

#[export] Instance LargeBuddyRange_range : Range (LargeBuddyRange P) := {
  Aligned := true;
  alloc_range := large_alloc 3;
  dealloc_range := large_dealloc;
}.

Lemma wp_on_buddy {A} (m : M BSt A) s (Q : A → LargeBuddyRange P → Prop) :
  wp m (buddy_large s) (λ a b, Q a (mkLarge b (requested_total s) (parent s))) → wp (on_buddy m) s Q.
Proof. unfold wp, on_buddy. by destruct (m (buddy_large s)) as [[a b]|]. Qed.
Lemma wp_on_parent {A} (m : M P A) s (Q : A → LargeBuddyRange P → Prop) :
  wp m (parent s) (λ a p, Q a (mkLarge (buddy_large s) (requested_total s) p)) → wp (on_parent m) s Q.
Proof. unfold wp, on_parent. by destruct (m (parent s)) as [[a p]|]. Qed.
Lemma wp_get_requested s (Q : Z → LargeBuddyRange P → Prop) : Q (requested_total s) s → wp get_requested s Q.
Proof. done. Qed.
Lemma wp_set_requested z s (Q : unit → LargeBuddyRange P → Prop) :
  Q tt (mkLarge (buddy_large s) z (parent s)) → wp (set_requested z) s Q.
Proof. done. Qed.
End Ops.

(** ** The range is lawful *)

Section Laws.
Context {P : Type} `{Range P} (U : Z → Prop) `{!RangeLaws P U}.
Context (C : Z → Z → bool) (run_checks : bool) (REFILL MAX MIN_REFILL : Z).
(** The static assertions of the class, and that the parent has what it is asked for. *)
Context (HMAX : MIN_CHUNK_BITS < MAX ≤ 63) (HR : 0 ≤ MIN_REFILL ≤ REFILL) (HRM : REFILL ≤ MAX).
Context (Hmin : @min_bits P _ U _ ≤ MIN_CHUNK_BITS) (Hde : MAX = 63 ∨ @can_dealloc P _ U _ = true).

Abbreviation LS := (LargeBuddyRange P).

(** The chunks of the memory have entries in the pagemap. *)
Definition chunk_nodes (k : Z) : Prop := U k ∧ k mod 2 ^ MIN_CHUNK_BITS = 0.

(** The memory of the range is that of its buddy allocator and that of its parent. *)
Definition large_inv (s : LS) (mem : Z → Prop) : Prop :=
  ∃ bm pm, BuddyMemory.memory_ok chunk_nodes C MIN_CHUNK_BITS MAX (buddy_large s) bm ∧
    @range_inv P _ U _ (parent s) pm ∧ 0 ≤ requested_total s ∧
    (∀ x, bm x → U x ∧ ¬ pm x) ∧ ∀ x, mem x ↔ bm x ∨ pm x.

Lemma large_inv_ext s mem mem' : large_inv s mem → (∀ x, mem' x ↔ mem x) → large_inv s mem'.
Proof.
  intros (bm & pm & Hb & Hp & Hr & Hd & Hm) He. exists bm, pm. split_and!; [done..|].
  intros x. by rewrite He.
Qed.

(** The sizes of the trees. *)
Lemma tree_of n : MIN_CHUNK_BITS ≤ n < MAX →
  ∃ i, (i < BuddySpec.ntrees MIN_CHUNK_BITS MAX)%nat ∧ BuddySpec.bits MIN_CHUNK_BITS i = n.
Proof.
  intros Hn. exists (Z.to_nat (n - MIN_CHUNK_BITS)).
  unfold BuddySpec.ntrees, trees_size, BuddySpec.bits. lia.
Qed.

Lemma memory_bound st bm x :
  BuddyMemory.memory_ok chunk_nodes C MIN_CHUNK_BITS MAX st bm → bm x → x < 2 ^ 64 - 1.
Proof.
  intros (T & Hinv & _ & Hm) Hx. apply Hm in Hx as (i & a & Hi & Ha & Hx).
  pose proof (BuddySpec.bi_block _ _ _ _ _ _ _ Hinv i a Hi Ha) as (_ & _ & Hlt).
  unfold BuddySpec.in_block in Hx. lia.
Qed.

Lemma wp_dealloc_overflow r b t p bm pm (Q : unit → LS → Prop) :
  r = 0 ∨ (0 < r ∧ r mod 2 ^ MAX = 0 ∧ (∀ x, in_pow MAX r x → x < 2 ^ 64 - 1 ∧ U x ∧ ¬ pm x)) →
  BuddyMemory.memory_ok chunk_nodes C MIN_CHUNK_BITS MAX b bm → @range_inv P _ U _ p pm → 0 ≤ t →
  (∀ x, bm x → U x ∧ ¬ pm x ∧ (r ≠ 0 → ¬ in_pow MAX r x)) →
  (∀ s', large_inv s' (λ x, bm x ∨ pm x ∨ r ≠ 0 ∧ in_pow MAX r x) → Q tt s') →
  wp (dealloc_overflow MAX r) (mkLarge b t p) Q.
Proof.
  intros Hr Hb Hp Ht Hd HQ. unfold dealloc_overflow. change (BITS - 1) with 63.
  destruct Hr as [->|(Hr0 & Hrm & Hrx)].
  { assert (HQ' : Q tt (mkLarge b t p)).
    { apply HQ. exists bm, pm. split_and!; [done..|naive_solver|naive_solver]. }
    by destruct (MAX =? 63). }
  pose proof (Z.pow_pos_nonneg 2 MAX ltac:(lia) ltac:(lia)) as HPM.
  assert (Hne : (r =? 0) = false) by (apply Z.eqb_neq; lia). rewrite Hne. cbn [negb].
  destruct (Hrx (r + 2 ^ MAX - 1)) as (Hlt & _ & _); [unfold in_pow; lia|].
  destruct (Z.eqb_spec MAX 63) as [E|E]; cbn [negb].
  - exfalso. rewrite E in *. apply Z.mod_divide in Hrm as [c ->]; [|lia]. nia.
  - destruct Hde as [|Hde']; [lia|].
    apply wp_bind. eapply wp_lift; [apply one_at_bit_Ok; lia|]. apply wp_on_parent.
    eapply wp_mono; [apply (@dealloc_law P _ U _ p pm MAX r Hde' Hp)|].
    { lia. } { split_and!; [done|done|lia]. } { intros x Hx. by apply Hrx. }
    intros [] p' (pm' & Hp' & Hm'). apply HQ. exists bm, pm'. split_and!; [done|done|done| |].
    + intros x Hx. destruct (Hd x Hx) as (HU & Hn & Hnr). split; [done|]. rewrite Hm'.
      intros [?|?]; [done|]. apply Hnr; [lia|done].
    + intros x. rewrite Hm'. assert (r ≠ 0) by lia. tauto.
Qed.

(** One block is added. *)
Lemma wp_add_one n a s mem (Q : unit → LS → Prop) :
  large_inv s mem → MIN_CHUNK_BITS ≤ n < MAX → block n a → (∀ x, in_pow n a x → U x ∧ ¬ mem x) →
  (∀ s', large_inv s' (λ x, mem x ∨ in_pow n a x) → Q tt s') →
  wp (add_one run_checks MAX a (2 ^ n)) s Q.
Proof.
  intros (bm & pm & Hb & Hp & Ht & Hd & Hm) Hn Hblk Hx HQ.
  destruct (tree_of n Hn) as (i & Hi & Hbits). unfold add_one. apply wp_bind, wp_on_buddy.
  rewrite <- Hbits.
  eapply wp_mono; [apply (BuddyMemory.add_block_ok chunk_nodes C run_checks MIN_CHUNK_BITS MAX
    ltac:(done) ltac:(lia) ltac:(lia) ltac:(simpl; lia) i a _ bm Hb Hi)|].
  { unfold BuddySpec.is_block. by rewrite Hbits. }
  { intros x. unfold BuddySpec.in_block. rewrite Hbits. intros Hxa Hbx.
    destruct (Hx x Hxa) as [_ Hnm]. apply Hnm, Hm. by left. }
  { intros x. unfold BuddySpec.in_block. rewrite Hbits. intros Hxa Hxm. split; [by apply Hx|done]. }
  intros r b' (bm' & Hb' & Hadd). unfold BuddyMemory.add_result, BuddySpec.in_block in Hadd.
  rewrite Hbits in Hadd. fold (in_pow n a) in Hadd.
  assert (Hin : ∀ x, bm x ∨ a ≤ x < a + 2 ^ n → x < 2 ^ 64 - 1 ∧ U x ∧ ¬ pm x).
  { intros x [Hbx|Hxa].
    - split; [exact (memory_bound _ _ _ Hb Hbx)|by apply Hd].
    - destruct (Hx x Hxa) as [HU Hnm]. destruct Hblk as (_ & _ & Hlt). split; [lia|].
      split; [done|]. intros Hpx. apply Hnm, Hm. by right. }
  destruct Hadd as [[-> Hbm']|(Hr0 & Hrm & Hrt & Hbm')].
  - eapply (wp_dealloc_overflow 0 b' _ _ bm' pm); [by left|done|done|done| |].
    { intros x Hbx. apply Hbm', Hin in Hbx as (_ & ? & ?). split_and!; [done..|by intros ?]. }
    intros s' Hs'. apply HQ. eapply large_inv_ext; [done|]. intros x. cbn beta.
    rewrite Hm, Hbm'. unfold in_pow. naive_solver.
  - unfold BuddySpec.in_top in *. fold (in_pow MAX r) in *.
    eapply (wp_dealloc_overflow r b' _ _ bm' pm); [|done|done|done| |].
    { right. split_and!; [done|done|]. intros x Hxr. by apply Hin, Hrt. }
    { intros x Hbx. apply Hbm' in Hbx as [Hbx Hnr]. apply Hin in Hbx as (_ & ? & ?). by split_and!. }
    intros s' Hs'. apply HQ. eapply large_inv_ext; [done|]. intros x. cbn beta.
    rewrite Hm, Hbm'. assert (r ≠ 0) by lia. unfold in_pow in *.
    specialize (Hrt x). set (top := r ≤ x < r + 2 ^ MAX) in *. set (blk := a ≤ x < a + 2 ^ n) in *.
    assert (top ∨ ¬ top) as [|] by (unfold top; lia); clearbody top blk; tauto.
Qed.

(** The aligned part of a range is added. *)
Lemma wp_add_range base length s mem (Q : unit → LS → Prop) :
  let lo := first_block MIN_CHUNK_BITS base in let hi := last_block MIN_CHUNK_BITS base length in
  large_inv s mem → 0 < base → 0 ≤ length → is_size (base + length) →
  is_size (base + 2 ^ MIN_CHUNK_BITS - 1) → lo ≤ hi → hi - lo < 2 ^ MAX →
  (∀ x, lo ≤ x < hi → U x ∧ ¬ mem x) →
  (∀ s', large_inv s' (λ x, mem x ∨ lo ≤ x < hi) → Q tt s') →
  wp (add_range run_checks MAX base length) s Q.
Proof.
  intros lo hi Hinv Hb Hl Hs Hs' Hle Hlt Hx HQ. unfold add_range.
  assert (H14 : 0 ≤ MIN_CHUNK_BITS < 64) by done.
  apply (wp_range_to_pow_2_blocks _ MIN_CHUNK_BITS base length
    (λ b s', lo ≤ b ≤ hi ∧ large_inv s' (λ x, mem x ∨ lo ≤ x < b))); try done; [| |].
  - fold lo hi. intros b n first s1 Hn Hbn Hlo Hhi [_ Hinv1].
    assert (Hn' : n < MAX) by (apply (Z.pow_lt_mono_r_iff 2); lia).
    assert (Hlob : 0 < lo).
    { unfold lo, first_block. pose proof (size_pow MIN_CHUNK_BITS H14).
      apply Z.mul_pos_pos; [apply Z.div_str_pos|]; lia. }
    assert (hi ≤ base + length).
    { unfold hi, last_block. rewrite Z.mul_comm. apply Z.mul_div_le. by apply Z.pow_pos_nonneg. }
    pose proof (Z.pow_pos_nonneg 2 n ltac:(lia) ltac:(lia)).
    eapply (wp_add_one n b s1); [exact Hinv1|lia| | |].
    + split_and!; [lia|done|]. unfold is_size, SIZE_MAX in Hs. lia.
    + intros x Hxb. unfold in_pow in Hxb. destruct (Hx x) as [HU Hnm]; [lia|].
      split; [done|]. intros [?|?]; [done|lia].
    + intros s2 Hs2. split; [lia|]. eapply large_inv_ext; [exact Hs2|]. intros x. cbn beta.
      unfold in_pow. assert (lo ≤ x < b + 2 ^ n ↔ lo ≤ x < b ∨ b ≤ x < b + 2 ^ n) by lia. tauto.
  - fold lo. split; [lia|]. eapply large_inv_ext; [done|]. intros x. cbn beta.
    split; [intros [?|?]; [done|lia]|by left].
  - fold hi. intros s' [_ Hs2]. by apply HQ.
Qed.

(** ** Requests *)

Lemma min_le a b : min a b ≤ a.
Proof. unfold min. destruct (Z.ltb_spec a b); lia. Qed.
Lemma max_cases a b : max a b = Z.max a b.
Proof. unfold max. destruct (Z.ltb_spec b a); lia. Qed.

(** The size that [refill] asks the parent for. *)
Lemma refill_size_ok n total :
  MIN_CHUNK_BITS ≤ n < MAX → 0 ≤ total →
  ∃ m, n ≤ m ≤ MAX ∧
    next_pow2 (max (max (min (2 ^ REFILL) total) (2 ^ MIN_REFILL)) (2 ^ n)) = Ok (2 ^ m).
Proof.
  intros Hn Ht. rewrite !max_cases. unfold BuddyChunk.MIN_CHUNK_BITS in *.
  set (v := Z.max (Z.max (min (2 ^ REFILL) total) (2 ^ MIN_REFILL)) (2 ^ n)).
  pose proof (min_le (2 ^ REFILL) total) as Hle.
  assert (2 ^ REFILL ≤ 2 ^ MAX ∧ 2 ^ MIN_REFILL ≤ 2 ^ MAX ∧ 2 ^ n ≤ 2 ^ MAX ∧ 2 ^ MAX ≤ 2 ^ 63) as (? & ? & ? & ?)
    by (split_and!; apply Z.pow_le_mono_r; lia).
  pose proof (Z.pow_pos_nonneg 2 n ltac:(lia) ltac:(lia)).
  assert (Hv : 2 ^ n ≤ v ≤ 2 ^ MAX) by (unfold v; lia).
  exists (ceil_log2 v). rewrite next_pow2_Ok by lia. split; [|done]. split.
  - apply (Z.pow_le_mono_r_iff 2); [lia|apply ceil_log2_nonneg|].
    pose proof (ceil_log2_le v ltac:(lia)). lia.
  - apply ceil_log2_spec; lia.
Qed.

Lemma pow_divide n m : 0 ≤ n ≤ m → (2 ^ n | 2 ^ m).
Proof. intros Hn. exists (2 ^ (m - n)). rewrite <- Z.pow_add_r by lia. f_equal. lia. Qed.

(** An aligned range is cut from its first to its last address. *)
Lemma blocks_aligned MIN a len :
  0 ≤ MIN → a mod 2 ^ MIN = 0 → (a + len) mod 2 ^ MIN = 0 →
  first_block MIN a = a ∧ last_block MIN a len = a + len.
Proof.
  intros HM Ha Hl. pose proof (Z.pow_pos_nonneg 2 MIN ltac:(lia) HM) as Hp.
  unfold first_block, last_block. split.
  - apply Z.mod_divide in Ha as [c ->]; [|lia].
    replace (c * 2 ^ MIN + 2 ^ MIN - 1) with ((2 ^ MIN - 1) + c * 2 ^ MIN) by lia.
    rewrite Z.div_add, Z.div_small by lia. lia.
  - pose proof (Z.div_mod (a + len) (2 ^ MIN) ltac:(lia)). lia.
Qed.

(** [refill] takes a block from the parent and keeps what was not asked for. *)
Lemma wp_refill again n s mem (Q : Z → LS → Prop) :
  large_inv s mem → MIN_CHUNK_BITS ≤ n < MAX →
  (∀ r s' mem', large_inv s' mem' → taken n mem mem' r → Q r s') →
  wp (refill run_checks REFILL MAX MIN_REFILL again (2 ^ n)) s Q.
Proof.
  intros (bm & pm & Hb & Hp & Ht & Hd & Hm) Hn HQ. unfold refill.
  unfold BuddyChunk.MIN_CHUNK_BITS in Hn.
  apply wp_bind. eapply wp_lift; [apply one_at_bit_Ok; lia|].
  apply wp_bind. eapply wp_lift; [apply one_at_bit_Ok; lia|].
  rewrite (@aligned_law P _ U _). apply wp_bind, wp_get_requested.
  destruct (refill_size_ok n (requested_total s) Hn Ht) as (m & Hmn & Hnp).
  apply wp_bind. eapply wp_lift; [exact Hnp|]. apply wp_bind, wp_on_parent.
  eapply wp_mono; [apply (@alloc_law P _ U _ _ pm m Hp); unfold BuddyChunk.MIN_CHUNK_BITS in Hmin; lia|].
  intros r p' (pm' & Hp' & Hr). destruct Hr as [[-> Hpm]|(Hblk & Hrp & Hpm)].
  { cbn [Z.eqb negb]. apply wp_bind, wp_ret, wp_ret. apply (HQ 0 _ mem).
    - exists bm, pm'. split_and!; [done|done|done| |].
      + intros x. rewrite Hpm. apply Hd.
      + intros x. by rewrite Hpm.
    - by left. }
  pose proof Hblk as (Hr0 & Hrm & Hrt).
  pose proof (Z.pow_pos_nonneg 2 n ltac:(lia) ltac:(lia)) as HPn.
  assert (Hnm : 2 ^ n ≤ 2 ^ m) by (apply Z.pow_le_mono_r; lia).
  assert (Hdiv : ∀ k j, 0 ≤ k ≤ j → j ≤ m → (r + 2 ^ j) mod 2 ^ k = 0).
  { intros k j Hk Hj. apply Z.mod_divide; [apply Z.pow_nonzero; lia|].
    apply Z.divide_add_r; [|by apply pow_divide].
    eapply Z.divide_trans; [apply (pow_divide k m); lia|].
    by apply Z.mod_divide; [apply Z.pow_nonzero; lia|]. }
  assert ((r =? 0) = false) as -> by (apply Z.eqb_neq; lia). cbn [negb].
  apply wp_bind, wp_bind, wp_get_requested. apply wp_bind, wp_set_requested.
  apply wp_bind. eapply wp_lift; [apply pointer_offset_Ok; lia|].
  pose proof (size_pow n ltac:(lia)). pose proof (size_pow m ltac:(lia)).
  rewrite (to_size_id (2 ^ m - 2 ^ n)) by (unfold is_size, SIZE_MAX; lia).
  destruct (blocks_aligned 14 (r + 2 ^ n) (2 ^ m - 2 ^ n)) as [Ef El]; [done|apply Hdiv; lia| |].
  { replace (r + 2 ^ n + (2 ^ m - 2 ^ n)) with (r + 2 ^ m) by lia. apply Hdiv; lia. }
  replace (r + 2 ^ n + (2 ^ m - 2 ^ n)) with (r + 2 ^ m) in El by lia.
  set (mem1 := λ x, bm x ∨ pm' x).
  eapply (wp_add_range (r + 2 ^ n) (2 ^ m - 2 ^ n) _ mem1);
    unfold BuddyChunk.MIN_CHUNK_BITS; rewrite ?Ef, ?El; try lia.
  - exists bm, pm'. split_and!; [done|done| | |done]; cbn [requested_total].
    + unfold to_size. apply Z.mod_pos_bound. lia.
    + intros x Hx. destruct (Hd x Hx) as [HU Hn']. split; [done|]. rewrite Hpm. tauto.
  - unfold is_size, SIZE_MAX. lia.
  - assert (Hal : (r + 2 ^ n) mod 2 ^ 14 = 0) by (apply Hdiv; lia).
    apply Z.mod_divide in Hal as [c Hc]; [|done]. unfold is_size, SIZE_MAX. lia.
  - assert (2 ^ m ≤ 2 ^ MAX) by (apply Z.pow_le_mono_r; lia). lia.
  - intros x Hx. assert (Hpx : pm x) by (apply Hrp; unfold in_pow; lia).
    split; [by eapply (@range_in P _ U _ _ pm)|]. unfold mem1. intros [Hbx|Hpx'].
    + by destruct (Hd x Hbx).
    + apply Hpm in Hpx' as [_ Hnr]. apply Hnr. unfold in_pow. lia.
  - intros s' Hs'. apply wp_ret. apply (HQ r s' _ Hs'). right.
    assert (Hsub : ∀ x, in_pow n r x → in_pow m r x) by (unfold in_pow; lia).
    split; [|split].
    + split_and!; [done| |lia]. apply Z.mod_divide; [lia|].
      eapply Z.divide_trans; [apply (pow_divide n m); lia|]. by apply Z.mod_divide; [lia|].
    + intros x Hx. apply Hm. right. by apply Hrp, Hsub.
    + intros x. unfold mem1. rewrite Hm, Hpm. unfold in_pow in *.
      specialize (Hrp x). specialize (Hd x). specialize (Hsub x).
      assert (r ≤ x < r + 2 ^ m ↔ r ≤ x < r + 2 ^ n ∨ r + 2 ^ n ≤ x < r + 2 ^ m) as Hsplit by lia.
      assert (¬ (r ≤ x < r + 2 ^ n ∧ r + 2 ^ n ≤ x < r + 2 ^ m)) as Hsep by lia.
      set (A := r ≤ x < r + 2 ^ m) in *. set (B := r ≤ x < r + 2 ^ n) in *.
      set (D := r + 2 ^ n ≤ x < r + 2 ^ m) in *.
      assert (A ∨ ¬ A) as HA by (unfold A; lia). clearbody A B D. tauto.
Qed.

Lemma wp_large_alloc n s mem :
  large_inv s mem → MIN_CHUNK_BITS ≤ n ≤ 63 →
  wp (large_alloc run_checks REFILL MAX MIN_REFILL 3 (2 ^ n)) s
    (λ r s', ∃ mem', large_inv s' mem' ∧ taken n mem mem' r).
Proof.
  intros Hinv Hn. unfold BuddyChunk.MIN_CHUNK_BITS in *. cbn [large_alloc].
  pose proof (size_pow n ltac:(lia)). pose proof (size_pow MAX ltac:(lia)).
  assert (2 ^ 14 ≤ 2 ^ n) by (apply Z.pow_le_mono_r; lia).
  apply wp_bind, wp_assert; [apply Z.leb_le; done|].
  apply wp_bind, wp_assert; [apply is_pow2_pow; lia|].
  apply wp_bind. eapply wp_lift; [apply one_at_bit_Ok; lia|].
  destruct Hinv as (bm & pm & Hb & Hp & Ht & Hd & Hm).
  destruct (Z.leb_spec (2 ^ MAX - 1) (2 ^ n)) as [Hbig|Hsmall].
  { (* the parent has blocks of this size *)
    rewrite (@aligned_law P _ U _). apply wp_on_parent.
    eapply wp_mono; [apply (@alloc_law P _ U _ _ pm n Hp); lia|].
    intros r p' (pm' & Hp' & Hr). exists (λ x, bm x ∨ pm' x). split.
    - exists bm, pm'. split_and!; [done|done|done| |done]. intros x Hx. destruct (Hd x Hx) as [HU Hn'].
      split; [done|]. destruct Hr as [[_ Hr]|(_ & _ & Hr)]; rewrite Hr; tauto.
    - destruct Hr as [[-> Hr]|(Hblk & Hrp & Hr)]; [left|right].
      + split; [done|]. intros x. by rewrite Hr, Hm.
      + split; [done|]. split; [intros x Hx; apply Hm; right; by apply Hrp|].
        intros x. rewrite Hr, Hm. specialize (Hd x). specialize (Hrp x). tauto. }
  assert (HnM : n < MAX) by (apply (Z.pow_lt_mono_r_iff 2); lia).
  destruct (tree_of n) as (i & Hi & Hbits); [unfold BuddyChunk.MIN_CHUNK_BITS; lia|].
  apply wp_bind, wp_on_buddy. rewrite <- Hbits at 1.
  eapply wp_mono; [apply (BuddyMemory.remove_block_ok chunk_nodes C run_checks BuddyChunk.MIN_CHUNK_BITS MAX
    ltac:(done) ltac:(unfold BuddyChunk.MIN_CHUNK_BITS; lia) ltac:(lia) ltac:(simpl; lia) i _ bm Hb Hi)|].
  intros r b' (bm' & Hb' & Hr). unfold BuddyMemory.take_result, BuddySpec.is_block, BuddySpec.in_block in Hr.
  rewrite Hbits in Hr. destruct Hr as [(-> & Hbm & _)|(Hblk & Hrb & Hbm)].
  - cbn [Z.eqb negb]. eapply (wp_refill _ n _ mem); [|unfold BuddyChunk.MIN_CHUNK_BITS; lia|by eauto].
    exists bm', pm. split_and!; [done|done|done| |]; cbn [parent].
    + intros x. rewrite Hbm. apply Hd.
    + intros x. by rewrite Hbm.
  - destruct Hblk as (Hr0 & Hblk). assert ((r =? 0) = false) as -> by (apply Z.eqb_neq; lia).
    cbn [negb]. apply wp_ret. exists (λ x, bm' x ∨ pm x). split.
    + exists bm', pm. split_and!; [done|done|done| |done]. intros x Hx. apply Hbm in Hx as [Hx _]. by apply Hd.
    + right. split; [done|]. split; [intros x Hx; apply Hm; left; by apply Hrb|].
      intros x. rewrite Hbm, Hm. specialize (Hd x). specialize (Hrb x). unfold in_pow. tauto.
Qed.

Lemma wp_large_dealloc n a s mem :
  large_inv s mem → MIN_CHUNK_BITS ≤ n ≤ 62 → block n a → (∀ x, in_pow n a x → U x ∧ ¬ mem x) →
  wp (large_dealloc run_checks MAX a (2 ^ n)) s
    (λ _ s', ∃ mem', large_inv s' mem' ∧ ∀ x, mem' x ↔ mem x ∨ in_pow n a x).
Proof.
  intros Hinv Hn Hblk Hx. unfold large_dealloc, BuddyChunk.MIN_CHUNK_BITS in *.
  pose proof (size_pow n ltac:(lia)). pose proof (size_pow MAX ltac:(lia)).
  assert (2 ^ 14 ≤ 2 ^ n) by (apply Z.pow_le_mono_r; lia).
  apply wp_bind, wp_assert; [apply Z.leb_le; done|].
  apply wp_bind, wp_assert; [apply is_pow2_pow; lia|].
  apply wp_bind. eapply wp_lift; [apply one_at_bit_Ok; lia|]. change (BITS - 1) with 63.
  assert (Hone : n < MAX → wp (add_one run_checks MAX a (2 ^ n)) s
    (λ _ s', ∃ mem', large_inv s' mem' ∧ ∀ x, mem' x ↔ mem x ∨ in_pow n a x)).
  { intros HnM. eapply (wp_add_one n a s mem); [done|unfold BuddyChunk.MIN_CHUNK_BITS; lia|done|done|].
    intros s' Hs'. by eexists. }
  destruct (Z.eqb_spec MAX 63) as [E|E]; cbn [negb andb]; [apply Hone; lia|].
  destruct (Z.leb_spec (2 ^ MAX - 1) (2 ^ n)) as [Hbig|Hsmall].
  2:{ apply Hone. apply (Z.pow_lt_mono_r_iff 2); lia. }
  destruct Hde as [|Hde']; [done|]. apply wp_on_parent.
  destruct Hinv as (bm & pm & Hb & Hp & Ht & Hd & Hm).
  eapply wp_mono; [apply (@dealloc_law P _ U _ _ pm n a Hde' Hp); [lia|done|]|].
  { intros x Hxa. destruct (Hx x Hxa) as [HU Hnm]. split; [done|]. intros Hpx. apply Hnm, Hm. by right. }
  intros [] p' (pm' & Hp' & Hpm). exists (λ x, bm x ∨ pm' x). split.
  - exists bm, pm'. split_and!; [done|done|done| |done]. intros x Hbx. destruct (Hd x Hbx) as [HU Hn'].
    split; [done|]. rewrite Hpm. intros [?|Hxa]; [done|]. destruct (Hx x Hxa) as [_ Hnm].
    apply Hnm, Hm. by left.
  - intros x. rewrite Hpm, Hm. tauto.
Qed.

#[export] Program Instance LargeBuddyRange_laws :
    @RangeLaws (LargeBuddyRange P) (LargeBuddyRange_range run_checks REFILL MAX MIN_REFILL) U := {
  min_bits := BuddyChunk.MIN_CHUNK_BITS;
  can_dealloc := true;
  range_inv := large_inv;
}.
Next Obligation. done. Qed.
Next Obligation.
  intros s mem x (bm & pm & _ & Hp & _ & Hd & Hm) Hx. apply Hm in Hx as [Hx|Hx]; [by apply Hd|].
  by eapply (@range_in P _ U _ _ pm).
Qed.
Next Obligation. intros s mem n Hs Hn. by apply wp_large_alloc. Qed.
Next Obligation. intros s mem n a _ Hs Hn Hb Hx. by apply wp_large_dealloc. Qed.

End Laws.

End LargeRange.
