(* ===== verification/SmallRange.v ===== *)
(** * snmalloc, backend_helpers/smallbuddyrange.h: [SmallBuddyRange]

    A range with a buddy allocator of blocks smaller than a chunk, whose nodes are in
    the free blocks themselves; chunks come from the parent and go back to it.  Over a
    lawful parent it is lawful, and what the program writes into its own memory does not
    disturb it. *)

From stdpp Require Import base list numbers gmap.
From Stdlib Require Import ZArith Lia.
From S2P Require Import Prelude CInt SnBits RbTree RbShape RbRun Buddy BuddySpec BuddyChunk BuddyInplace BuddyMemory RangeBlocks SnRange LargeRange.
Local Open Scope Z_scope.

Module SmallRange.
Import CInt SnBits Address RbTree RbRun Buddy RangeBlocks SnRange.

Abbreviation InplaceSt := BuddyInplace.InplaceSt.
#[local] Existing Instances BuddyInplace.BuddyInplaceRep BuddyInplace.BuddyInplaceLaws
  BuddyInplace.BuddyInplaceBuddy BuddyInplace.BuddyInplaceBuddyLaws.

(** [next_pow2_bits_const(sizeof(FreeChunk))], with two pointers of 8 bytes. *)
Definition MIN_BITS : Z := 4.
Definition MIN_CHUNK_BITS : Z := 14.
Definition MIN_CHUNK_SIZE : Z := 2 ^ MIN_CHUNK_BITS.

Lemma MIN_BITS_sizeof : next_pow2_bits_const (8 + 8) = Ok MIN_BITS.
Proof. done. Qed.

Record SmallBuddyRange (P : Type) := mkSmall { buddy_small : BSt (St := InplaceSt); parent : P }.
Arguments mkSmall {P} _ _.
Arguments buddy_small {P} _.
Arguments parent {P} _.

Section Ops.
Context {P : Type} `{Range P} (run_checks : bool).

Abbreviation SM := (M (SmallBuddyRange P)).

Definition on_buddy {A} (m : M BSt A) : SM A := λ s,
  match m (buddy_small s) with Ok (a, b) => Ok (a, mkSmall b (parent s)) | Err e => Err e end.
Definition on_parent {A} (m : M P A) : SM A := λ s,
  match m (parent s) with Ok (a, p) => Ok (a, mkSmall (buddy_small s) p) | Err e => Err e end.

Definition add_one (base align : Z) : SM unit :=
  if align <? MIN_CHUNK_SIZE then
    overflow ← on_buddy (add_block run_checks MIN_BITS MIN_CHUNK_BITS buddy_fuel base align);
    if negb (overflow =? 0) then
      top ← lift (one_at_bit MIN_CHUNK_BITS); on_parent (dealloc_range overflow top)
    else mret tt
  else on_parent (dealloc_range base align).

Definition add_range (base length : Z) : SM unit :=
  range_to_pow_2_blocks (λ base align _, add_one base align) MIN_BITS base length.

Definition refill (size : Z) : SM Z :=
  refill ← on_parent (alloc_range MIN_CHUNK_SIZE);
  (if negb (refill =? 0) then
     rest ← lift (pointer_offset refill size);
     add_range rest (to_size (MIN_CHUNK_SIZE - size))
   else mret tt);;
  mret refill.

(** [result->left = nullptr] and [result->right = nullptr] *)
Definition clear (direction : bool) (result : Z) : M BSt unit := λ '(s, e),
  match BuddyInplace.write s (Ref direction result) 0 with Ok s => Ok (tt, (s, e)) | Err x => Err x end.

Definition small_alloc (size : Z) : SM Z :=
  if MIN_CHUNK_SIZE <=? size then on_parent (alloc_range size)
  else
    result ← on_buddy (remove_block run_checks MIN_BITS MIN_CHUNK_BITS buddy_fuel size);
    if negb (result =? 0) then
      on_buddy (clear true result);;
      on_buddy (clear false result);;
      mret result
    else refill size.

Definition alloc_range_with_leftover (size : Z) : SM Z :=
  rsize ← lift (next_pow2 size);
  result ← small_alloc rsize;
  if result =? 0 then mret 0
  else
    remnant ← lift (pointer_offset result size);
    add_range remnant (to_size (rsize - size));;
    mret result.

Definition small_dealloc (base size : Z) : SM unit :=
  lift (assert_ (is_pow2 size));; add_range base size.

#[export] Instance SmallBuddyRange_range : Range (SmallBuddyRange P) := {
  Aligned := true;
  alloc_range := small_alloc;
  dealloc_range := small_dealloc;
}.

Lemma wp_small_buddy {A} (m : M BSt A) s (Q : A → SmallBuddyRange P → Prop) :
  wp m (buddy_small s) (λ a b, Q a (mkSmall b (parent s))) → wp (on_buddy m) s Q.
Proof. unfold wp, on_buddy. by destruct (m (buddy_small s)) as [[a b]|]. Qed.
Lemma wp_small_parent {A} (m : M P A) s (Q : A → SmallBuddyRange P → Prop) :
  wp m (parent s) (λ a p, Q a (mkSmall (buddy_small s) p)) → wp (on_parent m) s Q.
Proof. unfold wp, on_parent. by destruct (m (parent s)) as [[a p]|]. Qed.
End Ops.

(** ** The range is lawful *)

Section Laws.
Context {P : Type} `{Range P} (U : Z → Prop) `{!RangeLaws P U} (run_checks : bool).
Context (Hmin : @min_bits P _ U _ ≤ 14) (Hde : @can_dealloc P _ U _ = true).

Abbreviation LS := (SmallBuddyRange P).

(** The words of the memory are mapped. *)
Definition word_nodes (k : Z) : Prop := U k ∧ k mod 2 ^ MIN_BITS = 0.
Definition joins (_ _ : Z) : bool := true.

Abbreviation small_ok := (BuddyMemory.memory_ok word_nodes joins MIN_BITS MIN_CHUNK_BITS).

Definition small_inv (s : LS) (mem : Z → Prop) : Prop :=
  ∃ bm pm, small_ok (buddy_small s) bm ∧ @range_inv P _ U _ (parent s) pm ∧
    (∀ x, bm x → U x ∧ ¬ pm x) ∧ ∀ x, mem x ↔ bm x ∨ pm x.

Lemma small_inv_ext s mem mem' : small_inv s mem → (∀ x, mem' x ↔ mem x) → small_inv s mem'.
Proof.
  intros (bm & pm & Hb & Hp & Hd & Hm) He. exists bm, pm. split_and!; [done..|].
  intros x. by rewrite He.
Qed.

Lemma small_in s mem x : small_inv s mem → mem x → U x.
Proof.
  intros (bm & pm & _ & Hp & Hd & Hm) Hx. apply Hm in Hx as [Hx|Hx]; [by apply Hd|].
  by eapply (@range_in P _ U _ _ pm).
Qed.

Lemma small_tree_of n : 4 ≤ n < 14 →
  ∃ i, (i < BuddySpec.ntrees MIN_BITS MIN_CHUNK_BITS)%nat ∧ BuddySpec.bits MIN_BITS i = n.
Proof.
  intros Hn. exists (Z.to_nat (n - 4)).
  unfold BuddySpec.ntrees, trees_size, BuddySpec.bits, MIN_BITS, MIN_CHUNK_BITS. lia.
Qed.

Lemma small_memory_bound st bm x : small_ok st bm → bm x → x < 2 ^ 64 - 1.
Proof.
  intros (T & Hinv & _ & Hm) Hx. apply Hm in Hx as (i & a & Hi & Ha & Hx).
  pose proof (BuddySpec.bi_block _ _ _ _ _ _ _ Hinv i a Hi Ha) as (_ & _ & Hlt).
  unfold BuddySpec.in_block in Hx. lia.
Qed.

(** A block for the parent. *)
Lemma wp_give_parent n a b p bm pm (Q : unit → LS → Prop) :
  small_ok b bm → @range_inv P _ U _ p pm → (∀ x, bm x → U x ∧ ¬ pm x ∧ ¬ in_pow n a x) →
  14 ≤ n ≤ 62 → block n a → (∀ x, in_pow n a x → U x ∧ ¬ pm x) →
  (∀ s', small_inv s' (λ x, (bm x ∨ pm x) ∨ in_pow n a x) → Q tt s') →
  wp (on_parent (dealloc_range a (2 ^ n))) (mkSmall b p) Q.
Proof.
  intros Hb Hp Hd Hn Hblk Hx HQ. apply wp_small_parent.
  eapply wp_mono; [apply (@dealloc_law P _ U _ p pm n a Hde Hp); [lia|done|done]|].
  intros [] p' (pm' & Hp' & Hm'). apply HQ. exists bm, pm'. split_and!; [done|done| |].
  - intros x Hbx. destruct (Hd x Hbx) as (HU & Hn' & Hnb). split; [done|]. rewrite Hm'. tauto.
  - intros x. rewrite Hm'. tauto.
Qed.

Lemma wp_small_add_one n a s mem (Q : unit → LS → Prop) :
  small_inv s mem → 4 ≤ n ≤ 62 → block n a → (∀ x, in_pow n a x → U x ∧ ¬ mem x) →
  (∀ s', small_inv s' (λ x, mem x ∨ in_pow n a x) → Q tt s') →
  wp (add_one run_checks a (2 ^ n)) s Q.
Proof.
  intros (bm & pm & Hb & Hp & Hd & Hm) Hn Hblk Hx HQ. unfold add_one.
  change MIN_CHUNK_SIZE with (2 ^ 14). destruct s as [b p]. cbn [buddy_small parent] in *.
  destruct (Z.ltb_spec (2 ^ n) (2 ^ 14)) as [Hlt|Hge].
  2:{ eapply (wp_give_parent n a b p bm pm); [done|done| | |done| |].
    - intros x Hbx. destruct (Hd x Hbx) as [HU Hn']. split_and!; [done|done|].
      intros Hxa. apply (Hx x Hxa), Hm. by left.
    - split; [|lia]. apply (Z.pow_le_mono_r_iff 2); lia.
    - intros x Hxa. destruct (Hx x Hxa) as [HU Hnm]. split; [done|]. intros Hpx. apply Hnm, Hm. by right.
    - intros s' Hs'. apply HQ. eapply small_inv_ext; [exact Hs'|]. intros x. cbn beta. by rewrite Hm. }
  assert (Hn14 : n < 14) by (apply (Z.pow_lt_mono_r_iff 2); lia).
  destruct (small_tree_of n) as (i & Hi & Hbits); [lia|]. apply wp_bind, wp_small_buddy.
  rewrite <- Hbits at 1.
  eapply wp_mono; [apply (BuddyMemory.add_block_ok word_nodes joins run_checks MIN_BITS MIN_CHUNK_BITS
    ltac:(done) ltac:(done) ltac:(done) ltac:(done) i a _ bm Hb Hi)|].
  { unfold BuddySpec.is_block. by rewrite Hbits. }
  { intros x. unfold BuddySpec.in_block. rewrite Hbits. intros Hxa Hbx.
    destruct (Hx x Hxa) as [_ Hnm]. apply Hnm, Hm. by left. }
  { intros x. unfold BuddySpec.in_block. rewrite Hbits. intros Hxa Hxm. split; [by apply Hx|done]. }
  intros r b' (bm' & Hb' & Hadd). unfold BuddyMemory.add_result, BuddySpec.in_block, BuddySpec.in_top in Hadd.
  rewrite Hbits in Hadd. change MIN_CHUNK_BITS with 14 in Hadd. cbn [parent].
  assert (Hin : ∀ x, bm x ∨ a ≤ x < a + 2 ^ n → x < 2 ^ 64 - 1 ∧ U x ∧ ¬ pm x).
  { intros x [Hbx|Hxa].
    - split; [exact (small_memory_bound _ _ _ Hb Hbx)|by apply Hd].
    - destruct (Hx x Hxa) as [HU Hnm]. destruct Hblk as (_ & _ & Hlt'). split; [lia|].
      split; [done|]. intros Hpx. apply Hnm, Hm. by right. }
  destruct Hadd as [[-> Hbm']|(Hr0 & Hrm & Hrt & Hbm')].
  - cbn [Z.eqb negb]. apply wp_ret, HQ. exists bm', pm. split_and!; [done|done| |].
    + intros x Hbx. apply Hbm', Hin in Hbx as (_ & ? & ?). done.
    + intros x. cbn beta. rewrite Hm, Hbm'. unfold in_pow. tauto.
  - assert ((r =? 0) = false) as -> by (apply Z.eqb_neq; lia). cbn [negb].
    apply wp_bind. eapply wp_lift; [by apply one_at_bit_Ok|].
    change MIN_CHUNK_BITS with 14.
    eapply (wp_give_parent 14 r b' p bm' pm); [done|done| |lia| | |].
    + intros x Hbx. apply Hbm' in Hbx as [Hbx Hnr]. apply Hin in Hbx as (_ & ? & ?). done.
    + split_and!; [done|done|]. destruct (Hin (r + 2 ^ 14 - 1)) as [? _]; [apply Hrt|]; lia.
    + intros x Hxr. apply Hrt, Hin in Hxr as (_ & ? & ?). done.
    + intros s' Hs'. apply HQ. eapply small_inv_ext; [exact Hs'|]. intros x. cbn beta.
      rewrite Hm, Hbm'. specialize (Hrt x). unfold in_pow.
      set (top := r ≤ x < r + 2 ^ 14) in *. set (blk := a ≤ x < a + 2 ^ n) in *.
      assert (top ∨ ¬ top) as [|] by (unfold top; lia); clearbody top blk; tauto.
Qed.

(** The aligned part of a range is added. *)
Lemma wp_small_add_range base length s mem (Q : unit → LS → Prop) :
  let lo := first_block MIN_BITS base in let hi := last_block MIN_BITS base length in
  small_inv s mem → 0 < base → 0 ≤ length → is_size (base + length) →
  is_size (base + 2 ^ MIN_BITS - 1) → lo ≤ hi → hi - lo ≤ 2 ^ 62 →
  (∀ x, lo ≤ x < hi → U x ∧ ¬ mem x) →
  (∀ s', small_inv s' (λ x, mem x ∨ lo ≤ x < hi) → Q tt s') →
  wp (add_range run_checks base length) s Q.
Proof.
  intros lo hi Hinv Hb Hl Hs Hs' Hle Hlt Hx HQ. unfold add_range.
  assert (H14 : 0 ≤ MIN_BITS < 64) by done.
  apply (wp_range_to_pow_2_blocks _ MIN_BITS base length
    (λ b s', lo ≤ b ≤ hi ∧ small_inv s' (λ x, mem x ∨ lo ≤ x < b))); try done; [| |].
  - fold lo hi. intros b n first s1 Hn Hbn Hlo Hhi [_ Hinv1].
    assert (Hn' : n ≤ 62) by (apply (Z.pow_le_mono_r_iff 2); lia).
    assert (Hlob : 0 < lo).
    { unfold lo, first_block. pose proof (size_pow MIN_BITS H14).
      apply Z.mul_pos_pos; [apply Z.div_str_pos|]; lia. }
    assert (hi ≤ base + length).
    { unfold hi, last_block. rewrite Z.mul_comm. apply Z.mul_div_le. by apply Z.pow_pos_nonneg. }
    pose proof (Z.pow_pos_nonneg 2 n ltac:(lia) ltac:(lia)).
    eapply (wp_small_add_one n b s1); [exact Hinv1|unfold MIN_BITS in Hn; lia| | |].
    + split_and!; [lia|done|]. unfold is_size, SIZE_MAX in Hs. lia.
    + intros x Hxb. unfold in_pow in Hxb. destruct (Hx x) as [HU Hnm]; [lia|].
      split; [done|]. intros [?|?]; [done|lia].
    + intros s2 Hs2. split; [lia|]. eapply small_inv_ext; [exact Hs2|]. intros x. cbn beta.
      unfold in_pow. assert (lo ≤ x < b + 2 ^ n ↔ lo ≤ x < b ∨ b ≤ x < b + 2 ^ n) by lia. tauto.
  - fold lo. split; [lia|]. eapply small_inv_ext; [done|]. intros x. cbn beta.
    split; [intros [?|?]; [done|lia]|by left].
  - fold hi. intros s' [_ Hs2]. by apply HQ.
Qed.

(** A word of a node that is not free is written. *)
Lemma word_write_ok s s' e bm d r v :
  small_ok (s, e) bm → word_nodes r → ¬ bm r →
  BuddyInplace.write s (Ref d r) v = Ok s' → small_ok (s', e) bm.
Proof.
  intros Hb Hr Hn E. pose proof Hb as (T & Hinv & _). cbn [fst snd] in Hinv.
  destruct (BuddySpec.bi_holds _ _ _ _ _ _ _ Hinv) as (V & σ & Hs & _).
  assert (Hv : BuddyInplace.place_ok s (Ref d r)) by exact (sees_fresh _ _ _ _ _ Hs r Hr).
  destruct (BuddyInplace.write_Ok s (Ref d r) v Hv) as (s2 & E2 & [Hpv Hpr] & Hread).
  rewrite E in E2. injection E2 as <-.
  eapply (BuddyMemory.memory_ok_other word_nodes joins MIN_BITS MIN_CHUNK_BITS
    ltac:(done) ltac:(done) s s' e bm r); [done|done| | | |done].
  - by split_and!.
  - intros h Hh Hne. simpl. unfold BuddyInplace.get. rewrite Hread by (by destruct h).
    rewrite decide_False; [done|]. apply Hne.
  - intros k Hk Hkr. simpl. unfold BuddyInplace.colour. rewrite (Hread (Ref false k)) by exact Hk.
    rewrite decide_False; [done|congruence].
Qed.

Lemma wp_clear d r b bm (Q : unit → BSt → Prop) :
  small_ok b bm → word_nodes r → ¬ bm r → (∀ b', small_ok b' bm → Q tt b') → wp (clear d r) b Q.
Proof.
  intros Hb Hr Hn HQ. destruct b as [s e]. pose proof Hb as (T & Hinv & _). cbn [fst snd] in Hinv.
  destruct (BuddySpec.bi_holds _ _ _ _ _ _ _ Hinv) as (V & σ & Hs & _).
  assert (Hv : BuddyInplace.place_ok s (Ref d r)) by exact (sees_fresh _ _ _ _ _ Hs r Hr).
  destruct (BuddyInplace.write_Ok s (Ref d r) 0 Hv) as (s' & E & _ & _).
  unfold clear, wp. rewrite E. apply HQ. by eapply word_write_ok.
Qed.

(** [refill] takes a chunk from the parent and keeps what was not asked for. *)
Lemma wp_small_refill n s mem :
  small_inv s mem → 4 ≤ n < 14 →
  wp (refill run_checks (2 ^ n)) s (λ r s', ∃ mem', small_inv s' mem' ∧ taken n mem mem' r).
Proof.
  intros (bm & pm & Hb & Hp & Hd & Hm) Hn. unfold refill. apply wp_bind, wp_small_parent.
  change MIN_CHUNK_SIZE with (2 ^ 14).
  eapply wp_mono; [apply (@alloc_law P _ U _ _ pm 14 Hp); lia|].
  intros r p' (pm' & Hp' & Hr). destruct Hr as [[-> Hpm]|(Hblk & Hrp & Hpm)].
  { cbn [Z.eqb negb]. apply wp_bind, wp_ret, wp_ret. exists mem. split; [|by left].
    exists bm, pm'. split_and!; [done|done| |]; intros x; rewrite Hpm; [apply Hd|apply Hm]. }
  pose proof Hblk as (Hr0 & Hrm & Hrt).
  pose proof (Z.pow_pos_nonneg 2 n ltac:(lia) ltac:(lia)) as HPn.
  assert (Hnm : 2 ^ n ≤ 2 ^ 13) by (apply Z.pow_le_mono_r; lia).
  assert (Hn4 : 2 ^ 4 ≤ 2 ^ n) by (apply Z.pow_le_mono_r; lia).
  assert (Hdiv : ∀ k j, 0 ≤ k ≤ j → j ≤ 14 → (r + 2 ^ j) mod 2 ^ k = 0).
  { intros k j Hk Hj. apply Z.mod_divide; [apply Z.pow_nonzero; lia|].
    apply Z.divide_add_r; [|by apply LargeRange.pow_divide].
    eapply Z.divide_trans; [apply (LargeRange.pow_divide k 14); lia|].
    by apply Z.mod_divide; [apply Z.pow_nonzero; lia|]. }
  assert ((r =? 0) = false) as -> by (apply Z.eqb_neq; lia). cbn [negb].
  apply wp_bind, wp_bind. eapply wp_lift; [apply pointer_offset_Ok; lia|].
  rewrite (to_size_id (2 ^ 14 - 2 ^ n)) by (unfold is_size, SIZE_MAX; lia).
  destruct (LargeRange.blocks_aligned 4 (r + 2 ^ n) (2 ^ 14 - 2 ^ n)) as [Ef El]; [done|apply Hdiv; lia| |].
  { replace (r + 2 ^ n + (2 ^ 14 - 2 ^ n)) with (r + 2 ^ 14) by lia. apply Hdiv; lia. }
  replace (r + 2 ^ n + (2 ^ 14 - 2 ^ n)) with (r + 2 ^ 14) in El by lia.
  set (mem1 := λ x, bm x ∨ pm' x).
  eapply (wp_small_add_range (r + 2 ^ n) (2 ^ 14 - 2 ^ n) _ mem1);
    unfold MIN_BITS; rewrite ?Ef, ?El; try lia.
  - exists bm, pm'. split_and!; [done|done| |done].
    intros x Hx. destruct (Hd x Hx) as [HU Hn']. split; [done|]. rewrite Hpm. tauto.
  - unfold is_size, SIZE_MAX. lia.
  - unfold is_size, SIZE_MAX. lia.
  - intros x Hx. assert (Hpx : pm x) by (apply Hrp; unfold in_pow; lia).
    split; [by eapply (@range_in P _ U _ _ pm)|]. unfold mem1. intros [Hbx|Hpx'].
    + by destruct (Hd x Hbx).
    + apply Hpm in Hpx' as [_ Hnr]. apply Hnr. unfold in_pow. lia.
  - intros s' Hs'. apply wp_ret. eexists. split; [exact Hs'|]. right.
    assert (Hsub : ∀ x, in_pow n r x → in_pow 14 r x) by (unfold in_pow; lia).
    split; [|split].
    + split_and!; [done| |lia]. apply Z.mod_divide; [lia|].
      eapply Z.divide_trans; [apply (LargeRange.pow_divide n 14); lia|]. by apply Z.mod_divide; [lia|].
    + intros x Hx. apply Hm. right. by apply Hrp, Hsub.
    + intros x. unfold mem1. rewrite Hm, Hpm. unfold in_pow in *.
      specialize (Hrp x). specialize (Hd x). specialize (Hsub x).
      assert (r ≤ x < r + 2 ^ 14 ↔ r ≤ x < r + 2 ^ n ∨ r + 2 ^ n ≤ x < r + 2 ^ 14) as Hsplit by lia.
      assert (¬ (r ≤ x < r + 2 ^ n ∧ r + 2 ^ n ≤ x < r + 2 ^ 14)) as Hsep by lia.
      set (A := r ≤ x < r + 2 ^ 14) in *. set (B := r ≤ x < r + 2 ^ n) in *.
      set (D := r + 2 ^ n ≤ x < r + 2 ^ 14) in *.
      assert (A ∨ ¬ A) as HA by (unfold A; lia). clearbody A B D. tauto.
Qed.

Lemma wp_small_alloc n s mem :
  small_inv s mem → 4 ≤ n ≤ 63 →
  wp (small_alloc run_checks (2 ^ n)) s (λ r s', ∃ mem', small_inv s' mem' ∧ taken n mem mem' r).
Proof.
  intros Hinv Hn. unfold small_alloc. change MIN_CHUNK_SIZE with (2 ^ 14).
  destruct (Z.leb_spec (2 ^ 14) (2 ^ n)) as [Hbig|Hsmall].
  { destruct Hinv as (bm & pm & Hb & Hp & Hd & Hm). apply wp_small_parent.
    assert (14 ≤ n) by (apply (Z.pow_le_mono_r_iff 2); lia).
    eapply wp_mono; [apply (@alloc_law P _ U _ _ pm n Hp); lia|].
    intros r p' (pm' & Hp' & Hr). exists (λ x, bm x ∨ pm' x). split.
    - exists bm, pm'. split_and!; [done|done| |done]. intros x Hx. destruct (Hd x Hx) as [HU Hn'].
      split; [done|]. destruct Hr as [[_ Hr]|(_ & _ & Hr)]; rewrite Hr; tauto.
    - destruct Hr as [[-> Hr]|(Hblk & Hrp & Hr)]; [left|right].
      + split; [done|]. intros x. by rewrite Hr, Hm.
      + split; [done|]. split; [intros x Hx; apply Hm; right; by apply Hrp|].
        intros x. rewrite Hr, Hm. specialize (Hd x). specialize (Hrp x). tauto. }
  assert (HnM : n < 14) by (apply (Z.pow_lt_mono_r_iff 2); lia).
  destruct Hinv as (bm & pm & Hb & Hp & Hd & Hm).
  destruct (small_tree_of n) as (i & Hi & Hbits); [lia|].
  apply wp_bind, wp_small_buddy. rewrite <- Hbits at 1.
  eapply wp_mono; [apply (BuddyMemory.remove_block_ok word_nodes joins run_checks MIN_BITS MIN_CHUNK_BITS
    ltac:(done) ltac:(done) ltac:(done) ltac:(done) i _ bm Hb Hi)|].
  intros r b' (bm' & Hb' & Hr). unfold BuddyMemory.take_result, BuddySpec.is_block, BuddySpec.in_block in Hr.
  rewrite Hbits in Hr. destruct Hr as [(-> & Hbm & _)|(Hblk & Hrb & Hbm)].
  - cbn [Z.eqb negb]. apply (wp_small_refill n _ mem); [|lia].
    exists bm', pm. split_and!; [done|done| |]; intros x; rewrite Hbm; [apply Hd|apply Hm].
  - pose proof Hblk as (Hr0 & Hrm & _). assert ((r =? 0) = false) as -> by (apply Z.eqb_neq; lia).
    pose proof (Z.pow_pos_nonneg 2 n ltac:(lia) ltac:(lia)) as HPn.
    assert (Hrn : ¬ bm' r) by (rewrite Hbm; lia).
    assert (HrF : word_nodes r).
    { split; [apply Hd, Hrb; lia|]. apply Z.mod_divide; [done|].
      eapply Z.divide_trans; [apply (LargeRange.pow_divide MIN_BITS n); unfold MIN_BITS; lia|].
      by apply Z.mod_divide; [lia|]. }
    cbn [negb]. apply wp_bind, wp_small_buddy. cbn [buddy_small parent].
    eapply wp_clear; [done|done|done|]. intros b1 Hb1.
    apply wp_bind, wp_small_buddy. cbn [buddy_small parent].
    eapply wp_clear; [done|done|done|]. intros b2 Hb2.
    apply wp_ret. exists (λ x, bm' x ∨ pm x). split.
    + exists bm', pm. split_and!; [done|done| |done]. intros x Hx. apply Hbm in Hx as [Hx _]. by apply Hd.
    + right. split; [done|]. split; [intros x Hx; apply Hm; left; by apply Hrb|].
      intros x. rewrite Hbm, Hm. specialize (Hd x). specialize (Hrb x). unfold in_pow. tauto.
Qed.

(** A block that is given back is an aligned range of its own. *)
Lemma wp_small_dealloc n a s mem :
  small_inv s mem → 4 ≤ n ≤ 62 → block n a → (∀ x, in_pow n a x → U x ∧ ¬ mem x) →
  wp (small_dealloc run_checks a (2 ^ n)) s
    (λ _ s', ∃ mem', small_inv s' mem' ∧ ∀ x, mem' x ↔ mem x ∨ in_pow n a x).
Proof.
  intros Hinv Hn (Ha0 & Ham & Hat) Hx. unfold small_dealloc.
  apply wp_bind, wp_assert; [apply is_pow2_pow; lia|].
  pose proof (Z.pow_pos_nonneg 2 n ltac:(lia) ltac:(lia)) as HPn.
  assert (2 ^ 4 ≤ 2 ^ n) by (apply Z.pow_le_mono_r; lia).
  assert (Hd : (2 ^ 4 | a)).
  { eapply Z.divide_trans; [apply (LargeRange.pow_divide 4 n); lia|]. by apply Z.mod_divide; [lia|]. }
  destruct (LargeRange.blocks_aligned 4 a (2 ^ n)) as [Ef El]; [done|by apply Z.mod_divide| |].
  { apply Z.mod_divide; [done|]. apply Z.divide_add_r; [done|]. apply LargeRange.pow_divide. lia. }
  assert (2 ^ n ≤ 2 ^ 62) by (apply Z.pow_le_mono_r; lia).
  eapply (wp_small_add_range a (2 ^ n) s mem); unfold MIN_BITS; rewrite ?Ef, ?El; try done; try lia;
    try (unfold is_size, SIZE_MAX; lia).
  intros s' Hs'. by eexists.
Qed.

#[export] Program Instance SmallBuddyRange_laws :
    @RangeLaws (SmallBuddyRange P) (SmallBuddyRange_range run_checks) U := {
  min_bits := 4;
  can_dealloc := true;
  range_inv := small_inv;
}.
Next Obligation. done. Qed.
Next Obligation. intros s mem x. apply small_in. Qed.
Next Obligation. intros s mem n Hs Hn. by apply wp_small_alloc. Qed.
Next Obligation. intros s mem n a _ Hs Hn Hb Hx. by apply wp_small_dealloc. Qed.

(** [alloc_range_with_leftover] rounds the size up to 16 bytes only: the rest of the
    block stays in the range. *)
Lemma wp_alloc_with_leftover size s mem :
  small_inv s mem → 9 ≤ size ≤ 2 ^ 62 →
  wp (alloc_range_with_leftover run_checks size) s (λ r s', ∃ mem', small_inv s' mem' ∧
    ((r = 0 ∧ ∀ x, mem' x ↔ mem x) ∨
     (0 < r ∧ r mod 16 = 0 ∧ let top := r + (size + 15) / 16 * 16 in
      (∀ x, r ≤ x < top → mem x) ∧ ∀ x, mem' x ↔ mem x ∧ ¬ r ≤ x < top))).
Proof.
  intros Hinv Hs. unfold alloc_range_with_leftover. apply wp_bind.
  eapply wp_lift; [apply next_pow2_Ok; lia|]. set (n := ceil_log2 size).
  assert (Hn : 4 ≤ n ≤ 62).
  { split; [|apply ceil_log2_spec; lia]. apply Z.nlt_ge. intros Hlt.
    assert (Hle : ceil_log2 size ≤ 3) by (unfold n in Hlt; lia). apply ceil_log2_spec in Hle; lia. }
  pose proof (ceil_log2_le size ltac:(lia)) as Hsn. fold n in Hsn.
  assert (Hn4 : 2 ^ 4 ≤ 2 ^ n) by (apply Z.pow_le_mono_r; lia).
  assert (2 ^ n ≤ 2 ^ 62) by (apply Z.pow_le_mono_r; lia).
  apply wp_bind. eapply wp_mono; [apply (wp_small_alloc n s mem); [done|lia]|].
  intros r s1 (mem1 & Hinv1 & Hr). destruct Hr as [[-> Hm]|((Hr0 & Hrm & Hrt) & Hrmem & Hm)].
  { apply wp_ret. exists mem1. split; [done|by left]. }
  assert ((r =? 0) = false) as -> by (apply Z.eqb_neq; lia).
  apply wp_bind. eapply wp_lift; [apply pointer_offset_Ok; lia|].
  rewrite to_size_id by (unfold is_size, SIZE_MAX; lia).
  assert (Hdiv : (2 ^ 4 | r) ∧ (2 ^ 4 | 2 ^ n)).
  { split; [|apply LargeRange.pow_divide; lia].
    eapply Z.divide_trans; [apply (LargeRange.pow_divide 4 n); lia|]. by apply Z.mod_divide; [lia|]. }
  destruct Hdiv as [[c Hc] [c' Hc']]. set (top := r + (size + 15) / 16 * 16).
  assert (Ef : first_block 4 (r + size) = top).
  { unfold first_block, top. change (2 ^ 4) with 16 in *.
    replace (r + size + 16 - 1) with (size + 15 + c * 16) by lia. rewrite Z.div_add by lia. lia. }
  assert (El : last_block 4 (r + size) (2 ^ n - size) = r + 2 ^ n).
  { unfold last_block. change (2 ^ 4) with 16 in *.
    replace (r + size + (2 ^ n - size)) with ((c + c') * 16) by lia. rewrite Z.div_mul by lia. lia. }
  assert (Htop : r + size ≤ top ≤ r + 2 ^ n).
  { unfold top. change (2 ^ 4) with 16 in *. pose proof (Z.div_mod (size + 15) 16 ltac:(lia)).
    pose proof (Z.mod_pos_bound (size + 15) 16 ltac:(lia)).
    assert ((size + 15) / 16 ≤ c') by (apply Z.lt_succ_r, Z.div_lt_upper_bound; lia). lia. }
  apply wp_bind.
  eapply (wp_small_add_range (r + size) (2 ^ n - size) s1 mem1); unfold MIN_BITS; rewrite ?Ef, ?El;
    try done; try lia; try (unfold is_size, SIZE_MAX; lia).
  - intros x Hx. split; [|rewrite Hm; unfold in_pow; lia].
    eapply small_in; [exact Hinv|]. apply Hrmem. unfold in_pow. lia.
  - intros s2 Hs2. apply wp_ret. eexists. split; [exact Hs2|]. right. split; [done|]. split.
    { apply Z.mod_divide; [done|]. by exists c. }
    cbv zeta. fold top. split.
    + intros x Hx. apply Hrmem. unfold in_pow. lia.
    + intros x. rewrite Hm. specialize (Hrmem x). unfold in_pow in *.
      assert (r ≤ x < r + 2 ^ n ↔ r ≤ x < top ∨ top ≤ x < r + 2 ^ n) as Hsplit by lia.
      assert (¬ (r ≤ x < top ∧ top ≤ x < r + 2 ^ n)) as Hsep by lia.
      set (A := r ≤ x < r + 2 ^ n) in *. set (B := r ≤ x < top) in *.
      set (D := top ≤ x < r + 2 ^ n) in *.
      assert (B ∨ ¬ B) as HB by (unfold B; lia). assert (D ∨ ¬ D) as HD by (unfold D; lia).
      clearbody A B D. tauto.
Qed.

End Laws.

End SmallRange.
