(* ===== verification/RangeStack.v ===== *)
(** * The stack of ranges below the allocator

    [SmallBuddyRange] over [StatsRange] over [LargeBuddyRange] over a parent, as the
    back end composes them ([Pipe]): sequences of requests to the whole stack, and
    writes of the program to memory it owns. *)

From stdpp Require Import base list numbers gmap fin_maps.
From Stdlib Require Import ZArith Lia.
From S2P Require Import Prelude CInt SnBits MetaEntry RbTree RbShape RbRun Buddy BuddySpec BuddyChunk BuddyInplace BuddyMemory RangeBlocks SnRange LargeRange SmallRange.
Local Open Scope Z_scope.

Module RangeStack.
Import CInt RbTree RbRun SnRange.

(** ** Requests *)

(** [Alloc n] asks for [2 ^ n] bytes; [Free n a] gives the block of this size at [a] back. *)
Inductive request := Alloc (n : Z) | Free (n a : Z).

Section Requests.
Context {P : Type} `{Range P}.

Definition run_request (q : request) : M P Z :=
  match q with
  | Alloc n => alloc_range (2 ^ n)
  | Free n a => dealloc_range a (2 ^ n);; mret 0
  end.

Fixpoint run_requests (qs : list request) : M P (list Z) :=
  match qs with
  | [] => mret []
  | q :: qs => r ← run_request q; rs ← run_requests qs; mret (r :: rs)
  end.

Definition request_result (mem mem' : Z → Prop) (q : request) (r : Z) : Prop :=
  match q with
  | Alloc n => taken n mem mem' r
  | Free n a => r = 0 ∧ ∀ x, mem' x ↔ mem x ∨ in_pow n a x
  end.

(** Sizes from 16 bytes; only memory that the range does not hold is given back. *)
Definition request_ok (U mem : Z → Prop) (q : request) : Prop :=
  match q with
  | Alloc n => 4 ≤ n ≤ 63
  | Free n a => 4 ≤ n ≤ 62 ∧ block n a ∧ ∀ x, in_pow n a x → U x ∧ ¬ mem x
  end.

Fixpoint requests_ok (U mem : Z → Prop) (qs : list request) : Prop :=
  match qs with
  | [] => True
  | q :: qs => request_ok U mem q ∧ ∀ r mem', request_result mem mem' q r → requests_ok U mem' qs
  end.

Inductive answered : (Z → Prop) → list request → list Z → (Z → Prop) → Prop :=
| answered_nil mem : answered mem [] [] mem
| answered_cons mem mem' mem'' q qs r rs :
    request_result mem mem' q r → answered mem' qs rs mem'' → answered mem (q :: qs) (r :: rs) mem''.
End Requests.

(** A lawful range answers every sequence of requests. *)
Lemma run_requests_ok {P} `{Range P} U `{!RangeLaws P U} qs (p : P) mem :
  @min_bits P _ U _ ≤ 4 → @can_dealloc P _ U _ = true → @range_inv P _ U _ p mem →
  requests_ok U mem qs →
  wp (run_requests qs) p (λ rs p', ∃ mem', answered mem qs rs mem' ∧ @range_inv P _ U _ p' mem').
Proof.
  intros Hmin Hde. revert p mem; induction qs as [|q qs IH]; intros p mem Hp Hs.
  - apply wp_ret. exists mem. split; [constructor|done].
  - destruct Hs as [Hq Hs]. cbn [run_requests]. apply wp_bind.
    assert (Hrun : wp (run_request q) p (λ r p', ∃ mem', @range_inv P _ U _ p' mem' ∧ request_result mem mem' q r)).
    { destruct q as [n|n a]; cbn [run_request request_result request_ok] in *.
      - apply (@alloc_law P _ U _ p mem n); [done|lia].
      - destruct Hq as (Hn & Hb & Hx). apply wp_bind.
        eapply wp_mono; [apply (@dealloc_law P _ U _ p mem n a Hde Hp); [lia|done|done]|].
        intros [] p' (mem' & Hp' & Hm). apply wp_ret. by exists mem'. }
    eapply wp_mono; [exact Hrun|]. intros r p1 (mem1 & Hp1 & Hr). apply wp_bind.
    eapply wp_mono; [apply (IH p1 mem1); [done|by eapply Hs]|].
    intros rs p2 (mem2 & Ha & Hp2). apply wp_ret. exists mem2. split; [by econstructor|done].
Qed.

(** ** The stack *)

Section Stack.
Context (P : Type) `{Range P} (run_checks : bool) (REFILL MAX MIN_REFILL : Z).

Definition Chunks : Type := LargeRange.LargeBuddyRange P.
Definition Stack : Type := SmallRange.SmallBuddyRange (StatsRange Chunks).

Definition Chunks_range : Range Chunks :=
  LargeRange.LargeBuddyRange_range run_checks REFILL MAX MIN_REFILL.
Definition Stack_range : Range Stack :=
  @SmallRange.SmallBuddyRange_range _ (@StatsRange_range _ Chunks_range) run_checks.

Context (U : Z → Prop) `{!RangeLaws P U} (C : Z → Z → bool).

(** The memory of the stack: free blocks smaller than a chunk, chunks, and the memory of
    the parent. *)
Definition stack_inv (s : Stack) (mem : Z → Prop) : Prop :=
  ∃ bm cm pm,
    BuddyMemory.memory_ok (H := BuddyInplace.BuddyInplaceRep) (H0 := BuddyInplace.BuddyInplaceLaws)
      (H1 := BuddyInplace.BuddyInplaceBuddy) (H2 := BuddyInplace.BuddyInplaceBuddyLaws)
      (SmallRange.word_nodes U) SmallRange.joins 4 14 (SmallRange.buddy_small s) bm ∧
    BuddyMemory.memory_ok (H := BuddyChunk.BuddyChunkRep) (H0 := BuddyChunk.BuddyChunkLaws)
      (H1 := BuddyChunk.BuddyChunkBuddy) (H2 := BuddyChunk.BuddyChunkBuddyLaws)
      (LargeRange.chunk_nodes U) C 14 MAX
      (LargeRange.buddy_large (stats_parent (SmallRange.parent s))) cm ∧
    @range_inv P _ U _ (LargeRange.parent (stats_parent (SmallRange.parent s))) pm ∧
    0 ≤ LargeRange.requested_total (stats_parent (SmallRange.parent s)) ∧
    (∀ x, cm x → U x ∧ ¬ pm x) ∧ (∀ x, bm x → U x ∧ ¬ (cm x ∨ pm x)) ∧
    ∀ x, mem x ↔ bm x ∨ cm x ∨ pm x.

Lemma stack_inv_spec s mem (HR : 14 < MAX ≤ 63) (HR1 : 0 ≤ MIN_REFILL ≤ REFILL) (HR2 : REFILL ≤ MAX)
    (Hmin : @min_bits P _ U _ ≤ 14) (Hde : MAX = 63 ∨ @can_dealloc P _ U _ = true) :
  stack_inv s mem ↔
  SmallRange.small_inv (RangeLaws0 := @StatsRange_laws _ Chunks_range U
    (LargeRange.LargeBuddyRange_laws U C run_checks REFILL MAX MIN_REFILL HR HR1 HR2 Hmin Hde)) U s mem.
Proof.
  split.
  - intros (bm & cm & pm & Hb & Hc & Hp & Ht & Hcd & Hbd & Hm).
    exists bm, (λ x, cm x ∨ pm x). split_and!; [done| |done|done].
    exists cm, pm. by split_and!.
  - intros (bm & pm0 & Hb & (cm & pm & Hc & Hp & Ht & Hcd & Hpm) & Hbd & Hm).
    exists bm, cm, pm. split_and!; [done..| |].
    + intros x Hx. rewrite <- Hpm. by apply Hbd.
    + intros x. by rewrite Hm, Hpm.
Qed.

Lemma run_stack_ok qs s mem :
  14 < MAX ≤ 63 → 0 ≤ MIN_REFILL ≤ REFILL → REFILL ≤ MAX → @min_bits P _ U _ ≤ 14 →
  MAX = 63 ∨ @can_dealloc P _ U _ = true → stack_inv s mem → requests_ok U mem qs →
  wp (run_requests (H := Stack_range) qs) s
    (λ rs s', ∃ mem', answered mem qs rs mem' ∧ stack_inv s' mem').
Proof.
  intros HR HR1 HR2 Hmin Hde Hinv Hqs. apply (stack_inv_spec s mem HR HR1 HR2 Hmin Hde) in Hinv.
  pose (L := @StatsRange_laws _ Chunks_range U
    (LargeRange.LargeBuddyRange_laws U C run_checks REFILL MAX MIN_REFILL HR HR1 HR2 Hmin Hde)).
  eapply wp_mono.
  - apply (@run_requests_ok Stack Stack_range U
      (@SmallRange.SmallBuddyRange_laws _ _ U L run_checks ltac:(done) ltac:(done)) qs s mem);
      [done|done|exact Hinv|done].
  - intros rs s' (mem' & Ha & Hs'). exists mem'. split; [done|].
    by apply (stack_inv_spec s' mem' HR HR1 HR2 Hmin Hde).
Qed.
End Stack.

(** ** The properties *)

(** C5: the stack of ranges answers every sequence of requests without a fault: blocks
    that are given back and memory of the parent are what it holds, a request takes one
    aligned block of the size out of that memory or fails and changes nothing, so no
    byte is handed out twice and none is lost. *)
Theorem stack_keeps_memory (P : Type) `{Range P} (run_checks : bool) (REFILL MAX MIN_REFILL : Z)
    (U : Z → Prop) `{!RangeLaws P U} (C : Z → Z → bool) (qs : list request)
    (s : Stack P) (mem : Z → Prop) :
  14 < MAX ≤ 63 → 0 ≤ MIN_REFILL ≤ REFILL → REFILL ≤ MAX → @min_bits P _ U _ ≤ 14 →
  MAX = 63 ∨ @can_dealloc P _ U _ = true → stack_inv P MAX U C s mem → requests_ok U mem qs →
  ∃ rs s' mem', run_requests (H := Stack_range P run_checks REFILL MAX MIN_REFILL) qs s = Ok (rs, s') ∧
    answered mem qs rs mem' ∧ stack_inv P MAX U C s' mem'.
Proof.
  intros HR HR1 HR2 Hmin Hde Hinv Hqs.
  destruct (wp_run _ _ _ (run_stack_ok P run_checks REFILL MAX MIN_REFILL U C qs s mem HR HR1 HR2 Hmin Hde Hinv Hqs))
    as (rs & s' & E & mem' & Ha & Hs').
  by exists rs, s', mem'.
Qed.

(** The stack after the program has written [v] to the word of the block at [k]. *)
Definition program_write {P} (s : Stack P) (d : bool) (k v : Z) : result (Stack P) :=
  let '(m, e) := SmallRange.buddy_small s in
  m ← BuddyInplace.write m (Ref d k) v;
  Ok (SmallRange.mkSmall (m, e) (SmallRange.parent s)).

(** C26: the program may write any word of a block that it owns, although the allocator
    keeps its trees in the same memory: the trees and the memory they hold stay. *)
Theorem program_write_keeps (P : Type) `{Range P} (MAX : Z) (U : Z → Prop) `{!RangeLaws P U}
    (C : Z → Z → bool) (s : Stack P) (mem : Z → Prop) (d : bool) (k v : Z) :
  stack_inv P MAX U C s mem → U k → k mod 16 = 0 → ¬ mem k →
  ∃ s', program_write s d k v = Ok s' ∧ stack_inv P MAX U C s' mem.
Proof.
  intros (bm & cm & pm & Hb & Hc & Hp & Ht & Hcd & Hbd & Hm) HU Hk Hn.
  assert (Hnb : ¬ bm k) by (intros ?; apply Hn, Hm; by left).
  unfold program_write. destruct s as [[m e] p]. cbn [SmallRange.buddy_small SmallRange.parent] in *.
  pose proof Hb as (T & Hinv & _). cbn [fst snd] in Hinv.
  destruct (BuddySpec.bi_holds _ _ _ _ _ _ _ Hinv) as (V & σ & Hs & _).
  assert (Hv : BuddyInplace.place_ok m (Ref d k)).
  { exact (sees_fresh _ _ _ _ _ Hs k (conj HU Hk)). }
  destruct (BuddyInplace.write_Ok m (Ref d k) v Hv) as (m' & E & _ & _). rewrite E. cbn [mbind result_bind].
  eexists. split; [done|]. exists bm, cm, pm. split_and!; try done. cbn [SmallRange.buddy_small].
  exact (SmallRange.word_write_ok U m m' e bm d k v Hb (conj HU Hk) Hnb E).
Qed.

(** ** A sample *)

(** One chunk at 64 KiB: its words with arbitrary contents, its entry in the pagemap. *)
Definition sample_U (x : Z) : Prop := 65536 ≤ x < 81920.
Definition sample_words : gmap Z Z :=
  list_to_map ((λ n : nat, (65536 + 8 * Z.of_nat n, 12345)) <$> seq 0 2048).
Definition sample_chunks : BuddyChunk.ChunkSt :=
  BuddyChunk.mkSt {[4 := MetaEntry.empty_entry]} (repeat 0 49).
Definition sample_stack : Stack EmptyRange :=
  SmallRange.mkSmall (BuddyInplace.mkSt sample_words (repeat 0 10), 0)
    (mkStats 0 0 (LargeRange.mkLarge (sample_chunks, 0) 0 empty_range)).
Definition sample_C : Z → Z → bool :=
  BuddyMemory.answers (H := BuddyChunk.BuddyChunkBuddy) sample_chunks.

Lemma sample_word d k : sample_U k → k mod 16 = 0 → is_Some (sample_words !! BuddyInplace.field d k).
Proof.
  unfold sample_U. intros Hk Hm. apply not_eq_None_Some. unfold sample_words. intros Hn.
  apply not_elem_of_list_to_map in Hn. apply Hn. apply list_elem_of_fmap.
  set (j := Z.to_nat ((BuddyInplace.field d k - 65536) / 8)).
  exists (65536 + 8 * Z.of_nat j, 12345). pose proof (Z.div_mod k 16 ltac:(lia)) as Hd.
  assert (Hj : BuddyInplace.field d k = 65536 + 8 * Z.of_nat j ∧ (j < 2048)%nat).
  { unfold j, BuddyInplace.field.
    assert (E : ((if d then k else k + 8) - 65536) / 8 = 2 * (k / 16 - 4096) + (if d then 0 else 1)).
    { symmetry. apply Z.div_unique with 0; [by left|destruct d; lia]. }
    rewrite E. destruct d; lia. }
  destruct Hj as [-> Hj]. split; [done|]. apply list_elem_of_fmap. exists j. split; [done|].
  apply elem_of_seq. lia.
Qed.

#[local] Opaque sample_words.

Lemma sample_stack_inv : stack_inv EmptyRange 63 sample_U sample_C sample_stack (λ _, False).
Proof.
  exists (λ _, False), (λ _, False), (λ _, False). split_and!.
  - apply (BuddyMemory.memory_ok_init (H := BuddyInplace.BuddyInplaceRep)
      (H0 := BuddyInplace.BuddyInplaceLaws) (H1 := BuddyInplace.BuddyInplaceBuddy)
      (H2 := BuddyInplace.BuddyInplaceBuddyLaws)); [| |done].
    + intros k [HU Hk]. split; [unfold BuddyInplace.node_range, sample_U in *; split; [lia|done]|].
      intros d. by apply sample_word.
    + intros t Ht. unfold BuddySpec.R in Ht. change (BuddySpec.ntrees 4 14) with 10%nat in Ht. split.
      * simpl. unfold BuddyInplace.root_ok. simpl. lia.
      * do 10 (destruct t as [|t]; [done|]). lia.
  - apply (BuddyMemory.memory_ok_new (H := BuddyChunk.BuddyChunkRep)
      (H0 := BuddyChunk.BuddyChunkLaws) (H1 := BuddyChunk.BuddyChunkBuddy)
      (H2 := BuddyChunk.BuddyChunkBuddyLaws)); [done|done| |].
    + intros k [HU Hk]. unfold sample_U in HU. change BuddyChunk.MIN_CHUNK_BITS with 14 in Hk.
      apply Z.mod_divide in Hk as [c ->]; [|done]. assert (c = 4) as -> by lia.
      split; [done|]. eexists. split; [vm_compute; done|by right].
    + intros t Ht. unfold BuddySpec.R in Ht. change (BuddySpec.ntrees 14 63) with 49%nat in Ht. split.
      * simpl. unfold BuddyChunk.root_ok. simpl. lia.
      * do 49 (destruct t as [|t]; [done|]). lia.
  - by intros x ?.
  - done.
  - by intros x ?.
  - by intros x ?.
  - intros x. tauto.
Qed.

(** The chunk is given to the stack, split for 32 bytes and 8 KiB, and joined again. *)
Example sample_stack_run :
  fst <$> run_requests (H := Stack_range EmptyRange true 20 63 16)
    [Free 14 65536; Alloc 5; Alloc 13; Alloc 14; Free 13 73728; Free 5 65536; Alloc 14] sample_stack
  = Ok [0; 65536; 73728; 0; 0; 0; 65536].
Proof. vm_compute. done. Qed.

Lemma stack_keeps_memory_witness :
  let qs := [Free 14 65536; Alloc 5; Alloc 13; Alloc 14] in
  ∃ rs s' mem', run_requests (H := Stack_range EmptyRange true 20 63 16) qs sample_stack = Ok (rs, s') ∧
    answered (λ _, False) qs rs mem' ∧ stack_inv EmptyRange 63 sample_U sample_C s' mem'.
Proof.
  intros qs. apply (stack_keeps_memory EmptyRange true 20 63 16 sample_U sample_C qs sample_stack (λ _, False));
    [lia|lia|lia|done|by left|exact sample_stack_inv|].
  unfold qs, sample_U. cbn [requests_ok request_ok]. unfold block, in_pow.
  split; [split; [lia|split; [done|]]|].
  - intros x Hx. split; [lia|by intros ?].
  - intros r mem' _. split; [lia|]. intros r1 mem1 _. split; [lia|]. intros r2 mem2 _. by split.
Defined.

Lemma program_write_keeps_witness :
  ∃ s', program_write sample_stack true 65536 77 = Ok s' ∧
    stack_inv EmptyRange 63 sample_U sample_C s' (λ _, False).
Proof.
  apply (program_write_keeps EmptyRange 63 sample_U sample_C sample_stack (λ _, False) true 65536 77);
    [exact sample_stack_inv|unfold sample_U; lia|done|by intros ?].
Defined.

End RangeStack.
